(* ===== verification/_CoqProject ===== *)
-Q . S2P
Prelude.v
Tx.v
Utxo.v
Interval.v
ReachStore.v
Reach.v
RoseTree.v
ReachTree.v
ReachSearch.v
ReachCount.v
ReachPropagate.v
ReachResize.v
ReachReclaim.v
ReachReindex.v
ReachAdd.v
ReachDag.v
ReachTighten.v
ReachAdvance.v
Bytes.v
Hashing.v
SigHash.v
Header.v
HeaderThms.v
HeaderHash.v
ScriptNum.v
ScriptOps.v
ScriptEngine.v
ScriptSafe.v
ScriptParse.v
ScriptSpend.v
Address.v
AddressThms.v
ScriptStd.v
ScriptP2pkh.v
ScriptWitness.v
Uint.v
UintThms.v
Target.v
Ghostdag.v
GhostdagOrder.v
GhostdagMergeset.v
GhostdagColor.v
GhostdagRun.v
GhostdagWork.v
GhostdagThms.v
GhostdagInsert.v
GhostdagNode.v
GhostdagClaims.v
GhostdagWitness.v
Pow.v
PowThms.v
Window.v
WindowThms.v
Merkle.v
TxMerkle.v
Palw.v
PalwLeafTree.v
PalwDispatch.v
PalwDispatchThms.v
PalwBeacon.v
PalwBeaconThms.v
PalwBatch.v
PalwBatchThms.v
Mass.v
TxValidator.v
TxValidatorThms.v
DnsBond.v
DnsReward.v
DnsRules.v
Coinbase.v
DnsRewardThms.v
DnsRegistryThms.v
DnsRegistryClaims.v
DnsSlashThms.v
DnsScore.v
DnsAnchorThms.v
DnsScoreThms.v
DnsDormancyThms.v
DnsWitness.v
CoinbaseThms.v
