(* ===== verification/Prelude.v ===== *)
(** * MISAKA node: verification development

    A model of the consensus code of the MISAKA node (a block-DAG node with
    post-quantum signatures, in Rust) and theorems about it. Names of files are
    relative to the repository; definitions keep the names of the code where
    Rocq allows it, with a prefix where two types share a method name.

    ** How code is translated

    A function that may fail returns [outcome E A]: [Ok], [Err] (the error of
    the [Result]), [Panic] or [OutOfFuel]. The release profile checks
    overflow, so overflowing machine arithmetic, a failed [assert!], an
    [unwrap] of nothing and an index out of range are [Panic];
    [debug_assert!] is not modelled. The wide integers of [src/math] check
    overflow by [debug_assert!] only and wrap. Machine integers are in [Z] with
    their range as a hypothesis ([is_uint], [is_u64]); saturating and wrapping
    operations are written out. Hash maps and stores are [gmap]s; where the
    iteration order of a hash map can matter, theorems hold for every order. A
    loop bounded only by its data takes fuel, and the theorems about such a
    loop show that the fuel given suffices.

    Code outside the repository is a parameter: BLAKE2b, SHA-256 and ML-DSA-87
    ([Crypto] in Bytes), keccak, SHA3-512 and Argon2id ([PowPrimitives] in
    Pow), the random eviction of the signature cache ([Rng] in ScriptEngine).
    Nothing is assumed of a hash but its output length. A statement that needs
    collision resistance says instead that the property holds or that two
    strings, both named in the statement, collide.

    ** Parts of the program and where they are

    - Transactions and UTXO sets: Tx models [consensus/core/src/tx.rs] and
      [subnets.rs], Utxo models [consensus/core/src/utxo/]. Composing diffs
      refines applying them in sequence, [diff_from] is set difference, adding
      a transaction spends and creates what it says.
    - Reachability ([consensus/src/processes/reachability], the in-memory
      store): Interval, ReachStore and Reach hold the code; RoseTree and
      ReachTree the invariant; ReachSearch, ReachCount, ReachPropagate,
      ReachResize, ReachReclaim, ReachReindex, ReachTighten the algorithms;
      ReachAdd, ReachDag and ReachAdvance show that adding blocks and moving
      the reindex root keep the index, and that its queries decide
      reachability in the DAG, with concrete stores.
    - GHOSTDAG ([consensus/src/processes/ghostdag]): Ghostdag holds the code,
      over an interface for reachability. GhostdagOrder, GhostdagMergeset,
      GhostdagColor, GhostdagRun, GhostdagWork and GhostdagInsert hold the
      lemmas, GhostdagThms and GhostdagClaims the
      theorems (maximal k-cluster, exact merge set, work, distinct tickets,
      order). GhostdagNode discharges the interface with the index of
      Reach; GhostdagWitness gives instances.
    - Headers, hashes and proof of work: Bytes, Hashing, SigHash ([hashing/]),
      Header, HeaderThms, HeaderHash ([header.rs]), Pow, PowThms
      ([pow_layer0.rs], [consensus/pow], kHeavyHash). Encodings are
      injective, so digests commit to what they hash; the verdict of a proof
      of work is the comparison with its target.
    - Numbers: Uint, UintThms ([src/math]) and Target (compact targets, block
      work) refine arithmetic on [Z].
    - Windows and difficulty: Window models [window.rs], [difficulty.rs] and
      [past_median_time.rs]. WindowThms shows that the window of a block is the
      heaviest samples of its selected chain whatever is cached, that bits and
      past median time do not depend on the order of the heap (those of a lane
      do, on ties), that the lane engine agrees with the live one, and that a
      minority cannot move the median time.
    - Scripts ([crypto/txscript]): ScriptNum, ScriptOps, ScriptEngine,
      ScriptStd hold the code; ScriptSafe shows that execution never panics
      and obeys the post-quantum policy, ScriptParse that parsing and
      serializing are inverse, ScriptSpend and ScriptP2pkh that the standard
      output is spent exactly with a valid signature; ScriptWitness runs them.
    - Transaction validation ([consensus/src/processes/transaction_validator])
      and mass ([consensus/core/src/mass]): Mass and TxValidator hold the code.
      Mass shows when the storage mass divides by zero; TxValidatorThms that an
      accepted transaction conserves value and is signed by the owners of what
      it spends, and that validation does not panic. The payload checks of
      overlay transactions are arguments.
    - Addresses: Address, AddressThms ([crypto/addresses]): round trip and
      detection of one wrong character.
    - PALW, the audited-compute lane ([consensus/core/src/palw.rs]): Palw
      (digests, tickets), Merkle and PalwLeafTree (leaf proofs), PalwDispatch
      and PalwDispatchThms (the bond-weighted draw of providers), PalwBeacon
      and PalwBeaconThms (epoch beacon), PalwBatch and PalwBatchThms (batch
      life cycle, the view that the body processor folds for each block, the
      batch gate of a ticket).
    - DNS finality, the stake overlay ([consensus/core/src/dns_finality.rs] and
      its use in [pipeline/virtual_processor]): DnsBond holds the payloads,
      digests, bond records, registry mutations and dormancy, DnsReward the
      reward and slashing arithmetic and the epoch tallies, DnsRules the block
      rules, the slashing side effects, the rewards of a block and the
      persisted registry. DnsRegistryThms and DnsRegistryClaims show that the
      registry on disk is the walked view, that a reorganisation can be undone,
      that every row and stamp is what a transaction of the chain wrote, that
      rows are well formed, and when staging a chain aborts the process;
      DnsRewardThms that splits are exact and pools bounded, DnsSlashThms that
      slashing creates no money and that the deferred bonus can pay more than
      its pool. DnsScore holds the canonical anchors, the StakeScore, the
      recomputation of the finality state at a sink, the dormancy pass and the
      reorg gate. DnsAnchorThms shows that
      anchors are distinct, DnsScoreThms that votes count once, that a
      confirmation needs work and quorums, and that a confirmed anchor is
      dropped only for more work and more stake; DnsDormancyThms when a
      catch-up equals one pass per epoch, and that it need not; DnsWitness runs
      them. Borsh decoding ([DnsDecode])
      and the multiset hash ([Multiset], with its commutation laws) are
      parameters.
    - Coinbase ([consensus/src/processes/coinbase.rs], the coinbase checks of
      the body and virtual processors, [mining/src/block_template/builder.rs])
      and the transaction root ([consensus/core/src/merkle.rs]): Coinbase holds
      the subsidy schedule, the payload, the expected transaction, the
      composition with the validator rewards of DnsRules and the change of miner
      of a template; TxMerkle the array that holds the tree. CoinbaseThms shows
      the round trip of the payload, the total emission, that what a block mints
      stays within what it merges, that the expected transaction fits the types
      of its fields, so that an accepted coinbase is that transaction or
      collides with it, and that a template given to another miner is the one built for it;
      TxMerkle that the array computes the tree and that its root determines the
      body.

    How they interact: a header is hashed (Header) and its work checked (Pow)
    against a target (Target, Uint); GHOSTDAG colours its merge set by asking
    reachability, and reachability stores that merge set (GhostdagNode); the
    UTXO diff of a block is built from its transactions, which TxValidator
    checks and whose scripts the engine runs on digests from SigHash; the
    transactions a chain block accepts change the bond registry, and slashing
    changes its UTXO diff (DnsRules); the coinbase transaction pays the merge
    set that GHOSTDAG coloured, and the validators out of the pool it sets
    aside (Coinbase); the body processor folds the blue blocks of the merge set
    into the PALW view that later tickets read.

    ** Fuel

    Reach bounds every walk by the number of stored blocks, and Ghostdag its
    search likewise; ScriptEngine recurses on the script; the generator loop
    of the kHeavyHash matrix is bounded by a fuel argument, and its theorems
    assume that the fuel sufficed; the Merkle levels of PalwDispatch take the
    number of leaves; the dormancy catch-up of DnsScore takes one more than the
    buried epoch, which [dormancy_pass_returns] shows to suffice; the next
    power of two of TxMerkle takes the number of leaves, which
    [next_power_of_two_eq] shows to suffice.

    ** Not modelled

    The rest of the virtual processor (acceptance, header commitments, choice
    of virtual parents, the Header-v4 PALW fold, the classification of merged
    sources into reward classes), pruning and pruning proofs, the rest of PALW
    (provider bonds, certificates and votes, sampling, compute sets, data
    availability, the premium controller), the EVM lane, mempool and template
    selection: consensus logic that the development has not reached. Databases,
    RPC, p2p flows, wallet, command-line tools, notification, metrics and bindings: input and output
    around the consensus code, with no decision of it. In the parts that are
    modelled, formatting, serde, wasm glue, logging, memory estimators and test
    helpers are left out. *)

From stdpp Require Import base list gmap.
From Stdlib Require Import ZArith Lia.

Local Open Scope Z_scope.

(** ** Outcomes of Rust code

    A fallible Rust function returns [Result<T, E>] and may also panic: the
    release profile of the workspace sets [overflow-checks = true], so every
    overflowing machine operation, failed [assert!] and out-of-range index is
    a panic and not a wrapped value. A loop that the code bounds only by its
    data is modelled with fuel; [OutOfFuel] is the model running out of it,
    which the theorems exclude. *)
Inductive outcome (E A : Type) : Type :=
| Ok (a : A)
| Err (e : E)
| Panic
| OutOfFuel.
Arguments Ok {E A} a.
Arguments Err {E A} e.
Arguments Panic {E A}.
Arguments OutOfFuel {E A}.

#[export] Instance outcome_ret {E} : MRet (outcome E) := @Ok E.
#[export] Instance outcome_bind {E} : MBind (outcome E) := λ A B f m,
  match m with Ok a => f a | Err e => Err e | Panic => Panic | OutOfFuel => OutOfFuel end.
#[export] Instance outcome_fmap {E} : FMap (outcome E) := λ A B f m,
  match m with Ok a => Ok (f a) | Err e => Err e | Panic => Panic | OutOfFuel => OutOfFuel end.
#[export] Instance outcome_eq_dec {E A} `{EqDecision E, EqDecision A} :
  EqDecision (outcome E A).
Proof. solve_decision. Defined.

(** [map_err] re-labels the error of a call, as the [?] operator does through
    [From]. *)
Definition map_err {E E' A} (f : E → E') (m : outcome E A) : outcome E' A :=
  match m with Ok a => Ok a | Err e => Err (f e) | Panic => Panic | OutOfFuel => OutOfFuel end.

(** [Option::ok_or]. *)
Definition ok_or {E A} (o : option A) (e : E) : outcome E A :=
  match o with Some a => Ok a | None => Err e end.

(** [Option::unwrap], indexing and [expect]. *)
Definition unwrap {E A} (o : option A) : outcome E A :=
  match o with Some a => Ok a | None => Panic end.

(** [assert!]. *)
Definition assert_ {E} (b : bool) : outcome E unit :=
  if b then Ok tt else Panic.

(** A [for] loop over a slice whose body may return early with an error. *)
Fixpoint for_each {E A St} (f : St → A → outcome E St) (l : list A) (s : St) : outcome E St :=
  match l with
  | [] => Ok s
  | a :: l => s' ← f s a; for_each f l s'
  end.

Lemma bind_Ok {E A B} (m : outcome E A) (f : A → outcome E B) b :
  (m ≫= f) = Ok b ↔ ∃ a, m = Ok a ∧ f a = Ok b.
Proof.
  split; [destruct m; [eauto|done..] | by intros (a & -> & ?)].
Qed.

Lemma for_each_app {E A St} (f : St → A → outcome E St) l1 l2 s :
  for_each f (l1 ++ l2) s = (for_each f l1 s ≫= for_each f l2).
Proof.
  revert s. induction l1 as [|a l1 IH]; intros s; [done|]; simpl.
  destruct (f s a); simpl; auto.
Qed.

(** The rule for loops: an invariant indexed by what is left to iterate. *)
Lemma for_each_ind {E A St} (f : St → A → outcome E St) (I : list A → St → Prop) l s :
  I l s →
  (∀ a l s, I (a :: l) s → ∃ s', f s a = Ok s' ∧ I l s') →
  ∃ s', for_each f l s = Ok s' ∧ I [] s'.
Proof.
  intros Hs Hstep. revert s Hs. induction l as [|a l IH]; intros s Hs; [eauto|].
  destruct (Hstep _ _ _ Hs) as (s' & Hf & Hs'). simpl. rewrite Hf. apply (IH _ Hs').
Qed.

Lemma for_each_fmap {E A B St} (f : St → B → outcome E St) (g : A → B) l s :
  for_each f (g <$> l) s = for_each (λ s a, f s (g a)) l s.
Proof.
  revert s. induction l as [|a l IH]; intros s; [done|]. simpl.
  destruct (f s (g a)); simpl; auto.
Qed.

Lemma for_each_ext {E A St} (f g : St → A → outcome E St) l s :
  (∀ s a, a ∈ l → f s a = g s a) → for_each f l s = for_each g l s.
Proof.
  revert s. induction l as [|a l IH]; intros s H; [done|]. simpl.
  rewrite (H s a) by set_solver. destruct (g s a); [|done..]. simpl. apply IH. set_solver.
Qed.

Lemma foldl_ext {A B} (f g : A → B → A) l a :
  (∀ a b, f a b = g a b) → foldl f a l = foldl g a l.
Proof. intros H. revert a. induction l as [|b l IH]; intros a; [done|]. simpl. by rewrite H. Qed.

(** A loop over indices that reads one list is a loop over the list. *)
Lemma for_each_seq {E A St} (g : St → nat → outcome E St) (h : St → A → outcome E St) l k s :
  (∀ i x s, l !! i = Some x → g s (k + i)%nat = h s x) →
  for_each g (seq k (length l)) s = for_each h l s.
Proof.
  revert k s. induction l as [|a l IH]; intros k s H; [done|]. simpl.
  pose proof (H 0%nat a s eq_refl) as H0. rewrite Nat.add_0_r in H0. rewrite H0.
  destruct (h s a) as [s'| | |]; [|done..]. simpl. apply IH.
  intros i x s'' Hi. rewrite <- (H (S i) x s'' Hi). f_equal. lia.
Qed.

Lemma list_filter_ext_in {A} (P1 P2 : A → Prop) `{!∀ x, Decision (P1 x), !∀ x, Decision (P2 x)} (l : list A) :
  (∀ x, x ∈ l → P1 x ↔ P2 x) → filter P1 l = filter P2 l.
Proof.
  induction l as [|x l IH]; intros Hx; [done|]. rewrite !filter_cons.
  rewrite IH by (intros y Hy; apply Hx; set_solver).
  destruct (decide (P1 x)) as [HP|HP]; rewrite (Hx x) in HP by set_solver.
  - by rewrite decide_True.
  - by rewrite decide_False.
Qed.

(** ** Machine integers

    A [u64] is a [Z] between [0] and [2^64 - 1]; arithmetic is checked. *)
Definition U64_MAX : Z := 2 ^ 64 - 1.
Definition U32_MAX : Z := 2 ^ 32 - 1.
Definition in_u64 (z : Z) : bool := (0 <=? z) && (z <=? U64_MAX).

Definition chk64 {E} (z : Z) : outcome E Z := if in_u64 z then Ok z else Panic.
Definition add64 {E} (a b : Z) : outcome E Z := chk64 (a + b).
Definition sub64 {E} (a b : Z) : outcome E Z := chk64 (a - b).
Definition mul64 {E} (a b : Z) : outcome E Z := chk64 (a * b).

(** [u64::saturating_add], [saturating_sub], [wrapping_add] ... *)
Definition sat_add64 (a b : Z) : Z := Z.min (a + b) U64_MAX.
Definition sat_sub64 (a b : Z) : Z := Z.max (a - b) 0.
Definition sat_mul64 (a b : Z) : Z := Z.min (a * b) U64_MAX.
Definition checked_add64 (a b : Z) : option Z := if in_u64 (a + b) then Some (a + b) else None.
Definition checked_sub64 (a b : Z) : option Z := if in_u64 (a - b) then Some (a - b) else None.
Definition checked_mul64 (a b : Z) : option Z := if in_u64 (a * b) then Some (a * b) else None.

(** [iter().sum::<u64>()]. *)
Fixpoint sum64 {E} (l : list Z) (acc : Z) : outcome E Z :=
  match l with
  | [] => Ok acc
  | a :: l => acc' ← add64 acc a; sum64 l acc'
  end.
Definition sumZ (l : list Z) : Z := foldr Z.add 0 l.
Arguments sumZ : simpl never.

Definition is_u64 (z : Z) : Prop := 0 ≤ z ≤ U64_MAX.

Lemma in_u64_spec z : in_u64 z = true ↔ is_u64 z.
Proof. unfold in_u64, is_u64. lia. Qed.

Lemma chk64_Ok {E} z : is_u64 z → @chk64 E z = Ok z.
Proof. unfold chk64. intros ?%in_u64_spec. by rewrite H. Qed.

Lemma chk64_inv {E} z r : @chk64 E z = Ok r → r = z ∧ is_u64 z.
Proof. unfold chk64. destruct (in_u64 z) eqn:H; [|done]. apply in_u64_spec in H. naive_solver. Qed.

Lemma sumZ_app l1 l2 : sumZ (l1 ++ l2) = sumZ l1 + sumZ l2.
Proof. unfold sumZ. induction l1 as [|a l1 IH]; simpl; lia. Qed.

Lemma sumZ_cons a l : sumZ (a :: l) = a + sumZ l.
Proof. done. Qed.

Lemma sumZ_mono {A} (f g : A → Z) (l : list A) :
  (∀ x, x ∈ l → f x ≤ g x) → sumZ (f <$> l) ≤ sumZ (g <$> l).
Proof.
  induction l as [|a l IH]; intros H; [done|]. rewrite !fmap_cons, !sumZ_cons.
  pose proof (H a ltac:(by left)). assert (sumZ (f <$> l) ≤ sumZ (g <$> l)); [|lia].
  apply IH. intros x Hx. apply H. by right.
Qed.

Lemma sumZ_perm l l' : l ≡ₚ l' → sumZ l = sumZ l'.
Proof. induction 1; rewrite ?sumZ_cons; lia. Qed.

Lemma sumZ_nonneg l : Forall (λ z, 0 ≤ z) l → 0 ≤ sumZ l.
Proof. induction 1; rewrite ?sumZ_cons; [done|lia]. Qed.

Lemma sum64_Ok {E} l acc :
  0 ≤ acc → Forall (λ z, 0 ≤ z) l → acc + sumZ l ≤ U64_MAX →
  @sum64 E l acc = Ok (acc + sumZ l).
Proof.
  intros Hacc Hl. revert acc Hacc. induction Hl as [|a l Ha Hl IH]; intros acc Hacc Hb; simpl.
  { f_equal. unfold sumZ. simpl. lia. }
  rewrite sumZ_cons in Hb |- *. pose proof (sumZ_nonneg _ Hl).
  unfold add64. rewrite chk64_Ok by (unfold is_u64; lia). simpl.
  rewrite IH by lia. f_equal. lia.
Qed.

Lemma sum64_inv {E} l acc r :
  @sum64 E l acc = Ok r → r = acc + sumZ l.
Proof.
  revert acc. induction l as [|a l IH]; intros acc; simpl.
  { intros [= ->]. unfold sumZ. simpl. lia. }
  intros (x & Hx & Hr)%bind_Ok. apply chk64_inv in Hx as [-> _].
  apply IH in Hr. rewrite sumZ_cons. lia.
Qed.

(** ** Hash maps

    A [HashMap] is a [gmap]; its iteration order is unspecified in Rust, so
    the code that iterates over one takes the order as a parameter: some
    enumeration of the bindings, each exactly once. *)
Class HashIter (K V : Type) `{Countable K} := {
  hash_iter : gmap K V → list (K * V);
  hash_iter_perm m : hash_iter m ≡ₚ map_to_list m;
}.

(** One such order, for running the definitions. *)
Definition canonical_iter (K V : Type) `{Countable K} : HashIter K V :=
  {| hash_iter := map_to_list; hash_iter_perm := λ m, reflexivity _ |}.

Section hash_iter.
Context {K V : Type} `{Countable K} `{!HashIter K V}.
Implicit Types (m : gmap K V) (l : list (K * V)).

Lemma hash_iter_NoDup m : NoDup (hash_iter m).*1.
Proof. rewrite hash_iter_perm. apply NoDup_fst_map_to_list. Qed.

Lemma elem_of_hash_iter m k v : (k, v) ∈ hash_iter m ↔ m !! k = Some v.
Proof. rewrite hash_iter_perm. apply elem_of_map_to_list. Qed.

(** A loop that inserts the bindings a test selects. *)
Lemma foldl_insert_if (f : K → V → bool) l m k :
  NoDup l.*1 →
  foldl (λ m '(k, v), if f k v then <[k:=v]> m else m) m l !! k =
    match (list_to_map l : gmap K V) !! k with
    | Some v => if f k v then Some v else m !! k
    | None => m !! k
    end.
Proof.
  revert m. induction l as [|[k' v'] l IH]; intros m; [done|].
  rewrite fmap_cons, NoDup_cons. intros [Hk Hl]. simpl. rewrite IH by done.
  destruct (decide (k = k')) as [->|Hne].
  - rewrite lookup_insert_eq, not_elem_of_list_to_map_1 by done.
    destruct (f k' v'); by rewrite ?lookup_insert_eq.
  - rewrite lookup_insert_ne by done.
    destruct (f k' v'); by rewrite ?lookup_insert_ne.
Qed.

Lemma foldl_delete l m k :
  foldl (λ m '(k, _), delete k m) m l !! k =
    match (list_to_map l : gmap K V) !! k with Some _ => None | None => m !! k end.
Proof.
  revert m. induction l as [|[k' v'] l IH]; intros m; [done|]. simpl. rewrite IH.
  destruct (decide (k = k')) as [->|Hne].
  - rewrite lookup_insert_eq, lookup_delete_eq. by case_match.
  - by rewrite lookup_insert_ne, lookup_delete_ne by done.
Qed.

Lemma list_to_map_hash_iter m : list_to_map (hash_iter m) = m.
Proof.
  rewrite (list_to_map_proper (M:=gmap K) (hash_iter m) (map_to_list m)).
  - apply list_to_map_to_list.
  - apply hash_iter_NoDup.
  - apply hash_iter_perm.
Qed.
End hash_iter.

(** ** Automation *)

(** Consume a successful run of monadic code: split every bind, and turn the
    checked operations into equations with their bounds. *)
Ltac inv_outcome :=
  repeat match goal with
  | H : mbind _ _ = Ok _ |- _ =>
      let x := fresh "x" in let Hx := fresh "Hx" in
      apply bind_Ok in H; destruct H as (x & Hx & H)
  | H : chk64 _ = Ok _ |- _ => apply chk64_inv in H; destruct H as [-> ?]
  | H : add64 _ _ = Ok _ |- _ => apply chk64_inv in H; destruct H as [-> ?]
  | H : sub64 _ _ = Ok _ |- _ => apply chk64_inv in H; destruct H as [-> ?]
  | H : mul64 _ _ = Ok _ |- _ => apply chk64_inv in H; destruct H as [-> ?]
  | H : Ok _ = Ok _ |- _ => injection H as H
  | H : Err _ = Ok _ |- _ => discriminate H
  | H : Panic = Ok _ |- _ => discriminate H
  | H : OutOfFuel = Ok _ |- _ => discriminate H
  | H : Err _ = Err _ |- _ => injection H as H
  end.

(** Run monadic code forward: discharge a checked operation by [lia]. *)
Ltac chk :=
  unfold add64, sub64, mul64;
  repeat (rewrite chk64_Ok by (unfold is_u64, U64_MAX in *; lia); cbn [mbind outcome_bind]).

(** [set_solver] from the named hypotheses only. *)
Tactic Notation "ss" hyp_list(Hs) := clear -Hs; set_solver.

Create HintDb misaka.
Create Rewrite HintDb misaka.
#[export] Hint Resolve sumZ_nonneg : misaka.
#[export] Hint Rewrite @sumZ_app @sumZ_cons : misaka.
