(* ===== verification/Tx.v ===== *)
(** * Transactions: the consensus data model

    Models [src/consensus/core/src/tx.rs] and [src/consensus/core/src/subnets.rs]:
    outpoints, UTXO entries, inputs, outputs, transactions, the populated
    transactions the validator works on, and the subnetwork predicates.
    A [Hash64] is its 512-bit value; byte strings are lists of bytes in [Z]. *)

From stdpp Require Import base list gmap.
From Stdlib Require Import ZArith Lia.
From S2P Require Import Prelude.

Local Open Scope Z_scope.

Abbreviation byte := Z (only parsing).
Abbreviation Hash64 := Z (only parsing).
Abbreviation TransactionId := Z (only parsing).
Abbreviation BlockHash := Z (only parsing).

(** ** Subnetworks *)

Definition SUBNETWORK_ID_SIZE : nat := 20.
Record SubnetworkId := mkSubnetworkId { subnetwork_bytes : list byte }.
#[export] Instance SubnetworkId_eq_dec : EqDecision SubnetworkId.
Proof. solve_decision. Defined.

Definition from_byte (b : byte) : SubnetworkId :=
  mkSubnetworkId (b :: replicate (SUBNETWORK_ID_SIZE - 1) 0).

Definition SUBNETWORK_ID_NATIVE := from_byte 0.
Definition SUBNETWORK_ID_COINBASE := from_byte 1.
Definition SUBNETWORK_ID_REGISTRY := from_byte 2.
Definition SUBNETWORK_ID_STAKE_BOND := from_byte 16.
Definition SUBNETWORK_ID_STAKE_ATTESTATION_SHARD := from_byte 17.
Definition SUBNETWORK_ID_SLASHING_EVIDENCE := from_byte 18.
Definition SUBNETWORK_ID_STAKE_UNBOND := from_byte 19.
Definition SUBNETWORK_ID_EVM_DEPOSIT := from_byte 32.
Definition SUBNETWORK_ID_EVM_WITHDRAW_CLAIM := from_byte 33.
Definition SUBNETWORK_ID_EVM_ADMIN := from_byte 34.

Definition is_builtin (s : SubnetworkId) : bool :=
  bool_decide (s = SUBNETWORK_ID_COINBASE) || bool_decide (s = SUBNETWORK_ID_REGISTRY).
Definition is_native (s : SubnetworkId) : bool := bool_decide (s = SUBNETWORK_ID_NATIVE).
Definition is_builtin_or_native (s : SubnetworkId) : bool := is_native s || is_builtin s.
Definition is_dns_overlay (s : SubnetworkId) : bool :=
  bool_decide (s = SUBNETWORK_ID_STAKE_BOND)
  || bool_decide (s = SUBNETWORK_ID_STAKE_ATTESTATION_SHARD)
  || bool_decide (s = SUBNETWORK_ID_SLASHING_EVIDENCE)
  || bool_decide (s = SUBNETWORK_ID_STAKE_UNBOND).
Definition is_evm_overlay (s : SubnetworkId) : bool :=
  bool_decide (s = SUBNETWORK_ID_EVM_DEPOSIT)
  || bool_decide (s = SUBNETWORK_ID_EVM_WITHDRAW_CLAIM)
  || bool_decide (s = SUBNETWORK_ID_EVM_ADMIN).
Definition is_palw_overlay (s : SubnetworkId) : bool :=
  match subnetwork_bytes s with
  | b :: rest => (48 <=? b) && (b <=? 60) && forallb (λ b, b =? 0) rest
  | [] => false
  end.
Definition palw_tx_kind (s : SubnetworkId) : option byte :=
  if is_palw_overlay s then head (subnetwork_bytes s) else None.

(** ** Scripts, outpoints, entries, transactions *)

Record ScriptPublicKey := mkScriptPublicKey {
  spk_version : Z;
  spk_script : list byte;
}.
#[export] Instance ScriptPublicKey_eq_dec : EqDecision ScriptPublicKey.
Proof. solve_decision. Defined.

Record TransactionOutpoint := mkOutpoint {
  transaction_id : TransactionId;
  index : Z;
}.
#[export] Instance TransactionOutpoint_eq_dec : EqDecision TransactionOutpoint.
Proof. solve_decision. Defined.
#[export] Instance TransactionOutpoint_countable : Countable TransactionOutpoint.
Proof.
  apply (inj_countable' (λ o, (transaction_id o, index o)) (λ p, mkOutpoint p.1 p.2)).
  by intros [].
Defined.

Record UtxoEntry := mkUtxoEntry {
  amount : Z;
  script_public_key : ScriptPublicKey;
  block_daa_score : Z;
  entry_is_coinbase : bool;
}.
#[export] Instance UtxoEntry_eq_dec : EqDecision UtxoEntry.
Proof. solve_decision. Defined.

Record TransactionInput := mkInput {
  previous_outpoint : TransactionOutpoint;
  signature_script : list byte;
  sequence : Z;
  sig_op_count : Z;
}.
Record TransactionOutput := mkOutput {
  value : Z;
  out_script_public_key : ScriptPublicKey;
}.

(** The transaction id is a cached field: [Transaction::id] reads it and
    [finalize] sets it. *)
Record Transaction := mkTransaction {
  tx_version : Z;
  inputs : list TransactionInput;
  outputs : list TransactionOutput;
  lock_time : Z;
  subnetwork_id : SubnetworkId;
  gas : Z;
  payload : list byte;
  mass_commitment : Z;
  tx_id : TransactionId;
}.

Definition is_coinbase (tx : Transaction) : bool :=
  bool_decide (subnetwork_id tx = SUBNETWORK_ID_COINBASE).

(** [PopulatedTransaction]: a transaction with the UTXO entry of each input;
    the constructor asserts that the lengths agree. *)
Record PopulatedTransaction := mkPopulated {
  pop_tx : Transaction;
  entries : list UtxoEntry;
}.

Definition PopulatedTransaction_new {E} (tx : Transaction) (es : list UtxoEntry) :
    outcome E PopulatedTransaction :=
  _ ← assert_ (bool_decide (length (inputs tx) = length es));
  Ok (mkPopulated tx es).

(** [VerifiableTransaction::populated_input]: indexing panics out of range. *)
Definition populated_input {E} (t : PopulatedTransaction) (i : nat) :
    outcome E (TransactionInput * UtxoEntry) :=
  input ← unwrap (inputs (pop_tx t) !! i);
  entry ← unwrap (entries t !! i);
  Ok (input, entry).

Definition well_populated (t : PopulatedTransaction) : Prop :=
  length (inputs (pop_tx t)) = length (entries t).
#[export] Instance well_populated_dec t : Decision (well_populated t).
Proof. unfold well_populated. apply _. Defined.

Lemma populated_input_Ok {E} t i inp e :
  inputs (pop_tx t) !! i = Some inp → entries t !! i = Some e →
  @populated_input E t i = Ok (inp, e).
Proof. unfold populated_input. by intros -> ->. Qed.
