(* ===== verification/Utxo.v ===== *)
(** * The UTXO diff algebra

    Models [src/consensus/core/src/utxo/]: [utxo_collection.rs] (collections
    of entries keyed by outpoint and the loops over them that compare DAA
    scores), [utxo_diff.rs] (a diff is the entries added to and removed from
    a base set; diffs are composed, compared and fed with transactions),
    [utxo_view.rs] (views composed from a base and diffs) and [utxo_error.rs].

    The specification is the set level: a diff denotes the function
    [apply_diff] on UTXO sets, on the sets it is [valid_on]. *)

From stdpp Require Import base list gmap strings.
From Stdlib Require Import ZArith Lia.
From S2P Require Import Prelude Tx.

Local Open Scope Z_scope.

Abbreviation UtxoCollection := (gmap TransactionOutpoint UtxoEntry).

Inductive UtxoAlgebraError : Type :=
| DuplicateRemovePoint (o : TransactionOutpoint)
| DuplicateAddPoint (o : TransactionOutpoint)
| DoubleRemoveCall (o : TransactionOutpoint)
| DoubleAddCall (o : TransactionOutpoint)
| DiffIntersectionPoint (o : TransactionOutpoint) (desc : string)
| General (desc : string).

(** ** Collections *)
Section Collections.
Context `{!HashIter TransactionOutpoint UtxoEntry}.

Definition contains_with_daa_score (c : UtxoCollection) (o : TransactionOutpoint) (daa_score : Z) : bool :=
  match c !! o with
  | Some entry => block_daa_score entry =? daa_score
  | None => false
  end.

Definition add_collection (self other : UtxoCollection) : UtxoCollection :=
  foldl (λ m '(k, v), <[k:=v]> m) self (hash_iter other).

Definition remove_collection (self other : UtxoCollection) : UtxoCollection :=
  foldl (λ m '(k, _), delete k m) self (hash_iter other).

Definition contains_key (c : UtxoCollection) (o : TransactionOutpoint) : bool :=
  match c !! o with Some _ => true | None => false end.

Definition intersects (self other : UtxoCollection) : bool :=
  let '(keys, other) :=
    if (size self <=? size other)%nat then (hash_iter self, other) else (hash_iter other, self) in
  existsb (λ kv, contains_key other kv.1) keys.

Definition intersects_with_rule (self other : UtxoCollection)
    (rule : TransactionOutpoint → UtxoEntry → UtxoEntry → bool) : option TransactionOutpoint :=
  if (size self <=? size other)%nat then
    fst <$> List.find (λ '(k, v1), match other !! k with Some v2 => rule k v1 v2 | None => false end)
              (hash_iter self)
  else
    fst <$> List.find (λ '(k, v2), match self !! k with Some v1 => rule k v1 v2 | None => false end)
              (hash_iter other).

Definition intersection_with_remainder_having_daa_score_in_place
    (this other result remainder : UtxoCollection) : UtxoCollection * UtxoCollection :=
  foldl (λ '(result, remainder) '(outpoint, entry),
    if contains_with_daa_score other outpoint (block_daa_score entry)
    then (<[outpoint:=entry]> result, remainder)
    else (result, <[outpoint:=entry]> remainder)) (result, remainder) (hash_iter this).

Definition subtraction_having_daa_score_in_place (this other result : UtxoCollection) : UtxoCollection :=
  foldl (λ result '(outpoint, entry),
    if negb (contains_with_daa_score other outpoint (block_daa_score entry))
    then <[outpoint:=entry]> result else result) result (hash_iter this).

Definition subtraction_with_remainder_having_daa_score_in_place
    (this other result remainder : UtxoCollection) : UtxoCollection * UtxoCollection :=
  foldl (λ '(result, remainder) '(outpoint, entry),
    if negb (contains_with_daa_score other outpoint (block_daa_score entry))
    then (<[outpoint:=entry]> result, remainder)
    else (result, <[outpoint:=entry]> remainder)) (result, remainder) (hash_iter this).
End Collections.

(** ** Diffs *)

(** The trait: anything with added and removed entries, read-only. *)
Class ImmutableUtxoDiff (D : Type) := {
  added : D → UtxoCollection;
  removed : D → UtxoCollection;
}.

Record UtxoDiff := mkUtxoDiff { add : UtxoCollection; remove : UtxoCollection }.
Record ReversedUtxoDiff := mkReversed { inner : UtxoDiff }.

#[export] Instance UtxoDiff_immutable : ImmutableUtxoDiff UtxoDiff :=
  {| added := add; removed := remove |}.
#[export] Instance ReversedUtxoDiff_immutable : ImmutableUtxoDiff ReversedUtxoDiff :=
  {| added := λ d, remove (inner d); removed := λ d, add (inner d) |}.

Definition as_reversed (d : UtxoDiff) : ReversedUtxoDiff := mkReversed d.
Definition to_reversed (d : UtxoDiff) : UtxoDiff := mkUtxoDiff (remove d) (add d).
Definition UtxoDiff_default : UtxoDiff := mkUtxoDiff ∅ ∅.

Section Diffs.
Context `{!HashIter TransactionOutpoint UtxoEntry}.

Definition with_diff_in_place {D} `{!ImmutableUtxoDiff D} (self : UtxoDiff) (other : D) :
    outcome UtxoAlgebraError UtxoDiff :=
  match intersects_with_rule (removed other) (remove self) (λ outpoint entry_to_add _,
          negb (contains_with_daa_score (add self) outpoint (block_daa_score entry_to_add))) with
  | Some offending_outpoint => Err (DuplicateRemovePoint offending_outpoint)
  | None =>
  match intersects_with_rule (added other) (add self) (λ outpoint _ existing_entry,
          negb (contains_with_daa_score (removed other) outpoint (block_daa_score existing_entry))) with
  | Some offending_outpoint => Err (DuplicateAddPoint offending_outpoint)
  | None =>
      let '(intersection, remove') :=
        intersection_with_remainder_having_daa_score_in_place (removed other) (add self) ∅ (remove self) in
      let add' := remove_collection (add self) intersection in
      let '(intersection, add'') :=
        intersection_with_remainder_having_daa_score_in_place (added other) remove' ∅ add' in
      let remove'' := remove_collection remove' intersection in
      Ok (mkUtxoDiff add'' remove'')
  end end.

(** [with_diff] clones [self] and composes in place. *)
Definition with_diff {D} `{!ImmutableUtxoDiff D} (self : UtxoDiff) (other : D) :
    outcome UtxoAlgebraError UtxoDiff :=
  with_diff_in_place self other.

Definition rule_not_added_output_removed_with_daa_score {D} `{!ImmutableUtxoDiff D}
    (self : UtxoDiff) (other : D) (outpoint : TransactionOutpoint) (this_entry other_entry : UtxoEntry) : bool :=
  negb (negb (block_daa_score other_entry =? block_daa_score this_entry)
        && (contains_with_daa_score (add self) outpoint (block_daa_score other_entry)
            || contains_with_daa_score (removed other) outpoint (block_daa_score this_entry))).

Definition rule_not_removed_output_added_with_daa_score {D} `{!ImmutableUtxoDiff D}
    (self : UtxoDiff) (other : D) (outpoint : TransactionOutpoint) (this_entry other_entry : UtxoEntry) : bool :=
  negb (negb (block_daa_score other_entry =? block_daa_score this_entry)
        && (contains_with_daa_score (remove self) outpoint (block_daa_score other_entry)
            || contains_with_daa_score (added other) outpoint (block_daa_score this_entry))).

Definition diff_from {D} `{!ImmutableUtxoDiff D} (self : UtxoDiff) (other : D) :
    outcome UtxoAlgebraError UtxoDiff :=
  match intersects_with_rule (remove self) (added other)
          (rule_not_added_output_removed_with_daa_score self other) with
  | Some o => Err (DiffIntersectionPoint o "both in self.add and in other.remove")
  | None =>
  match intersects_with_rule (add self) (removed other)
          (rule_not_removed_output_added_with_daa_score self other) with
  | Some o => Err (DiffIntersectionPoint o "both in self.remove and in other.add")
  | None =>
  match intersects_with_rule (remove self) (removed other) (λ _ this_entry other_entry,
          negb (block_daa_score other_entry =? block_daa_score this_entry)) with
  | Some o => Err (DiffIntersectionPoint o
      "both in self.remove and other.remove with different DAA scores, with no corresponding entry in self.add")
  | None =>
      let '(result_remove, in_both_to_add) :=
        subtraction_with_remainder_having_daa_score_in_place (add self) (added other) ∅ ∅ in
      if negb (Bool.eqb (intersects in_both_to_add (remove self)) (intersects in_both_to_add (removed other)))
      then Err (General "diff_from: outpoint both in self.add, other.add, and only one of self.remove and other.remove")
      else
      let result_remove := subtraction_having_daa_score_in_place (removed other) (remove self) result_remove in
      let result_add := subtraction_having_daa_score_in_place (remove self) (removed other) ∅ in
      let result_add := subtraction_having_daa_score_in_place (added other) (add self) result_add in
      Ok (mkUtxoDiff result_add result_remove)
  end end end.

Definition remove_entry (self : UtxoDiff) (outpoint : TransactionOutpoint) (entry : UtxoEntry) :
    outcome UtxoAlgebraError UtxoDiff :=
  if contains_with_daa_score (add self) outpoint (block_daa_score entry)
  then Ok (mkUtxoDiff (delete outpoint (add self)) (remove self))
  else match remove self !! outpoint with
       | None => Ok (mkUtxoDiff (add self) (<[outpoint:=entry]> (remove self)))
       | Some _ => Err (DoubleRemoveCall outpoint)
       end.

Definition add_entry (self : UtxoDiff) (outpoint : TransactionOutpoint) (entry : UtxoEntry) :
    outcome UtxoAlgebraError UtxoDiff :=
  if contains_with_daa_score (remove self) outpoint (block_daa_score entry)
  then Ok (mkUtxoDiff (add self) (delete outpoint (remove self)))
  else match add self !! outpoint with
       | None => Ok (mkUtxoDiff (<[outpoint:=entry]> (add self)) (remove self))
       | Some _ => Err (DoubleAddCall outpoint)
       end.

Definition remove_utxo := remove_entry.
Definition add_utxo := add_entry.

(** [i as u32] truncates. *)
Definition output_outpoint (id : TransactionId) (i : nat) : TransactionOutpoint :=
  mkOutpoint id (Z.of_nat i mod 2 ^ 32).

Definition output_entry (tx : Transaction) (daa : Z) (output : TransactionOutput) : UtxoEntry :=
  mkUtxoEntry (value output) (out_script_public_key output) daa (is_coinbase tx).

Definition add_transaction (self : UtxoDiff) (t : PopulatedTransaction) (daa : Z) :
    outcome UtxoAlgebraError UtxoDiff :=
  self ← for_each (λ self i,
           '(input, entry) ← populated_input t i;
           remove_entry self (previous_outpoint input) entry)
         (seq 0 (length (inputs (pop_tx t)))) self;
  for_each (λ self '(i, output),
    add_entry self (output_outpoint (tx_id (pop_tx t)) i) (output_entry (pop_tx t) daa output))
    (imap pair (outputs (pop_tx t))) self.
End Diffs.

(** ** Views *)

(** The trait [UtxoView]: read-only lookups. *)
Class UtxoView (V : Type) := get : V → TransactionOutpoint → option UtxoEntry.
#[export] Instance UtxoCollection_view : UtxoView UtxoCollection := λ c o, c !! o.

Record ComposedUtxoView (V D : Type) := compose { base : V; diff : D }.
Arguments compose {V D} _ _.
Arguments base {V D} _.
Arguments diff {V D} _.

#[export] Instance ComposedUtxoView_view {V D} `{!UtxoView V, !ImmutableUtxoDiff D} :
    UtxoView (ComposedUtxoView V D) := λ v o,
  match added (diff v) !! o with
  | Some entry => Some entry
  | None => if contains_key (removed (diff v)) o then None else get (base v) o
  end.

(** ** Specification: diffs as set operations *)

(** The set a diff makes out of a base set. *)
Definition apply_diff {D} `{!ImmutableUtxoDiff D} (s : UtxoCollection) (d : D) : UtxoCollection :=
  added d ∪ (s ∖ removed d).

(** A diff fits a base set: it removes entries that are there, it adds at
    outpoints that are free or freed by the diff itself, and it does not both
    remove and add an outpoint at the same DAA score. *)
Definition valid_on {D} `{!ImmutableUtxoDiff D} (s : UtxoCollection) (d : D) : Prop :=
  map_Forall (λ o e, s !! o = Some e) (removed d) ∧
  map_Forall (λ o a, removed d !! o = s !! o
    ∧ contains_with_daa_score (removed d) o (block_daa_score a) = false) (added d).

(** Entries at one outpoint and DAA score are the same entry: an outpoint is
    created by one transaction, accepted at one DAA score. *)
Definition coherent (c1 c2 : UtxoCollection) : Prop :=
  map_Forall (λ o e, contains_with_daa_score c2 o (block_daa_score e) = true → c2 !! o = Some e) c1.

#[export] Instance valid_on_dec {D} `{!ImmutableUtxoDiff D} s (d : D) : Decision (valid_on s d).
Proof. unfold valid_on. apply _. Defined.
#[export] Instance coherent_dec c1 c2 : Decision (coherent c1 c2).
Proof. unfold coherent. apply _. Defined.

(** ** Lookup lemmas of the collection loops *)
Section CollectionLemmas.
Context `{!HashIter TransactionOutpoint UtxoEntry}.
Implicit Types (c this other result remainder : UtxoCollection).

Lemma remove_collection_lookup c other o :
  remove_collection c other !! o = if contains_key other o then None else c !! o.
Proof.
  unfold remove_collection, contains_key. rewrite foldl_delete, list_to_map_hash_iter.
  by destruct (other !! o).
Qed.

Lemma subtraction_lookup this other result o :
  subtraction_having_daa_score_in_place this other result !! o =
    match this !! o with
    | Some e => if contains_with_daa_score other o (block_daa_score e) then result !! o else Some e
    | None => result !! o
    end.
Proof.
  unfold subtraction_having_daa_score_in_place.
  rewrite (foldl_insert_if (λ o e, negb (contains_with_daa_score other o (block_daa_score e))))
    by apply hash_iter_NoDup.
  rewrite list_to_map_hash_iter. destruct (this !! o); [|done].
  by destruct (contains_with_daa_score _ _ _).
Qed.

(** A loop that distributes bindings over two maps is a pair of loops. *)
Lemma foldl_distribute (f : TransactionOutpoint → UtxoEntry → bool) l result remainder :
  foldl (λ '(result, remainder) '(o, e),
    if f o e then (<[o:=e]> result, remainder) else (result, <[o:=e]> remainder)) (result, remainder) l =
  (foldl (λ m '(o, e), if f o e then <[o:=e]> m else m) result l,
   foldl (λ m '(o, e), if negb (f o e) then <[o:=e]> m else m) remainder l).
Proof.
  revert result remainder. induction l as [|[o e] l IH]; intros; [done|].
  simpl. destruct (f o e); simpl; by rewrite IH.
Qed.

Lemma distribute_lookup (f : TransactionOutpoint → UtxoEntry → bool) this result remainder :
  ∃ result' remainder',
    foldl (λ '(result, remainder) '(o, e),
      if f o e then (<[o:=e]> result, remainder) else (result, <[o:=e]> remainder))
      (result, remainder) (hash_iter this) = (result', remainder') ∧
    (∀ o, result' !! o = match this !! o with
       | Some e => if f o e then Some e else result !! o | None => result !! o end) ∧
    (∀ o, remainder' !! o = match this !! o with
       | Some e => if f o e then remainder !! o else Some e | None => remainder !! o end).
Proof.
  eexists _, _. split; [apply foldl_distribute|].
  split; intros o.
  - rewrite (foldl_insert_if f), list_to_map_hash_iter by apply hash_iter_NoDup. done.
  - rewrite (foldl_insert_if (λ o e, negb (f o e))), list_to_map_hash_iter by apply hash_iter_NoDup.
    destruct (this !! o); [|done]. by destruct (f o _).
Qed.

Lemma intersection_lookup this other result remainder :
  ∃ result' remainder',
    intersection_with_remainder_having_daa_score_in_place this other result remainder = (result', remainder') ∧
    (∀ o, result' !! o = match this !! o with
       | Some e => if contains_with_daa_score other o (block_daa_score e) then Some e else result !! o
       | None => result !! o end) ∧
    (∀ o, remainder' !! o = match this !! o with
       | Some e => if contains_with_daa_score other o (block_daa_score e) then remainder !! o else Some e
       | None => remainder !! o end).
Proof. apply (distribute_lookup (λ o e, contains_with_daa_score other o (block_daa_score e))). Qed.

Lemma subtraction_with_remainder_lookup this other result remainder :
  ∃ result' remainder',
    subtraction_with_remainder_having_daa_score_in_place this other result remainder = (result', remainder') ∧
    (∀ o, result' !! o = match this !! o with
       | Some e => if contains_with_daa_score other o (block_daa_score e) then result !! o else Some e
       | None => result !! o end) ∧
    (∀ o, remainder' !! o = match this !! o with
       | Some e => if contains_with_daa_score other o (block_daa_score e) then Some e else remainder !! o
       | None => remainder !! o end).
Proof.
  destruct (distribute_lookup (λ o e, negb (contains_with_daa_score other o (block_daa_score e)))
    this result remainder) as (r & m & Heq & Hr & Hm).
  exists r, m. split; [exact Heq|]. split; intros o.
  - rewrite Hr. destruct (this !! o); [|done]. by destruct (contains_with_daa_score _ _ _).
  - rewrite Hm. destruct (this !! o); [|done]. by destruct (contains_with_daa_score _ _ _).
Qed.

(** The sanity checks: [None] is exactly the absence of an offending outpoint. *)
Lemma find_None {A} (f : A → bool) l : List.find f l = None ↔ ∀ x, x ∈ l → f x = false.
Proof.
  split.
  - intros H x Hx. apply list_elem_of_In in Hx. by apply (List.find_none f l).
  - induction l as [|a l IH]; intros H; [done|]. simpl.
    rewrite (H a) by set_solver. apply IH. set_solver.
Qed.

Lemma intersects_with_rule_None c other rule :
  intersects_with_rule c other rule = None ↔
  ∀ o v1 v2, c !! o = Some v1 → other !! o = Some v2 → rule o v1 v2 = false.
Proof.
  unfold intersects_with_rule.
  destruct (size c <=? size other)%nat; rewrite fmap_None, find_None; split.
  - intros H o v1 v2 H1 H2. specialize (H (o, v1)). rewrite elem_of_hash_iter in H.
    specialize (H H1). simpl in H. by rewrite H2 in H.
  - intros H [o v] Hin%elem_of_hash_iter. destruct (other !! o) eqn:?; eauto.
  - intros H o v1 v2 H1 H2. specialize (H (o, v2)). rewrite elem_of_hash_iter in H.
    specialize (H H2). simpl in H. by rewrite H1 in H.
  - intros H [o v] Hin%elem_of_hash_iter. destruct (c !! o) eqn:?; eauto.
Qed.

Lemma intersects_false c other :
  intersects c other = false ↔ ∀ o, is_Some (c !! o) → other !! o = None.
Proof.
  assert (Hgen : ∀ c1 c2 : UtxoCollection,
    existsb (λ kv, contains_key c2 kv.1) (hash_iter c1) = false ↔
    ∀ o, is_Some (c1 !! o) → c2 !! o = None).
  { intros c1 c2. rewrite <- not_true_iff_false, existsb_exists. split.
    - intros H o [e He]. apply eq_None_not_Some. intros [e' He']. apply H.
      exists (o, e). split; [by apply list_elem_of_In, elem_of_hash_iter|].
      unfold contains_key. simpl. by rewrite He'.
    - intros H ([o e] & Hin & Hc). apply list_elem_of_In, elem_of_hash_iter in Hin.
      unfold contains_key in Hc. simpl in Hc. by rewrite (H o) in Hc by eauto. }
  unfold intersects. destruct (size c <=? size other)%nat; rewrite Hgen; [done|].
  split; intros H o [e He]; apply eq_None_not_Some; intros Hs; by rewrite (H o) in He.
Qed.

Lemma intersects_ext c c1 c2 :
  (∀ o, is_Some (c !! o) → c1 !! o = None ↔ c2 !! o = None) → intersects c c1 = intersects c c2.
Proof.
  intros H. apply Bool.eq_true_iff_eq. rewrite <- !not_false_iff_true, !intersects_false.
  split; intros Hn Hx; apply Hn; intros o Ho; apply H, Hx; done.
Qed.
End CollectionLemmas.

Lemma apply_diff_lookup {D} `{!ImmutableUtxoDiff D} s (d : D) o :
  apply_diff s d !! o =
    match added d !! o with
    | Some e => Some e
    | None => match removed d !! o with Some _ => None | None => s !! o end
    end.
Proof.
  unfold apply_diff. rewrite lookup_union, lookup_difference.
  destruct (added d !! o), (removed d !! o), (s !! o); done.
Qed.

(** ** Validity, outpoint by outpoint *)

(** [valid_on] at one outpoint: the added, removed and base entries there. *)
Definition valid_at (a r s : option UtxoEntry) : Prop :=
  match r, s with
  | Some r, Some s => r = s
  | Some _, None => False
  | None, _ => True
  end ∧
  match a, r, s with
  | Some a, Some r, _ => block_daa_score r ≠ block_daa_score a
  | Some _, None, s => s = None
  | None, _, _ => True
  end.

Lemma valid_on_at {D} `{!ImmutableUtxoDiff D} s (d : D) :
  valid_on s d ↔ ∀ o, valid_at (added d !! o) (removed d !! o) (s !! o).
Proof.
  unfold valid_on, valid_at, map_Forall, contains_with_daa_score. split.
  - intros [Hr Ha] o. specialize (Hr o). specialize (Ha o).
    destruct (added d !! o) as [a|], (removed d !! o) as [r|], (s !! o) as [e|];
      specialize (Hr _ eq_refl) || clear Hr; specialize (Ha _ eq_refl) || clear Ha;
      destruct_and?; simplify_eq; try done; split; try done; lia.
  - intros H. split; intros o e He; specialize (H o); rewrite He in H.
    + destruct (s !! o); destruct_and!; by subst.
    + destruct (removed d !! o) as [r|], (s !! o); destruct_and!; simplify_eq; try done.
      split; [done|]. lia.
Qed.

(** Case analysis on everything known at one outpoint. *)
Ltac utxo_cases o :=
  repeat match goal with
  | H : ∀ o : TransactionOutpoint, _ |- _ => specialize (H o)
  end;
  rewrite ?lookup_empty, ?remove_collection_lookup in *;
  unfold valid_at, contains_with_daa_score, contains_key in *;
  repeat match goal with
  | H : context [match ?x !! o with _ => _ end] |- _ => destruct (x !! o) eqn:?; simplify_eq
  | |- context [match ?x !! o with _ => _ end] => destruct (x !! o) eqn:?; simplify_eq
  end;
  destruct_and?; subst;
  repeat match goal with
  | H : context [?x =? ?y] |- _ => destruct (Z.eqb_spec x y)
  | |- context [?x =? ?y] => destruct (Z.eqb_spec x y)
  end;
  simplify_eq; try done; try lia;
  repeat match goal with H : ?x !! o = _ |- context [?x !! o] => rewrite H end;
  try done; try (f_equal; by auto); try (split; [done|lia]).

Section DiffTheorems.
Context `{!HashIter TransactionOutpoint UtxoEntry}.

Lemma coherent_at c1 c2 o :
  coherent c1 c2 →
  match c1 !! o, c2 !! o with
  | Some e1, Some e2 => block_daa_score e2 = block_daa_score e1 → e2 = e1
  | _, _ => True
  end.
Proof.
  intros H. specialize (H o). unfold contains_with_daa_score in H.
  destruct (c1 !! o) as [e1|], (c2 !! o) as [e2|]; try done.
  intros Heq. specialize (H _ eq_refl). simpl in H. rewrite Heq, Z.eqb_refl in H.
  naive_solver.
Qed.

(** C3. Composing diffs: when [d1] fits [s] and [d2] fits what [d1] makes of
    [s], [with_diff] raises none of its errors, its result fits [s], and it
    denotes applying [d1] and then [d2]. *)
Theorem with_diff_refines_sequential_application {D} `{!ImmutableUtxoDiff D} (s : UtxoCollection) (d1 : UtxoDiff) (d2 : D) :
  valid_on s d1 → valid_on (apply_diff s d1) d2 → coherent (added d2) s →
  ∃ d, with_diff d1 d2 = Ok d ∧ valid_on s d ∧ apply_diff s d = apply_diff (apply_diff s d1) d2.
Proof.
  rewrite !valid_on_at. intros Hv1 Hv2 Hcoh. unfold with_diff, with_diff_in_place.
  assert (Happ : ∀ o, _) by (intros o; exact (apply_diff_lookup s d1 o)).
  assert (Hc : ∀ o, _) by (intros o; exact (coherent_at _ _ o Hcoh)).
  clear Hcoh. simpl in Happ, Hv1.
  rewrite (proj2 (intersects_with_rule_None _ _ _)).
  2:{ intros o v1 v2 H1 H2. apply negb_false_iff. utxo_cases o. }
  rewrite (proj2 (intersects_with_rule_None _ _ _)).
  2:{ intros o v1 v2 H1 H2. apply negb_false_iff. utxo_cases o. }
  edestruct (intersection_lookup (removed d2) (add d1) ∅ (remove d1)) as (i1 & r1 & -> & Hi1 & Hr1).
  edestruct (intersection_lookup (added d2) r1 ∅ (remove_collection (add d1) i1)) as (i2 & a2 & -> & Hi2 & Ha2).
  eexists. split; [done|]. rewrite valid_on_at. simpl. split.
  - intros o. rewrite remove_collection_lookup. utxo_cases o.
  - apply map_eq. intros o. rewrite !apply_diff_lookup. simpl.
    rewrite remove_collection_lookup. utxo_cases o.
Qed.

(** Comparing diffs: when [d1] and [d2] fit the same base set and agree
    on the entries they both add, [diff_from] raises none of its errors, its
    result fits the set [d1] makes, and it leads from there to the set [d2]
    makes. *)
Theorem diff_from_refines_set_difference {D} `{!ImmutableUtxoDiff D} (s : UtxoCollection) (d1 : UtxoDiff) (d2 : D) :
  valid_on s d1 → valid_on s d2 → coherent (added d2) (add d1) →
  ∃ d, diff_from d1 d2 = Ok d ∧ valid_on (apply_diff s d1) d ∧
    apply_diff (apply_diff s d1) d = apply_diff s d2.
Proof.
  rewrite !valid_on_at. intros Hv1 Hv2 Hcoh. unfold diff_from.
  assert (Hc : ∀ o, _) by (intros o; exact (coherent_at _ _ o Hcoh)).
  clear Hcoh. simpl in Hv1.
  rewrite (proj2 (intersects_with_rule_None _ _ _)).
  2:{ intros o v1 v2 H1 H2. unfold rule_not_added_output_removed_with_daa_score. utxo_cases o. }
  rewrite (proj2 (intersects_with_rule_None _ _ _)).
  2:{ intros o v1 v2 H1 H2. unfold rule_not_removed_output_added_with_daa_score. utxo_cases o. }
  rewrite (proj2 (intersects_with_rule_None _ _ _)).
  2:{ intros o v1 v2 H1 H2. utxo_cases o. }
  edestruct (subtraction_with_remainder_lookup (add d1) (added d2) ∅ ∅) as (r & b & -> & Hr & Hb).
  replace (intersects b (remove d1)) with (intersects b (removed d2)).
  2:{ apply intersects_ext. intros o [e He]. utxo_cases o. }
  rewrite Bool.eqb_reflx. simpl.
  eexists. split; [done|]. rewrite valid_on_at. simpl. split.
  - intros o. rewrite !subtraction_lookup, apply_diff_lookup. simpl. utxo_cases o.
  - apply map_eq. intros o. rewrite !apply_diff_lookup. simpl. rewrite !subtraction_lookup.
    utxo_cases o.
Qed.

Lemma remove_entry_refines s d o e :
  valid_on s d → apply_diff s d !! o = Some e →
  ∃ d', remove_entry d o e = Ok d' ∧ valid_on s d' ∧ apply_diff s d' = delete o (apply_diff s d).
Proof.
  rewrite valid_on_at. intros Hv Ho. rewrite apply_diff_lookup in Ho. unfold remove_entry.
  pose proof (Hv o) as Hvo. simpl in *. unfold valid_at, contains_with_daa_score in *.
  destruct (add d !! o) as [a|] eqn:Ha; simplify_eq.
  - rewrite Z.eqb_refl. eexists. split; [done|]. rewrite valid_on_at. split.
    + intros o'. destruct (decide (o = o')) as [<-|Hne]; simpl.
      * rewrite lookup_delete_eq. split; [apply Hvo|done].
      * rewrite lookup_delete_ne by done. apply Hv.
    + apply map_eq. intros o'. rewrite apply_diff_lookup. simpl.
      destruct (decide (o = o')) as [<-|Hne].
      * rewrite !lookup_delete_eq. destruct (remove d !! o), (s !! o); by destruct Hvo.
      * by rewrite !lookup_delete_ne, apply_diff_lookup by done.
  - destruct (remove d !! o) eqn:Hr; [done|]. eexists. split; [done|]. rewrite valid_on_at. split.
    + intros o'. destruct (decide (o = o')) as [<-|Hne]; simpl.
      * by rewrite lookup_insert_eq, Ha, Ho.
      * rewrite lookup_insert_ne by done. apply Hv.
    + apply map_eq. intros o'. rewrite apply_diff_lookup. simpl.
      destruct (decide (o = o')) as [<-|Hne].
      * by rewrite lookup_insert_eq, lookup_delete_eq, Ha.
      * by rewrite lookup_insert_ne, lookup_delete_ne, apply_diff_lookup by done.
Qed.

Lemma add_entry_refines s d o e :
  valid_on s d → apply_diff s d !! o = None →
  (contains_with_daa_score s o (block_daa_score e) = true → s !! o = Some e) →
  ∃ d', add_entry d o e = Ok d' ∧ valid_on s d' ∧ apply_diff s d' = <[o:=e]> (apply_diff s d).
Proof.
  rewrite valid_on_at. intros Hv Ho Hc. rewrite apply_diff_lookup in Ho. unfold add_entry.
  pose proof (Hv o) as Hvo. simpl in *. destruct (add d !! o) as [a|] eqn:Ha; [done|].
  destruct (contains_with_daa_score (remove d) o _) eqn:Hr; unfold valid_at, contains_with_daa_score in *.
  - destruct (remove d !! o) as [r|] eqn:Hr'; [|done]. destruct (s !! o) as [x|] eqn:Hs; [|by destruct Hvo].
    destruct Hvo as [-> _]. specialize (Hc Hr). simplify_eq.
    eexists. split; [done|]. rewrite valid_on_at. split.
    + intros o'. destruct (decide (o = o')) as [<-|Hne]; simpl.
      * by rewrite lookup_delete_eq, Ha.
      * rewrite lookup_delete_ne by done. apply Hv.
    + apply map_eq. intros o'. rewrite apply_diff_lookup. simpl.
      destruct (decide (o = o')) as [<-|Hne].
      * by rewrite lookup_delete_eq, lookup_insert_eq, Ha.
      * by rewrite lookup_delete_ne, lookup_insert_ne, apply_diff_lookup by done.
  - eexists. split; [done|]. rewrite valid_on_at. split.
    + intros o'. destruct (decide (o = o')) as [<-|Hne]; simpl.
      * rewrite lookup_insert_eq. split; [apply Hvo|].
        destruct (remove d !! o); [lia|done].
      * rewrite lookup_insert_ne by done. apply Hv.
    + apply map_eq. intros o'. rewrite apply_diff_lookup. simpl.
      destruct (decide (o = o')) as [<-|Hne].
      * by rewrite !lookup_insert_eq.
      * by rewrite !lookup_insert_ne, apply_diff_lookup by done.
Qed.

(** What a transaction does to a UTXO set: its inputs are spent, its outputs
    created. *)
Definition spend_inputs (t : PopulatedTransaction) (u : UtxoCollection) : UtxoCollection :=
  foldl (λ u '(input, _), delete (previous_outpoint input) u) u (zip (inputs (pop_tx t)) (entries t)).
Definition create_outputs (t : PopulatedTransaction) (daa : Z) (u : UtxoCollection) : UtxoCollection :=
  foldl (λ u '(i, output),
    <[output_outpoint (tx_id (pop_tx t)) i := output_entry (pop_tx t) daa output]> u) u
    (imap pair (outputs (pop_tx t))).

Lemma remove_entries_refine s (l : list (TransactionInput * UtxoEntry)) d :
  valid_on s d →
  NoDup (previous_outpoint <$> l.*1) →
  Forall (λ '(input, e), apply_diff s d !! previous_outpoint input = Some e) l →
  ∃ d', for_each (λ d '(input, e), remove_entry d (previous_outpoint input) e) l d = Ok d' ∧
    valid_on s d' ∧
    apply_diff s d' = foldl (λ u '(input, _), delete (previous_outpoint input) u) (apply_diff s d) l.
Proof.
  revert d. induction l as [|[input e] l IH]; intros d Hv Hnd Hin; [eauto|].
  simpl in *. apply NoDup_cons in Hnd as [Hnin Hnd]. inversion_clear Hin as [|? ? He Hl].
  destruct (remove_entry_refines s d _ _ Hv He) as (d' & -> & Hv' & Happ). simpl.
  rewrite <- Happ. apply IH; [done..|]. rewrite Forall_forall in Hl |- *.
  intros [input' e'] Hx. specialize (Hl _ Hx). simpl in *. rewrite Happ, lookup_delete_ne; [done|].
  intros Heq. apply Hnin. rewrite Heq. apply list_elem_of_fmap_2, (list_elem_of_fmap_2 fst _ _ Hx).
Qed.

Lemma add_entries_refine s (l : list (TransactionOutpoint * UtxoEntry)) d :
  valid_on s d →
  NoDup l.*1 →
  Forall (λ '(o, e), apply_diff s d !! o = None ∧
    (contains_with_daa_score s o (block_daa_score e) = true → s !! o = Some e)) l →
  ∃ d', for_each (λ d '(o, e), add_entry d o e) l d = Ok d' ∧ valid_on s d' ∧
    apply_diff s d' = foldl (λ u '(o, e), <[o:=e]> u) (apply_diff s d) l.
Proof.
  revert d. induction l as [|[o e] l IH]; intros d Hv Hnd Hin; [eauto|].
  simpl in *. apply NoDup_cons in Hnd as [Hnin Hnd]. apply Forall_cons in Hin as [[Ho Hc] Hl].
  destruct (add_entry_refines s d o e Hv Ho Hc) as (d' & -> & Hv' & Happ). simpl.
  rewrite <- Happ. apply IH; [done..|]. rewrite Forall_forall in Hl |- *.
  intros [o' e'] Hx. specialize (Hl _ Hx). destruct Hl as [Ho' Hc']. split; [|done].
  rewrite Happ, lookup_insert_ne; [done|].
  intros ->. apply Hnin, (list_elem_of_fmap_2 fst _ _ Hx).
Qed.

Lemma output_outpoint_inj id i j :
  Z.of_nat i < 2 ^ 32 → Z.of_nat j < 2 ^ 32 → output_outpoint id i = output_outpoint id j → i = j.
Proof. unfold output_outpoint. intros ?? [= H]. rewrite !Z.mod_small in H by lia. lia. Qed.

(** Adding a transaction: on a diff that fits [s], a transaction whose
    inputs are distinct and present with the given entries, and whose outputs
    are fresh, is added without error; the new diff fits [s] and denotes the
    set with the inputs spent and the outputs created. *)
Theorem add_transaction_spends_and_creates (s : UtxoCollection) (d : UtxoDiff) (t : PopulatedTransaction) (daa : Z) :
  valid_on s d →
  well_populated t →
  NoDup (previous_outpoint <$> inputs (pop_tx t)) →
  Forall (λ '(input, e), apply_diff s d !! previous_outpoint input = Some e) (zip (inputs (pop_tx t)) (entries t)) →
  Z.of_nat (length (outputs (pop_tx t))) ≤ 2 ^ 32 →
  Forall (λ '(i, output),
    spend_inputs t (apply_diff s d) !! output_outpoint (tx_id (pop_tx t)) i = None ∧
    (contains_with_daa_score s (output_outpoint (tx_id (pop_tx t)) i) daa = true →
      s !! output_outpoint (tx_id (pop_tx t)) i = Some (output_entry (pop_tx t) daa output)))
    (imap pair (outputs (pop_tx t))) →
  ∃ d', add_transaction d t daa = Ok d' ∧ valid_on s d' ∧
    apply_diff s d' = create_outputs t daa (spend_inputs t (apply_diff s d)).
Proof.
  intros Hv Hpop Hnd Hin Hlen Hout. unfold add_transaction.
  set (l := zip (inputs (pop_tx t)) (entries t)).
  assert (Hl1 : l.*1 = inputs (pop_tx t)) by (apply fst_zip; unfold well_populated in Hpop; lia).
  replace (length (inputs (pop_tx t))) with (length l) by (rewrite <- Hl1; symmetry; apply length_fmap).
  rewrite (for_each_seq _ (λ d '(input, e), remove_entry d (previous_outpoint input) e)).
  2:{ intros i [input e] d0 Hi. simpl.
      apply lookup_zip_Some in Hi as [Hi1 Hi2]. by rewrite (populated_input_Ok _ _ _ _ Hi1 Hi2). }
  destruct (remove_entries_refine s l d) as (d1 & -> & Hv1 & Happ1); [done|by rewrite Hl1|done|]. simpl.
  set (g := λ '(i, output), (output_outpoint (tx_id (pop_tx t)) i, output_entry (pop_tx t) daa output)).
  destruct (add_entries_refine s (g <$> imap pair (outputs (pop_tx t))) d1) as (d2 & Hd2 & Hv2 & Happ2).
  - done.
  - rewrite <- list_fmap_compose, fmap_imap. apply NoDup_alt. intros i j o Hi Hj.
    rewrite list_lookup_imap in Hi, Hj.
    destruct (outputs (pop_tx t) !! i) eqn:Ei, (outputs (pop_tx t) !! j) eqn:Ej; simplify_eq/=.
    apply lookup_lt_Some in Ei, Ej. eapply (output_outpoint_inj (tx_id (pop_tx t))); [lia..|].
    unfold output_outpoint. by f_equal.
  - rewrite Forall_fmap. eapply Forall_impl; [exact Hout|]. intros [i output]. simpl. rewrite Happ1.
    intros H. exact H.
  - exists d2. rewrite for_each_fmap in Hd2. split.
    + rewrite <- Hd2. apply for_each_ext. by intros d' [i output].
    + split; [done|]. rewrite Happ2, Happ1. unfold create_outputs, spend_inputs. fold l.
      rewrite foldl_fmap. apply foldl_ext. by intros u [i output].
Qed.

Lemma get_compose {V D} `{!UtxoView V, !ImmutableUtxoDiff D} (v : V) (d : D) o :
  get (compose v d) o =
    match added d !! o with
    | Some entry => Some entry
    | None => if contains_key (removed d) o then None else get v o
    end.
Proof. reflexivity. Qed.

Lemma composed_get {D} `{!ImmutableUtxoDiff D} (s : UtxoCollection) (d : D) o :
  get (compose s d) o = apply_diff s d !! o.
Proof.
  rewrite get_compose, apply_diff_lookup. unfold contains_key.
  by destruct (added d !! o), (removed d !! o).
Qed.

(** Undoing a diff, as a chain reorganisation does: on a base set [d] fits,
    [d] followed by [as_reversed d] is accepted, cancels to the empty diff, and
    the view composed of the base and both diffs reads exactly the base set. *)
Theorem reversed_diff_undoes (s : UtxoCollection) (d : UtxoDiff) :
  valid_on s d →
  valid_on (apply_diff s d) (as_reversed d) ∧
  with_diff d (as_reversed d) = Ok UtxoDiff_default ∧
  ∀ o, get (compose (compose s d) (as_reversed d)) o = get s o.
Proof.
  rewrite !valid_on_at. intros Hv. simpl in *.
  assert (Hv' : valid_on (apply_diff s d) (as_reversed d)).
  { rewrite valid_on_at. intros o. rewrite apply_diff_lookup. simpl. utxo_cases o. }
  split; [by rewrite valid_on_at in Hv'|]. split.
  - unfold with_diff, with_diff_in_place. simpl.
    rewrite (proj2 (intersects_with_rule_None _ _ _)).
    2:{ intros o v1 v2 H1 H2. apply negb_false_iff. clear Hv'. utxo_cases o. }
    rewrite (proj2 (intersects_with_rule_None _ _ _)).
    2:{ intros o v1 v2 H1 H2. apply negb_false_iff. clear Hv'. utxo_cases o. }
    edestruct (intersection_lookup (add d) (add d) ∅ (remove d)) as (i1 & r1 & -> & Hi1 & Hr1).
    edestruct (intersection_lookup (remove d) r1 ∅ (remove_collection (add d) i1)) as (i2 & a2 & -> & Hi2 & Ha2).
    unfold UtxoDiff_default. clear Hv'. do 2 f_equal; apply map_eq; intros o; utxo_cases o.
  - intros o. rewrite get_compose, composed_get, apply_diff_lookup.
    change (get s o) with (s !! o). simpl. clear Hv'. utxo_cases o.
Qed.
End DiffTheorems.

(** ** Witnesses

    A small UTXO set, a diff that spends one entry and creates another, and a
    transaction on top of it. *)
Module UtxoWitness.
Definition spk : ScriptPublicKey := mkScriptPublicKey 0 [].
Definition o1 := mkOutpoint 1 0.
Definition o2 := mkOutpoint 2 0.
Definition o3 := mkOutpoint 3 0.
Definition e1 := mkUtxoEntry 10 spk 5 true.
Definition e2 := mkUtxoEntry 9 spk 6 false.
Definition e1' := mkUtxoEntry 10 spk 7 true.
Definition s : UtxoCollection := {[ o1 := e1 ]}.
Definition d1 : UtxoDiff := mkUtxoDiff {[ o2 := e2 ]} {[ o1 := e1 ]}.
Definition d2 : UtxoDiff := mkUtxoDiff {[ o1 := e1' ]} {[ o2 := e2 ]}.
Definition tx : Transaction :=
  mkTransaction 0 [mkInput o2 [] 0 1] [mkOutput 8 spk] 0 SUBNETWORK_ID_NATIVE 0 [] 0 3.
Definition ptx : PopulatedTransaction := mkPopulated tx [e2].
#[local] Existing Instance canonical_iter.

Lemma with_diff_witness :
  ∃ d, with_diff d1 d2 = Ok d ∧ valid_on s d ∧ apply_diff s d = apply_diff (apply_diff s d1) d2.
Proof.
  apply (with_diff_refines_sequential_application s d1 d2); apply (bool_decide_unpack _); by vm_compute.
Defined.

Lemma diff_from_witness :
  ∃ d, diff_from d1 (mkUtxoDiff ∅ {[o1 := e1]}) = Ok d ∧ valid_on (apply_diff s d1) d ∧
    apply_diff (apply_diff s d1) d = apply_diff s (mkUtxoDiff ∅ {[o1 := e1]}).
Proof.
  apply (diff_from_refines_set_difference s d1 (mkUtxoDiff ∅ {[o1 := e1]}));
    apply (bool_decide_unpack _); by vm_compute.
Defined.

Lemma add_transaction_witness :
  ∃ d', add_transaction d1 ptx 8 = Ok d' ∧ valid_on s d' ∧
    apply_diff s d' = create_outputs ptx 8 (spend_inputs ptx (apply_diff s d1)).
Proof.
  apply (add_transaction_spends_and_creates s d1 ptx 8).
  - apply (bool_decide_unpack _); by vm_compute.
  - reflexivity.
  - apply (bool_decide_unpack _); by vm_compute.
  - repeat constructor.
  - simpl. lia.
  - repeat constructor. by vm_compute.
Defined.

Lemma reversed_witness :
  valid_on (apply_diff s d1) (as_reversed d1) ∧
  with_diff d1 (as_reversed d1) = Ok UtxoDiff_default ∧
  ∀ o, get (compose (compose s d1) (as_reversed d1)) o = get s o.
Proof. apply (reversed_diff_undoes s d1). apply (bool_decide_unpack _); by vm_compute. Defined.
End UtxoWitness.
