(* ===== verification/Interval.v ===== *)
(** * Reachability intervals

    Models [src/consensus/src/processes/reachability/interval.rs]: the [u64]
    intervals the reachability tree hands out to blocks, and the ways the
    code splits them. Machine arithmetic is checked; the [debug_assert!]s of
    [Interval::new] are not part of the release profile. The floating-point
    parts are modelled exactly: [f32] rounding of an integer in [Z], and
    [f64] arithmetic with the binary64 operations of [SpecFloat]. *)

From stdpp Require Import base list.
From Stdlib Require Import ZArith Lia.
From Stdlib Require Import Floats.SpecFloat.
From S2P Require Import Prelude.

Local Open Scope Z_scope.

Record Interval := mkInterval { start : Z; end_ : Z }.
#[export] Instance Interval_eq_dec : EqDecision Interval.
Proof. solve_decision. Defined.

Definition empty : Interval := mkInterval 1 0.
Definition maximal : Interval := mkInterval 1 (U64_MAX - 1).

Definition size {E} (i : Interval) : outcome E Z :=
  e ← add64 (end_ i) 1; sub64 e (start i).
Definition is_empty {E} (i : Interval) : outcome E bool :=
  s ← size i; Ok (s =? 0).

Definition increase {E} (i : Interval) (offset : Z) : outcome E Interval :=
  s ← add64 (start i) offset; e ← add64 (end_ i) offset; Ok (mkInterval s e).
Definition decrease {E} (i : Interval) (offset : Z) : outcome E Interval :=
  s ← sub64 (start i) offset; e ← sub64 (end_ i) offset; Ok (mkInterval s e).
Definition increase_start {E} (i : Interval) (offset : Z) : outcome E Interval :=
  s ← add64 (start i) offset; Ok (mkInterval s (end_ i)).
Definition decrease_start {E} (i : Interval) (offset : Z) : outcome E Interval :=
  s ← sub64 (start i) offset; Ok (mkInterval s (end_ i)).
Definition increase_end {E} (i : Interval) (offset : Z) : outcome E Interval :=
  e ← add64 (end_ i) offset; Ok (mkInterval (start i) e).
Definition decrease_end {E} (i : Interval) (offset : Z) : outcome E Interval :=
  e ← sub64 (end_ i) offset; Ok (mkInterval (start i) e).

Definition contains (this other : Interval) : bool :=
  (start this <=? start other) && (end_ other <=? end_ this).
Definition strictly_contains (this other : Interval) : bool :=
  (start this <=? start other) && (end_ other <? end_ this).

(** ** Floating point *)

(** Rounding a natural number to [p] significant bits, to nearest with ties
    to even: the value of [n as f32] for [p = 24]. *)
Definition round_sig (p n : Z) : Z :=
  if n <? 2 ^ p then n
  else
    let e := Z.log2 n - (p - 1) in
    let q := n / 2 ^ e in
    let r := n mod 2 ^ e in
    let half := 2 ^ (e - 1) in
    let up := (half <? r) || ((half =? r) && Z.odd q) in
    (if up then q + 1 else q) * 2 ^ e.

(** [f32::ceil(size as f32 * 0.5) as u64]: halving is exact, the cast
    saturates. *)
Definition ceil_half_f32 (n : Z) : Z := Z.min ((round_sig 24 n + 1) / 2) U64_MAX.

Definition f64 := spec_float.
Definition f64_prec : Z := 53.
Definition f64_emax : Z := 1024.
Definition f64_of_u64 (n : Z) : f64 := binary_normalize f64_prec f64_emax n 0 false.
Definition f64_add : f64 → f64 → f64 := SFadd f64_prec f64_emax.
Definition f64_mul : f64 → f64 → f64 := SFmul f64_prec f64_emax.
Definition f64_div : f64 → f64 → f64 := SFdiv f64_prec f64_emax.

(** [2f64.powf(k as f64)] for a natural [k]: a power of two, or infinity. *)
Definition f64_exp2 (k : Z) : f64 :=
  if k <? f64_emax then binary_normalize f64_prec f64_emax 1 k false else S754_infinity false.

(** [f64::round(x) as u64]: half away from zero, saturating cast. *)
Definition f64_round_as_u64 (x : f64) : Z :=
  match x with
  | S754_finite false m e =>
      if 0 <=? e then Z.min (Zpos m * 2 ^ e) U64_MAX
      else Z.min ((Zpos m + 2 ^ (- e - 1)) / 2 ^ (- e)) U64_MAX
  | S754_infinity false => U64_MAX
  | _ => 0
  end.

Definition exponential_fractions (sizes : list Z) : list f64 :=
  let max_size := foldr Z.max 0 sizes in
  let fractions := (λ s, f64_div (f64_of_u64 1) (f64_exp2 (max_size - s))) <$> sizes in
  let fractions_sum := foldl f64_add (f64_of_u64 0) fractions in
  (λ item, f64_div item fractions_sum) <$> fractions.

(** ** Splitting *)

Definition split_half {E} (i : Interval) : outcome E (Interval * Interval) :=
  sz ← size i;
  let left_size := ceil_half_f32 sz in
  mid ← add64 (start i) left_size;
  left_end ← sub64 mid 1;
  Ok (mkInterval (start i) left_end, mkInterval mid (end_ i)).

Fixpoint split_sizes {E} (s : Z) (sizes : list Z) : outcome E (list Interval) :=
  match sizes with
  | [] => Ok []
  | size :: sizes =>
      s' ← add64 s size;
      e ← sub64 s' 1;
      rest ← split_sizes s' sizes;
      Ok (mkInterval s e :: rest)
  end.

Definition split_exact {E} (i : Interval) (sizes : list Z) : outcome E (list Interval) :=
  total ← sum64 sizes 0;
  sz ← size i;
  _ ← assert_ (total =? sz);
  split_sizes (start i) sizes.

(** The loop that adds a fractional bias to every size. *)
Fixpoint biased_sizes {E} (total_bias : f64) (remaining_bias : Z) (l : list (f64 * Z)) : outcome E (list Z) :=
  match l with
  | [] => Ok []
  | (fraction, size) :: l =>
      let bias := match l with
                  | [] => remaining_bias
                  | _ => Z.min remaining_bias (f64_round_as_u64 (f64_mul total_bias fraction))
                  end in
      b ← add64 size bias;
      remaining_bias ← sub64 remaining_bias bias;
      rest ← biased_sizes total_bias remaining_bias l;
      Ok (b :: rest)
  end.

Definition split_exponential {E} (i : Interval) (sizes : list Z) : outcome E (list Interval) :=
  interval_size ← size i;
  sizes_sum ← sum64 sizes 0;
  _ ← assert_ (sizes_sum <=? interval_size);
  _ ← assert_ (0 <? sizes_sum);
  if interval_size =? sizes_sum then split_exact i sizes
  else
    remaining_bias ← sub64 interval_size sizes_sum;
    biased ← biased_sizes (f64_of_u64 remaining_bias) remaining_bias
               (zip (exponential_fractions sizes) sizes);
    split_exact i biased.

Example split_half_64 : split_half (E:=unit) (mkInterval 101 164) = Ok (mkInterval 101 132, mkInterval 133 164).
Proof. reflexivity. Qed.
(** Test vectors of [interval.rs]. *)
Example split_exponential_vectors :
  split_exponential (E:=unit) (mkInterval 1 100) [100] = Ok [mkInterval 1 100] ∧
  split_exponential (E:=unit) (mkInterval 1 100) [10; 15; 25] = Ok [mkInterval 1 10; mkInterval 11 25; mkInterval 26 100] ∧
  split_exponential (E:=unit) (mkInterval 1 100) [33; 33; 33] = Ok [mkInterval 1 33; mkInterval 34 66; mkInterval 67 100] ∧
  split_exponential (E:=unit) (mkInterval 1 10000) [10; 10; 20] = Ok [mkInterval 1 20; mkInterval 21 40; mkInterval 41 10000] ∧
  split_exponential (E:=unit) (mkInterval 1 100000) [31000; 31000; 30001] =
    Ok [mkInterval 1 35000; mkInterval 35001 69999; mkInterval 70000 100000].
Proof. vm_compute. repeat split. Qed.

(** ** Specification *)

(** The intervals the tree uses: within the margin of [maximal], possibly
    empty with [end = start - 1]. *)
Definition iv_ok (i : Interval) : Prop :=
  1 ≤ start i ∧ start i ≤ end_ i + 1 ∧ end_ i < U64_MAX.
Definition width (i : Interval) : Z := end_ i + 1 - start i.

(** [l] tiles the numbers from [s] to [e]: consecutive, disjoint, nothing left. *)
Fixpoint tiles (s : Z) (l : list Interval) (e : Z) : Prop :=
  match l with
  | [] => s = e + 1
  | i :: l => start i = s ∧ iv_ok i ∧ tiles (end_ i + 1) l e
  end.

Lemma size_Ok {E} i : iv_ok i → @size E i = Ok (width i).
Proof. unfold iv_ok, size, width. intros. chk. done. Qed.

Lemma size_inv {E} i z : @size E i = Ok z → z = width i ∧ 0 ≤ z.
Proof. unfold size, width. intros H. inv_outcome. unfold is_u64 in *. lia. Qed.

Lemma split_sizes_tiles {E} s sizes e :
  1 ≤ s → e < U64_MAX → Forall (λ z, 0 ≤ z) sizes → s + sumZ sizes = e + 1 →
  ∃ l, @split_sizes E s sizes = Ok l ∧ tiles s l e ∧ (width <$> l) = sizes.
Proof.
  intros Hs He Hz. revert s Hs. induction Hz as [|z sizes Hz Hl IH]; intros s Hs Hsum.
  { exists []. unfold sumZ in Hsum. simpl in *. repeat split; lia. }
  rewrite sumZ_cons in Hsum. pose proof (sumZ_nonneg _ Hl).
  destruct (IH (s + z)) as (l & Hl' & Ht & Hw); [lia..|].
  exists (mkInterval s (s + z - 1) :: l). simpl. chk. rewrite Hl'. simpl.
  split; [done|]. split.
  - unfold iv_ok. simpl. repeat split; try lia. by replace (s + z - 1 + 1) with (s + z) by lia.
  - f_equal; [|done]. unfold width. simpl. lia.
Qed.

Lemma split_exact_tiles {E} i sizes :
  iv_ok i → Forall (λ z, 0 ≤ z) sizes → sumZ sizes = width i →
  ∃ l, @split_exact E i sizes = Ok l ∧ tiles (start i) l (end_ i) ∧ (width <$> l) = sizes.
Proof.
  intros Hi Hz Hsum. pose proof Hi as (? & ? & ?). unfold width in Hsum.
  destruct (@split_sizes_tiles E (start i) sizes (end_ i)) as (l & Hl & Ht & Hw); [lia|lia|done|lia|].
  exists l. split; [|done]. unfold split_exact.
  rewrite sum64_Ok by (first [done | unfold U64_MAX in *; lia]). simpl.
  rewrite size_Ok by done. simpl. unfold width. rewrite (proj2 (Z.eqb_eq _ _)) by lia. done.
Qed.

Lemma f64_round_as_u64_range x : 0 ≤ f64_round_as_u64 x ≤ U64_MAX.
Proof.
  unfold f64_round_as_u64, U64_MAX. destruct x as [| [] | |[] m e]; try lia.
  destruct (Z.leb_spec 0 e).
  - pose proof (Z.pow_nonneg 2 e ltac:(lia)). lia.
  - pose proof (Z.pow_pos_nonneg 2 (- e) ltac:(lia) ltac:(lia)).
    pose proof (Z.pow_nonneg 2 (- e - 1) ltac:(lia)).
    assert (0 ≤ (Zpos m + 2 ^ (- e - 1)) / 2 ^ (- e)) by (apply Z.div_pos; lia). lia.
Qed.

(** Whatever the fractions are, the biased sizes are at least the sizes and
    use up the bias exactly. *)
Lemma biased_sizes_spec {E} tb (l : list (f64 * Z)) rem :
  l ≠ [] → Forall (λ p, 0 ≤ p.2) l → 0 ≤ rem → sumZ l.*2 + rem ≤ U64_MAX →
  ∃ bs, @biased_sizes E tb rem l = Ok bs ∧ Forall2 (λ z b, z ≤ b) l.*2 bs ∧ sumZ bs = sumZ l.*2 + rem.
Proof.
  intros Hne Hz. revert rem Hne. induction Hz as [|[f z] l Hz Hl IH]; intros rem Hne Hrem Hb; [done|].
  csimpl in *. rewrite sumZ_cons in Hb.
  assert (0 ≤ sumZ l.*2) by (apply sumZ_nonneg, Forall_fmap; done).
  destruct l as [|p l].
  - simpl in *. unfold sumZ in *. simpl in *. chk. eexists. split; [done|].
    split; [repeat constructor; lia|]. unfold sumZ. simpl. lia.
  - set (bias := Z.min rem _). pose proof (f64_round_as_u64_range (f64_mul tb f)).
    destruct (IH (rem - bias)) as (bs & Hbs & Hle & Hsum); [done|lia|lia|].
    chk. rewrite Hbs. eexists. split; [done|]. split; [constructor; [lia|done]|].
    rewrite (sumZ_cons z), sumZ_cons. lia.
Qed.

Lemma length_exponential_fractions sizes : length (exponential_fractions sizes) = length sizes.
Proof. unfold exponential_fractions. by rewrite !length_fmap. Qed.

Lemma split_exponential_tiles {E} i sizes :
  iv_ok i → Forall (λ z, 0 ≤ z) sizes → 0 < sumZ sizes ≤ width i →
  ∃ l, @split_exponential E i sizes = Ok l ∧ tiles (start i) l (end_ i) ∧
    Forall2 (λ z j, z ≤ width j) sizes l.
Proof.
  intros Hi Hz Hsum. pose proof Hi as (? & ? & ?). unfold split_exponential.
  rewrite size_Ok by done. simpl. unfold width, U64_MAX in *.
  rewrite sum64_Ok by (first [done | unfold U64_MAX; lia]). simpl. rewrite Z.add_0_l.
  rewrite (proj2 (Z.leb_le _ _)) by lia. rewrite (proj2 (Z.ltb_lt _ _)) by lia. simpl.
  destruct (Z.eqb_spec (end_ i + 1 - start i) (sumZ sizes)).
  - destruct (@split_exact_tiles E i sizes) as (l & Hl & Ht & Hw); [done|done|unfold width; lia|].
    exists l. split; [done|]. split; [done|]. rewrite <- Hw. apply Forall2_fmap_l.
    apply Forall_Forall2_diag, Forall_forall. intros j _. simpl. unfold width. lia.
  - chk. set (rem := end_ i + 1 - start i - sumZ sizes).
    set (z := zip (exponential_fractions sizes) sizes).
    assert (Hz2 : z.*2 = sizes) by (apply snd_zip; rewrite length_exponential_fractions; lia).
    destruct (@biased_sizes_spec E (f64_of_u64 rem) z rem) as (bs & Hbs & Hle & Hs).
    + intros Hnil. rewrite Hnil in Hz2. simpl in Hz2. subst sizes. unfold sumZ in Hsum. simpl in Hsum. lia.
    + assert (Hz' : Forall (λ z, 0 ≤ z) z.*2) by (rewrite Hz2; exact Hz).
      rewrite Forall_fmap in Hz'. exact Hz'.
    + unfold rem. lia.
    + rewrite Hz2. unfold rem, U64_MAX. lia.
    + rewrite Hbs. simpl. rewrite Hz2 in Hle, Hs.
      destruct (@split_exact_tiles E i bs) as (l & Hl & Ht & Hw); [done| |unfold width; lia|].
      * rewrite Forall_forall in Hz |- *. intros b Hb. apply list_elem_of_lookup in Hb as [k Hk].
        destruct (Forall2_lookup_r _ _ _ _ _ Hle Hk) as (z' & Hz' & ?).
        assert (0 ≤ z') by (apply Hz, list_elem_of_lookup; eauto). lia.
      * exists l. split; [done|]. split; [done|]. rewrite <- Hw in Hle.
        rewrite Forall2_fmap_r in Hle. exact Hle.
Qed.

(** The width of tiles sums to the whole. *)
Lemma tiles_app s l1 l2 e :
  tiles s (l1 ++ l2) e ↔ ∃ m, tiles s l1 m ∧ tiles (m + 1) l2 e.
Proof.
  revert s. induction l1 as [|i l1 IH]; intros s; simpl.
  - split; [intros H; exists (s - 1); split; [lia|by replace (s - 1 + 1) with s by lia]|].
    intros (m & -> & H). done.
  - setoid_rewrite IH. split.
    + intros (? & ? & m & ? & ?). eauto 10.
    + intros (m & (? & ? & ?) & ?). eauto 10.
Qed.

Lemma tiles_bounds s l e i :
  tiles s l e → i ∈ l → s ≤ start i ∧ end_ i ≤ e ∧ iv_ok i.
Proof.
  revert s. induction l as [|j l IH]; intros s; [intros _ []%elem_of_nil|]. intros (<- & Hj & Ht).
  pose proof Hj as (? & ? & ?).
  assert (end_ j ≤ e).
  { clear -Ht. revert Ht. generalize (end_ j). induction l as [|k l IH]; simpl; [lia|].
    intros z (Hs & (? & ? & ?) & Ht). apply IH in Ht. lia. }
  intros [->|Hi]%elem_of_cons; [done|]. destruct (IH _ Ht Hi) as (? & ? & ?). split_and!; [lia|done|done].
Qed.

Lemma round_sig_bounds p n :
  0 < p → 1 ≤ n → 1 ≤ round_sig p n < 2 * n.
Proof.
  intros Hp Hn. unfold round_sig. destruct (Z.ltb_spec n (2 ^ p)); [lia|].
  pose proof (Z.log2_le_pow2 n p ltac:(lia)) as Hlog.
  set (e := Z.log2 n - (p - 1)). assert (He : 1 ≤ e) by (unfold e; lia).
  pose proof (Z.pow_pos_nonneg 2 e ltac:(lia) ltac:(lia)).
  pose proof (Z.pow_succ_r 2 (e - 1) ltac:(lia)) as Hh. replace (Z.succ (e - 1)) with e in Hh by lia.
  pose proof (Z.div_mod n (2 ^ e) ltac:(lia)). pose proof (Z.mod_pos_bound n (2 ^ e) ltac:(lia)).
  assert (1 ≤ n / 2 ^ e).
  { apply Z.div_le_lower_bound; [lia|]. rewrite Z.mul_1_r.
    transitivity (2 ^ Z.log2 n); [apply Z.pow_le_mono_r; unfold e; lia|]. apply Z.log2_spec. lia. }
  destruct ((2 ^ (e - 1) <? n mod 2 ^ e) || _) eqn:Hup; nia.
Qed.

Lemma ceil_half_f32_bounds n : 1 ≤ n ≤ U64_MAX → 1 ≤ ceil_half_f32 n ≤ n.
Proof.
  intros Hn. unfold ceil_half_f32. pose proof (round_sig_bounds 24 n ltac:(lia) ltac:(lia)).
  assert (1 ≤ (round_sig 24 n + 1) / 2) by (apply Z.div_le_lower_bound; lia).
  assert ((round_sig 24 n + 1) / 2 < n + 1) by (apply Z.div_lt_upper_bound; lia). lia.
Qed.

Lemma split_half_Ok {E} i :
  iv_ok i → 1 ≤ width i →
  ∃ left right, @split_half E i = Ok (left, right) ∧ iv_ok left ∧ 1 ≤ width left ∧
    tiles (start i) [left; right] (end_ i).
Proof.
  intros Hi Hw. pose proof Hi as (? & ? & ?). unfold split_half. rewrite size_Ok by done.
  cbn [mbind outcome_bind]. unfold width in *.
  pose proof (ceil_half_f32_bounds (end_ i + 1 - start i) ltac:(unfold U64_MAX in *; lia)).
  chk. eexists _, _. split; [done|]. unfold tiles, iv_ok; simpl. repeat split; lia.
Qed.

(** Both splits partition the interval: on sizes that sum up to at most
    the interval's size (exactly, for [split_exact]) they return consecutive
    disjoint intervals that cover it, each at least as large as asked. *)
Theorem splits_partition {E} (i : Interval) (sizes : list Z) :
  iv_ok i → Forall (λ z, 0 ≤ z) sizes → 0 < sumZ sizes ≤ width i →
  (∃ l, @split_exponential E i sizes = Ok l ∧ tiles (start i) l (end_ i) ∧ Forall2 (λ z j, z ≤ width j) sizes l) ∧
  (sumZ sizes = width i → ∃ l, @split_exact E i sizes = Ok l ∧ tiles (start i) l (end_ i) ∧ (width <$> l) = sizes).
Proof.
  intros Hi Hz Hsum. split; [by apply split_exponential_tiles|]. intros Heq. by apply split_exact_tiles.
Qed.

Lemma splits_partition_witness :
  (∃ l, @split_exponential unit (mkInterval 1 100) [1; 2; 3] = Ok l ∧ tiles 1 l 100 ∧ Forall2 (λ z j, z ≤ width j) [1; 2; 3] l) ∧
  (sumZ [1; 2; 3] = width (mkInterval 1 100) → ∃ l, @split_exact unit (mkInterval 1 100) [1; 2; 3] = Ok l ∧
     tiles 1 l 100 ∧ (width <$> l) = [1; 2; 3]).
Proof.
  apply (splits_partition (mkInterval 1 100) [1; 2; 3]).
  - vm_compute. repeat split; discriminate.
  - repeat constructor; lia.
  - vm_compute. split; [reflexivity|discriminate].
Defined.
