(* ===== verification/ReachStore.v ===== *)
(** * Reachability stores

    Models [src/consensus/src/model/stores/reachability.rs]: the store traits
    [ReachabilityStoreReader] and [ReachabilityStore] as the interface the
    reachability algorithms are written against, and the in-memory store
    [MemoryReachabilityStore] as its implementation. *)

From stdpp Require Import base list gmap strings.
From Stdlib Require Import ZArith Lia.
From S2P Require Import Prelude Tx Interval.

Local Open Scope Z_scope.

Definition NONE : BlockHash := 0.
(** 64 bytes [0xfe]. *)
Definition ORIGIN : BlockHash := foldr (λ b acc, b + 256 * acc) 0 (replicate 64 254).

Inductive StoreError : Type :=
| KeyNotFound (key : option BlockHash)
| KeyAlreadyExists (key : BlockHash).

Inductive ReachabilityError : Type :=
| StoreErr (e : StoreError)
| DataOverflow (msg : string)
| DataInconsistency
| BadQuery.

(** The interface: reader and writer operations. *)
Class ReachabilityStore (St : Type) := {
  has : St → BlockHash → outcome StoreError bool;
  get_interval : St → BlockHash → outcome StoreError Interval;
  get_parent : St → BlockHash → outcome StoreError BlockHash;
  get_children : St → BlockHash → outcome StoreError (list BlockHash);
  get_future_covering_set : St → BlockHash → outcome StoreError (list BlockHash);
  count : St → outcome StoreError nat;
  store_init : St → BlockHash → Interval → outcome StoreError St;
  insert_block : St → BlockHash → BlockHash → Interval → Z → outcome StoreError St;
  set_interval : St → BlockHash → Interval → outcome StoreError St;
  append_child : St → BlockHash → BlockHash → outcome StoreError St;
  insert_future_covering_item : St → BlockHash → BlockHash → nat → outcome StoreError St;
  set_parent : St → BlockHash → BlockHash → outcome StoreError St;
  replace_child : St → BlockHash → BlockHash → nat → list BlockHash → outcome StoreError St;
  replace_future_covering_item : St → BlockHash → BlockHash → nat → list BlockHash → outcome StoreError St;
  delete_data : St → BlockHash → outcome StoreError St;
  get_height : St → BlockHash → outcome StoreError Z;
  set_reindex_root : St → BlockHash → outcome StoreError St;
  get_reindex_root : St → outcome StoreError BlockHash;
}.

(** [Vec::insert] and [Vec::splice(i..i + 1, ..)]: out of range panics. *)
Definition vec_insert {E A} (i : nat) (x : A) (l : list A) : outcome E (list A) :=
  if (i <=? length l)%nat then Ok (take i l ++ x :: drop i l) else Panic.
Definition vec_splice1 {E A} (i : nat) (xs l : list A) : outcome E (list A) :=
  if (i <? length l)%nat then Ok (take i l ++ xs ++ drop (S i) l) else Panic.

(** ** The in-memory store *)

Record MemoryReachabilityData := mkData {
  children : list BlockHash;
  parent : BlockHash;
  interval : Interval;
  height : Z;
  future_covering_set : list BlockHash;
}.
Definition MemoryReachabilityData_new (p : BlockHash) (i : Interval) (h : Z) : MemoryReachabilityData :=
  mkData [] p i h [].

Record MemoryReachabilityStore := mkStore {
  map : gmap BlockHash MemoryReachabilityData;
  reindex_root : option BlockHash;
}.

Definition MemoryReachabilityStore_new : MemoryReachabilityStore := mkStore ∅ None.

Definition get_data (st : MemoryReachabilityStore) (hash : BlockHash) : outcome StoreError MemoryReachabilityData :=
  match map st !! hash with
  | Some data => Ok data
  | None => Err (KeyNotFound (Some hash))
  end.

(** [get_data_mut] followed by an assignment through the reference. *)
Definition update_data (st : MemoryReachabilityStore) (hash : BlockHash)
    (f : MemoryReachabilityData → outcome StoreError MemoryReachabilityData) :
    outcome StoreError MemoryReachabilityStore :=
  data ← get_data st hash;
  data ← f data;
  Ok (mkStore (<[hash := data]> (map st)) (reindex_root st)).

Definition mem_has (st : MemoryReachabilityStore) (hash : BlockHash) : outcome StoreError bool :=
  Ok (bool_decide (is_Some (map st !! hash))).
Definition mem_get_interval (st : MemoryReachabilityStore) (hash : BlockHash) : outcome StoreError Interval :=
  d ← get_data st hash; Ok (interval d).
Definition mem_get_parent (st : MemoryReachabilityStore) (hash : BlockHash) : outcome StoreError BlockHash :=
  d ← get_data st hash; Ok (parent d).
Definition mem_get_children (st : MemoryReachabilityStore) (hash : BlockHash) : outcome StoreError (list BlockHash) :=
  d ← get_data st hash; Ok (children d).
Definition mem_get_future_covering_set (st : MemoryReachabilityStore) (hash : BlockHash) :
    outcome StoreError (list BlockHash) :=
  d ← get_data st hash; Ok (future_covering_set d).
Definition mem_count (st : MemoryReachabilityStore) : outcome StoreError nat := Ok (base.size (map st)).
Definition mem_get_height (st : MemoryReachabilityStore) (hash : BlockHash) : outcome StoreError Z :=
  d ← get_data st hash; Ok (height d).

Definition mem_insert (st : MemoryReachabilityStore) (hash p : BlockHash) (i : Interval) (h : Z) :
    outcome StoreError MemoryReachabilityStore :=
  match map st !! hash with
  | None => Ok (mkStore (<[hash := MemoryReachabilityData_new p i h]> (map st)) (reindex_root st))
  | Some _ => Err (KeyAlreadyExists hash)
  end.

Definition mem_set_reindex_root (st : MemoryReachabilityStore) (root : BlockHash) :
    outcome StoreError MemoryReachabilityStore := Ok (mkStore (map st) (Some root)).
Definition mem_get_reindex_root (st : MemoryReachabilityStore) : outcome StoreError BlockHash :=
  ok_or (reindex_root st) (KeyNotFound None).

Definition mem_init (st : MemoryReachabilityStore) (origin : BlockHash) (capacity : Interval) :
    outcome StoreError MemoryReachabilityStore :=
  st ← mem_insert st origin NONE capacity 0;
  mem_set_reindex_root st origin.

Definition mem_set_interval (st : MemoryReachabilityStore) (hash : BlockHash) (i : Interval) :=
  update_data st hash (λ d, Ok (mkData (children d) (parent d) i (height d) (future_covering_set d))).
Definition mem_append_child (st : MemoryReachabilityStore) (hash child : BlockHash) :=
  update_data st hash (λ d,
    Ok (mkData (children d ++ [child]) (parent d) (interval d) (height d) (future_covering_set d))).
Definition mem_insert_future_covering_item (st : MemoryReachabilityStore) (hash fci : BlockHash) (i : nat) :=
  update_data st hash (λ d, fcs ← vec_insert i fci (future_covering_set d);
    Ok (mkData (children d) (parent d) (interval d) (height d) fcs)).
Definition mem_set_parent (st : MemoryReachabilityStore) (hash p : BlockHash) :=
  update_data st hash (λ d,
    Ok (mkData (children d) p (interval d) (height d) (future_covering_set d))).
Definition mem_replace_child (st : MemoryReachabilityStore) (hash replaced_hash : BlockHash) (i : nat) (l : list BlockHash) :=
  update_data st hash (λ d, cs ← vec_splice1 i l (children d);
    Ok (mkData cs (parent d) (interval d) (height d) (future_covering_set d))).
Definition mem_replace_future_covering_item (st : MemoryReachabilityStore) (hash replaced_hash : BlockHash) (i : nat)
    (l : list BlockHash) :=
  update_data st hash (λ d, fcs ← vec_splice1 i l (future_covering_set d);
    Ok (mkData (children d) (parent d) (interval d) (height d) fcs)).
Definition mem_delete (st : MemoryReachabilityStore) (hash : BlockHash) : outcome StoreError MemoryReachabilityStore :=
  Ok (mkStore (delete hash (map st)) (reindex_root st)).

#[export] Instance MemoryReachabilityStore_store : ReachabilityStore MemoryReachabilityStore := {|
  has := mem_has;
  get_interval := mem_get_interval;
  get_parent := mem_get_parent;
  get_children := mem_get_children;
  get_future_covering_set := mem_get_future_covering_set;
  count := mem_count;
  store_init := mem_init;
  insert_block := mem_insert;
  set_interval := mem_set_interval;
  append_child := mem_append_child;
  insert_future_covering_item := mem_insert_future_covering_item;
  set_parent := mem_set_parent;
  replace_child := mem_replace_child;
  replace_future_covering_item := mem_replace_future_covering_item;
  delete_data := mem_delete;
  get_height := mem_get_height;
  set_reindex_root := mem_set_reindex_root;
  get_reindex_root := mem_get_reindex_root;
|}.
