(* ===== verification/Reach.v ===== *)
(** * Reachability algorithms

    Models [src/consensus/src/processes/reachability/]: [extensions.rs],
    [inquirer.rs] (queries, insertion and deletion of blocks), [tree.rs]
    (tree insertion and the reindex root) and [reindex.rs] (reallocation of
    intervals), over any store with the [ReachabilityStore] interface.

    Fuel: every loop of this code follows tree edges, so the number of blocks
    in the store ([count]), plus one, bounds its iterations; the theorems of
    the following files show that this is enough. *)

From stdpp Require Import base list gmap strings.
From Stdlib Require Import ZArith Lia.
From S2P Require Import Prelude Tx Interval ReachStore.

Local Open Scope Z_scope.

(** The [?] operator from [StoreError] to [ReachabilityError]. *)
Definition lift {A} (m : outcome StoreError A) : outcome ReachabilityError A := map_err StoreErr m.

Section Algorithms.
Context {St : Type} `{!ReachabilityStore St}.
Implicit Types (st : St) (block : BlockHash).

(** ** [extensions.rs] *)

Definition interval_children_capacity st block : outcome StoreError Interval :=
  i ← get_interval st block; decrease_end i 1.

Definition interval_remaining_before st block : outcome StoreError Interval :=
  alloc_capacity ← interval_children_capacity st block;
  cs ← get_children st block;
  match head cs with
  | Some first_child =>
      first_alloc ← get_interval st first_child;
      e ← sub64 (start first_alloc) 1;
      Ok (mkInterval (start alloc_capacity) e)
  | None => Ok alloc_capacity
  end.

Definition interval_remaining_after st block : outcome StoreError Interval :=
  alloc_capacity ← interval_children_capacity st block;
  cs ← get_children st block;
  match last cs with
  | Some last_child =>
      last_alloc ← get_interval st last_child;
      s ← add64 (end_ last_alloc) 1;
      Ok (mkInterval s (end_ alloc_capacity))
  | None => Ok alloc_capacity
  end.

(** ** [inquirer.rs]: queries *)

Definition is_strict_chain_ancestor_of st (this queried : BlockHash) : outcome ReachabilityError bool :=
  i ← lift (get_interval st this);
  j ← lift (get_interval st queried);
  Ok (strictly_contains i j).

Definition is_chain_ancestor_of st (this queried : BlockHash) : outcome ReachabilityError bool :=
  i ← lift (get_interval st this);
  j ← lift (get_interval st queried);
  Ok (contains i j).

Inductive SearchOutput : Type :=
| NotFound (i : nat)
| Found (hash : BlockHash) (i : nat).

(** [slice::binary_search_by_key] of the standard library: halve the window
    until one element is left, then compare it. *)
Fixpoint binary_search_loop {E} (fuel : nat) (key : nat → outcome E Z) (point : Z) (base size : nat) : outcome E nat :=
  if (size <=? 1)%nat then Ok base else
  match fuel with
  | O => OutOfFuel
  | S fuel =>
      let half := (size / 2)%nat in
      let mid := (base + half)%nat in
      k ← key mid;
      binary_search_loop fuel key point (if point <? k then base else mid) (size - half)%nat
  end.

Definition binary_search_by_key {E} (n : nat) (key : nat → outcome E Z) (point : Z) : outcome E (nat + nat) :=
  if (n =? 0)%nat then Ok (inr 0%nat) else
  base ← binary_search_loop n key point 0 n;
  k ← key base;
  if k =? point then Ok (inl base)
  else Ok (inr (if k <? point then S base else base)).

Definition binary_search_descendant st (ordered_hashes : list BlockHash) (descendant : BlockHash) :
    outcome ReachabilityError SearchOutput :=
  i ← lift (get_interval st descendant);
  let point := end_ i in
  r ← binary_search_by_key (length ordered_hashes) (λ i,
        c ← unwrap (ordered_hashes !! i);
        match get_interval st c with
        | Ok j => Ok (start j)
        | Err _ => Panic
        | Panic => Panic
        | OutOfFuel => OutOfFuel
        end) point;
  match r with
  | inl i => h ← unwrap (ordered_hashes !! i); Ok (Found h i)
  | inr 0%nat => Ok (NotFound 0)
  | inr (S i) =>
      h ← unwrap (ordered_hashes !! i);
      b ← is_chain_ancestor_of st h descendant;
      if (b : bool) then Ok (Found h i) else Ok (NotFound (S i))
  end.

Definition is_dag_ancestor_of st (this queried : BlockHash) : outcome ReachabilityError bool :=
  b ← is_chain_ancestor_of st this queried;
  if (b : bool) then Ok true else
  fcs ← lift (get_future_covering_set st this);
  r ← binary_search_descendant st fcs queried;
  match r with
  | Found _ _ => Ok true
  | NotFound _ => Ok false
  end.

Definition get_next_chain_ancestor_unchecked st (descendant ancestor : BlockHash) : outcome ReachabilityError BlockHash :=
  cs ← lift (get_children st ancestor);
  r ← binary_search_descendant st cs descendant;
  match r with
  | Found hash _ => Ok hash
  | NotFound _ => Err BadQuery
  end.

Definition get_next_chain_ancestor st (descendant ancestor : BlockHash) : outcome ReachabilityError BlockHash :=
  if descendant =? ancestor then Err BadQuery else
  b ← is_strict_chain_ancestor_of st ancestor descendant;
  if negb b then Err BadQuery else
  get_next_chain_ancestor_unchecked st descendant ancestor.

(** ** [reindex.rs]

    A [ReindexOperationContext] is the store, the cache of subtree sizes and
    the slack; the depth it carries is unused. *)
Record ReindexOperationContext := mkCtx {
  ctx_store : St;
  subtree_sizes : gmap BlockHash Z;
}.

Definition Ctx_new st : ReindexOperationContext := mkCtx st ∅.

(** [self.subtree_sizes[&c]] panics on a missing key. *)
Definition size_of (sizes : gmap BlockHash Z) (b : BlockHash) : outcome ReachabilityError Z := unwrap (sizes !! b).

Fixpoint mapM_outcome {E A B} (f : A → outcome E B) (l : list A) : outcome E (list B) :=
  match l with
  | [] => Ok []
  | a :: l => b ← f a; bs ← mapM_outcome f l; Ok (b :: bs)
  end.

(** The inner loop of [count_subtrees]: push information up to [block]. *)
Fixpoint count_up (fuel : nat) st block (current : BlockHash) (sizes counts : gmap BlockHash Z) :
    outcome ReachabilityError (gmap BlockHash Z * gmap BlockHash Z) :=
  if current =? block then Ok (sizes, counts) else
  match fuel with
  | O => OutOfFuel
  | S fuel =>
      current ← lift (get_parent st current);
      cs ← lift (get_children st current);
      c ← add64 (default 0 (counts !! current)) 1;
      let counts := <[current := c]> counts in
      if c <? Z.of_nat (length cs) then Ok (sizes, counts)
      else
        l ← mapM_outcome (size_of sizes) cs;
        subtree_sum ← sum64 l 0;
        n ← add64 subtree_sum 1;
        count_up fuel st block current (<[current := n]> sizes) counts
  end.

Fixpoint count_bfs (fuel up_fuel : nat) st block (queue : list BlockHash) (sizes counts : gmap BlockHash Z) :
    outcome ReachabilityError (gmap BlockHash Z) :=
  match queue with
  | [] => Ok sizes
  | current :: queue =>
      match fuel with
      | O => OutOfFuel
      | S fuel =>
          cs ← lift (get_children st current);
          match cs with
          | [] =>
              '(sizes, counts) ← count_up up_fuel st block current (<[current := 1]> sizes) counts;
              count_bfs fuel up_fuel st block queue sizes counts
          | _ =>
              match sizes !! current with
              | None => count_bfs fuel up_fuel st block (queue ++ cs) sizes counts
              | Some _ =>
                  '(sizes, counts) ← count_up up_fuel st block current sizes counts;
                  count_bfs fuel up_fuel st block queue sizes counts
              end
          end
      end
  end.

Definition count_subtrees (ctx : ReindexOperationContext) block : outcome ReachabilityError ReindexOperationContext :=
  match subtree_sizes ctx !! block with
  | Some _ => Ok ctx
  | None =>
      n ← lift (count (ctx_store ctx));
      sizes ← count_bfs (S n) (S n) (ctx_store ctx) block [block] (subtree_sizes ctx) ∅;
      Ok (mkCtx (ctx_store ctx) sizes)
  end.

(** Assign [intervals] to [cs], pairwise. *)
Definition set_intervals st (cs : list BlockHash) (intervals : list Interval) : outcome ReachabilityError St :=
  for_each (λ st '(c, ci), lift (set_interval st c ci)) (zip cs intervals) st.

Fixpoint propagate_bfs (fuel : nat) (sizes : gmap BlockHash Z) st (queue : list BlockHash) : outcome ReachabilityError St :=
  match queue with
  | [] => Ok st
  | current :: queue =>
      match fuel with
      | O => OutOfFuel
      | S fuel =>
          cs ← lift (get_children st current);
          match cs with
          | [] => propagate_bfs fuel sizes st queue
          | _ =>
              l ← mapM_outcome (size_of sizes) cs;
              i ← lift (interval_children_capacity st current);
              intervals ← split_exponential i l;
              st ← set_intervals st cs intervals;
              propagate_bfs fuel sizes st (queue ++ cs)
          end
      end
  end.

Definition propagate_interval (ctx : ReindexOperationContext) block : outcome ReachabilityError ReindexOperationContext :=
  ctx ← count_subtrees ctx block;
  n ← lift (count (ctx_store ctx));
  st ← propagate_bfs (S n) (subtree_sizes ctx) (ctx_store ctx) [block];
  Ok (mkCtx st (subtree_sizes ctx)).

Definition interval_op : Type := Interval → Z → outcome ReachabilityError Interval.

Definition apply_interval_op (ctx : ReindexOperationContext) block (offset : Z) (op : interval_op) :
    outcome ReachabilityError ReindexOperationContext :=
  i ← lift (get_interval (ctx_store ctx) block);
  j ← op i offset;
  st ← lift (set_interval (ctx_store ctx) block j);
  Ok (mkCtx st (subtree_sizes ctx)).

Definition apply_interval_op_and_propagate (ctx : ReindexOperationContext) block (offset : Z) (op : interval_op) :
    outcome ReachabilityError ReindexOperationContext :=
  ctx ← apply_interval_op ctx block offset op;
  propagate_interval ctx block.

(** Splits [children] into the blocks before [pivot] and the blocks after. *)
Fixpoint split_children (cs : list BlockHash) (pivot : BlockHash) :
    outcome ReachabilityError (list BlockHash * list BlockHash) :=
  match cs with
  | [] => Err DataInconsistency
  | c :: cs =>
      if c =? pivot then Ok ([], cs)
      else '(before, after) ← split_children cs pivot; Ok (c :: before, after)
  end.

(** Shift the siblings between [current] and [allocation_block] and give the
    room to [allocation_block]; [shift] moves a sibling, [extend] enlarges
    [allocation_block]. *)
Fixpoint offset_siblings (ctx : ReindexOperationContext) (allocation_block : BlockHash) (offset : Z)
    (extend shift : interval_op) (siblings : list BlockHash) : outcome ReachabilityError ReindexOperationContext :=
  match siblings with
  | [] => Ok ctx
  | sibling :: siblings =>
      if sibling =? allocation_block
      then apply_interval_op_and_propagate ctx allocation_block offset extend
      else
        ctx ← apply_interval_op_and_propagate ctx sibling offset shift;
        offset_siblings ctx allocation_block offset extend shift siblings
  end.

Definition offset_siblings_before (ctx : ReindexOperationContext) (allocation_block current : BlockHash) (offset : Z) :
    outcome ReachabilityError ReindexOperationContext :=
  p ← lift (get_parent (ctx_store ctx) current);
  cs ← lift (get_children (ctx_store ctx) p);
  '(siblings_before, _) ← split_children cs current;
  offset_siblings ctx allocation_block offset increase_end increase (rev siblings_before).

Definition offset_siblings_after (ctx : ReindexOperationContext) (allocation_block current : BlockHash) (offset : Z) :
    outcome ReachabilityError ReindexOperationContext :=
  p ← lift (get_parent (ctx_store ctx) current);
  cs ← lift (get_children (ctx_store ctx) p);
  '(_, siblings_after) ← split_children cs current;
  offset_siblings ctx allocation_block offset decrease_start decrease siblings_after.

(** The walk up of [reclaim_interval_before]/[_after]: returns the context,
    the block where the walk stopped and the slack to reserve on the way down. *)
Fixpoint reclaim_up (fuel : nat) (slack : Z)
    (remaining : St → BlockHash → outcome StoreError Interval) (op : interval_op)
    (offset_siblings : ReindexOperationContext → BlockHash → BlockHash → Z → outcome ReachabilityError ReindexOperationContext)
    (ctx : ReindexOperationContext) (allocation_block reindex_root : BlockHash) (required_allocation : Z)
    (current : BlockHash) (slack_sum path_len : Z) :
    outcome ReachabilityError (ReindexOperationContext * BlockHash * Z) :=
  match fuel with
  | O => OutOfFuel
  | S fuel =>
      if current =? reindex_root then
        s ← mul64 slack path_len;
        a ← add64 required_allocation s;
        offset ← sub64 a slack_sum;
        ctx ← apply_interval_op_and_propagate ctx current offset op;
        ctx ← offset_siblings ctx allocation_block current offset;
        Ok (ctx, current, slack)
      else
        r ← lift (remaining (ctx_store ctx) current);
        slack_current ← size r;
        slack_sum ← add64 slack_sum slack_current;
        if required_allocation <=? slack_sum then
          d ← sub64 slack_sum required_allocation;
          offset ← sub64 slack_current d;
          ctx ← apply_interval_op ctx current offset op;
          ctx ← offset_siblings ctx allocation_block current offset;
          Ok (ctx, current, 0)
        else
          current ← get_next_chain_ancestor_unchecked (ctx_store ctx) reindex_root current;
          path_len ← add64 path_len 1;
          reclaim_up fuel slack remaining op offset_siblings ctx allocation_block reindex_root required_allocation
            current slack_sum path_len
  end.

(** The walk back down to the common ancestor. *)
Fixpoint reclaim_down (fuel : nat)
    (remaining : St → BlockHash → outcome StoreError Interval) (op : interval_op)
    (offset_siblings : ReindexOperationContext → BlockHash → BlockHash → Z → outcome ReachabilityError ReindexOperationContext)
    (ctx : ReindexOperationContext) (allocation_block common_ancestor current : BlockHash) (path_slack_alloc : Z) :
    outcome ReachabilityError ReindexOperationContext :=
  match fuel with
  | O => OutOfFuel
  | S fuel =>
      current ← lift (get_parent (ctx_store ctx) current);
      if current =? common_ancestor then Ok ctx else
      r ← lift (remaining (ctx_store ctx) current);
      slack_current ← size r;
      offset ← sub64 slack_current path_slack_alloc;
      ctx ← apply_interval_op ctx current offset op;
      ctx ← offset_siblings ctx allocation_block current offset;
      reclaim_down fuel remaining op offset_siblings ctx allocation_block common_ancestor current path_slack_alloc
  end.

Definition reclaim_interval_before (slack : Z) (ctx : ReindexOperationContext)
    (allocation_block common_ancestor chosen_child reindex_root : BlockHash) (required_allocation : Z) :
    outcome ReachabilityError ReindexOperationContext :=
  n ← lift (count (ctx_store ctx));
  '(ctx, current, path_slack_alloc) ←
    reclaim_up (S n) slack interval_remaining_before increase_start offset_siblings_before
      ctx allocation_block reindex_root required_allocation chosen_child 0 0;
  reclaim_down (S n) interval_remaining_before increase_start offset_siblings_before
    ctx allocation_block common_ancestor current path_slack_alloc.

Definition reclaim_interval_after (slack : Z) (ctx : ReindexOperationContext)
    (allocation_block common_ancestor chosen_child reindex_root : BlockHash) (required_allocation : Z) :
    outcome ReachabilityError ReindexOperationContext :=
  n ← lift (count (ctx_store ctx));
  '(ctx, current, path_slack_alloc) ←
    reclaim_up (S n) slack interval_remaining_after decrease_end offset_siblings_after
      ctx allocation_block reindex_root required_allocation chosen_child 0 0;
  reclaim_down (S n) interval_remaining_after decrease_end offset_siblings_after
    ctx allocation_block common_ancestor current path_slack_alloc.

Definition reindex_intervals_earlier_than_root (slack : Z) (ctx : ReindexOperationContext)
    (allocation_block reindex_root common_ancestor : BlockHash) (required_allocation : Z) :
    outcome ReachabilityError ReindexOperationContext :=
  chosen_child ← get_next_chain_ancestor_unchecked (ctx_store ctx) reindex_root common_ancestor;
  block_interval ← lift (get_interval (ctx_store ctx) allocation_block);
  chosen_interval ← lift (get_interval (ctx_store ctx) chosen_child);
  if start block_interval <? start chosen_interval
  then reclaim_interval_before slack ctx allocation_block common_ancestor chosen_child reindex_root required_allocation
  else reclaim_interval_after slack ctx allocation_block common_ancestor chosen_child reindex_root required_allocation.

Fixpoint reindex_intervals_loop (fuel : nat) (slack : Z) (ctx : ReindexOperationContext)
    (current reindex_root : BlockHash) : outcome ReachabilityError ReindexOperationContext :=
  match fuel with
  | O => OutOfFuel
  | S fuel =>
      current_interval ← lift (get_interval (ctx_store ctx) current);
      ctx ← count_subtrees ctx current;
      sz ← size current_interval;
      n ← size_of (subtree_sizes ctx) current;
      if n <=? sz then propagate_interval ctx current
      else
        p ← lift (get_parent (ctx_store ctx) current);
        if p =? NONE then Err (DataOverflow "missing tree parent during reindexing")
        else if current =? reindex_root then Err (DataOverflow "reindex root is out of capacity during reindexing")
        else
          b ← is_strict_chain_ancestor_of (ctx_store ctx) p reindex_root;
          if (b : bool) then
            n ← size_of (subtree_sizes ctx) current;
            reindex_intervals_earlier_than_root slack ctx current reindex_root p n
          else reindex_intervals_loop fuel slack ctx p reindex_root
  end.

Definition reindex_intervals (slack : Z) (ctx : ReindexOperationContext) (new_child reindex_root : BlockHash) :
    outcome ReachabilityError ReindexOperationContext :=
  n ← lift (count (ctx_store ctx));
  reindex_intervals_loop (S n) slack ctx new_child reindex_root.

(** Reindexing when the reindex root moves. The sizes of [blocks], counting
    each subtree that is not in the cache yet. *)
Fixpoint count_all (ctx : ReindexOperationContext) (blocks : list BlockHash) :
    outcome ReachabilityError (ReindexOperationContext * list Z) :=
  match blocks with
  | [] => Ok (ctx, [])
  | block :: blocks =>
      ctx ← count_subtrees ctx block;
      n ← size_of (subtree_sizes ctx) block;
      '(ctx, l) ← count_all ctx blocks;
      Ok (ctx, n :: l)
  end.

(** Assign the parts of a split to [blocks] and propagate each. *)
Definition tighten (ctx : ReindexOperationContext) (blocks : list BlockHash) (intervals : list Interval) :
    outcome ReachabilityError ReindexOperationContext :=
  for_each (λ ctx '(c, ci),
    st ← lift (set_interval (ctx_store ctx) c ci);
    propagate_interval (mkCtx st (subtree_sizes ctx)) c) (zip blocks intervals) ctx.

Definition tighten_intervals_before (slack : Z) (ctx : ReindexOperationContext) (p : BlockHash)
    (children_before : list BlockHash) : outcome ReachabilityError (ReindexOperationContext * Z) :=
  '(ctx, sizes) ← count_all ctx children_before;
  sum ← sum64 sizes 0;
  i ← lift (get_interval (ctx_store ctx) p);
  s ← add64 (start i) slack;
  e ← add64 s sum;
  e ← sub64 e 1;
  parts ← split_exact (mkInterval s e) sizes;
  ctx ← tighten ctx children_before parts;
  Ok (ctx, sum).

Definition tighten_intervals_after (slack : Z) (ctx : ReindexOperationContext) (p : BlockHash)
    (children_after : list BlockHash) : outcome ReachabilityError (ReindexOperationContext * Z) :=
  '(ctx, sizes) ← count_all ctx children_after;
  sum ← sum64 sizes 0;
  i ← lift (get_interval (ctx_store ctx) p);
  e ← sub64 (end_ i) slack;
  s ← sub64 e sum;
  e ← sub64 e 1;
  parts ← split_exact (mkInterval s e) sizes;
  ctx ← tighten ctx children_after parts;
  Ok (ctx, sum).

Definition expand_interval_to_chosen (slack : Z) (ctx : ReindexOperationContext) (p child : BlockHash)
    (siblings_before_subtrees_sum siblings_after_subtrees_sum : Z) (is_final_reindex_root : bool) :
    outcome ReachabilityError ReindexOperationContext :=
  i ← lift (get_interval (ctx_store ctx) p);
  s ← add64 (start i) siblings_before_subtrees_sum;
  s ← add64 s slack;
  e ← sub64 (end_ i) siblings_after_subtrees_sum;
  e ← sub64 e slack;
  e ← sub64 e 1;
  let allocation := mkInterval s e in
  current ← lift (get_interval (ctx_store ctx) child);
  ctx ← (if is_final_reindex_root && negb (contains allocation current) then
           s' ← add64 s slack;
           e' ← sub64 e slack;
           st ← lift (set_interval (ctx_store ctx) child (mkInterval s' e'));
           propagate_interval (mkCtx st (subtree_sizes ctx)) child
         else Ok ctx);
  st ← lift (set_interval (ctx_store ctx) child allocation);
  Ok (mkCtx st (subtree_sizes ctx)).

Definition concentrate_interval (slack : Z) (ctx : ReindexOperationContext) (p child : BlockHash)
    (is_final_reindex_root : bool) : outcome ReachabilityError ReindexOperationContext :=
  cs ← lift (get_children (ctx_store ctx) p);
  '(siblings_before, siblings_after) ← split_children cs child;
  '(ctx, before_sum) ← tighten_intervals_before slack ctx p siblings_before;
  '(ctx, after_sum) ← tighten_intervals_after slack ctx p siblings_after;
  expand_interval_to_chosen slack ctx p child before_sum after_sum is_final_reindex_root.

(** ** [tree.rs] *)

Definition add_tree_block st (new_block p : BlockHash) (reindex_depth reindex_slack : Z) : outcome ReachabilityError St :=
  remaining ← lift (interval_remaining_after st p);
  st ← lift (append_child st p new_block);
  parent_height ← lift (get_height st p);
  e ← is_empty remaining;
  if (e : bool) then
    h ← add64 parent_height 1;
    st ← lift (insert_block st new_block p remaining h);
    root ← lift (get_reindex_root st);
    ctx ← reindex_intervals reindex_slack (Ctx_new st) new_block root;
    Ok (ctx_store ctx)
  else
    '(allocated, _) ← split_half remaining;
    h ← add64 parent_height 1;
    lift (insert_block st new_block p allocated h).

Fixpoint find_common_tree_ancestor_loop (fuel : nat) st (current reindex_root : BlockHash) :
    outcome ReachabilityError BlockHash :=
  match fuel with
  | O => OutOfFuel
  | S fuel =>
      b ← is_chain_ancestor_of st current reindex_root;
      if (b : bool) then Ok current
      else current ← lift (get_parent st current); find_common_tree_ancestor_loop fuel st current reindex_root
  end.

Definition find_common_tree_ancestor st block (reindex_root : BlockHash) : outcome ReachabilityError BlockHash :=
  n ← lift (count st);
  find_common_tree_ancestor_loop (S n) st block reindex_root.

(** Iterate from [next] towards [hint] until the depth threshold. *)
Fixpoint advance_root_loop (fuel : nat) st (hint : BlockHash) (hint_height reindex_depth : Z) (next : BlockHash) :
    outcome ReachabilityError BlockHash :=
  match fuel with
  | O => OutOfFuel
  | S fuel =>
      child ← get_next_chain_ancestor_unchecked st hint next;
      child_height ← lift (get_height st child);
      if hint_height <? child_height then Err DataInconsistency
      else
        d ← sub64 hint_height child_height;
        if d <? reindex_depth then Ok next
        else advance_root_loop fuel st hint hint_height reindex_depth child
  end.

Definition find_next_reindex_root st (current hint : BlockHash) (reindex_depth reindex_slack : Z) :
    outcome ReachabilityError (BlockHash * BlockHash) :=
  hint_height ← lift (get_height st hint);
  n ← lift (count st);
  b ← is_chain_ancestor_of st current hint;
  if negb b then
    current_height ← lift (get_height st current);
    if hint_height <? current_height then Ok (current, current)
    else
      d ← sub64 hint_height current_height;
      if d <? reindex_slack then Ok (current, current)
      else
        common ← find_common_tree_ancestor st hint current;
        next ← advance_root_loop (S n) st hint hint_height reindex_depth common;
        Ok (common, next)
  else
    next ← advance_root_loop (S n) st hint hint_height reindex_depth current;
    Ok (current, next).

Fixpoint concentrate_loop (fuel : nat) st (ancestor next : BlockHash) (reindex_slack : Z) : outcome ReachabilityError St :=
  if ancestor =? next then Ok st else
  match fuel with
  | O => OutOfFuel
  | S fuel =>
      child ← get_next_chain_ancestor_unchecked st next ancestor;
      ctx ← concentrate_interval reindex_slack (Ctx_new st) ancestor child (child =? next);
      concentrate_loop fuel (ctx_store ctx) child next reindex_slack
  end.

Definition try_advancing_reindex_root st (hint : BlockHash) (reindex_depth reindex_slack : Z) : outcome ReachabilityError St :=
  current ← lift (get_reindex_root st);
  '(ancestor, next) ← find_next_reindex_root st current hint reindex_depth reindex_slack;
  if current =? next then Ok st
  else
    n ← lift (count st);
    st ← concentrate_loop (S n) st ancestor next reindex_slack;
    lift (set_reindex_root st next).

(** ** [inquirer.rs]: updates *)

Definition DEFAULT_REINDEX_DEPTH : Z := 100.
Definition DEFAULT_REINDEX_SLACK : Z := Z.shiftl 1 14.

Definition init_with_params st (origin : BlockHash) (capacity : Interval) : outcome ReachabilityError St :=
  b ← lift (has st origin);
  if (b : bool) then Ok st else lift (store_init st origin capacity).

Definition init st : outcome ReachabilityError St := init_with_params st ORIGIN maximal.

Definition insert_to_future_covering_set st (merged_block new_block : BlockHash) : outcome ReachabilityError St :=
  fcs ← lift (get_future_covering_set st merged_block);
  r ← binary_search_descendant st fcs new_block;
  match r with
  | Found _ _ => Err DataInconsistency
  | NotFound i => lift (insert_future_covering_item st merged_block new_block i)
  end.

Definition add_dag_block st (new_block : BlockHash) (mergeset : list BlockHash) : outcome ReachabilityError St :=
  for_each (λ st merged_block, insert_to_future_covering_set st merged_block new_block) mergeset st.

Definition add_block_with_params st (new_block selected_parent : BlockHash) (mergeset : list BlockHash)
    (reindex_depth reindex_slack : option Z) : outcome ReachabilityError St :=
  st ← add_tree_block st new_block selected_parent
         (default DEFAULT_REINDEX_DEPTH reindex_depth) (default DEFAULT_REINDEX_SLACK reindex_slack);
  add_dag_block st new_block mergeset.

Definition add_block st (new_block selected_parent : BlockHash) (mergeset : list BlockHash) : outcome ReachabilityError St :=
  add_block_with_params st new_block selected_parent mergeset None None.

(** Step 5 of the deletion: extend the outer children over the freed interval. *)
Definition extend_after_delete st (p : BlockHash) (block_index : nat) (i : Interval) (cs : list BlockHash) :
    outcome ReachabilityError St :=
  match cs with
  | [] =>
      if (0 <? block_index)%nat then
        siblings ← lift (get_children st p);
        sibling ← unwrap (siblings !! (block_index - 1)%nat);
        si ← lift (get_interval st sibling);
        lift (set_interval st sibling (mkInterval (start si) (end_ i)))
      else Ok st
  | [c] => lift (set_interval st c i)
  | first_child :: _ =>
      fi ← lift (get_interval st first_child);
      st ← lift (set_interval st first_child (mkInterval (start i) (end_ fi)));
      last_child ← unwrap (last cs);
      li ← lift (get_interval st last_child);
      lift (set_interval st last_child (mkInterval (start li) (end_ i)))
  end.

Definition delete_block st block (mergeset : list BlockHash) : outcome ReachabilityError St :=
  i ← lift (get_interval st block);
  p ← lift (get_parent st block);
  cs ← lift (get_children st block);
  siblings ← lift (get_children st p);
  r ← binary_search_descendant st siblings block;
  match r with
  | NotFound _ => Err DataInconsistency
  | Found _ block_index =>
      st ← lift (replace_child st p block block_index cs);
      st ← for_each (λ st child, lift (set_parent st child p)) cs st;
      st ← for_each (λ st merged_block,
             fcs ← lift (get_future_covering_set st merged_block);
             r ← binary_search_descendant st fcs block;
             match r with
             | NotFound _ => Err DataInconsistency
             | Found _ i => lift (replace_future_covering_item st merged_block block i cs)
             end) mergeset st;
      st ← extend_after_delete st p block_index i cs;
      lift (delete_data st block)
  end.

Definition hint_virtual_selected_parent st (hint : BlockHash) : outcome ReachabilityError St :=
  try_advancing_reindex_root st hint DEFAULT_REINDEX_DEPTH DEFAULT_REINDEX_SLACK.
End Algorithms.
