(* ===== verification/RoseTree.v ===== *)
(** * Rose trees

    The shape of the reachability tree, unfolded from the children lists of a
    store: the structure the proofs about the tree algorithms recurse on. *)

From stdpp Require Import base list gmap.
From Stdlib Require Import ZArith Lia.
From S2P Require Import Prelude Tx.

Local Open Scope Z_scope.

Inductive tree : Type := Node (b : BlockHash) (ts : list tree).

Definition root (t : tree) : BlockHash := match t with Node b _ => b end.
Definition kids (t : tree) : list tree := match t with Node _ ts => ts end.

(** All subtrees, in preorder, and their roots. *)
Fixpoint subs (t : tree) : list tree :=
  match t with Node b ts => Node b ts :: List.flat_map subs ts end.
Definition labels (t : tree) : list BlockHash := root <$> subs t.
Definition forest_labels (ts : list tree) : list BlockHash := root <$> List.flat_map subs ts.
Definition tsize (t : tree) : Z := Z.of_nat (length (labels t)).

Section tree_induction.
Context (P : tree → Prop) (HP : ∀ b ts, Forall P ts → P (Node b ts)).
Fixpoint tree_induction (t : tree) : P t :=
  match t with
  | Node b ts => HP b ts ((fix all ts : Forall P ts :=
      match ts with [] => Forall_nil_2 P | t :: ts => Forall_cons_2 P t ts (tree_induction t) (all ts) end) ts)
  end.
End tree_induction.

Lemma elem_of_flat_map {A B} (f : A → list B) l y : y ∈ List.flat_map f l ↔ ∃ x, x ∈ l ∧ y ∈ f x.
Proof.
  rewrite list_elem_of_In, in_flat_map. setoid_rewrite <- list_elem_of_In. naive_solver.
Qed.

Lemma subs_self t : t ∈ subs t.
Proof. destruct t. simpl. set_solver. Qed.

Lemma subs_node b ts s : s ∈ subs (Node b ts) ↔ s = Node b ts ∨ ∃ t, t ∈ ts ∧ s ∈ subs t.
Proof. simpl. rewrite elem_of_cons, elem_of_flat_map. done. Qed.

Lemma subs_trans s t u : s ∈ subs t → t ∈ subs u → s ∈ subs u.
Proof.
  induction u as [b ts IH] using tree_induction. rewrite Forall_forall in IH.
  intros Hs [->|(x & Hx & Ht)]%subs_node; [done|].
  apply subs_node. right. exists x. eauto.
Qed.

Lemma kids_subs k t : k ∈ kids t → k ∈ subs t.
Proof. destruct t as [b ts]. intros Hk. apply subs_node. right. exists k. split; [done|apply subs_self]. Qed.

Lemma labels_node b ts : labels (Node b ts) = b :: forest_labels ts.
Proof. done. Qed.

Lemma elem_of_labels b t : b ∈ labels t ↔ ∃ s, s ∈ subs t ∧ root s = b.
Proof. unfold labels. rewrite list_elem_of_fmap. naive_solver. Qed.

Lemma elem_of_forest_labels b ts : b ∈ forest_labels ts ↔ ∃ t, t ∈ ts ∧ b ∈ labels t.
Proof.
  unfold forest_labels. rewrite list_elem_of_fmap. setoid_rewrite elem_of_flat_map.
  setoid_rewrite elem_of_labels. naive_solver.
Qed.

Lemma root_labels t : root t ∈ labels t.
Proof. apply elem_of_labels. exists t. split; [apply subs_self|done]. Qed.

Lemma labels_subs s t b : s ∈ subs t → b ∈ labels s → b ∈ labels t.
Proof. rewrite !elem_of_labels. intros Hs (u & Hu & <-). exists u. split; [|done]. by eapply subs_trans. Qed.

Lemma forest_labels_cons t ts : forest_labels (t :: ts) = labels t ++ forest_labels ts.
Proof. unfold forest_labels, labels. simpl. apply fmap_app. Qed.

Lemma forest_labels_app ts us : forest_labels (ts ++ us) = forest_labels ts ++ forest_labels us.
Proof.
  induction ts as [|t ts IH]; [done|]. simpl. rewrite !forest_labels_cons, IH. by rewrite (assoc_L (++)).
Qed.

Lemma NoDup_labels_node b ts :
  NoDup (labels (Node b ts)) ↔ b ∉ forest_labels ts ∧ NoDup (forest_labels ts).
Proof. rewrite labels_node. apply NoDup_cons. Qed.

Lemma NoDup_forest_labels_elem ts t : NoDup (forest_labels ts) → t ∈ ts → NoDup (labels t).
Proof.
  intros H Ht. apply list_elem_of_split in Ht as (l1 & l2 & ->).
  rewrite forest_labels_app, forest_labels_cons in H.
  apply NoDup_app in H as (_ & _ & H). apply NoDup_app in H as (H & _ & _). done.
Qed.

(** Distinct trees of a forest have disjoint labels. *)
Lemma NoDup_forest_labels_disjoint ts t u b :
  NoDup (forest_labels ts) → t ∈ ts → u ∈ ts → b ∈ labels t → b ∈ labels u → t = u.
Proof.
  induction ts as [|v ts IH]; [by intros _ ?%elem_of_nil|].
  rewrite forest_labels_cons. intros (H1 & H2 & H3)%NoDup_app.
  rewrite !elem_of_cons. intros [->|Ht] [->|Hu] Hbt Hbu; [done| | |by apply IH].
  - destruct (H2 b Hbt). apply elem_of_forest_labels. eauto.
  - destruct (H2 b Hbu). apply elem_of_forest_labels. eauto.
Qed.

Lemma NoDup_forest_roots ts : NoDup (forest_labels ts) → NoDup (root <$> ts).
Proof.
  induction ts as [|t ts IH]; [constructor|]. rewrite forest_labels_cons, fmap_cons.
  intros (_ & Hd & Hnd)%NoDup_app. constructor; [|auto].
  intros (u & Heq & Hu)%list_elem_of_fmap. apply (Hd (root t)); [apply root_labels|].
  apply elem_of_forest_labels. exists u. split; [done|]. rewrite Heq. apply root_labels.
Qed.

Lemma forest_lookup_inj ts i j k u :
  NoDup (forest_labels ts) → ts !! i = Some k → ts !! j = Some u → root k = root u → i = j.
Proof.
  intros Hnd%NoDup_forest_roots Hi Hj Heq. eapply NoDup_lookup; [exact Hnd| |].
  - by rewrite list_lookup_fmap, Hi.
  - by rewrite list_lookup_fmap, Hj, Heq.
Qed.

Lemma NoDup_labels_subs s t : NoDup (labels t) → s ∈ subs t → NoDup (labels s).
Proof.
  induction t as [b ts IH] using tree_induction. rewrite Forall_forall in IH.
  intros Hnd [->|(x & Hx & Hs)]%subs_node; [done|].
  apply NoDup_labels_node in Hnd as [_ Hnd]. eauto using NoDup_forest_labels_elem.
Qed.

(** With unique labels, a label determines its subtree. *)
Lemma subs_root_inj t s1 s2 :
  NoDup (labels t) → s1 ∈ subs t → s2 ∈ subs t → root s1 = root s2 → s1 = s2.
Proof.
  intros Hnd H1 H2 Heq. apply list_elem_of_lookup in H1 as [i Hi], H2 as [j Hj].
  assert (i = j) as ->; [|congruence].
  eapply NoDup_lookup; [exact Hnd| |].
  - unfold labels. by rewrite list_lookup_fmap, Hi.
  - unfold labels. by rewrite list_lookup_fmap, Hj, Heq.
Qed.

Lemma kid_not_root t k : NoDup (labels t) → k ∈ kids t → root t ∉ labels k.
Proof.
  destruct t as [b ts]. simpl. intros [Hb _]%NoDup_labels_node Hk Hin.
  apply Hb, elem_of_forest_labels. eauto.
Qed.

(** The parent of a node is unique. *)
Lemma kids_parent_unique t s1 s2 k1 k2 :
  NoDup (labels t) → s1 ∈ subs t → s2 ∈ subs t → k1 ∈ kids s1 → k2 ∈ kids s2 → root k1 = root k2 →
  s1 = s2.
Proof.
  revert s1 s2 k1 k2. induction t as [b ts IH] using tree_induction. rewrite Forall_forall in IH.
  intros s1 s2 k1 k2 Hnd Hs1 Hs2 Hk1 Hk2 Heq.
  pose proof Hnd as [Hb Hf]%NoDup_labels_node.
  apply subs_node in Hs1 as [->|(x1 & Hx1 & Hs1)], Hs2 as [->|(x2 & Hx2 & Hs2)]; [done| | |].
  - exfalso. simpl in Hk1. assert (k1 = x2) as ->.
    { eapply (NoDup_forest_labels_disjoint ts _ _ (root k1)); [done..|apply root_labels|].
      rewrite Heq. eapply labels_subs; [exact Hs2|]. eapply labels_subs; [by apply kids_subs|apply root_labels]. }
    assert (Hnd2 : NoDup (labels x2)) by eauto using NoDup_forest_labels_elem.
    assert (k2 = x2) as ->.
    { eapply (subs_root_inj x2); [done|eapply subs_trans; [by apply kids_subs|done]|apply subs_self|done]. }
    eapply (kid_not_root s2 x2); [by eapply NoDup_labels_subs|done|].
    eapply labels_subs; [exact Hs2|apply root_labels].
  - exfalso. simpl in Hk2. assert (k2 = x1) as ->.
    { eapply (NoDup_forest_labels_disjoint ts _ _ (root k2)); [done..|apply root_labels|].
      rewrite <- Heq. eapply labels_subs; [exact Hs1|]. eapply labels_subs; [by apply kids_subs|apply root_labels]. }
    assert (Hnd1 : NoDup (labels x1)) by eauto using NoDup_forest_labels_elem.
    assert (k1 = x1) as ->.
    { eapply (subs_root_inj x1); [done|eapply subs_trans; [by apply kids_subs|done]|apply subs_self|done]. }
    eapply (kid_not_root s1 x1); [by eapply NoDup_labels_subs|done|].
    eapply labels_subs; [exact Hs1|apply root_labels].
  - assert (x1 = x2) as ->.
    { eapply (NoDup_forest_labels_disjoint ts _ _ (root k1)); [done..| |rewrite Heq].
      - eapply labels_subs; [exact Hs1|]. eapply labels_subs; [by apply kids_subs|apply root_labels].
      - eapply labels_subs; [exact Hs2|]. eapply labels_subs; [by apply kids_subs|apply root_labels]. }
    eapply (IH x2); eauto using NoDup_forest_labels_elem.
Qed.

Lemma tsize_pos t : 1 ≤ tsize t.
Proof. destruct t. unfold tsize. rewrite labels_node. simpl. lia. Qed.

Lemma length_forest_labels ts : Z.of_nat (length (forest_labels ts)) = sumZ (tsize <$> ts).
Proof.
  induction ts as [|t ts IH]; [done|]. rewrite forest_labels_cons, fmap_cons, sumZ_cons, length_app.
  unfold tsize at 1. lia.
Qed.

Lemma tsize_node b ts : tsize (Node b ts) = sumZ (tsize <$> ts) + 1.
Proof. unfold tsize at 1. rewrite labels_node. simpl. rewrite <- length_forest_labels. lia. Qed.

Lemma tsize_sub s t : s ∈ subs t → tsize s ≤ tsize t.
Proof.
  induction t as [b ts IH] using tree_induction. rewrite Forall_forall in IH.
  intros [->|(x & Hx & Hs)]%subs_node; [lia|]. specialize (IH _ Hx Hs).
  rewrite tsize_node. apply list_elem_of_split in Hx as (l1 & l2 & ->).
  rewrite fmap_app, sumZ_app, fmap_cons, sumZ_cons.
  assert (∀ l : list tree, 0 ≤ sumZ (tsize <$> l)) as Hnn.
  { intros l. apply sumZ_nonneg, Forall_fmap, Forall_forall. intros y _. simpl.
    pose proof (tsize_pos y). lia. }
  pose proof (Hnn l1). pose proof (Hnn l2). lia.
Qed.

Lemma length_labels_sub s t : s ∈ subs t → (length (labels s) ≤ length (labels t))%nat.
Proof. intros H%tsize_sub. unfold tsize in H. lia. Qed.

(** Every subtree but the whole is a child of some subtree. *)
Lemma sub_parent s t : s ∈ subs t → s = t ∨ ∃ p, p ∈ subs t ∧ s ∈ kids p.
Proof.
  induction t as [b ts IH] using tree_induction. rewrite Forall_forall in IH.
  intros [->|(k & Hk & Hs)]%subs_node; [by left|]. right.
  destruct (IH k Hk Hs) as [->|(p & Hp & Hsp)].
  - exists (Node b ts). split; [apply subs_self|done].
  - exists p. split; [|done]. apply subs_node. eauto.
Qed.

Lemma labels_sub_of t s b : NoDup (labels t) → s ∈ subs t → b ∈ subs t → root b ∈ labels s → b ∈ subs s.
Proof.
  intros Hnd Hs Hb (u & Hu & Heq)%elem_of_labels.
  assert (u = b) as <-; [|done]. eapply (subs_root_inj t); [done| |done..]. by eapply subs_trans.
Qed.

(** A child whose label is in a subtree is its root or comes from a block of it. *)
Lemma kid_in_sub t s v k :
  NoDup (labels t) → s ∈ subs t → v ∈ subs t → k ∈ kids s → root k ∈ labels v → k = v ∨ s ∈ subs v.
Proof.
  intros Hnd Hs Hv Hk Hin.
  assert (Hkt : k ∈ subs t) by (eapply subs_trans; [by apply kids_subs|done]).
  assert (Hkv : k ∈ subs v) by (by eapply labels_sub_of).
  apply sub_parent in Hkv as [->|(p & Hp & Hkp)]; [by left|right].
  assert (p = s) as <-; [|done]. eapply (kids_parent_unique t p s k k); [done| |done..]. by eapply subs_trans.
Qed.

(** Two trees that contain each other are equal. *)
Lemma subs_antisym s t : s ∈ subs t → t ∈ subs s → s = t.
Proof.
  intros H1 H2. apply tsize_sub in H2 as Hle.
  apply sub_parent in H1 as [->|(p & Hp & Hk)]; [done|]. exfalso.
  pose proof (tsize_sub _ _ Hp). destruct p as [b ts]. simpl in Hk. rewrite tsize_node in *.
  apply list_elem_of_split in Hk as (l1 & l2 & ->). rewrite fmap_app, sumZ_app, fmap_cons, sumZ_cons in *.
  assert (∀ l : list tree, 0 ≤ sumZ (tsize <$> l)) as Hnn.
  { intros l. apply sumZ_nonneg, Forall_fmap, Forall_forall. intros y _. simpl. pose proof (tsize_pos y). lia. }
  pose proof (Hnn l1). pose proof (Hnn l2). lia.
Qed.

Lemma NoDup_kids_roots t s : NoDup (labels t) → s ∈ subs t → NoDup (root <$> kids s).
Proof.
  intros Hnd Hs. apply NoDup_forest_roots. eapply NoDup_labels_subs in Hs; [|done].
  destruct s as [b ts]. by apply NoDup_labels_node in Hs as [_ ?].
Qed.

Lemma siblings_disjoint t p x z b :
  NoDup (labels t) → p ∈ subs t → x ∈ kids p → z ∈ kids p → b ∈ labels x → b ∈ labels z → x = z.
Proof.
  intros Hnd Hp Hx Hz Hbx Hbz. eapply NoDup_labels_subs in Hp; [|done]. destruct p as [c ts].
  apply NoDup_labels_node in Hp as [_ Hf]. by eapply (NoDup_forest_labels_disjoint ts).
Qed.

Lemma forest_labels_singleton t : forest_labels [t] = labels t.
Proof. unfold forest_labels, labels. simpl. by rewrite app_nil_r. Qed.

(** ** Adding a leaf *)

(** [new] becomes the last child of [p]. *)
Fixpoint add_leaf (p new : BlockHash) (t : tree) : tree :=
  match t with
  | Node b ts => Node b ((add_leaf p new <$> ts) ++ if decide (b = p) then [Node new []] else [])
  end.

Lemma root_add_leaf p new t : root (add_leaf p new t) = root t.
Proof. by destruct t. Qed.

Lemma kids_add_leaf p new t :
  kids (add_leaf p new t) = (add_leaf p new <$> kids t) ++ if decide (root t = p) then [Node new []] else [].
Proof. by destruct t. Qed.

Lemma add_leaf_id p new t : p ∉ labels t → add_leaf p new t = t.
Proof.
  induction t as [b ts IH] using tree_induction. rewrite Forall_forall in IH. rewrite labels_node. intros Hp.
  simpl. rewrite decide_False by (intros ->; apply Hp; by left). rewrite app_nil_r. f_equal.
  transitivity (id <$> ts); [|apply list_fmap_id]. apply list_fmap_ext. intros i t Ht%list_elem_of_lookup_2.
  apply IH; [done|]. intros Hin. apply Hp. right. apply elem_of_forest_labels. eauto.
Qed.

Lemma subs_add_leaf p new t s :
  s ∈ subs (add_leaf p new t) ↔ (∃ u, u ∈ subs t ∧ s = add_leaf p new u) ∨ (s = Node new [] ∧ p ∈ labels t).
Proof.
  induction t as [b ts IH] using tree_induction. rewrite Forall_forall in IH. rewrite labels_node.
  change (add_leaf p new (Node b ts)) with (Node b ((add_leaf p new <$> ts) ++ if decide (b = p) then [Node new []] else [])).
  rewrite (elem_of_cons (forest_labels ts)), elem_of_forest_labels, subs_node.
  setoid_rewrite elem_of_app. setoid_rewrite (list_elem_of_fmap (add_leaf p new)). split.
  - intros [->|(k & [(u & -> & Hu)|Hk] & Hs)].
    + left. exists (Node b ts). split; [apply subs_self|done].
    + apply (IH u Hu) in Hs as [(w & Hw & ->)|[-> Hp]]; [|right; eauto].
      left. exists w. split; [|done]. apply subs_node. eauto.
    + destruct (decide (b = p)) as [->|]; [|by apply elem_of_nil in Hk].
      apply list_elem_of_singleton in Hk as ->. apply subs_node in Hs as [->|(?&[]%elem_of_nil&_)]. right. auto.
  - intros [(u & [->|(k & Hk & Hu)]%subs_node & ->)|[-> [->|(k & Hk & Hp)]]].
    + by left.
    + right. exists (add_leaf p new k). split; [left; eauto|]. apply IH; [done|]. left. eauto.
    + right. exists (Node new []). rewrite decide_True by done. split; [right; by left|apply subs_self].
    + right. exists (add_leaf p new k). split; [left; eauto|]. apply IH; [done|]. by right.
Qed.

Lemma forest_labels_perm ts us :
  Forall2 (λ t u, labels t ≡ₚ labels u) ts us → forest_labels ts ≡ₚ forest_labels us.
Proof. induction 1 as [|t u ts us Htu _ IH]; [done|]. rewrite !forest_labels_cons. by rewrite Htu, IH. Qed.

Lemma labels_add_leaf p new t :
  NoDup (labels t) → p ∈ labels t → labels (add_leaf p new t) ≡ₚ new :: labels t.
Proof.
  induction t as [b ts IH] using tree_induction. rewrite Forall_forall in IH. rewrite !labels_node.
  intros Hnd Hp. change (add_leaf p new (Node b ts)) with (Node b ((add_leaf p new <$> ts) ++ if decide (b = p) then [Node new []] else [])).
  rewrite labels_node, forest_labels_app. apply NoDup_cons in Hnd as [Hb Hnd].
  destruct (decide (b = p)) as [->|Hne].
  - rewrite forest_labels_singleton. assert ((add_leaf p new <$> ts) = ts) as ->.
    { transitivity (id <$> ts); [|apply list_fmap_id]. apply list_fmap_ext. intros i k Hk%list_elem_of_lookup_2.
      apply add_leaf_id. intros Hin. apply Hb, elem_of_forest_labels. eauto. }
    change (labels (Node new [])) with [new]. rewrite <- Permutation_cons_append. constructor.
  - rewrite app_nil_r. rewrite Permutation_swap. apply Permutation_skip.
    apply elem_of_cons in Hp as [->|Hp]; [done|]. apply elem_of_forest_labels in Hp as (k & Hk & Hp).
    apply list_elem_of_split in Hk as (l1 & l2 & ->).
    rewrite forest_labels_app, forest_labels_cons in Hnd. apply NoDup_app in Hnd as (Hnd1 & Hd1 & Hnd).
    apply NoDup_app in Hnd as (Hndk & Hdk & Hnd2).
    assert (Hid : ∀ l : list tree, p ∉ forest_labels l → (add_leaf p new <$> l) = l).
    { intros l Hl. transitivity (id <$> l); [|apply list_fmap_id]. apply list_fmap_ext. intros i u Hu%list_elem_of_lookup_2.
      apply add_leaf_id. intros Hin. apply Hl, elem_of_forest_labels. eauto. }
    rewrite fmap_app, fmap_cons, !forest_labels_app, !forest_labels_cons, (Hid l1), (Hid l2).
    + rewrite (IH k); [|apply elem_of_app; right; by left|done|done]. simpl. symmetry. apply Permutation_middle.
    + by apply Hdk.
    + intros Hin. apply (Hd1 p Hin), elem_of_app. by left.
Qed.

Lemma NoDup_add_leaf p new t : NoDup (labels t) → p ∈ labels t → new ∉ labels t → NoDup (labels (add_leaf p new t)).
Proof. intros Hnd Hp Hnew. rewrite labels_add_leaf by done. by constructor. Qed.

Lemma tsize_add_leaf p new t : NoDup (labels t) → p ∈ labels t → tsize (add_leaf p new t) = tsize t + 1.
Proof. intros Hnd Hp. unfold tsize. rewrite labels_add_leaf by done. simpl. lia. Qed.
