(* ===== verification/ReachTree.v ===== *)
(** * The reachability tree: invariant and chain queries

    The invariant that the interval tree of [src/consensus/src/processes/reachability]
    maintains, and what the queries of [inquirer.rs] return under it. A store
    holds the tree [t] ([tree_store]) when its children and parent fields are
    those of [t]; its intervals are nested ([intervals_ok]) when every block's
    interval strictly contains the disjoint, ordered intervals of its tree
    children. *)

From stdpp Require Import base list gmap relations.
From Stdlib Require Import ZArith Lia.
From S2P Require Import Prelude Tx Interval ReachStore Reach RoseTree.

Local Open Scope Z_scope.

Abbreviation store := MemoryReachabilityStore.

Definition ivl (st : store) (b : BlockHash) : Interval :=
  match map st !! b with Some d => interval d | None => empty end.
Definition parent_of (st : store) (b : BlockHash) : option BlockHash := parent <$> map st !! b.
Definition children_of (st : store) (b : BlockHash) : option (list BlockHash) := children <$> map st !! b.
Definition fcs_of (st : store) (b : BlockHash) : option (list BlockHash) := future_covering_set <$> map st !! b.

(** ** Shape *)

Definition node_ok (st : store) (t : tree) : Prop :=
  children_of st (root t) = Some (root <$> kids t) ∧
  ∀ k, k ∈ kids t → parent_of st (root k) = Some (root t).

Record tree_store (st : store) (t : tree) : Prop := {
  ts_nodes : ∀ s, s ∈ subs t → node_ok st s;
  ts_nodup : NoDup (labels t);
  ts_dom : ∀ b, is_Some (map st !! b) ↔ b ∈ labels t;
  ts_root : parent_of st (root t) = Some NONE;
  ts_none : NONE ∉ labels t;
}.

(** ** Intervals *)

(** [js] lie one after the other between [s] and [e], with gaps allowed. *)
Fixpoint nested (s : Z) (js : list Interval) (e : Z) : Prop :=
  match js with
  | [] => s ≤ e + 1
  | j :: js => s ≤ start j ∧ iv_ok j ∧ nested (end_ j + 1) js e
  end.

(** The last number of an interval is not available to children. The interval
    of a block without children may be empty, as that of a block whose parent
    had no room left, until the intervals are reassigned. *)
Definition local_ok (st : store) (t : tree) : Prop :=
  iv_ok (ivl st (root t)) ∧
  (kids t ≠ [] →
   nested (start (ivl st (root t))) (ivl st ∘ root <$> kids t) (end_ (ivl st (root t)) - 1)).

Definition intervals_ok (st : store) (t : tree) : Prop := ∀ s, s ∈ subs t → local_ok st s.

Definition full (st : store) (b : BlockHash) : Prop := start (ivl st b) ≤ end_ (ivl st b).

(** The invariant of the reachability store. *)
Record wf (st : store) (t : tree) : Prop := {
  wf_tree : tree_store st t;
  wf_intervals : intervals_ok st t;
  wf_full : ∀ b, b ∈ labels t → full st b;
}.

(** Chain ancestry, as the code defines it: following parent pointers. *)
Definition chain_ancestor (st : store) (a b : BlockHash) : Prop :=
  rtc (λ x y, parent_of st x = Some y) b a.

(** ** Lookups *)

Lemma get_interval_Ok st b : is_Some (map st !! b) → get_interval st b = Ok (ivl st b).
Proof. intros [d Hd]. unfold ivl. simpl. unfold mem_get_interval, get_data. by rewrite Hd. Qed.

Lemma get_parent_Ok st b p : parent_of st b = Some p → get_parent st b = Ok p.
Proof.
  unfold parent_of. simpl. unfold mem_get_parent, get_data.
  destruct (map st !! b); [|done]. by intros [= <-].
Qed.

Lemma get_children_Ok st b cs : children_of st b = Some cs → get_children st b = Ok cs.
Proof.
  unfold children_of. simpl. unfold mem_get_children, get_data.
  destruct (map st !! b); [|done]. by intros [= <-].
Qed.

Lemma get_fcs_Ok st b l : fcs_of st b = Some l → get_future_covering_set st b = Ok l.
Proof.
  unfold fcs_of. simpl. unfold mem_get_future_covering_set, get_data.
  destruct (map st !! b); [|done]. by intros [= <-].
Qed.

Lemma chain_ancestor_query st a b :
  is_Some (map st !! a) → is_Some (map st !! b) →
  is_chain_ancestor_of st a b = Ok (contains (ivl st a) (ivl st b)).
Proof. intros Ha Hb. unfold is_chain_ancestor_of. by rewrite !get_interval_Ok. Qed.

Lemma strict_chain_ancestor_query st a b :
  is_Some (map st !! a) → is_Some (map st !! b) →
  is_strict_chain_ancestor_of st a b = Ok (strictly_contains (ivl st a) (ivl st b)).
Proof. intros Ha Hb. unfold is_strict_chain_ancestor_of. by rewrite !get_interval_Ok. Qed.

(** ** Nesting *)

Lemma nested_bounds s js e j :
  nested s js e → j ∈ js → s ≤ start j ∧ end_ j ≤ e ∧ iv_ok j.
Proof.
  revert s. induction js as [|k js IH]; intros s; [by intros _ ?%elem_of_nil|].
  intros (Hs & Hk & Hn). pose proof Hk as (? & ? & ?).
  assert (end_ k ≤ e).
  { clear -Hn. revert Hn. generalize (end_ k). induction js as [|l js IH]; simpl; [lia|].
    intros z (? & (? & ? & ?) & Hn). apply IH in Hn. lia. }
  intros [->|Hj]%elem_of_cons; [done|].
  destruct (IH _ Hn Hj) as (? & ? & ?). split_and!; [lia|lia|done].
Qed.

Lemma nested_empty_bound s js e : nested s js e → s ≤ e + 1.
Proof.
  revert s. induction js as [|j js IH]; intros s; simpl; [done|].
  intros (? & (? & ? & ?) & Hn). apply IH in Hn. lia.
Qed.

Lemma nested_app s js1 js2 e :
  nested s (js1 ++ js2) e ↔ ∃ m, nested s js1 m ∧ nested (m + 1) js2 e.
Proof.
  revert s. induction js1 as [|j js1 IH]; intros s; simpl.
  - split.
    + intros H. exists (s - 1). split; [lia|]. by replace (s - 1 + 1) with s by lia.
    + intros (m & Hm & H). destruct js2 as [|k js2]; simpl in *; [lia|]. destruct H. split; [lia|done].
  - setoid_rewrite IH. split.
    + intros (? & ? & m & ? & ?). eauto 10.
    + intros (m & (? & ? & ?) & ?). eauto 10.
Qed.

Lemma tiles_nested s l e : tiles s l e → nested s l e.
Proof.
  revert s. induction l as [|i l IH]; intros s; simpl; [lia|].
  intros (<- & Hi & Ht). split; [lia|]. auto.
Qed.

(** Earlier intervals lie before later ones. *)
Lemma nested_lookup_lt s js e i j a b :
  nested s js e → js !! i = Some a → js !! j = Some b → (i < j)%nat → end_ a < start b.
Proof.
  revert s i j. induction js as [|k js IH]; intros s i j; [done|].
  intros (Hs & Hk & Hn) Hi Hj Hij. destruct i as [|i], j as [|j]; simpl in *; try lia.
  - simplify_eq. assert (Hb : b ∈ js) by (apply list_elem_of_lookup; eauto).
    destruct (nested_bounds _ _ _ _ Hn Hb). lia.
  - apply (IH _ _ _ Hn Hi Hj). lia.
Qed.

Lemma local_nested st t k :
  local_ok st t → k ∈ kids t →
  nested (start (ivl st (root t))) (ivl st ∘ root <$> kids t) (end_ (ivl st (root t)) - 1).
Proof. intros [_ Hn] Hk. apply Hn. by destruct (kids t); [apply elem_of_nil in Hk|]. Qed.

Section Intervals.
Context (st : store).

(** Intervals of descendants lie inside, strictly below the root. *)
Lemma descendant_interval t s :
  intervals_ok st t → s ∈ subs t →
  start (ivl st (root t)) ≤ start (ivl st (root s)) ∧
  (s = t ∨ end_ (ivl st (root s)) < end_ (ivl st (root t))).
Proof.
  induction t as [b ts IH] using tree_induction. rewrite Forall_forall in IH.
  intros Hok Hs. apply subs_node in Hs as [->|(k & Hk & Hs)]; [split; [lia|by left]|].
  assert (Hokk : intervals_ok st k).
  { intros u Hu. apply Hok. apply subs_node. right. eauto. }
  destruct (IH _ Hk Hokk Hs) as [Hst Hen].
  pose proof (local_nested _ _ k (Hok (Node b ts) (subs_self _)) Hk) as Hn.
  destruct (nested_bounds _ _ _ (ivl st (root k)) Hn) as (? & ? & ?).
  { apply list_elem_of_fmap. exists k. done. }
  split; [lia|right]. destruct Hen as [->|?]; lia.
Qed.

Lemma kids_disjoint t k1 k2 i j :
  local_ok st t → kids t !! i = Some k1 → kids t !! j = Some k2 → (i < j)%nat →
  end_ (ivl st (root k1)) < start (ivl st (root k2)).
Proof.
  intros Hl H1 H2 Hij. assert (Hk1 : k1 ∈ kids t) by (apply list_elem_of_lookup; eauto).
  pose proof (local_nested _ _ _ Hl Hk1) as Hn.
  apply (nested_lookup_lt _ _ _ i j _ _ Hn); [by rewrite list_lookup_fmap, H1|by rewrite list_lookup_fmap, H2|done].
Qed.

Lemma kids_descendants_disjoint t k1 k2 s1 s2 i j :
  intervals_ok st t → kids t !! i = Some k1 → kids t !! j = Some k2 → (i < j)%nat →
  s1 ∈ subs k1 → s2 ∈ subs k2 →
  end_ (ivl st (root s1)) < start (ivl st (root s2)).
Proof.
  intros Hok H1 H2 Hij Hs1 Hs2.
  pose proof (kids_disjoint t k1 k2 i j (Hok t (subs_self t)) H1 H2 Hij).
  assert (∀ k n, kids t !! n = Some k → intervals_ok st k) as Hsub.
  { intros k n Hk u Hu. apply Hok. eapply subs_trans; [exact Hu|]. apply kids_subs, list_elem_of_lookup. eauto. }
  destruct (descendant_interval k1 s1 (Hsub _ _ H1) Hs1) as [? [->|?]],
    (descendant_interval k2 s2 (Hsub _ _ H2) Hs2) as [? _]; lia.
Qed.

(** The heart of chain queries: interval containment is the subtree relation. *)
Lemma contains_iff_subtree t s1 s2 :
  NoDup (labels t) → intervals_ok st t → full st (root s2) →
  s1 ∈ subs t → s2 ∈ subs t →
  contains (ivl st (root s1)) (ivl st (root s2)) = true ↔ s2 ∈ subs s1.
Proof.
  revert s1 s2. induction t as [b ts IH] using tree_induction. rewrite Forall_forall in IH.
  intros s1 s2 Hnd Hok Hfull Hs1 Hs2. unfold contains, full in *.
  assert (Hdesc : s2 ∈ subs s1 →
    (start (ivl st (root s1)) <=? start (ivl st (root s2))) && (end_ (ivl st (root s2)) <=? end_ (ivl st (root s1))) = true).
  { intros H. destruct (descendant_interval s1 s2) as [? [->|?]]; [|done|lia|lia].
    intros u Hu. apply Hok. by eapply subs_trans. }
  split; [|exact Hdesc]. intros Hc.
  pose proof Hnd as [Hb Hf]%NoDup_labels_node.
  pose proof Hs1 as Hs1'. pose proof Hs2 as Hs2'.
  apply subs_node in Hs1 as [->|(k1 & Hk1 & Hs1)]; [done|].
  assert (Hok1 : intervals_ok st k1) by (intros u Hu; apply Hok, subs_node; eauto).
  apply subs_node in Hs2 as [->|(k2 & Hk2 & Hs2)].
  - exfalso. destruct (descendant_interval (Node b ts) s1 Hok Hs1') as [? [->|?]]; [|lia].
    apply Hb. apply elem_of_forest_labels. exists k1. split; [done|].
    change b with (root (Node b ts)). eapply labels_subs; [exact Hs1|apply root_labels].
  - apply list_elem_of_lookup in Hk1 as [i Hi], Hk2 as [j Hj].
    destruct (Nat.lt_trichotomy i j) as [Hij|[->|Hij]].
    + pose proof (kids_descendants_disjoint (Node b ts) k1 k2 s1 s2 i j Hok Hi Hj Hij Hs1 Hs2). lia.
    + simplify_eq. assert (k1 ∈ ts) by (apply list_elem_of_lookup; eauto).
      apply (IH k1); try done. by eapply NoDup_forest_labels_elem.
    + pose proof (kids_descendants_disjoint (Node b ts) k2 k1 s2 s1 j i Hok Hj Hi Hij Hs2 Hs1). lia.
Qed.

Lemma strictly_contains_iff t s1 s2 :
  NoDup (labels t) → intervals_ok st t → full st (root s2) →
  s1 ∈ subs t → s2 ∈ subs t →
  strictly_contains (ivl st (root s1)) (ivl st (root s2)) = true ↔ s2 ∈ subs s1 ∧ s1 ≠ s2.
Proof.
  intros Hnd Hiv Hf Hs1 Hs2. pose proof (contains_iff_subtree t s1 s2 Hnd Hiv Hf Hs1 Hs2) as Hc.
  unfold contains, strictly_contains in *. split.
  - intros Hsc. split; [apply Hc; lia|]. intros ->. lia.
  - intros [Hsub Hne]. destruct (descendant_interval s1 s2) as [? [->|?]]; [|done|done|lia].
    intros u Hu. apply Hiv. by eapply subs_trans.
Qed.
End Intervals.

(** ** Ancestry in the store and in the tree *)

Section Ancestry.
Context (st : store) (t : tree) (Ht : tree_store st t).

Lemma sub_of b : b ∈ labels t → ∃ s, s ∈ subs t ∧ root s = b.
Proof. apply elem_of_labels. Qed.

(** The parent of a node other than the root. *)
Lemma parent_sub s :
  s ∈ subs t → s = t ∨ ∃ p, p ∈ subs t ∧ s ∈ kids p ∧ parent_of st (root s) = Some (root p).
Proof.
  assert (Hgen : ∀ u, u ∈ subs t → s ∈ subs u → s = u ∨ ∃ p, p ∈ subs t ∧ s ∈ kids p ∧ parent_of st (root s) = Some (root p)).
  { intros u. induction u as [b ts IH] using tree_induction. rewrite Forall_forall in IH.
    intros Hu [->|(k & Hk & Hs)]%subs_node; [by left|]. right.
    destruct (IH k Hk) as [->|Hp]; [|done| |done].
    - eapply subs_trans; [by apply (kids_subs k (Node b ts))|done].
    - exists (Node b ts). split; [done|]. split; [done|]. by apply (ts_nodes _ _ Ht _ Hu). }
  apply Hgen, subs_self.
Qed.

Lemma chain_ancestor_subtree s1 s2 :
  s1 ∈ subs t → s2 ∈ subs t → chain_ancestor st (root s1) (root s2) ↔ s2 ∈ subs s1.
Proof.
  intros Hs1 Hs2. split.
  - unfold chain_ancestor. intros Hrtc.
    remember (root s2) as b eqn:Hb. remember (root s1) as a eqn:Ha.
    revert s2 Hs2 Hb. induction Hrtc as [x|x y z Hxy Hyz IH]; intros s2 Hs2 Hb.
    + rewrite (subs_root_inj t s1 s2 (ts_nodup _ _ Ht) Hs1 Hs2) by congruence. apply subs_self.
    + destruct (parent_sub s2 Hs2) as [->|(p & Hp & Hk & Hpar)].
      * exfalso. subst. rewrite (ts_root _ _ Ht) in Hxy. injection Hxy as <-.
        apply (ts_none _ _ Ht). inversion Hyz as [|? y' ? Hy']; subst.
        -- match goal with H : NONE = _ |- _ => rewrite H end.
           eapply labels_subs; [exact Hs1|apply root_labels].
        -- apply (ts_dom _ _ Ht). unfold parent_of in Hy'. destruct (map st !! NONE); [eauto|done].
      * assert (y = root p) as -> by congruence.
        eapply subs_trans; [by apply kids_subs|]. by apply (IH Ha p).
  - revert s1 Hs1. assert (Hgen : ∀ u, u ∈ subs t → s2 ∈ subs u → chain_ancestor st (root u) (root s2)).
    { intros u. induction u as [b ts IH] using tree_induction. rewrite Forall_forall in IH.
      intros Hu [->|(k & Hk & Hs)]%subs_node; [constructor|].
      unfold chain_ancestor. eapply rtc_r.
      - apply (IH k Hk); [|done]. eapply subs_trans; [by apply (kids_subs k (Node b ts))|done].
      - by apply (ts_nodes _ _ Ht _ Hu). }
    intros. by apply Hgen.
Qed.

Lemma in_store s : s ∈ subs t → is_Some (map st !! root s).
Proof. intros Hs. apply (ts_dom _ _ Ht). apply elem_of_labels. eauto. Qed.

Lemma store_sub b : is_Some (map st !! b) → ∃ s, s ∈ subs t ∧ root s = b.
Proof. intros Hb%(ts_dom _ _ Ht). by apply sub_of. Qed.
End Ancestry.

(** ** Chain queries *)

(** [is_chain_ancestor_of] and [is_strict_chain_ancestor_of] decide chain
    ancestry: with the invariant, for any two blocks of the store the interval
    tests succeed and answer whether following parent pointers leads from
    [queried] to [this] (in at least one step, for the strict test). *)
Theorem chain_queries_decide_ancestry (st : store) (t : tree) (this queried : BlockHash) :
  wf st t → is_Some (map st !! this) → is_Some (map st !! queried) →
  ∃ b b', is_chain_ancestor_of st this queried = Ok b ∧ is_strict_chain_ancestor_of st this queried = Ok b' ∧
    (b = true ↔ chain_ancestor st this queried) ∧
    (b' = true ↔ chain_ancestor st this queried ∧ this ≠ queried).
Proof.
  intros [Ht Hiv Hfull] H1 H2.
  destruct (store_sub _ _ Ht _ H1) as (s1 & Hs1 & <-), (store_sub _ _ Ht _ H2) as (s2 & Hs2 & <-).
  eexists _, _. split; [by apply chain_ancestor_query|]. split; [by apply strict_chain_ancestor_query|].
  assert (Hf2 : full st (root s2)) by (apply Hfull, elem_of_labels; eauto).
  pose proof (contains_iff_subtree st t s1 s2 (ts_nodup _ _ Ht) Hiv Hf2 Hs1 Hs2) as Hc.
  rewrite (chain_ancestor_subtree _ _ Ht) by done. split; [done|].
  unfold contains, strictly_contains in *. split.
  - intros Hsc. split; [apply Hc; lia|]. intros Heq. rewrite Heq in Hsc. lia.
  - intros [Hsub Hne]. destruct (descendant_interval st s1 s2) as [? [->|?]]; [|done|done|lia].
    intros u Hu. apply Hiv. by eapply subs_trans.
Qed.

