(* ===== verification/ReachSearch.v ===== *)
(** * Searching a descendant among ordered blocks

    Correctness of [binary_search_descendant] and of the chain navigation
    [get_next_chain_ancestor] of [inquirer.rs] under the interval invariant. *)

From stdpp Require Import base list gmap relations.
From Stdlib Require Import ZArith Lia.
From S2P Require Import Prelude Tx Interval ReachStore Reach RoseTree ReachTree.

Local Open Scope Z_scope.

(** ** The binary search of the standard library *)
Section BinarySearch.
Context {E : Type} (n : nat) (key : nat → outcome E Z) (ks : nat → Z) (point : Z).
Context (Hkey : ∀ i, (i < n)%nat → key i = Ok (ks i)).
Context (Hsorted : ∀ i j, (i < j)%nat → (j < n)%nat → ks i < ks j).

Lemma binary_search_loop_spec fuel base size :
  (size ≤ S fuel)%nat → (1 ≤ size)%nat → (base + size ≤ n)%nat →
  (base = 0%nat ∨ ks base ≤ point) → (∀ i, (base + size ≤ i < n)%nat → point < ks i) →
  ∃ b, binary_search_loop fuel key point base size = Ok b ∧ (b < n)%nat ∧
    (b = 0%nat ∨ ks b ≤ point) ∧ (∀ i, (b < i < n)%nat → point < ks i).
Proof.
  revert base size. induction fuel as [|fuel IH]; intros base size Hfuel Hsz Hn Hlo Hhi; cbn [binary_search_loop].
  - destruct (Nat.leb_spec size 1); [|lia]. exists base. split_and!; [done|lia|done|].
    intros i Hi. apply Hhi. lia.
  - destruct (Nat.leb_spec size 1).
    { exists base. split_and!; [done|lia|done|]. intros i Hi. apply Hhi. lia. }
    pose proof (Nat.div_lt size 2 ltac:(lia) ltac:(lia)). pose proof (Nat.div_mod size 2 ltac:(lia)).
    assert (1 ≤ size / 2)%nat by (apply Nat.div_le_lower_bound; lia).
    set (half := (size / 2)%nat) in *.
    rewrite Hkey by lia. cbn [mbind outcome_bind].
    destruct (Z.ltb_spec point (ks (base + half)%nat)).
    + apply IH; [lia|lia|lia|done|]. intros i Hi.
      destruct (decide (i = base + half)%nat) as [->|]; [done|].
      transitivity (ks (base + half)%nat); [done|]. apply Hsorted; [|lia].
      lia.
    + apply IH; [lia|lia|lia|by right|]. intros i Hi. apply Hhi. lia.
Qed.

Lemma binary_search_by_key_spec :
  ∃ r, binary_search_by_key n key point = Ok r ∧
    match r with
    | inl i => (i < n)%nat ∧ ks i = point
    | inr i => (i ≤ n)%nat ∧ (∀ j, (j < i)%nat → ks j < point) ∧ (∀ j, (i ≤ j < n)%nat → point < ks j)
    end.
Proof.
  unfold binary_search_by_key. destruct (Nat.eqb_spec n 0) as [->|Hn].
  { exists (inr 0%nat). split; [done|]. split_and!; [lia|lia|lia]. }
  destruct (binary_search_loop_spec n 0 n) as (b & -> & Hb & Hlo & Hhi); [lia..|by left|lia|].
  cbn [mbind outcome_bind]. rewrite Hkey by done. cbn [mbind outcome_bind].
  destruct (Z.eqb_spec (ks b) point) as [Heq|Hne]; [by exists (inl b)|].
  eexists. split; [done|]. destruct (Z.ltb_spec (ks b) point).
  - split_and!; [lia| |].
    + intros j Hj. destruct (decide (j = b)) as [->|]; [done|].
      transitivity (ks b); [|done]. apply Hsorted; lia.
    + intros j Hj. apply Hhi. lia.
  - assert (b = 0%nat) as -> by (destruct Hlo; [done|lia]).
    split_and!; [lia|lia|]. intros j Hj. destruct (decide (j = 0%nat)) as [->|]; [lia|]. apply Hhi. lia.
Qed.
End BinarySearch.

(** ** Blocks in interval order *)

(** The blocks lie one after the other; only the last one may hold an empty
    interval (a block that was just inserted). *)
Definition ordered (st : store) (hs : list BlockHash) : Prop :=
  ∀ i j a b, (i < j)%nat → hs !! i = Some a → hs !! j = Some b →
    full st a ∧ end_ (ivl st a) < start (ivl st b).

Section Search.
Context (st : store) (t : tree) (Ht : tree_store st t) (Hiv : intervals_ok st t).

(** Intervals of the tree are laminar. *)
Lemma laminar s1 s2 :
  s1 ∈ subs t → s2 ∈ subs t →
  s2 ∈ subs s1 ∨ s1 ∈ subs s2 ∨
  end_ (ivl st (root s1)) < start (ivl st (root s2)) ∨ end_ (ivl st (root s2)) < start (ivl st (root s1)).
Proof.
  pose proof Hiv as Hok. clear Hiv Ht. revert s1 s2 Hok.
  induction t as [b ts IH] using tree_induction. rewrite Forall_forall in IH. intros s1 s2 Hok H1 H2.
  pose proof H1 as H1'. pose proof H2 as H2'.
  apply subs_node in H1 as [->|(k1 & Hk1 & Hs1)]; [by left|].
  apply subs_node in H2 as [->|(k2 & Hk2 & Hs2)]; [by right; left|].
  apply list_elem_of_lookup in Hk1 as [i Hi], Hk2 as [j Hj].
  destruct (Nat.lt_trichotomy i j) as [Hij|[->|Hij]].
  - do 2 right. left. apply (kids_descendants_disjoint st (Node b ts) k1 k2 _ _ i j); done.
  - simplify_eq. assert (Hk : k1 ∈ ts) by (apply list_elem_of_lookup; eauto).
    apply (IH k1 Hk); [|done|done]. intros u Hu. apply Hok, subs_node. eauto.
  - do 3 right. apply (kids_descendants_disjoint st (Node b ts) k2 k1 _ _ j i); done.
Qed.

(** What the search over ordered blocks returns. *)
Lemma binary_search_descendant_spec hs d :
  d ∈ subs t → full st (root d) →
  (∀ h, h ∈ hs → ∃ s, s ∈ subs t ∧ root s = h) →
  ordered st hs →
  (∀ h, h ∈ hs → full st h ∨ end_ (ivl st (root d)) < start (ivl st h)) →
  ∃ r, binary_search_descendant st hs (root d) = Ok r ∧
    match r with
    | Found h i => hs !! i = Some h ∧ contains (ivl st h) (ivl st (root d)) = true
    | NotFound i => (i ≤ length hs)%nat ∧
        (∀ j h, hs !! j = Some h → contains (ivl st h) (ivl st (root d)) = false) ∧
        (∀ j h, (j < i)%nat → hs !! j = Some h → start (ivl st h) < end_ (ivl st (root d))) ∧
        (∀ j h, (i ≤ j)%nat → hs !! j = Some h → end_ (ivl st (root d)) < start (ivl st h))
    end.
Proof.
  intros Hd Hfd Hin Hord Hful. unfold binary_search_descendant.
  rewrite get_interval_Ok by (by apply (in_store st t Ht)). cbn [lift map_err mbind outcome_bind].
  set (p := end_ (ivl st (root d))).
  set (ks := λ i, match hs !! i with Some h => start (ivl st h) | None => 0 end).
  match goal with |- context [binary_search_by_key _ ?k _] =>
    destruct (binary_search_by_key_spec (length hs) k ks p) as (r & -> & Hr) end.
  { intros i Hi. destruct (lookup_lt_is_Some_2 hs i Hi) as [h Hh]. unfold ks. rewrite Hh.
    destruct (Hin h) as (s & Hs & <-); [apply list_elem_of_lookup; eauto|].
    cbn [unwrap mbind outcome_bind]. rewrite get_interval_Ok by (by apply (in_store st t Ht)). done. }
  { intros i j Hij Hj. unfold ks. destruct (lookup_lt_is_Some_2 hs i ltac:(lia)) as [a Ha].
    destruct (lookup_lt_is_Some_2 hs j Hj) as [b Hb]. rewrite Ha, Hb.
    destruct (Hord i j a b Hij Ha Hb). unfold full in *. lia. }
  cbn [mbind outcome_bind]. unfold full in *.
  destruct r as [i|[|i]].
  - destruct Hr as [Hi Hk]. destruct (lookup_lt_is_Some_2 hs i Hi) as [h Hh]. rewrite Hh.
    eexists. split; [done|]. split; [done|]. unfold ks in Hk. rewrite Hh in Hk.
    assert (Hhin : h ∈ hs) by (apply list_elem_of_lookup; eauto).
    destruct (Hin h Hhin) as (s & Hs & <-). destruct (Hful _ Hhin) as [Hfh|?]; [|lia].
    apply (contains_iff_subtree st t s d (ts_nodup _ _ Ht) Hiv Hfd Hs Hd).
    destruct (laminar s d Hs Hd) as [?|[Hsd|[?|?]]]; [done| |lia|lia].
    destruct (descendant_interval st d s) as [? [->|?]]; [|done|apply subs_self|unfold full in *; lia].
    intros u Hu. apply Hiv. by eapply subs_trans.
  - eexists. split; [done|]. destruct Hr as (_ & _ & Hhi).
    split_and!; [lia| |lia|].
    + intros j h Hj. assert (Hlt : p < start (ivl st h)).
      { specialize (Hhi j). unfold ks in Hhi. rewrite Hj in Hhi. apply Hhi.
        apply lookup_lt_Some in Hj. lia. }
      unfold contains. lia.
    + intros j h _ Hj. specialize (Hhi j). unfold ks in Hhi. rewrite Hj in Hhi. apply Hhi.
      apply lookup_lt_Some in Hj. lia.
  - destruct Hr as (Hi & Hlo & Hhi). destruct (lookup_lt_is_Some_2 hs i ltac:(lia)) as [h Hh]. rewrite Hh.
    cbn [unwrap mbind outcome_bind].
    assert (Hhin : h ∈ hs) by (apply list_elem_of_lookup; eauto).
    destruct (Hin h Hhin) as (s & Hs & <-).
    rewrite chain_ancestor_query by (by apply (in_store st t Ht)). cbn [mbind outcome_bind].
    destruct (contains (ivl st (root s)) (ivl st (root d))) eqn:Hc.
    { eexists. split; [done|]. done. }
    assert (Hhi' : ∀ j h, (S i ≤ j)%nat → hs !! j = Some h → p < start (ivl st h)).
    { intros j h' Hj Hh'. specialize (Hhi j). unfold ks in Hhi. rewrite Hh' in Hhi. apply Hhi.
      apply lookup_lt_Some in Hh'. lia. }
    assert (Hlo' : ∀ j h, (j < S i)%nat → hs !! j = Some h → start (ivl st h) < p).
    { intros j h' Hj Hh'. specialize (Hlo j Hj). unfold ks in Hlo. by rewrite Hh' in Hlo. }
    eexists. split; [done|]. split_and!; [done| |done|done].
    intros j h' Hj. destruct (Nat.lt_trichotomy j i) as [Hji|[->|Hji]].
    + destruct (Hord j i h' (root s) Hji Hj Hh). pose proof (Hlo' i _ ltac:(lia) Hh).
      unfold contains. lia.
    + simplify_eq. done.
    + pose proof (Hhi' j h' ltac:(lia) Hj). unfold contains. lia.
Qed.

(** Children are in order. *)
Lemma kids_ordered s :
  s ∈ subs t → (∀ k, k ∈ kids s → full st (root k) ∨ last (kids s) = Some k) →
  ordered st (root <$> kids s).
Proof.
  intros Hs Hfull i j a b Hij Ha Hb. rewrite list_lookup_fmap in Ha, Hb.
  destruct (kids s !! i) as [k1|] eqn:H1; [|done]. destruct (kids s !! j) as [k2|] eqn:H2; [|done].
  simplify_eq/=. split.
  - destruct (Hfull k1) as [?|Hlast]; [apply list_elem_of_lookup; eauto|done|].
    exfalso. rewrite last_lookup in Hlast.
    assert (Hlen : (j < length (kids s))%nat) by (by apply lookup_lt_Some in H2).
    assert (i = pred (length (kids s))); [|lia].
    assert (Hnd : NoDup (labels s)) by (eapply NoDup_labels_subs; [apply (ts_nodup _ _ Ht)|done]).
    destruct s as [x ts]. apply NoDup_labels_node in Hnd as [_ Hnd]. simpl in *.
    by eapply forest_lookup_inj.
  - eapply (kids_disjoint st s k1 k2 i j); eauto.
Qed.

(** The search among the children of an ancestor finds the next block of the
    chain towards the descendant. *)
Lemma next_chain_ancestor_spec a d :
  a ∈ subs t → d ∈ subs a → d ≠ a → full st (root d) →
  (∀ k, k ∈ kids a → full st (root k) ∨ last (kids a) = Some k ∧ end_ (ivl st (root d)) < start (ivl st (root k))) →
  ∃ k, k ∈ kids a ∧ d ∈ subs k ∧ get_next_chain_ancestor_unchecked st (root d) (root a) = Ok (root k).
Proof.
  intros Ha Hd Hne Hfd Hfull. unfold get_next_chain_ancestor_unchecked.
  rewrite (get_children_Ok _ _ _ (proj1 (ts_nodes _ _ Ht _ Ha))). cbn [lift map_err mbind outcome_bind].
  destruct (binary_search_descendant_spec (root <$> kids a) d) as (r & -> & Hr); try done.
  { by eapply subs_trans. }
  { intros h (k & -> & Hk)%list_elem_of_fmap. exists k. split; [|done].
    eapply subs_trans; [by apply kids_subs|done]. }
  { apply kids_ordered; [done|]. intros k Hk. destruct (Hfull k Hk) as [?|[? _]]; auto. }
  { intros h (k & -> & Hk)%list_elem_of_fmap. destruct (Hfull k Hk) as [?|[_ ?]]; auto. }
  assert (Hiff : ∀ k, k ∈ kids a → contains (ivl st (root k)) (ivl st (root d)) = true ↔ d ∈ subs k).
  { intros k Hk. apply (contains_iff_subtree st t); try done; [apply Ht| |by eapply subs_trans].
    eapply subs_trans; [by apply kids_subs|done]. }
  cbn [mbind outcome_bind]. destruct r as [i|h i].
  - exfalso. destruct a as [b ts]. apply subs_node in Hd as [?|(k & Hk & Hd)]; [done|].
    apply (Hiff k Hk) in Hd. apply list_elem_of_lookup in Hk as [j Hj]. destruct Hr as (_ & Hr & _).
    rewrite (Hr j (root k)) in Hd; [done|]. simpl. by rewrite list_lookup_fmap, Hj.
  - destruct Hr as [Hi Hc]. rewrite list_lookup_fmap in Hi.
    destruct (kids a !! i) as [k|] eqn:Hk; [|done]. simplify_eq/=.
    assert (k ∈ kids a) by (apply list_elem_of_lookup; eauto). exists k. split_and!; [done| |done].
    by apply Hiff.
Qed.
End Search.

(** [get_next_chain_ancestor] navigates the chain: it returns the child of
    [ancestor] through which the chain of [descendant] passes, and exactly when
    [ancestor] is a strict chain ancestor; otherwise it reports [BadQuery]. *)
Theorem next_chain_ancestor_navigates (st : store) (t : tree) (descendant ancestor : BlockHash) :
  wf st t → is_Some (map st !! descendant) → is_Some (map st !! ancestor) →
  (chain_ancestor st ancestor descendant ∧ ancestor ≠ descendant ∧
    ∃ c, get_next_chain_ancestor st descendant ancestor = Ok c ∧
      parent_of st c = Some ancestor ∧ chain_ancestor st c descendant) ∨
  (~ (chain_ancestor st ancestor descendant ∧ ancestor ≠ descendant) ∧
    get_next_chain_ancestor st descendant ancestor = Err BadQuery).
Proof.
  intros Hwf H1 H2. pose proof Hwf as [Ht Hiv Hfull].
  destruct (store_sub _ _ Ht _ H1) as (d & Hd & <-), (store_sub _ _ Ht _ H2) as (a & Ha & <-).
  assert (Hfl : ∀ s, s ∈ subs t → full st (root s)) by (intros s Hs; apply Hfull, elem_of_labels; eauto).
  pose proof (contains_iff_subtree st t a d (ts_nodup _ _ Ht) Hiv (Hfl d Hd) Ha Hd) as Hc.
  rewrite (chain_ancestor_subtree _ _ Ht) by done. unfold get_next_chain_ancestor.
  destruct (Z.eqb_spec (root d) (root a)) as [Heq|Hne].
  { right. split; [|done]. intros [_ ?]. congruence. }
  rewrite strict_chain_ancestor_query by done. cbn [mbind outcome_bind].
  destruct (strictly_contains (ivl st (root a)) (ivl st (root d))) eqn:Hs; simpl.
  - left. assert (Hsub : d ∈ subs a) by (apply Hc; unfold contains, strictly_contains in *; lia).
    split; [done|]. split; [congruence|].
    destruct (next_chain_ancestor_spec st t Ht Hiv a d) as (k & Hk & Hdk & Hget); try done.
    { congruence. }
    { by apply Hfl. }
    { intros k Hk. left. apply Hfl. eapply subs_trans; [by apply kids_subs|done]. }
    exists (root k). split; [done|]. split; [by apply (ts_nodes _ _ Ht a Ha)|].
    apply (chain_ancestor_subtree _ _ Ht); [|done|done]. eapply subs_trans; [by apply kids_subs|done].
  - right. split; [|done]. intros [Hsub _].
    destruct (descendant_interval st a d) as [? [->|?]]; [|done|done|unfold strictly_contains in Hs; lia].
    intros u Hu. apply Hiv. by eapply subs_trans.
Qed.
