(* ===== verification/ReachCount.v ===== *)
(** * Counting subtrees

    Correctness of [ReindexOperationContext::count_subtrees] of [reindex.rs]:
    the queue-based traversal that pushes sizes up from the leaves terminates
    and computes the size of every subtree, as the recursive version in its
    comment does. *)

From stdpp Require Import base list gmap relations.
From Stdlib Require Import ZArith Lia.
From S2P Require Import Prelude Tx Interval ReachStore Reach RoseTree ReachTree.

Local Open Scope Z_scope.

(** What the cache of subtree sizes satisfies between operations: its entries
    are right, and it holds whole subtrees. *)
Record sizes_ok (t : tree) (sizes : gmap BlockHash Z) : Prop := {
  sz_sound : ∀ s n, s ∈ subs t → sizes !! root s = Some n → n = tsize s;
  sz_closed : ∀ s k, s ∈ subs t → is_Some (sizes !! root s) → k ∈ kids s → is_Some (sizes !! root k);
}.

Lemma sizes_ok_lookup t sizes s u :
  sizes_ok t sizes → s ∈ subs t → is_Some (sizes !! root s) → u ∈ subs s → sizes !! root u = Some (tsize u).
Proof.
  intros Hok. assert (is_Some (sizes !! root s) → s ∈ subs t → u ∈ subs s → is_Some (sizes !! root u)) as Hcl.
  { induction s as [b ts IH] using tree_induction. rewrite Forall_forall in IH.
    intros Hs Ht [->|(k & Hk & Hu)]%subs_node; [done|].
    apply (IH k Hk); [by apply (sz_closed _ _ Hok (Node b ts))| |done].
    eapply subs_trans; [by apply (kids_subs k (Node b ts))|done]. }
  intros Ht Hs Hu. destruct (Hcl Hs Ht Hu) as [n Hn].
  rewrite Hn. f_equal. apply (sz_sound _ _ Hok); [by eapply subs_trans|done].
Qed.

Lemma sizes_ok_insert t sizes s :
  NoDup (labels t) → sizes_ok t sizes → s ∈ subs t →
  (∀ k, k ∈ kids s → is_Some (sizes !! root k)) →
  sizes_ok t (<[root s := tsize s]> sizes).
Proof.
  intros Hnd [Hs Hc] Hst Hk. split.
  - intros u n Hu. destruct (decide (root s = root u)) as [Heq|Hne].
    + rewrite Heq, lookup_insert_eq. intros [= <-]. by rewrite (subs_root_inj t s u).
    + rewrite lookup_insert_ne by done. by apply Hs.
  - intros u k Hu HSome Hku. apply lookup_insert_is_Some. destruct (decide (root s = root k)); [by left|right].
    split; [done|]. destruct (decide (root s = root u)) as [Heq|Hne].
    + apply Hk. by rewrite (subs_root_inj t s u).
    + rewrite lookup_insert_ne in HSome by done. by eapply Hc.
Qed.

Lemma filter_none (D : gset BlockHash) (l : list BlockHash) : (∀ x, x ∈ l → x ∉ D) → filter (λ b, b ∈ D) l = [].
Proof.
  induction l as [|x l IH]; intros H; [done|]. rewrite filter_cons, decide_False by (apply H; set_solver).
  apply IH. set_solver.
Qed.

Lemma mapM_sizes (sizes : gmap BlockHash Z) (l : list tree) :
  (∀ k, k ∈ l → sizes !! root k = Some (tsize k)) →
  mapM_outcome (size_of sizes) (root <$> l) = Ok (tsize <$> l).
Proof.
  induction l as [|k l IH]; intros H; [done|]. rewrite fmap_cons. cbn [mapM_outcome].
  assert (size_of sizes (root k) = Ok (tsize k)) as -> by (unfold size_of; rewrite H by set_solver; done).
  cbn [mbind outcome_bind]. rewrite IH by set_solver. done.
Qed.

Lemma sum_tsizes (l : list tree) :
  sumZ (tsize <$> l) ≤ U64_MAX → sum64 (E:=ReachabilityError) (tsize <$> l) 0 = Ok (sumZ (tsize <$> l)).
Proof.
  intros H. rewrite sum64_Ok; [by rewrite Z.add_0_l|lia| |lia].
  apply Forall_fmap, Forall_forall. intros k _. simpl. pose proof (tsize_pos k). lia.
Qed.

Section Count.
Context (st : store) (T t0 : tree).
Context (HT : ∀ s, s ∈ subs T → node_ok st s) (Hnd : NoDup (labels T)) (Hbound : tsize T < U64_MAX).
Context (Ht0 : t0 ∈ subs T).

Definition reported (D : gset BlockHash) (s : tree) : nat :=
  length (filter (λ b, b ∈ D) (root <$> kids s)).

(** The state of the traversal: reported blocks [D], expanded blocks [X], the
    queue [Q], and the block [C] that is about to report to its parent. *)
Record cinv (D X : gset BlockHash) (Q : list BlockHash) (C : option BlockHash) (sizes counts : gmap BlockHash Z) : Prop := {
  ci_nodup : NoDup Q;
  ci_Q : ∀ x, x ∈ Q → x ∉ D ∧ x ∉ X ∧ C ≠ Some x;
  ci_DX : ∀ x, x ∈ D → x ∉ X;
  ci_C : ∀ x, C = Some x → x ∉ D ∧ x ∉ X ∧ is_Some (sizes !! x);
  ci_labels : ∀ x, x ∈ D ∨ x ∈ X ∨ x ∈ Q ∨ C = Some x → x ∈ labels t0;
  ci_root : root t0 ∈ D ∨ root t0 ∈ X ∨ root t0 ∈ Q ∨ C = Some (root t0);
  ci_kids : ∀ s k, s ∈ subs t0 → root s ∈ X → k ∈ kids s →
    root k ∈ D ∨ root k ∈ X ∨ root k ∈ Q ∨ C = Some (root k);
  ci_parent : ∀ s k, s ∈ subs t0 → k ∈ kids s →
    root k ∈ D ∨ root k ∈ X ∨ root k ∈ Q ∨ C = Some (root k) →
    root s ∈ X ∨ (root k ∈ D ∧ (root s ∈ D ∨ C = Some (root s)));
  ci_counts : ∀ s, s ∈ subs t0 → root s ∈ X →
    default 0 (counts !! root s) = Z.of_nat (reported D s) ∧ (reported D s < length (kids s))%nat;
  ci_fresh : ∀ s, s ∈ subs t0 → root s ∉ X → root s ∉ D → C ≠ Some (root s) → counts !! root s = None;
  ci_D : ∀ x, x ∈ D → is_Some (sizes !! x);
  ci_sizes : sizes_ok T sizes;
}.

Lemma t0_subs s : s ∈ subs t0 → s ∈ subs T.
Proof. intros Hs. by eapply subs_trans. Qed.

Lemma t0_nodup : NoDup (labels t0).
Proof. by eapply NoDup_labels_subs. Qed.

(** Reporting a new child adds one. *)
Lemma reported_insert D s k :
  s ∈ subs t0 → k ∈ kids s → root k ∉ D → reported ({[root k]} ∪ D) s = S (reported D s).
Proof.
  intros Hs Hk HD. unfold reported.
  assert (Hr : NoDup (root <$> kids s)).
  { apply NoDup_forest_roots. destruct s as [b ts].
    apply (NoDup_labels_node b ts). eapply NoDup_labels_subs; [apply t0_nodup|done]. }
  apply list_elem_of_split in Hk as (l1 & l2 & Hk). rewrite Hk in *. rewrite fmap_app, fmap_cons in Hr |- *.
  apply NoDup_app in Hr as (_ & Hdis & Hr). apply NoDup_cons in Hr as [Hk2 _].
  rewrite !filter_app, !filter_cons, !length_app.
  rewrite (decide_True (P:=root k ∈ {[root k]} ∪ D)) by set_solver.
  rewrite (decide_False (P:=root k ∈ D)) by done. simpl.
  assert (Hsame : ∀ l : list BlockHash, root k ∉ l →
    filter (λ b, b ∈ {[root k]} ∪ D) l = filter (λ b, b ∈ D) l).
  { intros l Hl. apply list_filter_ext_in. set_solver. }
  rewrite !Hsame; [lia|done|]. intros Hin. apply (Hdis _ Hin). apply elem_of_cons. by left.
Qed.

Lemma reported_other D s k :
  s ∈ subs t0 → (∀ c, c ∈ kids s → root c ≠ k) → reported ({[k]} ∪ D) s = reported D s.
Proof.
  intros Hs Hk. unfold reported. f_equal. apply list_filter_ext_in.
  intros x (c & -> & Hc)%list_elem_of_fmap. specialize (Hk c Hc). set_solver.
Qed.

Lemma reported_all D s :
  reported D s = length (kids s) → ∀ k, k ∈ kids s → root k ∈ D.
Proof.
  unfold reported. rewrite <- (length_fmap root (kids s)). intros Heq k Hk.
  assert (Hin : root k ∈ root <$> kids s) by (by apply list_elem_of_fmap_2).
  revert Heq Hin. generalize (root <$> kids s) as l. intros l.
  induction l as [|x l IH]; [by intros _ ?%elem_of_nil|]. rewrite filter_cons. simpl.
  pose proof (length_filter (λ b, b ∈ D) l) as Hle.
  destruct (decide (x ∈ D)); simpl; [|lia]. intros [= Heq] [->|?]%elem_of_cons; auto.
Qed.

Lemma parent_of_kid s k : s ∈ subs t0 → k ∈ kids s → get_parent st (root k) = Ok (root s).
Proof. intros Hs Hk. apply get_parent_Ok. by apply (HT s (t0_subs s Hs)). Qed.

Lemma children_of_sub s : s ∈ subs t0 → get_children st (root s) = Ok (root <$> kids s).
Proof. intros Hs. apply get_children_Ok. by apply (HT s (t0_subs s Hs)). Qed.

(** The block that is not the root of the traversal has a parent in it. *)
Lemma parent_in_t0 c : c ∈ labels t0 → c ≠ root t0 → ∃ p k, p ∈ subs t0 ∧ k ∈ kids p ∧ root k = c.
Proof.
  intros (s & Hs & <-)%elem_of_labels Hne.
  assert (Hgen : ∀ u, u ∈ subs t0 → s ∈ subs u → s = u ∨ ∃ p k, p ∈ subs t0 ∧ k ∈ kids p ∧ root k = root s).
  { intros u. induction u as [b ts IH] using tree_induction. rewrite Forall_forall in IH.
    intros Hu [->|(k & Hk & Hsk)]%subs_node; [by left|]. right.
    destruct (IH k Hk) as [->|?]; [|done| |done].
    - eapply subs_trans; [by apply (kids_subs k (Node b ts))|done].
    - exists (Node b ts), k. done. }
  destruct (Hgen t0 (subs_self _) Hs) as [->|?]; done.
Qed.

(** One report: the parent [p] of [C] counts it; [p] stays expanded if some
    child is missing. *)
Lemma cinv_report D X Q c p k sizes counts :
  cinv D X Q (Some c) sizes counts → p ∈ subs t0 → k ∈ kids p → root k = c →
  let n := Z.of_nat (S (reported D p)) in
  let counts' := <[root p := n]> counts in
  root p ∈ X ∧ default 0 (counts !! root p) = Z.of_nat (reported D p) ∧
  (n < Z.of_nat (length (kids p)) → cinv ({[c]} ∪ D) X Q None sizes counts') ∧
  (Z.of_nat (length (kids p)) ≤ n → (∀ j, j ∈ kids p → sizes !! root j = Some (tsize j)) ∧
     cinv ({[c]} ∪ D) (X ∖ {[root p]}) Q (Some (root p)) (<[root p := tsize p]> sizes) counts').
Proof.
  intros Hinv Hp Hk Hkc n counts'.
  destruct (ci_C _ _ _ _ _ _ Hinv c eq_refl) as (HcD & HcX & Hcs).
  assert (HpX : root p ∈ X).
  { destruct (ci_parent _ _ _ _ _ _ Hinv p k Hp Hk) as [?|[? _]]; [set_solver|done|]. by rewrite Hkc in *. }
  destruct (ci_counts _ _ _ _ _ _ Hinv p Hp HpX) as [Hcnt Hlt].
  assert (Huniq : ∀ s j, s ∈ subs t0 → j ∈ kids s → root j = c → s = p).
  { intros s j Hs Hj Hjc. eapply (kids_parent_unique t0); [apply t0_nodup|done..|congruence]. }
  assert (Hrep : ∀ s, s ∈ subs t0 → s ≠ p → reported ({[c]} ∪ D) s = reported D s).
  { intros s Hs Hne. apply reported_other; [done|]. intros j Hj Hjc. by apply Hne, (Huniq s j). }
  assert (Hrepp : reported ({[c]} ∪ D) p = S (reported D p)).
  { rewrite <- Hkc. apply reported_insert; [done..|]. by rewrite Hkc. }
  assert (Hpne : ∀ s, s ∈ subs t0 → root s ≠ root p → s ≠ p) by congruence.
  assert (Hpin : ∀ s, s ∈ subs t0 → root s = root p → s = p).
  { intros s Hs Heq. eapply (subs_root_inj t0); [apply t0_nodup|done..]. }
  destruct Hinv as [Hnq HQ HDX HC Hlab Hroot Hkids Hpar Hcts Hfr HD Hsz].
  split; [done|]. split; [done|]. split.
  - intros Hn. split; try done.
    + intros x Hx. destruct (HQ x Hx) as (H1 & H2 & H3). split_and!; [|done|done].
      intros [->%elem_of_singleton|?]%elem_of_union; done.
    + intros x [->%elem_of_singleton|?]%elem_of_union; auto.
    + intros x Hx. apply Hlab. ss Hx.
    + ss Hroot.
    + intros s j Hs Hsx Hj. specialize (Hkids s j Hs Hsx Hj). ss Hkids.
    + intros s j Hs Hj Hv. destruct (Hpar s j Hs Hj) as [?|[H1 [H1'|?]]]; [ss Hv|by left|ss H1 H1'|].
      simplify_eq. right. split; [ss H1|]. left. by apply elem_of_union_l, elem_of_singleton.
    + intros s Hs Hsx. destruct (decide (root s = root p)) as [Heq|Hne].
      * rewrite (Hpin s Hs Heq). unfold counts'. rewrite lookup_insert_eq, Hrepp. simpl. split; [done|lia].
      * unfold counts'. rewrite lookup_insert_ne by done. rewrite (Hrep s Hs (Hpne s Hs Hne)). by apply Hcts.
    + intros s Hs HsX HsD _. unfold counts'. rewrite lookup_insert_ne by congruence.
      apply Hfr; [done|done|ss HsD|]. intros [= Heq]. rewrite Heq in HsD. ss HsD.
    + intros x [->%elem_of_singleton|?]%elem_of_union; auto.
  - intros Hn.
    assert (Hall : ∀ j, j ∈ kids p → root j ∈ {[c]} ∪ D).
    { intros j Hj. apply (reported_all _ p); [|done]. rewrite Hrepp. lia. }
    assert (HallS : ∀ j, j ∈ kids p → is_Some (sizes !! root j)).
    { intros j Hj. specialize (Hall j Hj).
      apply elem_of_union in Hall as [->%elem_of_singleton|?]; auto. }
    split.
    { intros j Hj. eapply (sizes_ok_lookup T sizes j); [done| |by apply HallS|apply subs_self].
      apply t0_subs. eapply subs_trans; [by apply kids_subs|done]. }
    assert (Hpc : root p ≠ c) by congruence.
    split; try done.
    + intros x Hx. destruct (HQ x Hx) as (H1 & H2 & H3). split_and!.
      * intros [->%elem_of_singleton|?]%elem_of_union; done.
      * ss H2.
      * intros [= <-]. done.
    + intros x [->%elem_of_singleton|Hx]%elem_of_union; [ss HcX|]. specialize (HDX x Hx). ss HDX.
    + intros x [= <-]. split_and!; [|ss|rewrite lookup_insert_eq; eauto].
      specialize (HDX (root p)). ss HDX HpX Hpc.
    + intros x Hx. apply Hlab. destruct Hx as [Hx|[Hx|[Hx|[= <-]]]]; [ss Hx|ss Hx|ss Hx|]. right. by left.
    + destruct (decide (root t0 = root p)) as [->|Hne]; [by do 3 right|]. ss Hroot Hne.
    + intros s j Hs Hsx Hj.
      assert (HsX : root s ∈ X) by ss Hsx. specialize (Hkids s j Hs HsX Hj).
      destruct (decide (root j = root p)) as [->|Hne]; [by do 3 right|]. ss Hkids Hne.
    + intros s j Hs Hj Hv.
      assert (Hv' : root j ∈ D ∨ root j ∈ X ∨ root j ∈ Q ∨ Some c = Some (root j)).
      { destruct Hv as [Hv|[Hv|[Hv|[= <-]]]]; [ss Hv|ss Hv|ss Hv|by right; left]. }
      destruct (decide (root s = root p)) as [Heq|Hsp].
      { rewrite (Hpin s Hs Heq) in *. right. split; [by apply Hall|by right]. }
      destruct (Hpar s j Hs Hj Hv') as [HX|[HD1 [HD2|[= HC']]]].
      * left. apply elem_of_difference. split; [done|]. by rewrite elem_of_singleton.
      * right. ss HD1 HD2.
      * right. split; [ss HD1|left]. rewrite HC'. ss.
    + intros s Hs Hsx.
      assert (Hsp : root s ≠ root p) by ss Hsx. assert (HsX : root s ∈ X) by ss Hsx.
      unfold counts'. rewrite lookup_insert_ne by done.
      rewrite (Hrep s Hs) by congruence. by apply Hcts.
    + intros s Hs HsX HsD Hsc. unfold counts'.
      assert (Hsp : root s ≠ root p) by congruence. rewrite lookup_insert_ne by done.
      apply Hfr; [done|ss HsX Hsp|ss HsD|]. intros [= Heq]. rewrite Heq in HsD. ss HsD.
    + intros x Hx. apply lookup_insert_is_Some. destruct (decide (root p = x)); [by left|right].
      split; [done|]. apply elem_of_union in Hx as [->%elem_of_singleton|?]; auto.
    + apply sizes_ok_insert; [done|done|by apply t0_subs|done].
Qed.

(** Climbing from [c] terminates, within the fuel of the expanded blocks. *)
Lemma count_up_spec fuel D X Q c sizes counts :
  (base.size X < fuel)%nat → cinv D X Q (Some c) sizes counts →
  ∃ sizes' counts' D' X', count_up fuel st (root t0) c sizes counts = Ok (sizes', counts') ∧
    cinv D' X' Q None sizes' counts' ∧ X' ∪ D' = X ∪ ({[c]} ∪ D).
Proof.
  revert D X c sizes counts. induction fuel as [|fuel IH]; intros D X c sizes counts Hf Hinv; [lia|].
  cbn [count_up]. destruct (Z.eqb_spec c (root t0)) as [->|Hne].
  - exists sizes, counts, ({[root t0]} ∪ D), X. split; [done|]. split; [|done].
    destruct Hinv as [Hnq HQ HDX HC Hlab Hroot Hkids Hpar Hcts Hfr HD Hsz].
    destruct (HC _ eq_refl) as (HrD & HrX & HrS).
    assert (Hnk : ∀ s j, s ∈ subs t0 → j ∈ kids s → root j ≠ root t0).
    { intros s j Hs Hj Heq. eapply (kid_not_root s j).
      - eapply NoDup_labels_subs; [apply t0_nodup|done].
      - done.
      - assert (j = t0) as ->; [|eapply labels_subs; [exact Hs|apply root_labels]].
        eapply (subs_root_inj t0); [apply t0_nodup| |apply subs_self|done].
        eapply subs_trans; [by apply kids_subs|done]. }
    split; try done.
    + intros x Hx. destruct (HQ x Hx) as (H1 & H2 & H3). split_and!; [|done|done].
      intros [->%elem_of_singleton|?]%elem_of_union; done.
    + intros x [->%elem_of_singleton|?]%elem_of_union; auto.
    + intros x Hx. apply Hlab. ss Hx.
    + left. ss.
    + intros s j Hs Hsx Hj. specialize (Hkids s j Hs Hsx Hj). ss Hkids.
    + intros s j Hs Hj Hv. specialize (Hnk s j Hs Hj).
      destruct (Hpar s j Hs Hj) as [?|[H1 [H2|[= H2]]]]; [ss Hv Hnk|by left|ss H1 H2|].
      right. split; [ss H1|left]. rewrite H2. ss.
    + intros s Hs Hsx. rewrite reported_other; [by apply Hcts|done|]. intros j Hj. by apply (Hnk s).
    + intros s Hs HsX HsD _. apply Hfr; [done|done|ss HsD|]. intros [= Heq]. rewrite Heq in HsD. ss HsD.
    + intros x [->%elem_of_singleton|?]%elem_of_union; auto.
  - destruct (parent_in_t0 c) as (p & k & Hp & Hk & Hkc); [|done|].
    { apply (ci_labels _ _ _ _ _ _ Hinv). by do 3 right. }
    assert (get_parent st c = Ok (root p)) as -> by (rewrite <- Hkc; by apply parent_of_kid). cbn [lift map_err mbind outcome_bind].
    rewrite (children_of_sub p Hp). cbn [lift map_err mbind outcome_bind].
    destruct (cinv_report _ _ _ _ p k _ _ Hinv Hp Hk Hkc) as (HpX & Hcnt & Hlt & Hge).
    rewrite Hcnt.
    assert (Hlen : Z.of_nat (length (kids p)) ≤ tsize T).
    { transitivity (tsize p); [|apply tsize_sub, t0_subs, Hp]. destruct p as [b ts]. rewrite tsize_node. simpl.
      clear. induction ts as [|x ts IH]; [simpl; unfold sumZ; simpl; lia|].
      rewrite fmap_cons, sumZ_cons. pose proof (tsize_pos x). simpl. lia. }
    pose proof (ci_counts _ _ _ _ _ _ Hinv p Hp HpX) as [_ Hr].
    chk. rewrite length_fmap. replace (Z.of_nat (reported D p) + 1) with (Z.of_nat (S (reported D p))) by lia.
    destruct (Z.ltb_spec (Z.of_nat (S (reported D p))) (Z.of_nat (length (kids p)))) as [Hl|Hl].
    + eexists _, _, _, _. split; [done|]. split; [by apply Hlt|done].
    + destruct (Hge Hl) as [Hks Hinv']. rewrite (mapM_sizes sizes (kids p) Hks). cbn [mbind outcome_bind].
      pose proof (tsize_sub p T (t0_subs p Hp)) as Hps. destruct p as [b ts] eqn:Hpeq. rewrite tsize_node in Hps. simpl kids.
      pose proof (sumZ_nonneg (tsize <$> ts)) as Hnn.
      rewrite sum_tsizes by lia. cbn [mbind outcome_bind].
      assert (0 ≤ sumZ (tsize <$> ts)).
      { apply Hnn, Forall_fmap, Forall_forall. intros y _. simpl. pose proof (tsize_pos y). lia. }
      chk. rewrite <- (tsize_node b ts). rewrite <- Hpeq in *.
      edestruct IH as (sizes' & counts' & D' & X' & Hup & Hi & Heq); [|exact Hinv'|].
      { assert (base.size (X ∖ {[root p]}) < base.size X)%nat; [|lia]. apply subset_size. ss HpX. }
      exists sizes', counts', D', X'. split; [exact Hup|]. split; [done|].
      rewrite Heq. apply leibniz_equiv. clear -HpX.
      intros x. destruct (decide (x = root p)); set_solver.
Qed.

Lemma size_le_labels (S : gset BlockHash) : (∀ x, x ∈ S → x ∈ labels t0) → (base.size S ≤ length (labels t0))%nat.
Proof.
  intros H. transitivity (base.size (list_to_set (labels t0) : gset BlockHash)).
  - apply subseteq_size. intros x Hx. apply elem_of_list_to_set. by apply H.
  - rewrite <- (size_list_to_set (C:=gset BlockHash)) by apply t0_nodup. done.
Qed.

(** When the queue is empty, the root has reported: otherwise the expanded
    blocks would go down forever. *)
Lemma cinv_done D X sizes counts : cinv D X [] None sizes counts → root t0 ∈ D.
Proof.
  intros Hinv. destruct (ci_root _ _ _ _ _ _ Hinv) as [?|[HX|[[]%elem_of_nil|?]]]; [done| |done]. exfalso.
  assert (Hno : ∀ s, s ∈ subs t0 → root s ∉ X).
  { intros s. induction s as [b ts IH] using tree_induction. rewrite Forall_forall in IH. intros Hs HbX.
    destruct (ci_counts _ _ _ _ _ _ Hinv _ Hs HbX) as [_ Hlt].
    assert (∃ k, k ∈ ts ∧ root k ∉ D) as (k & Hk & HkD).
    { unfold reported in Hlt. cbn [kids] in Hlt. clear -Hlt. induction ts as [|x ts IH]; [simpl in Hlt; lia|].
      rewrite fmap_cons, filter_cons in Hlt. destruct (decide (root x ∈ D)); cbn [length] in Hlt.
      - destruct IH as (k & ? & ?); [lia|]. exists k. split; [set_solver|done].
      - exists x. split; [set_solver|done]. }
    assert (HkX : root k ∉ X) by (apply IH; [done|]; eapply subs_trans; [by apply (kids_subs k (Node b ts))|done]).
    destruct (ci_kids _ _ _ _ _ _ Hinv _ k Hs HbX Hk) as [?|[?|[[]%elem_of_nil|?]]]; done. }
  by apply (Hno t0 (subs_self _)).
Qed.

(** A block leaves the queue to report. *)
Lemma cinv_dequeue D X c Q sizes sizes' counts :
  cinv D X (c :: Q) None sizes counts →
  sizes_ok T sizes' → (∀ x, is_Some (sizes !! x) → is_Some (sizes' !! x)) → is_Some (sizes' !! c) →
  cinv D X Q (Some c) sizes' counts.
Proof.
  intros [Hnq HQ HDX HC Hlab Hroot Hkids Hpar Hcts Hfr HD Hsz] Hok Hmono HS.
  destruct (HQ c) as (HcD & HcX & _); [ss|].
  apply NoDup_cons in Hnq as [Hsq Hnq]. split; try done.
  - intros x Hx. destruct (HQ x ltac:(ss Hx)) as (? & ? & _). split_and!; [done..|]. intros [= ->]. done.
  - intros x [= <-]. done.
  - intros x Hx. apply Hlab. destruct Hx as [Hx|[Hx|[Hx|[= <-]]]]; [ss Hx|ss Hx|ss Hx|ss].
  - clear -Hroot. rewrite elem_of_cons in Hroot. naive_solver.
  - intros u j Hu Hux Hj. specialize (Hkids u j Hu Hux Hj). clear -Hkids. rewrite elem_of_cons in Hkids. naive_solver.
  - intros u j Hu Hj Hv. destruct (Hpar u j Hu Hj) as [?|[? [?|?]]]; [|by left|by right; auto|done].
    destruct Hv as [Hv|[Hv|[Hv|[= <-]]]]; [ss Hv|ss Hv|ss Hv|ss].
  - intros u Hu H1 H2 H3. by apply Hfr.
  - intros x Hx. by apply Hmono, HD.
Qed.

(** A block leaves the queue and its children enter it. *)
Lemma cinv_expand D X s Q sizes counts :
  cinv D X (root s :: Q) None sizes counts → s ∈ subs t0 → kids s ≠ [] →
  cinv D ({[root s]} ∪ X) (Q ++ (root <$> kids s)) None sizes counts.
Proof.
  intros [Hnq HQ HDX HC Hlab Hroot Hkids Hpar Hcts Hfr HD Hsz] Hs Hne.
  destruct (HQ (root s)) as (HcD & HcX & _); [ss|].
  assert (Hsnd : NoDup (labels s)) by (eapply NoDup_labels_subs; [apply t0_nodup|done]).
  assert (Hsin : ∀ u, u ∈ subs t0 → root u = root s → u = s).
  { intros u Hu Heq. eapply (subs_root_inj t0); [apply t0_nodup|done..]. }
  (* no child of the block has been visited *)
  assert (Hnew : ∀ k, k ∈ kids s → root k ∉ D ∧ root k ∉ X ∧ root k ∉ root s :: Q).
  { intros k Hk. split_and!; intros Hin; (destruct (Hpar s k Hs Hk) as [?|[? [?|?]]]; [ss Hin|done..]). }
  apply NoDup_cons in Hnq as [Hsq Hnq].
  assert (Hkin : ∀ x, x ∈ root <$> kids s → ∃ k, k ∈ kids s ∧ x = root k).
  { intros x (k & -> & Hk)%list_elem_of_fmap. eauto. }
  split; try done.
  - apply NoDup_app. split_and!; [done| |].
    + intros x Hx (k & Hk & ->)%Hkin. destruct (Hnew k Hk) as (_ & _ & Hq). ss Hq Hx.
    + apply NoDup_forest_roots. destruct s as [b ts]. by apply (NoDup_labels_node b ts).
  - intros x [Hx|(k & Hk & ->)%Hkin]%elem_of_app.
    + destruct (HQ x ltac:(ss Hx)) as (? & ? & _). split_and!; [done| |done].
      intros [->%elem_of_singleton|?]%elem_of_union; done.
    + destruct (Hnew k Hk) as (? & Hx & Hq). split_and!; [done|ss Hq Hx|done].
  - intros x Hx. specialize (HDX x Hx). intros [->%elem_of_singleton|?]%elem_of_union; done.
  - intros x [Hx|[[->%elem_of_singleton|Hx]%elem_of_union|[[Hx|(k & Hk & ->)%Hkin]%elem_of_app|Hx]]].
    + apply Hlab. ss Hx.
    + apply Hlab. ss.
    + apply Hlab. ss Hx.
    + apply Hlab. ss Hx.
    + eapply labels_subs; [|apply root_labels]. eapply subs_trans; [by apply kids_subs|done].
    + done.
  - clear -Hroot. set_solver.
  - intros u j Hu [Hux%elem_of_singleton|Hux]%elem_of_union Hj.
    + rewrite (Hsin u Hu Hux) in Hj. right. right. left. apply elem_of_app. right. by apply list_elem_of_fmap_2.
    + specialize (Hkids u j Hu Hux Hj). clear -Hkids. set_solver.
  - intros u j Hu Hj Hv. destruct (decide (root u = root s)) as [->|Hus]; [left; ss|].
    destruct (Hpar u j Hu Hj) as [Hx|[HjD [Hx|?]]]; [|left; ss Hx|by right; auto|done].
    destruct Hv as [Hv|[[Hv%elem_of_singleton|Hv]%elem_of_union|[[Hv|(k & Hk & Hv)%Hkin]%elem_of_app|?]]];
      [by left|rewrite Hv; ss|ss Hv|ss Hv| |done].
    exfalso. apply Hus. f_equal. by eapply (kids_parent_unique t0 u s j k); [apply t0_nodup|..].
  - intros u Hu [Hux%elem_of_singleton|Hux]%elem_of_union; [|by apply Hcts].
    rewrite (Hsin u Hu Hux). rewrite Hfr by done. simpl.
    assert (reported D s = 0%nat) as ->.
    { unfold reported. assert (filter (λ b, b ∈ D) (root <$> kids s) = []) as ->; [|done].
      apply filter_none. intros x (k & Hk & ->)%Hkin. by apply Hnew. }
    split; [done|]. destruct (kids s); [done|simpl; lia].
  - intros u Hu H1 H2 H3. apply Hfr; [done|ss H1|done|done].
Qed.

Lemma count_bfs_spec fuel up D X Q sizes counts :
  (length (labels t0) ≤ fuel + base.size (X ∪ D))%nat → (length (labels t0) < up)%nat →
  cinv D X Q None sizes counts →
  ∃ sizes', count_bfs fuel up st (root t0) Q sizes counts = Ok sizes' ∧ sizes_ok T sizes' ∧
    is_Some (sizes' !! root t0).
Proof.
  revert D X Q sizes counts. induction fuel as [|fuel IH]; intros D X Q sizes counts Hf Hup Hinv.
  all: destruct Q as [|c Q]; cbn [count_bfs];
    [exists sizes; split; [done|]; split; [apply Hinv|];
     apply (ci_D _ _ _ _ _ _ Hinv), (cinv_done _ _ _ _ Hinv)|].
  all: destruct (ci_Q _ _ _ _ _ _ Hinv c) as (HcD & HcX & _); [ss|].
  all: assert (Hsz1 : base.size ({[c]} ∪ (X ∪ D)) = S (base.size (X ∪ D)))
    by (rewrite size_union, size_singleton by ss HcD HcX; done).
  - exfalso. assert (base.size ({[c]} ∪ (X ∪ D)) ≤ length (labels t0))%nat as Hle; [|lia].
    apply size_le_labels. intros x Hx. apply (ci_labels _ _ _ _ _ _ Hinv). ss Hx.
  - assert (Hcl : c ∈ labels t0) by (apply (ci_labels _ _ _ _ _ _ Hinv); ss).
    apply elem_of_labels in Hcl as (s & Hs & <-).
    rewrite (children_of_sub s Hs). cbn [lift map_err mbind outcome_bind].
    assert (HszX : (base.size X < up)%nat).
    { assert (base.size X ≤ length (labels t0))%nat; [|lia].
      apply size_le_labels. intros x Hx. apply (ci_labels _ _ _ _ _ _ Hinv). ss Hx. }
    assert (Hgo : ∀ sizes', sizes_ok T sizes' → (∀ x, is_Some (sizes !! x) → is_Some (sizes' !! x)) →
      is_Some (sizes' !! root s) →
      ∃ sizes'', ('(sizes, counts) ← count_up up st (root t0) (root s) sizes' counts;
                  count_bfs fuel up st (root t0) Q sizes counts) = Ok sizes'' ∧ sizes_ok T sizes'' ∧
                 is_Some (sizes'' !! root t0)).
    { intros sizes' Hok Hm HS.
      destruct (count_up_spec up D X Q _ sizes' counts HszX (cinv_dequeue _ _ _ _ _ _ _ Hinv Hok Hm HS))
        as (sizes'' & counts'' & D' & X' & -> & Hi & Heq). cbn [mbind outcome_bind].
      apply (IH D' X'); [|done|done]. rewrite Heq.
      replace (X ∪ ({[root s]} ∪ D)) with ({[root s]} ∪ (X ∪ D)) by (clear; set_solver). lia. }
    pose proof (ci_sizes _ _ _ _ _ _ Hinv) as Hsz.
    destruct (root <$> kids s) as [|b bs] eqn:Hb.
    + apply fmap_nil_inv in Hb. apply Hgo.
      * replace 1 with (tsize s) by (destruct s as [b ts]; simpl in Hb; subst; by rewrite tsize_node).
        apply sizes_ok_insert; [done|done|by apply t0_subs|]. rewrite Hb. by intros k ?%elem_of_nil.
      * intros x Hx. apply lookup_insert_is_Some. destruct (decide (root s = x)); auto.
      * rewrite lookup_insert_eq. eauto.
    + destruct (sizes !! root s) eqn:Hss; [apply Hgo; eauto|].
      apply (IH D ({[root s]} ∪ X)); [|done|].
      * replace ({[root s]} ∪ X ∪ D) with ({[root s]} ∪ (X ∪ D)) by (clear; set_solver). lia.
      * rewrite <- Hb. apply cinv_expand; [done..|]. intros Hn. by rewrite Hn in Hb.
Qed.
End Count.

Lemma count_labels st t : tree_store st t → base.size (map st) = length (labels t).
Proof.
  intros Ht. rewrite <- size_dom. rewrite <- (size_list_to_set (C:=gset BlockHash)) by apply Ht.
  f_equal. apply leibniz_equiv. intros x. rewrite elem_of_dom, elem_of_list_to_set. apply Ht.
Qed.

(** [count_subtrees] returns: it leaves the store as it is and memoises the
    subtree size of [block], hence of every block below it. *)
Lemma count_subtrees_spec ctx t t0 :
  tree_store (ctx_store ctx) t → tsize t < U64_MAX → t0 ∈ subs t → sizes_ok t (subtree_sizes ctx) →
  ∃ sizes', count_subtrees ctx (root t0) = Ok (mkCtx (ctx_store ctx) sizes') ∧ sizes_ok t sizes' ∧
    is_Some (sizes' !! root t0).
Proof.
  intros Ht Hb Ht0 Hsz. unfold count_subtrees. destruct ctx as [st sizes]; cbn [ctx_store subtree_sizes] in *.
  destruct (sizes !! root t0) eqn:Hl; [eexists; split; [done|]; eauto|].
  assert (count st = Ok (base.size (map st))) as -> by done.
  rewrite (count_labels _ _ Ht). cbn [lift map_err mbind outcome_bind].
  pose proof (length_labels_sub t0 t Ht0) as Hle.
  assert (Hnd0 : NoDup (labels t0)) by (eapply NoDup_labels_subs; [apply Ht|done]).
  edestruct (count_bfs_spec st t t0 (ts_nodes _ _ Ht) (ts_nodup _ _ Ht) Hb Ht0
    (S (length (labels t))) (S (length (labels t))) ∅ ∅ [root t0] sizes ∅) as (sizes' & -> & Hok & HS);
    [lia|lia| |cbn [mbind outcome_bind]; eauto].
  split; try (set_solver; fail); try done.
  - apply NoDup_singleton.
  - intros x. pose proof (root_labels t0). set_solver.
  - intros s k Hs Hk Hin. exfalso. assert (Hkr : root k = root t0) by set_solver.
    eapply (kid_not_root s k); [by eapply NoDup_labels_subs|done|].
    assert (k = t0) as ->; [|eapply labels_subs; [exact Hs|apply root_labels]].
    eapply (subs_root_inj t0); [done| |apply subs_self|done].
    eapply subs_trans; [by apply kids_subs|done].
Qed.

(** [count_subtrees] counts: its queue-based traversal terminates with the
    fuel of the block count, leaves the store alone and leaves in the cache the
    number of blocks of the subtree of every block below [block]. *)
Theorem count_subtrees_counts (ctx : ReindexOperationContext) (t t0 : tree) :
  tree_store (ctx_store ctx) t → tsize t < U64_MAX → t0 ∈ subs t → sizes_ok t (subtree_sizes ctx) →
  ∃ ctx', count_subtrees ctx (root t0) = Ok ctx' ∧ ctx_store ctx' = ctx_store ctx ∧
    ∀ s, s ∈ subs t0 → subtree_sizes ctx' !! root s = Some (Z.of_nat (length (labels s))).
Proof.
  intros Ht Hb Ht0 Hsz. destruct (count_subtrees_spec ctx t t0 Ht Hb Ht0 Hsz) as (sizes' & -> & Hok & HS).
  eexists. split; [done|]. split; [done|]. intros s Hs. by apply (sizes_ok_lookup t sizes' t0 s).
Qed.
