(* ===== verification/ReachPropagate.v ===== *)
(** * Propagating intervals

    Correctness of [ReindexOperationContext::propagate_interval] of
    [reindex.rs]: given a block whose interval has room for its subtree, the
    breadth-first reassignment terminates, changes no interval outside the
    strict subtree, and leaves every block of the subtree with an interval
    that nests those of its children and has room for its own subtree. *)

From stdpp Require Import base list gmap relations.
From Stdlib Require Import ZArith Lia.
From S2P Require Import Prelude Tx Interval ReachStore Reach RoseTree ReachTree ReachCount.

Local Open Scope Z_scope.

(** ** Stores that differ in intervals only *)

Definition erase (d : MemoryReachabilityData) : MemoryReachabilityData :=
  mkData (children d) (parent d) empty (height d) (future_covering_set d).

(** [st'] is [st] with other intervals on the blocks of [S]. *)
Record same_but (S : gset BlockHash) (st st' : store) : Prop := {
  sb_erase : erase <$> map st = erase <$> map st';
  sb_root : reindex_root st = reindex_root st';
  sb_ivl : ∀ b, b ∉ S → ivl st' b = ivl st b;
}.

Lemma same_but_refl S st : same_but S st st.
Proof. done. Qed.

Lemma same_but_trans S1 S2 st1 st2 st3 :
  same_but S1 st1 st2 → same_but S2 st2 st3 → same_but (S1 ∪ S2) st1 st3.
Proof.
  intros [H1 H2 H3] [H4 H5 H6]. split; [congruence..|]. intros b Hb.
  rewrite H6, H3 by set_solver. done.
Qed.

Lemma same_but_weaken S1 S2 st1 st2 : S1 ⊆ S2 → same_but S1 st1 st2 → same_but S2 st1 st2.
Proof. intros Hs [H1 H2 H3]. split; [done..|]. intros b Hb. apply H3. set_solver. Qed.

Section SameBut.
Context (S : gset BlockHash) (st st' : store) (H : same_but S st st').

Lemma same_but_lookup b : erase <$> map st !! b = erase <$> map st' !! b.
Proof. rewrite <- !lookup_fmap. by rewrite (sb_erase _ _ _ H). Qed.

Lemma same_but_field {A} (f : MemoryReachabilityData → A) b :
  (∀ d, f (erase d) = f d) → f <$> map st' !! b = f <$> map st !! b.
Proof.
  intros Hf. pose proof (same_but_lookup b) as Hl.
  destruct (map st !! b) as [d|], (map st' !! b) as [d'|]; simpl in *; try done.
  f_equal. rewrite <- (Hf d), <- (Hf d'). congruence.
Qed.

Lemma same_but_parent b : parent_of st' b = parent_of st b.
Proof. by apply same_but_field. Qed.
Lemma same_but_children b : children_of st' b = children_of st b.
Proof. by apply same_but_field. Qed.
Lemma same_but_fcs b : fcs_of st' b = fcs_of st b.
Proof. by apply same_but_field. Qed.
Lemma same_but_height b : height <$> map st' !! b = height <$> map st !! b.
Proof. by apply same_but_field. Qed.
Lemma same_but_is_Some b : is_Some (map st' !! b) ↔ is_Some (map st !! b).
Proof.
  pose proof (same_but_field (λ _, ()) b (λ _, eq_refl)) as Hl.
  destruct (map st !! b), (map st' !! b); simpl in *; try done; split; intros [??]; eauto; done.
Qed.

Lemma same_but_node t : node_ok st t → node_ok st' t.
Proof.
  intros [Hc Hp]. split; [by rewrite same_but_children|]. intros k Hk. rewrite same_but_parent. by apply Hp.
Qed.

Lemma same_but_tree t : tree_store st t → tree_store st' t.
Proof.
  intros [Hn Hd Hdom Hr Hno]. split; try done.
  - intros s Hs. by apply same_but_node, Hn.
  - intros b. rewrite same_but_is_Some. apply Hdom.
  - by rewrite same_but_parent.
Qed.

(** A block keeps its local invariant when its interval and those of its
    children are as before. *)
Lemma same_but_local t :
  root t ∉ S → (∀ k, k ∈ kids t → root k ∉ S) → local_ok st t → local_ok st' t.
Proof.
  intros Hr Hk [Hi Hn]. unfold local_ok. rewrite (sb_ivl _ _ _ H) by done. split; [done|]. intros Hne.
  assert ((ivl st' ∘ root <$> kids t) = (ivl st ∘ root <$> kids t)) as ->; [|by apply Hn].
  apply list_fmap_ext. intros i k Hi'. simpl. apply (sb_ivl _ _ _ H), Hk. by eapply list_elem_of_lookup_2.
Qed.
End SameBut.

(** ** Writing intervals *)

Definition upd (st : store) (b : BlockHash) (i : Interval) : store :=
  mkStore (alter (λ d, mkData (children d) (parent d) i (height d) (future_covering_set d)) b (map st)) (reindex_root st).

Lemma set_interval_Ok st b i : is_Some (map st !! b) → set_interval st b i = Ok (upd st b i).
Proof.
  intros [d Hd]. unfold set_interval; simpl. unfold mem_set_interval, update_data, get_data. rewrite Hd. simpl.
  f_equal. unfold upd. f_equal. apply map_eq. intros x. destruct (decide (x = b)) as [->|].
  - by rewrite lookup_insert_eq, lookup_alter_eq, Hd.
  - by rewrite lookup_insert_ne, lookup_alter_ne by done.
Qed.

Lemma ivl_upd_eq st b i : is_Some (map st !! b) → ivl (upd st b i) b = i.
Proof. intros [d Hd]. unfold ivl, upd; simpl. by rewrite lookup_alter_eq, Hd. Qed.
Lemma ivl_upd_ne st b c i : c ≠ b → ivl (upd st b i) c = ivl st c.
Proof. intros Hne. unfold ivl, upd; simpl. by rewrite lookup_alter_ne. Qed.

Lemma upd_same_but st b i : same_but {[b]} st (upd st b i).
Proof.
  split; [|done|intros c Hc; apply ivl_upd_ne; set_solver]. apply map_eq. intros x. rewrite !lookup_fmap.
  unfold upd; simpl. destruct (decide (x = b)) as [->|].
  - rewrite lookup_alter_eq. by destruct (map st !! b).
  - by rewrite lookup_alter_ne.
Qed.

(** The pairwise assignment to distinct blocks. *)
Lemma set_intervals_Ok st (bs : list BlockHash) (js : list Interval) :
  NoDup bs → length bs = length js → (∀ b, b ∈ bs → is_Some (map st !! b)) →
  ∃ st', set_intervals st bs js = Ok st' ∧ same_but (list_to_set bs) st st' ∧ ivl st' <$> bs = js.
Proof.
  unfold set_intervals. revert st js. induction bs as [|b bs IH]; intros st [|i js] Hnd Hlen Hin; try done.
  { exists st. split; [done|]. split; [apply same_but_refl|done]. }
  apply NoDup_cons in Hnd as [Hb Hnd]. cbn [zip zip_with for_each].
  rewrite set_interval_Ok by (apply Hin; set_solver). cbn [lift map_err mbind outcome_bind].
  destruct (IH (upd st b i) js) as (st' & Hst' & Hsb & Hi); [done|simpl in Hlen; lia| |].
  { intros x Hx. apply (same_but_is_Some _ _ _ (upd_same_but st b i)), Hin. set_solver. }
  exists st'. split; [exact Hst'|]. split.
  - rewrite list_to_set_cons. eapply same_but_trans; [apply upd_same_but|done].
  - rewrite fmap_cons, Hi. f_equal. rewrite (sb_ivl _ _ _ Hsb) by set_solver.
    apply ivl_upd_eq, Hin. set_solver.
Qed.

(** ** The breadth-first propagation *)

(** The blocks strictly below the roots of [ts]. *)
Definition below (ts : list tree) : gset BlockHash := list_to_set (ts ≫= λ t, forest_labels (kids t)).

Lemma elem_of_below b ts : b ∈ below ts ↔ ∃ t, t ∈ ts ∧ b ∈ forest_labels (kids t).
Proof. unfold below. rewrite elem_of_list_to_set, list_elem_of_bind. naive_solver. Qed.

(** Enough room: an interval of the tree with a number for every block below. *)
Definition roomy (st : store) (t : tree) : Prop := iv_ok (ivl st (root t)) ∧ tsize t ≤ width (ivl st (root t)).

Lemma roomy_kids_split st t l e :
  tiles (start (ivl st (root t))) l e → Forall2 (λ z j, z ≤ width j) (tsize <$> kids t) l →
  (ivl st <$> (root <$> kids t)) = l →
  Forall (roomy st) (kids t) ∧ nested (start (ivl st (root t))) (ivl st ∘ root <$> kids t) e.
Proof.
  intros Ht Hw Hl. rewrite <- list_fmap_compose in Hl. rewrite Hl. split; [|by apply tiles_nested].
  apply Forall_forall. intros k Hk. apply list_elem_of_lookup in Hk as [i Hk]. unfold roomy.
  assert (Hj : l !! i = Some (ivl st (root k))) by (rewrite <- Hl, list_lookup_fmap, Hk; done).
  split.
  - eapply tiles_bounds; [done|]. by eapply list_elem_of_lookup_2.
  - rewrite Forall2_fmap_l in Hw. by apply (Forall2_lookup_lr _ _ _ _ _ _ Hw Hk Hj).
Qed.

Section Propagate.
Context (T : tree) (sizes : gmap BlockHash Z) (Hsz : sizes_ok T sizes).

(** One block hands its interval down to its children. *)
Lemma propagate_step st t :
  tree_store st T → t ∈ subs T → is_Some (sizes !! root t) → roomy st t → kids t ≠ [] →
  ∃ l i intervals st', mapM_outcome (size_of sizes) (root <$> kids t) = Ok l ∧
    interval_children_capacity st (root t) = Ok i ∧
    split_exponential (E:=ReachabilityError) i l = Ok intervals ∧
    set_intervals st (root <$> kids t) intervals = Ok st' ∧
    same_but (list_to_set (root <$> kids t)) st st' ∧ local_ok st' t ∧ Forall (roomy st') (kids t).
Proof.
  intros HT Ht HS Hroom Hne. pose proof Hroom as [Hiv Hw]. pose proof Hiv as (H1 & H2 & H3).
  assert (Hndt : NoDup (labels t)) by (eapply NoDup_labels_subs; [apply HT|done]).
  assert (Hsizes : mapM_outcome (size_of sizes) (root <$> kids t) = Ok (tsize <$> kids t)).
  { apply mapM_sizes. intros k Hk. eapply (sizes_ok_lookup T); [done..|]. by apply kids_subs. }
  assert (Hsub : ∀ k, k ∈ kids t → is_Some (map st !! root k)).
  { intros k Hk. apply (ts_dom _ _ HT), elem_of_labels. exists k. split; [|done].
    eapply subs_trans; [by apply kids_subs|done]. }
  assert (Htt : is_Some (map st !! root t)) by (by eapply in_store).
  destruct t as [b ts]. cbn [kids root] in *. rewrite tsize_node in Hw. unfold width in Hw.
  assert (Hnn : Forall (λ z, 0 ≤ z) (tsize <$> ts)).
  { apply Forall_fmap, Forall_forall. intros y _. simpl. pose proof (tsize_pos y). lia. }
  assert (Hpos : 0 < sumZ (tsize <$> ts)).
  { destruct ts as [|k ts]; [done|]. rewrite fmap_cons, sumZ_cons. pose proof (tsize_pos k).
    rewrite fmap_cons in Hnn. apply Forall_cons in Hnn as [_ Hnn]. pose proof (sumZ_nonneg _ Hnn). lia. }
  set (i := mkInterval (start (ivl st b)) (end_ (ivl st b) - 1)).
  assert (Hcap : interval_children_capacity st b = Ok i).
  { unfold interval_children_capacity. rewrite get_interval_Ok by done. cbn [mbind outcome_bind].
    unfold decrease_end. chk. done. }
  destruct (@split_exponential_tiles ReachabilityError i (tsize <$> ts)) as (l & Hl & Htl & Hle);
    [unfold iv_ok, i; simpl; lia|done|unfold width, i; simpl; lia|].
  destruct (set_intervals_Ok st (root <$> ts) l) as (st' & Hst' & Hsb & Hivl).
  { apply NoDup_forest_roots. by apply (NoDup_labels_node b ts). }
  { apply Forall2_length in Hle. by rewrite !length_fmap in *. }
  { by intros x (k & -> & Hk)%list_elem_of_fmap; apply Hsub. }
  exists (tsize <$> ts), i, l, st'. do 5 (split; [done|]).
  assert (Hb : ivl st' b = ivl st b).
  { apply (sb_ivl _ _ _ Hsb). rewrite elem_of_list_to_set. intros (k & Hbk & Hk)%list_elem_of_fmap.
    apply (kid_not_root (Node b ts) k Hndt Hk). simpl. rewrite Hbk. apply root_labels. }
  destruct (roomy_kids_split st' (Node b ts) l (end_ i)) as [Hr Hn]; cbn [kids root]; [by rewrite Hb|done..|].
  split; [|done]. split; cbn [kids root] in *; rewrite Hb in *; [done|intros _; exact Hn].
Qed.

Lemma propagate_bfs_spec fuel st (ts : list tree) :
  tree_store st T → (length (forest_labels ts) ≤ fuel)%nat → NoDup (forest_labels ts) →
  (∀ t, t ∈ ts → t ∈ subs T ∧ is_Some (sizes !! root t) ∧ roomy st t) →
  ∃ st', propagate_bfs fuel sizes st (root <$> ts) = Ok st' ∧ same_but (below ts) st st' ∧
    ∀ t s, t ∈ ts → s ∈ subs t → local_ok st' s ∧ roomy st' s.
Proof.
  revert st ts. induction fuel as [|fuel IH]; intros st [|t ts] HT Hf Hnd Hts.
  1,3: exists st; split; [done|]; split; [apply same_but_refl|by intros ?? ?%elem_of_nil].
  { rewrite forest_labels_cons, length_app in Hf. pose proof (tsize_pos t). unfold tsize in *. lia. }
  rewrite fmap_cons. cbn [propagate_bfs].
  destruct (Hts t) as (HtT & HtS & Hroom); [by left|].
  rewrite (get_children_Ok _ _ _ (proj1 (ts_nodes _ _ HT t HtT))). cbn [lift map_err mbind outcome_bind].
  pose proof Hnd as Hnd0. rewrite forest_labels_cons in Hnd, Hf. apply NoDup_app in Hnd as (Hndt & Hdis & Hnd).
  rewrite length_app in Hf.
  assert (Hlen : length (labels t) = S (length (forest_labels (kids t)))) by (destruct t; by rewrite labels_node).
  (* the root of a queued tree is not below any queued tree *)
  assert (Hroot : ∀ u us, u ∈ us → NoDup (forest_labels us) → root u ∉ below us).
  { intros u us Hu Hus (v & Hv & Hin)%elem_of_below.
    assert (u = v) as ->.
    { eapply (NoDup_forest_labels_disjoint us _ _ (root u)); [done..|apply root_labels|].
      destruct v as [c vs]. rewrite labels_node. right. done. }
    destruct v as [c vs]. eapply NoDup_forest_labels_elem in Hv; [|done].
    apply NoDup_labels_node in Hv as [? _]. done. }
  destruct (decide (kids t = [])) as [Hk|Hk].
  - rewrite Hk. cbn [fmap list_fmap].
    destruct (IH st ts) as (st' & Hp & Hsb & Hall); [done|lia|done|by intros u Hu; apply Hts; right|].
    assert (Hsb' : same_but (below (t :: ts)) st st').
    { eapply same_but_weaken; [|done]. intros x. rewrite !elem_of_below. intros (u & Hu & Hx). exists u. split; [by right|done]. }
    exists st'. split; [exact Hp|]. split; [done|]. intros u s [->|Hu]%elem_of_cons Hs; [|by eapply Hall].
    assert (s = t) as -> by (destruct t as [b us]; simpl in Hk; subst us; apply subs_node in Hs as [?|(?&[]%elem_of_nil&_)]; done).
    assert (Hi : ivl st' (root t) = ivl st (root t)).
    { apply (sb_ivl _ _ _ Hsb'). by apply Hroot; [left|]. }
    unfold local_ok, roomy. rewrite Hi. destruct Hroom as [Hiv Hw]. pose proof (tsize_pos t).
    split; [|done]. split; [done|]. by rewrite Hk.
  - destruct (propagate_step st t) as (l & i & js & st1 & -> & -> & Hsp & Hset & Hsb & Hloc & Hkr); [done..|].
    destruct (root <$> kids t) as [|c cs] eqn:Hcs; [by apply fmap_nil_inv in Hcs|]. rewrite <- Hcs in *.
    cbn [lift map_err mbind outcome_bind]. rewrite Hsp. cbn [mbind outcome_bind]. rewrite Hset. cbn [mbind outcome_bind].
    rewrite <- fmap_app.
    assert (Hkl : ∀ x, x ∈ forest_labels (kids t) → x ∈ labels t) by (intros x; destruct t; rewrite labels_node; by right).
    assert (Hkr' : ∀ x, x ∈ root <$> kids t → x ∈ forest_labels (kids t)).
    { intros x (k & -> & Hk')%list_elem_of_fmap. apply elem_of_forest_labels. exists k. split; [done|apply root_labels]. }
    assert (Hnd' : NoDup (forest_labels (ts ++ kids t))).
    { rewrite forest_labels_app. apply NoDup_app. split; [done|]. split.
      - intros x Hx Hx'. by apply (Hdis x); [apply Hkl|].
      - destruct t. by apply NoDup_labels_node in Hndt as [_ ?]. }
    assert (HkS : ∀ u, u ∈ kids t → is_Some (sizes !! root u)).
    { intros u Hu. erewrite (sizes_ok_lookup T); [eauto|done|done|done|by apply kids_subs]. }
    destruct (IH st1 (ts ++ kids t)) as (st' & Hp & Hsb' & Hall).
    + by eapply same_but_tree.
    + rewrite forest_labels_app, length_app. lia.
    + done.
    + intros u [Hu|Hu]%elem_of_app.
      * destruct (Hts u) as (? & ? & Hr); [by right|]. split; [done|]. split; [done|].
        unfold roomy. rewrite (sb_ivl _ _ _ Hsb); [done|]. rewrite elem_of_list_to_set. intros Hin%Hkr'%Hkl.
        apply (Hdis _ Hin), elem_of_forest_labels. exists u. split; [done|apply root_labels].
      * split; [by eapply subs_trans; [apply kids_subs|]|]. split; [by apply HkS|].
        rewrite Forall_forall in Hkr. by apply Hkr.
    + exists st'. split; [exact Hp|]. split.
      * eapply same_but_weaken; [|eapply same_but_trans; [exact Hsb|exact Hsb']].
        intros x. rewrite elem_of_union, elem_of_list_to_set, !elem_of_below. intros [Hx|(u & Hu & Hx)].
        -- exists t. split; [by left|by apply Hkr'].
        -- apply elem_of_app in Hu as [Hu|Hu]; [exists u; split; [by right|done]|].
           exists t. split; [by left|]. apply elem_of_forest_labels. exists u. split; [done|].
           destruct u. rewrite labels_node. by right.
      * intros u s [->|Hu]%elem_of_cons Hs; [|eapply Hall; [|done]; apply elem_of_app; by left].
        assert (Hs' : s = t ∨ ∃ k, k ∈ kids t ∧ s ∈ subs k) by (destruct t; by apply subs_node).
        destruct Hs' as [->|(k & Hk' & Hs')]; [|eapply Hall; [|done]; apply elem_of_app; by right].
        assert (Hrt : root t ∉ below (ts ++ kids t)).
        { intros (v & Hv & Hin)%elem_of_below.
          assert (Hrv : root t ∈ forest_labels (ts ++ kids t)).
          { apply elem_of_forest_labels. exists v. split; [done|]. destruct v. rewrite labels_node. by right. }
          rewrite forest_labels_app in Hrv. apply elem_of_app in Hrv as [Hrv|Hrv].
          - by apply (Hdis (root t)); [apply root_labels|].
          - destruct t. by apply NoDup_labels_node in Hndt as [? _]. }
        split.
        -- eapply same_but_local; [done|done| |done]. intros k Hk'. apply Hroot; [|done]. apply elem_of_app. by right.
        -- unfold roomy. rewrite (sb_ivl _ _ _ Hsb') by done. rewrite (sb_ivl _ _ _ Hsb); [done|].
           rewrite elem_of_list_to_set. intros Hin%Hkr'. destruct t. by apply NoDup_labels_node in Hndt as [? _].
Qed.
End Propagate.

(** What [propagate_interval] does to a block with enough room. *)
Lemma propagate_interval_spec ctx T t :
  tree_store (ctx_store ctx) T → tsize T < U64_MAX → sizes_ok T (subtree_sizes ctx) →
  t ∈ subs T → roomy (ctx_store ctx) t →
  ∃ st' sizes', propagate_interval ctx (root t) = Ok (mkCtx st' sizes') ∧ sizes_ok T sizes' ∧
    same_but (below [t]) (ctx_store ctx) st' ∧
    (∀ s, s ∈ subs t → local_ok st' s ∧ roomy st' s).
Proof.
  intros HT Hb Hsz Ht Hroom. unfold propagate_interval.
  destruct (count_subtrees_spec ctx T t) as (sizes' & -> & Hok & HS); [done..|]. cbn [mbind outcome_bind ctx_store subtree_sizes].
  assert (count (ctx_store ctx) = Ok (base.size (map (ctx_store ctx)))) as -> by done.
  cbn [lift map_err mbind outcome_bind]. rewrite (count_labels _ _ HT).
  assert (Hfl : forest_labels [t] = labels t) by (unfold forest_labels, labels; simpl; by rewrite app_nil_r).
  destruct (propagate_bfs_spec T sizes' Hok (S (length (labels T))) (ctx_store ctx) [t]) as (st' & Hp & Hsb & Hall).
  - done.
  - rewrite Hfl. pose proof (length_labels_sub t T Ht). lia.
  - rewrite Hfl. eapply NoDup_labels_subs; [apply HT|done].
  - by intros u ->%list_elem_of_singleton.
  - change (root <$> [t]) with [root t] in Hp. rewrite Hp. cbn [mbind outcome_bind].
    exists st', sizes'. split; [done|]. split; [done|]. split; [done|].
    intros s Hs. eapply Hall; [|done]. by left.
Qed.
