(* ===== verification/ReachResize.v ===== *)
(** * Resizing one interval

    The elementary step of reindexing: a block takes a new interval that still
    fits between its siblings, alone or followed by a propagation in its
    subtree ([apply_interval_op], [apply_interval_op_and_propagate] of
    [reindex.rs]). Every such step keeps the intervals of the tree nested. *)

From stdpp Require Import base list gmap relations.
From Stdlib Require Import ZArith Lia.
From S2P Require Import Prelude Tx Interval ReachStore Reach RoseTree ReachTree ReachCount ReachPropagate.

Local Open Scope Z_scope.

(** ** Nested intervals under replacement *)

(** Intervals may shrink. *)
Lemma nested_shrink s l1 i l2 e j :
  nested s (l1 ++ i :: l2) e → iv_ok j → start i ≤ start j → end_ j ≤ end_ i → nested s (l1 ++ j :: l2) e.
Proof.
  intros (m & H1 & (Hs & Hi & H2))%nested_app Hj Hsj Hej. apply nested_app. exists m. split; [done|].
  simpl. split; [lia|]. split; [done|].
  destruct l2 as [|k l2]; simpl in *; [lia|]. destruct H2 as (? & ? & ?). split_and!; [lia|done|done].
Qed.

(** An interval may move within the gap around it. *)
Lemma nested_replace s l1 i l2 e j m m' :
  nested s (l1 ++ i :: l2) e → iv_ok j → nested s l1 m → nested m' l2 e → m < start j → end_ j < m' →
  nested s (l1 ++ j :: l2) e.
Proof.
  intros _ Hj H1 H2 Hm Hm'. apply nested_app. exists m. split; [done|]. simpl. split; [lia|]. split; [done|].
  destruct l2 as [|k l2]; simpl in *; [lia|]. destruct H2 as (? & ? & ?). split_and!; [lia|done|done].
Qed.

Lemma sum_widths_nested s js e : nested s js e → s + sumZ (width <$> js) ≤ e + 1.
Proof.
  revert s. induction js as [|j js IH]; intros s; [unfold sumZ; simpl; lia|].
  intros (Hs & Hj & Hn). rewrite fmap_cons, sumZ_cons. specialize (IH _ Hn). unfold width at 1. lia.
Qed.

(** Nested non-empty intervals have room for their subtree. *)
Lemma width_ge_size st t :
  intervals_ok st t → (∀ b, b ∈ labels t → full st b) → tsize t ≤ width (ivl st (root t)).
Proof.
  induction t as [b ts IH] using tree_induction. rewrite Forall_forall in IH. intros Hok Hfull.
  destruct (Hok _ (subs_self _)) as [Hi Hn]. pose proof (Hfull b (root_labels (Node b ts))) as Hb.
  rewrite tsize_node. simpl in *. destruct ts as [|k ts]; [unfold sumZ, width, full in *; simpl; lia|].
  specialize (Hn ltac:(done)). apply sum_widths_nested in Hn. rewrite <- list_fmap_compose in Hn.
  assert (sumZ (tsize <$> k :: ts) ≤ sumZ (width ∘ (ivl st ∘ root) <$> k :: ts)); [|unfold width at 1; lia].
  apply sumZ_mono. intros x Hx. apply IH; [done| |].
  - intros u Hu. apply Hok, subs_node. eauto.
  - intros c Hc. apply Hfull. rewrite labels_node. right. apply elem_of_forest_labels. eauto.
Qed.

(** ** One resized block *)

(** [j] fits between the siblings of [v]. *)
Definition fits (T : tree) (st : store) (v : tree) (j : Interval) : Prop :=
  ∀ p l1 l2, p ∈ subs T → kids p = l1 ++ v :: l2 →
    nested (start (ivl st (root p))) ((ivl st ∘ root <$> l1) ++ j :: (ivl st ∘ root <$> l2)) (end_ (ivl st (root p)) - 1).

Lemma split_unique {A} (l1 l2 l1' l2' : list A) x :
  NoDup (l1 ++ x :: l2) → l1 ++ x :: l2 = l1' ++ x :: l2' → l1 = l1' ∧ l2 = l2'.
Proof.
  revert l1'. induction l1 as [|a l1 IH]; intros [|b l1'] Hnd Heq; simpl in *; simplify_eq.
  - done.
  - apply NoDup_cons in Hnd as [Hx _]. destruct Hx. apply elem_of_app. right. by left.
  - apply NoDup_cons in Hnd as [Hx _]. destruct Hx. apply elem_of_app. right. by left.
  - apply NoDup_cons in Hnd as [_ Hnd]. match goal with H : _ ++ _ = _ ++ _ |- _ => destruct (IH l1' Hnd H) as [-> ->] end. done.
Qed.

Lemma fits_at T st p l1 x l2 j :
  NoDup (labels T) → p ∈ subs T → kids p = l1 ++ x :: l2 →
  nested (start (ivl st (root p))) ((ivl st ∘ root <$> l1) ++ j :: (ivl st ∘ root <$> l2)) (end_ (ivl st (root p)) - 1) →
  fits T st x j.
Proof.
  intros Hnd Hp Hk Hn p' l1' l2' Hp' Hk'.
  assert (p' = p) as ->.
  { eapply (kids_parent_unique T p' p x x); [done..| | |done].
    - rewrite Hk'. apply elem_of_app. right. by left.
    - rewrite Hk. apply elem_of_app. right. by left. }
  pose proof (NoDup_fmap_1 _ _ (NoDup_kids_roots T p Hnd Hp)) as Hndk.
  rewrite Hk in Hk', Hndk. by destruct (split_unique _ _ _ _ _ Hndk Hk') as [-> ->].
Qed.

Section Resize.
Context (T : tree) (Hbound : tsize T < U64_MAX).

Lemma resize_intervals_ok st st' v :
  tree_store st T → intervals_ok st T → v ∈ subs T → same_but (list_to_set (labels v)) st st' →
  (∀ s, s ∈ subs v → local_ok st' s) → fits T st v (ivl st' (root v)) → intervals_ok st' T.
Proof.
  intros HT Hok Hv Hsb Hin Hfit s Hs. destruct (decide (root s ∈ labels v)) as [Hsv|Hsv].
  { apply Hin. eapply (labels_sub_of T); [apply HT|done..]. }
  assert (Hkids : ∀ k, k ∈ kids s → root k ∈ labels v → k = v).
  { intros k Hk Hkv. destruct (kid_in_sub T s v k) as [?|Hsub]; [apply HT|done..|].
    destruct Hsv. apply elem_of_labels. eauto. }
  destruct (Hok s Hs) as [Hi Hn]. split.
  { by rewrite (sb_ivl _ _ _ Hsb) by (by rewrite elem_of_list_to_set). }
  intros Hne. rewrite (sb_ivl _ _ _ Hsb (root s)) by (by rewrite elem_of_list_to_set).
  assert (Hsame : ∀ l : list tree, (∀ k, k ∈ l → k ∈ kids s) → (∀ k, k ∈ l → k ≠ v) →
    (ivl st' ∘ root <$> l) = (ivl st ∘ root <$> l)).
  { intros l Hl Hlv. apply list_fmap_ext. intros i k Hk%list_elem_of_lookup_2. simpl.
    apply (sb_ivl _ _ _ Hsb). rewrite elem_of_list_to_set. intros Hkv. by apply (Hlv k), Hkids; auto. }
  destruct (decide (root v ∈ root <$> kids s)) as [Hvk|Hvk].
  - apply list_elem_of_fmap in Hvk as (k & Hkv & Hk).
    assert (k = v) as -> by (apply Hkids; [done|]; rewrite <- Hkv; apply root_labels).
    apply list_elem_of_split in Hk as (l1 & l2 & Hk). specialize (Hfit s l1 l2 Hs Hk).
    assert (Hnd : NoDup (root <$> kids s)) by (eapply (NoDup_kids_roots T); [apply HT|done]).
    rewrite Hk in Hnd. rewrite fmap_app, fmap_cons in Hnd.
    apply NoDup_app in Hnd as (_ & Hd & [Hv2 _]%NoDup_cons).
    rewrite Hk. rewrite fmap_app, fmap_cons. rewrite (Hsame l1), (Hsame l2); [exact Hfit|..].
    + intros k Hkl. rewrite Hk. apply elem_of_app. right. by right.
    + intros k Hkl ->. apply Hv2. by apply list_elem_of_fmap_2.
    + intros k Hkl. rewrite Hk. apply elem_of_app. by left.
    + intros k Hkl ->. apply (Hd (root v)); [by apply list_elem_of_fmap_2|by left].
  - rewrite (Hsame (kids s)); [by apply Hn|done|]. intros k Hk ->. apply Hvk. by apply list_elem_of_fmap_2.
Qed.

(** The state of a reindexing: the blocks of [N] may have an empty interval. *)
Record rinv (N : gset BlockHash) (ctx : ReindexOperationContext) : Prop := {
  ri_tree : tree_store (ctx_store ctx) T;
  ri_ok : intervals_ok (ctx_store ctx) T;
  ri_full : ∀ b, b ∈ labels T → b ∉ N → full (ctx_store ctx) b;
  ri_sizes : sizes_ok T (subtree_sizes ctx);
}.

(** The intervals below a resized block are kept when they still fit. *)
Lemma apply_interval_op_spec N ctx v o op j :
  rinv N ctx → v ∈ subs T → op (ivl (ctx_store ctx) (root v)) o = Ok j → iv_ok j → start j ≤ end_ j →
  (kids v ≠ [] → nested (start j) (ivl (ctx_store ctx) ∘ root <$> kids v) (end_ j - 1)) →
  fits T (ctx_store ctx) v j →
  ∃ ctx', apply_interval_op ctx (root v) o op = Ok ctx' ∧ rinv N ctx' ∧
    same_but {[root v]} (ctx_store ctx) (ctx_store ctx') ∧ ivl (ctx_store ctx') (root v) = j.
Proof.
  intros [HT Hok Hfull Hsz] Hv Hop Hj Hfj Hn Hfit. destruct ctx as [st sizes]; cbn [ctx_store subtree_sizes] in *.
  assert (HvS : is_Some (map st !! root v)) by (by eapply in_store).
  unfold apply_interval_op; cbn [ctx_store subtree_sizes].
  rewrite get_interval_Ok by done. cbn [lift map_err mbind outcome_bind]. rewrite Hop. cbn [mbind outcome_bind].
  rewrite set_interval_Ok by done. cbn [lift map_err mbind outcome_bind].
  pose proof (upd_same_but st (root v) j) as Hsb. pose proof (ivl_upd_eq st (root v) j HvS) as Hj'.
  assert (Hndv : NoDup (labels v)) by (eapply NoDup_labels_subs; [apply HT|done]).
  eexists. split; [done|]. split; [|done]. split; cbn [ctx_store subtree_sizes]; [by eapply same_but_tree| | |done].
  - eapply (resize_intervals_ok st _ v); [done..| | |by rewrite Hj'].
    { eapply same_but_weaken; [|done]. intros x ->%elem_of_singleton.
      apply elem_of_list_to_set, root_labels. }
    assert (Hkids : ∀ s k, s ∈ subs v → k ∈ kids s → root k ∉ ({[root v]} : gset BlockHash)).
    { intros s k Hs Hk Heq%elem_of_singleton. eapply (kid_not_root s k); [by eapply NoDup_labels_subs|done|].
      assert (k = v) as ->; [|eapply labels_subs; [exact Hs|apply root_labels]].
      eapply (subs_root_inj v); [done| |apply subs_self|done]. eapply subs_trans; [by apply kids_subs|done]. }
    intros s Hs. destruct (decide (root s = root v)) as [Heq|Hne].
    + assert (s = v) as -> by (eapply (subs_root_inj v); [done|done|apply subs_self|done]).
      split; rewrite Hj'; [done|]. intros Hne.
      assert ((ivl (upd st (root v) j) ∘ root <$> kids v) = (ivl st ∘ root <$> kids v)) as ->; [|by apply Hn].
      apply list_fmap_ext. intros i k Hk%list_elem_of_lookup_2. simpl. apply (sb_ivl _ _ _ Hsb). by apply (Hkids v).
    + eapply (same_but_local _ st); [done|by rewrite elem_of_singleton| |].
      * intros k. by apply Hkids.
      * apply Hok. by eapply subs_trans.
  - intros b Hb HN. unfold full. destruct (decide (b = root v)) as [->|]; [by rewrite Hj'|].
    rewrite ivl_upd_ne by done. by apply Hfull.
Qed.

Lemma apply_interval_op_and_propagate_spec N ctx v o op j :
  rinv N ctx → v ∈ subs T → op (ivl (ctx_store ctx) (root v)) o = Ok j → iv_ok j → tsize v ≤ width j →
  fits T (ctx_store ctx) v j →
  ∃ ctx', apply_interval_op_and_propagate ctx (root v) o op = Ok ctx' ∧ rinv (N ∖ list_to_set (labels v)) ctx' ∧
    same_but (list_to_set (labels v)) (ctx_store ctx) (ctx_store ctx') ∧ ivl (ctx_store ctx') (root v) = j.
Proof.
  intros [HT Hok Hfull Hsz] Hv Hop Hj Hw Hfit. destruct ctx as [st sizes]; cbn [ctx_store subtree_sizes] in *.
  assert (HvS : is_Some (map st !! root v)) by (by eapply in_store).
  unfold apply_interval_op_and_propagate, apply_interval_op; cbn [ctx_store subtree_sizes].
  rewrite get_interval_Ok by done. cbn [lift map_err mbind outcome_bind]. rewrite Hop. cbn [mbind outcome_bind].
  rewrite set_interval_Ok by done. cbn [lift map_err mbind outcome_bind].
  pose proof (upd_same_but st (root v) j) as Hsb. pose proof (ivl_upd_eq st (root v) j HvS) as Hj'.
  destruct (propagate_interval_spec (mkCtx (upd st (root v) j) sizes) T v) as (st' & sizes' & -> & Hsz' & Hsb' & Hin);
    cbn [ctx_store subtree_sizes]; [by eapply same_but_tree|done..|by (unfold roomy; rewrite Hj')|].
  assert (Hndv : NoDup (labels v)) by (eapply NoDup_labels_subs; [apply HT|done]).
  assert (Hrv : root v ∉ below [v]).
  { intros (u & ->%list_elem_of_singleton & Hu)%elem_of_below. destruct v. by apply NoDup_labels_node in Hndv as [? _]. }
  assert (Hj'' : ivl st' (root v) = j) by (by rewrite (sb_ivl _ _ _ Hsb') by done).
  assert (Hsb'' : same_but (list_to_set (labels v)) st st').
  { eapply same_but_weaken; [|eapply same_but_trans; [exact Hsb|exact Hsb']].
    intros x. rewrite elem_of_union, elem_of_singleton, elem_of_below, elem_of_list_to_set.
    intros [->|(u & ->%list_elem_of_singleton & Hu)]; [apply root_labels|]. destruct v. rewrite labels_node. by right. }
  eexists. split; [done|]. split; [|done]. split; cbn [ctx_store subtree_sizes]; [by eapply same_but_tree| | |done].
  - eapply (resize_intervals_ok st _ v); [done..| |by rewrite Hj'']. intros s Hs. by apply Hin.
  - intros b Hb HN. destruct (decide (b ∈ labels v)) as [Hbv|Hbv].
    + apply elem_of_labels in Hbv as (s & Hs & <-). destruct (Hin s Hs) as [_ [_ Hws]].
      pose proof (tsize_pos s). unfold full, width in *. lia.
    + unfold full. rewrite (sb_ivl _ _ _ Hsb'') by (by rewrite elem_of_list_to_set). apply Hfull; [done|].
      intros ?. apply HN. apply elem_of_difference. by rewrite elem_of_list_to_set.
Qed.
End Resize.
