(* ===== verification/ReachReclaim.v ===== *)
(** * Reclaiming intervals along the chain of the reindex root

    Correctness of the two walks shared by [reclaim_interval_before] and
    [reclaim_interval_after] of [reindex.rs], for either direction: on the way
    up (towards the reindex root) slack is collected until it covers the
    required allocation, or the reindex root provides it; on the way back every
    block of the chain gives its share, and the allocation block ends up with
    all of it. The walks are parametric in the direction, as the code is in
    the operation and the sibling walk it passes. *)

From stdpp Require Import base list gmap relations.
From Stdlib Require Import ZArith Lia.
From S2P Require Import Prelude Tx Interval ReachStore Reach RoseTree ReachTree ReachSearch ReachCount ReachPropagate ReachResize.

Local Open Scope Z_scope.

Definition same_shape (st st' : store) : Prop :=
  erase <$> map st = erase <$> map st' ∧ reindex_root st = reindex_root st'.

Lemma same_but_shape S st st' : same_but S st st' → same_shape st st'.
Proof. by intros []. Qed.
Lemma same_shape_trans st1 st2 st3 : same_shape st1 st2 → same_shape st2 st3 → same_shape st1 st3.
Proof. intros [] []. split; congruence. Qed.
Lemma same_shape_refl st : same_shape st st.
Proof. done. Qed.
Lemma same_shape_parent st st' b : same_shape st st' → parent_of st' b = parent_of st b.
Proof.
  intros [He Hr]. pose proof (f_equal (.!! b) He) as Hl. rewrite !lookup_fmap in Hl. unfold parent_of.
  destruct (map st !! b), (map st' !! b); simpl in *; unfold erase in *; congruence.
Qed.
Lemma rinv_mono T N N' ctx : rinv T N ctx → N ⊆ N' → rinv T N' ctx.
Proof. intros [H1 H2 H3 H4] HN. split; [done..| |done]. intros b Hb HN'. apply H3; set_solver. Qed.

(** The operation on a block of the chain, and the room it has. *)
Record direction := mkDirection {
  dir_remaining : store → BlockHash → outcome StoreError Interval;
  dir_op : interval_op;
  dir_offset : @ReindexOperationContext store → BlockHash → BlockHash → Z → outcome ReachabilityError (@ReindexOperationContext store);
  dir_shrink : Interval → Z → Interval;
  dir_gap : store → tree → Z;
}.

Section Reclaim.
Context (T : tree) (Hbound : tsize T < U64_MAX) (N : gset BlockHash).
(** The allocation block [a], the common ancestor [q], the child [c] of [q]
    towards the reindex root [R]. *)
Context (a q c R : tree) (Hq : q ∈ subs T) (Ha : a ∈ kids q) (Hc : c ∈ kids q) (Hac : a ≠ c) (HR : R ∈ subs c).
Context (HN : ∀ b, b ∈ N → b ∈ labels a).

Definition on_path (v : tree) : Prop := v ∈ subs c ∧ R ∈ subs v.

(** [v] gave up [o] on one side. *)
Definition moved (D : direction) (ctx0 ctx1 : ReindexOperationContext) (v : tree) (o : Z) : Prop :=
  rinv T N ctx1 ∧ same_but (list_to_set (labels v)) (ctx_store ctx0) (ctx_store ctx1) ∧
  ivl (ctx_store ctx1) (root v) = dir_shrink D (ivl (ctx_store ctx0) (root v)) o.

(** What a direction has to provide. *)
Class DirectionOk (D : direction) := {
  dir_op_ok i o : iv_ok i → 0 ≤ o ≤ width i → dir_op D i o = Ok (dir_shrink D i o);
  dir_shrink_ok i o : iv_ok i → 0 ≤ o ≤ width i → iv_ok (dir_shrink D i o) ∧
    start i ≤ start (dir_shrink D i o) ∧ end_ (dir_shrink D i o) ≤ end_ i ∧ width (dir_shrink D i o) = width i - o;
  dir_gap_ok ctx v : rinv T N ctx → v ∈ subs T → kids v ≠ [] →
    ∃ r, dir_remaining D (ctx_store ctx) (root v) = Ok r ∧ size (E:=ReachabilityError) r = Ok (dir_gap D (ctx_store ctx) v) ∧
      0 ≤ dir_gap D (ctx_store ctx) v ∧
      (∀ k, k ∈ kids v → dir_gap D (ctx_store ctx) v + width (ivl (ctx_store ctx) (root k)) < width (ivl (ctx_store ctx) (root v))) ∧
      ∀ o, 0 ≤ o ≤ dir_gap D (ctx_store ctx) v →
        nested (start (dir_shrink D (ivl (ctx_store ctx) (root v)) o)) (ivl (ctx_store ctx) ∘ root <$> kids v)
               (end_ (dir_shrink D (ivl (ctx_store ctx) (root v)) o) - 1);
  dir_offset_ok ctx0 ctx1 v p o : rinv T N ctx0 → on_path v → on_path p → v ∈ kids p → 0 ≤ o ≤ width (ivl (ctx_store ctx0) (root v)) →
    moved D ctx0 ctx1 v o →
    ∃ ctx2, dir_offset D ctx1 (root a) (root v) o = Ok ctx2 ∧ rinv T N ctx2 ∧
      same_but (list_to_set (forest_labels (kids p))) (ctx_store ctx1) (ctx_store ctx2) ∧
      dir_gap D (ctx_store ctx2) p = dir_gap D (ctx_store ctx0) p + o;
  dir_alloc_ok ctx0 ctx1 o : rinv T N ctx0 → 0 ≤ o ≤ width (ivl (ctx_store ctx0) (root c)) → tsize a ≤ o → moved D ctx0 ctx1 c o →
    ∃ ctx2, dir_offset D ctx1 (root a) (root c) o = Ok ctx2 ∧ rinv T (N ∖ list_to_set (labels a)) ctx2 ∧
      same_shape (ctx_store ctx1) (ctx_store ctx2);
  dir_gap_same st st' S v : same_but S st st' → root v ∉ S → (∀ k, k ∈ kids v → root k ∉ S) →
    dir_gap D st' v = dir_gap D st v;
}.

Context (D : direction) `{HD : !DirectionOk D} (HndT : NoDup (labels T)).

Lemma on_path_T v : on_path v → v ∈ subs T.
Proof. intros [Hv _]. eapply subs_trans; [exact Hv|]. eapply subs_trans; [by apply kids_subs|done]. Qed.

Lemma labels_c_a b : b ∈ labels c → b ∉ labels a.
Proof.
  intros Hbc Hba. apply Hac. assert (Hndq : NoDup (labels q)) by (by eapply NoDup_labels_subs).
  destruct q as [x ts]. apply NoDup_labels_node in Hndq as [_ Hf].
  by eapply (NoDup_forest_labels_disjoint ts).
Qed.

Lemma full_in_c ctx v : rinv T N ctx → v ∈ subs c → full (ctx_store ctx) (root v).
Proof.
  intros Hinv Hv. apply (ri_full _ _ _ Hinv).
  - apply elem_of_labels. exists v. split; [|done]. eapply subs_trans; [exact Hv|]. eapply subs_trans; [by apply kids_subs|done].
  - intros Hin%HN. revert Hin. apply labels_c_a. apply elem_of_labels. eauto.
Qed.

(** The blocks of the chain between [v] and [c], nearest first. *)
Fixpoint upath (v : tree) (up : list tree) : Prop :=
  match up with
  | [] => v = c
  | p :: up => v ∈ kids p ∧ upath p up
  end.

Lemma upath_on_path v up : R ∈ subs v → upath v up → on_path v ∧ ∀ p, p ∈ up → on_path p ∧ v ∈ subs p ∧ v ≠ p.
Proof.
  revert v. induction up as [|p up IH]; intros v HRv Hup.
  { simpl in Hup. subst v. split; [split; [apply subs_self|done]|by intros p ?%elem_of_nil]. }
  destruct Hup as [Hv Hup]. destruct (IH p) as [Hp Hall]; [eapply subs_trans; [exact HRv|by apply kids_subs]|done|].
  assert (Hvp : v ∈ subs p) by (by apply kids_subs).
  assert (Hndp : NoDup (labels p)) by (eapply NoDup_labels_subs; [done|by apply on_path_T]).
  assert (Hvne : v ≠ p).
  { intros ->. eapply (kid_not_root p p); [done|done|apply root_labels]. }
  split; [split; [by eapply subs_trans; [|apply Hp]|done]|].
  intros u [->|Hu]%elem_of_cons; [done|]. destruct (Hall u Hu) as (Hou & Hpu & Hne).
  split; [done|]. split; [by eapply subs_trans|]. intros ->. apply Hne, subs_antisym; done.
Qed.

Lemma path_kids v : on_path v → v ≠ R → kids v ≠ [].
Proof.
  intros [_ HRv] Hne Hk. destruct v as [b ts]. simpl in Hk. subst ts.
  apply subs_node in HRv as [?|(?&[]%elem_of_nil&_)]; congruence.
Qed.

(** A block above [p] keeps its room when only blocks below [p] change. *)
Lemma gap_above st st' S p u :
  same_but S st st' → (∀ x, x ∈ S → x ∈ forest_labels (kids p)) →
  u ∈ subs T → p ∈ subs u → p ≠ u → dir_gap D st' u = dir_gap D st u.
Proof.
  intros Hsb HS Hu Hp Hne.
  assert (HpT : p ∈ subs T) by (by eapply subs_trans).
  assert (Hlab : ∀ x, x ∈ forest_labels (kids p) → x ∈ labels p) by (intros x; destruct p; rewrite labels_node; by right).
  apply (dir_gap_same st st' S); [done|..].
  - intros Hin%HS%Hlab. apply Hne, subs_antisym; [done|]. by eapply (labels_sub_of T).
  - intros k Hk Hin%HS.
    destruct (kid_in_sub T u p k) as [->|Hup]; [done..|by apply Hlab| |].
    + eapply NoDup_labels_subs in HpT; [|done]. destruct p. by apply NoDup_labels_node in HpT as [? _].
    + apply Hne. by apply subs_antisym.
Qed.

(** Giving up [o] of the block's own slack. *)
Lemma shrink_spec ctx v o :
  rinv T N ctx → on_path v → v ≠ R → 0 ≤ o ≤ dir_gap D (ctx_store ctx) v →
  ∃ ctx1, apply_interval_op ctx (root v) o (dir_op D) = Ok ctx1 ∧ moved D ctx ctx1 v o ∧
    o ≤ width (ivl (ctx_store ctx) (root v)) ∧ same_shape (ctx_store ctx) (ctx_store ctx1).
Proof.
  intros Hinv Hv Hne Ho. pose proof (on_path_T v Hv) as HvT. pose proof (path_kids v Hv Hne) as Hk.
  destruct (dir_gap_ok ctx v Hinv HvT Hk) as (r & _ & _ & _ & Hw & Hn).
  destruct (ri_ok _ _ _ Hinv v HvT) as [Hiv Hnest].
  assert (Hkid : ∃ k, k ∈ kids v) by (destruct (kids v) as [|k ks]; [done|exists k; by left]).
  destruct Hkid as (k & Hkv). specialize (Hw k Hkv).
  assert (Hivk : iv_ok (ivl (ctx_store ctx) (root k))).
  { apply (ri_ok _ _ _ Hinv). eapply subs_trans; [by apply kids_subs|done]. }
  assert (Hwk : 0 ≤ width (ivl (ctx_store ctx) (root k))) by (unfold iv_ok, width in *; lia).
  destruct (dir_shrink_ok (ivl (ctx_store ctx) (root v)) o Hiv) as (Hj & Hs & He & Hwj); [lia|].
  destruct (apply_interval_op_spec T N ctx v o (dir_op D) (dir_shrink D (ivl (ctx_store ctx) (root v)) o))
    as (ctx1 & Hap & Hinv1 & Hsb & Hiv1); try done.
  - apply dir_op_ok; [done|lia].
  - unfold width in *. lia.
  - intros _. by apply Hn.
  - intros p l1 l2 Hp Hkp. eapply nested_shrink; [|done|exact Hs|exact He].
    pose proof (local_nested _ _ v (ri_ok _ _ _ Hinv p Hp)) as Hnp. rewrite Hkp in Hnp.
    rewrite fmap_app, fmap_cons in Hnp. apply Hnp. apply elem_of_app. right. by left.
  - exists ctx1. split; [done|]. split; [|split; [lia|by eapply same_but_shape]]. split; [done|]. split; [|done].
    eapply same_but_weaken; [|done]. intros x ->%elem_of_singleton. apply elem_of_list_to_set, root_labels.
Qed.

(** The reindex root gives up [o]. *)
Lemma shrink_root_spec ctx o :
  rinv T N ctx → 0 ≤ o → tsize R + o ≤ width (ivl (ctx_store ctx) (root R)) →
  ∃ ctx1, apply_interval_op_and_propagate ctx (root R) o (dir_op D) = Ok ctx1 ∧ moved D ctx ctx1 R o ∧
    same_shape (ctx_store ctx) (ctx_store ctx1).
Proof.
  intros Hinv Ho Hw. assert (HRT : R ∈ subs T) by (apply on_path_T; split; [done|apply subs_self]).
  pose proof (tsize_pos R). destruct (ri_ok _ _ _ Hinv R HRT) as [Hiv Hnest].
  destruct (dir_shrink_ok (ivl (ctx_store ctx) (root R)) o Hiv) as (Hj & Hs & He & Hwj); [lia|].
  destruct (apply_interval_op_and_propagate_spec T Hbound N ctx R o (dir_op D) (dir_shrink D (ivl (ctx_store ctx) (root R)) o))
    as (ctx1 & Hap & Hinv1 & Hsb & Hiv1); try done.
  - apply dir_op_ok; [done|lia].
  - lia.
  - intros p l1 l2 Hp Hkp. eapply nested_shrink; [|done|exact Hs|exact He].
    pose proof (local_nested _ _ R (ri_ok _ _ _ Hinv p Hp)) as Hnp. rewrite Hkp in Hnp.
    rewrite fmap_app, fmap_cons in Hnp. apply Hnp. apply elem_of_app. right. by left.
  - exists ctx1. split; [done|]. split; [|by eapply same_but_shape]. split; [|done].
    eapply rinv_mono; [exact Hinv1|]. set_solver.
Qed.

(** After [v] gave up [o], the next block of the chain has [o] more room than
    it had at first ([g]); at the end of the chain, the allocation block has it. *)
Definition processed (g : tree → Z) (ctx : ReindexOperationContext) (up : list tree) (o : Z) : Prop :=
  match up with
  | [] => rinv T (N ∖ list_to_set (labels a)) ctx
  | p :: up => rinv T N ctx ∧ dir_gap D (ctx_store ctx) p = g p + o ∧ ∀ u, u ∈ up → dir_gap D (ctx_store ctx) u = g u
  end.

Lemma offset_spec g ctx ctx1 v up o :
  rinv T N ctx → R ∈ subs v → upath v up → 0 ≤ o ≤ width (ivl (ctx_store ctx) (root v)) → moved D ctx ctx1 v o →
  (∀ u, u ∈ up → dir_gap D (ctx_store ctx) u = g u) → (up = [] → tsize a ≤ o) →
  ∃ ctx2, dir_offset D ctx1 (root a) (root v) o = Ok ctx2 ∧ processed g ctx2 up o ∧
    same_shape (ctx_store ctx1) (ctx_store ctx2).
Proof.
  intros Hinv HRv Hup Ho Hm Hg Halloc. destruct (upath_on_path v up HRv Hup) as [Hv Hall].
  destruct up as [|p up]; simpl in Hup.
  { subst v. destruct (dir_alloc_ok ctx ctx1 o) as (ctx2 & ? & ? & ?); auto. eauto. }
  destruct Hup as [Hvp Hup]. destruct (Hall p ltac:(by left)) as (Hp & _).
  destruct (dir_offset_ok ctx ctx1 v p o) as (ctx2 & Hoff & Hinv2 & Hsb2 & Hgap); try done.
  exists ctx2. split; [done|]. split; [|by eapply same_but_shape]. split; [done|]. split.
  { rewrite Hgap. f_equal. apply Hg. by left. }
  destruct Hm as (_ & Hsb1 & _). intros u Hu. rewrite <- (Hg u) by (by right).
  destruct (Hall u ltac:(by right)) as (Hou & Hvu & Hne).
  assert (HRp : R ∈ subs p) by (eapply subs_trans; [exact HRv|by apply kids_subs]).
  destruct (proj2 (upath_on_path p up HRp Hup) u Hu) as (_ & Hpu & Hpne).
  eapply (gap_above _ _ _ p u); [eapply same_but_trans; [exact Hsb1|exact Hsb2]| |by apply on_path_T|done|done].
  intros x. rewrite elem_of_union, !elem_of_list_to_set. intros [Hx|Hx]; [|done].
  apply elem_of_forest_labels. eauto.
Qed.

(** The slack still to distribute after the block above [up]. *)
Definition share (g : tree → Z) (slack required : Z) (up : list tree) : Z :=
  required + slack * Z.of_nat (length up) - sumZ (g <$> up).

Lemma share_cons g slack required p up :
  share g slack required (p :: up) + g p - slack = share g slack required up.
Proof. unfold share. rewrite fmap_cons, sumZ_cons. simpl length. lia. Qed.

Lemma reclaim_down_spec g slack ctx v up fuel :
  (length up < fuel)%nat → 0 ≤ slack ≤ U64_MAX → (∀ u, u ∈ up → 0 ≤ g u) → sumZ (g <$> up) ≤ tsize a →
  R ∈ subs v → upath v up → parent_of (ctx_store ctx) (root c) = Some (root q) →
  processed g ctx up (share g slack (tsize a) up) →
  ∃ ctx', reclaim_down fuel (dir_remaining D) (dir_op D) (dir_offset D) ctx (root a) (root q) (root v) slack = Ok ctx' ∧
    rinv T (N ∖ list_to_set (labels a)) ctx' ∧ same_shape (ctx_store ctx) (ctx_store ctx').
Proof.
  revert ctx v fuel. induction up as [|p up IH]; intros ctx v fuel Hf Hslack Hg Hsum HRv Hup Hpar Hproc;
    (destruct fuel as [|fuel]; [lia|]); cbn [reclaim_down].
  { simpl in Hup. subst v. rewrite (get_parent_Ok _ _ _ Hpar). cbn [lift map_err mbind outcome_bind].
    rewrite Z.eqb_refl. eexists. split; [done|]. split; [exact Hproc|apply same_shape_refl]. }
  destruct Hup as [Hvp Hup]. destruct Hproc as (Hinv & Hgap & Hgs).
  assert (HRp : R ∈ subs p) by (eapply subs_trans; [exact HRv|by apply kids_subs]).
  destruct (upath_on_path p up HRp Hup) as [Hp Hall].
  assert (HpR : p ≠ R).
  { intros ->. assert (v = R) as -> by (apply subs_antisym; [by apply kids_subs|done]).
    eapply (kid_not_root R R); [eapply NoDup_labels_subs; [done|by apply on_path_T]|done|apply root_labels]. }
  rewrite (get_parent_Ok _ _ (root p)).
  2: { destruct (ts_nodes _ _ (ri_tree _ _ _ Hinv) p (on_path_T p Hp)) as [_ Hpk]. by apply Hpk. }
  cbn [lift map_err mbind outcome_bind].
  assert (Hpq : root p ≠ root q).
  { intros Heq. assert (p = q) as -> by (eapply (subs_root_inj T); [done|by apply on_path_T|done|done]).
    assert (c = q) as Hcq by (apply subs_antisym; [by apply kids_subs|apply Hp]).
    eapply (kid_not_root q c); [by eapply NoDup_labels_subs|done|]. rewrite <- Hcq. apply root_labels. }
  rewrite (proj2 (Z.eqb_neq _ _) Hpq).
  destruct (dir_gap_ok ctx p Hinv (on_path_T p Hp) (path_kids p Hp HpR)) as (r & -> & Hsize & Hge & Hw & _).
  cbn [lift map_err mbind outcome_bind]. rewrite Hsize. cbn [mbind outcome_bind].
  pose proof (share_cons g slack (tsize a) p up) as Hshare.
  rewrite fmap_cons, sumZ_cons in Hsum. pose proof (Hg p ltac:(by left)) as Hgp.
  assert (Hs0 : 0 ≤ share g slack (tsize a) up).
  { unfold share. assert (0 ≤ slack * Z.of_nat (length up)) by (apply Z.mul_nonneg_nonneg; lia). lia. }
  destruct (ri_ok _ _ _ Hinv p (on_path_T p Hp)) as [Hivp _].
  assert (Hlt : dir_gap D (ctx_store ctx) p ≤ width (ivl (ctx_store ctx) (root p))).
  { assert (Hvk := Hw v Hvp). assert (iv_ok (ivl (ctx_store ctx) (root v))); [|unfold iv_ok, width in *; lia].
    apply (ri_ok _ _ _ Hinv). eapply subs_trans; [by apply kids_subs|by apply on_path_T]. }
  assert (HgU : dir_gap D (ctx_store ctx) p ≤ U64_MAX) by (unfold iv_ok, width in *; lia).
  chk. replace (dir_gap D (ctx_store ctx) p - slack) with (share g slack (tsize a) up) by lia.
  destruct (shrink_spec ctx p (share g slack (tsize a) up)) as (ctx1 & -> & Hm & Hwo & Hsh1); [done|done|done|lia|].
  cbn [mbind outcome_bind].
  destruct (offset_spec g ctx ctx1 p up (share g slack (tsize a) up)) as (ctx2 & -> & Hproc2 & Hsh2); try done.
  { intros ->. unfold share, sumZ. simpl. lia. }
  cbn [mbind outcome_bind].
  destruct (IH ctx2 p fuel) as (ctx' & Hd & Hi & Hsh); try done.
  - simpl in Hf. lia.
  - intros u Hu. apply Hg. by right.
  - lia.
  - pose proof (same_shape_trans _ _ _ Hsh1 Hsh2) as Hsh. rewrite <- Hpar.
    by apply same_shape_parent.
  - exists ctx'. split; [exact Hd|]. split; [done|]. eauto using same_shape_trans.
Qed.

Lemma kid_tsize k v : k ∈ kids v → tsize k + 1 ≤ tsize v.
Proof.
  intros Hk. destruct v as [b ts]. rewrite tsize_node. simpl in Hk.
  apply list_elem_of_split in Hk as (l1 & l2 & ->). rewrite fmap_app, sumZ_app, fmap_cons, sumZ_cons.
  assert (∀ l : list tree, 0 ≤ sumZ (tsize <$> l)) as Hnn.
  { intros l. apply sumZ_nonneg, Forall_fmap, Forall_forall. intros y _. simpl. pose proof (tsize_pos y). lia. }
  pose proof (Hnn l1). pose proof (Hnn l2). lia.
Qed.

Lemma reclaim_up_spec slack ctx v up fuel :
  let g := dir_gap D (ctx_store ctx) in
  (Z.to_nat (tsize v) ≤ fuel)%nat → 0 ≤ slack → (∀ u, u ∈ up → 0 ≤ g u) → sumZ (g <$> up) < tsize a →
  rinv T N ctx → R ∈ subs v → upath v up →
  Z.of_nat (length up) + tsize v ≤ tsize T →
  tsize R + tsize a + slack * tsize T ≤ width (ivl (ctx_store ctx) (root R)) →
  ∃ ctx' v' up' sl,
    reclaim_up fuel slack (dir_remaining D) (dir_op D) (dir_offset D) ctx (root a) (root R) (tsize a) (root v)
      (sumZ (g <$> up)) (Z.of_nat (length up)) = Ok (ctx', root v', sl) ∧
    0 ≤ sl ≤ U64_MAX ∧ (∀ u, u ∈ up' → 0 ≤ g u) ∧ sumZ (g <$> up') ≤ tsize a ∧ R ∈ subs v' ∧ upath v' up' ∧
    Z.of_nat (length up') < tsize T ∧
    processed g ctx' up' (share g sl (tsize a) up') ∧ same_shape (ctx_store ctx) (ctx_store ctx').
Proof.
  intros g. revert v up. induction fuel as [|fuel IH]; intros v up Hf Hslack Hg Hsum Hinv HRv Hup Hlen Hcap.
  { pose proof (tsize_pos v). lia. }
  cbn [reclaim_up]. destruct (upath_on_path v up HRv Hup) as [Hv Hall].
  pose proof (tsize_pos v) as Hpos. pose proof (tsize_pos R) as HposR. pose proof (tsize_pos a) as Hposa.
  assert (Hnn : 0 ≤ sumZ (g <$> up)) by (apply sumZ_nonneg, Forall_fmap, Forall_forall; intros; by apply Hg).
  assert (HRT : R ∈ subs T) by (apply on_path_T; split; [done|apply subs_self]).
  destruct (ri_ok _ _ _ Hinv R HRT) as [HivR _].
  assert (HwR : width (ivl (ctx_store ctx) (root R)) ≤ U64_MAX) by (unfold iv_ok, width in *; lia).
  assert (Hsl : 0 ≤ slack * Z.of_nat (length up) ≤ slack * tsize T).
  { split; [apply Z.mul_nonneg_nonneg; lia|apply Z.mul_le_mono_nonneg_l; lia]. }
  destruct (Z.eqb_spec (root v) (root R)) as [Heq|Hne].
  - assert (v = R) as -> by (eapply (subs_root_inj T); [done|by apply on_path_T|done|done]).
    chk. replace (tsize a + slack * Z.of_nat (length up) - sumZ (g <$> up)) with (share g slack (tsize a) up) by done.
    assert (Hs0 : 0 ≤ share g slack (tsize a) up) by (unfold share; lia).
    assert (Hs1 : tsize R + share g slack (tsize a) up ≤ width (ivl (ctx_store ctx) (root R))) by (unfold share; lia).
    destruct (shrink_root_spec ctx (share g slack (tsize a) up)) as (ctx1 & -> & Hm & Hsh1); [done..|].
    cbn [mbind outcome_bind].
    destruct (offset_spec g ctx ctx1 R up (share g slack (tsize a) up)) as (ctx2 & -> & Hproc & Hsh2); try done.
    { lia. }
    { intros ->. unfold share, sumZ. simpl. lia. }
    cbn [mbind outcome_bind]. exists ctx2, R, up, slack. split; [done|].
    assert (slack ≤ U64_MAX) by nia. split_and!; try done; try lia. eauto using same_shape_trans.
  - assert (HvR : v ≠ R) by congruence.
    destruct (dir_gap_ok ctx v Hinv (on_path_T v Hv) (path_kids v Hv HvR)) as (r & -> & Hsize & Hge & Hw & _).
    cbn [lift map_err mbind outcome_bind]. rewrite Hsize. cbn [mbind outcome_bind]. fold (g v) in *.
    destruct (next_chain_ancestor_spec (ctx_store ctx) T (ri_tree _ _ _ Hinv) (ri_ok _ _ _ Hinv) v R)
      as (k & Hk & HRk & Hnext); [by apply on_path_T|done|congruence|by eapply full_in_c; [done|done]| |].
    { intros k Hk. left. eapply full_in_c; [done|]. eapply subs_trans; [by apply kids_subs|apply Hv]. }
    assert (HkT : k ∈ subs T) by (eapply subs_trans; [by apply kids_subs|by apply on_path_T]).
    assert (Hwk : width (ivl (ctx_store ctx) (root R)) ≤ width (ivl (ctx_store ctx) (root k))).
    { destruct (descendant_interval (ctx_store ctx) k R) as [? [->|?]]; [|done|done|unfold width; lia].
      intros u Hu. apply (ri_ok _ _ _ Hinv). by eapply subs_trans. }
    destruct (ri_ok _ _ _ Hinv v (on_path_T v Hv)) as [Hivv _]. specialize (Hw k Hk) as Hwv.
    assert (HwvU : width (ivl (ctx_store ctx) (root v)) ≤ U64_MAX) by (unfold iv_ok, width in *; lia).
    assert (Hst : 0 ≤ slack * tsize T) by (apply Z.mul_nonneg_nonneg; lia).
    chk. destruct (Z.leb_spec (tsize a) (sumZ (g <$> up) + g v)) as [Hle|Hgt].
    + chk. replace (g v - (sumZ (g <$> up) + g v - tsize a)) with (share g 0 (tsize a) up) by (unfold share; lia).
      assert (Hs0 : 0 ≤ share g 0 (tsize a) up ≤ g v) by (unfold share; lia).
      destruct (shrink_spec ctx v (share g 0 (tsize a) up)) as (ctx1 & -> & Hm & Hwo & Hsh1); [done..|].
      cbn [mbind outcome_bind].
      destruct (offset_spec g ctx ctx1 v up (share g 0 (tsize a) up)) as (ctx2 & -> & Hproc & Hsh2); try done.
      { lia. }
      { intros ->. unfold share, sumZ. simpl. lia. }
      cbn [mbind outcome_bind]. exists ctx2, v, up, 0. split; [done|].
      split_and!; try done; try lia. eauto using same_shape_trans.
    + rewrite Hnext. cbn [mbind outcome_bind]. pose proof (kid_tsize k v Hk) as Hks. chk.
      replace (sumZ (g <$> up) + g v) with (sumZ (g <$> v :: up)) by (rewrite fmap_cons, sumZ_cons; lia).
      replace (Z.of_nat (length up) + 1) with (Z.of_nat (length (v :: up))) by (simpl; lia).
      apply IH; try done; try lia.
      * intros u [->|Hu]%elem_of_cons; [done|by apply Hg].
      * rewrite fmap_cons, sumZ_cons. lia.
      * simpl length. lia.
Qed.

(** The whole reclaim: the allocation block gets the room it requires. *)
Lemma reclaim_spec slack ctx fuel :
  (Z.to_nat (tsize T) < fuel)%nat → 0 ≤ slack → rinv T N ctx →
  tsize R + tsize a + slack * tsize T ≤ width (ivl (ctx_store ctx) (root R)) →
  ∃ ctx',
    ('(ctx, current, path_slack_alloc) ←
       reclaim_up fuel slack (dir_remaining D) (dir_op D) (dir_offset D) ctx (root a) (root R) (tsize a) (root c) 0 0;
     reclaim_down fuel (dir_remaining D) (dir_op D) (dir_offset D) ctx (root a) (root q) current path_slack_alloc) = Ok ctx' ∧
    rinv T (N ∖ list_to_set (labels a)) ctx' ∧ same_shape (ctx_store ctx) (ctx_store ctx').
Proof.
  intros Hf Hslack Hinv Hcap.
  assert (HcT : c ∈ subs T) by (eapply subs_trans; [by apply kids_subs|done]).
  pose proof (tsize_sub c T HcT). pose proof (tsize_pos a). pose proof (tsize_pos c).
  destruct (reclaim_up_spec slack ctx c [] fuel) as
    (ctx1 & v & up & sl & Hup & Hsl & Hg & Hsum & HRv & Hpath & Hlen & Hproc & Hsh); try done; try lia.
  { by intros u ?%elem_of_nil. }
  { change (0 < tsize a). lia. }
  change (sumZ _) with 0 in Hup. change (Z.of_nat (length [])) with 0 in Hup. rewrite Hup. cbn [mbind outcome_bind].
  destruct (reclaim_down_spec (dir_gap D (ctx_store ctx)) sl ctx1 v up fuel) as (ctx' & Hd & Hi & Hsh'); try done; try lia.
  { rewrite (same_shape_parent _ _ _ Hsh). by apply (ts_nodes _ _ (ri_tree _ _ _ Hinv) q Hq). }
  exists ctx'. split; [exact Hd|]. split; [done|]. eauto using same_shape_trans.
Qed.
End Reclaim.
