(* ===== verification/ReachReindex.v ===== *)
(** * Reindexing

    Correctness of [ReindexOperationContext::reindex_intervals] of
    [reindex.rs]: the sibling walks of both directions ([offset_siblings_before]
    and [offset_siblings_after]), the reclaim on the chain of the reindex root,
    and the climb from a new block without room. *)

From stdpp Require Import base list gmap relations.
From Stdlib Require Import ZArith Lia.
From S2P Require Import Prelude Tx Interval ReachStore Reach RoseTree ReachTree ReachSearch ReachCount ReachPropagate ReachResize ReachReclaim.

Local Open Scope Z_scope.

Definition shift (i : Interval) (o : Z) : Interval := mkInterval (start i + o) (end_ i + o).

Lemma nested_end_mono s js e e' : nested s js e → e ≤ e' → nested s js e'.
Proof. revert s. induction js as [|j js IH]; simpl; intros s; [lia|]. intros (? & ? & ?) ?. eauto. Qed.
Lemma nested_start_mono s s' js e : nested s js e → s' ≤ s → nested s' js e.
Proof. destruct js as [|j js]; simpl; [lia|]. intros (? & ? & ?) ?. split_and!; [lia|done|done]. Qed.

Lemma nested_shift s js e o :
  nested s js e → 1 ≤ s + o → e + o < U64_MAX → nested (s + o) ((λ j, shift j o) <$> js) (e + o).
Proof.
  revert s. induction js as [|j js IH]; intros s; [simpl; lia|]. rewrite fmap_cons. intros (Hs & Hj & Hn) H1 H2.
  pose proof (nested_empty_bound _ _ _ Hn) as Hb. unfold iv_ok in *.
  split; [simpl; lia|]. split; [unfold iv_ok; simpl; lia|]. simpl end_.
  replace (end_ j + o + 1) with (end_ j + 1 + o) by lia. apply IH; [done|lia|done].
Qed.

Lemma two_splits {A} (l : list A) i j x y :
  (i < j)%nat → l !! i = Some x → l !! j = Some y → ∃ l1 l2 l3, l = l1 ++ x :: l2 ++ y :: l3.
Proof.
  intros Hij Hx Hy. apply list_elem_of_split_length in Hx as (l1 & l' & -> & ->).
  rewrite lookup_app_r in Hy by lia. destruct (j - length l1)%nat as [|n] eqn:Hn; [lia|]. simpl in Hy.
  apply list_elem_of_split_length in Hy as (l2 & l3 & -> & _). by exists l1, l2, l3.
Qed.

(** Splitting the children at the pivot. *)
Lemma split_children_spec (l1 l2 : list BlockHash) pivot :
  pivot ∉ l1 → split_children (l1 ++ pivot :: l2) pivot = Ok (l1, l2).
Proof.
  induction l1 as [|x l1 IH]; intros Hp; cbn [app split_children].
  - by rewrite Z.eqb_refl.
  - rewrite (proj2 (Z.eqb_neq x pivot)) by (intros ->; apply Hp; by left).
    rewrite IH by (intros ?; apply Hp; by right). done.
Qed.

Section Siblings.
Context (T : tree) (Hbound : tsize T < U64_MAX) (HndT : NoDup (labels T)).

Lemma kids_sub p x : p ∈ subs T → x ∈ kids p → x ∈ subs T.
Proof. intros Hp Hx. eapply subs_trans; [by apply kids_subs|done]. Qed.

(** One sibling moves by [d] (and its subtree with it). *)
Lemma shift_one N ctx p l1 x l2 o op d :
  let st := ctx_store ctx in
  rinv T N ctx → p ∈ subs T → kids p = l1 ++ x :: l2 →
  op (ivl st (root x)) o = Ok (shift (ivl st (root x)) d) → (∀ b, b ∈ labels x → b ∉ N) →
  iv_ok (shift (ivl st (root x)) d) →
  nested (start (ivl st (root p))) ((ivl st ∘ root <$> l1) ++ shift (ivl st (root x)) d :: (ivl st ∘ root <$> l2))
    (end_ (ivl st (root p)) - 1) →
  ∃ ctx1, apply_interval_op_and_propagate ctx (root x) o op = Ok ctx1 ∧ rinv T N ctx1 ∧
    same_but (list_to_set (labels x)) st (ctx_store ctx1) ∧ ivl (ctx_store ctx1) (root x) = shift (ivl st (root x)) d ∧
    (ivl (ctx_store ctx1) ∘ root <$> l1) = (ivl st ∘ root <$> l1) ∧
    (ivl (ctx_store ctx1) ∘ root <$> l2) = (ivl st ∘ root <$> l2).
Proof.
  intros st Hinv Hp Hk Hop HN Hiv Hn.
  assert (Hxk : x ∈ kids p) by (rewrite Hk, elem_of_app; right; by left).
  pose proof (kids_sub p x Hp Hxk) as HxT.
  destruct (apply_interval_op_and_propagate_spec T Hbound N ctx x o op (shift (ivl st (root x)) d))
    as (ctx1 & Hap & Hinv1 & Hsb & Hiv1); try done.
  { transitivity (width (ivl st (root x))); [|unfold width, shift; simpl; lia]. apply width_ge_size.
    - intros u Hu. apply (ri_ok _ _ _ Hinv). by eapply subs_trans.
    - intros b Hb. apply (ri_full _ _ _ Hinv); [eapply labels_subs; [exact HxT|done]|by apply HN]. }
  { by apply (fits_at T st p l1 x l2). }
  exists ctx1. split; [done|]. split; [eapply rinv_mono; [exact Hinv1|set_solver]|]. split; [done|]. split; [done|].
  pose proof (NoDup_fmap_1 _ _ (NoDup_kids_roots T p HndT Hp)) as Hndk. rewrite Hk in Hndk.
  apply NoDup_app in Hndk as (_ & Hd1 & [Hd2 _]%NoDup_cons).
  assert (Hsame : ∀ l : list tree, (∀ z, z ∈ l → z ∈ kids p ∧ z ≠ x) →
    (ivl (ctx_store ctx1) ∘ root <$> l) = (ivl st ∘ root <$> l)).
  { intros l Hl. apply list_fmap_ext. intros i z Hz%list_elem_of_lookup_2. destruct (Hl z Hz) as [Hzk Hzx]. simpl.
    apply (sb_ivl _ _ _ Hsb). rewrite elem_of_list_to_set. intros Hin. apply Hzx.
    eapply (siblings_disjoint T p z x (root z)); [done..|apply root_labels|done]. }
  split; apply Hsame; intros z Hz; (split; [rewrite Hk; apply elem_of_app; first [by left|right; by right]|]); intros ->.
  - apply (Hd1 x Hz). by left.
  - done.
Qed.

(** Every sibling between the allocation block and [y] moves right by [o]. *)
Lemma shift_right N ctx p l0 lb y l2 o al rest m :
  rinv T N ctx → p ∈ subs T → kids p = l0 ++ lb ++ y :: l2 → 0 ≤ o → al ∉ root <$> lb →
  (∀ x b, x ∈ lb → b ∈ labels x → b ∉ N) →
  nested m (ivl (ctx_store ctx) ∘ root <$> lb) (start (ivl (ctx_store ctx) (root y)) - o - 1) →
  ∃ ctx', offset_siblings ctx al o increase_end increase (rev (root <$> lb) ++ rest) =
      offset_siblings ctx' al o increase_end increase rest ∧
    rinv T N ctx' ∧ same_but (list_to_set (forest_labels lb)) (ctx_store ctx) (ctx_store ctx') ∧
    (ivl (ctx_store ctx') ∘ root <$> lb) = (λ j, shift j o) <$> (ivl (ctx_store ctx) ∘ root <$> lb).
Proof.
  intros Hinv Hp. revert ctx y l2 Hinv. induction lb as [|x lb IH] using rev_ind; intros ctx y l2 Hinv Hk Ho Hal HN Hn.
  { exists ctx. split; [done|]. split; [done|]. split; [apply same_but_refl|done]. }
  rewrite fmap_app in Hn. apply nested_app in Hn as (m1 & Hn1 & (Hm1 & Hx & Hend)). simpl in Hm1, Hend.
  rewrite fmap_app, rev_app_distr. cbn [fmap list_fmap rev app offset_siblings]. rewrite fmap_app in Hal.
  rewrite (proj2 (Z.eqb_neq (root x) al)) by (intros <-; apply Hal, elem_of_app; right; by left).
  assert (Hk' : kids p = (l0 ++ lb) ++ x :: y :: l2) by (by rewrite Hk, <- !app_assoc).
  assert (HyT : y ∈ subs T) by (apply (kids_sub p); [done|]; rewrite Hk, !elem_of_app; right; right; by left).
  assert (Hxk : x ∈ kids p) by (rewrite Hk', elem_of_app; right; by left).
  destruct (ri_ok _ _ _ Hinv y HyT) as [Hivy _].
  assert (Hsx : iv_ok (shift (ivl (ctx_store ctx) (root x)) o)) by (unfold iv_ok, shift in *; simpl in *; lia).
  destruct (shift_one N ctx p (l0 ++ lb) x (y :: l2) o increase o) as (ctx1 & -> & Hinv1 & Hsb & Hiv1 & Hsl & _); try done.
  { unfold increase. unfold iv_ok, shift in *. simpl in *. chk. done. }
  { intros b. apply HN. apply elem_of_app. right. by left. }
  { pose proof (local_nested _ _ x (ri_ok _ _ _ Hinv p Hp) Hxk) as Hnp. rewrite Hk', fmap_app, fmap_cons in Hnp.
    pose proof Hnp as (m2 & Hn3 & (Hs2 & _ & Hn4))%nested_app. simpl in Hs2.
    eapply (nested_replace _ _ _ _ _ _ m2 (start (ivl (ctx_store ctx) (root y)))); [exact Hnp|done|exact Hn3| |simpl; lia|simpl; lia].
    rewrite fmap_cons in Hn4 |- *. destruct Hn4 as (_ & ? & ?). split_and!; [simpl; lia|done|done]. }
  cbn [mbind outcome_bind]. rewrite !fmap_app in Hsl. apply app_inj_1 in Hsl as [_ Hsl]; [|by rewrite !length_fmap].
  assert (Hxlb : root x ∉ forest_labels lb).
  { intros (z & Hz & Hin)%elem_of_forest_labels.
    assert (z = x) as ->.
    { eapply (siblings_disjoint T p z x (root x)); [done|done| |done|done|apply root_labels].
      rewrite Hk, !elem_of_app. right. left. by left. }
    pose proof (NoDup_fmap_1 _ _ (NoDup_kids_roots T p HndT Hp)) as Hndk. rewrite Hk' in Hndk.
    apply NoDup_app in Hndk as (_ & Hd & _). apply (Hd x); [apply elem_of_app; by right|by left]. }
  destruct (IH ctx1 x (y :: l2)) as (ctx2 & -> & Hinv2 & Hsb2 & Hsh2); try done.
  - by rewrite Hk, <- !app_assoc.
  - intros Hin. apply Hal, elem_of_app. by left.
  - intros z b Hz. apply HN. apply elem_of_app. by left.
  - rewrite Hsl, Hiv1. eapply nested_end_mono; [exact Hn1|]. simpl. lia.
  - exists ctx2. split; [done|]. split; [done|]. split.
    + eapply same_but_weaken; [|eapply same_but_trans; [exact Hsb|exact Hsb2]].
      rewrite forest_labels_app, forest_labels_singleton, list_to_set_app. clear. set_solver.
    + rewrite !fmap_app, Hsh2, Hsl. f_equal. simpl. f_equal.
      rewrite (sb_ivl _ _ _ Hsb2); [exact Hiv1|]. by rewrite elem_of_list_to_set.
Qed.

(** Every sibling between [y] and the allocation block moves left by [o]. *)
Lemma shift_left N ctx p l0 y lb l2 o al rest m :
  rinv T N ctx → p ∈ subs T → kids p = l0 ++ y :: lb ++ l2 → 0 ≤ o → al ∉ root <$> lb →
  (∀ x b, x ∈ lb → b ∈ labels x → b ∉ N) →
  nested (end_ (ivl (ctx_store ctx) (root y)) + 1 + o) (ivl (ctx_store ctx) ∘ root <$> lb) m →
  ∃ ctx', offset_siblings ctx al o decrease_start decrease ((root <$> lb) ++ rest) =
      offset_siblings ctx' al o decrease_start decrease rest ∧
    rinv T N ctx' ∧ same_but (list_to_set (forest_labels lb)) (ctx_store ctx) (ctx_store ctx') ∧
    (ivl (ctx_store ctx') ∘ root <$> lb) = (λ j, shift j (- o)) <$> (ivl (ctx_store ctx) ∘ root <$> lb).
Proof.
  intros Hinv Hp. revert ctx l0 y Hinv. induction lb as [|x lb IH]; intros ctx l0 y Hinv Hk Ho Hal HN Hn.
  { exists ctx. split; [done|]. split; [done|]. split; [apply same_but_refl|done]. }
  rewrite fmap_cons in Hn. destruct Hn as (Hm1 & Hx & Hn1). simpl in Hm1, Hx, Hn1.
  rewrite fmap_cons. cbn [app offset_siblings]. rewrite fmap_cons in Hal.
  rewrite (proj2 (Z.eqb_neq (root x) al)) by (intros <-; apply Hal; by left).
  assert (Hk' : kids p = (l0 ++ [y]) ++ x :: (lb ++ l2)) by (by rewrite Hk, <- !app_assoc).
  assert (HyT : y ∈ subs T) by (apply (kids_sub p); [done|]; rewrite Hk, elem_of_app; right; by left).
  assert (Hxk : x ∈ kids p) by (rewrite Hk', elem_of_app; right; by left).
  destruct (ri_ok _ _ _ Hinv y HyT) as [Hivy _].
  assert (Hsx : iv_ok (shift (ivl (ctx_store ctx) (root x)) (- o))) by (unfold iv_ok, shift in *; simpl in *; lia).
  destruct (shift_one N ctx p (l0 ++ [y]) x (lb ++ l2) o decrease (- o)) as (ctx1 & -> & Hinv1 & Hsb & Hiv1 & _ & Hsl); try done.
  { unfold decrease. unfold iv_ok, shift in *. simpl in *. chk. do 2 f_equal; lia. }
  { intros b. apply HN. by left. }
  { pose proof (local_nested _ _ x (ri_ok _ _ _ Hinv p Hp) Hxk) as Hnp. rewrite Hk', fmap_app, fmap_cons in Hnp.
    pose proof Hnp as (m2 & Hn3 & (Hs2 & _ & Hn4))%nested_app. simpl in Hs2.
    eapply (nested_replace _ _ _ _ _ _ (end_ (ivl (ctx_store ctx) (root y))) (end_ (ivl (ctx_store ctx) (root x)) + 1));
      [exact Hnp|done| |exact Hn4|simpl in *; lia|simpl; lia].
    rewrite fmap_app in Hn3 |- *. apply nested_app in Hn3 as (m3 & Hn3 & (? & ? & ?)).
    apply nested_app. exists m3. split; [done|]. simpl in *. split_and!; [lia|done|lia]. }
  cbn [mbind outcome_bind]. rewrite !fmap_app in Hsl. apply app_inj_1 in Hsl as [Hsl _]; [|by rewrite !length_fmap].
  assert (Hxlb : root x ∉ forest_labels lb).
  { intros (z & Hz & Hin)%elem_of_forest_labels.
    assert (z = x) as ->.
    { eapply (siblings_disjoint T p z x (root x)); [done|done| |done|done|apply root_labels].
      rewrite Hk', elem_of_app. right. right. apply elem_of_app. by left. }
    pose proof (NoDup_fmap_1 _ _ (NoDup_kids_roots T p HndT Hp)) as Hndk. rewrite Hk' in Hndk.
    apply NoDup_app in Hndk as (_ & _ & [Hd _]%NoDup_cons). apply Hd, elem_of_app. by left. }
  destruct (IH ctx1 (l0 ++ [y]) x) as (ctx2 & -> & Hinv2 & Hsb2 & Hsh2); try done.
  - intros Hin. apply Hal. by right.
  - intros z b Hz. apply HN. by right.
  - rewrite Hsl, Hiv1. simpl. replace (end_ (ivl (ctx_store ctx) (root x)) + - o + 1 + o) with (end_ (ivl (ctx_store ctx) (root x)) + 1) by lia.
    exact Hn1.
  - exists ctx2. split; [done|]. split; [done|]. split.
    + eapply same_but_weaken; [|eapply same_but_trans; [exact Hsb|exact Hsb2]].
      rewrite forest_labels_cons, list_to_set_app. clear. set_solver.
    + rewrite !fmap_cons, Hsh2, Hsl. f_equal. simpl.
      rewrite (sb_ivl _ _ _ Hsb2); [exact Hiv1|]. by rewrite elem_of_list_to_set.
Qed.
End Siblings.

(** ** The two directions *)

Definition before : direction := {|
  dir_remaining := interval_remaining_before;
  dir_op := increase_start;
  dir_offset := offset_siblings_before;
  dir_shrink := λ i o, mkInterval (start i + o) (end_ i);
  dir_gap := λ st v, match kids v with k :: _ => start (ivl st (root k)) - start (ivl st (root v)) | [] => 0 end;
|}.

Definition after : direction := {|
  dir_remaining := interval_remaining_after;
  dir_op := decrease_end;
  dir_offset := offset_siblings_after;
  dir_shrink := λ i o, mkInterval (start i) (end_ i - o);
  dir_gap := λ st v, match last (kids v) with
    | Some k => end_ (ivl st (root v)) - 1 - end_ (ivl st (root k)) | None => 0 end;
|}.

Lemma capacity_Ok st t s :
  tree_store st t → s ∈ subs t → iv_ok (ivl st (root s)) → full st (root s) →
  interval_children_capacity st (root s) = Ok (mkInterval (start (ivl st (root s))) (end_ (ivl st (root s)) - 1)).
Proof.
  intros Ht Hs Hi Hf. unfold interval_children_capacity. rewrite get_interval_Ok by (by eapply in_store).
  cbn [mbind outcome_bind]. unfold decrease_end, iv_ok, full in *. chk. done.
Qed.

Section Directions.
Context (T : tree) (Hbound : tsize T < U64_MAX) (HndT : NoDup (labels T)) (N : gset BlockHash).
Context (a q c R : tree) (Hq : q ∈ subs T) (HR : R ∈ subs c) (HN : ∀ b, b ∈ N → b ∈ labels a).

(** A block with children has a non-empty interval. *)
Lemma kids_full ctx v k : rinv T N ctx → v ∈ subs T → k ∈ kids v → full (ctx_store ctx) (root v).
Proof.
  intros Hinv Hv Hk. pose proof (local_nested _ _ k (ri_ok _ _ _ Hinv v Hv) Hk) as Hn%nested_empty_bound.
  unfold full. lia.
Qed.

(** The blocks of the sibling walk: [v]'s parent and its other children. *)
Lemma offset_before_unfold ctx p l1 v l2 al o :
  rinv T N ctx → p ∈ subs T → kids p = l1 ++ v :: l2 →
  offset_siblings_before ctx al (root v) o =
    offset_siblings ctx al o increase_end increase (rev (root <$> l1)) ∧
  offset_siblings_after ctx al (root v) o =
    offset_siblings ctx al o decrease_start decrease (root <$> l2).
Proof.
  intros Hinv Hp Hk. destruct (ts_nodes _ _ (ri_tree _ _ _ Hinv) p Hp) as [Hch Hpar].
  assert (Hv : v ∈ kids p) by (rewrite Hk, elem_of_app; right; by left).
  pose proof (NoDup_kids_roots T p HndT Hp) as Hnd. rewrite Hk, fmap_app, fmap_cons in Hnd.
  apply NoDup_app in Hnd as (_ & Hd & _).
  unfold offset_siblings_before, offset_siblings_after. rewrite (get_parent_Ok _ _ _ (Hpar v Hv)).
  cbn [lift map_err mbind outcome_bind]. rewrite (get_children_Ok _ _ _ Hch). cbn [lift map_err mbind outcome_bind].
  rewrite Hk, fmap_app, fmap_cons. rewrite split_children_spec; [done|].
  intros Hin. apply (Hd _ Hin). by left.
Qed.

Abbreviation moved D := (moved T N D).

(** The siblings of a block that gave up [o], seen from the new store. *)
Lemma moved_siblings D ctx0 ctx1 p l1 v l2 o :
  moved D ctx0 ctx1 v o → p ∈ subs T → kids p = l1 ++ v :: l2 →
  ivl (ctx_store ctx1) (root p) = ivl (ctx_store ctx0) (root p) ∧
  (ivl (ctx_store ctx1) ∘ root <$> l1) = (ivl (ctx_store ctx0) ∘ root <$> l1) ∧
  (ivl (ctx_store ctx1) ∘ root <$> l2) = (ivl (ctx_store ctx0) ∘ root <$> l2).
Proof.
  intros (_ & Hsb & _) Hp Hk.
  assert (Hv : v ∈ kids p) by (rewrite Hk, elem_of_app; right; by left).
  pose proof (NoDup_fmap_1 _ _ (NoDup_kids_roots T p HndT Hp)) as Hndk. rewrite Hk in Hndk.
  apply NoDup_app in Hndk as (_ & Hd1 & [Hd2 _]%NoDup_cons).
  split.
  { apply (sb_ivl _ _ _ Hsb). rewrite elem_of_list_to_set. apply kid_not_root; [|done]. by eapply NoDup_labels_subs. }
  assert (Hsame : ∀ l : list tree, (∀ z, z ∈ l → z ∈ kids p ∧ z ≠ v) →
    (ivl (ctx_store ctx1) ∘ root <$> l) = (ivl (ctx_store ctx0) ∘ root <$> l)).
  { intros l Hl. apply list_fmap_ext. intros i z Hz%list_elem_of_lookup_2. destruct (Hl z Hz) as [Hzk Hzv]. simpl.
    apply (sb_ivl _ _ _ Hsb). rewrite elem_of_list_to_set. intros Hin. apply Hzv.
    eapply (siblings_disjoint T p z v (root z)); [done..|apply root_labels|done]. }
  split; apply Hsame; intros z Hz; (split; [rewrite Hk; apply elem_of_app; first [by left|right; by right]|]); intros ->.
  - apply (Hd1 v Hz). by left.
  - done.
Qed.

Lemma moved_before_nested ctx0 ctx1 p l1 v l2 o :
  rinv T N ctx0 → moved before ctx0 ctx1 v o → p ∈ subs T → kids p = l1 ++ v :: l2 →
  nested (start (ivl (ctx_store ctx1) (root p))) (ivl (ctx_store ctx1) ∘ root <$> l1)
    (start (ivl (ctx_store ctx1) (root v)) - o - 1).
Proof.
  intros Hinv Hm Hp Hk. destruct (moved_siblings _ _ _ p l1 v l2 o Hm Hp Hk) as (-> & -> & _).
  destruct Hm as (_ & _ & ->). simpl.
  assert (Hv : v ∈ kids p) by (rewrite Hk, elem_of_app; right; by left).
  pose proof (local_nested _ _ v (ri_ok _ _ _ Hinv p Hp) Hv) as Hn. rewrite Hk, fmap_app, fmap_cons in Hn.
  apply nested_app in Hn as (m & Hn & (Hm & _)). simpl in Hm. eapply nested_end_mono; [exact Hn|]. lia.
Qed.

Lemma moved_after_nested ctx0 ctx1 p l1 v l2 o :
  rinv T N ctx0 → moved after ctx0 ctx1 v o → p ∈ subs T → kids p = l1 ++ v :: l2 →
  nested (end_ (ivl (ctx_store ctx1) (root v)) + 1 + o) (ivl (ctx_store ctx1) ∘ root <$> l2)
    (end_ (ivl (ctx_store ctx1) (root p)) - 1).
Proof.
  intros Hinv Hm Hp Hk. destruct (moved_siblings _ _ _ p l1 v l2 o Hm Hp Hk) as (-> & _ & ->).
  destruct Hm as (_ & _ & ->). simpl.
  assert (Hv : v ∈ kids p) by (rewrite Hk, elem_of_app; right; by left).
  pose proof (local_nested _ _ v (ri_ok _ _ _ Hinv p Hp) Hv) as Hn. rewrite Hk, fmap_app, fmap_cons in Hn.
  apply nested_app in Hn as (m & Hn & (Hm & _ & Hn2)). eapply nested_start_mono; [exact Hn2|]. simpl. lia.
Qed.

(** The blocks below [c] are not below [a]. *)
Lemma below_c_free p x b :
  a ∈ kids q → c ∈ kids q → a ≠ c → p ∈ subs c → x ∈ kids p → b ∈ labels x → b ∉ labels a.
Proof.
  intros Ha Hc Hac Hp Hx Hb Hba. apply Hac. eapply (siblings_disjoint T q a c b); [done..|].
  eapply labels_subs; [exact Hp|]. eapply labels_subs; [by apply kids_subs|done].
Qed.

Lemma forest_labels_mono (l l' : list tree) b : (∀ x, x ∈ l → x ∈ l') → b ∈ forest_labels l → b ∈ forest_labels l'.
Proof. intros Hl. rewrite !elem_of_forest_labels. intros (x & Hx & Hb). eauto. Qed.
End Directions.

Section Before.
Context (T : tree) (Hbound : tsize T < U64_MAX) (HndT : NoDup (labels T)) (N : gset BlockHash).
Context (a q c R : tree) (Hq : q ∈ subs T) (HR : R ∈ subs c) (HN : ∀ b, b ∈ N → b ∈ labels a).
Context (la lb l2 : list tree) (Hk : kids q = la ++ a :: lb ++ c :: l2).

Lemma before_a : a ∈ kids q.
Proof. rewrite Hk, elem_of_app. right. by left. Qed.
Lemma before_c : c ∈ kids q.
Proof. rewrite Hk, elem_of_app. right. right. apply elem_of_app. right. by left. Qed.
Lemma before_ac : a ≠ c.
Proof.
  pose proof (NoDup_fmap_1 _ _ (NoDup_kids_roots T q HndT Hq)) as Hnd. rewrite Hk in Hnd.
  apply NoDup_app in Hnd as (_ & _ & [Ha _]%NoDup_cons). intros ->. apply Ha, elem_of_app. right. by left.
Qed.

Lemma before_gap_ok ctx v :
  rinv T N ctx → v ∈ subs T → kids v ≠ [] →
  ∃ r, dir_remaining before (ctx_store ctx) (root v) = Ok r ∧
    size (E:=ReachabilityError) r = Ok (dir_gap before (ctx_store ctx) v) ∧ 0 ≤ dir_gap before (ctx_store ctx) v ∧
    (∀ k, k ∈ kids v → dir_gap before (ctx_store ctx) v + width (ivl (ctx_store ctx) (root k)) < width (ivl (ctx_store ctx) (root v))) ∧
    ∀ o, 0 ≤ o ≤ dir_gap before (ctx_store ctx) v →
      nested (start (ivl (ctx_store ctx) (root v)) + o) (ivl (ctx_store ctx) ∘ root <$> kids v) (end_ (ivl (ctx_store ctx) (root v)) - 1).
Proof.
  intros Hinv Hv Hne. destruct (kids v) as [|k ks] eqn:Hks; [done|].
  assert (Hkv : k ∈ kids v) by (rewrite Hks; by left).
  pose proof (kids_full _ _ _ _ _ Hinv Hv Hkv) as Hf. destruct (ri_ok _ _ _ Hinv v Hv) as [Hi Hn].
  pose proof (local_nested _ _ k (ri_ok _ _ _ Hinv v Hv) Hkv) as Hnk.
  pose proof (kids_sub T v k Hv Hkv) as HkT. destruct (ri_ok _ _ _ Hinv k HkT) as [Hik _].
  destruct (ts_nodes _ _ (ri_tree _ _ _ Hinv) v Hv) as [Hch _].
  set (st := ctx_store ctx) in *. rewrite Hks in *. rewrite fmap_cons in Hnk. pose proof Hnk as (Hs & _ & Hn2). simpl in Hs, Hn2.
  exists (mkInterval (start (ivl st (root v))) (start (ivl st (root k)) - 1)).
  cbn [dir_remaining dir_gap before]. rewrite Hks. split.
  { unfold interval_remaining_before. rewrite (capacity_Ok st T v (ri_tree _ _ _ Hinv)) by done. cbn [mbind outcome_bind].
    rewrite (get_children_Ok _ _ _ Hch). cbn [mbind outcome_bind]. rewrite fmap_cons. cbn [head].
    rewrite get_interval_Ok by (eapply in_store; [apply Hinv|exact HkT]). cbn [mbind outcome_bind].
    unfold iv_ok in *. chk. done. }
  split; [unfold size, iv_ok in *; cbn [start end_]; chk; f_equal; lia|]. split; [lia|]. split.
  - intros k' Hk'. rewrite <- fmap_cons in Hnk.
    assert (Hn3 : nested (start (ivl st (root k))) (ivl st ∘ root <$> k :: ks) (end_ (ivl st (root v)) - 1)).
    { rewrite fmap_cons in Hnk |- *. destruct Hnk as (_ & ? & ?). split_and!; [simpl; lia|done|done]. }
    destruct (nested_bounds _ _ _ (ivl st (root k')) Hn3) as (? & ? & ?); [by apply (list_elem_of_fmap_2 (ivl st ∘ root))|].
    unfold width. lia.
  - intros o Ho. rewrite fmap_cons. destruct Hnk as (_ & ? & ?). split_and!; [simpl; lia|done|done].
Qed.

Lemma before_offset_ok ctx0 ctx1 v p o :
  rinv T N ctx0 → on_path c R p → v ∈ kids p → 0 ≤ o → moved T N before ctx0 ctx1 v o →
  ∃ ctx2, dir_offset before ctx1 (root a) (root v) o = Ok ctx2 ∧ rinv T N ctx2 ∧
    same_but (list_to_set (forest_labels (kids p))) (ctx_store ctx1) (ctx_store ctx2) ∧
    dir_gap before (ctx_store ctx2) p = dir_gap before (ctx_store ctx0) p + o.
Proof.
  intros Hinv [Hpc HRp] Hv Ho Hm. pose proof Hm as (Hinv1 & _ & Hiv1).
  assert (HpT : p ∈ subs T).
  { eapply subs_trans; [exact Hpc|]. eapply subs_trans; [apply kids_subs, before_c|done]. }
  assert (Hfree : ∀ x b, x ∈ kids p → b ∈ labels x → b ∉ labels a).
  { intros x b. eapply (below_c_free T HndT); [exact Hq|apply before_a|apply before_c|apply before_ac|done]. }
  pose proof Hv as (l1 & l2' & Hkp)%list_elem_of_split.
  pose proof (moved_before_nested T HndT N ctx0 ctx1 p l1 v l2' o Hinv Hm HpT Hkp) as Hn.
  destruct (moved_siblings T HndT N before ctx0 ctx1 p l1 v l2' o Hm HpT Hkp) as (Hip & Hi1 & _).
  edestruct (shift_right T Hbound HndT N ctx1 p [] l1 v l2' o (root a) []) as (ctx2 & Hoff & Hinv2 & Hsb & Hsh);
    [exact Hinv1|exact HpT|exact Hkp|exact Ho| | |exact Hn|].
  { intros (x & Hax & Hx)%list_elem_of_fmap. eapply (Hfree x (root x)); [rewrite Hkp; apply elem_of_app; by left|apply root_labels|].
    rewrite <- Hax. apply root_labels. }
  { intros x b Hx Hb Hin%HN. eapply (Hfree x b); [rewrite Hkp; apply elem_of_app; by left|done|done]. }
  exists ctx2. cbn [dir_offset before].
  rewrite (proj1 (offset_before_unfold T HndT N ctx1 p l1 v l2' (root a) o Hinv1 HpT Hkp)).
  rewrite app_nil_r in Hoff. split; [exact Hoff|]. split; [done|]. split.
  { eapply same_but_weaken; [|exact Hsb]. intros b. rewrite !elem_of_list_to_set. apply forest_labels_mono.
    intros x Hx. rewrite Hkp. apply elem_of_app. by left. }
  assert (Hout : ∀ b, (∀ x, x ∈ l1 → b ∉ labels x) → ivl (ctx_store ctx2) b = ivl (ctx_store ctx1) b).
  { intros b Hb. apply (sb_ivl _ _ _ Hsb). rewrite elem_of_list_to_set, elem_of_forest_labels. naive_solver. }
  assert (Hip2 : ivl (ctx_store ctx2) (root p) = ivl (ctx_store ctx0) (root p)).
  { rewrite Hout; [done|]. intros x Hx. apply kid_not_root; [by eapply NoDup_labels_subs|].
    rewrite Hkp. apply elem_of_app. by left. }
  cbn [dir_gap before]. rewrite Hip2, Hkp. destruct l1 as [|x l1]; cbn [app].
  - rewrite Hout by (by intros x ?%elem_of_nil). rewrite Hiv1. simpl. lia.
  - rewrite Hi1 in Hsh. rewrite !fmap_cons in Hsh. injection Hsh as Hx _. simpl in Hx. rewrite Hx. simpl. lia.
Qed.

Lemma before_alloc_ok ctx0 ctx1 o :
  rinv T N ctx0 → 0 ≤ o → tsize a ≤ o → moved T N before ctx0 ctx1 c o →
  ∃ ctx2, dir_offset before ctx1 (root a) (root c) o = Ok ctx2 ∧ rinv T (N ∖ list_to_set (labels a)) ctx2 ∧
    same_shape (ctx_store ctx1) (ctx_store ctx2).
Proof.
  intros Hinv Ho Hsz Hm. pose proof Hm as (Hinv1 & _ & Hiv1).
  assert (Hkq : kids q = (la ++ a :: lb) ++ c :: l2) by (by rewrite Hk, <- app_assoc).
  assert (Hkq' : kids q = (la ++ [a]) ++ lb ++ c :: l2) by (by rewrite Hk, <- app_assoc).
  pose proof (moved_before_nested T HndT N ctx0 ctx1 q (la ++ a :: lb) c l2 o Hinv Hm Hq Hkq) as Hn.
  rewrite fmap_app, fmap_cons in Hn. apply nested_app in Hn as (m & _ & (_ & Hia & Hn)).
  pose proof (NoDup_kids_roots T q HndT Hq) as Hnd. rewrite Hk, fmap_app, fmap_cons, fmap_app in Hnd.
  apply NoDup_app in Hnd as (_ & _ & [Ha _]%NoDup_cons).
  assert (Hlb : ∀ x, x ∈ lb → x ∈ kids q ∧ x ≠ a).
  { intros x Hx. split; [rewrite Hkq', !elem_of_app; right; by left|]. intros ->.
    apply Ha, elem_of_app. left. by apply list_elem_of_fmap_2. }
  assert (HcT : c ∈ subs T) by (apply (kids_sub T q); [done|apply before_c]).
  destruct (ri_ok _ _ _ Hinv1 c HcT) as [Hic1 _].
  edestruct (shift_right T Hbound HndT N ctx1 q (la ++ [a]) lb c l2 o (root a) (root a :: rev (root <$> la)))
    as (ctx2 & Hoff & Hinv2 & Hsb & Hsh); [exact Hinv1|exact Hq|exact Hkq'|exact Ho| | |exact Hn|].
  { intros Hin. apply Ha, elem_of_app. by left. }
  { intros x b Hx Hb Hin%HN. destruct (Hlb x Hx) as [Hxk Hxa]. apply Hxa.
    eapply (siblings_disjoint T q x a b); [done..|apply before_a|done|done]. }
  assert (Hout : ∀ b, (∀ x, x ∈ lb → b ∉ labels x) → ivl (ctx_store ctx2) b = ivl (ctx_store ctx1) b).
  { intros b Hb. apply (sb_ivl _ _ _ Hsb). rewrite elem_of_list_to_set, elem_of_forest_labels. naive_solver. }
  assert (Hia2 : ivl (ctx_store ctx2) (root a) = ivl (ctx_store ctx1) (root a)).
  { apply Hout. intros x Hx Hin. destruct (Hlb x Hx) as [Hxk Hxa]. apply Hxa.
    eapply (siblings_disjoint T q x a (root a)); [done..|apply before_a|done|apply root_labels]. }
  assert (Hic2 : ivl (ctx_store ctx2) (root c) = ivl (ctx_store ctx1) (root c)).
  { apply Hout. intros x Hx Hin. destruct (Hlb x Hx) as [Hxk Hxa].
    assert (x = c) as ->; [eapply (siblings_disjoint T q x c (root c)); [done..|apply before_c|done|apply root_labels]|].
    pose proof (NoDup_fmap_1 _ _ (NoDup_kids_roots T q HndT Hq)) as Hnd. rewrite Hkq in Hnd.
    apply NoDup_app in Hnd as (_ & Hd & _). apply (Hd c); [|by left]. apply elem_of_app. right. by right. }
  cbn [dir_offset before].
  rewrite (proj1 (offset_before_unfold T HndT N ctx1 q _ c l2 (root a) o Hinv1 Hq Hkq)).
  rewrite fmap_app, fmap_cons, rev_app_distr. cbn [rev]. rewrite <- app_assoc. cbn [app]. rewrite Hoff.
  cbn [offset_siblings]. rewrite Z.eqb_refl.
  simpl in Hia. change ((ivl (ctx_store ctx1) ∘ root) a) with (ivl (ctx_store ctx1) (root a)) in Hn.
  set (ia := ivl (ctx_store ctx1) (root a)) in *. set (ic := ivl (ctx_store ctx1) (root c)) in *.
  pose proof (nested_empty_bound _ _ _ Hn) as Hgap. simpl in Hgap.
  apply (nested_shift _ _ _ o) in Hn; [|unfold iv_ok in *; simpl in *; lia|unfold iv_ok in *; lia].
  rewrite <- Hsh in Hn.
  assert (Hiva : iv_ok (mkInterval (start ia) (end_ ia + o))) by (unfold iv_ok, ia, ic in *; simpl in *; lia).
  edestruct (apply_interval_op_and_propagate_spec T Hbound N ctx2 a o increase_end (mkInterval (start ia) (end_ ia + o)))
    as (ctx3 & -> & Hinv3 & Hsb3 & _); [exact Hinv2|apply (kids_sub T q); [done|apply before_a]| |exact Hiva| | |].
  - rewrite Hia2. fold ia. unfold increase_end, iv_ok in *. simpl in Hiva. chk. done.
  - unfold iv_ok, width in *. simpl in *. lia.
  - apply (fits_at T _ q la a (lb ++ c :: l2)); [done..|].
    pose proof (local_nested _ _ a (ri_ok _ _ _ Hinv2 q Hq) before_a) as Hnq. rewrite Hk, fmap_app, fmap_cons in Hnq.
    pose proof Hnq as (m2 & Hn2 & (Hm2 & _ & Hn3))%nested_app. simpl in Hm2. rewrite Hia2 in Hm2. fold ia in Hm2.
    eapply (nested_replace _ _ _ _ _ _ m2 (end_ ia + 1 + o)); [exact Hnq|exact Hiva|exact Hn2| |simpl; lia|simpl; lia].
    rewrite fmap_app, fmap_cons in Hn3 |- *. apply nested_app in Hn3 as (m4 & _ & (_ & ? & ?)).
    apply nested_app. eexists. split; [exact Hn|]. split_and!; [simpl; rewrite Hic2; fold ic; lia|done|done].
  - exists ctx3. split; [done|]. split; [done|].
    eapply same_shape_trans; eapply same_but_shape; [exact Hsb|exact Hsb3].
Qed.

#[local] Instance before_ok : DirectionOk T N a c R before.
Proof using HN HR Hbound HndT Hk Hq.
  split.
  - intros i o (H1 & H2 & H3) Ho. unfold width in Ho. cbn [dir_op dir_shrink before]. unfold increase_start. chk. done.
  - intros i o (H1 & H2 & H3) Ho. unfold width, iv_ok in *. cbn [dir_shrink before start end_]. lia.
  - apply before_gap_ok.
  - intros ctx0 ctx1 v p o H1 _ H3 H4 [H5 _] H6. by apply before_offset_ok.
  - intros ctx0 ctx1 o H1 [H2 _] H3 H4. by apply (before_alloc_ok ctx0).
  - intros st st' S v Hsb Hv Hks. cbn [dir_gap before]. destruct (kids v) as [|k ks]; [done|].
    rewrite !(sb_ivl _ _ _ Hsb); [done|done|]. apply Hks. by left.
Qed.
End Before.

Section After.
Context (T : tree) (Hbound : tsize T < U64_MAX) (HndT : NoDup (labels T)) (N : gset BlockHash).
Context (a q c R : tree) (Hq : q ∈ subs T) (HR : R ∈ subs c) (HN : ∀ b, b ∈ N → b ∈ labels a).
Context (la lb l2 : list tree) (Hk : kids q = la ++ c :: lb ++ a :: l2).

Lemma after_a : a ∈ kids q.
Proof. rewrite Hk, elem_of_app. right. right. apply elem_of_app. right. by left. Qed.
Lemma after_c : c ∈ kids q.
Proof. rewrite Hk, elem_of_app. right. by left. Qed.
Lemma after_ac : a ≠ c.
Proof.
  pose proof (NoDup_fmap_1 _ _ (NoDup_kids_roots T q HndT Hq)) as Hnd. rewrite Hk in Hnd.
  apply NoDup_app in Hnd as (_ & _ & [Ha _]%NoDup_cons). intros ->. apply Ha, elem_of_app. right. by left.
Qed.

Lemma after_gap_ok ctx v :
  rinv T N ctx → v ∈ subs T → kids v ≠ [] →
  ∃ r, dir_remaining after (ctx_store ctx) (root v) = Ok r ∧
    size (E:=ReachabilityError) r = Ok (dir_gap after (ctx_store ctx) v) ∧ 0 ≤ dir_gap after (ctx_store ctx) v ∧
    (∀ k, k ∈ kids v → dir_gap after (ctx_store ctx) v + width (ivl (ctx_store ctx) (root k)) < width (ivl (ctx_store ctx) (root v))) ∧
    ∀ o, 0 ≤ o ≤ dir_gap after (ctx_store ctx) v →
      nested (start (ivl (ctx_store ctx) (root v))) (ivl (ctx_store ctx) ∘ root <$> kids v) (end_ (ivl (ctx_store ctx) (root v)) - o - 1).
Proof.
  intros Hinv Hv Hne. destruct (exists_last Hne) as (ks & k & Hks).
  assert (Hkv : k ∈ kids v) by (rewrite Hks, elem_of_app; right; by left).
  pose proof (kids_full _ _ _ _ _ Hinv Hv Hkv) as Hf. destruct (ri_ok _ _ _ Hinv v Hv) as [Hi Hn].
  pose proof (local_nested _ _ k (ri_ok _ _ _ Hinv v Hv) Hkv) as Hnk.
  pose proof (kids_sub T v k Hv Hkv) as HkT. destruct (ri_ok _ _ _ Hinv k HkT) as [Hik _].
  destruct (ts_nodes _ _ (ri_tree _ _ _ Hinv) v Hv) as [Hch _].
  set (st := ctx_store ctx) in *. rewrite Hks in *. rewrite fmap_app in Hnk.
  apply nested_app in Hnk as (m & Hn1 & (Hm & _ & Hn2)). simpl in Hm, Hn2.
  exists (mkInterval (end_ (ivl st (root k)) + 1) (end_ (ivl st (root v)) - 1)).
  cbn [dir_remaining dir_gap after]. rewrite Hks, last_snoc. split.
  { unfold interval_remaining_after. rewrite (capacity_Ok st T v (ri_tree _ _ _ Hinv)) by done. cbn [mbind outcome_bind].
    rewrite (get_children_Ok _ _ _ Hch). cbn [mbind outcome_bind]. rewrite fmap_app. cbn [fmap list_fmap]. rewrite last_snoc.
    rewrite get_interval_Ok by (eapply in_store; [apply Hinv|exact HkT]). cbn [mbind outcome_bind].
    unfold iv_ok in *. chk. done. }
  split; [unfold size, iv_ok in *; cbn [start end_]; chk; f_equal; lia|]. split; [lia|].
  assert (Hn3 : ∀ e, end_ (ivl st (root k)) ≤ e → nested (start (ivl st (root v))) (ivl st ∘ root <$> ks ++ [k]) e).
  { intros e He. rewrite fmap_app. apply nested_app. exists m. split; [done|]. simpl. split_and!; [lia|done|lia]. }
  split.
  - intros k' Hk'. destruct (nested_bounds _ _ _ (ivl st (root k')) (Hn3 _ (Z.le_refl _))) as (? & ? & ?);
      [by apply (list_elem_of_fmap_2 (ivl st ∘ root))|]. unfold width. lia.
  - intros o Ho. apply Hn3. lia.
Qed.

Lemma after_offset_ok ctx0 ctx1 v p o :
  rinv T N ctx0 → on_path c R p → v ∈ kids p → 0 ≤ o → moved T N after ctx0 ctx1 v o →
  ∃ ctx2, dir_offset after ctx1 (root a) (root v) o = Ok ctx2 ∧ rinv T N ctx2 ∧
    same_but (list_to_set (forest_labels (kids p))) (ctx_store ctx1) (ctx_store ctx2) ∧
    dir_gap after (ctx_store ctx2) p = dir_gap after (ctx_store ctx0) p + o.
Proof.
  intros Hinv [Hpc HRp] Hv Ho Hm. pose proof Hm as (Hinv1 & _ & Hiv1).
  assert (HpT : p ∈ subs T).
  { eapply subs_trans; [exact Hpc|]. eapply subs_trans; [apply kids_subs, after_c|done]. }
  assert (Hfree : ∀ x b, x ∈ kids p → b ∈ labels x → b ∉ labels a).
  { intros x b. eapply (below_c_free T HndT); [exact Hq|apply after_a|apply after_c|apply after_ac|done]. }
  pose proof Hv as (l1 & lr & Hkp)%list_elem_of_split.
  assert (Hkp' : kids p = l1 ++ v :: lr ++ []) by (by rewrite app_nil_r).
  assert (Hlr : ∀ x, x ∈ lr → x ∈ kids p) by (intros x Hx; rewrite Hkp, elem_of_app; right; by right).
  pose proof (moved_after_nested T HndT N ctx0 ctx1 p l1 v lr o Hinv Hm HpT Hkp) as Hn.
  destruct (moved_siblings T HndT N after ctx0 ctx1 p l1 v lr o Hm HpT Hkp) as (Hip & _ & Hi2).
  edestruct (shift_left T Hbound HndT N ctx1 p l1 v lr [] o (root a) []) as (ctx2 & Hoff & Hinv2 & Hsb & Hsh);
    [exact Hinv1|exact HpT|exact Hkp'|exact Ho| | |exact Hn|].
  { intros (x & Hax & Hx)%list_elem_of_fmap. eapply (Hfree x (root x)); [by apply Hlr|apply root_labels|].
    rewrite <- Hax. apply root_labels. }
  { intros x b Hx Hb Hin%HN. by eapply (Hfree x b); [apply Hlr|..]. }
  exists ctx2. cbn [dir_offset after].
  rewrite (proj2 (offset_before_unfold T HndT N ctx1 p l1 v lr (root a) o Hinv1 HpT Hkp)).
  rewrite app_nil_r in Hoff. split; [exact Hoff|]. split; [done|]. split.
  { eapply same_but_weaken; [|exact Hsb]. intros b. rewrite !elem_of_list_to_set. by apply forest_labels_mono. }
  assert (Hout : ∀ b, (∀ x, x ∈ lr → b ∉ labels x) → ivl (ctx_store ctx2) b = ivl (ctx_store ctx1) b).
  { intros b Hb. apply (sb_ivl _ _ _ Hsb). rewrite elem_of_list_to_set, elem_of_forest_labels. naive_solver. }
  assert (Hip2 : ivl (ctx_store ctx2) (root p) = ivl (ctx_store ctx0) (root p)).
  { rewrite Hout; [done|]. intros x Hx. apply kid_not_root; [by eapply NoDup_labels_subs|by apply Hlr]. }
  cbn [dir_gap after]. rewrite Hip2, Hkp. destruct (decide (lr = [])) as [->|Hne].
  - rewrite last_snoc. rewrite Hout by (by intros x ?%elem_of_nil). rewrite Hiv1. simpl. lia.
  - destruct (exists_last Hne) as (ks & k & ->). rewrite app_comm_cons, app_assoc, last_snoc.
    rewrite Hi2 in Hsh. rewrite !fmap_app in Hsh. apply app_inj_2 in Hsh as [_ Hx]; [|done].
    simpl in Hx. injection Hx as Hx. rewrite Hx. simpl. lia.
Qed.

Lemma after_alloc_ok ctx0 ctx1 o :
  rinv T N ctx0 → 0 ≤ o → tsize a ≤ o → moved T N after ctx0 ctx1 c o →
  ∃ ctx2, dir_offset after ctx1 (root a) (root c) o = Ok ctx2 ∧ rinv T (N ∖ list_to_set (labels a)) ctx2 ∧
    same_shape (ctx_store ctx1) (ctx_store ctx2).
Proof.
  intros Hinv Ho Hsz Hm. pose proof Hm as (Hinv1 & _ & Hiv1).
  pose proof (moved_after_nested T HndT N ctx0 ctx1 q la c (lb ++ a :: l2) o Hinv Hm Hq Hk) as Hn.
  rewrite fmap_app, fmap_cons in Hn. apply nested_app in Hn as (m & Hn & (Hma & Hia & _)). simpl in Hma.
  apply (nested_end_mono _ _ _ (start (ivl (ctx_store ctx1) (root a)) - 1)) in Hn; [|lia].
  pose proof (NoDup_fmap_1 _ _ (NoDup_kids_roots T q HndT Hq)) as Hnd. rewrite Hk in Hnd.
  apply NoDup_app in Hnd as (_ & _ & [Hc Hnd]%NoDup_cons). apply NoDup_app in Hnd as (_ & Hda & _).
  assert (Hlb : ∀ x, x ∈ lb → x ∈ kids q ∧ x ≠ a ∧ x ≠ c).
  { intros x Hx. split; [rewrite Hk, elem_of_app; right; right; apply elem_of_app; by left|]. split; intros ->.
    - apply (Hda a Hx). by left.
    - apply Hc, elem_of_app. by left. }
  assert (HcT : c ∈ subs T) by (apply (kids_sub T q); [done|apply after_c]).
  destruct (ri_ok _ _ _ Hinv1 c HcT) as [Hic1 _].
  edestruct (shift_left T Hbound HndT N ctx1 q la c lb (a :: l2) o (root a) (root a :: (root <$> l2)))
    as (ctx2 & Hoff & Hinv2 & Hsb & Hsh); [exact Hinv1|exact Hq|exact Hk|exact Ho| | |exact Hn|].
  { intros (x & Hxa & Hx)%list_elem_of_fmap. destruct (Hlb x Hx) as (Hxk & Hne & _). apply Hne.
    eapply (siblings_disjoint T q x a (root x)); [done..|apply after_a|apply root_labels|rewrite <- Hxa; apply root_labels]. }
  { intros x b Hx Hb Hin%HN. destruct (Hlb x Hx) as (Hxk & Hxa & _). apply Hxa.
    eapply (siblings_disjoint T q x a b); [done..|apply after_a|done|done]. }
  assert (Hout : ∀ y, y ∈ kids q → y ∉ lb → ivl (ctx_store ctx2) (root y) = ivl (ctx_store ctx1) (root y)).
  { intros y Hy Hyl. apply (sb_ivl _ _ _ Hsb). rewrite elem_of_list_to_set. intros (x & Hx & Hin)%elem_of_forest_labels.
    assert (x = y) as ->; [|done]. destruct (Hlb x Hx) as (Hxk & _).
    eapply (siblings_disjoint T q x y (root y)); [done..|apply root_labels]. }
  pose proof (Hout a after_a ltac:(intros Hx; by destruct (Hlb a Hx) as (_ & ? & _))) as Hia2.
  pose proof (Hout c after_c ltac:(intros Hx; by destruct (Hlb c Hx) as (_ & _ & ?))) as Hic2.
  cbn [dir_offset after].
  rewrite (proj2 (offset_before_unfold T HndT N ctx1 q la c _ (root a) o Hinv1 Hq Hk)).
  rewrite fmap_app, fmap_cons, Hoff. cbn [offset_siblings]. rewrite Z.eqb_refl. simpl in Hia.
  set (ia := ivl (ctx_store ctx1) (root a)) in *. set (ic := ivl (ctx_store ctx1) (root c)) in *.
  pose proof (nested_empty_bound _ _ _ Hn) as Hgap.
  apply (nested_shift _ _ _ (- o)) in Hn; [|unfold iv_ok in *; lia|unfold iv_ok in *; lia].
  rewrite <- Hsh in Hn.
  assert (Hiva : iv_ok (mkInterval (start ia - o) (end_ ia))) by (unfold iv_ok in *; simpl in *; lia).
  edestruct (apply_interval_op_and_propagate_spec T Hbound N ctx2 a o decrease_start (mkInterval (start ia - o) (end_ ia)))
    as (ctx3 & -> & Hinv3 & Hsb3 & _); [exact Hinv2|apply (kids_sub T q); [done|apply after_a]| |exact Hiva| | |].
  - rewrite Hia2. unfold decrease_start, iv_ok in *. simpl in Hiva. chk. done.
  - unfold iv_ok, width in *. simpl in *. lia.
  - apply (fits_at T _ q (la ++ c :: lb) a l2); [done|done|by rewrite Hk, <- app_assoc|].
    pose proof (local_nested _ _ a (ri_ok _ _ _ Hinv2 q Hq) after_a) as Hnq.
    assert (Hkq : kids q = (la ++ c :: lb) ++ a :: l2) by (by rewrite Hk, <- app_assoc).
    rewrite Hkq, (fmap_app _ (la ++ c :: lb)), (fmap_cons _ a) in Hnq.
    pose proof Hnq as (m2 & Hn2 & (Hm2 & _ & Hn3))%nested_app. simpl in Hm2, Hn3. rewrite Hia2 in Hm2, Hn3.
    eapply (nested_replace _ _ _ _ _ _ (start ia - o - 1) (end_ ia + 1)); [exact Hnq|exact Hiva| |exact Hn3|simpl; lia|simpl; lia].
    rewrite fmap_app, fmap_cons in Hn2 |- *. apply nested_app in Hn2 as (m4 & Hn4 & (? & ? & _)).
    apply nested_app. exists m4. split; [done|]. split; [done|]. split; [done|].
    simpl. rewrite Hic2. replace (end_ ic + 1) with (end_ ic + 1 + o + - o) by lia.
    by replace (start ia - o - 1) with (start ia - 1 + - o) by lia.
  - exists ctx3. split; [done|]. split; [done|].
    eapply same_shape_trans; eapply same_but_shape; [exact Hsb|exact Hsb3].
Qed.

#[local] Instance after_ok : DirectionOk T N a c R after.
Proof using HN HR Hbound HndT Hk Hq.
  split.
  - intros i o (H1 & H2 & H3) Ho. unfold width in Ho. cbn [dir_op dir_shrink after]. unfold decrease_end. chk. done.
  - intros i o (H1 & H2 & H3) Ho. unfold width, iv_ok in *. cbn [dir_shrink after start end_]. lia.
  - apply after_gap_ok.
  - intros ctx0 ctx1 v p o H1 _ H3 H4 [H5 _] H6. by apply after_offset_ok.
  - intros ctx0 ctx1 o H1 [H2 _] H3 H4. by apply (after_alloc_ok ctx0).
  - intros st st' S v Hsb Hv Hks. cbn [dir_gap after]. destruct (last (kids v)) as [k|] eqn:Hl; [|done].
    rewrite !(sb_ivl _ _ _ Hsb); [done| |done]. apply Hks. by apply last_Some_elem_of.
Qed.
End After.

(** ** The climb from the new block *)

Section Climb.
Context (T : tree) (Hbound : tsize T < U64_MAX) (HndT : NoDup (labels T)).
Context (new : BlockHash) (R : tree) (HR : R ∈ subs T) (HRnew : root R ≠ new).
Context (Hleaf : Node new [] ∈ subs T).
Context (Hlast : ∀ q, q ∈ subs T → Node new [] ∈ kids q → last (kids q) = Some (Node new [])).
Context (slack : Z) (Hslack : 0 ≤ slack).

Lemma new_sub v : v ∈ subs T → root v = new → v = Node new [].
Proof. intros Hv Hr. by eapply (subs_root_inj T). Qed.

Lemma full_but_new ctx v : rinv T {[new]} ctx → v ∈ subs T → root v ≠ new → full (ctx_store ctx) (root v).
Proof.
  intros Hinv Hv Hne. apply (ri_full _ _ _ Hinv); [apply elem_of_labels; eauto|]. by rewrite elem_of_singleton.
Qed.

(** Reindexing in a sibling subtree of the chain of the reindex root. *)
Lemma earlier_than_root_spec ctx q v :
  rinv T {[new]} ctx → q ∈ subs T → v ∈ kids q → R ∈ subs q → R ∉ subs v → q ≠ R → Node new [] ∈ subs v →
  (slack + 2) * tsize T ≤ width (ivl (ctx_store ctx) (root R)) →
  ∃ ctx', reindex_intervals_earlier_than_root slack ctx (root v) (root R) (root q) (tsize v) = Ok ctx' ∧
    rinv T ∅ ctx' ∧ same_shape (ctx_store ctx) (ctx_store ctx').
Proof.
  intros Hinv Hq Hv HRq HRv Hne Hnew Hcap. unfold reindex_intervals_earlier_than_root.
  pose proof (ri_tree _ _ _ Hinv) as HT. pose proof (ri_ok _ _ _ Hinv) as Hok.
  assert (HfR : full (ctx_store ctx) (root R)) by (by apply full_but_new).
  assert (Hkid : ∃ k i, kids q !! i = Some k ∧ R ∈ subs k) .
  { destruct q as [b ts]. apply subs_node in HRq as [?|(k & Hk & HRk)]; [congruence|].
    apply list_elem_of_lookup in Hk as [i Hi]. exists k, i. done. }
  destruct Hkid as (k0 & i0 & Hi0 & HRk0).
  assert (Hk0 : k0 ∈ kids q) by (by eapply list_elem_of_lookup_2).
  assert (Hk0T : k0 ∈ subs T) by (by apply (kids_sub T q)).
  assert (Hokk : ∀ s, s ∈ subs T → intervals_ok (ctx_store ctx) s) by (intros s Hs u Hu; apply Hok; by eapply subs_trans).
  (* a child of [q] that may be empty is the new block, after the chain of the reindex root *)
  assert (Hkf : ∀ k, k ∈ kids q → full (ctx_store ctx) (root k) ∨
    last (kids q) = Some k ∧ end_ (ivl (ctx_store ctx) (root R)) < start (ivl (ctx_store ctx) (root k))).
  { intros k Hk. pose proof (kids_sub T q k Hq Hk) as HkT. destruct (decide (root k = new)) as [Hkn|Hkn].
    - right. rewrite (new_sub k HkT Hkn) in *. split; [by apply Hlast|].
      pose proof (Hlast q Hq Hk) as Hl. rewrite last_lookup in Hl.
      assert (i0 ≠ pred (length (kids q))).
      { intros ->. rewrite Hi0 in Hl. injection Hl as ->. apply subs_node in HRk0 as [->|(?&[]%elem_of_nil&_)]. done. }
      apply lookup_lt_Some in Hi0 as Hlt.
      pose proof (kids_disjoint (ctx_store ctx) q k0 _ i0 _ (Hok q Hq) Hi0 Hl ltac:(lia)) as Hd.
      destruct (descendant_interval (ctx_store ctx) k0 R (Hokk _ Hk0T) HRk0) as [_ [->|?]]; simpl in *; lia.
    - left. by apply full_but_new. }
  destruct (next_chain_ancestor_spec (ctx_store ctx) T HT Hok q R) as (c & Hc & HRc & Hnext); [exact Hq|exact HRq|congruence|exact HfR|exact Hkf|].
  rewrite Hnext. cbn [mbind outcome_bind]. pose proof (kids_sub T q v Hq Hv) as HvT. pose proof (kids_sub T q c Hq Hc) as HcT.
  rewrite !get_interval_Ok by (eapply in_store; [exact HT|done]). cbn [lift map_err mbind outcome_bind].
  assert (Hvc : v ≠ c) by congruence.
  assert (Hcn : root c ≠ new).
  { intros Heq. rewrite (new_sub c HcT Heq) in HRc. apply subs_node in HRc as [->|(?&[]%elem_of_nil&_)]. done. }
  pose proof (full_but_new ctx c Hinv HcT Hcn) as Hfc.
  assert (HN : ∀ b, b ∈ ({[new]} : gset BlockHash) → b ∈ labels v).
  { intros b ->%elem_of_singleton. apply elem_of_labels. eauto. }
  assert (HNv : {[new]} ∖ list_to_set (labels v) ⊆ (∅ : gset BlockHash)).
  { intros b [Hb Hb2]%elem_of_difference. exfalso. apply Hb2, elem_of_list_to_set. by apply HN. }
  pose proof (tsize_sub v T HvT). pose proof (tsize_sub R T HR).
  assert (Hcap' : tsize R + tsize v + slack * tsize T ≤ width (ivl (ctx_store ctx) (root R))) by lia.
  assert (Hfuel : (Z.to_nat (tsize T) < S (base.size (map (ctx_store ctx))))%nat).
  { rewrite (count_labels _ _ HT). unfold tsize. lia. }
  pose proof Hv as (iv & Hiv)%list_elem_of_lookup. pose proof Hc as (ic & Hic)%list_elem_of_lookup.
  assert (Hord : (iv < ic)%nat ∨ (ic < iv)%nat).
  { destruct (Nat.lt_trichotomy iv ic) as [?|[->|?]]; [by left| |by right]. congruence. }
  destruct Hord as [Hlt|Hlt].
  - assert (Hvn : root v ≠ new).
    { intros Heq. rewrite (new_sub v HvT Heq) in *. pose proof (Hlast q Hq Hv) as Hl. rewrite last_lookup in Hl.
      assert (iv = pred (length (kids q))) as ->.
      { eapply NoDup_lookup; [exact (NoDup_fmap_1 _ _ (NoDup_kids_roots T q HndT Hq))|done|done]. }
      apply lookup_lt_Some in Hic. lia. }
    pose proof (full_but_new ctx v Hinv HvT Hvn) as Hfv.
    pose proof (kids_disjoint (ctx_store ctx) q v c iv ic (Hok q Hq) Hiv Hic Hlt) as Hd. unfold full in *.
    rewrite (proj2 (Z.ltb_lt _ _)) by lia. unfold reclaim_interval_before.
    assert (count (ctx_store ctx) = Ok (base.size (map (ctx_store ctx)))) as -> by done. cbn [lift map_err mbind outcome_bind].
    destruct (two_splits _ _ _ _ _ Hlt Hiv Hic) as (la & lb & lc & Hkq).
    pose proof (before_ok T Hbound HndT {[new]} v q c R Hq HRc HN la lb lc Hkq) as HD.
    destruct (reclaim_spec T Hbound {[new]} v q c R Hq Hv Hc Hvc HRc HN before HndT slack ctx _ Hfuel Hslack Hinv Hcap')
      as (ctx' & Hrec & Hi & Hsh).
    exists ctx'. split; [exact Hrec|]. split; [|done]. by eapply rinv_mono.
  - pose proof (kids_disjoint (ctx_store ctx) q c v ic iv (Hok q Hq) Hic Hiv Hlt) as Hd. unfold full in *.
    rewrite (proj2 (Z.ltb_ge _ _)) by lia. unfold reclaim_interval_after.
    assert (count (ctx_store ctx) = Ok (base.size (map (ctx_store ctx)))) as -> by done. cbn [lift map_err mbind outcome_bind].
    destruct (two_splits _ _ _ _ _ Hlt Hic Hiv) as (la & lb & lc & Hkq).
    pose proof (after_ok T Hbound HndT {[new]} v q c R Hq HRc HN la lb lc Hkq) as HD.
    destruct (reclaim_spec T Hbound {[new]} v q c R Hq Hv Hc Hvc HRc HN after HndT slack ctx _ Hfuel Hslack Hinv Hcap')
      as (ctx' & Hrec & Hi & Hsh).
    exists ctx'. split; [exact Hrec|]. split; [|done]. by eapply rinv_mono.
Qed.

(** Reassigning the subtree of a block with room repairs the new block. *)
Lemma propagate_new_spec ctx v :
  rinv T {[new]} ctx → v ∈ subs T → Node new [] ∈ subs v → tsize v ≤ width (ivl (ctx_store ctx) (root v)) →
  ∃ ctx', propagate_interval ctx (root v) = Ok ctx' ∧ rinv T ∅ ctx' ∧ same_shape (ctx_store ctx) (ctx_store ctx').
Proof.
  intros [HT Hok Hfull Hsz] Hv Hnew Hw.
  destruct (propagate_interval_spec ctx T v) as (st' & sizes' & -> & Hsz' & Hsb & Hin); [done..|split; [by apply Hok|done]|].
  eexists. split; [done|]. split; [|by eapply same_but_shape].
  assert (Hndv : NoDup (labels v)) by (by eapply NoDup_labels_subs).
  assert (Hrv : root v ∉ below [v]).
  { intros (u & ->%list_elem_of_singleton & Hu)%elem_of_below. destruct v. by apply NoDup_labels_node in Hndv as [? _]. }
  assert (Hsb' : same_but (list_to_set (labels v)) (ctx_store ctx) st').
  { eapply same_but_weaken; [|exact Hsb]. intros x. rewrite elem_of_below, elem_of_list_to_set.
    intros (u & ->%list_elem_of_singleton & Hu). destruct v. rewrite labels_node. by right. }
  split; cbn [ctx_store subtree_sizes]; [by eapply same_but_tree| | |done].
  - eapply (resize_intervals_ok T (ctx_store ctx) st' v); [done..| |].
    + intros s Hs. by apply Hin.
    + intros p l1 l2 Hp Hk. rewrite (sb_ivl _ _ _ Hsb) by done.
      assert (Hvp : v ∈ kids p) by (rewrite Hk, elem_of_app; right; by left).
      pose proof (local_nested _ _ v (Hok p Hp) Hvp) as Hn. by rewrite Hk, fmap_app, fmap_cons in Hn.
  - intros b Hb _. destruct (decide (b ∈ labels v)) as [Hbv|Hbv].
    + apply elem_of_labels in Hbv as (s & Hs & <-). destruct (Hin s Hs) as [_ [_ Hws]].
      pose proof (tsize_pos s). unfold full, width in *. lia.
    + unfold full. rewrite (sb_ivl _ _ _ Hsb') by (by rewrite elem_of_list_to_set). apply Hfull; [done|].
      intros ->%elem_of_singleton. apply Hbv, elem_of_labels. eauto.
Qed.

Lemma reindex_intervals_loop_spec fuel ctx v :
  rinv T {[new]} ctx → v ∈ subs T → Node new [] ∈ subs v → v ∈ subs R ∨ (R ∉ subs v ∧ v ∉ subs R) →
  (Z.to_nat (tsize T - tsize v) < fuel)%nat →
  (slack + 2) * tsize T ≤ width (ivl (ctx_store ctx) (root R)) →
  ∃ ctx', reindex_intervals_loop fuel slack ctx (root v) (root R) = Ok ctx' ∧ rinv T ∅ ctx' ∧
    same_shape (ctx_store ctx) (ctx_store ctx').
Proof.
  revert ctx v. induction fuel as [|fuel IH]; intros ctx v Hinv Hv Hnew Hpos Hf Hcap; [lia|].
  cbn [reindex_intervals_loop]. pose proof (ri_tree _ _ _ Hinv) as HT. pose proof (ri_ok _ _ _ Hinv v Hv) as [Hiv _].
  rewrite get_interval_Ok by (by eapply in_store). cbn [lift map_err mbind outcome_bind].
  destruct (count_subtrees_spec ctx T v HT Hbound Hv (ri_sizes _ _ _ Hinv)) as (sizes' & -> & Hsz & HS).
  cbn [mbind outcome_bind]. rewrite size_Ok by done. cbn [mbind outcome_bind subtree_sizes ctx_store].
  assert (size_of sizes' (root v) = Ok (tsize v)) as Hsize.
  { unfold size_of. rewrite (sizes_ok_lookup T sizes' v v Hsz Hv HS (subs_self _)). done. }
  rewrite Hsize. cbn [mbind outcome_bind].
  assert (Hinv' : rinv T {[new]} (mkCtx (ctx_store ctx) sizes')) by (by destruct Hinv).
  destruct (Z.leb_spec (tsize v) (width (ivl (ctx_store ctx) (root v)))) as [Hw|Hw].
  { destruct (propagate_new_spec (mkCtx (ctx_store ctx) sizes') v) as (ctx' & ? & ? & ?); try done. eauto. }
  assert (HvR : v ≠ R).
  { intros ->. pose proof (tsize_sub R T HR). pose proof (tsize_pos R). nia. }
  apply sub_parent in Hv as Hpar. destruct Hpar as [->|(p & Hp & Hvp)].
  { exfalso. destruct Hpos as [HTR|[HRT _]]; [|done]. by apply HvR, subs_antisym. }
  rewrite (get_parent_Ok _ _ (root p)) by (by apply (ts_nodes _ _ HT p Hp)). cbn [lift map_err mbind outcome_bind].
  assert (Hpn : root p ≠ NONE).
  { intros Heq. apply (ts_none _ _ HT). rewrite <- Heq. apply elem_of_labels. eauto. }
  rewrite (proj2 (Z.eqb_neq _ _) Hpn).
  rewrite (proj2 (Z.eqb_neq (root v) (root R))) by (intros Heq; by apply HvR, (subs_root_inj T)).
  rewrite strict_chain_ancestor_query by (by eapply in_store). cbn [mbind outcome_bind].
  assert (HfR : full (ctx_store ctx) (root R)) by (by apply full_but_new).
  pose proof (strictly_contains_iff (ctx_store ctx) T p R HndT (ri_ok _ _ _ Hinv) HfR Hp HR) as Hst.
  pose proof (ReachReclaim.kid_tsize v p Hvp) as Hts. pose proof (tsize_sub p T Hp) as HtsT.
  assert (Hnewp : Node new [] ∈ subs p) by (eapply subs_trans; [exact Hnew|by apply kids_subs]).
  destruct (strictly_contains (ivl (ctx_store ctx) (root p)) (ivl (ctx_store ctx) (root R))).
  - destruct (proj1 Hst eq_refl) as [HRp HpR].
    destruct (earlier_than_root_spec (mkCtx (ctx_store ctx) sizes') p v) as (ctx' & ? & ? & ?); try done; [|eauto].
    intros HRv. destruct Hpos as [HvR'|[? _]]; [|done]. by apply HvR, subs_antisym.
  - destruct (IH (mkCtx (ctx_store ctx) sizes') p) as (ctx' & ? & ? & ?); try done; [|lia|eauto].
    destruct Hpos as [HvR'|[HRv HvR']].
    + left. apply sub_parent in HvR' as [->|(p' & Hp' & Hvp')]; [done|].
      assert (p' = p) as <-; [|done]. eapply (kids_parent_unique T p' p v v); [done| |done..]. by eapply subs_trans.
    + right. split.
      * intros HRp. assert (p ≠ R) by (intros ->; by apply HvR', kids_subs). by destruct Hst as [_ Hst]; discriminate Hst.
      * intros HpR. apply HvR'. eapply subs_trans; [by apply kids_subs|done].
Qed.

(** [reindex_intervals] gives the new block an interval. *)
Lemma reindex_intervals_spec ctx :
  rinv T {[new]} ctx → (slack + 2) * tsize T ≤ width (ivl (ctx_store ctx) (root R)) →
  ∃ ctx', reindex_intervals slack ctx new (root R) = Ok ctx' ∧ rinv T ∅ ctx' ∧
    same_shape (ctx_store ctx) (ctx_store ctx').
Proof.
  intros Hinv Hcap. unfold reindex_intervals.
  assert (count (ctx_store ctx) = Ok (base.size (map (ctx_store ctx)))) as -> by done. cbn [lift map_err mbind outcome_bind].
  apply (reindex_intervals_loop_spec _ ctx (Node new [])); [done|done|apply subs_self| | |done].
  - destruct (decide (new ∈ labels R)) as [Hin|Hin].
    + left. by eapply (labels_sub_of T).
    + right. split.
      * intros [->|(?&[]%elem_of_nil&_)]%subs_node. done.
      * intros Hs. apply Hin, elem_of_labels. eauto.
  - rewrite (count_labels _ _ (ri_tree _ _ _ Hinv)). unfold tsize. lia.
Qed.
End Climb.
