(* ===== verification/ReachAdd.v ===== *)
(** * Adding a block to the reachability tree

    Correctness of [add_tree_block] of [tree.rs]: a new block becomes the last
    tree child of its parent, with half of the room that the parent has left
    or, when there is none, with the room that reindexing makes. *)

From stdpp Require Import base list gmap relations.
From Stdlib Require Import ZArith Lia.
From S2P Require Import Prelude Tx Interval ReachStore Reach RoseTree ReachTree ReachSearch ReachCount ReachPropagate ReachResize ReachReclaim ReachReindex.

Local Open Scope Z_scope.

(** The store after [append_child] and [insert]. *)
Definition grow (st : store) (p new : BlockHash) (i : Interval) (h : Z) : store :=
  mkStore (<[new := MemoryReachabilityData_new p i h]>
    (alter (λ d, mkData (children d ++ [new]) (parent d) (interval d) (height d) (future_covering_set d)) p (map st)))
    (reindex_root st).

Definition height_of (st : store) (b : BlockHash) : option Z := height <$> map st !! b.

Section Grow.
Context (st : store) (T : tree) (p new : BlockHash) (i : Interval) (h : Z).
Context (HT : tree_store st T) (Hp : p ∈ labels T) (Hnew : new ∉ labels T) (Hnone : new ≠ NONE).

Lemma grow_new_lookup : map st !! new = None.
Proof. apply eq_None_not_Some. intros Hs. by apply Hnew, (ts_dom _ _ HT). Qed.

Lemma grow_field {A} (f : MemoryReachabilityData → A) b :
  (∀ d cs, f (mkData cs (parent d) (interval d) (height d) (future_covering_set d)) = f d) → b ≠ new →
  f <$> map (grow st p new i h) !! b = f <$> map st !! b.
Proof.
  intros Hf Hb. unfold grow; simpl. rewrite lookup_insert_ne by done.
  destruct (decide (b = p)) as [->|]; [|by rewrite lookup_alter_ne by done].
  rewrite lookup_alter_eq. destruct (map st !! p); [|done]. simpl. f_equal. apply Hf.
Qed.

Lemma grow_ivl b : b ≠ new → ivl (grow st p new i h) b = ivl st b.
Proof.
  intros Hb. pose proof (grow_field interval b (λ _ _, eq_refl) Hb) as Hl. unfold ivl.
  destruct (map (grow st p new i h) !! b), (map st !! b); simpl in *; congruence.
Qed.
Lemma grow_ivl_new : ivl (grow st p new i h) new = i.
Proof. unfold ivl, grow; simpl. by rewrite lookup_insert_eq. Qed.
Lemma grow_parent b : b ≠ new → parent_of (grow st p new i h) b = parent_of st b.
Proof. by apply grow_field. Qed.
Lemma grow_fcs b : b ≠ new → fcs_of (grow st p new i h) b = fcs_of st b.
Proof. by apply grow_field. Qed.
Lemma grow_height b : b ≠ new → height_of (grow st p new i h) b = height_of st b.
Proof. by apply grow_field. Qed.

Lemma grow_children b : b ≠ new →
  children_of (grow st p new i h) b = (λ cs, cs ++ if decide (b = p) then [new] else []) <$> children_of st b.
Proof.
  intros Hb. unfold children_of, grow; simpl. rewrite lookup_insert_ne by done.
  destruct (decide (b = p)) as [->|].
  - rewrite lookup_alter_eq. by destruct (map st !! p).
  - rewrite lookup_alter_ne by done. destruct (map st !! b); simpl; [|done]. by rewrite app_nil_r.
Qed.

Lemma grow_new_data : map (grow st p new i h) !! new = Some (MemoryReachabilityData_new p i h).
Proof. unfold grow; simpl. by rewrite lookup_insert_eq. Qed.

Lemma label_ne_new s : s ∈ subs T → root s ≠ new.
Proof using Hnew. intros Hs Heq. apply Hnew. rewrite <- Heq. apply elem_of_labels. eauto. Qed.

Lemma grow_tree : tree_store (grow st p new i h) (add_leaf p new T).
Proof.
  assert (Hnd : NoDup (labels (add_leaf p new T))) by (apply NoDup_add_leaf; [apply HT|done|done]).
  assert (Hlab : ∀ b, b ∈ labels (add_leaf p new T) ↔ b = new ∨ b ∈ labels T).
  { intros b. rewrite labels_add_leaf by (first [done|apply HT]). by rewrite elem_of_cons. }
  split; [|done| | |].
  - intros s [(u & Hu & ->)|[-> _]]%subs_add_leaf.
    + destruct (ts_nodes _ _ HT u Hu) as [Hc Hk]. pose proof (label_ne_new u Hu) as Hun.
      assert (Hroots : root <$> kids (add_leaf p new u) = (root <$> kids u) ++ if decide (root u = p) then [new] else []).
      { rewrite kids_add_leaf, fmap_app. f_equal.
        - rewrite <- list_fmap_compose. apply list_fmap_ext. intros j k _. apply root_add_leaf.
        - by destruct (decide (root u = p)). }
      split; rewrite root_add_leaf.
      * rewrite grow_children, Hc, Hroots by done. done.
      * intros k. rewrite kids_add_leaf, elem_of_app, list_elem_of_fmap. intros [(k' & -> & Hk')|Hkl].
        -- rewrite root_add_leaf, grow_parent; [by apply Hk|]. apply label_ne_new. eapply subs_trans; [by apply kids_subs|done].
        -- destruct (decide (root u = p)) as [->|]; [|by apply elem_of_nil in Hkl].
           apply list_elem_of_singleton in Hkl as ->. unfold parent_of. simpl root. by rewrite grow_new_data.
    + split; [|by intros k ?%elem_of_nil]. unfold children_of. simpl root. by rewrite grow_new_data.
  - intros b. rewrite Hlab. destruct (decide (b = new)) as [->|Hb].
    + rewrite grow_new_data. split; [by left|eauto].
    + rewrite <- (ts_dom _ _ HT). pose proof (grow_field (λ _, ()) b (λ _ _, eq_refl) Hb) as Hl.
      assert (is_Some (map (grow st p new i h) !! b) ↔ is_Some (map st !! b)) as ->; [|naive_solver].
      destruct (map (grow st p new i h) !! b), (map st !! b); try done; split; intros [? [=]].
  - rewrite root_add_leaf, grow_parent; [apply HT|]. apply label_ne_new, subs_self.
  - rewrite Hlab. intros [?|?]; [done|]. by apply (ts_none _ _ HT).
Qed.

Lemma nested_upto s js j e : nested s (js ++ [j]) e → nested s (js ++ [j]) (end_ j).
Proof.
  intros (m & Hn & (Hs & Hj & _))%nested_app. apply nested_app. exists m. split; [done|]. simpl. split_and!; [done|done|lia].
Qed.

(** The intervals stay nested when the new one lies in the room that the
    parent has left. *)
Lemma grow_intervals s :
  intervals_ok st T → s ∈ subs T → root s = p → iv_ok i →
  (match last (kids s) with Some k => end_ (ivl st (root k)) + 1 | None => start (ivl st p) end) ≤ start i →
  end_ i ≤ end_ (ivl st p) - 1 →
  intervals_ok (grow st p new i h) (add_leaf p new T).
Proof.
  intros Hok Hs Hsp Hi Hstart Hend v [(u & Hu & ->)|[-> _]]%subs_add_leaf.
  2: { split; simpl root; [by rewrite grow_ivl_new|done]. }
  destruct (Hok u Hu) as [Hiu Hnu]. pose proof (label_ne_new u Hu) as Hun. unfold local_ok.
  rewrite root_add_leaf, grow_ivl by done. split; [done|]. intros Hne.
  assert (Hks : (ivl (grow st p new i h) ∘ root <$> (add_leaf p new <$> kids u)) = (ivl st ∘ root <$> kids u)).
  { rewrite <- list_fmap_compose. apply list_fmap_ext. intros j k Hk%list_elem_of_lookup_2. simpl.
    rewrite root_add_leaf, grow_ivl; [done|]. apply label_ne_new. eapply subs_trans; [by apply kids_subs|done]. }
  rewrite kids_add_leaf in Hne |- *. rewrite fmap_app, Hks.
  destruct (decide (root u = p)) as [Hup|Hup].
  - assert (u = s) as -> by (eapply (subs_root_inj T); [apply HT|done|done|congruence]).
    simpl. rewrite grow_ivl_new. rewrite Hsp in *. apply nested_app.
    destruct (last (kids s)) as [k|] eqn:Hl.
    + apply last_Some in Hl as [ks Hks']. assert (Hnu' : kids s ≠ []) by (rewrite Hks'; by destruct ks).
      specialize (Hnu Hnu'). rewrite Hks', fmap_app in Hnu |- *. apply nested_upto in Hnu.
      eexists. split; [exact Hnu|]. simpl in *. split_and!; [lia|done|lia].
    + apply last_None in Hl. rewrite Hl. exists (start (ivl st p) - 1). simpl. split; [lia|]. split_and!; [lia|done|lia].
  - rewrite app_nil_r in Hne |- *. apply Hnu. intros Hn. by rewrite Hn in Hne.
Qed.
End Grow.

(** The store operations of [add_tree_block] build [grow]. *)
Lemma grow_ops st T p new d :
  tree_store st T → p ∈ labels T → new ∉ labels T → map st !! p = Some d →
  ∃ st1, append_child st p new = Ok st1 ∧ get_height st1 p = Ok (height d) ∧
    ∀ i, insert_block st1 new p i (height d + 1) = Ok (grow st p new i (height d + 1)).
Proof.
  intros HT Hp Hnew Hd. assert (Hpn : p ≠ new) by congruence.
  pose proof (grow_new_lookup st T new HT Hnew) as Hnl.
  eexists. split; [simpl; unfold mem_append_child, update_data, get_data; rewrite Hd; simpl; reflexivity|].
  split; [simpl; unfold mem_get_height, get_data; simpl; by rewrite lookup_insert_eq|].
  intros i. simpl. unfold mem_insert. simpl. rewrite lookup_insert_ne by done. rewrite Hnl. f_equal. unfold grow.
  f_equal. f_equal. apply map_eq. intros x. destruct (decide (x = p)) as [->|].
  - by rewrite lookup_insert_eq, lookup_alter_eq, Hd.
  - by rewrite lookup_insert_ne, lookup_alter_ne by done.
Qed.

Lemma remaining_after_Ok st T s :
  wf st T → s ∈ subs T →
  let r := mkInterval (match last (kids s) with Some k => end_ (ivl st (root k)) + 1 | None => start (ivl st (root s)) end)
                      (end_ (ivl st (root s)) - 1) in
  interval_remaining_after st (root s) = Ok r ∧ iv_ok r.
Proof.
  intros [HT Hok Hfull] Hs r. destruct (Hok s Hs) as [Hi Hn].
  assert (Hf : full st (root s)) by (apply Hfull, elem_of_labels; eauto).
  unfold interval_remaining_after. rewrite (capacity_Ok st T s) by done. cbn [mbind outcome_bind].
  destruct (ts_nodes _ _ HT s Hs) as [Hc _]. rewrite (get_children_Ok _ _ _ Hc). cbn [mbind outcome_bind].
  rewrite fmap_last. unfold r. destruct (last (kids s)) as [k|] eqn:Hl; simpl fmap.
  - apply last_Some_elem_of in Hl as Hk. pose proof (local_nested _ _ k (Hok s Hs) Hk) as Hnk.
    pose proof (nested_bounds _ _ _ (ivl st (root k)) Hnk ltac:(by apply (list_elem_of_fmap_2 (ivl st ∘ root)))) as (? & ? & ?).
    rewrite get_interval_Ok by (eapply in_store; [exact HT|by eapply (kids_sub T s)]).
    cbn [mbind outcome_bind]. unfold iv_ok in *. chk. split; [done|]. simpl. lia.
  - split; [done|]. unfold iv_ok, full in *. simpl. lia.
Qed.

(** What adding [new] under [p] does to everything but the intervals. *)
Record tree_added (st st' : store) (p new : BlockHash) : Prop := {
  ta_root : reindex_root st' = reindex_root st;
  ta_fcs : ∀ b, b ≠ new → fcs_of st' b = fcs_of st b;
  ta_height : ∀ b, b ≠ new → height_of st' b = height_of st b;
  ta_new_fcs : fcs_of st' new = Some [];
  ta_new_height : height_of st' new = (λ h, h + 1) <$> height_of st p;
}.

Lemma same_shape_field {A} (f : MemoryReachabilityData → A) st st' b :
  same_shape st st' → (∀ d, f (erase d) = f d) → f <$> map st' !! b = f <$> map st !! b.
Proof.
  intros [He _] Hf. pose proof (f_equal (.!! b) He) as Hl. rewrite !lookup_fmap in Hl.
  destruct (map st !! b) as [d|], (map st' !! b) as [d'|]; simpl in *; try done.
  f_equal. rewrite <- (Hf d), <- (Hf d'). congruence.
Qed.

Lemma grow_added st T p new i d :
  tree_store st T → p ∈ labels T → new ∉ labels T → map st !! p = Some d →
  tree_added st (grow st p new i (height d + 1)) p new.
Proof.
  intros HT Hp Hnew Hd. split; [done| | | |].
  - intros b Hb. by apply grow_fcs.
  - intros b Hb. by apply grow_height.
  - unfold fcs_of. by rewrite grow_new_data.
  - unfold height_of. by rewrite grow_new_data, Hd.
Qed.

Lemma tree_added_shape st st1 st2 p new : tree_added st st1 p new → same_shape st1 st2 → tree_added st st2 p new.
Proof.
  intros [H1 H2 H3 H4 H5] Hsh. pose proof Hsh as [_ Hr].
  assert (Hf : ∀ b, fcs_of st2 b = fcs_of st1 b) by (intros b; by apply same_shape_field).
  assert (Hh : ∀ b, height_of st2 b = height_of st1 b) by (intros b; by apply same_shape_field).
  split; [congruence|..]; intros; rewrite ?Hf, ?Hh; auto.
Qed.

Lemma add_tree_block_spec st T p new rroot depth slack :
  wf st T → p ∈ labels T → new ∉ labels T → new ≠ NONE →
  reindex_root st = Some rroot → rroot ∈ labels T →
  (∀ h, height_of st p = Some h → 0 ≤ h < U64_MAX) →
  0 ≤ slack → (slack + 2) * (tsize T + 1) ≤ width (ivl st rroot) →
  ∃ st', add_tree_block st new p depth slack = Ok st' ∧ wf st' (add_leaf p new T) ∧ tree_added st st' p new.
Proof.
  intros Hwf Hp Hnew Hnone Hroot HR Hheight Hslack Hcap. pose proof Hwf as [HT Hok Hfull].
  pose proof Hp as (s & Hs & Hsp)%elem_of_labels.
  assert (HpS : is_Some (map st !! p)) by (by apply (ts_dom _ _ HT)). destruct HpS as [d Hd].
  assert (Hh : 0 ≤ height d < U64_MAX) by (apply Hheight; unfold height_of; by rewrite Hd).
  pose proof (remaining_after_Ok st T s Hwf Hs) as [Hrem Hrok]. rewrite Hsp in *.
  set (r := mkInterval _ _) in *. unfold add_tree_block. rewrite Hrem. cbn [lift map_err mbind outcome_bind].
  assert (Hrr : get_reindex_root st = Ok rroot) by (simpl; unfold mem_get_reindex_root; by rewrite Hroot).
  pose proof (labels_add_leaf p new T (ts_nodup _ _ HT) Hp) as Hperm.
  destruct (grow_ops st T p new d HT Hp Hnew Hd) as (st1 & -> & Hgh & Hins). cbn [lift map_err mbind outcome_bind].
  rewrite Hgh. unfold is_empty. rewrite size_Ok by done. cbn [lift map_err mbind outcome_bind].
  destruct (Z.eqb_spec (width r) 0) as [Hw|Hw]; chk.
  - (* no room: reindex *)
    rewrite Hins. cbn [lift map_err mbind outcome_bind]. change (get_reindex_root (grow _ _ _ _ _)) with (get_reindex_root st). rewrite Hrr. cbn [lift map_err mbind outcome_bind].
    set (st2 := grow st p new r (height d + 1)) in *.
    pose proof HR as (R & HRs & HRr)%elem_of_labels.
    assert (HRne : rroot ≠ new) by congruence.
    assert (HRT : add_leaf p new R ∈ subs (add_leaf p new T)) by (apply subs_add_leaf; left; eauto).
    assert (Hivl : ∀ b, b ≠ new → ivl st2 b = ivl st b) by (intros b Hb; by apply grow_ivl).
    pose proof (tsize_add_leaf p new T (ts_nodup _ _ HT) Hp) as Hts. pose proof (tsize_pos T) as Htp.
    assert (HwU : width (ivl st rroot) ≤ U64_MAX).
    { rewrite <- HRr. destruct (Hok R HRs) as [HRi _]. unfold iv_ok, width in *. lia. }
    assert (Hinv : rinv (add_leaf p new T) {[new]} (Ctx_new st2)).
    { split; cbn [Ctx_new ctx_store subtree_sizes].
      - by apply grow_tree.
      - eapply grow_intervals with (s := s); try done; simpl; lia.
      - intros b Hb Hbn. rewrite elem_of_singleton in Hbn. unfold full. rewrite Hivl by done. apply Hfull.
        rewrite Hperm, elem_of_cons in Hb. by destruct Hb.
      - split; intros; by rewrite lookup_empty in *; try destruct (is_Some_None ltac:(done)). }
    destruct (reindex_intervals_spec (add_leaf p new T)) with (new := new) (R := add_leaf p new R) (slack := slack) (ctx := Ctx_new st2)
      as (ctx' & Hre & [HT' Hok' Hfull' _] & Hsh); try done.
    + rewrite Hts. nia.
    + by apply Hinv.
    + by rewrite root_add_leaf, HRr.
    + apply subs_add_leaf. by right.
    + intros q [(u & Hu & ->)|[-> _]]%subs_add_leaf Hk; [|by apply elem_of_nil in Hk]. rewrite kids_add_leaf in Hk |- *.
      destruct (decide (root u = p)); [by rewrite last_snoc|]. rewrite app_nil_r, list_elem_of_fmap in Hk.
      destruct Hk as (k & Heq & Hk). exfalso. apply (label_ne_new T new Hnew k); [by apply (kids_sub T u)|].
      by rewrite <- (root_add_leaf p new k), <- Heq.
    + rewrite root_add_leaf, HRr, Hts. cbn [Ctx_new ctx_store]. by rewrite Hivl by done.
    + rewrite root_add_leaf, HRr in Hre. rewrite Hre. cbn [mbind outcome_bind]. eexists. split; [done|].
      split; [split; [done|done|]; intros b Hb; apply Hfull'; [done|apply not_elem_of_empty]|].
      eapply tree_added_shape; [|exact Hsh]. by eapply grow_added.
  - (* half of the room *)
    assert (Hr1 : 1 ≤ width r) by (unfold iv_ok, width in *; lia).
    destruct (@split_half_Ok ReachabilityError r Hrok Hr1) as (i & j & -> & Hi & Hwi & (Hsi & _ & (Hsj & Hj & Hej))).
    cbn [mbind outcome_bind]. chk. rewrite Hins. cbn [lift map_err].
    eexists. split; [done|]. split; [|by eapply grow_added]. split.
    + by apply grow_tree.
    + eapply grow_intervals with (s := s); try done.
      * rewrite Hsi. simpl. lia.
      * unfold iv_ok in Hj. simpl in Hej. lia.
    + intros b Hb. rewrite Hperm, elem_of_cons in Hb. unfold full. destruct (decide (b = new)) as [->|Hbn].
      * rewrite grow_ivl_new. unfold width in Hwi. lia.
      * rewrite grow_ivl by done. apply Hfull. by destruct Hb.
Qed.

(** [add_tree_block] adds a leaf: for a parent of the tree and a reindex
    root with room, it succeeds whether or not the parent has room left (then
    by reindexing), the new block becomes the last tree child of its parent,
    and the intervals of all blocks are nested and non-empty again; covering
    sets, heights and the reindex root of the other blocks are as before. *)
Theorem add_tree_block_adds_leaf (st : store) (T : tree) (p new_block rroot : BlockHash) (reindex_depth reindex_slack : Z) :
  wf st T → p ∈ labels T → new_block ∉ labels T → new_block ≠ NONE →
  reindex_root st = Some rroot → rroot ∈ labels T →
  (∀ h, height_of st p = Some h → 0 ≤ h < U64_MAX) →
  0 ≤ reindex_slack → (reindex_slack + 2) * (tsize T + 1) ≤ width (ivl st rroot) →
  ∃ st', add_tree_block st new_block p reindex_depth reindex_slack = Ok st' ∧
    wf st' (add_leaf p new_block T) ∧ tree_added st st' p new_block.
Proof. apply add_tree_block_spec. Qed.
