(* ===== verification/ReachDag.v ===== *)
(** * DAG ancestry

    The future covering sets of [inquirer.rs]: what they mean
    ([covers]), that [is_dag_ancestor_of] answers reachability in the block
    DAG, and that [add_block] maintains them. *)

From stdpp Require Import base list gmap relations sorting.
From Stdlib Require Import ZArith Lia.
From S2P Require Import Prelude Tx Interval ReachStore Reach RoseTree ReachTree ReachSearch ReachCount ReachPropagate ReachResize ReachReclaim ReachReindex ReachAdd.

Local Open Scope Z_scope.

(** ** Left and right in a tree *)

(** [a] and [b] lie in different children of one block, [a] in the earlier. *)
Definition left_of (T : tree) (a b : BlockHash) : Prop :=
  ∃ q l1 k1 l2 k2 l3, q ∈ subs T ∧ kids q = l1 ++ k1 :: l2 ++ k2 :: l3 ∧ a ∈ labels k1 ∧ b ∈ labels k2.

(** [a] is a tree ancestor of [b] (or [b] itself). *)
Definition above (T : tree) (a b : BlockHash) : Prop := ∃ s, s ∈ subs T ∧ root s = a ∧ b ∈ labels s.

Lemma left_of_intervals st T a b :
  intervals_ok st T → left_of T a b → end_ (ivl st a) < start (ivl st b).
Proof.
  intros Hok (q & l1 & k1 & l2 & k2 & l3 & Hq & Hk & Ha & Hb).
  apply elem_of_labels in Ha as (s1 & Hs1 & <-), Hb as (s2 & Hs2 & <-).
  apply (kids_descendants_disjoint st q k1 k2 s1 s2 (length l1) (length l1 + S (length l2))%nat); [|..|done|done].
  - intros u Hu. apply Hok. by eapply subs_trans.
  - rewrite Hk. by rewrite list_lookup_middle.
  - rewrite Hk. rewrite lookup_app_r by lia. replace (length l1 + S (length l2) - length l1)%nat with (S (length l2)) by lia.
    simpl. by rewrite list_lookup_middle.
  - lia.
Qed.

(** Two blocks are related or one is left of the other. *)
Lemma left_of_total T a b :
  a ∈ labels T → b ∈ labels T → above T a b ∨ above T b a ∨ left_of T a b ∨ left_of T b a.
Proof.
  induction T as [r ts IH] using tree_induction. rewrite Forall_forall in IH.
  intros Ha Hb. destruct (decide (a = r)) as [->|Har].
  { left. exists (Node r ts). split; [apply subs_self|]. done. }
  destruct (decide (b = r)) as [->|Hbr].
  { right. left. exists (Node r ts). split; [apply subs_self|]. done. }
  rewrite labels_node, elem_of_cons in Ha, Hb. destruct Ha as [?|Ha]; [done|]. destruct Hb as [?|Hb]; [done|].
  apply elem_of_forest_labels in Ha as (k1 & Hk1 & Ha), Hb as (k2 & Hk2 & Hb).
  apply list_elem_of_lookup in Hk1 as [i Hi], Hk2 as [j Hj].
  destruct (Nat.lt_trichotomy i j) as [Hij|[->|Hij]].
  - do 2 right. left. destruct (two_splits _ _ _ _ _ Hij Hi Hj) as (l1 & l2 & l3 & Hk).
    exists (Node r ts), l1, k1, l2, k2, l3. split; [apply subs_self|]. done.
  - simplify_eq. assert (Hin : k1 ∈ ts) by (by eapply list_elem_of_lookup_2).
    assert (Hlift : ∀ s, s ∈ subs k1 → s ∈ subs (Node r ts)) by (intros s Hs; apply subs_node; eauto).
    destruct (IH k1 Hin Ha Hb) as [(s & Hs & ?)|[(s & Hs & ?)|[(q & l1 & ka & l2 & kb & l3 & Hq & ?)|(q & l1 & ka & l2 & kb & l3 & Hq & ?)]]].
    + left. exists s. auto.
    + right. left. exists s. auto.
    + do 2 right. left. exists q, l1, ka, l2, kb, l3. auto.
    + do 3 right. exists q, l1, ka, l2, kb, l3. auto.
  - do 3 right. destruct (two_splits _ _ _ _ _ Hij Hj Hi) as (l1 & l2 & l3 & Hk).
    exists (Node r ts), l1, k2, l2, k1, l3. split; [apply subs_self|]. done.
Qed.

(** Adding a leaf keeps both relations on the blocks of the tree. *)
Lemma elem_labels_add_leaf p new t b : b ∈ labels t → b ∈ labels (add_leaf p new t).
Proof.
  intros (s & Hs & <-)%elem_of_labels. apply elem_of_labels. exists (add_leaf p new s).
  split; [apply subs_add_leaf; left; eauto|apply root_add_leaf].
Qed.

Lemma left_of_add_leaf T p new a b : left_of T a b → left_of (add_leaf p new T) a b.
Proof.
  intros (q & l1 & k1 & l2 & k2 & l3 & Hq & Hk & Ha & Hb).
  exists (add_leaf p new q), (add_leaf p new <$> l1), (add_leaf p new k1), (add_leaf p new <$> l2), (add_leaf p new k2).
  eexists. split; [apply subs_add_leaf; left; eauto|]. rewrite kids_add_leaf, Hk.
  split; [|split; by apply elem_labels_add_leaf].
  rewrite fmap_app, fmap_cons, fmap_app, fmap_cons, <- app_assoc. simpl. by rewrite <- app_assoc.
Qed.

Lemma labels_add_leaf_old p new t b : b ≠ new → b ∈ labels (add_leaf p new t) → b ∈ labels t.
Proof.
  intros Hb (s & [(u & Hu & ->)|[-> _]]%subs_add_leaf & Hr)%elem_of_labels; [|done].
  rewrite root_add_leaf in Hr. apply elem_of_labels. eauto.
Qed.

Lemma above_add_leaf_old T p new a b :
  new ∉ labels T → b ∈ labels T → above (add_leaf p new T) a b ↔ above T a b.
Proof.
  intros Hnew Hb. assert (Hbn : b ≠ new) by congruence. split.
  - intros (s & [(u & Hu & ->)|[-> _]]%subs_add_leaf & Hr & Hin).
    + exists u. rewrite root_add_leaf in Hr. split; [done|]. split; [done|]. by eapply labels_add_leaf_old.
    + change (labels (Node new [])) with [new] in Hin. by apply list_elem_of_singleton in Hin.
  - intros (s & Hs & Hr & Hin). exists (add_leaf p new s). split; [apply subs_add_leaf; left; eauto|].
    rewrite root_add_leaf. split; [done|]. by apply elem_labels_add_leaf.
Qed.

(** The ancestors of the new block are those of its parent, and itself. *)
Lemma above_add_leaf_new T p new a :
  NoDup (labels T) → p ∈ labels T → new ∉ labels T →
  above (add_leaf p new T) a new ↔ a = new ∨ above T a p.
Proof.
  intros Hnd Hp Hnew. split.
  - intros (s & [(u & Hu & ->)|[-> _]]%subs_add_leaf & Hr & Hin); [|by left]. right.
    rewrite root_add_leaf in Hr. exists u. split; [done|]. split; [done|].
    destruct (decide (p ∈ labels u)) as [?|Hpu]; [done|]. rewrite add_leaf_id in Hin by done.
    destruct Hnew. eapply labels_subs; [exact Hu|done].
  - intros [->|(s & Hs & Hr & Hin)].
    + exists (Node new []). split; [apply subs_add_leaf; by right|]. split; [done|]. by left.
    + exists (add_leaf p new s). split; [apply subs_add_leaf; left; eauto|]. rewrite root_add_leaf. split; [done|].
      rewrite labels_add_leaf; [by left|by eapply NoDup_labels_subs|done].
Qed.

Lemma above_label T a b : above T a b → a ∈ labels T ∧ b ∈ labels T.
Proof.
  intros (s & Hs & <- & Hb). split; [apply elem_of_labels; eauto|]. eapply labels_subs; [exact Hs|done].
Qed.

(** ** Future covering sets *)

(** [l] covers the DAG future of [x]: the blocks of [l] are unrelated, in
    order, and a block is in the future of [x] when it is in the subtree of [x]
    or of a block of [l]. [par b p] says that [p] is a direct parent of [b]. *)
Record covers (par : BlockHash → BlockHash → Prop) (T : tree) (x : BlockHash) (l : list BlockHash) : Prop := {
  cov_sorted : StronglySorted (left_of T) l;
  cov_labels : ∀ f, f ∈ l → f ∈ labels T;
  cov_anc : ∀ y, y ∈ labels T → rtc par y x ↔ above T x y ∨ ∃ f, f ∈ l ∧ above T f y;
}.

(** The invariant of the whole structure for the DAG [par]. *)
Record dag_ok (par : BlockHash → BlockHash → Prop) (st : store) (T : tree) : Prop := {
  dag_wf : wf st T;
  dag_par : ∀ b p, par b p → b ∈ labels T ∧ p ∈ labels T;
  dag_covers : ∀ x, x ∈ labels T → ∃ l, fcs_of st x = Some l ∧ covers par T x l;
}.

(** Only the edges matter. *)
Lemma dag_ok_ext (par par' : BlockHash → BlockHash → Prop) st T :
  (∀ b p, par b p ↔ par' b p) → dag_ok par st T → dag_ok par' st T.
Proof.
  intros He [Hwf Hp Hc]. assert (∀ x y, rtc par x y ↔ rtc par' x y) as Hr.
  { intros x y. split; (induction 1; [constructor|econstructor; [|done]]); by apply He. }
  split; [done|intros b p ?%He; by apply Hp|]. intros x Hx. destruct (Hc x Hx) as (l & Hl & [H1 H2 H3]).
  exists l. split; [done|]. split; [done|done|]. intros y Hy. by rewrite <- Hr, H3.
Qed.

Lemma contains_above st T a b :
  wf st T → a ∈ labels T → b ∈ labels T → contains (ivl st a) (ivl st b) = true ↔ above T a b.
Proof.
  intros [HT Hok Hfull] (s1 & Hs1 & <-)%elem_of_labels Hb. pose proof Hb as (s2 & Hs2 & <-)%elem_of_labels.
  rewrite (contains_iff_subtree st T s1 s2); [|apply HT|done|by apply Hfull|done|done]. split.
  - intros Hs. exists s1. split; [done|]. split; [done|]. apply elem_of_labels. eauto.
  - intros (s & Hs & Hr & Hin). assert (s = s1) as -> by (eapply (subs_root_inj T); [apply HT|done..]).
    eapply (labels_sub_of T); [apply HT|done..].
Qed.

Lemma sorted_lookup {A} (R : A → A → Prop) l i j a b :
  StronglySorted R l → (i < j)%nat → l !! i = Some a → l !! j = Some b → R a b.
Proof.
  intros Hs. revert i j. induction Hs as [|x l Hl IH Hx]; intros i j Hij Hi Hj; [done|].
  destruct j as [|j]; [lia|]. simpl in Hj. destruct i as [|i]; simpl in Hi.
  - simplify_eq. rewrite Forall_forall in Hx. apply Hx. by eapply list_elem_of_lookup_2.
  - apply (IH i j); [lia|done|done].
Qed.

Lemma sorted_insert {A} (R : A → A → Prop) l1 x l2 :
  StronglySorted R (l1 ++ l2) → (∀ a, a ∈ l1 → R a x) → (∀ a, a ∈ l2 → R x a) → StronglySorted R (l1 ++ x :: l2).
Proof.
  induction l1 as [|a l1 IH]; simpl; intros Hs H1 H2.
  - constructor; [done|]. by apply Forall_forall.
  - apply StronglySorted_inv in Hs as [Hs Ha]. constructor.
    + apply IH; [done| |done]. intros b Hb. apply H1. by right.
    + rewrite Forall_app in Ha |- *. destruct Ha. split; [done|]. constructor; [apply H1; by left|done].
Qed.

Lemma sorted_impl {A} (R R' : A → A → Prop) l : (∀ a b, R a b → R' a b) → StronglySorted R l → StronglySorted R' l.
Proof.
  intros HR. induction 1 as [|x l Hl IH Hx]; constructor; [done|]. eapply Forall_impl; [exact Hx|]. auto.
Qed.

(** The search in a covering set. *)
Lemma search_spec st T l y :
  wf st T → StronglySorted (left_of T) l → (∀ f, f ∈ l → f ∈ labels T) → y ∈ labels T →
  ∃ r, binary_search_descendant st l y = Ok r ∧
    match r with
    | Found h i => l !! i = Some h ∧ above T h y
    | NotFound i => (i ≤ length l)%nat ∧ (∀ f, f ∈ l → ~ above T f y) ∧
        (∀ f, f ∈ take i l → start (ivl st f) < end_ (ivl st y)) ∧
        (∀ f, f ∈ drop i l → end_ (ivl st y) < start (ivl st f))
    end.
Proof.
  intros Hwf Hsorted Hl Hy. pose proof Hwf as [HT Hok Hfull]. pose proof Hy as (d & Hd & <-)%elem_of_labels.
  destruct (binary_search_descendant_spec st T HT Hok l d) as (r & Hr & Hspec); [done|by apply Hfull|..].
  - intros h Hh. by apply elem_of_labels, Hl.
  - intros i j a b Hij Hi Hj. split; [apply Hfull, Hl; by eapply list_elem_of_lookup_2|].
    apply (left_of_intervals st T); [done|]. by eapply sorted_lookup.
  - intros h Hh. left. by apply Hfull, Hl.
  - exists r. split; [done|]. destruct r as [i|h i].
    + destruct Hspec as (Hi & Hno & Hlo & Hhi). split; [done|]. split_and!.
      * intros f Hf Hab. pose proof Hf as (j & Hj)%list_elem_of_lookup. specialize (Hno j f Hj).
        apply (contains_above st T) in Hab; [congruence|done|by apply Hl|done].
      * intros f (j & Hj)%list_elem_of_lookup. apply lookup_take_Some in Hj as [Hj Hji]. by apply (Hlo j).
      * intros f (j & Hj)%list_elem_of_lookup. rewrite lookup_drop in Hj. apply (Hhi (i + j)%nat); [lia|done].
    + destruct Hspec as [Hi Hc]. split; [done|]. apply (contains_above st T); [done|apply Hl; by eapply list_elem_of_lookup_2|done..].
Qed.

Lemma dag_query_spec (par : BlockHash → BlockHash → Prop) (st : store) (T : tree) (this queried : BlockHash) :
  dag_ok par st T → is_Some (map st !! this) → is_Some (map st !! queried) →
  ∃ b, is_dag_ancestor_of st this queried = Ok b ∧ (b = true ↔ rtc par queried this).
Proof.
  intros [Hwf _ Hcov] H1 H2. pose proof (wf_tree _ _ Hwf) as HT.
  unfold is_dag_ancestor_of. rewrite chain_ancestor_query by done. cbn [mbind outcome_bind].
  apply (ts_dom _ _ HT) in H1, H2. destruct (Hcov this H1) as (l & Hl & [Hs Hin Hanc]).
  pose proof (contains_above st T this queried Hwf H1 H2) as Hc.
  destruct (contains (ivl st this) (ivl st queried)).
  { exists true. split; [done|]. rewrite Hanc by done. naive_solver. }
  assert (Hnc : ~ above T this queried) by naive_solver.
  rewrite (get_fcs_Ok _ _ _ Hl). cbn [lift map_err mbind outcome_bind].
  destruct (search_spec st T l queried Hwf Hs Hin H2) as (r & -> & Hr). cbn [mbind outcome_bind].
  destruct r as [i|h i].
  - exists false. split; [done|]. rewrite Hanc by done. destruct Hr as (_ & Hno & _). naive_solver.
  - exists true. split; [done|]. rewrite Hanc by done. destruct Hr as [Hi Hab].
    split; [|done]. intros _. right. exists h. split; [by eapply list_elem_of_lookup_2|done].
Qed.

(** C16. [is_dag_ancestor_of] decides reachability in the block DAG: for any two
    blocks of the store, it returns whether [this] is reached from [queried]
    by following direct parents, in zero or more steps. *)
Theorem dag_query_decides_reachability (par : BlockHash → BlockHash → Prop) (st : store) (T : tree) (this queried : BlockHash) :
  dag_ok par st T → is_Some (map st !! this) → is_Some (map st !! queried) →
  ∃ b, is_dag_ancestor_of st this queried = Ok b ∧ (b = true ↔ rtc par queried this).
Proof. apply dag_query_spec. Qed.

(** ** Updating the covering sets *)

Definition set_fcs (st : store) (b : BlockHash) (l : list BlockHash) : store :=
  mkStore (alter (λ d, mkData (children d) (parent d) (interval d) (height d) l) b (map st)) (reindex_root st).

Section SetFcs.
Context (st : store) (m : BlockHash) (l : list BlockHash).

Lemma set_fcs_field {A} (f : MemoryReachabilityData → A) b :
  (∀ d l, f (mkData (children d) (parent d) (interval d) (height d) l) = f d) →
  f <$> map (set_fcs st m l) !! b = f <$> map st !! b.
Proof.
  intros Hf. unfold set_fcs; simpl. destruct (decide (b = m)) as [->|]; [|by rewrite lookup_alter_ne by done].
  rewrite lookup_alter_eq. destruct (map st !! m); [|done]. simpl. f_equal. apply Hf.
Qed.

Lemma set_fcs_ivl b : ivl (set_fcs st m l) b = ivl st b.
Proof.
  pose proof (set_fcs_field interval b (λ _ _, eq_refl)) as Hl. unfold ivl.
  destruct (map (set_fcs st m l) !! b), (map st !! b); simpl in *; congruence.
Qed.

Lemma set_fcs_eq : is_Some (map st !! m) → fcs_of (set_fcs st m l) m = Some l.
Proof. intros [d Hd]. unfold fcs_of, set_fcs; simpl. by rewrite lookup_alter_eq, Hd. Qed.
Lemma set_fcs_ne b : b ≠ m → fcs_of (set_fcs st m l) b = fcs_of st b.
Proof. intros Hb. unfold fcs_of, set_fcs; simpl. by rewrite lookup_alter_ne. Qed.

Lemma set_fcs_wf T : wf st T → wf (set_fcs st m l) T.
Proof.
  intros [[Hn Hnd Hdom Hr Hno] Hok Hfull].
  assert (Hp : ∀ b, parent_of (set_fcs st m l) b = parent_of st b) by (intros b; by apply set_fcs_field).
  assert (Hc : ∀ b, children_of (set_fcs st m l) b = children_of st b) by (intros b; by apply set_fcs_field).
  split; [split|..]; try done.
  - intros s Hs. destruct (Hn s Hs) as [H1 H2]. split; [by rewrite Hc|]. intros k Hk. rewrite Hp. by apply H2.
  - intros b. rewrite <- Hdom. pose proof (set_fcs_field (λ _, ()) b (λ _ _, eq_refl)) as Hl.
    destruct (map (set_fcs st m l) !! b), (map st !! b); try done; split; intros [? [=]].
  - by rewrite Hp.
  - intros s Hs. destruct (Hok s Hs) as [H1 H2]. unfold local_ok. rewrite set_fcs_ivl. split; [done|].
    assert ((ivl (set_fcs st m l) ∘ root <$> kids s) = (ivl st ∘ root <$> kids s)) as ->; [|done].
    apply list_fmap_ext. intros i k _. simpl. apply set_fcs_ivl.
  - intros b Hb. unfold full. rewrite set_fcs_ivl. by apply Hfull.
Qed.
End SetFcs.

Lemma insert_fcs_Ok st m new i l :
  fcs_of st m = Some l → (i ≤ length l)%nat →
  insert_future_covering_item st m new i = Ok (set_fcs st m (take i l ++ new :: drop i l)).
Proof.
  intros Hl Hi. unfold fcs_of in Hl. destruct (map st !! m) as [d|] eqn:Hd; [|done]. simpl in Hl. injection Hl as Hl.
  simpl. unfold mem_insert_future_covering_item, update_data, get_data. rewrite Hd. cbn [mbind outcome_bind].
  unfold vec_insert. rewrite Hl, (proj2 (Nat.leb_le _ _)) by done. cbn [mbind outcome_bind]. f_equal. unfold set_fcs. f_equal.
  apply map_eq. intros x. destruct (decide (x = m)) as [->|].
  - by rewrite lookup_insert_eq, lookup_alter_eq, Hd.
  - by rewrite lookup_insert_ne, lookup_alter_ne by done.
Qed.

(** One merged block learns about the new block. *)
Lemma insert_to_fcs_spec st T m new l :
  wf st T → m ∈ labels T → new ∈ labels T → fcs_of st m = Some l →
  StronglySorted (left_of T) l → (∀ f, f ∈ l → f ∈ labels T) →
  (∀ f, f ∈ l → ~ above T f new ∧ ~ above T new f) →
  ∃ l', insert_to_future_covering_set st m new = Ok (set_fcs st m l') ∧
    StronglySorted (left_of T) l' ∧ l' ≡ₚ new :: l.
Proof.
  intros Hwf Hm Hnew Hl Hs Hin Hun. unfold insert_to_future_covering_set.
  rewrite (get_fcs_Ok _ _ _ Hl). cbn [lift map_err mbind outcome_bind].
  destruct (search_spec st T l new Hwf Hs Hin Hnew) as (r & -> & Hr). cbn [mbind outcome_bind].
  destruct r as [i|h i]; [|exfalso; destruct Hr as [Hi Hab]; apply list_elem_of_lookup_2 in Hi; by destruct (Hun h Hi)].
  destruct Hr as (Hi & _ & Hlo & Hhi). rewrite (insert_fcs_Ok st m new i l) by done. cbn [lift map_err].
  exists (take i l ++ new :: drop i l). split; [done|]. split.
  - assert (Hfl : ∀ f, f ∈ take i l ∨ f ∈ drop i l → f ∈ l).
    { intros f Hf. rewrite <- (take_drop i l). by apply elem_of_app. }
    assert (Hcase : ∀ f, f ∈ l → left_of T f new ∨ left_of T new f).
    { intros f Hf. destruct (Hun f Hf). destruct (left_of_total T f new) as [?|[?|[?|?]]]; auto; done. }
    pose proof Hwf as [_ Hok Hfull]. unfold full in Hfull.
    apply sorted_insert; [by rewrite take_drop|..].
    + intros f Hf. destruct (Hcase f) as [?|Hr]; [by apply Hfl; left|done|]. exfalso.
      apply (left_of_intervals st T) in Hr; [|done]. specialize (Hlo f Hf). lia.
    + intros f Hf. destruct (Hcase f) as [Hr|?]; [by apply Hfl; right| |done]. exfalso.
      apply (left_of_intervals st T) in Hr; [|done]. specialize (Hhi f Hf).
      pose proof (Hfull f (Hin f (Hfl f (or_intror Hf)))). pose proof (Hfull new Hnew). lia.
  - rewrite <- Permutation_middle. by rewrite take_drop.
Qed.

(** All of the mergeset learns about it. *)
Lemma add_dag_block_spec T new M st :
  wf st T → NoDup M → new ∈ labels T →
  (∀ m, m ∈ M → m ∈ labels T ∧ ∃ l, fcs_of st m = Some l ∧ StronglySorted (left_of T) l ∧
    (∀ f, f ∈ l → f ∈ labels T ∧ ~ above T f new ∧ ~ above T new f)) →
  ∃ st', add_dag_block st new M = Ok st' ∧ wf st' T ∧
    (∀ b, b ∉ M → fcs_of st' b = fcs_of st b) ∧
    (∀ b, ivl st' b = ivl st b) ∧ reindex_root st' = reindex_root st ∧ (∀ b, height_of st' b = height_of st b) ∧
    ∀ m l, m ∈ M → fcs_of st m = Some l → ∃ l', fcs_of st' m = Some l' ∧ StronglySorted (left_of T) l' ∧ l' ≡ₚ new :: l.
Proof.
  unfold add_dag_block. revert st. induction M as [|m M IH]; intros st Hwf Hnd Hnew HM; cbn [for_each].
  { exists st. split; [done|]. split; [done|]. do 4 (split; [done|]). by intros m l ?%elem_of_nil. }
  apply NoDup_cons in Hnd as [Hm Hnd]. destruct (HM m) as (HmT & l & Hl & Hs & Hin); [by left|].
  destruct (insert_to_fcs_spec st T m new l) as (l' & -> & Hs' & Hperm); try done.
  { intros f Hf. by apply Hin. } { intros f Hf. by apply Hin. }
  cbn [mbind outcome_bind].
  assert (HmS : is_Some (map st !! m)) by (by apply (ts_dom _ _ (wf_tree _ _ Hwf))).
  destruct (IH (set_fcs st m l')) as (st' & Hadd & Hwf' & Hne & Hivl & Hrr & Hh & Hfcs); [by apply set_fcs_wf|done|done|..].
  { intros x Hx. destruct (HM x) as (HxT & lx & Hlx & Hrest); [by right|]. split; [done|]. exists lx. split; [|done].
    rewrite set_fcs_ne; [done|]. by intros ->. }
  exists st'. split; [exact Hadd|]. split; [done|]. split; [|split; [|split; [done|split]]].
  - intros b Hb. rewrite Hne by (intros ?; apply Hb; by right). apply set_fcs_ne. intros ->. apply Hb. by left.
  - intros b. rewrite Hivl. apply set_fcs_ivl.
  - intros b. rewrite Hh. by apply set_fcs_field.
  - intros x lx [->|Hx]%elem_of_cons Hlx.
    + rewrite Hl in Hlx. injection Hlx as <-. exists l'. split; [|done]. rewrite Hne by done. by apply set_fcs_eq.
    + apply Hfcs; [done|]. rewrite set_fcs_ne; [done|]. by intros ->.
Qed.

(** ** Adding a block to the DAG *)

(** The DAG with a new block whose direct parents are [P]. *)
Definition extend (par : BlockHash → BlockHash → Prop) (new : BlockHash) (P : list BlockHash) (b p : BlockHash) : Prop :=
  par b p ∨ (b = new ∧ p ∈ P).

Section Extend.
Context (par : BlockHash → BlockHash → Prop) (T : tree) (new : BlockHash) (P : list BlockHash).
Context (Hpar : ∀ b p, par b p → b ∈ labels T ∧ p ∈ labels T) (Hnew : new ∉ labels T) (HP : ∀ p, p ∈ P → p ∈ labels T).

Lemma extend_old y x : y ∈ labels T → rtc (extend par new P) y x ↔ rtc par y x.
Proof.
  intros Hy. split.
  - intros Hr. induction Hr as [x|x z w Hxz Hzw IH]; [constructor|].
    destruct Hxz as [Hxz|[-> _]]; [|done]. eapply rtc_l; [exact Hxz|]. apply IH. by apply (Hpar x).
  - intros Hr. eapply rtc_subrel; [|exact Hr]. intros a b. by left.
Qed.

Lemma extend_new x : rtc (extend par new P) new x ↔ x = new ∨ ∃ p, p ∈ P ∧ rtc par p x.
Proof.
  split.
  - intros Hr. inversion Hr as [|? p ? Hs Hr']; subst; [by left|right].
    destruct Hs as [Hs|[_ Hp]]; [by apply Hpar in Hs as [? _]|]. exists p. split; [done|].
    apply extend_old; [by apply HP|done].
  - intros [->|(p & Hp & Hr)]; [constructor|]. eapply rtc_l; [right; done|]. apply extend_old; [by apply HP|done].
Qed.

Lemma not_to_new y : y ∈ labels T → ~ rtc par y new.
Proof.
  intros Hy Hr. apply rtc_inv_r in Hr as [->|(z & _ & Hz)]; [done|]. by apply Hpar in Hz as [_ ?].
Qed.
End Extend.

#[local] Instance above_dec T a b : Decision (above T a b).
Proof.
  refine (cast_if (decide (Exists (λ s, root s = a ∧ b ∈ labels s) (subs T)))); rewrite Exists_exists in *; done.
Defined.

Lemma covered_dec T x y (l : list BlockHash) :
  (above T x y ∨ ∃ f, f ∈ l ∧ above T f y) ∨ ~ (above T x y ∨ ∃ f, f ∈ l ∧ above T f y).
Proof.
  destruct (decide (above T x y)); [by left; left|]. destruct (decide (Exists (λ f, above T f y) l)) as [H|H];
    rewrite Exists_exists in H; [by left; right|right]. naive_solver.
Qed.

Lemma dag_ok_extend par st T st1 sp new P (M : list BlockHash) :
  dag_ok par st T → wf st1 (add_leaf sp new T) → sp ∈ labels T → new ∉ labels T →
  sp ∈ P → (∀ p, p ∈ P → p ∈ labels T) →
  (∀ x, x ∈ M ↔ (∃ p, p ∈ P ∧ rtc par p x) ∧ ~ rtc par sp x) →
  fcs_of st1 new = Some [] →
  (∀ x l, x ∈ labels T → fcs_of st x = Some l → ∃ l', fcs_of st1 x = Some l' ∧
    StronglySorted (left_of (add_leaf sp new T)) l' ∧ l' ≡ₚ if bool_decide (x ∈ M) then new :: l else l) →
  dag_ok (extend par new P) st1 (add_leaf sp new T).
Proof.
  intros [Hwf Hpar Hcov] Hwf1 Hsp Hnew HspP HP HM Hfn Hfcs.
  pose proof (ts_nodup _ _ (wf_tree _ _ Hwf)) as Hnd.
  assert (Hlab : ∀ b, b ∈ labels (add_leaf sp new T) ↔ b = new ∨ b ∈ labels T).
  { intros b. by rewrite labels_add_leaf, elem_of_cons by done. }
  assert (Hno : ∀ y, y ∈ labels T → ~ above (add_leaf sp new T) new y).
  { intros y Hy Hab. apply above_add_leaf_old in Hab; [|done|done]. by apply above_label in Hab as [? _]. }
  split; [done| |].
  { intros b p [Hbp|[-> Hp]]; rewrite !Hlab; [|by auto]. apply Hpar in Hbp as [? ?]. auto. }
  intros x [->|Hx]%Hlab.
  { exists []. split; [done|]. split; [constructor|by intros f ?%elem_of_nil|]. intros y [->|Hy]%Hlab.
    - split; [|constructor]. intros _. left. apply above_add_leaf_new; auto.
    - rewrite (extend_old par T) by done. split; [intros Hr; exfalso; by eapply not_to_new|].
      intros [Hab|(f & []%elem_of_nil & _)]. by apply Hno in Hab. }
  destruct (Hcov x Hx) as (l & Hl & [Hs Hin Hanc]). destruct (Hfcs x l Hx Hl) as (l' & Hl' & Hs' & Hperm).
  assert (Hxn : x ≠ new) by congruence.
  assert (Hel : ∀ f, f ∈ l' ↔ (f = new ∧ x ∈ M) ∨ f ∈ l).
  { intros f. rewrite Hperm. case_bool_decide; [rewrite elem_of_cons|]; naive_solver. }
  exists l'. split; [done|]. split; [done|intros f Hf%Hel; rewrite Hlab; naive_solver|]. intros y [->|Hy]%Hlab.
  - rewrite (extend_new par T) by done. specialize (Hanc sp Hsp).
    assert (Hup : ∀ f, f ∈ labels T → above (add_leaf sp new T) f new ↔ above T f sp).
    { intros f Hf. rewrite above_add_leaf_new by done. assert (f ≠ new) by congruence. naive_solver. }
    rewrite Hup by done. destruct (decide (x ∈ M)) as [HxM|HxM].
    + split; [|intros _; right; by apply HM in HxM as [? _]]. intros _. right. exists new.
      split; [apply Hel; by left|]. apply above_add_leaf_new; auto.
    + assert (Heq : (x = new ∨ ∃ p, p ∈ P ∧ rtc par p x) ↔ rtc par sp x).
      { split; [intros [?|Hp]; [done|]|by eauto]. destruct (covered_dec T x sp l) as [?|Hn]; [by apply Hanc|].
        destruct HxM. apply HM. by rewrite Hanc. }
      rewrite Heq, Hanc. split; (intros [?|(f & Hf & Hab)]; [by left|right; exists f]).
      * split; [apply Hel; by right|]. apply Hup; auto.
      * apply Hel in Hf as [[-> ?]|Hf]; [done|]. split; [done|]. apply Hup; auto.
  - rewrite (extend_old par T) by done. rewrite Hanc by done. rewrite above_add_leaf_old by done.
    split; (intros [?|(f & Hf & Hab)]; [by left|right; exists f]).
    + split; [apply Hel; by right|]. by apply above_add_leaf_old.
    + apply Hel in Hf as [[-> _]|Hf]; [by apply Hno in Hab|]. split; [done|]. by apply above_add_leaf_old in Hab.
Qed.

Lemma add_block_with_params_spec par st T new sp P M rroot depth slack :
  dag_ok par st T → new ∉ labels T → new ≠ NONE →
  sp ∈ P → (∀ p, p ∈ P → p ∈ labels T) →
  NoDup M → (∀ x, x ∈ M ↔ (∃ p, p ∈ P ∧ rtc par p x) ∧ ~ rtc par sp x) →
  reindex_root st = Some rroot → rroot ∈ labels T →
  (∀ h, height_of st sp = Some h → 0 ≤ h < U64_MAX) →
  let sl := default DEFAULT_REINDEX_SLACK slack in
  0 ≤ sl → (sl + 2) * (tsize T + 1) ≤ width (ivl st rroot) →
  ∃ st', add_block_with_params st new sp M depth slack = Ok st' ∧
    dag_ok (extend par new P) st' (add_leaf sp new T) ∧ reindex_root st' = Some rroot ∧
    height_of st' new = (λ h, h + 1) <$> height_of st sp ∧ (∀ b, b ≠ new → height_of st' b = height_of st b).
Proof.
  intros Hdag Hnew Hnone HspP HP Hnd HM Hroot HR Hh sl Hsl Hcap. pose proof Hdag as [Hwf Hpar Hcov].
  assert (Hsp : sp ∈ labels T) by (by apply HP).
  destruct (add_tree_block_spec st T sp new rroot (default DEFAULT_REINDEX_DEPTH depth) sl)
    as (st1 & Htree & Hwf1 & Hadded); try done.
  unfold add_block_with_params. fold sl. rewrite Htree. cbn [mbind outcome_bind].
  pose proof (ts_nodup _ _ (wf_tree _ _ Hwf)) as HndT.
  assert (HMT : ∀ x, x ∈ M → x ∈ labels T ∧ x ≠ new).
  { intros x [(p & Hp & Hr) _]%HM. assert (x ∈ labels T); [|split; [done|congruence]].
    apply rtc_inv_r in Hr as [->|(z & _ & Hz)]; [by apply HP|]. by apply Hpar in Hz as [_ ?]. }
  assert (Hsorted : ∀ l, StronglySorted (left_of T) l → StronglySorted (left_of (add_leaf sp new T)) l).
  { intros l. apply sorted_impl. intros a b. apply left_of_add_leaf. }
  destruct (add_dag_block_spec (add_leaf sp new T) new M st1) as (st' & Hdb & Hwf' & Hne & Hivl & Hrr & Hhh & Hfcs); try done.
  { rewrite labels_add_leaf by done. by left. }
  { intros m Hm. destruct (HMT m Hm) as [HmT Hmn]. split; [by apply elem_labels_add_leaf|].
    destruct (Hcov m HmT) as (l & Hl & [Hs Hin Hanc]). exists l. rewrite (ta_fcs _ _ _ _ Hadded) by done.
    split; [done|]. split; [by apply Hsorted|]. intros f Hf. specialize (Hin f Hf).
    split; [by apply elem_labels_add_leaf|]. split.
    - rewrite above_add_leaf_new by done. intros [->|Hab]; [done|]. apply HM in Hm as [_ []].
      apply Hanc; [done|]. right. eauto.
    - intros Hab. apply above_add_leaf_old in Hab; [|done|done]. by apply above_label in Hab as [? _]. }
  exists st'. split; [exact Hdb|]. split; [|split; [|split]].
  - apply (dag_ok_extend par st T st' sp new P M); try done.
    + rewrite Hne; [apply Hadded|]. intros Hm%HMT. naive_solver.
    + intros x l Hx Hl. assert (Hxn : x ≠ new) by congruence.
      rewrite <- (ta_fcs _ _ _ _ Hadded) in Hl by done. case_bool_decide as HxM; [by apply Hfcs|].
      exists l. rewrite Hne by done. split; [done|]. split; [|done]. apply Hsorted.
      rewrite (ta_fcs _ _ _ _ Hadded) in Hl by done. destruct (Hcov x Hx) as (l' & Hl' & [Hs _ _]). congruence.
  - rewrite Hrr, (ta_root _ _ _ _ Hadded). done.
  - rewrite Hhh. apply Hadded.
  - intros b Hb. rewrite Hhh. by apply (ta_height _ _ _ _ Hadded).
Qed.

(** The store that [init] creates: the origin alone. *)
Definition init_store : store :=
  mkStore (<[ORIGIN := MemoryReachabilityData_new NONE maximal 0]> ∅) (Some ORIGIN).

Lemma init_spec :
  init MemoryReachabilityStore_new = Ok init_store ∧ dag_ok (λ _ _, False) init_store (Node ORIGIN []).
Proof.
  split; [vm_compute; reflexivity|].
  assert (Hsub : ∀ s, s ∈ subs (Node ORIGIN []) → s = Node ORIGIN []).
  { intros s [->|(?&[]%elem_of_nil&_)]%subs_node. done. }
  assert (Hlook : map init_store !! ORIGIN = Some (MemoryReachabilityData_new NONE maximal 0)) by apply lookup_insert_eq.
  assert (Hlab : ∀ b, b ∈ labels (Node ORIGIN []) ↔ b = ORIGIN) by (intros b; apply list_elem_of_singleton).
  split; [split; [split|..]|done|].
  - intros s ->%Hsub. split; [|by intros k ?%elem_of_nil]. unfold children_of. simpl root. by rewrite Hlook.
  - apply NoDup_singleton.
  - intros b. rewrite Hlab. unfold init_store; simpl. rewrite lookup_insert_is_Some, lookup_empty. split.
    + intros [<-|[_ [? [=]]]]. done.
    + intros ->. by left.
  - unfold parent_of. simpl root. by rewrite Hlook.
  - rewrite Hlab. vm_compute. done.
  - intros s ->%Hsub. split; [|done]. unfold ivl. simpl root. rewrite Hlook. vm_compute. done.
  - intros b ->%Hlab. unfold full, ivl. rewrite Hlook. vm_compute. done.
  - intros x ->%Hlab. exists []. split; [unfold fcs_of; by rewrite Hlook|].
    split; [constructor|by intros f ?%elem_of_nil|]. intros y ->%Hlab. split; [|constructor]. intros _. left.
    exists (Node ORIGIN []). split; [apply subs_self|]. split; [done|]. by apply Hlab.
Qed.

(** C2. [add_block] maintains the index: adding a block with direct parents
    [P], selected parent [selected_parent] and the merge set the protocol
    prescribes (the blocks in the past of [P] that are neither the selected
    parent nor in its past) succeeds, and the store is then a correct index of
    the extended DAG, as long as the reindex root has room for every block
    with the slack. *)
Theorem add_block_maintains_index (par : BlockHash → BlockHash → Prop) (st : store) (T : tree)
    (new_block selected_parent rroot : BlockHash) (P mergeset : list BlockHash) (reindex_depth reindex_slack : option Z) :
  dag_ok par st T → new_block ∉ labels T → new_block ≠ NONE →
  selected_parent ∈ P → (∀ p, p ∈ P → p ∈ labels T) →
  NoDup mergeset → (∀ x, x ∈ mergeset ↔ (∃ p, p ∈ P ∧ rtc par p x) ∧ ~ rtc par selected_parent x) →
  reindex_root st = Some rroot → rroot ∈ labels T →
  (∀ h, height_of st selected_parent = Some h → 0 ≤ h < U64_MAX) →
  0 ≤ default DEFAULT_REINDEX_SLACK reindex_slack →
  (default DEFAULT_REINDEX_SLACK reindex_slack + 2) * (tsize T + 1) ≤ width (ivl st rroot) →
  ∃ st', add_block_with_params st new_block selected_parent mergeset reindex_depth reindex_slack = Ok st' ∧
    dag_ok (extend par new_block P) st' (add_leaf selected_parent new_block T).
Proof.
  intros. destruct (add_block_with_params_spec par st T new_block selected_parent P mergeset rroot reindex_depth reindex_slack)
    as (st' & ? & ? & _); try done. eauto.
Qed.

(** ** Concrete reachability stores

    The theorems on the reachability store at a concrete store: the origin
    and one block on top of it, as [init] and [add_block] build it. *)

Module ReachWitness.
Definition no_parents : BlockHash → BlockHash → Prop := λ _ _, False.
Definition block : BlockHash := 7.
Definition two_store : store :=
  match add_block init_store block ORIGIN [] with Ok st => st | _ => init_store end.
Definition two_tree : tree := add_leaf ORIGIN block (Node ORIGIN []).

Lemma init_conditions :
  dag_ok no_parents init_store (Node ORIGIN []) ∧ block ∉ labels (Node ORIGIN []) ∧ block ≠ NONE ∧
  ORIGIN ∈ [ORIGIN] ∧ (∀ p, p ∈ [ORIGIN] → p ∈ labels (Node ORIGIN [])) ∧
  (∀ x : BlockHash, x ∈ ([] : list BlockHash) ↔ (∃ p, p ∈ [ORIGIN] ∧ rtc no_parents p x) ∧ ~ rtc no_parents ORIGIN x) ∧
  (∀ h, height_of init_store ORIGIN = Some h → 0 ≤ h < U64_MAX) ∧
  (default DEFAULT_REINDEX_SLACK None + 2) * (tsize (Node ORIGIN []) + 1) ≤ width (ivl init_store ORIGIN).
Proof.
  split; [apply init_spec|]. split; [vm_compute; intros H; by repeat (apply elem_of_cons in H as [H|H]); [|apply elem_of_nil in H]|].
  split; [done|]. split; [by left|]. split; [done|]. split.
  - intros x. split; [by intros ?%elem_of_nil|]. intros [(p & ->%list_elem_of_singleton & Hr) Hn]. done.
  - split; [intros h [= <-]; vm_compute; done|vm_compute; done].
Qed.

Lemma two_ok : dag_ok (extend no_parents block [ORIGIN]) two_store two_tree.
Proof.
  destruct init_conditions as (H1 & H2 & H3 & H4 & H5 & H6 & H7 & H8).
  destruct (add_block_with_params_spec no_parents init_store (Node ORIGIN []) block ORIGIN [ORIGIN] [] ORIGIN None None
    H1 H2 H3 H4 H5 NoDup_nil_2 H6 eq_refl (root_labels (Node ORIGIN [])) H7) as (st' & Hadd & Hok & _);
    [vm_compute; discriminate|exact H8|].
  unfold two_store, add_block. rewrite Hadd. exact Hok.
Qed.

Lemma add_block_maintains_index_witness :
  ∃ st', add_block_with_params init_store block ORIGIN [] None None = Ok st' ∧
    dag_ok (extend no_parents block [ORIGIN]) st' (add_leaf ORIGIN block (Node ORIGIN [])).
Proof.
  destruct init_conditions as (H1 & H2 & H3 & H4 & H5 & H6 & H7 & H8).
  apply (add_block_maintains_index no_parents init_store (Node ORIGIN []) block ORIGIN ORIGIN [ORIGIN] [] None None
    H1 H2 H3 H4 H5 (NoDup_nil_2) H6 eq_refl (root_labels (Node ORIGIN [])) H7); [vm_compute; discriminate|exact H8].
Defined.

Lemma dag_query_decides_reachability_witness :
  ∃ b, is_dag_ancestor_of two_store ORIGIN block = Ok b ∧ (b = true ↔ rtc (extend no_parents block [ORIGIN]) block ORIGIN).
Proof.
  apply (dag_query_decides_reachability _ two_store two_tree ORIGIN block two_ok); vm_compute; eexists; reflexivity.
Defined.

Lemma chain_queries_decide_ancestry_witness :
  ∃ b b', is_chain_ancestor_of two_store ORIGIN block = Ok b ∧ is_strict_chain_ancestor_of two_store ORIGIN block = Ok b' ∧
    (b = true ↔ chain_ancestor two_store ORIGIN block) ∧
    (b' = true ↔ chain_ancestor two_store ORIGIN block ∧ ORIGIN ≠ block).
Proof.
  apply (chain_queries_decide_ancestry two_store two_tree ORIGIN block (dag_wf _ _ _ two_ok)); vm_compute; eexists; reflexivity.
Defined.

Lemma next_chain_ancestor_navigates_witness :
  (chain_ancestor two_store ORIGIN block ∧ ORIGIN ≠ block ∧
    ∃ c, get_next_chain_ancestor two_store block ORIGIN = Ok c ∧
      parent_of two_store c = Some ORIGIN ∧ chain_ancestor two_store c block) ∨
  (~ (chain_ancestor two_store ORIGIN block ∧ ORIGIN ≠ block) ∧
    get_next_chain_ancestor two_store block ORIGIN = Err BadQuery).
Proof.
  apply (next_chain_ancestor_navigates two_store two_tree block ORIGIN (dag_wf _ _ _ two_ok)); vm_compute; eexists; reflexivity.
Defined.

Lemma count_subtrees_counts_witness :
  ∃ ctx', count_subtrees (Ctx_new two_store) ORIGIN = Ok ctx' ∧ ctx_store ctx' = two_store ∧
    ∀ s, s ∈ subs two_tree → subtree_sizes ctx' !! root s = Some (Z.of_nat (length (labels s))).
Proof.
  apply (count_subtrees_counts (Ctx_new two_store) two_tree two_tree (wf_tree _ _ (dag_wf _ _ _ two_ok))).
  - vm_compute. reflexivity.
  - apply subs_self.
  - split; intros s n; cbn [Ctx_new subtree_sizes]; rewrite lookup_empty; [discriminate|intros _ [? [=]]].
Defined.

Lemma add_tree_block_adds_leaf_witness :
  ∃ st', add_tree_block init_store block ORIGIN DEFAULT_REINDEX_DEPTH DEFAULT_REINDEX_SLACK = Ok st' ∧
    wf st' two_tree ∧ tree_added init_store st' ORIGIN block.
Proof.
  destruct init_conditions as (H1 & H2 & H3 & H4 & H5 & H6 & H7 & H8).
  apply (add_tree_block_adds_leaf init_store (Node ORIGIN []) ORIGIN block ORIGIN _ _ (dag_wf _ _ _ H1)
    (root_labels (Node ORIGIN [])) H2 H3 eq_refl (root_labels (Node ORIGIN [])) H7); [vm_compute; discriminate|exact H8].
Defined.
End ReachWitness.
