(* ===== verification/ReachTighten.v ===== *)
(** * Concentrating an interval on a child

    Correctness of [ReindexOperationContext::concentrate_interval] of
    [reindex.rs], the step that moves the reindex root from a block to one of
    its children: the subtrees of the siblings are packed at both ends of the
    interval of the parent, and the chosen child takes what is left. *)

From stdpp Require Import base list gmap relations.
From Stdlib Require Import ZArith Lia.
From S2P Require Import Prelude Tx Interval ReachStore Reach RoseTree ReachTree ReachSearch ReachCount ReachPropagate ReachResize ReachReclaim ReachReindex.

Local Open Scope Z_scope.

(** ** Packing subtrees *)

Lemma sumZ_tsize_nonneg (ts : list tree) : 0 ≤ sumZ (tsize <$> ts).
Proof. apply sumZ_nonneg, Forall_fmap, Forall_forall. intros k _. simpl. pose proof (tsize_pos k). lia. Qed.

Section Tighten.
Context (T : tree) (Hbound : tsize T < U64_MAX).

Lemma count_all_spec ctx (ts : list tree) :
  tree_store (ctx_store ctx) T → sizes_ok T (subtree_sizes ctx) → (∀ t, t ∈ ts → t ∈ subs T) →
  ∃ sizes, count_all ctx (root <$> ts) = Ok (mkCtx (ctx_store ctx) sizes, tsize <$> ts) ∧ sizes_ok T sizes.
Proof.
  revert ctx. induction ts as [|t ts IH]; intros ctx HT Hsz Hts.
  { exists (subtree_sizes ctx). by destruct ctx. }
  rewrite fmap_cons. cbn [count_all].
  destruct (count_subtrees_spec ctx T t) as (sizes & -> & Hok & HS); [done|done|apply Hts; by left|done|].
  cbn [mbind outcome_bind subtree_sizes]. unfold size_of.
  rewrite (sizes_ok_lookup T sizes t t Hok) by (first [done|apply Hts; by left|apply subs_self]).
  cbn [mbind outcome_bind unwrap].
  destruct (IH (mkCtx (ctx_store ctx) sizes)) as (sizes' & -> & Hok'); [done|done|intros; apply Hts; by right|].
  by exists sizes'.
Qed.

(** A block takes an interval with room for its subtree, which is laid out anew. *)
Lemma set_and_propagate ctx t i :
  tree_store (ctx_store ctx) T → sizes_ok T (subtree_sizes ctx) → t ∈ subs T → iv_ok i → tsize t ≤ width i →
  ∃ ctx', (st ← lift (set_interval (ctx_store ctx) (root t) i);
           propagate_interval (mkCtx st (subtree_sizes ctx)) (root t)) = Ok ctx' ∧
    sizes_ok T (subtree_sizes ctx') ∧ same_but (list_to_set (labels t)) (ctx_store ctx) (ctx_store ctx') ∧
    ivl (ctx_store ctx') (root t) = i ∧
    ∀ s, s ∈ subs t → local_ok (ctx_store ctx') s ∧ roomy (ctx_store ctx') s.
Proof.
  intros HT Hsz Ht Hi Hw. assert (is_Some (map (ctx_store ctx) !! root t)) as Hin by (by eapply in_store).
  rewrite set_interval_Ok by done. cbn [lift map_err mbind outcome_bind].
  pose proof (upd_same_but (ctx_store ctx) (root t) i) as Hsb.
  destruct (propagate_interval_spec (mkCtx (upd (ctx_store ctx) (root t) i) (subtree_sizes ctx)) T t)
    as (st' & sizes' & -> & Hsz' & Hsb' & Hall); cbn [ctx_store subtree_sizes]; try done.
  { by eapply same_but_tree. }
  { unfold roomy. by rewrite ivl_upd_eq. }
  assert (NoDup (labels t)) as Hnd by (eapply NoDup_labels_subs; [apply HT|done]).
  assert (root t ∉ below [t]) as Hrt.
  { intros (u & ->%list_elem_of_singleton & Hu)%elem_of_below. destruct t. by apply NoDup_labels_node in Hnd as [? _]. }
  eexists. split; [done|]. cbn [ctx_store subtree_sizes]. split_and!; [done| | |done].
  - eapply same_but_weaken; [|eapply same_but_trans; [exact Hsb|exact Hsb']].
    intros x. rewrite elem_of_union, elem_of_singleton, elem_of_below, elem_of_list_to_set.
    intros [->|(u & ->%list_elem_of_singleton & Hu)]; [apply root_labels|]. destruct t. rewrite labels_node. by right.
  - rewrite (sb_ivl _ _ _ Hsb') by done. by apply ivl_upd_eq.
Qed.

Lemma tighten_spec ctx (ts : list tree) (l : list Interval) :
  tree_store (ctx_store ctx) T → sizes_ok T (subtree_sizes ctx) → (∀ t, t ∈ ts → t ∈ subs T) →
  NoDup (forest_labels ts) → Forall2 (λ t i, iv_ok i ∧ tsize t ≤ width i) ts l →
  ∃ ctx', tighten ctx (root <$> ts) l = Ok ctx' ∧ sizes_ok T (subtree_sizes ctx') ∧
    same_but (list_to_set (forest_labels ts)) (ctx_store ctx) (ctx_store ctx') ∧
    (ivl (ctx_store ctx') ∘ root <$> ts) = l ∧
    ∀ t s, t ∈ ts → s ∈ subs t → local_ok (ctx_store ctx') s ∧ roomy (ctx_store ctx') s.
Proof.
  unfold tighten. revert ctx l. induction ts as [|t ts IH]; intros ctx l HT Hsz Hts Hnd Hl.
  { apply Forall2_nil_inv_l in Hl as ->. exists ctx. split_and!; [done|done|apply same_but_refl|done|].
    by intros ?? ?%elem_of_nil. }
  apply Forall2_cons_inv_l in Hl as (i & l' & [Hi Hw] & Hl & ->). rewrite fmap_cons. cbn [zip zip_with for_each].
  rewrite forest_labels_cons in Hnd. apply NoDup_app in Hnd as (Hndt & Hdis & Hnd).
  destruct (set_and_propagate ctx t i) as (ctx1 & -> & Hsz1 & Hsb1 & Hi1 & Hall1); [done|done|apply Hts; by left|done..|].
  cbn [mbind outcome_bind]. destruct (IH ctx1 l') as (ctx' & -> & Hsz' & Hsb' & Hivl & Hall).
  { by eapply same_but_tree. } { done. } { intros; apply Hts; by right. } { done. } { done. }
  assert (∀ b, b ∈ labels t → b ∉ (list_to_set (forest_labels ts) : gset BlockHash)) as Hout.
  { intros b Hb. rewrite elem_of_list_to_set. by apply Hdis. }
  exists ctx'. split_and!; [done|done| | |].
  - eapply same_but_weaken; [|eapply same_but_trans; [exact Hsb1|exact Hsb']].
    rewrite forest_labels_cons, list_to_set_app. done.
  - rewrite fmap_cons, Hivl. f_equal. simpl. rewrite (sb_ivl _ _ _ Hsb') by apply Hout, root_labels. done.
  - intros u s [->|Hu]%elem_of_cons Hs; [|by eapply Hall]. destruct (Hall1 s Hs) as [Hloc Hroom]. split.
    + eapply same_but_local; [done| | |done].
      * apply Hout. apply elem_of_labels. eauto.
      * intros k Hk. apply Hout. apply elem_of_labels. exists k. split; [|done]. eapply subs_trans; [by apply kids_subs|done].
    + unfold roomy in *. rewrite (sb_ivl _ _ _ Hsb'); [done|]. apply Hout. apply elem_of_labels. eauto.
Qed.

(** Packing into an interval of exactly the total size. *)
Lemma split_and_tighten ctx (ts : list tree) (s e : Z) :
  tree_store (ctx_store ctx) T → sizes_ok T (subtree_sizes ctx) → (∀ t, t ∈ ts → t ∈ subs T) →
  NoDup (forest_labels ts) → iv_ok (mkInterval s e) → e + 1 - s = sumZ (tsize <$> ts) →
  ∃ ctx', (parts ← split_exact (mkInterval s e) (tsize <$> ts); tighten ctx (root <$> ts) parts) = Ok ctx' ∧
    sizes_ok T (subtree_sizes ctx') ∧
    same_but (list_to_set (forest_labels ts)) (ctx_store ctx) (ctx_store ctx') ∧
    nested s (ivl (ctx_store ctx') ∘ root <$> ts) e ∧
    ∀ t s, t ∈ ts → s ∈ subs t → local_ok (ctx_store ctx') s ∧ roomy (ctx_store ctx') s.
Proof.
  intros HT Hsz Hts Hnd Hi Hsum.
  destruct (@split_exact_tiles ReachabilityError (mkInterval s e) (tsize <$> ts)) as (l & -> & Htl & Hw); [done| |done|].
  { apply Forall_fmap, Forall_forall. intros k _. simpl. pose proof (tsize_pos k). lia. }
  cbn [mbind outcome_bind]. destruct (tighten_spec ctx ts l) as (ctx' & -> & Hsz' & Hsb & Hivl & Hall); try done.
  { apply Forall2_same_length_lookup_2; [by rewrite <- (length_fmap tsize ts), <- Hw, length_fmap|].
    intros n t i Ht Hn. split; [eapply tiles_bounds; [done|by eapply list_elem_of_lookup_2]|].
    assert ((width <$> l) !! n = Some (width i)) as E by (by rewrite list_lookup_fmap, Hn).
    rewrite Hw, list_lookup_fmap, Ht in E. simpl in E. injection E as ->. done. }
  exists ctx'. split_and!; try done. rewrite Hivl. by apply tiles_nested.
Qed.

Section AtParent.
Context (p : tree) (Hp : p ∈ subs T) (slack : Z) (Hslack : 0 ≤ slack).

Lemma sibling_not_parent (ts : list tree) st : tree_store st T → (∀ t, t ∈ ts → t ∈ kids p) →
  root p ∉ (list_to_set (forest_labels ts) : gset BlockHash).
Proof.
  intros HT Hts. rewrite elem_of_list_to_set. intros (t & Ht & Hin)%elem_of_forest_labels.
  eapply kid_not_root; [|by apply Hts|done]. eapply NoDup_labels_subs; [apply HT|done].
Qed.

Lemma tighten_intervals_before_spec ctx (ts : list tree) :
  let st := ctx_store ctx in let B := sumZ (tsize <$> ts) in let i := ivl st (root p) in
  tree_store st T → sizes_ok T (subtree_sizes ctx) → (∀ t, t ∈ ts → t ∈ subs T) → NoDup (forest_labels ts) →
  iv_ok i → slack + B ≤ width i → B ≤ tsize T →
  ∃ ctx', tighten_intervals_before slack ctx (root p) (root <$> ts) = Ok (ctx', B) ∧ sizes_ok T (subtree_sizes ctx') ∧
    same_but (list_to_set (forest_labels ts)) st (ctx_store ctx') ∧
    nested (start i + slack) (ivl (ctx_store ctx') ∘ root <$> ts) (start i + slack + B - 1) ∧
    ∀ t s, t ∈ ts → s ∈ subs t → local_ok (ctx_store ctx') s ∧ roomy (ctx_store ctx') s.
Proof.
  intros st B i HT Hsz Hts Hnd Hi Hw HB. pose proof Hi as (H1 & H2 & H3). unfold width in Hw.
  assert (0 ≤ B) as HB0 by apply sumZ_tsize_nonneg.
  unfold tighten_intervals_before. destruct (count_all_spec ctx ts HT Hsz Hts) as (sizes & -> & Hsz1).
  cbn [mbind outcome_bind]. rewrite sum_tsizes by (fold B; lia). cbn [mbind outcome_bind ctx_store].
  rewrite get_interval_Ok by (by eapply in_store). cbn [lift map_err mbind outcome_bind]. fold st i B.
  chk. destruct (split_and_tighten (mkCtx st sizes) ts (start i + slack) (start i + slack + B - 1))
    as (ctx' & Hrun & ? & ? & ? & ?); try done; [unfold iv_ok; simpl; lia|fold B; lia|].
  exists ctx'. split; [|done]. revert Hrun. destruct (split_exact _ _) as [parts| | |]; cbn [mbind outcome_bind]; [|done..].
  intros ->. done.
Qed.

Lemma tighten_intervals_after_spec ctx (ts : list tree) :
  let st := ctx_store ctx in let A := sumZ (tsize <$> ts) in let i := ivl st (root p) in
  tree_store st T → sizes_ok T (subtree_sizes ctx) → (∀ t, t ∈ ts → t ∈ subs T) → NoDup (forest_labels ts) →
  iv_ok i → slack + A + 1 ≤ width i → A ≤ tsize T →
  ∃ ctx', tighten_intervals_after slack ctx (root p) (root <$> ts) = Ok (ctx', A) ∧ sizes_ok T (subtree_sizes ctx') ∧
    same_but (list_to_set (forest_labels ts)) st (ctx_store ctx') ∧
    nested (end_ i - slack - A) (ivl (ctx_store ctx') ∘ root <$> ts) (end_ i - slack - 1) ∧
    ∀ t s, t ∈ ts → s ∈ subs t → local_ok (ctx_store ctx') s ∧ roomy (ctx_store ctx') s.
Proof.
  intros st A i HT Hsz Hts Hnd Hi Hw HA. pose proof Hi as (H1 & H2 & H3). unfold width in Hw.
  assert (0 ≤ A) as HA0 by apply sumZ_tsize_nonneg.
  unfold tighten_intervals_after. destruct (count_all_spec ctx ts HT Hsz Hts) as (sizes & -> & Hsz1).
  cbn [mbind outcome_bind]. rewrite sum_tsizes by (fold A; lia). cbn [mbind outcome_bind ctx_store].
  rewrite get_interval_Ok by (by eapply in_store). cbn [lift map_err mbind outcome_bind]. fold st i A.
  chk. destruct (split_and_tighten (mkCtx st sizes) ts (end_ i - slack - A) (end_ i - slack - 1))
    as (ctx' & Hrun & ? & ? & ? & ?); try done; [unfold iv_ok; simpl; lia|fold A; lia|].
  exists ctx'. split; [|done]. revert Hrun. destruct (split_exact _ _) as [parts| | |]; cbn [mbind outcome_bind]; [|done..].
  intros ->. done.
Qed.
End AtParent.
End Tighten.

(** ** Expanding the chosen child *)

Section Expand.
Context (T : tree) (Hbound : tsize T < U64_MAX).

Lemma sub_cases st c s : tree_store st T → c ∈ subs T → s ∈ subs c → s = c ∨ s ≠ c.
Proof.
  intros HT Hc Hs. destruct (decide (root s = root c)) as [Heq|Hne]; [left|right; congruence].
  eapply (subs_root_inj c); [|done|apply subs_self|done]. eapply NoDup_labels_subs; [apply HT|done].
Qed.

(** Changing the interval of a block leaves the blocks below it as they are. *)
Lemma upd_local_below st c i s :
  tree_store st T → c ∈ subs T → s ∈ subs c → s ≠ c → local_ok st s → local_ok (upd st (root c) i) s.
Proof.
  intros HT Hc Hs Hne Hl. assert (NoDup (labels c)) as Hnd by (eapply NoDup_labels_subs; [apply HT|done]).
  assert (∀ k, k ∈ subs c → k ≠ c → root k ∉ ({[root c]} : gset BlockHash)) as Hout.
  { intros k Hk Hkc Heq%elem_of_singleton. apply Hkc. by eapply (subs_root_inj c); [|done|apply subs_self|]. }
  eapply same_but_local; [apply upd_same_but|by apply Hout| |done]. intros k Hk.
  apply Hout; [eapply subs_trans; [by apply kids_subs|done]|]. intros ->.
  eapply (kid_not_root s c); [by eapply NoDup_labels_subs|done|]. eapply labels_subs; [exact Hs|apply root_labels].
Qed.

(** A larger interval keeps the children nested. *)
Lemma upd_local_root st c i :
  tree_store st T → c ∈ subs T → local_ok st c → iv_ok i → contains i (ivl st (root c)) = true →
  local_ok (upd st (root c) i) c.
Proof.
  intros HT Hc [Hi Hn] Hok Hcon. assert (NoDup (labels c)) as Hnd by (eapply NoDup_labels_subs; [apply HT|done]).
  unfold contains in Hcon. split; rewrite ivl_upd_eq by (by eapply in_store); [done|]. intros Hne.
  assert ((ivl (upd st (root c) i) ∘ root <$> kids c) = (ivl st ∘ root <$> kids c)) as ->.
  { apply list_fmap_ext. intros n k Hk%list_elem_of_lookup_2. simpl. apply ivl_upd_ne. intros Heq.
    apply (kid_not_root c k Hnd Hk). rewrite <- Heq. apply root_labels. }
  eapply nested_end_mono; [eapply nested_start_mono; [by apply Hn|lia]|lia].
Qed.

Lemma full_of_roomy st s : roomy st s → full st (root s).
Proof. intros [_ Hw]. pose proof (tsize_pos s). unfold full, width in *. lia. Qed.

Lemma upd_full st c i s :
  is_Some (map st !! root c) → start i ≤ end_ i → full st (root s) → full (upd st (root c) i) (root s).
Proof.
  intros Hc Hi Hs. unfold full. destruct (decide (root s = root c)) as [->|Hne]; [by rewrite ivl_upd_eq|].
  by rewrite ivl_upd_ne.
Qed.

(** What the expansion does to the subtree of the chosen child. *)
Record expanded (c : tree) (fin : bool) (alloc : Interval) (st st' : store) : Prop := {
  ex_same : same_but (list_to_set (labels c)) st st';
  ex_ivl : ivl st' (root c) = alloc;
  ex_below : fin = false → same_but {[root c]} st st';
  ex_local : ∀ s, s ∈ subs c → (s = c → fin = true) → local_ok st' s;
  ex_full : ∀ s, s ∈ subs c → full st' (root s);
}.

Lemma expand_final st sizes c alloc slack :
  tree_store st T → sizes_ok T sizes → c ∈ subs T →
  (∀ s, s ∈ subs c → local_ok st s ∧ full st (root s)) →
  0 ≤ slack → iv_ok alloc → tsize c + 2 * slack ≤ width alloc →
  ∃ ctx', (ctx ← (if negb (contains alloc (ivl st (root c))) then
             s' ← add64 (start alloc) slack;
             e' ← sub64 (end_ alloc) slack;
             st ← lift (set_interval st (root c) (mkInterval s' e'));
             propagate_interval (mkCtx st sizes) (root c)
           else Ok (mkCtx st sizes));
           st ← lift (set_interval (ctx_store ctx) (root c) alloc);
           Ok (mkCtx st (subtree_sizes ctx))) = Ok ctx' ∧ expanded c true alloc st (ctx_store ctx').
Proof.
  intros HT Hsz Hc Hall Hslack Hok Hw. pose proof Hok as (H1 & H2 & H3). unfold width in Hw.
  pose proof (tsize_pos c). pose proof (in_store _ _ HT c Hc) as HcS.
  assert (root c ∈ (list_to_set (labels c) : gset BlockHash)) as Hrc by apply elem_of_list_to_set, root_labels.
  destruct (contains alloc (ivl st (root c))) eqn:Econ; cbn [negb mbind outcome_bind].
  - cbn [ctx_store subtree_sizes]. rewrite set_interval_Ok by done. cbn [lift map_err mbind outcome_bind].
    eexists. split; [done|]. cbn [ctx_store]. pose proof (upd_same_but st (root c) alloc) as Hsb.
    split; [eapply same_but_weaken; [|exact Hsb]; set_solver|by apply ivl_upd_eq|done| |].
    + intros s Hs _. destruct (Hall s Hs) as [Hl _]. destruct (sub_cases st c s HT Hc Hs) as [->|Hne]; [by apply upd_local_root|].
      by apply upd_local_below.
    + intros s Hs. apply upd_full; [done|lia|by apply Hall].
  - chk. destruct (set_and_propagate T Hbound (mkCtx st sizes) c (mkInterval (start alloc + slack) (end_ alloc - slack)))
      as (ctx1 & Hrun & Hsz1 & Hsb1 & Hi1 & Hall1); [done|done|done|unfold iv_ok; simpl; lia|unfold width; simpl; lia|].
    cbn [ctx_store subtree_sizes] in *. rewrite Hrun. cbn [mbind outcome_bind].
    assert (tree_store (ctx_store ctx1) T) as HT1 by (by eapply same_but_tree).
    assert (is_Some (map (ctx_store ctx1) !! root c)) as HcS1 by (by eapply in_store).
    rewrite set_interval_Ok by done. cbn [lift map_err mbind outcome_bind]. eexists. split; [done|]. cbn [ctx_store].
    split; [|by apply ivl_upd_eq|done| |].
    + eapply same_but_weaken; [|eapply same_but_trans; [exact Hsb1|apply upd_same_but]]. set_solver.
    + intros s Hs _. destruct (Hall1 s Hs) as [Hl _]. destruct (sub_cases st c s HT Hc Hs) as [->|Hne]; [|by apply upd_local_below].
      apply upd_local_root; try done. rewrite Hi1. unfold contains. simpl. lia.
    + intros s Hs. apply upd_full; [done|lia|]. by apply full_of_roomy, Hall1.
Qed.

Lemma expand_interval_to_chosen_spec st sizes p c A B slack fin i :
  tree_store st T → sizes_ok T sizes → p ∈ subs T → c ∈ subs T → ivl st (root p) = i →
  (∀ s, s ∈ subs c → local_ok st s ∧ full st (root s)) →
  0 ≤ slack → 0 ≤ A → 0 ≤ B → iv_ok i → tsize c + 4 * slack + A + B + 1 ≤ width i →
  ∃ ctx', expand_interval_to_chosen slack (mkCtx st sizes) (root p) (root c) B A fin = Ok ctx' ∧
    expanded c fin (mkInterval (start i + B + slack) (end_ i - A - slack - 1)) st (ctx_store ctx').
Proof.
  set (alloc := mkInterval _ _). intros HT Hsz Hp Hc Hip Hall Hslack HA HB Hi Hw.
  pose proof Hi as (H1 & H2 & H3). unfold width in Hw.
  pose proof (tsize_pos c). pose proof (in_store _ _ HT c Hc) as HcS. pose proof (in_store _ _ HT p Hp) as HpS.
  unfold expand_interval_to_chosen. cbn [ctx_store subtree_sizes]. rewrite (get_interval_Ok st (root p)), (get_interval_Ok st (root c)) by done.
  cbn [lift map_err mbind outcome_bind]. rewrite Hip. chk. fold alloc.
  cbn [lift map_err mbind outcome_bind].
  assert (iv_ok alloc) as Hok by (unfold iv_ok, alloc; simpl; lia).
  destruct fin; cbn [andb].
  - destruct (expand_final st sizes c alloc slack) as (ctx' & Hrun & Hex); try done.
    { unfold width, alloc; simpl; lia. }
    exists ctx'. split; [|done]. rewrite <- Hrun. cbn [start end_ alloc]. chk. done.
  - cbn [mbind outcome_bind ctx_store subtree_sizes]. rewrite set_interval_Ok by done. cbn [lift map_err mbind outcome_bind].
    eexists. split; [done|]. cbn [ctx_store]. pose proof (upd_same_but st (root c) alloc) as Hsb.
    split; [eapply same_but_weaken; [|exact Hsb]|by apply ivl_upd_eq|done| |].
    + intros x ->%elem_of_singleton. apply elem_of_list_to_set, root_labels.
    + intros s Hs Hne. apply upd_local_below; [done|done|done| |by apply Hall]. intros ->. by specialize (Hne eq_refl).
    + intros s Hs. apply upd_full; [done|unfold alloc; simpl; lia|by apply Hall].
Qed.
End Expand.

(** ** One step of the move *)

Lemma sizes_ok_empty T : sizes_ok T ∅.
Proof. split; intros s n; rewrite lookup_empty; [done|]. by intros _ [? ?]. Qed.

Lemma tsize_kids p : tsize p = sumZ (tsize <$> kids p) + 1.
Proof. destruct p. apply tsize_node. Qed.
Lemma labels_kids p : labels p = root p :: forest_labels (kids p).
Proof. by destruct p. Qed.
Lemma subs_kids p s : s ∈ subs p → s = p ∨ ∃ k, k ∈ kids p ∧ s ∈ subs k.
Proof. destruct p. apply subs_node. Qed.
Lemma labels_of_sub t s : s ∈ subs t → root s ∈ labels t ∧ ∀ k, k ∈ kids s → root k ∈ labels t.
Proof.
  intros Hs. split; [apply elem_of_labels; eauto|]. intros k Hk. apply elem_of_labels. exists k. split; [|done].
  eapply subs_trans; [by apply kids_subs|done].
Qed.

Section Step.
Context (T : tree) (slack : Z) (Hslack : 0 ≤ slack).

(** The state of the move at [p]: everything is in order except that the
    children of [p] are not yet laid out in its interval, which has room for
    its subtree and the slack around it. *)
Record midway (st : store) (p : tree) : Prop := {
  mw_tree : tree_store st T;
  mw_in : p ∈ subs T;
  mw_local : ∀ s, s ∈ subs T → s ≠ p → local_ok st s;
  mw_full : ∀ b, b ∈ labels T → full st b;
  mw_iv : iv_ok (ivl st (root p));
  mw_room : (4 * slack + 3) * tsize p ≤ width (ivl st (root p));
}.

Context (st : store) (p c : tree) (l1 l2 : list tree) (fin : bool).
Hypothesis Hmid : midway st p.
Hypothesis Hkids : kids p = l1 ++ c :: l2.
Let i := ivl st (root p).
Let B := sumZ (tsize <$> l1).
Let A := sumZ (tsize <$> l2).
Let alloc := mkInterval (start i + B + slack) (end_ i - A - slack - 1).
Context (st1 st2 st' : store).
Hypothesis Hsb1 : same_but (list_to_set (forest_labels l1)) st st1.
Hypothesis Hsb2 : same_but (list_to_set (forest_labels l2)) st1 st2.
Hypothesis Hex : expanded c fin alloc st2 st'.

Lemma step_size : tsize p = 1 + A + B + tsize c.
Proof using Hkids.
  rewrite tsize_kids, Hkids, fmap_app, fmap_cons, sumZ_app, sumZ_cons. unfold A, B. lia.
Qed.
Lemma step_kid x : x ∈ l1 ∨ x = c ∨ x ∈ l2 ↔ x ∈ kids p.
Proof using Hkids. rewrite Hkids, elem_of_app, elem_of_cons. tauto. Qed.
Lemma step_kid_in x : x ∈ kids p → x ∈ subs T.
Proof using Hmid. intros Hx. eapply subs_trans; [by apply kids_subs|apply Hmid]. Qed.
Lemma step_nodup : NoDup (labels p).
Proof using Hmid. eapply NoDup_labels_subs; [apply (mw_tree _ _ Hmid)|apply Hmid]. Qed.
Lemma step_forest : NoDup (forest_labels l1 ++ labels c ++ forest_labels l2).
Proof using Hmid Hkids.
  pose proof step_nodup as Hnd. rewrite labels_kids in Hnd. apply NoDup_cons in Hnd as [_ Hnd].
  by rewrite Hkids, forest_labels_app, forest_labels_cons in Hnd.
Qed.
Lemma step_disjoint : (∀ x, x ∈ forest_labels l1 → x ∉ labels c ∧ x ∉ forest_labels l2) ∧
  (∀ x, x ∈ forest_labels l2 → x ∉ labels c).
Proof using Hmid Hkids.
  pose proof step_forest as (_ & H1 & (_ & H2 & _)%NoDup_app)%NoDup_app. split; intros x Hx.
  - specialize (H1 x Hx). rewrite elem_of_app in H1. tauto.
  - intros Hc. by apply (H2 x).
Qed.
Lemma step_changed x : x ∈ forest_labels l1 ∨ x ∈ forest_labels l2 ∨ x ∈ labels c ↔ x ∈ forest_labels (kids p).
Proof using Hkids. rewrite Hkids, forest_labels_app, forest_labels_cons, !elem_of_app. tauto. Qed.
Lemma step_root : root p ∉ forest_labels (kids p).
Proof using Hmid. pose proof step_nodup as Hnd. rewrite labels_kids in Hnd. by apply NoDup_cons in Hnd as [? _]. Qed.

(** What changes, in all. *)
Lemma step_same : same_but (list_to_set (forest_labels (kids p))) st st'.
Proof using Hkids Hsb1 Hsb2 Hex.
  eapply same_but_weaken; [|eapply same_but_trans; [eapply same_but_trans; [exact Hsb1|exact Hsb2]|apply (ex_same _ _ _ _ _ Hex)]].
  intros x. rewrite !elem_of_union, !elem_of_list_to_set, <- step_changed. tauto.
Qed.
Lemma step_same_2 : same_but (list_to_set (forest_labels l2 ++ labels c)) st1 st'.
Proof using Hsb2 Hex. rewrite list_to_set_app_L. eapply same_but_trans; [exact Hsb2|apply (ex_same _ _ _ _ _ Hex)]. Qed.

Lemma step_tree : tree_store st' T.
Proof using Hmid Hkids Hsb1 Hsb2 Hex. eapply same_but_tree; [exact step_same|apply Hmid]. Qed.

(** The blocks outside are not affected. *)
Lemma step_outside s : s ∈ subs T → root s ∉ labels p → local_ok st' s.
Proof using Hmid Hkids Hsb1 Hsb2 Hex.
  intros Hs Hout. pose proof (labels_kids p) as Hlab.
  eapply same_but_local; [exact step_same| | |].
  - rewrite elem_of_list_to_set. intros Hin. apply Hout. rewrite Hlab. by right.
  - intros k Hk. rewrite elem_of_list_to_set. intros Hin.
    destruct (kid_in_sub T s p k) as [->|Hsub]; [apply (mw_tree _ _ Hmid)|done|apply Hmid|done| | |].
    + rewrite Hlab. by right.
    + by apply step_root.
    + apply Hout. apply elem_of_labels. eauto.
  - apply Hmid; [done|]. intros ->. apply Hout, root_labels.
Qed.

(** The conditions of the three parts of the step. *)
Lemma step_room : slack + B ≤ width i ∧ slack + A + 1 ≤ width i ∧ tsize c + 4 * slack + A + B + 1 ≤ width i ∧
  A ≤ tsize T ∧ B ≤ tsize T ∧ 0 ≤ A ∧ 0 ≤ B.
Proof using Hmid Hkids Hslack.
  pose proof (mw_room _ _ Hmid) as Hr. pose proof (tsize_sub p T (mw_in _ _ Hmid)) as HpT. fold i in Hr.
  rewrite step_size in Hr, HpT. pose proof (tsize_pos c). assert (0 ≤ A) by apply sumZ_tsize_nonneg.
  assert (0 ≤ B) by apply sumZ_tsize_nonneg.
  assert (0 ≤ slack * A) by nia. assert (0 ≤ slack * B) by nia. assert (slack ≤ slack * tsize c) by nia. lia.
Qed.
Lemma step_ivl_1 : ivl st1 (root p) = i.
Proof using Hmid Hkids Hsb1.
  apply (sb_ivl _ _ _ Hsb1). rewrite elem_of_list_to_set. intros Hin. apply step_root, step_changed. by left.
Qed.
Lemma step_ivl_2 : ivl st2 (root p) = i.
Proof using Hmid Hkids Hsb1 Hsb2.
  rewrite (sb_ivl _ _ _ Hsb2); [apply step_ivl_1|]. rewrite elem_of_list_to_set. intros Hin.
  apply step_root, step_changed. by right; left.
Qed.
Lemma step_child s : s ∈ subs c → local_ok st2 s ∧ full st2 (root s).
Proof using Hmid Hkids Hsb1 Hsb2.
  intros Hs. destruct (labels_of_sub c s Hs) as [Hrs Hks].
  pose proof (same_but_trans _ _ _ _ _ Hsb1 Hsb2) as Hsb.
  assert (∀ x, x ∈ labels c → x ∉ (list_to_set (forest_labels l1) ∪ list_to_set (forest_labels l2) : gset BlockHash)) as Hout.
  { intros x Hx [Hin|Hin]%elem_of_union; apply elem_of_list_to_set in Hin.
    - by destruct (proj1 step_disjoint x Hin).
    - by apply (proj2 step_disjoint x Hin). }
  assert (s ∈ subs T) as HsT by (eapply subs_trans; [done|]; apply step_kid_in, step_kid; by right; left).
  split.
  - eapply same_but_local; [exact Hsb|by apply Hout|intros k Hk; by apply Hout, Hks|].
    apply Hmid; [done|]. intros ->. apply step_root, step_changed. by right; right.
  - unfold full. rewrite (sb_ivl _ _ _ Hsb) by (by apply Hout). apply (mw_full _ _ Hmid). apply elem_of_labels. eauto.
Qed.

(** A step that is not the last leaves the blocks below the child alone. *)
Lemma step_below b : fin = false → b ∈ forest_labels (kids c) → ivl st' b = ivl st b.
Proof using Hmid Hkids Hsb1 Hsb2 Hex.
  intros Hf Hbc. assert (b ∈ labels c) as Hbl by (rewrite labels_kids; by right).
  assert (NoDup (labels c)) as Hnd.
  { eapply NoDup_labels_subs; [apply (mw_tree _ _ Hmid)|]. apply step_kid_in, step_kid. by right; left. }
  rewrite labels_kids in Hnd. apply NoDup_cons in Hnd as [Hrc _].
  rewrite (sb_ivl _ _ _ (ex_below _ _ _ _ _ Hex Hf)) by (rewrite elem_of_singleton; by intros ->).
  rewrite (sb_ivl _ _ _ Hsb2), (sb_ivl _ _ _ Hsb1); [done|..]; rewrite elem_of_list_to_set; intros Hin.
  - by destruct (proj1 step_disjoint b Hin).
  - by apply (proj2 step_disjoint b Hin).
Qed.

Hypothesis Hin1 : ∀ t s, t ∈ l1 → s ∈ subs t → local_ok st1 s ∧ roomy st1 s.
Hypothesis Hin2 : ∀ t s, t ∈ l2 → s ∈ subs t → local_ok st2 s ∧ roomy st2 s.
Hypothesis Hn1 : nested (start i + slack) (ivl st1 ∘ root <$> l1) (start i + slack + B - 1).
Hypothesis Hn2 : nested (end_ i - slack - A) (ivl st2 ∘ root <$> l2) (end_ i - slack - 1).

(** The packed subtrees stay as they were packed. *)
Lemma step_before t s : t ∈ l1 → s ∈ subs t → local_ok st' s ∧ full st' (root s).
Proof using Hmid Hkids Hsb2 Hex Hin1.
  intros Ht Hs. destruct (labels_of_sub t s Hs) as [Hrs Hks]. destruct (Hin1 t s Ht Hs) as [Hl Hr%full_of_roomy].
  assert (∀ x, x ∈ labels t → x ∉ (list_to_set (forest_labels l2 ++ labels c) : gset BlockHash)) as Hout.
  { intros x Hx. rewrite elem_of_list_to_set, elem_of_app. destruct (proj1 step_disjoint x); [|tauto].
    apply elem_of_forest_labels. eauto. }
  split.
  - eapply same_but_local; [exact step_same_2|by apply Hout|intros k Hk; by apply Hout, Hks|done].
  - unfold full. rewrite (sb_ivl _ _ _ step_same_2); [done|by apply Hout].
Qed.
Lemma step_after t s : t ∈ l2 → s ∈ subs t → local_ok st' s ∧ full st' (root s).
Proof using Hmid Hkids Hex Hin2.
  intros Ht Hs. destruct (labels_of_sub t s Hs) as [Hrs Hks]. destruct (Hin2 t s Ht Hs) as [Hl Hr%full_of_roomy].
  assert (∀ x, x ∈ labels t → x ∉ (list_to_set (labels c) : gset BlockHash)) as Hout.
  { intros x Hx. rewrite elem_of_list_to_set. apply (proj2 step_disjoint). apply elem_of_forest_labels. eauto. }
  pose proof (ex_same _ _ _ _ _ Hex) as Hsb. split.
  - eapply same_but_local; [exact Hsb|by apply Hout|intros k Hk; by apply Hout, Hks|done].
  - unfold full. rewrite (sb_ivl _ _ _ Hsb); [done|by apply Hout].
Qed.

Lemma step_alloc : iv_ok alloc ∧ (4 * slack + 3) * tsize c ≤ width alloc.
Proof using Hmid Hkids Hslack.
  pose proof (mw_iv _ _ Hmid) as (H1 & H2 & H3). pose proof (mw_room _ _ Hmid) as Hr. fold i in H1, H2, H3, Hr.
  rewrite step_size in Hr. pose proof (tsize_pos c). assert (0 ≤ A) by apply sumZ_tsize_nonneg.
  assert (0 ≤ B) by apply sumZ_tsize_nonneg. unfold width, iv_ok, alloc in *. cbn [start end_].
  assert (0 ≤ slack * A) by nia. assert (0 ≤ slack * B) by nia. assert (0 ≤ slack * tsize c) by nia. lia.
Qed.

(** The children of [p] are nested in it again. *)
Lemma step_parent : local_ok st' p.
Proof using Hslack Hmid Hkids Hsb1 Hsb2 Hex Hn1 Hn2.
  assert (ivl st' (root p) = i) as Hi.
  { apply (sb_ivl _ _ _ step_same). rewrite elem_of_list_to_set. apply step_root. }
  destruct step_alloc as [Halloc _]. split; rewrite Hi; [apply (mw_iv _ _ Hmid)|]. intros _. rewrite Hkids, fmap_app, fmap_cons.
  assert ((ivl st' ∘ root <$> l1) = (ivl st1 ∘ root <$> l1)) as ->.
  { apply list_fmap_ext. intros n k Hk%list_elem_of_lookup_2. simpl. apply (sb_ivl _ _ _ step_same_2).
    rewrite elem_of_list_to_set, elem_of_app. destruct (proj1 step_disjoint (root k)); [|tauto].
    apply elem_of_forest_labels. exists k. split; [done|apply root_labels]. }
  assert ((ivl st' ∘ root <$> l2) = (ivl st2 ∘ root <$> l2)) as ->.
  { apply list_fmap_ext. intros n k Hk%list_elem_of_lookup_2. simpl. apply (sb_ivl _ _ _ (ex_same _ _ _ _ _ Hex)).
    rewrite elem_of_list_to_set. apply (proj2 step_disjoint). apply elem_of_forest_labels.
    exists k. split; [done|apply root_labels]. }
  simpl. rewrite (ex_ivl _ _ _ _ _ Hex). apply nested_app. exists (start i + slack + B - 1).
  split; [eapply nested_start_mono; [exact Hn1|lia]|]. simpl. split; [lia|]. split; [done|].
  eapply nested_start_mono; [eapply nested_end_mono; [exact Hn2|lia]|lia].
Qed.

Lemma step_local s : s ∈ subs T → (s = c → fin = true) → local_ok st' s.
Proof using Hslack Hmid Hkids Hsb1 Hsb2 Hex Hn1 Hn2 Hin1 Hin2.
  intros Hs Hc. destruct (decide (root s ∈ labels p)) as [Hin|Hout]; [|by apply step_outside].
  assert (s ∈ subs p) as Hsp by (eapply (labels_sub_of T); [apply (mw_tree _ _ Hmid)|apply Hmid|done..]).
  apply subs_kids in Hsp as [->|(k & Hk & Hsk)].
  { apply step_parent. }
  apply step_kid in Hk as [Hk|[->|Hk]]; [by eapply step_before|by apply (ex_local _ _ _ _ _ Hex)|by eapply step_after].
Qed.
Lemma step_full b : b ∈ labels T → full st' b.
Proof using Hmid Hkids Hsb1 Hsb2 Hex Hin1 Hin2.
  intros Hb. destruct (decide (b ∈ forest_labels (kids p))) as [Hin|Hout].
  - apply elem_of_forest_labels in Hin as (k & Hk & (s & Hs & <-)%elem_of_labels).
    apply step_kid in Hk as [Hk|[->|Hk]]; [by eapply step_before|by apply (ex_full _ _ _ _ _ Hex)|by eapply step_after].
  - unfold full. rewrite (sb_ivl _ _ _ step_same) by (by rewrite elem_of_list_to_set). by apply Hmid.
Qed.
End Step.

(** [concentrate_interval] moves the state of the move from a block to its
    child, and ends it at the final one. *)
Lemma concentrate_interval_spec T slack st p c fin :
  tsize T < U64_MAX → 0 ≤ slack → midway T slack st p → c ∈ kids p →
  ∃ ctx', concentrate_interval slack (Ctx_new st) (root p) (root c) fin = Ok ctx' ∧
    let st' := ctx_store ctx' in
    midway T slack st' c ∧ (fin = true → local_ok st' c) ∧ same_shape st st' ∧
    (fin = false → ∀ b, b ∈ forest_labels (kids c) → ivl st' b = ivl st b).
Proof.
  intros Hb Hslack Hmid (l1 & l2 & Hkids)%list_elem_of_split. pose proof Hmid as [HT Hp _ _ Hiv _].
  pose proof (step_forest T slack st p c l1 l2 Hmid Hkids) as (Hnd1 & Hd1 & (_ & Hd2 & Hnd2)%NoDup_app)%NoDup_app.
  pose proof (step_kid p c l1 l2 Hkids) as Hkid. pose proof (step_kid_in T slack st p Hmid) as HkT.
  destruct (step_room T slack Hslack st p c l1 l2 Hmid Hkids) as (Hr1 & Hr2 & Hr3 & HAT & HBT & HA & HB).
  assert (c ∈ subs T) as HcT by (apply HkT, Hkid; by right; left).
  unfold concentrate_interval, Ctx_new; cbn [ctx_store].
  rewrite (get_children_Ok _ _ _ (proj1 (ts_nodes _ _ HT p Hp))). cbn [lift map_err mbind outcome_bind].
  rewrite Hkids, fmap_app, fmap_cons, split_children_spec.
  2: { intros (k & Hk & Hin)%list_elem_of_fmap. apply (Hd1 (root c)); [|apply elem_of_app; left; apply root_labels].
    apply elem_of_forest_labels. exists k. split; [done|]. rewrite Hk. apply root_labels. }
  cbn [mbind outcome_bind].
  destruct (tighten_intervals_before_spec T Hb p Hp slack Hslack (mkCtx st ∅) l1) as ([st1 z1] & -> & Hz1 & Hsb1 & Hn1 & Hin1);
    cbn [ctx_store subtree_sizes] in *; [done|apply sizes_ok_empty|intros t Ht; apply HkT, Hkid; by left|done..|].
  cbn [mbind outcome_bind]. assert (tree_store st1 T) as HT1 by (by eapply same_but_tree).
  pose proof (step_ivl_1 T slack st p c l1 l2 Hmid Hkids st1 Hsb1) as Hi1.
  destruct (tighten_intervals_after_spec T Hb p Hp slack Hslack (mkCtx st1 z1) l2) as ([st2 z2] & -> & Hz2 & Hsb2 & Hn2 & Hin2);
    cbn [ctx_store subtree_sizes] in *; rewrite ?Hi1; [done|done|intros t Ht; apply HkT, Hkid; by right; right|done..|].
  cbn [mbind outcome_bind]. assert (tree_store st2 T) as HT2 by (by eapply same_but_tree). rewrite Hi1 in Hn2.
  pose proof (step_ivl_2 T slack st p c l1 l2 Hmid Hkids st1 st2 Hsb1 Hsb2) as Hi2.
  destruct (expand_interval_to_chosen_spec T Hb st2 z2 p c (sumZ (tsize <$> l2)) (sumZ (tsize <$> l1)) slack fin (ivl st (root p)))
    as (ctx' & -> & Hex); try done; [by eapply step_child|]. exists ctx'. split; [done|].
  destruct (step_alloc T slack Hslack st p c l1 l2 Hmid Hkids) as [Hal Hroom].
  pose proof (step_local T slack Hslack st p c l1 l2 fin Hmid Hkids st1 st2 _ Hsb1 Hsb2 Hex Hin1 Hin2 Hn1 Hn2) as Hlocal.
  split_and!; [split|..]; rewrite ?(ex_ivl _ _ _ _ _ Hex); try done.
  - by eapply step_tree.
  - intros s Hs Hne. by apply Hlocal.
  - intros b Hbl. by eapply (step_full T slack st p c l1 l2 fin Hmid Hkids st1 st2).
  - intros ->. by apply Hlocal.
  - eapply same_but_shape, step_same; done.
  - intros -> b Hbc. eapply step_below; done.
Qed.
