(* ===== verification/ReachAdvance.v ===== *)
(** * Advancing the reindex root

    Correctness of [hint_virtual_selected_parent] ([inquirer.rs]) and of the
    functions of [tree.rs] it calls: the new reindex root is found on the chain
    towards the hint, the intervals between the old and the new one are
    concentrated step by step, and the index is in order again at the end. *)

From stdpp Require Import base list gmap relations.
From Stdlib Require Import ZArith Lia.
From S2P Require Import Prelude Tx Interval ReachStore Reach RoseTree ReachTree ReachSearch ReachCount ReachPropagate ReachResize ReachReclaim ReachReindex ReachAdd ReachDag ReachTighten.

Local Open Scope Z_scope.

(** ** Searches that read the same intervals *)

Lemma binary_search_loop_ext {E} fuel (key key' : nat → outcome E Z) point base size :
  (∀ i, key i = key' i) → binary_search_loop fuel key point base size = binary_search_loop fuel key' point base size.
Proof.
  intros H. revert base size. induction fuel as [|fuel IH]; intros base size; cbn [binary_search_loop]; [done|].
  destruct (size <=? 1)%nat; [done|]. rewrite H. destruct (key' _); cbn [mbind outcome_bind]; [apply IH|done..].
Qed.

Lemma binary_search_by_key_ext {E} n (key key' : nat → outcome E Z) point :
  (∀ i, key i = key' i) → binary_search_by_key n key point = binary_search_by_key n key' point.
Proof.
  intros H. unfold binary_search_by_key. destruct (n =? 0)%nat; [done|]. rewrite (binary_search_loop_ext n key key') by done.
  destruct (binary_search_loop n key' point 0 n); cbn [mbind outcome_bind]; [|done..]. by rewrite H.
Qed.

Lemma binary_search_descendant_ext (st st' : store) hs d :
  (∀ h, h ∈ d :: hs → get_interval st h = get_interval st' h) →
  binary_search_descendant st hs d = binary_search_descendant st' hs d.
Proof.
  intros H. unfold binary_search_descendant. rewrite (H d) by (by left).
  destruct (lift (get_interval st' d)) as [i| | |] eqn:Ed; cbn [mbind outcome_bind]; [|done..].
  rewrite (binary_search_by_key_ext _ _ (λ n, c ← unwrap (hs !! n);
    match get_interval st' c with Ok j => Ok (start j) | Err _ => Panic | Panic => Panic | OutOfFuel => OutOfFuel end)).
  2: { intros n. destruct (hs !! n) as [c|] eqn:Hc; cbn [unwrap mbind outcome_bind]; [|done].
    rewrite (H c) by (right; by eapply list_elem_of_lookup_2). done. }
  destruct (binary_search_by_key _ _ _) as [[n|[|n]]| | |]; cbn [mbind outcome_bind]; try done.
  destruct (hs !! n) as [c|] eqn:Hc; cbn [unwrap mbind outcome_bind]; [|done].
  unfold is_chain_ancestor_of. rewrite (H c), (H d) by (first [by left|right; by eapply list_elem_of_lookup_2]). done.
Qed.

Lemma same_shape_but st st' : same_shape st st' → same_but (dom (map st) ∪ dom (map st')) st st'.
Proof.
  intros [He Hr]. split; [done|done|]. intros b. rewrite not_elem_of_union, !not_elem_of_dom. intros [H1 H2].
  unfold ivl. by rewrite H1, H2.
Qed.

(** ** The move *)

Section Move.
Context (T : tree) (Hbound : tsize T < U64_MAX) (slack : Z) (Hslack : 0 ≤ slack).
Context (st0 : store) (Hwf : wf st0 T).

Lemma midway_done st p : midway T slack st p → local_ok st p → wf st T.
Proof.
  intros [HT Hp Hloc Hfull _ _] Hlp. split; [done| |done]. intros s Hs.
  destruct (decide (root s = root p)) as [Heq|Hne]; [|apply Hloc; congruence].
  by rewrite (subs_root_inj T s p (ts_nodup _ _ HT) Hs Hp Heq).
Qed.

(** The next block towards [n] is found as in the original store. *)
Lemma next_on_path st p n :
  same_shape st0 st → midway T slack st p → (∀ b, b ∈ forest_labels (kids p) → ivl st b = ivl st0 b) →
  n ∈ subs p → n ≠ p →
  ∃ c, c ∈ kids p ∧ n ∈ subs c ∧ get_next_chain_ancestor_unchecked st (root n) (root p) = Ok (root c).
Proof.
  intros Hsh Hmid Hsame Hn Hne. pose proof Hwf as [HT0 Hiv0 Hfull0]. pose proof Hmid as [HT Hp _ _ _ _].
  assert (∀ k, k ∈ kids p → k ∈ subs T) as Hk by (intros k Hk; eapply subs_trans; [by apply kids_subs|done]).
  destruct (next_chain_ancestor_spec st0 T HT0 Hiv0 p n) as (c & Hc & Hnc & Hrun); try done.
  { apply Hfull0, elem_of_labels. exists n. split; [by eapply subs_trans|done]. }
  { intros k Hkp. left. apply Hfull0, elem_of_labels. eauto. }
  exists c. split; [done|]. split; [done|]. rewrite <- Hrun. unfold get_next_chain_ancestor_unchecked.
  rewrite (get_children_Ok _ _ _ (proj1 (ts_nodes _ _ HT p Hp))).
  rewrite (get_children_Ok _ _ _ (proj1 (ts_nodes _ _ HT0 p Hp))). cbn [lift map_err mbind outcome_bind].
  rewrite (binary_search_descendant_ext st st0); [done|]. intros h Hh.
  assert (h ∈ forest_labels (kids p)) as Hf.
  { apply elem_of_cons in Hh as [->|(k & -> & Hkp)%list_elem_of_fmap]; apply elem_of_forest_labels.
    - exists c. split; [done|]. by apply labels_of_sub.
    - exists k. split; [done|apply root_labels]. }
  assert (h ∈ labels T) as HhT.
  { apply elem_of_forest_labels in Hf as (k & Hkp & Hhk). eapply labels_subs; [by apply Hk|done]. }
  rewrite !get_interval_Ok; [by rewrite Hsame|by apply (ts_dom _ _ HT0)|by apply (ts_dom _ _ HT)].
Qed.

Lemma concentrate_loop_spec fuel st p n :
  same_shape st0 st → midway T slack st p → (p ≠ n → ∀ b, b ∈ forest_labels (kids p) → ivl st b = ivl st0 b) →
  n ∈ subs p → (p = n → local_ok st p) → (length (labels p) ≤ fuel)%nat →
  ∃ st', concentrate_loop fuel st (root p) (root n) slack = Ok st' ∧ wf st' T ∧ same_shape st0 st' ∧
    (4 * slack + 3) * tsize n ≤ width (ivl st' (root n)).
Proof.
  revert st p. induction fuel as [|fuel IH]; intros st p Hsh Hmid Hsame Hn Hpn Hf.
  { rewrite labels_kids in Hf. simpl in Hf. lia. }
  pose proof Hmid as [HT Hp _ _ _ Hroom]. cbn [concentrate_loop]. destruct (Z.eqb_spec (root p) (root n)) as [Heq|Hne].
  { assert (p = n) as <-.
    { eapply (subs_root_inj T); [apply HT|done|by eapply subs_trans|done]. }
    exists st. split_and!; [done| |done|done]. apply (midway_done st p); auto. }
  assert (p ≠ n) as Hne' by congruence.
  destruct (next_on_path st p n) as (c & Hc & Hnc & ->); try done; [by apply Hsame|]. cbn [mbind outcome_bind].
  destruct (concentrate_interval_spec T slack st p c (root c =? root n)) as (ctx & -> & Hmid' & Hfin & Hsh' & Hbelow); [done..|].
  cbn [mbind outcome_bind]. apply IH; try done.
  - by eapply same_shape_trans.
  - intros Hcn b Hb. rewrite Hbelow; [| |done].
    + apply Hsame; [done|]. apply elem_of_forest_labels. exists c. split; [done|]. rewrite labels_kids. by right.
    + apply Z.eqb_neq. intros Heq. apply Hcn. eapply (subs_root_inj T); [apply HT| | |done]; (eapply subs_trans; [|exact Hp]).
      * by apply kids_subs.
      * done.
  - intros ->. apply Hfin. by apply Z.eqb_refl.
  - rewrite labels_kids in Hf. simpl in Hf. apply list_elem_of_split in Hc as (l1 & l2 & Hk).
    rewrite Hk, forest_labels_app, forest_labels_cons, !length_app in Hf. lia.
Qed.
End Move.

(** ** Heights *)

(** Heights count the blocks above. *)
Definition heights_ok (st : store) (T : tree) : Prop :=
  ∀ s, s ∈ subs T → ∃ h, height_of st (root s) = Some h ∧ is_u64 h ∧
    ∀ k, k ∈ kids s → height_of st (root k) = Some (h + 1).

Lemma get_height_Ok (st : store) b h : height_of st b = Some h → get_height st b = Ok h.
Proof.
  unfold height_of. simpl. unfold mem_get_height, get_data. destruct (map st !! b); [|done]. by intros [= <-].
Qed.

Lemma heights_sub st T s d hs hd : heights_ok st T → s ∈ subs T → d ∈ subs s →
  height_of st (root s) = Some hs → height_of st (root d) = Some hd → hs ≤ hd ∧ (hs = hd → d = s).
Proof.
  intros Hh. revert hs. induction s as [b ts IH] using tree_induction. rewrite Forall_forall in IH.
  intros hs Hs [->|(k & Hk & Hd)]%subs_node Hhs Hhd; [simplify_eq; split; [lia|done]|].
  destruct (Hh _ Hs) as (h & Hh1 & _ & Hkids). rewrite Hhs in Hh1. injection Hh1 as <-.
  destruct (IH k Hk (hs + 1)) as [Hle _]; [|done|by apply Hkids|done|lia].
  eapply subs_trans; [by apply (kids_subs k (Node b ts))|done].
Qed.

Section Find.
Context (T : tree) (st : store) (Hwf : wf st T) (Hheights : heights_ok st T).
Context (depth slack : Z) (Hdepth : 1 ≤ depth) (Hslack : 1 ≤ slack).

Lemma full_sub s : s ∈ subs T → full st (root s).
Proof. intros Hs. apply (wf_full _ _ Hwf), elem_of_labels. eauto. Qed.

Lemma chain_query s d : s ∈ subs T → d ∈ subs T →
  ∃ b, is_chain_ancestor_of st (root s) (root d) = Ok b ∧ (b = true ↔ d ∈ subs s).
Proof.
  intros Hs Hd. pose proof Hwf as [HT Hiv _]. eexists. split; [apply chain_ancestor_query; by eapply in_store|].
  apply (contains_iff_subtree st T); try done; [apply HT|by apply full_sub].
Qed.

(** The walk towards the hint stops at a strict ancestor of it. *)
Lemma advance_root_loop_spec fuel v d hd : v ∈ subs T → d ∈ subs v → d ≠ v →
  height_of st (root d) = Some hd → (length (labels v) ≤ fuel)%nat →
  ∃ n, advance_root_loop fuel st (root d) hd depth (root v) = Ok (root n) ∧ n ∈ subs v ∧ d ∈ subs n.
Proof.
  pose proof Hwf as [HT Hiv Hfull]. revert v. induction fuel as [|fuel IH]; intros v Hv Hd Hne Hhd Hf.
  { rewrite labels_kids in Hf. simpl in Hf. lia. }
  cbn [advance_root_loop]. assert (∀ k, k ∈ kids v → k ∈ subs T) as HkT.
  { intros k Hk. eapply subs_trans; [by apply kids_subs|done]. }
  destruct (next_chain_ancestor_spec st T HT Hiv v d) as (k & Hk & Hdk & ->); try done.
  { apply full_sub. by eapply subs_trans. } { intros k Hk. left. by apply full_sub, HkT. }
  cbn [mbind outcome_bind]. destruct (Hheights k (HkT k Hk)) as (hk & Hhk & Hu & _).
  rewrite (get_height_Ok _ _ _ Hhk). cbn [lift map_err mbind outcome_bind].
  destruct (heights_sub st T k d hk hd Hheights (HkT k Hk) Hdk Hhk Hhd) as [Hle Heq].
  rewrite (proj2 (Z.ltb_ge hd hk)) by lia.
  destruct (Hheights d) as (hd' & Hhd' & Hud & _); [eapply subs_trans; [exact Hdk|by apply HkT]|].
  rewrite Hhd in Hhd'. injection Hhd' as <-. unfold is_u64 in *. chk.
  destruct (Z.ltb_spec (hd - hk) depth) as [Hlt|Hge]; [exists v; split; [done|]; split; [apply subs_self|done]|].
  destruct (IH k) as (n & Hn & Hnk & Hdn); [by apply HkT|done|intros ->; simplify_eq; lia|done| |].
  { rewrite labels_kids in Hf. simpl in Hf. apply list_elem_of_split in Hk as (l1 & l2 & Hk).
    rewrite Hk, forest_labels_app, forest_labels_cons, !length_app in Hf. lia. }
  exists n. split; [done|]. split; [|done]. eapply subs_trans; [done|by apply kids_subs].
Qed.

(** The walk up from the hint stops at a common ancestor. *)
Lemma find_common_loop_spec fuel s R : s ∈ subs T → R ∈ subs T →
  (length (labels T) < fuel + length (labels s))%nat →
  ∃ a, find_common_tree_ancestor_loop fuel st (root s) (root R) = Ok (root a) ∧ a ∈ subs T ∧ s ∈ subs a ∧ R ∈ subs a.
Proof.
  revert s. induction fuel as [|fuel IH]; intros s Hs HR Hf; [pose proof (length_labels_sub s T Hs); lia|].
  cbn [find_common_tree_ancestor_loop]. destruct (chain_query s R Hs HR) as (b & -> & Hb). cbn [mbind outcome_bind].
  destruct b. { exists s. split_and!; [done|done|apply subs_self|by apply Hb]. }
  destruct (parent_sub st T (wf_tree _ _ Hwf) s Hs) as [->|(p & Hp & Hk & Hpar)]; [by apply Hb in HR|].
  rewrite (get_parent_Ok _ _ _ Hpar). cbn [lift map_err mbind outcome_bind].
  destruct (IH p Hp HR) as (a & Ha & HaT & Hpa & HRa).
  { rewrite (labels_kids p). simpl. apply list_elem_of_split in Hk as (l1 & l2 & Hk).
    rewrite Hk, forest_labels_app, forest_labels_cons, !length_app. lia. }
  exists a. split_and!; try done. eapply subs_trans; [by apply kids_subs|done].
Qed.

Lemma find_next_reindex_root_spec R d : R ∈ subs T → d ∈ subs T → d ≠ R →
  ∃ a n, find_next_reindex_root st (root R) (root d) depth slack = Ok (root a, root n) ∧
    a ∈ subs T ∧ R ∈ subs a ∧ n ∈ subs a.
Proof.
  intros HR Hd Hne. pose proof Hwf as [HT Hiv Hfull]. unfold find_next_reindex_root.
  destruct (Hheights d Hd) as (hd & Hhd & Hud & _), (Hheights R HR) as (hr & Hhr & Hur & _).
  rewrite (get_height_Ok _ _ _ Hhd). cbn [lift map_err mbind outcome_bind].
  assert (count st = Ok (base.size (map st))) as -> by done. cbn [lift map_err mbind outcome_bind].
  rewrite (count_labels _ _ HT). destruct (chain_query R d HR Hd) as (b & -> & Hb). cbn [mbind outcome_bind].
  destruct b; cbn [negb].
  - destruct (advance_root_loop_spec (S (length (labels T))) R d hd) as (n & -> & Hn & _); try done; [by apply Hb| |].
    { pose proof (length_labels_sub R T HR). lia. }
    exists R, n. split_and!; [done|done|apply subs_self|done].
  - rewrite (get_height_Ok _ _ _ Hhr). cbn [lift map_err mbind outcome_bind].
    assert (∃ a n, Ok (root R, root R) = @Ok ReachabilityError _ (root a, root n) ∧ a ∈ subs T ∧ R ∈ subs a ∧ n ∈ subs a) as Hstay.
    { exists R, R. split_and!; [done|done|apply subs_self..]. }
    destruct (Z.ltb_spec hd hr); [done|]. unfold is_u64 in *. chk. destruct (Z.ltb_spec (hd - hr) slack); [done|].
    unfold find_common_tree_ancestor. assert (count st = Ok (base.size (map st))) as -> by done.
    cbn [lift map_err mbind outcome_bind]. rewrite (count_labels _ _ HT).
    destruct (find_common_loop_spec (S (length (labels T))) d R) as (a & -> & Ha & Hda & HRa); [done|done|lia|].
    cbn [mbind outcome_bind].
    destruct (advance_root_loop_spec (S (length (labels T))) a d hd) as (n & -> & Hn & _); try done.
    { intros ->. destruct (heights_sub st T a R hd hr Hheights Ha HRa Hhd Hhr). lia. }
    { pose proof (length_labels_sub a T Ha). lia. }
    by exists a, n.
Qed.
End Find.

(** ** The advance *)

(** The widths along a chain shrink. *)
Lemma width_ancestor st T a s : wf st T → a ∈ subs T → s ∈ subs a → width (ivl st (root s)) ≤ width (ivl st (root a)).
Proof.
  intros [HT Hiv Hfull] Ha Hs. destruct (descendant_interval st a s) as [H1 H2]; [|done|].
  { intros u Hu. apply Hiv. by eapply subs_trans. }
  unfold width. destruct H2 as [->|H2]; lia.
Qed.

Lemma wf_midway T slack st p : 0 ≤ slack → wf st T → p ∈ subs T → (4 * slack + 3) * tsize T ≤ width (ivl st (root p)) →
  midway T slack st p.
Proof.
  intros Hslack [HT Hiv Hfull] Hp Hw. pose proof (tsize_sub p T Hp). split; try done.
  - intros s Hs _. by apply Hiv.
  - by apply Hiv.
  - nia.
Qed.

Lemma wf_set_root st T r : wf st T → wf (mkStore (map st) r) T.
Proof. intros [[H1 H2 H3 H4 H5] H6 H7]. constructor; [constructor; assumption|exact H6|exact H7]. Qed.

(** [try_advancing_reindex_root]: the reindex root moves to a block of the
    tree, and nothing but intervals changes. *)
Lemma try_advancing_reindex_root_spec T st rroot hint depth slack :
  wf st T → heights_ok st T → tsize T < U64_MAX → 1 ≤ depth → 1 ≤ slack →
  reindex_root st = Some rroot → rroot ∈ labels T → hint ∈ labels T → hint ≠ rroot →
  (4 * slack + 3) * tsize T ≤ width (ivl st rroot) →
  ∃ st' next, try_advancing_reindex_root st hint depth slack = Ok st' ∧ wf st' T ∧
    erase <$> map st = erase <$> map st' ∧ reindex_root st' = Some next ∧ next ∈ labels T.
Proof.
  intros Hwf Hh Hb Hd Hs Hroot (R & HR & HRr)%elem_of_labels (d & HdT & Hdh)%elem_of_labels Hne Hw. subst rroot hint.
  pose proof Hwf as [HT Hiv Hfull]. unfold try_advancing_reindex_root.
  assert (get_reindex_root st = Ok (root R)) as -> by (simpl; unfold mem_get_reindex_root; by rewrite Hroot).
  cbn [lift map_err mbind outcome_bind].
  destruct (find_next_reindex_root_spec T st Hwf Hh depth slack Hd Hs R d) as (a & n & -> & Ha & HRa & Hn);
    [done|done|congruence|]. cbn [mbind outcome_bind].
  destruct (Z.eqb_spec (root R) (root n)) as [Heq|Hne'].
  { exists st, (root R). split_and!; try done. apply elem_of_labels. eauto. }
  assert (count st = Ok (base.size (map st))) as -> by done. cbn [lift map_err mbind outcome_bind].
  rewrite (count_labels _ _ HT).
  destruct (concentrate_loop_spec T Hb slack ltac:(lia) st Hwf (S (length (labels T))) st a n) as (st' & -> & Hwf' & [Hsh1 Hsh2] & _); try done.
  { apply wf_midway; try done; [lia|]. pose proof (width_ancestor st T a R Hwf Ha HRa). lia. }
  { intros _. by apply Hiv. }
  { pose proof (length_labels_sub a T Ha). lia. }
  cbn [mbind outcome_bind]. assert (n ∈ subs T) as HnT by (by eapply subs_trans).
  eexists (mkStore (map st') (Some (root n))), (root n). split_and!; try done.
  - by apply wf_set_root.
  - apply elem_of_labels. eauto.
Qed.

Lemma erase_field {A} (f : MemoryReachabilityData → A) st st' b : (∀ d, f (erase d) = f d) →
  erase <$> map st = erase <$> map st' → f <$> map st' !! b = f <$> map st !! b.
Proof.
  intros Hf He. pose proof (f_equal (.!! b) He) as Hl. rewrite !lookup_fmap in Hl.
  destruct (map st !! b) as [d|], (map st' !! b) as [d'|]; simpl in *; try done.
  f_equal. rewrite <- (Hf d), <- (Hf d'). congruence.
Qed.

Lemma hint_spec par st T rroot hint :
  dag_ok par st T → heights_ok st T → tsize T < U64_MAX →
  reindex_root st = Some rroot → rroot ∈ labels T → hint ∈ labels T → hint ≠ rroot →
  (4 * DEFAULT_REINDEX_SLACK + 3) * tsize T ≤ width (ivl st rroot) →
  ∃ st' next, hint_virtual_selected_parent st hint = Ok st' ∧ dag_ok par st' T ∧ heights_ok st' T ∧
    reindex_root st' = Some next ∧ next ∈ labels T.
Proof.
  intros [Hwf Hpar Hcov] Hh Hb Hroot HR Hhint Hne Hw.
  destruct (try_advancing_reindex_root_spec T st rroot hint DEFAULT_REINDEX_DEPTH DEFAULT_REINDEX_SLACK)
    as (st' & next & Hrun & Hwf' & He & Hr' & Hnext); try done.
  exists st', next. split_and!; try done.
  - split; [done..|]. intros x Hx. destruct (Hcov x Hx) as (l & Hl & Hc). exists l. split; [|done].
    unfold fcs_of in *. by rewrite (erase_field future_covering_set st st').
  - intros s Hs. destruct (Hh s Hs) as (h & H1 & H2 & H3). exists h. unfold height_of in *.
    setoid_rewrite (erase_field height st st'); done.
Qed.

(** [hint_virtual_selected_parent] keeps the index in order: given a block
    of the DAG other than the reindex root, and room in the interval of the
    reindex root, it succeeds, changes nothing but intervals and the reindex
    root (which moves to a block of the DAG), and afterwards the index still
    answers reachability of the same DAG. *)
Theorem hint_maintains_index par st T rroot hint :
  dag_ok par st T → heights_ok st T → tsize T < U64_MAX →
  reindex_root st = Some rroot → rroot ∈ labels T → hint ∈ labels T → hint ≠ rroot →
  (4 * DEFAULT_REINDEX_SLACK + 3) * tsize T ≤ width (ivl st rroot) →
  ∃ st' next, hint_virtual_selected_parent st hint = Ok st' ∧ dag_ok par st' T ∧ heights_ok st' T ∧
    reindex_root st' = Some next ∧ next ∈ labels T.
Proof.
  intros Hdag Hh Hb Hroot HR Hhint Hne Hw. by apply (hint_spec par st T rroot).
Qed.

Module HintWitness.
Import ReachWitness.

Lemma two_tree_eq : two_tree = Node ORIGIN [Node block []].
Proof. vm_compute. reflexivity. Qed.

Lemma two_heights : heights_ok two_store two_tree.
Proof.
  rewrite two_tree_eq. intros s Hs. apply subs_node in Hs as [->|(t & ->%list_elem_of_singleton & Hs)].
  - exists 0. split; [vm_compute; reflexivity|]. split; [done|]. intros k ->%list_elem_of_singleton. vm_compute. reflexivity.
  - apply subs_node in Hs as [->|(u & []%elem_of_nil & _)]. exists 1. split; [vm_compute; reflexivity|].
    split; [done|by intros k ?%elem_of_nil].
Qed.

Lemma two_room : tsize two_tree < U64_MAX ∧ ORIGIN ∈ labels two_tree ∧ block ∈ labels two_tree ∧
  (4 * DEFAULT_REINDEX_SLACK + 3) * tsize two_tree ≤ width (ivl two_store ORIGIN).
Proof.
  split; [vm_compute; reflexivity|]. rewrite two_tree_eq. split; [by left|]. split; [right; by left|]. vm_compute. discriminate.
Qed.

Lemma hint_maintains_index_witness : ∃ st' next,
  hint_virtual_selected_parent two_store block = Ok st' ∧
  dag_ok (extend no_parents block [ORIGIN]) st' two_tree ∧ reindex_root st' = Some next.
Proof.
  destruct two_room as (H1 & H2 & H3 & H4).
  assert (reindex_root two_store = Some ORIGIN) as Hr by (vm_compute; reflexivity).
  destruct (hint_maintains_index (extend no_parents block [ORIGIN]) two_store two_tree ORIGIN block two_ok two_heights H1 Hr H2 H3)
    as (st' & next & Hrun & Hok & _ & Hroot & _); [discriminate|exact H4|].
  exact (ex_intro _ st' (ex_intro _ next (conj Hrun (conj Hok Hroot)))).
Defined.
End HintWitness.
