(* ===== verification/Bytes.v ===== *)
(** * Byte strings and the external cryptography

    Little-endian integers as byte strings, shared by the hashing, address and
    script components, and the interface of the cryptographic packages the
    node calls (BLAKE2b, SHA-256 and the ML-DSA-87 verifier), which are not
    part of the repository. *)

From stdpp Require Import base list gmap.
From Stdlib Require Import ZArith Lia.
From S2P Require Import Prelude Tx.

Local Open Scope Z_scope.

(** Lengths as the [usize] values the code compares. *)
Abbreviation len l := (Z.of_nat (length l)).

Definition is_byte (b : Z) : Prop := 0 ≤ b < 256.
Fixpoint le_val (u : list byte) : Z :=
  match u with [] => 0 | b :: u => b + 256 * le_val u end.

(** [to_le_bytes] of an unsigned integer of [n] bytes. *)
Fixpoint to_le_bytes (n : nat) (z : Z) : list byte :=
  match n with O => [] | S n => z mod 256 :: to_le_bytes n (z / 256) end.

(** A decidable property of a range of integers is checked by running it. *)
Lemma forallb_range (P : Z → bool) lo n z :
  forallb P (seqZ lo n) = true → lo ≤ z < lo + n → P z = true.
Proof. rewrite forallb_forall. intros HP Hz. apply HP, list_elem_of_In, elem_of_seqZ. lia. Qed.

Lemma land_ff b : Z.land b 0xff = b mod 256.
Proof. change 0xff with (Z.ones 8). by rewrite Z.land_ones. Qed.
Lemma land_7f b : Z.land b 0x7f = b mod 128.
Proof. change 0x7f with (Z.ones 7). by rewrite Z.land_ones. Qed.
Lemma land_80 b : is_byte b → (Z.land b 0x80 =? 0) = (b <? 128).
Proof.
  intros Hb. apply Bool.eqb_prop.
  apply (forallb_range (λ b, Bool.eqb (Z.land b 0x80 =? 0) (b <? 128)) 0 256); [by vm_compute|].
  unfold is_byte in Hb. lia.
Qed.
Lemma lor_80 b : 0 ≤ b < 128 → Z.lor b 0x80 = b + 128.
Proof.
  intros Hb. apply Z.eqb_eq.
  apply (forallb_range (λ b, Z.lor b 0x80 =? b + 128) 0 128); [by vm_compute|lia].
Qed.
Lemma shiftr_8 n : Z.shiftr n 8 = n / 256.
Proof. by rewrite Z.shiftr_div_pow2. Qed.
Lemma shiftr_7 n : Z.shiftr n 7 = n / 128.
Proof. by rewrite Z.shiftr_div_pow2. Qed.

Lemma le_val_app u w : le_val (u ++ w) = le_val u + 256 ^ Z.of_nat (length u) * le_val w.
Proof.
  induction u as [|b u IH]; cbn [le_val app length]; [lia|].
  rewrite IH, Nat2Z.inj_succ, Z.pow_succ_r by lia. ring.
Qed.

Lemma le_val_bound u : Forall is_byte u → 0 ≤ le_val u < 256 ^ Z.of_nat (length u).
Proof.
  induction 1 as [|b u Hb Hu IH]; cbn [le_val length]; [done|].
  rewrite Nat2Z.inj_succ, Z.pow_succ_r by lia. unfold is_byte in Hb. lia.
Qed.

(** A computation that neither panics nor runs out of fuel. *)
Definition safe {E A} (m : outcome E A) : Prop := m ≠ Panic ∧ m ≠ OutOfFuel.

Lemma safe_Ok {E A} (a : A) : safe (@Ok E A a).
Proof. done. Qed.
Lemma safe_Err {E A} (e : E) : safe (@Err E A e).
Proof. done. Qed.
#[export] Hint Resolve safe_Ok safe_Err : misaka.

Lemma safe_bind {E A B} (m : outcome E A) (f : A → outcome E B) :
  safe m → (∀ a, m = Ok a → safe (f a)) → safe (m ≫= f).
Proof. intros [??] Hf. destruct m; try done. by apply Hf. Qed.

Lemma length_to_le_bytes n z : length (to_le_bytes n z) = n.
Proof. revert z. induction n; intros; simpl; auto. Qed.

Lemma to_le_bytes_1 z : to_le_bytes 1 z = [z mod 256].
Proof. done. Qed.

Lemma to_le_bytes_byte n z : Forall is_byte (to_le_bytes n z).
Proof.
  revert z. induction n as [|n IH]; intros z; simpl; constructor; [|done].
  unfold is_byte. apply Z.mod_pos_bound. lia.
Qed.

Lemma le_val_to_le_bytes n z : 0 ≤ z < 256 ^ Z.of_nat n → le_val (to_le_bytes n z) = z.
Proof.
  revert z. induction n as [|n IH]; intros z Hz; simpl; [lia|].
  rewrite Nat2Z.inj_succ, Z.pow_succ_r in Hz by lia.
  rewrite IH by (split; [apply Z.div_pos; lia|apply Z.div_lt_upper_bound; lia]).
  pose proof (Z.div_mod z 256). lia.
Qed.

Lemma to_le_bytes_le_val u : Forall is_byte u → to_le_bytes (length u) (le_val u) = u.
Proof.
  induction 1 as [|b u Hb Hu IH]; [done|]. cbn [length to_le_bytes le_val]. unfold is_byte in Hb.
  rewrite (Z.mul_comm 256), Z.mod_add, Z.mod_small, Z.div_add, Z.div_small by lia.
  by rewrite Z.add_0_l, IH.
Qed.

(** Fixed-width encodings are prefix codes: the value and what follows can be
    read back. *)
Lemma to_le_bytes_app_inj n z1 z2 l1 l2 :
  0 ≤ z1 < 256 ^ Z.of_nat n → 0 ≤ z2 < 256 ^ Z.of_nat n →
  to_le_bytes n z1 ++ l1 = to_le_bytes n z2 ++ l2 → z1 = z2 ∧ l1 = l2.
Proof.
  intros H1 H2 Heq. apply app_inj_1 in Heq as [Hz ->]; [|by rewrite !length_to_le_bytes].
  split; [|done]. rewrite <- (le_val_to_le_bytes n z1), <- (le_val_to_le_bytes n z2) by done.
  by rewrite Hz.
Qed.

#[global] Arguments to_le_bytes : simpl never.
#[global] Opaque to_le_bytes.

(** ** External cryptography *)

(** The packages [blake2b_simd], [sha2] and [libcrux_ml_dsa]: keyed BLAKE2b
    with a chosen digest length, SHA-256, and the portable ML-DSA-87 verifier
    as its [is_ok()]. What the node relies on is the shape of the digests. *)
Class Crypto := {
  blake2b : nat → list byte → list byte → list byte;
  sha256 : list byte → list byte;
  mldsa87_verify (key message context signature : list byte) : bool;
  blake2b_length n k d : length (blake2b n k d) = n;
  blake2b_bytes n k d : Forall is_byte (blake2b n k d);
  sha256_bytes d : Forall is_byte (sha256 d);
}.

(** A toy instance, for running the definitions: digests that only read the
    beginning of their input, and a verifier that compares first bytes. *)
Definition toy_digest (n : nat) (d : list byte) : list byte :=
  to_le_bytes n (le_val (take n ((λ b, b mod 256) <$> d))).
Lemma toy_digest_length n d : length (toy_digest n d) = n.
Proof. apply length_to_le_bytes. Qed.
Lemma toy_digest_bytes n d : Forall is_byte (toy_digest n d).
Proof. apply to_le_bytes_byte. Qed.
Definition toy_crypto : Crypto := {|
  blake2b n k d := toy_digest n d;
  sha256 d := toy_digest 32 d;
  mldsa87_verify key _ _ signature := bool_decide (head key = head signature);
  blake2b_length n _ d := toy_digest_length n d;
  blake2b_bytes n _ d := toy_digest_bytes n d;
  sha256_bytes d := toy_digest_bytes 32 d;
|}.
