(* ===== verification/Hashing.v ===== *)
(** * Transaction hashes and signature hashes

    Models [src/consensus/core/src/hashing/{mod,tx,sighash_type,sighash}.rs]
    and the hashers of [src/crypto/hashes/src/hashers.rs]: how a transaction is
    written into the hasher for its id and its hash, and the transcript an
    ML-DSA-87 signature commits to, with the cache of sub-hashes shared by the
    inputs. A hasher is its domain key, its digest length and the bytes written
    to it so far; only [finalize] calls the BLAKE2b package. *)

From stdpp Require Import base list gmap strings.
From Stdlib Require Import ZArith Lia.
From S2P Require Import Prelude Tx Bytes.

Local Open Scope Z_scope.

(** A Rust byte-string literal. *)
Definition b_ (s : string) : list byte :=
  (λ a, Z.of_N (Ascii.N_of_ascii a)) <$> String.list_ascii_of_string s.

(** ** Hashers *)

Record Hasher := mkHasher {
  hasher_key : list byte;
  hasher_length : nat;
  written : list byte;
}.

(** [blake2b_hasher!] and [blake2b_512_hasher!]. *)
Definition TransactionSigningHash : Hasher := mkHasher (b_ "TransactionSigningHash") 32 [].
Definition TransactionId64 : Hasher := mkHasher (b_ "TransactionID64") 64 [].
Definition TransactionHash64 : Hasher := mkHasher (b_ "TransactionHash64") 64 [].
Definition TransactionSigningHash64 : Hasher := mkHasher (b_ "TransactionSigningHash64") 64 [].

Definition update (h : Hasher) (data : list byte) : Hasher :=
  mkHasher (hasher_key h) (hasher_length h) (written h ++ data).
Definition finalize `{Crypto} (h : Hasher) : list byte :=
  blake2b (hasher_length h) (hasher_key h) (written h).

(** [HasherExtensions]. *)
Definition write_len (h : Hasher) (n : Z) : Hasher := update h (to_le_bytes 8 n).
Definition write_u8 (h : Hasher) (z : Z) : Hasher := update h (to_le_bytes 1 z).
Definition write_u16 (h : Hasher) (z : Z) : Hasher := update h (to_le_bytes 2 z).
Definition write_u32 (h : Hasher) (z : Z) : Hasher := update h (to_le_bytes 4 z).
Definition write_u64 (h : Hasher) (z : Z) : Hasher := update h (to_le_bytes 8 z).
Definition write_var_bytes (h : Hasher) (bytes : list byte) : Hasher :=
  update (write_len h (len bytes)) bytes.

(** [Hash64::as_bytes] and [Hash64::from_bytes]. *)
Definition hash64_bytes (h : Hash64) : list byte := to_le_bytes 64 h.
Definition hash64_from_bytes (bytes : list byte) : Hash64 := le_val bytes.

(** ** Transaction id and hash *)

(** [TxEncodingFlags]. *)
Record TxEncodingFlags := mkTxEncodingFlags {
  EXCLUDE_SIGNATURE_SCRIPT : bool;
  EXCLUDE_MASS_COMMIT : bool;
}.
Definition FULL : TxEncodingFlags := mkTxEncodingFlags false false.

Definition write_outpoint (h : Hasher) (o : TransactionOutpoint) : Hasher :=
  update (update h (hash64_bytes (transaction_id o))) (to_le_bytes 4 (index o)).

Definition write_input (flags : TxEncodingFlags) (h : Hasher) (i : TransactionInput) : Hasher :=
  let h := write_outpoint h (previous_outpoint i) in
  let h :=
    if negb (EXCLUDE_SIGNATURE_SCRIPT flags)
    then update (write_var_bytes h (signature_script i)) [sig_op_count i]
    else write_var_bytes h [] in
  update h (to_le_bytes 8 (sequence i)).

Definition write_output (h : Hasher) (o : TransactionOutput) : Hasher :=
  let h := update h (to_le_bytes 8 (value o)) in
  let h := update h (to_le_bytes 2 (spk_version (out_script_public_key o))) in
  write_var_bytes h (spk_script (out_script_public_key o)).

Definition write_transaction (h : Hasher) (tx : Transaction) (flags : TxEncodingFlags) : Hasher :=
  let h := update h (to_le_bytes 2 (tx_version tx)) in
  let h := write_len h (len (inputs tx)) in
  let h := foldl (write_input flags) h (inputs tx) in
  let h := write_len h (len (outputs tx)) in
  let h := foldl write_output h (outputs tx) in
  let h := update h (to_le_bytes 8 (lock_time tx)) in
  let h := update h (subnetwork_bytes (subnetwork_id tx)) in
  let h := update h (to_le_bytes 8 (gas tx)) in
  let h := write_var_bytes h (payload tx) in
  if negb (EXCLUDE_MASS_COMMIT flags) && (mass_commitment tx >? 0)
  then update h (to_le_bytes 8 (mass_commitment tx)) else h.

Definition tx_hash `{Crypto} (tx : Transaction) : Hash64 :=
  hash64_from_bytes (finalize (write_transaction TransactionHash64 tx FULL)).
Definition hash_pre_crescendo `{Crypto} (tx : Transaction) : Hash64 :=
  hash64_from_bytes (finalize (write_transaction TransactionHash64 tx (mkTxEncodingFlags false true))).
Definition id_flags (tx : Transaction) : TxEncodingFlags :=
  if is_coinbase tx then FULL else mkTxEncodingFlags true true.
Definition tx_id_hash `{Crypto} (tx : Transaction) : Hash64 :=
  hash64_from_bytes (finalize (write_transaction TransactionId64 tx (id_flags tx))).

(** ** Signature hash types *)

Abbreviation SigHashType := Z (only parsing).
Definition SIG_HASH_ALL : SigHashType := 1.
Definition SIG_HASH_NONE : SigHashType := 2.
Definition SIG_HASH_SINGLE : SigHashType := 4.
Definition SIG_HASH_ANY_ONE_CAN_PAY : SigHashType := 128.
Definition SIG_HASH_MASK : Z := 7.

Definition ALLOWED_SIG_HASH_TYPES_VALUES : list Z :=
  [SIG_HASH_ALL; SIG_HASH_NONE; SIG_HASH_SINGLE;
   Z.lor SIG_HASH_ALL SIG_HASH_ANY_ONE_CAN_PAY;
   Z.lor SIG_HASH_NONE SIG_HASH_ANY_ONE_CAN_PAY;
   Z.lor SIG_HASH_SINGLE SIG_HASH_ANY_ONE_CAN_PAY].

Definition is_sighash_all (t : SigHashType) : bool := Z.land t SIG_HASH_MASK =? SIG_HASH_ALL.
Definition is_sighash_none (t : SigHashType) : bool := Z.land t SIG_HASH_MASK =? SIG_HASH_NONE.
Definition is_sighash_single (t : SigHashType) : bool := Z.land t SIG_HASH_MASK =? SIG_HASH_SINGLE.
Definition is_sighash_anyone_can_pay (t : SigHashType) : bool :=
  Z.land t SIG_HASH_ANY_ONE_CAN_PAY =? SIG_HASH_ANY_ONE_CAN_PAY.
Definition SigHashType_from_u8 (val : Z) : option SigHashType :=
  if bool_decide (val ∈ ALLOWED_SIG_HASH_TYPES_VALUES) then Some val else None.

(** ** The ML-DSA-87 signature hash *)

Definition MLDSA87_SIGHASH_DOMAIN : list byte := b_ "kaspa-pq-v2/sighash/mldsa87".
Definition ZERO_HASH64 : list byte := replicate 64 0.

(** [Mldsa87SigHashReusedValuesUnsync]: a cell per sub-hash. Each getter of
    the trait returns the cell, or fills it with the value of the closure. *)
Record ReusedValues := mkReusedValues {
  r_previous_outputs_hash : option (list byte);
  r_sequences_hash : option (list byte);
  r_sig_op_counts_hash : option (list byte);
  r_outputs_hash : option (list byte);
  r_payload_hash : option (list byte);
}.
Definition ReusedValues_new : ReusedValues := mkReusedValues None None None None None.

Definition reuse_previous_outputs_hash (set : list byte) (r : ReusedValues) : list byte * ReusedValues :=
  match r_previous_outputs_hash r with
  | Some h => (h, r)
  | None => (set, mkReusedValues (Some set) (r_sequences_hash r) (r_sig_op_counts_hash r)
                    (r_outputs_hash r) (r_payload_hash r))
  end.
Definition reuse_sequences_hash (set : list byte) (r : ReusedValues) : list byte * ReusedValues :=
  match r_sequences_hash r with
  | Some h => (h, r)
  | None => (set, mkReusedValues (r_previous_outputs_hash r) (Some set) (r_sig_op_counts_hash r)
                    (r_outputs_hash r) (r_payload_hash r))
  end.
Definition reuse_sig_op_counts_hash (set : list byte) (r : ReusedValues) : list byte * ReusedValues :=
  match r_sig_op_counts_hash r with
  | Some h => (h, r)
  | None => (set, mkReusedValues (r_previous_outputs_hash r) (r_sequences_hash r) (Some set)
                    (r_outputs_hash r) (r_payload_hash r))
  end.
Definition reuse_outputs_hash (set : list byte) (r : ReusedValues) : list byte * ReusedValues :=
  match r_outputs_hash r with
  | Some h => (h, r)
  | None => (set, mkReusedValues (r_previous_outputs_hash r) (r_sequences_hash r)
                    (r_sig_op_counts_hash r) (Some set) (r_payload_hash r))
  end.
Definition reuse_payload_hash (set : list byte) (r : ReusedValues) : list byte * ReusedValues :=
  match r_payload_hash r with
  | Some h => (h, r)
  | None => (set, mkReusedValues (r_previous_outputs_hash r) (r_sequences_hash r)
                    (r_sig_op_counts_hash r) (r_outputs_hash r) (Some set))
  end.

Definition mldsa87_write_outpoint (h : Hasher) (o : TransactionOutpoint) : Hasher :=
  update (update h (hash64_bytes (transaction_id o))) (to_le_bytes 4 (index o)).
Definition mldsa87_write_script_public_key (h : Hasher) (spk : ScriptPublicKey) : Hasher :=
  let h := update h (to_le_bytes 2 (spk_version spk)) in
  let h := update h (to_le_bytes 8 (len (spk_script spk))) in
  update h (spk_script spk).
Definition mldsa87_write_output (h : Hasher) (o : TransactionOutput) : Hasher :=
  mldsa87_write_script_public_key (update h (to_le_bytes 8 (value o))) (out_script_public_key o).

Section sighash.
Context `{Crypto}.

Definition mldsa87_previous_outputs_hash (tx : Transaction) (hash_type : SigHashType)
    (r : ReusedValues) : list byte * ReusedValues :=
  if is_sighash_anyone_can_pay hash_type then (ZERO_HASH64, r)
  else
    reuse_previous_outputs_hash
      (finalize (foldl (λ h i, mldsa87_write_outpoint h (previous_outpoint i))
        TransactionSigningHash64 (inputs tx))) r.

Definition mldsa87_sequences_hash (tx : Transaction) (hash_type : SigHashType)
    (r : ReusedValues) : list byte * ReusedValues :=
  if is_sighash_single hash_type || is_sighash_anyone_can_pay hash_type || is_sighash_none hash_type
  then (ZERO_HASH64, r)
  else
    reuse_sequences_hash
      (finalize (foldl (λ h i, update h (to_le_bytes 8 (sequence i)))
        TransactionSigningHash64 (inputs tx))) r.

Definition mldsa87_sig_op_counts_hash (tx : Transaction) (hash_type : SigHashType)
    (r : ReusedValues) : list byte * ReusedValues :=
  if is_sighash_anyone_can_pay hash_type then (ZERO_HASH64, r)
  else
    reuse_sig_op_counts_hash
      (finalize (foldl (λ h i, update h [sig_op_count i]) TransactionSigningHash64 (inputs tx))) r.

Definition mldsa87_payload_hash (tx : Transaction) (r : ReusedValues) : list byte * ReusedValues :=
  if is_native (subnetwork_id tx) && bool_decide (payload tx = []) then (ZERO_HASH64, r)
  else
    reuse_payload_hash
      (finalize (update (update TransactionSigningHash64 (to_le_bytes 8 (len (payload tx))))
        (payload tx))) r.

Definition mldsa87_outputs_hash (tx : Transaction) (hash_type : SigHashType)
    (input_index : nat) (r : ReusedValues) : list byte * ReusedValues :=
  if is_sighash_none hash_type then (ZERO_HASH64, r)
  else if is_sighash_single hash_type then
    match outputs tx !! input_index with
    | None => (ZERO_HASH64, r)
    | Some o => (finalize (mldsa87_write_output TransactionSigningHash64 o), r)
    end
  else
    reuse_outputs_hash
      (finalize (foldl mldsa87_write_output TransactionSigningHash64 (outputs tx))) r.

Definition calc_mldsa87_signature_hash {E} (verifiable_tx : PopulatedTransaction)
    (input_index : nat) (hash_type : SigHashType) (r : ReusedValues) :
    outcome E (list byte * ReusedValues) :=
  '(input, entry) ← populated_input verifiable_tx input_index;
  let tx := pop_tx verifiable_tx in
  let h := update TransactionSigningHash64 MLDSA87_SIGHASH_DOMAIN in
  let h := update h (to_le_bytes 2 (tx_version tx)) in
  let '(x, r) := mldsa87_previous_outputs_hash tx hash_type r in
  let h := update h x in
  let '(x, r) := mldsa87_sequences_hash tx hash_type r in
  let h := update h x in
  let '(x, r) := mldsa87_sig_op_counts_hash tx hash_type r in
  let h := update h x in
  let h := mldsa87_write_outpoint h (previous_outpoint input) in
  let h := mldsa87_write_script_public_key h (script_public_key entry) in
  let h := update h (to_le_bytes 8 (amount entry)) in
  let h := update h (to_le_bytes 8 (sequence input)) in
  let h := update h [sig_op_count input] in
  let '(x, r) := mldsa87_outputs_hash tx hash_type input_index r in
  let h := update h x in
  let h := update h (to_le_bytes 8 (lock_time tx)) in
  let h := update h (subnetwork_bytes (subnetwork_id tx)) in
  let h := update h (to_le_bytes 8 (gas tx)) in
  let '(x, r) := mldsa87_payload_hash tx r in
  let h := update h x in
  let h := update h [hash_type] in
  Ok (finalize h, r).
End sighash.

(** ** Prefix codes

    An encoding is a prefix code on a domain when the value and the rest of
    the stream can be read back from the concatenation. *)
Class PrefixCode {A} (enc : A → list byte) (dom : A → Prop) : Prop :=
  prefix_code a1 a2 l1 l2 : dom a1 → dom a2 → enc a1 ++ l1 = enc a2 ++ l2 → a1 = a2 ∧ l1 = l2.

Definition is_uint (n : nat) (z : Z) : Prop := 0 ≤ z < 256 ^ Z.of_nat n.

#[export] Instance uint_code n : PrefixCode (to_le_bytes n) (is_uint n).
Proof. intros z1 z2 l1 l2. apply to_le_bytes_app_inj. Qed.

#[export] Instance byte_code : PrefixCode (λ b, [b]) (λ _, True).
Proof. intros b1 b2 l1 l2 _ _ [= -> ->]. done. Qed.

(** Byte arrays of a fixed length need no prefix; byte vectors have one. *)
#[export] Instance array_code n : PrefixCode (λ l : list byte, l) (λ l, length l = n).
Proof. intros a1 a2 l1 l2 H1 H2. apply app_inj_1. congruence. Qed.

Definition enc_var_bytes (l : list byte) : list byte := to_le_bytes 8 (len l) ++ l.
Definition short {A} (l : list A) : Prop := is_uint 8 (len l).

#[export] Instance var_bytes_code : PrefixCode enc_var_bytes short.
Proof.
  intros a1 a2 l1 l2 H1 H2. unfold enc_var_bytes. rewrite <- !app_assoc.
  intros [Hlen Heq]%prefix_code; [|done..]. apply app_inj_1 in Heq; [done|lia].
Qed.

(** A counted list of self-delimiting elements. *)
Lemma concat_code {A} (enc : A → list byte) dom `{!PrefixCode enc dom} xs1 xs2 l1 l2 :
  Forall dom xs1 → Forall dom xs2 → length xs1 = length xs2 →
  concat (enc <$> xs1) ++ l1 = concat (enc <$> xs2) ++ l2 → xs1 = xs2 ∧ l1 = l2.
Proof.
  intros H1. revert xs2. induction H1 as [|x xs1 Hx H1 IH]; intros [|y xs2] H2 Hlen; try done.
  inversion H2; subst. injection Hlen as Hlen. csimpl. rewrite <- !app_assoc.
  intros [-> Heq]%prefix_code; [|done..]. by apply IH in Heq as [-> ->].
Qed.

(** ** What is written *)

Lemma written_update h d : written (update h d) = written h ++ d.
Proof. done. Qed.

Lemma written_foldl {A} (f : Hasher → A → Hasher) (enc : A → list byte) l h :
  (∀ h a, written (f h a) = written h ++ enc a) →
  written (foldl f h l) = written h ++ concat (enc <$> l).
Proof.
  intros Hf. revert h. induction l as [|a l IH]; intros h; csimpl; [by rewrite app_nil_r|].
  rewrite IH, Hf. by rewrite <- app_assoc.
Qed.

(** The key and the digest length never change. *)
Definition params (h : Hasher) : list byte * nat := (hasher_key h, hasher_length h).

Lemma params_update h d : params (update h d) = params h.
Proof. done. Qed.

Lemma params_foldl {A} (f : Hasher → A → Hasher) l h :
  (∀ h a, params (f h a) = params h) → params (foldl f h l) = params h.
Proof.
  intros Hf. revert h. induction l as [|a l IH]; intros h; [done|]. simpl. by rewrite IH.
Qed.

Lemma finalize_params `{Crypto} h h' d :
  params h = params h' → written h = d →
  finalize h = blake2b (hasher_length h') (hasher_key h') d.
Proof. unfold params, finalize. by intros [= -> ->] ->. Qed.

Definition enc_outpoint (o : TransactionOutpoint) : list byte :=
  hash64_bytes (transaction_id o) ++ to_le_bytes 4 (index o).
Definition enc_input (flags : TxEncodingFlags) (i : TransactionInput) : list byte :=
  enc_outpoint (previous_outpoint i) ++
  (if EXCLUDE_SIGNATURE_SCRIPT flags then enc_var_bytes []
   else enc_var_bytes (signature_script i) ++ [sig_op_count i]) ++
  to_le_bytes 8 (sequence i).
Definition enc_spk (s : ScriptPublicKey) : list byte :=
  to_le_bytes 2 (spk_version s) ++ enc_var_bytes (spk_script s).
Definition enc_output (o : TransactionOutput) : list byte :=
  to_le_bytes 8 (value o) ++ enc_spk (out_script_public_key o).
Definition enc_tx (flags : TxEncodingFlags) (tx : Transaction) : list byte :=
  to_le_bytes 2 (tx_version tx) ++
  to_le_bytes 8 (len (inputs tx)) ++ concat (enc_input flags <$> inputs tx) ++
  to_le_bytes 8 (len (outputs tx)) ++ concat (enc_output <$> outputs tx) ++
  to_le_bytes 8 (lock_time tx) ++ subnetwork_bytes (subnetwork_id tx) ++
  to_le_bytes 8 (gas tx) ++ enc_var_bytes (payload tx) ++
  (if negb (EXCLUDE_MASS_COMMIT flags) && (mass_commitment tx >? 0)
   then to_le_bytes 8 (mass_commitment tx) else []).

Lemma written_input flags h i : written (write_input flags h i) = written h ++ enc_input flags i.
Proof.
  unfold write_input, enc_input, enc_outpoint, enc_var_bytes, write_outpoint, write_var_bytes, write_len.
  destruct (EXCLUDE_SIGNATURE_SCRIPT flags); cbn [negb]; rewrite !written_update, <- !app_assoc; done.
Qed.
Lemma written_output h o : written (write_output h o) = written h ++ enc_output o.
Proof.
  unfold write_output, enc_output, enc_spk, enc_var_bytes, write_var_bytes, write_len.
  by rewrite !written_update, <- !app_assoc.
Qed.
Lemma written_transaction h tx flags :
  written (write_transaction h tx flags) = written h ++ enc_tx flags tx.
Proof.
  unfold write_transaction, enc_tx, enc_var_bytes, write_var_bytes, write_len.
  destruct (_ && _); rewrite !written_update, (written_foldl _ enc_output) by apply written_output;
    rewrite !written_update, (written_foldl _ (enc_input flags)) by apply written_input;
    rewrite !written_update, <- ?app_assoc, ?app_nil_r; done.
Qed.

Lemma params_transaction h tx flags : params (write_transaction h tx flags) = params h.
Proof.
  unfold write_transaction, write_var_bytes, write_len.
  destruct (negb _ && _); rewrite !params_update, (params_foldl write_output) by done;
    rewrite params_update, params_foldl; try done;
    intros ??; unfold write_input; by destruct (negb _).
Qed.

(** ** Typing: the fields within the ranges of their Rust types *)

Record outpoint_typed (o : TransactionOutpoint) : Prop := {
  ot_id : is_uint 64 (transaction_id o);
  ot_index : is_uint 4 (index o);
}.
Record input_typed (i : TransactionInput) : Prop := {
  it_outpoint : outpoint_typed (previous_outpoint i);
  it_script : short (signature_script i);
  it_sequence : is_uint 8 (sequence i);
}.
Record spk_typed (s : ScriptPublicKey) : Prop := {
  st_version : is_uint 2 (spk_version s);
  st_script : short (spk_script s);
}.
Record output_typed (o : TransactionOutput) : Prop := {
  outt_value : is_uint 8 (value o);
  outt_spk : spk_typed (out_script_public_key o);
}.
Record tx_typed (tx : Transaction) : Prop := {
  tt_version : is_uint 2 (tx_version tx);
  tt_inputs : short (inputs tx) ∧ Forall input_typed (inputs tx);
  tt_outputs : short (outputs tx) ∧ Forall output_typed (outputs tx);
  tt_lock_time : is_uint 8 (lock_time tx);
  tt_subnetwork : length (subnetwork_bytes (subnetwork_id tx)) = SUBNETWORK_ID_SIZE;
  tt_gas : is_uint 8 (gas tx);
  tt_payload : short (payload tx);
  tt_mass : is_uint 8 (mass_commitment tx);
}.

#[export] Instance outpoint_code : PrefixCode enc_outpoint outpoint_typed.
Proof.
  intros [i1 x1] [i2 x2] l1 l2 [H1 H1'] [H2 H2']. unfold enc_outpoint, hash64_bytes. simpl in *.
  rewrite <- !app_assoc. intros [-> [-> ->]%prefix_code]%prefix_code; done.
Qed.
#[export] Instance spk_code : PrefixCode enc_spk spk_typed.
Proof.
  intros [v1 s1] [v2 s2] l1 l2 [H1 H1'] [H2 H2']. unfold enc_spk. simpl in *.
  rewrite <- !app_assoc. intros [-> [-> ->]%prefix_code]%prefix_code; done.
Qed.
#[export] Instance output_code : PrefixCode enc_output output_typed.
Proof.
  intros [v1 s1] [v2 s2] l1 l2 [H1 H1'] [H2 H2']. unfold enc_output. simpl in *.
  rewrite <- !app_assoc. intros [-> [-> ->]%prefix_code]%prefix_code; done.
Qed.

(** What the encoding flags leave of a transaction: without the signature
    script its operation count goes too, and the cached id is never hashed. *)
Definition strip_input (flags : TxEncodingFlags) (i : TransactionInput) : TransactionInput :=
  if EXCLUDE_SIGNATURE_SCRIPT flags then mkInput (previous_outpoint i) [] (sequence i) 0 else i.
Definition strip (flags : TxEncodingFlags) (tx : Transaction) : Transaction :=
  mkTransaction (tx_version tx) (strip_input flags <$> inputs tx) (outputs tx) (lock_time tx)
    (subnetwork_id tx) (gas tx) (payload tx)
    (if EXCLUDE_MASS_COMMIT flags then 0 else mass_commitment tx) 0.

#[export] Instance input_code flags :
  PrefixCode (enc_input flags) (λ i, input_typed i ∧ strip_input flags i = i).
Proof.
  intros [o1 s1 q1 c1] [o2 s2 q2 c2] l1 l2 [[H1 H1' H1''] E1] [[H2 H2' H2''] E2].
  unfold enc_input, strip_input in *. simpl in *. rewrite <- !app_assoc.
  intros [-> Heq]%prefix_code; [|done..]. destruct (EXCLUDE_SIGNATURE_SCRIPT flags).
  - apply app_inv_head in Heq.
    destruct (prefix_code _ _ _ _ H1'' H2'' Heq) as [-> ->]. split; congruence.
  - rewrite <- !app_assoc in Heq. 
    destruct (prefix_code _ _ _ _ H1' H2' Heq) as [-> Heq']. 
    destruct (byte_code _ _ _ _ I I Heq') as [-> Heq''].
    by destruct (prefix_code _ _ _ _ H1'' H2'' Heq'') as [-> ->].
Qed.

Lemma strip_input_idem flags i : strip_input flags (strip_input flags i) = strip_input flags i.
Proof. unfold strip_input. by destruct (EXCLUDE_SIGNATURE_SCRIPT flags). Qed.
Lemma strip_input_typed flags i : input_typed i → input_typed (strip_input flags i).
Proof.
  unfold strip_input. destruct (EXCLUDE_SIGNATURE_SCRIPT flags); [|done]. intros [???].
  split; [done| |done]. unfold short, is_uint. simpl. lia.
Qed.
Lemma enc_input_strip flags i : enc_input flags (strip_input flags i) = enc_input flags i.
Proof.
  unfold enc_input, strip_input.
  destruct (EXCLUDE_SIGNATURE_SCRIPT flags) eqn:E; [done|by rewrite ?E].
Qed.

Lemma strip_idem flags tx : strip flags (strip flags tx) = strip flags tx.
Proof.
  unfold strip. simpl. f_equal; [|by destruct (EXCLUDE_MASS_COMMIT flags)].
  rewrite <- list_fmap_compose. apply list_fmap_ext. intros ???. apply strip_input_idem.
Qed.
Lemma strip_typed flags tx : tx_typed tx → tx_typed (strip flags tx).
Proof.
  intros [??? ????Hm]. split; simpl; try done.
  - unfold short in *. rewrite length_fmap. split; [apply tt_inputs0|].
    apply Forall_fmap. eapply Forall_impl; [apply tt_inputs0|]. intros i. apply strip_input_typed.
  - destruct (EXCLUDE_MASS_COMMIT flags); [unfold is_uint; lia|done].
Qed.
Lemma enc_tx_strip flags tx : enc_tx flags (strip flags tx) = enc_tx flags tx.
Proof.
  unfold enc_tx, strip. simpl. rewrite length_fmap, <- list_fmap_compose.
  rewrite (list_fmap_ext _ (enc_input flags) (inputs tx)) by (intros; apply enc_input_strip).
  by destruct (EXCLUDE_MASS_COMMIT flags).
Qed.

(** The end of the encoding: the mass commitment, when it is written. *)
Definition enc_mass (flags : TxEncodingFlags) (tx : Transaction) : list byte :=
  if negb (EXCLUDE_MASS_COMMIT flags) && (mass_commitment tx >? 0)
  then to_le_bytes 8 (mass_commitment tx) else [].

Lemma strip_inputs f t :
  strip f t = t → Forall input_typed (inputs t) →
  Forall (λ i, input_typed i ∧ strip_input f i = i) (inputs t).
Proof.
  intros Et Ht. apply Forall_forall. intros i Hi. split; [by eapply Forall_forall|].
  rewrite <- Et in Hi. simpl in Hi. apply list_elem_of_fmap in Hi as (j & -> & _).
  apply strip_input_idem.
Qed.

Lemma enc_inputs_inj f1 f2 t1 t2 l1 l2 :
  Forall input_typed (inputs t1) → Forall input_typed (inputs t2) →
  strip f1 t1 = t1 → strip f2 t2 = t2 →
  f1 = f2 ∨ inputs t1 = [] ∨ inputs t2 = [] →
  length (inputs t1) = length (inputs t2) →
  concat (enc_input f1 <$> inputs t1) ++ l1 = concat (enc_input f2 <$> inputs t2) ++ l2 →
  inputs t1 = inputs t2 ∧ concat (enc_input f1 <$> inputs t1) = concat (enc_input f2 <$> inputs t2).
Proof.
  intros H1 H2 E1 E2 [<-|Hf] Hlen Heq.
  - destruct (concat_code _ _ _ _ _ _ (strip_inputs _ _ E1 H1) (strip_inputs _ _ E2 H2) Hlen Heq)
      as [-> _]. done.
  - assert (inputs t1 = [] ∧ inputs t2 = []) as [-> ->]; [|done].
    destruct Hf as [Hf|Hf]; rewrite Hf in Hlen; [destruct (inputs t2)|destruct (inputs t1)]; done.
Qed.

(** Equal encodings agree on every field before the mass commitment, and on
    the bytes of the mass commitment, also when the flags differ on a
    transaction without inputs. *)
Lemma enc_tx_fields f1 f2 t1 t2 :
  tx_typed t1 → tx_typed t2 → strip f1 t1 = t1 → strip f2 t2 = t2 →
  f1 = f2 ∨ inputs t1 = [] ∨ inputs t2 = [] →
  enc_tx f1 t1 = enc_tx f2 t2 →
  t1 = mkTransaction (tx_version t2) (inputs t2) (outputs t2) (lock_time t2) (subnetwork_id t2)
         (gas t2) (payload t2) (mass_commitment t1) 0 ∧
  enc_mass f1 t1 = enc_mass f2 t2.
Proof.
  intros [Hv1 [Hi1 Hi1'] [Ho1 Ho1'] Hl1 Hs1 Hg1 Hp1 _] [Hv2 [Hi2 Hi2'] [Ho2 Ho2'] Hl2 Hs2 Hg2 Hp2 _].
  intros E1 E2 Hf Heq. unfold enc_tx in Heq. fold (enc_mass f1 t1) (enc_mass f2 t2) in Heq.
  destruct (prefix_code _ _ _ _ Hv1 Hv2 Heq) as [Ev Heq1].
  destruct (to_le_bytes_app_inj _ _ _ _ _ Hi1 Hi2 Heq1) as [Ei Heq2]. apply Nat2Z.inj in Ei.
  destruct (enc_inputs_inj f1 f2 t1 t2 _ _ Hi1' Hi2' E1 E2 Hf Ei Heq2) as [Ein Ex].
  rewrite Ex in Heq2. apply app_inv_head in Heq2.
  destruct (to_le_bytes_app_inj _ _ _ _ _ Ho1 Ho2 Heq2) as [Eo Heq3]. apply Nat2Z.inj in Eo.
  destruct (concat_code _ _ _ _ _ _ Ho1' Ho2' Eo Heq3) as [Eout Heq4].
  destruct (prefix_code _ _ _ _ Hl1 Hl2 Heq4) as [El Heq5].
  destruct (array_code _ _ _ _ _ Hs1 Hs2 Heq5) as [Es Heq6].
  destruct (prefix_code _ _ _ _ Hg1 Hg2 Heq6) as [Eg Heq7].
  destruct (prefix_code _ _ _ _ Hp1 Hp2 Heq7) as [Ep Heq8].
  split; [|done]. assert (Eid : tx_id t1 = 0) by (by rewrite <- E1). clear -Ev Ein Eout El Es Eg Ep Eid.
  assert (subnetwork_id t1 = subnetwork_id t2)
    by (destruct (subnetwork_id t1), (subnetwork_id t2); simpl in *; congruence).
  destruct t1; simpl in *; congruence.
Qed.

Lemma enc_mass_inj f t1 t2 :
  tx_typed t1 → tx_typed t2 → strip f t1 = t1 → strip f t2 = t2 →
  enc_mass f t1 = enc_mass f t2 → mass_commitment t1 = mass_commitment t2.
Proof.
  intros [_ _ _ _ _ _ _ H1] [_ _ _ _ _ _ _ H2] E1 E2. unfold enc_mass.
  destruct (EXCLUDE_MASS_COMMIT f) eqn:Ef.
  - intros _. rewrite <- E1, <- E2. unfold strip. simpl. by rewrite Ef.
  - simpl. destruct (mass_commitment t1 >? 0) eqn:M1, (mass_commitment t2 >? 0) eqn:M2; intros Heq.
    + apply (to_le_bytes_app_inj 8 _ _ [] []); [done..|]. by rewrite !app_nil_r.
    + apply (f_equal length) in Heq. by rewrite length_to_le_bytes in Heq.
    + apply (f_equal length) in Heq. by rewrite length_to_le_bytes in Heq.
    + unfold is_uint in *. rewrite Z.gtb_ltb, Z.ltb_ge in *. lia.
Qed.

Lemma enc_tx_inj f t1 t2 :
  tx_typed t1 → tx_typed t2 → enc_tx f t1 = enc_tx f t2 → strip f t1 = strip f t2.
Proof.
  intros H1%(strip_typed f) H2%(strip_typed f) Heq. rewrite <- (enc_tx_strip f t1), <- (enc_tx_strip f t2) in Heq.
  destruct (enc_tx_fields f f _ _ H1 H2 (strip_idem _ _) (strip_idem _ _) ltac:(by left) Heq) as [E Em].
  apply enc_mass_inj in Em; [|done|done|apply strip_idem..]. rewrite E. rewrite Em. by destruct t2.
Qed.

(** ** What the digests commit to

    The theorems reduce to the hash function: two transactions with one digest
    either agree on what the digest commits to, or the two strings that the code
    hashes for them collide under the keyed BLAKE2b. *)
Definition collides `{Crypto} (h1 h2 : Hasher) : Prop :=
  params h1 = params h2 ∧ written h1 ≠ written h2 ∧ finalize h1 = finalize h2.

Lemma finalize_eq `{Crypto} h1 h2 :
  params h1 = params h2 → finalize h1 = finalize h2 → written h1 = written h2 ∨ collides h1 h2.
Proof. intros. destruct (decide (written h1 = written h2)); [by left|by right]. Qed.

Lemma hash64_from_bytes_inj a b :
  length a = 64%nat → length b = 64%nat → Forall is_byte a → Forall is_byte b →
  hash64_from_bytes a = hash64_from_bytes b → a = b.
Proof.
  unfold hash64_from_bytes. intros Ha Hb Ha' Hb' Heq.
  rewrite <- (to_le_bytes_le_val a), <- (to_le_bytes_le_val b) by done. by rewrite Ha, Hb, Heq.
Qed.

Lemma digest_eq `{Crypto} h f1 f2 t1 t2 :
  hasher_length h = 64%nat →
  hash64_from_bytes (finalize (write_transaction h t1 f1)) =
    hash64_from_bytes (finalize (write_transaction h t2 f2)) →
  enc_tx f1 t1 = enc_tx f2 t2 ∨ collides (write_transaction h t1 f1) (write_transaction h t2 f2).
Proof.
  intros Hh Heq. apply hash64_from_bytes_inj in Heq; cycle 1.
  1-4: unfold finalize; pose proof (params_transaction h t1 f1) as [= _ Hl1];
    pose proof (params_transaction h t2 f2) as [= _ Hl2].
  { rewrite blake2b_length. congruence. }
  { rewrite blake2b_length. congruence. }
  { apply blake2b_bytes. }
  { apply blake2b_bytes. }
  apply finalize_eq in Heq as [Heq|]; [left|by right|by rewrite !params_transaction].
  rewrite !written_transaction in Heq. by apply app_inv_head in Heq.
Qed.

Lemma digest_strip `{Crypto} h f t1 t2 :
  strip f t1 = strip f t2 →
  finalize (write_transaction h t1 f) = finalize (write_transaction h t2 f).
Proof.
  intros Hs. rewrite !(finalize_params _ h _ (params_transaction _ _ _) eq_refl).
  rewrite !written_transaction, <- (enc_tx_strip f t1), <- (enc_tx_strip f t2). by rewrite Hs.
Qed.

(** A coinbase transaction has no inputs (a consensus rule). *)
Definition coinbase_wf (tx : Transaction) : Prop := is_coinbase tx = true → inputs tx = [].
#[export] Instance coinbase_wf_dec tx : Decision (coinbase_wf tx).
Proof. unfold coinbase_wf. destruct (is_coinbase tx); [|left; done].
  destruct (inputs tx); [left; done|right; by intros [=]%(λ f, f eq_refl)]. Defined.

Lemma id_flags_cases f1 f2 t1 t2 :
  f1 = id_flags t1 → f2 = id_flags t2 → coinbase_wf t1 → coinbase_wf t2 →
  f1 = f2 ∨ inputs t1 = [] ∨ inputs t2 = [].
Proof.
  unfold id_flags, coinbase_wf. intros -> -> H1 H2.
  destruct (is_coinbase t1), (is_coinbase t2); auto.
Qed.

(** A transaction id commits to the whole transaction except, for the
    transactions that are not coinbase, the signature scripts with their
    operation counts and the mass commitment: transactions that agree on the
    rest have one id, and two transactions with one id agree on it, or the
    strings hashed for their ids differ and collide. *)
Theorem transaction_id_commits `{Crypto} t1 t2 :
  tx_typed t1 → tx_typed t2 → coinbase_wf t1 → coinbase_wf t2 →
  (strip (id_flags t1) t1 = strip (id_flags t2) t2 → tx_id_hash t1 = tx_id_hash t2) ∧
  (tx_id_hash t1 = tx_id_hash t2 →
    strip (id_flags t1) t1 = strip (id_flags t2) t2 ∨
    collides (write_transaction TransactionId64 t1 (id_flags t1)) (write_transaction TransactionId64 t2 (id_flags t2))).
Proof.
  intros H1 H2 C1 C2. assert (Hsub : ∀ t1 t2, subnetwork_id t1 = subnetwork_id t2 → id_flags t1 = id_flags t2)
    by (unfold id_flags, is_coinbase; by intros ?? ->).
  split; unfold tx_id_hash.
  - intros Hs. assert (id_flags t1 = id_flags t2) as Hf by (apply Hsub; by injection Hs).
    f_equal. rewrite Hf in *. by apply digest_strip.
  - intros [Heq|]%digest_eq; [left|by right|done].
    pose proof (id_flags_cases _ _ t1 t2 eq_refl eq_refl C1 C2) as Hf.
    assert (id_flags t1 = id_flags t2) as Hf'.
    { destruct Hf as [Hf|Hf]; [done|]. apply Hsub.
      rewrite <- (enc_tx_strip (id_flags t1) t1), <- (enc_tx_strip (id_flags t2) t2) in Heq.
      apply enc_tx_fields in Heq as [E _]; [by injection E|by apply strip_typed|by apply strip_typed|apply strip_idem|apply strip_idem|].
      right. simpl. destruct Hf as [-> | ->]; auto. }
    rewrite Hf' in *. by apply enc_tx_inj.
Qed.

(** The transaction hash commits to every field of the transaction, the
    signature scripts and the mass commitment included. *)
Theorem transaction_hash_commits `{Crypto} t1 t2 :
  tx_typed t1 → tx_typed t2 →
  (strip FULL t1 = strip FULL t2 → tx_hash t1 = tx_hash t2) ∧
  (tx_hash t1 = tx_hash t2 → strip FULL t1 = strip FULL t2 ∨
    collides (write_transaction TransactionHash64 t1 FULL) (write_transaction TransactionHash64 t2 FULL)).
Proof.
  intros H1 H2. split; unfold tx_hash.
  - intros Hs. f_equal. by apply digest_strip.
  - intros [Heq|]%digest_eq; [left|by right|done]. by apply enc_tx_inj.
Qed.
