(* ===== verification/SigHash.v ===== *)
(** * What an ML-DSA-87 signature commits to

    Theorems about [calc_mldsa87_signature_hash] of Hashing: the cache of
    sub-hashes never changes a digest, and the digest commits to the fields the
    hash type selects. *)

From stdpp Require Import base list gmap strings.
From Stdlib Require Import ZArith Lia.
From S2P Require Import Prelude Tx Bytes Hashing.

Local Open Scope Z_scope.

Section sighash.
Context `{Crypto}.

(** The digest of the sub-hashes and of the transcript. *)
Definition H64 (d : list byte) : list byte :=
  blake2b (hasher_length TransactionSigningHash64) (hasher_key TransactionSigningHash64) d.

Definition prev_data (tx : Transaction) : list byte :=
  concat (enc_outpoint <$> (previous_outpoint <$> inputs tx)).
Definition seq_data (tx : Transaction) : list byte :=
  concat (to_le_bytes 8 <$> (sequence <$> inputs tx)).
Definition sig_op_data (tx : Transaction) : list byte := sig_op_count <$> inputs tx.
Definition outputs_data (tx : Transaction) : list byte := concat (enc_output <$> outputs tx).
Definition payload_data (tx : Transaction) : list byte := enc_var_bytes (payload tx).

Lemma finalize_foldl {A} (f : Hasher → A → Hasher) enc l :
  (∀ h a, params (f h a) = params h) → (∀ h a, written (f h a) = written h ++ enc a) →
  finalize (foldl f TransactionSigningHash64 l) = H64 (concat (enc <$> l)).
Proof.
  intros Hp Hw. apply finalize_params; [by apply params_foldl|].
  by rewrite (written_foldl f enc).
Qed.

Lemma written_mldsa87_output h o :
  written (mldsa87_write_output h o) = written h ++ enc_output o.
Proof. unfold mldsa87_write_output, mldsa87_write_script_public_key, enc_output, enc_spk, enc_var_bytes.
  by rewrite !written_update, <- !app_assoc. Qed.

(** ** The sub-hashes, as the hash type selects them *)

Definition prev_sub (tx : Transaction) (t : SigHashType) : list byte :=
  if is_sighash_anyone_can_pay t then ZERO_HASH64 else H64 (prev_data tx).
Definition seq_sub (tx : Transaction) (t : SigHashType) : list byte :=
  if is_sighash_single t || is_sighash_anyone_can_pay t || is_sighash_none t
  then ZERO_HASH64 else H64 (seq_data tx).
Definition sig_op_sub (tx : Transaction) (t : SigHashType) : list byte :=
  if is_sighash_anyone_can_pay t then ZERO_HASH64 else H64 (sig_op_data tx).
Definition outputs_sub (tx : Transaction) (t : SigHashType) (i : nat) : list byte :=
  if is_sighash_none t then ZERO_HASH64
  else if is_sighash_single t then
    match outputs tx !! i with Some o => H64 (enc_output o) | None => ZERO_HASH64 end
  else H64 (outputs_data tx).
Definition payload_sub (tx : Transaction) : list byte :=
  if is_native (subnetwork_id tx) && bool_decide (payload tx = []) then ZERO_HASH64
  else H64 (payload_data tx).

Definition transcript (tx : Transaction) (input : TransactionInput) (entry : UtxoEntry)
    (i : nat) (t : SigHashType) : list byte :=
  MLDSA87_SIGHASH_DOMAIN ++ to_le_bytes 2 (tx_version tx) ++
  prev_sub tx t ++ seq_sub tx t ++ sig_op_sub tx t ++
  enc_outpoint (previous_outpoint input) ++ enc_spk (script_public_key entry) ++
  to_le_bytes 8 (amount entry) ++ to_le_bytes 8 (sequence input) ++ [sig_op_count input] ++
  outputs_sub tx t i ++ to_le_bytes 8 (lock_time tx) ++ subnetwork_bytes (subnetwork_id tx) ++
  to_le_bytes 8 (gas tx) ++ payload_sub tx ++ [t].

(** ** The cache *)

(** Each cell is empty or holds the sub-hash of this transaction. *)
Definition cell_ok (c : option (list byte)) (h : list byte) : Prop := c = None ∨ c = Some h.
Record coherent (tx : Transaction) (r : ReusedValues) : Prop := {
  co_prev : cell_ok (r_previous_outputs_hash r) (H64 (prev_data tx));
  co_seq : cell_ok (r_sequences_hash r) (H64 (seq_data tx));
  co_sig : cell_ok (r_sig_op_counts_hash r) (H64 (sig_op_data tx));
  co_outputs : cell_ok (r_outputs_hash r) (H64 (outputs_data tx));
  co_payload : cell_ok (r_payload_hash r) (H64 (payload_data tx));
}.

Lemma coherent_new tx : coherent tx ReusedValues_new.
Proof. by split; left. Qed.

(** Every sub-hash function returns what its name says and keeps the cache
    coherent. *)
Ltac use_cells :=
  repeat match goal with Hc : ?f ?r = (_ : option _) |- context [?f ?r] => rewrite Hc end.
Ltac solve_cell :=
  match goal with Hc : coherent _ _ |- _ => destruct Hc as [[] [] [] [] []] end;
  use_cells; split; try done; split; simpl; use_cells; unfold cell_ok; auto.

Lemma mldsa87_previous_outputs_hash_spec tx t r :
  coherent tx r →
  (mldsa87_previous_outputs_hash tx t r).1 = prev_sub tx t ∧
  coherent tx (mldsa87_previous_outputs_hash tx t r).2.
Proof.
  intros Hc. unfold mldsa87_previous_outputs_hash, prev_sub.
  destruct (is_sighash_anyone_can_pay t); [done|].
  rewrite (finalize_foldl _ (λ i, enc_outpoint (previous_outpoint i)));
    [|done|intros; unfold mldsa87_write_outpoint, enc_outpoint; by rewrite !written_update, <- app_assoc].
  rewrite (list_fmap_compose previous_outpoint enc_outpoint). fold (prev_data tx).
  unfold reuse_previous_outputs_hash. solve_cell.
Qed.

Lemma mldsa87_sequences_hash_spec tx t r :
  coherent tx r →
  (mldsa87_sequences_hash tx t r).1 = seq_sub tx t ∧ coherent tx (mldsa87_sequences_hash tx t r).2.
Proof.
  intros Hc. unfold mldsa87_sequences_hash, seq_sub. destruct (_ || _ || _); [done|].
  rewrite (finalize_foldl _ (λ i, to_le_bytes 8 (sequence i))) by done.
  rewrite (list_fmap_compose sequence (to_le_bytes 8)). fold (seq_data tx).
  unfold reuse_sequences_hash. solve_cell.
Qed.

Lemma mldsa87_sig_op_counts_hash_spec tx t r :
  coherent tx r →
  (mldsa87_sig_op_counts_hash tx t r).1 = sig_op_sub tx t ∧
  coherent tx (mldsa87_sig_op_counts_hash tx t r).2.
Proof.
  intros Hc. unfold mldsa87_sig_op_counts_hash, sig_op_sub. destruct (is_sighash_anyone_can_pay t); [done|].
  rewrite (finalize_foldl _ (λ i, [sig_op_count i])) by done.
  assert (concat ((λ i, [sig_op_count i]) <$> inputs tx) = sig_op_data tx) as ->.
  { unfold sig_op_data. induction (inputs tx) as [|i l IH]; csimpl; [done|by rewrite IH]. }
  unfold reuse_sig_op_counts_hash. solve_cell.
Qed.

Lemma mldsa87_outputs_hash_spec tx t i r :
  coherent tx r →
  (mldsa87_outputs_hash tx t i r).1 = outputs_sub tx t i ∧
  coherent tx (mldsa87_outputs_hash tx t i r).2.
Proof.
  intros Hc. unfold mldsa87_outputs_hash, outputs_sub. destruct (is_sighash_none t); [done|].
  destruct (is_sighash_single t).
  - destruct (outputs tx !! i) as [o|]; [|done]. split; [|done].
    apply finalize_params; [done|]. by rewrite written_mldsa87_output.
  - rewrite (finalize_foldl _ enc_output); [|done|apply written_mldsa87_output].
    fold (outputs_data tx). unfold reuse_outputs_hash. solve_cell.
Qed.

Lemma mldsa87_payload_hash_spec tx r :
  coherent tx r →
  (mldsa87_payload_hash tx r).1 = payload_sub tx ∧ coherent tx (mldsa87_payload_hash tx r).2.
Proof.
  intros Hc. unfold mldsa87_payload_hash, payload_sub. destruct (_ && _); [done|].
  assert (finalize (update (update TransactionSigningHash64 (to_le_bytes 8 (len (payload tx)))) (payload tx))
    = H64 (payload_data tx)) as -> by done.
  unfold reuse_payload_hash. solve_cell.
Qed.

(** The digest is the hash of the transcript, whatever the cache holds. *)
Lemma calc_mldsa87_signature_hash_spec {E} ptx i t r input entry :
  coherent (pop_tx ptx) r →
  @populated_input E ptx i = Ok (input, entry) →
  ∃ r', @calc_mldsa87_signature_hash _ E ptx i t r = Ok (H64 (transcript (pop_tx ptx) input entry i t), r')
    ∧ coherent (pop_tx ptx) r'.
Proof.
  intros Hc Hp. unfold calc_mldsa87_signature_hash. rewrite Hp. simpl. set (tx := pop_tx ptx) in *.
  destruct (mldsa87_previous_outputs_hash_spec tx t r Hc) as [E1 C1].
  destruct (mldsa87_previous_outputs_hash tx t r) as [x1 r1]. simpl in E1, C1. subst x1.
  destruct (mldsa87_sequences_hash_spec tx t r1 C1) as [E1 C2].
  destruct (mldsa87_sequences_hash tx t r1) as [x2 r2]. simpl in E1, C2. subst x2.
  destruct (mldsa87_sig_op_counts_hash_spec tx t r2 C2) as [E1 C3].
  destruct (mldsa87_sig_op_counts_hash tx t r2) as [x3 r3]. simpl in E1, C3. subst x3.
  destruct (mldsa87_outputs_hash_spec tx t i r3 C3) as [E1 C4].
  destruct (mldsa87_outputs_hash tx t i r3) as [x4 r4]. simpl in E1, C4. subst x4.
  destruct (mldsa87_payload_hash_spec tx r4 C4) as [E1 C5].
  destruct (mldsa87_payload_hash tx r4) as [x5 r5]. simpl in E1, C5. subst x5.
  exists r5. split; [|done]. do 2 f_equal. apply finalize_params; [done|].
  unfold transcript, mldsa87_write_script_public_key, mldsa87_write_outpoint, enc_outpoint, enc_spk, enc_var_bytes.
  rewrite !written_update, <- !app_assoc. done.
Qed.

(** The signature hashes of a sequence of inputs, with one cache for all of
    them, as a signer computes them ... *)
Fixpoint signature_hashes {E} (ptx : PopulatedTransaction) (qs : list (nat * SigHashType))
    (r : ReusedValues) : outcome E (list (list byte)) :=
  match qs with
  | [] => Ok []
  | (i, t) :: qs =>
      '(h, r') ← calc_mldsa87_signature_hash ptx i t r;
      hs ← signature_hashes ptx qs r';
      Ok (h :: hs)
  end.

(** ... and one by one, as the script engine does. *)
Fixpoint fresh_signature_hashes {E} (ptx : PopulatedTransaction) (qs : list (nat * SigHashType)) :
    outcome E (list (list byte)) :=
  match qs with
  | [] => Ok []
  | (i, t) :: qs =>
      '(h, _) ← calc_mldsa87_signature_hash ptx i t ReusedValues_new;
      hs ← fresh_signature_hashes ptx qs;
      Ok (h :: hs)
  end.

Lemma signature_hashes_coherent {E} ptx qs r :
  coherent (pop_tx ptx) r → @signature_hashes E ptx qs r = fresh_signature_hashes ptx qs.
Proof.
  revert r. induction qs as [|[i t] qs IH]; intros r Hc; [done|]. cbn [signature_hashes fresh_signature_hashes].
  destruct (@populated_input E ptx i) as [[input entry]| | |] eqn:Hp.
  - destruct (calc_mldsa87_signature_hash_spec ptx i t r input entry Hc Hp) as (r' & -> & Hc').
    destruct (calc_mldsa87_signature_hash_spec ptx i t _ input entry (coherent_new _) Hp) as (r'' & -> & _).
    simpl. by rewrite IH.
  - unfold calc_mldsa87_signature_hash. by rewrite Hp.
  - unfold calc_mldsa87_signature_hash. by rewrite Hp.
  - unfold calc_mldsa87_signature_hash. by rewrite Hp.
Qed.

(** ** Commitment *)

(** What a signature over input [i] with hash type [t] commits to. *)
Definition committed (tx : Transaction) (input : TransactionInput) (entry : UtxoEntry)
    (i : nat) (t : SigHashType) :=
  (t, tx_version tx, lock_time tx, subnetwork_id tx, gas tx, payload tx,
   (previous_outpoint input, script_public_key entry, amount entry, sequence input, sig_op_count input),
   (if is_sighash_anyone_can_pay t then None
    else Some (previous_outpoint <$> inputs tx, sig_op_count <$> inputs tx)),
   (if is_sighash_single t || is_sighash_anyone_can_pay t || is_sighash_none t then None
    else Some (sequence <$> inputs tx)),
   (if is_sighash_none t then None
    else if is_sighash_single t then Some (option_list (outputs tx !! i))
    else Some (outputs tx))).

(** The strings that are hashed for the parts of a transaction, and for a
    signature. *)
Definition part_strings (tx : Transaction) (i : nat) : list (list byte) :=
  [prev_data tx; seq_data tx; sig_op_data tx; outputs_data tx; payload_data tx] ++
  option_list (enc_output <$> outputs tx !! i).
Definition hashed_strings (tx : Transaction) (input : TransactionInput) (entry : UtxoEntry)
    (i : nat) (t : SigHashType) : list (list byte) := transcript tx input entry i t :: part_strings tx i.

(** A break of the signing hash on two lists of strings: different strings
    collide, or one of them has the zero digest that stands for an absent
    part. *)
Definition signing_hash_broken (l1 l2 : list (list byte)) : Prop :=
  (∃ a b, a ∈ l1 ∧ b ∈ l2 ∧ a ≠ b ∧ H64 a = H64 b) ∨ ∃ a, a ∈ l1 ++ l2 ∧ H64 a = ZERO_HASH64.

Lemma H64_eq a b l1 l2 : a ∈ l1 → b ∈ l2 → H64 a = H64 b → a = b ∨ signing_hash_broken l1 l2.
Proof.
  intros Ha Hb Heq. destruct (decide (a = b)); [by left|]. right. left. by exists a, b.
Qed.
Lemma broken_mono l1 l2 k1 k2 : l1 ⊆ k1 → l2 ⊆ k2 → signing_hash_broken l1 l2 → signing_hash_broken k1 k2.
Proof.
  intros H1 H2 [(a & b & Ha & Hb & Hne)|(a & Ha & Hz)]; [left; exists a, b; auto|].
  right. exists a. split; [|done]. apply elem_of_app in Ha as [Ha|Ha]; apply elem_of_app; auto.
Qed.
Ltac in_strings := unfold part_strings; rewrite ?elem_of_app, ?elem_of_cons; auto 10.

Lemma concat_code_nonempty {A} (enc : A → list byte) dom `{!PrefixCode enc dom} xs1 xs2 :
  (∀ x, enc x ≠ []) → Forall dom xs1 → Forall dom xs2 →
  concat (enc <$> xs1) = concat (enc <$> xs2) → xs1 = xs2.
Proof.
  intros Hne H1. revert xs2. induction H1 as [|x xs1 Hx H1 IH]; intros [|y xs2] H2; csimpl.
  - done.
  - intros Heq. symmetry in Heq. apply app_eq_nil in Heq as [Heq _]. by apply Hne in Heq.
  - intros Heq. apply app_eq_nil in Heq as [Heq _]. by apply Hne in Heq.
  - inversion H2; subst. intros [-> Heq]%prefix_code; [|done..]. f_equal. by apply IH.
Qed.

Lemma to_le_bytes_nonempty n z : to_le_bytes (S n) z ≠ [].
Proof. intros Heq. apply (f_equal length) in Heq. by rewrite length_to_le_bytes in Heq. Qed.

Lemma prev_sub_eq t tx1 tx2 i1 i2 :
  tx_typed tx1 → tx_typed tx2 → prev_sub tx1 t = prev_sub tx2 t →
  sig_op_sub tx1 t = sig_op_sub tx2 t →
  (if is_sighash_anyone_can_pay t then None
   else Some (previous_outpoint <$> inputs tx1, sig_op_count <$> inputs tx1)) =
  (if is_sighash_anyone_can_pay t then None
   else Some (previous_outpoint <$> inputs tx2, sig_op_count <$> inputs tx2)) ∨ signing_hash_broken (part_strings tx1 i1) (part_strings tx2 i2).
Proof.
  intros [_ [_ H1] _ _ _ _ _ _] [_ [_ H2] _ _ _ _ _ _]. unfold prev_sub, sig_op_sub.
  destruct (is_sighash_anyone_can_pay t); [by left|].
  intros [Hp|]%(H64_eq _ _ (part_strings tx1 i1) (part_strings tx2 i2)) [Hs|]%(H64_eq _ _ (part_strings tx1 i1) (part_strings tx2 i2)); auto; [|in_strings..]. left. do 2 f_equal; [|done].
  eapply (concat_code_nonempty enc_outpoint outpoint_typed); [| | |exact Hp].
  - intros x Hx. apply app_eq_nil in Hx as [_ Hx]. by apply (to_le_bytes_nonempty 3) in Hx.
  - apply Forall_fmap. eapply Forall_impl; [exact H1|]. by intros ? [].
  - apply Forall_fmap. eapply Forall_impl; [exact H2|]. by intros ? [].
Qed.

Lemma seq_sub_eq t tx1 tx2 i1 i2 :
  tx_typed tx1 → tx_typed tx2 → seq_sub tx1 t = seq_sub tx2 t →
  (if is_sighash_single t || is_sighash_anyone_can_pay t || is_sighash_none t then None
    else Some (sequence <$> inputs tx1)) =
  (if is_sighash_single t || is_sighash_anyone_can_pay t || is_sighash_none t then None
    else Some (sequence <$> inputs tx2)) ∨ signing_hash_broken (part_strings tx1 i1) (part_strings tx2 i2).
Proof.
  intros [_ [_ H1] _ _ _ _ _ _] [_ [_ H2] _ _ _ _ _ _]. unfold seq_sub.
  destruct (_ || _ || _); [by left|]. intros [Hp|]%(H64_eq _ _ (part_strings tx1 i1) (part_strings tx2 i2)); auto; [|in_strings..]. left. f_equal.
  eapply (concat_code_nonempty (to_le_bytes 8) (is_uint 8)); [apply (to_le_bytes_nonempty 7)| | |exact Hp].
  - apply Forall_fmap. eapply Forall_impl; [exact H1|]. by intros ? [].
  - apply Forall_fmap. eapply Forall_impl; [exact H2|]. by intros ? [].
Qed.

Lemma outputs_sub_eq t tx1 tx2 i1 i2 :
  tx_typed tx1 → tx_typed tx2 → outputs_sub tx1 t i1 = outputs_sub tx2 t i2 →
  (if is_sighash_none t then None
    else if is_sighash_single t then Some (option_list (outputs tx1 !! i1)) else Some (outputs tx1)) =
  (if is_sighash_none t then None
    else if is_sighash_single t then Some (option_list (outputs tx2 !! i2)) else Some (outputs tx2))
  ∨ signing_hash_broken (part_strings tx1 i1) (part_strings tx2 i2).
Proof.
  intros [_ _ [_ H1] _ _ _ _ _] [_ _ [_ H2] _ _ _ _ _]. unfold outputs_sub.
  destruct (is_sighash_none t); [by left|]. destruct (is_sighash_single t).
  - destruct (outputs tx1 !! i1) as [o1|] eqn:E1, (outputs tx2 !! i2) as [o2|] eqn:E2.
    + intros [Hp|]%(H64_eq _ _ (part_strings tx1 i1) (part_strings tx2 i2)); auto; cycle 1.
      { unfold part_strings. rewrite E1. set_solver. }
      { unfold part_strings. rewrite E2. set_solver. }
      left. do 2 f_equal. apply Forall_lookup_1 with (i:=i1) (x:=o1) in H1; [|done].
      apply Forall_lookup_1 with (i:=i2) (x:=o2) in H2; [|done].
      apply (f_equal (λ l, l ++ [])) in Hp. simpl. f_equal.
      by destruct (output_code _ _ _ _ H1 H2 Hp) as [-> _].
    + intros Hz. right. right. eexists. split; [|exact Hz]. unfold part_strings. rewrite E1. set_solver.
    + intros Hz. right. right. eexists. split; [|symmetry; exact Hz]. unfold part_strings. rewrite E2. set_solver.
    + by left.
  - intros [Hp|]%(H64_eq _ _ (part_strings tx1 i1) (part_strings tx2 i2)); auto; [|in_strings..]. left. f_equal.
    eapply (concat_code_nonempty enc_output output_typed); [|done..].
    intros x Hx. apply app_eq_nil in Hx as [Hx _]. by apply (to_le_bytes_nonempty 7) in Hx.
Qed.

Lemma payload_sub_eq tx1 tx2 i1 i2 :
  tx_typed tx1 → tx_typed tx2 → subnetwork_id tx1 = subnetwork_id tx2 →
  payload_sub tx1 = payload_sub tx2 → payload tx1 = payload tx2 ∨ signing_hash_broken (part_strings tx1 i1) (part_strings tx2 i2).
Proof.
  intros [_ _ _ _ _ _ H1 _] [_ _ _ _ _ _ H2 _] Hs. unfold payload_sub. rewrite Hs.
  destruct (is_native (subnetwork_id tx2)); simpl;
    repeat case_bool_decide; try (left; congruence).
  all: try by (intros Hz; right; right; exists (payload_data tx1); split; [in_strings|exact Hz]).
  all: try by (intros Hz; right; right; exists (payload_data tx2); split; [in_strings|symmetry; exact Hz]).
  all: intros [Hp|]%(H64_eq _ _ (part_strings tx1 i1) (part_strings tx2 i2)); auto; [|in_strings..]; left;
    unfold payload_data in Hp; apply (f_equal (λ l, l ++ [])) in Hp; by destruct (prefix_code _ _ _ _ H1 H2 Hp) as [-> _].
Qed.
End sighash.

Record entry_typed (e : UtxoEntry) : Prop := {
  et_spk : spk_typed (script_public_key e);
  et_amount : is_uint 8 (amount e);
}.

Section commitment.
Context `{Crypto}.

Lemma length_H64 d : length (H64 d) = 64%nat.
Proof. apply blake2b_length. Qed.

Lemma length_subs tx t i :
  length (prev_sub tx t) = 64%nat ∧ length (seq_sub tx t) = 64%nat ∧ length (sig_op_sub tx t) = 64%nat ∧
  length (outputs_sub tx t i) = 64%nat ∧ length (payload_sub tx) = 64%nat.
Proof.
  unfold prev_sub, seq_sub, sig_op_sub, outputs_sub, payload_sub.
  repeat split; repeat case_match; rewrite ?length_H64; done.
Qed.

(** Reading the transcript back. *)
Lemma transcript_inj tx1 tx2 in1 in2 e1 e2 i1 i2 t1 t2 :
  tx_typed tx1 → tx_typed tx2 → input_typed in1 → input_typed in2 → entry_typed e1 → entry_typed e2 →
  transcript tx1 in1 e1 i1 t1 = transcript tx2 in2 e2 i2 t2 →
  committed tx1 in1 e1 i1 t1 = committed tx2 in2 e2 i2 t2 ∨ signing_hash_broken (part_strings tx1 i1) (part_strings tx2 i2).
Proof.
  intros T1 T2 [Io1 _ Is1] [Io2 _ Is2] [Es1 Ea1] [Es2 Ea2] Heq.
  destruct (length_subs tx1 t1 i1) as (Lp1 & Lq1 & Lc1 & Lo1 & Ly1).
  destruct (length_subs tx2 t2 i2) as (Lp2 & Lq2 & Lc2 & Lo2 & Ly2).
  pose proof T1 as [Hv1 _ _ Hl1 Hs1 Hg1 _ _]. pose proof T2 as [Hv2 _ _ Hl2 Hs2 Hg2 _ _].
  unfold transcript in Heq. apply app_inv_head in Heq.
  destruct (prefix_code _ _ _ _ Hv1 Hv2 Heq) as [Ev Q1]; clear Heq.
  destruct (array_code _ _ _ _ _ Lp1 Lp2 Q1) as [Ep Q2]; clear Q1.
  destruct (array_code _ _ _ _ _ Lq1 Lq2 Q2) as [Eq Q1]; clear Q2.
  destruct (array_code _ _ _ _ _ Lc1 Lc2 Q1) as [Ec Q2]; clear Q1.
  destruct (prefix_code _ _ _ _ Io1 Io2 Q2) as [Eo Q1]; clear Q2.
  destruct (prefix_code _ _ _ _ Es1 Es2 Q1) as [Espk Q2]; clear Q1.
  destruct (prefix_code _ _ _ _ Ea1 Ea2 Q2) as [Ea Q1]; clear Q2.
  destruct (prefix_code _ _ _ _ Is1 Is2 Q1) as [Es Q2]; clear Q1.
  destruct (byte_code _ _ _ _ I I Q2) as [Esc Q1]; clear Q2.
  destruct (array_code _ _ _ _ _ Lo1 Lo2 Q1) as [Eout Q2]; clear Q1.
  destruct (prefix_code _ _ _ _ Hl1 Hl2 Q2) as [El Q1]; clear Q2.
  destruct (array_code _ _ _ _ _ Hs1 Hs2 Q1) as [Esub Q2]; clear Q1.
  destruct (prefix_code _ _ _ _ Hg1 Hg2 Q2) as [Eg Q1]; clear Q2.
  destruct (array_code _ _ _ _ _ Ly1 Ly2 Q1) as [Ey Q2]; clear Q1.
  destruct (byte_code _ _ [] [] I I Q2) as [-> _].
  assert (Esn : subnetwork_id tx1 = subnetwork_id tx2)
    by (destruct (subnetwork_id tx1), (subnetwork_id tx2); simpl in *; congruence).
  destruct (prev_sub_eq _ _ _ i1 i2 T1 T2 Ep Ec) as [Cp|]; [|by right].
  destruct (seq_sub_eq _ _ _ i1 i2 T1 T2 Eq) as [Cq|]; [|by right].
  destruct (outputs_sub_eq _ _ _ _ _ T1 T2 Eout) as [Co|]; [|by right].
  destruct (payload_sub_eq _ _ i1 i2 T1 T2 Esn Ey) as [Cy|]; [|by right].
  left. unfold committed. by rewrite Ev, El, Esn, Eg, Cy, Eo, Espk, Ea, Es, Esc, Cp, Cq, Co.
Qed.

(** The transcript reads nothing else. *)
Lemma transcript_committed tx1 tx2 in1 in2 e1 e2 i1 i2 t1 t2 :
  committed tx1 in1 e1 i1 t1 = committed tx2 in2 e2 i2 t2 →
  transcript tx1 in1 e1 i1 t1 = transcript tx2 in2 e2 i2 t2.
Proof.
  unfold committed. intros [= <- Ev El Es Eg Ey Eo Espk Ea Eq Ec Cp Cq Co].
  unfold transcript. rewrite Ev, El, Es, Eg, Eo, Espk, Ea, Eq, Ec.
  assert (payload_sub tx1 = payload_sub tx2) as ->
    by (unfold payload_sub, payload_data; by rewrite Es, Ey).
  assert (prev_sub tx1 t1 = prev_sub tx2 t1 ∧ sig_op_sub tx1 t1 = sig_op_sub tx2 t1) as [-> ->].
  { unfold prev_sub, sig_op_sub, prev_data, sig_op_data.
    destruct (is_sighash_anyone_can_pay t1); [done|]. injection Cp as -> ->. done. }
  assert (seq_sub tx1 t1 = seq_sub tx2 t1) as ->.
  { unfold seq_sub, seq_data. destruct (_ || _ || _); [done|]. by injection Cq as ->. }
  assert (outputs_sub tx1 t1 i1 = outputs_sub tx2 t1 i2) as ->; [|done].
  unfold outputs_sub, outputs_data. destruct (is_sighash_none t1); [done|].
  destruct (is_sighash_single t1); injection Co as Co; [|by rewrite Co].
  destruct (outputs tx1 !! i1), (outputs tx2 !! i2); simpl in Co; congruence.
Qed.

Lemma populated_input_typed {E} ptx i input entry :
  tx_typed (pop_tx ptx) → Forall entry_typed (entries ptx) →
  @populated_input E ptx i = Ok (input, entry) → input_typed input ∧ entry_typed entry.
Proof.
  intros [_ [_ Hi] _ _ _ _ _ _] He. unfold populated_input.
  destruct (inputs (pop_tx ptx) !! i) eqn:Ei; [|done]. destruct (entries ptx !! i) eqn:Ee; [|done].
  intros [= -> ->]. split; by eapply Forall_lookup_1.
Qed.

(** C19. A signature hash commits to exactly the fields its hash type selects,
    with the amount and script of the spent output: two inputs whose selected
    fields agree have one signature hash, and two inputs with one signature
    hash agree on the selected fields, or two of the strings hashed for them
    collide, or one of those strings has the zero digest. *)
Theorem signature_hash_commits ptx1 ptx2 i1 i2 t1 t2 in1 in2 e1 e2 :
  tx_typed (pop_tx ptx1) → tx_typed (pop_tx ptx2) →
  Forall entry_typed (entries ptx1) → Forall entry_typed (entries ptx2) →
  @populated_input unit ptx1 i1 = Ok (in1, e1) → @populated_input unit ptx2 i2 = Ok (in2, e2) →
  ∃ d1 d2 r1 r2,
    @calc_mldsa87_signature_hash _ unit ptx1 i1 t1 ReusedValues_new = Ok (d1, r1) ∧
    @calc_mldsa87_signature_hash _ unit ptx2 i2 t2 ReusedValues_new = Ok (d2, r2) ∧
    (committed (pop_tx ptx1) in1 e1 i1 t1 = committed (pop_tx ptx2) in2 e2 i2 t2 → d1 = d2) ∧
    (d1 = d2 → committed (pop_tx ptx1) in1 e1 i1 t1 = committed (pop_tx ptx2) in2 e2 i2 t2
      ∨ signing_hash_broken (hashed_strings (pop_tx ptx1) in1 e1 i1 t1) (hashed_strings (pop_tx ptx2) in2 e2 i2 t2)).
Proof.
  intros T1 T2 Te1 Te2 P1 P2.
  destruct (populated_input_typed _ _ _ _ T1 Te1 P1) as [Ti1 Tn1].
  destruct (populated_input_typed _ _ _ _ T2 Te2 P2) as [Ti2 Tn2].
  destruct (calc_mldsa87_signature_hash_spec ptx1 i1 t1 _ _ _ (coherent_new _) P1) as (r1 & -> & _).
  destruct (calc_mldsa87_signature_hash_spec ptx2 i2 t2 _ _ _ (coherent_new _) P2) as (r2 & -> & _).
  eexists _, _, r1, r2. split; [done|]. split; [done|]. split.
  - intros Hc. f_equal. by apply transcript_committed.
  - intros [Ht|]%(H64_eq _ _ (hashed_strings (pop_tx ptx1) in1 e1 i1 t1) (hashed_strings (pop_tx ptx2) in2 e2 i2 t2));
      [|by right|by left..].
    destruct (transcript_inj _ _ _ _ _ _ _ _ _ _ T1 T2 Ti1 Ti2 Tn1 Tn2 Ht) as [|Hb]; [by left|right].
    by eapply broken_mono, Hb; intros x Hx; right.
Qed.

(** The cache of sub-hashes never changes a signature hash: the hashes of
    any sequence of inputs and hash types computed with one shared cache are
    the ones computed each with a fresh cache. *)
Theorem signature_hash_cache_transparent ptx qs :
  @signature_hashes _ unit ptx qs ReusedValues_new = fresh_signature_hashes ptx qs.
Proof. apply signature_hashes_coherent, coherent_new. Qed.
End commitment.
