(* ===== verification/Header.v ===== *)
(** * Block headers

    Models [src/consensus/core/src/header.rs] and
    [src/consensus/core/src/hashing/header.rs]: the header, the run-length
    encoding of its parents by level, and the preimage of its hashes. A
    [BlockHash] is the number of its 64 bytes, the first one most significant,
    so that the order of hashes is the order of numbers; work is the number in
    a [Uint576]. *)

From stdpp Require Import base list gmap strings.
From Stdlib Require Import ZArith Lia.
From S2P Require Import Prelude Tx Bytes Hashing.

Local Open Scope Z_scope.

(** ** Parents by level *)

(** [CompressedParents]: runs of levels with the same parents, each with the
    number of levels up to its end. *)
Abbreviation CompressedParents := (list (Z * list BlockHash)) (only parsing).

Inductive CompressedParentsError : Type :=
| LevelsExceeded
| LevelsNotStrictlyIncreasing
| NotFullyCompressed.

(** [usize::checked_add] and [checked_sub] with their [expect]. *)
Definition U8_MAX : Z := 255.

Definition expanded_len (cp : CompressedParents) : Z :=
  match last cp with Some (cum, _) => cum | None => 0 end.
Definition cp_is_empty (cp : CompressedParents) : bool := bool_decide (cp = []).

(** [slice::partition_point]: the binary search of the standard library with a
    comparison that is never [Equal]. *)
Fixpoint partition_loop {E} (fuel : nat) (pred : nat → outcome E bool) (base size : nat) : outcome E nat :=
  if (size <=? 1)%nat then Ok base else
  match fuel with
  | O => OutOfFuel
  | S fuel =>
    let half := (size / 2)%nat in
    let mid := (base + half)%nat in
    b ← pred mid;
    partition_loop fuel pred (if b : bool then mid else base) (size - half)%nat
  end.
Definition partition_point {E} (n : nat) (pred : nat → outcome E bool) : outcome E nat :=
  if (n =? 0)%nat then Ok 0%nat else
  base ← partition_loop n pred 0 n;
  b ← pred base;
  Ok (if b : bool then S base else base).

Definition cp_get {E} (cp : CompressedParents) (i : Z) : outcome E (option (list BlockHash)) :=
  if expanded_len cp <=? i then Ok None
  else if i =? 0 then run ← unwrap (cp !! 0%nat); Ok (Some run.2)
  else
    n ← partition_point (length cp) (λ j, run ← unwrap (cp !! j); c ← sub64 run.1 1; Ok (c <? i));
    run ← unwrap (cp !! n);
    Ok (Some run.2).

(** [expand_rle] of [src/utils/src/iter.rs]; it panics unless the counts
    increase strictly, from 0. *)
Fixpoint expand_rle {E A} (prev : Z) (runs : list (Z * A)) : outcome E (list A) :=
  match runs with
  | [] => Ok []
  | (cum, item) :: runs =>
    if prev <? cum then rest ← expand_rle cum runs; Ok (replicate (Z.to_nat (cum - prev)) item ++ rest)
    else Panic
  end.
Definition expanded {E} (cp : CompressedParents) : outcome E (list (list BlockHash)) := expand_rle 0 cp.

(** [dedup_with_count] and [rle_cumulative]. *)
Fixpoint dedup_with_count {A} `{EqDecision A} (count : Z) (value : A) (l : list A) : list (Z * A) :=
  match l with
  | [] => [(count, value)]
  | x :: l => if decide (x = value) then dedup_with_count (count + 1) value l
              else (count, value) :: dedup_with_count 1 x l
  end.
Fixpoint cumulative {A} (acc : Z) (l : list (Z * A)) : list (Z * A) :=
  match l with
  | [] => []
  | (count, value) :: l => (acc + count, value) :: cumulative (acc + count) l
  end.
Definition rle_cumulative {A} `{EqDecision A} (l : list A) : list (Z * A) :=
  match l with [] => [] | x :: l => cumulative 0 (dedup_with_count 1 x l) end.

Definition cp_push {E} (cp : CompressedParents) (parents_at_level : list BlockHash) : outcome E CompressedParents :=
  match last cp with
  | Some (count, last_parents) =>
    if U8_MAX <? count + 1 then Panic
    else if decide (last_parents = parents_at_level) then
      Ok (take (length cp - 1) cp ++ [(count + 1, last_parents)])
    else Ok (cp ++ [(count + 1, parents_at_level)])
  | None => Ok (cp ++ [(1, parents_at_level)])
  end.

(** The two [TryFrom]s: of the levels, and of the runs. *)
Definition cp_try_from_levels (parents : list (list BlockHash)) : outcome CompressedParentsError CompressedParents :=
  if U8_MAX <? len parents then Err LevelsExceeded else Ok (rle_cumulative parents).

(** The windows of two successive runs. *)
Fixpoint check_runs (runs : CompressedParents) : outcome CompressedParentsError () :=
  match runs with
  | [] => Ok ()
  | (last_cumulative_level, last_parents) :: rest =>
    match rest with
    | [] => Ok ()
    | (cumulative_level, parents) :: _ =>
      if cumulative_level <=? last_cumulative_level then Err LevelsNotStrictlyIncreasing
      else if decide (last_parents = parents) then Err NotFullyCompressed
      else check_runs rest
    end
  end.
Definition cp_try_from_runs (runs : CompressedParents) : outcome CompressedParentsError CompressedParents :=
  _ ← check_runs runs; Ok runs.

Definition set_direct_parents (cp : CompressedParents) (direct_parents : list BlockHash) :
    outcome CompressedParentsError CompressedParents :=
  match cp with
  | [] => Ok [(1, direct_parents)]
  | _ =>
    parents ← expanded cp;
    match parents with
    | [] => Panic
    | _ :: parents => match cp_try_from_levels (direct_parents :: parents) with Ok cp => Ok cp | _ => Panic end
    end
  end.

(** ** The header *)

Definition BLOCK_VERSION : Z := 1.
Definition EVM_HEADER_VERSION : Z := 2.
Definition PALW_HEADER_VERSION : Z := 3.
Definition PALW_ANTISPAM_HEADER_VERSION : Z := 4.
(** The algorithm id of the replica lane. *)
Definition POW_ALGO_ID_PALW_REPLICA : Z := 4.

Record Header := mkHeader {
  hdr_hash : BlockHash;
  hdr_version : Z;
  hdr_parents_by_level : CompressedParents;
  hdr_hash_merkle_root : Hash64;
  hdr_accepted_id_merkle_root : Hash64;
  hdr_utxo_commitment : Hash64;
  hdr_timestamp : Z;
  hdr_bits : Z;
  hdr_nonce : Z;
  hdr_pow_algo_id : Z;
  hdr_daa_score : Z;
  hdr_blue_work : Z;
  hdr_blue_score : Z;
  hdr_pruning_point : BlockHash;
  hdr_evm_payload_hash : Hash64;
  hdr_evm_commitment_root : Hash64;
  hdr_overlay_commitment_root : Hash64;
  hdr_blue_hash_work : Z;
  hdr_blue_compute_work : Z;
  hdr_palw_batch_id : Hash64;
  hdr_palw_leaf_index : Z;
  hdr_palw_ticket_nullifier : Hash64;
  hdr_palw_epoch_certificate_hash : Hash64;
  hdr_palw_chain_commit : Hash64;
  hdr_palw_target_daa_interval : Z;
  hdr_palw_authorization_hash : Hash64;
  hdr_palw_proof_type : Z;
  hdr_palw_beacon_seed : Hash64;
  hdr_palw_spam_accumulator_commitment : Hash64;
  hdr_palw_spam_nonce : Z;
}.

Definition has_nonzero_palw_fields (h : Header) : bool :=
  negb (hdr_blue_hash_work h =? 0) || negb (hdr_blue_compute_work h =? 0)
  || negb (hdr_palw_batch_id h =? 0) || negb (hdr_palw_leaf_index h =? 0)
  || negb (hdr_palw_ticket_nullifier h =? 0) || negb (hdr_palw_epoch_certificate_hash h =? 0)
  || negb (hdr_palw_chain_commit h =? 0) || negb (hdr_palw_target_daa_interval h =? 0)
  || negb (hdr_palw_authorization_hash h =? 0) || negb (hdr_palw_proof_type h =? 0)
  || negb (hdr_palw_beacon_seed h =? 0) || negb (hdr_palw_spam_accumulator_commitment h =? 0)
  || negb (hdr_palw_spam_nonce h =? 0).

Definition direct_parents {E} (h : Header) : outcome E (list BlockHash) :=
  r ← cp_get (hdr_parents_by_level h) 0; Ok (default [] r).

(** ** Header hashes *)

(** The hashers of [src/crypto/hashes/src/hashers.rs]. *)
Definition BlockHash64 : Hasher := mkHasher (b_ "BlockHash64") 64 [].
Definition BlockPrePowHash64 : Hasher := mkHasher (b_ "BlockPrePowHash64") 64 [].
Definition PalwAuthPreimageHash64 : Hasher := mkHasher (b_ "PalwAuthPreimageHash64") 64 [].
Definition PalwSpamHash64 : Hasher := mkHasher (b_ "PalwSpamHash64") 64 [].

Definition block_hash_bytes (h : BlockHash) : list byte := rev (to_le_bytes 64 h).
Definition block_hash_from_bytes (bytes : list byte) : BlockHash := le_val (rev bytes).

(** [Uint576::to_be_bytes]. *)
Definition work_be_bytes (w : Z) : list byte := rev (to_le_bytes 72 w).
(** [be_bytes[start..]], from the first byte that is not zero. *)
Fixpoint skip_zeros (l : list byte) : list byte :=
  match l with
  | [] => []
  | b :: l' => if b =? 0 then skip_zeros l' else l
  end.
Definition write_blue_work (h : Hasher) (work : Z) : Hasher := write_var_bytes h (skip_zeros (work_be_bytes work)).
Definition write_var_array (h : Hasher) (arr : list BlockHash) : Hasher :=
  foldl (λ h d, update h (block_hash_bytes d)) (write_len h (len arr)) arr.

Definition write_evm_fields (h : Hasher) (header : Header) : Hasher :=
  if EVM_HEADER_VERSION <=? hdr_version header then
    update (update h (hash64_bytes (hdr_evm_payload_hash header))) (hash64_bytes (hdr_evm_commitment_root header))
  else h.
Definition write_palw_fields (h : Hasher) (header : Header) : Hasher :=
  if PALW_HEADER_VERSION <=? hdr_version header then
    let h := write_blue_work h (hdr_blue_hash_work header) in
    let h := write_blue_work h (hdr_blue_compute_work header) in
    let h := update h (hash64_bytes (hdr_palw_batch_id header)) in
    let h := update h (to_le_bytes 4 (hdr_palw_leaf_index header)) in
    let h := update h (hash64_bytes (hdr_palw_ticket_nullifier header)) in
    let h := update h (hash64_bytes (hdr_palw_epoch_certificate_hash header)) in
    let h := update h (hash64_bytes (hdr_palw_chain_commit header)) in
    let h := update h (to_le_bytes 8 (hdr_palw_target_daa_interval header)) in
    let h := update h (hash64_bytes (hdr_palw_authorization_hash header)) in
    let h := update h [hdr_palw_proof_type header] in
    update h (hash64_bytes (hdr_palw_beacon_seed header))
  else h.
Definition write_spam_fields (h : Hasher) (header : Header) : Hasher :=
  if PALW_ANTISPAM_HEADER_VERSION <=? hdr_version header then
    update (update h (hash64_bytes (hdr_palw_spam_accumulator_commitment header)))
      (to_le_bytes 8 (hdr_palw_spam_nonce header))
  else h.

Definition write_header_preimage {E} (h : Hasher) (header : Header) (nonce timestamp : Z) : outcome E Hasher :=
  let h := update h (to_le_bytes 2 (hdr_version header)) in
  let h := write_len h (expanded_len (hdr_parents_by_level header)) in
  levels ← expanded (hdr_parents_by_level header);
  let h := foldl write_var_array h levels in
  let h := update h (hash64_bytes (hdr_hash_merkle_root header)) in
  let h := update h (hash64_bytes (hdr_accepted_id_merkle_root header)) in
  let h := update h (hash64_bytes (hdr_utxo_commitment header)) in
  let h := update h (to_le_bytes 8 timestamp) in
  let h := update h (to_le_bytes 4 (hdr_bits header)) in
  let h := update h (to_le_bytes 8 nonce) in
  let h := update h [hdr_pow_algo_id header] in
  let h := update h (to_le_bytes 8 (hdr_daa_score header)) in
  let h := update h (to_le_bytes 8 (hdr_blue_score header)) in
  let h := write_blue_work h (hdr_blue_work header) in
  let h := update h (block_hash_bytes (hdr_pruning_point header)) in
  let h := write_evm_fields h header in
  let h := update h (hash64_bytes (hdr_overlay_commitment_root header)) in
  let h := write_palw_fields h header in
  Ok (write_spam_fields h header).

Section digests.
Context `{Crypto}.

(** The block identity. *)
Definition header_hash {E} (header : Header) : outcome E BlockHash :=
  h ← write_header_preimage BlockHash64 header (hdr_nonce header) (hdr_timestamp header);
  Ok (block_hash_from_bytes (finalize h)).

Definition hash_override_nonce_time_64 {E} (header : Header) (nonce timestamp : Z) : outcome E Hash64 :=
  h ← write_header_preimage BlockPrePowHash64 header nonce timestamp;
  Ok (hash64_from_bytes (finalize h)).
Definition pre_pow_hash_64 {E} (header : Header) : outcome E Hash64 := hash_override_nonce_time_64 header 0 0.

Definition palw_spam_hash {E} (header : Header) : outcome E Hash64 :=
  h ← write_header_preimage PalwSpamHash64 header (hdr_nonce header) (hdr_timestamp header);
  Ok (hash64_from_bytes (finalize h)).

(** The substitutions of the ticket-authorization commitment. *)
Definition auth_substituted (header : Header) (authed_root : Hash64) : Header :=
  mkHeader (hdr_hash header) (hdr_version header) (hdr_parents_by_level header) authed_root
    (hdr_accepted_id_merkle_root header) (hdr_utxo_commitment header) (hdr_timestamp header) (hdr_bits header)
    (hdr_nonce header) (hdr_pow_algo_id header) (hdr_daa_score header) (hdr_blue_work header)
    (hdr_blue_score header) (hdr_pruning_point header) (hdr_evm_payload_hash header)
    (hdr_evm_commitment_root header) (hdr_overlay_commitment_root header) (hdr_blue_hash_work header)
    (hdr_blue_compute_work header) (hdr_palw_batch_id header) (hdr_palw_leaf_index header)
    (hdr_palw_ticket_nullifier header) (hdr_palw_epoch_certificate_hash header) (hdr_palw_chain_commit header)
    (hdr_palw_target_daa_interval header) 0 (hdr_palw_proof_type header) (hdr_palw_beacon_seed header)
    (hdr_palw_spam_accumulator_commitment header) 0.
Definition palw_authorization_commitment {E} (network_id : Z) (header : Header) (authed_root : Hash64) :
    outcome E Hash64 :=
  let substituted := auth_substituted header authed_root in
  let h := update PalwAuthPreimageHash64 (to_le_bytes 4 network_id) in
  h ← write_header_preimage h substituted (hdr_nonce substituted) (hdr_timestamp substituted);
  Ok (hash64_from_bytes (finalize h)).

(** [Header::finalize] caches the identity. *)
Definition set_hash (header : Header) (hash : BlockHash) : Header :=
  mkHeader hash (hdr_version header) (hdr_parents_by_level header) (hdr_hash_merkle_root header)
    (hdr_accepted_id_merkle_root header) (hdr_utxo_commitment header) (hdr_timestamp header) (hdr_bits header)
    (hdr_nonce header) (hdr_pow_algo_id header) (hdr_daa_score header) (hdr_blue_work header)
    (hdr_blue_score header) (hdr_pruning_point header) (hdr_evm_payload_hash header)
    (hdr_evm_commitment_root header) (hdr_overlay_commitment_root header) (hdr_blue_hash_work header)
    (hdr_blue_compute_work header) (hdr_palw_batch_id header) (hdr_palw_leaf_index header)
    (hdr_palw_ticket_nullifier header) (hdr_palw_epoch_certificate_hash header) (hdr_palw_chain_commit header)
    (hdr_palw_target_daa_interval header) (hdr_palw_authorization_hash header) (hdr_palw_proof_type header)
    (hdr_palw_beacon_seed header) (hdr_palw_spam_accumulator_commitment header) (hdr_palw_spam_nonce header).
Definition header_finalize {E} (header : Header) : outcome E Header :=
  hash ← header_hash header; Ok (set_hash header hash).

(** Builders, each of which recomputes the identity. *)
Definition new_finalized {E} (version : Z) (parents_by_level : CompressedParents)
    (hash_merkle_root accepted_id_merkle_root utxo_commitment : Hash64)
    (timestamp bits nonce pow_algo_id daa_score blue_work blue_score : Z) (pruning_point : BlockHash) :
    outcome E Header :=
  header_finalize
    (mkHeader 0 version parents_by_level hash_merkle_root accepted_id_merkle_root utxo_commitment timestamp bits
       nonce pow_algo_id daa_score blue_work blue_score pruning_point 0 0 0 0 0 0 0 0 0 0 0 0 0 0 0 0).

Record PalwHeaderFields := mkPalwHeaderFields {
  pf_blue_hash_work : Z;
  pf_blue_compute_work : Z;
  pf_batch_id : Hash64;
  pf_leaf_index : Z;
  pf_ticket_nullifier : Hash64;
  pf_epoch_certificate_hash : Hash64;
  pf_chain_commit : Hash64;
  pf_target_daa_interval : Z;
  pf_authorization_hash : Hash64;
  pf_proof_type : Z;
  pf_beacon_seed : Hash64;
  pf_spam_accumulator_commitment : Hash64;
  pf_spam_nonce : Z;
}.
Definition set_palw_fields (header : Header) (f : PalwHeaderFields) : Header :=
  mkHeader (hdr_hash header) (hdr_version header) (hdr_parents_by_level header)
    (hdr_hash_merkle_root header) (hdr_accepted_id_merkle_root header) (hdr_utxo_commitment header)
    (hdr_timestamp header) (hdr_bits header) (hdr_nonce header) (hdr_pow_algo_id header)
    (hdr_daa_score header) (hdr_blue_work header) (hdr_blue_score header) (hdr_pruning_point header)
    (hdr_evm_payload_hash header) (hdr_evm_commitment_root header) (hdr_overlay_commitment_root header)
    (pf_blue_hash_work f) (pf_blue_compute_work f) (pf_batch_id f) (pf_leaf_index f)
    (pf_ticket_nullifier f) (pf_epoch_certificate_hash f) (pf_chain_commit f) (pf_target_daa_interval f)
    (pf_authorization_hash f) (pf_proof_type f) (pf_beacon_seed f) (pf_spam_accumulator_commitment f)
    (pf_spam_nonce f).
Definition with_palw_fields {E} (header : Header) (f : PalwHeaderFields) : outcome E Header :=
  header_finalize (set_palw_fields header f).
Definition set_commitments (header : Header) (payload_hash evm_root overlay_root : Hash64) : Header :=
  mkHeader (hdr_hash header) (hdr_version header) (hdr_parents_by_level header)
    (hdr_hash_merkle_root header) (hdr_accepted_id_merkle_root header) (hdr_utxo_commitment header)
    (hdr_timestamp header) (hdr_bits header) (hdr_nonce header) (hdr_pow_algo_id header)
    (hdr_daa_score header) (hdr_blue_work header) (hdr_blue_score header) (hdr_pruning_point header)
    payload_hash evm_root overlay_root (hdr_blue_hash_work header) (hdr_blue_compute_work header)
    (hdr_palw_batch_id header) (hdr_palw_leaf_index header) (hdr_palw_ticket_nullifier header)
    (hdr_palw_epoch_certificate_hash header) (hdr_palw_chain_commit header)
    (hdr_palw_target_daa_interval header) (hdr_palw_authorization_hash header)
    (hdr_palw_proof_type header) (hdr_palw_beacon_seed header)
    (hdr_palw_spam_accumulator_commitment header) (hdr_palw_spam_nonce header).
Definition with_evm_commitment {E} (header : Header) (root : Hash64) : outcome E Header :=
  header_finalize (set_commitments header (hdr_evm_payload_hash header) root (hdr_overlay_commitment_root header)).
Definition with_evm_payload_hash {E} (header : Header) (hash : Hash64) : outcome E Header :=
  header_finalize (set_commitments header hash (hdr_evm_commitment_root header) (hdr_overlay_commitment_root header)).
Definition with_overlay_commitment {E} (header : Header) (root : Hash64) : outcome E Header :=
  header_finalize (set_commitments header (hdr_evm_payload_hash header) (hdr_evm_commitment_root header) root).
End digests.
