(* ===== verification/HeaderThms.v ===== *)
(** * Parents by level: a canonical encoding

    The run-length encoding of the parents ([CompressedParents]) against the
    list of levels it stands for. *)

From stdpp Require Import base list gmap strings.
From Stdlib Require Import ZArith Lia.
From S2P Require Import Prelude Tx Bytes Hashing Header.

Local Open Scope Z_scope.

(** ** Well-formed runs *)

(** Counts increase from [prev] up to 255, and no run repeats the parents of the
    one before it. *)
Fixpoint runs_ok (prev : Z) (before : option (list BlockHash)) (cp : CompressedParents) : Prop :=
  match cp with
  | [] => True
  | (cum, parents) :: cp => prev < cum ≤ U8_MAX ∧ before ≠ Some parents ∧ runs_ok cum (Some parents) cp
  end.
Definition cp_ok (cp : CompressedParents) : Prop := runs_ok 0 None cp.

Definition end_of (prev : Z) (cp : CompressedParents) : Z := match last cp with Some (cum, _) => cum | None => prev end.

Lemma end_of_cons prev cum p cp : end_of prev ((cum, p) :: cp) = end_of cum cp.
Proof. unfold end_of. rewrite last_cons. by destruct (last cp). Qed.

Lemma runs_ok_end prev before cp : runs_ok prev before cp → prev ≤ end_of prev cp ∧ (prev ≤ U8_MAX → end_of prev cp ≤ U8_MAX).
Proof.
  revert prev before. induction cp as [|[cum p] cp IH]; intros prev before; [unfold end_of; simpl; lia|].
  intros (H1 & _ & H2). rewrite end_of_cons. apply IH in H2. lia.
Qed.

Lemma expand_rle_ok {E} prev before cp : runs_ok prev before cp →
  ∃ l, expand_rle (E:=E) prev cp = Ok l ∧ len l = end_of prev cp - prev ∧ (cp ≠ [] → head l ≠ before).
Proof.
  revert prev before. induction cp as [|[cum p] cp IH]; intros prev before; [intros _; exists []; unfold end_of; simpl; split_and!; [done|lia|done]|].
  intros (H1 & H2 & H3). destruct (IH _ _ H3) as (l & Hl & Hlen & _). cbn [expand_rle].
  rewrite (proj2 (Z.ltb_lt _ _)) by lia. rewrite Hl. cbn [mbind outcome_bind].
  eexists. split; [done|]. rewrite end_of_cons, length_app, length_replicate. split; [lia|]. intros _.
  destruct (Z.to_nat (cum - prev)) as [|n] eqn:En; [lia|]. simpl. congruence.
Qed.

(** A run is determined by what it expands to and what follows. *)
Lemma replicate_split {A} (x y : A) n m (l k : list A) :
  head l ≠ Some x → head k ≠ Some y → (0 < n)%nat → (0 < m)%nat →
  replicate n x ++ l = replicate m y ++ k → x = y ∧ n = m ∧ l = k.
Proof.
  intros Hl Hk Hn Hm Heq. assert (x = y) as ->.
  { destruct n, m; [lia..|]. simpl in Heq. by injection Heq. }
  split; [done|]. revert m Hm Heq. induction n as [|n IH]; intros [|m] Hm Heq; try lia.
  simpl in Heq. injection Heq as Heq. destruct n as [|n], m as [|m]; simpl in Heq.
  - done.
  - subst l. simpl in Hl. done.
  - subst k. simpl in Hk. done.
  - destruct (IH ltac:(lia) (S m) ltac:(lia) Heq) as [-> ->]. done.
Qed.

Lemma expand_rle_inj {E} prev before1 before2 cp1 cp2 l :
  runs_ok prev before1 cp1 → runs_ok prev before2 cp2 →
  expand_rle (E:=E) prev cp1 = Ok l → expand_rle (E:=E) prev cp2 = Ok l → cp1 = cp2.
Proof.
  revert prev before1 before2 cp2 l. induction cp1 as [|[c1 p1] cp1 IH]; intros prev before1 before2 [|[c2 p2] cp2] l; [done|..].
  - intros _ (H1 & _ & H2). cbn [expand_rle]. rewrite (proj2 (Z.ltb_lt _ _)) by lia.
    destruct (expand_rle_ok (E:=E) _ _ _ H2) as (l2 & -> & _). intros [= <-] [= Heq].
    destruct (Z.to_nat (c2 - prev)) eqn:En; [lia|done].
  - intros (H1 & _ & H2) _. cbn [expand_rle]. rewrite (proj2 (Z.ltb_lt _ _)) by lia.
    destruct (expand_rle_ok (E:=E) _ _ _ H2) as (l2 & -> & _). intros [= Heq] [= <-].
    destruct (Z.to_nat (c1 - prev)) eqn:En; [lia|done].
  - intros (H1 & _ & H2) (H3 & _ & H4). cbn [expand_rle]. rewrite !(proj2 (Z.ltb_lt _ _)) by lia.
    destruct (expand_rle_ok (E:=E) _ _ _ H2) as (l1 & E1 & _ & Hh1), (expand_rle_ok (E:=E) _ _ _ H4) as (l2 & E2 & _ & Hh2).
    rewrite E1, E2. cbn [mbind outcome_bind]. intros [= <-] [= Heq].
    destruct (replicate_split p1 p2 (Z.to_nat (c1 - prev)) (Z.to_nat (c2 - prev)) l1 l2) as (-> & Hc & ->); [| |lia|lia|done|].
    { destruct cp1 as [|[]]; [by injection E1 as <-|by apply Hh1]. }
    { destruct cp2 as [|[]]; [by injection E2 as <-|by apply Hh2]. }
    assert (c1 = c2) as -> by lia. f_equal. by eapply IH.
Qed.

(** ** Compressing *)

Lemma dedup_cumulative {E A} `{EqDecision A} acc c (v : A) l : 0 < c →
  expand_rle (E:=E) acc (cumulative acc (dedup_with_count c v l)) = Ok (replicate (Z.to_nat c) v ++ l).
Proof.
  revert acc c v. induction l as [|x l IH]; intros acc c v Hc; cbn [dedup_with_count].
  - cbn [cumulative expand_rle]. rewrite (proj2 (Z.ltb_lt _ _)) by lia. cbn [mbind outcome_bind].
    replace (acc + c - acc) with c by lia. done.
  - destruct (decide (x = v)) as [->|Hne].
    + rewrite IH by lia. f_equal. replace (Z.to_nat (c + 1)) with (Z.to_nat c + 1)%nat by lia.
      rewrite replicate_add, <- app_assoc. done.
    + cbn [cumulative expand_rle]. rewrite (proj2 (Z.ltb_lt _ _)) by lia. rewrite IH by lia. cbn [mbind outcome_bind].
      replace (acc + c - acc) with c by lia. done.
Qed.

Lemma dedup_runs_ok acc c (v : list BlockHash) before l : 0 < c → before ≠ Some v → acc + c + len l ≤ U8_MAX →
  runs_ok acc before (cumulative acc (dedup_with_count c v l)).
Proof.
  revert acc c v before. induction l as [|x l IH]; intros acc c v before Hc Hb Hl; cbn [dedup_with_count].
  - cbn [cumulative runs_ok]. simpl in Hl. split; [lia|done].
  - simpl in Hl. destruct (decide (x = v)) as [->|Hne]; [apply IH; [lia|done|lia]|].
    cbn [cumulative runs_ok]. split; [lia|]. split; [done|]. apply IH; [lia|congruence|lia].
Qed.

Lemma rle_cumulative_spec {E} (levels : list (list BlockHash)) : len levels ≤ U8_MAX →
  cp_ok (rle_cumulative levels) ∧ expanded (E:=E) (rle_cumulative levels) = Ok levels.
Proof.
  intros Hl. destruct levels as [|x l]; [done|]. unfold rle_cumulative, cp_ok, expanded. simpl in Hl. split.
  - apply dedup_runs_ok; [lia|done|lia].
  - rewrite dedup_cumulative by lia. done.
Qed.

(** ** Reading a level *)

Section partition.
Context {E : Type} (n cut : nat) (pred : nat → outcome E bool).
Context (Hpred : ∀ j, (j < n)%nat → pred j = Ok (j <? cut)%nat) (Hcut : (cut ≤ n)%nat).

Lemma partition_loop_spec fuel base size :
  (size ≤ S fuel)%nat → (1 ≤ size)%nat → (base + size ≤ n)%nat → (base = 0%nat ∨ (base < cut)%nat) → (cut ≤ base + size)%nat →
  ∃ b, partition_loop fuel pred base size = Ok b ∧ (b < n)%nat ∧ (b = 0%nat ∨ (b < cut)%nat) ∧ (cut ≤ S b)%nat.
Proof.
  revert base size. induction fuel as [|fuel IH]; intros base size Hf Hs Hn Hlo Hhi; cbn [partition_loop].
  all: destruct (Nat.leb_spec size 1); [exists base; split_and!; [done|lia|done|lia]|].
  { lia. }
  pose proof (Nat.div_lt size 2 ltac:(lia) ltac:(lia)). pose proof (Nat.div_mod size 2 ltac:(lia)).
  assert (1 ≤ size / 2)%nat by (apply Nat.div_le_lower_bound; lia).
  set (half := (size / 2)%nat) in *. rewrite Hpred by lia. cbn [mbind outcome_bind].
  destruct (Nat.ltb_spec (base + half) cut); apply IH; lia.
Qed.

Lemma partition_point_spec : partition_point n pred = Ok cut.
Proof.
  unfold partition_point. destruct (Nat.eqb_spec n 0) as [->|Hn]; [f_equal; lia|].
  destruct (partition_loop_spec n 0 n) as (b & -> & Hb & Hlo & Hhi); [lia|lia|lia|by left|lia|].
  cbn [mbind outcome_bind]. rewrite Hpred by done. cbn [mbind outcome_bind]. destruct (Nat.ltb_spec b cut); f_equal; lia.
Qed.
End partition.

(** The run of level [i]: the first one whose count exceeds it. *)
Fixpoint run_of (cp : CompressedParents) (i : Z) : nat :=
  match cp with [] => 0%nat | (cum, _) :: cp => if cum <=? i then S (run_of cp i) else 0%nat end.

Lemma run_of_length cp i : (run_of cp i ≤ length cp)%nat.
Proof. induction cp as [|[c p] cp IH]; simpl; [lia|]. destruct (c <=? i); lia. Qed.

Lemma runs_later prev before cp j run : runs_ok prev before cp → cp !! j = Some run → prev < run.1 ≤ U8_MAX.
Proof.
  revert prev before j. induction cp as [|[c p] cp IH]; intros prev before j; [done|].
  intros (H1 & _ & H2) Hj. destruct j as [|j]; simpl in Hj; [simplify_eq; simpl; lia|].
  pose proof (IH _ _ _ H2 Hj). lia.
Qed.

Lemma run_of_spec prev before cp i j run : runs_ok prev before cp → cp !! j = Some run →
  (run.1 <=? i) = (j <? run_of cp i)%nat.
Proof.
  revert prev before j. induction cp as [|[c p] cp IH]; intros prev before j; [done|].
  intros (H1 & _ & H2) Hj. simpl. destruct j as [|j]; simpl in Hj.
  { simplify_eq. simpl. by destruct (c <=? i). }
  pose proof (runs_later _ _ _ _ _ H2 Hj). destruct (Z.leb_spec c i).
  - rewrite (IH _ _ _ H2 Hj). done.
  - rewrite (proj2 (Z.leb_gt _ _)) by lia. done.
Qed.

Lemma expand_lookup {E} prev before cp l i : runs_ok prev before cp → expand_rle (E:=E) prev cp = Ok l →
  prev ≤ i < end_of prev cp → ∃ run, cp !! run_of cp i = Some run ∧ l !! Z.to_nat (i - prev) = Some run.2.
Proof.
  revert prev before l. induction cp as [|[c p] cp IH]; intros prev before l; [unfold end_of; simpl; lia|].
  intros (H1 & _ & H2). cbn [expand_rle]. rewrite (proj2 (Z.ltb_lt _ _)) by lia.
  destruct (expand_rle_ok (E:=E) _ _ _ H2) as (l2 & E2 & _). rewrite E2. cbn [mbind outcome_bind]. intros [= <-].
  rewrite end_of_cons. intros Hi. simpl. destruct (Z.leb_spec c i) as [Hle|Hlt].
  - destruct (IH _ _ _ H2 E2) as (run & Hr & Hl); [lia|]. exists run. split; [done|].
    rewrite lookup_app_r; rewrite length_replicate; [|lia]. rewrite <- Hl. f_equal. lia.
  - exists (c, p). split; [done|]. rewrite lookup_app_l by (rewrite length_replicate; lia).
    rewrite lookup_replicate_2; [done|lia].
Qed.

Lemma cp_get_spec {E} cp l i : cp_ok cp → expanded (E:=E) cp = Ok l → 0 ≤ i → cp_get (E:=E) cp i = Ok (l !! Z.to_nat i).
Proof.
  intros Hok Hl Hi. unfold cp_get. destruct (expand_rle_ok (E:=E) _ _ _ Hok) as (l' & Hl' & Hlen & _).
  unfold expanded in Hl. rewrite Hl in Hl'. injection Hl' as <-. change (end_of 0 cp) with (expanded_len cp) in Hlen.
  destruct (Z.leb_spec (expanded_len cp) i) as [Hge|Hlt].
  { f_equal. symmetry. apply lookup_ge_None_2. lia. }
  destruct (expand_lookup (E:=E) 0 None cp l i Hok Hl) as (run & Hr & Hli); [unfold end_of, expanded_len in *; lia|].
  rewrite Z.sub_0_r in Hli. destruct (Z.eqb_spec i 0) as [->|Hne].
  - destruct cp as [|[c p] cp]; [done|]. simpl in *. destruct Hok as (H1 & _ & _).
    rewrite (proj2 (Z.leb_gt c 0)) in Hr by lia. injection Hr as <-. by rewrite Hli.
  - rewrite (partition_point_spec (length cp) (run_of cp i)); [|intros j Hj|apply run_of_length].
    + cbn [mbind outcome_bind]. rewrite Hr. cbn [unwrap mbind outcome_bind]. by rewrite Hli.
    + apply lookup_lt_is_Some in Hj as [r Hj]. cbn beta. rewrite Hj. cbn [unwrap mbind outcome_bind].
      pose proof (runs_later _ _ _ _ _ Hok Hj) as Hb. unfold U8_MAX in Hb. chk. f_equal.
      rewrite <- (run_of_spec 0 None cp i j r Hok Hj). lia.
Qed.

(** ** Adding a level *)

Definition parents_before (before : option (list BlockHash)) (cp : CompressedParents) : option (list BlockHash) :=
  match last cp with Some (_, p) => Some p | None => before end.

Lemma parents_before_cons before c p cp : parents_before before ((c, p) :: cp) = parents_before (Some p) cp.
Proof. unfold parents_before. rewrite last_cons. by destruct (last cp) as [[]|]. Qed.

Lemma runs_ok_app prev before cp1 cp2 :
  runs_ok prev before (cp1 ++ cp2) ↔ runs_ok prev before cp1 ∧ runs_ok (end_of prev cp1) (parents_before before cp1) cp2.
Proof.
  revert prev before. induction cp1 as [|[c p] cp1 IH]; intros prev before; simpl; [tauto|].
  rewrite end_of_cons, parents_before_cons, IH. tauto.
Qed.

Lemma expand_rle_app {E} prev before cp1 cp2 l1 : runs_ok prev before cp1 → expand_rle (E:=E) prev cp1 = Ok l1 →
  expand_rle (E:=E) prev (cp1 ++ cp2) = (l2 ← expand_rle (end_of prev cp1) cp2; Ok (l1 ++ l2)).
Proof.
  revert prev before l1. induction cp1 as [|[c p] cp1 IH]; intros prev before l1.
  { intros _ [= <-]. change (end_of prev []) with prev. simpl. by destruct (expand_rle prev cp2). }
  intros (H1 & _ & H2). cbn [app expand_rle]. rewrite (proj2 (Z.ltb_lt _ _)) by lia.
  destruct (expand_rle_ok (E:=E) _ _ _ H2) as (l & El & _). rewrite El. cbn [mbind outcome_bind]. intros [= <-].
  rewrite (IH _ _ _ H2 El), end_of_cons. destruct (expand_rle (end_of c cp1) cp2); cbn [mbind outcome_bind]; try done.
  by rewrite <- app_assoc.
Qed.

Lemma snoc_run {E} cp c p k : runs_ok 0 None cp → end_of 0 cp < c ≤ U8_MAX → parents_before None cp ≠ Some p →
  expanded (E:=E) cp = Ok k →
  cp_ok (cp ++ [(c, p)]) ∧ expanded (E:=E) (cp ++ [(c, p)]) = Ok (k ++ replicate (Z.to_nat (c - end_of 0 cp)) p).
Proof.
  intros Hok Hc Hp Hk. split; [apply runs_ok_app; split; [done|]; simpl; done|].
  unfold expanded in *. rewrite (expand_rle_app _ _ _ _ _ Hok Hk). cbn [expand_rle].
  rewrite (proj2 (Z.ltb_lt _ _)) by lia. cbn [mbind outcome_bind]. by rewrite app_nil_r.
Qed.

Lemma cp_push_spec {E} cp l p : cp_ok cp → expanded (E:=E) cp = Ok l → len l < U8_MAX →
  ∃ cp', cp_push (E:=E) cp p = Ok cp' ∧ cp_ok cp' ∧ expanded (E:=E) cp' = Ok (l ++ [p]).
Proof.
  intros Hok Hl Hlen. destruct (expand_rle_ok (E:=E) _ _ _ Hok) as (l' & Hl' & Hlen' & _).
  unfold expanded in Hl. rewrite Hl in Hl'. injection Hl' as <-. rewrite Z.sub_0_r in Hlen'.
  unfold cp_push. destruct cp as [|r0 cp0 _] using rev_ind.
  { injection Hl as <-. eexists. split; [done|]. split; [|done]. unfold cp_ok, U8_MAX. simpl. unfold U8_MAX. split; [lia|done]. }
  destruct r0 as [c q]. rewrite last_snoc. apply runs_ok_app in Hok as [H1 (H2 & H3 & _)].
  assert (end_of 0 (cp0 ++ [(c, q)]) = c) as He by (unfold end_of; by rewrite last_snoc). rewrite He in *.
  destruct (expand_rle_ok (E:=E) _ _ _ H1) as (k & Hk & _).
  destruct (snoc_run (E:=E) cp0 c q k H1 H2 H3 Hk) as [Hok' Hexp]. unfold expanded in Hexp. rewrite Hl in Hexp.
  injection Hexp as Hl2. rewrite (proj2 (Z.ltb_ge _ _)) by lia. destruct (decide (q = p)) as [->|Hne].
  - rewrite length_app. cbn [length]. replace (length cp0 + 1 - 1)%nat with (length cp0) by lia. rewrite take_app_length.
    eexists. split; [done|]. destruct (snoc_run (E:=E) cp0 (c + 1) p k) as [? ->]; [done|lia|done|done|]. split; [done|].
    f_equal. rewrite Hl2, <- app_assoc. f_equal.
    replace (Z.to_nat (c + 1 - end_of 0 cp0)) with (Z.to_nat (c - end_of 0 cp0) + 1)%nat by lia. by rewrite replicate_add.
  - eexists. split; [done|]. destruct (snoc_run (E:=E) (cp0 ++ [(c, q)]) (c + 1) p l) as [? ->]; [done| | |done|].
    + rewrite He. lia.
    + unfold parents_before. rewrite last_snoc. congruence.
    + split; [done|]. rewrite He. by replace (Z.to_nat (c + 1 - c)) with 1%nat by lia.
Qed.

(** ** Conversions *)

(** The runs the second [TryFrom] accepts, when the first run has a level. *)
Lemma check_runs_ok prev before cp : Forall (λ run, run.1 ≤ U8_MAX) cp →
  (match cp with [] => True | (cum, p) :: _ => prev < cum ∧ before ≠ Some p end) →
  check_runs cp = Ok () ↔ runs_ok prev before cp.
Proof.
  revert prev before. induction cp as [|[c p] cp IH]; intros prev before Hu8 Hhd; [done|].
  apply Forall_cons in Hu8 as [Hc Hu8]. simpl in Hc. destruct Hhd as [Hprev Hbefore]. cbn [check_runs].
  destruct cp as [|[c' p'] cp].
  { simpl. split; [intros _; split_and!; done || lia|done]. }
  destruct (Z.leb_spec c' c); [split; [done|]; intros (_ & _ & ? & _); lia|].
  destruct (decide (p = p')) as [->|Hne]; [split; [done|]; by intros (_ & _ & _ & ? & _)|].
  rewrite (IH c (Some p)); [|done|split; [lia|congruence]]. cbn [runs_ok]. assert (prev < c ≤ U8_MAX) by lia. tauto.
Qed.

Lemma cp_ok_check cp : cp_ok cp → check_runs cp = Ok ().
Proof.
  intros Hok. apply (check_runs_ok 0 None); [|by destruct cp as [|[c p] cp]; [|destruct Hok as (? & ? & ?); split; [lia|]]|done].
  apply Forall_lookup. intros j run Hj. pose proof (runs_later _ _ _ _ _ Hok Hj). lia.
Qed.

(** Run-length encoding of the parents by level is lossless, random access
    reads the level, a level can be appended, and the encoding is canonical:
    the only accepted runs, with a first run that is not empty, that expand to
    the levels are those the encoder writes. More than 255 levels are refused. *)
Theorem compressed_parents_roundtrip levels :
  (len levels ≤ U8_MAX → ∃ cp, cp_try_from_levels levels = Ok cp ∧
     expanded (E:=CompressedParentsError) cp = Ok levels ∧ expanded_len cp = len levels ∧
     (∀ i, 0 ≤ i → cp_get (E:=CompressedParentsError) cp i = Ok (levels !! Z.to_nat i)) ∧
     cp_try_from_runs cp = Ok cp ∧
     (∀ p, len levels < U8_MAX → ∃ cp', cp_push (E:=CompressedParentsError) cp p = Ok cp' ∧
        cp_try_from_levels (levels ++ [p]) = Ok cp') ∧
     (∀ runs, Forall (λ run, 0 < run.1 ≤ U8_MAX) runs → cp_try_from_runs runs = Ok runs →
        expanded (E:=CompressedParentsError) runs = Ok levels → runs = cp)) ∧
  (U8_MAX < len levels → cp_try_from_levels levels = Err LevelsExceeded).
Proof.
  unfold cp_try_from_levels. split; intros Hl; [|by rewrite (proj2 (Z.ltb_lt _ _)) by lia].
  rewrite (proj2 (Z.ltb_ge _ _)) by lia. exists (rle_cumulative levels).
  destruct (rle_cumulative_spec (E:=CompressedParentsError) levels Hl) as [Hok Hexp]. split_and!; try done.
  - destruct (expand_rle_ok (E:=CompressedParentsError) _ _ _ Hok) as (l & Hl' & Hlen & _).
    unfold expanded in Hexp. rewrite Hexp in Hl'. injection Hl' as <-. unfold expanded_len, end_of in *. lia.
  - intros i Hi. by apply cp_get_spec.
  - unfold cp_try_from_runs. by rewrite cp_ok_check.
  - intros p Hp. destruct (cp_push_spec _ _ p Hok Hexp Hp) as (cp' & Hpush & Hok' & Hexp'). exists cp'. split; [done|].
    rewrite length_app. simpl. rewrite (proj2 (Z.ltb_ge _ _)) by lia. f_equal.
    destruct (rle_cumulative_spec (E:=CompressedParentsError) (levels ++ [p])) as [H1 H2]; [rewrite length_app; simpl; lia|].
    by apply (expand_rle_inj (E:=CompressedParentsError) 0 None None _ _ _ H1 Hok' H2).
  - intros runs Hu8 Hruns Hexp'. unfold cp_try_from_runs in Hruns.
    destruct (check_runs runs) as [[]| | |] eqn:Hchk; [|discriminate..].
    apply (check_runs_ok 0 None) in Hchk.
    + by apply (expand_rle_inj (E:=CompressedParentsError) 0 None None _ _ levels).
    + eapply Forall_impl; [exact Hu8|]. simpl. lia.
    + destruct runs as [|[c p] runs]; [done|]. apply Forall_cons in Hu8 as [? _]. simpl in *. split; [lia|done].
Qed.
