(* ===== verification/HeaderHash.v ===== *)
(** * What the header hashes commit to

    The preimage of a header is an injective encoding of the fields that its
    version makes visible, so a digest commits to them up to a collision of the
    keyed BLAKE2b of its domain. *)

From stdpp Require Import base list gmap strings.
From Stdlib Require Import ZArith Lia.
From S2P Require Import Prelude Tx Bytes Hashing Header HeaderThms.

Local Open Scope Z_scope.

(** ** Codes *)

Lemma le_val_snoc_zero l : le_val (l ++ [0]) = le_val l.
Proof. rewrite le_val_app. cbn [le_val]. lia. Qed.

Lemma le_val_skip_zeros l : le_val (rev (skip_zeros l)) = le_val (rev l).
Proof.
  induction l as [|b l IH]; [done|]. cbn [skip_zeros]. destruct (Z.eqb_spec b 0) as [->|]; [|done].
  rewrite IH. simpl. by rewrite le_val_snoc_zero.
Qed.

Lemma length_skip_zeros l : (length (skip_zeros l) ≤ length l)%nat.
Proof. induction l as [|b l IH]; simpl; [lia|]. destruct (b =? 0); simpl; lia. Qed.

Definition enc_work (w : Z) : list byte := enc_var_bytes (skip_zeros (work_be_bytes w)).

#[export] Instance work_code : PrefixCode enc_work (is_uint 72).
Proof.
  intros w1 w2 l1 l2 H1 H2 Heq. unfold enc_work in Heq.
  assert (∀ w, short (skip_zeros (work_be_bytes w))) as Hs.
  { intros w. pose proof (length_skip_zeros (work_be_bytes w)) as Hl. unfold work_be_bytes in *.
    rewrite length_rev, length_to_le_bytes in Hl. unfold short, is_uint. lia. }
  destruct (prefix_code _ _ _ _ (Hs w1) (Hs w2) Heq) as [Hw ->]. split; [|done].
  apply (f_equal (λ l, le_val (rev l))) in Hw. rewrite !le_val_skip_zeros in Hw. unfold work_be_bytes in Hw.
  rewrite !rev_involutive, !le_val_to_le_bytes in Hw by (apply H1 || apply H2). done.
Qed.

#[export] Instance block_hash_code : PrefixCode block_hash_bytes (is_uint 64).
Proof.
  intros a b l1 l2 Ha Hb Heq. unfold block_hash_bytes in Heq.
  apply app_inj_1 in Heq as [Hr ->]; [|by rewrite !length_rev, !length_to_le_bytes].
  split; [|done]. apply (f_equal (λ l, le_val (rev l))) in Hr.
  by rewrite !rev_involutive, !le_val_to_le_bytes in Hr by (apply Ha || apply Hb).
Qed.

#[export] Instance hash64_code : PrefixCode hash64_bytes (is_uint 64).
Proof. apply uint_code. Qed.

Definition enc_level (level : list BlockHash) : list byte := to_le_bytes 8 (len level) ++ concat (block_hash_bytes <$> level).
Definition level_typed (level : list BlockHash) : Prop := short level ∧ Forall (is_uint 64) level.

#[export] Instance level_code : PrefixCode enc_level level_typed.
Proof.
  intros a b l1 l2 [Ha Ha'] [Hb Hb']. unfold enc_level. rewrite <- !app_assoc.
  intros [Hl Heq]%prefix_code; [|done..]. apply (concat_code _ (is_uint 64)) in Heq; [done|done|done|lia].
Qed.

(** ** The encoding *)

Definition enc_evm (h : Header) : list byte :=
  if EVM_HEADER_VERSION <=? hdr_version h then
    hash64_bytes (hdr_evm_payload_hash h) ++ hash64_bytes (hdr_evm_commitment_root h)
  else [].
Definition enc_palw (h : Header) : list byte :=
  if PALW_HEADER_VERSION <=? hdr_version h then
    enc_work (hdr_blue_hash_work h) ++ enc_work (hdr_blue_compute_work h) ++
    hash64_bytes (hdr_palw_batch_id h) ++ to_le_bytes 4 (hdr_palw_leaf_index h) ++
    hash64_bytes (hdr_palw_ticket_nullifier h) ++ hash64_bytes (hdr_palw_epoch_certificate_hash h) ++
    hash64_bytes (hdr_palw_chain_commit h) ++ to_le_bytes 8 (hdr_palw_target_daa_interval h) ++
    hash64_bytes (hdr_palw_authorization_hash h) ++ [hdr_palw_proof_type h] ++ hash64_bytes (hdr_palw_beacon_seed h)
  else [].
Definition enc_spam (h : Header) : list byte :=
  if PALW_ANTISPAM_HEADER_VERSION <=? hdr_version h then
    hash64_bytes (hdr_palw_spam_accumulator_commitment h) ++ to_le_bytes 8 (hdr_palw_spam_nonce h)
  else [].
Definition enc_header (h : Header) (levels : list (list BlockHash)) (nonce timestamp : Z) : list byte :=
  to_le_bytes 2 (hdr_version h) ++ to_le_bytes 8 (expanded_len (hdr_parents_by_level h)) ++
  concat (enc_level <$> levels) ++
  hash64_bytes (hdr_hash_merkle_root h) ++ hash64_bytes (hdr_accepted_id_merkle_root h) ++
  hash64_bytes (hdr_utxo_commitment h) ++ to_le_bytes 8 timestamp ++ to_le_bytes 4 (hdr_bits h) ++
  to_le_bytes 8 nonce ++ [hdr_pow_algo_id h] ++ to_le_bytes 8 (hdr_daa_score h) ++
  to_le_bytes 8 (hdr_blue_score h) ++ enc_work (hdr_blue_work h) ++ block_hash_bytes (hdr_pruning_point h) ++
  enc_evm h ++ hash64_bytes (hdr_overlay_commitment_root h) ++ enc_palw h ++ enc_spam h.

Lemma written_level h level : written (write_var_array h level) = written h ++ enc_level level.
Proof.
  unfold write_var_array, enc_level, write_len. rewrite (written_foldl _ block_hash_bytes) by done.
  by rewrite written_update, <- app_assoc.
Qed.

Lemma write_header_preimage_spec {E} h header levels nonce timestamp :
  expanded (E:=E) (hdr_parents_by_level header) = Ok levels →
  ∃ h', write_header_preimage (E:=E) h header nonce timestamp = Ok h' ∧ params h' = params h ∧
    written h' = written h ++ enc_header header levels nonce timestamp.
Proof.
  intros Hl. unfold write_header_preimage. rewrite Hl. cbn [mbind outcome_bind]. eexists. split; [reflexivity|].
  assert (∀ h, params (foldl write_var_array h levels) = params h) as Hp.
  { intros h0. apply params_foldl. intros h1 l. unfold write_var_array. by rewrite params_foldl. }
  unfold write_spam_fields, write_palw_fields, write_evm_fields, write_blue_work, write_var_bytes, write_len.
  split.
  - destruct (PALW_ANTISPAM_HEADER_VERSION <=? _), (PALW_HEADER_VERSION <=? _), (EVM_HEADER_VERSION <=? _); rewrite ?params_update, Hp; done.
  - unfold enc_header, enc_spam, enc_palw, enc_evm, enc_work, enc_var_bytes.
    destruct (PALW_ANTISPAM_HEADER_VERSION <=? _), (PALW_HEADER_VERSION <=? _), (EVM_HEADER_VERSION <=? _);
      rewrite ?written_update, (written_foldl _ enc_level) by apply written_level;
      rewrite ?written_update, <- ?app_assoc, ?app_nil_r; done.
Qed.

(** ** Typing and visible fields *)

Record header_typed (h : Header) : Prop := {
  ht_version : is_uint 2 (hdr_version h);
  ht_parents : cp_ok (hdr_parents_by_level h);
  ht_levels : Forall (λ run, level_typed run.2) (hdr_parents_by_level h);
  ht_roots : is_uint 64 (hdr_hash_merkle_root h) ∧ is_uint 64 (hdr_accepted_id_merkle_root h) ∧
    is_uint 64 (hdr_utxo_commitment h);
  ht_pow : is_uint 8 (hdr_timestamp h) ∧ is_uint 4 (hdr_bits h) ∧ is_uint 8 (hdr_nonce h);
  ht_scores : is_uint 8 (hdr_daa_score h) ∧ is_uint 8 (hdr_blue_score h) ∧ is_uint 72 (hdr_blue_work h);
  ht_points : is_uint 64 (hdr_pruning_point h) ∧ is_uint 64 (hdr_overlay_commitment_root h);
  ht_evm : is_uint 64 (hdr_evm_payload_hash h) ∧ is_uint 64 (hdr_evm_commitment_root h);
  ht_work : is_uint 72 (hdr_blue_hash_work h) ∧ is_uint 72 (hdr_blue_compute_work h);
  ht_ticket : is_uint 64 (hdr_palw_batch_id h) ∧ is_uint 4 (hdr_palw_leaf_index h) ∧
    is_uint 64 (hdr_palw_ticket_nullifier h) ∧ is_uint 64 (hdr_palw_epoch_certificate_hash h) ∧
    is_uint 64 (hdr_palw_chain_commit h) ∧ is_uint 8 (hdr_palw_target_daa_interval h) ∧
    is_uint 64 (hdr_palw_authorization_hash h) ∧ is_uint 64 (hdr_palw_beacon_seed h);
  ht_spam : is_uint 64 (hdr_palw_spam_accumulator_commitment h) ∧ is_uint 8 (hdr_palw_spam_nonce h);
}.

(** The header with the fields that its version does not hash set to zero, and
    without the cached hash. *)
Definition visible (h : Header) : Header :=
  let evm z := if EVM_HEADER_VERSION <=? hdr_version h then z else 0 in
  let palw z := if PALW_HEADER_VERSION <=? hdr_version h then z else 0 in
  let spam z := if PALW_ANTISPAM_HEADER_VERSION <=? hdr_version h then z else 0 in
  mkHeader 0 (hdr_version h) (hdr_parents_by_level h) (hdr_hash_merkle_root h)
    (hdr_accepted_id_merkle_root h) (hdr_utxo_commitment h) (hdr_timestamp h) (hdr_bits h)
    (hdr_nonce h) (hdr_pow_algo_id h) (hdr_daa_score h) (hdr_blue_work h)
    (hdr_blue_score h) (hdr_pruning_point h) (evm (hdr_evm_payload_hash h))
    (evm (hdr_evm_commitment_root h)) (hdr_overlay_commitment_root h) (palw (hdr_blue_hash_work h))
    (palw (hdr_blue_compute_work h)) (palw (hdr_palw_batch_id h)) (palw (hdr_palw_leaf_index h))
    (palw (hdr_palw_ticket_nullifier h)) (palw (hdr_palw_epoch_certificate_hash h)) (palw (hdr_palw_chain_commit h))
    (palw (hdr_palw_target_daa_interval h)) (palw (hdr_palw_authorization_hash h)) (palw (hdr_palw_proof_type h))
    (palw (hdr_palw_beacon_seed h)) (spam (hdr_palw_spam_accumulator_commitment h)) (spam (hdr_palw_spam_nonce h)).

Lemma expanded_typed {E} prev before cp l : runs_ok prev before cp → Forall (λ run, level_typed run.2) cp →
  expand_rle (E:=E) prev cp = Ok l → Forall level_typed l.
Proof.
  revert prev before l. induction cp as [|[c p] cp IH]; intros prev before l; [intros _ _ [= <-]; constructor|].
  intros (H1 & _ & H2) Ht. inversion Ht; subst. cbn [expand_rle]. rewrite (proj2 (Z.ltb_lt _ _)) by lia.
  destruct (expand_rle_ok (E:=E) _ _ _ H2) as (l2 & E2 & _). rewrite E2. intros [= <-].
  apply Forall_app. split; [by apply Forall_replicate|by eapply IH].
Qed.

(** Equal tails carry equal fields, for a known version. *)
Lemma enc_tail_inj h1 h2 : header_typed h1 → header_typed h2 → hdr_version h1 = hdr_version h2 →
  enc_evm h1 ++ hash64_bytes (hdr_overlay_commitment_root h1) ++ enc_palw h1 ++ enc_spam h1 =
  enc_evm h2 ++ hash64_bytes (hdr_overlay_commitment_root h2) ++ enc_palw h2 ++ enc_spam h2 →
  enc_evm h1 = enc_evm h2 ∧ hdr_overlay_commitment_root h1 = hdr_overlay_commitment_root h2 ∧
  enc_palw h1 = enc_palw h2 ∧ enc_spam h1 = enc_spam h2.
Proof.
  intros H1 H2 Hv Heq.
  assert (length (enc_evm h1) = length (enc_evm h2)) as Hl.
  { unfold enc_evm, hash64_bytes. rewrite Hv. destruct (_ <=? _); [|done]. by rewrite !length_app, !length_to_le_bytes. }
  apply app_inj_1 in Heq as [-> Heq]; [|done]. split; [done|].
  apply prefix_code in Heq as [-> Heq]; [|apply H1|apply H2]. split; [done|].
  unfold enc_spam in *. rewrite Hv in *. destruct (PALW_ANTISPAM_HEADER_VERSION <=? _).
  - apply app_inj_2 in Heq as [-> ->]; [done|]. unfold hash64_bytes. by rewrite !length_app, !length_to_le_bytes.
  - by rewrite !app_nil_r in Heq.
Qed.

(** Reads the next field of both sides of an equation of encodings. *)
Ltac next_field Heq H1 H2 :=
  let Hf := fresh in let Hr := fresh in
  (apply prefix_code in Heq as [Hf Hr]; [|apply H1|apply H2]); clear Heq; rename Hr into Heq; rewrite Hf.

Lemma enc_evm_inj h1 h2 : header_typed h1 → header_typed h2 → hdr_version h1 = hdr_version h2 →
  enc_evm h1 = enc_evm h2 → EVM_HEADER_VERSION <= hdr_version h2 →
  hdr_evm_payload_hash h1 = hdr_evm_payload_hash h2 ∧ hdr_evm_commitment_root h1 = hdr_evm_commitment_root h2.
Proof.
  intros H1 H2 Hv Heq Hge. unfold enc_evm in Heq. rewrite Hv, (proj2 (Z.leb_le _ _) Hge) in Heq.
  next_field Heq H1 H2. rewrite <- (app_nil_r (hash64_bytes _)), <- (app_nil_r (hash64_bytes (hdr_evm_commitment_root h2))) in Heq.
  next_field Heq H1 H2. done.
Qed.

Lemma enc_spam_inj h1 h2 : header_typed h1 → header_typed h2 → hdr_version h1 = hdr_version h2 →
  enc_spam h1 = enc_spam h2 → PALW_ANTISPAM_HEADER_VERSION <= hdr_version h2 →
  hdr_palw_spam_accumulator_commitment h1 = hdr_palw_spam_accumulator_commitment h2 ∧
  hdr_palw_spam_nonce h1 = hdr_palw_spam_nonce h2.
Proof.
  intros H1 H2 Hv Heq Hge. unfold enc_spam in Heq. rewrite Hv, (proj2 (Z.leb_le _ _) Hge) in Heq.
  next_field Heq H1 H2. rewrite <- (app_nil_r (to_le_bytes 8 _)), <- (app_nil_r (to_le_bytes 8 (hdr_palw_spam_nonce h2))) in Heq.
  next_field Heq H1 H2. done.
Qed.

Lemma enc_palw_inj h1 h2 : header_typed h1 → header_typed h2 → hdr_version h1 = hdr_version h2 →
  enc_palw h1 = enc_palw h2 → PALW_HEADER_VERSION <= hdr_version h2 →
  hdr_blue_hash_work h1 = hdr_blue_hash_work h2 ∧ hdr_blue_compute_work h1 = hdr_blue_compute_work h2 ∧
  hdr_palw_batch_id h1 = hdr_palw_batch_id h2 ∧ hdr_palw_leaf_index h1 = hdr_palw_leaf_index h2 ∧
  hdr_palw_ticket_nullifier h1 = hdr_palw_ticket_nullifier h2 ∧
  hdr_palw_epoch_certificate_hash h1 = hdr_palw_epoch_certificate_hash h2 ∧
  hdr_palw_chain_commit h1 = hdr_palw_chain_commit h2 ∧
  hdr_palw_target_daa_interval h1 = hdr_palw_target_daa_interval h2 ∧
  hdr_palw_authorization_hash h1 = hdr_palw_authorization_hash h2 ∧
  hdr_palw_proof_type h1 = hdr_palw_proof_type h2 ∧ hdr_palw_beacon_seed h1 = hdr_palw_beacon_seed h2.
Proof.
  intros H1 H2 Hv Heq Hge. unfold enc_palw in Heq. rewrite Hv, (proj2 (Z.leb_le _ _) Hge) in Heq.
  destruct H1 as [_ _ _ _ _ _ _ _ (?&?) (?&?&?&?&?&?&?&?) _], H2 as [_ _ _ _ _ _ _ _ (?&?) (?&?&?&?&?&?&?&?) _].
  do 9 (apply prefix_code in Heq as [-> Heq]; [|done..]).
  apply (byte_code _ _ _ _ I I) in Heq as [-> Heq].
  rewrite <- (app_nil_r (hash64_bytes _)), <- (app_nil_r (hash64_bytes (hdr_palw_beacon_seed h2))) in Heq.
  apply prefix_code in Heq as [-> _]; done.
Qed.

(** The tail of [visible], field by field. *)
Lemma visible_tail h1 h2 : header_typed h1 → header_typed h2 → hdr_version h1 = hdr_version h2 →
  enc_evm h1 = enc_evm h2 → enc_palw h1 = enc_palw h2 → enc_spam h1 = enc_spam h2 →
  hdr_parents_by_level h1 = hdr_parents_by_level h2 → hdr_hash_merkle_root h1 = hdr_hash_merkle_root h2 →
  hdr_accepted_id_merkle_root h1 = hdr_accepted_id_merkle_root h2 → hdr_utxo_commitment h1 = hdr_utxo_commitment h2 →
  hdr_timestamp h1 = hdr_timestamp h2 → hdr_bits h1 = hdr_bits h2 → hdr_nonce h1 = hdr_nonce h2 →
  hdr_pow_algo_id h1 = hdr_pow_algo_id h2 → hdr_daa_score h1 = hdr_daa_score h2 → hdr_blue_work h1 = hdr_blue_work h2 →
  hdr_blue_score h1 = hdr_blue_score h2 → hdr_pruning_point h1 = hdr_pruning_point h2 →
  hdr_overlay_commitment_root h1 = hdr_overlay_commitment_root h2 → visible h1 = visible h2.
Proof.
  intros H1 H2 Hv He Hp Hs. intros. unfold visible. rewrite Hv in *.
  pose proof (enc_evm_inj h1 h2 H1 H2 Hv He) as Hevm. pose proof (enc_palw_inj h1 h2 H1 H2 Hv Hp) as Hpalw.
  pose proof (enc_spam_inj h1 h2 H1 H2 Hv Hs) as Hspam.
  f_equal; try done.
  all: match goal with |- context [?a <=? ?b] => destruct (Z.leb_spec a b) end; try done.
  all: first [by apply Hevm|by apply Hspam|destruct Hpalw as (?&?&?&?&?&?&?&?&?&?&?); done].
Qed.

Lemma enc_header_inj {E} h1 h2 l1 l2 n1 n2 t1 t2 : header_typed h1 → header_typed h2 →
  expanded (E:=E) (hdr_parents_by_level h1) = Ok l1 → expanded (E:=E) (hdr_parents_by_level h2) = Ok l2 →
  is_uint 8 n1 → is_uint 8 n2 → is_uint 8 t1 → is_uint 8 t2 →
  enc_header h1 l1 n1 t1 = enc_header h2 l2 n2 t2 →
  n1 = n2 ∧ t1 = t2 ∧ (hdr_nonce h1 = hdr_nonce h2 → hdr_timestamp h1 = hdr_timestamp h2 → visible h1 = visible h2).
Proof.
  intros H1 H2 Hl1 Hl2 Hn1 Hn2 Ht1 Ht2 Heq. unfold enc_header in Heq.
  assert (∀ h l, header_typed h → expanded (E:=E) (hdr_parents_by_level h) = Ok l →
    len l = expanded_len (hdr_parents_by_level h) ∧ is_uint 8 (expanded_len (hdr_parents_by_level h)) ∧ Forall level_typed l) as Hlev.
  { intros h l Ht Hl. destruct (expand_rle_ok (E:=E) _ _ _ (ht_parents _ Ht)) as (l' & E' & Hlen & _).
    unfold expanded in Hl. rewrite Hl in E'. injection E' as <-. rewrite Z.sub_0_r in Hlen.
    split; [done|]. split; [|eapply expanded_typed; [apply Ht|apply Ht|done]].
    destruct (runs_ok_end _ _ _ (ht_parents _ Ht)) as [Ha Hb]. change (expanded_len _) with (end_of 0 (hdr_parents_by_level h)).
    unfold is_uint, U8_MAX in *. lia. }
  destruct (Hlev h1 l1 H1 Hl1) as (Hlen1 & Hu1 & Hty1), (Hlev h2 l2 H2 Hl2) as (Hlen2 & Hu2 & Hty2).
  apply prefix_code in Heq as [Hv Heq]; [|apply H1|apply H2].
  apply prefix_code in Heq as [Hlen Heq]; [|done..].
  apply (concat_code _ level_typed) in Heq as [<- Heq]; [|done|done|lia].
  apply prefix_code in Heq as [? Heq]; [|apply H1|apply H2]. apply prefix_code in Heq as [? Heq]; [|apply H1|apply H2].
  apply prefix_code in Heq as [? Heq]; [|apply H1|apply H2]. apply prefix_code in Heq as [-> Heq]; [|done..].
  apply prefix_code in Heq as [? Heq]; [|apply H1|apply H2]. apply prefix_code in Heq as [-> Heq]; [|done..].
  apply (byte_code _ _ _ _ I I) in Heq as [? Heq]. apply prefix_code in Heq as [? Heq]; [|apply H1|apply H2].
  apply prefix_code in Heq as [? Heq]; [|apply H1|apply H2]. apply prefix_code in Heq as [? Heq]; [|apply H1|apply H2].
  apply prefix_code in Heq as [? Heq]; [|apply H1|apply H2].
  apply enc_tail_inj in Heq as (? & ? & ? & ?); [|done..].
  split; [done|]. split; [done|]. intros Hn Ht. apply visible_tail; try done.
  eapply expand_rle_inj; [apply H1|apply H2|exact Hl1|exact Hl2].
Qed.

(** Fields that are not visible do not change the encoding. *)
Lemma enc_header_visible h l n t : enc_header (visible h) l n t = enc_header h l n t.
Proof.
  unfold enc_header, enc_evm, enc_palw, enc_spam, visible. cbn -[to_le_bytes enc_work hash64_bytes block_hash_bytes Z.leb].
  destruct (EVM_HEADER_VERSION <=? _), (PALW_HEADER_VERSION <=? _), (PALW_ANTISPAM_HEADER_VERSION <=? _); done.
Qed.

(** ** Digests *)

Section digests.
Context `{Crypto}.

Lemma finalize_shape h : length (finalize h) = hasher_length h ∧ Forall is_byte (finalize h).
Proof. unfold finalize. split; [apply blake2b_length|apply blake2b_bytes]. Qed.

Lemma block_hash_from_bytes_inj a b : length a = 64%nat → length b = 64%nat → Forall is_byte a → Forall is_byte b →
  block_hash_from_bytes a = block_hash_from_bytes b → a = b.
Proof.
  intros Ha Hb Ha' Hb' Heq. unfold block_hash_from_bytes in Heq.
  rewrite <- (rev_involutive a), <- (rev_involutive b). f_equal.
  apply hash64_from_bytes_inj; rewrite ?length_rev; try done; by apply Forall_rev.
Qed.

(** A header with well-formed parents has its digests. *)
Lemma preimage_total {E} h header nonce timestamp : cp_ok (hdr_parents_by_level header) →
  ∃ levels h', expanded (E:=E) (hdr_parents_by_level header) = Ok levels ∧
    write_header_preimage (E:=E) h header nonce timestamp = Ok h' ∧ params h' = params h ∧
    written h' = written h ++ enc_header header levels nonce timestamp.
Proof.
  intros Hok. destruct (expand_rle_ok (E:=E) _ _ _ Hok) as (levels & Hl & _).
  destruct (write_header_preimage_spec (E:=E) h header levels nonce timestamp Hl) as (h' & ? & ? & ?). by exists levels, h'.
Qed.

Lemma header_hash_total {E} header : cp_ok (hdr_parents_by_level header) → ∃ x, header_hash (E:=E) header = Ok x.
Proof.
  intros Hok. unfold header_hash.
  destruct (preimage_total (E:=E) BlockHash64 header (hdr_nonce header) (hdr_timestamp header) Hok) as (l & h' & _ & -> & _).
  by eexists.
Qed.

(** The strings hashed for two headers, after what the hashers hold, collide. *)
Definition header_collision (E : Type) (d1 d2 : Hasher) (h1 h2 : Header) (n1 n2 t1 t2 : Z) : Prop :=
  ∃ x1 x2, write_header_preimage (E:=E) d1 h1 n1 t1 = Ok x1 ∧ write_header_preimage (E:=E) d2 h2 n2 t2 = Ok x2 ∧ collides x1 x2.

(** Two preimages under one domain with the same digest. *)
Lemma preimage_eq {E} d1 d2 h1 h2 : header_typed h1 → header_typed h2 → params d1 = params d2 →
  ∀ x1 x2, write_header_preimage (E:=E) d1 h1 (hdr_nonce h1) (hdr_timestamp h1) = Ok x1 →
  write_header_preimage (E:=E) d2 h2 (hdr_nonce h2) (hdr_timestamp h2) = Ok x2 →
  finalize x1 = finalize x2 → length (written d1) = length (written d2) →
  written d1 = written d2 ∧ visible h1 = visible h2 ∨ collides x1 x2.
Proof.
  intros H1 H2 Hp x1 x2 Hx1 Hx2 Heq Hlen.
  destruct (preimage_total (E:=E) d1 h1 (hdr_nonce h1) (hdr_timestamp h1) (ht_parents _ H1)) as (l1 & y1 & Hl1 & Hy1 & Hp1 & Hw1).
  destruct (preimage_total (E:=E) d2 h2 (hdr_nonce h2) (hdr_timestamp h2) (ht_parents _ H2)) as (l2 & y2 & Hl2 & Hy2 & Hp2 & Hw2).
  rewrite Hx1 in Hy1. rewrite Hx2 in Hy2. injection Hy1 as <-. injection Hy2 as <-.
  apply finalize_eq in Heq as [Heq|]; [left|by right|congruence].
  rewrite Hw1, Hw2 in Heq. apply app_inj_1 in Heq as [Hd Heq]; [|done]. split; [done|].
  destruct (enc_header_inj h1 h2 l1 l2 (hdr_nonce h1) (hdr_nonce h2) (hdr_timestamp h1) (hdr_timestamp h2) H1 H2 Hl1 Hl2) with (5 := Heq) as (Hn & Ht & Hv); [apply H1|apply H2|apply H1|apply H2|].
  by apply Hv.
Qed.

Lemma header_hash_inj {E} h1 h2 x : header_typed h1 → header_typed h2 →
  header_hash (E:=E) h1 = Ok x → header_hash (E:=E) h2 = Ok x →
  visible h1 = visible h2 ∨
  header_collision E BlockHash64 BlockHash64 h1 h2 (hdr_nonce h1) (hdr_nonce h2) (hdr_timestamp h1) (hdr_timestamp h2).
Proof.
  intros H1 H2. unfold header_hash.
  destruct (write_header_preimage (E:=E) BlockHash64 h1 _ _) as [x1| | |] eqn:E1; cbn [mbind outcome_bind]; try done.
  destruct (write_header_preimage (E:=E) BlockHash64 h2 _ _) as [x2| | |] eqn:E2; cbn [mbind outcome_bind]; try done.
  intros [= Hx1] [= Hx2]. rewrite <- Hx2 in Hx1.
  destruct (preimage_total (E:=E) BlockHash64 h1 (hdr_nonce h1) (hdr_timestamp h1) (ht_parents _ H1)) as (? & y1 & _ & Hy1 & Hp1 & _).
  destruct (preimage_total (E:=E) BlockHash64 h2 (hdr_nonce h2) (hdr_timestamp h2) (ht_parents _ H2)) as (? & y2 & _ & Hy2 & Hp2 & _).
  rewrite E1 in Hy1. rewrite E2 in Hy2. injection Hy1 as <-. injection Hy2 as <-.
  injection Hp1 as _ Hp1. injection Hp2 as _ Hp2.
  apply block_hash_from_bytes_inj in Hx1; [| | |apply finalize_shape..].
  2,3: rewrite (proj1 (finalize_shape _)); done.
  destruct (preimage_eq (E:=E) BlockHash64 BlockHash64 h1 h2 H1 H2 eq_refl x1 x2 E1 E2 Hx1 eq_refl) as [[_ ?]|?]; [by left|right; by exists x1, x2].
Qed.

Lemma header_hash_visible {E} h1 h2 : visible h1 = visible h2 → header_hash (E:=E) h1 = header_hash (E:=E) h2.
Proof.
  intros Hv. unfold header_hash. assert (hdr_parents_by_level h1 = hdr_parents_by_level h2) as Hp by (by injection Hv).
  assert (hdr_nonce h1 = hdr_nonce h2) as -> by (by injection Hv).
  assert (hdr_timestamp h1 = hdr_timestamp h2) as -> by (by injection Hv).
  destruct (expanded (E:=E) (hdr_parents_by_level h2)) as [l| | |] eqn:El.
  2-4: unfold write_header_preimage; rewrite Hp, El; done.
  destruct (write_header_preimage_spec (E:=E) BlockHash64 h2 l (hdr_nonce h2) (hdr_timestamp h2) El) as (x2 & -> & Hp2 & Hw2).
  destruct (write_header_preimage_spec (E:=E) BlockHash64 h1 l (hdr_nonce h2) (hdr_timestamp h2)) as (x1 & -> & Hp1 & Hw1); [by rewrite Hp|].
  cbn [mbind outcome_bind]. do 2 f_equal.
  rewrite (finalize_params _ _ _ Hp1 Hw1), (finalize_params _ _ _ Hp2 Hw2).
  rewrite <- (enc_header_visible h1), <- (enc_header_visible h2), Hv. done.
Qed.

(** The hasher of an authorization, keyed and fed with the network. *)
Definition auth_hasher (network_id : Z) : Hasher := update PalwAuthPreimageHash64 (to_le_bytes 4 network_id).

(** The ticket-authorization commitment binds the network, the root of the
    other transactions and every hashed header field except the three it
    substitutes: two commitments are equal only if the substituted headers have
    the same visible fields, or the strings hashed for them collide. *)
Theorem authorization_commitment_binds n1 n2 h1 h2 r1 r2 x :
  header_typed (auth_substituted h1 r1) → header_typed (auth_substituted h2 r2) → is_uint 4 n1 → is_uint 4 n2 →
  palw_authorization_commitment (E:=unit) n1 h1 r1 = Ok x → palw_authorization_commitment (E:=unit) n2 h2 r2 = Ok x →
  n1 = n2 ∧ r1 = r2 ∧ visible (auth_substituted h1 r1) = visible (auth_substituted h2 r2) ∨
  header_collision unit (auth_hasher n1) (auth_hasher n2) (auth_substituted h1 r1) (auth_substituted h2 r2)
    (hdr_nonce h1) (hdr_nonce h2) (hdr_timestamp h1) (hdr_timestamp h2).
Proof.
  intros H1 H2 Hn1 Hn2. unfold palw_authorization_commitment.
  set (d1 := update _ (to_le_bytes 4 n1)). set (d2 := update _ (to_le_bytes 4 n2)).
  set (s1 := auth_substituted h1 r1) in *. set (s2 := auth_substituted h2 r2) in *.
  destruct (preimage_total (E:=unit) d1 s1 (hdr_nonce s1) (hdr_timestamp s1) (ht_parents _ H1)) as (l1 & x1 & _ & E1 & Hp1 & _).
  destruct (preimage_total (E:=unit) d2 s2 (hdr_nonce s2) (hdr_timestamp s2) (ht_parents _ H2)) as (l2 & x2 & _ & E2 & Hp2 & _).
  rewrite E1, E2. cbn [mbind outcome_bind]. intros [= Hx1] [= Hx2]. rewrite <- Hx2 in Hx1.
  injection Hp1 as _ Hp1. injection Hp2 as _ Hp2.
  apply hash64_from_bytes_inj in Hx1; [| | |apply finalize_shape..].
  2,3: rewrite (proj1 (finalize_shape _)); done.
  destruct (preimage_eq (E:=unit) d1 d2 s1 s2 H1 H2 eq_refl x1 x2 E1 E2 Hx1) as [[Hw Hv]|?]; [by unfold d1, d2; rewrite !written_update, !length_app, !length_to_le_bytes| |right; by exists x1, x2].
  left. split; [|split; [by injection Hv|done]]. unfold d1, d2 in Hw. rewrite !written_update in Hw. apply app_inv_head in Hw.
  rewrite <- (app_nil_r (to_le_bytes 4 n1)), <- (app_nil_r (to_le_bytes 4 n2)) in Hw.
  by apply prefix_code in Hw as [? _].
Qed.
End digests.

(** A header with two levels of parents, for instances. *)
Definition sample_header (version nonce : Z) (cp : CompressedParents) : Header :=
  mkHeader 0 version cp 7 8 9 1000 545259519 nonce 3 12 77 11 5 0 0 6 0 0 0 0 0 0 0 0 0 0 0 0 0.

Lemma sample_header_typed version nonce : is_uint 2 version → is_uint 8 nonce → header_typed (sample_header version nonce [(2, [5; 6]); (3, [5])]).
Proof.
  intros Hv Hn.
  split; try done; unfold level_typed; simpl; repeat constructor; try done; unfold is_uint in *; simpl; try lia.
Qed.

Lemma authorization_commitment_binds_witness : ∃ x,
  palw_authorization_commitment (H:=toy_crypto) (E:=unit) 7 (sample_header 3 9 [(2, [5; 6]); (3, [5])]) 21 = Ok x ∧
  (7 = 7 ∧ 21 = 21 ∧ visible (auth_substituted (sample_header 3 9 [(2, [5; 6]); (3, [5])]) 21) =
     visible (auth_substituted (sample_header 3 9 [(2, [5; 6]); (3, [5])]) 21) ∨
   header_collision (H:=toy_crypto) unit (auth_hasher 7) (auth_hasher 7)
     (auth_substituted (sample_header 3 9 [(2, [5; 6]); (3, [5])]) 21) (auth_substituted (sample_header 3 9 [(2, [5; 6]); (3, [5])]) 21)
     9 9 1000 1000).
Proof.
  eexists. split; [vm_compute; reflexivity|].
  eapply (authorization_commitment_binds (H:=toy_crypto) 7 7 (sample_header 3 9 [(2, [5; 6]); (3, [5])]) (sample_header 3 9 [(2, [5; 6]); (3, [5])]) 21 21);
    [..|vm_compute; reflexivity|vm_compute; reflexivity].
  all: try (unfold is_uint; lia).
  all: split; try done; unfold level_typed; simpl; repeat constructor; try done; unfold is_uint; simpl; lia.
Defined.

(** ** Encoded parents *)

(** Successive runs rise in level and differ in parents; of the first run
    nothing is asked. *)
Definition runs_ordered (runs : CompressedParents) : Prop :=
  ∀ i r1 r2, runs !! i = Some r1 → runs !! S i = Some r2 → r1.1 < r2.1 ∧ r1.2 ≠ r2.2.

Lemma runs_ordered_cons r1 r2 rest : runs_ordered (r1 :: r2 :: rest) ↔ (r1.1 < r2.1 ∧ r1.2 ≠ r2.2) ∧ runs_ordered (r2 :: rest).
Proof.
  split.
  - intros Hr. split; [by apply (Hr 0%nat)|]. intros i. apply (Hr (S i)).
  - intros [H1 H2] [|i] x y; [by intros [= <-] [= <-]|apply H2].
Qed.
Lemma check_runs_exact runs : (runs_ordered runs ∧ check_runs runs = Ok ()) ∨ (¬ runs_ordered runs ∧ ∃ e, check_runs runs = Err e).
Proof.
  induction runs as [|[l1 p1] [|[l2 p2] rest] IH]; cbn [check_runs]; [left; by split| |].
  { left. split; [|done]. by intros [|i] ??. }
  setoid_rewrite runs_ordered_cons. cbn [fst snd].
  destruct (l2 <=? l1) eqn:Hl; [right; split; [intros [[? _] _]; lia|by eexists]|].
  destruct (decide (p1 = p2)) as [Hp|Hp]; [right; split; [by intros [[_ ?] _]|by eexists]|].
  destruct IH as [[H1 H2]|[H1 H2]]; [left|right]; (split; [|done]); [split; [split; [lia|done]|done]|by intros [_ ?]].
Qed.
Lemma expand_ordered {E} runs prev : runs_ordered runs →
  (∃ levels, expand_rle (E:=E) prev runs = Ok levels) ∨ (expand_rle (E:=E) prev runs = Panic ∧ ∃ l p rest, runs = (l, p) :: rest ∧ l ≤ prev).
Proof.
  revert prev. induction runs as [|[l p] runs IH]; intros prev Hr; cbn [expand_rle]; [left; by eexists|].
  destruct (prev <? l) eqn:Hl; [left|right; split; [done|]; exists l, p, runs; split; [done|lia]].
  destruct runs as [|[l2 p2] runs]; [by eexists|]. apply runs_ordered_cons in Hr as [[H1 _] H2].
  destruct (IH l H2) as [[levels ->]|(_ & ? & ? & ? & [= -> -> ->] & ?)]; [by eexists|cbn in *; lia].
Qed.

(** C40. For runs of unsigned levels: the decoder of encoded parents accepts exactly the run lists whose
    successive runs rise in level and differ in parents, and reports an error on
    every other one; it asks nothing of the first run. Hashing a header with
    accepted parents panics exactly when the first run ends at level zero, and
    succeeds otherwise; so a first run of zero levels passes the decoder and
    makes hashing panic. *)
Theorem zero_run_accepted_and_panics `{Crypto} h : Forall (λ run, 0 ≤ run.1) (hdr_parents_by_level h) →
  let runs := hdr_parents_by_level h in
  (runs_ordered runs ∧ cp_try_from_runs runs = Ok runs ∨ ¬ runs_ordered runs ∧ ∃ e, cp_try_from_runs runs = Err e) ∧
  (cp_try_from_runs runs = Ok runs →
    (∃ p rest, runs = (0, p) :: rest) ∧ header_finalize (E:=CompressedParentsError) h = Panic ∨
    (∀ p rest, runs ≠ (0, p) :: rest) ∧ ∃ h', header_finalize (E:=CompressedParentsError) h = Ok h').
Proof.
  intros Hpos runs. unfold cp_try_from_runs.
  split; [|intros Hd].
  { destruct (check_runs_exact runs) as [[Hr ->]|[Hr [e ->]]]; [by left|right; split; [done|by eexists]]. }
  destruct (check_runs_exact runs) as [[Hr _]|[_ [e He]]]; [clear Hd|by rewrite He in Hd].
  unfold header_finalize, header_hash. destruct (expand_ordered (E:=CompressedParentsError) runs 0 Hr) as [[levels Hl]|(He & l & p & rest & Hl & Hle)].
  - right. split; [intros p rest Heq; by rewrite Heq in Hl|].
    destruct (write_header_preimage_spec (E:=CompressedParentsError) BlockHash64 h levels (hdr_nonce h) (hdr_timestamp h) Hl) as (x & -> & _). by eexists.
  - left. assert (l = 0) as -> by (unfold runs in Hl; rewrite Hl in Hpos; apply Forall_cons in Hpos as [? _]; cbn in *; lia).
    split; [by exists p, rest|]. unfold write_header_preimage, expanded. fold runs. by rewrite He.
Qed.

Lemma zero_run_accepted_and_panics_witness :
  cp_try_from_runs [(0, [5]); (2, [6])] = Ok [(0, [5]); (2, [6])] ∧
  header_finalize (H:=toy_crypto) (E:=CompressedParentsError) (sample_header 1 0 [(0, [5]); (2, [6])]) = Panic.
Proof.
  assert (Forall (λ run : Z * list BlockHash, 0 ≤ run.1) [(0, [5]); (2, [6])]) as Hpos by (repeat constructor; done).
  destruct (zero_run_accepted_and_panics (H:=toy_crypto) (sample_header 1 0 [(0, [5]); (2, [6])]) Hpos) as (_ & Hd).
  split; [reflexivity|]. destruct (Hd eq_refl) as [[_ Hp]|[Hn _]]; [exact Hp|]. by destruct (Hn [5] [(2, [6])]).
Defined.
