(* ===== verification/ScriptNum.v ===== *)
(** * Script numbers and the data stack

    Models [src/crypto/txscript/src/data_stack.rs] (the script number codec and
    the stack operations the opcodes share) and
    [src/crypto/txscript/errors/src/lib.rs] (the errors; the text a variant
    carries is dropped, the numbers it carries are kept).

    A stack is the [Vec] of the code, its top the last element. Code that
    changes a state and may fail is a function
    [S → S * outcome TxScriptError A]: the state survives an error, as it does
    behind a [&mut]. *)

From stdpp Require Import base list gmap.
From Stdlib Require Import ZArith Lia.
From S2P Require Import Prelude Bytes Tx.

Local Open Scope Z_scope.

(** ** Errors *)

Inductive SerializationError := NumberTooLong (n : Z).

Inductive TxScriptError :=
| MalformedPushSize (bytes : list byte)
| MalformedPush (required got : Z)
| InvalidInputIndex (i : Z) (n : Z)
| StackSizeExceeded (n max : Z)
| InvalidOpcode (code : Z)
| OpcodeReserved (code : Z)
| OpcodeDisabled (code : Z)
| EmptyStack
| CleanStack (n : Z)
| EvalFalse
| EarlyReturn
| VerifyError
| InvalidState
| SigcacheSignatureInvalid
| TooManyOperations (max : Z)
| NotATransactionInput
| ElementTooBig (n max : Z)
| NotMinimalData
| InvalidSource
| UnsatisfiedLockTime
| NumberTooBig
| NullFail
| InvalidSignatureCount
| InvalidPubKeyCount
| InvalidSigHashType (typ : Z)
| PubKeyFormat
| SigLength (n : Z)
| NoScripts
| SignatureScriptNotPushOnly
| ErrUnbalancedConditional
| InvalidStackOperation (required got : nat)
| ScriptSize (n max : Z)
| InvalidOutputIndex (i : Z) (n : Z)
| Serialization (e : SerializationError)
| ExceededSigOpLimit (limit : Z)
| LegacySignatureOpcodeDisabled (code : Z)
| ScriptHashDisabledInPqMode
| LegacyAddressDisabledInPqMode.

#[export] Instance SerializationError_eq_dec : EqDecision SerializationError.
Proof. solve_decision. Defined.
#[export] Instance TxScriptError_eq_dec : EqDecision TxScriptError.
Proof. solve_decision. Defined.

(** ** Stateful code *)

Definition SM (S A : Type) : Type := S → S * outcome TxScriptError A.

#[export] Instance SM_ret {S} : MRet (SM S) := λ A a s, (s, Ok a).
#[export] Instance SM_bind {S} : MBind (SM S) := λ A B f m s,
  match m s with
  | (s', Ok a) => f a s'
  | (s', Err e) => (s', Err e)
  | (s', Panic) => (s', Panic)
  | (s', OutOfFuel) => (s', OutOfFuel)
  end.

Definition lift {S A} (m : outcome TxScriptError A) : SM S A := λ s, (s, m).
Definition throw {S A} (e : TxScriptError) : SM S A := lift (Err e).
Definition get {S} : SM S S := λ s, (s, Ok s).
Definition put {S} (s' : S) : SM S unit := λ _, (s', Ok tt).

(** ** Signed machine integers *)

Definition I64_MIN : Z := - 2 ^ 63.
Definition I64_MAX : Z := 2 ^ 63 - 1.
Definition in_i64 (z : Z) : bool := (I64_MIN <=? z) && (z <=? I64_MAX).
Definition in_i32 (z : Z) : bool := (- 2 ^ 31 <=? z) && (z <=? 2 ^ 31 - 1).
Definition wrap_i64 (z : Z) : Z := (z + 2 ^ 63) mod 2 ^ 64 - 2 ^ 63.
Definition wrap_i32 (z : Z) : Z := (z + 2 ^ 31) mod 2 ^ 32 - 2 ^ 31.
Definition chk_i64 {E} (z : Z) : outcome E Z := if in_i64 z then Ok z else Panic.
Definition checked_i64 (z : Z) : option Z := if in_i64 z then Some z else None.

(** ** The number codec *)

Definition check_minimal_data_encoding (v : list byte) : outcome TxScriptError unit :=
  if bool_decide (v = []) then Ok tt
  else
    msb ← unwrap (v !! (length v - 1)%nat);
    if Z.land msb 0x7f =? 0 then
      if (length v =? 1)%nat then Err NotMinimalData
      else
        snd_msb ← unwrap (v !! (length v - 2)%nat);
        if Z.land snd_msb 0x80 =? 0 then Err NotMinimalData else Ok tt
    else Ok tt.

(** The [iter::from_fn] closure of [serialize_i64], run until it returns
    [None]: at most one byte per eight bits of the number, one more for the
    sign. *)
Fixpoint number_vec (fuel : nat) (positive : Z) (last_saturated : bool) : list byte :=
  match fuel with
  | O => []
  | S fuel =>
      if positive =? 0 then
        if last_saturated then 0 :: number_vec fuel positive false else []
      else
        let value := Z.land positive 0xff in
        value :: number_vec fuel (Z.shiftr positive 8) (negb (Z.land value 0x80 =? 0))
  end.

Definition serialize_i64 {E} (from : Z) : outcome E (list byte) :=
  let sign := Z.sgn from in
  let v := number_vec 10 (Z.abs from) false in
  if sign =? -1 then
    match last v with
    | Some num => Ok (<[(length v - 1)%nat := Z.lor num 0x80]> v)
    | None => Panic
    end
  else Ok v.

Definition deserialize_i64 (v : list byte) : outcome TxScriptError Z :=
  if (8 <? length v)%nat then Err NotMinimalData
  else if (length v =? 0)%nat then Ok 0
  else
    _ ← check_minimal_data_encoding v;
    msb ← unwrap (v !! (length v - 1)%nat);
    let sign := 1 - 2 * Z.shiftr msb 7 in
    let first_byte := Z.land msb 0x7f in
    r ← for_each (λ accum item, chk_i64 (wrap_i64 (Z.shiftl accum 8) + item))
          (rev (take (length v - 1) v)) first_byte;
    chk_i64 (r * sign).

(** The trait [OpcodeData<T>] for [Vec<u8>]. *)
Record OpcodeData (T : Type) := mkOpcodeData {
  deserialize : list byte → outcome TxScriptError T;
  serialize : T → outcome SerializationError (list byte);
}.
Arguments mkOpcodeData {T}.
Arguments deserialize {T}.
Arguments serialize {T}.

(** [SizedEncodeInt<LEN>]. *)
Definition SizedEncodeInt (LEN : nat) : OpcodeData Z := {|
  deserialize v := if (LEN <? length v)%nat then Err NumberTooBig else deserialize_i64 v;
  serialize from :=
    bytes ← serialize_i64 from;
    if (LEN <? length bytes)%nat then Err (NumberTooLong from) else Ok bytes;
|}.

Definition data_i64 : OpcodeData Z := SizedEncodeInt 8.

(** The conversion to [i32] is a [try_into().expect(..)]. *)
Definition data_i32 : OpcodeData Z := {|
  deserialize v :=
    n ← deserialize (SizedEncodeInt 4) v;
    if in_i32 n then Ok n else Panic;
  serialize := serialize (SizedEncodeInt 4);
|}.

Definition data_bool : OpcodeData bool := {|
  deserialize v :=
    if bool_decide (v = []) then Ok false
    else
      msb ← unwrap (v !! (length v - 1)%nat);
      Ok (negb (Z.land msb 0x7f =? 0) || existsb (λ b, negb (b =? 0)) (take (length v - 1) v));
  serialize b := Ok (if b : bool then [1] else []);
|}.

(** ** The stack *)

Abbreviation Stack := (list (list byte)).

(** [iter().map(deserialize).collect::<Result<Vec<_>, _>>()]. *)
Fixpoint collect {E A B} (f : A → outcome E B) (l : list A) : outcome E (list B) :=
  match l with
  | [] => Ok []
  | a :: l => b ← f a; bs ← collect f l; Ok (b :: bs)
  end.

Definition pop_items {T} (D : OpcodeData T) (SIZE : nat) : SM Stack (list T) := λ s,
  if (length s <? SIZE)%nat then (s, Err (InvalidStackOperation SIZE (length s)))
  else (take (length s - SIZE) s, collect (deserialize D) (drop (length s - SIZE) s)).

Definition peek_items {T} (D : OpcodeData T) (SIZE : nat) : SM Stack (list T) := λ s,
  if (length s <? SIZE)%nat then (s, Err (InvalidStackOperation SIZE (length s)))
  else (s, collect (deserialize D) (drop (length s - SIZE) s)).

Definition pop_raw (SIZE : nat) : SM Stack (list (list byte)) := λ s,
  if (length s <? SIZE)%nat then (s, Err (InvalidStackOperation SIZE (length s)))
  else (take (length s - SIZE) s, Ok (drop (length s - SIZE) s)).

Definition peek_raw (SIZE : nat) : SM Stack (list (list byte)) := λ s,
  if (length s <? SIZE)%nat then (s, Err (InvalidStackOperation SIZE (length s)))
  else (s, Ok (drop (length s - SIZE) s)).

Definition push_item {T} (D : OpcodeData T) (item : T) : SM Stack unit := λ s,
  match serialize D item with
  | Ok v => (s ++ [v], Ok tt)
  | Err e => (s, Err (Serialization e))
  | Panic => (s, Panic)
  | OutOfFuel => (s, OutOfFuel)
  end.

Definition drop_items (SIZE : nat) : SM Stack unit := λ s,
  if (SIZE <=? length s)%nat then (take (length s - SIZE) s, Ok tt)
  else (s, Err (InvalidStackOperation SIZE (length s))).

Definition dup_items (SIZE : nat) : SM Stack unit := λ s,
  if (SIZE <=? length s)%nat then (s ++ drop (length s - SIZE) s, Ok tt)
  else (s, Err (InvalidStackOperation SIZE (length s))).

(** [s[a..b]] and [drain(a..b)]. *)
Definition slice {A} (a b : nat) (s : list A) : list A := take (b - a) (drop a s).
Definition drain {A} (a b : nat) (s : list A) : list A * list A :=
  (take a s ++ drop b s, slice a b s).

Definition over_items (SIZE : nat) : SM Stack unit := λ s,
  if (2 * SIZE <=? length s)%nat
  then (s ++ slice (length s - 2 * SIZE) (length s - SIZE) s, Ok tt)
  else (s, Err (InvalidStackOperation (2 * SIZE) (length s))).

Definition rot_items (SIZE : nat) : SM Stack unit := λ s,
  if (3 * SIZE <=? length s)%nat then
    let '(s', drained) := drain (length s - 3 * SIZE) (length s - 2 * SIZE) s in
    (s' ++ drained, Ok tt)
  else (s, Err (InvalidStackOperation (3 * SIZE) (length s))).

Definition swap_items (SIZE : nat) : SM Stack unit := λ s,
  if (2 * SIZE <=? length s)%nat then
    let '(s', drained) := drain (length s - 2 * SIZE) (length s - SIZE) s in
    (s' ++ drained, Ok tt)
  else (s, Err (InvalidStackOperation (2 * SIZE) (length s))).

(** ** Correctness of the codec

    The shape of the magnitude
    strings [serialize_i64] builds: no superfluous top byte, and room for the
    sign in the last one. *)
Fixpoint canon (sat : bool) (u : list byte) : Prop :=
  match u with
  | [] => sat = false
  | b :: u => is_byte b ∧ canon (128 <=? b) u ∧ (u = [] → b ≠ 0 ∨ sat = true)
  end.

Lemma canon_val_nonneg sat u : canon sat u → 0 ≤ le_val u.
Proof. revert sat. induction u as [|b u IH]; intros sat; simpl; [done|]. unfold is_byte. intros (? & ?%IH & _). lia. Qed.

Lemma canon_val_pos u : canon false u → u ≠ [] → 0 < le_val u.
Proof.
  cut (∀ u sat, canon sat u → u ≠ [] → sat = false ∨ u ≠ [0] → 0 < le_val u).
  { intros H ??. eapply H; eauto. }
  clear u. intros u. induction u as [|b u IH]; intros sat Hc Hne Hs; [done|].
  destruct Hc as (Hb & Hc & Hz). unfold is_byte in Hb. cbn [le_val].
  destruct u as [|c u]; [destruct (Hz eq_refl) as [?|Hsat]; simpl; [lia|]|].
  - destruct Hs as [|Hs]; [congruence|]. assert (b ≠ 0) by congruence. simpl; lia.
  - pose proof (canon_val_nonneg _ _ Hc). destruct (128 <=? b) eqn:E; [lia|].
    pose proof (IH _ Hc ltac:(done) ltac:(by left)). lia.
Qed.

(** The encoder inverts [le_val] on canonical strings ... *)
Lemma number_vec_le_val fuel sat u :
  canon sat u → (length u < fuel)%nat → number_vec fuel (le_val u) sat = u.
Proof.
  revert sat u. induction fuel as [|fuel IH]; intros sat u Hc Hf; [lia|].
  destruct u as [|b u]; cbn [number_vec]; [by rewrite Hc|].
  destruct Hc as (Hb & Hc & Hz). cbn [le_val]. pose proof (canon_val_nonneg _ _ Hc) as Hn.
  simpl in Hf. unfold is_byte in Hb. destruct (Z.eqb_spec (b + 256 * le_val u) 0) as [E|E].
  - assert (b = 0) as -> by lia. change (128 <=? 0) with false in Hc.
    destruct u as [|c u]; [|pose proof (canon_val_pos _ Hc ltac:(done)); lia].
    destruct (Hz eq_refl) as [ | -> ]; [done|]. f_equal. by destruct fuel.
  - rewrite land_ff, shiftr_8, land_80 by (unfold is_byte; apply Z.mod_pos_bound; lia).
    replace ((b + 256 * le_val u) mod 256) with b
      by (rewrite Z.mul_comm, Z.mod_add by done; rewrite Z.mod_small; lia).
    replace ((b + 256 * le_val u) / 256) with (le_val u)
      by (rewrite Z.mul_comm, Z.div_add, Z.div_small by lia; lia).
    f_equal. rewrite <- Z.leb_antisym. apply IH; [done|lia].
Qed.

(** ... and produces a canonical string of the right value. *)
Lemma number_vec_spec fuel n sat k :
  0 ≤ n < 256 ^ Z.of_nat k → (S k < fuel)%nat →
  canon sat (number_vec fuel n sat) ∧ le_val (number_vec fuel n sat) = n.
Proof.
  revert fuel n sat. induction k as [|k IH]; intros fuel n sat Hn Hf;
    (destruct fuel as [|fuel]; [lia|]); cbn [number_vec].
  - assert (n = 0) as -> by lia. destruct fuel; [lia|]. destruct sat; [|done]. simpl.
    unfold is_byte. repeat split; auto; lia.
  - destruct (Z.eqb_spec n 0) as [->|E].
    { destruct fuel; [lia|]. destruct sat; [|done]. simpl. unfold is_byte. repeat split; auto; lia. }
    rewrite land_ff, shiftr_8, land_80 by (unfold is_byte; apply Z.mod_pos_bound; lia).
    rewrite <- Z.leb_antisym.
    assert (0 ≤ n / 256 < 256 ^ Z.of_nat k) as Hn'.
    { rewrite Nat2Z.inj_succ, Z.pow_succ_r in Hn by lia.
      split; [apply Z.div_pos; lia|apply Z.div_lt_upper_bound; lia]. }
    destruct (IH fuel (n / 256) (128 <=? n mod 256) Hn' ltac:(lia)) as [Hc Hv].
    pose proof (Z.mod_pos_bound n 256 ltac:(lia)). cbn [canon le_val]. rewrite Hv. unfold is_byte.
    pose proof (Z.div_mod n 256 ltac:(lia)) as Hdm. split; [|lia]. split_and!; [lia|lia|done|].
    intros Hnil. rewrite Hnil in Hv. simpl in Hv. lia.
Qed.

(** Whether the byte below the last one has its top bit set. *)
Definition top_sat (sat : bool) (u : list byte) : bool :=
  match last u with Some b => 128 <=? b | None => sat end.

Lemma canon_snoc sat u m :
  canon sat (u ++ [m]) ↔
  Forall is_byte u ∧ 0 ≤ m < 128 ∧ (m ≠ 0 ∨ top_sat sat u = true).
Proof.
  revert sat. induction u as [|b u IH]; intros sat; cbn [app canon].
  - unfold top_sat, is_byte; simpl. rewrite Forall_nil.
    destruct (Z.leb_spec 128 m); split; intros (? & ? & ?); try done; try lia.
    + split_and!; [done|lia|lia|tauto].
    + split_and!; [lia|lia|done|tauto].
  - rewrite IH, Forall_cons.
    assert (top_sat sat (b :: u) = top_sat (128 <=? b) u) as ->.
    { unfold top_sat. destruct u as [|c u]; [done|]. rewrite last_cons_cons.
      destruct (last (c :: u)) eqn:Hl; [done|]. by apply last_None in Hl. }
    split; [naive_solver|]. intros ([??] & ? & ?). split; [done|]. split; [tauto|].
    intros Hn. by destruct u.
Qed.

(** The numeric range of a magnitude string of at most eight bytes. *)
Lemma le_val_i64 u m :
  Forall is_byte u → 0 ≤ m < 128 → (length u ≤ 7)%nat →
  0 ≤ le_val (u ++ [m]) ≤ I64_MAX.
Proof.
  intros Hu Hm Hl. rewrite le_val_app. cbn [le_val].
  pose proof (le_val_bound u Hu) as Hb.
  assert (256 ^ Z.of_nat (length u) ≤ 256 ^ 7) by (apply Z.pow_le_mono_r; lia).
  unfold I64_MAX. change (256 ^ 7) with (2 ^ 56) in *. nia.
Qed.

Lemma in_i64_spec z : in_i64 z = true ↔ I64_MIN ≤ z ≤ I64_MAX.
Proof. unfold in_i64. lia. Qed.
Lemma chk_i64_Ok {E} z : I64_MIN ≤ z ≤ I64_MAX → @chk_i64 E z = Ok z.
Proof. unfold chk_i64. intros ->%in_i64_spec. done. Qed.
Lemma wrap_i64_id z : I64_MIN ≤ z ≤ I64_MAX → wrap_i64 z = z.
Proof. unfold wrap_i64, I64_MIN, I64_MAX. intros ?. rewrite Z.mod_small by lia. lia. Qed.

Lemma accumulate_bytes u m :
  Forall is_byte u → 0 ≤ m < 128 → (length u ≤ 7)%nat →
  for_each (λ accum item, chk_i64 (wrap_i64 (Z.shiftl accum 8) + item)) (rev u) m
    = @Ok TxScriptError _ (le_val (u ++ [m])).
Proof.
  intros Hu Hm. induction Hu as [|b u Hb Hu IH]; intros Hl; cbn [length] in Hl;
    cbn [rev app le_val]; [f_equal; lia|].
  rewrite for_each_app, IH by lia. simpl.
  pose proof (le_val_i64 (b :: u) m ltac:(by constructor) Hm ltac:(simpl; lia)) as Hr.
  cbn [app le_val] in Hr. pose proof (le_val_i64 u m Hu Hm ltac:(lia)).
  rewrite Z.shiftl_mul_pow2 by lia. change (2 ^ 8) with 256. unfold is_byte in Hb.
  unfold I64_MAX in *. rewrite wrap_i64_id, chk_i64_Ok by (unfold I64_MIN, I64_MAX; lia).
  simpl. f_equal. lia.
Qed.

Lemma lookup_snoc_last {A} (u : list A) t : (u ++ [t]) !! (length (u ++ [t]) - 1)%nat = Some t.
Proof. rewrite length_app. simpl. rewrite Nat.add_sub. by rewrite list_lookup_middle. Qed.

Lemma check_minimal_data_encoding_spec u t :
  Forall is_byte u → is_byte t →
  check_minimal_data_encoding (u ++ [t]) =
    if decide (t mod 128 ≠ 0 ∨ top_sat false u = true) then Ok tt else Err NotMinimalData.
Proof.
  intros Hu Ht. unfold check_minimal_data_encoding.
  rewrite bool_decide_eq_false_2 by (by destruct u). rewrite lookup_snoc_last. simpl.
  rewrite land_7f. destruct (Z.eqb_spec (t mod 128) 0) as [E|E]; [|by rewrite decide_True by auto].
  rewrite length_app. simpl. induction u as [|b u _] using rev_ind; simpl.
  { by rewrite decide_False by (unfold top_sat; naive_solver). }
  rewrite length_app. simpl. destruct (Nat.eqb_spec (length u + 1 + 1) 1) as [|_]; [lia|].
  rewrite <- app_assoc. simpl. rewrite list_lookup_middle by lia. simpl.
  apply Forall_app in Hu as [_ Hb]. rewrite Forall_singleton in Hb.
  rewrite land_80 by done. unfold top_sat. rewrite last_snoc.
  destruct (Z.ltb_spec b 128); [rewrite decide_False by lia|rewrite decide_True by lia]; done.
Qed.

(** What decoding computes: the sign and the magnitude, for the canonical
    strings and no others. *)
Lemma deserialize_i64_spec u t :
  Forall is_byte u → is_byte t → (length u ≤ 7)%nat →
  deserialize_i64 (u ++ [t]) =
    if decide (t mod 128 ≠ 0 ∨ top_sat false u = true)
    then Ok (le_val (u ++ [t mod 128]) * (1 - 2 * (t / 128)))
    else Err NotMinimalData.
Proof.
  intros Hu Ht Hl. unfold deserialize_i64.
  destruct (Nat.ltb_spec 8 (length (u ++ [t]))); [rewrite length_app in *; simpl in *; lia|].
  destruct (Nat.eqb_spec (length (u ++ [t])) 0); [rewrite length_app in *; simpl in *; lia|].
  rewrite check_minimal_data_encoding_spec by done. destruct (decide _); [|done]. simpl.
  rewrite lookup_snoc_last. simpl. rewrite land_7f, shiftr_7.
  replace (take (length (u ++ [t]) - 1) (u ++ [t])) with u
    by (rewrite length_app; simpl; rewrite Nat.add_sub; by rewrite take_app_length).
  assert (0 ≤ t mod 128 < 128) by (apply Z.mod_pos_bound; lia).
  rewrite accumulate_bytes by done. simpl.
  pose proof (le_val_i64 u (t mod 128) Hu ltac:(done) Hl).
  assert (t / 128 = 0 ∨ t / 128 = 1) as [->| ->].
  { unfold is_byte in Ht. pose proof (Z.div_pos t 128). pose proof (Z.div_lt_upper_bound t 128 2). lia. }
  all: rewrite chk_i64_Ok; [f_equal; lia|unfold I64_MIN, I64_MAX in *; lia].
Qed.

(** What encoding computes. *)
Lemma serialize_i64_spec {E} z :
  I64_MIN ≤ z ≤ I64_MAX → z ≠ 0 →
  ∃ u m, canon false (u ++ [m]) ∧ le_val (u ++ [m]) = Z.abs z ∧
    @serialize_i64 E z = Ok (u ++ [m + 128 * (if z <? 0 then 1 else 0)]).
Proof.
  intros Hz Hz0. unfold I64_MIN, I64_MAX in Hz. unfold serialize_i64.
  destruct (number_vec_spec 10 (Z.abs z) false 8) as [Hc Hv]; [split; [lia|];
    change (256 ^ Z.of_nat 8) with (2 ^ 64); lia|lia|].
  remember (number_vec 10 (Z.abs z) false) as v eqn:Ev. clear Ev.
  induction v as [|m u _] using rev_ind; [simpl in Hv; lia|].
  exists u, m. split; [done|]. split; [done|]. apply canon_snoc in Hc as (_ & Hm & _).
  destruct (Z.ltb_spec z 0).
  - rewrite Z.sgn_neg by done. simpl. rewrite last_snoc, lor_80 by done. do 2 f_equal.
    rewrite length_app. simpl. rewrite Nat.add_sub, insert_app_r_alt, Nat.sub_diag by lia. done.
  - rewrite Z.sgn_pos by lia. simpl. by rewrite Z.add_0_r.
Qed.

(** A canonical string is as short as its value allows. *)
Lemma canon_lower u m :
  canon false (u ++ [m]) → u ≠ [] →
  128 * 256 ^ Z.of_nat (length u - 1) ≤ le_val (u ++ [m]).
Proof.
  intros (Hu & Hm & Ht)%canon_snoc Hne. rewrite le_val_app. simpl (le_val [m]).
  induction u as [|b u _] using rev_ind; [done|]. clear Hne.
  apply Forall_app in Hu as [Hu Hb]. rewrite Forall_singleton in Hb. unfold is_byte in Hb.
  unfold top_sat in Ht. rewrite last_snoc in Ht.
  rewrite !length_app, le_val_app. simpl (length [b]). simpl (le_val [b]).
  pose proof (le_val_bound u Hu). rewrite Nat.add_sub, Nat2Z.inj_add, Z.pow_add_r by lia.
  change (256 ^ Z.of_nat 1) with 256.
  remember (256 ^ Z.of_nat (length u)) as P. destruct Ht as [Ht|Ht]; [nia|].
  apply Z.leb_le in Ht. nia.
Qed.

Lemma canon_length u m :
  canon false (u ++ [m]) → le_val (u ++ [m]) ≤ I64_MAX → (length u ≤ 7)%nat.
Proof.
  intros Hc Hv. destruct (decide (u = [])) as [->|Hne]; [simpl; lia|].
  pose proof (canon_lower _ _ Hc Hne) as Hlow. destruct (decide (length u ≤ 7)%nat); [done|exfalso].
  assert (256 ^ 7 ≤ 256 ^ Z.of_nat (length u - 1)) by (apply Z.pow_le_mono_r; lia).
  unfold I64_MAX in Hv. change (256 ^ 7) with (2 ^ 56) in *. lia.
Qed.

(** Encoding and decoding at a width of [LEN] bytes, [LEN] at most 8. *)
Lemma serialize_nonmin z :
  I64_MIN < z ≤ I64_MAX →
  ∃ v, (∀ E, @serialize_i64 E z = Ok v) ∧ (length v ≤ 8)%nat ∧ Forall is_byte v ∧
    deserialize_i64 v = Ok z.
Proof.
  intros Hz. destruct (decide (z = 0)) as [->|Hz0].
  { exists []. split_and!; [done|simpl; lia|by constructor|done]. }
  destruct (@serialize_i64_spec unit z) as (u & m & Hc & Hv & Hs);
    [unfold I64_MIN, I64_MAX in *; lia|done|].
  assert (Hl : (length u ≤ 7)%nat).
  { eapply canon_length; [done|]. rewrite Hv. unfold I64_MIN, I64_MAX in *. lia. }
  pose proof Hc as (Hu & Hm & Ht)%canon_snoc.
  remember (m + 128 * (if z <? 0 then 1 else 0)) as t eqn:Et.
  assert (Htm : t mod 128 = m ∧ t / 128 = (if z <? 0 then 1 else 0)).
  { subst t. rewrite Z.mul_comm. split; [by rewrite Z.mod_add, Z.mod_small by lia|].
    rewrite Z.div_add, Z.div_small by lia. lia. }
  destruct Htm as [Htm Htd].
  assert (is_byte t) by (unfold is_byte; destruct (z <? 0); lia).
  exists (u ++ [t]). split_and!.
  - intros E. unfold serialize_i64 in Hs |- *. destruct (Z.sgn z =? -1); [|congruence].
    destruct (last _); congruence.
  - rewrite length_app. simpl. lia.
  - apply Forall_app; split; [done|by apply Forall_singleton].
  - rewrite deserialize_i64_spec by done. rewrite Htm, Htd, decide_True by done.
    rewrite Hv. f_equal. destruct (Z.ltb_spec z 0); lia.
Qed.

Lemma deserialize_i64_sound v z :
  Forall is_byte v → deserialize_i64 v = Ok z →
  I64_MIN < z ≤ I64_MAX ∧ ∀ E, @serialize_i64 E z = Ok v.
Proof.
  intros Hv. destruct (decide (length v ≤ 8)%nat) as [Hl|Hl]; cycle 1.
  { unfold deserialize_i64. destruct (Nat.ltb_spec 8 (length v)); [done|lia]. }
  induction v as [|t u _] using rev_ind.
  { intros [= <-]. split; [unfold I64_MIN, I64_MAX; lia|done]. }
  apply Forall_app in Hv as [Hu Ht]. rewrite Forall_singleton in Ht.
  rewrite length_app in Hl. simpl in Hl. rewrite deserialize_i64_spec by (done || lia).
  destruct (decide _) as [Hmin|]; [|done]. intros [= Hz].
  assert (Hm : 0 ≤ t mod 128 < 128) by (apply Z.mod_pos_bound; lia).
  assert (Hc : canon false (u ++ [t mod 128])) by (by apply canon_snoc).
  pose proof (canon_val_pos _ Hc ltac:(by destruct u)) as Hpos.
  pose proof (le_val_i64 u (t mod 128) Hu Hm ltac:(lia)) as Hr.
  assert (Hd : t / 128 = 0 ∨ t / 128 = 1).
  { unfold is_byte in Ht. pose proof (Z.div_pos t 128). pose proof (Z.div_lt_upper_bound t 128 2). lia. }
  pose proof (Z.div_mod t 128 ltac:(lia)) as Hdm.
  split; [unfold I64_MIN, I64_MAX in *; destruct Hd as [Hd|Hd]; rewrite Hd in Hz; lia|].
  intros E. unfold serialize_i64.
  assert (Z.abs z = le_val (u ++ [t mod 128])) as -> by (destruct Hd as [Hd|Hd]; rewrite Hd in Hz; lia).
  rewrite number_vec_le_val by (done || (rewrite length_app; simpl; lia)).
  destruct Hd as [Hd|Hd]; rewrite Hd in Hz, Hdm.
  - rewrite Z.sgn_pos by lia. simpl. do 3 f_equal. lia.
  - rewrite Z.sgn_neg by lia. simpl. rewrite last_snoc, lor_80 by done. do 2 f_equal.
    rewrite length_app. simpl. rewrite Nat.add_sub, insert_app_r_alt, Nat.sub_diag by lia.
    simpl. do 2 f_equal. lia.
Qed.

Lemma deserialize_i64_total v :
  Forall is_byte v → (∃ z, deserialize_i64 v = Ok z) ∨ deserialize_i64 v = Err NotMinimalData.
Proof.
  intros Hv. unfold deserialize_i64 at 2. destruct (Nat.ltb_spec 8 (length v)); [by right|].
  induction v as [|t u _] using rev_ind; [left; by exists 0|].
  apply Forall_app in Hv as [Hu Ht]. rewrite Forall_singleton in Ht.
  rewrite length_app in *. simpl in *. fold (deserialize_i64 (u ++ [t])).
  rewrite deserialize_i64_spec by (done || lia). destruct (decide _); [by left; eexists|right].
  pose proof (deserialize_i64_spec u t Hu Ht ltac:(lia)) as Hs. rewrite decide_False in Hs by done.
  unfold deserialize_i64 in Hs. rewrite length_app in Hs. simpl in Hs.
  destruct (8 <? length u + 1)%nat eqn:E; [apply Nat.ltb_lt in E; lia|done].
Qed.

(** An [OpcodeData] conversion is total: on every byte string it returns a
    value or an error, and what it serializes is a byte string. *)
Record opcode_data_ok {T} (D : OpcodeData T) (dom : T → Prop) : Prop := {
  deserialize_safe v : Forall is_byte v → safe (deserialize D v);
  deserialize_dom v t : Forall is_byte v → deserialize D v = Ok t → dom t;
  serialize_safe t : dom t → safe (serialize D t);
  serialize_bytes t v : dom t → serialize D t = Ok v → Forall is_byte v;
}.

Lemma serialize_i64_min {E} : @serialize_i64 E I64_MIN = Ok [0; 0; 0; 0; 0; 0; 0; 128; 128].
Proof. vm_compute. reflexivity. Qed.

Lemma serialize_i64_bytes {E} z :
  I64_MIN ≤ z ≤ I64_MAX → ∃ v, @serialize_i64 E z = Ok v ∧ Forall is_byte v.
Proof.
  intros Hz. destruct (decide (z = I64_MIN)) as [->|Hne].
  { rewrite serialize_i64_min. eexists; split; [done|]. repeat constructor; done. }
  destruct (serialize_nonmin z) as (v & Hv & _ & Hb & _); [lia|eauto].
Qed.

Lemma SizedEncodeInt_ok LEN :
  (LEN ≤ 8)%nat → opcode_data_ok (SizedEncodeInt LEN) (λ z, I64_MIN ≤ z ≤ I64_MAX).
Proof.
  intros HL. split; simpl.
  - intros v Hv. destruct (LEN <? length v)%nat; [done|].
    by destruct (deserialize_i64_total v Hv) as [[z ->]| ->].
  - intros v z Hv. destruct (LEN <? length v)%nat; [done|].
    intros [? _]%deserialize_i64_sound; [lia|done].
  - intros z Hz. destruct (@serialize_i64_bytes SerializationError z Hz) as (v & -> & _).
    simpl. by destruct (LEN <? length v)%nat.
  - intros z v Hz. destruct (@serialize_i64_bytes SerializationError z Hz) as (w & -> & Hw).
    simpl. destruct (LEN <? length w)%nat; congruence.
Qed.

Lemma data_i64_ok : opcode_data_ok data_i64 (λ z, I64_MIN ≤ z ≤ I64_MAX).
Proof. apply SizedEncodeInt_ok. lia. Qed.

(** Four bytes always fit an [i32]: the [expect] never fires. *)
Lemma deserialize_four_bytes v z :
  Forall is_byte v → (length v ≤ 4)%nat → deserialize_i64 v = Ok z → in_i32 z = true.
Proof.
  intros Hv Hl. induction v as [|t u _] using rev_ind; [by intros [= <-]|].
  apply Forall_app in Hv as [Hu Ht]. rewrite Forall_singleton in Ht.
  rewrite length_app in Hl. simpl in Hl. rewrite deserialize_i64_spec by (done || lia).
  destruct (decide _); [|done]. intros [= <-].
  assert (Hm : 0 ≤ t mod 128 < 128) by (apply Z.mod_pos_bound; lia).
  assert (Hd : t / 128 = 0 ∨ t / 128 = 1).
  { unfold is_byte in Ht. pose proof (Z.div_pos t 128). pose proof (Z.div_lt_upper_bound t 128 2). lia. }
  rewrite le_val_app. simpl (le_val [_]). pose proof (le_val_bound u Hu).
  assert (256 ^ Z.of_nat (length u) ≤ 256 ^ 3) by (apply Z.pow_le_mono_r; lia).
  change (256 ^ 3) with (2 ^ 24) in *.
  assert (0 ≤ le_val u + 256 ^ Z.of_nat (length u) * (t mod 128 + 256 * 0) < 2 ^ 31) by nia.
  unfold in_i32. destruct Hd as [-> | ->]; lia.
Qed.

Lemma data_i32_ok : opcode_data_ok data_i32 (λ z, in_i32 z = true).
Proof.
  pose proof (SizedEncodeInt_ok 4 ltac:(lia)) as [H1 H2 H3 H4]. split.
  - intros v Hv. cbn [deserialize data_i32]. apply safe_bind; [auto|]. intros z Hz.
    simpl in Hz. destruct (4 <? length v)%nat eqn:E; [done|]. apply Nat.ltb_ge in E.
    by rewrite (deserialize_four_bytes v z).
  - intros v z Hv. cbn [deserialize data_i32]. intros (x & _ & Hx)%bind_Ok.
    destruct (in_i32 x) eqn:?; congruence.
  - intros z Hz. apply H3. unfold in_i32, I64_MIN, I64_MAX in *. lia.
  - intros z v Hz. apply H4. unfold in_i32, I64_MIN, I64_MAX in *. lia.
Qed.

Lemma data_bool_ok : opcode_data_ok data_bool (λ _, True).
Proof.
  split; simpl; try done.
  - intros v Hv. destruct (bool_decide_reflect (v = [])); [done|].
    destruct (lookup_lt_is_Some_2 v (length v - 1)) as [b ->]; [|done].
    destruct v; simpl in *; [done|lia].
  - intros b v _ [= <-]. destruct b; repeat constructor; unfold is_byte; lia.
Qed.

(** The script number codec is a bijection between the [i64] values other
    than [i64::MIN] and the minimally encoded byte strings of at most eight
    bytes: encoding then decoding gives the number back, every string the
    decoder accepts is the encoding of its value, and [i64::MIN] is refused. *)
Theorem script_number_codec :
  (∀ z, I64_MIN < z ≤ I64_MAX →
    ∃ v, serialize data_i64 z = Ok v ∧ Forall is_byte v ∧ deserialize data_i64 v = Ok z) ∧
  (∀ v z, Forall is_byte v → deserialize data_i64 v = Ok z →
    I64_MIN < z ≤ I64_MAX ∧ serialize data_i64 z = Ok v) ∧
  serialize data_i64 I64_MIN = Err (NumberTooLong I64_MIN).
Proof.
  split_and!; [| |vm_compute; reflexivity]; simpl.
  - intros z Hz. destruct (serialize_nonmin z Hz) as (v & Hv & Hl & Hb & Hd).
    exists v. rewrite Hv. simpl. apply Nat.ltb_ge in Hl. by rewrite Hl.
  - intros v z Hv. destruct (8 <? length v)%nat eqn:Hl; [done|]. intros Hd.
    destruct (deserialize_i64_sound v z Hv Hd) as [Hz Hs]. split; [done|].
    rewrite Hs. simpl. by rewrite Hl.
Qed.
