(* ===== verification/ScriptOps.v ===== *)
(** * Opcodes, scripts and script templates

    Models the parts of [src/crypto/txscript] that work on scripts as byte
    strings: the opcode table and its metadata ([opcodes/mod.rs],
    [opcodes/macros.rs]), [parse_script] ([lib.rs]), [script_builder.rs],
    [script_class.rs], [standard.rs] and [standard/multisig.rs]. The execution
    of opcodes is in ScriptEngine. *)

From stdpp Require Import base list gmap.
From Stdlib Require Import ZArith Lia.
From S2P Require Import Prelude Bytes Tx ScriptNum.

Local Open Scope Z_scope.

(** ** Opcode numbers *)
Module codes.
Definition OpFalse : Z := 0x00.
Definition Op0 : Z := 0x00.
Definition OpData1 : Z := 0x01.
Definition OpData32 : Z := 0x20.
Definition OpData33 : Z := 0x21.
Definition OpData36 : Z := 0x24.
Definition OpData64 : Z := 0x40.
Definition OpData75 : Z := 0x4b.
Definition OpPushData1 : Z := 0x4c.
Definition OpPushData2 : Z := 0x4d.
Definition OpPushData4 : Z := 0x4e.
Definition Op1Negate : Z := 0x4f.
Definition OpReserved : Z := 0x50.
Definition OpTrue : Z := 0x51.
Definition Op1 : Z := 0x51.
Definition Op2 : Z := 0x52.
Definition Op3 : Z := 0x53.
Definition Op4 : Z := 0x54.
Definition Op5 : Z := 0x55.
Definition Op6 : Z := 0x56.
Definition Op7 : Z := 0x57.
Definition Op8 : Z := 0x58.
Definition Op9 : Z := 0x59.
Definition Op10 : Z := 0x5a.
Definition Op11 : Z := 0x5b.
Definition Op12 : Z := 0x5c.
Definition Op13 : Z := 0x5d.
Definition Op14 : Z := 0x5e.
Definition Op15 : Z := 0x5f.
Definition Op16 : Z := 0x60.
Definition OpNop : Z := 0x61.
Definition OpVer : Z := 0x62.
Definition OpIf : Z := 0x63.
Definition OpNotIf : Z := 0x64.
Definition OpVerIf : Z := 0x65.
Definition OpVerNotIf : Z := 0x66.
Definition OpElse : Z := 0x67.
Definition OpEndIf : Z := 0x68.
Definition OpVerify : Z := 0x69.
Definition OpReturn : Z := 0x6a.
Definition OpToAltStack : Z := 0x6b.
Definition OpFromAltStack : Z := 0x6c.
Definition Op2Drop : Z := 0x6d.
Definition Op2Dup : Z := 0x6e.
Definition Op3Dup : Z := 0x6f.
Definition Op2Over : Z := 0x70.
Definition Op2Rot : Z := 0x71.
Definition Op2Swap : Z := 0x72.
Definition OpIfDup : Z := 0x73.
Definition OpDepth : Z := 0x74.
Definition OpDrop : Z := 0x75.
Definition OpDup : Z := 0x76.
Definition OpNip : Z := 0x77.
Definition OpOver : Z := 0x78.
Definition OpPick : Z := 0x79.
Definition OpRoll : Z := 0x7a.
Definition OpRot : Z := 0x7b.
Definition OpSwap : Z := 0x7c.
Definition OpTuck : Z := 0x7d.
Definition OpCat : Z := 0x7e.
Definition OpSubStr : Z := 0x7f.
Definition OpLeft : Z := 0x80.
Definition OpRight : Z := 0x81.
Definition OpSize : Z := 0x82.
Definition OpInvert : Z := 0x83.
Definition OpAnd : Z := 0x84.
Definition OpOr : Z := 0x85.
Definition OpXor : Z := 0x86.
Definition OpEqual : Z := 0x87.
Definition OpEqualVerify : Z := 0x88.
Definition OpReserved1 : Z := 0x89.
Definition OpReserved2 : Z := 0x8a.
Definition Op1Add : Z := 0x8b.
Definition Op1Sub : Z := 0x8c.
Definition Op2Mul : Z := 0x8d.
Definition Op2Div : Z := 0x8e.
Definition OpNegate : Z := 0x8f.
Definition OpAbs : Z := 0x90.
Definition OpNot : Z := 0x91.
Definition Op0NotEqual : Z := 0x92.
Definition OpAdd : Z := 0x93.
Definition OpSub : Z := 0x94.
Definition OpMul : Z := 0x95.
Definition OpDiv : Z := 0x96.
Definition OpMod : Z := 0x97.
Definition OpLShift : Z := 0x98.
Definition OpRShift : Z := 0x99.
Definition OpBoolAnd : Z := 0x9a.
Definition OpBoolOr : Z := 0x9b.
Definition OpNumEqual : Z := 0x9c.
Definition OpNumEqualVerify : Z := 0x9d.
Definition OpNumNotEqual : Z := 0x9e.
Definition OpLessThan : Z := 0x9f.
Definition OpGreaterThan : Z := 0xa0.
Definition OpLessThanOrEqual : Z := 0xa1.
Definition OpGreaterThanOrEqual : Z := 0xa2.
Definition OpMin : Z := 0xa3.
Definition OpMax : Z := 0xa4.
Definition OpWithin : Z := 0xa5.
Definition OpCheckSigMlDsa87 : Z := 0xa6.
Definition OpCheckMultiSigMlDsa87 : Z := 0xa7.
Definition OpSHA256 : Z := 0xa8.
Definition OpCheckMultiSigECDSA : Z := 0xa9.
Definition OpBlake2b : Z := 0xaa.
Definition OpCheckSigECDSA : Z := 0xab.
Definition OpCheckSig : Z := 0xac.
Definition OpCheckSigVerify : Z := 0xad.
Definition OpCheckMultiSig : Z := 0xae.
Definition OpCheckMultiSigVerify : Z := 0xaf.
Definition OpCheckLockTimeVerify : Z := 0xb0.
Definition OpCheckSequenceVerify : Z := 0xb1.
Definition OpTxVersion : Z := 0xb2.
Definition OpTxInputCount : Z := 0xb3.
Definition OpTxOutputCount : Z := 0xb4.
Definition OpTxLockTime : Z := 0xb5.
Definition OpTxSubnetId : Z := 0xb6.
Definition OpTxGas : Z := 0xb7.
Definition OpTxPayload : Z := 0xb8.
Definition OpTxInputIndex : Z := 0xb9.
Definition OpOutpointTxId : Z := 0xba.
Definition OpOutpointIndex : Z := 0xbb.
Definition OpTxInputScriptSig : Z := 0xbc.
Definition OpTxInputSeq : Z := 0xbd.
Definition OpTxInputAmount : Z := 0xbe.
Definition OpTxInputSpk : Z := 0xbf.
Definition OpTxInputBlockDaaScore : Z := 0xc0.
Definition OpTxInputIsCoinbase : Z := 0xc1.
Definition OpTxOutputAmount : Z := 0xc2.
Definition OpTxOutputSpk : Z := 0xc3.
Definition OpBlake2b512 : Z := 0xc4.
Definition OpSmallInteger : Z := 0xfa.
Definition OpPubKeys : Z := 0xfb.
Definition OpPubKeyHash : Z := 0xfd.
Definition OpPubKey : Z := 0xfe.
Definition OpInvalidOpCode : Z := 0xff.
End codes.

Definition MAX_SCRIPT_PUBLIC_KEY_VERSION : Z := 0.
Definition MAX_STACK_SIZE : Z := 244.
Definition MAX_SCRIPTS_SIZE : Z := 16384.
Definition MAX_SCRIPT_ELEMENT_SIZE : Z := 8192.
Definition MAX_OPS_PER_SCRIPT : Z := 201.
Definition MLDSA87_PK_LEN : Z := 2592.
Definition MLDSA87_SIG_LEN : Z := 4627.
Definition MAX_PUB_KEYS_PER_MUTLTISIG : Z := 20.
Definition NO_COST_OPCODE : Z := 0x60.

Definition OP_SMALL_INT_MIN_VAL : Z := 1.
Definition OP_SMALL_INT_MAX_VAL : Z := 16.
Definition OP_DATA_MIN_VAL : Z := codes.OpData1.
Definition OP_DATA_MAX_VAL : Z := codes.OpData75.
Definition OP_1_NEGATE_VAL : Z := 0x81.

(** [OpCode<CODE>] with its data; the 256 instances of the type parameter are
    the values of [op_code]. *)
Record OpCode := mkOpCode { op_code : Z; op_data : list byte }.
#[export] Instance OpCode_eq_dec : EqDecision OpCode.
Proof. solve_decision. Defined.

(** The length specification of the opcode list: a literal, which counts the
    opcode itself, or the integer type of a length field of that many bytes. *)
Inductive opcode_len := Literal (n : nat) | LengthField (size : nat).

Definition opcode_length (code : Z) : opcode_len :=
  if (codes.OpData1 <=? code) && (code <=? codes.OpData75) then Literal (Z.to_nat code + 1)
  else if code =? codes.OpPushData1 then LengthField 1
  else if code =? codes.OpPushData2 then LengthField 2
  else if code =? codes.OpPushData4 then LengthField 4
  else Literal 1.

(** [OpcodeSerialization::serialize], the two arms of [opcode_serde!]. *)
Definition opcode_serialize (op : OpCode) : list byte :=
  match opcode_length (op_code op) with
  | Literal _ => op_code op :: op_data op
  | LengthField size => op_code op :: to_le_bytes size (len (op_data op)) ++ op_data op
  end.

(** [OpCodeExecution::new], the two arms of [opcode_init!]. *)
Definition opcode_new (code : Z) (data : list byte) : outcome TxScriptError OpCode :=
  match opcode_length code with
  | Literal n =>
      if (length data =? n - 1)%nat then Ok (mkOpCode code data)
      else Err (MalformedPush (Z.of_nat (n - 1)) (len data))
  | LengthField size =>
      if len data >? 256 ^ Z.of_nat size - 1
      then Err (MalformedPush (256 ^ Z.of_nat size - 1) (len data))
      else Ok (mkOpCode code data)
  end.

(** [OpcodeSerialization::deserialize]: reads what the opcode needs from the
    iterator, and returns the rest of it. *)
Definition opcode_deserialize (code : Z) (it : list byte) :
    outcome TxScriptError OpCode * list byte :=
  match opcode_length code with
  | Literal n => (opcode_new code (take (n - 1) it), drop (n - 1) it)
  | LengthField size =>
      let bytes := take size it in
      let it := drop size it in
      if (length bytes =? size)%nat then
        let push_len := le_val bytes in
        let data := take (Z.to_nat push_len) it in
        (if len data =? push_len then Ok (mkOpCode code data)
         else Err (MalformedPush push_len (len data)),
         drop (Z.to_nat push_len) it)
      else (Err (MalformedPushSize bytes), it)
  end.

Definition deserialize_next_opcode (it : list byte) :
    option (outcome TxScriptError OpCode * list byte) :=
  match it with
  | [] => None
  | opcode_num :: it => Some (opcode_deserialize opcode_num it)
  end.

(** [parse_script]: an opcode takes at least one byte, so that the length of
    the script bounds the number of opcodes. *)
Fixpoint parse_fuel (fuel : nat) (it : list byte) : list (outcome TxScriptError OpCode) :=
  match fuel with
  | O => []
  | S fuel =>
      match deserialize_next_opcode it with
      | None => []
      | Some (r, it) => r :: parse_fuel fuel it
      end
  end.
Definition parse_script (script : list byte) : list (outcome TxScriptError OpCode) :=
  parse_fuel (length script) script.

(** ** Opcode metadata *)

Definition is_disabled (op : OpCode) : bool :=
  bool_decide (op_code op ∈ [codes.OpCat; codes.OpSubStr; codes.OpLeft; codes.OpRight;
    codes.OpInvert; codes.OpAnd; codes.OpOr; codes.OpXor; codes.Op2Mul; codes.Op2Div;
    codes.OpMul; codes.OpDiv; codes.OpMod; codes.OpLShift; codes.OpRShift]).
Definition always_illegal (op : OpCode) : bool :=
  bool_decide (op_code op ∈ [codes.OpVerIf; codes.OpVerNotIf]).
Definition is_push_opcode (op : OpCode) : bool := op_code op <=? NO_COST_OPCODE.
Definition is_conditional (op : OpCode) : bool :=
  (op_code op >=? 0x63) && (op_code op <=? 0x68).

Definition check_minimal_data_push (op : OpCode) : outcome TxScriptError unit :=
  let data_len := len (op_data op) in
  let opcode := op_code op in
  let first := nth 0 (op_data op) 0 in
  if data_len =? 0 then
    if negb (opcode =? codes.OpFalse) then Err NotMinimalData else Ok tt
  else if (data_len =? 1) && (OP_SMALL_INT_MIN_VAL <=? first) && (first <=? OP_SMALL_INT_MAX_VAL) then
    if negb (opcode =? codes.OpTrue + first - 1) then Err NotMinimalData else Ok tt
  else if (data_len =? 1) && (first =? OP_1_NEGATE_VAL) then
    if negb (opcode =? codes.Op1Negate) then Err NotMinimalData else Ok tt
  else if data_len <=? OP_DATA_MAX_VAL then
    if negb (opcode =? data_len) then Err NotMinimalData else Ok tt
  else if data_len <=? 255 then
    if negb (opcode =? codes.OpPushData1) then Err NotMinimalData else Ok tt
  else if (data_len <? 65535) && negb (opcode =? codes.OpPushData2) then Err NotMinimalData
  else Ok tt.

Definition is_legacy_signature_opcode (tag : Z) : bool :=
  bool_decide (tag ∈ [codes.OpCheckMultiSigECDSA; codes.OpCheckSigECDSA; codes.OpCheckSig;
    codes.OpCheckSigVerify; codes.OpCheckMultiSig; codes.OpCheckMultiSigVerify]).

Definition to_small_int {E} (op : OpCode) : outcome E Z :=
  let value := op_code op in
  if value =? codes.OpFalse then Ok 0
  else
    _ ← assert_ ((codes.OpTrue <=? value) && (value <? codes.Op16));
    Ok (value - (codes.OpTrue - 1)).

(** ** [ScriptBuilder] *)

Inductive ScriptBuilderError :=
| OpCodeRejected (opcode : Z)
| OpCodesRejected (n : Z)
| DataRejected (n : Z)
| ElementExceedsMaxSize (n : Z)
| IntegerRejected (n : Z)
| BuilderSerialization (e : SerializationError).

(** The builder is its script; a call that fails leaves it as it was. *)
Record ScriptBuilder := mkScriptBuilder { script : list byte }.

Definition ScriptBuilder_new : ScriptBuilder := mkScriptBuilder [].

Definition add_op (b : ScriptBuilder) (opcode : Z) : outcome ScriptBuilderError ScriptBuilder :=
  if len (script b) >=? MAX_SCRIPTS_SIZE then Err (OpCodeRejected opcode)
  else Ok (mkScriptBuilder (script b ++ [opcode])).

Definition add_ops (b : ScriptBuilder) (opcodes : list Z) : outcome ScriptBuilderError ScriptBuilder :=
  if len (script b) + len opcodes >? MAX_SCRIPTS_SIZE then Err (OpCodesRejected (len opcodes))
  else Ok (mkScriptBuilder (script b ++ opcodes)).

Definition canonical_data_size (data : list byte) : Z :=
  let data_len := len data in
  let first := nth 0 data 0 in
  if (data_len =? 0) ||
     ((data_len =? 1) && ((first <=? OP_SMALL_INT_MAX_VAL) || (first =? OP_1_NEGATE_VAL)))
  then 1
  else data_len +
    (if data_len <=? OP_DATA_MAX_VAL then 1
     else if data_len <=? 255 then 2
     else if data_len <=? 65535 then 3
     else 5).

Definition add_raw_data (b : ScriptBuilder) (data : list byte) : ScriptBuilder :=
  let data_len := len data in
  let first := nth 0 data 0 in
  if data_len =? 0 then mkScriptBuilder (script b ++ [codes.Op0])
  else if (data_len =? 1) && (first >=? OP_SMALL_INT_MIN_VAL) && (first <=? OP_SMALL_INT_MAX_VAL) then
    mkScriptBuilder (script b ++ [codes.Op1 - 1 + first])
  else if (data_len =? 1) && (first =? OP_1_NEGATE_VAL) then
    mkScriptBuilder (script b ++ [codes.Op1Negate])
  else
    let prefix :=
      if data_len <=? OP_DATA_MAX_VAL then [OP_DATA_MIN_VAL - 1 + data_len]
      else if data_len <=? 255 then [codes.OpPushData1; data_len]
      else if data_len <=? 65535 then codes.OpPushData2 :: to_le_bytes 2 (data_len mod 2 ^ 16)
      else codes.OpPushData4 :: to_le_bytes 4 (data_len mod 2 ^ 32) in
    mkScriptBuilder (script b ++ prefix ++ data).

Definition add_data (b : ScriptBuilder) (data : list byte) : outcome ScriptBuilderError ScriptBuilder :=
  let data_size := canonical_data_size data in
  if len (script b) + data_size >? MAX_SCRIPTS_SIZE then Err (DataRejected data_size)
  else if len data >? MAX_SCRIPT_ELEMENT_SIZE then Err (ElementExceedsMaxSize (len data))
  else Ok (add_raw_data b data).

Definition add_i64 (b : ScriptBuilder) (val : Z) : outcome ScriptBuilderError ScriptBuilder :=
  if len (script b) + 1 >? MAX_SCRIPTS_SIZE then Err (IntegerRejected val)
  else if val =? 0 then Ok (mkScriptBuilder (script b ++ [codes.Op0]))
  else if (val =? -1) || ((1 <=? val) && (val <=? 16)) then
    Ok (mkScriptBuilder (script b ++ [(codes.Op1 - 1 + val) mod 256]))
  else
    bytes ← map_err BuilderSerialization (serialize data_i64 val);
    add_data b bytes.

Definition add_i64_min (b : ScriptBuilder) : outcome ScriptBuilderError ScriptBuilder :=
  match serialize (SizedEncodeInt 9) I64_MIN with
  | Ok bytes => add_data b bytes
  | _ => Panic
  end.

(** The trailing zeroes of the little-endian bytes are trimmed. *)
Fixpoint leading_zeros (l : list byte) : nat :=
  match l with b :: l => if b =? 0 then S (leading_zeros l) else O | [] => O end.
Definition add_u64 (b : ScriptBuilder) (val : Z) : outcome ScriptBuilderError ScriptBuilder :=
  let buffer := to_le_bytes 8 val in
  let trimmed_size := (8 - leading_zeros (rev buffer))%nat in
  add_data b (take trimmed_size buffer).
Definition add_lock_time := add_u64.
Definition add_sequence := add_u64.

(** ** Script classes *)

Inductive ScriptClass :=
| NonStandard | PubKey | PubKeyECDSA | ScriptHash | PubKeyHashMlDsa87 | EvmDepositLock.
#[export] Instance ScriptClass_eq_dec : EqDecision ScriptClass.
Proof. solve_decision. Defined.

(** [script[i] == c], for an index the length test before it has covered. *)
Definition byte_is (s : list byte) (i : nat) (c : Z) : bool := bool_decide (s !! i = Some c).

Definition is_pay_to_pubkey (s : list byte) : bool :=
  (len s =? 34) && byte_is s 0 codes.OpData32 && byte_is s 33 codes.OpCheckSig.
Definition is_pay_to_pubkey_ecdsa (s : list byte) : bool :=
  (len s =? 35) && byte_is s 0 codes.OpData33 && byte_is s 34 codes.OpCheckSigECDSA.
Definition is_pay_to_script_hash (s : list byte) : bool :=
  (len s =? 35) && byte_is s 0 codes.OpBlake2b && byte_is s 1 codes.OpData32
  && byte_is s 34 codes.OpEqual.
Definition is_pay_to_pub_key_hash_mldsa87 (s : list byte) : bool :=
  (len s =? 69) && byte_is s 0 codes.OpDup && byte_is s 1 codes.OpBlake2b512
  && byte_is s 2 codes.OpData64 && byte_is s 67 codes.OpEqualVerify
  && byte_is s 68 codes.OpCheckSigMlDsa87.
Definition is_evm_deposit_lock (s : list byte) : bool :=
  (len s =? 108) && byte_is s 0 codes.OpNop && byte_is s 1 codes.OpData36
  && byte_is s 38 codes.OpDrop && is_pay_to_pub_key_hash_mldsa87 (drop 39 s).

Definition ScriptClass_from_script (spk : ScriptPublicKey) : ScriptClass :=
  let s := spk_script spk in
  if spk_version spk =? MAX_SCRIPT_PUBLIC_KEY_VERSION then
    if is_pay_to_pub_key_hash_mldsa87 s then PubKeyHashMlDsa87
    else if is_evm_deposit_lock s then EvmDepositLock
    else if is_pay_to_pubkey s then PubKey
    else if is_pay_to_pubkey_ecdsa s then PubKeyECDSA
    else if is_pay_to_script_hash s then ScriptHash
    else NonStandard
  else NonStandard.

Definition is_pq_standard (c : ScriptClass) : bool :=
  match c with PubKeyHashMlDsa87 => true | _ => false end.

Definition ScriptClass_version (c : ScriptClass) : Z :=
  match c with NonStandard => 0 | _ => MAX_SCRIPT_PUBLIC_KEY_VERSION end.
