(* ===== verification/ScriptEngine.v ===== *)
(** * The script engine

    Models the virtual machine of [src/crypto/txscript/src/lib.rs]
    ([TxScriptEngine]), the execution of every opcode
    ([src/crypto/txscript/src/opcodes/mod.rs]), the runtime signature operation
    counter ([runtime_sig_op_counter.rs]) and the signature cache
    ([caches.rs]), as compiled for release: without the [legacy-secp256k1]
    feature. The execution log buffer is not modelled.

    The engine is a state, an opcode a function on it that may fail; the
    opcode list of the code is the list [opcode_table] of number and code. *)

From stdpp Require Import base list gmap strings.
From Stdlib Require Import ZArith Lia.
From S2P Require Import Prelude Tx Bytes Hashing ScriptNum ScriptOps.

Local Open Scope Z_scope.

Definition MLDSA87_TX_CONTEXT : list byte := b_ "kaspa-pq-v2/tx/mldsa87".
Definition MLDSA87_ADDRESS_CONTEXT : list byte := b_ "kaspa-pq-v2/address/mldsa87".
Definition MAX_TX_IN_SEQUENCE_NUM : Z := U64_MAX.
Definition SEQUENCE_LOCK_TIME_DISABLED : Z := Z.shiftl 1 63.
Definition SEQUENCE_LOCK_TIME_MASK : Z := 0x00000000ffffffff.
Definition LOCK_TIME_THRESHOLD : Z := 500000000000.

(** ** Policy *)

Record ScriptPolicy := mkScriptPolicy { pq_only : bool; allow_p2sh : bool }.
Definition PQ_ONLY : ScriptPolicy := mkScriptPolicy true false.
Definition LEGACY : ScriptPolicy := mkScriptPolicy false true.

(** ** Conditional branches *)

Inductive OpCond := CondFalse | CondTrue | CondSkip.
#[export] Instance OpCond_eq_dec : EqDecision OpCond.
Proof. solve_decision. Defined.
Definition negate (c : OpCond) : OpCond :=
  match c with CondTrue => CondFalse | CondFalse => CondTrue | CondSkip => CondSkip end.

(** ** The runtime signature operation counter *)

Record RuntimeSigOpCounter := mkCounter { sig_op_limit : Z; sig_op_remaining : Z }.
Definition RuntimeSigOpCounter_new (limit : Z) : RuntimeSigOpCounter := mkCounter limit limit.
Definition consume_sig_op (c : RuntimeSigOpCounter) : outcome TxScriptError RuntimeSigOpCounter :=
  if sig_op_remaining c =? 0 then Err (ExceededSigOpLimit (sig_op_limit c))
  else Ok (mkCounter (sig_op_limit c) (sig_op_remaining c - 1)).
Definition counter_used_sig_ops {E} (c : RuntimeSigOpCounter) : outcome E Z :=
  let r := sig_op_limit c - sig_op_remaining c in
  if (0 <=? r) && (r <=? 255) then Ok r else Panic.

(** ** The signature cache *)

(** [SigAlg] has one variant in release builds, so the key is its digests. *)
Record SigCacheKey := mkSigCacheKey {
  pub_key_digest : list byte;
  signature_digest : list byte;
  message_digest : list byte;
}.
#[export] Instance SigCacheKey_eq_dec : EqDecision SigCacheKey.
Proof. solve_decision. Defined.

(** An [IndexMap] is the sequence of its bindings; [draws] counts the calls of
    the random generator, which stands outside. *)
Record Cache := mkCache {
  cache_map : list (SigCacheKey * bool);
  cache_size : Z;
  insert_counts : Z;
  get_counts : Z;
  draws : nat;
}.
Class Rng := {
  gen_range : nat → Z → nat;
  gen_range_lt k n : 0 < n → Z.of_nat (gen_range k n) < n;
}.
Definition toy_rng : Rng.
Proof. refine {| gen_range _ _ := 0%nat |}. done. Defined.

Definition Cache_new (size : Z) : Cache := mkCache [] size 0 0 0.

Fixpoint assoc_find {K V} `{EqDecision K} (k : K) (l : list (K * V)) : option V :=
  match l with
  | [] => None
  | (k', v) :: l => if decide (k = k') then Some v else assoc_find k l
  end.

(** [IndexMap::insert]: in place for a key it has, at the end otherwise. *)
Fixpoint index_map_insert {K V} `{EqDecision K} (k : K) (v : V) (l : list (K * V)) : list (K * V) :=
  match l with
  | [] => [(k, v)]
  | (k', v') :: l => if decide (k = k') then (k', v) :: l else (k', v') :: index_map_insert k v l
  end.

(** [IndexMap::swap_remove_index]: the last binding takes the place. *)
Definition swap_remove_index {A} (i : nat) (l : list A) : list A :=
  match l !! i, last l with
  | Some _, Some z => if (S i =? length l)%nat then removelast l else removelast (<[i := z]> l)
  | _, _ => l
  end.

Definition Cache_clear (c : Cache) : Cache :=
  mkCache [] (cache_size c) (insert_counts c) (get_counts c) (draws c).

(** The counters are [fetch_add]: they wrap. *)
Definition Cache_get (c : Cache) (key : SigCacheKey) : Cache * option bool :=
  match assoc_find key (cache_map c) with
  | Some data => (mkCache (cache_map c) (cache_size c) (insert_counts c)
                    ((get_counts c + 1) mod 2 ^ 64) (draws c), Some data)
  | None => (c, None)
  end.

Definition Cache_insert `{Rng} (c : Cache) (key : SigCacheKey) (data : bool) : Cache :=
  if cache_size c =? 0 then c
  else
    let '(m, d) :=
      if len (cache_map c) =? cache_size c
      then (swap_remove_index (gen_range (draws c) (cache_size c)) (cache_map c), S (draws c))
      else (cache_map c, draws c) in
    mkCache (index_map_insert key data m) (cache_size c) ((insert_counts c + 1) mod 2 ^ 64)
      (get_counts c) d.

(** ** The engine *)

Inductive ScriptSource :=
| TxInput (tx : PopulatedTransaction) (input : TransactionInput) (idx : nat)
    (utxo_entry : UtxoEntry) (is_p2sh : bool)
| StandAloneScripts (scripts : list (list byte)).

Record Engine := mkEngine {
  dstack : Stack;
  astack : Stack;
  script_source : ScriptSource;
  sig_cache : Cache;
  cond_stack : list OpCond;
  num_ops : Z;
  runtime_sig_op_counter : RuntimeSigOpCounter;
  policy : ScriptPolicy;
}.

Definition set_dstack (s : Stack) (e : Engine) : Engine :=
  mkEngine s (astack e) (script_source e) (sig_cache e) (cond_stack e) (num_ops e)
    (runtime_sig_op_counter e) (policy e).
Definition set_astack (s : Stack) (e : Engine) : Engine :=
  mkEngine (dstack e) s (script_source e) (sig_cache e) (cond_stack e) (num_ops e)
    (runtime_sig_op_counter e) (policy e).
Definition set_sig_cache (c : Cache) (e : Engine) : Engine :=
  mkEngine (dstack e) (astack e) (script_source e) c (cond_stack e) (num_ops e)
    (runtime_sig_op_counter e) (policy e).
Definition set_cond_stack (c : list OpCond) (e : Engine) : Engine :=
  mkEngine (dstack e) (astack e) (script_source e) (sig_cache e) c (num_ops e)
    (runtime_sig_op_counter e) (policy e).
Definition set_num_ops (n : Z) (e : Engine) : Engine :=
  mkEngine (dstack e) (astack e) (script_source e) (sig_cache e) (cond_stack e) n
    (runtime_sig_op_counter e) (policy e).
Definition set_counter (c : RuntimeSigOpCounter) (e : Engine) : Engine :=
  mkEngine (dstack e) (astack e) (script_source e) (sig_cache e) (cond_stack e) (num_ops e)
    c (policy e).

Abbreviation M := (SM Engine).

Definition modify (f : Engine → Engine) : M unit := λ e, (f e, Ok tt).
Definition on_dstack {A} (m : SM Stack A) : M A := λ e,
  let '(s, r) := m (dstack e) in (set_dstack s e, r).

(** [vm.dstack.push(item)] and [vm.dstack.pop()]. *)
Definition push (item : list byte) : M unit := modify (λ e, set_dstack (dstack e ++ [item]) e).
Definition pop : M (option (list byte)) := λ e,
  match last (dstack e) with
  | Some item => (set_dstack (removelast (dstack e)) e, Ok (Some item))
  | None => (e, Ok None)
  end.

(** [let [a]: [T; 1] = vm.dstack.pop_items()?] and its siblings: the result
    of [pop_items::<SIZE>] is an array of that size. *)
Definition pop1 {T} (D : OpcodeData T) : M T :=
  l ← on_dstack (pop_items D 1);
  match l with [a] => mret a | _ => lift Panic end.
Definition pop2 {T} (D : OpcodeData T) : M (T * T) :=
  l ← on_dstack (pop_items D 2);
  match l with [a; b] => mret (a, b) | _ => lift Panic end.
Definition pop3 {T} (D : OpcodeData T) : M (T * T * T) :=
  l ← on_dstack (pop_items D 3);
  match l with [a; b; c] => mret (a, b, c) | _ => lift Panic end.
Definition pop_raw1 : M (list byte) :=
  l ← on_dstack (pop_raw 1);
  match l with [a] => mret a | _ => lift Panic end.
Definition pop_raw2 : M (list byte * list byte) :=
  l ← on_dstack (pop_raw 2);
  match l with [a; b] => mret (a, b) | _ => lift Panic end.
Definition push_i64 (n : Z) : M unit := on_dstack (push_item data_i64 n).
Definition push_bool (b : bool) : M unit := on_dstack (push_item data_bool b).

Definition push_data (data : list byte) : M unit := push data.
Definition push_number (number : Z) : M unit := push_i64 number.

Definition is_executing (e : Engine) : bool :=
  bool_decide (cond_stack e = []) || bool_decide (last (cond_stack e) = Some CondTrue).

(** An entry of the opcode list: the number and the code. *)
Abbreviation opcode_entry := (Z * (list byte → M unit))%type.

Section engine.
Context `{Crypto} `{Rng}.

(** ** Signature checks *)

Definition blake2b_512_digest (bytes : list byte) : list byte := blake2b 64 [] bytes.
Definition blake2b_512_address_payload (data : list byte) : list byte :=
  blake2b 64 MLDSA87_ADDRESS_CONTEXT data.

Definition verify_mldsa87_with_context (public_key message signature context : list byte) :
    outcome TxScriptError bool :=
  if negb (len public_key =? MLDSA87_PK_LEN) then Err PubKeyFormat
  else if negb (len signature =? MLDSA87_SIG_LEN) then Err (SigLength (len signature))
  else Ok (mldsa87_verify public_key message context signature).

Definition consume : M unit :=
  e ← get;
  c ← lift (consume_sig_op (runtime_sig_op_counter e));
  modify (set_counter c).

(** Without the [legacy-secp256k1] feature the two legacy checks consume a
    signature operation and accept nothing. *)
Definition check_schnorr_signature (hash_type : SigHashType) (key sig : list byte) : M bool :=
  _ ← consume; mret false.
Definition check_ecdsa_signature (hash_type : SigHashType) (key sig : list byte) : M bool :=
  _ ← consume; mret false.

Definition check_mldsa87_signature (hash_type : SigHashType) (key sig : list byte) : M bool :=
  _ ← consume;
  e ← get;
  match script_source e with
  | TxInput tx _ idx _ _ =>
      if negb (len key =? MLDSA87_PK_LEN) then throw PubKeyFormat
      else if negb (len sig =? MLDSA87_SIG_LEN) then throw (SigLength (len sig))
      else
        '(sig_hash, _) ← lift (calc_mldsa87_signature_hash tx idx hash_type ReusedValues_new);
        let sig_cache_key :=
          mkSigCacheKey (blake2b_512_digest key) (blake2b_512_digest sig) sig_hash in
        let '(cache, found) := Cache_get (sig_cache e) sig_cache_key in
        _ ← modify (set_sig_cache cache);
        match found with
        | Some valid => mret valid
        | None =>
            let valid := mldsa87_verify key sig_hash MLDSA87_TX_CONTEXT sig in
            _ ← modify (λ e, set_sig_cache (Cache_insert (sig_cache e) sig_cache_key valid) e);
            mret valid
        end
  | StandAloneScripts _ => throw NotATransactionInput
  end.

Inductive MultisigScheme := Schnorr | Ecdsa | MlDsa87.
Definition check_signature (scheme : MultisigScheme) :=
  match scheme with
  | Ecdsa => check_ecdsa_signature
  | Schnorr => check_schnorr_signature
  | MlDsa87 => check_mldsa87_signature
  end.

(** The inner loop of [op_check_multisig]: the public key iterator advances
    until one verifies the signature ([Some] of the keys left) or too few are
    left for the signatures to come ([None]). *)
Fixpoint match_signature (scheme : MultisigScheme) (hash_type : SigHashType) (signature : list byte)
    (sigs_left : nat) (pub_keys : list (list byte)) : M (option (list (list byte))) :=
  if (length pub_keys <? sigs_left)%nat then mret None
  else
    match pub_keys with
    | [] => lift Panic
    | pub_key :: pub_keys =>
        valid ← check_signature scheme hash_type pub_key signature;
        if valid : bool then mret (Some pub_keys)
        else match_signature scheme hash_type signature sigs_left pub_keys
    end.

(** The outer loop: whether the multisig failed. *)
Fixpoint match_signatures (scheme : MultisigScheme) (signatures : list (list byte))
    (pub_keys : list (list byte)) : M bool :=
  match signatures with
  | [] => mret false
  | signature :: rest =>
      match last signature with
      | None => mret true
      | Some typ =>
          let sig := removelast signature in
          match SigHashType_from_u8 typ with
          | None => throw (InvalidSigHashType typ)
          | Some hash_type =>
              r ← match_signature scheme hash_type sig (length signatures) pub_keys;
              match r with
              | None => mret true
              | Some pub_keys => match_signatures scheme rest pub_keys
              end
          end
      end
  end.

(** [self.num_ops += n] on an [i32], and the limit. *)
Definition count_ops (n : Z) : M unit :=
  e ← get;
  let total := num_ops e + n in
  if negb (in_i32 total) then lift Panic
  else
    _ ← modify (set_num_ops total);
    if total >? MAX_OPS_PER_SCRIPT then throw (TooManyOperations MAX_OPS_PER_SCRIPT) else mret tt.

(** [self.dstack.split_off(self.dstack.len() - n)], with its length test. *)
Definition split_off (n : nat) : M (list (list byte)) := on_dstack (pop_raw n).

Definition op_check_multisig (scheme : MultisigScheme) : M unit :=
  num_keys ← pop1 data_i32;
  if num_keys <? 0 then throw InvalidPubKeyCount
  else if num_keys >? MAX_PUB_KEYS_PER_MUTLTISIG then throw InvalidPubKeyCount
  else
    _ ← count_ops num_keys;
    pub_keys ← split_off (Z.to_nat num_keys);
    num_sigs ← pop1 data_i32;
    if num_sigs <? 0 then throw InvalidSignatureCount
    else if num_sigs >? num_keys then throw InvalidSignatureCount
    else
      signatures ← split_off (Z.to_nat num_sigs);
      failed ← match_signatures scheme signatures pub_keys;
      if failed && existsb (λ sig, negb (bool_decide (sig = []))) signatures then throw NullFail
      else push_bool (negb failed).

(** ** Opcode code *)

(** The code of [OpIf] and [OpNotIf]: [on_one] and [on_empty] are the
    conditions the two accepted operands push. *)
Definition op_if_with (on_one on_empty : OpCond) : M unit :=
  e ← get;
  cond ←
    (if is_executing e then
       cond_buf ← pop;
       match cond_buf with
       | None => throw EmptyStack
       | Some cond_buf =>
           if (1 <? length cond_buf)%nat then throw InvalidState
           else match last cond_buf with
                | Some stack_cond => if stack_cond =? 1 then mret on_one else throw InvalidState
                | None => mret on_empty
                end
       end
     else mret CondSkip);
  modify (λ e, set_cond_stack (cond_stack e ++ [cond]) e).
Definition op_if : M unit := op_if_with CondTrue CondFalse.
Definition op_not_if : M unit := op_if_with CondFalse CondTrue.

Definition op_else : M unit :=
  e ← get;
  match last (cond_stack e) with
  | Some cond => modify (set_cond_stack (removelast (cond_stack e) ++ [negate cond]))
  | None => throw InvalidState
  end.
Definition op_end_if : M unit :=
  e ← get;
  match last (cond_stack e) with
  | Some _ => modify (set_cond_stack (removelast (cond_stack e)))
  | None => throw InvalidState
  end.

Definition verify (b : bool) : M unit := if b then mret tt else throw VerifyError.
Definition op_verify : M unit := result ← pop1 data_bool; verify result.

Definition op_to_alt_stack : M unit :=
  item ← pop_raw1; modify (λ e, set_astack (astack e ++ [item]) e).
Definition op_from_alt_stack : M unit :=
  e ← get;
  match last (astack e) with
  | Some item => _ ← modify (set_astack (removelast (astack e))); push item
  | None => throw EmptyStack
  end.

Definition op_if_dup : M unit :=
  l ← on_dstack (peek_raw 1);
  match l with
  | [result] =>
      b ← lift (deserialize data_bool result);
      if b : bool then push result else mret tt
  | _ => lift Panic
  end.
Definition op_depth : M unit := e ← get; push_number (wrap_i64 (len (dstack e))).

(** [Vec::remove(i)] and [Vec::insert(i, x)] for an index in range. *)
Definition vec_remove {A} (i : nat) (l : list A) : list A := take i l ++ drop (S i) l.
Definition vec_insert {A} (i : nat) (x : A) (l : list A) : list A := take i l ++ [x] ++ drop i l.

Definition op_nip : M unit :=
  e ← get;
  let n := length (dstack e) in
  if (2 <=? n)%nat then modify (set_dstack (vec_remove (n - 2) (dstack e)))
  else throw (InvalidStackOperation 2 n).

Definition op_pick : M unit :=
  loc ← pop1 data_i32;
  e ← get;
  if (loc <? 0) || (loc >=? len (dstack e)) then throw InvalidState
  else
    item ← lift (unwrap (dstack e !! (length (dstack e) - Z.to_nat loc - 1)%nat));
    push item.
Definition op_roll : M unit :=
  loc ← pop1 data_i32;
  e ← get;
  if (loc <? 0) || (loc >=? len (dstack e)) then throw InvalidState
  else
    let i := (length (dstack e) - Z.to_nat loc - 1)%nat in
    item ← lift (unwrap (dstack e !! i));
    _ ← modify (set_dstack (vec_remove i (dstack e)));
    push item.
Definition op_tuck : M unit :=
  e ← get;
  let n := length (dstack e) in
  if (2 <=? n)%nat then
    item ← lift (unwrap (last (dstack e)));
    modify (set_dstack (vec_insert (n - 2) item (dstack e)))
  else throw (InvalidStackOperation 2 n).

Definition op_size : M unit :=
  e ← get;
  match last (dstack e) with
  | Some item =>
      n ← lift (ok_or (checked_i64 (len item)) NumberTooBig);
      push_i64 n
  | None => throw (InvalidStackOperation 1 0)
  end.

Definition op_equal : M unit :=
  '(a, b) ← pop_raw2; push (if bool_decide (a = b) then [1] else []).
Definition op_equal_verify : M unit :=
  '(a, b) ← pop_raw2; verify (bool_decide (a = b)).

(** Numeric opcodes: the operands are [i64], the result a checked [i64] or a
    truth value as [0] or [1]. *)
Definition unary (f : Z → option Z) : M unit :=
  value ← pop1 data_i64;
  r ← lift (ok_or (f value) NumberTooBig);
  push_i64 r.
Definition binary (f : Z → Z → option Z) : M unit :=
  '(a, b) ← pop2 data_i64;
  r ← lift (ok_or (f a b) NumberTooBig);
  push_i64 r.
Definition of_bool (b : bool) : option Z := Some (if b then 1 else 0).
Definition op_num_equal_verify : M unit := '(a, b) ← pop2 data_i64; verify (a =? b).
Definition op_within : M unit :=
  '(x, l, u) ← pop3 data_i64; push_i64 (if (x >=? l) && (x <? u) then 1 else 0).

(** [OpCheckSig] and its siblings, for their check. *)
Definition op_check_sig_with (check : SigHashType → list byte → list byte → M bool) : M unit :=
  '(sig, key) ← pop_raw2;
  match last sig with
  | Some typ =>
      match SigHashType_from_u8 typ with
      | None => throw (InvalidSigHashType typ)
      | Some hash_type =>
          valid ← check hash_type key (removelast sig);
          push_bool valid
      end
  | None => push_bool false
  end.
Definition op_check_sig_mldsa87 : M unit := op_check_sig_with check_mldsa87_signature.
Definition op_check_sig_ecdsa : M unit := op_check_sig_with check_ecdsa_signature.
Definition op_check_sig : M unit := op_check_sig_with check_schnorr_signature.
Definition op_check_sig_verify : M unit := _ ← op_check_sig; op_verify.
Definition op_check_multi_sig_verify : M unit := _ ← op_check_multisig Schnorr; op_verify.

Definition op_sha256 : M unit := last ← pop_raw1; push (sha256 last).
Definition op_blake2b : M unit := last ← pop_raw1; push (blake2b 32 [] last).
Definition op_blake2b_512 : M unit := last ← pop_raw1; push (blake2b_512_address_payload last).

(** [resize(8, 0)] of at most eight bytes, read as a [u64]. *)
Definition u64_operand (bytes : list byte) : Z := le_val (bytes ++ replicate (8 - length bytes) 0).

Definition op_check_lock_time_verify : M unit :=
  e ← get;
  match script_source e with
  | TxInput tx input _ _ _ =>
      lock_time_bytes ← pop_raw1;
      if (8 <? length lock_time_bytes)%nat then throw NumberTooBig
      else
        let stack_lock_time := u64_operand lock_time_bytes in
        let tx_lock_time := lock_time (pop_tx tx) in
        if negb (((tx_lock_time <? LOCK_TIME_THRESHOLD) && (stack_lock_time <? LOCK_TIME_THRESHOLD))
                 || ((tx_lock_time >=? LOCK_TIME_THRESHOLD) && (stack_lock_time >=? LOCK_TIME_THRESHOLD)))
        then throw UnsatisfiedLockTime
        else if stack_lock_time >? tx_lock_time then throw UnsatisfiedLockTime
        else if sequence input =? MAX_TX_IN_SEQUENCE_NUM then throw UnsatisfiedLockTime
        else mret tt
  | StandAloneScripts _ => throw InvalidSource
  end.

Definition op_check_sequence_verify : M unit :=
  e ← get;
  match script_source e with
  | TxInput tx input _ _ _ =>
      sequence_bytes ← pop_raw1;
      if (8 <? length sequence_bytes)%nat then throw NumberTooBig
      else
        let stack_sequence := u64_operand sequence_bytes in
        if negb (Z.land stack_sequence SEQUENCE_LOCK_TIME_DISABLED =? 0) then mret tt
        else if negb (Z.land (sequence input) SEQUENCE_LOCK_TIME_DISABLED =? 0)
        then throw UnsatisfiedLockTime
        else if Z.land stack_sequence SEQUENCE_LOCK_TIME_MASK
                >? Z.land (sequence input) SEQUENCE_LOCK_TIME_MASK
        then throw UnsatisfiedLockTime
        else mret tt
  | StandAloneScripts _ => throw InvalidSource
  end.

(** Introspection. *)
Definition with_tx (f : PopulatedTransaction → nat → M unit) : M unit :=
  e ← get;
  match script_source e with
  | TxInput tx _ idx _ _ => f tx idx
  | StandAloneScripts _ => throw InvalidSource
  end.

(** [usize::try_from(idx).ok().and_then(|idx| slice.get(idx))]. *)
Definition get_index {A} (idx : Z) (l : list A) : option A :=
  if idx <? 0 then None else l !! Z.to_nat idx.

Definition spk_to_bytes (spk : ScriptPublicKey) : list byte :=
  (spk_version spk / 256) mod 256 :: spk_version spk mod 256 :: spk_script spk.

Definition op_tx_input_count : M unit := with_tx (λ tx _, push_number (wrap_i64 (len (inputs (pop_tx tx))))).
Definition op_tx_output_count : M unit := with_tx (λ tx _, push_number (wrap_i64 (len (outputs (pop_tx tx))))).
Definition op_tx_input_index : M unit := with_tx (λ _ idx, push_number (wrap_i64 (Z.of_nat idx))).
Definition op_tx_input_amount : M unit := with_tx (λ tx _,
  idx ← pop1 data_i32;
  utxo ← lift (ok_or (get_index idx (entries tx)) (InvalidInputIndex idx (len (inputs (pop_tx tx)))));
  n ← lift (ok_or (checked_i64 (amount utxo)) NumberTooBig);
  push_number n).
Definition op_tx_input_spk : M unit := with_tx (λ tx _,
  idx ← pop1 data_i32;
  utxo ← lift (ok_or (get_index idx (entries tx)) (InvalidInputIndex idx (len (inputs (pop_tx tx)))));
  push (spk_to_bytes (script_public_key utxo))).
Definition op_tx_output_amount : M unit := with_tx (λ tx _,
  idx ← pop1 data_i32;
  output ← lift (ok_or (get_index idx (outputs (pop_tx tx)))
    (InvalidOutputIndex idx (len (inputs (pop_tx tx)))));
  n ← lift (ok_or (checked_i64 (value output)) NumberTooBig);
  push_number n).
Definition op_tx_output_spk : M unit := with_tx (λ tx _,
  idx ← pop1 data_i32;
  output ← lift (ok_or (get_index idx (outputs (pop_tx tx)))
    (InvalidOutputIndex idx (len (inputs (pop_tx tx)))));
  push (spk_to_bytes (out_script_public_key output))).

(** ** The opcode list *)

Definition reserved (code : Z) : opcode_entry := (code, λ _, throw (OpcodeReserved code)).
Definition disabled (code : Z) : opcode_entry := (code, λ _, throw (OpcodeDisabled code)).
Definition invalid (code : Z) : opcode_entry := (code, λ _, throw (InvalidOpcode code)).
Definition runs (code : Z) (m : M unit) : opcode_entry := (code, λ _, m).

Definition data_push_opcodes : list opcode_entry :=
  runs codes.OpFalse (push []) ::
  ((λ n, (n, push_data)) <$> seqZ codes.OpData1 75) ++
  [(codes.OpPushData1, push_data); (codes.OpPushData2, push_data); (codes.OpPushData4, push_data);
   runs codes.Op1Negate (push_number (-1)); reserved codes.OpReserved] ++
  ((λ n, runs (codes.OpTrue + n - 1) (push_number n)) <$> seqZ 1 16).

Definition control_opcodes : list opcode_entry :=
  [runs codes.OpNop (mret tt); reserved codes.OpVer; runs codes.OpIf op_if; runs codes.OpNotIf op_not_if;
   reserved codes.OpVerIf; reserved codes.OpVerNotIf; runs codes.OpElse op_else;
   runs codes.OpEndIf op_end_if; runs codes.OpVerify op_verify;
   runs codes.OpReturn (throw EarlyReturn)].

Definition stack_opcodes : list opcode_entry :=
  [runs codes.OpToAltStack op_to_alt_stack; runs codes.OpFromAltStack op_from_alt_stack;
   runs codes.Op2Drop (on_dstack (drop_items 2)); runs codes.Op2Dup (on_dstack (dup_items 2));
   runs codes.Op3Dup (on_dstack (dup_items 3)); runs codes.Op2Over (on_dstack (over_items 2));
   runs codes.Op2Rot (on_dstack (rot_items 2)); runs codes.Op2Swap (on_dstack (swap_items 2));
   runs codes.OpIfDup op_if_dup; runs codes.OpDepth op_depth;
   runs codes.OpDrop (on_dstack (drop_items 1)); runs codes.OpDup (on_dstack (dup_items 1));
   runs codes.OpNip op_nip; runs codes.OpOver (on_dstack (over_items 1));
   runs codes.OpPick op_pick; runs codes.OpRoll op_roll;
   runs codes.OpRot (on_dstack (rot_items 1)); runs codes.OpSwap (on_dstack (swap_items 1));
   runs codes.OpTuck op_tuck].

Definition splice_opcodes : list opcode_entry :=
  [disabled codes.OpCat; disabled codes.OpSubStr; disabled codes.OpLeft; disabled codes.OpRight;
   runs codes.OpSize op_size;
   disabled codes.OpInvert; disabled codes.OpAnd; disabled codes.OpOr; disabled codes.OpXor;
   runs codes.OpEqual op_equal; runs codes.OpEqualVerify op_equal_verify;
   reserved codes.OpReserved1; reserved codes.OpReserved2].

Definition numeric_opcodes : list opcode_entry :=
  [runs codes.Op1Add (unary (λ v, checked_i64 (v + 1)));
   runs codes.Op1Sub (unary (λ v, checked_i64 (v - 1)));
   disabled codes.Op2Mul; disabled codes.Op2Div;
   runs codes.OpNegate (unary (λ v, checked_i64 (- v)));
   runs codes.OpAbs (unary (λ v, checked_i64 (Z.abs v)));
   runs codes.OpNot (unary (λ m, of_bool (m =? 0)));
   runs codes.Op0NotEqual (unary (λ m, of_bool (negb (m =? 0))));
   runs codes.OpAdd (binary (λ a b, checked_i64 (a + b)));
   runs codes.OpSub (binary (λ a b, checked_i64 (a - b)));
   disabled codes.OpMul; disabled codes.OpDiv; disabled codes.OpMod;
   disabled codes.OpLShift; disabled codes.OpRShift;
   runs codes.OpBoolAnd (binary (λ a b, of_bool (negb (a =? 0) && negb (b =? 0))));
   runs codes.OpBoolOr (binary (λ a b, of_bool (negb (a =? 0) || negb (b =? 0))));
   runs codes.OpNumEqual (binary (λ a b, of_bool (a =? b)));
   runs codes.OpNumEqualVerify op_num_equal_verify;
   runs codes.OpNumNotEqual (binary (λ a b, of_bool (negb (a =? b))));
   runs codes.OpLessThan (binary (λ a b, of_bool (a <? b)));
   runs codes.OpGreaterThan (binary (λ a b, of_bool (a >? b)));
   runs codes.OpLessThanOrEqual (binary (λ a b, of_bool (a <=? b)));
   runs codes.OpGreaterThanOrEqual (binary (λ a b, of_bool (a >=? b)));
   runs codes.OpMin (binary (λ a b, Some (Z.min a b)));
   runs codes.OpMax (binary (λ a b, Some (Z.max a b)));
   runs codes.OpWithin op_within].

Definition crypto_opcodes : list opcode_entry :=
  [runs codes.OpCheckSigMlDsa87 op_check_sig_mldsa87;
   runs codes.OpCheckMultiSigMlDsa87 (op_check_multisig MlDsa87);
   runs codes.OpSHA256 op_sha256;
   runs codes.OpCheckMultiSigECDSA (op_check_multisig Ecdsa);
   runs codes.OpBlake2b op_blake2b;
   runs codes.OpCheckSigECDSA op_check_sig_ecdsa;
   runs codes.OpCheckSig op_check_sig;
   runs codes.OpCheckSigVerify op_check_sig_verify;
   runs codes.OpCheckMultiSig (op_check_multisig Schnorr);
   runs codes.OpCheckMultiSigVerify op_check_multi_sig_verify;
   runs codes.OpCheckLockTimeVerify op_check_lock_time_verify;
   runs codes.OpCheckSequenceVerify op_check_sequence_verify].

Definition introspection_opcodes : list opcode_entry :=
  [reserved codes.OpTxVersion; runs codes.OpTxInputCount op_tx_input_count;
   runs codes.OpTxOutputCount op_tx_output_count; reserved codes.OpTxLockTime;
   reserved codes.OpTxSubnetId; reserved codes.OpTxGas; reserved codes.OpTxPayload;
   runs codes.OpTxInputIndex op_tx_input_index; reserved codes.OpOutpointTxId;
   reserved codes.OpOutpointIndex; reserved codes.OpTxInputScriptSig; reserved codes.OpTxInputSeq;
   runs codes.OpTxInputAmount op_tx_input_amount; runs codes.OpTxInputSpk op_tx_input_spk;
   reserved codes.OpTxInputBlockDaaScore; reserved codes.OpTxInputIsCoinbase;
   runs codes.OpTxOutputAmount op_tx_output_amount; runs codes.OpTxOutputSpk op_tx_output_spk;
   runs codes.OpBlake2b512 op_blake2b_512].

(** [OpUnknown197] to [OpInvalidOpCode]. *)
Definition undefined_opcodes : list opcode_entry := invalid <$> seqZ 0xc5 59.

Definition opcode_table : list opcode_entry :=
  data_push_opcodes ++ control_opcodes ++ stack_opcodes ++ splice_opcodes ++ numeric_opcodes ++
  crypto_opcodes ++ introspection_opcodes ++ undefined_opcodes.

(** [OpCodeExecution::execute]. *)
Definition opcode_execute (op : OpCode) : M unit :=
  match assoc_find (op_code op) opcode_table with
  | Some code => code (op_data op)
  | None => lift Panic
  end.

(** ** Execution *)

Definition execute_opcode (opcode : OpCode) : M unit :=
  _ ← (if negb (is_push_opcode opcode) then count_ops 1
       else if len (op_data opcode) >? MAX_SCRIPT_ELEMENT_SIZE
       then throw (ElementTooBig (len (op_data opcode)) MAX_SCRIPT_ELEMENT_SIZE)
       else mret tt);
  e ← get;
  if is_executing e || is_conditional opcode then
    _ ← (if (op_code opcode >? 0) && (op_code opcode <=? 0x4e)
         then lift (check_minimal_data_push opcode) else mret tt);
    opcode_execute opcode
  else mret tt.

(** The closure of [execute_script]. *)
Definition execute_parsed (verify_only_push : bool) (opcode : outcome TxScriptError OpCode) : M unit :=
  opcode ← lift opcode;
  e ← get;
  if is_disabled opcode then throw (OpcodeDisabled (op_code opcode))
  else if always_illegal opcode then throw (OpcodeReserved (op_code opcode))
  else if pq_only (policy e) && is_legacy_signature_opcode (op_code opcode)
  then throw (LegacySignatureOpcodeDisabled (op_code opcode))
  else if verify_only_push && negb (is_push_opcode opcode) then throw SignatureScriptNotPushOnly
  else
    _ ← execute_opcode opcode;
    e ← get;
    let combined_size := len (astack e) + len (dstack e) in
    if combined_size >? MAX_STACK_SIZE then throw (StackSizeExceeded combined_size MAX_STACK_SIZE)
    else mret tt.

Fixpoint try_for_each {A} (f : A → M unit) (l : list A) : M unit :=
  match l with
  | [] => mret tt
  | a :: l => _ ← f a; try_for_each f l
  end.

Definition execute_script (script : list byte) (verify_only_push : bool) : M unit := λ e,
  let '(e, script_result) := try_for_each (execute_parsed verify_only_push) (parse_script script) e in
  match script_result with
  | Ok _ =>
      if bool_decide (cond_stack e = []) then (set_num_ops 0 (set_astack [] e), Ok tt)
      else (e, Err ErrUnbalancedConditional)
  | _ => (set_num_ops 0 (set_astack [] e), script_result)
  end.

Definition check_error_condition (final_script : bool) : M unit :=
  e ← get;
  if final_script && (1 <? length (dstack e))%nat then throw (CleanStack (len (dstack e) - 1))
  else if final_script && bool_decide (dstack e = []) then throw EmptyStack
  else
    v ← pop1 data_bool;
    if v : bool then mret tt else throw EvalFalse.

(** The [try_for_each] of [execute] over the scripts that are not empty; the
    result is [saved_stack]. *)
Fixpoint execute_scripts (is_p2sh is_tx_input : bool) (idx : nat) (scripts : list (list byte))
    (saved_stack : option Stack) : M (option Stack) :=
  match scripts with
  | [] => mret saved_stack
  | s :: scripts =>
      if bool_decide (s = []) then execute_scripts is_p2sh is_tx_input (S idx) scripts saved_stack
      else
        e ← get;
        let verify_only_push := (idx =? 0)%nat && is_tx_input in
        let saved_stack := if is_p2sh && (idx =? 1)%nat then Some (dstack e) else saved_stack in
        _ ← execute_script s verify_only_push;
        execute_scripts is_p2sh is_tx_input (S idx) scripts saved_stack
  end.

Definition execute_with (scripts : list (list byte)) (is_p2sh is_tx_input : bool) : M unit :=
  e ← get;
  if pq_only (policy e) && negb (allow_p2sh (policy e)) && is_p2sh
  then throw ScriptHashDisabledInPqMode
  else if bool_decide (scripts = []) then throw NoScripts
  else if forallb (λ s, bool_decide (s = [])) scripts then throw EvalFalse
  else
    match List.find (λ s, len s >? MAX_SCRIPTS_SIZE) scripts with
    | Some s => throw (ScriptSize (len s) MAX_SCRIPTS_SIZE)
    | None =>
        saved_stack ← execute_scripts is_p2sh is_tx_input 0 scripts None;
        _ ← (if is_p2sh then
               _ ← check_error_condition false;
               s ← lift (ok_or saved_stack EmptyStack);
               _ ← modify (set_dstack s);
               script ← pop;
               script ← lift (ok_or script EmptyStack);
               execute_script script false
             else mret tt);
        check_error_condition true
    end.

Definition execute : M unit :=
  e ← get;
  match script_source e with
  | TxInput _ input _ utxo_entry is_p2sh =>
      if spk_version (script_public_key utxo_entry) >? MAX_SCRIPT_PUBLIC_KEY_VERSION then mret tt
      else execute_with [signature_script input; spk_script (script_public_key utxo_entry)] is_p2sh true
  | StandAloneScripts scripts => execute_with scripts false false
  end.

(** ** Constructors *)

Definition TxScriptEngine_new (sig_cache : Cache) : Engine :=
  mkEngine [] [] (StandAloneScripts []) sig_cache [] 0 (RuntimeSigOpCounter_new 255) LEGACY.

Definition from_transaction_input {E} (tx : PopulatedTransaction) (input : TransactionInput)
    (input_idx : nat) (utxo_entry : UtxoEntry) (sig_cache : Cache) : outcome E Engine :=
  let is_p2sh := is_pay_to_script_hash (spk_script (script_public_key utxo_entry)) in
  _ ← assert_ (input_idx <? length (inputs (pop_tx tx)))%nat;
  Ok (mkEngine [] [] (TxInput tx input input_idx utxo_entry is_p2sh) sig_cache [] 0
        (RuntimeSigOpCounter_new (sig_op_count input)) LEGACY).

Definition from_script (script : list byte) (sig_cache : Cache) : Engine :=
  mkEngine [] [] (StandAloneScripts [script]) sig_cache [] 0 (RuntimeSigOpCounter_new 255) LEGACY.

Definition with_script_policy (p : ScriptPolicy) (e : Engine) : Engine :=
  mkEngine (dstack e) (astack e) (script_source e) (sig_cache e) (cond_stack e) (num_ops e)
    (runtime_sig_op_counter e) p.

Definition used_sig_ops {E} (e : Engine) : outcome E Z := counter_used_sig_ops (runtime_sig_op_counter e).

(** ** Signature operation counts *)

Definition get_sig_op_count (tx : PopulatedTransaction) (input_idx : nat) : outcome TxScriptError Z :=
  input ← unwrap (inputs (pop_tx tx) !! input_idx);
  entry ← ok_or (entries tx !! input_idx)
            (InvalidInputIndex (wrap_i32 (Z.of_nat input_idx)) (len (inputs (pop_tx tx))));
  vm ← from_transaction_input tx input input_idx entry (Cache_new 0);
  let '(vm, r) := execute vm in
  _ ← r;
  used_sig_ops vm.

Definition opcode_sig_ops (prev : option OpCode) (op : OpCode) : outcome TxScriptError Z :=
  if bool_decide (op_code op ∈ [codes.OpCheckSig; codes.OpCheckSigVerify; codes.OpCheckSigECDSA])
  then Ok 1
  else if bool_decide (op_code op ∈ [codes.OpCheckMultiSig; codes.OpCheckMultiSigVerify;
            codes.OpCheckMultiSigECDSA; codes.OpCheckMultiSigMlDsa87])
  then
    match prev with
    | None => Ok MAX_PUB_KEYS_PER_MUTLTISIG
    | Some prev =>
        if (op_code prev >=? codes.OpTrue) && (op_code prev <=? codes.Op16)
        then to_small_int prev else Ok MAX_PUB_KEYS_PER_MUTLTISIG
    end
  else Ok 0.

(** The loop of [get_sig_op_count_by_opcodes]: [prev] is [opcodes[i - 1]]. *)
Fixpoint sig_op_loop (prev : option OpCode) (opcodes : list (outcome TxScriptError OpCode))
    (num_sigs : Z) : outcome TxScriptError Z :=
  match opcodes with
  | [] => Ok num_sigs
  | Ok op :: opcodes =>
      n ← opcode_sig_ops prev op;
      num_sigs ← add64 num_sigs n;
      sig_op_loop (Some op) opcodes num_sigs
  | _ :: _ => Ok num_sigs
  end.
Definition get_sig_op_count_by_opcodes (opcodes : list (outcome TxScriptError OpCode)) :
    outcome TxScriptError Z := sig_op_loop None opcodes 0.

Definition is_ok_push (op : outcome TxScriptError OpCode) : bool :=
  match op with Ok op => is_push_opcode op | _ => false end.

Definition get_sig_op_count_upper_bound (signature_script : list byte) (spk : ScriptPublicKey) :
    outcome TxScriptError Z :=
  let is_p2sh := is_pay_to_script_hash (spk_script spk) in
  let script_pub_key_ops := parse_script (spk_script spk) in
  if negb is_p2sh then get_sig_op_count_by_opcodes script_pub_key_ops
  else
    let signature_script_ops := parse_script signature_script in
    if bool_decide (signature_script_ops = []) || existsb (λ op, negb (is_ok_push op)) signature_script_ops
    then Ok 0
    else
      match last signature_script_ops with
      | Some (Ok op) => get_sig_op_count_by_opcodes (parse_script (op_data op))
      | _ => Panic
      end.

Definition is_unspendable (script : list byte) : bool :=
  match parse_script script with
  | [] => false
  | first :: rest =>
      match first with Ok op => op_code op =? codes.OpReturn | _ => true end
      || existsb (λ op, match op with Ok _ => false | _ => true end) rest
  end.
End engine.
