(* ===== verification/ScriptSafe.v ===== *)
(** * The script engine never panics

    An invariant of the engine, preserved by every opcode: the stacks hold byte
    strings, the operation count and the signature operation counter are in
    range, the script source and the policy never change. From it: executing
    any script on any transaction input returns or reports an error, and never
    panics. *)

From stdpp Require Import base list gmap strings.
From Stdlib Require Import ZArith Lia.
From S2P Require Import Prelude Tx Bytes Hashing SigHash ScriptNum ScriptOps ScriptEngine.

Local Open Scope Z_scope.

Abbreviation bytes := (Forall is_byte).
Abbreviation stack_ok := (Forall (Forall is_byte)).

(** ** Parsing *)

Definition op_wf (op : OpCode) : Prop := is_byte (op_code op) ∧ bytes (op_data op).

Lemma opcode_deserialize_spec code it :
  is_byte code → bytes it →
  bytes (opcode_deserialize code it).2 ∧
  (length (opcode_deserialize code it).2 ≤ length it)%nat ∧
  safe (opcode_deserialize code it).1 ∧
  ∀ op, (opcode_deserialize code it).1 = Ok op → op_wf op.
Proof.
  intros Hc Hit. unfold opcode_deserialize, opcode_new. destruct (opcode_length code) as [n|size] eqn:E.
  - simpl. split; [by apply Forall_drop|]. split; [rewrite length_drop; lia|].
    case_match; (split; [done|]); intros op [= <-]. split; [done|by apply Forall_take].
  - destruct (length (take size it) =? size)%nat; simpl.
    + split; [by do 2 apply Forall_drop|]. split; [rewrite !length_drop; lia|].
      case_match; (split; [done|]); intros op [= <-]. split; [done|by apply Forall_take, Forall_drop].
    + split; [by apply Forall_drop|]. split; [rewrite length_drop; lia|]. split; [done|]. by intros ? [=].
Qed.

Lemma parse_fuel_wf fuel it :
  bytes it → Forall (λ r, safe r ∧ ∀ op, r = Ok op → op_wf op) (parse_fuel fuel it).
Proof.
  revert it. induction fuel as [|fuel IH]; intros it Hit; [constructor|]. destruct it as [|c it]; [constructor|].
  cbn [parse_fuel deserialize_next_opcode]. inversion Hit; subst.
  destruct (opcode_deserialize_spec c it) as (Hr & _ & Hs & Hw); [done..|].
  destruct (opcode_deserialize c it) as [r it']. constructor; [done|]. by apply IH.
Qed.

Lemma parse_script_wf script :
  bytes script → Forall (λ r, safe r ∧ ∀ op, r = Ok op → op_wf op) (parse_script script).
Proof. apply parse_fuel_wf. Qed.

(** ** The invariant *)

Definition source_ok (src : ScriptSource) : Prop :=
  match src with
  | TxInput tx input idx entry _ =>
      well_populated tx ∧ inputs (pop_tx tx) !! idx = Some input ∧ entries tx !! idx = Some entry ∧
      bytes (signature_script input) ∧ bytes (spk_script (script_public_key entry)) ∧
      Forall (λ e, bytes (spk_script (script_public_key e))) (entries tx) ∧
      Forall (λ o, bytes (spk_script (out_script_public_key o))) (outputs (pop_tx tx))
  | StandAloneScripts scripts => Forall bytes scripts
  end.

(** [lim] is the limit the counter was created with. *)
Definition counter_ok (lim : Z) (c : RuntimeSigOpCounter) : Prop :=
  0 ≤ sig_op_remaining c ≤ lim ∧ sig_op_limit c = lim.

Record engine_ok (lim : Z) (p : ScriptPolicy) (src : ScriptSource) (e : Engine) : Prop := {
  eo_dstack : stack_ok (dstack e);
  eo_astack : stack_ok (astack e);
  eo_num_ops : 0 ≤ num_ops e ≤ MAX_OPS_PER_SCRIPT;
  eo_counter : counter_ok lim (runtime_sig_op_counter e);
  eo_policy : policy e = p;
  eo_source : script_source e = src;
}.

Section safe.
Context {HC : Crypto} {HR : Rng}.
Context (lim : Z) (p : ScriptPolicy) (src : ScriptSource) (Hsrc : source_ok src).

(** A computation that keeps the invariant: it does not panic, and when it
    returns the invariant holds and the result satisfies [Q]. *)
Definition ok_step {A} (m : M A) (Q : A → Prop) : Prop :=
  ∀ e, engine_ok lim p src e →
    safe (m e).2 ∧ ∀ a, (m e).2 = Ok a → engine_ok lim p src (m e).1 ∧ Q a.

Lemma os_bind {A B} (m : M A) (f : A → M B) Q R :
  ok_step m Q → (∀ a, Q a → ok_step (f a) R) → ok_step (m ≫= f) R.
Proof.
  intros Hm Hf e He. destruct (Hm e He) as [Hs Hok]. unfold mbind, SM_bind.
  destruct (m e) as [e' r]. simpl in *. destruct r as [a| | |]; [|done|by destruct Hs..].
  destruct (Hok a eq_refl) as [He' Ha]. by apply Hf.
Qed.

Lemma os_ret {A} (a : A) (Q : A → Prop) : Q a → ok_step (mret a) Q.
Proof. intros Ha e He. split; [done|]. by intros ? [= <-]. Qed.

Lemma os_throw {A} err (Q : A → Prop) : ok_step (throw err) Q.
Proof. by intros e He. Qed.

Lemma os_lift {A} (m : outcome TxScriptError A) (Q : A → Prop) :
  safe m → (∀ a, m = Ok a → Q a) → ok_step (lift m) Q.
Proof. intros Hs HQ e He. split; [done|]. intros a Ha. split; [done|]. by apply HQ. Qed.

Lemma os_get : ok_step get (engine_ok lim p src).
Proof. intros e He. split; [done|]. by intros ? [= <-]. Qed.

Lemma os_modify f (Q : unit → Prop) :
  (∀ e, engine_ok lim p src e → engine_ok lim p src (f e)) → Q tt → ok_step (modify f) Q.
Proof. intros Hf HQ e He. split; [done|]. intros [] _. split; [by apply Hf|done]. Qed.

Lemma os_weaken {A} (m : M A) (Q R : A → Prop) : ok_step m Q → (∀ a, Q a → R a) → ok_step m R.
Proof. intros Hm HQR e He. destruct (Hm e He) as [Hs Hok]. split; [done|]. intros a Ha. naive_solver. Qed.

Lemma os_on_dstack {A} (m : SM Stack A) (Q : A → Prop) :
  (∀ s, stack_ok s → safe (m s).2 ∧ ∀ a, (m s).2 = Ok a → stack_ok (m s).1 ∧ Q a) →
  ok_step (on_dstack m) Q.
Proof.
  intros Hm e [Hd Ha Hn Hc Hp Hs]. unfold on_dstack. destruct (Hm _ Hd) as [Hsafe Hok].
  destruct (m (dstack e)) as [s r]. simpl in *. split; [done|]. intros a Hr.
  destruct (Hok a Hr). split; [by split|done].
Qed.

Lemma os_set_dstack f (Q : unit → Prop) :
  (∀ e, engine_ok lim p src e → stack_ok (f e)) → Q tt → ok_step (modify (λ e, set_dstack (f e) e)) Q.
Proof. intros Hf. apply os_modify. intros e He. pose proof (Hf e He). destruct He. by split. Qed.
Lemma os_set_astack f (Q : unit → Prop) :
  (∀ e, engine_ok lim p src e → stack_ok (f e)) → Q tt → ok_step (modify (λ e, set_astack (f e) e)) Q.
Proof. intros Hf. apply os_modify. intros e He. pose proof (Hf e He). destruct He. by split. Qed.
Lemma os_set_cond_stack f (Q : unit → Prop) : Q tt → ok_step (modify (λ e, set_cond_stack (f e) e)) Q.
Proof. apply os_modify. intros e []. by split. Qed.

Lemma os_push item (Q : unit → Prop) : bytes item → Q tt → ok_step (push item) Q.
Proof.
  intros Hi. apply (os_set_dstack (λ e, dstack e ++ [item])).
  intros e []. apply Forall_app; split; [done|by constructor].
Qed.

(** ** Stack operations *)

Lemma collect_ok {T} (D : OpcodeData T) dom l :
  opcode_data_ok D dom → stack_ok l →
  safe (collect (deserialize D) l) ∧
  ∀ r, collect (deserialize D) l = Ok r → Forall dom r ∧ length r = length l.
Proof.
  intros HD Hl. induction Hl as [|v l Hv Hl [IHs IH]]; [split; [done|]; by intros ? [= <-]|]. simpl. split.
  - apply safe_bind; [by eapply deserialize_safe|]. intros t Ht. by apply safe_bind.
  - intros r (t & Ht & (ts & Hts & [= <-])%bind_Ok)%bind_Ok. destruct (IH _ Hts) as [Hd Hlen].
    split; [constructor; [by eapply deserialize_dom|done]|simpl; by rewrite Hlen].
Qed.

Lemma os_pop_items {T} (D : OpcodeData T) dom n :
  opcode_data_ok D dom → ok_step (on_dstack (pop_items D n)) (λ l, Forall dom l ∧ length l = n).
Proof.
  intros HD. apply os_on_dstack. intros s Hs. unfold pop_items. destruct (Nat.ltb_spec (length s) n); [done|].
  destruct (collect_ok D dom (drop (length s - n) s) HD ltac:(by apply Forall_drop)) as [Hsafe Hok].
  simpl. split; [done|]. intros l Hl. destruct (Hok l Hl) as [Hd Hlen]. rewrite length_drop in Hlen.
  split; [by apply Forall_take|]. split; [done|lia].
Qed.

Lemma os_pop_raw n : ok_step (on_dstack (pop_raw n)) (λ l, stack_ok l ∧ length l = n).
Proof.
  apply os_on_dstack. intros s Hs. unfold pop_raw. destruct (Nat.ltb_spec (length s) n); [done|].
  simpl. split; [done|]. intros l [= <-]. rewrite length_drop.
  split; [by apply Forall_take|]. split; [by apply Forall_drop|lia].
Qed.

Lemma os_pop1 {T} (D : OpcodeData T) dom : opcode_data_ok D dom → ok_step (pop1 D) dom.
Proof.
  intros HD. eapply os_bind; [by apply os_pop_items|]. intros l [Hl Hlen].
  destruct l as [|a [|]]; try done. apply os_ret. by inversion Hl.
Qed.
Lemma os_pop2 {T} (D : OpcodeData T) dom :
  opcode_data_ok D dom → ok_step (pop2 D) (λ x, dom x.1 ∧ dom x.2).
Proof.
  intros HD. eapply os_bind; [by apply os_pop_items|]. intros l [Hl Hlen].
  destruct l as [|a [|b [|]]]; try done. apply os_ret. by decompose_Forall_hyps.
Qed.
Lemma os_pop3 {T} (D : OpcodeData T) dom :
  opcode_data_ok D dom → ok_step (pop3 D) (λ x, dom x.1.1 ∧ dom x.1.2 ∧ dom x.2).
Proof.
  intros HD. eapply os_bind; [by apply os_pop_items|]. intros l [Hl Hlen].
  destruct l as [|a [|b [|c [|]]]]; try done. apply os_ret. by decompose_Forall_hyps.
Qed.
Lemma os_pop_raw1 : ok_step pop_raw1 bytes.
Proof.
  eapply os_bind; [apply os_pop_raw|]. intros l [Hl Hlen].
  destruct l as [|a [|]]; try done. apply os_ret. by inversion Hl.
Qed.
Lemma os_pop_raw2 : ok_step pop_raw2 (λ x, bytes x.1 ∧ bytes x.2).
Proof.
  eapply os_bind; [apply os_pop_raw|]. intros l [Hl Hlen].
  destruct l as [|a [|b [|]]]; try done. apply os_ret. by decompose_Forall_hyps.
Qed.

Lemma os_push_item {T} (D : OpcodeData T) dom item (Q : unit → Prop) :
  opcode_data_ok D dom → dom item → Q tt → ok_step (on_dstack (push_item D item)) Q.
Proof.
  intros HD Hi HQ. apply os_on_dstack. intros s Hs. unfold push_item.
  pose proof (serialize_safe _ _ HD item Hi) as [Hs1 Hs2].
  destruct (serialize D item) as [v| | |] eqn:E; try done. simpl. split; [done|]. intros [] _. split; [|done].
  apply Forall_app; split; [done|]. constructor; [|constructor]. by eapply serialize_bytes.
Qed.

Lemma os_push_i64 n (Q : unit → Prop) : I64_MIN ≤ n ≤ I64_MAX → Q tt → ok_step (push_i64 n) Q.
Proof. intros. eapply (os_push_item data_i64); [apply data_i64_ok|done..]. Qed.
Lemma os_push_bool b (Q : unit → Prop) : Q tt → ok_step (push_bool b) Q.
Proof. intros. eapply (os_push_item data_bool); [apply data_bool_ok|done..]. Qed.

Lemma os_drop_items n : ok_step (on_dstack (drop_items n)) (λ _, True).
Proof.
  apply os_on_dstack. intros s Hs. unfold drop_items. case_match; [|done]. simpl. split; [done|].
  intros [] _. split; [by apply Forall_take|done].
Qed.
Lemma os_dup_items n : ok_step (on_dstack (dup_items n)) (λ _, True).
Proof.
  apply os_on_dstack. intros s Hs. unfold dup_items. case_match; [|done]. simpl. split; [done|].
  intros [] _. split; [|done]. apply Forall_app. split; [done|by apply Forall_drop].
Qed.
Lemma slice_ok a b s : stack_ok s → stack_ok (slice a b s).
Proof. intros Hs. by apply Forall_take, Forall_drop. Qed.
Lemma drain_ok a b s : stack_ok s → stack_ok ((drain a b s).1 ++ (drain a b s).2).
Proof.
  intros Hs. unfold drain. simpl. apply Forall_app; split; [apply Forall_app; split|].
  - by apply Forall_take.
  - by apply Forall_drop.
  - by apply slice_ok.
Qed.
Lemma os_over_items n : ok_step (on_dstack (over_items n)) (λ _, True).
Proof.
  apply os_on_dstack. intros s Hs. unfold over_items. case_match; [|done]. cbn [fst snd]. split; [done|].
  intros [] _. split; [|done]. apply Forall_app. split; [done|by apply slice_ok].
Qed.
Lemma os_rot_items n : ok_step (on_dstack (rot_items n)) (λ _, True).
Proof.
  apply os_on_dstack. intros s Hs. unfold rot_items. case_match; [|done].
  pose proof (drain_ok (length s - 3 * n) (length s - 2 * n) s Hs) as Hd.
  destruct (drain _ _ s). by split.
Qed.
Lemma os_swap_items n : ok_step (on_dstack (swap_items n)) (λ _, True).
Proof.
  apply os_on_dstack. intros s Hs. unfold swap_items. case_match; [|done].
  pose proof (drain_ok (length s - 2 * n) (length s - n) s Hs) as Hd.
  destruct (drain _ _ s). by split.
Qed.
Lemma os_peek_raw n : ok_step (on_dstack (peek_raw n)) (λ l, stack_ok l ∧ length l = n).
Proof.
  apply os_on_dstack. intros s Hs. unfold peek_raw. destruct (Nat.ltb_spec (length s) n); [done|].
  simpl. split; [done|]. intros l [= <-]. rewrite length_drop.
  split; [done|]. split; [by apply Forall_drop|lia].
Qed.

Lemma os_pop : ok_step pop (λ o, from_option bytes True o).
Proof.
  intros e [Hd Ha Hn Hc Hp Hs]. unfold pop. destruct (last (dstack e)) as [x|] eqn:E.
  - apply last_Some in E as [l El]. rewrite El in *. rewrite removelast_last in *.
    apply Forall_app in Hd as [Hd Hx]. simpl. split; [done|]. intros o [= <-].
    split; [by split|]. by inversion Hx.
  - split; [done|]. intros o [= <-]. split; [by split|done].
Qed.

(** ** Automation: one step of a monadic program *)
Ltac os_leaf :=
  first
    [ apply os_get | apply os_pop_raw1 | apply os_pop_raw2 | apply os_pop_raw | apply os_pop
    | apply os_peek_raw
    | apply os_pop1; first [apply data_i64_ok | apply data_i32_ok | apply data_bool_ok]
    | apply os_pop2; apply data_i64_ok | apply os_pop3; apply data_i64_ok ].
Ltac os_step :=
  lazymatch goal with
  | |- ok_step (mbind _ _) _ => eapply os_bind; [os_leaf|cbn beta; intros ? ?]
  | |- ok_step (throw _) _ => apply os_throw
  | |- ok_step (mret _) _ => apply os_ret; try done
  | |- ok_step (push _) _ => apply os_push; try done
  | |- ok_step (push_data _) _ => apply os_push; try done
  | |- ok_step (push_bool _) _ => apply os_push_bool; try done
  | |- ok_step (push_i64 _) _ => apply os_push_i64; try done
  | |- ok_step (push_number _) _ => apply os_push_i64; try done
  | |- ok_step (if ?b then _ else _) _ => destruct b eqn:?
  | |- ok_step (match ?x with _ => _ end) _ => destruct x eqn:?
  end.

Lemma os_verify b : ok_step (verify b) (λ _, True).
Proof. unfold verify. repeat os_step. Qed.
Lemma os_op_verify : ok_step op_verify (λ _, True).
Proof. unfold op_verify. os_step. apply os_verify. Qed.

Lemma os_op_if_with c1 c2 : ok_step (op_if_with c1 c2) (λ _, True).
Proof.
  unfold op_if_with. os_step. eapply (os_bind _ _ (λ _, True)); [repeat os_step|].
  intros c _. by apply os_set_cond_stack.
Qed.
Lemma os_op_else : ok_step op_else (λ _, True).
Proof. unfold op_else. repeat os_step. by apply (os_set_cond_stack (λ _, _)). Qed.
Lemma os_op_end_if : ok_step op_end_if (λ _, True).
Proof. unfold op_end_if. repeat os_step. by apply (os_set_cond_stack (λ _, _)). Qed.

Lemma os_op_to_alt_stack : ok_step op_to_alt_stack (λ _, True).
Proof.
  unfold op_to_alt_stack. os_step. apply (os_set_astack (λ e, astack e ++ [_])); [|done].
  intros e []. apply Forall_app; split; [done|by constructor].
Qed.
Lemma os_op_from_alt_stack : ok_step op_from_alt_stack (λ _, True).
Proof.
  unfold op_from_alt_stack. os_step. os_step; [|os_step].
  destruct H as [_ Ha _ _ _ _]. apply last_Some in Heqo as [s Es]. rewrite Es in *.
  rewrite removelast_last. apply Forall_app in Ha as [Hs Hx]. inversion Hx; subst.
  eapply (os_bind _ _ (λ _, True)); [by apply (os_set_astack (λ _, s))|]. intros _ _. by os_step.
Qed.
Lemma os_op_if_dup : ok_step op_if_dup (λ _, True).
Proof.
  unfold op_if_dup. os_step. destruct H as [Hl Hlen]. destruct a as [|x [|]]; try done.
  inversion Hl; subst. eapply os_bind.
  - apply (os_lift _ (λ _, True)); [|done]. by eapply deserialize_safe; [apply data_bool_ok|].
  - intros b _. repeat os_step.
Qed.

Lemma vec_remove_ok i s : stack_ok s → stack_ok (vec_remove i s).
Proof. intros Hs. apply Forall_app; split; [by apply Forall_take|by apply Forall_drop]. Qed.

Lemma wrap_i64_range z : I64_MIN ≤ wrap_i64 z ≤ I64_MAX.
Proof. unfold wrap_i64, I64_MIN, I64_MAX. pose proof (Z.mod_pos_bound (z + 2 ^ 63) (2 ^ 64)). lia. Qed.

Lemma os_op_nip : ok_step op_nip (λ _, True).
Proof.
  unfold op_nip. os_step. os_step; [|os_step]. apply (os_set_dstack (λ _, _)); [|done].
  intros _ _. apply vec_remove_ok, H.
Qed.

(** The index of [OpPick] and [OpRoll] is in range. *)
Lemma pick_in_range (s : Stack) loc :
  (loc <? 0) || (loc >=? len s) = false →
  is_Some (s !! (length s - Z.to_nat loc - 1)%nat).
Proof. intros Hb. apply lookup_lt_is_Some. lia. Qed.

Lemma os_op_pick : ok_step op_pick (λ _, True).
Proof.
  unfold op_pick. do 2 os_step. os_step; [os_step|].
  destruct (pick_in_range _ _ Heqb) as [x Hx]. rewrite Hx. simpl.
  eapply os_bind; [by apply (os_lift (Ok x) (λ y, y = x)); [|intros ? [= <-]]|].
  intros ? ->. os_step. destruct H0 as [Hd _ _ _ _ _]. by eapply Forall_lookup_1.
Qed.
Lemma os_op_roll : ok_step op_roll (λ _, True).
Proof.
  unfold op_roll. do 2 os_step. os_step; [os_step|].
  destruct (pick_in_range _ _ Heqb) as [x Hx]. rewrite Hx. simpl.
  destruct H0 as [Hd _ _ _ _ _].
  eapply os_bind; [by apply (os_lift (Ok x) (λ y, y = x)); [|intros ? [= <-]]|].
  intros ? ->. eapply (os_bind _ _ (λ _, True)).
  - apply (os_set_dstack (λ _, _)); [|done]. intros _ _. by apply vec_remove_ok.
  - intros _ _. os_step. by eapply Forall_lookup_1.
Qed.
Lemma os_op_tuck : ok_step op_tuck (λ _, True).
Proof.
  unfold op_tuck. os_step. destruct H as [Hd _ _ _ _ _]. os_step; [|os_step].
  destruct (last (dstack a)) as [x|] eqn:E;
    [|apply last_None in E; rewrite E in Heqb; discriminate].
  apply last_Some in E as [s Es]. pose proof Hd as Hx. rewrite Es in Hx.
  apply Forall_app in Hx as [_ Hx]. inversion Hx; subst.
  eapply os_bind; [by apply (os_lift (Ok x) (λ y, y = x)); [|intros ? [= <-]]|].
  intros ? ->. apply (os_set_dstack (λ _, _)); [|done]. intros _ _.
  unfold vec_insert. repeat (apply Forall_app; split); [by apply Forall_take|done|by apply Forall_drop].
Qed.

Lemma checked_i64_Some z r : checked_i64 z = Some r → I64_MIN ≤ r ≤ I64_MAX.
Proof. unfold checked_i64. case_match eqn:E; [|done]. intros [= <-]. by apply in_i64_spec. Qed.

Lemma os_lift_i64 o :
  (∀ r, o = Some r → I64_MIN ≤ r ≤ I64_MAX) →
  ok_step (lift (ok_or o NumberTooBig)) (λ r, I64_MIN ≤ r ≤ I64_MAX).
Proof. intros Ho. apply os_lift; destruct o; try done. intros ? [= <-]. by apply Ho. Qed.

Lemma os_op_size : ok_step op_size (λ _, True).
Proof.
  unfold op_size. os_step. os_step; [|os_step]. eapply os_bind.
  - apply os_lift_i64, checked_i64_Some.
  - intros n Hn. by os_step.
Qed.

Lemma os_op_depth : ok_step op_depth (λ _, True).
Proof. unfold op_depth. os_step. os_step. apply wrap_i64_range. Qed.

Lemma os_op_equal : ok_step op_equal (λ _, True).
Proof. unfold op_equal. os_step. destruct a as [x y]. os_step. case_match; repeat constructor; unfold is_byte; lia. Qed.
Lemma os_op_equal_verify : ok_step op_equal_verify (λ _, True).
Proof. unfold op_equal_verify. os_step. destruct a as [x y]. apply os_verify. Qed.

Lemma os_unary f :
  (∀ v r, I64_MIN ≤ v ≤ I64_MAX → f v = Some r → I64_MIN ≤ r ≤ I64_MAX) → ok_step (unary f) (λ _, True).
Proof.
  intros Hf. unfold unary. os_step. eapply os_bind; [apply os_lift_i64; eauto|]. intros r Hr. by os_step.
Qed.
Lemma os_binary f :
  (∀ a b r, I64_MIN ≤ a ≤ I64_MAX → I64_MIN ≤ b ≤ I64_MAX → f a b = Some r → I64_MIN ≤ r ≤ I64_MAX) →
  ok_step (binary f) (λ _, True).
Proof.
  intros Hf. unfold binary. os_step. destruct a as [a b]. destruct H.
  eapply os_bind; [apply os_lift_i64; eauto|]. intros r Hr. by os_step.
Qed.
Lemma of_bool_range b r : of_bool b = Some r → I64_MIN ≤ r ≤ I64_MAX.
Proof. intros [= <-]. destruct b; unfold I64_MIN, I64_MAX; lia. Qed.
Lemma os_op_num_equal_verify : ok_step op_num_equal_verify (λ _, True).
Proof. unfold op_num_equal_verify. os_step. destruct a as [a b]. apply os_verify. Qed.
Lemma os_op_within : ok_step op_within (λ _, True).
Proof.
  unfold op_within. os_step. destruct a as [[a b] c]. os_step.
  case_match; unfold I64_MIN, I64_MAX; lia.
Qed.

(** ** Signatures *)

Lemma consume_sig_op_ok c c' : counter_ok lim c → consume_sig_op c = Ok c' → counter_ok lim c'.
Proof.
  unfold consume_sig_op, counter_ok. destruct (Z.eqb_spec (sig_op_remaining c) 0); [done|].
  intros ? [= <-]. simpl. lia.
Qed.

Lemma os_consume : ok_step consume (λ _, True).
Proof.
  unfold consume. os_step. eapply (os_bind _ _ (counter_ok lim)).
  - apply os_lift; [unfold consume_sig_op; by case_match|].
    intros c. apply consume_sig_op_ok. by destruct H.
  - intros c Hc. apply os_modify; [|done]. intros e []. by split.
Qed.

Lemma os_check_mldsa87_signature t key sig : ok_step (check_mldsa87_signature t key sig) (λ _, True).
Proof.
  unfold check_mldsa87_signature. eapply os_bind; [apply os_consume|]. intros _ _. os_step.
  pose proof Hsrc as Hok. rewrite <- (eo_source _ _ _ _ H) in Hok. os_step; [|os_step].
  destruct Hok as (Hw & Hi & He & _). do 2 (os_step; [os_step|]).
  destruct (@calc_mldsa87_signature_hash_spec _ TxScriptError tx idx t ReusedValues_new input utxo_entry) as (r & Hr & _);
    [apply coherent_new|by apply populated_input_Ok|].
  eapply os_bind; [apply (os_lift _ (λ _, True)); [rewrite Hr; done|done]|].
  intros [sig_hash ?] _. destruct (Cache_get _ _) as [c found].
  eapply (os_bind _ _ (λ _, True)); [apply os_modify; [|done]; intros ? []; by split|]. intros _ _.
  os_step; [by os_step|].
  eapply (os_bind _ _ (λ _, True)); [apply os_modify; [|done]; intros ? []; by split|]. intros _ _. by os_step.
Qed.

Lemma os_check_signature scheme t key sig : ok_step (check_signature scheme t key sig) (λ _, True).
Proof.
  destruct scheme; [| |apply os_check_mldsa87_signature];
    (eapply os_bind; [apply os_consume|]; intros _ _; by os_step).
Qed.

Lemma os_match_signature scheme t sig n keys :
  (0 < n)%nat → ok_step (match_signature scheme t sig n keys) (λ _, True).
Proof.
  intros Hn. induction keys as [|k keys IH]; cbn [match_signature].
  - destruct (Nat.ltb_spec (length (@nil (list byte))) n); [by os_step|simpl in *; lia].
  - os_step; [by os_step|]. eapply os_bind; [apply os_check_signature|]. intros b _.
    os_step; [by os_step|done].
Qed.

Lemma os_match_signatures scheme sigs keys :
  ok_step (match_signatures scheme sigs keys) (λ _, True).
Proof.
  revert keys. induction sigs as [|sig sigs IH]; intros keys; cbn [match_signatures]; [by os_step|].
  os_step; [|by os_step]. os_step; [|os_step].
  eapply os_bind; [apply os_match_signature; simpl; lia|]. intros r _. os_step; [apply IH|by os_step].
Qed.

Lemma os_count_ops n : 0 ≤ n ≤ MAX_PUB_KEYS_PER_MUTLTISIG → ok_step (count_ops n) (λ _, True).
Proof.
  intros Hn e He. pose proof He as [Hd Ha Ho Hc Hp Hs]. unfold count_ops, mbind, SM_bind, get.
  unfold MAX_PUB_KEYS_PER_MUTLTISIG, MAX_OPS_PER_SCRIPT in *.
  assert (in_i32 (num_ops e + n) = true) as -> by (unfold in_i32; lia). simpl.
  destruct (num_ops e + n >? 201) eqn:E; simpl; (split; [done|]); [done|].
  intros [] _. split; [|done]. split; simpl; try done. unfold MAX_OPS_PER_SCRIPT. lia.
Qed.

Lemma os_op_check_multisig scheme : ok_step (op_check_multisig scheme) (λ _, True).
Proof.
  unfold op_check_multisig. os_step. os_step; [os_step|]. os_step; [os_step|].
  eapply os_bind; [apply os_count_ops; lia|]. intros _ _. unfold split_off.
  do 2 os_step. os_step; [os_step|]. os_step; [os_step|]. os_step.
  eapply os_bind; [apply os_match_signatures|]. intros failed _. os_step; by os_step.
Qed.

Lemma os_op_check_sig_with check :
  (∀ t key sig, ok_step (check t key sig) (λ _, True)) → ok_step (op_check_sig_with check) (λ _, True).
Proof.
  intros Hc. unfold op_check_sig_with. os_step. destruct a as [sig key].
  os_step; [|by os_step]. os_step; [|os_step].
  eapply os_bind; [apply Hc|]. intros b _. by os_step.
Qed.

(** ** Lock times and introspection *)

Lemma os_op_check_lock_time_verify : ok_step op_check_lock_time_verify (λ _, True).
Proof. unfold op_check_lock_time_verify. repeat os_step. Qed.
Lemma os_op_check_sequence_verify : ok_step op_check_sequence_verify (λ _, True).
Proof. unfold op_check_sequence_verify. repeat os_step. Qed.

(** The transaction the introspection opcodes read is the one of the source. *)
Definition tx_bytes (tx : PopulatedTransaction) : Prop :=
  Forall (λ e, bytes (spk_script (script_public_key e))) (entries tx) ∧
  Forall (λ o, bytes (spk_script (out_script_public_key o))) (outputs (pop_tx tx)).

Lemma os_with_tx f :
  (∀ tx idx, tx_bytes tx → ok_step (f tx idx) (λ _, True)) → ok_step (with_tx f) (λ _, True).
Proof.
  intros Hf. unfold with_tx. os_step. pose proof Hsrc as Hok. rewrite <- (eo_source _ _ _ _ H) in Hok.
  os_step; [|os_step]. apply Hf. by destruct Hok as (_ & _ & _ & _ & _ & ? & ?).
Qed.

Lemma spk_to_bytes_ok spk : bytes (spk_script spk) → bytes (spk_to_bytes spk).
Proof.
  intros Hs. unfold spk_to_bytes. repeat constructor; [unfold is_byte; apply Z.mod_pos_bound; lia..|done].
Qed.

Lemma os_get_index {A} idx (l : list A) err (Q : A → Prop) :
  Forall Q l → ok_step (lift (ok_or (get_index idx l) err)) Q.
Proof.
  intros Hl. apply os_lift; unfold get_index; case_match; simpl; try done.
  - by destruct (l !! _).
  - intros a Ha. destruct (l !! _) eqn:E; [|done]. injection Ha as <-. by eapply Forall_lookup_1.
Qed.

Lemma os_op_tx_input_amount : ok_step op_tx_input_amount (λ _, True).
Proof.
  apply os_with_tx. intros tx idx [He Ho]. os_step. eapply os_bind; [by apply os_get_index|].
  intros utxo _. eapply os_bind; [apply os_lift_i64, checked_i64_Some|]. intros n Hn. by os_step.
Qed.
Lemma os_op_tx_input_spk : ok_step op_tx_input_spk (λ _, True).
Proof.
  apply os_with_tx. intros tx idx [He Ho]. os_step. eapply os_bind; [by apply os_get_index|].
  intros utxo Hu. os_step. by apply spk_to_bytes_ok.
Qed.
Lemma os_op_tx_output_amount : ok_step op_tx_output_amount (λ _, True).
Proof.
  apply os_with_tx. intros tx idx [He Ho]. os_step. eapply os_bind; [by apply os_get_index|].
  intros utxo _. eapply os_bind; [apply os_lift_i64, checked_i64_Some|]. intros n Hn. by os_step.
Qed.
Lemma os_op_tx_output_spk : ok_step op_tx_output_spk (λ _, True).
Proof.
  apply os_with_tx. intros tx idx [He Ho]. os_step. eapply os_bind; [by apply os_get_index|].
  intros utxo Hu. os_step. by apply spk_to_bytes_ok.
Qed.

(** ** Every opcode of the list keeps the invariant *)

Definition entry_ok (entry : opcode_entry) : Prop :=
  ∀ data, bytes data → ok_step (entry.2 data) (λ _, True).

Lemma reserved_ok c : entry_ok (reserved c).
Proof. intros data _. apply os_throw. Qed.
Lemma disabled_ok c : entry_ok (disabled c).
Proof. intros data _. apply os_throw. Qed.
Lemma invalid_ok c : entry_ok (invalid c).
Proof. intros data _. apply os_throw. Qed.
Lemma runs_ok c m : ok_step m (λ _, True) → entry_ok (runs c m).
Proof. by intros Hm data _. Qed.

Lemma data_push_opcodes_ok : Forall entry_ok data_push_opcodes.
Proof.
  assert (Hp : ∀ n, entry_ok (n, push_data)) by (intros n data Hd; simpl; by os_step).
  assert (Hn : ∀ n, I64_MIN ≤ n ≤ I64_MAX → ∀ c, entry_ok (runs c (push_number n)))
    by (intros n Hn c; apply runs_ok; by os_step).
  unfold data_push_opcodes. constructor; [apply runs_ok; os_step; constructor|].
  apply Forall_app; split; [apply Forall_fmap, Forall_forall; intros ? _; apply Hp|].
  apply Forall_app; split.
  - repeat (apply Forall_cons_2); [apply Hp..|apply Hn|apply reserved_ok|apply Forall_nil_2].
    unfold I64_MIN, I64_MAX. lia.
  - apply Forall_fmap, Forall_forall. intros n Hin%elem_of_seqZ. apply Hn. unfold I64_MIN, I64_MAX. lia.
Qed.

Ltac entries_ok :=
  repeat (apply Forall_cons_2);
  [..|apply Forall_nil_2]; try apply reserved_ok; try apply disabled_ok; apply runs_ok.

Lemma control_opcodes_ok : Forall entry_ok control_opcodes.
Proof.
  unfold control_opcodes. entries_ok; [by os_step|apply os_op_if_with|apply os_op_if_with|
    apply os_op_else|apply os_op_end_if|apply os_op_verify|os_step].
Qed.
Lemma stack_opcodes_ok : Forall entry_ok stack_opcodes.
Proof.
  unfold stack_opcodes. entries_ok; first
    [apply os_op_to_alt_stack|apply os_op_from_alt_stack|apply os_drop_items|apply os_dup_items
    |apply os_over_items|apply os_rot_items|apply os_swap_items|apply os_op_if_dup|apply os_op_depth
    |apply os_op_nip|apply os_op_pick|apply os_op_roll|apply os_op_tuck].
Qed.
Lemma splice_opcodes_ok : Forall entry_ok splice_opcodes.
Proof. unfold splice_opcodes. entries_ok; [apply os_op_size|apply os_op_equal|apply os_op_equal_verify]. Qed.
Lemma numeric_opcodes_ok : Forall entry_ok numeric_opcodes.
Proof.
  unfold numeric_opcodes. entries_ok; first
    [apply os_op_num_equal_verify|apply os_op_within
    |apply os_unary; intros v r _; first [apply checked_i64_Some|apply of_bool_range]
    |apply os_binary; intros a b r Ha Hb; first [apply checked_i64_Some|apply of_bool_range|intros [= <-]; lia]].
Qed.
Lemma crypto_opcodes_ok : Forall entry_ok crypto_opcodes.
Proof.
  assert (Hl : ∀ (t : SigHashType) (key sig : list byte), ok_step (_ ← consume; mret false) (λ _ : bool, True))
    by (intros _ _ _; eapply os_bind; [apply os_consume|]; intros _ _; by os_step).
  assert (Hs : ok_step op_check_sig (λ _, True)) by (apply os_op_check_sig_with, Hl).
  unfold crypto_opcodes. entries_ok; first
    [apply os_op_check_multisig|apply os_op_check_lock_time_verify|apply os_op_check_sequence_verify
    |apply os_op_check_sig_with; first [apply Hl|apply os_check_mldsa87_signature]
    |eapply os_bind; [apply Hs|]; intros _ _; apply os_op_verify
    |eapply os_bind; [apply os_op_check_multisig|]; intros _ _; apply os_op_verify
    |unfold op_sha256; os_step; os_step; apply sha256_bytes
    |unfold op_blake2b; os_step; os_step; apply blake2b_bytes].
Qed.
Lemma introspection_opcodes_ok : Forall entry_ok introspection_opcodes.
Proof.
  unfold introspection_opcodes. entries_ok; first
    [apply os_op_tx_input_amount|apply os_op_tx_input_spk|apply os_op_tx_output_amount
    |apply os_op_tx_output_spk
    |apply os_with_tx; intros tx idx _; os_step; apply wrap_i64_range
    |unfold op_blake2b_512; os_step; os_step; apply blake2b_bytes].
Qed.

Lemma opcode_table_ok : Forall entry_ok opcode_table.
Proof.
  unfold opcode_table. repeat (apply Forall_app; split).
  - apply data_push_opcodes_ok.
  - apply control_opcodes_ok.
  - apply stack_opcodes_ok.
  - apply splice_opcodes_ok.
  - apply numeric_opcodes_ok.
  - apply crypto_opcodes_ok.
  - apply introspection_opcodes_ok.
  - apply Forall_fmap, Forall_forall. intros c _. apply invalid_ok.
Qed.

(** ** Execution *)

Lemma assoc_find_elem {K V} `{EqDecision K} (k : K) (l : list (K * V)) :
  k ∈ l.*1 → ∃ v, assoc_find k l = Some v ∧ (k, v) ∈ l.
Proof.
  induction l as [|[k' v'] l IH]; csimpl; [by intros ?%elem_of_nil|].
  intros [->|Hk]%elem_of_cons.
  - rewrite decide_True by done. exists v'. split; [done|by left].
  - destruct (decide (k = k')) as [->|]; [exists v'; split; [done|by left]|].
    destruct (IH Hk) as (v & ? & ?). exists v. split; [done|by right].
Qed.

(** The list has one entry for each byte, in order. *)
Lemma opcode_table_total : opcode_table.*1 = seqZ 0 256.
Proof. reflexivity. Qed.

Lemma os_opcode_execute op : op_wf op → ok_step (opcode_execute op) (λ _, True).
Proof.
  intros [Hc Hd]. unfold opcode_execute.
  destruct (assoc_find_elem (op_code op) opcode_table) as (f & -> & Hf).
  { rewrite opcode_table_total, elem_of_seqZ. unfold is_byte in Hc. lia. }
  pose proof opcode_table_ok as Ht. rewrite Forall_forall in Ht. by apply (Ht _ Hf).
Qed.

Lemma check_minimal_data_push_safe op : safe (check_minimal_data_push op).
Proof. unfold check_minimal_data_push. repeat case_match; done. Qed.

Lemma os_execute_opcode op : op_wf op → ok_step (execute_opcode op) (λ _, True).
Proof.
  intros Hop. unfold execute_opcode. eapply (os_bind _ _ (λ _, True)).
  { os_step; [apply os_count_ops; unfold MAX_PUB_KEYS_PER_MUTLTISIG; lia|]. os_step; by os_step. }
  intros _ _. os_step. os_step; [|by os_step]. eapply (os_bind _ _ (λ _, True)).
  { os_step; [|by os_step]. apply os_lift; [apply check_minimal_data_push_safe|done]. }
  intros _ _. by apply os_opcode_execute.
Qed.

Lemma os_execute_parsed b r :
  safe r ∧ (∀ op, r = Ok op → op_wf op) → ok_step (execute_parsed b r) (λ _, True).
Proof.
  intros [Hs Hr]. unfold execute_parsed. eapply os_bind; [by apply os_lift|].
  intros op Hop. os_step. do 4 (os_step; [os_step|]).
  eapply os_bind; [by apply os_execute_opcode|]. intros _ _. os_step. os_step; by os_step.
Qed.

Lemma os_try_for_each {A} (f : A → M unit) l :
  (∀ a, a ∈ l → ok_step (f a) (λ _, True)) → ok_step (try_for_each f l) (λ _, True).
Proof.
  induction l as [|a l IH]; intros Hf; cbn [try_for_each]; [by os_step|].
  eapply os_bind; [apply Hf; by left|]. intros _ _. apply IH. intros b Hb. apply Hf. by right.
Qed.

Lemma os_execute_script script b : bytes script → ok_step (execute_script script b) (λ _, True).
Proof.
  intros Hb e He. unfold execute_script.
  destruct (os_try_for_each (execute_parsed b) (parse_script script)
    (λ r Hr, os_execute_parsed b r (proj1 (Forall_forall _ _) (parse_script_wf _ Hb) r Hr)) e He) as [Hs Hok].
  destruct (try_for_each _ _ e) as [e' r]. simpl in *.
  destruct r as [[]| | |]; [|done|by destruct Hs..].
  destruct (Hok tt eq_refl) as [He' _]. case_bool_decide; simpl; (split; [done|]); [|done].
  intros [] _. split; [|done]. destruct He'. split; simpl; try done.
Qed.

Lemma os_check_error_condition b : ok_step (check_error_condition b) (λ _, True).
Proof. unfold check_error_condition. repeat os_step. Qed.

Lemma os_execute_scripts p2sh txin idx scripts saved :
  Forall bytes scripts → from_option stack_ok True saved →
  ok_step (execute_scripts p2sh txin idx scripts saved) (λ o, from_option stack_ok True o).
Proof.
  intros Hs. revert idx saved. induction Hs as [|s scripts Hb Hs IH]; intros idx saved Hsaved;
    cbn [execute_scripts]; [by os_step|].
  os_step; [by apply IH|]. os_step. eapply os_bind; [by apply os_execute_script|].
  intros _ _. apply IH. case_match; [by destruct H|done].
Qed.

Lemma os_execute_with scripts p2sh txin :
  Forall bytes scripts → ok_step (execute_with scripts p2sh txin) (λ _, True).
Proof.
  intros Hs. unfold execute_with. os_step. do 3 (os_step; [os_step|]). os_step; [os_step|].
  eapply os_bind; [by apply os_execute_scripts|]. intros saved Hsaved.
  eapply (os_bind _ _ (λ _, True)); [|intros _ _; apply os_check_error_condition].
  os_step; [|by os_step]. eapply os_bind; [apply os_check_error_condition|]. intros _ _.
  eapply (os_bind _ _ stack_ok); [apply os_lift; destruct saved; try done; intros ? [= <-]; done|].
  intros s Hst. eapply (os_bind _ _ (λ _, True)); [by apply (os_set_dstack (λ _, s))|]. intros _ _.
  eapply os_bind; [apply os_pop|]. intros o Ho.
  eapply (os_bind _ _ bytes); [apply os_lift; destruct o; try done; intros ? [= <-]; done|].
  intros sc Hsc. by apply os_execute_script.
Qed.

Lemma os_execute : ok_step execute (λ _, True).
Proof.
  unfold execute. os_step. pose proof Hsrc as Hok. rewrite <- (eo_source _ _ _ _ H) in Hok.
  os_step; [|by apply os_execute_with]. os_step; [by os_step|].
  destruct Hok as (_ & _ & _ & Hs & Hp & _). apply os_execute_with. by repeat constructor.
Qed.

(** ** What an accepted script has passed *)

(** [r] is an opcode that [execute_script] lets through. *)
Definition passes (verify_only_push : bool) (r : outcome TxScriptError OpCode) : Prop :=
  ∃ op, r = Ok op ∧ is_disabled op = false ∧ always_illegal op = false ∧
    (pq_only p = true → is_legacy_signature_opcode (op_code op) = false) ∧
    (verify_only_push = true → is_push_opcode op = true).

Lemma bind_SM_Ok {A B} (m : M A) (f : A → M B) e b :
  ((m ≫= f) e).2 = Ok b → ∃ a, (m e).2 = Ok a ∧ (f a (m e).1).2 = Ok b ∧ (m ≫= f) e = f a (m e).1.
Proof. unfold mbind, SM_bind. destruct (m e) as [e' [a| | |]]; try done. simpl. eauto. Qed.

Lemma execute_parsed_passes b r e :
  engine_ok lim p src e → (execute_parsed b r e).2 = Ok tt → passes b r.
Proof.
  intros He. unfold execute_parsed. intros (op & Hr & Hrest & _)%bind_SM_Ok. simpl in Hr, Hrest.
  unfold get in Hrest. apply bind_SM_Ok in Hrest as (e1 & [= <-] & Hrest & _). simpl in Hrest.
  exists op. split; [done|]. rewrite (eo_policy _ _ _ _ He) in Hrest.
  destruct (is_disabled op); [done|]. destruct (always_illegal op); [done|].
  destruct (pq_only p && is_legacy_signature_opcode (op_code op)) eqn:Hpq; [done|].
  destruct (b && negb (is_push_opcode op)) eqn:Hb; [done|].
  split_and!; [done|done| |].
  - intros Hp. by rewrite Hp in Hpq.
  - intros ->. simpl in Hb. by destruct (is_push_opcode op).
Qed.

Lemma try_for_each_passes b l e :
  Forall (λ r, safe r ∧ ∀ op, r = Ok op → op_wf op) l → engine_ok lim p src e →
  (try_for_each (execute_parsed b) l e).2 = Ok tt → Forall (passes b) l.
Proof.
  intros Hl. revert e. induction Hl as [|r l Hr Hl IH]; intros e He; [by constructor|].
  cbn [try_for_each]. intros ([] & H1 & H2 & _)%bind_SM_Ok.
  constructor; [by eapply execute_parsed_passes|]. eapply IH; [|exact H2].
  by destruct (proj2 (os_execute_parsed b r Hr e He) tt H1) as [He' _].
Qed.

Lemma execute_script_passes script b e :
  bytes script → engine_ok lim p src e → (execute_script script b e).2 = Ok tt →
  Forall (passes b) (parse_script script).
Proof.
  intros Hs He. unfold execute_script.
  destruct (try_for_each _ _ e) as [e' r] eqn:E. destruct r as [[]| | |]; try done. intros _.
  eapply try_for_each_passes; [by apply parse_script_wf|exact He|by rewrite E].
Qed.

Lemma execute_scripts_passes p2sh txin idx scripts saved e o :
  Forall bytes scripts → engine_ok lim p src e →
  (execute_scripts p2sh txin idx scripts saved e).2 = Ok o →
  ∀ i s, scripts !! i = Some s → Forall (passes ((idx + i =? 0)%nat && txin)) (parse_script s).
Proof.
  intros Hs. revert idx saved e. induction Hs as [|s scripts Hb Hs IH]; intros idx saved e He; [done|].
  cbn [execute_scripts]. case_bool_decide as Hn.
  - intros Hok [|i] s' Hi; simpl in Hi.
    + injection Hi as <-. subst s. constructor.
    + rewrite Nat.add_succ_r, <- Nat.add_succ_l. by eapply IH.
  - intros (e1 & [= <-] & Hok & _)%bind_SM_Ok. apply bind_SM_Ok in Hok as ([] & H1 & H2 & _).
    simpl in H1, H2. intros [|i] s' Hi; simpl in Hi.
    + injection Hi as <-. rewrite Nat.add_0_r. by eapply execute_script_passes.
    + rewrite Nat.add_succ_r, <- Nat.add_succ_l. eapply IH; [|exact H2|exact Hi].
      by destruct (proj2 (os_execute_script s _ Hb e He) tt H1) as [He' _].
Qed.

Lemma execute_with_passes scripts p2sh txin e :
  Forall bytes scripts → engine_ok lim p src e →
  (execute_with scripts p2sh txin e).2 = Ok tt →
  (pq_only p = true → allow_p2sh p = false → p2sh = false) ∧
  (∀ i s, scripts !! i = Some s →
    len s ≤ MAX_SCRIPTS_SIZE ∧ Forall (passes ((i =? 0)%nat && txin)) (parse_script s)).
Proof.
  intros Hs He. unfold execute_with. intros (e1 & [= <-] & Hok & _)%bind_SM_Ok. simpl in Hok.
  rewrite (eo_policy _ _ _ _ He) in Hok.
  destruct (pq_only p && negb (allow_p2sh p) && p2sh) eqn:Hpq; [done|].
  case_bool_decide; [done|]. destruct (forallb _ scripts); [done|].
  destruct (List.find _ scripts) eqn:Hf; [done|]. split.
  - intros Hp Ha. rewrite Hp, Ha in Hpq. by destruct p2sh.
  - apply bind_SM_Ok in Hok as (saved & Hok & _ & _). intros i s Hi. split.
    + pose proof (List.find_none _ _ Hf s) as Hn. cbn beta in Hn.
      specialize (Hn (proj1 (list_elem_of_In _ _) (list_elem_of_lookup_2 _ _ _ Hi))). lia.
    + by eapply (execute_scripts_passes _ _ 0).
Qed.
End safe.

(** ** The engine on a transaction input *)

(** The inputs the constructors accept, as the transaction validator calls
    them: the input and its entry are the ones at the index. *)
Definition input_source (tx : PopulatedTransaction) (input : TransactionInput) (idx : nat)
    (entry : UtxoEntry) : ScriptSource :=
  TxInput tx input idx entry (is_pay_to_script_hash (spk_script (script_public_key entry))).

Lemma from_transaction_input_ok `{Crypto} `{Rng} {E} tx input idx entry cache p :
  source_ok (input_source tx input idx entry) → 0 ≤ sig_op_count input ≤ 255 →
  ∃ e, @from_transaction_input E tx input idx entry cache = Ok e ∧
    engine_ok (sig_op_count input) p (input_source tx input idx entry) (with_script_policy p e).
Proof.
  intros (Hw & Hi & He & _) Hc. unfold from_transaction_input.
  apply lookup_lt_Some in Hi. apply Nat.ltb_lt in Hi. rewrite Hi. simpl. eexists. split; [done|].
  split; simpl; try done. unfold counter_ok. simpl. lia.
Qed.

(** C37. Executing the scripts of any input of a well-formed transaction, under
    any policy and with any signature cache, never panics: it accepts or
    reports an error, and when it accepts the number of signature operations it
    used is at most the number the input declares. *)
Theorem execute_never_panics `{Crypto} `{Rng} tx input idx entry cache p :
  source_ok (input_source tx input idx entry) → 0 ≤ sig_op_count input ≤ 255 →
  ∃ e, @from_transaction_input TxScriptError tx input idx entry cache = Ok e ∧
    safe (execute (with_script_policy p e)).2 ∧
    ((execute (with_script_policy p e)).2 = Ok tt →
      ∃ n, @used_sig_ops TxScriptError (execute (with_script_policy p e)).1 = Ok n ∧ 0 ≤ n ≤ sig_op_count input).
Proof.
  intros Hsrc Hc. destruct (from_transaction_input_ok (E:=TxScriptError) tx input idx entry cache p Hsrc Hc)
    as (e & -> & He).
  exists e. split; [done|]. destruct (os_execute _ p _ Hsrc _ He) as [Hs Hok]. split; [done|].
  intros Hr. destruct (Hok tt Hr) as [[_ _ _ [Hrem Hlim] _ _] _].
  unfold used_sig_ops, counter_used_sig_ops. rewrite Hlim.
  destruct ((0 <=? _) && _) eqn:E; [|lia]. eexists. split; [done|lia].
Qed.

(** C38. Under a PQ-only policy the engine accepts an input with a known script
    version only when the output is not pay-to-script-hash and both scripts
    parse to the end, within the size limit, with no disabled, illegal or
    legacy signature opcode anywhere, untaken branches included, and a
    signature script of pushes only. *)
Theorem pq_only_policy_enforced `{Crypto} `{Rng} tx input idx entry cache e :
  source_ok (input_source tx input idx entry) → 0 ≤ sig_op_count input ≤ 255 →
  spk_version (script_public_key entry) ≤ MAX_SCRIPT_PUBLIC_KEY_VERSION →
  @from_transaction_input TxScriptError tx input idx entry cache = Ok e →
  (execute (with_script_policy PQ_ONLY e)).2 = Ok tt →
  is_pay_to_script_hash (spk_script (script_public_key entry)) = false ∧
  len (signature_script input) ≤ MAX_SCRIPTS_SIZE ∧
  len (spk_script (script_public_key entry)) ≤ MAX_SCRIPTS_SIZE ∧
  Forall (passes PQ_ONLY true) (parse_script (signature_script input)) ∧
  Forall (passes PQ_ONLY false) (parse_script (spk_script (script_public_key entry))).
Proof.
  intros Hsrc Hc Hv Hfrom Hex.
  destruct (from_transaction_input_ok (E:=TxScriptError) tx input idx entry cache PQ_ONLY Hsrc Hc)
    as (e' & He' & He). rewrite Hfrom in He'. injection He' as <-.
  unfold execute in Hex. apply bind_SM_Ok in Hex as (e1 & [= <-] & Hex & _). simpl in Hex.
  pose proof (eo_source _ _ _ _ He) as Hs. simpl in Hs. rewrite Hs in Hex. unfold input_source in Hex.
  destruct (Z.gtb_spec (spk_version (script_public_key entry)) MAX_SCRIPT_PUBLIC_KEY_VERSION); [lia|].
  pose proof Hsrc as (_ & _ & _ & Hb1 & Hb2 & _).
  eapply execute_with_passes in Hex as [Hp Hall]; [|exact Hsrc|by repeat constructor|exact He].
  destruct (Hall 0%nat _ eq_refl), (Hall 1%nat _ eq_refl). split_and!; try done. by apply Hp.
Qed.
