(* ===== verification/ScriptParse.v ===== *)
(** * Parsing scripts and building them

    The parser and the serializer of opcodes are inverse to each other, the
    script builder emits one minimal push per element, and the opcode it emits
    pushes that element. *)

From stdpp Require Import base list gmap strings.
From Stdlib Require Import ZArith Lia.
From S2P Require Import Prelude Tx Bytes ScriptNum ScriptOps ScriptEngine ScriptSafe.

Local Open Scope Z_scope.

(** ** One opcode *)

(** An opcode whose data has the length its number asks for. *)
Definition op_fits (op : OpCode) : Prop :=
  op_wf op ∧
  match opcode_length (op_code op) with
  | Literal n => length (op_data op) = (n - 1)%nat
  | LengthField size => len (op_data op) < 256 ^ Z.of_nat size
  end.

Lemma deserialize_serialize op rest :
  op_fits op → deserialize_next_opcode (opcode_serialize op ++ rest) = Some (Ok op, rest).
Proof.
  intros [_ Hf]. unfold opcode_serialize, deserialize_next_opcode, opcode_deserialize, opcode_new.
  destruct op as [code data]. simpl in *. destruct (opcode_length code) as [n|size] eqn:E; simpl; rewrite ?E.
  - by rewrite <- Hf, take_app_length, drop_app_length, Nat.eqb_refl.
  - rewrite <- app_assoc.
    assert (Hl : length (to_le_bytes size (len data)) = size) by apply length_to_le_bytes.
    rewrite (take_app_length' _ _ size), (drop_app_length' _ _ size), Hl, Nat.eqb_refl by done.
    rewrite le_val_to_le_bytes by lia. rewrite Nat2Z.id, take_app_length, drop_app_length, Z.eqb_refl. done.
Qed.

Lemma opcode_length_field code size : opcode_length code = LengthField size → (size ≤ 4)%nat.
Proof. unfold opcode_length. repeat case_match; intros [= <-]; lia. Qed.

Lemma deserialize_inv it op rest :
  bytes it → deserialize_next_opcode it = Some (Ok op, rest) →
  it = opcode_serialize op ++ rest ∧ op_fits op.
Proof.
  destruct it as [|code it]; [done|]. intros Hb. inversion Hb as [|? ? Hc Hit]; subst.
  cbn [deserialize_next_opcode]. intros [= Hd].
  pose proof (opcode_deserialize_spec code it Hc Hit) as (_ & _ & _ & Hw).
  rewrite Hd in Hw. specialize (Hw op eq_refl). unfold opcode_deserialize, opcode_new in Hd.
  destruct (opcode_length code) as [n|size] eqn:E.
  - destruct (Nat.eqb_spec (length (take (n - 1) it)) (n - 1)) as [Hn|]; [|done].
    injection Hd as <- <-. unfold opcode_serialize, op_fits. simpl. rewrite E. simpl.
    split; [by rewrite take_drop|]. by split.
  - destruct (Nat.eqb_spec (length (take size it)) size) as [Hn|]; [|done].
    set (push_len := le_val (take size it)) in *.
    destruct (Z.eqb_spec (len (take (Z.to_nat push_len) (drop size it))) push_len) as [Hl|]; [|done].
    injection Hd as <- <-. unfold opcode_serialize, op_fits. simpl. rewrite E. simpl.
    assert (Hsz : Forall is_byte (take size it)) by (by apply Forall_take).
    split; [|split; [done|]].
    + rewrite Hl. f_equal. rewrite <- app_assoc, take_drop. unfold push_len.
      rewrite <- Hn at 1. by rewrite to_le_bytes_le_val, take_drop.
    + rewrite Hl. pose proof (le_val_bound _ Hsz) as Hbd. rewrite Hn in Hbd. unfold push_len. lia.
Qed.

(** ** Scripts *)

Lemma deserialize_shorter it r rest :
  bytes it → deserialize_next_opcode it = Some (r, rest) → bytes rest ∧ (length rest < length it)%nat.
Proof.
  destruct it as [|c it]; [done|]. intros Hb. inversion Hb; subst. simpl. intros [= Hd].
  destruct (opcode_deserialize_spec c it) as (? & ? & _); [done..|]. rewrite Hd in *. simpl in *. split; [done|lia].
Qed.

Lemma parse_fuel_enough n m it :
  bytes it → (length it ≤ n)%nat → (length it ≤ m)%nat → parse_fuel n it = parse_fuel m it.
Proof.
  revert m it. induction n as [|n IH]; intros m it Hb Hn Hm.
  { destruct it; [|simpl in Hn; lia]. by destruct m. }
  destruct it as [|c it]; [by destruct m|]. destruct m as [|m]; [simpl in Hm; lia|].
  cbn [parse_fuel]. destruct (deserialize_next_opcode (c :: it)) as [[r rest]|] eqn:E; [|done].
  apply deserialize_shorter in E as [Hr Hl]; [|done]. f_equal. apply IH; [done|lia..].
Qed.

Lemma parse_script_step it r rest :
  bytes it → deserialize_next_opcode it = Some (r, rest) → parse_script it = r :: parse_script rest.
Proof.
  intros Hb E. destruct (deserialize_shorter _ _ _ Hb E) as [Hr Hl].
  unfold parse_script at 1. destruct (length it) as [|n] eqn:Hlen; [lia|]. cbn [parse_fuel]. rewrite E.
  f_equal. apply parse_fuel_enough; [done|lia..].
Qed.

Lemma opcode_serialize_bytes op : op_wf op → bytes (opcode_serialize op).
Proof.
  intros [Hc Hd]. unfold opcode_serialize. case_match; constructor; try done.
  apply Forall_app; split; [apply to_le_bytes_byte|done].
Qed.

Lemma parse_serialized ops rest :
  Forall op_fits ops → bytes rest →
  bytes (concat (opcode_serialize <$> ops) ++ rest) ∧
  parse_script (concat (opcode_serialize <$> ops) ++ rest) = (Ok <$> ops) ++ parse_script rest.
Proof.
  intros Hops Hrest. induction Hops as [|op ops Hop Hops [IHb IH]]; csimpl; [done|].
  rewrite <- app_assoc. split; [apply Forall_app; split; [|done]; apply opcode_serialize_bytes, Hop|].
  erewrite parse_script_step; [by rewrite IH| |by apply deserialize_serialize].
  apply Forall_app; split; [|done]. apply opcode_serialize_bytes, Hop.
Qed.

Lemma parse_script_inv s ops :
  bytes s → parse_script s = Ok <$> ops → s = concat (opcode_serialize <$> ops) ∧ Forall op_fits ops.
Proof.
  revert s. induction ops as [|op ops IH]; intros s Hb Hp.
  - destruct s as [|c s]; [done|]. destruct (deserialize_next_opcode (c :: s)) as [[r rest]|] eqn:E; [|done].
    rewrite (parse_script_step _ _ _ Hb E) in Hp. done.
  - destruct s as [|c s]; [done|]. destruct (deserialize_next_opcode (c :: s)) as [[r rest]|] eqn:E; [|done].
    rewrite (parse_script_step _ _ _ Hb E) in Hp. csimpl in *. injection Hp as -> Hp.
    destruct (deserialize_shorter _ _ _ Hb E) as [Hr _]. destruct (deserialize_inv _ _ _ Hb E) as [-> Hop].
    destruct (IH _ Hr Hp) as [-> Hops]. by split; [|constructor].
Qed.

(** Parsing and serializing opcodes are inverse: the serialization of
    opcodes whose data has the right length parses back to them, and a script
    that parses without an error is the serialization of the opcodes it parses
    to, of the right data length each. *)
Theorem parse_serialize_roundtrip :
  (∀ ops, Forall op_fits ops → parse_script (concat (opcode_serialize <$> ops)) = Ok <$> ops) ∧
  (∀ s ops, bytes s → parse_script s = Ok <$> ops →
    concat (opcode_serialize <$> ops) = s ∧ Forall op_fits ops).
Proof.
  split.
  - intros ops Hops. destruct (parse_serialized ops [] Hops ltac:(constructor)) as [_ Hp].
    by rewrite !app_nil_r in Hp.
  - intros s ops Hb Hp. by destruct (parse_script_inv s ops Hb Hp) as [-> ?].
Qed.

(** ** The script builder *)

(** The opcode the builder emits for a data element. *)
Definition push_op (data : list byte) : OpCode :=
  let data_len := len data in
  let first := nth 0 data 0 in
  if data_len =? 0 then mkOpCode codes.Op0 []
  else if (data_len =? 1) && (OP_SMALL_INT_MIN_VAL <=? first) && (first <=? OP_SMALL_INT_MAX_VAL)
  then mkOpCode (codes.Op1 - 1 + first) []
  else if (data_len =? 1) && (first =? OP_1_NEGATE_VAL) then mkOpCode codes.Op1Negate []
  else if data_len <=? OP_DATA_MAX_VAL then mkOpCode data_len data
  else if data_len <=? 255 then mkOpCode codes.OpPushData1 data
  else if data_len <=? 65535 then mkOpCode codes.OpPushData2 data
  else mkOpCode codes.OpPushData4 data.

Lemma opcode_length_data n : 1 ≤ n ≤ 75 → opcode_length n = Literal (Z.to_nat n + 1).
Proof.
  intros Hn. unfold opcode_length, codes.OpData1, codes.OpData75.
  destruct ((1 <=? n) && (n <=? 75)) eqn:E; [done|lia].
Qed.
Lemma opcode_length_small n : 0x4f ≤ n → opcode_length n = Literal 1.
Proof.
  intros Hn. unfold opcode_length, codes.OpData1, codes.OpData75, codes.OpPushData1, codes.OpPushData2, codes.OpPushData4.
  repeat case_match; try done; lia.
Qed.

Lemma push_op_fits data : bytes data → len data < 2 ^ 32 → op_fits (push_op data).
Proof.
  intros Hb Hl. unfold push_op. unfold OP_SMALL_INT_MIN_VAL, OP_SMALL_INT_MAX_VAL, OP_DATA_MAX_VAL, codes.OpData75.
  repeat case_match; unfold op_fits, op_wf, is_byte; cbn [op_code op_data].
  - split; [done|]. done.
  - unfold codes.Op1. split; [split; [lia|constructor]|]. by rewrite opcode_length_small by lia.
  - done.
  - rewrite opcode_length_data by lia. split; [split; [lia|done]|]. lia.
  - split; [done|]. simpl. lia.
  - split; [done|]. simpl. lia.
  - split; [done|]. simpl. lia.
Qed.

Lemma add_raw_data_spec b data :
  len data < 2 ^ 32 → script (add_raw_data b data) = script b ++ opcode_serialize (push_op data).
Proof.
  intros Hl. unfold add_raw_data, push_op.
  unfold OP_SMALL_INT_MIN_VAL, OP_SMALL_INT_MAX_VAL, OP_DATA_MAX_VAL, OP_DATA_MIN_VAL, codes.OpData75, codes.OpData1.
  rewrite Z.geb_leb. repeat case_match; cbn [script]; unfold opcode_serialize; cbn [op_code op_data].
  - done.
  - unfold codes.Op1. by rewrite opcode_length_small by lia.
  - done.
  - rewrite opcode_length_data by lia. done.
  - simpl. by rewrite to_le_bytes_1, Z.mod_small by lia.
  - simpl. by rewrite Z.mod_small by lia.
  - simpl. by rewrite Z.mod_small by lia.
Qed.

(** The emitted opcode passes the minimality check, and running it pushes the
    element. *)
Lemma push_op_minimal data :
  bytes data → len data < 2 ^ 32 → 0 < op_code (push_op data) ≤ 0x4e →
  check_minimal_data_push (push_op data) = Ok tt.
Proof.
  intros Hb Hl. unfold push_op, check_minimal_data_push. cbv zeta.
  unfold OP_SMALL_INT_MIN_VAL, OP_SMALL_INT_MAX_VAL, OP_DATA_MAX_VAL, codes.OpData75.
  destruct (len data =? 0) eqn:E0; cbn [op_code op_data]; [unfold codes.Op0; lia|].
  destruct ((len data =? 1) && (1 <=? nth 0 data 0) && (nth 0 data 0 <=? 16)) eqn:E1;
    cbn [op_code op_data]; [unfold codes.Op1; lia|].
  destruct ((len data =? 1) && (nth 0 data 0 =? OP_1_NEGATE_VAL)) eqn:E2;
    cbn [op_code op_data]; [unfold codes.Op1Negate; lia|].
  destruct (len data <=? 75) eqn:E3; cbn [op_code op_data]; intros _; rewrite ?E0, ?E1, ?E2, ?E3.
  { by rewrite Z.eqb_refl. }
  destruct (len data <=? 255) eqn:E4; cbn [op_code op_data]; rewrite ?E0, ?E1, ?E2, ?E3, ?E4; [done|].
  destruct (len data <=? 65535) eqn:E5; cbn [op_code op_data]; rewrite ?E0, ?E1, ?E2, ?E3, ?E4; simpl.
  - by rewrite andb_false_r.
  - destruct (Z.ltb_spec (len data) 65535); [lia|done].
Qed.

Section builder.
Context {HC : Crypto} {HR : Rng}.

Lemma assoc_find_unique {K V} `{EqDecision K} (k : K) (v : V) l :
  NoDup l.*1 → (k, v) ∈ l → assoc_find k l = Some v.
Proof.
  induction l as [|[k' v'] l IH]; csimpl; [by intros _ ?%elem_of_nil|].
  intros [Hk Hl]%NoDup_cons [[= -> ->]|Hin]%elem_of_cons; [by rewrite decide_True|].
  destruct (decide (k = k')) as [->|]; [|by apply IH].
  destruct Hk. apply list_elem_of_fmap. by exists (k', v).
Qed.

Lemma opcode_execute_entry c data f :
  (c, f) ∈ opcode_table → opcode_execute (mkOpCode c data) = f data.
Proof.
  intros Hin. unfold opcode_execute. cbn [op_code op_data]. rewrite (assoc_find_unique c f); [done| |done].
  rewrite opcode_table_total. apply NoDup_seqZ.
Qed.

Lemma data_push_in_table entry : entry ∈ data_push_opcodes → entry ∈ opcode_table.
Proof. intros Hin. unfold opcode_table. apply elem_of_app. by left. Qed.

Lemma push_small n : 1 ≤ n ≤ 16 → serialize data_i64 n = Ok [n].
Proof.
  intros Hn. pose proof (forallb_range (λ n : Z, bool_decide (serialize data_i64 n = Ok [n])) 1 16 n
    ltac:(by vm_compute) ltac:(lia)) as Ha. by apply bool_decide_eq_true in Ha.
Qed.

Lemma data_push_entry n : 1 ≤ n ≤ 75 → (n, push_data) ∈ opcode_table.
Proof.
  intros Hn. apply data_push_in_table. unfold data_push_opcodes.
  apply elem_of_cons. right. apply elem_of_app. left. apply list_elem_of_fmap. exists n.
  split; [done|]. apply elem_of_seqZ. unfold codes.OpData1. lia.
Qed.
Lemma small_int_entry n : 1 ≤ n ≤ 16 → runs (codes.OpTrue + n - 1) (push_number n) ∈ opcode_table.
Proof.
  intros Hn. apply data_push_in_table. unfold data_push_opcodes.
  apply elem_of_cons. right. apply elem_of_app. right. apply elem_of_app. right.
  apply list_elem_of_fmap. exists n. split; [done|]. apply elem_of_seqZ. lia.
Qed.

Lemma singleton_of_len {A} (l : list A) : len l = 1 → ∃ a, l = [a].
Proof. destruct l as [|a [|]]; simpl; [lia|eauto|lia]. Qed.

Lemma push_op_execute data e :
  bytes data → len data < 2 ^ 32 →
  opcode_execute (push_op data) e = (set_dstack (dstack e ++ [data]) e, Ok tt).
Proof.
  intros Hb Hl. unfold push_op.
  unfold OP_SMALL_INT_MIN_VAL, OP_SMALL_INT_MAX_VAL, OP_DATA_MAX_VAL, OP_1_NEGATE_VAL, codes.OpData75.
  destruct (Z.eqb_spec (len data) 0) as [E0|E0].
  { destruct data; [done|simpl in E0; lia]. }
  destruct ((len data =? 1) && (1 <=? nth 0 data 0) && (nth 0 data 0 <=? 16)) eqn:E1.
  { destruct (singleton_of_len data ltac:(lia)) as [b ->]. change (nth 0 [b] 0) with b in E1.
    replace (codes.Op1 - 1 + nth 0 [b] 0) with (codes.OpTrue + b - 1) by (simpl; unfold codes.Op1, codes.OpTrue; lia).
    rewrite (opcode_execute_entry _ _ _ (small_int_entry b ltac:(lia))).
    unfold push_number, push_i64, on_dstack, push_item. by rewrite push_small by lia. }
  destruct ((len data =? 1) && (nth 0 data 0 =? 0x81)) eqn:E2.
  { destruct (singleton_of_len data ltac:(lia)) as [b ->]. change (nth 0 [b] 0) with b in E2.
    assert (b = 0x81) as -> by lia. done. }
  destruct (Z.leb_spec (len data) 75).
  { by rewrite (opcode_execute_entry _ _ _ (data_push_entry (len data) ltac:(lia))). }
  destruct (len data <=? 255); [done|]. by destruct (len data <=? 65535).
Qed.

Lemma push_op_is_push data : bytes data → len data < 2 ^ 32 → is_push_opcode (push_op data) = true.
Proof.
  intros Hb Hl. unfold push_op, is_push_opcode, NO_COST_OPCODE.
  unfold OP_SMALL_INT_MIN_VAL, OP_SMALL_INT_MAX_VAL, OP_DATA_MAX_VAL, codes.OpData75, codes.Op1.
  repeat case_match; cbn [op_code]; try done; lia.
Qed.

Lemma add_data_Ok b data b' :
  add_data b data = Ok b' → b' = add_raw_data b data ∧ len data ≤ MAX_SCRIPT_ELEMENT_SIZE.
Proof.
  unfold add_data. destruct (_ >? _); [done|]. destruct (len data >? MAX_SCRIPT_ELEMENT_SIZE) eqn:E; [done|].
  intros [= <-]. split; [done|lia].
Qed.

(** What the script builder adds for a data element is one opcode, a push
    that passes the engine's minimality check and that pushes exactly this
    element, after the opcodes the script had. *)
Theorem add_data_pushes b data b' ops :
  bytes (script b) → bytes data →
  parse_script (script b) = Ok <$> ops → add_data b data = Ok b' →
  ∃ op, parse_script (script b') = Ok <$> (ops ++ [op]) ∧
    is_push_opcode op = true ∧
    (0 < op_code op ≤ 0x4e → check_minimal_data_push op = Ok tt) ∧
    ∀ e, opcode_execute op e = push data e.
Proof.
  intros Hs Hd Hp [-> Hl]%add_data_Ok. unfold MAX_SCRIPT_ELEMENT_SIZE in Hl.
  destruct (parse_script_inv _ _ Hs Hp) as [Hscript Hops]. exists (push_op data). split_and!.
  - rewrite add_raw_data_spec by lia. rewrite Hscript.
    assert (Hf : Forall op_fits (ops ++ [push_op data])).
    { apply Forall_app; split; [done|]. constructor; [|constructor]. apply push_op_fits; [done|lia]. }
    destruct (parse_serialized (ops ++ [push_op data]) [] Hf ltac:(constructor)) as [_ Hq].
    rewrite !fmap_app, concat_app, !app_nil_r in Hq. csimpl in *. rewrite app_nil_r in Hq. by rewrite Hq, fmap_app.
  - apply push_op_is_push; [done|lia].
  - apply push_op_minimal; [done|lia].
  - intros e. apply push_op_execute; [done|lia].
Qed.
End builder.

(** The size test of [add_data] counts one byte for the element [[0]], for
    which [add_raw_data] emits two: a script can outgrow the maximum. *)
Lemma add_data_can_exceed_maximum :
  let b := mkScriptBuilder (replicate (Z.to_nat 16383) codes.OpNop) in
  ∃ b', add_data b [0] = Ok b' ∧ len (script b') = MAX_SCRIPTS_SIZE + 1.
Proof. vm_compute. eexists. split; reflexivity. Qed.

(** ** The static count of signature operations *)

(** [to_small_int] takes the opcodes below [Op16], its caller those up to
    [Op16]: a script that asks for sixteen keys ends in the assertion. *)
Lemma sig_op_count_upper_bound_panics :
  get_sig_op_count_upper_bound [] (mkScriptPublicKey 0 [codes.Op16; codes.OpCheckMultiSig]) = Panic.
Proof. reflexivity. Qed.

(** The count does not know [OpCheckSigMlDsa87]: for the standard output it is
    zero, though spending it uses a signature operation. *)
Lemma sig_op_count_upper_bound_misses_mldsa87 :
  get_sig_op_count_upper_bound [] (mkScriptPublicKey 0
    ([codes.OpDup; codes.OpBlake2b512; codes.OpData64] ++ replicate 64 0 ++
     [codes.OpEqualVerify; codes.OpCheckSigMlDsa87])) = Ok 0.
Proof. reflexivity. Qed.
