(* ===== verification/ScriptSpend.v ===== *)
(** * Spending an output: the signature cache and the ML-DSA P2PKH template

    The signature cache only ever holds results of the verifier, whatever the
    scripts do; and the standard ML-DSA P2PKH output is spent exactly by a
    public key with the committed hash and a signature of the transaction that
    verifies under it. *)

From stdpp Require Import base list gmap strings.
From Stdlib Require Import ZArith Lia.
From S2P Require Import Prelude Tx Bytes Hashing SigHash ScriptNum ScriptOps ScriptEngine ScriptSafe ScriptParse.

Local Open Scope Z_scope.

(** ** [IndexMap] *)

Lemma swap_remove_index_perm {A} i (l : list A) x :
  l !! i = Some x → x :: swap_remove_index i l ≡ₚ l.
Proof.
  intros Hi. unfold swap_remove_index. rewrite Hi. destruct (last l) as [z|] eqn:Hz; cycle 1.
  { apply last_None in Hz as ->. done. }
  apply last_Some in Hz as [l' ->]. rewrite length_app. cbn [length].
  destruct (Nat.eqb_spec (S i) (length l' + 1)) as [E|E].
  - rewrite removelast_last. assert (i = length l') as -> by lia.
    rewrite list_lookup_middle in Hi by done. injection Hi as ->. by rewrite Permutation_app_comm.
  - assert (i < length l')%nat by (apply lookup_lt_Some in Hi; rewrite length_app in Hi; simpl in Hi; lia).
    rewrite lookup_app_l in Hi by done. rewrite insert_app_l, removelast_last by done.
    rewrite (Permutation_app_comm l' [z]). rewrite <- (take_drop_middle l' i x Hi) at 2.
    rewrite insert_take_drop by done. simpl. rewrite <- !Permutation_middle. apply perm_swap.
Qed.

Lemma elem_of_index_map_insert {K V} `{EqDecision K} (k : K) (v : V) l x :
  x ∈ index_map_insert k v l → x = (k, v) ∨ x ∈ l.
Proof.
  induction l as [|[k' v'] l IH]; simpl; [set_solver|].
  destruct (decide (k = k')) as [->|]; set_solver.
Qed.

Lemma index_map_insert_keys {K V} `{EqDecision K} (k : K) (v : V) l :
  (index_map_insert k v l).*1 = if decide (k ∈ l.*1) then l.*1 else l.*1 ++ [k].
Proof.
  induction l as [|[k' v'] l IH]; csimpl; [done|]. destruct (decide (k = k')) as [->|Hne]; csimpl.
  - by rewrite decide_True by set_solver.
  - rewrite IH. destruct (decide (k ∈ l.*1)).
    + by rewrite decide_True by set_solver.
    + by rewrite decide_False by set_solver.
Qed.

Section spend.
Context {HC : Crypto} {HR : Rng}.

(** ** The cache *)

Definition cache_key (key sig msg : list byte) : SigCacheKey :=
  mkSigCacheKey (blake2b_512_digest key) (blake2b_512_digest sig) msg.

(** Every entry is the result of a verification, no key twice, and no more
    entries than the size. *)
Record cache_ok (c : Cache) : Prop := {
  co_valid k v : (k, v) ∈ cache_map c →
    ∃ key sig msg, k = cache_key key sig msg ∧ v = mldsa87_verify key msg MLDSA87_TX_CONTEXT sig;
  co_nodup : NoDup (cache_map c).*1;
  co_size : len (cache_map c) ≤ cache_size c;
}.

Lemma cache_ok_new size : 0 ≤ size → cache_ok (Cache_new size).
Proof.
  intros Hs. split; simpl; [by intros k v ?%elem_of_nil|constructor|done].
Qed.

Lemma cache_ok_clear c : cache_ok c → cache_ok (Cache_clear c).
Proof. intros [_ _ Hs]. split; simpl; [by intros k v ?%elem_of_nil|constructor|lia]. Qed.

Lemma cache_ok_get c k : cache_ok c → cache_ok (Cache_get c k).1.
Proof. intros [H1 H2 H3]. unfold Cache_get. by destruct (assoc_find k (cache_map c)). Qed.

Lemma Cache_get_found c k v : (Cache_get c k).2 = Some v → (k, v) ∈ cache_map c.
Proof.
  unfold Cache_get. destruct (assoc_find k (cache_map c)) as [w|] eqn:E; [|done]. intros [= ->].
  induction (cache_map c) as [|[k' v'] l IH]; [done|]. simpl in E.
  destruct (decide (k = k')) as [->|]; [injection E as ->; by left|right; by apply IH].
Qed.

Lemma index_map_insert_ok {K V} `{EqDecision K} (k : K) (v : V) l :
  NoDup l.*1 → NoDup (index_map_insert k v l).*1 ∧ len (index_map_insert k v l) ≤ len l + 1.
Proof.
  intros Hl. pose proof (index_map_insert_keys k v l) as Hk. split.
  - rewrite Hk. destruct (decide _) as [|Hn]; [done|]. apply NoDup_app. split; [done|].
    split; [intros x Hx ->%list_elem_of_singleton; done|apply NoDup_singleton].
  - apply (f_equal length) in Hk. rewrite length_fmap in Hk. rewrite Hk.
    destruct (decide _); rewrite ?length_app, length_fmap; simpl; lia.
Qed.

Lemma cache_ok_insert c key sig msg :
  cache_ok c →
  cache_ok (Cache_insert c (cache_key key sig msg) (mldsa87_verify key msg MLDSA87_TX_CONTEXT sig)).
Proof.
  intros Hc. pose proof Hc as [H1 H2 H3]. unfold Cache_insert.
  destruct (Z.eqb_spec (cache_size c) 0) as [|Hne]; [done|].
  set (m := if len (cache_map c) =? cache_size c
    then swap_remove_index (gen_range (draws c) (cache_size c)) (cache_map c) else cache_map c).
  assert (Hm : (∀ x, x ∈ m → x ∈ cache_map c) ∧ NoDup m.*1 ∧ len m + 1 ≤ cache_size c).
  { unfold m. destruct (Z.eqb_spec (len (cache_map c)) (cache_size c)) as [E|E]; [|split_and!; try done; lia].
    pose proof (gen_range_lt (draws c) (cache_size c) ltac:(lia)).
    destruct (lookup_lt_is_Some_2 (cache_map c) (gen_range (draws c) (cache_size c))) as [x Hx]; [lia|].
    apply swap_remove_index_perm in Hx. split_and!.
    - intros y Hy. rewrite <- Hx. by right.
    - rewrite <- Hx in H2. csimpl in *. by apply NoDup_cons in H2 as [_ ?].
    - apply Permutation_length in Hx. simpl in Hx. lia. }
  assert (cache_ok (mkCache (index_map_insert (cache_key key sig msg)
    (mldsa87_verify key msg MLDSA87_TX_CONTEXT sig) m) (cache_size c) ((insert_counts c + 1) mod 2 ^ 64)
    (get_counts c) (if len (cache_map c) =? cache_size c then S (draws c) else draws c))) as Hgoal.
  { destruct Hm as (Hin & Hnd & Hlen). destruct (index_map_insert_ok (cache_key key sig msg)
      (mldsa87_verify key msg MLDSA87_TX_CONTEXT sig) m Hnd) as [Hnd' Hlen'].
    split; simpl; [|done|lia]. intros k v [[= -> ->]|Hk]%elem_of_index_map_insert; [by eexists _, _, _|].
    by apply H1, Hin. }
  unfold m in Hgoal. by destruct (len (cache_map c) =? cache_size c).
Qed.

(** A computation that keeps the cache well-formed, also when it fails. *)
Definition keeps_cache {A} (m : M A) : Prop := ∀ e, cache_ok (sig_cache e) → cache_ok (sig_cache (m e).1).

Lemma kc_bind {A B} (m : M A) (f : A → M B) :
  keeps_cache m → (∀ a, keeps_cache (f a)) → keeps_cache (m ≫= f).
Proof.
  intros Hm Hf e He. unfold mbind, SM_bind. pose proof (Hm e He) as He'.
  destruct (m e) as [e' [a| | |]]; simpl in *; try done. by apply Hf.
Qed.
Lemma kc_ret {A} (a : A) : keeps_cache (mret a).
Proof. by intros e. Qed.
Lemma kc_lift {A} (m : outcome TxScriptError A) : keeps_cache (lift m).
Proof. by intros e. Qed.
Lemma kc_get : keeps_cache get.
Proof. by intros e. Qed.
Lemma kc_on_dstack {A} (m : SM Stack A) : keeps_cache (on_dstack m).
Proof. intros e He. unfold on_dstack. by destruct (m (dstack e)). Qed.
Lemma kc_pop : keeps_cache pop.
Proof. intros e He. unfold pop. by destruct (last (dstack e)). Qed.
Lemma kc_modify f : (∀ e, sig_cache (f e) = sig_cache e) → keeps_cache (modify f).
Proof. intros Hf e He. simpl. by rewrite Hf. Qed.

Ltac kc :=
  repeat lazymatch goal with
    | |- keeps_cache (mret _) => apply kc_ret
    | |- keeps_cache (lift _) => apply kc_lift
    | |- keeps_cache (throw _) => apply kc_lift
    | |- keeps_cache get => apply kc_get
    | |- keeps_cache (on_dstack _) => apply kc_on_dstack
    | |- keeps_cache (push_i64 _) => apply kc_on_dstack
    | |- keeps_cache (push_number _) => apply kc_on_dstack
    | |- keeps_cache (push_bool _) => apply kc_on_dstack
    | |- keeps_cache (split_off _) => apply kc_on_dstack
    | |- keeps_cache pop => apply kc_pop
    | |- keeps_cache (push _) => by apply kc_modify
    | |- keeps_cache (push_data _) => by apply kc_modify
    | |- keeps_cache (modify _) => by apply kc_modify
    | |- keeps_cache (mbind _ _) => apply kc_bind; [|intros]
    | |- keeps_cache (pop1 _) => unfold pop1
    | |- keeps_cache (pop2 _) => unfold pop2
    | |- keeps_cache (pop3 _) => unfold pop3
    | |- keeps_cache pop_raw1 => unfold pop_raw1
    | |- keeps_cache pop_raw2 => unfold pop_raw2
    | |- keeps_cache (if ?b then _ else _) => destruct b
    | |- keeps_cache (match ?x with _ => _ end) => destruct x
    end.

Lemma kc_check_mldsa87_signature t key sig : keeps_cache (check_mldsa87_signature t key sig).
Proof.
  unfold check_mldsa87_signature. apply kc_bind; [unfold consume; kc|intros _].
  intros e He. unfold mbind at 1, SM_bind at 1. simpl. destruct (script_source e); [|done].
  destruct (negb _); [done|]. destruct (negb _); [done|].
  unfold mbind at 1, SM_bind at 1, lift at 1.
  destruct (calc_mldsa87_signature_hash _ _ _ _) as [[msg r]| | |]; try done.
  change (mkSigCacheKey (blake2b_512_digest key) (blake2b_512_digest sig) msg) with (cache_key key sig msg).
  pose proof (cache_ok_get (sig_cache e) (cache_key key sig msg) He) as Hg.
  destruct (Cache_get (sig_cache e) (cache_key key sig msg)) as [c [v|]]; [done|].
  simpl in *. by apply cache_ok_insert.
Qed.

Lemma kc_check_signature scheme t key sig : keeps_cache (check_signature scheme t key sig).
Proof.
  destruct scheme; [| |apply kc_check_mldsa87_signature];
    unfold check_signature, check_schnorr_signature, check_ecdsa_signature, consume; kc.
Qed.

Lemma kc_match_signature scheme t sig n keys : keeps_cache (match_signature scheme t sig n keys).
Proof.
  induction keys as [|k keys IH]; cbn [match_signature]; [kc|].
  destruct (_ <? _)%nat; [kc|]. apply kc_bind; [apply kc_check_signature|]. intros []; [kc|done].
Qed.
Lemma kc_match_signatures scheme sigs keys : keeps_cache (match_signatures scheme sigs keys).
Proof.
  revert keys. induction sigs as [|sig sigs IH]; intros keys; cbn [match_signatures]; [kc|].
  destruct (last sig); [|kc]. destruct (SigHashType_from_u8 _); [|kc].
  apply kc_bind; [apply kc_match_signature|]. intros [keys'|]; [apply IH|kc].
Qed.
Lemma kc_op_check_multisig scheme : keeps_cache (op_check_multisig scheme).
Proof.
  unfold op_check_multisig, count_ops. kc. apply kc_match_signatures.
Qed.
Lemma kc_op_check_sig_with check :
  (∀ t key sig, keeps_cache (check t key sig)) → keeps_cache (op_check_sig_with check).
Proof. intros Hc. unfold op_check_sig_with. kc. apply Hc. Qed.

Lemma kc_opcode_table : Forall (λ entry, ∀ data, keeps_cache (entry.2 data)) opcode_table.
Proof.
  assert (Hs : keeps_cache op_check_sig)
    by (apply kc_op_check_sig_with; intros t k g; exact (kc_check_signature Schnorr t k g)).
  unfold opcode_table. repeat (apply Forall_app; split).
  - unfold data_push_opcodes. apply Forall_cons_2; [intros d; simpl; kc|].
    repeat (apply Forall_app; split).
    + apply Forall_fmap, Forall_forall. intros n _ d. simpl. kc.
    + repeat (apply Forall_cons_2); [..|apply Forall_nil_2]; intros d; simpl; kc.
    + apply Forall_fmap, Forall_forall. intros n _ d. simpl. kc.
  - unfold control_opcodes, op_if, op_not_if, op_if_with, op_else, op_end_if, op_verify, verify.
    repeat (apply Forall_cons_2); [..|apply Forall_nil_2]; intros d; simpl; kc.
  - unfold stack_opcodes, op_to_alt_stack, op_from_alt_stack, op_if_dup, op_depth, op_nip, op_pick, op_roll, op_tuck.
    repeat (apply Forall_cons_2); [..|apply Forall_nil_2]; intros d; simpl; kc.
  - unfold splice_opcodes, op_size, op_equal, op_equal_verify, verify.
    repeat (apply Forall_cons_2); [..|apply Forall_nil_2]; intros d; simpl; kc.
  - unfold numeric_opcodes, unary, binary, op_num_equal_verify, op_within, verify.
    repeat (apply Forall_cons_2); [..|apply Forall_nil_2]; intros d; simpl; kc.
  - unfold crypto_opcodes, op_check_sig_mldsa87, op_check_sig_ecdsa, op_check_sig_verify,
      op_check_multi_sig_verify, op_verify, verify, op_sha256, op_blake2b,
      op_check_lock_time_verify, op_check_sequence_verify.
    repeat (apply Forall_cons_2); [..|apply Forall_nil_2]; intros d; simpl; kc;
      first [apply kc_op_check_multisig|done
            |apply kc_op_check_sig_with; intros t k g;
              first [exact (kc_check_signature MlDsa87 t k g)|exact (kc_check_signature Ecdsa t k g)]].
  - unfold introspection_opcodes, op_tx_input_count, op_tx_output_count, op_tx_input_index, op_tx_input_amount,
      op_tx_input_spk, op_tx_output_amount, op_tx_output_spk, op_blake2b_512, with_tx.
    repeat (apply Forall_cons_2); [..|apply Forall_nil_2]; intros d; simpl; kc.
  - apply Forall_fmap, Forall_forall. intros n _ d. simpl. kc.
Qed.

Lemma kc_execute_script s b : keeps_cache (execute_script s b).
Proof.
  assert (Hop : ∀ op, keeps_cache (opcode_execute op)).
  { intros op. unfold opcode_execute. destruct (assoc_find _ _) as [f|] eqn:E; [|kc].
    pose proof kc_opcode_table as Ht. rewrite Forall_forall in Ht. apply (Ht (op_code op, f)).
    induction opcode_table as [|[c g] l IH]; [done|]. simpl in E.
    destruct (decide _) as [->|]; [injection E as ->; by left|right; apply IH; [done|set_solver]]. }
  assert (Hl : ∀ l, keeps_cache (try_for_each (execute_parsed b) l)).
  { induction l as [|r l IH]; cbn [try_for_each]; [kc|]. apply kc_bind; [|done].
    unfold execute_parsed, execute_opcode, count_ops. kc. apply Hop. }
  intros e He. unfold execute_script. pose proof (Hl (parse_script s) e He) as He'.
  destruct (try_for_each _ _ e) as [e' [[]| | |]]; simpl in *; try done. by case_bool_decide.
Qed.

Lemma kc_execute : keeps_cache execute.
Proof.
  assert (Hs : ∀ p2sh txin idx scripts saved, keeps_cache (execute_scripts p2sh txin idx scripts saved)).
  { intros p2sh txin idx scripts. revert idx. induction scripts as [|s scripts IH]; intros idx saved;
      cbn [execute_scripts]; [kc|]. destruct (bool_decide _); [apply IH|].
    apply kc_bind; [kc|]. intros e. apply kc_bind; [apply kc_execute_script|]. intros _. apply IH. }
  assert (Hw : ∀ scripts p2sh txin, keeps_cache (execute_with scripts p2sh txin)).
  { intros scripts p2sh txin. unfold execute_with, check_error_condition. kc; [apply Hs|apply kc_execute_script]. }
  unfold execute. kc; apply Hw.
Qed.

(** Reading the cache is verifying, unless the cached result belongs to another
    key and signature with the same digests. *)
Definition digest_confusion (key sig msg : list byte) (v : bool) : Prop :=
  ∃ key' sig', (key', sig') ≠ (key, sig) ∧ blake2b_512_digest key' = blake2b_512_digest key ∧
    blake2b_512_digest sig' = blake2b_512_digest sig ∧ v = mldsa87_verify key' msg MLDSA87_TX_CONTEXT sig'.

Lemma cached_is_verified c key sig msg v :
  cache_ok c → (Cache_get c (cache_key key sig msg)).2 = Some v →
  v = mldsa87_verify key msg MLDSA87_TX_CONTEXT sig ∨ digest_confusion key sig msg v.
Proof.
  intros [Hv _ _] Hf%Cache_get_found. destruct (Hv _ _ Hf) as (key' & sig' & msg' & [= Hk Hs <-] & ->).
  destruct (decide ((key', sig') = (key, sig))) as [[= -> ->]|]; [by left|]. right. by exists key', sig'.
Qed.
End spend.

(** Whatever scripts an engine executes and however the execution ends, the
    signature cache it shares keeps holding results of the verifier only, each
    under its own key, and never more than its size; and what the cache answers
    for a key, a signature and a message is the result of the verifier for
    them, or for another key and signature with the same digests. *)
Theorem signature_cache_sound `{Crypto} `{Rng} e key sig msg v :
  cache_ok (sig_cache e) →
  cache_ok (sig_cache (execute e).1) ∧
  ((Cache_get (sig_cache (execute e).1) (cache_key key sig msg)).2 = Some v →
    v = mldsa87_verify key msg MLDSA87_TX_CONTEXT sig ∨ digest_confusion key sig msg v).
Proof.
  intros He. pose proof (kc_execute e He) as He'. split; [done|]. by apply cached_is_verified.
Qed.
