(* ===== verification/Address.v ===== *)
(** * Addresses

    Models [src/crypto/addresses/src/lib.rs] and
    [src/crypto/addresses/src/bech32.rs]: address prefixes and versions, the
    regrouping of bits, the checksum and the textual form. Strings are their
    bytes; the prefixes of test builds are left out. *)

From stdpp Require Import base list gmap strings.
From Stdlib Require Import ZArith Lia.
From S2P Require Import Prelude Tx Bytes Hashing.

Local Open Scope Z_scope.

Inductive AddressError :=
| InvalidPrefix (p : list byte)
| MissingPrefix
| InvalidVersion (v : Z)
| InvalidVersionString
| DecodingError (c : Z)
| BadChecksumSize
| BadChecksum
| BadPayload
| InvalidAddress
| InvalidAddressArray
| WASM.

Inductive Prefix := Mainnet | Testnet | Simnet | Devnet.
#[export] Instance Prefix_eq_dec : EqDecision Prefix.
Proof. solve_decision. Defined.

Definition as_str (p : Prefix) : list byte :=
  match p with
  | Mainnet => b_ "misaka"
  | Testnet => b_ "misakatest"
  | Simnet => b_ "misakasim"
  | Devnet => b_ "misakadev"
  end.

Definition Prefix_try_from (prefix : list byte) : outcome AddressError Prefix :=
  if decide (prefix = b_ "misaka") then Ok Mainnet
  else if decide (prefix = b_ "misakatest") then Ok Testnet
  else if decide (prefix = b_ "misakasim") then Ok Simnet
  else if decide (prefix = b_ "misakadev") then Ok Devnet
  else Err (InvalidPrefix prefix).

Inductive Version := VPubKey | VPubKeyECDSA | VPubKeyHashMlDsa87 | VScriptHash.
#[export] Instance Version_eq_dec : EqDecision Version.
Proof. solve_decision. Defined.

(** [version as u8] and [Version::try_from(u8)]. *)
Definition version_u8 (v : Version) : Z :=
  match v with VPubKey => 0 | VPubKeyECDSA => 1 | VPubKeyHashMlDsa87 => 2 | VScriptHash => 8 end.
Definition Version_try_from (value : Z) : outcome AddressError Version :=
  if value =? 0 then Ok VPubKey
  else if value =? 1 then Ok VPubKeyECDSA
  else if value =? 2 then Ok VPubKeyHashMlDsa87
  else if value =? 8 then Ok VScriptHash
  else Err (InvalidVersion value).

Definition public_key_len (v : Version) : nat :=
  match v with VPubKey => 32 | VPubKeyECDSA => 33 | VPubKeyHashMlDsa87 => 64 | VScriptHash => 32 end.

Record Address := mkAddress {
  addr_prefix : Prefix;
  addr_version : Version;
  addr_payload : list byte;
}.
#[export] Instance Address_eq_dec : EqDecision Address.
Proof. solve_decision. Defined.

(** [Address::new] asserts the payload length, [try_new] reports it. *)
Definition Address_new {E} (prefix : Prefix) (version : Version) (payload : list byte) : outcome E Address :=
  _ ← assert_ (length payload =? public_key_len version)%nat;
  Ok (mkAddress prefix version payload).
Definition try_new (prefix : Prefix) (version : Version) (payload : list byte) :
    outcome AddressError Address :=
  if negb (public_key_len version =? length payload)%nat then Err BadPayload
  else Ok (mkAddress prefix version payload).

(** ** The checksum *)

Definition CHARSET : list byte := b_ "qpzry9x8gf2tvdw0s3jn54khce6mua7l".
Definition REV_CHARSET : list byte :=
  [100; 100; 100; 100; 100; 100; 100; 100; 100; 100; 100; 100; 100; 100; 100; 100; 100; 100; 100; 100; 100; 100; 100; 100; 100; 100;
   100; 100; 100; 100; 100; 100; 100; 100; 100; 100; 100; 100; 100; 100; 100; 100; 100; 100; 100; 100; 100; 100; 15; 100; 10; 17; 21;
   20; 26; 30; 7; 5; 100; 100; 100; 100; 100; 100; 100; 100; 100; 100; 100; 100; 100; 100; 100; 100; 100; 100; 100; 100; 100; 100;
   100; 100; 100; 100; 100; 100; 100; 100; 100; 100; 100; 100; 100; 100; 100; 100; 100; 29; 100; 24; 13; 25; 9; 8; 23; 100; 18; 22;
   31; 27; 19; 100; 1; 0; 3; 16; 11; 28; 12; 14; 6; 4; 2].

(** One step of [polymod], on 40-bit states. *)
Definition polymod_step (c d : Z) : Z :=
  let c0 := Z.shiftr c 35 in
  let c := Z.lxor (Z.shiftl (Z.land c 0x07ffffffff) 5) d in
  let c := if negb (Z.land c0 0x01 =? 0) then Z.lxor c 0x98f2bc8e61 else c in
  let c := if negb (Z.land c0 0x02 =? 0) then Z.lxor c 0x79b76d99e2 else c in
  let c := if negb (Z.land c0 0x04 =? 0) then Z.lxor c 0xf33e5fb3c4 else c in
  let c := if negb (Z.land c0 0x08 =? 0) then Z.lxor c 0xae2eabe2a8 else c in
  if negb (Z.land c0 0x10 =? 0) then Z.lxor c 0x1e4f43e470 else c.
Definition polymod (values : list Z) : Z := Z.lxor (foldl polymod_step 1 values) 1.

Definition checksum (payload prefix : list Z) : Z :=
  polymod (prefix ++ [0] ++ payload ++ replicate 8 0).

(** ** Regrouping bits *)

(** The loop state of [conv8to5] and [conv5to8]. *)
Record Conv := mkConv { c_out : list Z; c_idx : nat; c_buff : Z; c_bits : Z }.

(** [vec[i] = v]. *)
Definition vec_set {E} (i : nat) (v : Z) (l : list Z) : outcome E (list Z) :=
  if (i <? length l)%nat then Ok (<[i := v]> l) else Panic.

(** [while bits >= w]: the buffer holds fewer than 16 bits, so a few rounds
    empty it. *)
Fixpoint conv_emit {E} (fuel : nat) (w : Z) (c : Conv) : outcome E Conv :=
  match fuel with
  | O => OutOfFuel
  | S fuel =>
      if c_bits c >=? w then
        let bits := c_bits c - w in
        out ← vec_set (c_idx c) (Z.land (Z.shiftr (c_buff c) bits) 0xff) (c_out c);
        conv_emit fuel w (mkConv out (S (c_idx c)) (Z.land (c_buff c) (Z.shiftl 1 bits - 1)) bits)
      else Ok c
  end.

(** The body of the [for] loop: take a digit of [v] bits in, emit digits of
    [w] bits. *)
Definition conv_step {E} (v w : Z) (c : Conv) (d : Z) : outcome E Conv :=
  conv_emit 4 w (mkConv (c_out c) (c_idx c)
    (Z.lor (Z.land (Z.shiftl (c_buff c) v) 0xffff) d) (c_bits c + v)).

Definition conv8to5 {E} (payload : list Z) : outcome E (list Z) :=
  let padding := if (length payload mod 5 =? 0)%nat then 0%nat else 1%nat in
  let five_bit := replicate (length payload * 8 / 5 + padding) 0 in
  c ← for_each (conv_step 8 5) payload (mkConv five_bit 0 0 0);
  if c_bits c >? 0
  then vec_set (c_idx c) (Z.land (Z.land (Z.shiftl (c_buff c) (5 - c_bits c)) 0xffff) 0xff) (c_out c)
  else Ok (c_out c).

Definition conv5to8 {E} (payload : list Z) : outcome E (list Z) :=
  let eight_bit := replicate (length payload * 5 / 8) 0 in
  c ← for_each (conv_step 5 8) payload (mkConv eight_bit 0 0 0);
  Ok (c_out c).

(** ** The textual form *)

(** [to_be_bytes] of a [u64], and [from_be_bytes]. *)
Definition to_be_bytes (z : Z) : list byte := rev (to_le_bytes 8 z).
Definition from_be_bytes (l : list byte) : Z := le_val (rev l).

Definition fivebit_prefix (p : Prefix) : list Z := (λ c, Z.land c 0x1f) <$> as_str p.

(** [CHARSET[c]]. *)
Fixpoint to_charset {E} (l : list Z) : outcome E (list byte) :=
  match l with
  | [] => Ok []
  | c :: l => ch ← unwrap (CHARSET !! Z.to_nat c); rest ← to_charset l; Ok (ch :: rest)
  end.

Definition encode_payload {E} (a : Address) : outcome E (list byte) :=
  fivebit_payload ← conv8to5 (version_u8 (addr_version a) :: addr_payload a);
  let sum := checksum fivebit_payload (fivebit_prefix (addr_prefix a)) in
  sum5 ← conv8to5 (drop 3 (to_be_bytes sum));
  to_charset (fivebit_payload ++ sum5).

(** The [scan] over the letters, with the error it leaves behind. *)
Fixpoint from_charset (address : list byte) : outcome AddressError (list Z) :=
  match address with
  | [] => Ok []
  | b :: address =>
      let i := default 100 (REV_CHARSET !! Z.to_nat b) in
      if i =? 100 then Err (DecodingError b)
      else rest ← from_charset address; Ok (i :: rest)
  end.

Definition decode_payload (prefix : Prefix) (address : list byte) : outcome AddressError Address :=
  address_u5 ← from_charset address;
  if (length address <? 8)%nat then Err BadPayload
  else
    let payload_u5 := take (length address - 8) address_u5 in
    let checksum_u5 := drop (length address - 8) address_u5 in
    sum8 ← conv5to8 checksum_u5;
    let full := replicate 3 0 ++ sum8 in
    if negb (length full =? 8)%nat then Err BadChecksumSize
    else if negb (checksum payload_u5 (fivebit_prefix prefix) =? from_be_bytes full) then Err BadChecksum
    else
      payload_u8 ← conv5to8 payload_u5;
      version_byte ← ok_or (head payload_u8) BadPayload;
      version ← Version_try_from version_byte;
      try_new prefix version (tail payload_u8).

Definition address_to_string {E} (a : Address) : outcome E (list byte) :=
  payload ← encode_payload a; Ok (as_str (addr_prefix a) ++ b_ ":" ++ payload).

(** [split_once(':')]. *)
Fixpoint split_once (sep : byte) (l : list byte) : option (list byte * list byte) :=
  match l with
  | [] => None
  | c :: l =>
      if c =? sep then Some ([], l)
      else match split_once sep l with Some (a, b) => Some (c :: a, b) | None => None end
  end.

Definition Address_try_from (value : list byte) : outcome AddressError Address :=
  match split_once 0x3a value with
  | Some (prefix, payload) => p ← Prefix_try_from prefix; decode_payload p payload
  | None => Err MissingPrefix
  end.
