(* ===== verification/AddressThms.v ===== *)
(** * Addresses: round trip and error detection

    The textual form of an address decodes to the address, and a change of one
    character of the body of a valid address is always refused. *)

From stdpp Require Import base list gmap strings.
From Stdlib Require Import ZArith Lia.
From S2P Require Import Prelude Tx Bytes Hashing Address.

Local Open Scope Z_scope.

(** ** Big-endian values of digit strings *)

Definition digits_ok (w : Z) (l : list Z) : Prop := Forall (λ d, 0 ≤ d < 2 ^ w) l.
Definition be_val (w : Z) (l : list Z) : Z := foldl (λ acc d, acc * 2 ^ w + d) 0 l.

Lemma be_val_snoc w l d : be_val w (l ++ [d]) = be_val w l * 2 ^ w + d.
Proof. unfold be_val. by rewrite foldl_app. Qed.

Lemma be_val_bound w l : 0 ≤ w → digits_ok w l → 0 ≤ be_val w l < 2 ^ (w * len l).
Proof.
  intros Hw. induction l as [|d l IH] using rev_ind; [rewrite Z.mul_0_r; unfold be_val; simpl; lia|].
  intros [Hl Hd]%Forall_app. rewrite Forall_singleton in Hd. specialize (IH Hl).
  rewrite be_val_snoc, length_app, Nat2Z.inj_add, Z.mul_add_distr_l, Z.pow_add_r by lia.
  simpl (len [d]). rewrite Z.mul_1_r. nia.
Qed.

Lemma be_val_inj w l1 l2 :
  0 < w → digits_ok w l1 → digits_ok w l2 → length l1 = length l2 → be_val w l1 = be_val w l2 → l1 = l2.
Proof.
  intros Hw. revert l2. induction l1 as [|d1 l1 IH] using rev_ind; intros l2.
  { intros _ _ Hlen _. by destruct l2. }
  destruct l2 as [|d2 l2 _] using rev_ind; [rewrite length_app; simpl; lia|].
  intros [H1 Hd1]%Forall_app [H2 Hd2]%Forall_app. rewrite Forall_singleton in Hd1, Hd2.
  rewrite !length_app, !be_val_snoc. simpl. intros Hlen Heq.
  assert (2 ^ w > 0) by (pose proof (Z.pow_pos_nonneg 2 w); lia).
  assert (be_val w l1 = be_val w l2) by nia. assert (d1 = d2) as -> by nia.
  f_equal. apply IH; [done..|lia|done].
Qed.

(** ** Regrouping *)

Lemma lor_shiftl_add a v d : 0 ≤ a → 0 ≤ v → 0 ≤ d < 2 ^ v → Z.lor (Z.shiftl a v) d = a * 2 ^ v + d.
Proof.
  intros Ha Hv Hd. rewrite <- Z.shiftl_mul_pow2 by done.
  assert (Z.land (Z.shiftl a v) d = 0) as Hl.
  { apply Z.bits_inj'. intros n Hn. rewrite Z.land_spec, Z.bits_0.
    destruct (Z.lt_ge_cases n v); [by rewrite Z.shiftl_spec_low|].
    destruct (Z.eq_dec d 0) as [->|]; [by rewrite Z.bits_0, andb_false_r|].
    rewrite (Z.bits_above_log2 d n), andb_false_r; [done|lia|].
    apply Z.log2_lt_pow2; [lia|]. eapply Z.lt_le_trans; [apply Hd|]. apply Z.pow_le_mono_r; lia. }
  pose proof (Z.add_lor_land (Z.shiftl a v) d). lia.
Qed.

Lemma take_insert_S i (x : Z) l : (i < length l)%nat → take (S i) (<[i:=x]> l) = take i l ++ [x].
Proof.
  intros Hi. rewrite (take_S_r _ i x) by (by rewrite list_lookup_insert_eq).
  by rewrite take_insert_ge by lia.
Qed.

(** The value of what was emitted and of what is buffered. *)
Definition conv_val (w : Z) (c : Conv) : Z :=
  be_val w (take (c_idx c) (c_out c)) * 2 ^ c_bits c + c_buff c.

Record conv_ok (w : Z) (c : Conv) : Prop := {
  cv_bits : 0 ≤ c_bits c;
  cv_buff : 0 ≤ c_buff c < 2 ^ c_bits c;
  cv_idx : (c_idx c ≤ length (c_out c))%nat;
  cv_digits : digits_ok w (take (c_idx c) (c_out c));
}.

Lemma conv_emit_spec {E} fuel w c :
  0 < w ≤ 8 → conv_ok w c → c_bits c < w * Z.of_nat fuel →
  Z.of_nat (c_idx c) * w + c_bits c < (len (c_out c) + 1) * w →
  ∃ c', @conv_emit E fuel w c = Ok c' ∧ conv_ok w c' ∧ c_bits c' < w ∧
    length (c_out c') = length (c_out c) ∧ conv_val w c' = conv_val w c ∧
    Z.of_nat (c_idx c') * w + c_bits c' = Z.of_nat (c_idx c) * w + c_bits c.
Proof.
  intros Hw. revert c. induction fuel as [|fuel IH]; intros c Hc Hf Hcap; [pose proof (cv_bits _ _ Hc); lia|].
  cbn [conv_emit]. destruct (Z.geb_spec (c_bits c) w) as [Hge|Hlt].
  2:{ exists c. split_and!; try done. }
  destruct c as [out idx buff bits]. destruct Hc as [Hb Hbuf Hi Hd]. simpl in *.
  set (bits' := bits - w). assert (Hbw : bits = bits' + w) by lia.
  assert (Hidx : (idx < length out)%nat) by nia.
  assert (H2 : 2 ^ bits = 2 ^ bits' * 2 ^ w) by (rewrite <- Z.pow_add_r by lia; f_equal; lia).
  assert (Hp : 0 < 2 ^ bits') by (apply Z.pow_pos_nonneg; lia).
  assert (Hdig : 0 ≤ buff / 2 ^ bits' < 2 ^ w).
  { split; [apply Z.div_pos; lia|]. apply Z.div_lt_upper_bound; lia. }
  assert (H8 : 2 ^ w ≤ 2 ^ 8) by (apply Z.pow_le_mono_r; lia).
  rewrite Z.shiftr_div_pow2 by lia. rewrite land_ff, Z.mod_small by lia.
  assert (Hm : Z.land buff (Z.shiftl 1 bits' - 1) = buff mod 2 ^ bits').
  { rewrite Z.shiftl_1_l, Z.sub_1_r, <- Z.ones_equiv. by rewrite Z.land_ones by lia. }
  rewrite Hm. unfold vec_set. destruct (Nat.ltb_spec idx (length out)); [|lia]. simpl.
  destruct (IH (mkConv (<[idx:=buff / 2 ^ bits']> out) (S idx) (buff mod 2 ^ bits') bits'))
    as (c' & -> & Hok & Hlt & Hlen & Hval & Hpos); simpl.
  - split; simpl; [lia|apply Z.mod_pos_bound; lia|rewrite length_insert; lia|].
    rewrite take_insert_S by done. apply Forall_app; split; [done|by apply Forall_singleton].
  - lia.
  - rewrite length_insert. lia.
  - exists c'. simpl in *. rewrite length_insert in Hlen. split_and!; try done; [|lia].
    rewrite Hval. unfold conv_val. simpl. rewrite take_insert_S, be_val_snoc, H2 by done.
    pose proof (Z.div_mod buff (2 ^ bits')). nia.
Qed.

Lemma conv_step_spec {E} v w c d :
  0 < w ≤ 8 → 0 < v ≤ 8 → conv_ok w c → c_bits c < w → 0 ≤ d < 2 ^ v → v + w ≤ 13 → v < 2 * w →
  Z.of_nat (c_idx c) * w + c_bits c + v < (len (c_out c) + 1) * w →
  ∃ c', @conv_step E v w c d = Ok c' ∧ conv_ok w c' ∧ c_bits c' < w ∧
    length (c_out c') = length (c_out c) ∧ conv_val w c' = conv_val w c * 2 ^ v + d ∧
    Z.of_nat (c_idx c') * w + c_bits c' = Z.of_nat (c_idx c) * w + c_bits c + v.
Proof.
  intros Hw Hv Hc Hb Hd Hvw Hv2 Hcap. destruct c as [out idx buff bits].
  destruct Hc as [Hb0 Hbuf Hi Hdg]. simpl in *. unfold conv_step. cbn [c_out c_idx c_buff c_bits].
  assert (Hbv : 2 ^ (bits + v) = 2 ^ bits * 2 ^ v) by (apply Z.pow_add_r; lia).
  assert (Hpv : 0 < 2 ^ v) by (apply Z.pow_pos_nonneg; lia).
  assert (H16 : 2 ^ (bits + v) ≤ 2 ^ 16) by (apply Z.pow_le_mono_r; lia).
  assert (Hsh : Z.land (Z.shiftl buff v) 0xffff = Z.shiftl buff v).
  { change 0xffff with (Z.ones 16). rewrite Z.land_ones, Z.shiftl_mul_pow2 by lia. apply Z.mod_small. nia. }
  rewrite Hsh, lor_shiftl_add by lia.
  destruct (@conv_emit_spec E 4 w (mkConv out idx (buff * 2 ^ v + d) (bits + v))) as (c' & -> & Hok & Hlt & Hlen & Hval & Hpos);
    simpl; [done| |lia|lia|].
  - split; simpl; [lia|nia|done|done].
  - exists c'. simpl in *. split_and!; try done; [|lia]. rewrite Hval. unfold conv_val. simpl. nia.
Qed.

Lemma be_val_cons w d l : 0 ≤ w → be_val w (d :: l) = d * 2 ^ (w * len l) + be_val w l.
Proof.
  intros Hw. induction l as [|x l IH] using rev_ind; [unfold be_val; simpl; rewrite Z.mul_0_r; lia|].
  change (d :: l ++ [x]) with ((d :: l) ++ [x]). rewrite !be_val_snoc, IH, length_app.
  rewrite Nat2Z.inj_add, Z.mul_add_distr_l, Z.pow_add_r by lia. simpl (len [x]). rewrite Z.mul_1_r. ring.
Qed.

Lemma conv_loop_spec {E} v w l c :
  0 < w ≤ 8 → 0 < v ≤ 8 → v + w ≤ 13 → v < 2 * w → digits_ok v l →
  conv_ok w c → c_bits c < w →
  Z.of_nat (c_idx c) * w + c_bits c + v * len l < (len (c_out c) + 1) * w →
  ∃ c', for_each (@conv_step E v w) l c = Ok c' ∧ conv_ok w c' ∧ c_bits c' < w ∧
    length (c_out c') = length (c_out c) ∧
    conv_val w c' = conv_val w c * 2 ^ (v * len l) + be_val v l ∧
    Z.of_nat (c_idx c') * w + c_bits c' = Z.of_nat (c_idx c) * w + c_bits c + v * len l.
Proof.
  intros Hw Hv Hvw Hv2 Hl. revert c. induction Hl as [|d l Hd Hl IH]; intros c Hc Hb Hcap.
  { exists c. cbn [for_each length]. rewrite Z.mul_0_r, Z.pow_0_r, Z.mul_1_r. unfold be_val. simpl.
    split_and!; try done; lia. }
  cbn [for_each]. cbn [length] in Hcap. rewrite Nat2Z.inj_succ in Hcap.
  destruct (@conv_step_spec E v w c d) as (c1 & -> & Hc1 & Hb1 & Hl1 & Hv1 & Hp1); try done; [nia|].
  cbn [mbind outcome_bind]. destruct (IH c1) as (c2 & -> & Hc2 & Hb2 & Hl2 & Hv2' & Hp2); [done|done|nia|].
  exists c2. cbn [length]. rewrite Nat2Z.inj_succ. split_and!; [done|done|done|lia| |nia].
  rewrite Hv2', Hv1, be_val_cons by lia.
  replace (v * Z.succ (len l)) with (v + v * len l) by lia. rewrite Z.pow_add_r by lia. ring.
Qed.

Lemma conv_ok_init w n : 0 < w → conv_ok w (mkConv (replicate n 0) 0 0 0).
Proof. intros Hw. split; simpl; try lia. by constructor. Qed.

Lemma conv_val_init w n : conv_val w (mkConv (replicate n 0) 0 0 0) = 0.
Proof. done. Qed.

(** [conv8to5] produces the least number of five-bit digits, padded with zero
    bits at the right. *)
Lemma conv8to5_spec {E} l :
  digits_ok 8 l →
  ∃ five pad, @conv8to5 E l = Ok five ∧ digits_ok 5 five ∧ 0 ≤ pad < 5 ∧
    5 * len five = 8 * len l + pad ∧ be_val 5 five = be_val 8 l * 2 ^ pad.
Proof.
  intros Hl. unfold conv8to5.
  set (padding := if (length l mod 5 =? 0)%nat then 0%nat else 1%nat).
  set (n := (length l * 8 / 5 + padding)%nat).
  assert (Hn : 8 * len l ≤ 5 * Z.of_nat n < 8 * len l + 5).
  { unfold n, padding. destruct (Nat.eqb_spec (length l mod 5) 0);
      pose proof (Nat.div_mod (length l) 5); pose proof (Nat.div_mod (length l * 8) 5);
      pose proof (Nat.mod_upper_bound (length l * 8) 5); pose proof (Nat.mod_upper_bound (length l) 5); lia. }
  destruct (@conv_loop_spec E 8 5 l (mkConv (replicate n 0) 0 0 0)) as (c & -> & Hc & Hb & Hlen & Hval & Hpos);
    [lia..|done|by apply conv_ok_init|simpl; lia|simpl; rewrite length_replicate; lia|].
  simpl in Hlen, Hpos. rewrite length_replicate in Hlen. cbn [mbind outcome_bind].
  rewrite conv_val_init, Z.mul_0_l, Z.add_0_l in Hval.
  destruct c as [out idx buff bits]. destruct Hc as [Hb0 Hbuf Hi Hd]. simpl in *.
  unfold conv_val in Hval. simpl in Hval.
  destruct (Z.gtb_spec bits 0) as [Hgt|Hle].
  - assert (idx = n - 1)%nat as -> by lia. unfold vec_set.
    destruct (Nat.ltb_spec (n - 1) (length out)); [|lia].
    assert (Hpow : 2 ^ 5 = 2 ^ bits * 2 ^ (5 - bits)) by (rewrite <- Z.pow_add_r by lia; f_equal; lia).
    assert (0 < 2 ^ (5 - bits)) by (apply Z.pow_pos_nonneg; lia).
    assert (Hv5 : 0 ≤ buff * 2 ^ (5 - bits) < 2 ^ 5) by nia.
    rewrite Z.shiftl_mul_pow2 by lia. change 0xffff with (Z.ones 16).
    rewrite Z.land_ones, (Z.mod_small _ (2 ^ 16)), land_ff, Z.mod_small by lia.
    eexists _, (5 - bits). split; [done|].
    assert (Hout : <[(n - 1)%nat:=buff * 2 ^ (5 - bits)]> out = take (n - 1) out ++ [buff * 2 ^ (5 - bits)]).
    { rewrite <- take_insert_S by lia. rewrite take_ge; [done|]. rewrite length_insert. lia. }
    rewrite Hout. rewrite length_app, length_take. simpl (length [_]). split_and!; try lia.
    + apply Forall_app; split; [done|by apply Forall_singleton].
    + rewrite be_val_snoc, Hpow. rewrite <- Hval. ring.
  - assert (bits = 0) as -> by lia. assert (buff = 0) as -> by (change (2 ^ 0) with 1 in *; lia).
    assert (idx = n) as -> by lia. rewrite take_ge in Hd, Hval by lia.
    exists out, (5 * Z.of_nat n - 8 * len l). split_and!; try done; try lia.
    change (2 ^ 0) with 1 in Hval. replace (5 * Z.of_nat n - 8 * len l) with 0 by lia. lia.
Qed.

(** [conv5to8] keeps the whole bytes and drops the bits that are left. *)
Lemma conv5to8_spec {E} l :
  digits_ok 5 l →
  ∃ eight rest bits, @conv5to8 E l = Ok eight ∧ digits_ok 8 eight ∧ 0 ≤ bits < 8 ∧
    0 ≤ rest < 2 ^ bits ∧ 8 * len eight + bits = 5 * len l ∧ be_val 8 eight * 2 ^ bits + rest = be_val 5 l.
Proof.
  intros Hl. unfold conv5to8. set (n := (length l * 5 / 8)%nat).
  assert (Hn : 8 * Z.of_nat n ≤ 5 * len l < 8 * Z.of_nat n + 8).
  { unfold n. pose proof (Nat.div_mod (length l * 5) 8). pose proof (Nat.mod_upper_bound (length l * 5) 8). lia. }
  destruct (@conv_loop_spec E 5 8 l (mkConv (replicate n 0) 0 0 0)) as (c & -> & Hc & Hb & Hlen & Hval & Hpos);
    [lia..|done|by apply conv_ok_init|simpl; lia|simpl; rewrite length_replicate; lia|].
  simpl in Hlen, Hpos. rewrite length_replicate in Hlen. cbn [mbind outcome_bind].
  rewrite conv_val_init, Z.mul_0_l, Z.add_0_l in Hval.
  destruct c as [out idx buff bits]. destruct Hc as [Hb0 Hbuf Hi Hd]. simpl in *.
  unfold conv_val in Hval. simpl in Hval. assert (idx = n) as -> by lia. rewrite take_ge in Hd, Hval by lia.
  exists out, buff, bits. split_and!; try done; lia.
Qed.

Lemma conv_roundtrip {E E'} l five :
  digits_ok 8 l → @conv8to5 E l = Ok five → @conv5to8 E' five = Ok l.
Proof.
  intros Hl Hf. destruct (@conv8to5_spec E l Hl) as (f & pad & Hf' & Hd & Hp & Hlen & Hv).
  rewrite Hf' in Hf. injection Hf as ->.
  destruct (@conv5to8_spec E' five Hd) as (e & rest & bits & -> & He & Hb & Hr & Hlen' & Hv').
  f_equal. assert (len e = len l ∧ bits = pad) as [Hle ->] by lia.
  apply (be_val_inj 8); [lia|done|done|lia|].
  assert (0 < 2 ^ pad) by (apply Z.pow_pos_nonneg; lia). nia.
Qed.

(** ** Letters *)

Lemma charset_digit d :
  0 ≤ d < 32 → ∃ ch, CHARSET !! Z.to_nat d = Some ch ∧ is_byte ch ∧ default 100 (REV_CHARSET !! Z.to_nat ch) = d.
Proof.
  intros Hd.
  pose proof (forallb_range (λ d, match CHARSET !! Z.to_nat d with
    | Some ch => (default 100 (REV_CHARSET !! Z.to_nat ch) =? d) && (0 <=? ch) && (ch <? 256)
    | None => false end) 0 32 d ltac:(by vm_compute) ltac:(lia)) as Ha. cbv beta in Ha.
  destruct (CHARSET !! Z.to_nat d) as [ch|]; [|done]. exists ch. unfold is_byte. split_and!; [done|lia..].
Qed.

(** A letter is determined by its digit. *)
Definition letter_digit (b : byte) : Z := default 100 (REV_CHARSET !! Z.to_nat b).

Lemma letter_digit_spec b :
  is_byte b → letter_digit b ≠ 100 →
  0 ≤ letter_digit b < 32 ∧ CHARSET !! Z.to_nat (letter_digit b) = Some b.
Proof.
  intros Hb Hne. unfold is_byte in Hb.
  pose proof (forallb_range (λ b, (letter_digit b =? 100) ||
    ((0 <=? letter_digit b) && (letter_digit b <? 32) &&
      bool_decide (CHARSET !! Z.to_nat (letter_digit b) = Some b))) 0 256 b ltac:(by vm_compute) ltac:(lia)) as Ha.
  cbv beta in Ha. destruct (Z.eqb_spec (letter_digit b) 100); [done|]. simpl in Ha.
  apply andb_true_iff in Ha as [Hr Hc]. split; [lia|by apply bool_decide_eq_true_1 in Hc].
Qed.

Lemma to_charset_Ok {E} l :
  digits_ok 5 l → ∃ s, @to_charset E l = Ok s ∧ from_charset s = Ok l ∧ length s = length l.
Proof.
  induction 1 as [|d l Hd Hl (s & Hs & Hf & Hlen)]; [by exists []|].
  destruct (charset_digit d Hd) as (ch & Hch & Hb & Hr). cbn [to_charset]. rewrite Hch. simpl. rewrite Hs.
  exists (ch :: s). split; [done|]. cbn [from_charset]. rewrite Hr.
  destruct (Z.eqb_spec d 100) as [->|]; [change (2 ^ 5) with 32 in Hd; lia|]. rewrite Hf. simpl. by rewrite Hlen.
Qed.

Lemma from_charset_Ok s l :
  Forall is_byte s → from_charset s = Ok l →
  l = letter_digit <$> s ∧ digits_ok 5 l ∧ Forall (λ b, letter_digit b ≠ 100) s.
Proof.
  intros Hs. revert l. induction Hs as [|b s Hb Hs IH]; intros l; cbn [from_charset]; [intros [= <-]; by repeat constructor|].
  fold (letter_digit b). destruct (Z.eqb_spec (letter_digit b) 100) as [|Hne]; [done|].
  intros (r & Hr & [= <-])%bind_Ok. destruct (IH r Hr) as (-> & Hd & Hn).
  split; [done|]. split; [|by constructor]. constructor; [|done]. by apply letter_digit_spec.
Qed.

(** ** The checksum *)

(** The contribution of the five bits shifted out. *)
Definition gen (c0 : Z) : Z :=
  Z.lxor (if negb (Z.land c0 0x01 =? 0) then 0x98f2bc8e61 else 0)
  (Z.lxor (if negb (Z.land c0 0x02 =? 0) then 0x79b76d99e2 else 0)
  (Z.lxor (if negb (Z.land c0 0x04 =? 0) then 0xf33e5fb3c4 else 0)
  (Z.lxor (if negb (Z.land c0 0x08 =? 0) then 0xae2eabe2a8 else 0)
          (if negb (Z.land c0 0x10 =? 0) then 0x1e4f43e470 else 0)))).

Lemma polymod_step_lxor c d :
  polymod_step c d = Z.lxor (Z.lxor (Z.shiftl (Z.land c 0x07ffffffff) 5) (gen (Z.shiftr c 35))) d.
Proof.
  unfold polymod_step, gen. set (x := Z.shiftl _ 5). set (c0 := Z.shiftr c 35).
  assert (Hx : ∀ g, Z.lxor (Z.lxor x g) d = Z.lxor (Z.lxor x d) g).
  { intros g. by rewrite !Z.lxor_assoc, (Z.lxor_comm g d). }
  rewrite Hx. repeat case_match; rewrite ?Z.lxor_0_l, ?Z.lxor_0_r, <- ?Z.lxor_assoc; done.
Qed.

Definition state40 (c : Z) : Prop := 0 ≤ c < 2 ^ 40.

Lemma lxor_bound n a b : 0 ≤ n → 0 ≤ a < 2 ^ n → 0 ≤ b < 2 ^ n → 0 ≤ Z.lxor a b < 2 ^ n.
Proof.
  intros Hn Ha Hb. assert (0 ≤ Z.lxor a b) by (rewrite Z.lxor_nonneg; lia). split; [done|].
  destruct (Z.eq_dec (Z.lxor a b) 0) as [->|]; [apply Z.pow_pos_nonneg; lia|].
  apply Z.log2_lt_pow2; [lia|].
  assert (Hlog : ∀ x, 0 ≤ x < 2 ^ n → n ≠ 0 → Z.log2 x < n).
  { intros x Hx Hn0. destruct (Z.eq_dec x 0) as [->|]; [simpl; lia|]. apply Z.log2_lt_pow2; lia. }
  pose proof (Z.log2_lxor a b). destruct (Z.eq_dec n 0) as [->|Hn0].
  - assert (a = 0) as -> by lia. assert (b = 0) as -> by lia. done.
  - pose proof (Hlog a Ha Hn0). pose proof (Hlog b Hb Hn0). lia.
Qed.

Lemma gen_spec c0 : 0 ≤ c0 < 32 → state40 (gen c0) ∧ gen c0 mod 32 = c0.
Proof.
  intros Hc. pose proof (forallb_range (λ c, (0 <=? gen c) && (gen c <? 2 ^ 40) && (gen c mod 32 =? c)) 0 32 c0
    ltac:(by vm_compute) ltac:(lia)) as Ha. cbv beta in Ha. unfold state40. lia.
Qed.

Lemma shifted_out c : state40 c → 0 ≤ Z.shiftr c 35 < 32.
Proof.
  unfold state40. intros Hc. rewrite Z.shiftr_div_pow2 by lia. split; [apply Z.div_pos; lia|].
  apply Z.div_lt_upper_bound; lia.
Qed.
Lemma shifted_in c : state40 c →
  Z.shiftl (Z.land c 0x07ffffffff) 5 = (c mod 2 ^ 35) * 32 ∧ 0 ≤ (c mod 2 ^ 35) * 32 < 2 ^ 40.
Proof.
  intros Hc. change 0x07ffffffff with (Z.ones 35). rewrite Z.land_ones, Z.shiftl_mul_pow2 by lia.
  pose proof (Z.mod_pos_bound c (2 ^ 35)). split; [done|lia].
Qed.

Lemma polymod_step_state c d : state40 c → 0 ≤ d < 32 → state40 (polymod_step c d).
Proof.
  intros Hc Hd. rewrite polymod_step_lxor. unfold state40.
  destruct (shifted_in c Hc) as [-> ?]. destruct (gen_spec _ (shifted_out c Hc)) as [? _].
  apply lxor_bound; [lia| |lia]. apply lxor_bound; [lia|done|done].
Qed.

Lemma lxor_cancel_r a b c : Z.lxor a c = Z.lxor b c → a = b.
Proof.
  intros Heq. apply (f_equal (λ x, Z.lxor x c)) in Heq.
  by rewrite !Z.lxor_assoc, Z.lxor_nilpotent, !Z.lxor_0_r in Heq.
Qed.

(** The step is injective in the state: the bits shifted out come back as the
    five low bits. *)
Lemma polymod_step_inj c1 c2 d :
  state40 c1 → state40 c2 → polymod_step c1 d = polymod_step c2 d → c1 = c2.
Proof.
  intros H1 H2. rewrite !polymod_step_lxor. intros Heq%lxor_cancel_r.
  destruct (shifted_in c1 H1) as [E1 B1], (shifted_in c2 H2) as [E2 B2]. rewrite E1, E2 in Heq.
  destruct (gen_spec _ (shifted_out c1 H1)) as [_ G1], (gen_spec _ (shifted_out c2 H2)) as [_ G2].
  assert (Hlow : ∀ a g, Z.lxor (a * 32) g mod 32 = g mod 32).
  { intros a g. change 32 with (2 ^ 5). apply Z.bits_inj'. intros n Hn.
    destruct (Z.lt_ge_cases n 5); [|by rewrite !Z.mod_pow2_bits_high by lia].
    rewrite !Z.mod_pow2_bits_low, Z.lxor_spec, Z.mul_pow2_bits_low by lia. apply xorb_false_l. }
  pose proof (f_equal (λ x, x mod 32) Heq) as Hm. cbv beta in Hm. rewrite !Hlow, G1, G2 in Hm.
  rewrite Hm in Heq. apply lxor_cancel_r in Heq.
  rewrite !Z.shiftr_div_pow2 in Hm by lia.
  pose proof (Z.div_mod c1 (2 ^ 35)). pose proof (Z.div_mod c2 (2 ^ 35)). lia.
Qed.

Lemma foldl_polymod_state l c : state40 c → digits_ok 5 l → state40 (foldl polymod_step c l).
Proof.
  intros Hc Hl. revert c Hc. induction Hl as [|d l Hd Hl IH]; intros c Hc; [done|]. simpl.
  apply IH. by apply polymod_step_state.
Qed.

Lemma foldl_polymod_inj l c1 c2 :
  state40 c1 → state40 c2 → digits_ok 5 l →
  foldl polymod_step c1 l = foldl polymod_step c2 l → c1 = c2.
Proof.
  intros H1 H2 Hl. revert c1 c2 H1 H2. induction Hl as [|d l Hd Hl IH]; intros c1 c2 H1 H2; [done|]. simpl.
  intros Heq%IH; [by apply polymod_step_inj in Heq|by apply polymod_step_state..].
Qed.

Lemma state40_1 : state40 1.
Proof. unfold state40. lia. Qed.

Lemma polymod_state l : digits_ok 5 l → state40 (polymod l).
Proof.
  intros Hl. unfold polymod, state40. apply lxor_bound; [lia| |lia].
  apply foldl_polymod_state; [apply state40_1|done].
Qed.

(** Two digit strings that differ in one digit have different checksums. *)
Lemma polymod_one_digit l1 l2 d d' :
  digits_ok 5 (l1 ++ d :: l2) → 0 ≤ d' < 2 ^ 5 → polymod (l1 ++ d :: l2) = polymod (l1 ++ d' :: l2) → d = d'.
Proof.
  intros [H1 H2]%Forall_app Hd' Heq. inversion H2; subst. unfold polymod in Heq.
  apply lxor_cancel_r in Heq. rewrite !foldl_app in Heq. simpl in Heq.
  pose proof (foldl_polymod_state l1 1 state40_1 H1) as Hst.
  apply foldl_polymod_inj in Heq; [|by apply polymod_step_state..|done].
  rewrite !polymod_step_lxor, !(Z.lxor_comm _ d), !(Z.lxor_comm _ d') in Heq. by apply lxor_cancel_r in Heq.
Qed.

Lemma digits_ok_replicate n : digits_ok 5 (replicate n 0).
Proof. apply Forall_replicate. lia. Qed.
Lemma fivebit_prefix_ok p : digits_ok 5 (fivebit_prefix p).
Proof.
  unfold digits_ok, fivebit_prefix. apply Forall_fmap, Forall_forall. intros c _. simpl.
  change 0x1f with (Z.ones 5). rewrite Z.land_ones by lia. apply Z.mod_pos_bound. lia.
Qed.

Lemma checksum_state l p : digits_ok 5 l → state40 (checksum l (fivebit_prefix p)).
Proof.
  intros Hl. apply polymod_state. unfold digits_ok.
  repeat (apply Forall_app; split); [apply fivebit_prefix_ok| |done|apply (digits_ok_replicate 8)].
  constructor; [lia|constructor].
Qed.

(** The five bytes of the checksum. *)
Lemma from_be_bytes_low z :
  state40 z → from_be_bytes (replicate 3 0 ++ drop 3 (to_be_bytes z)) = z.
Proof.
  unfold state40, from_be_bytes, to_be_bytes. intros Hz. rewrite rev_app_distr.
  assert (rev (drop 3 (rev (to_le_bytes 8 z))) = take 5 (to_le_bytes 8 z)) as ->.
  { pose proof (length_to_le_bytes 8 z) as Hl. generalize dependent (to_le_bytes 8 z). clear Hz. intros l Hl.
    do 8 (destruct l as [|? l]; [done|]). by destruct l. }
  rewrite le_val_app. pose proof (le_val_to_le_bytes 8 z ltac:(change (256 ^ Z.of_nat 8) with (2 ^ 64); lia)) as Hv.
  rewrite <- (take_drop 5 (to_le_bytes 8 z)) in Hv. rewrite le_val_app in Hv.
  pose proof (to_le_bytes_byte 8 z) as Hb. rewrite <- (take_drop 5 (to_le_bytes 8 z)) in Hb.
  apply Forall_app in Hb as [Hb1 Hb2]. pose proof (le_val_bound _ Hb1). pose proof (le_val_bound _ Hb2).
  rewrite length_take, length_to_le_bytes in *. simpl (_ `min` _)%nat in *.
  change (256 ^ Z.of_nat 5) with (2 ^ 40) in *. change (le_val (rev (replicate 3 0))) with 0. lia.
Qed.

(** ** Round trip *)

Lemma bytes_digits l : Forall is_byte l ↔ digits_ok 8 l.
Proof. unfold digits_ok, is_byte. change (2 ^ 8) with 256. done. Qed.

Lemma version_roundtrip v : Version_try_from (version_u8 v) = Ok v.
Proof. by destruct v. Qed.

Definition address_wf (a : Address) : Prop :=
  Forall is_byte (addr_payload a) ∧ length (addr_payload a) = public_key_len (addr_version a).

(** The five checksum bytes, as eight digits. *)
Lemma checksum_digits {E} sum :
  state40 sum →
  ∃ sum5, @conv8to5 E (drop 3 (to_be_bytes sum)) = Ok sum5 ∧ digits_ok 5 sum5 ∧ length sum5 = 8%nat ∧
    @conv5to8 AddressError sum5 = Ok (drop 3 (to_be_bytes sum)) ∧ length (drop 3 (to_be_bytes sum)) = 5%nat.
Proof.
  intros Hsum.
  assert (Hs8 : digits_ok 8 (drop 3 (to_be_bytes sum)))
    by (apply bytes_digits, Forall_drop; unfold to_be_bytes; apply Forall_rev, to_le_bytes_byte).
  assert (Hl5 : length (drop 3 (to_be_bytes sum)) = 5%nat)
    by (unfold to_be_bytes; by rewrite length_drop, length_rev, length_to_le_bytes).
  destruct (@conv8to5_spec E _ Hs8) as (sum5 & pad & Hsum5 & Hs5 & Hp & Hlen5 & _). rewrite Hl5 in Hlen5.
  exists sum5. split_and!; [done|done|lia|by eapply conv_roundtrip|done].
Qed.

Lemma encode_decode_payload {E} a :
  address_wf a → ∃ s, @encode_payload E a = Ok s ∧ decode_payload (addr_prefix a) s = Ok a.
Proof.
  intros [Hb Hlen]. destruct a as [p v payload]. simpl in *. unfold encode_payload. cbn [addr_version addr_payload addr_prefix].
  assert (Hd8 : digits_ok 8 (version_u8 v :: payload))
    by (apply bytes_digits; constructor; [destruct v; unfold is_byte; simpl; lia|done]).
  destruct (@conv8to5_spec E _ Hd8) as (five & pad & Hfive & Hf5 & _). rewrite Hfive. cbn [mbind outcome_bind].
  pose proof (checksum_state five p Hf5) as Hsum. set (sum := checksum five (fivebit_prefix p)) in *.
  destruct (@checksum_digits E sum Hsum) as (sum5 & -> & Hs5 & Hl8 & Hconv & Hl5). cbn [mbind outcome_bind].
  destruct (@to_charset_Ok E (five ++ sum5)) as (s & Hs & Hfrom & Hlens); [by apply Forall_app|].
  exists s. split; [done|]. unfold decode_payload. rewrite Hfrom. cbn [mbind outcome_bind].
  rewrite length_app, Hl8 in Hlens. destruct (Nat.ltb_spec (length s) 8); [lia|].
  replace (length s - 8)%nat with (length five) by lia. rewrite take_app_length, drop_app_length.
  rewrite Hconv. cbn [mbind outcome_bind].
  rewrite length_app, length_replicate, Hl5, (from_be_bytes_low _ Hsum). fold sum. rewrite Z.eqb_refl.
  cbn [Nat.eqb Nat.add negb]. rewrite (conv_roundtrip _ _ Hd8 Hfive).
  cbn [mbind outcome_bind head tail ok_or]. rewrite version_roundtrip. cbn [mbind outcome_bind].
  unfold try_new. by rewrite Hlen, Nat.eqb_refl.
Qed.

Lemma split_once_app pre rest :
  0x3a ∉ pre → split_once 0x3a (pre ++ 0x3a :: rest) = Some (pre, rest).
Proof.
  induction pre as [|c pre IH]; intros Hn; [done|]. apply not_elem_of_cons in Hn as [Hc Hn]. cbn [app split_once].
  destruct (Z.eqb_spec c 0x3a); [congruence|]. by rewrite IH.
Qed.

Lemma split_once_Some l pre rest :
  split_once 0x3a l = Some (pre, rest) → l = pre ++ 0x3a :: rest ∧ 0x3a ∉ pre.
Proof.
  revert pre. induction l as [|c l IH]; intros pre; cbn [split_once]; [done|].
  destruct (Z.eqb_spec c 0x3a) as [->|Hc]; [intros [= <- <-]; split; [done|apply not_elem_of_nil]|].
  destruct (split_once 0x3a l) as [[a b]|]; [|done]. intros [= <- <-]. destruct (IH a eq_refl) as [-> Hn].
  split; [done|]. apply not_elem_of_cons. split; congruence.
Qed.

Lemma split_once_None l : 0x3a ∉ l → split_once 0x3a l = None.
Proof.
  induction l as [|c l IH]; intros Hn; [done|]. apply not_elem_of_cons in Hn as [Hc Hn]. cbn [split_once].
  destruct (Z.eqb_spec c 0x3a); [congruence|]. by rewrite IH.
Qed.

Lemma prefix_no_colon p : 0x3a ∉ as_str p.
Proof. apply (bool_decide_eq_true_1 (0x3a ∉ as_str p)). by destruct p. Qed.
Lemma prefix_roundtrip p : Prefix_try_from (as_str p) = Ok p.
Proof. by destruct p. Qed.
Lemma Prefix_try_from_Ok s p : Prefix_try_from s = Ok p → s = as_str p.
Proof. unfold Prefix_try_from. by repeat case_decide; subst; intros [= <-]. Qed.

(** An address round trips through its text: for every address whose
    payload has the length its version asks for, [Display] produces a string
    (no panic: every index into [CHARSET] and into the regrouped digits is in
    range) and [TryFrom<&str>] maps that string back to the same address. *)
Theorem address_roundtrip (a : Address) :
  address_wf a → ∃ s, @address_to_string AddressError a = Ok s ∧ Address_try_from s = Ok a.
Proof.
  intros Hw. destruct (@encode_decode_payload AddressError a Hw) as (s & Hs & Hd).
  exists (as_str (addr_prefix a) ++ 0x3a :: s). unfold address_to_string. rewrite Hs. split; [done|].
  unfold Address_try_from. rewrite split_once_app by apply prefix_no_colon.
  rewrite prefix_roundtrip. done.
Qed.

(** ** Substitutions *)

Lemma be_val_0_rev l : le_val (rev l) = be_val 8 l.
Proof.
  induction l as [|b l IH] using rev_ind; [done|]. rewrite rev_app_distr, be_val_snoc. simpl. rewrite IH. lia.
Qed.

(** What the checksum test says of the digits of an accepted payload: the
    number its last eight digits write is the checksum of the others. *)
Definition accepted_digits (p : Prefix) (u : list Z) : Prop :=
  ∃ l1 l2, u = l1 ++ l2 ∧ length l2 = 8%nat ∧ digits_ok 5 u ∧ be_val 5 l2 = checksum l1 (fivebit_prefix p).

Lemma decode_payload_Ok p s a :
  Forall is_byte s → decode_payload p s = Ok a →
  Forall (λ b, letter_digit b ≠ 100) s ∧ accepted_digits p (letter_digit <$> s).
Proof.
  intros Hs (u & (-> & Hd & Hn)%from_charset_Ok & Hk)%bind_Ok; [|done]. split; [done|].
  destruct (Nat.ltb_spec (length s) 8) as [|Hl]; [done|]. set (u := letter_digit <$> s) in *.
  assert (Hlu : length u = length s) by apply length_fmap.
  exists (take (length s - 8) u), (drop (length s - 8) u). rewrite take_drop, length_drop. split_and!; [done|lia|done|].
  destruct (@conv5to8_spec AddressError (drop (length s - 8) u)) as (e & rest & bits & He & Hde & Hb & Hr & Hlen & Hv);
    [by apply Forall_drop|].
  cbv zeta in Hk. rewrite He in Hk. cbn [mbind outcome_bind] in Hk. rewrite length_drop in Hlen.
  assert (bits = 0) as -> by lia. assert (rest = 0) as -> by lia.
  destruct (negb _); [done|]. destruct (negb _) eqn:Hc; [done|].
  apply negb_false_iff, Z.eqb_eq in Hc. rewrite Hc. unfold from_be_bytes.
  rewrite rev_app_distr, le_val_app. change (le_val (rev (replicate 3 0))) with 0.
  rewrite be_val_0_rev. lia.
Qed.

Lemma checksum_one_digit p l1 l2 d d' :
  digits_ok 5 (l1 ++ d :: l2) → 0 ≤ d' < 2 ^ 5 →
  checksum (l1 ++ d :: l2) (fivebit_prefix p) = checksum (l1 ++ d' :: l2) (fivebit_prefix p) → d = d'.
Proof.
  intros [H1 H2]%Forall_app Hd'. unfold checksum. inversion H2; subst. rewrite <- !(assoc_L (++) l1).
  rewrite <- !(app_comm_cons l2), !(assoc_L (++) (fivebit_prefix p)), !(assoc_L (++) (_ ++ [0])).
  apply polymod_one_digit; [|done]. unfold digits_ok.
  apply Forall_app; split; [apply Forall_app; split; [apply Forall_app; split|]|]; [apply fivebit_prefix_ok| |done|].
  - constructor; [lia|done].
  - constructor; [done|]. apply Forall_app; split; [done|apply (digits_ok_replicate 8)].
Qed.

(** Two accepted digit strings do not differ in exactly one digit. *)
Lemma accepted_one_digit p u i d d' :
  accepted_digits p u → u !! i = Some d → accepted_digits p (<[i := d']> u) → d = d'.
Proof.
  intros (l1 & l2 & -> & H2 & Hd & Hc) Hi (m1 & m2 & Heq & H2' & Hd' & Hc').
  assert (length l1 = length m1)
    by (apply (f_equal length) in Heq; rewrite length_insert, !length_app in Heq; lia).
  apply Forall_app in Hd as [Hd1 Hd2]. rewrite Heq in Hd'. apply Forall_app in Hd' as [Hd1' Hd2'].
  destruct (decide (i < length l1)%nat) as [Hlt|Hge].
  - rewrite insert_app_l in Heq by done. apply app_inj_1 in Heq as [<- <-]; [|by rewrite length_insert].
    rewrite lookup_app_l in Hi by done. rewrite Hc in Hc'.
    rewrite insert_take_drop in Hc', Hd1' by done. apply Forall_app in Hd1' as [_ Hd1'].
    inversion Hd1' as [|? ? Hbd _]; subst.
    rewrite <- (take_drop_middle l1 i d Hi) in Hc' at 1. rewrite <- (take_drop_middle l1 i d Hi) in Hd1.
    by apply checksum_one_digit in Hc'.
  - rewrite insert_app_r_alt in Heq by lia. apply app_inj_1 in Heq as [<- <-]; [|done].
    rewrite lookup_app_r in Hi by lia. rewrite <- Hc in Hc'.
    apply be_val_inj in Hc'; [|lia|done|done|by rewrite length_insert].
    apply (f_equal (λ l, l !! (i - length l1)%nat)) in Hc'.
    rewrite list_lookup_insert_eq in Hc' by (by eapply lookup_lt_Some). congruence.
Qed.

Lemma from_charset_safe s : safe (from_charset s).
Proof.
  induction s as [|b s IH]; cbn [from_charset]; [done|]. destruct (_ =? 100); [done|].
  apply safe_bind; [done|]. done.
Qed.

Lemma decode_payload_safe p s : Forall is_byte s → safe (decode_payload p s).
Proof.
  intros Hs. apply safe_bind; [apply from_charset_safe|]. intros u (-> & Hd & _)%from_charset_Ok; [|done].
  destruct (_ <? _)%nat; [done|]. cbv zeta.
  assert (Hconv : ∀ l, digits_ok 5 l → safe (@conv5to8 AddressError l))
    by (intros l Hl; destruct (@conv5to8_spec AddressError l Hl) as (? & ? & ? & -> & _); done).
  apply safe_bind; [by apply Hconv, Forall_drop|]. intros e _.
  destruct (negb _); [done|]. destruct (negb _); [done|].
  apply safe_bind; [by apply Hconv, Forall_take|]. intros l _.
  apply safe_bind; [by destruct (head l)|]. intros vb _.
  apply safe_bind; [unfold Version_try_from; by repeat destruct (_ =? _)|]. intros v _.
  unfold try_new. by destruct (negb _).
Qed.

Lemma Address_try_from_safe s : Forall is_byte s → safe (Address_try_from s).
Proof.
  intros Hs. unfold Address_try_from. destruct (split_once 0x3a s) as [[pre rest]|] eqn:Hsp; [|done].
  apply split_once_Some in Hsp as [-> _]. apply Forall_app in Hs as [_ Hs]. inversion Hs; subst.
  apply safe_bind; [unfold Prefix_try_from; by repeat case_decide|]. intros p _. by apply decode_payload_safe.
Qed.

Lemma payload_no_colon p s a : Forall is_byte s → decode_payload p s = Ok a → 0x3a ∉ s.
Proof.
  intros Hs [Hn _]%decode_payload_Ok Hin; [|done]. rewrite Forall_forall in Hn. by apply (Hn 0x3a).
Qed.

Lemma payload_one_letter p s a i b c a' :
  Forall is_byte s → is_byte c → s !! i = Some b → b ≠ c →
  decode_payload p s = Ok a → decode_payload p (<[i := c]> s) ≠ Ok a'.
Proof.
  intros Hs Hc Hi Hne [Hn Ha]%decode_payload_Ok Hdec; [|done].
  apply decode_payload_Ok in Hdec as [Hn' Ha']; [|by apply Forall_insert].
  rewrite list_fmap_insert in Ha'.
  assert (Hd : letter_digit b = letter_digit c)
    by (eapply accepted_one_digit; [exact Ha|rewrite list_lookup_fmap, Hi; done|exact Ha']).
  assert (Hb : is_byte b) by by eapply Forall_lookup_1 in Hs.
  assert (letter_digit b ≠ 100) as Hb' by by eapply Forall_lookup_1 in Hn.
  destruct (letter_digit_spec b Hb Hb') as [_ Hlb].
  destruct (letter_digit_spec c Hc ltac:(congruence)) as [_ Hlc]. congruence.
Qed.

(** No prefix is one substitution away from a prefix. *)
Lemma prefix_one_letter p i b c q :
  is_byte c → as_str p !! i = Some b → b ≠ c → Prefix_try_from (<[i := c]> (as_str p)) ≠ Ok q.
Proof.
  intros Hc Hi Hne Hq%Prefix_try_from_Ok. assert (Hl : (i < length (as_str p))%nat) by by eapply lookup_lt_Some.
  assert (Hj : ∀ j, j ≠ i → as_str q !! j = as_str p !! j) by (intros j ?; by rewrite <- Hq, list_lookup_insert_ne).
  assert (Hlen : length (as_str q) = length (as_str p)) by by rewrite <- Hq, length_insert.
  assert (as_str q !! i = Some c) as Hqi by by rewrite <- Hq, list_lookup_insert_eq.
  pose proof (Hj 6%nat) as H6. pose proof (Hj 7%nat) as H7.
  destruct p, q; simplify_eq; vm_compute in Hlen; try done;
    (destruct (decide (i = 6%nat)) as [->|]; [specialize (H7 ltac:(done))|specialize (H6 ltac:(done))]); done.
Qed.

(** The three places of a substitution: before, at and after the colon. *)
Lemma substituted_not_ok pre rest p a i b c a' :
  0x3a ∉ pre → Forall is_byte (pre ++ 0x3a :: rest) → is_byte c → b ≠ c →
  (pre ++ 0x3a :: rest) !! i = Some b → Prefix_try_from pre = Ok p → decode_payload p rest = Ok a →
  Address_try_from (<[i := c]> (pre ++ 0x3a :: rest)) ≠ Ok a'.
Proof.
  intros Hpre Hs Hc Hne Hi Hp Hdec. apply Prefix_try_from_Ok in Hp as ->.
  apply Forall_app in Hs as [Hs1 Hs2]. inversion Hs2 as [|? ? _ Hs3]; subst.
  pose proof (payload_no_colon p rest a Hs3 Hdec) as Hrest. unfold Address_try_from.
  destruct (lt_eq_lt_dec i (length (as_str p))) as [[Hlt|Heq]|Hgt].
  - rewrite insert_app_l by done. rewrite lookup_app_l in Hi by done. destruct (decide (c = 0x3a)) as [->|Hc'].
    + rewrite insert_take_drop, <- (assoc_L (++)), <- app_comm_cons by done.
      rewrite split_once_app by (intros (j & Hj & _)%elem_of_take; by apply list_elem_of_lookup_2 in Hj).
      intros (q & _ & Hq)%bind_Ok. apply payload_no_colon in Hq.
      * apply Hq, elem_of_app. right. by left.
      * apply Forall_app. split; [by apply Forall_drop|]. by constructor.
    + rewrite split_once_app.
      * intros (q & Hq & _)%bind_Ok. by eapply prefix_one_letter in Hq.
      * intros (j & Hj)%list_elem_of_lookup. apply list_lookup_insert_Some in Hj as [(_ & ? & _)|[_ Hj]]; [done|].
        by apply list_elem_of_lookup_2 in Hj.
  - rewrite insert_app_r_alt, Heq, Nat.sub_diag by lia. cbn [insert list_insert].
    rewrite lookup_app_r, Heq, Nat.sub_diag in Hi by lia. injection Hi as <-.
    rewrite split_once_None; [done|]. intros [?|[?|?]%elem_of_cons]%elem_of_app; done.
  - rewrite insert_app_r_alt by lia. rewrite lookup_app_r in Hi by lia.
    destruct (i - length (as_str p))%nat as [|j] eqn:Hj; [lia|]. cbn [insert list_insert]. cbn in Hi.
    rewrite split_once_app, prefix_roundtrip by done. cbn [mbind outcome_bind]. by eapply payload_one_letter.
Qed.

(** A mistyped character is always caught: if a string is a valid address
    and any one of its bytes (in the prefix, at the colon, in the payload or
    in the checksum) is replaced by another byte, [TryFrom<&str>] returns an
    error (and does not panic), so a single substitution never yields an
    address to which funds could be sent. *)
Theorem single_substitution_detected (s : list byte) (a : Address) (i : nat) (b c : byte) :
  Forall is_byte s → Address_try_from s = Ok a → s !! i = Some b → is_byte c → b ≠ c →
  ∃ e, Address_try_from (<[i := c]> s) = Err e.
Proof.
  intros Hs Ha Hi Hc Hne.
  destruct (Address_try_from_safe (<[i := c]> s)) as [Hp Hf]; [by apply Forall_insert|].
  destruct (Address_try_from (<[i := c]> s)) as [a'|e| |] eqn:Heq; [|by exists e|done|done]. exfalso. revert Heq.
  unfold Address_try_from in Ha. destruct (split_once 0x3a s) as [[pre rest]|] eqn:Hsp; [|done].
  apply split_once_Some in Hsp as [-> Hpre]. apply bind_Ok in Ha as (p & Hpp & Hd).
  by eapply substituted_not_ok.
Qed.

(** ** Witnesses *)

Definition sample_address : Address := mkAddress Testnet VPubKeyHashMlDsa87 (seqZ 0 64).
Definition sample_text : list byte :=
  match @address_to_string AddressError sample_address with Ok s => s | _ => [] end.

Lemma sample_address_wf : address_wf sample_address.
Proof. split; [|done]. apply (bool_decide_eq_true_1 (Forall (λ b, 0 ≤ b < 256) _)). by vm_compute. Defined.

Lemma address_roundtrip_witness :
  address_wf sample_address ∧
  ∃ s, @address_to_string AddressError sample_address = Ok s ∧ Address_try_from s = Ok sample_address.
Proof. split; [apply sample_address_wf|]. apply (address_roundtrip sample_address), sample_address_wf. Defined.

Lemma single_substitution_detected_witness :
  Address_try_from sample_text = Ok sample_address ∧
  ∃ e, Address_try_from (<[20%nat := 0x71]> sample_text) = Err e.
Proof.
  assert (Ha : Address_try_from sample_text = Ok sample_address) by (vm_compute; reflexivity).
  split; [exact Ha|].
  apply (single_substitution_detected sample_text sample_address 20 0x73 0x71).
  - apply (bool_decide_eq_true_1 (Forall (λ b, 0 ≤ b < 256) _)). by vm_compute.
  - exact Ha.
  - vm_compute. reflexivity.
  - unfold is_byte. lia.
  - lia.
Defined.
