(* ===== verification/ScriptStd.v ===== *)
(** * Standard scripts

    Models [src/crypto/txscript/src/standard.rs] and
    [standard/multisig.rs]: the script public keys that pay to an address, the
    address a script public key pays to, and the multisig redeem scripts. The
    theorem says that the two translations between addresses and standard
    scripts are inverse to each other. *)

From stdpp Require Import base list gmap strings.
From Stdlib Require Import ZArith Lia.
From S2P Require Import Prelude Tx Bytes Hashing ScriptNum ScriptOps Address.

Local Open Scope Z_scope.

Definition ScriptClass_from (v : Version) : ScriptClass :=
  match v with
  | VPubKey => PubKey
  | VPubKeyECDSA => PubKeyECDSA
  | VPubKeyHashMlDsa87 => PubKeyHashMlDsa87
  | VScriptHash => ScriptHash
  end.

(** ** Templates *)

Definition pay_to_pub_key {E} (address_payload : list byte) : outcome E (list byte) :=
  _ ← assert_ (len address_payload =? 32);
  Ok ([codes.OpData32] ++ address_payload ++ [codes.OpCheckSig]).

Definition pay_to_pub_key_ecdsa {E} (address_payload : list byte) : outcome E (list byte) :=
  _ ← assert_ (len address_payload =? 33);
  Ok ([codes.OpData33] ++ address_payload ++ [codes.OpCheckSigECDSA]).

Definition pay_to_script_hash {E} (script_hash : list byte) : outcome E (list byte) :=
  _ ← assert_ (len script_hash =? 32);
  Ok ([codes.OpBlake2b; codes.OpData32] ++ script_hash ++ [codes.OpEqual]).

Definition pay_to_pub_key_hash_mldsa87 {E} (address_payload : list byte) : outcome E (list byte) :=
  _ ← assert_ (len address_payload =? 64);
  Ok ([codes.OpDup; codes.OpBlake2b512; codes.OpData64] ++ address_payload
      ++ [codes.OpEqualVerify; codes.OpCheckSigMlDsa87]).

Definition pay_to_address_script {E} (address : Address) : outcome E ScriptPublicKey :=
  script ← match addr_version address with
    | VPubKey => pay_to_pub_key (addr_payload address)
    | VPubKeyECDSA => pay_to_pub_key_ecdsa (addr_payload address)
    | VPubKeyHashMlDsa87 => pay_to_pub_key_hash_mldsa87 (addr_payload address)
    | VScriptHash => pay_to_script_hash (addr_payload address)
    end;
  Ok (mkScriptPublicKey (ScriptClass_version (ScriptClass_from (addr_version address))) script).

Definition pay_to_address_script_pq (address : Address) : outcome TxScriptError ScriptPublicKey :=
  match addr_version address with
  | VPubKeyHashMlDsa87 => pay_to_address_script address
  | _ => Err LegacyAddressDisabledInPqMode
  end.

Definition pay_to_script_hash_script `{Crypto} {E} (redeem_script : list byte) : outcome E ScriptPublicKey :=
  script ← pay_to_script_hash (blake2b 32 [] redeem_script);
  Ok (mkScriptPublicKey (ScriptClass_version ScriptHash) script).

Definition pay_to_script_hash_signature_script (redeem_script signature : list byte) :
    outcome ScriptBuilderError (list byte) :=
  b ← add_data ScriptBuilder_new redeem_script;
  Ok (signature ++ script b).

(** [&script[a..b]]. *)
Definition subslice {E} (a b : nat) (l : list byte) : outcome E (list byte) :=
  if (a <=? b)%nat && (b <=? length l)%nat then Ok (slice a b l) else Panic.

Definition extract_script_pub_key_address (spk : ScriptPublicKey) (prefix : Prefix) :
    outcome TxScriptError Address :=
  let class := ScriptClass_from_script spk in
  if spk_version spk >? ScriptClass_version class then Err PubKeyFormat
  else
    let at_ a b v := p ← subslice a b (spk_script spk); Address_new prefix v p in
    match class with
    | NonStandard => Err PubKeyFormat
    | PubKey => at_ 1%nat 33%nat VPubKey
    | PubKeyECDSA => at_ 1%nat 34%nat VPubKeyECDSA
    | PubKeyHashMlDsa87 => at_ 3%nat 67%nat VPubKeyHashMlDsa87
    | ScriptHash => at_ 2%nat 34%nat VScriptHash
    | EvmDepositLock => Err PubKeyFormat
    end.

(** ** Multisig redeem scripts *)

Inductive MultisigError :=
| ErrTooManyRequiredSigs
| MultisigScriptBuilderError (e : ScriptBuilderError)
| EmptyKeys.

(** The three functions differ in the key type and the last opcode. The
    iterator is its items and the upper bound its [size_hint] reports. *)
Definition multisig_with (opcode : Z) (pub_keys : list (list byte)) (upper : option Z) (required : Z) :
    outcome MultisigError (list byte) :=
  if match upper with Some u => u <? required | None => false end then Err ErrTooManyRequiredSigs
  else
    b ← map_err MultisigScriptBuilderError (add_i64 ScriptBuilder_new (wrap_i64 required));
    b ← for_each (λ b k, map_err MultisigScriptBuilderError (add_data b k)) pub_keys b;
    let count := len pub_keys in
    if count <? required then Err ErrTooManyRequiredSigs
    else if count =? 0 then Err EmptyKeys
    else
      b ← map_err MultisigScriptBuilderError (add_i64 b count);
      b ← map_err MultisigScriptBuilderError (add_op b opcode);
      Ok (script b).
Definition multisig_redeem_script := multisig_with codes.OpCheckMultiSig.
Definition multisig_redeem_script_ecdsa := multisig_with codes.OpCheckMultiSigECDSA.
Definition multisig_redeem_script_mldsa87 := multisig_with codes.OpCheckMultiSigMlDsa87.

(** ** Recognising the templates *)

Lemma byte_is_spec s i c : byte_is s i c = true ↔ s !! i = Some c.
Proof. apply bool_decide_eq_true. Qed.

Lemma split_last (l : list byte) n b : length l = S n → l !! n = Some b → l = take n l ++ [b].
Proof. intros Hl Hb. by rewrite <- take_S_r, take_ge by (done || lia). Qed.

Lemma is_pay_to_pubkey_spec s :
  is_pay_to_pubkey s = true ↔ ∃ p, length p = 32%nat ∧ s = [codes.OpData32] ++ p ++ [codes.OpCheckSig].
Proof.
  unfold is_pay_to_pubkey. rewrite !andb_true_iff, !byte_is_spec, Z.eqb_eq. split.
  - intros [[Hl H0] H1]. destruct s as [|x s]; [done|]. injection H0 as ->. exists (take 32 s). simpl in Hl.
    rewrite length_take. split; [lia|]. simpl. f_equal. by apply split_last; [lia|].
  - intros (p & Hp & ->). simpl. rewrite length_app, Hp, lookup_app_r, Hp by lia. done.
Qed.

Lemma is_pay_to_pubkey_ecdsa_spec s :
  is_pay_to_pubkey_ecdsa s = true ↔ ∃ p, length p = 33%nat ∧ s = [codes.OpData33] ++ p ++ [codes.OpCheckSigECDSA].
Proof.
  unfold is_pay_to_pubkey_ecdsa. rewrite !andb_true_iff, !byte_is_spec, Z.eqb_eq. split.
  - intros [[Hl H0] H1]. destruct s as [|x s]; [done|]. injection H0 as ->. exists (take 33 s). simpl in Hl.
    rewrite length_take. split; [lia|]. simpl. f_equal. by apply split_last; [lia|].
  - intros (p & Hp & ->). simpl. rewrite length_app, Hp, lookup_app_r, Hp by lia. done.
Qed.

Lemma is_pay_to_script_hash_spec s :
  is_pay_to_script_hash s = true ↔
  ∃ p, length p = 32%nat ∧ s = [codes.OpBlake2b; codes.OpData32] ++ p ++ [codes.OpEqual].
Proof.
  unfold is_pay_to_script_hash. rewrite !andb_true_iff, !byte_is_spec, Z.eqb_eq. split.
  - intros [[[Hl H0] H1] H2]. destruct s as [|x [|y s]]; [done..|]. injection H0 as ->. injection H1 as ->.
    exists (take 32 s). simpl in Hl. rewrite length_take. split; [lia|]. simpl. do 2 f_equal. by apply split_last; [lia|].
  - intros (p & Hp & ->). simpl. rewrite length_app, Hp, lookup_app_r, Hp by lia. done.
Qed.

Lemma is_p2pkh_mldsa87_spec s :
  is_pay_to_pub_key_hash_mldsa87 s = true ↔
  ∃ p, length p = 64%nat ∧
    s = [codes.OpDup; codes.OpBlake2b512; codes.OpData64] ++ p ++ [codes.OpEqualVerify; codes.OpCheckSigMlDsa87].
Proof.
  unfold is_pay_to_pub_key_hash_mldsa87. rewrite !andb_true_iff, !byte_is_spec, Z.eqb_eq. split.
  - intros [[[[[Hl H0] H1] H2] H3] H4]. destruct s as [|x [|y [|z s]]]; [done..|].
    injection H0 as ->. injection H1 as ->. injection H2 as ->. exists (take 64 s). simpl in Hl.
    rewrite length_take. split; [lia|]. cbn [app]. do 3 f_equal.
    change (s !! 64%nat = Some codes.OpEqualVerify) in H3. change (s !! 65%nat = Some codes.OpCheckSigMlDsa87) in H4.
    rewrite (split_last s 65 codes.OpCheckSigMlDsa87) at 1 by (done || lia).
    rewrite (take_S_r _ _ _ H3), <- (assoc_L (++)). done.
  - intros (p & Hp & ->). rewrite !length_app, Hp. split_and!; try done;
      rewrite lookup_app_r by (simpl; lia); rewrite lookup_app_r; rewrite Hp; simpl; done || lia.
Qed.

(** The script that pays to a payload of each version. *)
Definition template (v : Version) (p : list byte) : list byte :=
  match v with
  | VPubKey => [codes.OpData32] ++ p ++ [codes.OpCheckSig]
  | VPubKeyECDSA => [codes.OpData33] ++ p ++ [codes.OpCheckSigECDSA]
  | VPubKeyHashMlDsa87 =>
      [codes.OpDup; codes.OpBlake2b512; codes.OpData64] ++ p ++ [codes.OpEqualVerify; codes.OpCheckSigMlDsa87]
  | VScriptHash => [codes.OpBlake2b; codes.OpData32] ++ p ++ [codes.OpEqual]
  end.

Lemma pay_to_address_script_spec {E} a spk :
  @pay_to_address_script E a = Ok spk ↔
  length (addr_payload a) = public_key_len (addr_version a) ∧
  spk = mkScriptPublicKey MAX_SCRIPT_PUBLIC_KEY_VERSION (template (addr_version a) (addr_payload a)).
Proof.
  destruct a as [p v payload]. unfold pay_to_address_script. cbn [addr_version addr_payload].
  destruct v; cbn [public_key_len ScriptClass_from ScriptClass_version];
    unfold pay_to_pub_key, pay_to_pub_key_ecdsa, pay_to_pub_key_hash_mldsa87, pay_to_script_hash;
    match goal with |- context [len payload =? ?n] => destruct (Z.eqb_spec (len payload) n) as [Hl|Hl] end;
    (split; [intros Heq|intros [Hl' ->]]); try done; try lia; simplify_eq/=; split; done || lia.
Qed.

Definition recognise (v : Version) : list byte → bool :=
  match v with
  | VPubKey => is_pay_to_pubkey
  | VPubKeyECDSA => is_pay_to_pubkey_ecdsa
  | VPubKeyHashMlDsa87 => is_pay_to_pub_key_hash_mldsa87
  | VScriptHash => is_pay_to_script_hash
  end.

Lemma recognise_spec v s :
  recognise v s = true ↔ ∃ p, length p = public_key_len v ∧ s = template v p.
Proof.
  destruct v; cbn [recognise public_key_len template];
    [apply is_pay_to_pubkey_spec|apply is_pay_to_pubkey_ecdsa_spec|apply is_p2pkh_mldsa87_spec|
     apply is_pay_to_script_hash_spec].
Qed.

(** The templates of different versions are disjoint. *)
Lemma recognise_inj v1 v2 s : recognise v1 s = true → recognise v2 s = true → v1 = v2.
Proof.
  intros (p1 & Hl1 & ->)%recognise_spec (p2 & Hl2 & Heq)%recognise_spec.
  pose proof (f_equal length Heq) as Hl. pose proof (f_equal head Heq) as Hh.
  destruct v1, v2; try done; cbn [template public_key_len] in *; rewrite !length_app in Hl; simpl in Hl; lia.
Qed.

Lemma class_spec spk v :
  ScriptClass_from_script spk = ScriptClass_from v ↔
  spk_version spk = MAX_SCRIPT_PUBLIC_KEY_VERSION ∧ recognise v (spk_script spk) = true.
Proof.
  unfold ScriptClass_from_script. destruct spk as [ver s]. cbn [spk_version spk_script].
  destruct (Z.eqb_spec ver MAX_SCRIPT_PUBLIC_KEY_VERSION) as [->|]; [|split; [by destruct v|tauto]].
  assert (Hdis : ∀ w, recognise w s = true → recognise v s = true → w = v) by (intros w; apply recognise_inj).
  pose proof (Hdis VPubKeyHashMlDsa87) as D1. pose proof (Hdis VPubKey) as D2.
  pose proof (Hdis VPubKeyECDSA) as D3. pose proof (Hdis VScriptHash) as D4. cbn [recognise] in *.
  assert (De : is_evm_deposit_lock s = true → recognise v s = true → False).
  { unfold is_evm_deposit_lock. rewrite !andb_true_iff, Z.eqb_eq. intros [[[[Hl _] _] _] _] (p & Hp & ->)%recognise_spec.
    destruct v; cbn [template public_key_len] in *; rewrite !length_app, Hp in Hl; done. }
  destruct (is_pay_to_pub_key_hash_mldsa87 s) eqn:H1, (is_evm_deposit_lock s) eqn:H2, (is_pay_to_pubkey s) eqn:H3,
    (is_pay_to_pubkey_ecdsa s) eqn:H4, (is_pay_to_script_hash s) eqn:H5; destruct v; cbn [recognise ScriptClass_from] in *;
    rewrite ?H1, ?H3, ?H4, ?H5 in *; naive_solver.
Qed.

Lemma class_cases spk :
  (∃ v, ScriptClass_from_script spk = ScriptClass_from v) ∨
  ScriptClass_from_script spk = NonStandard ∨ ScriptClass_from_script spk = EvmDepositLock.
Proof.
  destruct (ScriptClass_from_script spk);
    [by right; left|left; by exists VPubKey|left; by exists VPubKeyECDSA|left; by exists VScriptHash|
     left; by exists VPubKeyHashMlDsa87|by right; right].
Qed.

(** The payload of a template is where [extract_script_pub_key_address] takes it from. *)
Lemma extract_template p v payload :
  length payload = public_key_len v →
  extract_script_pub_key_address (mkScriptPublicKey MAX_SCRIPT_PUBLIC_KEY_VERSION (template v payload)) p =
  Ok (mkAddress p v payload).
Proof.
  intros Hl. set (spk := mkScriptPublicKey _ _).
  assert (Hc : ScriptClass_from_script spk = ScriptClass_from v)
    by (apply class_spec; split; [done|]; apply recognise_spec; by exists payload).
  unfold extract_script_pub_key_address. rewrite Hc. unfold spk. cbn [spk_version spk_script].
  unfold subslice, slice, Address_new, assert_.
  destruct v; cbn [ScriptClass_from ScriptClass_version public_key_len template] in *; rewrite !length_app, Hl;
    simpl; rewrite drop_0, take_app_length', Hl by done; done.
Qed.

(** The builder for PQ networks makes the PQ-standard outputs and no others. *)
Lemma pay_to_address_script_pq_spec a spk :
  pay_to_address_script_pq a = Ok spk ↔
  @pay_to_address_script TxScriptError a = Ok spk ∧ is_pq_standard (ScriptClass_from_script spk) = true.
Proof.
  assert (Hc : @pay_to_address_script TxScriptError a = Ok spk →
    ScriptClass_from_script spk = ScriptClass_from (addr_version a)).
  { intros [Hl ->]%pay_to_address_script_spec. apply class_spec. split; [done|]. apply recognise_spec. by eexists. }
  unfold pay_to_address_script_pq. destruct (addr_version a) eqn:Hv; (split; [intros Heq|intros [Heq Hq]]); try done;
    rewrite ?(Hc Heq) in *; done.
Qed.

(** Addresses and standard scripts are in bijection: a script public key
    yields an address for a network exactly when it is the script that
    [pay_to_address_script] builds for that address. So no output pays to two
    addresses, no address has two scripts, [extract_script_pub_key_address]
    never slices out of range, and for an address of any version the length
    asserts of the builders are the length its version prescribes. The builder
    for PQ networks makes exactly those scripts whose class is PQ-standard. *)
Theorem address_script_bijection (spk : ScriptPublicKey) (p : Prefix) :
  safe (extract_script_pub_key_address spk p) ∧
  (∀ a, extract_script_pub_key_address spk p = Ok a ↔
    addr_prefix a = p ∧ @pay_to_address_script TxScriptError a = Ok spk) ∧
  (∀ a, pay_to_address_script_pq a = Ok spk ↔
    @pay_to_address_script TxScriptError a = Ok spk ∧ is_pq_standard (ScriptClass_from_script spk) = true).
Proof.
  rewrite (assoc (∧)). split; [|intros a; apply pay_to_address_script_pq_spec].
  assert (Hback : ∀ a, addr_prefix a = p ∧ @pay_to_address_script TxScriptError a = Ok spk →
    extract_script_pub_key_address spk p = Ok a).
  { intros [p' v payload] [Hp [Hl ->]%pay_to_address_script_spec]. simpl in *. subst. by apply extract_template. }
  destruct (class_cases spk) as [(v & Hv)|Hc].
  - apply class_spec in Hv as [Hver (payload & Hl & Hs)%recognise_spec]. destruct spk as [ver s]. simpl in *. subst.
    rewrite (extract_template p v payload Hl) in *. split; [done|]. intros a. split; [|by apply Hback].
    intros [= <-]. split; [done|]. by apply pay_to_address_script_spec.
  - assert (Hx : extract_script_pub_key_address spk p = Err PubKeyFormat)
      by (unfold extract_script_pub_key_address; destruct Hc as [-> | ->]; by destruct (_ >? _)).
    split; [by rewrite Hx|]. intros a. split; [by rewrite Hx|]. apply Hback.
Qed.

(** ** EVM deposit locks *)

Record EvmDepositLockFields := mkLockFields {
  evm_address : list byte;
  timeout_daa_score : Z;
  claim_tip_sompi : Z;
  refund_script_public_key : ScriptPublicKey;
}.

Definition evm_deposit_lock_script (evm_address : list byte) (timeout_daa_score claim_tip_sompi : Z)
    (refund_script : list byte) : ScriptPublicKey :=
  mkScriptPublicKey MAX_SCRIPT_PUBLIC_KEY_VERSION
    ([codes.OpNop; codes.OpData36] ++ evm_address ++ to_le_bytes 8 timeout_daa_score ++
     to_le_bytes 8 claim_tip_sompi ++ [codes.OpDrop] ++ refund_script).

Definition parse_evm_deposit_lock {E} (spk : ScriptPublicKey) : outcome E (option EvmDepositLockFields) :=
  if negb (bool_decide (ScriptClass_from_script spk = EvmDepositLock)) then Ok None
  else
    let script := spk_script spk in
    evm_address ← subslice 2 22 script;
    timeout ← subslice 22 30 script;
    tip ← subslice 30 38 script;
    refund ← subslice 39 (length script) script;
    Ok (Some (mkLockFields evm_address (le_val timeout) (le_val tip)
                (mkScriptPublicKey MAX_SCRIPT_PUBLIC_KEY_VERSION refund))).

(** The fields a lock can hold. *)
Definition lock_wf (f : EvmDepositLockFields) : Prop :=
  Forall is_byte (evm_address f) ∧ length (evm_address f) = 20%nat ∧
  0 ≤ timeout_daa_score f < 2 ^ 64 ∧ 0 ≤ claim_tip_sompi f < 2 ^ 64 ∧
  spk_version (refund_script_public_key f) = MAX_SCRIPT_PUBLIC_KEY_VERSION ∧
  is_pay_to_pub_key_hash_mldsa87 (spk_script (refund_script_public_key f)) = true.

Definition lock_script (f : EvmDepositLockFields) : ScriptPublicKey :=
  evm_deposit_lock_script (evm_address f) (timeout_daa_score f) (claim_tip_sompi f)
    (spk_script (refund_script_public_key f)).

(** A list cut at the ends of consecutive fields. *)
Lemma slice_app_mid (a b c : list byte) n m :
  length a = n → (length a + length b)%nat = m → slice n m (a ++ b ++ c) = b.
Proof.
  intros <- <-. unfold slice. rewrite drop_app_length. apply take_app_length'. lia.
Qed.
Lemma slice_cover (l : list byte) n m : (n ≤ m)%nat → slice n m l ++ drop m l = drop n l.
Proof.
  intros Hn. unfold slice. rewrite <- (take_drop (m - n) (drop n l)) at 2. rewrite drop_drop.
  replace (n + (m - n))%nat with m by lia. done.
Qed.

Lemma lock_script_class f :
  lock_wf f → ScriptClass_from_script (lock_script f) = EvmDepositLock ∧ length (spk_script (lock_script f)) = 108%nat.
Proof.
  intros (_ & Ha & _ & _ & _ & Hr). pose proof Hr as (p & Hp & Hs)%(recognise_spec VPubKeyHashMlDsa87).
  cbn [public_key_len template] in Hp, Hs.
  assert (Hlr : length (spk_script (refund_script_public_key f)) = 69%nat) by (rewrite Hs, !length_app, Hp; done).
  set (s := spk_script (lock_script f)).
  assert (Hl : length s = 108%nat)
    by (unfold s, lock_script, evm_deposit_lock_script; cbn [spk_script]; rewrite !length_app, !length_to_le_bytes, Ha, Hlr; done).
  split; [|done]. unfold ScriptClass_from_script. cbn [spk_version lock_script evm_deposit_lock_script].
  rewrite Z.eqb_refl. fold s. unfold is_pay_to_pub_key_hash_mldsa87 at 1. rewrite Hl. cbn [andb Z.eqb Z.of_nat Pos.of_succ_nat Pos.succ Pos.eqb].
  assert (He : is_evm_deposit_lock s = true).
  { unfold is_evm_deposit_lock. rewrite Hl.
    assert (Hcut : ∃ d, length d = 36%nat ∧ s = [codes.OpNop; codes.OpData36] ++ d ++ [codes.OpDrop] ++ spk_script (refund_script_public_key f)).
    { exists (evm_address f ++ to_le_bytes 8 (timeout_daa_score f) ++ to_le_bytes 8 (claim_tip_sompi f)).
      rewrite !length_app, !length_to_le_bytes, Ha. split; [done|]. unfold s, lock_script, evm_deposit_lock_script.
      cbn [spk_script]. by rewrite <- !(assoc_L (++)). }
    destruct Hcut as (d & Hd & ->). rewrite !andb_true_iff, !byte_is_spec. split_and!; try done.
    - rewrite (assoc_L (++) _ d), lookup_app_r, length_app, Hd by (rewrite length_app, Hd; done). done.
    - rewrite (assoc_L (++) _ d), (assoc_L (++) _ [_]), drop_app_length' by (rewrite !length_app, Hd; done). done. }
  by rewrite He.
Qed.

Lemma lock_slices f :
  lock_wf f → let s := spk_script (lock_script f) in
  slice 2 22 s = evm_address f ∧ slice 22 30 s = to_le_bytes 8 (timeout_daa_score f) ∧
  slice 30 38 s = to_le_bytes 8 (claim_tip_sompi f) ∧ slice 39 108 s = spk_script (refund_script_public_key f).
Proof.
  intros Hf s. destruct (lock_script_class f Hf) as [_ Hl]. fold s in Hl. destruct Hf as (_ & Ha & _).
  pose proof (length_to_le_bytes 8 (timeout_daa_score f)) as Ht. pose proof (length_to_le_bytes 8 (claim_tip_sompi f)) as Hc.
  unfold s, lock_script, evm_deposit_lock_script in *. cbn [spk_script] in *.
  set (h := [codes.OpNop; codes.OpData36]) in *. set (t := to_le_bytes 8 (timeout_daa_score f)) in *.
  set (c := to_le_bytes 8 (claim_tip_sompi f)) in *. set (r := spk_script _) in *.
  assert (Hh : length h = 2%nat) by done. rewrite !length_app in Hl. simpl (length [_]) in Hl.
  split_and!.
  - apply slice_app_mid; lia.
  - rewrite (assoc_L (++) h). apply slice_app_mid; rewrite length_app; lia.
  - rewrite (assoc_L (++) h), (assoc_L (++) (h ++ _)). apply slice_app_mid; rewrite !length_app; lia.
  - rewrite (assoc_L (++) h), (assoc_L (++) (h ++ _)), (assoc_L (++) ((h ++ _) ++ _)), (assoc_L (++) _ [_]).
    pose proof (slice_app_mid ((((h ++ evm_address f) ++ t) ++ c) ++ [codes.OpDrop]) r [] 39 108) as Hs.
    rewrite app_nil_r in Hs. apply Hs; rewrite !length_app; simpl (length [_]); lia.
Qed.

Lemma subslice_Ok {E} a b l : (a ≤ b)%nat → (b ≤ length l)%nat → @subslice E a b l = Ok (slice a b l).
Proof.
  intros. unfold subslice. destruct (Nat.leb_spec a b); [|lia]. by destruct (Nat.leb_spec b (length l)); [|lia].
Qed.

Lemma parse_lock_slices {E} spk :
  ScriptClass_from_script spk = EvmDepositLock →
  let s := spk_script spk in
  length s = 108%nat ∧ spk_version spk = MAX_SCRIPT_PUBLIC_KEY_VERSION ∧ is_evm_deposit_lock s = true ∧
  @parse_evm_deposit_lock E spk = Ok (Some (mkLockFields (slice 2 22 s) (le_val (slice 22 30 s)) (le_val (slice 30 38 s))
    (mkScriptPublicKey MAX_SCRIPT_PUBLIC_KEY_VERSION (slice 39 108 s)))).
Proof.
  intros Hc s. unfold parse_evm_deposit_lock. rewrite bool_decide_eq_true_2 by done. cbn [negb]. fold s.
  unfold ScriptClass_from_script in Hc. fold s in Hc.
  destruct (Z.eqb_spec (spk_version spk) MAX_SCRIPT_PUBLIC_KEY_VERSION); [|done].
  destruct (is_pay_to_pub_key_hash_mldsa87 s); [done|]. destruct (is_evm_deposit_lock s) eqn:He;
    [|by destruct (is_pay_to_pubkey s), (is_pay_to_pubkey_ecdsa s), (is_pay_to_script_hash s)].
  assert (Hl : length s = 108%nat).
  { unfold is_evm_deposit_lock in He. rewrite !andb_true_iff, Z.eqb_eq in He. destruct He as [[[[Hl _] _] _] _]. lia. }
  split_and!; try done. rewrite !subslice_Ok by lia. cbn [mbind outcome_bind]. by rewrite Hl.
Qed.

Lemma le_val_slice_bound (l : list byte) a b n :
  Forall is_byte l → (b ≤ length l)%nat → (b - a = n)%nat → 0 ≤ le_val (slice a b l) < 256 ^ Z.of_nat n.
Proof.
  intros Hl Hb Hn. assert (length (slice a b l) = n ∨ (b < a)%nat) as [Hlen|]; [|..].
  - destruct (decide (a ≤ b)%nat); [left|by right; lia]. unfold slice. rewrite length_take, length_drop. lia.
  - rewrite <- Hlen. apply le_val_bound. unfold slice. by apply Forall_take, Forall_drop.
  - unfold slice. replace (b - a)%nat with 0%nat by lia. rewrite take_0. subst n.
    split; [done|]. apply Z.pow_pos_nonneg; lia.
Qed.

Lemma lock_of_slices spk :
  Forall is_byte (spk_script spk) → length (spk_script spk) = 108%nat →
  spk_version spk = MAX_SCRIPT_PUBLIC_KEY_VERSION → is_evm_deposit_lock (spk_script spk) = true →
  let s := spk_script spk in
  let f := mkLockFields (slice 2 22 s) (le_val (slice 22 30 s)) (le_val (slice 30 38 s))
    (mkScriptPublicKey MAX_SCRIPT_PUBLIC_KEY_VERSION (slice 39 108 s)) in
  lock_wf f ∧ lock_script f = spk.
Proof.
  destruct spk as [v s]. cbn [spk_version spk_script]. intros Hb Hl -> He.
  unfold is_evm_deposit_lock in He. rewrite !andb_true_iff, !byte_is_spec in He. destruct He as [[[[_ H0] H1] H2] Hr].
  assert (Hend : drop 39 s = slice 39 108 s) by (unfold slice; rewrite take_ge; [done|rewrite length_drop; lia]).
  split.
  - unfold lock_wf. cbn [evm_address timeout_daa_score claim_tip_sompi refund_script_public_key spk_version spk_script].
    split; [unfold slice; by apply Forall_take, Forall_drop|]. split; [unfold slice; rewrite length_take, length_drop; lia|].
    split; [by apply (le_val_slice_bound s 22 30 8); [|lia|]|]. split; [by apply (le_val_slice_bound s 30 38 8); [|lia|]|].
    split; [done|]. by rewrite <- Hend.
  - unfold lock_script, evm_deposit_lock_script.
    cbn [evm_address timeout_daa_score claim_tip_sompi refund_script_public_key spk_version spk_script]. f_equal.
    assert (Hle : ∀ a, (a + 8 ≤ 108)%nat → to_le_bytes 8 (le_val (slice a (a + 8) s)) = slice a (a + 8) s).
    { intros a Ha. assert (length (slice a (a + 8) s) = 8%nat) as Hlen by (unfold slice; rewrite length_take, length_drop; lia).
      rewrite <- Hlen at 1. apply to_le_bytes_le_val. unfold slice. by apply Forall_take, Forall_drop. }
    pose proof (Hle 22%nat ltac:(lia)) as E1. pose proof (Hle 30%nat ltac:(lia)) as E2. cbn [Nat.add] in E1, E2.
    rewrite E1, E2, <- Hend. change ([codes.OpDrop] ++ drop 39 s) with (codes.OpDrop :: drop 39 s).
    assert (H38 : drop 38 s = codes.OpDrop :: drop 39 s) by by apply drop_S.
    rewrite <- H38, !slice_cover by lia. destruct s as [|x [|y s]]; [done..|]. cbn in H0, H1. by injection H0 as ->; injection H1 as ->.
Qed.

(** The codec of EVM deposit locks is a bijection: a lock built from fields
    in range parses back to those fields, a script that parses is the one its
    fields build (so no two scripts carry one lock and no byte is ignored), a
    script of another class is not parsed, and parsing never slices out of
    range. *)
Theorem evm_deposit_lock_bijection (spk : ScriptPublicKey) :
  safe (@parse_evm_deposit_lock unit spk) ∧
  (∀ f, lock_wf f → @parse_evm_deposit_lock unit (lock_script f) = Ok (Some f)) ∧
  (∀ f, Forall is_byte (spk_script spk) → @parse_evm_deposit_lock unit spk = Ok (Some f) →
    lock_wf f ∧ lock_script f = spk).
Proof.
  split_and!.
  - destruct (decide (ScriptClass_from_script spk = EvmDepositLock)) as [Hc|Hc].
    + by destruct (parse_lock_slices (E:=unit) spk Hc) as (_ & _ & _ & ->).
    + unfold parse_evm_deposit_lock. by rewrite bool_decide_eq_false_2.
  - intros f Hf. destruct (lock_script_class f Hf) as [Hc _]. destruct (lock_slices f Hf) as (H1 & H2 & H3 & H4).
    destruct (parse_lock_slices (E:=unit) _ Hc) as (_ & _ & _ & ->). rewrite H1, H2, H3, H4.
    destruct Hf as (_ & _ & Ht & Hp & Hv & _). rewrite !le_val_to_le_bytes by done.
    destruct f as [a t c [v r]]. cbn in *. by subst v.
  - intros f Hb Hp. destruct (decide (ScriptClass_from_script spk = EvmDepositLock)) as [Hc|Hc];
      [|by unfold parse_evm_deposit_lock in Hp; rewrite bool_decide_eq_false_2 in Hp].
    destruct (parse_lock_slices (E:=unit) _ Hc) as (Hl & Hv & He & Hp'). rewrite Hp' in Hp. injection Hp as <-.
    by apply lock_of_slices.
Qed.
