(* ===== verification/ScriptP2pkh.v ===== *)
(** * Spending an ML-DSA-87 P2PKH output

    The standard output of the chain is spent exactly by a public key with the
    committed hash and a signature of the transaction that verifies under it:
    soundness (whatever the signature script is, acceptance means such a key
    and signature) and completeness (the canonical signature script with such
    a key and signature is accepted). The EVM deposit lock is spent the same
    way. *)

From stdpp Require Import base list gmap strings.
From Stdlib Require Import ZArith Lia.
From S2P Require Import Prelude Tx Bytes Hashing SigHash ScriptNum ScriptOps ScriptEngine ScriptSafe ScriptParse ScriptSpend Address ScriptStd.

Local Open Scope Z_scope.

Section p2pkh.
Context {HC : Crypto} {HR : Rng}.

(** ** Executing one opcode *)

Definition stack_check : M unit :=
  e ← get;
  let combined_size := len (astack e) + len (dstack e) in
  if combined_size >? MAX_STACK_SIZE then throw (StackSizeExceeded combined_size MAX_STACK_SIZE)
  else mret tt.

(** Opcodes that run their code with no more ado. *)
Definition plain_code (c : Z) : bool :=
  let op := mkOpCode c [] in
  negb (is_disabled op) && negb (always_illegal op) && negb (is_legacy_signature_opcode c) &&
  negb (is_push_opcode op) && (c >? 0x4e).

Lemma plain_step c f e :
  runs c f ∈ opcode_table → plain_code c = true → cond_stack e = [] →
  0 ≤ num_ops e < MAX_OPS_PER_SCRIPT →
  execute_parsed false (Ok (mkOpCode c [])) e = (_ ← f; stack_check) (set_num_ops (num_ops e + 1) e).
Proof.
  intros Hin Hp Hc Hn. unfold plain_code in Hp. rewrite !andb_true_iff, !negb_true_iff in Hp.
  destruct Hp as [[[[Hd Hi] Hl] Hpush] Hcode]. unfold execute_parsed, lift, get at 1.
  unfold mbind, SM_bind, get, modify. rewrite Hd, Hi. cbn [op_code]. rewrite Hl, andb_false_r.
  cbn [andb]. unfold execute_opcode at 1, count_ops. rewrite Hpush. cbn [negb op_code].
  assert (Hr : in_i32 (num_ops e + 1) = true) by (unfold in_i32, MAX_OPS_PER_SCRIPT in *; lia).
  unfold mbind, SM_bind, get, modify. cbn [num_ops]. rewrite Hr. cbn [negb].
  replace (num_ops e + 1 >? MAX_OPS_PER_SCRIPT) with false by lia.
  unfold mret, SM_ret. replace (is_executing _) with true
    by (unfold is_executing; cbn [cond_stack set_num_ops]; by rewrite Hc).
  cbn [orb]. replace ((c >? 0) && (c <=? 78)) with false by lia.
  rewrite (opcode_execute_entry c [] (λ _, f)) by done. done.
Qed.

Lemma push_op_code data : bytes data → len data < 2 ^ 32 → 0 ≤ op_code (push_op data) ≤ 0x60.
Proof.
  intros Hb Hl. pose proof (push_op_is_push data Hb Hl) as Hp. unfold is_push_opcode, NO_COST_OPCODE in Hp.
  destruct (push_op_fits data Hb Hl) as [[Hc _] _]. unfold is_byte in Hc. lia.
Qed.
Lemma low_code op : op_code op ≤ 0x60 → is_disabled op = false ∧ always_illegal op = false ∧
  is_legacy_signature_opcode (op_code op) = false.
Proof.
  destruct op as [c d]. cbn [op_code]. intros Hc.
  unfold is_disabled, always_illegal, is_legacy_signature_opcode. cbn [op_code].
  split_and!; apply bool_decide_eq_false; intros Hin; repeat (apply elem_of_cons in Hin as [Hin|Hin]);
    try (by apply elem_of_nil in Hin); rewrite Hin in Hc; vm_compute in Hc; done.
Qed.
Lemma push_op_data data : len (op_data (push_op data)) ≤ len data.
Proof. unfold push_op. repeat case_match; cbn [op_data]; simpl; lia. Qed.

Lemma push_step b data e :
  bytes data → len data ≤ MAX_SCRIPT_ELEMENT_SIZE → cond_stack e = [] →
  execute_parsed b (Ok (push_op data)) e = (_ ← push data; stack_check) e.
Proof.
  intros Hb Hl Hc. assert (Hl' : len data < 2 ^ 32) by (unfold MAX_SCRIPT_ELEMENT_SIZE in Hl; lia).
  pose proof (push_op_code data Hb Hl') as Hcode. destruct (low_code (push_op data)) as (Hd & Hi & Hg); [lia|].
  pose proof (push_op_is_push data Hb Hl') as Hp. pose proof (push_op_data data) as Hlen.
  unfold execute_parsed, lift, get at 1. unfold mbind, SM_bind, get. rewrite Hd, Hi, Hg, andb_false_r, Hp, andb_false_r.
  unfold execute_opcode. rewrite Hp. cbn [negb].
  replace (len (op_data (push_op data)) >? MAX_SCRIPT_ELEMENT_SIZE) with false by lia.
  unfold mbind, SM_bind, get, mret, SM_ret. replace (is_executing e) with true by (unfold is_executing; by rewrite Hc).
  cbn [orb]. pose proof (push_op_minimal data Hb Hl') as Hm.
  assert (Hmin : (if (op_code (push_op data) >? 0) && (op_code (push_op data) <=? 78)
    then lift (check_minimal_data_push (push_op data)) else λ s, (s, Ok ())) e = (e, Ok tt)).
  { destruct (_ && _) eqn:E; [|done]. by rewrite Hm by lia. }
  rewrite Hmin, push_op_execute by done. done.
Qed.

(** ** The template *)

Definition p2pkh_ops (h : list byte) : list OpCode :=
  [mkOpCode codes.OpDup []; mkOpCode codes.OpBlake2b512 []; push_op h;
   mkOpCode codes.OpEqualVerify []; mkOpCode codes.OpCheckSigMlDsa87 []].

Lemma plain_fits c : 0x4f ≤ c < 256 → op_fits (mkOpCode c []) ∧ opcode_serialize (mkOpCode c []) = [c].
Proof.
  intros Hc. unfold op_fits, op_wf, opcode_serialize, is_byte. cbn [op_code op_data].
  rewrite (opcode_length_small c) by lia. split; [|done]. split; [split; [lia|constructor]|done].
Qed.

Lemma data_serialize h n :
  length h = n → (2 ≤ n ≤ 75)%nat → opcode_serialize (push_op h) = Z.of_nat n :: h.
Proof.
  intros Hl Hn. unfold push_op. rewrite Hl. unfold OP_DATA_MAX_VAL, codes.OpData75.
  destruct (Z.eqb_spec (Z.of_nat n) 0); [lia|]. destruct (Z.eqb_spec (Z.of_nat n) 1); [lia|]. cbn [andb].
  destruct (Z.leb_spec (Z.of_nat n) 75); [|lia]. unfold opcode_serialize. cbn [op_code op_data].
  by rewrite opcode_length_data by lia.
Qed.

Lemma parse_p2pkh h rest :
  bytes h → length h = 64%nat → bytes rest →
  bytes (template VPubKeyHashMlDsa87 h ++ rest) ∧
  parse_script (template VPubKeyHashMlDsa87 h ++ rest) = (Ok <$> p2pkh_ops h) ++ parse_script rest.
Proof.
  intros Hb Hl Hr.
  assert (Heq : template VPubKeyHashMlDsa87 h = concat (opcode_serialize <$> p2pkh_ops h)).
  { unfold p2pkh_ops. csimpl. rewrite (data_serialize h 64 Hl) by lia.
    by repeat match goal with |- context [opcode_serialize (mkOpCode ?c [])] =>
      change (opcode_serialize (mkOpCode c [])) with [c] end. }
  rewrite Heq. apply parse_serialized; [|done]. unfold p2pkh_ops.
  repeat constructor; first [by apply plain_fits|apply push_op_fits; [done|lia]|done].
Qed.

(** ** Successful steps *)

Lemma bind_iff {A B} (m : M A) (f : A → M B) e e' b :
  (m ≫= f) e = (e', Ok b) ↔ ∃ a e1, m e = (e1, Ok a) ∧ f a e1 = (e', Ok b).
Proof.
  unfold mbind, SM_bind. split.
  - destruct (m e) as [e1 [a| | |]]; try done. eauto.
  - by intros (a & e1 & -> & ?).
Qed.

Definition size_ok (e : Engine) : Prop := len (astack e) + len (dstack e) ≤ MAX_STACK_SIZE.

Lemma stack_check_iff e e' : stack_check e = (e', Ok tt) ↔ e' = e ∧ size_ok e.
Proof.
  unfold stack_check, mbind, SM_bind, get, size_ok. destruct (_ >? _) eqn:E.
  - split; [done|]. lia.
  - split; [intros [= <-]; split; [done|lia]|by intros [-> _]].
Qed.

Lemma then_check_iff (f : M unit) e e' :
  (_ ← f; stack_check) e = (e', Ok tt) ↔ f e = (e', Ok tt) ∧ size_ok e'.
Proof.
  rewrite bind_iff. split.
  - intros ([] & e1 & Hf & [-> Hs]%stack_check_iff). done.
  - intros [Hf Hs]. exists tt, e'. rewrite stack_check_iff. done.
Qed.

Lemma run_cons_iff b op ops e e' :
  try_for_each (execute_parsed b) (Ok op :: ops) e = (e', Ok tt) ↔
  ∃ e1, execute_parsed b (Ok op) e = (e1, Ok tt) ∧ try_for_each (execute_parsed b) ops e1 = (e', Ok tt).
Proof. cbn [try_for_each]. rewrite bind_iff. split; [intros ([] & ? & ?)|intros (? & ?)]; eauto. Qed.

Lemma plain_iff c f e e' :
  runs c f ∈ opcode_table → plain_code c = true → cond_stack e = [] → 0 ≤ num_ops e < MAX_OPS_PER_SCRIPT →
  execute_parsed false (Ok (mkOpCode c [])) e = (e', Ok tt) ↔
  f (set_num_ops (num_ops e + 1) e) = (e', Ok tt) ∧ size_ok e'.
Proof. intros ? ? ? ?. by rewrite (plain_step c f), then_check_iff. Qed.

Lemma push_iff b data e e' :
  bytes data → len data ≤ MAX_SCRIPT_ELEMENT_SIZE → cond_stack e = [] →
  execute_parsed b (Ok (push_op data)) e = (e', Ok tt) ↔
  e' = set_dstack (dstack e ++ [data]) e ∧ size_ok e'.
Proof.
  intros ? ? ?. rewrite push_step, then_check_iff by done. unfold push, modify.
  split; [intros [[= <-] ?]; done|intros [-> ?]; done].
Qed.

Lemma split_top (s : Stack) n :
  (n ≤ length s)%nat → ∃ D t, s = D ++ t ∧ length t = n ∧ take (length s - n) s = D ∧ drop (length s - n) s = t.
Proof.
  intros Hn. exists (take (length s - n) s), (drop (length s - n) s). rewrite take_drop, length_drop.
  split_and!; [done|lia|done|done].
Qed.
Lemma top_app (D t : Stack) :
  take (length (D ++ t) - length t) (D ++ t) = D ∧ drop (length (D ++ t) - length t) (D ++ t) = t.
Proof.
  rewrite length_app. replace (length D + length t - length t)%nat with (length D) by lia.
  by rewrite take_app_length, drop_app_length.
Qed.

Lemma pop_raw_iff n e e' l :
  on_dstack (pop_raw n) e = (e', Ok l) ↔ ∃ D, dstack e = D ++ l ∧ length l = n ∧ e' = set_dstack D e.
Proof.
  unfold on_dstack, pop_raw. split.
  - destruct (Nat.ltb_spec (length (dstack e)) n) as [|Hn]; [done|]. intros [= <- <-].
    destruct (split_top (dstack e) n Hn) as (D & t & Heq & Hl & HD & Ht). rewrite HD, Ht. eauto.
  - intros (D & Heq & <- & ->). rewrite Heq. destruct (top_app D l) as [-> ->].
    rewrite length_app. by destruct (Nat.ltb_spec (length D + length l) (length l)); [lia|].
Qed.

Lemma pop_raw1_iff e e' x :
  pop_raw1 e = (e', Ok x) ↔ ∃ D, dstack e = D ++ [x] ∧ e' = set_dstack D e.
Proof.
  unfold pop_raw1. rewrite bind_iff. setoid_rewrite pop_raw_iff. split.
  - intros (l & e1 & (D & HD & Hl & ->) & Hr). destruct l as [|a [|]]; try done. injection Hr as <- <-. eauto.
  - intros (D & HD & ->). exists [x], (set_dstack D e). eauto 10.
Qed.
Lemma pop_raw2_iff e e' x y :
  pop_raw2 e = (e', Ok (x, y)) ↔ ∃ D, dstack e = D ++ [x; y] ∧ e' = set_dstack D e.
Proof.
  unfold pop_raw2. rewrite bind_iff. setoid_rewrite pop_raw_iff. split.
  - intros (l & e1 & (D & HD & Hl & ->) & Hr). destruct l as [|a [|b [|]]]; try done. injection Hr as <- <- <-. eauto.
  - intros (D & HD & ->). exists [x; y], (set_dstack D e). eauto 10.
Qed.

Lemma dup_iff e e' :
  on_dstack (dup_items 1) e = (e', Ok tt) ↔ ∃ D x, dstack e = D ++ [x] ∧ e' = set_dstack (D ++ [x; x]) e.
Proof.
  unfold on_dstack, dup_items. split.
  - destruct (Nat.leb_spec 1 (length (dstack e))) as [Hn|]; [|done]. intros [= <-].
    destruct (split_top (dstack e) 1 Hn) as (D & t & Heq & Hl & _ & Ht). rewrite Ht, Heq.
    destruct t as [|x [|]]; try done. exists D, x. by rewrite <- (assoc_L (++)).
  - intros (D & x & Heq & ->). rewrite Heq. destruct (top_app D [x]) as [_ Ht]. simpl length in Ht at 2. rewrite Ht.
    rewrite length_app. destruct (Nat.leb_spec 1 (length D + length [x])); [|simpl in *; lia].
    by rewrite <- (assoc_L (++)).
Qed.

Lemma drop_iff e e' :
  on_dstack (drop_items 1) e = (e', Ok tt) ↔ ∃ D x, dstack e = D ++ [x] ∧ e' = set_dstack D e.
Proof.
  unfold on_dstack, drop_items. split.
  - destruct (Nat.leb_spec 1 (length (dstack e))) as [Hn|]; [|done]. intros [= <-].
    destruct (split_top (dstack e) 1 Hn) as (D & t & Heq & Hl & HD & _). rewrite HD.
    destruct t as [|x [|]]; try done. eauto.
  - intros (D & x & Heq & ->). rewrite Heq. destruct (top_app D [x]) as [HD _]. simpl length in HD at 2. rewrite HD.
    rewrite length_app. by destruct (Nat.leb_spec 1 (length D + length [x])); [|simpl in *; lia].
Qed.

Lemma blake2b_512_iff e e' :
  op_blake2b_512 e = (e', Ok tt) ↔
  ∃ D x, dstack e = D ++ [x] ∧ e' = set_dstack (D ++ [blake2b_512_address_payload x]) e.
Proof.
  unfold op_blake2b_512. rewrite bind_iff. setoid_rewrite pop_raw1_iff. split.
  - intros (x & e1 & (D & HD & ->) & [= <-]). eauto.
  - intros (D & x & HD & ->). exists x, (set_dstack D e). eauto.
Qed.

Lemma equal_verify_iff e e' :
  op_equal_verify e = (e', Ok tt) ↔ ∃ D x, dstack e = D ++ [x; x] ∧ e' = set_dstack D e.
Proof.
  unfold op_equal_verify. rewrite bind_iff. split.
  - intros ([x y] & e1 & (D & HD & ->)%pop_raw2_iff & Hv). unfold verify in Hv.
    case_bool_decide; [|done]. injection Hv as <-. subst. eauto.
  - intros (D & x & HD & ->). exists (x, x), (set_dstack D e). rewrite pop_raw2_iff. split; [eauto|].
    unfold verify. by rewrite bool_decide_eq_true_2.
Qed.

(** The entry of an opcode is at its number. *)
Lemma dup_entry : runs codes.OpDup (on_dstack (dup_items 1)) ∈ opcode_table.
Proof. by apply (list_elem_of_lookup_2 _ 0x76). Qed.
Lemma drop_entry : runs codes.OpDrop (on_dstack (drop_items 1)) ∈ opcode_table.
Proof. by apply (list_elem_of_lookup_2 _ 0x75). Qed.
Lemma nop_entry : runs codes.OpNop (mret tt) ∈ opcode_table.
Proof. by apply (list_elem_of_lookup_2 _ 0x61). Qed.
Lemma blake2b_512_entry : runs codes.OpBlake2b512 op_blake2b_512 ∈ opcode_table.
Proof. by apply (list_elem_of_lookup_2 _ 0xc4). Qed.
Lemma equal_verify_entry : runs codes.OpEqualVerify op_equal_verify ∈ opcode_table.
Proof. by apply (list_elem_of_lookup_2 _ 0x88). Qed.
Lemma check_sig_mldsa87_entry : runs codes.OpCheckSigMlDsa87 op_check_sig_mldsa87 ∈ opcode_table.
Proof. by apply (list_elem_of_lookup_2 _ 0xa6). Qed.

Lemma run_plain_iff c f ops e e' :
  runs c f ∈ opcode_table → plain_code c = true → cond_stack e = [] → 0 ≤ num_ops e < MAX_OPS_PER_SCRIPT →
  try_for_each (execute_parsed false) (Ok (mkOpCode c []) :: ops) e = (e', Ok tt) ↔
  ∃ e1, (f (set_num_ops (num_ops e + 1) e) = (e1, Ok tt) ∧ size_ok e1) ∧
    try_for_each (execute_parsed false) ops e1 = (e', Ok tt).
Proof. intros ? ? ? ?. rewrite run_cons_iff. by setoid_rewrite (plain_iff c f). Qed.

Lemma run_push_iff b data ops e e' :
  bytes data → len data ≤ MAX_SCRIPT_ELEMENT_SIZE → cond_stack e = [] →
  try_for_each (execute_parsed b) (Ok (push_op data) :: ops) e = (e', Ok tt) ↔
  size_ok (set_dstack (dstack e ++ [data]) e) ∧
  try_for_each (execute_parsed b) ops (set_dstack (dstack e ++ [data]) e) = (e', Ok tt).
Proof.
  intros ? ? ?. rewrite run_cons_iff. setoid_rewrite push_iff; [|done..].
  split; [by intros (? & [-> ?] & ?)|]. intros [? ?]. by eexists.
Qed.

Lemma engine_eq e1 e2 :
  dstack e1 = dstack e2 → astack e1 = astack e2 → script_source e1 = script_source e2 →
  sig_cache e1 = sig_cache e2 → cond_stack e1 = cond_stack e2 → num_ops e1 = num_ops e2 →
  runtime_sig_op_counter e1 = runtime_sig_op_counter e2 → policy e1 = policy e2 → e1 = e2.
Proof. destruct e1, e2. cbn. congruence. Qed.

(** What the template does: it succeeds when the top of the stack hashes to
    the payload and the signature check that follows succeeds. *)
Lemma p2pkh_run_iff h e e' :
  bytes h → length h = 64%nat → cond_stack e = [] → 0 ≤ num_ops e ≤ MAX_OPS_PER_SCRIPT - 4 →
  try_for_each (execute_parsed false) (Ok <$> p2pkh_ops h) e = (e', Ok tt) ↔
  ∃ D x, dstack e = D ++ [x] ∧ blake2b_512_address_payload x = h ∧
    len (astack e) + len D + 3 ≤ MAX_STACK_SIZE ∧
    op_check_sig_mldsa87 (set_num_ops (num_ops e + 4) e) = (e', Ok tt) ∧ size_ok e'.
Proof.
  intros Hb Hl Hc Hn. unfold p2pkh_ops. rewrite !fmap_cons, fmap_nil. unfold MAX_OPS_PER_SCRIPT in Hn.
  assert (Hm : len h ≤ MAX_SCRIPT_ELEMENT_SIZE) by (rewrite Hl; done).
  assert (Hd : ∀ (D : Stack) x y, D ++ [x; y] = (D ++ [x]) ++ [y]) by (intros D x y; by rewrite <- (assoc_L (++))).
  rewrite (run_plain_iff _ _ _ _ _ dup_entry) by (done || unfold MAX_OPS_PER_SCRIPT; lia).
  setoid_rewrite dup_iff. split.
  - intros (e1 & [(D & x & HD & ->) _] & H2).
    apply (run_plain_iff _ _ _ _ _ blake2b_512_entry) in H2 as (e2 & [(D2 & x2 & HD2 & ->)%blake2b_512_iff _] & H3);
      [|done|done|cbn; unfold MAX_OPS_PER_SCRIPT; lia].
    cbn [dstack set_dstack set_num_ops] in HD, HD2. rewrite Hd in HD2. apply app_inj_tail in HD2 as [<- <-].
    apply run_push_iff in H3 as [S3 H4]; [|done..].
    apply (run_plain_iff _ _ _ _ _ equal_verify_entry) in H4 as (e4 & [(D4 & x4 & HD4 & ->)%equal_verify_iff _] & H5);
      [|done|done|cbn; unfold MAX_OPS_PER_SCRIPT; lia].
    cbn [dstack set_dstack set_num_ops] in HD4. rewrite Hd in HD4.
    apply app_inj_tail in HD4 as [HD4 <-]. apply app_inj_tail in HD4 as [<- Hh].
    apply (run_plain_iff _ _ _ _ _ check_sig_mldsa87_entry) in H5 as (e5 & [H5 S5] & [= <-]);
      [|done|done|cbn; unfold MAX_OPS_PER_SCRIPT; lia].
    exists D, x. unfold size_ok in S3. cbn in S3. rewrite !length_app in S3. simpl in S3.
    split_and!; [done|done|lia| |done].
    rewrite <- H5. f_equal. apply engine_eq; cbn; try reflexivity; [done|lia].
  - intros (D & x & HD & Hh & Hs & H5 & S5). eexists. split; [split; [by exists D, x|]|].
    { unfold size_ok. cbn. rewrite length_app. simpl. lia. }
    apply (run_plain_iff _ _ _ _ _ blake2b_512_entry); [done|done|cbn; unfold MAX_OPS_PER_SCRIPT; lia|].
    eexists. split; [split; [apply blake2b_512_iff; exists (D ++ [x]), x; split; [apply Hd|done]|]|].
    { unfold size_ok. cbn. rewrite !length_app. simpl. lia. }
    apply run_push_iff; [done..|]. split; [unfold size_ok; cbn; rewrite !length_app; simpl; lia|].
    apply (run_plain_iff _ _ _ _ _ equal_verify_entry); [done|done|cbn; unfold MAX_OPS_PER_SCRIPT; lia|].
    eexists. split; [split; [apply equal_verify_iff; exists (D ++ [x]), h; split; [cbn; rewrite Hh; by rewrite Hd|done]|]|].
    { unfold size_ok. cbn. rewrite !length_app. simpl. lia. }
    apply (run_plain_iff _ _ _ _ _ check_sig_mldsa87_entry); [done|done|cbn; unfold MAX_OPS_PER_SCRIPT; lia|].
    exists e'. split; [split; [|exact S5]|reflexivity]. rewrite <- H5. f_equal. apply engine_eq; cbn; try reflexivity; [done|lia].
Qed.

(** ** The signature check *)

Lemma app2_inj (D D' : Stack) a b a' b' : D ++ [a; b] = D' ++ [a'; b'] → D = D' ∧ a = a' ∧ b = b'.
Proof.
  intros Heq. apply app_inj_2 in Heq as [-> [= -> ->]]; done.
Qed.

(** What an accepted signature check has checked. *)
Definition signed (e : Engine) (key s : list byte) : Prop :=
  ∃ tx input idx entry p2sh sig typ t msg r,
    script_source e = TxInput tx input idx entry p2sh ∧ s = sig ++ [typ] ∧
    SigHashType_from_u8 typ = Some t ∧ len key = MLDSA87_PK_LEN ∧ len sig = MLDSA87_SIG_LEN ∧
    calc_mldsa87_signature_hash (E:=TxScriptError) tx idx t ReusedValues_new = Ok (msg, r) ∧
    (mldsa87_verify key msg MLDSA87_TX_CONTEXT sig = true ∨ digest_confusion key sig msg true).

Lemma consume_iff e e' :
  consume e = (e', Ok tt) ↔
  sig_op_remaining (runtime_sig_op_counter e) ≠ 0 ∧
  e' = set_counter (mkCounter (sig_op_limit (runtime_sig_op_counter e))
         (sig_op_remaining (runtime_sig_op_counter e) - 1)) e.
Proof.
  unfold consume, mbind, SM_bind, get, lift, consume_sig_op, modify.
  destruct (Z.eqb_spec (sig_op_remaining (runtime_sig_op_counter e)) 0); naive_solver.
Qed.

Lemma check_mldsa87_signature_inv t key sig e e' :
  cache_ok (sig_cache e) → check_mldsa87_signature t key sig e = (e', Ok true) →
  ∃ tx input idx entry p2sh msg r,
    script_source e = TxInput tx input idx entry p2sh ∧ len key = MLDSA87_PK_LEN ∧ len sig = MLDSA87_SIG_LEN ∧
    calc_mldsa87_signature_hash (E:=TxScriptError) tx idx t ReusedValues_new = Ok (msg, r) ∧
    (mldsa87_verify key msg MLDSA87_TX_CONTEXT sig = true ∨ digest_confusion key sig msg true).
Proof.
  intros Hc. unfold check_mldsa87_signature. rewrite bind_iff. intros ([] & e1 & [_ ->]%consume_iff & H1).
  apply bind_iff in H1 as (e2 & e3 & [= <- <-] & H1). cbn [script_source set_counter] in H1.
  destruct (script_source e) as [tx input idx entry p2sh|]; [|done].
  destruct (Z.eqb_spec (len key) MLDSA87_PK_LEN) as [Hk|]; [|done].
  destruct (Z.eqb_spec (len sig) MLDSA87_SIG_LEN) as [Hs|]; [|done]. cbn [negb] in H1.
  apply bind_iff in H1 as ([msg r] & e4 & [= <- Hh] & H1).
  exists tx, input, idx, entry, p2sh, msg, r. split_and!; try done.
  change (mkSigCacheKey _ _ _) with (cache_key key sig msg) in H1. cbn [sig_cache set_counter] in H1.
  pose proof (cached_is_verified (sig_cache e) key sig msg) as Hv.
  destruct (Cache_get (sig_cache e) (cache_key key sig msg)) as [c found]. cbn [snd] in Hv.
  apply bind_iff in H1 as ([] & e5 & _ & H1). destruct found as [v|].
  - injection H1 as _ ->. destruct (Hv true Hc eq_refl) as [<-|]; [by left|by right].
  - apply bind_iff in H1 as ([] & e6 & _ & [= _ ->]). by left.
Qed.

Lemma check_mldsa87_signature_frame t key sig e e' b :
  check_mldsa87_signature t key sig e = (e', Ok b) → dstack e' = dstack e ∧ cond_stack e' = cond_stack e.
Proof.
  unfold check_mldsa87_signature. rewrite bind_iff. intros ([] & e1 & [_ ->]%consume_iff & H1).
  apply bind_iff in H1 as (e2 & e3 & [= <- <-] & H1). destruct (script_source _); [|done].
  destruct (negb _); [done|]. destruct (negb _); [done|]. apply bind_iff in H1 as ([msg r] & e4 & [= <- _] & H1).
  destruct (Cache_get _ _) as [c found]. apply bind_iff in H1 as ([] & e5 & [= <-] & H1).
  destruct found; [by injection H1 as <-|]. apply bind_iff in H1 as ([] & e6 & [= <-] & [= <- _]). done.
Qed.

Lemma check_sig_inv e e' :
  cache_ok (sig_cache e) → op_check_sig_mldsa87 e = (e', Ok tt) →
  ∃ D s key b, dstack e = D ++ [s; key] ∧ dstack e' = D ++ [if b : bool then [1] else []] ∧
    (b = true → signed e key s).
Proof.
  intros Hc. unfold op_check_sig_mldsa87, op_check_sig_with. rewrite bind_iff.
  intros ([s key] & e1 & (D & HD & ->)%pop_raw2_iff & H1). exists D, s, key.
  destruct (last s) as [typ|] eqn:Hl; cycle 1.
  { injection H1 as <-. by exists false. }
  apply last_Some in Hl as [sig ->]. rewrite removelast_last in H1.
  destruct (SigHashType_from_u8 typ) as [t|] eqn:Ht; [|done].
  apply bind_iff in H1 as (b & e2 & H1 & H2). exists b. split; [done|].
  destruct (check_mldsa87_signature_frame _ _ _ _ _ _ H1) as [Hd _]. split.
  { injection H2 as <-. cbn. rewrite Hd. done. }
  intros ->. apply check_mldsa87_signature_inv in H1 as (tx & input & idx & entry & p2sh & msg & r & Hrest); [|done].
  exists tx, input, idx, entry, p2sh, sig, typ, t, msg, r. naive_solver.
Qed.

(** The forward direction: with a signature operation left and a signature
    that verifies, the check pushes true. *)
Lemma check_mldsa87_signature_valid t key sig e tx input idx entry p2sh msg r :
  cache_ok (sig_cache e) → script_source e = TxInput tx input idx entry p2sh →
  sig_op_remaining (runtime_sig_op_counter e) ≠ 0 →
  len key = MLDSA87_PK_LEN → len sig = MLDSA87_SIG_LEN →
  calc_mldsa87_signature_hash (E:=TxScriptError) tx idx t ReusedValues_new = Ok (msg, r) →
  mldsa87_verify key msg MLDSA87_TX_CONTEXT sig = true →
  (∃ e', check_mldsa87_signature t key sig e = (e', Ok true) ∧ astack e' = astack e) ∨ digest_confusion key sig msg false.
Proof.
  intros Hc Hsrc Hn Hk Hs Hh Hv. unfold check_mldsa87_signature, mbind, SM_bind.
  destruct (consume e) as [e1 r1] eqn:E1.
  assert (Hcon : consume e = (set_counter (mkCounter (sig_op_limit (runtime_sig_op_counter e))
         (sig_op_remaining (runtime_sig_op_counter e) - 1)) e, Ok tt)) by (by apply consume_iff).
  rewrite Hcon in E1. injection E1 as <- <-. unfold get, lift, modify. cbn [script_source set_counter sig_cache]. rewrite Hsrc.
  rewrite Hk, Hs, !Z.eqb_refl. cbn [negb]. rewrite Hh.
  change (mkSigCacheKey _ _ _) with (cache_key key sig msg).
  pose proof (cached_is_verified (sig_cache e) key sig msg) as Hg.
  destruct (Cache_get (sig_cache e) (cache_key key sig msg)) as [c [v|]]; cbn [snd] in Hg.
  - destruct v; [left; eexists; split; reflexivity|].
    destruct (Hg false Hc eq_refl) as [Hf|]; [congruence|by right].
  - left. rewrite Hv. eexists. split; reflexivity.
Qed.

(** ** The two scripts of an input *)

Definition ran (s : list byte) (push_only : bool) (e e' : Engine) : Prop :=
  if bool_decide (s = []) then e' = e else execute_script s push_only e = (e', Ok tt).

Lemma execute_iff e e' tx input idx entry :
  script_source e = TxInput tx input idx entry false →
  spk_version (script_public_key entry) = MAX_SCRIPT_PUBLIC_KEY_VERSION →
  spk_script (script_public_key entry) ≠ [] →
  len (spk_script (script_public_key entry)) ≤ MAX_SCRIPTS_SIZE →
  execute e = (e', Ok tt) ↔
  len (signature_script input) ≤ MAX_SCRIPTS_SIZE ∧
  ∃ e1 e2, ran (signature_script input) true e e1 ∧
    execute_script (spk_script (script_public_key entry)) false e1 = (e2, Ok tt) ∧
    check_error_condition true e2 = (e', Ok tt).
Proof.
  intros Hsrc Hv Hne Hlen. unfold execute. unfold mbind at 1, SM_bind at 1, get at 1. rewrite Hsrc, Hv.
  set (s0 := signature_script input). set (s1 := spk_script (script_public_key entry)) in *.
  replace (MAX_SCRIPT_PUBLIC_KEY_VERSION >? MAX_SCRIPT_PUBLIC_KEY_VERSION) with false by done.
  unfold execute_with, mbind at 1, SM_bind at 1, get at 1. rewrite andb_false_r.
  rewrite bool_decide_eq_false_2 by done. cbn [forallb]. rewrite (bool_decide_eq_false_2 (s1 = [])) by done.
  rewrite andb_false_r. cbn [andb List.find].
  replace (len s1 >? MAX_SCRIPTS_SIZE) with false by lia.
  destruct (Z.gtb_spec (len s0) MAX_SCRIPTS_SIZE) as [Hg|Hg]; [split; [done|intros [? _]; lia]|].
  rewrite bind_iff. cbn [execute_scripts andb Nat.eqb].
  rewrite (bool_decide_eq_false_2 (s1 = [])) by done. unfold ran.
  assert (Htail : ∀ (saved : option Stack) e1 a e3,
    (e ← get; _ ← execute_script s1 false; mret saved) e1 = (e3, Ok a) ↔
    a = saved ∧ execute_script s1 false e1 = (e3, Ok tt)).
  { intros saved e1 a e3. unfold mbind at 1, SM_bind at 1, get. rewrite bind_iff. split.
    - intros ([] & e4 & H1 & [= <- <-]). done.
    - intros [-> H1]. by exists tt, e3. }
  assert (Hk : ∀ e1, (∃ (a : option Stack) e3, (e ← get; _ ← execute_script s1 false; mret None) e1 = (e3, Ok a) ∧
      (_ ← mret tt; check_error_condition true) e3 = (e', Ok tt)) ↔
    ∃ e2, execute_script s1 false e1 = (e2, Ok tt) ∧ check_error_condition true e2 = (e', Ok tt)).
  { intros e1. setoid_rewrite Htail. split; [intros (a & e3 & [_ ?] & ?)|intros (e2 & ? & ?)]; naive_solver. }
  case_bool_decide as Hs0.
  - rewrite Hk. split; [intros (e2 & ?)|intros (_ & e1 & e2 & -> & ?)]; naive_solver.
  - split.
    + intros (a & e3 & (e4 & e5 & [= <- <-] & ([] & e6 & H1 & H2)%bind_iff)%bind_iff & H3).
      destruct (proj1 (Hk e6)) as (e2 & ?); [by exists a, e3|]. naive_solver.
    + intros (_ & e1 & e2 & H1 & H23). destruct (proj2 (Hk e1)) as (a & e3 & H4 & H5); [by exists e2|].
      exists a, e3. split; [|done]. apply bind_iff. exists e, e. split; [done|]. apply bind_iff. by exists tt, e1.
Qed.

Lemma execute_script_iff s b e e' :
  execute_script s b e = (e', Ok tt) ↔
  ∃ e1, try_for_each (execute_parsed b) (parse_script s) e = (e1, Ok tt) ∧ cond_stack e1 = [] ∧
    e' = set_num_ops 0 (set_astack [] e1).
Proof.
  unfold execute_script. destruct (try_for_each _ _ e) as [e1 r]. split.
  - destruct r as [[]| | |]; try done. case_bool_decide; [|done]. intros [= <-]. eauto.
  - intros (e2 & [= -> ->] & Hc & ->). by rewrite bool_decide_eq_true_2.
Qed.

Lemma check_error_condition_iff e e' :
  check_error_condition true e = (e', Ok tt) ↔
  ∃ v, dstack e = [v] ∧ deserialize data_bool v = Ok true ∧ e' = set_dstack [] e.
Proof.
  unfold check_error_condition. unfold mbind at 1, SM_bind at 1, get. cbn [andb].
  destruct (dstack e) as [|v [|w D]] eqn:HD.
  - split; [done|]. by intros (v & ? & _).
  - cbn [length Nat.ltb Nat.leb]. rewrite bool_decide_eq_false_2 by done.
    unfold pop1. rewrite bind_iff. split.
    + intros (b & e1 & H1 & H2). apply bind_iff in H1 as (l & e2 & H1 & H3). unfold on_dstack, pop_items in H1.
      rewrite HD in H1. cbn [length Nat.ltb Nat.leb Nat.sub drop take collect] in H1. exists v. split; [done|].
      destruct (deserialize data_bool v) as [b'| | |]; try done. simplify_eq/=. injection H3 as <- <-. destruct b'; [by injection H2 as <-|done].
    + intros (v' & [= <-] & Hd & ->). exists true, (set_dstack [] e). split; [|done]. apply bind_iff.
      exists [true], (set_dstack [] e). split; [|done]. unfold on_dstack, pop_items. rewrite HD.
      cbn [length Nat.ltb Nat.leb Nat.sub drop take collect]. by rewrite Hd.
  - cbn [length Nat.ltb Nat.leb]. split; [done|]. by intros (? & ? & _).
Qed.

(** ** The scripts that commit to a key *)

(** The key hash a P2PKH output or an EVM deposit lock commits to. *)
Definition key_hash (spk : ScriptPublicKey) : option (list byte) :=
  match ScriptClass_from_script spk with
  | PubKeyHashMlDsa87 => Some (slice 3 67 (spk_script spk))
  | EvmDepositLock => Some (slice 42 106 (spk_script spk))
  | _ => None
  end.

(** The opcodes before the P2PKH template: none, or the lock data. *)
Definition lock_prefix (pre : list OpCode) : Prop :=
  pre = [] ∨ ∃ lock, bytes lock ∧ length lock = 36%nat ∧
    pre = [mkOpCode codes.OpNop []; push_op lock; mkOpCode codes.OpDrop []].

Lemma template_slice h : length h = 64%nat → slice 3 67 (template VPubKeyHashMlDsa87 h) = h.
Proof. intros Hl. unfold slice, template. cbn [app drop Nat.sub]. by rewrite drop_0, take_app_length' by done. Qed.

Lemma is_p2pkh_template s :
  is_pay_to_pub_key_hash_mldsa87 s = true →
  length (slice 3 67 s) = 64%nat ∧ s = template VPubKeyHashMlDsa87 (slice 3 67 s).
Proof.
  intros (h & Hl & Hs)%(recognise_spec VPubKeyHashMlDsa87). cbn [public_key_len] in Hl. subst s.
  rewrite template_slice by done. done.
Qed.

Lemma is_evm_deposit_lock_shape s :
  is_evm_deposit_lock s = true →
  ∃ lock, length lock = 36%nat ∧ length (slice 42 106 s) = 64%nat ∧
    s = [codes.OpNop] ++ (codes.OpData36 :: lock) ++ [codes.OpDrop] ++ template VPubKeyHashMlDsa87 (slice 42 106 s).
Proof.
  unfold is_evm_deposit_lock. rewrite !andb_true_iff, !byte_is_spec, Z.eqb_eq.
  intros [[[[Hl H0] H1] H2] [Hh Ht]%is_p2pkh_template].
  assert (Hsl : slice 3 67 (drop 39 s) = slice 42 106 s) by (unfold slice; by rewrite drop_drop).
  rewrite Hsl in Hh, Ht. destruct s as [|x [|y s]]; [done..|]. injection H0 as ->. injection H1 as ->.
  exists (take 36 s). simpl in Hl. rewrite length_take. split_and!; [lia|done|]. cbn [app]. do 2 f_equal.
  change (drop 39 (codes.OpNop :: codes.OpData36 :: s)) with (drop 37 s) in Ht. rewrite <- Ht.
  change (s !! 36%nat = Some codes.OpDrop) in H2. by rewrite take_drop_middle.
Qed.

Lemma key_hash_script spk h :
  bytes (spk_script spk) → key_hash spk = Some h →
  spk_version spk = MAX_SCRIPT_PUBLIC_KEY_VERSION ∧ length h = 64%nat ∧ bytes h ∧
  spk_script spk ≠ [] ∧ len (spk_script spk) ≤ MAX_SCRIPTS_SIZE ∧ is_pay_to_script_hash (spk_script spk) = false ∧
  ∃ pre, lock_prefix pre ∧ parse_script (spk_script spk) = Ok <$> (pre ++ p2pkh_ops h).
Proof.
  unfold key_hash. intros Hb Hh. set (s := spk_script spk) in *.
  assert (Hcases : spk_version spk = MAX_SCRIPT_PUBLIC_KEY_VERSION ∧
    (is_pay_to_pub_key_hash_mldsa87 s = true ∧ h = slice 3 67 s ∨ is_evm_deposit_lock s = true ∧ h = slice 42 106 s)).
  { unfold ScriptClass_from_script in Hh. fold s in Hh.
    destruct (Z.eqb_spec (spk_version spk) MAX_SCRIPT_PUBLIC_KEY_VERSION); [|done].
    destruct (is_pay_to_pub_key_hash_mldsa87 s) eqn:E1; [naive_solver|].
    destruct (is_evm_deposit_lock s) eqn:E2; [naive_solver|].
    by destruct (is_pay_to_pubkey s), (is_pay_to_pubkey_ecdsa s), (is_pay_to_script_hash s). }
  destruct Hcases as [Hv Hcases]. split; [done|]. clear Hh.
  assert (Hbh : bytes h) by (destruct Hcases as [[_ ->]|[_ ->]]; unfold slice; by apply Forall_take, Forall_drop).
  destruct Hcases as [[Ht ->]|[Ht ->]].
  - pose proof (is_p2pkh_template s Ht) as [Hl Hs].
    destruct (parse_p2pkh (slice 3 67 s) [] Hbh Hl ltac:(constructor)) as [_ Hp].
    rewrite app_nil_r, <- Hs, app_nil_r in Hp. rewrite Hs at 3 4 5.
    unfold is_pay_to_script_hash, template. rewrite !length_app, Hl.
    split_and!; [done..|]. exists []. split; [by left|done].
  - destruct (is_evm_deposit_lock_shape s Ht) as (lock & Hlock & Hl & Hs).
    assert (Hbl : bytes lock).
    { rewrite Hs in Hb. apply Forall_app in Hb as [_ Hb]. apply Forall_app in Hb as [Hb _]. by inversion Hb. }
    destruct (parse_p2pkh (slice 42 106 s) [] Hbh Hl ltac:(constructor)) as [Hbt Hp]. rewrite app_nil_r in Hp, Hbt.
    set (pre := [mkOpCode codes.OpNop []; push_op lock; mkOpCode codes.OpDrop []]).
    assert (Hs' : s = concat (opcode_serialize <$> pre) ++ template VPubKeyHashMlDsa87 (slice 42 106 s)).
    { rewrite Hs at 1. unfold pre. csimpl. rewrite (data_serialize lock 36 Hlock) by lia.
      rewrite <- !(assoc_L (++)). done. }
    destruct (parse_serialized pre (template VPubKeyHashMlDsa87 (slice 42 106 s))) as [_ Hps]; [|done|].
    { repeat constructor; first [by apply plain_fits|apply push_op_fits; [done|lia]|done]. }
    rewrite <- Hs', Hp in Hps.
    assert (Hls : length s = 108%nat) by (rewrite Hs, !length_app; unfold template; rewrite !length_app; simpl; lia).
    split_and!; [done|done| | | |].
    + by intros ->.
    + rewrite Hls. done.
    + unfold is_pay_to_script_hash. by rewrite Hls.
    + exists pre. split; [right; by exists lock|]. by rewrite Hps, fmap_app, app_nil_r.
Qed.

Definition run (ops : list OpCode) (e e' : Engine) : Prop :=
  try_for_each (execute_parsed false) (Ok <$> ops) e = (e', Ok tt).

(** The lock data is pushed and dropped: the prefix only counts operations. *)
Lemma run_prefix pre :
  lock_prefix pre → ∃ n, 0 ≤ n ≤ 2 ∧ ∀ ops e e', cond_stack e = [] → num_ops e = 0 →
    (run (pre ++ ops) e e' → run ops (set_num_ops n e) e') ∧
    (len (astack e) + len (dstack e) + 1 ≤ MAX_STACK_SIZE → run ops (set_num_ops n e) e' → run (pre ++ ops) e e').
Proof.
  intros [->|(lock & Hb & Hl & ->)].
  { exists 0. split; [lia|]. intros ops e e' _ Hn. assert (set_num_ops 0 e = e) as -> by (destruct e; cbn in *; by subst).
    done. }
  exists 2. split; [lia|]. intros ops e e' Hc Hn. unfold run. cbn [app]. rewrite !fmap_cons.
  assert (Hm : len lock ≤ MAX_SCRIPT_ELEMENT_SIZE) by (rewrite Hl; done).
  rewrite (run_plain_iff _ _ _ _ _ nop_entry) by (done || rewrite Hn; done). split.
  - intros (e1 & [[= <-] _] & [S1 H2]%run_push_iff); [|done..].
    apply (run_plain_iff _ _ _ _ _ drop_entry) in H2 as (e2 & [(D & x & HD & ->)%drop_iff _] & H3); [|done|done|cbn; rewrite Hn; done].
    cbn in HD. apply app_inj_tail in HD as [<- _]. rewrite <- H3. f_equal.
    apply engine_eq; cbn; try reflexivity. lia.
  - intros Hs H3. exists (set_num_ops (num_ops e + 1) e). split; [split; [done|unfold size_ok; cbn; lia]|].
    apply run_push_iff; [done..|]. split; [unfold size_ok; cbn; rewrite length_app; simpl; lia|].
    apply (run_plain_iff _ _ _ _ _ drop_entry); [done|done|cbn; rewrite Hn; done|].
    eexists. split; [split; [apply drop_iff; by exists (dstack e), lock|unfold size_ok; cbn; lia]|].
    rewrite <- H3. f_equal. apply engine_eq; cbn; try reflexivity. lia.
Qed.

(** Running a script that commits to a key, on a fresh operation count. *)
Lemma locked_script_sound e e2 e' spk h :
  bytes (spk_script spk) → key_hash spk = Some h → cache_ok (sig_cache e) →
  cond_stack e = [] → num_ops e = 0 →
  execute_script (spk_script spk) false e = (e2, Ok tt) → check_error_condition true e2 = (e', Ok tt) →
  ∃ key s, dstack e = [s; key] ∧ blake2b_512_address_payload key = h ∧ signed e key s.
Proof.
  intros Hb Hh Hcache Hc Hn Hex Hend.
  destruct (key_hash_script spk h Hb Hh) as (_ & Hl & Hbh & _ & _ & _ & pre & Hpre & Hparse).
  apply execute_script_iff in Hex as (e1 & Hrun & _ & ->). rewrite Hparse in Hrun.
  destruct (run_prefix pre Hpre) as (n & Hn' & Hpr). apply Hpr in Hrun; [|done..]. unfold run in Hrun.
  apply p2pkh_run_iff in Hrun as (D & x & HD & Hx & _ & Hcs & _); [|done|done|done|cbn; unfold MAX_OPS_PER_SCRIPT; lia].
  apply check_sig_inv in Hcs as (D' & s & key & b & HD' & Hd1 & Hsig); [|done].
  apply check_error_condition_iff in Hend as (v & Hv & Hdes & _).
  cbn in HD, HD', Hv. rewrite Hv in Hd1. symmetry in Hd1.
  destruct D' as [|? D']; [|by destruct D']. injection Hd1 as <-.
  rewrite HD in HD'. change ([] ++ [s; key]) with ([s] ++ [key]) in HD'. apply app_inj_tail in HD' as [-> ->].
  exists key, s. split_and!; [done|done|]. destruct b; [|done]. by apply Hsig.
Qed.

Lemma locked_script_complete e tx input idx entry p2sh spk h key sig typ t msg r :
  bytes (spk_script spk) → key_hash spk = Some h → cache_ok (sig_cache e) →
  cond_stack e = [] → num_ops e = 0 → astack e = [] → dstack e = [sig ++ [typ]; key] →
  script_source e = TxInput tx input idx entry p2sh → sig_op_remaining (runtime_sig_op_counter e) ≠ 0 →
  blake2b_512_address_payload key = h → SigHashType_from_u8 typ = Some t →
  len key = MLDSA87_PK_LEN → len sig = MLDSA87_SIG_LEN →
  calc_mldsa87_signature_hash (E:=TxScriptError) tx idx t ReusedValues_new = Ok (msg, r) →
  mldsa87_verify key msg MLDSA87_TX_CONTEXT sig = true →
  (∃ e2 e', execute_script (spk_script spk) false e = (e2, Ok tt) ∧ check_error_condition true e2 = (e', Ok tt)) ∨
  digest_confusion key sig msg false.
Proof.
  intros Hb Hh Hcache Hc Hn Ha Hd Hsrc Hops Hk Ht Hlk Hls Hmsg Hv.
  destruct (key_hash_script spk h Hb Hh) as (_ & Hl & Hbh & _ & _ & _ & pre & Hpre & Hparse).
  destruct (run_prefix pre Hpre) as (n & Hn' & Hpr).
  set (e4 := set_dstack [] (set_num_ops (n + 4) e)).
  destruct (check_mldsa87_signature_valid t key sig e4 tx input idx entry p2sh msg r) as [(e3 & H3 & Ha3)|]; try done;
    [left|by right].
  destruct (check_mldsa87_signature_frame _ _ _ _ _ _ H3) as [Hd3 Hc3]. cbn in Hd3, Hc3, Ha3.
  set (e5 := set_dstack [[1]] e3).
  assert (Hcs : op_check_sig_mldsa87 (set_num_ops (n + 4) e) = (e5, Ok tt)).
  { unfold op_check_sig_mldsa87, op_check_sig_with. apply bind_iff. exists (sig ++ [typ], key), e4.
    split; [apply pop_raw2_iff; exists []; by rewrite <- Hd|]. rewrite last_snoc, Ht, removelast_last.
    apply bind_iff. exists true, e3. split; [done|]. unfold push_bool, on_dstack, push_item. by rewrite Hd3. }
  exists (set_num_ops 0 (set_astack [] e5)). eexists. split.
  - apply execute_script_iff. exists e5. split; [|split; [|done]]; [|by cbn; rewrite Hc3].
    rewrite Hparse. apply Hpr; [done|done|by rewrite Ha, Hd|]. unfold run.
    apply p2pkh_run_iff; [done|done|done|cbn; unfold MAX_OPS_PER_SCRIPT; lia|].
    exists [sig ++ [typ]], key. cbn. rewrite Ha, Hd. split_and!; try done. unfold size_ok. cbn. rewrite Ha3, Ha. done.
  - apply check_error_condition_iff. by exists [1].
Qed.
End p2pkh.

(** ** Spending an input *)

Section spending.
Context {HC : Crypto} {HR : Rng}.

(** The state in which the script of the output starts. *)
Record fresh (src : ScriptSource) (e : Engine) : Prop := {
  fr_source : script_source e = src;
  fr_cond : cond_stack e = [];
  fr_ops : num_ops e = 0;
  fr_astack : astack e = [];
  fr_cache : cache_ok (sig_cache e);
}.

Lemma from_transaction_input_fresh tx input idx entry cache p e :
  cache_ok cache → @from_transaction_input TxScriptError tx input idx entry cache = Ok e →
  fresh (input_source tx input idx entry) (with_script_policy p e) ∧ dstack (with_script_policy p e) = [] ∧
  runtime_sig_op_counter (with_script_policy p e) = RuntimeSigOpCounter_new (sig_op_count input).
Proof.
  intros Hc. unfold from_transaction_input. destruct (_ <? _)%nat; [|done]. intros [= <-]. done.
Qed.

Lemma ran_fresh lim p src s e e1 :
  source_ok src → bytes s → engine_ok lim p src e → fresh src e → ran s true e e1 → fresh src e1.
Proof.
  intros Hsrc Hb He Hf. unfold ran. case_bool_decide; [by intros ->|]. intros Hex.
  destruct (os_execute_script lim p src Hsrc s true Hb e He) as [_ Hok].
  pose proof (kc_execute_script s true e (fr_cache _ _ Hf)) as Hcache. rewrite Hex in Hok, Hcache.
  destruct (Hok tt eq_refl) as [He1 _]. apply execute_script_iff in Hex as (e2 & _ & Hc & ->).
  split; [apply (eo_source _ _ _ _ He1)|done..].
Qed.
End spending.

Lemma p2pkh_spend_sound `{Crypto} `{Rng} tx input idx entry cache p e h :
  source_ok (input_source tx input idx entry) → 0 ≤ sig_op_count input ≤ 255 → cache_ok cache →
  key_hash (script_public_key entry) = Some h →
  @from_transaction_input TxScriptError tx input idx entry cache = Ok e →
  (execute (with_script_policy p e)).2 = Ok tt →
  ∃ key sig typ t msg r,
    blake2b_512_address_payload key = h ∧ len key = MLDSA87_PK_LEN ∧ len sig = MLDSA87_SIG_LEN ∧
    SigHashType_from_u8 typ = Some t ∧
    calc_mldsa87_signature_hash (E:=TxScriptError) tx idx t ReusedValues_new = Ok (msg, r) ∧
    (mldsa87_verify key msg MLDSA87_TX_CONTEXT sig = true ∨ digest_confusion key sig msg true).
Proof.
  intros Hsrc Hn Hcache Hkey Hfrom Hex.
  destruct (from_transaction_input_ok (E:=TxScriptError) tx input idx entry cache p Hsrc Hn) as (e' & He' & Hok).
  rewrite Hfrom in He'. injection He' as <-.
  destruct (from_transaction_input_fresh tx input idx entry cache p e Hcache Hfrom) as (Hf & _ & _).
  pose proof Hsrc as (_ & _ & _ & Hbs & Hbp & _).
  destruct (key_hash_script _ h Hbp Hkey) as (Hver & _ & _ & Hne & Hlen & Hp2sh & _).
  destruct (execute (with_script_policy p e)) as [e3 res] eqn:E. cbn in Hex. subst res.
  pose proof (fr_source _ _ Hf) as Hs0. unfold input_source in Hs0. rewrite Hp2sh in Hs0.
  apply (execute_iff _ _ _ _ _ _ Hs0 Hver Hne Hlen) in E as (_ & e1 & e2 & Hran & Hspk & Hend).
  assert (Hf1 : fresh (input_source tx input idx entry) e1) by exact (ran_fresh _ p _ _ _ _ Hsrc Hbs Hok Hf Hran).
  destruct Hf1 as [Hs1 Hc1 Hn1 _ Hk1].
  destruct (locked_script_sound e1 e2 e3 _ h Hbp Hkey Hk1 Hc1 Hn1 Hspk Hend) as (key & s & _ & Hkh & Hsig).
  destruct Hsig as (tx' & input' & idx' & entry' & b & sig & typ & t & msg & r & Hsrc' & _ & Ht & Hlk & Hls & Hm & Hv).
  rewrite Hs1 in Hsrc'. injection Hsrc' as <- <- <- <- _. by exists key, sig, typ, t, msg, r.
Qed.

(** Nobody spends a P2PKH output (or refunds an EVM deposit lock) without
    the key: whatever the signature script is, under any policy and with any
    sound cache, if the engine accepts the input then there is a public key
    that hashes to the payload of the output and a signature of the ML-DSA-87
    signature hash of this transaction and input that verifies under it; or the
    signature cache confuses this key and signature with another pair that has
    the same digests and verifies. *)
Theorem p2pkh_spend_requires_signature `{Crypto} `{Rng} tx input idx entry cache p e h :
  source_ok (input_source tx input idx entry) → 0 ≤ sig_op_count input ≤ 255 → cache_ok cache →
  key_hash (script_public_key entry) = Some h →
  @from_transaction_input TxScriptError tx input idx entry cache = Ok e →
  (execute (with_script_policy p e)).2 = Ok tt →
  ∃ key sig typ t msg r,
    blake2b_512_address_payload key = h ∧ len key = MLDSA87_PK_LEN ∧ len sig = MLDSA87_SIG_LEN ∧
    SigHashType_from_u8 typ = Some t ∧
    calc_mldsa87_signature_hash (E:=TxScriptError) tx idx t ReusedValues_new = Ok (msg, r) ∧
    (mldsa87_verify key msg MLDSA87_TX_CONTEXT sig = true ∨ digest_confusion key sig msg true).
Proof. apply p2pkh_spend_sound. Qed.

Lemma push_two_script `{Crypto} `{Rng} b1 b2 a b :
  bytes a → bytes b → add_data ScriptBuilder_new a = Ok b1 → add_data b1 b = Ok b2 →
  len a ≤ MAX_SCRIPT_ELEMENT_SIZE ∧ len b ≤ MAX_SCRIPT_ELEMENT_SIZE ∧
  script b2 ≠ [] ∧ parse_script (script b2) = Ok <$> [push_op a; push_op b].
Proof.
  intros Ha Hb [-> Hla]%add_data_Ok [-> Hlb]%add_data_Ok. split_and!; [done|done| |];
    rewrite !add_raw_data_spec by (unfold MAX_SCRIPT_ELEMENT_SIZE in *; lia); cbn [script ScriptBuilder_new app].
  - unfold opcode_serialize at 1. by case_match.
  - destruct (parse_serialized [push_op a; push_op b] []) as [_ Hp]; [|constructor|].
    { repeat constructor; try apply push_op_fits; try done; unfold MAX_SCRIPT_ELEMENT_SIZE in *; lia. }
    csimpl in Hp. rewrite !app_nil_r in Hp. done.
Qed.

(** The owner can spend: a signature script that pushes a signature with
    its type byte and the public key, as [ScriptBuilder] writes it, is accepted
    whenever the key hashes to the payload of the output, the type is one of
    the allowed ones, the signature of the signature hash verifies and the
    input declares a signature operation; or the signature cache confuses this
    key and signature with another pair of the same digests that does not
    verify. *)
Theorem p2pkh_spend_accepted `{Crypto} `{Rng} tx input idx entry cache p e h key sig typ t msg r b1 b2 :
  source_ok (input_source tx input idx entry) → 1 ≤ sig_op_count input ≤ 255 → cache_ok cache →
  key_hash (script_public_key entry) = Some h →
  bytes sig → is_byte typ → bytes key →
  add_data ScriptBuilder_new (sig ++ [typ]) = Ok b1 → add_data b1 key = Ok b2 →
  signature_script input = script b2 → len (script b2) ≤ MAX_SCRIPTS_SIZE →
  blake2b_512_address_payload key = h → len key = MLDSA87_PK_LEN → len sig = MLDSA87_SIG_LEN →
  SigHashType_from_u8 typ = Some t →
  calc_mldsa87_signature_hash (E:=TxScriptError) tx idx t ReusedValues_new = Ok (msg, r) →
  mldsa87_verify key msg MLDSA87_TX_CONTEXT sig = true →
  @from_transaction_input TxScriptError tx input idx entry cache = Ok e →
  (execute (with_script_policy p e)).2 = Ok tt ∨ digest_confusion key sig msg false.
Proof.
  intros Hsrc Hn Hcache Hkey Hbs Hbt Hbk Hb1 Hb2 Hss Hsl Hkh Hlk Hls Ht Hm Hv Hfrom.
  destruct (from_transaction_input_fresh tx input idx entry cache p e Hcache Hfrom) as ([Hs0 Hc0 Hn0 Ha0 Hk0] & Hd0 & Hcnt).
  pose proof Hsrc as (_ & _ & _ & _ & Hbp & _).
  destruct (key_hash_script _ h Hbp Hkey) as (Hver & _ & _ & Hne & Hlen & Hp2sh & _).
  assert (Hbst : bytes (sig ++ [typ])) by (apply Forall_app; split; [done|by constructor]).
  destruct (push_two_script b1 b2 _ _ Hbst Hbk Hb1 Hb2) as (Hl1 & Hl2 & Hne2 & Hparse).
  set (e0 := with_script_policy p e) in *. clearbody e0. set (e1 := set_dstack [sig ++ [typ]; key] e0).
  assert (Hran : ran (signature_script input) true e0 (set_num_ops 0 (set_astack [] e1))).
  { unfold ran. rewrite Hss, bool_decide_eq_false_2 by done. apply execute_script_iff. exists e1.
    split; [|done]. rewrite Hparse. apply run_push_iff; [done..|].
    split; [unfold size_ok; cbn [astack set_dstack]; rewrite Ha0, Hd0; done|].
    apply run_push_iff; [done..|]. split; [unfold size_ok; cbn; rewrite Ha0, Hd0; done|].
    unfold e1. cbn [dstack set_dstack]. rewrite Hd0. done. }
  unfold input_source in Hs0. rewrite Hp2sh in Hs0.
  destruct (locked_script_complete (set_num_ops 0 (set_astack [] e1)) tx input idx entry false (script_public_key entry) h key sig typ t msg r)
    as [(e2 & e3 & H2 & H3)|]; try done; [|left|by right].
  { unfold e1. cbn [runtime_sig_op_counter set_num_ops set_astack set_dstack]. rewrite Hcnt. cbn. lia. }
  assert (Hfin : execute e0 = (e3, Ok tt)) by (apply (execute_iff _ _ _ _ _ _ Hs0 Hver Hne Hlen);
    split; [by rewrite Hss|]; by exists (set_num_ops 0 (set_astack [] e1)), e2).
  by rewrite Hfin.
Qed.
