(* ===== verification/ScriptWitness.v ===== *)
(** * Witnesses for the hashing and script theorems

    One transaction that spends a P2PKH output, with toy cryptography: the
    hypotheses of the theorems about digests, scripts, the signature cache and
    spending hold together. *)

From stdpp Require Import base list gmap strings.
From Stdlib Require Import ZArith Lia.
From S2P Require Import Prelude Tx Bytes Hashing SigHash ScriptNum ScriptOps ScriptEngine ScriptSafe ScriptParse ScriptSpend Address ScriptStd ScriptP2pkh.

Local Open Scope Z_scope.

Module ScriptWitness.
#[local] Existing Instance toy_crypto.
#[local] Existing Instance toy_rng.

Definition key : list byte := replicate (Z.to_nat MLDSA87_PK_LEN) 7.
Definition sig : list byte := replicate (Z.to_nat MLDSA87_SIG_LEN) 7.
Definition spk : ScriptPublicKey :=
  mkScriptPublicKey 0 (template VPubKeyHashMlDsa87 (blake2b_512_address_payload key)).
Definition first_push : ScriptBuilder := add_raw_data ScriptBuilder_new (sig ++ [SIG_HASH_ALL]).
Definition both_pushes : ScriptBuilder := add_raw_data first_push key.
Definition entry : UtxoEntry := mkUtxoEntry 10 spk 5 false.
Definition input : TransactionInput := mkInput (mkOutpoint 1 0) (script both_pushes) 0 1.
Definition tx : Transaction := mkTransaction 0 [input] [mkOutput 9 spk] 0 SUBNETWORK_ID_NATIVE 0 [] 0 3.
Definition ptx : PopulatedTransaction := mkPopulated tx [entry].
Definition cache : Cache := Cache_new 10.
Definition engine : Engine :=
  mkEngine [] [] (TxInput ptx input 0 entry false) cache [] 0 (RuntimeSigOpCounter_new 1) LEGACY.
Definition msg : list byte :=
  match @calc_mldsa87_signature_hash _ TxScriptError ptx 0 SIG_HASH_ALL ReusedValues_new with
  | Ok (m, _) => m | _ => [] end.
Definition reused : ReusedValues :=
  match @calc_mldsa87_signature_hash _ TxScriptError ptx 0 SIG_HASH_ALL ReusedValues_new with
  | Ok (_, r) => r | _ => ReusedValues_new end.

(** Deciding that a list holds bytes. *)
Lemma all_bytes l : forallb (λ b, (0 <=? b) && (b <? 256)) l = true → Forall is_byte l.
Proof.
  intros Hl%Is_true_true_2. apply forallb_True in Hl. eapply Forall_impl; [exact Hl|].
  intros b Hb. apply Is_true_true_1 in Hb. unfold is_byte. lia.
Defined.

Lemma source_wf : source_ok (input_source ptx input 0 entry).
Proof.
  split_and!; [reflexivity|reflexivity|reflexivity| | | |];
    try (apply all_bytes; vm_compute; reflexivity); (constructor; [|constructor]); apply all_bytes; vm_compute; reflexivity.
Qed.
Lemma tx_wf : tx_typed tx.
Proof.
  split; try (by vm_compute); (split; [by vm_compute|]); repeat constructor; by vm_compute.
Qed.
Lemma entries_wf : Forall entry_typed (entries ptx).
Proof. repeat constructor; by vm_compute. Qed.
Lemma cache_wf : cache_ok cache.
Proof. apply cache_ok_new. lia. Qed.
Lemma accepted p : (execute (with_script_policy p engine)).2 = Ok tt.
Proof. destruct p as [[] []]; vm_compute; reflexivity. Qed.

Lemma transaction_id_commits_witness :
  (strip (id_flags tx) tx = strip (id_flags tx) tx → tx_id_hash tx = tx_id_hash tx) ∧
  (tx_id_hash tx = tx_id_hash tx → strip (id_flags tx) tx = strip (id_flags tx) tx ∨
    collides (write_transaction TransactionId64 tx (id_flags tx)) (write_transaction TransactionId64 tx (id_flags tx))).
Proof. apply (transaction_id_commits tx tx tx_wf tx_wf); by vm_compute. Defined.

Lemma transaction_hash_commits_witness :
  (strip FULL tx = strip FULL tx → tx_hash tx = tx_hash tx) ∧
  (tx_hash tx = tx_hash tx → strip FULL tx = strip FULL tx ∨
    collides (write_transaction TransactionHash64 tx FULL) (write_transaction TransactionHash64 tx FULL)).
Proof. exact (transaction_hash_commits tx tx tx_wf tx_wf). Defined.

Lemma signature_hash_commits_witness :
  ∃ d1 d2 r1 r2,
    @calc_mldsa87_signature_hash _ unit ptx 0 SIG_HASH_ALL ReusedValues_new = Ok (d1, r1) ∧
    @calc_mldsa87_signature_hash _ unit ptx 0 SIG_HASH_NONE ReusedValues_new = Ok (d2, r2) ∧
    (committed tx input entry 0 SIG_HASH_ALL = committed tx input entry 0 SIG_HASH_NONE → d1 = d2) ∧
    (d1 = d2 → committed tx input entry 0 SIG_HASH_ALL = committed tx input entry 0 SIG_HASH_NONE
      ∨ signing_hash_broken (hashed_strings tx input entry 0 SIG_HASH_ALL) (hashed_strings tx input entry 0 SIG_HASH_NONE)).
Proof.
  exact (signature_hash_commits ptx ptx 0 0 SIG_HASH_ALL SIG_HASH_NONE input input entry entry
    tx_wf tx_wf entries_wf entries_wf eq_refl eq_refl).
Defined.

Lemma execute_never_panics_witness :
  ∃ e, @from_transaction_input TxScriptError ptx input 0 entry cache = Ok e ∧
    safe (execute (with_script_policy PQ_ONLY e)).2 ∧
    ((execute (with_script_policy PQ_ONLY e)).2 = Ok tt →
      ∃ n, @used_sig_ops TxScriptError (execute (with_script_policy PQ_ONLY e)).1 = Ok n ∧ 0 ≤ n ≤ sig_op_count input).
Proof. apply (execute_never_panics ptx input 0 entry cache PQ_ONLY source_wf). vm_compute. split; discriminate. Defined.

Lemma pq_only_policy_enforced_witness :
  is_pay_to_script_hash (spk_script (script_public_key entry)) = false ∧
  len (signature_script input) ≤ MAX_SCRIPTS_SIZE ∧ len (spk_script (script_public_key entry)) ≤ MAX_SCRIPTS_SIZE ∧
  Forall (passes PQ_ONLY true) (parse_script (signature_script input)) ∧
  Forall (passes PQ_ONLY false) (parse_script (spk_script (script_public_key entry))).
Proof.
  apply (pq_only_policy_enforced ptx input 0 entry cache engine source_wf); [vm_compute; split; discriminate|..].
  - vm_compute. discriminate.
  - vm_compute. reflexivity.
  - apply (accepted PQ_ONLY).
Defined.

Lemma add_data_pushes_witness :
  ∃ op, parse_script (script both_pushes) = Ok <$> ([push_op (sig ++ [SIG_HASH_ALL])] ++ [op]) ∧
    is_push_opcode op = true ∧ (0 < op_code op ≤ 0x4e → check_minimal_data_push op = Ok tt) ∧
    ∀ e, opcode_execute op e = push key e.
Proof.
  apply (add_data_pushes first_push key both_pushes [push_op (sig ++ [SIG_HASH_ALL])]).
  - apply all_bytes. vm_compute. reflexivity.
  - apply all_bytes. vm_compute. reflexivity.
  - vm_compute. reflexivity.
  - vm_compute. reflexivity.
Defined.

Lemma signature_cache_sound_witness :
  cache_ok (sig_cache (execute engine).1) ∧
  ((Cache_get (sig_cache (execute engine).1) (cache_key key sig msg)).2 = Some true →
    true = mldsa87_verify key msg MLDSA87_TX_CONTEXT sig ∨ digest_confusion key sig msg true).
Proof. apply (signature_cache_sound engine key sig msg true). exact cache_wf. Defined.

Lemma p2pkh_spend_requires_signature_witness :
  ∃ k s typ t m r,
    blake2b_512_address_payload k = blake2b_512_address_payload key ∧ len k = MLDSA87_PK_LEN ∧ len s = MLDSA87_SIG_LEN ∧
    SigHashType_from_u8 typ = Some t ∧
    calc_mldsa87_signature_hash (E:=TxScriptError) ptx 0 t ReusedValues_new = Ok (m, r) ∧
    (mldsa87_verify k m MLDSA87_TX_CONTEXT s = true ∨ digest_confusion k s m true).
Proof.
  apply (p2pkh_spend_requires_signature ptx input 0 entry cache PQ_ONLY engine (blake2b_512_address_payload key) source_wf);
    [vm_compute; split; discriminate|exact cache_wf|vm_compute; reflexivity|vm_compute; reflexivity|apply (accepted PQ_ONLY)].
Defined.

Lemma p2pkh_spend_accepted_witness :
  (execute (with_script_policy PQ_ONLY engine)).2 = Ok tt ∨ digest_confusion key sig msg false.
Proof.
  apply (p2pkh_spend_accepted ptx input 0 entry cache PQ_ONLY engine (blake2b_512_address_payload key) key sig
    SIG_HASH_ALL SIG_HASH_ALL msg reused first_push both_pushes source_wf).
  all: first [exact cache_wf|apply all_bytes; vm_compute; reflexivity|vm_compute; reflexivity
             |vm_compute; split; discriminate|vm_compute; discriminate|vm_compute; split; [discriminate|reflexivity]].
Defined.
End ScriptWitness.
