(* ===== verification/Uint.v ===== *)
(** * Wide unsigned integers: math/src/uint.rs and math/src/lib.rs

    [construct_uint!] declares [Uint192] ... [Uint3072] as little-endian
    arrays of [u64] limbs. An integer is the list of its limbs and the
    operations are the loops over the limbs as the macro writes them, at any
    number of limbs [n]. The operators ([+], [-], [*], [<<], [>>]) of a release
    build drop the overflow flag, since they test it with [debug_assert!]
    only. [uval] is the number that an array of limbs stands for; the theorems
    that relate the loops to arithmetic on [Z] are in UintThms.v. *)

From stdpp Require Import base list gmap.
From Stdlib Require Import ZArith Lia.
From S2P Require Import Prelude Tx Bytes.

Local Open Scope Z_scope.

Definition Limb : Z := 2 ^ 64.

(** The number in an array of limbs, and the limbs of a number. *)
Fixpoint uval (u : list Z) : Z :=
  match u with [] => 0 | a :: u => a + Limb * uval u end.
Fixpoint of_Z (n : nat) (z : Z) : list Z :=
  match n with O => [] | S n => z mod Limb :: of_Z n (z / Limb) end.

Definition is_limb (a : Z) : Prop := 0 ≤ a < Limb.
Definition uint_wf (n : nat) (u : list Z) : Prop := length u = n ∧ Forall is_limb u.

(** The machine operations on one limb. *)
Definition overflowing_add64 (a b : Z) : Z * bool := ((a + b) mod Limb, Limb <=? a + b).
Definition overflowing_sub64 (a b : Z) : Z * bool := ((a - b) mod Limb, a <? b).
Definition shl64 (a s : Z) : Z := Z.shiftl a s mod Limb.
Definition shr64 (a s : Z) : Z := Z.shiftr a s.
Definition not64 (a : Z) : Z := Z.lxor a (Limb - 1).
Definition bit_length (a : Z) : Z := if a =? 0 then 0 else Z.log2 a + 1.
Definition leading_zeros64 (a : Z) : Z := 64 - bit_length a.

(** [u[i]]; the loops stay within the array. *)
Definition limb (u : list Z) (i : nat) : Z := nth i u 0.

Module Uint.

Section width.
Context (n : nat).

Definition ZERO : list Z := replicate n 0.
Definition MAX : list Z := replicate n U64_MAX.
Definition BITS : Z := Z.of_nat n * 64.
Definition BYTES : nat := n * 8.

Definition from_u64 (x : Z) : list Z := <[0%nat := x]> ZERO.
Definition from_u128 (x : Z) : list Z :=
  <[1%nat := Z.shiftr x 64]> (<[0%nat := x mod Limb]> ZERO).
Definition as_u128 (u : list Z) : Z := Z.lor (limb u 0%nat) (Z.shiftl (limb u 1%nat) 64).
Definition as_u64 (u : list Z) : Z := limb u 0%nat.
Definition is_zero (u : list Z) : bool := forallb (λ a, a =? 0) u.

(** The most significant limb that is not zero decides. *)
Fixpoint bits_below (u : list Z) (i : nat) : Z :=
  match i with
  | O => 0
  | S i =>
    let word := limb u i in
    if word =? 0 then bits_below u i else 64 * (Z.of_nat i + 1) - leading_zeros64 word
  end.
Definition bits (u : list Z) : Z := bits_below u n.
Definition leading_zeros (u : list Z) : Z := BITS - bits u.

Definition overflowing_shl (u : list Z) (s : Z) : list Z * bool :=
  let overflows := BITS <=? s in
  let s := s mod BITS in
  let left_words := Z.to_nat (s / 64) in
  let left_shifts := s mod 64 in
  let ret := (λ i, if (i <? left_words)%nat then 0
                   else shl64 (limb u (i - left_words)%nat) left_shifts) <$> seq 0 n in
  let ret :=
    if 0 <? left_shifts then
      imap (λ i r, if (i <? left_words + 1)%nat then r
                   else Z.lor r (shr64 (limb u (i - 1 - left_words)%nat) (64 - left_shifts))) ret
    else ret in
  (ret, overflows).
Definition wrapping_shl (u : list Z) (s : Z) : list Z := (overflowing_shl u s).1.

Definition overflowing_shr (u : list Z) (s : Z) : list Z * bool :=
  let overflows := BITS <=? s in
  let s := s mod BITS in
  let left_words := Z.to_nat (s / 64) in
  let left_shifts := s mod 64 in
  let ret := (λ i, if (i + left_words <? n)%nat
                   then shr64 (limb u (i + left_words)%nat) left_shifts else 0) <$> seq 0 n in
  let ret :=
    if 0 <? left_shifts then
      imap (λ i r, if (i + left_words + 1 <? n)%nat
                   then Z.lor r (shl64 (limb u (i + left_words + 1)%nat) (64 - left_shifts)) else r) ret
    else ret in
  (ret, overflows).

Definition carrying_add_u64 (lhs rhs : Z) (carry : bool) : Z * bool :=
  let '(a, b) := overflowing_add64 lhs rhs in
  let '(c, d) := overflowing_add64 a (Z.b2z carry) in
  (c, xorb b d).
Fixpoint add_limbs (u v : list Z) (carry : bool) : list Z * bool :=
  match u, v with
  | a :: u, b :: v =>
    let '(c, carry_out) := carrying_add_u64 a b carry in
    let '(r, carry) := add_limbs u v carry_out in
    (c :: r, carry)
  | _, _ => ([], carry)
  end.
Definition overflowing_add (u v : list Z) : list Z * bool := add_limbs u v false.

Fixpoint propagate_carry (u : list Z) (carry : bool) : list Z * bool :=
  match u with
  | [] => ([], carry)
  | a :: u' =>
    if carry then
      let '(c, carry) := overflowing_add64 a 1 in
      let '(r, carry) := propagate_carry u' carry in
      (c :: r, carry)
    else (u, carry)
  end.
Definition overflowing_add_u64 (u : list Z) (other : Z) : list Z * bool :=
  match u with
  | [] => ([], false)
  | a :: u =>
    let '(c, carry) := overflowing_add64 a other in
    let '(r, carry) := propagate_carry u carry in
    (c :: r, carry)
  end.

Definition borrowing_sub_u64 (lhs rhs : Z) (borrow : bool) : Z * bool :=
  let '(a, b) := overflowing_sub64 lhs rhs in
  let '(c, d) := overflowing_sub64 a (Z.b2z borrow) in
  (c, xorb b d).
Fixpoint sub_limbs (u v : list Z) (carry : bool) : list Z * bool :=
  match u, v with
  | a :: u, b :: v =>
    let '(c, carry_out) := borrowing_sub_u64 a b carry in
    let '(r, carry) := sub_limbs u v carry_out in
    (c :: r, carry)
  | _, _ => ([], carry)
  end.
Definition overflowing_sub (u v : list Z) : list Z * bool := sub_limbs u v false.

Definition saturating_sub (u v : list Z) : list Z :=
  let '(sum, carry) := overflowing_sub u v in if carry : bool then ZERO else sum.
Definition saturating_add (u v : list Z) : list Z :=
  let '(sum, carry) := overflowing_add u v in if carry : bool then MAX else sum.

(** The [u128] intermediate never overflows, so it is a plain [Z]. *)
Fixpoint mul_limbs (u : list Z) (other carry : Z) : list Z * Z :=
  match u with
  | [] => ([], carry)
  | a :: u =>
    let x := carry + other * a in
    let '(r, carry) := mul_limbs u other (Z.land (Z.shiftr x 64) U64_MAX) in
    (x mod Limb :: r, carry)
  end.
Definition carrying_mul_u64 (u : list Z) (other : Z) : list Z * Z :=
  let '(r, carry) := mul_limbs u other 0 in (r, carry mod Limb).
Definition overflowing_mul_u64 (u : list Z) (other : Z) : list Z * bool :=
  let '(this, carry) := carrying_mul_u64 u other in (this, negb (carry =? 0)).

(** One round of the inner loop: [result[j..]] plus [self * other[j]], as far
    as there are limbs of the result. *)
Fixpoint mul_row (u rs : list Z) (bj carry : Z) : list Z * Z :=
  match u, rs with
  | a :: u, r :: rs =>
    let x := a * bj + r + carry in
    let '(rs, carry) := mul_row u rs bj (Z.shiftr x 64) in
    (x mod Limb :: rs, carry)
  | _, _ => ([], carry)
  end.
Definition mul_step (u v : list Z) (st : list Z * bool) (j : nat) : list Z * bool :=
  let '(result, carry_out) := st in
  let '(row, carry) := mul_row u (drop j result) (limb v j) 0 in
  (take j result ++ row, carry_out || negb (carry =? 0)).
Definition overflowing_mul (u v : list Z) : list Z * bool :=
  foldl (mul_step u v) (ZERO, false) (seq 0 n).

Definition from_le_bytes (bytes : list byte) : list Z :=
  (λ i, le_val (take 8 (drop (8 * i) bytes))) <$> seq 0 n.
Definition from_be_bytes (bytes : list byte) : list Z :=
  rev ((λ i, le_val (rev (take 8 (drop (8 * i) bytes)))) <$> seq 0 n).
Definition uint_to_le_bytes (u : list Z) : list byte := concat (to_le_bytes 8 <$> u).
Definition to_be_bytes (u : list Z) : list byte := concat ((λ w, rev (to_le_bytes 8 w)) <$> rev u).
Fixpoint skip_zeros (bytes : list byte) : list byte :=
  match bytes with [] => [] | b :: bs => if b =? 0 then skip_zeros bs else bytes end.
Definition to_be_bytes_var (u : list Z) : list byte := skip_zeros (to_be_bytes u).
Definition from_be_bytes_var (bytes : list byte) : option (list Z) :=
  if (BYTES <? length bytes)%nat then None
  else Some (from_be_bytes (replicate (BYTES - length bytes) 0 ++ bytes)).

(** The operators, as a release build runs them. *)
Definition add (u v : list Z) : list Z := (overflowing_add u v).1.
Definition add_u64 (u : list Z) (x : Z) : list Z := (overflowing_add_u64 u x).1.
Definition sub (u v : list Z) : list Z := (overflowing_sub u v).1.
Definition mul (u v : list Z) : list Z := (overflowing_mul u v).1.
Definition mul_u64 (u : list Z) (x : Z) : list Z := (overflowing_mul_u64 u x).1.
Definition shl (u : list Z) (s : Z) : list Z := (overflowing_shl u s).1.
Definition shr (u : list Z) (s : Z) : list Z := (overflowing_shr u s).1.
Definition bitand (u v : list Z) : list Z := zip_with Z.land u v.
Definition bitxor (u v : list Z) : list Z := zip_with Z.lxor u v.
Definition bitor (u v : list Z) : list Z := zip_with Z.lor u v.
Definition not (u : list Z) : list Z := not64 <$> u.

(** [Iterator::cmp] on the limbs from the most significant one. *)
Fixpoint lex_cmp (u v : list Z) : comparison :=
  match u, v with
  | [], [] => Eq
  | [], _ => Lt
  | _, [] => Gt
  | a :: u, b :: v => match a ?= b with Eq => lex_cmp u v | c => c end
  end.
Definition cmp (u v : list Z) : comparison := lex_cmp (rev u) (rev v).
Definition ge (u v : list Z) : bool := match cmp u v with Lt => false | _ => true end.
Definition eq_u64 (u : list Z) (x : Z) : bool :=
  negb (existsb (λ a, negb (a =? 0)) (drop 1 u)) && (limb u 0%nat =? x).
Definition cmp_u64 (u : list Z) (x : Z) : comparison :=
  if existsb (λ a, negb (a =? 0)) (drop 1 u) then Gt else limb u 0%nat ?= x.
Definition ge_u64 (u : list Z) (x : Z) : bool :=
  match cmp_u64 u x with Lt => false | _ => true end.

(** Long division by a limb, most significant limb first; [/] and [%] on
    [u128] panic on zero. *)
Definition div_rem_step (other : Z) (d : Z) (st : list Z * Z) : list Z * Z :=
  let '(q, rem) := st in
  let x := Z.lor (Z.shiftl rem 64) d in
  ((x / other) mod Limb :: q, (x mod other) mod Limb).
Definition div_rem_u64 (u : list Z) (other : Z) : outcome unit (list Z * Z) :=
  if other =? 0 then Panic else Ok (foldr (div_rem_step other) ([], 0) u).

(** Bitwise long division; [shift] counts down to zero. *)
Fixpoint div_loop (shift : nat) (sub_copy shift_copy ret : list Z) : list Z * list Z :=
  let '(ret, sub_copy) :=
    if ge sub_copy shift_copy then
      let shift_index := (shift / 64)%nat in
      let shift_val := Z.of_nat (shift mod 64)%nat in
      (<[shift_index := Z.lor (limb ret shift_index) (Z.shiftl 1 shift_val)]> ret,
       sub sub_copy shift_copy)
    else (ret, sub_copy) in
  let shift_copy := shr shift_copy 1 in
  match shift with
  | O => (ret, sub_copy)
  | S shift => div_loop shift sub_copy shift_copy ret
  end.
Definition div_rem (u other : list Z) : outcome unit (list Z * list Z) :=
  let my_bits := bits u in
  let your_bits := bits other in
  if your_bits =? 0 then Panic
  else if my_bits <? your_bits then Ok (ZERO, u)
  else
    let shift := my_bits - your_bits in
    Ok (div_loop (Z.to_nat shift) u (shl other shift) ZERO).

Definition sum (l : list (list Z)) : list Z :=
  match l with [] => ZERO | first :: l => foldl add first l end.
Definition product (l : list (list Z)) : list Z :=
  match l with [] => from_u64 1 | first :: l => foldl mul first l end.

(** [iter_be_bits] is the sequence of bits, the most significant one first. *)
Definition iter_be_bits (u : list Z) : list bool :=
  (λ bit, let word := (bit / 64)%nat in let subbit := (bit mod 64)%nat in
          Z.testbit (limb u (n - word - 1)%nat) (Z.of_nat (64 - subbit - 1))) <$> seq 0 (64 * n).

(** [Display]: the decimal digits, written into a buffer of [20] digits per
    limb from its end; [curr] is the position of the first one written. *)
Definition dec_digit (d : Z) : byte := d + 48.
Definition two_digits (d : Z) : list byte := [dec_digit (d / 10); dec_digit (d mod 10)].
Definition move_curr (curr k : Z) : outcome unit Z := if k <=? curr then Ok (curr - k) else Panic.

Fixpoint display_loop (fuel : nat) (u : list Z) (curr : Z) (buf : list byte) :
    outcome unit (list Z * Z * list byte) :=
  match fuel with
  | O => OutOfFuel
  | S fuel =>
    if ge_u64 u 10000 then
      '(u, rem) ← div_rem_u64 u 10000;
      curr ← move_curr curr 4;
      display_loop fuel u curr (two_digits (rem / 100) ++ two_digits (rem mod 100) ++ buf)
    else Ok (u, curr, buf)
  end.
Definition display (u : list Z) : outcome unit (list byte) :=
  '(u, curr, buf) ← display_loop (S (n * 20)) u (Z.of_nat n * 20) [];
  let x := as_u64 u in
  '(x, curr, buf) ← (if 100 <=? x then
                       curr ← move_curr curr 2; mret (x / 100, curr, two_digits (x mod 100) ++ buf)
                     else mret (x, curr, buf));
  if x <? 10 then curr ← move_curr curr 1; mret (dec_digit x :: buf)
  else curr ← move_curr curr 2; mret (two_digits x ++ buf).

End width.

(** Conversions between widths: [From] pads with zero limbs, [TryFrom] fails
    when a limb that is dropped is not zero. *)
Definition widen (n m : nat) (u : list Z) : list Z := take n u ++ replicate (m - n) 0.
Definition try_narrow (m : nat) (u : list Z) : option (list Z) :=
  if existsb (λ a, negb (a =? 0)) (drop m u) then None else Some (take m u).

End Uint.

(** ** Compact targets and block work *)

Definition from_compact_target_bits (bits : Z) : list Z :=
  let unshifted_expt := Z.shiftr bits 24 in
  let '(mant, expt) :=
    if unshifted_expt <=? 3
    then (Z.shiftr (Z.land bits 0xFFFFFF) (8 * (3 - unshifted_expt)), 0)
    else (Z.land bits 0xFFFFFF, 8 * (Z.shiftr bits 24 - 3)) in
  if 0x7FFFFF <? mant then Uint.ZERO 4 else Uint.shl 4 (Uint.from_u64 4 mant) expt.

(** [div_ceil], and the casts to [u32]. *)
Definition div_ceil (a b : Z) : Z := (a + b - 1) / b.
Definition as_u32 (x : Z) : Z := x mod 2 ^ 32.

Definition compact_target_bits (u : list Z) : Z :=
  let size := div_ceil (Uint.bits 4 u) 8 in
  let compact :=
    if size <=? 3 then as_u32 (shl64 (Uint.as_u64 u) (8 * (3 - size)))
    else as_u32 (Uint.as_u64 (Uint.shr 4 u (8 * (size - 3)))) in
  let '(compact, size) :=
    if negb (Z.land compact 0x00800000 =? 0) then (Z.shiftr compact 8, size + 1) else (compact, size) in
  Z.lor compact (as_u32 (Z.shiftl size 24)).

(** consensus/src/processes/difficulty.rs: [!target / (target + 1) + 1],
    widened to the 576 bits of [BlueWorkType]. *)
Definition calc_work (bits : Z) : outcome unit (list Z) :=
  let target := from_compact_target_bits bits in
  '(q, _) ← Uint.div_rem 4 (Uint.not target) (Uint.add_u64 target 1);
  mret (Uint.widen 4 9 (Uint.add_u64 q 1)).

Definition from_compact_target_bits_512 (bits : Z) : list Z :=
  Uint.shl 8 (Uint.widen 4 8 (from_compact_target_bits bits)) 256.
Definition compact_target_bits_512 (u : list Z) : Z :=
  compact_target_bits (default (Uint.ZERO 4) (Uint.try_narrow 4 (Uint.shr 8 u 256))).
Definition calc_work_512 (u : list Z) : outcome unit (list Z) :=
  if bool_decide (u = Uint.ZERO 8) then Ok (Uint.ZERO 9)
  else
    let two_pow_512 := <[8%nat := 1]> (replicate 9 0) in
    let target_plus_one := Uint.add (Uint.widen 8 9 u) (Uint.from_u64 9 1) in
    '(q, _) ← Uint.div_rem 9 two_pow_512 target_plus_one;
    mret q.

(** [level_work]: the work attributed to a block level. *)
Definition MAX_WORK_LEVEL : Z := 128.
Definition level_work (level max_block_level : Z) : list Z :=
  if level =? 0 then Uint.from_u64 9 0
  else
    let exp := level + 256 - max_block_level in
    Uint.shl 9 (Uint.from_u64 9 1) (Z.min exp MAX_WORK_LEVEL).
