(* ===== verification/UintThms.v ===== *)
(** * Limb arithmetic is arithmetic modulo 2^BITS

    The loops of Uint.v against [Z]: addition, subtraction, multiplication,
    shifts, comparison, the two divisions, the decimal printer, compact
    targets and block work. *)

From stdpp Require Import base list gmap.
From Stdlib Require Import ZArith Lia.
From S2P Require Import Prelude Tx Bytes Uint.

Local Open Scope Z_scope.

#[global] Opaque Limb.
Lemma Limb_pos : 0 < Limb. Proof. done. Qed.
Lemma Limb_eq : Limb = 2 ^ 64. Proof. done. Qed.
#[export] Hint Resolve Limb_pos : misaka.

Lemma uint_wf_cons n a u : uint_wf (S n) (a :: u) ↔ is_limb a ∧ uint_wf n u.
Proof. unfold uint_wf. rewrite Forall_cons. simpl. intuition lia. Qed.
Lemma uint_wf_nil : uint_wf 0 [].
Proof. by split. Qed.
#[export] Hint Resolve uint_wf_nil : misaka.
Lemma uint_wf_0_inv u : uint_wf 0 u → u = [].
Proof. intros [H _]. by destruct u. Qed.
Lemma uint_wf_S_inv n u : uint_wf (S n) u → ∃ a u', u = a :: u' ∧ is_limb a ∧ uint_wf n u'.
Proof. destruct u as [|a u]; [by intros []|]. rewrite uint_wf_cons. eauto. Qed.

Lemma mod_limb z : is_limb (z mod Limb).
Proof. apply Z.mod_pos_bound, Limb_pos. Qed.
#[export] Hint Resolve mod_limb : misaka.

Lemma pow_Limb_S n : Limb ^ Z.of_nat (S n) = Limb * Limb ^ Z.of_nat n.
Proof. rewrite Nat2Z.inj_succ. apply Z.pow_succ_r. lia. Qed.
Lemma pow_Limb_pos n : 0 < Limb ^ Z.of_nat n.
Proof. apply Z.pow_pos_nonneg; [apply Limb_pos|lia]. Qed.
#[export] Hint Resolve pow_Limb_pos : misaka.
Lemma pow_Limb_bits n : Limb ^ Z.of_nat n = 2 ^ Uint.BITS n.
Proof. rewrite Limb_eq, <- Z.pow_mul_r by lia. unfold Uint.BITS. f_equal. lia. Qed.

Lemma uval_bound n u : uint_wf n u → 0 ≤ uval u < Limb ^ Z.of_nat n.
Proof.
  revert u. induction n as [|n IH]; intros u Hu.
  { apply uint_wf_0_inv in Hu as ->. done. }
  apply uint_wf_S_inv in Hu as (a & u' & -> & Ha & Hu). apply IH in Hu.
  rewrite pow_Limb_S. simpl. unfold is_limb in Ha. nia.
Qed.

Lemma uval_app u v : uval (u ++ v) = uval u + Limb ^ Z.of_nat (length u) * uval v.
Proof.
  induction u as [|a u IH]; cbn [app uval length]; [simpl; lia|].
  rewrite IH, pow_Limb_S. ring.
Qed.

Lemma uval_inj n u v : uint_wf n u → uint_wf n v → uval u = uval v → u = v.
Proof.
  revert u v. induction n as [|n IH]; intros u v Hu Hv Heq.
  { by rewrite (uint_wf_0_inv _ Hu), (uint_wf_0_inv _ Hv). }
  apply uint_wf_S_inv in Hu as (a & u' & -> & Ha & Hu), Hv as (b & v' & -> & Hb & Hv).
  simpl in Heq. unfold is_limb in Ha, Hb.
  assert (uval u' = uval v') by nia. rewrite (IH u' v') by done. f_equal. nia.
Qed.

Lemma uval_replicate_0 n : uval (replicate n 0) = 0.
Proof. induction n as [|n IH]; simpl; lia. Qed.
Lemma uint_wf_replicate n a : is_limb a → uint_wf n (replicate n a).
Proof. intros Ha. split; [apply length_replicate|]. by apply Forall_replicate. Qed.
Lemma uval_MAX n : uval (Uint.MAX n) = Limb ^ Z.of_nat n - 1.
Proof.
  unfold Uint.MAX. induction n as [|n IH]; [done|]. rewrite pow_Limb_S. cbn [replicate uval]. rewrite IH.
  unfold U64_MAX. rewrite <- Limb_eq. ring.
Qed.
Lemma is_limb_0 : is_limb 0. Proof. unfold is_limb. pose proof Limb_pos. lia. Qed.
Lemma is_limb_1 : is_limb 1. Proof. unfold is_limb. rewrite Limb_eq. lia. Qed.
#[export] Hint Resolve uint_wf_replicate is_limb_0 is_limb_1 : misaka.

Lemma of_Z_wf n z : uint_wf n (of_Z n z).
Proof.
  revert z. induction n as [|n IH]; intros z; [by split|]. simpl. apply uint_wf_cons. auto with misaka.
Qed.
Lemma uval_of_Z n z : uval (of_Z n z) = z mod Limb ^ Z.of_nat n.
Proof.
  revert z. induction n as [|n IH]; intros z; [by rewrite Z.mod_1_r|].
  rewrite pow_Limb_S. cbn [of_Z uval]. rewrite IH, Z.rem_mul_r by auto using Z.neq_sym, Z.lt_neq with misaka.
  done.
Qed.

(** ** Addition and subtraction *)

Ltac limb_cases :=
  repeat match goal with
  | |- context [?a <=? ?b] => destruct (Z.leb_spec a b)
  | |- context [?a <? ?b] => destruct (Z.ltb_spec a b)
  end.

Lemma mod_once z : 0 ≤ z < 2 * Limb → z mod Limb = z - (if Limb <=? z then Limb else 0).
Proof.
  intros Hz. limb_cases.
  - symmetry. apply Z.mod_unique with 1; lia.
  - rewrite Z.mod_small; lia.
Qed.
Lemma mod_borrow z : - Limb ≤ z < Limb → z mod Limb = z + (if z <? 0 then Limb else 0).
Proof.
  intros Hz. limb_cases.
  - symmetry. apply Z.mod_unique with (-1); lia.
  - rewrite Z.mod_small; lia.
Qed.

Lemma carrying_add_spec a b c : is_limb a → is_limb b →
  let '(r, c') := Uint.carrying_add_u64 a b c in
  is_limb r ∧ r + Limb * Z.b2z c' = a + b + Z.b2z c.
Proof.
  unfold is_limb. intros Ha Hb. unfold Uint.carrying_add_u64, overflowing_add64.
  assert (1 < Limb) by (rewrite Limb_eq; lia).
  assert (0 ≤ Z.b2z c ≤ 1) by (destruct c; simpl; lia).
  rewrite (mod_once (a + b)) by lia.
  rewrite mod_once by (limb_cases; lia). limb_cases; simpl; lia.
Qed.

Lemma borrowing_sub_spec a b c : is_limb a → is_limb b →
  let '(r, c') := Uint.borrowing_sub_u64 a b c in
  is_limb r ∧ r - Limb * Z.b2z c' = a - b - Z.b2z c.
Proof.
  unfold is_limb. intros Ha Hb. unfold Uint.borrowing_sub_u64, overflowing_sub64.
  assert (1 < Limb) by (rewrite Limb_eq; lia).
  assert (0 ≤ Z.b2z c ≤ 1) by (destruct c; simpl; lia).
  rewrite (mod_borrow (a - b)) by lia.
  rewrite mod_borrow by (limb_cases; lia). limb_cases; simpl; lia.
Qed.

Lemma add_limbs_spec n u v c : uint_wf n u → uint_wf n v →
  let '(r, c') := Uint.add_limbs u v c in
  uint_wf n r ∧ uval r + Limb ^ Z.of_nat n * Z.b2z c' = uval u + uval v + Z.b2z c.
Proof.
  revert u v c. induction n as [|n IH]; intros u v c Hu Hv.
  { rewrite (uint_wf_0_inv _ Hu), (uint_wf_0_inv _ Hv). cbn. split; [by split|lia]. }
  apply uint_wf_S_inv in Hu as (a & u' & -> & Ha & Hu), Hv as (b & v' & -> & Hb & Hv).
  cbn [Uint.add_limbs]. pose proof (carrying_add_spec a b c Ha Hb) as Hc.
  destruct (Uint.carrying_add_u64 a b c) as [x c1]. specialize (IH u' v' c1 Hu Hv).
  destruct (Uint.add_limbs u' v' c1) as [r c2]. destruct Hc as [Hx Hc], IH as [Hr IH].
  rewrite uint_wf_cons, pow_Limb_S. split; [done|]. cbn [uval]. nia.
Qed.

Lemma sub_limbs_spec n u v c : uint_wf n u → uint_wf n v →
  let '(r, c') := Uint.sub_limbs u v c in
  uint_wf n r ∧ uval r - Limb ^ Z.of_nat n * Z.b2z c' = uval u - uval v - Z.b2z c.
Proof.
  revert u v c. induction n as [|n IH]; intros u v c Hu Hv.
  { rewrite (uint_wf_0_inv _ Hu), (uint_wf_0_inv _ Hv). cbn. split; [by split|lia]. }
  apply uint_wf_S_inv in Hu as (a & u' & -> & Ha & Hu), Hv as (b & v' & -> & Hb & Hv).
  cbn [Uint.sub_limbs]. pose proof (borrowing_sub_spec a b c Ha Hb) as Hc.
  destruct (Uint.borrowing_sub_u64 a b c) as [x c1]. specialize (IH u' v' c1 Hu Hv).
  destruct (Uint.sub_limbs u' v' c1) as [r c2]. destruct Hc as [Hx Hc], IH as [Hr IH].
  rewrite uint_wf_cons, pow_Limb_S. split; [done|]. cbn [uval]. nia.
Qed.

(** A result with its carry determines the wrapped value and the flag. *)
Lemma carry_unique M r x c :
  0 ≤ r < M → r + M * Z.b2z c = x → r = x mod M ∧ c = (M <=? x).
Proof.
  intros Hr Hx. split.
  - apply Z.mod_unique with (Z.b2z c); lia.
  - destruct c; simpl in Hx; limb_cases; lia.
Qed.
Lemma borrow_unique M r x c :
  0 ≤ r < M → r - M * Z.b2z c = x → r = x mod M ∧ c = (x <? 0).
Proof.
  intros Hr Hx. split.
  - apply Z.mod_unique with (- Z.b2z c); lia.
  - destruct c; simpl in Hx; limb_cases; lia.
Qed.

Lemma overflowing_add_spec n u v : uint_wf n u → uint_wf n v →
  let '(r, c) := Uint.overflowing_add u v in
  uint_wf n r ∧ uval r = (uval u + uval v) mod Limb ^ Z.of_nat n ∧
  c = (Limb ^ Z.of_nat n <=? uval u + uval v).
Proof.
  intros Hu Hv. pose proof (add_limbs_spec n u v false Hu Hv) as H. unfold Uint.overflowing_add.
  destruct (Uint.add_limbs u v false) as [r c]. destruct H as [Hr H]. split; [done|].
  apply carry_unique; [by apply uval_bound|]. simpl in H. lia.
Qed.

Lemma overflowing_sub_spec n u v : uint_wf n u → uint_wf n v →
  let '(r, c) := Uint.overflowing_sub u v in
  uint_wf n r ∧ uval r = (uval u - uval v) mod Limb ^ Z.of_nat n ∧ c = (uval u <? uval v).
Proof.
  intros Hu Hv. pose proof (sub_limbs_spec n u v false Hu Hv) as H. unfold Uint.overflowing_sub.
  destruct (Uint.sub_limbs u v false) as [r c]. destruct H as [Hr H]. split; [done|].
  apply borrow_unique in H as [-> ->]; [|by apply uval_bound].
  simpl. rewrite Z.sub_0_r. split; [done|]. limb_cases; lia.
Qed.

Lemma propagate_carry_spec n u c : uint_wf n u →
  let '(r, c') := Uint.propagate_carry u c in
  uint_wf n r ∧ uval r + Limb ^ Z.of_nat n * Z.b2z c' = uval u + Z.b2z c.
Proof.
  revert u c. induction n as [|n IH]; intros u c Hu.
  { rewrite (uint_wf_0_inv _ Hu). cbn. split; [by split|lia]. }
  pose proof Hu as Hw. apply uint_wf_S_inv in Hu as (a & u' & -> & Ha & Hu).
  cbn [Uint.propagate_carry]. destruct c; [|split; [done|simpl; lia]].
  unfold overflowing_add64. specialize (IH u' (Limb <=? a + 1) Hu).
  destruct (Uint.propagate_carry u' (Limb <=? a + 1)) as [r c2]. destruct IH as [Hr IH].
  rewrite uint_wf_cons, pow_Limb_S. split; [auto with misaka|]. cbn [uval].
  unfold is_limb in Ha. assert (1 < Limb) by (rewrite Limb_eq; lia).
  rewrite mod_once by lia. limb_cases; simpl in *; nia.
Qed.

Lemma overflowing_add_u64_spec n u x : (0 < n)%nat → uint_wf n u → is_limb x →
  let '(r, c) := Uint.overflowing_add_u64 u x in
  uint_wf n r ∧ uval r = (uval u + x) mod Limb ^ Z.of_nat n ∧
  c = (Limb ^ Z.of_nat n <=? uval u + x).
Proof.
  intros Hn Hu Hx. destruct n as [|n]; [lia|]. clear Hn.
  apply uint_wf_S_inv in Hu as (a & u' & -> & Ha & Hu). unfold Uint.overflowing_add_u64, overflowing_add64.
  pose proof (propagate_carry_spec n u' (Limb <=? a + x) Hu) as H.
  destruct (Uint.propagate_carry u' (Limb <=? a + x)) as [r c]. destruct H as [Hr H].
  assert (uint_wf (S n) ((a + x) mod Limb :: r)) as Hw by (apply uint_wf_cons; auto with misaka).
  split; [done|]. apply carry_unique; [by apply uval_bound|].
  rewrite pow_Limb_S. cbn [uval]. unfold is_limb in Ha, Hx.
  rewrite mod_once by lia. limb_cases; simpl in *; nia.
Qed.

(** ** Multiplication *)

Lemma shiftr_limb x : Z.shiftr x 64 = x / Limb.
Proof. by rewrite Z.shiftr_div_pow2, Limb_eq. Qed.

Lemma mul_limbs_spec n u b c : uint_wf n u → is_limb b → is_limb c →
  let '(r, c') := Uint.mul_limbs u b c in
  uint_wf n r ∧ is_limb c' ∧ uval r + Limb ^ Z.of_nat n * c' = uval u * b + c.
Proof.
  intros Hu Hb. revert u c Hu. induction n as [|n IH]; intros u c Hu Hc.
  { rewrite (uint_wf_0_inv _ Hu). cbn. split; [by split|]. split; [done|lia]. }
  apply uint_wf_S_inv in Hu as (a & u' & -> & Ha & Hu). cbn [Uint.mul_limbs].
  set (x := c + b * a).
  assert (Z.land (Z.shiftr x 64) U64_MAX = x / Limb) as ->.
  { rewrite shiftr_limb. change U64_MAX with (Z.ones 64). rewrite Z.land_ones, <- Limb_eq by lia.
    apply Z.mod_small. unfold is_limb in *. split; [apply Z.div_pos; nia|apply Z.div_lt_upper_bound; nia]. }
  assert (is_limb (x / Limb)) as Hq.
  { unfold is_limb in *. split; [apply Z.div_pos; nia|apply Z.div_lt_upper_bound; nia]. }
  specialize (IH u' _ Hu Hq). destruct (Uint.mul_limbs u' b (x / Limb)) as [r c2].
  destruct IH as (Hr & Hc2 & IH). rewrite uint_wf_cons, pow_Limb_S. split; [auto with misaka|]. split; [done|].
  cbn [uval]. pose proof (Z.div_mod x Limb ltac:(pose proof Limb_pos; lia)). nia.
Qed.

Lemma overflowing_mul_u64_spec n u b : uint_wf n u → is_limb b →
  let '(r, c) := Uint.overflowing_mul_u64 u b in
  uint_wf n r ∧ uval r = (uval u * b) mod Limb ^ Z.of_nat n ∧
  c = (Limb ^ Z.of_nat n <=? uval u * b).
Proof.
  intros Hu Hb. pose proof (mul_limbs_spec n u b 0 Hu Hb is_limb_0) as H.
  unfold Uint.overflowing_mul_u64, Uint.carrying_mul_u64.
  destruct (Uint.mul_limbs u b 0) as [r c]. destruct H as (Hr & Hc & H). split; [done|].
  rewrite (Z.mod_small c) by done. pose proof (uval_bound _ _ Hr). unfold is_limb in Hc.
  split; [apply Z.mod_unique with c; lia|].
  destruct (Z.eqb_spec c 0); limb_cases; simpl; nia.
Qed.

(** One row adds [u * b], keeping as many limbs as the result has. *)
Lemma mul_row_spec n u rs b c : uint_wf n u → uint_wf (length rs) rs → (length rs ≤ n)%nat →
  is_limb b → is_limb c →
  let '(r, c') := Uint.mul_row u rs b c in
  uint_wf (length rs) r ∧ 0 ≤ c' ∧
  ∃ q, 0 ≤ q ∧ c' ≤ q ∧ uval r + Limb ^ Z.of_nat (length rs) * q = uval rs + uval u * b + c.
Proof.
  intros Hu Hrs Hle Hb. revert n u c Hu Hle. induction rs as [|r0 rs IH]; intros n u c Hu Hle Hc.
  { destruct u; cbn [Uint.mul_row].
    - split; [by split|]. split; [apply Hc|]. exists c. cbn. unfold is_limb in Hc. lia.
    - split; [by split|]. split; [apply Hc|]. pose proof (uval_bound _ _ Hu). unfold is_limb in *.
      exists (uval (z :: u) * b + c). cbn [length uval]. cbn [uval] in H. nia. }
  destruct n as [|n]; [simpl in Hle; lia|].
  apply uint_wf_S_inv in Hu as (a & u' & -> & Ha & Hu). cbn [length] in Hrs, Hle.
  apply uint_wf_cons in Hrs as [Hr0 Hrs]. cbn [Uint.mul_row]. set (x := a * b + r0 + c).
  rewrite shiftr_limb. unfold is_limb in *.
  assert (0 ≤ x / Limb < Limb) as Hq.
  { split; [apply Z.div_pos; nia|apply Z.div_lt_upper_bound; nia]. }
  specialize (IH Hrs n u' (x / Limb) Hu ltac:(lia) Hq). destruct (Uint.mul_row u' rs b (x / Limb)) as [r c2].
  destruct IH as (Hr & Hc2 & q & Hq0 & Hcq & IH). cbn [length]. rewrite uint_wf_cons, pow_Limb_S.
  split; [auto with misaka|]. split; [done|]. exists q. split_and!; [done..|].
  cbn [uval]. pose proof (Z.div_mod x Limb ltac:(pose proof Limb_pos; lia)). nia.
Qed.

Lemma uint_wf_take n j u : uint_wf n u → (j ≤ n)%nat → uint_wf j (take j u).
Proof. intros [Hn Hu] Hj. split; [rewrite length_take; lia|by apply Forall_take]. Qed.
Lemma uint_wf_drop n j u : uint_wf n u → uint_wf (n - j) (drop j u).
Proof. intros [Hn Hu]. split; [rewrite length_drop; lia|by apply Forall_drop]. Qed.
Lemma uint_wf_app n m u v : uint_wf n u → uint_wf m v → uint_wf (n + m) (u ++ v).
Proof. intros [Hn Hu] [Hm Hv]. split; [rewrite length_app; lia|by apply Forall_app]. Qed.
Lemma uval_take_drop j u : (j ≤ length u)%nat →
  uval u = uval (take j u) + Limb ^ Z.of_nat j * uval (drop j u).
Proof. intros Hj. rewrite <- (take_drop j u) at 1. by rewrite uval_app, length_take, Nat.min_l. Qed.
Lemma limb_lookup_Some u j x : u !! j = Some x → limb u j = x.
Proof. intros H. unfold limb. apply nth_lookup_Some with (d := 0) in H. done. Qed.
Lemma uval_take_S j u : (j < length u)%nat →
  uval (take (S j) u) = uval (take j u) + Limb ^ Z.of_nat j * (limb u j).
Proof.
  intros Hj. destruct (lookup_lt_is_Some_2 u j Hj) as [x Hx].
  rewrite (take_S_r _ _ _ Hx), uval_app, length_take, Nat.min_l by lia.
  rewrite (limb_lookup_Some _ _ _ Hx). cbn [uval]. ring.
Qed.
Lemma limb_is_limb u j : Forall is_limb u → is_limb (limb u j).
Proof.
  intros Hu. unfold limb. rewrite nth_lookup. destruct (u !! j) eqn:E; simpl; [|apply is_limb_0].
  by eapply Forall_lookup_1.
Qed.

Definition mul_inv (n : nat) (u v : list Z) (j : nat) (st : list Z * bool) : Prop :=
  uint_wf n st.1 ∧ ∃ Q, 0 ≤ Q ∧ (st.2 = true → 0 < Q) ∧
  uval st.1 + Limb ^ Z.of_nat n * Q = uval u * uval (take j v).

Lemma mul_step_inv n u v j st : uint_wf n u → uint_wf n v → (j < n)%nat →
  mul_inv n u v j st → mul_inv n u v (S j) (Uint.mul_step u v st j).
Proof.
  intros Hu Hv Hj. destruct st as [res f]. intros (Hres & Q & HQ & Hf & Heq). cbn [fst snd] in *.
  unfold Uint.mul_step. assert (is_limb (limb v j)) as Hb by (apply limb_is_limb, Hv).
  pose proof (uint_wf_drop n j res Hres) as Hd.
  assert (length (drop j res) = n - j)%nat as Hl by apply Hd. rewrite <- Hl in Hd.
  pose proof (mul_row_spec n u (drop j res) (limb v j) 0 Hu Hd ltac:(lia) Hb is_limb_0) as H.
  destruct (Uint.mul_row u (drop j res) (limb v j) 0) as [row c]. rewrite Hl in H.
  destruct H as (Hrow & Hc & q & Hq & Hcq & H).
  split; cbn [fst snd].
  { replace n with (j + (n - j))%nat by lia. apply uint_wf_app; [|done]. apply uint_wf_take with n; [done|lia]. }
  exists (Q + q). split; [lia|]. split.
  { rewrite orb_true_iff, negb_true_iff, Z.eqb_neq. intros [Ht|Ht]; [specialize (Hf Ht)|]; lia. }
  rewrite uval_app, length_take, Nat.min_l by (rewrite (proj1 Hres); lia).
  rewrite uval_take_S by (rewrite (proj1 Hv); lia).
  rewrite (uval_take_drop j res) in Heq by (rewrite (proj1 Hres); lia).
  assert (Limb ^ Z.of_nat n = Limb ^ Z.of_nat j * Limb ^ Z.of_nat (n - j)) as Hpow.
  { rewrite <- Z.pow_add_r by lia. f_equal. lia. }
  rewrite Hpow in Heq |- *.
  set (P := Limb ^ Z.of_nat j) in *. set (R := Limb ^ Z.of_nat (n - j)) in *. nia.
Qed.

(** The value is the product modulo [2^BITS]; the flag is only raised when the
    product does not fit. *)
Lemma overflowing_mul_spec n u v : uint_wf n u → uint_wf n v →
  let '(r, c) := Uint.overflowing_mul n u v in
  uint_wf n r ∧ uval r = (uval u * uval v) mod Limb ^ Z.of_nat n ∧
  (c = true → Limb ^ Z.of_nat n ≤ uval u * uval v).
Proof.
  intros Hu Hv.
  assert (∀ j, (j ≤ n)%nat → mul_inv n u v j (foldl (Uint.mul_step u v) (Uint.ZERO n, false) (seq 0 j))) as H.
  { induction j as [|j IH]; intros Hj.
    - split; [apply uint_wf_replicate, is_limb_0|]. exists 0. cbn [fst snd foldl seq]. split; [lia|].
      split; [done|]. unfold Uint.ZERO. rewrite uval_replicate_0, take_0. simpl. lia.
    - rewrite seq_S, foldl_snoc. simpl. apply mul_step_inv; [done..|]. apply IH. lia. }
  specialize (H n ltac:(lia)). unfold Uint.overflowing_mul.
  destruct (foldl _ _ _) as [r c]. destruct H as (Hr & Q & HQ & Hf & H). cbn [fst snd] in *.
  rewrite take_ge in H by (rewrite (proj1 Hv); lia). pose proof (uval_bound _ _ Hr). split; [done|].
  split; [apply Z.mod_unique with Q; lia|]. intros Ht. specialize (Hf Ht). nia.
Qed.

(** ** Bits and shifts *)

Lemma testbit_small a k j : 0 ≤ a < 2 ^ k → 0 ≤ k ≤ j → Z.testbit a j = false.
Proof.
  intros Ha Hk. destruct (decide (a = 0)) as [->|]; [apply Z.bits_0|].
  apply Z.bits_above_log2; [lia|]. apply Z.log2_lt_pow2; [lia|].
  apply Z.lt_le_trans with (2 ^ k); [lia|]. apply Z.pow_le_mono_r; lia.
Qed.

(** Disjoint bits: [|] is [+]. *)
Lemma lor_add a b k : 0 ≤ k → 0 ≤ a < 2 ^ k → Z.lor a (Z.shiftl b k) = a + b * 2 ^ k.
Proof.
  intros Hk Ha. rewrite Z.shiftl_mul_pow2 by done.
  rewrite <- Z.lxor_lor, <- Z.add_nocarry_lxor; [done|..].
  all: apply Z.bits_inj'; intros j Hj; rewrite Z.land_spec, Z.bits_0, Z.mul_pow2_bits by lia.
  all: destruct (decide (k ≤ j)); [rewrite (testbit_small a k) by done|rewrite (Z.testbit_neg_r b) by lia].
  all: by rewrite ?andb_false_r.
Qed.

Lemma limb_testbit_high a k : is_limb a → 64 ≤ k → Z.testbit a k = false.
Proof. intros Ha Hk. by apply (testbit_small a 64). Qed.

Lemma limb_nil i : limb [] i = 0.
Proof. by destruct i. Qed.

Lemma testbit_uval u k : Forall is_limb u → 0 ≤ k →
  Z.testbit (uval u) k = Z.testbit (limb u (Z.to_nat (k / 64))) (k mod 64).
Proof.
  intros Hu. revert k. induction Hu as [|a u Ha Hu IH]; intros k Hk.
  { cbn [uval]. by rewrite limb_nil, !Z.bits_0. }
  cbn [uval]. pose proof (Z.mod_pos_bound k 64 ltac:(lia)).
  replace (a + Limb * uval u) with (Z.lor a (Z.shiftl (uval u) 64)).
  2: { rewrite lor_add by (lia || apply Ha). rewrite <- Limb_eq. ring. }
  rewrite Z.lor_spec, Z.shiftl_spec by done. destruct (decide (64 ≤ k)) as [Hge|Hlt].
  - rewrite (limb_testbit_high a) by done. rewrite orb_false_l, IH by lia.
    assert (k / 64 = (k - 64) / 64 + 1) as Hq.
    { replace k with ((k - 64) + 1 * 64) at 1 by lia. rewrite Z.div_add by lia. lia. }
    assert (k mod 64 = (k - 64) mod 64) as ->.
    { replace k with ((k - 64) + 1 * 64) at 1 by lia. by rewrite Z.mod_add by lia. }
    rewrite Hq, Z2Nat.inj_add by (try apply Z.div_pos; lia).
    replace (Z.to_nat ((k - 64) / 64) + Z.to_nat 1)%nat with (S (Z.to_nat ((k - 64) / 64))) by lia. done.
  - rewrite (Z.testbit_neg_r _ (k - 64)) by lia. rewrite orb_false_r.
    rewrite Z.div_small, Z.mod_small by lia. done.
Qed.

Lemma limb_bits a : (∀ k, 64 ≤ k → Z.testbit a k = false) → 0 ≤ a → is_limb a.
Proof.
  intros Hk Ha. unfold is_limb. rewrite Limb_eq. split; [done|].
  destruct (decide (a = 0)) as [->|]; [lia|]. apply Z.log2_lt_pow2; [lia|].
  apply Z.nle_gt. intros Hl. specialize (Hk _ Hl). rewrite Z.bit_log2 in Hk by lia. done.
Qed.
Lemma lor_limb a b : is_limb a → is_limb b → is_limb (Z.lor a b).
Proof.
  intros Ha Hb. apply limb_bits; [|apply Z.lor_nonneg; split; [apply Ha|apply Hb]].
  intros k Hk. by rewrite Z.lor_spec, !limb_testbit_high.
Qed.
Lemma shr64_limb a s : 0 ≤ s → is_limb a → is_limb (shr64 a s).
Proof.
  intros Hs Ha. unfold shr64. apply limb_bits; [|apply Z.shiftr_nonneg; apply Ha].
  intros k Hk. rewrite Z.shiftr_spec by lia. apply limb_testbit_high; [done|lia].
Qed.
Lemma shl64_limb a s : is_limb (shl64 a s).
Proof. apply mod_limb. Qed.
#[export] Hint Resolve lor_limb shr64_limb shl64_limb limb_is_limb : misaka.

Lemma testbit_shl64 a s j : 0 ≤ j → Z.testbit (shl64 a s) j = (j <? 64) && Z.testbit a (j - s).
Proof.
  intros Hj. unfold shl64. rewrite Limb_eq. destruct (Z.ltb_spec j 64).
  - rewrite Z.mod_pow2_bits_low by lia. by rewrite Z.shiftl_spec by lia.
  - by rewrite Z.mod_pow2_bits_high by lia.
Qed.
Lemma testbit_shr64 a s j : 0 ≤ j → Z.testbit (shr64 a s) j = Z.testbit a (j + s).
Proof. intros Hj. unfold shr64. by rewrite Z.shiftr_spec. Qed.

Lemma limb_fmap_seq (f : nat → Z) n i : (i < n)%nat → limb (f <$> seq 0 n) i = f i.
Proof.
  intros Hi. apply limb_lookup_Some. rewrite list_lookup_fmap, lookup_seq_lt by done. done.
Qed.
Lemma limb_imap (f : nat → Z → Z) l i : (i < length l)%nat → limb (imap f l) i = f i (limb l i).
Proof.
  intros Hi. destruct (lookup_lt_is_Some_2 l i Hi) as [x Hx]. rewrite (limb_lookup_Some _ _ _ Hx).
  apply limb_lookup_Some. by rewrite list_lookup_imap, Hx.
Qed.
Lemma uint_wf_limbs n u : length u = n → (∀ i, (i < n)%nat → is_limb (limb u i)) → uint_wf n u.
Proof.
  intros Hn Hu. split; [done|]. apply Forall_lookup. intros i x Hi.
  rewrite <- (limb_lookup_Some _ _ _ Hi). apply Hu. apply lookup_lt_Some in Hi. lia.
Qed.
Lemma limb_out u i : (length u ≤ i)%nat → limb u i = 0.
Proof. apply nth_overflow. Qed.

(** The two loops of a shift, limb by limb. *)
Lemma limb_overflowing_shl n u s i (t := s mod Uint.BITS n) (lw := Z.to_nat (t / 64)) (ls := t mod 64) :
  (i < n)%nat →
  limb (Uint.overflowing_shl n u s).1 i =
    if (i <? lw)%nat then 0
    else if (0 <? ls) && (lw <? i)%nat
         then Z.lor (shl64 (limb u (i - lw)) ls) (shr64 (limb u (i - 1 - lw)) (64 - ls))
         else shl64 (limb u (i - lw)) ls.
Proof.
  intros Hi. unfold Uint.overflowing_shl. fold t. fold lw. fold ls. cbn [fst].
  destruct (0 <? ls); cbn [andb]; [rewrite limb_imap by (by rewrite length_fmap, length_seq)|];
    rewrite limb_fmap_seq by done; [|done].
  destruct (Nat.ltb_spec i lw), (Nat.ltb_spec lw i), (Nat.ltb_spec i (lw + 1)); try lia; done.
Qed.
Lemma limb_overflowing_shr n u s i (t := s mod Uint.BITS n) (lw := Z.to_nat (t / 64)) (ls := t mod 64) :
  (i < n)%nat →
  limb (Uint.overflowing_shr n u s).1 i =
    if (i + lw <? n)%nat then
      if (0 <? ls) && (i + lw + 1 <? n)%nat
      then Z.lor (shr64 (limb u (i + lw)) ls) (shl64 (limb u (i + lw + 1)) (64 - ls))
      else shr64 (limb u (i + lw)) ls
    else 0.
Proof.
  intros Hi. unfold Uint.overflowing_shr. fold t. fold lw. fold ls. cbn [fst].
  destruct (0 <? ls); cbn [andb]; [rewrite limb_imap by (by rewrite length_fmap, length_seq)|];
    rewrite limb_fmap_seq by done; [|done].
  destruct (Nat.ltb_spec (i + lw) n), (Nat.ltb_spec (i + lw + 1) n); try lia; done.
Qed.

Lemma overflowing_shl_wf n u s : uint_wf n u → uint_wf n (Uint.overflowing_shl n u s).1.
Proof.
  intros Hu. apply uint_wf_limbs.
  - unfold Uint.overflowing_shl. cbn [fst]. case_match; by rewrite ?length_imap, length_fmap, length_seq.
  - intros i Hi. rewrite limb_overflowing_shl by done.
    pose proof (Z.mod_pos_bound (s mod Uint.BITS n) 64 ltac:(lia)). destruct Hu as [_ Hu].
    repeat case_match; auto 6 with misaka lia.
Qed.
Lemma overflowing_shr_wf n u s : uint_wf n u → uint_wf n (Uint.overflowing_shr n u s).1.
Proof.
  intros Hu. apply uint_wf_limbs.
  - unfold Uint.overflowing_shr. cbn [fst]. case_match; by rewrite ?length_imap, length_fmap, length_seq.
  - intros i Hi. rewrite limb_overflowing_shr by done.
    pose proof (Z.mod_pos_bound (s mod Uint.BITS n) 64 ltac:(lia)). destruct Hu as [_ Hu].
    repeat case_match; auto 6 with misaka lia.
Qed.

Lemma testbit_uval_split u i j : Forall is_limb u → 0 ≤ j < 64 →
  Z.testbit (uval u) (64 * Z.of_nat i + j) = Z.testbit (limb u i) j.
Proof.
  intros Hu Hj. rewrite testbit_uval by (done || lia).
  rewrite (Z.mul_comm 64), Z.add_comm, Z.mod_add, Z.div_add, Z.mod_small, Z.div_small by lia.
  by rewrite Z.add_0_l, Nat2Z.id.
Qed.
Lemma uval_testbit_high n u k : uint_wf n u → 64 * Z.of_nat n ≤ k → Z.testbit (uval u) k = false.
Proof.
  intros Hu Hk. rewrite testbit_uval by (apply Hu || lia).
  assert (Z.of_nat n ≤ k / 64) by (apply Z.div_le_lower_bound; lia).
  rewrite limb_out by (rewrite (proj1 Hu); lia). apply Z.bits_0.
Qed.

(** Every bit position is in some limb. *)
Lemma split_bit k : 0 ≤ k → ∃ i j, k = 64 * Z.of_nat i + j ∧ 0 ≤ j < 64.
Proof.
  intros Hk. exists (Z.to_nat (k / 64)), (k mod 64).
  pose proof (Z.div_mod k 64 ltac:(lia)). pose proof (Z.mod_pos_bound k 64 ltac:(lia)).
  rewrite Z2Nat.id by (apply Z.div_pos; lia). lia.
Qed.

Lemma overflowing_shl_spec n u s : (0 < n)%nat → uint_wf n u → 0 ≤ s →
  uval (Uint.overflowing_shl n u s).1 = (uval u * 2 ^ (s mod Uint.BITS n)) mod 2 ^ Uint.BITS n.
Proof.
  intros Hn Hu Hs. pose proof (overflowing_shl_wf n u s Hu) as Hw.
  assert (0 < Uint.BITS n) by (unfold Uint.BITS; lia).
  pose proof (Z.mod_pos_bound s (Uint.BITS n) ltac:(done)) as Ht.
  apply Z.bits_inj'. intros k Hk. destruct (split_bit k Hk) as (i & j & -> & Hj).
  destruct (decide (i < n)%nat) as [Hi|Hi].
  2: { rewrite (uval_testbit_high n) by (done || lia).
       by rewrite Z.mod_pow2_bits_high by (unfold Uint.BITS in *; lia). }
  rewrite Z.mod_pow2_bits_low by (unfold Uint.BITS in *; lia).
  rewrite Z.mul_pow2_bits by lia. rewrite testbit_uval_split by (apply Hw || done).
  rewrite limb_overflowing_shl by done. set (t := s mod Uint.BITS n) in *.
  destruct (split_bit t ltac:(lia)) as (lw & ls & Heq & Hls).
  assert (t / 64 = Z.of_nat lw) as -> by (rewrite Heq; symmetry; apply Z.div_unique with ls; lia).
  assert (t mod 64 = ls) as -> by (rewrite Heq; symmetry; apply Z.mod_unique with (Z.of_nat lw); lia).
  rewrite Nat2Z.id. rewrite Heq. destruct (Nat.ltb_spec i lw).
  { rewrite Z.bits_0. symmetry. apply Z.testbit_neg_r. lia. }
  destruct (Z.ltb_spec 0 ls), (Nat.ltb_spec lw i); cbn [andb];
    rewrite ?Z.lor_spec, testbit_shl64, ?testbit_shr64 by lia; destruct (Z.ltb_spec j 64); try lia;
    cbn [andb].
  all: destruct (decide (ls ≤ j)).
  all: try (rewrite (Z.testbit_neg_r _ (j - ls)) by lia).
  all: try (rewrite (limb_testbit_high (limb u (i - 1 - lw))) by (try apply limb_is_limb, Hu; lia)).
  all: rewrite ?orb_false_l, ?orb_false_r.
  all: try (replace (64 * Z.of_nat i + j - (64 * Z.of_nat lw + ls))
    with (64 * Z.of_nat (i - lw) + (j - ls)) by lia; rewrite testbit_uval_split by (apply Hu || lia); done).
  all: try (replace (64 * Z.of_nat i + j - (64 * Z.of_nat lw + ls))
    with (64 * Z.of_nat (i - 1 - lw) + (j + (64 - ls))) by lia;
    rewrite testbit_uval_split by (apply Hu || lia); done).
  all: try (rewrite Z.testbit_neg_r by lia; done).
Qed.

Lemma overflowing_shr_spec n u s : (0 < n)%nat → uint_wf n u → 0 ≤ s →
  uval (Uint.overflowing_shr n u s).1 = uval u / 2 ^ (s mod Uint.BITS n).
Proof.
  intros Hn Hu Hs. pose proof (overflowing_shr_wf n u s Hu) as Hw.
  assert (0 < Uint.BITS n) by (unfold Uint.BITS; lia).
  pose proof (Z.mod_pos_bound s (Uint.BITS n) ltac:(done)) as Ht.
  apply Z.bits_inj'. intros k Hk. destruct (split_bit k Hk) as (i & j & -> & Hj).
  rewrite Z.div_pow2_bits by lia.
  destruct (decide (i < n)%nat) as [Hi|Hi].
  2: { by rewrite !(uval_testbit_high n) by (done || lia). }
  rewrite testbit_uval_split by (apply Hw || done).
  rewrite limb_overflowing_shr by done. set (t := s mod Uint.BITS n) in *.
  destruct (split_bit t ltac:(lia)) as (lw & ls & Heq & Hls).
  assert (t / 64 = Z.of_nat lw) as -> by (rewrite Heq; symmetry; apply Z.div_unique with ls; lia).
  assert (t mod 64 = ls) as -> by (rewrite Heq; symmetry; apply Z.mod_unique with (Z.of_nat lw); lia).
  rewrite Nat2Z.id. rewrite Heq. destruct (Nat.ltb_spec (i + lw) n).
  2: { rewrite Z.bits_0, (uval_testbit_high n) by (done || lia). done. }
  destruct (Z.ltb_spec 0 ls), (Nat.ltb_spec (i + lw + 1) n); cbn [andb];
    rewrite ?Z.lor_spec, testbit_shr64, ?testbit_shl64 by lia; destruct (Z.ltb_spec j 64); try lia;
    cbn [andb].
  all: destruct (decide (j + ls < 64)).
  all: try (rewrite (Z.testbit_neg_r _ (j - (64 - ls))) by lia).
  all: try (rewrite (limb_testbit_high (limb u (i + lw))) by (try apply limb_is_limb, Hu; lia)).
  all: rewrite ?orb_false_l, ?orb_false_r.
  all: try (replace (64 * Z.of_nat i + j + (64 * Z.of_nat lw + ls))
    with (64 * Z.of_nat (i + lw) + (j + ls)) by lia; rewrite testbit_uval_split by (apply Hu || lia); done).
  all: try (replace (64 * Z.of_nat i + j + (64 * Z.of_nat lw + ls))
    with (64 * Z.of_nat (i + lw + 1) + (j - (64 - ls))) by lia;
    rewrite testbit_uval_split by (apply Hu || lia); done).
  all: try (rewrite (uval_testbit_high n) by (done || lia); done).
  all: lia.
Qed.

(** ** Complement and comparison *)

Lemma not64_spec a : is_limb a → not64 a = Limb - 1 - a.
Proof.
  intros Ha. unfold not64. replace (Limb - 1) with (Z.ones 64) by done.
  rewrite Z.lxor_comm.
  assert (Z.lxor (Z.ones 64) a = Z.ldiff (Z.ones 64) a) as ->.
  { apply Z.bits_inj'. intros k Hk. rewrite Z.lxor_spec, Z.ldiff_spec.
    destruct (decide (k < 64)); [rewrite Z.ones_spec_low by lia|rewrite Z.ones_spec_high by lia].
    - by destruct (Z.testbit a k).
    - by rewrite (limb_testbit_high a) by (done || lia). }
  symmetry. apply Z.sub_nocarry_ldiff. apply Z.bits_inj'. intros k Hk. rewrite Z.ldiff_spec, Z.bits_0.
  destruct (decide (k < 64)); [rewrite Z.ones_spec_low by lia|rewrite (limb_testbit_high a) by (done || lia)].
  - by rewrite andb_false_r.
  - done.
Qed.

Lemma not_spec n u : uint_wf n u →
  uint_wf n (Uint.not u) ∧ uval (Uint.not u) = Limb ^ Z.of_nat n - 1 - uval u.
Proof.
  unfold Uint.not. revert u. induction n as [|n IH]; intros u Hu.
  { by rewrite (uint_wf_0_inv _ Hu). }
  apply uint_wf_S_inv in Hu as (a & u' & -> & Ha & Hu). apply IH in Hu as [Hw Hv].
  rewrite fmap_cons, uint_wf_cons, pow_Limb_S, not64_spec by done. cbn [uval]. rewrite Hv.
  unfold is_limb in *. split; [split; [lia|done]|ring].
Qed.

Lemma lex_cmp_app u v a b : length u = length v →
  Uint.lex_cmp (u ++ [a]) (v ++ [b]) = match Uint.lex_cmp u v with Eq => a ?= b | c => c end.
Proof.
  revert v. induction u as [|x u IH]; intros [|y v] Hl; try done; cbn [app Uint.lex_cmp].
  - by destruct (a ?= b).
  - rewrite IH by (simpl in Hl; lia). by destruct (x ?= y).
Qed.

Lemma cmp_spec n u v : uint_wf n u → uint_wf n v → Uint.cmp u v = (uval u ?= uval v).
Proof.
  unfold Uint.cmp. revert u v. induction n as [|n IH]; intros u v Hu Hv.
  { by rewrite (uint_wf_0_inv _ Hu), (uint_wf_0_inv _ Hv). }
  apply uint_wf_S_inv in Hu as (a & u' & -> & Ha & Hu), Hv as (b & v' & -> & Hb & Hv).
  cbn [rev]. rewrite lex_cmp_app by (rewrite !length_rev, (proj1 Hu), (proj1 Hv); done).
  rewrite (IH u' v') by done. cbn [uval]. unfold is_limb in *. symmetry.
  destruct (Z.compare_spec (uval u') (uval v')) as [->| |].
  - destruct (Z.compare_spec a b) as [->| |].
    + apply Z.compare_refl.
    + apply Z.compare_lt_iff. lia.
    + apply Z.compare_gt_iff. lia.
  - apply Z.compare_lt_iff. nia.
  - apply Z.compare_gt_iff. nia.
Qed.

Lemma ge_spec n u v : uint_wf n u → uint_wf n v → Uint.ge u v = (uval v <=? uval u).
Proof.
  intros Hu Hv. unfold Uint.ge. rewrite (cmp_spec n) by done.
  destruct (Z.compare_spec (uval u) (uval v)), (Z.leb_spec (uval v) (uval u)); done || lia.
Qed.

Lemma existsb_nonzero u : Forall is_limb u → existsb (λ a, negb (a =? 0)) u = negb (uval u =? 0).
Proof.
  induction 1 as [|a u Ha Hu IH]; [done|]. cbn [existsb uval]. rewrite IH.
  pose proof (uval_bound _ u (conj eq_refl Hu)). pose proof Limb_pos. unfold is_limb in Ha.
  destruct (Z.eqb_spec a 0), (Z.eqb_spec (uval u) 0), (Z.eqb_spec (a + Limb * uval u) 0); simpl; nia.
Qed.

Lemma cmp_u64_spec n u x : (0 < n)%nat → uint_wf n u → is_limb x → Uint.cmp_u64 u x = (uval u ?= x).
Proof.
  intros Hn Hu Hx. destruct n as [|n]; [lia|].
  apply uint_wf_S_inv in Hu as (a & u' & -> & Ha & Hu). unfold Uint.cmp_u64. cbn [drop limb nth].
  unfold limb. cbn [nth]. rewrite drop_0, existsb_nonzero by apply Hu. cbn [uval].
  pose proof (uval_bound _ _ Hu). unfold is_limb in *.
  destruct (Z.eqb_spec (uval u') 0) as [->|]; cbn [negb]; [f_equal; lia|].
  symmetry. apply Z.compare_gt_iff. nia.
Qed.

(** ** The number of bits *)

Lemma bit_length_spec a k : 0 ≤ a → 0 ≤ k → bit_length a ≤ k ↔ a < 2 ^ k.
Proof.
  intros Ha Hk. unfold bit_length. destruct (Z.eqb_spec a 0) as [->|].
  - pose proof (Z.pow_pos_nonneg 2 k). lia.
  - rewrite Z.log2_lt_pow2 by lia. lia.
Qed.
Lemma bit_length_nonneg a : 0 ≤ a → 0 ≤ bit_length a.
Proof. unfold bit_length. case_match; [lia|]. pose proof (Z.log2_nonneg a). lia. Qed.
Lemma bit_length_pow a : 0 < a → 2 ^ (bit_length a - 1) ≤ a < 2 ^ bit_length a.
Proof.
  intros Ha. unfold bit_length. destruct (Z.eqb_spec a 0); [lia|].
  pose proof (Z.log2_spec a Ha). replace (Z.log2 a + 1 - 1) with (Z.log2 a) by lia.
  rewrite Z.add_1_r. lia.
Qed.
Lemma bit_length_unique a k : 0 < k → 2 ^ (k - 1) ≤ a < 2 ^ k → bit_length a = k.
Proof.
  intros Hk Ha. pose proof (Z.pow_pos_nonneg 2 (k - 1)).
  assert (bit_length a ≤ k) by (apply bit_length_spec; lia).
  assert (¬ bit_length a ≤ k - 1) by (rewrite bit_length_spec by lia; lia). lia.
Qed.

Lemma bits_below_spec u i : Forall is_limb u → (i ≤ length u)%nat →
  Uint.bits_below u i = bit_length (uval (take i u)).
Proof.
  intros Hu. induction i as [|i IH]; intros Hi; [done|]. cbn [Uint.bits_below].
  rewrite uval_take_S by lia. destruct (Z.eqb_spec (limb u i) 0) as [Hz|Hz].
  { rewrite Hz, IH by lia. f_equal. lia. }
  assert (is_limb (limb u i)) as Hl by (by apply limb_is_limb). pose proof Hl as Hl'. unfold is_limb in Hl'.
  destruct (uval_bound i (take i u)) as [H0 H1].
  { apply uint_wf_take with (length u); [by split|lia]. }
  destruct (bit_length_pow (limb u i)) as [Hb1 Hb2]; [lia|].
  assert (0 < bit_length (limb u i)).
  { unfold bit_length. case_match; [lia|]. pose proof (Z.log2_nonneg (limb u i)). lia. }
  unfold leading_zeros64. symmetry.
  replace (64 * (Z.of_nat i + 1) - (64 - bit_length (limb u i))) with (64 * Z.of_nat i + bit_length (limb u i)) by lia.
  apply bit_length_unique; [lia|].
  assert (Limb ^ Z.of_nat i = 2 ^ (64 * Z.of_nat i)) as Hpow by (rewrite Limb_eq, <- Z.pow_mul_r by lia; done).
  rewrite Hpow in *. replace (64 * Z.of_nat i + bit_length (limb u i) - 1)
    with (64 * Z.of_nat i + (bit_length (limb u i) - 1)) by lia.
  rewrite !Z.pow_add_r by lia.
  set (P := 2 ^ (64 * Z.of_nat i)) in *. nia.
Qed.
Lemma bits_spec n u : uint_wf n u → Uint.bits n u = bit_length (uval u).
Proof.
  intros [Hn Hu]. unfold Uint.bits. rewrite bits_below_spec by (done || lia). by rewrite take_ge by lia.
Qed.

(** ** Division *)

Lemma uint_lor_shiftl_add r d : 0 ≤ r → is_limb d → Z.lor (Z.shiftl r 64) d = r * Limb + d.
Proof.
  intros Hr Hd. rewrite Z.lor_comm, lor_add by (lia || apply Hd). rewrite <- Limb_eq. ring.
Qed.

Lemma div_rem_u64_fold n u b : uint_wf n u → 0 < b < Limb →
  let '(q, r) := foldr (Uint.div_rem_step b) ([], 0) u in
  uint_wf n q ∧ uval u = uval q * b + r ∧ 0 ≤ r < b.
Proof.
  intros Hu Hb. revert u Hu. induction n as [|n IH]; intros u Hu.
  { rewrite (uint_wf_0_inv _ Hu). cbn. split; [by split|lia]. }
  apply uint_wf_S_inv in Hu as (a & u' & -> & Ha & Hu). specialize (IH _ Hu). cbn [foldr].
  destruct (foldr (Uint.div_rem_step b) ([], 0) u') as [q r]. destruct IH as (Hq & Heq & Hr).
  unfold Uint.div_rem_step. rewrite uint_lor_shiftl_add by (done || lia). unfold is_limb in Ha.
  set (x := r * Limb + a). pose proof (Z.mod_pos_bound x b ltac:(lia)).
  assert (0 ≤ x / b < Limb).
  { split; [apply Z.div_pos; nia|apply Z.div_lt_upper_bound; nia]. }
  rewrite !Z.mod_small by lia. rewrite uint_wf_cons. unfold is_limb.
  split; [split; [lia|done]|]. split; [|lia]. cbn [uval]. pose proof (Z.div_mod x b ltac:(lia)). nia.
Qed.

Lemma div_rem_u64_spec n u b : uint_wf n u → 0 < b < Limb →
  ∃ q, Uint.div_rem_u64 u b = Ok (q, uval u mod b) ∧ uint_wf n q ∧ uval q = uval u / b.
Proof.
  intros Hu Hb. pose proof (div_rem_u64_fold n u b Hu Hb) as H. unfold Uint.div_rem_u64.
  destruct (Z.eqb_spec b 0); [lia|].
  destruct (foldr (Uint.div_rem_step b) ([], 0) u) as [q r]. destruct H as (Hq & Heq & Hr).
  exists q. rewrite Heq, Z.add_comm, Z.mod_add, Z.mod_small, Z.div_add, Z.div_small by lia.
  split_and!; [done..|lia].
Qed.

Lemma uval_insert u i x : (i < length u)%nat →
  uval (<[i := x]> u) = uval u + Limb ^ Z.of_nat i * (x - limb u i).
Proof.
  revert i. induction u as [|a u IH]; intros i Hi; [simpl in Hi; lia|].
  destruct i as [|i]; cbn [insert list_insert uval].
  - unfold limb. cbn [nth]. change (Limb ^ Z.of_nat 0) with 1. ring.
  - rewrite IH by (simpl in Hi; lia). rewrite pow_Limb_S. unfold limb. cbn [nth]. ring.
Qed.

(** Setting a bit that is clear adds its power of two. *)
Lemma set_bit_spec n u s : uint_wf n u → (s < 64 * n)%nat → Z.testbit (uval u) (Z.of_nat s) = false →
  let i := (s / 64)%nat in
  let u' := <[i := Z.lor (limb u i) (Z.shiftl 1 (Z.of_nat (s mod 64)))]> u in
  uint_wf n u' ∧ uval u' = uval u + 2 ^ Z.of_nat s.
Proof.
  intros Hu Hs Hbit i u'. pose proof (Nat.div_mod_eq s 64) as Hdm. fold i in Hdm.
  pose proof (Nat.mod_upper_bound s 64 ltac:(lia)) as Hm. set (j := (s mod 64)%nat) in *.
  assert (i < n)%nat by lia. assert (i < length u)%nat by (rewrite (proj1 Hu); lia).
  assert (is_limb (Z.shiftl 1 (Z.of_nat j))) as H1.
  { rewrite Z.shiftl_1_l. unfold is_limb. rewrite Limb_eq. split; [lia|]. apply Z.pow_lt_mono_r; lia. }
  assert (Z.testbit (limb u i) (Z.of_nat j) = false) as Hj.
  { rewrite <- testbit_uval_split by (apply Hu || lia). rewrite <- Hbit. f_equal. lia. }
  assert (Z.lor (limb u i) (Z.shiftl 1 (Z.of_nat j)) = limb u i + 2 ^ Z.of_nat j) as Hlor.
  { rewrite Z.shiftl_1_l, <- Z.lxor_lor, <- Z.add_nocarry_lxor; [done|..].
    all: apply Z.bits_inj'; intros k Hk; rewrite Z.land_spec, Z.bits_0, Z.pow2_bits_eqb by lia.
    all: destruct (Z.eqb_spec (Z.of_nat j) k) as [<-|]; [by rewrite Hj|by rewrite andb_false_r]. }
  split.
  - split; [unfold u'; by rewrite length_insert, (proj1 Hu)|].
    apply Forall_insert; [apply Hu|]. apply lor_limb; [apply limb_is_limb, Hu|done].
  - unfold u'. rewrite uval_insert by done. rewrite Hlor.
    assert (2 ^ Z.of_nat s = Limb ^ Z.of_nat i * 2 ^ Z.of_nat j) as ->; [|ring].
    rewrite Limb_eq, <- Z.pow_mul_r, <- Z.pow_add_r by lia. f_equal. lia.
Qed.

Lemma sub_small_spec n u v : uint_wf n u → uint_wf n v → uval v ≤ uval u →
  uint_wf n (Uint.sub u v) ∧ uval (Uint.sub u v) = uval u - uval v.
Proof.
  intros Hu Hv Hle. pose proof (overflowing_sub_spec n u v Hu Hv) as H. unfold Uint.sub.
  destruct (Uint.overflowing_sub u v) as [r c]. destruct H as (Hr & Heq & _). cbn [fst]. split; [done|].
  rewrite Heq. apply Z.mod_small. pose proof (uval_bound _ _ Hu). pose proof (uval_bound _ _ Hv). lia.
Qed.

Lemma shr1_spec n u : (0 < n)%nat → uint_wf n u →
  uint_wf n (Uint.shr n u 1) ∧ uval (Uint.shr n u 1) = uval u / 2.
Proof.
  intros Hn Hu. split; [by apply overflowing_shr_wf|]. unfold Uint.shr.
  rewrite overflowing_shr_spec by (done || lia).
  rewrite (Z.mod_small 1) by (unfold Uint.BITS; lia). done.
Qed.

(** The body of the division loop. *)
Definition div_body (s : nat) (rem sc ret : list Z) : list Z * list Z :=
  if Uint.ge rem sc then
    (<[(s / 64)%nat := Z.lor (limb ret (s / 64)) (Z.shiftl 1 (Z.of_nat (s mod 64)))]> ret, Uint.sub rem sc)
  else (ret, rem).

Lemma div_body_spec n (b D : Z) (s : nat) rem sc ret m : 0 < b → (s < 64 * n)%nat →
  uint_wf n rem → uint_wf n sc → uint_wf n ret →
  uval rem + uval ret * b = D → uval sc = b * 2 ^ Z.of_nat s →
  uval rem < b * (2 * 2 ^ Z.of_nat s) → uval ret = m * (2 * 2 ^ Z.of_nat s) →
  let '(ret', rem') := div_body s rem sc ret in
  uint_wf n rem' ∧ uint_wf n ret' ∧ uval rem' + uval ret' * b = D ∧
  uval rem' < b * 2 ^ Z.of_nat s ∧ ∃ m', uval ret' = m' * 2 ^ Z.of_nat s.
Proof.
  intros Hb Hs Hrem Hsc Hret HD Hscv Hlt Hm. unfold div_body. rewrite (ge_spec n) by done.
  destruct (Z.leb_spec (uval sc) (uval rem)).
  - destruct (set_bit_spec n ret s Hret Hs) as [Hw Hv].
    { rewrite Hm, Z.mul_assoc, Z.mul_pow2_bits by lia. replace (Z.of_nat s - Z.of_nat s) with 0 by lia.
      rewrite Z.bit0_odd, Z.mul_comm. rewrite Z.odd_mul. done. }
    destruct (sub_small_spec n rem sc Hrem Hsc) as [Hw2 Hv2]; [lia|].
    split_and!; [done..|rewrite Hv, Hv2; nia|rewrite Hv2; lia|].
    exists (2 * m + 1). rewrite Hv, Hm. ring.
  - split_and!; [done..|lia|]. exists (2 * m). rewrite Hm. ring.
Qed.

Lemma div_loop_spec n (b D : Z) (s : nat) rem sc ret m : (0 < n)%nat → 0 < b → (s < 64 * n)%nat →
  uint_wf n rem → uint_wf n sc → uint_wf n ret →
  uval rem + uval ret * b = D → uval sc = b * 2 ^ Z.of_nat s →
  uval rem < b * (2 * 2 ^ Z.of_nat s) → uval ret = m * (2 * 2 ^ Z.of_nat s) →
  let '(q, r) := Uint.div_loop n s rem sc ret in
  uint_wf n q ∧ uint_wf n r ∧ uval q * b + uval r = D ∧ uval r < b.
Proof.
  intros Hn Hb. revert rem sc ret m.
  induction s as [|s IH]; intros rem sc ret m Hs Hrem Hsc Hret HD Hscv Hlt Hm.
  all: pose proof (div_body_spec n b D _ rem sc ret m Hb Hs Hrem Hsc Hret HD Hscv Hlt Hm) as H.
  all: cbn [Uint.div_loop]; fold (div_body 0 rem sc ret) || fold (div_body (S s) rem sc ret).
  all: destruct (div_body _ rem sc ret) as [ret' rem']; destruct H as (Hw1 & Hw2 & HD' & Hlt' & m' & Hm').
  - simpl (2 ^ _) in *. split_and!; [done..|lia|lia].
  - destruct (shr1_spec n sc Hn Hsc) as [Hw3 Hv3].
    rewrite Nat2Z.inj_succ, Z.pow_succ_r in * by lia.
    apply (IH _ _ _ m'); [lia|done..| |done|done].
    rewrite Hv3, Hscv, (Z.mul_comm 2), Z.mul_assoc, Z.div_mul by lia. done.
Qed.

Lemma div_rem_spec n u v : (0 < n)%nat → uint_wf n u → uint_wf n v → uval v ≠ 0 →
  ∃ q r, Uint.div_rem n u v = Ok (q, r) ∧ uint_wf n q ∧ uint_wf n r ∧
    uval q = uval u / uval v ∧ uval r = uval u mod uval v.
Proof.
  intros Hn Hu Hv Hv0. pose proof (uval_bound _ _ Hu) as Hub. pose proof (uval_bound _ _ Hv) as Hvb.
  unfold Uint.div_rem. rewrite !(bits_spec n) by done.
  destruct (bit_length_pow (uval v)) as [Hv1 Hv2]; [lia|].
  assert (0 < bit_length (uval v)) as Hvl.
  { unfold bit_length. case_match; [lia|]. pose proof (Z.log2_nonneg (uval v)). lia. }
  destruct (Z.eqb_spec (bit_length (uval v)) 0) as [|_]; [lia|].
  assert (∀ x, 0 ≤ x < Limb ^ Z.of_nat n → bit_length x ≤ 64 * Z.of_nat n) as Hle.
  { intros x Hx. apply bit_length_spec; [lia..|]. rewrite Z.pow_mul_r, <- Limb_eq by lia. lia. }
  destruct (Z.ltb_spec (bit_length (uval u)) (bit_length (uval v))) as [Hlt|Hge].
  { assert (uval u < uval v).
    { apply Z.lt_le_trans with (2 ^ (bit_length (uval v) - 1)); [|done]. apply bit_length_spec; lia. }
    exists (Uint.ZERO n), u. rewrite Z.div_small, Z.mod_small by lia.
    unfold Uint.ZERO. rewrite uval_replicate_0. auto with misaka. }
  pose proof (Hle _ Hub) as Hul. set (s := bit_length (uval u) - bit_length (uval v)).
  assert (uval v * 2 ^ s < Limb ^ Z.of_nat n) as Hfit.
  { rewrite pow_Limb_bits. apply Z.lt_le_trans with (2 ^ bit_length (uval v) * 2 ^ s).
    - apply Z.mul_lt_mono_pos_r; [apply Z.pow_pos_nonneg; lia|lia].
    - rewrite <- Z.pow_add_r by lia. apply Z.pow_le_mono_r; unfold Uint.BITS; lia. }
  destruct (bit_length_spec (uval u) (bit_length (uval u))) as [Hub2 _]; [lia|apply bit_length_nonneg; lia|].
  specialize (Hub2 ltac:(lia)).
  pose proof (div_loop_spec n (uval v) (uval u) (Z.to_nat s) u (Uint.shl n v s) (Uint.ZERO n) 0 Hn) as H.
  destruct (Uint.div_loop _ _ _ _ _) as [q r]. rewrite !Z2Nat.id in H by lia.
  destruct H as (Hq & Hr & Heq & Hlt); [lia|lia|done|by apply overflowing_shl_wf
    |unfold Uint.ZERO; auto with misaka|unfold Uint.ZERO; rewrite uval_replicate_0; lia| |
    |unfold Uint.ZERO; by rewrite uval_replicate_0|].
  - unfold Uint.shl. rewrite overflowing_shl_spec by (done || lia).
    rewrite (Z.mod_small s) by (unfold Uint.BITS; lia). rewrite <- pow_Limb_bits. apply Z.mod_small. nia.
  - apply Z.lt_le_trans with (2 ^ (bit_length (uval v) - 1 + 1 + s)).
    + replace (bit_length (uval v) - 1 + 1 + s) with (bit_length (uval u)) by lia. done.
    + rewrite !Z.pow_add_r by lia. simpl (2 ^ 1). nia.
  - pose proof (uval_bound _ _ Hr). exists q, r. split_and!; [done..| |].
    + apply Z.div_unique with (uval r); lia.
    + apply Z.mod_unique with (uval q); lia.
Qed.

(** ** The decimal printer *)

Definition is_digit (b : byte) : Prop := 48 ≤ b ≤ 57.
Definition dec_val (text : list byte) : Z := foldl (λ acc b, acc * 10 + (b - 48)) 0 text.

Lemma dec_val_acc text acc :
  foldl (λ acc b, acc * 10 + (b - 48)) acc text = acc * 10 ^ Z.of_nat (length text) + dec_val text.
Proof.
  unfold dec_val. revert acc. induction text as [|b text IH]; intros acc; cbn [foldl length]; [lia|].
  rewrite IH, (IH (0 * 10 + (b - 48))), Nat2Z.inj_succ, Z.pow_succ_r by lia. ring.
Qed.
Lemma dec_val_cons d text :
  dec_val (Uint.dec_digit d :: text) = d * 10 ^ Z.of_nat (length text) + dec_val text.
Proof.
  unfold dec_val at 1. cbn [foldl]. rewrite dec_val_acc. unfold Uint.dec_digit. f_equal. f_equal. lia.
Qed.
Lemma dec_val_two d text :
  dec_val (Uint.two_digits d ++ text) = d * 10 ^ Z.of_nat (length text) + dec_val text.
Proof.
  unfold Uint.two_digits. cbn [app]. rewrite !dec_val_cons. cbn [length].
  rewrite Nat2Z.inj_succ, Z.pow_succ_r by lia. pose proof (Z.div_mod d 10 ltac:(lia)). nia.
Qed.
Lemma two_digits_digits d : 0 ≤ d < 100 → Forall is_digit (Uint.two_digits d).
Proof.
  intros Hd. pose proof (Z.mod_pos_bound d 10 ltac:(lia)). pose proof (Z.div_mod d 10 ltac:(lia)).
  repeat constructor; unfold is_digit, Uint.dec_digit; lia.
Qed.

(** What is left to print and what has been printed make up the number. *)
Definition printing (n : nat) (v : Z) (u : list Z) (curr : Z) (buf : list byte) : Prop :=
  uint_wf n u ∧ v = uval u * 10 ^ Z.of_nat (length buf) + dec_val buf ∧
  curr = Z.of_nat n * 20 - Z.of_nat (length buf) ∧ Forall is_digit buf ∧
  0 ≤ dec_val buf ∧ (uval u = 0 → buf = []).

Lemma digits_fit (n l : nat) (v x : Z) k : v < Limb ^ Z.of_nat n → x * 10 ^ Z.of_nat l ≤ v → 0 ≤ k →
  10 ^ k ≤ x → Z.of_nat l + k < Z.of_nat n * 20.
Proof.
  intros Hv Hx Hk Hkx. apply (Z.pow_lt_mono_r_iff 10); [lia..|].
  apply Z.le_lt_trans with v.
  - rewrite Z.pow_add_r by lia. pose proof (Z.pow_pos_nonneg 10 (Z.of_nat l)). nia.
  - apply Z.lt_le_trans with (Limb ^ Z.of_nat n); [done|].
    rewrite Z.mul_comm, Z.pow_mul_r by lia. apply Z.pow_le_mono_l. rewrite Limb_eq. lia.
Qed.

Lemma printing_bound n v u curr buf : printing n v u curr buf → uval u * 10 ^ Z.of_nat (length buf) ≤ v.
Proof. intros (_ & -> & _ & _ & ? & _). lia. Qed.

Lemma display_loop_spec n v fuel u curr buf : (0 < n)%nat → v < Limb ^ Z.of_nat n →
  printing n v u curr buf → curr < Z.of_nat fuel →
  ∃ u' curr' buf', Uint.display_loop fuel u curr buf = Ok (u', curr', buf') ∧
    printing n v u' curr' buf' ∧ uval u' < 10000.
Proof.
  intros Hn Hv. revert u curr buf. induction fuel as [|fuel IH]; intros u curr buf HP Hf; cbn [Uint.display_loop].
  { exfalso. pose proof (printing_bound _ _ _ _ _ HP) as Hb. destruct HP as (Hu & Hv' & -> & Hd & H0 & Hz).
    pose proof (uval_bound _ _ Hu). destruct (decide (uval u = 0)) as [E|E].
    - rewrite (Hz E) in *. simpl in Hf. lia.
    - pose proof (digits_fit n (length buf) v (uval u) 0 Hv Hb ltac:(lia)). lia. }
  pose proof (printing_bound _ _ _ _ _ HP) as Hb. pose proof HP as (Hu & Hv' & Hc & Hd & H0 & Hz).
  pose proof (uval_bound _ _ Hu) as Hub.
  unfold Uint.ge_u64. rewrite (cmp_u64_spec n) by (done || unfold is_limb; rewrite Limb_eq; lia).
  destruct (Z.compare_spec (uval u) 10000) as [Heq|Hlt|Hgt]; cycle 1.
  { exists u, curr, buf. done. }
  all: destruct (div_rem_u64_spec n u 10000 Hu) as (q & -> & Hq & Hqv); [rewrite Limb_eq; lia|].
  all: cbn [mbind outcome_bind].
  all: pose proof (digits_fit n (length buf) v (uval u) 4 Hv Hb ltac:(lia) ltac:(lia)).
  all: unfold Uint.move_curr; destruct (Z.leb_spec 4 curr); [cbn [mbind outcome_bind]|lia].
  all: pose proof (Z.mod_pos_bound (uval u) 10000 ltac:(lia)) as Hr.
  all: pose proof (Z.div_mod (uval u) 10000 ltac:(lia)) as Hdm.
  all: set (r := uval u mod 10000) in *.
  all: pose proof (Z.mod_pos_bound r 100 ltac:(lia)); pose proof (Z.div_mod r 100 ltac:(lia)).
  all: assert (0 ≤ r / 100 < 100) by lia.
  all: apply IH; [|lia].
  all: split_and!; [done| | | | |].
  all: try (intros Hq0; exfalso; rewrite Hqv in Hq0; lia).
  all: try (rewrite !dec_val_two; rewrite ?length_app; cbn [Uint.two_digits length];
    rewrite ?Nat2Z.inj_add).
  all: try (rewrite !length_app; cbn [Uint.two_digits length]; lia).
  all: try (apply Forall_app; split; [apply two_digits_digits; lia|];
    apply Forall_app; split; [apply two_digits_digits; lia|done]).
  all: rewrite ?Z.pow_add_r by lia.
  all: pose proof (Z.pow_pos_nonneg 10 (Z.of_nat (length buf)) ltac:(lia) ltac:(lia)) as Hp.
  all: set (P := 10 ^ Z.of_nat (length buf)) in *.
  all: try nia.
Qed.

Lemma uval_as_u64 n u : uint_wf n u → uval u < Limb → Uint.as_u64 u = uval u.
Proof.
  intros Hu Hlt. destruct n as [|n]; [by rewrite (uint_wf_0_inv _ Hu)|].
  apply uint_wf_S_inv in Hu as (a & u' & -> & Ha & Hu). unfold Uint.as_u64, limb. cbn [nth uval] in *.
  pose proof (uval_bound _ _ Hu). unfold is_limb in Ha. assert (uval u' = 0) by nia. lia.
Qed.

(** The last one to four digits. *)
Definition last_digits (x curr : Z) (buf : list byte) : outcome unit (list byte) :=
  '(x, curr, buf) ← (if 100 <=? x then
                       curr ← Uint.move_curr curr 2; mret (x / 100, curr, Uint.two_digits (x mod 100) ++ buf)
                     else mret (x, curr, buf));
  if x <? 10 then curr ← Uint.move_curr curr 1; mret (Uint.dec_digit x :: buf)
  else curr ← Uint.move_curr curr 2; mret (Uint.two_digits x ++ buf).

Definition no_leading_zero (text : list byte) : Prop := text = [48] ∨ ∃ b text', text = b :: text' ∧ b ≠ 48.

Lemma move_curr_Ok curr k : k ≤ curr → Uint.move_curr curr k = Ok (curr - k).
Proof. intros Hk. unfold Uint.move_curr. by destruct (Z.leb_spec k curr); [|lia]. Qed.

Lemma last_two x curr buf : 0 ≤ x < 100 → Forall is_digit buf → (x = 0 → buf = []) →
  (if x <? 10 then 1 else 2) ≤ curr →
  ∃ text, (if x <? 10 then curr ← Uint.move_curr curr 1; mret (Uint.dec_digit x :: buf)
           else curr ← Uint.move_curr curr 2; mret (Uint.two_digits x ++ buf)) = @Ok unit _ text ∧
    dec_val text = x * 10 ^ Z.of_nat (length buf) + dec_val buf ∧ Forall is_digit text ∧ no_leading_zero text.
Proof.
  intros Hx Hd Hz Hc. unfold Uint.move_curr. destruct (Z.ltb_spec x 10).
  - destruct (Z.leb_spec 1 curr); [|lia]. eexists. split; [done|]. split; [apply dec_val_cons|]. split.
    + constructor; [unfold is_digit, Uint.dec_digit; lia|done].
    + destruct (decide (x = 0)) as [->|]; [left; by rewrite Hz|]. right. unfold Uint.dec_digit.
      do 2 eexists. split; [done|lia].
  - destruct (Z.leb_spec 2 curr); [|lia]. eexists. split; [done|]. split; [apply dec_val_two|]. split.
    + apply Forall_app. split; [apply two_digits_digits; lia|done].
    + right. unfold Uint.two_digits, Uint.dec_digit. do 2 eexists. split; [done|].
      pose proof (Z.div_mod x 10 ltac:(lia)). pose proof (Z.mod_pos_bound x 10 ltac:(lia)). lia.
Qed.

Lemma last_digits_spec (n : nat) v x buf : v < Limb ^ Z.of_nat n → (0 < n)%nat → 0 ≤ x < 10000 →
  v = x * 10 ^ Z.of_nat (length buf) + dec_val buf → 0 ≤ dec_val buf → Forall is_digit buf →
  (x = 0 → buf = []) →
  ∃ text, last_digits x (Z.of_nat n * 20 - Z.of_nat (length buf)) buf = Ok text ∧
    dec_val text = v ∧ Forall is_digit text ∧ no_leading_zero text.
Proof.
  intros Hv Hn Hx Heq H0 Hd Hz. unfold last_digits.
  assert (∀ k, 0 ≤ k → 10 ^ k ≤ x → Z.of_nat (length buf) + k < Z.of_nat n * 20) as Hfit.
  { intros k Hk Hkx. by apply (digits_fit n (length buf) v x); [|lia|..]. }
  destruct (Z.leb_spec 100 x).
  - pose proof (Hfit 2 ltac:(lia) ltac:(lia)). rewrite move_curr_Ok by lia.
    cbn [mbind outcome_bind mret outcome_ret].
    pose proof (Z.div_mod x 100 ltac:(lia)). pose proof (Z.mod_pos_bound x 100 ltac:(lia)).
    destruct (last_two (x / 100) (Z.of_nat n * 20 - Z.of_nat (length buf) - 2)
      (Uint.two_digits (x mod 100) ++ buf)) as (text & Ht & Hval & Hdig & Hlead); [| | | |exists text; split; [exact Ht|]].
    + lia.
    + apply Forall_app. split; [apply two_digits_digits; lia|done].
    + intros Hq. lia.
    + destruct (Z.ltb_spec (x / 100) 10); [lia|]. pose proof (Hfit 3 ltac:(lia) ltac:(lia)). lia.
    + split; [|done]. rewrite Hval, dec_val_two, length_app. cbn [Uint.two_digits length].
      rewrite Nat2Z.inj_add, Z.pow_add_r by lia. rewrite Heq. nia.
  - cbn [mbind outcome_bind mret outcome_ret].
    destruct (last_two x (Z.of_nat n * 20 - Z.of_nat (length buf)) buf) as (text & Ht & Hval & Hdig & Hlead); [lia|done|done| |exists text; split; [exact Ht|]].
    + destruct (Z.ltb_spec x 10); [|pose proof (Hfit 1 ltac:(lia) ltac:(lia)); lia].
      destruct (decide (x = 0)) as [E|]; [rewrite (Hz E); simpl; lia|].
      pose proof (Hfit 0 ltac:(lia) ltac:(lia)). lia.
    + by rewrite Hval, Heq.
Qed.

Lemma display_spec n u : (0 < n)%nat → uint_wf n u →
  ∃ text, Uint.display n u = Ok text ∧ dec_val text = uval u ∧ Forall is_digit text ∧ no_leading_zero text.
Proof.
  intros Hn Hu. pose proof (uval_bound _ _ Hu). unfold Uint.display.
  edestruct (display_loop_spec n (uval u)) as (u' & curr & buf & -> & HP & Hlt); [done|lia| | |].
  - split_and!; [exact Hu|..]; [change (dec_val []) with 0; simpl; lia|simpl; lia|done|done|done].
  - lia.
  - cbn [mbind outcome_bind]. destruct HP as (Hu' & Hv & -> & Hd & H0 & Hz).
    pose proof (uval_bound _ _ Hu'). rewrite (uval_as_u64 n u') by (done || rewrite Limb_eq; lia).
    apply (last_digits_spec n (uval u) (uval u') buf); done || lia.
Qed.

(** ** The arithmetic as a whole *)

Lemma of_Z_unique n r z : uint_wf n r → uval r = z mod Limb ^ Z.of_nat n → r = of_Z n z.
Proof. intros Hr Hz. apply (uval_inj n); [done|apply of_Z_wf|]. by rewrite uval_of_Z. Qed.

Lemma of_Z_uval n u : uint_wf n u → of_Z n (uval u) = u.
Proof.
  intros Hu. symmetry. apply of_Z_unique; [done|]. symmetry. apply Z.mod_small, (uval_bound n u Hu).
Qed.

(** The limb loops of the wide integers are arithmetic modulo [2^BITS]:
    addition and subtraction with an exact overflow flag, saturating addition
    and subtraction, multiplication, shifts (by the distance modulo [BITS]),
    complement and order; the flag of the full multiplication is raised only
    if the product does not fit. *)
Theorem uint_arithmetic_refines_Z (n : nat) (u v : list Z) (s : Z) (M := 2 ^ Uint.BITS n) :
  (0 < n)%nat → uint_wf n u → uint_wf n v → 0 ≤ s →
  Uint.overflowing_add u v = (of_Z n (uval u + uval v), M <=? uval u + uval v) ∧
  Uint.overflowing_sub u v = (of_Z n (uval u - uval v), uval u <? uval v) ∧
  Uint.saturating_add n u v = of_Z n (Z.min (uval u + uval v) (M - 1)) ∧
  Uint.saturating_sub n u v = of_Z n (Z.max (uval u - uval v) 0) ∧
  Uint.mul n u v = of_Z n (uval u * uval v) ∧
  ((Uint.overflowing_mul n u v).2 = true → M ≤ uval u * uval v) ∧
  Uint.overflowing_mul_u64 u (limb v 0) = (of_Z n (uval u * limb v 0), M <=? uval u * limb v 0) ∧
  Uint.shl n u s = of_Z n (uval u * 2 ^ (s mod Uint.BITS n)) ∧
  Uint.shr n u s = of_Z n (uval u / 2 ^ (s mod Uint.BITS n)) ∧
  Uint.not u = of_Z n (M - 1 - uval u) ∧
  Uint.cmp u v = (uval u ?= uval v) ∧
  Uint.bits n u = bit_length (uval u).
Proof.
  intros Hn Hu Hv Hs. pose proof (uval_bound _ _ Hu) as Hub. pose proof (uval_bound _ _ Hv) as Hvb.
  assert (M = Limb ^ Z.of_nat n) as -> by (unfold M; by rewrite pow_Limb_bits).
  pose proof (overflowing_add_spec n u v Hu Hv) as Ha. pose proof (overflowing_sub_spec n u v Hu Hv) as Hsb.
  unfold Uint.saturating_add, Uint.saturating_sub, Uint.mul.
  destruct (Uint.overflowing_add u v) as [ra ca], (Uint.overflowing_sub u v) as [rs cs].
  destruct Ha as (Hra & Hva & ->), Hsb as (Hrs & Hvs & ->).
  pose proof (overflowing_mul_spec n u v Hu Hv) as Hm. destruct (Uint.overflowing_mul n u v) as [rm cm].
  destruct Hm as (Hrm & Hvm & Hcm).
  assert (is_limb (limb v 0)) as Hl by (apply limb_is_limb, Hv).
  pose proof (overflowing_mul_u64_spec n u (limb v 0) Hu Hl) as H6.
  destruct (Uint.overflowing_mul_u64 u (limb v 0)) as [r6 c6]. destruct H6 as (Hr6 & Hv6 & ->).
  destruct (not_spec n u Hu) as [Hnw Hnv].
  assert (∀ r z, uint_wf n r → uval r = z → r = of_Z n z) as Hof.
  { intros r z Hr <-. symmetry. by apply of_Z_uval. }
  split_and!.
  - by rewrite <- (of_Z_unique n ra).
  - by rewrite <- (of_Z_unique n rs).
  - destruct (Z.leb_spec (Limb ^ Z.of_nat n) (uval u + uval v)); apply Hof; [|rewrite uval_MAX; lia|done|].
    + apply uint_wf_replicate. unfold is_limb, U64_MAX. rewrite Limb_eq. lia.
    + rewrite Hva, Z.mod_small by lia. lia.
  - destruct (Z.ltb_spec (uval u) (uval v)); apply Hof; [|unfold Uint.ZERO; rewrite uval_replicate_0; lia|done|].
    + apply uint_wf_replicate, is_limb_0.
    + rewrite Hvs, Z.mod_small by lia. lia.
  - by apply of_Z_unique.
  - done.
  - by rewrite <- (of_Z_unique n r6).
  - apply of_Z_unique; [by apply overflowing_shl_wf|]. rewrite pow_Limb_bits. by apply overflowing_shl_spec.
  - apply Hof; [by apply overflowing_shr_wf|by apply overflowing_shr_spec].
  - by apply Hof.
  - by apply (cmp_spec n).
  - by apply bits_spec.
Qed.

(** Division: dividing by zero panics; otherwise the bitwise long division
    terminates with the quotient and the remainder, and so does the division
    by a single limb. *)
Theorem div_rem_correct (n : nat) (u v : list Z) : (0 < n)%nat → uint_wf n u → uint_wf n v →
  Uint.div_rem n u v =
    (if uval v =? 0 then Panic else Ok (of_Z n (uval u / uval v), of_Z n (uval u mod uval v))) ∧
  Uint.div_rem_u64 u (limb v 0) =
    (if limb v 0 =? 0 then Panic else Ok (of_Z n (uval u / limb v 0), uval u mod limb v 0)).
Proof.
  intros Hn Hu Hv. split.
  - destruct (Z.eqb_spec (uval v) 0) as [E|E].
    + unfold Uint.div_rem. rewrite (bits_spec n v) by done. by rewrite E.
    + destruct (div_rem_spec n u v Hn Hu Hv E) as (q & r & -> & Hq & Hr & Hqv & Hrv).
      by rewrite <- Hqv, <- Hrv, !of_Z_uval by done.
  - destruct (Z.eqb_spec (limb v 0) 0) as [E|E].
    + unfold Uint.div_rem_u64. by rewrite E.
    + assert (is_limb (limb v 0)) as Hl by (apply limb_is_limb, Hv). unfold is_limb in Hl.
      destruct (div_rem_u64_spec n u (limb v 0) Hu) as (q & -> & Hq & Hqv); [lia|].
      by rewrite <- Hqv, of_Z_uval by done.
Qed.

(** Printing: every wide integer is printed, within its buffer, as the
    digits of its decimal form, without leading zeros. *)
Theorem display_decimal (n : nat) (u : list Z) : (0 < n)%nat → uint_wf n u →
  ∃ text, Uint.display n u = Ok text ∧ dec_val text = uval u ∧ Forall is_digit text ∧ no_leading_zero text.
Proof. apply display_spec. Qed.

(** The multiplication of [2^192] by itself in 256 bits reports no overflow. *)
Lemma overflowing_mul_misses_overflow :
  Uint.overflowing_mul 4 [0; 0; 0; 1] [0; 0; 0; 1] = ([0; 0; 0; 0], false) ∧
  Uint.mul 4 [0; 0; 0; 1] [0; 0; 0; 1] = of_Z 4 (2 ^ 192 * 2 ^ 192) ∧ 2 ^ 256 ≤ 2 ^ 192 * 2 ^ 192.
Proof. split_and!; [by vm_compute..|lia]. Qed.

(** ** Witnesses *)

Lemma uint_wf_four a b c d :
  (forallb (λ x, (0 <=? x) && (x <? 2 ^ 64)) [a; b; c; d]) = true → uint_wf 4 [a; b; c; d].
Proof.
  intros H. split; [done|]. apply Forall_forall. intros x Hx%list_elem_of_In.
  rewrite forallb_forall in H. specialize (H x Hx). unfold is_limb. rewrite Limb_eq. lia.
Qed.

Lemma uint_arithmetic_refines_Z_witness :
  Uint.overflowing_add [2 ^ 64 - 1; 5; 0; 7] [1; 0; 3; 9] =
    (of_Z 4 (uval [2 ^ 64 - 1; 5; 0; 7] + uval [1; 0; 3; 9]), false) ∧
  uval [2 ^ 64 - 1; 5; 0; 7] + uval [1; 0; 3; 9] = uval [0; 6; 3; 16].
Proof.
  split; [|by vm_compute].
  destruct (uint_arithmetic_refines_Z 4 [2 ^ 64 - 1; 5; 0; 7] [1; 0; 3; 9] 70) as [H _];
    [lia|apply uint_wf_four; by vm_compute|apply uint_wf_four; by vm_compute|lia|].
  rewrite H. vm_compute. reflexivity.
Defined.

Lemma div_rem_correct_witness :
  Uint.div_rem 4 [0; 0; 5; 1] [7; 1; 0; 0] =
    Ok (of_Z 4 (uval [0; 0; 5; 1] / uval [7; 1; 0; 0]), of_Z 4 (uval [0; 0; 5; 1] mod uval [7; 1; 0; 0])).
Proof.
  destruct (div_rem_correct 4 [0; 0; 5; 1] [7; 1; 0; 0]) as [H _];
    [lia|apply uint_wf_four; by vm_compute|apply uint_wf_four; by vm_compute|].
  rewrite H. vm_compute. reflexivity.
Defined.

Lemma display_decimal_witness :
  Uint.display 4 [10203; 1; 0; 0] =
    Ok [49; 56; 52; 52; 54; 55; 52; 52; 48; 55; 51; 55; 48; 57; 53; 54; 49; 56; 49; 57] ∧
  ∃ text, Uint.display 4 [10203; 1; 0; 0] = Ok text ∧ dec_val text = 10203 + 2 ^ 64.
Proof.
  split; [by vm_compute|].
  destruct (display_decimal 4 [10203; 1; 0; 0]) as (text & H & Hv & _); [lia|apply uint_wf_four; by vm_compute|].
  exists text. split; [done|]. rewrite Hv. vm_compute. reflexivity.
Defined.
