(* ===== verification/Target.v ===== *)
(** * Compact targets and block work

    The 32-bit floating-point form of a difficulty target
    ([from_compact_target_bits], [compact_target_bits] of math/src/lib.rs) and
    the work of a block ([calc_work] of
    consensus/src/processes/difficulty.rs), over the arithmetic of
    UintThms.v. *)

From stdpp Require Import base list gmap.
From Stdlib Require Import ZArith Lia.
From S2P Require Import Prelude Tx Bytes Uint UintThms.

Local Open Scope Z_scope.

(** The operators with the value they compute. *)
Lemma from_u64_spec n x : (0 < n)%nat → is_limb x →
  uint_wf n (Uint.from_u64 n x) ∧ uval (Uint.from_u64 n x) = x.
Proof.
  intros Hn Hx. unfold Uint.from_u64, Uint.ZERO. destruct n as [|n]; [lia|]. cbn [replicate insert list_insert].
  rewrite uint_wf_cons. split; [auto with misaka|]. cbn [uval]. rewrite uval_replicate_0. lia.
Qed.

Lemma shl_spec n u s : (0 < n)%nat → uint_wf n u → 0 ≤ s →
  uint_wf n (Uint.shl n u s) ∧
  uval (Uint.shl n u s) = (uval u * 2 ^ (s mod Uint.BITS n)) mod 2 ^ Uint.BITS n.
Proof. intros. split; [by apply overflowing_shl_wf|by apply overflowing_shl_spec]. Qed.
Lemma shr_spec n u s : (0 < n)%nat → uint_wf n u → 0 ≤ s →
  uint_wf n (Uint.shr n u s) ∧ uval (Uint.shr n u s) = uval u / 2 ^ (s mod Uint.BITS n).
Proof. intros. split; [by apply overflowing_shr_wf|by apply overflowing_shr_spec]. Qed.
Lemma add_spec n u v : uint_wf n u → uint_wf n v →
  uint_wf n (Uint.add u v) ∧ uval (Uint.add u v) = (uval u + uval v) mod Limb ^ Z.of_nat n.
Proof.
  intros Hu Hv. pose proof (overflowing_add_spec n u v Hu Hv) as H. unfold Uint.add.
  destruct (Uint.overflowing_add u v). naive_solver.
Qed.
Lemma add_u64_spec n u x : (0 < n)%nat → uint_wf n u → is_limb x →
  uint_wf n (Uint.add_u64 u x) ∧ uval (Uint.add_u64 u x) = (uval u + x) mod Limb ^ Z.of_nat n.
Proof.
  intros Hn Hu Hx. pose proof (overflowing_add_u64_spec n u x Hn Hu Hx) as H. unfold Uint.add_u64.
  destruct (Uint.overflowing_add_u64 u x). naive_solver.
Qed.
Lemma widen_spec n m u : uint_wf n u → (n ≤ m)%nat →
  uint_wf m (Uint.widen n m u) ∧ uval (Uint.widen n m u) = uval u.
Proof.
  intros Hu Hnm. unfold Uint.widen. rewrite take_ge by (rewrite (proj1 Hu); lia). split.
  - replace m with (n + (m - n))%nat at 1 by lia. apply uint_wf_app; auto with misaka.
  - rewrite uval_app, uval_replicate_0. lia.
Qed.

(** The decoder, on numbers. *)
Definition target_of (e m : Z) : Z :=
  if e <=? 3 then m / 2 ^ (8 * (3 - e)) else (m * 2 ^ ((8 * (e - 3)) mod 256)) mod 2 ^ 256.

Lemma compact_parts e m : 0 ≤ e → 0 ≤ m < 2 ^ 24 →
  Z.shiftr (e * 2 ^ 24 + m) 24 = e ∧ Z.land (e * 2 ^ 24 + m) 0xFFFFFF = m.
Proof.
  intros He Hm. rewrite Z.shiftr_div_pow2 by lia. change 0xFFFFFF with (Z.ones 24). rewrite Z.land_ones by lia.
  rewrite Z.add_comm, Z.div_add, Z.mod_add, Z.div_small, Z.mod_small by lia. lia.
Qed.

Lemma from_compact_spec e m : 0 ≤ e → 0 ≤ m < 2 ^ 24 →
  uint_wf 4 (from_compact_target_bits (e * 2 ^ 24 + m)) ∧
  uval (from_compact_target_bits (e * 2 ^ 24 + m)) =
    (if 0x7FFFFF <? (if e <=? 3 then m / 2 ^ (8 * (3 - e)) else m) then 0 else target_of e m).
Proof.
  intros He Hm. destruct (compact_parts e m He Hm) as [Hs Hl].
  unfold from_compact_target_bits, target_of. rewrite Hs, Hl. destruct (Z.leb_spec e 3).
  - rewrite Z.shiftr_div_pow2 by lia. set (q := m / 2 ^ (8 * (3 - e))).
    assert (0 ≤ q < 2 ^ 24).
    { pose proof (Z.pow_pos_nonneg 2 (8 * (3 - e)) ltac:(lia) ltac:(lia)).
      split; [apply Z.div_pos; lia|apply Z.div_lt_upper_bound; nia]. }
    destruct (Z.ltb_spec 0x7FFFFF q); [unfold Uint.ZERO; split; [auto with misaka|apply uval_replicate_0]|].
    destruct (from_u64_spec 4 q) as [Hw Hv]; [lia|unfold is_limb; rewrite Limb_eq; lia|].
    destruct (shl_spec 4 _ 0 ltac:(lia) Hw ltac:(lia)) as [Hw2 ->]. split; [done|].
    rewrite Hv. change (2 ^ (0 mod Uint.BITS 4)) with 1. change (Uint.BITS 4) with 256.
    rewrite Z.mul_1_r. apply Z.mod_small. lia.
  - destruct (Z.ltb_spec 0x7FFFFF m); [unfold Uint.ZERO; split; [auto with misaka|apply uval_replicate_0]|].
    destruct (from_u64_spec 4 m) as [Hw Hv]; [lia|unfold is_limb; rewrite Limb_eq; lia|].
    destruct (shl_spec 4 _ (8 * (e - 3)) ltac:(lia) Hw ltac:(lia)) as [Hw2 ->]. split; [done|].
    by rewrite Hv.
Qed.

(** The encoder, on numbers: [size] bytes, the sign bit of the mantissa kept clear. *)
Definition compact_size (t : Z) : Z := bit_length t / 8 + 1.
Definition compact_mantissa (t : Z) : Z :=
  let s := compact_size t in if s <=? 3 then t * 2 ^ (8 * (3 - s)) else t / 2 ^ (8 * (s - 3)).

Lemma compact_mantissa_bound t : 0 < t → 0 ≤ compact_mantissa t < 2 ^ 23.
Proof.
  intros Ht. destruct (bit_length_pow t Ht) as [H1 H2]. unfold compact_mantissa. set (s := compact_size t).
  assert (0 < s) by (unfold s, compact_size; pose proof (bit_length_nonneg t);
    assert (0 ≤ bit_length t / 8) by (apply Z.div_pos; lia); lia).
  assert (bit_length t ≤ 8 * s - 1) by (unfold s, compact_size; pose proof (Z.div_mod (bit_length t) 8);
    pose proof (Z.mod_pos_bound (bit_length t) 8); lia).
  assert (t < 2 ^ (8 * s - 1)) by (apply Z.lt_le_trans with (2 ^ bit_length t); [done|apply Z.pow_le_mono_r; lia]).
  destruct (Z.leb_spec s 3).
  - split; [apply Z.mul_nonneg_nonneg; [lia|apply Z.pow_nonneg; lia]|].
    replace 23 with ((8 * s - 1) + 8 * (3 - s)) by lia. rewrite Z.pow_add_r by lia.
    apply Z.mul_lt_mono_pos_r; [apply Z.pow_pos_nonneg; lia|done].
  - split; [apply Z.div_pos; [lia|apply Z.pow_pos_nonneg; lia]|].
    apply Z.div_lt_upper_bound; [apply Z.pow_pos_nonneg; lia|]. rewrite <- Z.pow_add_r by lia.
    replace (8 * (s - 3) + 23) with (8 * s - 1) by lia. done.
Qed.

Lemma land_bit23 c : 0 ≤ c < 2 ^ 24 → negb (Z.land c 0x00800000 =? 0) = (2 ^ 23 <=? c).
Proof.
  intros Hc. change 0x00800000 with (2 ^ 23).
  assert (Z.land c (2 ^ 23) = if 2 ^ 23 <=? c then 2 ^ 23 else 0) as ->.
  { apply Z.bits_inj'. intros k Hk. rewrite Z.land_spec, Z.pow2_bits_eqb by lia.
    destruct (Z.eqb_spec 23 k) as [<-|Hne].
    - rewrite andb_true_r. destruct (Z.leb_spec (2 ^ 23) c).
      + apply Z.testbit_true; [lia|]. assert (c / 2 ^ 23 = 1) as -> by (symmetry; apply Z.div_unique with (c - 2 ^ 23); lia).
        done.
      + apply (testbit_small c 23); lia.
    - rewrite andb_false_r. destruct (2 ^ 23 <=? c); [|by rewrite Z.bits_0].
      rewrite Z.pow2_bits_eqb by lia. by destruct (Z.eqb_spec 23 k). }
  by destruct (2 ^ 23 <=? c).
Qed.

(** The mantissa before the sign bit is looked at. *)
Definition raw_mantissa (t size : Z) : Z :=
  if size <=? 3 then t * 2 ^ (8 * (3 - size)) else t / 2 ^ (8 * (size - 3)).

Lemma raw_mantissa_cases t (size := div_ceil (bit_length t) 8) : 0 < t →
  0 < size ∧ 0 ≤ raw_mantissa t size < 2 ^ 24 ∧
  (if 2 ^ 23 <=? raw_mantissa t size
   then compact_size t = size + 1 ∧ compact_mantissa t = raw_mantissa t size / 2 ^ 8
   else compact_size t = size ∧ compact_mantissa t = raw_mantissa t size).
Proof.
  intros Ht. destruct (bit_length_pow t Ht) as [H1 H2].
  assert (0 < bit_length t) as HL.
  { unfold bit_length. case_match; [lia|]. pose proof (Z.log2_nonneg t). lia. }
  assert (8 * size - 8 < bit_length t ≤ 8 * size) as Hs.
  { unfold size, div_ceil. pose proof (Z.div_mod (bit_length t + 8 - 1) 8 ltac:(lia)).
    pose proof (Z.mod_pos_bound (bit_length t + 8 - 1) 8 ltac:(lia)). lia. }
  clearbody size. assert (0 < size) as Hsz by lia. split; [done|].
  assert (∀ k, 0 ≤ k → 2 ^ k ≤ t ↔ k < bit_length t) as Hbl.
  { intros k Hk. pose proof (bit_length_spec t k). lia. }
  assert (t < 2 ^ (8 * size)) as Hlt by (apply Z.nle_gt; rewrite Hbl; lia).
  assert (raw_mantissa t size < 2 ^ 24 ∧ (2 ^ 23 ≤ raw_mantissa t size ↔ bit_length t = 8 * size)) as [Hub Hbit].
  { cut (raw_mantissa t size < 2 ^ 24 ∧ (2 ^ 23 ≤ raw_mantissa t size ↔ 2 ^ (8 * size - 1) ≤ t));
      [rewrite Hbl by lia; intuition lia|].
    unfold raw_mantissa. destruct (Z.leb_spec size 3) as [Hle|Hgt].
    - pose proof (Z.pow_pos_nonneg 2 (8 * (3 - size)) ltac:(lia) ltac:(lia)).
      replace 24 with (8 * size + 8 * (3 - size)) by lia.
      replace 23 with ((8 * size - 1) + 8 * (3 - size)) by lia. rewrite !Z.pow_add_r by lia. nia.
    - pose proof (Z.pow_pos_nonneg 2 (8 * (size - 3)) ltac:(lia) ltac:(lia)). split.
      + apply Z.div_lt_upper_bound; [done|]. rewrite <- Z.pow_add_r by lia.
        by replace (8 * (size - 3) + 24) with (8 * size) by lia.
      + replace (8 * size - 1) with (8 * (size - 3) + 23) by lia. rewrite Z.pow_add_r by lia. split.
        * intros Hd. pose proof (Z.mul_div_le t (2 ^ (8 * (size - 3))) ltac:(done)). nia.
        * intros Hd. apply Z.div_le_lower_bound; lia. }
  split.
  { split; [|done]. unfold raw_mantissa. pose proof (Z.pow_pos_nonneg 2 (8 * (3 - size))).
    pose proof (Z.pow_pos_nonneg 2 (8 * (size - 3))). case_match; [nia|apply Z.div_pos; lia]. }
  assert (compact_size t = bit_length t / 8 + 1) as Hcs by done.
  destruct (Z.leb_spec (2 ^ 23) (raw_mantissa t size)) as [Hge|Hlt'].
  - apply Hbit in Hge. rewrite Hge, Z.mul_comm, Z.div_mul in Hcs by lia. split; [done|].
    unfold compact_mantissa, raw_mantissa. rewrite Hcs.
    destruct (Z.leb_spec (size + 1) 3), (Z.leb_spec size 3); try lia.
    + replace (8 * (3 - size)) with (8 * (3 - (size + 1)) + 8) by lia. rewrite Z.pow_add_r, Z.mul_assoc, Z.div_mul by lia.
      done.
    + assert (size = 3) as -> by lia. change (2 ^ (8 * (3 - 3))) with 1. rewrite (Z.mul_1_r t). reflexivity.
    + replace (8 * (size + 1 - 3)) with (8 * (size - 3) + 8) by lia.
      rewrite Z.pow_add_r, Z.div_div by lia. done.
  - assert (compact_size t = size) as E; [|split; [done|]; unfold compact_mantissa; by rewrite E].
    assert (bit_length t ≠ 8 * size) by (intros E; apply Hbit in E; lia).
    assert (bit_length t / 8 = size - 1); [|lia].
    symmetry. apply Z.div_unique with (bit_length t - 8 * (size - 1)); lia.
Qed.

Lemma compact_target_bits_spec u : uint_wf 4 u → 0 < uval u →
  compact_target_bits u = compact_size (uval u) * 2 ^ 24 + compact_mantissa (uval u).
Proof.
  intros Hu Ht. pose proof (uval_bound _ _ Hu) as Hb. set (t := uval u) in *.
  destruct (raw_mantissa_cases t Ht) as (Hs & Hr & Hcase).
  pose proof (compact_mantissa_bound t Ht) as Hm.
  unfold compact_target_bits. rewrite (bits_spec 4) by done. fold t.
  set (size := div_ceil (bit_length t) 8) in *.
  assert (size ≤ 32) as Hs32.
  { unfold size, div_ceil. assert (bit_length t ≤ 256); [|pose proof (Z.div_mod (bit_length t + 8 - 1) 8 ltac:(lia));
      pose proof (Z.mod_pos_bound (bit_length t + 8 - 1) 8 ltac:(lia)); lia].
    apply bit_length_spec; [lia..|]. change (2 ^ 256) with (Limb ^ Z.of_nat 4). lia. }
  assert ((if size <=? 3 then as_u32 (shl64 (Uint.as_u64 u) (8 * (3 - size)))
           else as_u32 (Uint.as_u64 (Uint.shr 4 u (8 * (size - 3))))) = raw_mantissa t size) as ->.
  { unfold raw_mantissa in *. unfold as_u32. destruct (Z.leb_spec size 3).
    - rewrite (uval_as_u64 4); [|done|]. 2: { fold t. rewrite Limb_eq.
        pose proof (Z.pow_pos_nonneg 2 (8 * (3 - size)) ltac:(lia) ltac:(lia)). nia. }
      fold t. unfold shl64. rewrite Z.shiftl_mul_pow2 by lia. rewrite Limb_eq.
      rewrite (Z.mod_small _ (2 ^ 64)) by lia. apply Z.mod_small. lia.
    - destruct (shr_spec 4 u (8 * (size - 3)) ltac:(lia) Hu ltac:(lia)) as [Hw Hv].
      rewrite Z.mod_small in Hv by (unfold Uint.BITS; lia). fold t in Hv.
      rewrite (uval_as_u64 4) by (done || rewrite Hv, Limb_eq; lia). rewrite Hv. apply Z.mod_small. lia. }
  rewrite land_bit23 by done.
  assert (∀ s c, 0 ≤ s ≤ 33 → 0 ≤ c < 2 ^ 24 → Z.lor c (as_u32 (Z.shiftl s 24)) = s * 2 ^ 24 + c) as Hlor.
  { intros s c Hs' Hc'. unfold as_u32. rewrite Z.mod_small by (rewrite Z.shiftl_mul_pow2; lia).
    rewrite lor_add by lia. lia. }
  destruct (Z.leb_spec (2 ^ 23) (raw_mantissa t size)); destruct Hcase as [-> ->].
  - rewrite Z.shiftr_div_pow2 by lia. apply Hlor; [lia|].
    split; [apply Z.div_pos; lia|apply Z.div_lt_upper_bound; lia].
  - apply Hlor; lia.
Qed.

(** What a target loses when it is written in compact form. *)
Definition compact_floor (t : Z) : Z :=
  let k := 8 * Z.max 0 (bit_length t / 8 - 2) in t / 2 ^ k * 2 ^ k.

Lemma compact_floor_bits t : 0 < t →
  0 < compact_floor t ≤ t ∧ bit_length (compact_floor t) = bit_length t.
Proof.
  intros Ht. destruct (bit_length_pow t Ht) as [H1 H2].
  assert (0 < bit_length t) as HL.
  { unfold bit_length. case_match; [lia|]. pose proof (Z.log2_nonneg t). lia. }
  unfold compact_floor. set (k := 8 * Z.max 0 (bit_length t / 8 - 2)).
  assert (0 ≤ k < bit_length t) as Hk.
  { pose proof (Z.div_mod (bit_length t) 8 ltac:(lia)). pose proof (Z.mod_pos_bound (bit_length t) 8 ltac:(lia)). lia. }
  pose proof (Z.pow_pos_nonneg 2 k ltac:(lia) ltac:(lia)) as Hp.
  pose proof (Z.mul_div_le t (2 ^ k) Hp) as Hle. rewrite Z.mul_comm in Hle.
  assert (2 ^ (bit_length t - 1) ≤ t / 2 ^ k * 2 ^ k) as Hge.
  { replace (bit_length t - 1) with ((bit_length t - 1 - k) + k) at 1 by lia. rewrite Z.pow_add_r by lia.
    apply Z.mul_le_mono_nonneg_r; [lia|]. apply Z.div_le_lower_bound; [done|].
    rewrite Z.mul_comm, <- Z.pow_add_r by lia. by replace (bit_length t - 1 - k + k) with (bit_length t - 1) by lia. }
  pose proof (Z.pow_pos_nonneg 2 (bit_length t - 1) ltac:(lia) ltac:(lia)).
  split; [lia|]. apply bit_length_unique; lia.
Qed.

Lemma target_of_compact t : 0 < t < 2 ^ 256 → target_of (compact_size t) (compact_mantissa t) = compact_floor t.
Proof.
  intros [Ht Ht2]. destruct (compact_floor_bits t Ht) as [Hf _].
  assert (bit_length t ≤ 256) by (apply bit_length_spec; lia).
  pose proof (bit_length_nonneg t ltac:(lia)).
  pose proof (Z.div_mod (bit_length t) 8 ltac:(lia)). pose proof (Z.mod_pos_bound (bit_length t) 8 ltac:(lia)).
  unfold target_of, compact_mantissa. unfold compact_floor in *. set (s := compact_size t).
  assert (s = bit_length t / 8 + 1) as Hs by done.
  assert (Z.max 0 (bit_length t / 8 - 2) = if s <=? 3 then 0 else s - 3) as E by (case_match; lia).
  rewrite E in *. destruct (Z.leb_spec s 3).
  - rewrite Z.div_mul by (apply Z.pow_nonzero; lia). simpl (2 ^ (8 * 0)). by rewrite Z.div_1_r, Z.mul_1_r.
  - rewrite (Z.mod_small (8 * (s - 3))) by lia. apply Z.mod_small. lia.
Qed.

Lemma compact_mantissa_floor t : 0 < t → compact_mantissa (compact_floor t) = compact_mantissa t.
Proof.
  intros Ht. destruct (compact_floor_bits t Ht) as [_ Hb]. unfold compact_mantissa, compact_size. rewrite Hb.
  unfold compact_floor. set (b := bit_length t / 8).
  destruct (Z.leb_spec (b + 1) 3).
  - rewrite Z.max_l by lia. simpl (2 ^ (8 * 0)). by rewrite Z.div_1_r, Z.mul_1_r.
  - rewrite Z.max_r by lia. replace (8 * (b + 1 - 3)) with (8 * (b - 2)) by lia.
    apply Z.div_mul, Z.pow_nonzero; lia.
Qed.

Lemma compact_zero u : uint_wf 4 u → uval u = 0 → compact_target_bits u = 0.
Proof.
  intros Hu H0. assert (u = of_Z 4 0) as ->; [|by vm_compute].
  rewrite <- H0. symmetry. by apply of_Z_uval.
Qed.

Lemma from_compact_compact u : uint_wf 4 u → 0 < uval u →
  uint_wf 4 (from_compact_target_bits (compact_target_bits u)) ∧
  uval (from_compact_target_bits (compact_target_bits u)) = compact_floor (uval u).
Proof.
  intros Hu Ht. pose proof (uval_bound _ _ Hu) as Hb. change (Limb ^ Z.of_nat 4) with (2 ^ 256) in Hb.
  pose proof (compact_mantissa_bound _ Ht) as Hm. rewrite compact_target_bits_spec by done.
  assert (0 < compact_size (uval u)).
  { unfold compact_size. pose proof (bit_length_nonneg (uval u) ltac:(lia)).
    assert (0 ≤ bit_length (uval u) / 8) by (apply Z.div_pos; lia). lia. }
  destruct (from_compact_spec (compact_size (uval u)) (compact_mantissa (uval u))) as [Hw Hv]; [lia..|].
  split; [done|]. rewrite Hv. rewrite <- target_of_compact by lia.
  destruct (Z.ltb_spec 0x7FFFFF (if compact_size (uval u) <=? 3
    then compact_mantissa (uval u) / 2 ^ (8 * (3 - compact_size (uval u))) else compact_mantissa (uval u)));
    [|done]. exfalso. case_match; [|lia].
  assert (compact_mantissa (uval u) / 2 ^ (8 * (3 - compact_size (uval u))) ≤ compact_mantissa (uval u)); [|lia].
  pose proof (Z.pow_pos_nonneg 2 (8 * (3 - compact_size (uval u))) ltac:(lia) ltac:(lia)).
  apply Z.div_le_upper_bound; nia.
Qed.

(** Compact targets: writing a target in compact form and reading it back
    clears the bytes below its leading two or three and nothing else, so the
    result is the target itself up to a relative error of [2^-15]; a second
    round trip changes nothing. *)
Theorem compact_target_roundtrip (u : list Z) : uint_wf 4 u →
  let u' := from_compact_target_bits (compact_target_bits u) in
  uint_wf 4 u' ∧ uval u' = compact_floor (uval u) ∧ uval u' ≤ uval u ∧
  (uval u - uval u') * 2 ^ 15 ≤ uval u ∧ compact_target_bits u' = compact_target_bits u.
Proof.
  intros Hu u'. destruct (uval_bound _ _ Hu) as [H0 _]. destruct (decide (uval u = 0)) as [E|E].
  { unfold u'. rewrite compact_zero, E by done. change (from_compact_target_bits 0) with (of_Z 4 0).
    split; [apply of_Z_wf|]. by vm_compute. }
  destruct (from_compact_compact u Hu) as [Hw Hv]; [lia|]. fold u' in Hw, Hv.
  destruct (compact_floor_bits (uval u)) as [Hf Hbl]; [lia|]. rewrite Hv. split_and!; [done..|lia| |].
  - unfold compact_floor. set (t := uval u) in *. set (k := 8 * Z.max 0 (bit_length t / 8 - 2)).
    pose proof (Z.div_mod t (2 ^ k) ltac:(apply Z.pow_nonzero; lia)).
    pose proof (Z.mod_pos_bound t (2 ^ k) ltac:(apply Z.pow_pos_nonneg; lia)).
    destruct (decide (bit_length t / 8 ≤ 2)) as [Hs|Hs].
    { assert (k = 0) as Hk by lia. rewrite Hk in *. simpl (2 ^ 0) in *. rewrite Z.div_1_r. lia. }
    assert (2 ^ (k + 15) ≤ t); [|rewrite Z.pow_add_r in * by lia; nia].
    apply Z.nlt_ge. intros Hlt. apply bit_length_spec in Hlt; [|lia..].
    pose proof (Z.div_mod (bit_length t) 8 ltac:(lia)). pose proof (Z.mod_pos_bound (bit_length t) 8 ltac:(lia)). lia.
  - rewrite !compact_target_bits_spec, Hv by (done || lia).
    unfold compact_size at 1. rewrite Hbl, compact_mantissa_floor by lia. done.
Qed.

(** ** Work *)

Lemma compact_bits_split bits : 0 ≤ bits →
  ∃ e m, bits = e * 2 ^ 24 + m ∧ 0 ≤ e ∧ 0 ≤ m < 2 ^ 24.
Proof.
  intros Hb. exists (bits / 2 ^ 24), (bits mod 2 ^ 24). pose proof (Z.div_mod bits (2 ^ 24) ltac:(lia)).
  pose proof (Z.mod_pos_bound bits (2 ^ 24) ltac:(lia)).
  split; [lia|]. split; [apply Z.div_pos; lia|lia].
Qed.

Lemma from_compact_wf bits : 0 ≤ bits →
  uint_wf 4 (from_compact_target_bits bits) ∧ uval (from_compact_target_bits bits) < 2 ^ 256 - 1.
Proof.
  intros Hb. destruct (compact_bits_split bits Hb) as (e & m & -> & He & Hm).
  destruct (from_compact_spec e m He Hm) as [Hw Hv]. split; [done|]. rewrite Hv.
  unfold target_of. destruct (Z.leb_spec e 3); (case_match eqn:Hle; [lia|apply Z.ltb_ge in Hle]); [lia|].
  set (s := (8 * (e - 3)) mod 256). pose proof (Z.mod_pos_bound (8 * (e - 3)) 256 ltac:(lia)) as Hs. fold s in Hs.
  pose proof (Z.mod_pos_bound (m * 2 ^ s) (2 ^ 256) ltac:(lia)) as H0.
  destruct (decide (s = 0)) as [E|E]; [rewrite E, Z.mod_small; simpl (2 ^ 0); lia|].
  assert (((m * 2 ^ s) mod 2 ^ 256) mod 2 = 0) as Heven.
  2: { revert Heven H0. generalize ((m * 2 ^ s) mod 2 ^ 256). intros x Hx2 Hx.
       pose proof (Z.div_mod x 2 ltac:(lia)). lia. }
  rewrite Z.mod_mod_divide by (exists (2 ^ 255); done).
  replace s with (s - 1 + 1) by lia. rewrite Z.pow_add_r, Z.mul_assoc by lia. apply Z.mod_mul. lia.
Qed.

Lemma calc_work_spec (bits : Z) : 0 ≤ bits →
  ∃ w, calc_work bits = Ok w ∧ uint_wf 9 w ∧
    (if uval (from_compact_target_bits bits) =? 0 then uval w = 0
     else uval w = 2 ^ 256 / (uval (from_compact_target_bits bits) + 1) ∧ 0 < uval w).
Proof.
  intros Hb. destruct (from_compact_wf bits Hb) as [Hw Hlt]. unfold calc_work.
  set (T := from_compact_target_bits bits) in *. destruct (uval_bound _ _ Hw) as [H0 _].
  destruct (not_spec 4 T Hw) as [Hnw Hnv]. change (Limb ^ Z.of_nat 4) with (2 ^ 256) in *.
  destruct (add_u64_spec 4 T 1) as [Haw Hav]; [lia|done|apply is_limb_1|].
  change (Limb ^ Z.of_nat 4) with (2 ^ 256) in *. rewrite Z.mod_small in Hav by lia.
  destruct (div_rem_spec 4 _ _ ltac:(lia) Hnw Haw) as (q & r & -> & Hq & _ & Hqv & _); [lia|].
  cbn [mbind outcome_bind]. rewrite Hnv, Hav in Hqv.
  assert (2 ^ 256 / (uval T + 1) = uval q + 1) as Hdiv.
  { rewrite Hqv. replace (2 ^ 256) with ((2 ^ 256 - 1 - uval T) + 1 * (uval T + 1)) at 1 by lia.
    rewrite Z.div_add by lia. done. }
  destruct (uval_bound _ _ Hq) as [Hq0 Hq1]. change (Limb ^ Z.of_nat 4) with (2 ^ 256) in *.
  destruct (add_u64_spec 4 q 1) as [Haw2 Hav2]; [lia|done|apply is_limb_1|].
  change (Limb ^ Z.of_nat 4) with (2 ^ 256) in *.
  destruct (widen_spec 4 9 _ Haw2 ltac:(lia)) as [Hww Hwv].
  eexists. split; [reflexivity|]. split; [done|]. rewrite Hwv, Hav2, <- Hdiv.
  destruct (Z.eqb_spec (uval T) 0) as [E|E].
  - rewrite E. by vm_compute.
  - assert (0 < 2 ^ 256 / (uval T + 1) < 2 ^ 256) as H.
    { split; [apply Z.div_str_pos; lia|apply Z.div_lt_upper_bound; lia]. }
    rewrite Z.mod_small by lia. lia.
Qed.

(** Block work: [calc_work] never panics, and for a target that is not zero
    it is [2^256 / (target + 1)] rounded down, which is positive; for compact
    bits that stand for the target zero the last addition wraps and the work is
    zero. *)
Theorem calc_work_correct (bits : Z) : 0 ≤ bits →
  ∃ w, calc_work bits = Ok w ∧ uint_wf 9 w ∧
    (if uval (from_compact_target_bits bits) =? 0 then uval w = 0
     else uval w = 2 ^ 256 / (uval (from_compact_target_bits bits) + 1) ∧ 0 < uval w).
Proof. apply calc_work_spec. Qed.

(** ** Witnesses *)

Lemma compact_target_roundtrip_witness :
  uint_wf 4 [0x123456789abcdef0; 0; 0x00ffee; 0] ∧
  compact_target_bits [0x123456789abcdef0; 0; 0x00ffee; 0] = 0x1300ffee ∧
  uval (from_compact_target_bits (compact_target_bits [0x123456789abcdef0; 0; 0x00ffee; 0])) =
    compact_floor (uval [0x123456789abcdef0; 0; 0x00ffee; 0]).
Proof.
  assert (uint_wf 4 [0x123456789abcdef0; 0; 0x00ffee; 0]) as Hw by (apply uint_wf_four; by vm_compute).
  split; [done|]. split; [by vm_compute|].
  destruct (compact_target_roundtrip _ Hw) as (_ & H & _). exact H.
Defined.

Lemma calc_work_correct_witness :
  calc_work 0x207fffff = Ok [2; 0; 0; 0; 0; 0; 0; 0; 0] ∧
  ∃ w, calc_work 0x1d00ffff = Ok w ∧ uval w = 2 ^ 256 / (0xffff * 2 ^ 208 + 1).
Proof.
  split; [by vm_compute|]. destruct (calc_work_correct 0x1d00ffff) as (w & Hw & _ & Hv); [lia|].
  exists w. split; [exact Hw|]. revert Hv.
  replace (uval (from_compact_target_bits 0x1d00ffff)) with (0xffff * 2 ^ 208) by (by vm_compute).
  intros [Hv _]. exact Hv.
Defined.
