(* ===== verification/Ghostdag.v ===== *)
(** * GHOSTDAG: consensus/src/processes/ghostdag

    The data of a block ([GhostdagData]), the merge set of a new block, the
    order of its blocks and their colouring. The stores are finite maps, a
    missing key being the panic of [unwrap]; the reachability service is an
    interface, implemented by any reachability store (Reach.v). Blue work is
    a [Uint576]: the number in its limbs, with the wrap-around of [+]. A
    [BlockHash] is the number of its bytes, the first one most significant, so
    that the order of hashes is the order of numbers. *)

From stdpp Require Import base list gmap sorting.
From Stdlib Require Import ZArith Lia.
From S2P Require Import Prelude Tx ReachStore Reach Bytes Hashing Header Uint.

Local Open Scope Z_scope.

(** ** Services and stores *)

(** [ReachabilityService::is_dag_ancestor_of], which unwraps. *)
Class ReachabilityService (U : Type) := {
  svc_is_dag_ancestor_of : U → BlockHash → BlockHash → outcome unit bool;
}.

Definition unwrap_result {E A} (m : outcome E A) : outcome unit A :=
  match m with Ok a => Ok a | Err _ => Panic | Panic => Panic | OutOfFuel => OutOfFuel end.

#[export] Instance store_service {St} `{!ReachabilityStore St} : ReachabilityService St := {|
  svc_is_dag_ancestor_of st this queried := unwrap_result (is_dag_ancestor_of st this queried);
|}.

(** [store.get(..).unwrap()]. *)
Definition get {V} (store : gmap BlockHash V) (hash : BlockHash) : outcome unit V := unwrap (store !! hash).

(** ** Work *)

Definition WORK_MOD : Z := 2 ^ 576.
Definition WORK_MAX : Z := WORK_MOD - 1.
Definition work_add (a b : Z) : Z := (a + b) mod WORK_MOD.
Definition work_sum (l : list Z) : Z := match l with [] => 0 | a :: l => foldl work_add a l end.
Definition work_of (bits : Z) : outcome unit Z := w ← calc_work bits; mret (uval w).

Definition normalize_palw_work (bits compute_work_scale : Z) : outcome unit Z :=
  w ← work_of bits;
  mret (if WORK_MOD <=? w * compute_work_scale then WORK_MAX else w * compute_work_scale).

Definition COMPUTE_TO_HASH_CAP : Z := 4.
Definition compute_work_cap (hash_work compute_to_hash_cap : Z) : Z :=
  if WORK_MOD <=? hash_work * compute_to_hash_cap then WORK_MAX else hash_work * compute_to_hash_cap.
Definition capped_compute_work (compute_work hash_work compute_to_hash_cap : Z) : Z :=
  Z.min compute_work (compute_work_cap hash_work compute_to_hash_cap).
Definition compute_headroom (hash_work compute_work compute_to_hash_cap : Z) : Z :=
  Z.max 0 (compute_work_cap hash_work compute_to_hash_cap - compute_work).
Definition effective_blue_work (hash_work compute_work compute_to_hash_cap : Z) : Z :=
  Z.min WORK_MAX (hash_work + capped_compute_work compute_work hash_work compute_to_hash_cap).

(** ** The data of a block *)

(** [KType] is [u16]. *)
Definition chk16 {E} (z : Z) : outcome E Z := if (0 <=? z) && (z <? 2 ^ 16) then Ok z else Panic.

Record GhostdagData := mkGhostdagData {
  blue_score : Z;
  blue_work : Z;
  blue_hash_work : Z;
  blue_compute_work : Z;
  selected_parent : BlockHash;
  mergeset_blues : list BlockHash;
  mergeset_reds : list BlockHash;
  blues_anticone_sizes : gmap BlockHash Z;
}.

Definition GhostdagData_new (score work : Z) (sp : BlockHash) (blues reds : list BlockHash)
    (sizes : gmap BlockHash Z) : GhostdagData :=
  mkGhostdagData score work work 0 sp blues reds sizes.

(** [k] is only a capacity, but [k + 1] is computed in 16 bits. *)
Definition new_with_selected_parent (sp : BlockHash) (k : Z) : outcome unit GhostdagData :=
  _ ← chk16 (k + 1);
  mret (mkGhostdagData 0 0 0 0 sp [sp] [] (<[sp := 0]> ∅)).

Definition mergeset_size (d : GhostdagData) : nat := length (mergeset_blues d) + length (mergeset_reds d).
Definition data_unordered_mergeset_without_selected_parent (d : GhostdagData) : list BlockHash :=
  drop 1 (mergeset_blues d) ++ mergeset_reds d.
Definition unordered_mergeset (d : GhostdagData) : list BlockHash := mergeset_blues d ++ mergeset_reds d.

(** The loop over the map [block_blues_anticone_sizes] writes distinct keys, so
    its order does not matter. *)
Definition add_blue (d : GhostdagData) (block : BlockHash) (blue_anticone_size : Z)
    (block_blues_anticone_sizes : gmap BlockHash Z) : outcome unit GhostdagData :=
  sizes ← for_each (λ m '(blue, size), s ← chk16 (size + 1); mret (<[blue := s]> m))
            (map_to_list block_blues_anticone_sizes)
            (<[block := blue_anticone_size]> (blues_anticone_sizes d));
  mret (mkGhostdagData (blue_score d) (blue_work d) (blue_hash_work d) (blue_compute_work d)
          (selected_parent d) (mergeset_blues d ++ [block]) (mergeset_reds d) sizes).

Definition add_red (d : GhostdagData) (block : BlockHash) : GhostdagData :=
  mkGhostdagData (blue_score d) (blue_work d) (blue_hash_work d) (blue_compute_work d)
    (selected_parent d) (mergeset_blues d) (mergeset_reds d ++ [block]) (blues_anticone_sizes d).

Definition finalize_score_and_component_work (d : GhostdagData) (score hash_work compute_work_raw cap : Z) :
    GhostdagData :=
  mkGhostdagData score (effective_blue_work hash_work compute_work_raw cap) hash_work
    (capped_compute_work compute_work_raw hash_work cap)
    (selected_parent d) (mergeset_blues d) (mergeset_reds d) (blues_anticone_sizes d).
Definition finalize_score_and_work (d : GhostdagData) (score work : Z) : GhostdagData :=
  finalize_score_and_component_work d score work 0 COMPUTE_TO_HASH_CAP.

(** The records of trusted (pruning proof) data carry the effective work only. *)
Record ExternalGhostdagData := mkExternal {
  ext_blue_score : Z;
  ext_blue_work : Z;
  ext_selected_parent : BlockHash;
  ext_mergeset_blues : list BlockHash;
  ext_mergeset_reds : list BlockHash;
  ext_blues_anticone_sizes : gmap BlockHash Z;
}.
Definition from_external (e : ExternalGhostdagData) : GhostdagData :=
  mkGhostdagData (ext_blue_score e) (ext_blue_work e) (ext_blue_work e) 0 (ext_selected_parent e)
    (ext_mergeset_blues e) (ext_mergeset_reds e) (ext_blues_anticone_sizes e).
Definition to_external (d : GhostdagData) : ExternalGhostdagData :=
  mkExternal (blue_score d) (blue_work d) (selected_parent d) (mergeset_blues d) (mergeset_reds d)
    (blues_anticone_sizes d).

(** ** Tickets *)

(** [PalwActiveNullifierSet]: the DAA score at which each nullifier was first
    seen. *)
Definition NullifierSet : Type := gmap Z Z.
Definition nullifier_insert (s : NullifierSet) (nullifier first_seen_daa : Z) : NullifierSet * bool :=
  match s !! nullifier with
  | Some _ => (s, false)
  | None => (<[nullifier := first_seen_daa]> s, true)
  end.
Definition merge_from (s other : NullifierSet) : NullifierSet :=
  foldl (λ s '(nf, daa), (nullifier_insert s nf daa).1) s (map_to_list other).
Definition prune_below (s : NullifierSet) (retention_floor_daa : Z) : NullifierSet :=
  filter (λ '(_, daa), retention_floor_daa ≤ daa) s.
Fixpoint apply_mergeset_from (i : nat) (s : NullifierSet) (ordered : list (option (Z * Z))) :
    NullifierSet * list nat :=
  match ordered with
  | [] => (s, [])
  | None :: ordered => apply_mergeset_from (S i) s ordered
  | Some (nf, daa) :: ordered =>
    let '(s, fresh) := nullifier_insert s nf daa in
    let '(s', dups) := apply_mergeset_from (S i) s ordered in
    (s', if fresh then dups else i :: dups)
  end.
Definition apply_mergeset (s : NullifierSet) (ordered : list (option (Z * Z))) : NullifierSet * list nat :=
  apply_mergeset_from 0 s ordered.

(** ** Ordering *)

Record SortableBlock := mkSortable {
  sb_hash : BlockHash;
  sb_blue_work : Z;
}.
Definition sortable_cmp (a b : SortableBlock) : comparison :=
  match sb_blue_work a ?= sb_blue_work b with
  | Eq => sb_hash a ?= sb_hash b
  | c => c
  end.
Definition sortable_le (a b : SortableBlock) : Prop := sortable_cmp a b ≠ Gt.
#[export] Instance sortable_le_dec : RelDecision sortable_le.
Proof. intros a b. unfold sortable_le. destruct (sortable_cmp a b); [left|left|right]; congruence. Defined.

(** [Iterator::max]: of equal elements the last one. *)
Definition iter_max (l : list SortableBlock) : option SortableBlock :=
  match l with
  | [] => None
  | a :: l => Some (foldl (λ acc b, match sortable_cmp acc b with Gt => acc | _ => b end) a l)
  end.

(** ** The manager *)

Record GhostdagManager (U : Type) := mkManager {
  genesis_hash : BlockHash;
  gd_k : Z;
  ghostdag_store : gmap BlockHash GhostdagData;
  relations_store : gmap BlockHash (list BlockHash);
  headers_store : gmap BlockHash Header;
  reachability_service : U;
  gd_level_work : Z;
  palw_activation_daa_score : Z;
  palw_compute_work_scale : Z;
  palw_nullifier_store : option (gmap BlockHash NullifierSet);
}.
Arguments genesis_hash {U}.
Arguments gd_k {U}.
Arguments ghostdag_store {U}.
Arguments relations_store {U}.
Arguments headers_store {U}.
Arguments reachability_service {U}.
Arguments gd_level_work {U}.
Arguments palw_activation_daa_score {U}.
Arguments palw_compute_work_scale {U}.
Arguments palw_nullifier_store {U}.
Arguments mkManager {U}.

Definition GhostdagManager_new {U} (genesis : BlockHash) (k : Z) (gs : gmap BlockHash GhostdagData)
    (rs : gmap BlockHash (list BlockHash)) (hs : gmap BlockHash Header) (svc : U)
    (activation scale : Z) (ns : option (gmap BlockHash NullifierSet)) : GhostdagManager U :=
  mkManager genesis k gs rs hs svc 0 activation scale ns.
Definition with_level {U} (genesis : BlockHash) (k : Z) (gs : gmap BlockHash GhostdagData)
    (rs : gmap BlockHash (list BlockHash)) (hs : gmap BlockHash Header) (svc : U)
    (level max_block_level : Z) : GhostdagManager U :=
  mkManager genesis k gs rs hs svc (uval (level_work level max_block_level)) U64_MAX 0 None.

Definition genesis_ghostdag_data : GhostdagData := GhostdagData_new 0 0 ORIGIN [] [] ∅.
Definition origin_ghostdag_data : GhostdagData := GhostdagData_new 0 0 0 [] [] ∅.

(** A chain block with its data; [None] is the new block. *)
Record ChainBlock := mkChainBlock {
  cb_hash : option BlockHash;
  cb_data : GhostdagData;
}.
Inductive ColoringState : Type := StateBlue | StateRed | StatePending.
Inductive ColoringOutput : Type :=
| OutputBlue (blue_anticone_size : Z) (sizes : gmap BlockHash Z)
| OutputRed.

Section manager.
Context {U : Type} `{!ReachabilityService U} (gd : GhostdagManager U).

Definition sortable (block : BlockHash) : outcome unit SortableBlock :=
  d ← get (ghostdag_store gd) block; mret (mkSortable block (blue_work d)).

Definition find_selected_parent (parents : list BlockHash) : outcome unit BlockHash :=
  blocks ← mapM sortable parents;
  best ← unwrap (iter_max blocks);
  mret (sb_hash best).

Definition sort_blocks (blocks : list BlockHash) : outcome unit (list BlockHash) :=
  keys ← mapM sortable blocks;
  mret (sb_hash <$> merge_sort sortable_le keys).

(** *** The merge set: breadth-first search from the parents *)

Record Bfs := mkBfs {
  bfs_mergeset : gset BlockHash;
  bfs_past : gset BlockHash;
  bfs_queue : list BlockHash;
}.

Definition visit_parent (sp : BlockHash) (s : Bfs) (parent : BlockHash) : outcome unit Bfs :=
  if bool_decide (parent ∈ bfs_mergeset s) || bool_decide (parent ∈ bfs_past s) then mret s
  else
    in_past ← svc_is_dag_ancestor_of (reachability_service gd) parent sp;
    if in_past : bool then mret (mkBfs (bfs_mergeset s) ({[parent]} ∪ bfs_past s) (bfs_queue s))
    else mret (mkBfs ({[parent]} ∪ bfs_mergeset s) (bfs_past s) (bfs_queue s ++ [parent])).

Fixpoint mergeset_loop (fuel : nat) (sp : BlockHash) (s : Bfs) : outcome unit (gset BlockHash) :=
  match bfs_queue s with
  | [] => Ok (bfs_mergeset s)
  | current :: queue =>
    match fuel with
    | O => OutOfFuel
    | S fuel =>
      current_parents ← get (relations_store gd) current;
      s ← for_each (visit_parent sp) current_parents (mkBfs (bfs_mergeset s) (bfs_past s) queue);
      mergeset_loop fuel sp s
    end
  end.

Definition unordered_mergeset_without_selected_parent (sp : BlockHash) (parents : list BlockHash) :
    outcome unit (gset BlockHash) :=
  let queue := filter (λ p, p ≠ sp) parents in
  mergeset_loop (length parents + size (relations_store gd)) sp
    (mkBfs (list_to_set queue) ∅ queue).

Definition ordered_mergeset_without_selected_parent (sp : BlockHash) (parents : list BlockHash) :
    outcome unit (list BlockHash) :=
  mergeset ← unordered_mergeset_without_selected_parent sp parents;
  sort_blocks (elements mergeset).

(** *** Colouring *)

Fixpoint blue_anticone_size_loop (fuel : nat) (block : BlockHash) (sizes : gmap BlockHash Z)
    (current_sp : BlockHash) : outcome unit Z :=
  match sizes !! block with
  | Some size => Ok size
  | None =>
    if bool_decide (current_sp = genesis_hash gd) || bool_decide (current_sp = ORIGIN) then Panic
    else
      match fuel with
      | O => OutOfFuel
      | S fuel =>
        d ← get (ghostdag_store gd) current_sp;
        blue_anticone_size_loop fuel block (blues_anticone_sizes d) (selected_parent d)
      end
  end.
Definition blue_anticone_size (block : BlockHash) (context : GhostdagData) : outcome unit Z :=
  blue_anticone_size_loop (size (ghostdag_store gd)) block (blues_anticone_sizes context)
    (selected_parent context).

Fixpoint check_peers (new_block_data : GhostdagData) (peers : list BlockHash) (blue_candidate : BlockHash)
    (sizes : gmap BlockHash Z) (candidate_size : Z) (k : Z) :
    outcome unit (ColoringState * gmap BlockHash Z * Z) :=
  match peers with
  | [] => Ok (StatePending, sizes, candidate_size)
  | peer :: peers =>
    in_past ← svc_is_dag_ancestor_of (reachability_service gd) peer blue_candidate;
    if in_past : bool then check_peers new_block_data peers blue_candidate sizes candidate_size k
    else
      peer_size ← blue_anticone_size peer new_block_data;
      let sizes := <[peer := peer_size]> sizes in
      candidate_size ← chk16 (candidate_size + 1);
      if k <? candidate_size then Ok (StateRed, sizes, candidate_size)
      else if peer_size =? k then Ok (StateRed, sizes, candidate_size)
      else
        _ ← assert_ (peer_size <=? k);
        check_peers new_block_data peers blue_candidate sizes candidate_size k
  end.

Definition check_blue_candidate_with_chain_block (new_block_data : GhostdagData) (chain_block : ChainBlock)
    (blue_candidate : BlockHash) (sizes : gmap BlockHash Z) (candidate_size : Z) (k : Z) :
    outcome unit (ColoringState * gmap BlockHash Z * Z) :=
  below ← match cb_hash chain_block with
          | Some hash => svc_is_dag_ancestor_of (reachability_service gd) hash blue_candidate
          | None => mret false
          end;
  if below : bool then mret (StateBlue, sizes, candidate_size)
  else check_peers new_block_data (mergeset_blues (cb_data chain_block)) blue_candidate sizes candidate_size k.

Fixpoint check_blue_candidate_loop (fuel : nat) (new_block_data : GhostdagData) (chain_block : ChainBlock)
    (blue_candidate : BlockHash) (sizes : gmap BlockHash Z) (candidate_size : Z) (k : Z) :
    outcome unit ColoringOutput :=
  '(state, sizes, candidate_size) ←
    check_blue_candidate_with_chain_block new_block_data chain_block blue_candidate sizes candidate_size k;
  match state with
  | StateBlue => Ok (OutputBlue candidate_size sizes)
  | StateRed => Ok OutputRed
  | StatePending =>
    match fuel with
    | O => OutOfFuel
    | S fuel =>
      let sp := selected_parent (cb_data chain_block) in
      d ← get (ghostdag_store gd) sp;
      check_blue_candidate_loop fuel new_block_data (mkChainBlock (Some sp) d) blue_candidate sizes candidate_size k
    end
  end.

Definition check_blue_candidate (new_block_data : GhostdagData) (blue_candidate : BlockHash) (k : Z) :
    outcome unit ColoringOutput :=
  limit ← chk16 (k + 1);
  if Z.of_nat (length (mergeset_blues new_block_data)) mod 2 ^ 16 =? limit then mret OutputRed
  else
    check_blue_candidate_loop (S (size (ghostdag_store gd))) new_block_data (mkChainBlock None new_block_data)
      blue_candidate ∅ 0 k.

(** *** The protocol *)

Definition palw_ticket_of (hash : BlockHash) : outcome unit (option (Z * Z)) :=
  header ← get (headers_store gd) hash;
  mret (if hdr_pow_algo_id header =? POW_ALGO_ID_PALW_REPLICA
        then Some (hdr_palw_ticket_nullifier header, hdr_daa_score header) else None).

(** [parents.iter().any(..)] stops at the first active parent. *)
Fixpoint any_active (parents : list BlockHash) : outcome unit bool :=
  match parents with
  | [] => Ok false
  | parent :: parents =>
    header ← get (headers_store gd) parent;
    if palw_activation_daa_score gd <=? hdr_daa_score header then mret true else any_active parents
  end.

Definition seed_nullifiers (sp : BlockHash) : outcome unit NullifierSet :=
  window ← match palw_nullifier_store gd with
           | Some store =>
             sp_active ← (if bool_decide (sp = genesis_hash gd) then mret false
                          else header ← get (headers_store gd) sp;
                               mret (palw_activation_daa_score gd <=? hdr_daa_score header));
             if sp_active : bool then w ← get store sp; mret (merge_from ∅ w) else mret ∅
           | None => mret ∅
           end;
  ticket ← palw_ticket_of sp;
  mret (match ticket with Some (nf, daa) => (nullifier_insert window nf daa).1 | None => window end).

Definition color_candidate (palw_active : bool) (st : GhostdagData * NullifierSet) (blue_candidate : BlockHash) :
    outcome unit (GhostdagData * NullifierSet) :=
  let '(new_block_data, active_nullifiers) := st in
  coloring ← check_blue_candidate new_block_data blue_candidate (gd_k gd);
  match coloring with
  | OutputBlue size sizes =>
    ticket ← (if palw_active then palw_ticket_of blue_candidate else mret None);
    let '(active_nullifiers, fresh) :=
      match ticket with
      | Some (nf, daa) => nullifier_insert active_nullifiers nf daa
      | None => (active_nullifiers, true)
      end in
    if fresh : bool then
      d ← add_blue new_block_data blue_candidate size sizes; mret (d, active_nullifiers)
    else mret (add_red new_block_data blue_candidate, active_nullifiers)
  | OutputRed => mret (add_red new_block_data blue_candidate, active_nullifiers)
  end.

(** The work added by the blue merge set: on the hash lane only, or split by
    lane once the compute lane is active. *)
Definition hash_work_of (hash : BlockHash) : outcome unit Z :=
  header ← get (headers_store gd) hash;
  w ← work_of (hdr_bits header);
  mret (Z.max w (gd_level_work gd)).

Definition add_lane_work (acc : Z * Z) (blue : BlockHash) : outcome unit (Z * Z) :=
  let '(added_hash, added_compute) := acc in
  header ← get (headers_store gd) blue;
  if hdr_pow_algo_id header =? POW_ALGO_ID_PALW_REPLICA then
    w ← normalize_palw_work (hdr_bits header) (palw_compute_work_scale gd);
    mret (added_hash, work_add added_compute w)
  else
    w ← work_of (hdr_bits header);
    mret (work_add added_hash (Z.max w (gd_level_work gd)), added_compute).

Definition component_work (palw_active : bool) (sp : BlockHash) (blues : list BlockHash) : outcome unit (Z * Z) :=
  if palw_active then
    '(added_hash, added_compute) ← for_each add_lane_work blues (0, 0);
    d ← get (ghostdag_store gd) sp;
    mret (work_add (blue_hash_work d) added_hash, work_add (blue_compute_work d) added_compute)
  else
    works ← mapM hash_work_of blues;
    d ← get (ghostdag_store gd) sp;
    mret (work_add (blue_hash_work d) (work_sum works), blue_compute_work d).

Definition ghostdag (parents : list BlockHash) : outcome unit GhostdagData :=
  _ ← assert_ (negb (bool_decide (parents = [])));
  sp ← find_selected_parent parents;
  if bool_decide (sp = ORIGIN) then new_with_selected_parent sp 1
  else
    new_block_data ← new_with_selected_parent sp (gd_k gd);
    ordered_mergeset ← ordered_mergeset_without_selected_parent sp parents;
    palw_active ← any_active parents;
    active_nullifiers ← (if palw_active : bool then seed_nullifiers sp else mret ∅);
    '(new_block_data, _) ← for_each (color_candidate palw_active) ordered_mergeset
                             (new_block_data, active_nullifiers);
    d ← get (ghostdag_store gd) sp;
    score ← add64 (blue_score d) (Z.of_nat (length (mergeset_blues new_block_data)));
    '(hash_work, compute_work_raw) ← component_work palw_active sp (mergeset_blues new_block_data);
    mret (finalize_score_and_component_work new_block_data score hash_work compute_work_raw COMPUTE_TO_HASH_CAP).

(** *** Iterators over stored merge sets *)

(** [merge_join_by] of two sequences in order; [Both] is the panic of
    "distinct blocks are never equal". *)
Fixpoint merge_join (fuel : nat) (cmp : SortableBlock → SortableBlock → comparison)
    (l r : list SortableBlock) : outcome unit (list SortableBlock) :=
  match l, r with
  | [], _ => Ok r
  | _, [] => Ok l
  | a :: l', b :: r' =>
    match fuel with
    | O => OutOfFuel
    | S fuel =>
      match cmp a b with
      | Lt => rest ← merge_join fuel cmp l' r; mret (a :: rest)
      | Gt => rest ← merge_join fuel cmp l r'; mret (b :: rest)
      | Eq => Panic
      end
    end
  end.
Definition ascending_mergeset_without_selected_parent (d : GhostdagData) : outcome unit (list SortableBlock) :=
  blues ← mapM sortable (drop 1 (mergeset_blues d));
  reds ← mapM sortable (mergeset_reds d);
  merge_join (length blues + length reds) sortable_cmp blues reds.
Definition descending_mergeset_without_selected_parent (d : GhostdagData) : outcome unit (list SortableBlock) :=
  blues ← mapM sortable (rev (drop 1 (mergeset_blues d)));
  reds ← mapM sortable (rev (mergeset_reds d));
  merge_join (length blues + length reds) (λ a b, sortable_cmp b a) blues reds.
Definition consensus_ordered_mergeset (d : GhostdagData) : outcome unit (list BlockHash) :=
  l ← ascending_mergeset_without_selected_parent d;
  mret (selected_parent d :: (sb_hash <$> l)).
End manager.
