(* ===== verification/GhostdagOrder.v ===== *)
(** * The block order and merge sets

    The order of blocks by blue work and hash, the selected parent, and the
    breadth-first search for the merge set: it returns exactly the blocks in
    the past of the parents that are not in the past of the selected parent. *)

From stdpp Require Import base list gmap sorting relations.
From Stdlib Require Import ZArith Lia.
From S2P Require Import Prelude Tx ReachStore Reach Bytes Header Uint Ghostdag.

Local Open Scope Z_scope.

(** ** Monadic maps *)

Lemma mapM_Ok {E A B} (f : A → outcome E B) (g : A → B) l :
  (∀ a, a ∈ l → f a = Ok (g a)) → mapM f l = Ok (g <$> l).
Proof.
  induction l as [|a l IH]; intros H; [done|]. simpl. rewrite H by set_solver. simpl.
  rewrite IH by set_solver. done.
Qed.

(** ** The order *)

Definition sortable_lt (a b : SortableBlock) : Prop := sortable_cmp a b = Lt.

Lemma sortable_cmp_lt a b : sortable_cmp a b = Lt ↔
  sb_blue_work a < sb_blue_work b ∨ sb_blue_work a = sb_blue_work b ∧ sb_hash a < sb_hash b.
Proof.
  unfold sortable_cmp. destruct (Z.compare_spec (sb_blue_work a) (sb_blue_work b)) as [E|E|E].
  - rewrite Z.compare_lt_iff. lia.
  - split; [by left|done].
  - split; [done|lia].
Qed.
Lemma sortable_cmp_gt a b : sortable_cmp a b = Gt ↔ sortable_cmp b a = Lt.
Proof.
  rewrite sortable_cmp_lt. unfold sortable_cmp.
  destruct (Z.compare_spec (sb_blue_work a) (sb_blue_work b)) as [E|E|E].
  - rewrite Z.compare_gt_iff. lia.
  - split; [done|lia].
  - split; [lia|done].
Qed.
Lemma sortable_le_iff a b : sortable_le a b ↔ ¬ sortable_lt b a.
Proof. unfold sortable_le, sortable_lt. by rewrite <- sortable_cmp_gt. Qed.

Lemma sortable_le_spec a b : sortable_le a b ↔
  sb_blue_work a < sb_blue_work b ∨ sb_blue_work a = sb_blue_work b ∧ sb_hash a ≤ sb_hash b.
Proof. rewrite sortable_le_iff. unfold sortable_lt. rewrite sortable_cmp_lt. lia. Qed.

#[export] Instance sortable_le_trans : Transitive sortable_le.
Proof. intros a b c. rewrite !sortable_le_spec. lia. Qed.
#[export] Instance sortable_le_total : Total sortable_le.
Proof. intros a b. rewrite !sortable_le_spec. lia. Qed.
#[export] Instance sortable_le_antisymm : AntiSymm (=) sortable_le.
Proof.
  intros [h1 w1] [h2 w2]. rewrite !sortable_le_spec. simpl. intros ??.
  assert (w1 = w2) by lia. assert (h1 = h2) by lia. congruence.
Qed.
#[export] Instance sortable_le_refl : Reflexive sortable_le.
Proof. intros a. rewrite sortable_le_spec. lia. Qed.

(** [Iterator::max] finds a greatest element. *)
Lemma foldl_max_spec l a m :
  m = foldl (λ acc b, match sortable_cmp acc b with Gt => acc | _ => b end) a l →
  m ∈ a :: l ∧ ∀ b, b ∈ a :: l → sortable_le b m.
Proof.
  revert a. induction l as [|x l IH]; intros a Hm; simpl in Hm.
  { subst m. split; [by left|]. intros b ->%list_elem_of_singleton. done. }
  destruct (IH _ Hm) as [Hin Hmax]. set (y := match sortable_cmp a x with Gt => a | _ => x end) in *.
  assert (sortable_le a y ∧ sortable_le x y ∧ (y = a ∨ y = x)) as (Ha & Hx & Hy).
  { unfold y. destruct (sortable_cmp a x) eqn:E.
    - split_and!; [|done|by right]. unfold sortable_le. by rewrite E.
    - split_and!; [|done|by right]. unfold sortable_le. by rewrite E.
    - split_and!; [done| |by left]. apply sortable_le_spec. apply sortable_cmp_gt, sortable_cmp_lt in E. lia. }
  split.
  - apply elem_of_cons in Hin as [->|Hin]; [destruct Hy as [->| ->]; set_solver|set_solver].
  - assert (sortable_le y m) by (apply Hmax; by left).
    intros b [->|[->|Hb]%elem_of_cons]%elem_of_cons; [by etrans|by etrans|apply Hmax; by right].
Qed.

(** Sorting is determined by the set of blocks. *)
Lemma merge_sort_unique l1 l2 : l1 ≡ₚ l2 → merge_sort sortable_le l1 = merge_sort sortable_le l2.
Proof.
  intros Hp. apply (StronglySorted_unique sortable_le); [apply StronglySorted_merge_sort; apply _..|].
  etrans; [apply merge_sort_Permutation|]. etrans; [exact Hp|]. symmetry. apply merge_sort_Permutation.
Qed.

Section manager.
Context {U : Type} `{!ReachabilityService U} (gd : GhostdagManager U).

(** ** Ancestry *)

(** [p] is a direct parent of [b]. The origin, which is not a block, has no
    part in the order. *)
Definition par (b p : BlockHash) : Prop :=
  p ≠ ORIGIN ∧ ∃ ps, relations_store gd !! b = Some ps ∧ p ∈ ps.
(** [a] is in the past of [b] or is [b]. *)
Definition anc (a b : BlockHash) : Prop := rtc par b a.

Lemma anc_refl a : anc a a.
Proof. apply rtc_refl. Qed.
Lemma anc_trans a b c : anc a b → anc b c → anc a c.
Proof. intros H1 H2. unfold anc in *. by etrans. Qed.
Lemma anc_par a b : par b a → anc a b.
Proof. intros H. by apply rtc_once. Qed.

Definition work (b : BlockHash) : Z := from_option blue_work 0 (ghostdag_store gd !! b).
Definition known (b : BlockHash) : Prop := b ≠ ORIGIN ∧ is_Some (ghostdag_store gd !! b).

(** What the algorithms rely on: the service decides ancestry, parents of
    blocks are known, and a block has more blue work than its parents. *)
Record stores_ok : Prop := {
  so_svc : ∀ a b, known a → known b →
    ∃ r, svc_is_dag_ancestor_of (reachability_service gd) a b = Ok r ∧ (r = true ↔ anc a b);
  so_rel : ∀ b, known b → ∃ ps, relations_store gd !! b = Some ps ∧ ∀ p, p ∈ ps → p = ORIGIN ∨ known p;
  so_genesis : known (genesis_hash gd) ∧ ∀ p, ~ par (genesis_hash gd) p;
  so_origin : ∀ b, known b → b ≠ genesis_hash gd → ∀ ps, relations_store gd !! b = Some ps → ORIGIN ∉ ps ∧ ps ≠ [];
  so_work : ∀ b p, known b → par b p → work p < work b;
  so_work_nonneg : ∀ b, known b → 0 ≤ work b;
}.

Section ok.
Hypothesis Hok : stores_ok.

Lemma par_known b p : known b → par b p → known p.
Proof.
  intros Hb (Hp & ps & Hps & Hin). destruct (so_rel Hok b Hb) as (ps' & Hps' & Hk).
  assert (ps' = ps) as -> by congruence. destruct (Hk p Hin) as [->|]; [done|done].
Qed.
Lemma anc_known a b : known b → anc a b → known a.
Proof. intros Hb H. unfold anc in H. induction H as [|x y z Hxy _ IH]; [done|]. apply IH. by eapply par_known. Qed.

Lemma anc_work a b : known b → anc a b → a = b ∨ work a < work b.
Proof.
  intros Hb H. unfold anc in H. induction H as [|x y z Hxy Hyz IH]; [by left|].
  pose proof (so_work Hok _ _ Hb Hxy). destruct IH as [->|]; [by eapply par_known|by right|right; lia].
Qed.
Lemma anc_antisymm a b : known a → known b → anc a b → anc b a → a = b.
Proof.
  intros Ha Hb Hab Hba. destruct (anc_work a b Hb Hab) as [|]; [done|].
  destruct (anc_work b a Ha Hba) as [|]; [done|lia].
Qed.

(** The service as a decision procedure. *)
Definition reaches (a b : BlockHash) : bool :=
  match svc_is_dag_ancestor_of (reachability_service gd) a b with Ok r => r | _ => false end.
Lemma svc_reaches a b : known a → known b →
  svc_is_dag_ancestor_of (reachability_service gd) a b = Ok (reaches a b) ∧ (reaches a b = true ↔ anc a b).
Proof. intros Ha Hb. destruct (so_svc Hok a b Ha Hb) as (r & Hr & Hiff). unfold reaches. by rewrite Hr. Qed.
Lemma reaches_false a b : known a → known b → reaches a b = false ↔ ~ anc a b.
Proof. intros Ha Hb. destruct (svc_reaches a b Ha Hb) as [_ H]. rewrite <- H. by destruct (reaches a b). Qed.
Lemma anc_dec a b : known a → known b → anc a b ∨ ~ anc a b.
Proof. intros Ha Hb. destruct (svc_reaches a b Ha Hb) as [_ H]. rewrite <- H. destruct (reaches a b); auto. Qed.

Lemma genesis_anc b : known b → anc (genesis_hash gd) b.
Proof.
  intros Hb. assert (∀ n b, known b → work b < Z.of_nat n → anc (genesis_hash gd) b) as H.
  { induction n as [|n IH]; intros c Hc Hn; [pose proof (so_work_nonneg Hok c Hc); lia|].
    destruct (decide (c = genesis_hash gd)) as [->|Hne]; [apply anc_refl|].
    destruct (so_rel Hok c Hc) as (ps & Hps & Hk). destruct (so_origin Hok c Hc Hne ps Hps) as [Ho Hnil].
    destruct ps as [|p ps]; [done|]. assert (par c p) as Hp.
    { split; [intros ->; apply Ho; by left|]. exists (p :: ps). split; [done|by left]. }
    apply anc_trans with p; [|by apply anc_par]. apply IH; [by eapply par_known|].
    pose proof (so_work Hok c p Hc Hp). lia. }
  apply (H (S (Z.to_nat (work b)))); [done|]. pose proof (so_work_nonneg Hok b Hb). lia.
Qed.

(** ** The selected parent *)

Definition key (b : BlockHash) : SortableBlock := mkSortable b (work b).

Lemma sortable_key b : is_Some (ghostdag_store gd !! b) → sortable gd b = Ok (key b).
Proof. intros [d Hd]. unfold sortable, key, work, get. by rewrite Hd. Qed.

Lemma find_selected_parent_spec parents : parents ≠ [] → (∀ p, p ∈ parents → known p) →
  ∃ sp, find_selected_parent gd parents = Ok sp ∧ sp ∈ parents ∧
    ∀ p, p ∈ parents → sortable_le (key p) (key sp).
Proof.
  intros Hne Hk. unfold find_selected_parent. rewrite (mapM_Ok _ key) by (intros p Hp; apply sortable_key, Hk, Hp).
  destruct parents as [|p0 ps]; [done|]. cbn [fmap list_fmap mbind outcome_bind iter_max unwrap].
  set (m := foldl _ _ _). destruct (foldl_max_spec (key <$> ps) (key p0) m eq_refl) as [Hin Hmax].
  change (key p0 :: (key <$> ps)) with (key <$> p0 :: ps) in *.
  apply list_elem_of_fmap in Hin as (sp & Hm & Hsp). exists sp. rewrite Hm. split; [done|]. split; [done|].
  intros p Hp. rewrite <- Hm. apply Hmax. by apply list_elem_of_fmap_2.
Qed.

Lemma sort_blocks_spec blocks : (∀ b, b ∈ blocks → known b) →
  ∃ l, sort_blocks gd blocks = Ok l ∧ l ≡ₚ blocks ∧ StronglySorted (λ a b, sortable_le (key a) (key b)) l.
Proof.
  intros Hk. unfold sort_blocks. rewrite (mapM_Ok _ key) by (intros p Hp; apply sortable_key, Hk, Hp).
  cbn [mbind outcome_bind]. eexists. split; [reflexivity|].
  assert (sb_hash <$> (key <$> blocks) = blocks) as Hid.
  { rewrite <- list_fmap_compose. apply list_fmap_id. }
  split; [by rewrite merge_sort_Permutation, Hid|].
  pose proof (StronglySorted_merge_sort sortable_le (key <$> blocks)) as Hs.
  assert (∀ x, x ∈ merge_sort sortable_le (key <$> blocks) → x = key (sb_hash x)) as Hx.
  { intros x. rewrite merge_sort_Permutation. intros (b & -> & _)%list_elem_of_fmap. done. }
  revert Hs Hx. generalize (merge_sort sortable_le (key <$> blocks)). intros l Hs Hx.
  induction Hs as [|x l Hl IH Hall]; [constructor|]. rewrite fmap_cons. constructor.
  - apply IH. intros y Hy. apply Hx. by right.
  - rewrite Forall_fmap. rewrite Forall_forall in *. intros y Hy. simpl.
    rewrite <- (Hx x), <- (Hx y) by set_solver. by apply Hall.
Qed.
End ok.
End manager.
