(* ===== verification/GhostdagMergeset.v ===== *)
(** * The merge set

    The breadth-first search of [unordered_mergeset_without_selected_parent]
    ends within its fuel and returns exactly the blocks in the past of the
    parents that are not in the past of the selected parent; sorting puts them
    in an order in which parents precede children. *)

From stdpp Require Import base list gmap sorting relations fin_sets.
From Stdlib Require Import ZArith Lia.
From S2P Require Import Prelude Tx ReachStore Reach Bytes Header Uint Ghostdag GhostdagOrder.

Local Open Scope Z_scope.

Section mergeset.
Context {U : Type} `{!ReachabilityService U} (gd : GhostdagManager U).
Hypothesis Hok : stores_ok gd.
Abbreviation known := (known gd).
Abbreviation anc := (anc gd).
Abbreviation par := (par gd).

(** [parents] are the parents of a new block and [sp] the selected one. *)
Context (parents : list BlockHash) (sp : BlockHash).
Hypothesis Hparents : ∀ p, p ∈ parents → known p.
Hypothesis Hsp : sp ∈ parents.
Hypothesis Hanti : ∀ p, p ∈ parents → p ≠ sp → ~ anc p sp.

Definition in_mergeset (x : BlockHash) : Prop := (∃ p, p ∈ parents ∧ anc x p) ∧ ~ anc x sp.

Lemma sp_known : known sp.
Proof. by apply Hparents. Qed.
Lemma in_mergeset_known x : in_mergeset x → known x.
Proof. intros [(p & Hp & Hx) _]. eapply anc_known; [done|by apply Hparents|done]. Qed.

Record bfs_inv (s : Bfs) : Prop := {
  bi_sound : ∀ x, x ∈ bfs_mergeset s → in_mergeset x;
  bi_past : ∀ x, x ∈ bfs_past s → anc x sp;
  bi_queue : ∀ x, x ∈ bfs_queue s → x ∈ bfs_mergeset s;
  bi_closed : ∀ x, x ∈ bfs_mergeset s → x ∈ bfs_queue s ∨ ∀ y, par x y → y ∈ bfs_mergeset s ∨ anc y sp;
  bi_start : ∀ p, p ∈ parents → p = sp ∨ p ∈ bfs_mergeset s;
}.

(** While the parents of [current] are visited. *)
Record visit_inv (current : BlockHash) (s0 s : Bfs) (todo : list BlockHash) : Prop := {
  vi_sound : ∀ x, x ∈ bfs_mergeset s → in_mergeset x;
  vi_past : ∀ x, x ∈ bfs_past s → anc x sp;
  vi_queue : ∀ x, x ∈ bfs_queue s → x ∈ bfs_mergeset s;
  vi_mono : bfs_mergeset s0 ⊆ bfs_mergeset s;
  vi_new : ∀ x, x ∈ bfs_mergeset s → x ∈ bfs_mergeset s0 ∨ x ∈ bfs_queue s;
  vi_old : ∀ x, x ∈ bfs_queue s0 → x ∈ bfs_queue s;
  vi_done : ∀ y, par current y → y ∈ todo ∨ y ∈ bfs_mergeset s ∨ anc y sp;
  vi_count : (length (bfs_queue s) + size (bfs_mergeset s0) = length (bfs_queue s0) + size (bfs_mergeset s))%nat;
}.

Lemma visit_parent_spec current s0 s y todo : in_mergeset current → par current y →
  visit_inv current s0 s (y :: todo) →
  ∃ s', visit_parent gd sp s y = Ok s' ∧ visit_inv current s0 s' todo.
Proof.
  intros Hc Hy [Hs Hp Hq Hm Hn Ho Hd Hcount].
  assert (known y) as Hyk by (eapply par_known; [done| |done]; by apply in_mergeset_known).
  unfold visit_parent. case_bool_decide as Hin; simpl.
  { exists s. split; [done|]. split; try done. intros z Hz. destruct (Hd z Hz) as [[->|?]%elem_of_cons|?]; auto. }
  case_bool_decide as Hpast.
  { exists s. split; [done|]. split; try done. intros z Hz. destruct (Hd z Hz) as [[->|?]%elem_of_cons|?]; auto. }
  destruct (svc_reaches gd Hok y sp Hyk sp_known) as [-> Hiff]. cbn [mbind outcome_bind].
  destruct (reaches gd y sp) eqn:Hr.
  - eexists. split; [reflexivity|]. split; try done; cbn [bfs_mergeset bfs_past bfs_queue].
    + intros x [->%elem_of_singleton|Hx]%elem_of_union; [by apply Hiff|by apply Hp].
    + intros z Hz. destruct (Hd z Hz) as [[->|?]%elem_of_cons|?]; auto. right. right. by apply Hiff.
  - eexists. split; [reflexivity|]. split; cbn [bfs_mergeset bfs_past bfs_queue].
    + intros x [->%elem_of_singleton|Hx]%elem_of_union; [|by apply Hs].
      destruct Hc as [(p & Hpp & Hanc) _]. split; [|intros ?%Hiff; done].
      exists p. split; [done|]. apply anc_trans with current; [by apply anc_par|done].
    + done.
    + intros x [Hx| ->%list_elem_of_singleton]%elem_of_app; set_solver.
    + set_solver.
    + intros x [->%elem_of_singleton|Hx]%elem_of_union; [right; set_solver|].
      destruct (Hn x Hx); [by left|right; set_solver].
    + set_solver.
    + intros z Hz. destruct (Hd z Hz) as [[->|?]%elem_of_cons|[?|?]]; auto; right; left; set_solver.
    + rewrite length_app, size_union, size_singleton by set_solver. simpl. lia.
Qed.

Lemma visit_parents_spec current s0 s todo : in_mergeset current → (∀ y, y ∈ todo → par current y) →
  visit_inv current s0 s todo →
  ∃ s', for_each (visit_parent gd sp) todo s = Ok s' ∧ visit_inv current s0 s' [].
Proof.
  intros Hc Htodo Hinv. destruct (for_each_ind (visit_parent gd sp)
    (λ todo s, (∀ y, y ∈ todo → par current y) ∧ visit_inv current s0 s todo) todo s) as (s' & Hs' & _ & H).
  - done.
  - intros y l t [Hl Ht]. destruct (visit_parent_spec current s0 t y l) as (t' & ? & ?); [done|apply Hl; by left|done|].
    exists t'. split; [done|]. split; [|done]. intros z Hz. apply Hl. by right.
  - by exists s'.
Qed.

Lemma in_mergeset_parents x : in_mergeset x →
  ∃ ps, relations_store gd !! x = Some ps ∧ ∀ y, y ∈ ps ↔ par x y.
Proof.
  intros Hx. pose proof (in_mergeset_known x Hx) as Hk. destruct (so_rel _ Hok x Hk) as (ps & Hps & _).
  exists ps. split; [done|]. intros y. split; [|intros (_ & ps' & ? & ?); congruence].
  intros Hy. split; [|eauto]. intros ->. destruct (decide (x = genesis_hash gd)) as [->|Hne].
  - destruct Hx as [_ []]. by apply genesis_anc, sp_known.
  - by destruct (so_origin _ Hok x Hk Hne ps Hps).
Qed.

(** The queue and the blocks that are not found yet bound the work left. *)
Lemma bfs_inv_size s : bfs_inv s → (size (bfs_mergeset s) ≤ size (relations_store gd))%nat.
Proof.
  intros Hinv. rewrite <- (size_dom (D:=gset BlockHash)). apply subseteq_size. intros x Hx.
  apply (bi_sound _ Hinv), in_mergeset_parents in Hx as (ps & Hps & _). apply elem_of_dom. eauto.
Qed.

Lemma mergeset_complete s : bfs_inv s → bfs_queue s = [] → ∀ x, x ∈ bfs_mergeset s ↔ in_mergeset x.
Proof.
  intros [Hs _ _ Hc Hst] Hq x. split; [apply Hs|]. intros [(p & Hp & Hanc) Hno].
  destruct (Hst p Hp) as [->|Hin]; [done|]. clear Hp. unfold GhostdagOrder.anc in Hanc.
  induction Hanc as [|y z x Hyz Hzx IH]; [done|]. apply IH; [done|].
  destruct (Hc y Hin) as [Hyq|Hcl]; [rewrite Hq in Hyq; by apply elem_of_nil in Hyq|].
  destruct (Hcl z Hyz) as [?|Hz]; [done|]. destruct Hno. by apply anc_trans with z.
Qed.

Lemma mergeset_loop_spec fuel s : bfs_inv s →
  (length (bfs_queue s) + size (relations_store gd) ≤ fuel + size (bfs_mergeset s))%nat →
  ∃ M, mergeset_loop gd fuel sp s = Ok M ∧ ∀ x, x ∈ M ↔ in_mergeset x.
Proof.
  revert s. induction fuel as [|fuel IH]; intros s Hinv Hf; simpl.
  { pose proof (bfs_inv_size s Hinv). destruct (bfs_queue s) eqn:Hq; [|simpl in Hf; lia].
    exists (bfs_mergeset s). split; [done|]. by apply mergeset_complete. }
  destruct (bfs_queue s) as [|c q] eqn:Hq.
  { exists (bfs_mergeset s). split; [done|]. by apply mergeset_complete. }
  pose proof Hinv as [Hs Hp Hqm Hcl Hst]. assert (in_mergeset c) as Hc.
  { apply Hs, Hqm. rewrite Hq. by left. }
  destruct (in_mergeset_parents c Hc) as (ps & Hps & Hpar). unfold get. rewrite Hps. cbn [unwrap mbind outcome_bind].
  set (s0 := mkBfs (bfs_mergeset s) (bfs_past s) q).
  destruct (visit_parents_spec c s0 s0 ps) as (s' & -> & [Hs' Hp' Hq' Hm' Hn' Ho' Hd' Hcount]); [done|by intros y ?%Hpar| |].
  { split; try done; [|by left|].
    - intros x Hx. apply Hqm. rewrite Hq. by right.
    - intros y Hy. left. by apply Hpar. }
  cbn [mbind outcome_bind]. apply IH.
  - split; try done.
    + intros x Hx. destruct (Hn' x Hx) as [Hx0|?]; [|by left]. destruct (decide (x = c)) as [->|Hne].
      * right. intros y Hy. destruct (Hd' y Hy) as [?%elem_of_nil|?]; done.
      * destruct (Hcl x Hx0) as [Hxq|Hx1]; [|right; intros y Hy; destruct (Hx1 y Hy); auto].
        rewrite Hq in Hxq. apply elem_of_cons in Hxq as [?|Hxq]; [done|]. left. by apply Ho'.
    + intros p Hpp. destruct (Hst p Hpp); auto.
  - unfold s0 in Hcount. cbn [bfs_mergeset bfs_queue] in Hcount. simpl in Hf. lia.
Qed.

Lemma unordered_mergeset_spec :
  ∃ M, unordered_mergeset_without_selected_parent gd sp parents = Ok M ∧ ∀ x, x ∈ M ↔ in_mergeset x.
Proof.
  unfold unordered_mergeset_without_selected_parent. apply mergeset_loop_spec.
  - split; cbn [bfs_mergeset bfs_past bfs_queue].
    + intros x (Hne & Hx)%elem_of_list_to_set%list_elem_of_filter. split; [|by apply Hanti].
      exists x. split; [done|]. apply anc_refl.
    + set_solver.
    + intros x Hx. by apply elem_of_list_to_set.
    + intros x Hx. left. by apply elem_of_list_to_set in Hx.
    + intros p Hp. destruct (decide (p = sp)) as [|Hne]; [by left|right].
      by apply elem_of_list_to_set, list_elem_of_filter.
  - cbn [bfs_mergeset bfs_queue]. pose proof (length_filter (λ p, p ≠ sp) parents).
    lia.
Qed.

(** Sorted merge sets: no block comes after one of its descendants. *)
Lemma ordered_mergeset_spec :
  ∃ l, ordered_mergeset_without_selected_parent gd sp parents = Ok l ∧ NoDup l ∧
    (∀ x, x ∈ l ↔ in_mergeset x) ∧ StronglySorted (λ a b, ~ anc b a) l.
Proof.
  unfold ordered_mergeset_without_selected_parent. destruct unordered_mergeset_spec as (M & -> & HM).
  cbn [mbind outcome_bind]. destruct (sort_blocks_spec gd Hok (elements M)) as (l & -> & Hperm & Hsort).
  { intros b Hb%elem_of_elements%HM. by apply in_mergeset_known. }
  assert (NoDup l) as Hnd by (rewrite Hperm; apply NoDup_elements).
  assert (∀ x, x ∈ l ↔ in_mergeset x) as Hl by (intros x; by rewrite Hperm, elem_of_elements).
  exists l. split_and!; [done..|]. clear Hperm.
  assert (∀ x, x ∈ l → known x) as Hk by (intros x ?%Hl; by apply in_mergeset_known). clear Hl.
  induction Hsort as [|a l Hl IH Hall]; [constructor|]. apply NoDup_cons in Hnd as [Ha Hnd].
  constructor; [apply IH; [done|]; intros x Hx; apply Hk; by right|].
  rewrite Forall_forall in *. intros b Hb Hanc. specialize (Hall b Hb). apply sortable_le_spec in Hall.
  destruct (anc_work gd Hok b a (Hk a ltac:(by left)) Hanc) as [->|Hw]; [done|].
  simpl in Hall. lia.
Qed.

(** The sort is by blue work and hash. *)
Lemma ordered_mergeset_sorted l : ordered_mergeset_without_selected_parent gd sp parents = Ok l →
  StronglySorted (λ a b, sortable_le (key gd a) (key gd b)) l.
Proof.
  unfold ordered_mergeset_without_selected_parent. destruct unordered_mergeset_spec as (M & -> & HM).
  cbn [mbind outcome_bind]. destruct (sort_blocks_spec gd Hok (elements M)) as (l' & -> & _ & Hsort).
  { intros b Hb%elem_of_elements%HM. by apply in_mergeset_known. }
  intros H. by injection H as <-.
Qed.
End mergeset.
