(* ===== verification/GhostdagColor.v ===== *)
(** * Colouring one candidate

    The blue set of a block, the sizes of blue anticones that the store
    records piecewise along the selected chain, and what
    [check_blue_candidate] decides: whether the blue set stays a k-cluster when
    the candidate joins it. *)

From stdpp Require Import base list gmap sorting relations fin_sets.
From Stdlib Require Import ZArith Lia.
From S2P Require Import Prelude Tx ReachStore Reach Bytes Header Uint Ghostdag GhostdagOrder GhostdagMergeset.

Local Open Scope Z_scope.

Lemma chk16_Ok z : 0 ≤ z < 2 ^ 16 → @chk16 unit z = Ok z.
Proof. intros Hz. unfold chk16. destruct (Z.leb_spec 0 z), (Z.ltb_spec z (2 ^ 16)); done || lia. Qed.

Section color.
Context {U : Type} `{!ReachabilityService U} (gd : GhostdagManager U).
Abbreviation known := (known gd).
Abbreviation anc := (anc gd).
Abbreviation reaches := (reaches gd).
Abbreviation k := (gd_k gd).

(** ** Blue sets *)

(** Neither block is in the past of the other. *)
Definition anticone (a b : BlockHash) : Prop := reaches a b = false ∧ reaches b a = false.
#[local] Instance anticone_dec a : ∀ b, Decision (anticone a b).
Proof. intros b. unfold anticone. apply _. Defined.

(** The number of blocks of [l] in the anticone of [x]. *)
Definition anticone_size (x : BlockHash) (l : list BlockHash) : Z := Z.of_nat (length (filter (anticone x) l)).

(** The selected chain below the data of a block, down to genesis. *)
Inductive chain : GhostdagData → list (BlockHash * GhostdagData) → Prop :=
| chain_genesis d : mergeset_blues d = [] → chain d []
| chain_step d d' cs :
    mergeset_blues d ≠ [] → ghostdag_store gd !! selected_parent d = Some d' → chain d' cs →
    chain d ((selected_parent d, d') :: cs).

(** The blue blocks in the past: those merged along the chain. *)
Definition blues_of (d : GhostdagData) (cs : list (BlockHash * GhostdagData)) : list BlockHash :=
  mergeset_blues d ++ concat ((λ c, mergeset_blues c.2) <$> cs).

(** The recorded blue anticone size of a block: the first entry along the chain. *)
Inductive recorded_size : GhostdagData → BlockHash → Z → Prop :=
| recorded_here d x s : blues_anticone_sizes d !! x = Some s → recorded_size d x s
| recorded_below d d' x s :
    blues_anticone_sizes d !! x = None → mergeset_blues d ≠ [] →
    selected_parent d ≠ genesis_hash gd → selected_parent d ≠ ORIGIN →
    ghostdag_store gd !! selected_parent d = Some d' → recorded_size d' x s →
    recorded_size d x s.

(** A k-cluster with exact records. *)
Record view_ok (d : GhostdagData) (cs : list (BlockHash * GhostdagData)) : Prop := {
  vo_chain : chain d cs;
  vo_nodup : NoDup (blues_of d cs);
  vo_known : ∀ x, x ∈ blues_of d cs → known x;
  vo_size : ∀ x, x ∈ blues_of d cs → recorded_size d x (anticone_size x (blues_of d cs));
  vo_k : ∀ x, x ∈ blues_of d cs → anticone_size x (blues_of d cs) ≤ k;
}.

(** Every stored block has such a view of its past. *)
Record blocks_ok : Prop := {
  bo_k : 0 ≤ k < 2 ^ 16 - 1;
  bo_view : ∀ b d, b ≠ ORIGIN → ghostdag_store gd !! b = Some d →
    ∃ cs, view_ok d cs ∧ (∀ x, x ∈ blues_of d cs → anc x b ∧ x ≠ b) ∧
      (b = genesis_hash gd → mergeset_blues d = []) ∧
      (b ≠ genesis_hash gd → ∃ rest, mergeset_blues d = selected_parent d :: rest);
}.

Lemma chain_unique d cs cs' : chain d cs → chain d cs' → cs = cs'.
Proof.
  intros H. revert cs'. induction H as [d Hd|d d' cs Hd Hsp Hc IH]; intros cs' H'; inversion H'; simplify_eq; try done.
  f_equal. by apply IH.
Qed.

Section ok.
Hypothesis Hok : stores_ok gd.
Hypothesis Hblocks : blocks_ok.

(** The chain below a known block descends strictly, so it is no longer than
    the store. *)
Lemma chain_below b d cs : b ≠ ORIGIN → ghostdag_store gd !! b = Some d → chain d cs →
  (∀ c, c ∈ cs.*1 → anc c b ∧ c ≠ b ∧ known c) ∧ NoDup cs.*1.
Proof.
  intros Hb Hd Hc. revert b Hb Hd. induction Hc as [d Hn|d d' cs Hn Hsp Hc IH]; intros b Hb Hd.
  { split; [intros c ?%elem_of_nil; done|constructor]. }
  assert (known b) as Hkb by (split; eauto).
  destruct (bo_view Hblocks b d Hb Hd) as (cs0 & Hv & Hpast & Hg & Hsp0).
  destruct (decide (b = genesis_hash gd)) as [E|E]; [by rewrite Hg in Hn|].
  destruct (Hsp0 E) as [rest Hrest]. set (sp := selected_parent d) in *.
  destruct (Hpast sp) as [Hanc Hne].
  { unfold blues_of. rewrite Hrest. set_solver. }
  assert (known sp) as Hks by (by eapply anc_known).
  destruct (IH sp) as [IH1 IH2]; [apply Hks|done|]. rewrite fmap_cons. simpl. split.
  - intros c [->|Hc']%elem_of_cons; [done|]. destruct (IH1 c Hc') as (Ha & Hcs & Hkc).
    split_and!; [by apply anc_trans with sp| |done]. intros ->. apply Hcs. by eapply anc_antisymm.
  - constructor; [|done]. intros (_ & ? & _)%IH1. done.
Qed.

Lemma chain_length d d' cs : selected_parent d ≠ ORIGIN → ghostdag_store gd !! selected_parent d = Some d' →
  chain d' cs → (S (length cs) ≤ size (ghostdag_store gd))%nat.
Proof.
  intros Ho Hd Hc. destruct (chain_below _ _ _ Ho Hd Hc) as [H1 H2].
  rewrite <- (size_dom (D:=gset BlockHash)).
  assert (S (length cs) = size (list_to_set (selected_parent d :: cs.*1) : gset BlockHash)) as ->.
  { rewrite size_list_to_set; [simpl; by rewrite length_fmap|]. constructor; [|done]. intros (_ & ? & _)%H1. done. }
  apply subseteq_size. intros x [->|Hx]%elem_of_list_to_set%elem_of_cons; apply elem_of_dom; [eauto|].
  by apply H1 in Hx as (_ & _ & _ & ?).
Qed.

(** ** Looking up a blue anticone size *)

Lemma blue_anticone_size_loop_spec d x s cs fuel : recorded_size d x s → chain d cs → (length cs ≤ fuel)%nat →
  blue_anticone_size_loop gd fuel x (blues_anticone_sizes d) (selected_parent d) = Ok s.
Proof.
  intros H. revert cs fuel. induction H as [d x s Hs|d d' x s Hs Hn Hg Ho Hd H IH]; intros cs fuel Hc Hf.
  { destruct fuel; simpl; by rewrite Hs. }
  inversion Hc; simplify_eq. simpl in Hf. destruct fuel as [|fuel]; [lia|]. simpl. rewrite Hs.
  rewrite !bool_decide_eq_false_2 by done. simpl. unfold get. rewrite Hd. simpl.
  eapply IH; [done|lia].
Qed.

(** ** One candidate *)

Section candidate.
Context (nbd : GhostdagData) (cs0 : list (BlockHash * GhostdagData)) (C : BlockHash).
Hypothesis Hview : view_ok nbd cs0.
Hypothesis Hlen : (length cs0 ≤ size (ghostdag_store gd))%nat.
Hypothesis HC : known C.

Definition recorded (x : BlockHash) : Z := anticone_size x (blues_of nbd cs0).
(** The blocks that are not in the past of the candidate. *)
Definition nonpast (l : list BlockHash) : list BlockHash := filter (λ y, reaches y C = false) l.

Lemma nonpast_app l1 l2 : nonpast (l1 ++ l2) = nonpast l1 ++ nonpast l2.
Proof. apply filter_app. Qed.

Lemma blue_anticone_size_spec x : x ∈ blues_of nbd cs0 → blue_anticone_size gd x nbd = Ok (recorded x).
Proof.
  intros Hx. eapply blue_anticone_size_loop_spec; [by apply (vo_size _ _ Hview)|apply Hview|done].
Qed.

Lemma nonpast_nil l : (∀ y, y ∈ l → reaches y C = true) → nonpast l = [].
Proof.
  intros Hl. destruct (nonpast l) as [|y l'] eqn:E; [done|]. exfalso.
  assert (y ∈ nonpast l) as [Hy Hyl]%list_elem_of_filter by (rewrite E; by left).
  rewrite Hl in Hy; done.
Qed.

(** The state after the blues [P] have been examined without a violation. *)
Definition examined (P : list BlockHash) (sizes : gmap BlockHash Z) (n : Z) : Prop :=
  n = Z.of_nat (length (nonpast P)) ∧ n ≤ k ∧ (∀ y, y ∈ nonpast P → recorded y < k) ∧
  ∀ y, sizes !! y = if decide (y ∈ nonpast P) then Some (recorded y) else None.

(** A reason to colour the candidate red. *)
Definition violation (l : list BlockHash) : Prop :=
  k < Z.of_nat (length (nonpast l)) ∨ ∃ y, y ∈ nonpast l ∧ recorded y = k.

Lemma violation_app l1 l2 : violation l1 → violation (l1 ++ l2).
Proof.
  unfold violation. rewrite nonpast_app, length_app. intros [H|(y & Hy & ?)]; [left; lia|right].
  exists y. split; [apply elem_of_app; by left|done].
Qed.

Lemma examined_cons P y sizes n : examined P sizes n → reaches y C = false →
  n + 1 ≤ k → recorded y < k → examined (P ++ [y]) (<[y := recorded y]> sizes) (n + 1).
Proof.
  intros (-> & Hn & Hlt & Hs) Hy Hk Hr. unfold examined. rewrite nonpast_app.
  assert (nonpast [y] = [y]) as -> by (unfold nonpast; rewrite filter_cons_True; done).
  rewrite length_app. simpl. split_and!; [lia|lia| |].
  - intros z [?| ->%list_elem_of_singleton]%elem_of_app; [by apply Hlt|done].
  - intros z. destruct (decide (z = y)) as [->|Hne].
    + rewrite lookup_insert_eq, decide_True by set_solver. done.
    + rewrite lookup_insert_ne, Hs by done. destruct (decide (z ∈ nonpast P)).
      * by rewrite decide_True by set_solver.
      * by rewrite decide_False by set_solver.
Qed.

Lemma examined_skip P y sizes n : examined P sizes n → reaches y C = true → examined (P ++ [y]) sizes n.
Proof.
  intros H Hy. unfold examined. rewrite nonpast_app.
  assert (nonpast [y] = []) as -> by (unfold nonpast; rewrite filter_cons_False; [done|congruence]).
  by rewrite app_nil_r.
Qed.

Lemma check_peers_spec ps P sizes n : (∀ y, y ∈ ps → y ∈ blues_of nbd cs0) → examined P sizes n →
  ∃ st sizes' n', check_peers gd nbd ps C sizes n k = Ok (st, sizes', n') ∧
    match st with
    | StatePending => examined (P ++ ps) sizes' n'
    | StateRed => violation (P ++ ps)
    | StateBlue => False
    end.
Proof.
  revert P sizes n. induction ps as [|y ps IH]; intros P sizes n Hps Hex; cbn [check_peers].
  { exists StatePending, sizes, n. by rewrite app_nil_r. }
  assert (y ∈ blues_of nbd cs0) as Hy by (apply Hps; by left).
  assert (known y) as Hyk by (by apply (vo_known _ _ Hview)).
  assert (∀ z, z ∈ ps → z ∈ blues_of nbd cs0) as Hps' by (intros z Hz; apply Hps; by right).
  destruct (svc_reaches gd Hok y C Hyk HC) as [-> _]. cbn [mbind outcome_bind].
  rewrite cons_middle, app_assoc. destruct (reaches y C) eqn:Hr.
  { apply IH; [done|]. by apply examined_skip. }
  rewrite blue_anticone_size_spec by done. cbn [mbind outcome_bind].
  pose proof (vo_k _ _ Hview y Hy) as Hle. fold (recorded y) in Hle. pose proof Hex as (Hn & Hnk & Hlt & _).
  pose proof (bo_k Hblocks). rewrite chk16_Ok by lia. cbn [mbind outcome_bind].
  assert (nonpast [y] = [y]) as Hny by (unfold nonpast; rewrite filter_cons_True; done).
  destruct (Z.ltb_spec k (n + 1)) as [Hlt1|Hge1].
  { do 3 eexists. split; [reflexivity|]. apply violation_app. left. rewrite nonpast_app, Hny, length_app. simpl. lia. }
  destruct (Z.eqb_spec (recorded y) k) as [Heq|Hneq].
  { do 3 eexists. split; [reflexivity|]. apply violation_app. right. exists y. rewrite nonpast_app, Hny. set_solver. }
  destruct (Z.leb_spec (recorded y) k); [|lia]. cbn [assert_ mbind outcome_bind].
  apply IH; [done|]. apply examined_cons; [done..|lia|lia].
Qed.

(** What the check says of the candidate. *)
Definition coloring_ok (out : ColoringOutput) : Prop :=
  match out with
  | OutputBlue n sizes => examined (blues_of nbd cs0) sizes n
  | OutputRed => violation (blues_of nbd cs0)
  end.

Lemma blues_of_cons d c cs : blues_of d (c :: cs) = mergeset_blues d ++ blues_of c.2 cs.
Proof. done. Qed.

Lemma check_loop_spec h d cs P sizes n fuel : chain d cs → (length cs ≤ fuel)%nat →
  blues_of nbd cs0 = P ++ blues_of d cs → examined P sizes n →
  (match h with
   | Some b => b ≠ ORIGIN ∧ ghostdag_store gd !! b = Some d
   | None => mergeset_blues d ≠ []
   end) →
  (mergeset_blues d ≠ [] → selected_parent d ≠ ORIGIN) →
  ∃ out, check_blue_candidate_loop gd fuel nbd (mkChainBlock h d) C sizes n k = Ok out ∧ coloring_ok out.
Proof.
  intros Hc. revert h P sizes n fuel. induction Hc as [d Hn0|d d' cs Hn0 Hd' Hc IH];
    intros h P sizes n fuel Hf HL Hex Hh Ho.
  - destruct h as [b|]; [|done]. destruct Hh as [Hb Hd].
    assert (b = genesis_hash gd) as ->.
    { destruct (decide (b = genesis_hash gd)) as [|E]; [done|].
      destruct (bo_view Hblocks b d Hb Hd) as (? & _ & _ & _ & Hr). destruct (Hr E) as [rest Hrest].
      by rewrite Hrest in Hn0. }
    assert (known (genesis_hash gd)) as Hg by apply Hok.
    assert (reaches (genesis_hash gd) C = true) as Hr.
    { apply (svc_reaches gd Hok _ _ Hg HC). by apply genesis_anc. }
    destruct (svc_reaches gd Hok _ _ Hg HC) as [Hsvc _].
    exists (OutputBlue n sizes). unfold coloring_ok. rewrite HL. unfold blues_of. rewrite Hn0. simpl.
    rewrite app_nil_r. split; [|done].
    destruct fuel; simpl; unfold check_blue_candidate_with_chain_block; simpl; rewrite Hsvc; simpl; by rewrite Hr.
  - specialize (Ho Hn0). rewrite blues_of_cons in HL. cbn [snd] in HL.
    assert (selected_parent d ≠ ORIGIN ∧ ghostdag_store gd !! selected_parent d = Some d') as Hsp' by done.
    assert (mergeset_blues d' ≠ [] → selected_parent d' ≠ ORIGIN) as Ho'.
    { intros Hne. destruct (bo_view Hblocks _ d' Ho Hd') as (cs' & Hv & _ & Hg & Hr).
      destruct (decide (selected_parent d = genesis_hash gd)) as [E|E]; [by rewrite Hg in Hne|].
      destruct (Hr E) as [rest Hrest]. apply (vo_known _ _ Hv). unfold blues_of. rewrite Hrest. set_solver. }
    assert (Hpeers : ∀ y, y ∈ mergeset_blues d → y ∈ blues_of nbd cs0) by (intros y Hy; rewrite HL; set_solver).
    destruct (check_peers_spec (mergeset_blues d) P sizes n Hpeers Hex) as (st & sizes' & n' & Hcp & Hst).
    cbn [length] in Hf. destruct fuel as [|fuel]; [lia|]. cbn [check_blue_candidate_loop].
    unfold check_blue_candidate_with_chain_block. cbn [cb_hash cb_data].
    assert (∃ out,
      (('(st, sz, m) ← check_peers gd nbd (mergeset_blues d) C sizes n k;
       match st with
       | StateBlue => Ok (OutputBlue m sz)
       | StateRed => Ok OutputRed
       | StatePending => d0 ← get (ghostdag_store gd) (selected_parent d);
         check_blue_candidate_loop gd fuel nbd (mkChainBlock (Some (selected_parent d)) d0) C sz m k
       end) = Ok out) ∧ coloring_ok out) as Hgo.
    { rewrite Hcp. cbn [mbind outcome_bind]. destruct st; [done| |].
      - exists OutputRed. split; [done|]. unfold coloring_ok. rewrite HL, app_assoc. by apply violation_app.
      - unfold get. rewrite Hd'. cbn [unwrap mbind outcome_bind].
        apply (IH _ (P ++ mergeset_blues d)); [lia|by rewrite HL, app_assoc|done|done|done]. }
    destruct h as [b|]; [|exact Hgo]. destruct Hh as [Hb Hd].
    assert (known b) as Hkb by (split; eauto).
    destruct (svc_reaches gd Hok b C Hkb HC) as [-> Hiff]. cbn [mbind outcome_bind].
    destruct (reaches b C) eqn:Hr; [|exact Hgo].
    exists (OutputBlue n sizes). split; [done|]. unfold coloring_ok. rewrite HL.
    destruct (bo_view Hblocks b d Hb Hd) as (cs' & Hv & Hpast & _).
    assert (cs' = (selected_parent d, d') :: cs) as ->.
    { eapply chain_unique; [apply Hv|]. by apply chain_step. }
    assert (nonpast (mergeset_blues d ++ blues_of d' cs) = []) as Hnil.
    { apply nonpast_nil. intros y Hy. destruct (Hpast y Hy) as [Hyb _].
      assert (known y) as Hyk by (by apply (vo_known _ _ Hv)).
      apply (svc_reaches gd Hok y C Hyk HC). apply anc_trans with b; [done|]. by apply Hiff. }
    unfold examined. rewrite nonpast_app, Hnil, app_nil_r. done.
Qed.

(** With fewer than [k + 1] blues merged, the check accepts the candidate or
    finds a violation; with [k + 1] it is red at once. *)
Lemma check_blue_candidate_spec :
  mergeset_blues nbd ≠ [] → selected_parent nbd ≠ ORIGIN →
  Z.of_nat (length (mergeset_blues nbd)) ≤ k + 1 →
  ∃ out, check_blue_candidate gd nbd C k = Ok out ∧
    (coloring_ok out ∧ (∀ n sizes, out = OutputBlue n sizes → Z.of_nat (length (mergeset_blues nbd)) < k + 1) ∨
     out = OutputRed ∧ Z.of_nat (length (mergeset_blues nbd)) = k + 1).
Proof.
  intros Hne Ho Hl. pose proof (bo_k Hblocks). unfold check_blue_candidate.
  rewrite chk16_Ok by lia. cbn [mbind outcome_bind]. rewrite Z.mod_small by lia.
  destruct (Z.eqb_spec (Z.of_nat (length (mergeset_blues nbd))) (k + 1)) as [E|E].
  { exists OutputRed. split; [done|]. by right. }
  destruct (check_loop_spec None nbd cs0 [] ∅ 0 (S (size (ghostdag_store gd)))) as (out & Hout & Hc).
  - apply Hview.
  - lia.
  - done.
  - unfold examined. split_and!; [done|lia|by intros y ?%elem_of_nil|]. intros y. rewrite lookup_empty.
    rewrite decide_False by (unfold nonpast; rewrite filter_nil; apply not_elem_of_nil). done.
  - done.
  - done.
  - exists out. split; [done|]. left. split; [done|]. intros. lia.
Qed.
End candidate.
End ok.
End color.
