(* ===== verification/GhostdagRun.v ===== *)
(** * Colouring the merge set

    One step of the colouring loop keeps the blue set a k-cluster with exact
    records, keeps the tickets of the blue blocks distinct, and colours a block
    red only for a reason. *)

From stdpp Require Import base list gmap sorting relations fin_sets.
From Stdlib Require Import ZArith Lia.
From S2P Require Import Prelude Tx ReachStore Reach Bytes Header Uint UintThms Target Ghostdag GhostdagOrder GhostdagMergeset GhostdagColor.

Local Open Scope Z_scope.

(** The loop of [add_blue] over the sizes. *)
Lemma add_sizes_spec (l : list (BlockHash * Z)) (m : gmap BlockHash Z) : NoDup l.*1 →
  (∀ b s, (b, s) ∈ l → 0 ≤ s + 1 < 2 ^ 16) →
  ∃ m', for_each (λ m '(blue, size), s ← chk16 (size + 1); mret (<[blue := s]> m)) l m = @Ok unit _ m' ∧
    ∀ x, m' !! x = match (list_to_map l : gmap BlockHash Z) !! x with Some s => Some (s + 1) | None => m !! x end.
Proof.
  revert m. induction l as [|[b s] l IH]; intros m Hnd Hr; [by exists m|].
  rewrite fmap_cons, NoDup_cons in Hnd. destruct Hnd as [Hb Hnd]. simpl.
  rewrite chk16_Ok by (apply (Hr b); by left). cbn [mbind outcome_bind].
  destruct (IH (<[b := s + 1]> m) Hnd) as (m' & Hm' & Hl). { intros. eapply Hr. by right. }
  exists m'. split; [exact Hm'|]. intros x. rewrite Hl. destruct (decide (x = b)) as [->|Hne].
  - rewrite not_elem_of_list_to_map_1 by done. by rewrite !lookup_insert_eq.
  - by rewrite !lookup_insert_ne by done.
Qed.

Section run.
Context {U : Type} `{!ReachabilityService U} (gd : GhostdagManager U).
Abbreviation known := (known gd).
Abbreviation anc := (anc gd).
Abbreviation reaches := (reaches gd).
Abbreviation anticone := (anticone gd).
Abbreviation anticone_size := (anticone_size gd).
Abbreviation k := (gd_k gd).
#[local] Existing Instance anticone_dec.

(** ** Counting *)

Lemma anticone_size_perm x l l' : l ≡ₚ l' → anticone_size x l = anticone_size x l'.
Proof. intros Hp. unfold GhostdagColor.anticone_size. by rewrite (filter_Permutation _ _ _ Hp). Qed.
Lemma anticone_size_cons x y l :
  anticone_size x (y :: l) = anticone_size x l + (if decide (anticone x y) then 1 else 0).
Proof.
  unfold GhostdagColor.anticone_size. rewrite filter_cons. case_decide; cbn [length]; lia.
Qed.
Lemma anticone_size_nonneg x l : 0 ≤ anticone_size x l.
Proof. unfold GhostdagColor.anticone_size. lia. Qed.

Definition k_cluster (l : list BlockHash) : Prop := ∀ x, x ∈ l → anticone_size x l ≤ k.

Lemma not_k_cluster_mono r y l : ~ k_cluster (r :: l) → ~ k_cluster (r :: y :: l).
Proof.
  intros H Hc. apply H. intros x Hx. etrans; [|apply (Hc x)].
  - rewrite !anticone_size_cons. case_decide; case_decide; lia.
  - set_solver.
Qed.
Lemma k_cluster_perm l l' : l ≡ₚ l' → k_cluster l → k_cluster l'.
Proof. intros Hp H x Hx. rewrite <- (anticone_size_perm x _ _ Hp). apply H. by rewrite Hp. Qed.

(** ** Views only depend on three fields *)

Definition same_view (d d' : GhostdagData) : Prop :=
  selected_parent d = selected_parent d' ∧ mergeset_blues d = mergeset_blues d' ∧
  blues_anticone_sizes d = blues_anticone_sizes d'.

Lemma same_view_chain d d' cs : same_view d d' → chain gd d cs → chain gd d' cs.
Proof.
  intros (Hs & Hb & _) H. inversion H; subst.
  - apply chain_genesis. congruence.
  - rewrite Hs. apply chain_step; congruence.
Qed.
Lemma same_view_recorded d d' x s : same_view d d' → recorded_size gd d x s → recorded_size gd d' x s.
Proof.
  intros (Hs & Hb & Hm) H. inversion H as [|? d'' ? ? H1 H2 H3 H4 H5 H6]; subst.
  - apply recorded_here. congruence.
  - apply recorded_below with d''; congruence.
Qed.
Lemma same_view_ok d d' cs : same_view d d' → view_ok gd d cs → view_ok gd d' cs.
Proof.
  intros Hv [Hc Hn Hk Hs Hl]. assert (blues_of d' cs = blues_of d cs) as E.
  { unfold blues_of. destruct Hv as (_ & -> & _). done. }
  split; rewrite ?E; try done; [by eapply same_view_chain|].
  intros x Hx. eapply same_view_recorded; [done|by apply Hs].
Qed.

Section ok.
Hypothesis Hok : stores_ok gd.
Hypothesis Hblocks : blocks_ok gd.

(** ** The start: the selected parent alone *)

Lemma start_view sp dsp : known sp → ghostdag_store gd !! sp = Some dsp →
  ∃ d cs, new_with_selected_parent sp k = Ok d ∧ selected_parent d = sp ∧ mergeset_blues d = [sp] ∧
    mergeset_reds d = [] ∧ view_ok gd d ((sp, dsp) :: cs) ∧
    (S (length cs) ≤ size (ghostdag_store gd))%nat ∧ chain gd dsp cs ∧
    ∀ x, x ∈ blues_of dsp cs → anc x sp.
Proof.
  intros Hk Hd. pose proof (bo_k _ Hblocks). destruct Hk as [Ho Hs].
  destruct (bo_view _ Hblocks sp dsp Ho Hd) as (cs & Hv & Hpast & Hg & Hrest).
  unfold new_with_selected_parent. rewrite chk16_Ok by lia. cbn [mbind outcome_bind].
  do 2 eexists. split; [reflexivity|]. cbn [selected_parent mergeset_blues mergeset_reds].
  split_and!; try done; cycle 1.
  { apply (chain_length gd Hok Hblocks (mkGhostdagData 0 0 0 0 sp [sp] [] ∅) dsp cs); [done|done|apply Hv]. }
  { apply Hv. }
  { intros x Hx. by apply Hpast. }
  set (d := mkGhostdagData _ _ _ _ _ _ _ _). destruct Hv as [Hc Hnd Hkn Hsz Hkk].
  set (L := blues_of dsp cs) in *.
  assert (blues_of d ((sp, dsp) :: cs) = sp :: L) as E by done.
  assert (∀ x, x ∈ L → ¬ anticone x sp ∧ ¬ anticone sp x ∧ x ≠ sp) as Hna.
  { intros x Hx. destruct (Hpast x Hx) as [Ha Hne]. assert (known x) as Hkx by (by apply Hkn).
    assert (reaches x sp = true) as Hr by (by apply (svc_reaches gd Hok x sp Hkx (conj Ho Hs))).
    split_and!; [intros [? ?]; congruence|intros [? ?]; congruence|done]. }
  assert (reaches sp sp = true) as Hss by (apply (svc_reaches gd Hok sp sp); [done..|apply anc_refl]).
  assert (∀ x, x ∈ L → anticone_size x (sp :: L) = anticone_size x L) as Hcx.
  { intros x Hx. rewrite anticone_size_cons, decide_False by (by apply Hna). lia. }
  assert (anticone_size sp (sp :: L) = 0) as Hcs.
  { rewrite anticone_size_cons, decide_False by (intros [? ?]; congruence).
    unfold GhostdagColor.anticone_size. assert (filter (anticone sp) L = []) as ->; [|done].
    destruct (filter (anticone sp) L) as [|y l'] eqn:F; [done|].
    assert (y ∈ filter (anticone sp) L) as [Hy Hyl]%list_elem_of_filter by (rewrite F; by left).
    by destruct (Hna y Hyl) as (_ & ? & _). }
  split; rewrite ?E.
  - by apply (chain_step gd d).
  - constructor; [|done]. intros Hin. by destruct (Hna _ Hin) as (_ & _ & ?).
  - intros x [->|Hx]%elem_of_cons; [done|by apply Hkn].
  - intros x [->|Hx]%elem_of_cons.
    + rewrite Hcs. apply recorded_here. simpl. apply lookup_insert_eq.
    + rewrite Hcx by done. destruct (Hna x Hx) as (_ & _ & Hne).
      apply recorded_below with dsp; simpl; [by rewrite lookup_insert_ne|done| |done|done|by apply Hsz].
      intros ->. unfold L, blues_of in Hx. rewrite Hg in Hx by done.
      inversion Hc; [subst; simpl in Hx; by apply elem_of_nil in Hx|].
      rewrite Hg in * by done. done.
  - intros x [->|Hx]%elem_of_cons; [rewrite Hcs; lia|]. rewrite Hcx by done. by apply Hkk.
Qed.

(** ** Adding a blue block *)

Section step.
Context (nbd : GhostdagData) (cs : list (BlockHash * GhostdagData)) (C : BlockHash).
Hypothesis Hview : view_ok gd nbd cs.
Hypothesis Hne : mergeset_blues nbd ≠ [].
Hypothesis HC : known C.
Hypothesis Hfresh : C ∉ blues_of nbd cs.
Hypothesis Htopo : ∀ y, y ∈ blues_of nbd cs → ~ anc C y.
Let L := blues_of nbd cs.

Lemma topo_reaches y : y ∈ L → reaches C y = false.
Proof.
  intros Hy. assert (known y) by (by apply (vo_known _ _ _ Hview)). apply (reaches_false gd Hok); [done..|].
  by apply Htopo.
Qed.

(** The anticone of the candidate is what is not in its past. *)
Lemma nonpast_anticone y : y ∈ nonpast gd C L ↔ y ∈ L ∧ anticone y C.
Proof.
  unfold nonpast, GhostdagColor.anticone. rewrite list_elem_of_filter. split.
  - intros [? ?]. split_and!; [done|done|by apply topo_reaches].
  - intros (? & ? & _). done.
Qed.
Lemma anticone_size_candidate : anticone_size C L = Z.of_nat (length (nonpast gd C L)).
Proof.
  unfold GhostdagColor.anticone_size, nonpast. f_equal. f_equal. apply list_filter_ext_in. intros y Hy.
  unfold GhostdagColor.anticone. pose proof (topo_reaches y Hy). naive_solver.
Qed.
Lemma anticone_self : ¬ anticone C C.
Proof.
  intros [H _]. apply (reaches_false gd Hok C C HC HC) in H. apply H, anc_refl.
Qed.

Lemma anticone_size_joined y : y ∈ L →
  anticone_size y (C :: L) = anticone_size y L + (if decide (y ∈ nonpast gd C L) then 1 else 0).
Proof.
  intros Hy. rewrite anticone_size_cons. apply Z.add_cancel_l. pose proof (nonpast_anticone y).
  destruct (decide (anticone y C)), (decide (y ∈ nonpast gd C L)); tauto.
Qed.
Lemma anticone_size_joined_candidate : anticone_size C (C :: L) = Z.of_nat (length (nonpast gd C L)).
Proof.
  rewrite anticone_size_cons, decide_False by apply anticone_self. rewrite anticone_size_candidate. lia.
Qed.

Lemma violation_not_k_cluster : violation gd nbd cs C L → ~ k_cluster (C :: L).
Proof.
  intros [Hk|(y & Hy & Hk)] Hc.
  - specialize (Hc C ltac:(by left)). rewrite anticone_size_joined_candidate in Hc. lia.
  - pose proof (proj1 (nonpast_anticone y) Hy) as [HyL _]. specialize (Hc y ltac:(by right)).
    rewrite anticone_size_joined, decide_True in Hc by done. unfold recorded in Hk. fold L in Hk. lia.
Qed.

Lemma add_blue_spec n sizes : examined gd nbd cs C L sizes n →
  ∃ d, add_blue nbd C n sizes = Ok d ∧ view_ok gd d cs ∧ blues_of d cs ≡ₚ C :: L ∧
    selected_parent d = selected_parent nbd ∧ mergeset_blues d = mergeset_blues nbd ++ [C] ∧
    mergeset_reds d = mergeset_reds nbd.
Proof.
  intros (Hn & Hnk & Hlt & Hsz). pose proof (bo_k _ Hblocks) as Hk16.
  assert (∀ y, sizes !! y = if decide (y ∈ nonpast gd C L) then Some (anticone_size y L) else None) as Hsz' by apply Hsz.
  unfold add_blue.
  destruct (add_sizes_spec (map_to_list sizes) (<[C := n]> (blues_anticone_sizes nbd))) as (m & -> & Hm).
  { apply NoDup_fst_map_to_list. }
  { intros b s Hbs%elem_of_map_to_list. rewrite Hsz' in Hbs. case_decide as Hb; [|done]. simplify_eq.
    specialize (Hlt b Hb). unfold recorded in Hlt. fold L in Hlt. pose proof (anticone_size_nonneg b L). lia. }
  cbn [mbind outcome_bind]. rewrite list_to_map_to_list in Hm.
  eexists. split; [reflexivity|]. set (d := mkGhostdagData _ _ _ _ _ _ _ _).
  assert (blues_of d cs ≡ₚ C :: L) as Hperm.
  { unfold L, blues_of, d. simpl. rewrite <- app_assoc. simpl. by rewrite Permutation_middle. }
  split; [|done].
  destruct Hview as [Hc Hnd Hkn Hrs Hkk]. fold L in Hnd, Hkn, Hrs, Hkk.
  assert (C ∉ nonpast gd C L) as HCn by (intros [? _]%nonpast_anticone; done).
  split.
  - inversion Hc; subst; [done|]. apply (chain_step gd d); try done.
    unfold d. simpl. by destruct (mergeset_blues nbd).
  - rewrite Hperm. by constructor.
  - intros x. rewrite Hperm. intros [->|Hx]%elem_of_cons; auto.
  - intros x. rewrite (anticone_size_perm x _ _ Hperm), Hperm. intros [->|Hx]%elem_of_cons.
    + rewrite anticone_size_joined_candidate. apply recorded_here. unfold d. simpl. rewrite Hm, Hsz'.
      rewrite decide_False by done. rewrite lookup_insert_eq. by rewrite Hn.
    + rewrite anticone_size_joined by done. assert (x ≠ C) as HxC by (intros ->; done).
      pose proof (Hm x) as Hmx. rewrite Hsz' in Hmx. case_decide as Hx1.
      { apply recorded_here. exact Hmx. }
      rewrite lookup_insert_ne in Hmx by done. rewrite Z.add_0_r.
      destruct (Hrs x Hx) as [? ? ? Hh|? d' ? ? H1 H2 H3 H4 H5 H6].
      * apply recorded_here. unfold d. simpl. by rewrite Hmx.
      * apply recorded_below with d'; try done; unfold d; simpl; [by rewrite Hmx|].
        by destruct (mergeset_blues d0).
  - intros x. rewrite (anticone_size_perm x _ _ Hperm), Hperm. intros [->|Hx]%elem_of_cons.
    + rewrite anticone_size_joined_candidate. lia.
    + rewrite anticone_size_joined by done. specialize (Hkk x Hx). case_decide as Hx1; [|lia].
      specialize (Hlt x Hx1). unfold recorded in Hlt. fold L in Hlt. lia.
Qed.
End step.
End ok.
End run.

(** ** The colouring loop

    The invariant of the loop of [ghostdag] over the ordered merge set, and
    the work it adds. *)

Lemma sublist_snoc_l {A} (l dn : list A) c : l `sublist_of` dn → l `sublist_of` (dn ++ [c]).
Proof. intros H. rewrite <- (app_nil_r l). apply sublist_app; [done|apply sublist_nil_l]. Qed.
Lemma sublist_snoc_both {A} (l dn : list A) c : l `sublist_of` dn → (l ++ [c]) `sublist_of` (dn ++ [c]).
Proof. intros H. by apply sublist_app. Qed.

Lemma nullifier_insert_spec (s : NullifierSet) nf daa s' fresh : nullifier_insert s nf daa = (s', fresh) →
  if fresh then nf ∉ dom s ∧ nf ∈ dom s' ∧ dom s ⊆ dom s' ∧ (∀ t, t ∈ dom s' → t ∈ dom s ∨ t = nf) else nf ∈ dom s ∧ s' = s.
Proof.
  unfold nullifier_insert. unfold NullifierSet in *. destruct (s !! nf) as [x|] eqn:E; intros Heq; simplify_eq.
  - split; [|done]. apply elem_of_dom. eauto.
  - rewrite dom_insert_L. split; [by apply not_elem_of_dom|]. set_solver.
Qed.

Section loop.
Context {U : Type} `{!ReachabilityService U} (gd : GhostdagManager U).
Abbreviation known := (known gd).
Abbreviation anc := (anc gd).
Abbreviation k := (gd_k gd).
Hypothesis Hok : stores_ok gd.
Hypothesis Hblocks : blocks_ok gd.

(** Every block has a header with a target that is not zero. *)
Definition headers_ok : Prop := ∀ b, known b →
  ∃ h, headers_store gd !! b = Some h ∧ 0 ≤ hdr_bits h ∧ uval (from_compact_target_bits (hdr_bits h)) ≠ 0.
Hypothesis Hheaders : headers_ok.

(** The ticket of a block on the replica lane. *)
Definition ticket (b : BlockHash) : option Z :=
  h ← headers_store gd !! b;
  if hdr_pow_algo_id h =? POW_ALGO_ID_PALW_REPLICA then Some (hdr_palw_ticket_nullifier h) else None.

Lemma palw_ticket_of_spec b : known b →
  ∃ o, palw_ticket_of gd b = Ok o ∧ fst <$> o = ticket b.
Proof.
  intros Hb. destruct (Hheaders b Hb) as (h & Hh & _). unfold palw_ticket_of, ticket, get. rewrite Hh.
  cbn [unwrap mbind outcome_bind option_bind]. eexists. split; [reflexivity|]. by case_match.
Qed.

Context (sp : BlockHash) (dsp : GhostdagData) (cs : list (BlockHash * GhostdagData)).
Context (O : list BlockHash) (act : bool) (seed : NullifierSet).
Hypothesis HO_nodup : NoDup O.
Hypothesis HO_known : ∀ x, x ∈ O → known x.
Hypothesis HO_sp : ∀ x, x ∈ O → ~ anc x sp.
Hypothesis HO_sorted : StronglySorted (λ a b, ~ anc b a) O.
Hypothesis Hpast : ∀ x, x ∈ blues_of dsp cs → anc x sp.
Hypothesis Hlen : (S (length cs) ≤ size (ghostdag_store gd))%nat.
Hypothesis Hsp : sp ≠ ORIGIN.
Let cs' : list (BlockHash * GhostdagData) := (sp, dsp) :: cs.

(** Why a block is red: it would break the k-cluster, the merge set has its
    [k + 1] blues, or its ticket has been used. *)
Definition red_reason (d : GhostdagData) (nulls : NullifierSet) (r : BlockHash) : Prop :=
  ~ k_cluster gd (r :: blues_of d cs') ∨ Z.of_nat (length (mergeset_blues d)) = k + 1 ∨
  act = true ∧ ∃ t, ticket r = Some t ∧ t ∈ dom nulls.

Record tickets_ok (d : GhostdagData) (nulls : NullifierSet) : Prop := {
  to_nodup : NoDup (omap ticket (mergeset_blues d));
  to_seen : ∀ x t, x ∈ mergeset_blues d → ticket x = Some t → t ∈ dom nulls;
  to_seed : dom seed ⊆ dom nulls;
  to_fresh : ∀ x t, x ∈ drop 1 (mergeset_blues d) → ticket x = Some t → t ∉ dom seed;
  to_only : ∀ t, t ∈ dom nulls → t ∈ dom seed ∨ ∃ x, x ∈ mergeset_blues d ∧ ticket x = Some t;
}.

Record loop_inv (todo : list BlockHash) (st : GhostdagData * NullifierSet) : Prop := {
  li_done : ∃ done bl, O = done ++ todo ∧ mergeset_blues st.1 = sp :: bl ∧
    bl ++ mergeset_reds st.1 ≡ₚ done ∧ bl `sublist_of` done ∧ mergeset_reds st.1 `sublist_of` done;
  li_sp : selected_parent st.1 = sp;
  li_view : view_ok gd st.1 cs';
  li_len : Z.of_nat (length (mergeset_blues st.1)) ≤ k + 1;
  li_reds : ∀ r, r ∈ mergeset_reds st.1 → red_reason st.1 st.2 r;
  li_tickets : act = true → tickets_ok st.1 st.2;
}.

Lemma candidate_facts c todo st : loop_inv (c :: todo) st →
  known c ∧ c ∉ blues_of st.1 cs' ∧ (∀ y, y ∈ blues_of st.1 cs' → ~ anc c y).
Proof.
  intros [(dn & bl & HO & Hbl & Hperm & Hs1 & Hs2) _ _ _ _ _].
  assert (c ∈ O) as Hc by (rewrite HO; set_solver).
  assert (∀ y, y ∈ blues_of st.1 cs' → y = sp ∨ y ∈ dn ∨ anc y sp) as Hcase.
  { intros y. unfold cs'. rewrite blues_of_cons, Hbl. cbn [snd app].
    intros [->|[Hy|Hy]%elem_of_app]%elem_of_cons; [by left| |right; right; by apply Hpast].
    right. left. rewrite <- Hperm. set_solver. }
  assert (∀ y, y ∈ dn → ~ anc c y) as Hdn.
  { intros y Hy. rewrite HO in HO_sorted.
    apply (StronglySorted_app_1_elem_of _ dn (c :: todo) y c HO_sorted Hy). by left. }
  split_and!; [by apply HO_known| |].
  - intros Hin. destruct (Hcase c Hin) as [->|[Hd|Ha]].
    + apply (HO_sp _ Hc), anc_refl.
    + rewrite HO in HO_nodup. apply NoDup_app in HO_nodup as (_ & Hdis & _). apply (Hdis c Hd). by left.
    + by apply (HO_sp c).
  - intros y Hin Ha. destruct (Hcase y Hin) as [->|[Hd|Hy]].
    + by apply (HO_sp c).
    + by apply (Hdn y).
    + apply (HO_sp c Hc). by apply anc_trans with y.
Qed.

Lemma add_red_inv c todo d nulls : loop_inv (c :: todo) (d, nulls) → red_reason d nulls c →
  loop_inv todo (add_red d c, nulls).
Proof.
  intros [(dn & bl & HO & Hbl & Hperm & Hs1 & Hs2) Hspd Hv Hl Hr Ht] Hc. cbn [fst snd] in *.
  assert (same_view d (add_red d c)) as Hsame by done.
  split; cbn [fst snd]; [|done|by eapply same_view_ok|done| |].
  - exists (dn ++ [c]), bl. split_and!; [by rewrite <- app_assoc|done| |by apply sublist_snoc_l|by apply sublist_snoc_both].
    simpl. by rewrite app_assoc, Hperm.
  - simpl. intros r [Hr'| ->%list_elem_of_singleton]%elem_of_app; [by apply Hr|done].
  - intros Ha. destruct (Ht Ha) as [H1 H2 H3 H4 H5]. by split.
Qed.

Lemma add_blue_inv c todo d nulls nulls' n sizes : loop_inv (c :: todo) (d, nulls) →
  examined gd d cs' c (blues_of d cs') sizes n → Z.of_nat (length (mergeset_blues d)) < k + 1 →
  dom nulls ⊆ dom nulls' →
  (∀ t, t ∈ dom nulls' → t ∈ dom nulls ∨ ticket c = Some t) →
  (act = true → ∀ t, ticket c = Some t → t ∈ dom nulls' ∧ t ∉ dom nulls) →
  ∃ d', add_blue d c n sizes = Ok d' ∧ loop_inv todo (d', nulls').
Proof.
  intros Hinv Hex Hlt Hdom Honly Htc. destruct (candidate_facts _ _ _ Hinv) as (Hkc & Hfresh & Htopo).
  destruct Hinv as [(dn & bl & HO & Hbl & Hperm & Hs1 & Hs2) Hspd Hv Hl Hr Ht]. cbn [fst snd] in *.
  destruct (add_blue_spec gd Hok Hblocks d cs' c Hv) with (n := n) (sizes := sizes)
    as (d' & Hd' & Hv' & Hp & Hsp' & Hb' & Hr'); [by rewrite Hbl|done..|].
  exists d'. split; [done|]. split; cbn [fst snd]; rewrite ?Hb', ?Hr', ?Hsp'; [|done|done| | |].
  - exists (dn ++ [c]), (bl ++ [c]). split_and!; [by rewrite <- app_assoc|by rewrite Hbl| |
      by apply sublist_snoc_both|by apply sublist_snoc_l].
    rewrite <- app_assoc, <- Hperm. rewrite <- app_assoc. apply Permutation_app_head. by rewrite Permutation_app_comm.
  - rewrite length_app. simpl. lia.
  - intros r Hrr. destruct (Hr r Hrr) as [Hk|[Hk|(Ha & t & Htr & Hin)]].
    + left. intros Hc. apply (not_k_cluster_mono gd r c _ Hk). eapply k_cluster_perm; [|exact Hc]. by rewrite Hp.
    + lia.
    + right. right. split; [done|]. exists t. split; [done|]. by apply Hdom.
  - intros Ha. specialize (Htc Ha). destruct (Ht Ha) as [H1 H2 H3 H4 H5]. split; rewrite ?Hb'.
    + rewrite omap_app. destruct (ticket c) as [t|] eqn:E; [|simpl; rewrite E; by rewrite app_nil_r].
      destruct (Htc t eq_refl) as [_ Hn]. simpl. rewrite E. apply NoDup_app. split_and!; [done| |apply NoDup_singleton].
      intros t' Ht' ->%list_elem_of_singleton. apply list_elem_of_omap in Ht' as (x & Hx & Hxt). apply Hn. by eapply H2.
    + intros x t [Hx| ->%list_elem_of_singleton]%elem_of_app Hxt; [apply Hdom; by eapply H2|by apply Htc].
    + set_solver.
    + intros x t. rewrite Hbl. simpl. rewrite Hbl in H4. simpl in H4. rewrite drop_0 in *.
      intros [Hx| ->%list_elem_of_singleton]%elem_of_app Hxt; [by eapply H4|].
      destruct (Htc t Hxt) as [_ Hn]. intros Hin. apply Hn. by apply H3.
    + intros t Ht'. destruct (Honly t Ht') as [Hin|Hct]; [|right; exists c; split; [set_solver|done]].
      destruct (H5 t Hin) as [?|(x & Hx & Hxt)]; [by left|right]. exists x. split; [set_solver|done].
Qed.

Lemma color_candidate_spec c todo st : loop_inv (c :: todo) st →
  ∃ st', color_candidate gd act st c = Ok st' ∧ loop_inv todo st'.
Proof.
  intros Hinv. pose proof Hinv as [(dn & bl & _ & Hbl & _) Hspd Hv Hl _ _].
  destruct (candidate_facts _ _ _ Hinv) as (Hkc & Hfresh & Htopo). destruct st as [d nulls]. cbn [fst snd] in *.
  destruct (check_blue_candidate_spec gd Hok Hblocks d cs' c Hv) as (out & Hout & Hcase);
    [simpl; lia|done|by rewrite Hbl|congruence|done|].
  unfold color_candidate. rewrite Hout. cbn [mbind outcome_bind].
  destruct Hcase as [[Hc Hlt]|[-> Hk]].
  2: { eexists. split; [reflexivity|]. apply add_red_inv; [done|]. right. by left. }
  destruct out as [n sizes|].
  2: { eexists. split; [reflexivity|]. apply add_red_inv; [done|]. left.
       by eapply violation_not_k_cluster. }
  specialize (Hlt _ _ eq_refl). unfold coloring_ok in Hc. destruct act eqn:Eact.
  2: { cbn [mbind outcome_bind mret outcome_ret].
       destruct (add_blue_inv c todo d nulls nulls n sizes) as (d' & -> & Hd'); [done|done|done|done|by left|intros; congruence|].
       eexists. split; [reflexivity|done]. }
  destruct (palw_ticket_of_spec c Hkc) as (o & -> & Ho). cbn [mbind outcome_bind].
  destruct o as [[nf daa]|]; simpl in Ho.
  - destruct (nullifier_insert nulls nf daa) as [nulls' fresh] eqn:En. apply nullifier_insert_spec in En.
    destruct fresh.
    + destruct (add_blue_inv c todo d nulls nulls' n sizes) as (d' & -> & Hd'); [done|done|done|by apply En| | |].
      { intros t Ht. destruct En as (_ & _ & _ & Hor). destruct (Hor t Ht) as [?| ->]; [by left|by right]. }
      { intros _ t Hct. rewrite <- Ho in Hct. simplify_eq. destruct En as (? & ? & ? & ?). done. }
      eexists. split; [reflexivity|done].
    + destruct En as [Hin ->]. eexists. split; [reflexivity|]. apply add_red_inv; [done|]. right. right.
      split; [done|]. exists nf. done.
  - destruct (add_blue_inv c todo d nulls nulls n sizes) as (d' & -> & Hd'); [done|done|done|done|by left| |].
    { intros _ t Hct. congruence. }
    eexists. split; [reflexivity|done].
Qed.

Lemma color_loop_spec st : loop_inv O st →
  ∃ st', for_each (color_candidate gd act) O st = Ok st' ∧ loop_inv [] st'.
Proof. intros H. apply (for_each_ind _ loop_inv); [done|]. intros c l s. apply color_candidate_spec. Qed.
End loop.
