(* ===== verification/GhostdagWork.v ===== *)
(** * The work of a block

    The two work components that [ghostdag] accumulates: no sum wraps, the
    compute component stays within its cap, and the effective work grows
    strictly when the selected parent is on the hash lane. *)

From stdpp Require Import base list gmap sorting relations fin_sets.
From Stdlib Require Import ZArith Lia.
From S2P Require Import Prelude Tx ReachStore Reach Bytes Header Uint UintThms Target Ghostdag GhostdagOrder GhostdagMergeset GhostdagColor GhostdagRun.

Local Open Scope Z_scope.

Lemma work_of_spec bits : 0 ≤ bits → uval (from_compact_target_bits bits) ≠ 0 →
  ∃ w, work_of bits = Ok w ∧ 0 < w ≤ 2 ^ 256.
Proof.
  intros Hb H0. destruct (calc_work_spec bits Hb) as (w & Hw & _ & Hv). unfold work_of. rewrite Hw.
  exists (uval w). split; [done|]. destruct (Z.eqb_spec (uval (from_compact_target_bits bits)) 0); [done|].
  destruct Hv as [-> Hpos]. split; [done|]. destruct (from_compact_wf bits Hb) as [Hwf _].
  destruct (uval_bound _ _ Hwf). apply Z.div_le_upper_bound; lia.
Qed.

Lemma work_add_small a b : 0 ≤ a → 0 ≤ b → a + b < WORK_MOD → work_add a b = a + b.
Proof. intros. unfold work_add. apply Z.mod_small. lia. Qed.

Lemma foldl_work_add l a : 0 ≤ a → Forall (λ z, 0 ≤ z) l → a + sumZ l < WORK_MOD →
  foldl work_add a l = a + sumZ l.
Proof.
  intros Ha Hl. revert a Ha. induction Hl as [|b l Hb Hl IH]; intros a Ha Hs; simpl.
  { unfold sumZ. simpl. lia. }
  rewrite sumZ_cons in Hs |- *. pose proof (sumZ_nonneg _ Hl).
  rewrite work_add_small by lia. rewrite IH by lia. lia.
Qed.
Lemma work_sum_small l : Forall (λ z, 0 ≤ z) l → sumZ l < WORK_MOD → work_sum l = sumZ l.
Proof.
  intros Hl Hs. destruct Hl as [|a l Ha Hl]; [done|]. simpl. rewrite foldl_work_add; [by rewrite sumZ_cons|done..].
Qed.

(** The cap never saturates on works a node can accumulate. *)
Definition WORK_BOUND : Z := 2 ^ 321.

Lemma effective_small h c : 0 ≤ h ≤ WORK_BOUND → 0 ≤ c →
  capped_compute_work c h COMPUTE_TO_HASH_CAP = Z.min c (4 * h) ∧
  effective_blue_work h c COMPUTE_TO_HASH_CAP = h + Z.min c (4 * h).
Proof.
  unfold effective_blue_work, capped_compute_work, compute_work_cap, COMPUTE_TO_HASH_CAP, WORK_BOUND, WORK_MAX, WORK_MOD.
  intros Hh Hc. destruct (Z.leb_spec (2 ^ 576) (h * 4)); lia.
Qed.

Section work.
Context {U : Type} `{!ReachabilityService U} (gd : GhostdagManager U).
Abbreviation known := (known gd).
Hypothesis Hheaders : headers_ok gd.
Hypothesis Hlevel : 0 ≤ gd_level_work gd ≤ 2 ^ 256.
Hypothesis Hscale : is_u64 (palw_compute_work_scale gd).

(** A block on the replica lane. *)
Definition on_replica_lane (b : BlockHash) : bool :=
  match headers_store gd !! b with
  | Some h => hdr_pow_algo_id h =? POW_ALGO_ID_PALW_REPLICA
  | None => false
  end.

Lemma hash_work_of_spec b : known b → ∃ w, hash_work_of gd b = Ok w ∧ 0 < w ≤ 2 ^ 256.
Proof.
  intros Hb. destruct (Hheaders b Hb) as (h & Hh & Hbits & Ht). destruct (work_of_spec _ Hbits Ht) as (w & Hw & Hr).
  unfold hash_work_of, get. rewrite Hh. cbn [unwrap mbind outcome_bind]. rewrite Hw. cbn [mbind outcome_bind].
  exists (Z.max w (gd_level_work gd)). split; [done|lia].
Qed.

Lemma hash_works_spec blues : (∀ b, b ∈ blues → known b) →
  ∃ ws, mapM (hash_work_of gd) blues = Ok ws ∧ Forall (λ w, 0 < w ≤ 2 ^ 256) ws ∧ length ws = length blues.
Proof.
  induction blues as [|b blues IH]; intros Hk; [by exists []|].
  destruct (hash_work_of_spec b) as (w & Hw & Hr); [apply Hk; by left|].
  destruct IH as (ws & Hws & Hall & Hl); [intros; apply Hk; by right|].
  exists (w :: ws). simpl. rewrite Hw. simpl. rewrite Hws. simpl. split; [done|]. split; [by constructor|lia].
Qed.

Lemma sumZ_bounds ws (B : Z) : Forall (λ w, 0 < w ≤ B) ws →
  0 ≤ sumZ ws ≤ B * Z.of_nat (length ws) ∧ (ws ≠ [] → 0 < sumZ ws).
Proof.
  induction 1 as [|w ws Hw Hws IH]; [split; [unfold sumZ; simpl; lia|done]|]. rewrite sumZ_cons. cbn [length].
  rewrite Nat2Z.inj_succ. split; [lia|]. intros _. lia.
Qed.

(** One lane step, with [i] blocks accumulated. *)
Lemma add_lane_work_spec b i h c : known b → 0 ≤ i < 2 ^ 16 → 0 ≤ h ≤ 2 ^ 256 * i → 0 ≤ c ≤ 2 ^ 320 * i →
  ∃ h' c', add_lane_work gd (h, c) b = Ok (h', c') ∧ h ≤ h' ≤ 2 ^ 256 * (i + 1) ∧ c ≤ c' ≤ 2 ^ 320 * (i + 1) ∧
    (on_replica_lane b = false → h < h').
Proof.
  intros Hb Hi Hh Hc. destruct (Hheaders b Hb) as (hd & Hhd & Hbits & Ht).
  destruct (work_of_spec _ Hbits Ht) as (w & Hw & Hr). unfold is_u64, U64_MAX in Hscale.
  unfold add_lane_work, get, on_replica_lane. rewrite Hhd. cbn [unwrap mbind outcome_bind].
  destruct (hdr_pow_algo_id hd =? POW_ALGO_ID_PALW_REPLICA).
  - unfold normalize_palw_work. rewrite Hw. cbn [mbind outcome_bind mret outcome_ret].
    assert (0 ≤ w * palw_compute_work_scale gd ≤ 2 ^ 320) as Hwb by nia.
    destruct (Z.leb_spec WORK_MOD (w * palw_compute_work_scale gd)) as [Hbig|_]; [unfold WORK_MOD in Hbig; lia|].
    rewrite work_add_small by (unfold WORK_MOD; lia). do 2 eexists. split; [reflexivity|].
    split; [lia|]. split; [lia|done].
  - rewrite Hw. cbn [mbind outcome_bind mret outcome_ret].
    rewrite work_add_small by (unfold WORK_MOD; lia). do 2 eexists. split; [reflexivity|]. lia.
Qed.

Lemma lane_works_spec blues i h c : (∀ b, b ∈ blues → known b) → 0 ≤ i → i + Z.of_nat (length blues) ≤ 2 ^ 16 →
  0 ≤ h ≤ 2 ^ 256 * i → 0 ≤ c ≤ 2 ^ 320 * i →
  ∃ h' c', for_each (add_lane_work gd) blues (h, c) = Ok (h', c') ∧
    h ≤ h' ≤ 2 ^ 256 * (i + Z.of_nat (length blues)) ∧ c ≤ c' ≤ 2 ^ 320 * (i + Z.of_nat (length blues)) ∧
    (∀ b, b ∈ blues → on_replica_lane b = false → h < h').
Proof.
  revert i h c. induction blues as [|b blues IH]; intros i h c Hk Hi Hl Hh Hc.
  { exists h, c. simpl. split; [done|]. split; [lia|]. split; [lia|]. by intros b ?%elem_of_nil. }
  cbn [length] in *. destruct (add_lane_work_spec b i h c) as (h1 & c1 & H1 & Hh1 & Hc1 & Hlt); [apply Hk; by left|lia..|].
  destruct (IH (i + 1) h1 c1) as (h' & c' & H2 & Hh2 & Hc2 & Hlt2); [intros; apply Hk; by right|lia..|].
  exists h', c'. cbn [for_each]. rewrite H1. cbn [mbind outcome_bind]. split; [done|]. split; [lia|]. split; [lia|].
  intros x [->|Hx]%elem_of_cons Hr; [specialize (Hlt Hr); lia|]. specialize (Hlt2 x Hx Hr). lia.
Qed.

Lemma component_work_spec act sp dsp blues : ghostdag_store gd !! sp = Some dsp → sp ∈ blues →
  (∀ b, b ∈ blues → known b) → Z.of_nat (length blues) ≤ 2 ^ 16 →
  0 ≤ blue_hash_work dsp ≤ 2 ^ 320 → 0 ≤ blue_compute_work dsp ≤ 4 * blue_hash_work dsp →
  ∃ h c, component_work gd act sp blues = Ok (h, c) ∧
    blue_hash_work dsp ≤ h ≤ blue_hash_work dsp + 2 ^ 256 * Z.of_nat (length blues) ∧
    blue_compute_work dsp ≤ c ∧
    (act = false ∨ on_replica_lane sp = false → blue_hash_work dsp < h).
Proof.
  intros Hd Hsp Hk Hl Hh Hc. unfold component_work, get. destruct act.
  - destruct (lane_works_spec blues 0 0 0 Hk) as (h & c & -> & Hhb & Hcb & Hlt); [lia..|].
    cbn [mbind outcome_bind]. rewrite Hd. cbn [unwrap mbind outcome_bind mret outcome_ret].
    rewrite !work_add_small by (unfold WORK_MOD; lia). do 2 eexists. split; [reflexivity|].
    split; [lia|]. split; [lia|]. intros [|Hr]; [done|]. specialize (Hlt sp Hsp Hr). lia.
  - destruct (hash_works_spec blues Hk) as (ws & -> & Hall & Hlen). cbn [mbind outcome_bind].
    rewrite Hd. cbn [unwrap mbind outcome_bind mret outcome_ret].
    destruct (sumZ_bounds ws (2 ^ 256) Hall) as [Hs Hpos]. rewrite Hlen in Hs.
    assert (ws ≠ []) as Hne by (intros ->; destruct blues; [by apply elem_of_nil in Hsp|done]).
    specialize (Hpos Hne).
    rewrite work_sum_small; [|eapply Forall_impl; [exact Hall|simpl; lia]|unfold WORK_MOD; lia].
    rewrite work_add_small by (unfold WORK_MOD; lia). do 2 eexists. split; [reflexivity|].
    split; [lia|]. split; [lia|]. intros _. lia.
Qed.
End work.
