(* ===== verification/GhostdagThms.v ===== *)
(** * GHOSTDAG: the theorems

    What [ghostdag] returns for a new block over a store that satisfies the
    invariant of the protocol. *)

From stdpp Require Import base list gmap sorting relations fin_sets.
From Stdlib Require Import ZArith Lia.
From S2P Require Import Prelude Tx ReachStore Reach Bytes Header Uint UintThms Target Ghostdag GhostdagOrder GhostdagMergeset GhostdagColor GhostdagRun GhostdagWork.

Local Open Scope Z_scope.

Section thms.
Context {U : Type} `{!ReachabilityService U} (gd : GhostdagManager U).
Abbreviation known := (known gd).
Abbreviation anc := (anc gd).
Abbreviation k := (gd_k gd).

(** A block at or above the activation score of the replica lane. *)
Definition palw_active_block (b : BlockHash) : Prop :=
  ∃ h, headers_store gd !! b = Some h ∧ palw_activation_daa_score gd ≤ hdr_daa_score h.

(** Active blocks have a window of nullifiers. *)
Definition windows_ok : Prop := ∀ store b, palw_nullifier_store gd = Some store →
  known b → b ≠ genesis_hash gd → palw_active_block b → is_Some (store !! b).

(** The accounting of a block. *)
Definition works_ok (d : GhostdagData) : Prop :=
  is_u64 (blue_score d) ∧ 0 ≤ blue_hash_work d ≤ 2 ^ 256 * blue_score d ∧
  0 ≤ blue_compute_work d ≤ 4 * blue_hash_work d ∧ blue_work d = blue_hash_work d + blue_compute_work d.

Record manager_ok : Prop := {
  mo_stores : stores_ok gd;
  mo_blocks : blocks_ok gd;
  mo_headers : headers_ok gd;
  mo_windows : windows_ok;
  mo_works : ∀ b d, b ≠ ORIGIN → ghostdag_store gd !! b = Some d → works_ok d;
  mo_level : 0 ≤ gd_level_work gd ≤ 2 ^ 256;
  mo_scale : is_u64 (palw_compute_work_scale gd);
}.

(** The parents of a new block: known, none in the past of another, and with
    room for the blue score. *)
Record parents_ok (parents : list BlockHash) : Prop := {
  po_nonempty : parents ≠ [];
  po_known : ∀ p, p ∈ parents → known p;
  po_antichain : ∀ p q, p ∈ parents → q ∈ parents → p ≠ q → ~ anc p q;
  po_score : ∀ p d, p ∈ parents → ghostdag_store gd !! p = Some d → blue_score d + k + 1 ≤ U64_MAX;
}.

Lemma any_active_spec parents : headers_ok gd → (∀ p, p ∈ parents → known p) →
  ∃ act, any_active gd parents = Ok act ∧ (act = true ↔ ∃ p, p ∈ parents ∧ palw_active_block p).
Proof.
  intros Hh. induction parents as [|p ps IH]; intros Hk; simpl.
  { exists false. split; [done|]. split; [done|]. by intros (p & ?%elem_of_nil & _). }
  destruct (Hh p (Hk p ltac:(by left))) as (h & Hp & _). unfold get. rewrite Hp. cbn [unwrap mbind outcome_bind].
  destruct (Z.leb_spec (palw_activation_daa_score gd) (hdr_daa_score h)) as [Hle|Hgt].
  { exists true. split; [done|]. split; [|done]. intros _. exists p. split; [by left|]. by exists h. }
  destruct IH as (act & -> & Hact); [intros; apply Hk; by right|]. exists act. split; [done|]. rewrite Hact.
  split; intros (q & Hq & Ha); exists q; (split; [|done]).
  - by right.
  - apply elem_of_cons in Hq as [->|]; [|done]. destruct Ha as (h' & ? & ?). simplify_eq. lia.
Qed.

Lemma seed_nullifiers_spec sp : headers_ok gd → windows_ok → known sp →
  ∃ seed, seed_nullifiers gd sp = Ok seed ∧ ∀ t, ticket gd sp = Some t → t ∈ dom seed.
Proof.
  intros Hh Hw Hk. unfold seed_nullifiers. destruct (Hh sp Hk) as (h & Hsp & _).
  assert (∃ w, match palw_nullifier_store gd with
           | Some store =>
             sp_active ← (if bool_decide (sp = genesis_hash gd) then mret false
                          else header ← get (headers_store gd) sp;
                               mret (palw_activation_daa_score gd <=? hdr_daa_score header));
             if sp_active : bool then w ← get store sp; mret (merge_from ∅ w) else mret ∅
           | None => mret ∅
           end = @Ok unit _ w) as (w & ->).
  { destruct (palw_nullifier_store gd) as [store|] eqn:Hs; [|by eexists].
    case_bool_decide as Hg; [by eexists|]. unfold get. rewrite Hsp. cbn [unwrap mbind outcome_bind mret outcome_ret].
    destruct (Z.leb_spec (palw_activation_daa_score gd) (hdr_daa_score h)); [|by eexists].
    destruct (Hw store sp Hs Hk Hg) as [win Hwin]; [by exists h|]. rewrite Hwin. by eexists. }
  cbn [mbind outcome_bind]. destruct (palw_ticket_of_spec gd Hh sp Hk) as (o & -> & Ho). cbn [mbind outcome_bind].
  eexists. split; [reflexivity|]. intros t Ht. rewrite <- Ho in Ht. destruct o as [[nf daa]|]; [|done].
  simpl in Ht. simplify_eq. destruct (nullifier_insert w t daa) as [w' fresh] eqn:En.
  apply nullifier_insert_spec in En. cbn [fst]. destruct fresh; [by destruct En as (_ & ? & _)|]. by destruct En as [? ->].
Qed.

(** What is true of the data of a new block. *)
Record new_block_ok (parents : list BlockHash) (d : GhostdagData) : Prop := {
  nb_sp : selected_parent d ∈ parents;
  nb_sp_max : ∀ p, p ∈ parents → sortable_le (key gd p) (key gd (selected_parent d));
  nb_blues : ∃ rest, mergeset_blues d = selected_parent d :: rest;
  nb_len : Z.of_nat (length (mergeset_blues d)) ≤ k + 1;
  nb_order : ∃ O, ordered_mergeset_without_selected_parent gd (selected_parent d) parents = Ok O ∧
    NoDup O ∧ StronglySorted (λ a b, ~ anc b a) O ∧
    (∀ x, x ∈ O ↔ in_mergeset gd parents (selected_parent d) x) ∧
    data_unordered_mergeset_without_selected_parent d ≡ₚ O ∧
    drop 1 (mergeset_blues d) `sublist_of` O ∧ mergeset_reds d `sublist_of` O;
  nb_view : ∃ cs, view_ok gd d cs ∧ (∀ x, x ∈ blues_of d cs → ∃ p, p ∈ parents ∧ anc x p) ∧
    (∀ r, r ∈ mergeset_reds d → ~ k_cluster gd (r :: blues_of d cs) ∨
      Z.of_nat (length (mergeset_blues d)) = k + 1 ∨
      ∃ p t seed, p ∈ parents ∧ palw_active_block p ∧ ticket gd r = Some t ∧
        seed_nullifiers gd (selected_parent d) = Ok seed ∧
        (t ∈ dom seed ∨ ∃ b, b ∈ mergeset_blues d ∧ ticket gd b = Some t));
  nb_score : ∀ dsp, ghostdag_store gd !! selected_parent d = Some dsp →
    blue_score d = blue_score dsp + Z.of_nat (length (mergeset_blues d)) ∧
    blue_work dsp ≤ blue_work d ∧
    ((∀ p, p ∈ parents → ~ palw_active_block p) ∨ on_replica_lane gd (selected_parent d) = false →
     blue_work dsp < blue_work d);
  nb_works : works_ok d;
  nb_tickets : (∃ p, p ∈ parents ∧ palw_active_block p) →
    ∃ seed, seed_nullifiers gd (selected_parent d) = Ok seed ∧
      NoDup (omap (ticket gd) (mergeset_blues d)) ∧
      ∀ x t, x ∈ drop 1 (mergeset_blues d) → ticket gd x = Some t → t ∉ dom seed;
}.

Lemma color_start sp dsp d cs O act seed : manager_ok → known sp → ghostdag_store gd !! sp = Some dsp →
  selected_parent d = sp → mergeset_blues d = [sp] → mergeset_reds d = [] → view_ok gd d ((sp, dsp) :: cs) →
  (act = true → ∀ t, ticket gd sp = Some t → t ∈ dom seed) →
  loop_inv gd sp dsp cs O act seed O (d, seed).
Proof.
  intros Hm Hk Hd Hs Hb Hr Hv Ht. pose proof (bo_k _ (mo_blocks Hm)). split; cbn [fst snd].
  - exists [], []. rewrite Hb, Hr. split_and!; try done; apply sublist_nil_l.
  - done.
  - done.
  - rewrite Hb. simpl. lia.
  - rewrite Hr. by intros r ?%elem_of_nil.
  - intros Ha. specialize (Ht Ha). split; rewrite ?Hb; simpl.
    + destruct (ticket gd sp); [apply NoDup_singleton|constructor].
    + intros x t ->%list_elem_of_singleton. apply Ht.
    + done.
    + by intros x t ?%elem_of_nil.
    + intros t ?. by left.
Qed.

Lemma finalize_works d dsp h c (n : nat) : works_ok dsp → blue_score dsp + Z.of_nat n ≤ U64_MAX →
  blue_hash_work dsp ≤ h ≤ blue_hash_work dsp + 2 ^ 256 * Z.of_nat n → blue_compute_work dsp ≤ c →
  let d' := finalize_score_and_component_work d (blue_score dsp + Z.of_nat n) h c COMPUTE_TO_HASH_CAP in
  works_ok d' ∧ blue_work dsp ≤ blue_work d' ∧ (blue_hash_work dsp < h → blue_work dsp < blue_work d').
Proof.
  intros (Hs & Hh & Hc & Hw) Hn Hh' Hc' d'. unfold is_u64, U64_MAX in *.
  destruct (effective_small h c) as [Hcap Heff]; [unfold WORK_BOUND; lia|lia|].
  unfold d', works_ok. cbn [finalize_score_and_component_work blue_score blue_hash_work blue_compute_work blue_work].
  rewrite Hcap, Heff, Hw. unfold is_u64, U64_MAX. lia.
Qed.

(** The state of a run of [ghostdag] after the colouring loop: the selected
    parent, its data and the chain below it, the ordered merge set, whether the
    replica lane is active, the window of nullifiers it starts from, and the
    data coloured so far. *)
Record colored (parents : list BlockHash) (sp : BlockHash) (dsp : GhostdagData) (cs : list (BlockHash * GhostdagData))
    (O : list BlockHash) (act : bool) (sd : NullifierSet) (d1 : GhostdagData) (nulls : NullifierSet) : Prop := {
  cl_in : sp ∈ parents;
  cl_max : ∀ p, p ∈ parents → sortable_le (key gd p) (key gd sp);
  cl_known : known sp;
  cl_data : ghostdag_store gd !! sp = Some dsp;
  cl_past : ∀ x, x ∈ blues_of dsp cs → anc x sp;
  cl_order : ordered_mergeset_without_selected_parent gd sp parents = Ok O;
  cl_nodup : NoDup O;
  cl_mergeset : ∀ x, x ∈ O ↔ in_mergeset gd parents sp x;
  cl_sorted : StronglySorted (λ a b, ~ anc b a) O;
  cl_act : act = true ↔ ∃ p, p ∈ parents ∧ palw_active_block p;
  cl_seed : seed_nullifiers gd sp = Ok sd;
  cl_inv : loop_inv gd sp dsp cs O act (if act then sd else ∅) [] (d1, nulls);
}.

(** The run reaches that state. What follows is the accounting of the work. *)
Lemma ghostdag_run parents : manager_ok → parents_ok parents →
  ∃ sp dsp cs O act sd d1 nulls, colored parents sp dsp cs O act sd d1 nulls ∧
    ghostdag gd parents =
      (score ← add64 (blue_score dsp) (Z.of_nat (length (mergeset_blues d1)));
       '(h, c) ← component_work gd act sp (mergeset_blues d1);
       mret (finalize_score_and_component_work d1 score h c COMPUTE_TO_HASH_CAP)).
Proof.
  intros Hm [Hne Hk Hanti Hscore]. pose proof Hm as [Hok Hblocks Hheaders Hwin Hworks Hlevel Hscale].
  destruct (find_selected_parent_spec gd parents Hne Hk) as (sp & Hsp & Hspin & Hmax).
  assert (known sp) as Hksp by (by apply Hk). pose proof Hksp as [Ho [dsp Hdsp]].
  destruct (start_view gd Hok Hblocks sp dsp Hksp Hdsp) as (d0 & cs & Hd0 & Hs0 & Hb0 & Hr0 & Hv0 & Hlen & _ & Hpast).
  destruct (ordered_mergeset_spec gd Hok parents sp) as (O & HO & HOnd & HOin & HOs);
    [done|done|intros; by apply Hanti|].
  destruct (any_active_spec parents Hheaders Hk) as (act & Hact & Hactiff).
  destruct (seed_nullifiers_spec sp Hheaders Hwin Hksp) as (sd & Hsd & Hsdt).
  set (seed := if act then sd else ∅).
  assert ((if act : bool then seed_nullifiers gd sp else mret ∅) = Ok seed) as Hseed by (unfold seed; by destruct act).
  destruct (color_loop_spec gd Hok Hblocks Hheaders sp dsp cs O act seed) with (st := (d0, seed))
    as ([d1 nulls] & Hloop & Hinv); try done.
  { intros x Hx%HOin. by eapply in_mergeset_known. }
  { intros x [_ Hx]%HOin. done. }
  { apply color_start; try done. intros -> t Ht. by apply Hsdt. }
  exists sp, dsp, cs, O, act, sd, d1, nulls. split; [by split|].
  unfold ghostdag. rewrite bool_decide_eq_false_2 by done. cbn [negb assert_ mbind outcome_bind]. rewrite Hsp.
  cbn [mbind outcome_bind]. rewrite bool_decide_eq_false_2 by done. rewrite Hd0. cbn [mbind outcome_bind].
  rewrite HO. cbn [mbind outcome_bind]. rewrite Hact. cbn [mbind outcome_bind]. rewrite Hseed.
  cbn [mbind outcome_bind]. rewrite Hloop. cbn [mbind outcome_bind]. unfold get. rewrite Hdsp. done.
Qed.

(** The accounting does not fail, and its results are in order. *)
Lemma account_run parents sp dsp cs O act sd d1 nulls : manager_ok → parents_ok parents →
  colored parents sp dsp cs O act sd d1 nulls → let n := Z.of_nat (length (mergeset_blues d1)) in
  ∃ h c, let d := finalize_score_and_component_work d1 (blue_score dsp + n) h c COMPUTE_TO_HASH_CAP in
    add64 (blue_score dsp) n = @Ok unit _ (blue_score dsp + n) ∧
    component_work gd act sp (mergeset_blues d1) = Ok (h, c) ∧
    works_ok d ∧ blue_work dsp ≤ blue_work d ∧
    (act = false ∨ on_replica_lane gd sp = false → blue_work dsp < blue_work d).
Proof.
  intros Hm Hp Hc n. pose proof Hm as [Hok Hblocks Hheaders Hwin Hworks Hlevel Hscale].
  pose proof (cl_known _ _ _ _ _ _ _ _ _ Hc) as [Ho _]. pose proof (cl_data _ _ _ _ _ _ _ _ _ Hc) as Hdsp.
  destruct (cl_inv _ _ _ _ _ _ _ _ _ Hc) as [(dn & bl & _ & Hbl & _) _ Hview Hl _ _]. cbn [fst snd] in *.
  pose proof (bo_k _ Hblocks) as Hk16. pose proof (Hworks sp dsp Ho Hdsp) as Hwsp.
  pose proof (po_score _ Hp sp dsp (cl_in _ _ _ _ _ _ _ _ _ Hc) Hdsp) as Hsc.
  destruct (component_work_spec gd Hheaders Hlevel Hscale act sp dsp (mergeset_blues d1)) as (h & c & Hcw & Hh & Hc' & Hlt);
    [done|rewrite Hbl; by left| |lia| | |].
  { intros b Hb. apply (vo_known _ _ _ Hview). unfold blues_of. set_solver. }
  { destruct Hwsp as (Hs & Hh & _). unfold is_u64, U64_MAX in Hs. lia. }
  { apply Hwsp. }
  exists h, c. destruct (finalize_works d1 dsp h c (length (mergeset_blues d1)) Hwsp ltac:(lia) Hh Hc') as (? & ? & ?).
  split_and!; try done; [|by auto]. unfold add64. apply chk64_Ok. destruct Hwsp as ([? ?] & _). unfold is_u64. lia.
Qed.

(** The colouring is what the specification asks for. *)
Lemma new_block_colors parents sp dsp cs O act sd d1 nulls d :
  colored parents sp dsp cs O act sd d1 nulls → same_view d1 d → mergeset_reds d = mergeset_reds d1 →
  (∃ rest, mergeset_blues d = selected_parent d :: rest) ∧ selected_parent d = sp ∧
  data_unordered_mergeset_without_selected_parent d ≡ₚ O ∧
  drop 1 (mergeset_blues d) `sublist_of` O ∧ mergeset_reds d `sublist_of` O ∧
  view_ok gd d ((sp, dsp) :: cs) ∧ ∀ x, x ∈ blues_of d ((sp, dsp) :: cs) → ∃ p, p ∈ parents ∧ anc x p.
Proof.
  intros Hc Hsame Hr. destruct (cl_inv _ _ _ _ _ _ _ _ _ Hc) as [(dn & bl & HO & Hbl & Hperm & Hs1 & Hs2) Hsp Hview _ _ _].
  cbn [fst snd] in *. rewrite app_nil_r in HO. subst dn. pose proof Hsame as (E1 & E2 & _).
  rewrite <- E1, <- E2, Hr, Hsp, Hbl. split_and!; [eauto|done| |by rewrite skipn_cons, drop_0|done|by eapply same_view_ok|].
  - unfold data_unordered_mergeset_without_selected_parent. rewrite <- E2, Hr, Hbl. simpl. by rewrite drop_0.
  - intros x. rewrite blues_of_cons, <- E2, Hbl. cbn [snd app]. intros [->|[Hx|Hx]%elem_of_app]%elem_of_cons.
    + exists sp. split; [apply Hc|apply anc_refl].
    + assert (x ∈ O) as Hx' by (rewrite <- Hperm; set_solver). by apply (cl_mergeset _ _ _ _ _ _ _ _ _ Hc) in Hx' as [? _].
    + exists sp. split; [apply Hc|by apply (cl_past _ _ _ _ _ _ _ _ _ Hc)].
Qed.

Lemma ghostdag_spec parents : manager_ok → parents_ok parents →
  ∃ d, ghostdag gd parents = Ok d ∧ new_block_ok parents d.
Proof.
  intros Hm Hp. destruct (ghostdag_run parents Hm Hp) as (sp & dsp & cs & O & act & sd & d1 & nulls & Hc & Hrun).
  destruct (account_run _ _ _ _ _ _ _ _ _ Hm Hp Hc) as (h & c & Hadd & Hcw & Hw1 & Hw2 & Hw3).
  set (d := finalize_score_and_component_work _ _ _ _ _) in *. exists d.
  split. { rewrite Hrun, Hadd. cbn [mbind outcome_bind]. by rewrite Hcw. }
  destruct (new_block_colors _ _ _ _ _ _ _ _ _ d Hc) as (Hbl & Hsp & Hperm & Hs1 & Hs2 & Hview & Hpast); [done..|].
  destruct (cl_inv _ _ _ _ _ _ _ _ _ Hc) as [_ _ _ Hl1 Hreds1 Htick1]. cbn [fst snd] in *.
  destruct Hc as [Hin Hmax Hk Hdsp _ HO Hnd HOin Hsort Hact Hsd _].
  split; rewrite ?Hsp; try done.
  - by rewrite <- Hsp.
  - exists O. by split_and!.
  - exists ((sp, dsp) :: cs). split; [done|]. split; [done|].
    intros r Hr. destruct (Hreds1 r Hr) as [?|[?|(Ha & t & Ht & Hin')]]; [by left|right; by left|right; right].
    destruct (proj1 Hact Ha) as (p & Hp' & Hpa). exists p, t, sd. split_and!; try done.
    destruct (to_only _ _ _ _ (Htick1 Ha) t Hin') as [Hs|?]; [left|by right]. by rewrite Ha in Hs.
  - intros dsp' Hd'. assert (dsp' = dsp) as -> by congruence. split; [done|]. split; [done|].
    intros Hor. apply Hw3. destruct Hor as [Hno|]; [left|by right].
    destruct act; [|done]. destruct (proj1 Hact eq_refl) as (p & Hp' & Hpa). by destruct (Hno p Hp').
  - intros Hex. apply Hact in Hex. exists sd. split; [done|].
    destruct (Htick1 Hex) as [H1 H2 H3 H4 H5]. split; [done|]. by rewrite Hex in H4.
Qed.
End thms.

(** ** Iterating over stored merge sets

    [merge_join_by] of the blue and the red part of a merge set, both in block
    order, is the whole merge set in block order: the order in which the blocks
    were coloured is the one in which the transaction state consumes them. *)

(** Sublists of a sorted list are sorted. *)
Lemma StronglySorted_sublist {A} (R : A → A → Prop) l k : l `sublist_of` k → StronglySorted R k → StronglySorted R l.
Proof.
  induction 1 as [|x l k Hs IH|x l k Hs IH]; [done| |]; intros Hk; inversion Hk as [|? ? Hk' Hx]; subst; [|by apply IH].
  constructor; [by apply IH|]. rewrite Forall_forall in *. intros y Hy. apply Hx. by eapply elem_of_sublist.
Qed.

Section join.
Context (cmp : SortableBlock → SortableBlock → comparison).
Let le (a b : SortableBlock) : Prop := cmp a b ≠ Gt.
Context (Htrans : ∀ a b c, le a b → le b c → le a c).
Context (Hgt : ∀ a b, cmp a b = Gt → le b a).

Lemma merge_join_spec fuel l r : (length l + length r ≤ fuel)%nat →
  StronglySorted le l → StronglySorted le r → (∀ a b, a ∈ l → b ∈ r → cmp a b ≠ Eq) →
  ∃ m, merge_join fuel cmp l r = Ok m ∧ m ≡ₚ l ++ r ∧ StronglySorted le m.
Proof.
  revert l r. induction fuel as [|fuel IH]; intros l r Hf Hl Hr Hne; destruct l as [|a l], r as [|b r]; simpl in Hf; try lia.
  1,2,3: eexists; split; [done|]; by rewrite ?app_nil_r.
  { exists (a :: l). by rewrite app_nil_r. }
  inversion Hl as [|? ? Hl' Ha]; inversion Hr as [|? ? Hr' Hb]; subst. cbn [merge_join].
  rewrite Forall_forall in Ha, Hb. destruct (cmp a b) eqn:E.
  - destruct (Hne a b); [by left|by left|done].
  - destruct (IH l (b :: r)) as (m & -> & Hp & Hs); [simpl; lia|done|done|set_solver|].
    exists (a :: m). split; [done|]. split; [by rewrite Hp|]. constructor; [done|]. apply Forall_forall. intros x.
    assert (le a b) as Hab by (unfold le; by rewrite E). rewrite Hp.
    intros [Hx|[->|Hx]%elem_of_cons]%elem_of_app; [by apply Ha|done|]. eapply Htrans; [exact Hab|by apply Hb].
  - destruct (IH (a :: l) r) as (m & -> & Hp & Hs); [simpl; lia|done|done|set_solver|].
    exists (b :: m). split; [done|]. split; [rewrite Hp; apply (Permutation_middle (a :: l) r b)|]. constructor; [done|].
    apply Forall_forall. intros x. pose proof (Hgt _ _ E) as Hba. rewrite Hp.
    intros [[->|Hx]%elem_of_cons|Hx]%elem_of_app; [done| |by apply Hb]. eapply Htrans; [exact Hba|by apply Ha].
Qed.

Context (Hanti : ∀ a b, le a b → le b a → a = b).
Context (Heq : ∀ a b, cmp a b = Eq → a = b).

(** Joining two halves of a sorted list gives the list back. *)
Lemma merge_join_halves O l r : NoDup O → StronglySorted le O →
  l `sublist_of` O → r `sublist_of` O → l ++ r ≡ₚ O →
  merge_join (length l + length r) cmp l r = Ok O.
Proof.
  intros Hnd HO Hl Hr Hp. destruct (merge_join_spec (length l + length r) l r) as (m & -> & Hm & Hs).
  - done.
  - by eapply StronglySorted_sublist.
  - by eapply StronglySorted_sublist.
  - intros a b Ha Hb ->%Heq. rewrite <- Hp in Hnd. apply NoDup_app in Hnd as (_ & Hdis & _). by apply (Hdis b).
  - f_equal. eapply (StronglySorted_unique_strong le); [|done|done|by rewrite Hm]. intros ????. apply Hanti.
Qed.
End join.

Lemma StronglySorted_rev {A} (R : A → A → Prop) l : StronglySorted R l → StronglySorted (flip R) (rev l).
Proof.
  induction 1 as [|x l Hl IH Hx]; simpl; [constructor|].
  apply StronglySorted_app_2; [|done|repeat constructor]. intros a b Ha ->%list_elem_of_singleton.
  rewrite Forall_forall in Hx. apply Hx. by rewrite list_elem_of_In, <- in_rev, <- list_elem_of_In in Ha.
Qed.

Lemma sortable_cmp_eq a b : sortable_cmp a b = Eq → a = b.
Proof.
  intros E. apply sortable_le_antisymm; unfold sortable_le; [by rewrite E|]. intros E'%sortable_cmp_gt. congruence.
Qed.
Lemma sortable_cmp_gt_le a b : sortable_cmp a b = Gt → sortable_cmp b a ≠ Gt.
Proof. intros E%sortable_cmp_gt. by rewrite E. Qed.

Lemma merge_join_asc O l r : NoDup O → StronglySorted sortable_le O →
  l `sublist_of` O → r `sublist_of` O → l ++ r ≡ₚ O → merge_join (length l + length r) sortable_cmp l r = Ok O.
Proof.
  apply merge_join_halves; [apply sortable_le_trans|apply sortable_cmp_gt_le|apply sortable_le_antisymm|apply sortable_cmp_eq].
Qed.
Lemma merge_join_desc O l r : NoDup O → StronglySorted (flip sortable_le) O →
  l `sublist_of` O → r `sublist_of` O → l ++ r ≡ₚ O →
  merge_join (length l + length r) (λ a b, sortable_cmp b a) l r = Ok O.
Proof.
  apply merge_join_halves.
  - intros a b c Hab Hbc. by apply (sortable_le_trans c b a).
  - intros a b. apply sortable_cmp_gt_le.
  - intros a b Hab Hba. by apply sortable_le_antisymm.
  - intros a b E. symmetry. by apply sortable_cmp_eq.
Qed.

Section iter.
Context {U : Type} `{!ReachabilityService U} (gd : GhostdagManager U).
Abbreviation key := (key gd).

Lemma key_inj : Inj (=) (=) key.
Proof. intros a b H. by injection H. Qed.

Lemma mapM_sortable l : (∀ b, b ∈ l → known gd b) → mapM (sortable gd) l = Ok (key <$> l).
Proof. intros Hk. apply mapM_Ok. intros b Hb. apply sortable_key. by destruct (Hk b Hb). Qed.

Lemma sublist_fmap {A B} (f : A → B) l k : l `sublist_of` k → f <$> l `sublist_of` f <$> k.
Proof. induction 1; simpl; by constructor. Qed.
Lemma sublist_rev {A} (l k : list A) : l `sublist_of` k → rev l `sublist_of` rev k.
Proof. induction 1; simpl; [done|by apply sublist_app|by apply sublist_inserts_r]. Qed.

Lemma fmap_rev {A B} (f : A → B) l : f <$> rev l = rev (f <$> l).
Proof. induction l as [|x l IH]; [done|]. simpl. by rewrite fmap_app, IH. Qed.

(** Both iterators, over the data of a new block: they fall on the order of
    the colouring. *)
Lemma mergeset_iterators parents d O : manager_ok gd → parents_ok gd parents → new_block_ok gd parents d →
  ordered_mergeset_without_selected_parent gd (selected_parent d) parents = Ok O →
  ascending_mergeset_without_selected_parent gd d = Ok (key <$> O) ∧
  descending_mergeset_without_selected_parent gd d = Ok (rev (key <$> O)).
Proof.
  intros Hm Hp Hd HO. destruct (nb_order _ _ _ Hd) as (O' & HO' & Hnd & _ & Hin & Hperm & Hs1 & Hs2).
  assert (O' = O) as -> by congruence. pose proof (key_inj) as Hinj.
  assert (∀ b, b ∈ O → known gd b) as Hk.
  { intros b Hb%Hin. eapply in_mergeset_known; [apply Hm|apply Hp|done]. }
  assert (StronglySorted sortable_le (key <$> O)) as Hsort.
  { eapply StronglySorted_fmap; [|eapply ordered_mergeset_sorted; [apply Hm|apply Hp|apply Hd| |exact HO]]; [done|].
    intros p Hpin Hne. apply (po_antichain _ _ Hp); [done|apply Hd|done]. }
  assert (NoDup (key <$> O)) as Hnd' by (by apply NoDup_fmap).
  unfold data_unordered_mergeset_without_selected_parent in Hperm.
  set (bl := drop 1 (mergeset_blues d)) in *. set (rd := mergeset_reds d) in *.
  assert (∀ l, l `sublist_of` O → mapM (sortable gd) l = Ok (key <$> l) ∧ mapM (sortable gd) (rev l) = Ok (rev (key <$> l))) as Hmap.
  { intros l Hl. rewrite !mapM_sortable, <- fmap_rev; [done| |];
      intros b; rewrite ?list_elem_of_In, <- ?in_rev, <- ?list_elem_of_In; intros Hb; apply Hk; by eapply elem_of_sublist. }
  unfold ascending_mergeset_without_selected_parent, descending_mergeset_without_selected_parent. fold bl rd.
  destruct (Hmap bl Hs1) as [-> ->], (Hmap rd Hs2) as [-> ->]. cbn [mbind outcome_bind].
  split.
  - apply merge_join_asc; [done|done|by apply sublist_fmap..|by rewrite <- fmap_app, Hperm].
  - apply merge_join_desc.
    + by rewrite <- Permutation_rev.
    + by apply StronglySorted_rev.
    + by apply sublist_rev, sublist_fmap.
    + by apply sublist_rev, sublist_fmap.
    + rewrite <- !Permutation_rev. by rewrite <- fmap_app, Hperm.
Qed.
End iter.
