(* ===== verification/GhostdagInsert.v ===== *)
(** * Storing a block

    Adding a block with the data that [ghostdag] computed, its parents and its
    header to the stores preserves the invariant of the protocol, once the
    reachability service answers for the new block as well. *)

From stdpp Require Import base list gmap sorting relations fin_sets.
From Stdlib Require Import ZArith Lia.
From S2P Require Import Prelude Tx ReachStore Reach Bytes Header Uint UintThms Target Ghostdag GhostdagOrder GhostdagMergeset GhostdagColor GhostdagRun GhostdagWork GhostdagThms.

Local Open Scope Z_scope.

(** The manager over the stores with one more block. *)
Definition insert_block {U} (gd : GhostdagManager U) (new : BlockHash) (d : GhostdagData)
    (parents : list BlockHash) (h : Header) (svc : U) (ns : option (gmap BlockHash NullifierSet)) : GhostdagManager U :=
  mkManager (genesis_hash gd) (gd_k gd) (<[new := d]> (ghostdag_store gd)) (<[new := parents]> (relations_store gd))
    (<[new := h]> (headers_store gd)) svc (gd_level_work gd) (palw_activation_daa_score gd)
    (palw_compute_work_scale gd) ns.

Section insert.
Context {U : Type} `{!ReachabilityService U} (gd : GhostdagManager U).
Context (new : BlockHash) (parents : list BlockHash) (d : GhostdagData) (h : Header) (svc : U).
Context (ns : option (gmap BlockHash NullifierSet)).
Hypothesis Hm : manager_ok gd.
Hypothesis Hparents : parents_ok gd parents.
Hypothesis Hd : new_block_ok gd parents d.
Hypothesis Hfresh : ghostdag_store gd !! new = None.
Hypothesis Hfresh_rel : relations_store gd !! new = None.
Hypothesis Hnew : new ≠ ORIGIN.
Let gd' := insert_block gd new d parents h svc ns.

Lemma new_not_known : ~ known gd new.
Proof. intros [_ [x Hx]]. congruence. Qed.
Lemma known_ne b : known gd b → b ≠ new.
Proof. intros Hb ->. by apply new_not_known. Qed.

Lemma known_insert b : known gd' b ↔ b = new ∨ known gd b.
Proof.
  unfold known, gd', insert_block. cbn [ghostdag_store]. destruct (decide (b = new)) as [->|Hne].
  - rewrite lookup_insert_eq. naive_solver.
  - rewrite lookup_insert_ne by done. naive_solver.
Qed.

Lemma par_insert_old b p : b ≠ new → par gd' b p ↔ par gd b p.
Proof. intros Hb. unfold par, gd', insert_block. cbn [relations_store]. by rewrite lookup_insert_ne. Qed.
Lemma par_insert_new p : par gd' new p ↔ p ∈ parents.
Proof.
  unfold par, gd', insert_block. cbn [relations_store]. rewrite lookup_insert_eq. split.
  - intros (_ & ps & [= <-] & ?). done.
  - intros Hp. split; [|eauto]. by apply (po_known _ _ Hparents).
Qed.

Lemma anc_insert_old a b : known gd b → anc gd' a b ↔ anc gd a b.
Proof.
  intros Hb. unfold anc. split; intros H.
  - induction H as [|x y z Hxy _ IH]; [constructor|]. apply par_insert_old in Hxy; [|by apply known_ne].
    econstructor; [exact Hxy|]. apply IH. eapply par_known; [apply Hm|done|done].
  - induction H as [|x y z Hxy _ IH]; [constructor|]. pose proof (par_known gd (mo_stores _ Hm) _ _ Hb Hxy).
    apply par_insert_old in Hxy; [|by apply known_ne]. econstructor; [exact Hxy|]. by apply IH.
Qed.
Lemma anc_insert_new a : anc gd' a new ↔ a = new ∨ ∃ p, p ∈ parents ∧ anc gd a p.
Proof.
  split.
  - intros H. unfold anc in H. inversion H as [|? y ? Hy Hya]; subst; [by left|right].
    apply par_insert_new in Hy. exists y. split; [done|].
    apply anc_insert_old; [by apply (po_known _ _ Hparents)|done].
  - intros [->|(p & Hp & Ha)]; [constructor|]. econstructor; [by apply par_insert_new|].
    apply anc_insert_old in Ha; [done|]. by apply (po_known _ _ Hparents).
Qed.

Lemma work_insert_old b : known gd b → work gd' b = work gd b.
Proof. intros Hb. unfold work, gd', insert_block. cbn [ghostdag_store]. rewrite lookup_insert_ne; [done|]. apply not_eq_sym. by apply known_ne. Qed.
Lemma work_insert_new : work gd' new = blue_work d.
Proof. unfold work, gd', insert_block. cbn [ghostdag_store]. by rewrite lookup_insert_eq. Qed.

(** The service answers for all blocks, the new one included. *)
Hypothesis Hsvc : ∀ a b, known gd' a → known gd' b →
  ∃ r, svc_is_dag_ancestor_of svc a b = Ok r ∧ (r = true ↔ anc gd' a b).
(** The new block has more work than its selected parent. *)
Hypothesis Hgrow : ∀ dsp, ghostdag_store gd !! selected_parent d = Some dsp → blue_work dsp < blue_work d.

Lemma stores_ok_insert : stores_ok gd'.
Proof.
  pose proof Hm as [Hok _ _ _ _ _ _]. pose proof Hparents as [Hne Hk _ _].
  assert (∀ p, p ∈ parents → work gd p < blue_work d) as Hw.
  { intros p Hp. pose proof (nb_sp_max _ _ _ Hd p Hp) as Hle. apply sortable_le_spec in Hle. simpl in Hle.
    destruct (Hk _ (nb_sp _ _ _ Hd)) as [_ [dsp Hdsp]]. pose proof (Hgrow _ Hdsp).
    assert (work gd (selected_parent d) = blue_work dsp) by (unfold work; by rewrite Hdsp). lia. }
  assert (genesis_hash gd' ≠ new) as Hg by (apply known_ne, Hok).
  split.
  - exact Hsvc.
  - intros b [->|Hb]%known_insert.
    + exists parents. unfold gd', insert_block. cbn [relations_store]. rewrite lookup_insert_eq. split; [done|].
      intros p Hp. right. apply known_insert. right. by apply Hk.
    + destruct (so_rel _ Hok b Hb) as (ps & Hps & Hin). exists ps. unfold gd', insert_block. cbn [relations_store].
      rewrite lookup_insert_ne by (apply not_eq_sym; by apply known_ne). split; [done|].
      intros p Hp. destruct (Hin p Hp); [by left|right]. apply known_insert. by right.
  - split; [apply known_insert; right; apply Hok|]. intros p Hp. apply par_insert_old in Hp; [|done].
    by apply (so_genesis _ Hok) in Hp.
  - intros b [->|Hb]%known_insert Hbg ps Hps; unfold gd', insert_block in Hps; cbn [relations_store] in Hps.
    + rewrite lookup_insert_eq in Hps. simplify_eq. split; [|done]. intros Ho. by destruct (Hk _ Ho).
    + rewrite lookup_insert_ne in Hps by (apply not_eq_sym; by apply known_ne). by eapply so_origin.
  - intros b p [->|Hb]%known_insert Hp.
    + apply par_insert_new in Hp. rewrite work_insert_new, work_insert_old by (by apply Hk). by apply Hw.
    + apply par_insert_old in Hp; [|by apply known_ne]. pose proof (par_known gd Hok _ _ Hb Hp).
      rewrite !work_insert_old by done. by eapply so_work.
  - intros b [->|Hb]%known_insert.
    + rewrite work_insert_new. destruct (nb_works _ _ _ Hd) as (_ & ? & ? & ->). lia.
    + rewrite work_insert_old by done. by apply (so_work_nonneg _ Hok).
Qed.

(** ** Views survive *)

Lemma reaches_insert a b : known gd a → known gd b → reaches gd' a b = reaches gd a b.
Proof.
  intros Ha Hb. pose proof (svc_reaches gd (mo_stores _ Hm) a b Ha Hb) as [_ H1].
  pose proof (svc_reaches gd' stores_ok_insert a b) as [_ H2]; [apply known_insert; by right..|].
  rewrite anc_insert_old in H2 by done. rewrite <- H1 in H2.
  destruct (reaches gd' a b), (reaches gd a b); naive_solver.
Qed.

Lemma anticone_size_insert x l : known gd x → (∀ y, y ∈ l → known gd y) → anticone_size gd' x l = anticone_size gd x l.
Proof.
  intros Hx Hl. unfold anticone_size. f_equal. f_equal. apply list_filter_ext_in. intros y Hy.
  unfold anticone. rewrite !reaches_insert by auto. done.
Qed.

Lemma lookup_insert_Some b x : ghostdag_store gd !! b = Some x → ghostdag_store gd' !! b = Some x.
Proof.
  intros Hb. unfold gd', insert_block. cbn [ghostdag_store]. rewrite lookup_insert_ne; [done|].
  intros <-. congruence.
Qed.

Lemma chain_insert e cs : chain gd e cs → chain gd' e cs.
Proof. induction 1; [by constructor|]. constructor; [done|by apply lookup_insert_Some|done]. Qed.
Lemma recorded_insert e x s : recorded_size gd e x s → recorded_size gd' e x s.
Proof. induction 1; [by constructor|]. eapply recorded_below; try done. by apply lookup_insert_Some. Qed.

Lemma view_insert e cs : view_ok gd e cs → view_ok gd' e cs.
Proof.
  intros [Hc Hnd Hk Hs Hl]. assert (∀ x, x ∈ blues_of e cs → anticone_size gd' x (blues_of e cs) = anticone_size gd x (blues_of e cs)) as E.
  { intros x Hx. apply anticone_size_insert; auto. }
  split; [by apply chain_insert|done| | |].
  - intros x Hx. apply known_insert. right. by apply Hk.
  - intros x Hx. rewrite E by done. apply recorded_insert. by apply Hs.
  - intros x Hx. rewrite E by done. by apply Hl.
Qed.

Lemma blocks_ok_insert : blocks_ok gd'.
Proof.
  pose proof Hm as [Hok Hb _ _ _ _ _]. assert (genesis_hash gd' ≠ new) as Hg by (apply known_ne, Hok).
  split; [apply Hb|]. intros b e Hbo He. unfold gd', insert_block in He. cbn [ghostdag_store] in He.
  destruct (decide (b = new)) as [->|Hne].
  - rewrite lookup_insert_eq in He. injection He as <-. destruct (nb_view _ _ _ Hd) as (cs & Hv & Hin & _).
    exists cs. split; [by apply view_insert|]. split; [|split; [intros E; by destruct Hg|]].
    + intros x Hx. split; [apply anc_insert_new; right; by apply Hin|]. apply known_ne. by apply (vo_known _ _ _ Hv).
    + intros _. apply (nb_blues _ _ _ Hd).
  - rewrite lookup_insert_ne in He by done. destruct (bo_view _ Hb b e Hbo He) as (cs & Hv & Hin & Hg1 & Hg2).
    exists cs. split; [by apply view_insert|]. split; [|done]. intros x Hx. destruct (Hin x Hx) as [Ha ?].
    split; [|done]. apply anc_insert_old; [|done]. split; eauto.
Qed.

Lemma manager_ok_insert :
  0 ≤ hdr_bits h → uval (from_compact_target_bits (hdr_bits h)) ≠ 0 → windows_ok gd' → manager_ok gd'.
Proof.
  intros Hbits Ht Hwin. pose proof Hm as [Hok Hb Hh _ Hw Hl Hs].
  split; [apply stores_ok_insert|apply blocks_ok_insert| |done| |done|done].
  - intros b [->|Hb']%known_insert; unfold gd', insert_block; cbn [headers_store].
    + exists h. rewrite lookup_insert_eq. done.
    + destruct (Hh b Hb') as (hb & Hhb & ?). exists hb. rewrite lookup_insert_ne; [done|]. apply not_eq_sym. by apply known_ne.
  - intros b e Hbo He. unfold gd', insert_block in He. cbn [ghostdag_store] in He.
    destruct (decide (b = new)) as [->|Hne].
    + rewrite lookup_insert_eq in He. injection He as <-. apply (nb_works _ _ _ Hd).
    + rewrite lookup_insert_ne in He by done. by eapply Hw.
Qed.
End insert.
