(* ===== verification/GhostdagNode.v ===== *)
(** * GHOSTDAG over the reachability index

    The reachability service that the node runs is the interval index of
    Reach.v. Here the two components are put together: the index answers the
    queries of GHOSTDAG, GHOSTDAG computes the merge set that the index asks
    for, and adding a block keeps both invariants. *)

From stdpp Require Import base list gmap sorting relations fin_sets.
From Stdlib Require Import ZArith Lia.
From S2P Require Import Prelude Tx Interval ReachStore Reach RoseTree ReachTree ReachAdd ReachDag.
From S2P Require Import Bytes Header Uint UintThms Target Ghostdag GhostdagOrder GhostdagMergeset GhostdagColor GhostdagRun GhostdagWork GhostdagThms GhostdagInsert.

Local Open Scope Z_scope.

Section node.
Context (gd : GhostdagManager MemoryReachabilityStore).

(** The edges of the DAG, the origin included. *)
Definition rel (b p : BlockHash) : Prop := ∃ ps, relations_store gd !! b = Some ps ∧ p ∈ ps.

(** The index and the GHOSTDAG data describe one DAG. *)
Record indexed (T : tree) : Prop := {
  ix_dag : dag_ok rel (reachability_service gd) T;
  ix_labels : ∀ b, b ∈ labels T ↔ b = ORIGIN ∨ known gd b;
  ix_relations : ∀ b, is_Some (relations_store gd !! b) → b ∈ labels T;
  ix_origin : ∀ p, ~ rel ORIGIN p;
  ix_genesis : rel (genesis_hash gd) ORIGIN;
}.

Lemma rel_anc a b : (∀ p, ~ rel ORIGIN p) → a ≠ ORIGIN → rtc rel b a ↔ anc gd a b.
Proof.
  intros Ho Ha. unfold anc. split.
  - intros H. induction H as [|x y z Hxy Hyz IH]; [constructor|]. econstructor; [|by apply IH].
    split; [|done]. intros ->. inversion Hyz as [|? w ? Hw]; subst; [done|]. by apply Ho in Hw.
  - induction 1 as [|x y z Hxy Hyz IH]; [constructor|]. econstructor; [apply Hxy|by apply IH].
Qed.

(** The index implements the interface that GHOSTDAG is written against. *)
Lemma indexed_service T : indexed T → ∀ a b, known gd a → known gd b →
  ∃ r, svc_is_dag_ancestor_of (reachability_service gd) a b = Ok r ∧ (r = true ↔ anc gd a b).
Proof.
  intros [Hdag Hlab _ Ho _] a b Ha Hb. pose proof (wf_tree _ _ (dag_wf _ _ _ Hdag)) as HT.
  destruct (dag_query_spec rel (reachability_service gd) T a b Hdag) as (r & Hr & Hiff).
  1,2: apply (ts_dom _ _ HT), Hlab; by right.
  exists r. unfold svc_is_dag_ancestor_of, store_service. rewrite Hr. split; [done|].
  rewrite Hiff. apply rel_anc; [done|apply Ha].
Qed.
End node.

Section add.
Context (gd : GhostdagManager MemoryReachabilityStore) (T : tree).
Context (new : BlockHash) (parents : list BlockHash) (d : GhostdagData) (h : Header).
Hypothesis Hm : manager_ok gd.
Hypothesis Hix : indexed gd T.
Hypothesis Hparents : parents_ok gd parents.
Hypothesis Hd : new_block_ok gd parents d.
Hypothesis Hnew : new ∉ labels T.
Let sp := selected_parent d.

Lemma sp_label : sp ∈ labels T.
Proof. apply (ix_labels _ _ Hix). right. apply (po_known _ _ Hparents), (nb_sp _ _ _ Hd). Qed.

(** The merge set of the data is the one the index needs. *)
Lemma mergeset_for_index x : x ∈ data_unordered_mergeset_without_selected_parent d ↔
  (∃ p, p ∈ parents ∧ rtc (rel gd) p x) ∧ ~ rtc (rel gd) sp x.
Proof.
  destruct (nb_order _ _ _ Hd) as (O & _ & _ & _ & HO & Hperm & _).
  rewrite Hperm, HO. pose proof Hix as [Hdag Hlab _ Ho Hg].
  assert (∀ p, p ∈ parents → known gd p) as Hk by apply Hparents.
  destruct (decide (x = ORIGIN)) as [->|Hx].
  - split.
    + intros [Hin _]%in_mergeset_known; [done|apply Hm|done].
    + intros [_ []]. assert (anc gd (genesis_hash gd) sp) as Ha.
      { apply genesis_anc; [apply Hm|]. apply Hk, (nb_sp _ _ _ Hd). }
      apply (rel_anc gd _ _ Ho) in Ha; [|apply (so_genesis _ (mo_stores _ Hm))].
      eapply rtc_r; [exact Ha|done].
  - unfold in_mergeset. setoid_rewrite (rel_anc gd x _ Ho Hx). done.
Qed.

Lemma new_fresh : ghostdag_store gd !! new = None ∧ relations_store gd !! new = None ∧ new ≠ ORIGIN.
Proof.
  pose proof Hix as [Hdag Hlab Hrel Ho Hg]. assert (new ≠ ORIGIN) as Hne by (intros ->; apply Hnew, Hlab; by left).
  split_and!; [| |done].
  - destruct (ghostdag_store gd !! new) eqn:E; [|done]. destruct Hnew. apply Hlab. right. split; [done|eauto].
  - destruct (relations_store gd !! new) eqn:E; [|done]. destruct Hnew. apply Hrel. eauto.
Qed.

(** Room in the index, as [add_block] needs it. *)
Record index_room (rroot : BlockHash) : Prop := {
  ir_root : reindex_root (reachability_service gd) = Some rroot;
  ir_label : rroot ∈ labels T;
  ir_height : ∀ x, height_of (reachability_service gd) sp = Some x → 0 ≤ x < U64_MAX;
  ir_width : (DEFAULT_REINDEX_SLACK + 2) * (tsize T + 1) ≤ width (ivl (reachability_service gd) rroot);
}.

Lemma add_to_index rroot : new ≠ NONE → index_room rroot →
  ∃ st', add_block (reachability_service gd) new sp (data_unordered_mergeset_without_selected_parent d) = Ok st' ∧
    dag_ok (extend (rel gd) new parents) st' (add_leaf sp new T) ∧ reindex_root st' = Some rroot ∧
    height_of st' new = (λ h, h + 1) <$> height_of (reachability_service gd) sp ∧
    (∀ b, b ≠ new → height_of st' b = height_of (reachability_service gd) b).
Proof.
  intros Hnone [Hroot Hlabel Hheight Hwidth]. pose proof Hix as [Hdag Hlab _ _ _].
  apply (add_block_with_params_spec (rel gd) (reachability_service gd) T new sp parents _ rroot None None);
    try done; [apply (nb_sp _ _ _ Hd)| | |apply mergeset_for_index].
  - intros p Hp. apply Hlab. right. by apply (po_known _ _ Hparents).
  - destruct (nb_order _ _ _ Hd) as (O & _ & Hnd & _ & _ & Hperm & _). by rewrite Hperm.
Qed.

Context (st' : MemoryReachabilityStore) (ns : option (gmap BlockHash NullifierSet)).
Hypothesis Hdag' : dag_ok (extend (rel gd) new parents) st' (add_leaf sp new T).
Let gd' := insert_block gd new d parents h st' ns.

Lemma rel_insert b p : rel gd' b p ↔ extend (rel gd) new parents b p.
Proof.
  destruct new_fresh as (_ & Hr & _). unfold rel, extend, gd', insert_block. cbn [relations_store].
  destruct (decide (b = new)) as [->|Hne].
  - rewrite lookup_insert_eq. split.
    + intros (ps & [= <-] & ?). by right.
    + intros [(ps & ? & _)|[_ ?]]; [|eauto]. unfold rel in *. congruence.
  - rewrite lookup_insert_ne by done. unfold rel. naive_solver.
Qed.

Lemma labels_insert b : b ∈ labels (add_leaf sp new T) ↔ b = new ∨ b ∈ labels T.
Proof.
  rewrite labels_add_leaf; [by rewrite elem_of_cons|apply (wf_tree _ _ (dag_wf _ _ _ (ix_dag _ _ Hix)))|apply sp_label].
Qed.

Lemma indexed_insert : indexed gd' (add_leaf sp new T).
Proof.
  destruct new_fresh as (Hg & Hr & Ho). pose proof Hix as [Hdag Hlab Hrel Hor Hgen].
  assert (genesis_hash gd ≠ new) as Hgn by (eapply known_ne; [exact Hg|apply (so_genesis _ (mo_stores _ Hm))]).
  split.
  - eapply dag_ok_ext; [|exact Hdag']. intros b p. symmetry. apply rel_insert.
  - intros b. rewrite labels_insert, Hlab. unfold gd'. rewrite known_insert by done. naive_solver.
  - intros b Hb. apply labels_insert. unfold gd', insert_block in Hb. cbn [relations_store] in Hb.
    apply lookup_insert_is_Some in Hb as [<-|[_ Hb]]; [by left|right; by apply Hrel].
  - intros p Hp%rel_insert. destruct Hp as [Hp|[? _]]; [by apply (Hor p)|done].
  - apply rel_insert. left. done.
Qed.

(** The node with one more block is in order again. *)
Lemma node_insert :
  0 ≤ hdr_bits h → uval (from_compact_target_bits (hdr_bits h)) ≠ 0 → windows_ok gd' →
  (∀ dsp, ghostdag_store gd !! sp = Some dsp → blue_work dsp < blue_work d) →
  manager_ok gd' ∧ indexed gd' (add_leaf sp new T).
Proof.
  intros Hbits Ht Hwin Hgrow. destruct new_fresh as (Hg & Hr & Ho). pose proof indexed_insert as Hix'.
  split; [|done]. apply (manager_ok_insert gd new parents d h st' ns); try done.
  apply (indexed_service gd' _ Hix').
Qed.
End add.
