(* ===== verification/GhostdagClaims.v ===== *)
(** * GHOSTDAG: what the protocol promises

    The properties of the data that [ghostdag] computes for a new block, over
    stores that satisfy the invariant of the protocol ([manager_ok]). *)

From stdpp Require Import base list gmap sorting relations fin_sets.
From Stdlib Require Import ZArith Lia.
From S2P Require Import Prelude Tx ReachStore Reach Bytes Header Uint UintThms Target Ghostdag GhostdagOrder GhostdagMergeset GhostdagColor GhostdagRun GhostdagWork GhostdagThms.

Local Open Scope Z_scope.

Section claims.
Context {U : Type} `{!ReachabilityService U} (gd : GhostdagManager U).

(** C14. [ghostdag] returns, for every antichain of known parents: it selects
    the parent that is greatest by blue work and then hash, and the blocks it
    colours are, each once, those in the past of the parents that are neither
    the selected parent nor in its past. *)
Theorem ghostdag_mergeset_exact parents : manager_ok gd → parents_ok gd parents →
  ∃ d, ghostdag gd parents = Ok d ∧
    selected_parent d ∈ parents ∧
    (∀ p, p ∈ parents → sortable_le (key gd p) (key gd (selected_parent d))) ∧
    NoDup (unordered_mergeset d) ∧
    ∀ x, x ∈ unordered_mergeset d ↔
      x = selected_parent d ∨ (∃ p, p ∈ parents ∧ anc gd x p) ∧ ~ anc gd x (selected_parent d).
Proof.
  intros Hm Hp. destruct (ghostdag_spec gd parents Hm Hp) as (d & Hd & Hok). exists d. split; [done|].
  split; [apply Hok|]. split; [apply Hok|]. destruct (nb_order _ _ _ Hok) as (O & _ & Hnd & _ & HO & Hperm & _).
  destruct (nb_blues _ _ _ Hok) as [rest Hb]. unfold unordered_mergeset, data_unordered_mergeset_without_selected_parent in *.
  rewrite Hb in *. cbn [drop app] in *. rewrite drop_0 in Hperm. split.
  - rewrite Hperm. apply NoDup_cons. split; [|done]. intros [_ Hx]%HO. apply Hx, anc_refl.
  - intros x. rewrite elem_of_cons, Hperm, HO. done.
Qed.

(** C1. The blue blocks in the past of the new block (those merged along its
    selected chain) are a k-cluster: each has at most [k] of the others in its
    anticone, and the anticone size recorded for it, in the data of the new
    block or of the nearest chain block that has an entry, is exact. Blocks
    are coloured red only when they must be: a red block would break the
    k-cluster, or the merge set already has [k + 1] blue blocks, or the replica
    lane is active and its ticket is already spent. *)
Theorem ghostdag_blues_maximal_k_cluster parents : manager_ok gd → parents_ok gd parents →
  ∃ d cs, ghostdag gd parents = Ok d ∧ chain gd d cs ∧ NoDup (blues_of d cs) ∧
    (∀ x, x ∈ blues_of d cs → ∃ p, p ∈ parents ∧ anc gd x p) ∧
    (∀ x y, x ∈ blues_of d cs → y ∈ blues_of d cs → anticone gd x y ↔ ~ anc gd x y ∧ ~ anc gd y x) ∧
    (∀ x, x ∈ blues_of d cs →
       anticone_size gd x (blues_of d cs) ≤ gd_k gd ∧
       recorded_size gd d x (anticone_size gd x (blues_of d cs))) ∧
    Z.of_nat (length (mergeset_blues d)) ≤ gd_k gd + 1 ∧
    ∀ r, r ∈ mergeset_reds d →
      ~ k_cluster gd (r :: blues_of d cs) ∨
      Z.of_nat (length (mergeset_blues d)) = gd_k gd + 1 ∨
      ∃ p t seed, p ∈ parents ∧ palw_active_block gd p ∧ ticket gd r = Some t ∧
        seed_nullifiers gd (selected_parent d) = Ok seed ∧
        (t ∈ dom seed ∨ ∃ b, b ∈ mergeset_blues d ∧ ticket gd b = Some t).
Proof.
  intros Hm Hp. destruct (ghostdag_spec gd parents Hm Hp) as (d & Hd & Hok).
  destruct (nb_view _ _ _ Hok) as (cs & Hv & Hpast & Hreds). exists d, cs.
  split_and!; try done; [apply Hv|apply Hv| | |apply Hok].
  - intros x y Hx%(vo_known _ _ _ Hv) Hy%(vo_known _ _ _ Hv). unfold anticone.
    rewrite !reaches_false; [done|by try apply Hm..].
  - intros x Hx. split; [by apply (vo_k _ _ _ Hv)|by apply (vo_size _ _ _ Hv)].
Qed.

(** The accounting of a new block neither wraps nor saturates: the score
    grows by the number of blue blocks merged, the compute work is at most four
    times the hash work, the blue work is the sum of the two, bounded by what a
    [u64] number of blocks can contribute, and it never falls below that of the
    selected parent. It is strictly greater as long as the replica lane is
    inactive or the selected parent is a block of the hash lane. *)
Theorem ghostdag_accounting parents : manager_ok gd → parents_ok gd parents →
  ∃ d dsp, ghostdag gd parents = Ok d ∧ ghostdag_store gd !! selected_parent d = Some dsp ∧
    blue_score d = blue_score dsp + Z.of_nat (length (mergeset_blues d)) ∧ is_u64 (blue_score d) ∧
    blue_compute_work d ≤ 4 * blue_hash_work d ∧
    blue_work d = blue_hash_work d + blue_compute_work d ∧
    blue_hash_work d ≤ 2 ^ 256 * blue_score d ∧
    blue_work dsp ≤ blue_work d ∧
    ((∀ p, p ∈ parents → ~ palw_active_block gd p) ∨ on_replica_lane gd (selected_parent d) = false →
     blue_work dsp < blue_work d).
Proof.
  intros Hm Hp. destruct (ghostdag_spec gd parents Hm Hp) as (d & Hd & Hok).
  destruct (po_known _ _ Hp _ (nb_sp _ _ _ Hok)) as [_ [dsp Hdsp]]. exists d, dsp.
  destruct (nb_score _ _ _ Hok _ Hdsp) as (H1 & H2 & H3). destruct (nb_works _ _ _ Hok) as (? & ? & ? & ?).
  split_and!; try done; lia.
Qed.

(** C15. Tickets are spent once: when the replica lane is active, no two blue
    blocks of a merge set carry the same ticket nullifier, and none but the
    selected parent carries one of the window that the selected parent hands
    down. *)
Theorem ghostdag_tickets_unique parents : manager_ok gd → parents_ok gd parents →
  (∃ p, p ∈ parents ∧ palw_active_block gd p) →
  ∃ d seed, ghostdag gd parents = Ok d ∧ seed_nullifiers gd (selected_parent d) = Ok seed ∧
    NoDup (omap (ticket gd) (mergeset_blues d)) ∧
    ∀ x t, x ∈ drop 1 (mergeset_blues d) → ticket gd x = Some t → t ∉ dom seed.
Proof.
  intros Hm Hp Hact. destruct (ghostdag_spec gd parents Hm Hp) as (d & Hd & Hok).
  destruct (nb_tickets _ _ _ Hok Hact) as (seed & ? & ? & ?). by exists d, seed.
Qed.

(** The order in which the merge set of a new block is consumed
    ([consensus_ordered_mergeset], rebuilt by joining the stored blue and red
    lists) is the selected parent followed by the merge set in the order in
    which it was coloured, which never puts a block before one in its past; the
    descending iterator gives the reverse. *)
Theorem consensus_order_is_coloring_order parents : manager_ok gd → parents_ok gd parents →
  ∃ d O, ghostdag gd parents = Ok d ∧
    ordered_mergeset_without_selected_parent gd (selected_parent d) parents = Ok O ∧
    consensus_ordered_mergeset gd d = Ok (selected_parent d :: O) ∧
    descending_mergeset_without_selected_parent gd d = Ok (rev (key gd <$> O)) ∧
    StronglySorted (λ a b, ~ anc gd b a) O.
Proof.
  intros Hm Hp. destruct (ghostdag_spec gd parents Hm Hp) as (d & Hd & Hok).
  destruct (nb_order _ _ _ Hok) as (O & HO & _ & Hs & _). exists d, O.
  destruct (mergeset_iterators gd parents d O Hm Hp Hok HO) as [H1 H2]. split_and!; try done.
  unfold consensus_ordered_mergeset. rewrite H1. cbn [mbind outcome_bind mret outcome_ret]. do 2 f_equal.
  rewrite <- list_fmap_compose. apply list_fmap_id.
Qed.
End claims.
