(* ===== verification/GhostdagWitness.v ===== *)
(** * GHOSTDAG at a concrete node

    The theorems on GHOSTDAG at the stores of a fresh node: the block on top of
    genesis. *)

From stdpp Require Import base list gmap sorting relations fin_sets.
From Stdlib Require Import ZArith Lia.
From S2P Require Import Prelude Tx Interval ReachStore Reach RoseTree ReachTree ReachAdd ReachDag Bytes Hashing Header HeaderHash Uint UintThms Target.
From S2P Require Import Ghostdag GhostdagOrder GhostdagMergeset GhostdagColor GhostdagRun GhostdagWork GhostdagThms GhostdagInsert GhostdagNode GhostdagClaims.

Local Open Scope Z_scope.

(** ** The node at genesis

    The stores that [HeaderProcessor::init] and [process_genesis] leave: the
    origin and the genesis block on top of it. They satisfy the invariants of
    GHOSTDAG and of the index, and give the instances of the theorems. *)

Section genesis.
Context (g : BlockHash) (h : Header) (k activation scale : Z) (ns : option (gmap BlockHash NullifierSet)).

Definition genesis_manager (st : MemoryReachabilityStore) : GhostdagManager MemoryReachabilityStore :=
  mkManager g k (<[g := genesis_ghostdag_data]> (<[ORIGIN := origin_ghostdag_data]> ∅))
    (<[g := [ORIGIN]]> (<[ORIGIN := []]> ∅)) (<[g := h]> ∅) st 0 activation scale ns.

Hypothesis Horigin : g ≠ ORIGIN.
Hypothesis Hnone : g ≠ NONE.

Lemma genesis_index : ∃ st, add_block init_store g ORIGIN [] = Ok st ∧
  dag_ok (extend (λ _ _, False) g [ORIGIN]) st (add_leaf ORIGIN g (Node ORIGIN [])).
Proof using Horigin Hnone.
  destruct (add_block_with_params_spec (λ _ _, False) init_store (Node ORIGIN []) g ORIGIN [ORIGIN] [] ORIGIN None None)
    as (st & Hst & Hok & _).
  - apply init_spec.
  - intros Hin. by apply list_elem_of_singleton in Hin.
  - exact Hnone.
  - by left.
  - intros p ->%list_elem_of_singleton. by left.
  - apply NoDup_nil_2.
  - intros x. split; [by intros ?%elem_of_nil|]. intros [(p & ->%list_elem_of_singleton & ?) []]. done.
  - reflexivity.
  - by left.
  - intros x [= <-]. done.
  - vm_compute. discriminate.
  - vm_compute. discriminate.
  - exists st. exact (conj Hst Hok).
Qed.

Section stores.
Context (st : MemoryReachabilityStore).
Hypothesis Hdag : dag_ok (extend (λ _ _, False) g [ORIGIN]) st (add_leaf ORIGIN g (Node ORIGIN [])).
Abbreviation gd := (genesis_manager st).

Lemma genesis_known b : known gd b ↔ b = g.
Proof using Horigin.
  unfold known, genesis_manager. cbn [ghostdag_store]. rewrite !lookup_insert_is_Some, lookup_empty, is_Some_alt.
  naive_solver.
Qed.
Lemma genesis_rel b ps : relations_store gd !! b = Some ps → b = g ∧ ps = [ORIGIN] ∨ b = ORIGIN ∧ ps = [].
Proof using Horigin.
  cbn. rewrite fin_maps.lookup_insert_Some. intros [[<- <-]|[_ [[<- <-]|[_ [=]]]%fin_maps.lookup_insert_Some]]; auto.
Qed.
Lemma genesis_par b p : ~ par gd b p.
Proof using Horigin. intros (Hp & ps & [[-> ->]|[-> ->]]%genesis_rel & Hin); [by apply list_elem_of_singleton in Hin|by apply elem_of_nil in Hin]. Qed.
Lemma genesis_labels b : b ∈ labels (add_leaf ORIGIN g (Node ORIGIN [])) ↔ b = ORIGIN ∨ b = g.
Proof using.
  rewrite labels_add_leaf; [|apply NoDup_singleton|by left].
  change (labels (Node ORIGIN [])) with [ORIGIN]. rewrite elem_of_cons, list_elem_of_singleton. tauto.
Qed.

Lemma genesis_indexed : indexed gd (add_leaf ORIGIN g (Node ORIGIN [])).
Proof using Horigin Hdag.
  assert (∀ b p, rel gd b p ↔ b = g ∧ p = ORIGIN) as Hrel.
  { intros b p. unfold rel. split.
    - intros (ps & [[-> ->]|[-> ->]]%genesis_rel & Hin); [by apply list_elem_of_singleton in Hin|by apply elem_of_nil in Hin].
    - intros [-> ->]. exists [ORIGIN]. cbn. rewrite lookup_insert_eq. split; [done|by left]. }
  split.
  - eapply dag_ok_ext; [|exact Hdag]. intros b p. rewrite Hrel. unfold extend. rewrite list_elem_of_singleton. tauto.
  - intros b. by rewrite genesis_labels, genesis_known.
  - intros b [ps Hps]. apply genesis_labels. apply genesis_rel in Hps. tauto.
  - intros p [Hg _]%Hrel. done.
  - by apply Hrel.
Qed.

Lemma genesis_data b d : b ≠ ORIGIN → ghostdag_store gd !! b = Some d → b = g ∧ d = genesis_ghostdag_data.
Proof using. intros Hb. cbn. rewrite fin_maps.lookup_insert_Some. intros [[<- <-]|[_ [[<- <-]|[_ [=]]]%fin_maps.lookup_insert_Some]]; done. Qed.

Hypothesis Hk : 0 ≤ k < 2 ^ 16 - 1.
Hypothesis Hscale : is_u64 scale.
Hypothesis Hbits : 0 ≤ hdr_bits h.
Hypothesis Htarget : uval (from_compact_target_bits (hdr_bits h)) ≠ 0.

Lemma genesis_ok : manager_ok gd.
Proof using Horigin Hdag Hk Hscale Hbits Htarget.
  split; [split|split| | | |cbn; lia|done].
  - apply (indexed_service _ _ genesis_indexed).
  - intros b ->%genesis_known. exists [ORIGIN]. cbn. rewrite lookup_insert_eq. split; [done|].
    intros p ->%list_elem_of_singleton. by left.
  - split; [by apply genesis_known|apply genesis_par].
  - by intros b ->%genesis_known.
  - intros b p _ []%genesis_par.
  - intros b ->%genesis_known. unfold work. cbn. by rewrite lookup_insert_eq.
  - done.
  - intros b d Hb [-> ->]%genesis_data; [|done]. exists []. split; [|split_and!; [by intros x ?%elem_of_nil|done|done]].
    split; [by constructor|constructor|by intros x ?%elem_of_nil..].
  - intros b ->%genesis_known. exists h. cbn. by rewrite lookup_insert_eq.
  - by intros store b _ ->%genesis_known.
  - intros b d Hb [-> ->]%genesis_data; [|done]. split_and!; vm_compute; try done.
Qed.

Lemma genesis_parents : parents_ok gd [g].
Proof using Horigin Hk.
  split; [done|..].
  - intros p ->%list_elem_of_singleton. by apply genesis_known.
  - intros p q ->%list_elem_of_singleton ->%list_elem_of_singleton. done.
  - intros p d ->%list_elem_of_singleton [_ ->]%genesis_data; [|done]. change (blue_score genesis_ghostdag_data) with 0.
    unfold U64_MAX. cbn [gd_k genesis_manager]. lia.
Qed.
End stores.
End genesis.

Definition fresh_store : MemoryReachabilityStore :=
  match add_block init_store 7 ORIGIN [] with Ok st => st | _ => init_store end.
(** A node with [k = 2] on which the replica lane is active from the start. *)
Definition fresh_node : GhostdagManager MemoryReachabilityStore :=
  genesis_manager 7 (sample_header 3 0 []) 2 0 1 (Some ∅) fresh_store.

Lemma fresh_index : dag_ok (extend (λ _ _, False) 7 [ORIGIN]) fresh_store (add_leaf ORIGIN 7 (Node ORIGIN [])).
Proof. destruct (genesis_index 7) as (st & Hst & Hok); [done|done|]. unfold fresh_store. by rewrite Hst. Qed.
Lemma fresh_ok : manager_ok fresh_node.
Proof. apply genesis_ok; [done|apply fresh_index|lia|done|done|vm_compute; done]. Qed.
Lemma fresh_parents : parents_ok fresh_node [7].
Proof. apply genesis_parents; [done|lia]. Qed.

Lemma ghostdag_mergeset_exact_witness : ∃ d, ghostdag fresh_node [7] = Ok d ∧ selected_parent d ∈ [7] ∧
  ∀ x, x ∈ unordered_mergeset d ↔
    x = selected_parent d ∨ (∃ p, p ∈ [7] ∧ anc fresh_node x p) ∧ ~ anc fresh_node x (selected_parent d).
Proof.
  destruct (ghostdag_mergeset_exact fresh_node [7] fresh_ok fresh_parents) as (d & Hd & Hsp & _ & _ & Hx).
  exact (ex_intro _ d (conj Hd (conj Hsp Hx))).
Defined.

Lemma ghostdag_blues_maximal_k_cluster_witness : ∃ d cs, ghostdag fresh_node [7] = Ok d ∧ chain fresh_node d cs ∧
  ∀ x, x ∈ blues_of d cs → anticone_size fresh_node x (blues_of d cs) ≤ 2.
Proof.
  destruct (ghostdag_blues_maximal_k_cluster fresh_node [7] fresh_ok fresh_parents) as (d & cs & Hd & Hcs & _ & _ & _ & Hx & _).
  exists d, cs. split; [exact Hd|]. split; [exact Hcs|]. intros x Hin. exact (proj1 (Hx x Hin)).
Defined.

Lemma ghostdag_accounting_witness : ∃ d dsp, ghostdag fresh_node [7] = Ok d ∧
  ghostdag_store fresh_node !! selected_parent d = Some dsp ∧ blue_work dsp ≤ blue_work d.
Proof.
  destruct (ghostdag_accounting fresh_node [7] fresh_ok fresh_parents) as (d & dsp & Hd & Hsp & _ & _ & _ & _ & _ & Hw & _).
  exact (ex_intro _ d (ex_intro _ dsp (conj Hd (conj Hsp Hw)))).
Defined.

Lemma ghostdag_tickets_unique_witness : ∃ d, ghostdag fresh_node [7] = Ok d ∧ NoDup (omap (ticket fresh_node) (mergeset_blues d)).
Proof.
  destruct (ghostdag_tickets_unique fresh_node [7] fresh_ok fresh_parents) as (d & seed & Hd & _ & Ht & _).
  - exists 7. split; [by left|]. exists (sample_header 3 0 []). split; [reflexivity|]. vm_compute. done.
  - exact (ex_intro _ d (conj Hd Ht)).
Defined.

Lemma consensus_order_is_coloring_order_witness : ∃ d O, ghostdag fresh_node [7] = Ok d ∧
  consensus_ordered_mergeset fresh_node d = Ok (selected_parent d :: O).
Proof.
  destruct (consensus_order_is_coloring_order fresh_node [7] fresh_ok fresh_parents) as (d & O & Hd & _ & HO & _).
  exact (ex_intro _ d (ex_intro _ O (conj Hd HO))).
Defined.
