(* ===== verification/Pow.v ===== *)
(** * Proof of work

    Models [src/consensus/core/src/pow_layer0.rs], [src/consensus/pow/src] and
    [src/crypto/hashes/src/pow_hashers.rs]: the Layer-1 tags of the algorithm
    ids, the Layer-0 finalizer and its 512-bit target, the block level, and the
    kHeavyHash matrix with its generator. The rank of a matrix is computed in
    IEEE-754 doubles as the code does, with the executable specification of
    floating point of the Standard Library. A 32-byte [Hash] is the list of its
    bytes. *)

From stdpp Require Import base list gmap strings.
From Stdlib Require Import ZArith Lia SpecFloat.
From S2P Require Import Prelude Tx Bytes Hashing Header Uint.

Local Open Scope Z_scope.

(** ** External primitives *)

(** The packages [keccak] (or the assembly routine [KeccakF1600]), [sha3] and
    [argon2] with the parameters of the code: the permutation of 25 words, and
    digests of fixed length. *)
Class PowPrimitives := {
  keccak_f1600 : list Z → list Z;
  sha3_512 : list byte → list byte;
  argon2id : list byte → list byte → list byte;
  keccak_length s : length s = 25%nat → length (keccak_f1600 s) = 25%nat;
  keccak_words s : Forall is_u64 (keccak_f1600 s);
  sha3_512_length d : length (sha3_512 d) = 64%nat;
  sha3_512_bytes d : Forall is_byte (sha3_512 d);
  argon2id_length p s : length (argon2id p s) = 32%nat;
  argon2id_bytes p s : Forall is_byte (argon2id p s);
}.

(** ** kHeavyHash *)

(** [Wrapping<u64>]. *)
Definition wrap64 (z : Z) : Z := z mod 2 ^ 64.
Definition rotate_left (x n : Z) : Z := Z.lor (wrap64 (Z.shiftl x n)) (Z.shiftr x (64 - n)).

(** [Hash::to_le_u64] and [Hash::from_le_u64]. *)
Definition to_le_u64 (hash : list byte) : list Z := (λ i, le_val (take 8 (drop (8 * i) hash))) <$> seq 0 4.
Definition from_le_u64 (words : list Z) : list byte := concat (to_le_bytes 8 <$> words).

Record XoShiRo256PlusPlus := mkXoShiRo { xs0 : Z; xs1 : Z; xs2 : Z; xs3 : Z }.
Definition XoShiRo_new (hash : list byte) : XoShiRo256PlusPlus :=
  let w := to_le_u64 hash in mkXoShiRo (limb w 0) (limb w 1) (limb w 2) (limb w 3).
Definition XoShiRo_u64 (g : XoShiRo256PlusPlus) : Z * XoShiRo256PlusPlus :=
  let res := wrap64 (xs0 g + rotate_left (wrap64 (xs0 g + xs3 g)) 23) in
  let t := wrap64 (Z.shiftl (xs1 g) 17) in
  let s2 := Z.lxor (xs2 g) (xs0 g) in
  let s3 := Z.lxor (xs3 g) (xs1 g) in
  let s1 := Z.lxor (xs1 g) s2 in
  let s0 := Z.lxor (xs0 g) s3 in
  let s2 := Z.lxor s2 t in
  let s3 := rotate_left s3 45 in
  (res, mkXoShiRo s0 s1 s2 s3).

(** The initial states of cSHAKE256 with the two domains. *)
Definition POW_HASH_INITIAL_STATE : list Z :=
  [ 1242148031264380989; 3008272977830772284; 2188519011337848018; 1992179434288343456; 8876506674959887717;
    5399642050693751366; 1745875063082670864; 8605242046444978844; 17936695144567157056; 3343109343542796272;
    1123092876221303306; 4963925045340115282; 17037383077651887893; 16629644495023626889; 12833675776649114147;
    3784524041015224902; 1082795874807940378; 13952716920571277634; 13411128033953605860; 15060696040649351053;
    9928834659948351306; 5237849264682708699; 12825353012139217522; 6706187291358897596; 196324915476054915 ].
Definition KHEAVY_HASH_INITIAL_STATE : list Z :=
  [ 4239941492252378377; 8746723911537738262; 8796936657246353646; 1272090201925444760; 16654558671554924250;
    8270816933120786537; 13907396207649043898; 6782861118970774626; 9239690602118867528; 11582319943599406348;
    17596056728278508070; 15212962468105129023; 7812475424661425213; 3370482334374859748; 5690099369266491460;
    8596393687355028144; 570094237299545110; 9119540418498120711; 16901969272480492857; 13372017233735502424;
    14372891883993151831; 5171152063242093102; 10573107899694386186; 6096431547456407061; 1592359455985097269 ].

(** Both absorb words by exclusive or. *)
Definition absorb (words state : list Z) : list Z :=
  zip_with Z.lxor words (take (length words) state) ++ drop (length words) state.

(** ** Ranks in floating point *)

Definition f64 : Type := spec_float.
Definition f64_prec : Z := 53.
Definition f64_emax : Z := 1024.
Definition f64_from (z : Z) : f64 := binary_normalize f64_prec f64_emax z 0 false.
Definition f64_mul : f64 → f64 → f64 := SFmul f64_prec f64_emax.
Definition f64_sub : f64 → f64 → f64 := SFsub f64_prec f64_emax.
Definition f64_div : f64 → f64 → f64 := SFdiv f64_prec f64_emax.
(** The double nearest to [1e-9]. *)
Definition EPS : f64 := S754_finite false 4835703278458517 (-82).
Definition above_eps (x : f64) : bool := SFltb EPS (SFabs x).

#[export] Instance f64_inhabited : Inhabited f64 := populate (S754_zero false).

Abbreviation Matrix := (list (list Z)) (only parsing).
Definition convert_to_float (m : Matrix) : list (list f64) := (λ row : list Z, f64_from <$> row) <$> m.

(** One column of the elimination: the first row not yet selected with a pivot
    is scaled, and subtracted from every other row. *)
Definition divide_row (i : nat) (row : list f64) : list f64 :=
  imap (λ p x, if (i <? p)%nat then f64_div x (row !!! i) else x) row.
Definition eliminate_row (i : nat) (pivot_row row : list f64) : list f64 :=
  imap (λ p x, if (i <? p)%nat then f64_sub x (f64_mul (pivot_row !!! p) (row !!! i)) else x) row.
Definition find_pivot (i : nat) (mat : list (list f64)) (row_selected : list bool) : option nat :=
  head (filter (λ j, negb (row_selected !!! j) && above_eps (mat !!! j !!! i)) (seq 0 64)).
Definition rank_column (st : list (list f64) * list bool * nat) (i : nat) : list (list f64) * list bool * nat :=
  let '(mat, row_selected, rank) := st in
  match find_pivot i mat row_selected with
  | None => st
  | Some j =>
    let mat := <[j := divide_row i (mat !!! j)]> mat in
    let pivot_row := mat !!! j in
    let mat := imap (λ k row, if negb (k =? j)%nat && above_eps (row !!! i) then eliminate_row i pivot_row row else row) mat in
    (mat, <[j := true]> row_selected, S rank)
  end.
Definition compute_rank (m : Matrix) : nat :=
  (foldl rank_column (convert_to_float m, replicate 64 false, 0%nat) (seq 0 64)).2.

(** Sixteen 4-bit entries from each word. *)
Fixpoint rand_row (words : nat) (g : XoShiRo256PlusPlus) : list Z * XoShiRo256PlusPlus :=
  match words with
  | O => ([], g)
  | S words =>
    let '(val, g) := XoShiRo_u64 g in
    let '(rest, g) := rand_row words g in
    (((λ shift, Z.land (Z.shiftr val (4 * Z.of_nat shift)) 0x0F) <$> seq 0 16) ++ rest, g)
  end.
Fixpoint rand_rows (rows : nat) (g : XoShiRo256PlusPlus) : Matrix * XoShiRo256PlusPlus :=
  match rows with
  | O => ([], g)
  | S rows =>
    let '(row, g) := rand_row 4 g in
    let '(rest, g) := rand_rows rows g in
    (row :: rest, g)
  end.
Definition rand_matrix_no_rank_check (g : XoShiRo256PlusPlus) : Matrix * XoShiRo256PlusPlus := rand_rows 64 g.

(** The loop ends at the first matrix of full rank. *)
Fixpoint generate_loop {E} (fuel : nat) (g : XoShiRo256PlusPlus) : outcome E Matrix :=
  match fuel with
  | O => OutOfFuel
  | S fuel =>
    let '(mat, g) := rand_matrix_no_rank_check g in
    if (compute_rank mat =? 64)%nat then Ok mat else generate_loop fuel g
  end.
Definition Matrix_generate {E} (fuel : nat) (hash : list byte) : outcome E Matrix :=
  generate_loop fuel (XoShiRo_new hash).

Definition chk_u16 {E} (z : Z) : outcome E Z := if (0 <=? z) && (z <? 2 ^ 16) then Ok z else Panic.

(** The high and the low half of each byte. *)
Definition nibbles (hash : list byte) : list Z := concat ((λ b, [Z.shiftr b 4; Z.land b 0x0F]) <$> hash).
Definition dot {E} (row vec : list Z) : outcome E Z :=
  for_each (λ sum '(a, b), p ← chk_u16 (a * b); chk_u16 (sum + p)) (zip row vec) 0.
Fixpoint products {E} (m : Matrix) (vec : list Z) : outcome E (list Z) :=
  match m with
  | row1 :: row2 :: m =>
    sum1 ← dot row1 vec;
    sum2 ← dot row2 vec;
    rest ← products m vec;
    Ok (Z.lor (Z.shiftl (Z.shiftr sum1 10) 4 mod 256) (Z.shiftr sum2 10 mod 256) :: rest)
  | _ => Ok []
  end.

Section pow.
Context `{Crypto, PowPrimitives}.

Definition KHeavyHash_hash (in_hash : list byte) : list byte :=
  from_le_u64 (take 4 (keccak_f1600 (absorb (to_le_u64 in_hash) KHEAVY_HASH_INITIAL_STATE))).

Definition heavy_hash {E} (m : Matrix) (hash : list byte) : outcome E (list byte) :=
  product ← products m (nibbles hash);
  Ok (KHeavyHash_hash (zip_with Z.lxor product hash)).

Definition PowHash_new (pre_pow_hash : list byte) (timestamp : Z) : list Z :=
  let start := absorb (to_le_u64 pre_pow_hash) POW_HASH_INITIAL_STATE in
  <[4%nat := Z.lxor (limb start 4) timestamp]> start.
Definition finalize_with_nonce (state : list Z) (nonce : Z) : list byte :=
  from_le_u64 (take 4 (keccak_f1600 (<[9%nat := Z.lxor (limb state 9) nonce]> state))).

(** ** Layer 0 *)

Definition POW_FINALIZER_DOMAIN : list byte := b_ "kaspa-pq-pow-v1".
Definition POW_ALGO_ID_KHEAVYHASH : Z := 1.
Definition POW_ALGO_ID_ARGON2ID : Z := 2.
Definition POW_ALGO_ID_BLAKE2B_SHA3 : Z := 3.
Definition POW_L1_TAG_MAX_BYTES : Z := 256.
Definition POW_L1_KHEAVYHASH_V1_SEED_DOMAIN : list byte := b_ "kaspa-pq-l1-kheavyhash-v1-seed".
Definition POW_L1_ARGON2ID_V1_DOMAIN : list byte := b_ "kaspa-pq-l1-argon2id-v1".
Definition POW_L1_BLAKE2B_SHA3_V1_DOMAIN : list byte := b_ "kaspa-pq-l1-blake2b-sha3-v1".

Inductive PowLayer0Error : Type :=
| L1TagTooLong (n : Z)
| UnknownAlgoId (id : Z).
Inductive WorkLane : Type := HashFloor | ReplicaPalw.
#[export] Instance WorkLane_eq_dec : EqDecision WorkLane.
Proof. solve_decision. Defined.

Definition required_algo_id (blake2b_sha3_active : bool) : Z :=
  if blake2b_sha3_active then POW_ALGO_ID_BLAKE2B_SHA3 else POW_ALGO_ID_KHEAVYHASH.
Definition check_algo_id_phase1 (algo_id : Z) : outcome PowLayer0Error unit :=
  if algo_id =? POW_ALGO_ID_KHEAVYHASH then Ok () else Err (UnknownAlgoId algo_id).
Definition check_algo_id (algo_id : Z) (blake2b_sha3_active : bool) : outcome PowLayer0Error unit :=
  if algo_id =? required_algo_id blake2b_sha3_active then Ok () else Err (UnknownAlgoId algo_id).
Definition check_algo_id_known (algo_id : Z) : outcome PowLayer0Error unit :=
  if (algo_id =? POW_ALGO_ID_KHEAVYHASH) || (algo_id =? POW_ALGO_ID_ARGON2ID) || (algo_id =? POW_ALGO_ID_BLAKE2B_SHA3)
  then Ok () else Err (UnknownAlgoId algo_id).
Definition check_live_algo_id (algo_id : Z) (palw_active : bool) : outcome PowLayer0Error WorkLane :=
  if algo_id =? POW_ALGO_ID_BLAKE2B_SHA3 then Ok HashFloor
  else if (algo_id =? POW_ALGO_ID_PALW_REPLICA) && palw_active then Ok ReplicaPalw
  else Err (UnknownAlgoId algo_id).

(** A length as [u16], cast with truncation. *)
Definition len_u16 (l : list byte) : list byte := to_le_bytes 2 (len l mod 2 ^ 16).

Definition pow_preimage (network_id : list byte) (algo_id : Z) (pre_pow_hash : Hash64) (timestamp bits nonce : Z)
    (l1_tag : list byte) : list byte :=
  len_u16 network_id ++ network_id ++ [algo_id] ++ hash64_bytes pre_pow_hash ++ to_le_bytes 8 timestamp ++
  to_le_bytes 4 bits ++ to_le_bytes 8 nonce ++ len_u16 l1_tag ++ l1_tag.
Definition pow_finalizer_blake2b_512 (network_id : list byte) (algo_id : Z) (pre_pow_hash : Hash64)
    (timestamp bits nonce : Z) (l1_tag : list byte) : outcome PowLayer0Error (list byte) :=
  if POW_L1_TAG_MAX_BYTES <? len l1_tag then Err (L1TagTooLong (len l1_tag))
  else Ok (blake2b 64 POW_FINALIZER_DOMAIN (pow_preimage network_id algo_id pre_pow_hash timestamp bits nonce l1_tag)).

Definition l1_seed32_for_kheavyhash_v1 (pre_pow_hash : Hash64) : list byte :=
  blake2b 32 POW_L1_KHEAVYHASH_V1_SEED_DOMAIN (hash64_bytes pre_pow_hash).
Definition argon2id_l1_tag_v1 (pre_pow_hash : Hash64) (nonce : Z) (network_id : list byte) : list byte :=
  argon2id
    (blake2b 32 POW_L1_ARGON2ID_V1_DOMAIN (hash64_bytes pre_pow_hash ++ to_le_bytes 8 nonce))
    (blake2b 16 POW_L1_ARGON2ID_V1_DOMAIN (b_ "salt" ++ len_u16 network_id ++ network_id)).
Definition blake2b_sha3_l1_tag_v1 (pre_pow_hash : Hash64) (nonce : Z) (network_id : list byte) : list byte :=
  let input := len_u16 network_id ++ network_id ++ hash64_bytes pre_pow_hash ++ to_le_bytes 8 nonce in
  blake2b 64 POW_L1_BLAKE2B_SHA3_V1_DOMAIN input ++ sha3_512 (POW_L1_BLAKE2B_SHA3_V1_DOMAIN ++ input).

Definition lift_target_256_to_512 (target_256 : list Z) : list Z := Uint.shl 8 (Uint.widen 4 8 target_256) 256.

(** ** Headers *)

Record StateLayer0 := mkStateLayer0 {
  s0_matrix : option Matrix;
  s0_target_512 : list Z;
  s0_pre_pow_hash_64 : Hash64;
  s0_network_id : list byte;
  s0_timestamp : Z;
  s0_bits : Z;
  s0_pow_algo_id : Z;
  s0_hasher : option (list Z);
}.

Definition StateLayer0_new {E} (fuel : nat) (header : Header) (network_id : list byte) : outcome E StateLayer0 :=
  pre_pow_hash_64 ← pre_pow_hash_64 header;
  let target_512 := from_compact_target_bits_512 (hdr_bits header) in
  '(hasher, matrix) ←
    (if hdr_pow_algo_id header =? POW_ALGO_ID_KHEAVYHASH then
       let l1_seed32 := l1_seed32_for_kheavyhash_v1 pre_pow_hash_64 in
       m ← Matrix_generate fuel l1_seed32;
       Ok (Some (PowHash_new l1_seed32 (hdr_timestamp header)), Some m)
     else Ok (None, None));
  Ok (mkStateLayer0 matrix target_512 pre_pow_hash_64 network_id (hdr_timestamp header) (hdr_bits header)
        (hdr_pow_algo_id header) hasher).

Definition calculate_l1_tag {E} (s : StateLayer0) (nonce : Z) : outcome E (list byte) :=
  if s0_pow_algo_id s =? POW_ALGO_ID_BLAKE2B_SHA3 then
    Ok (blake2b_sha3_l1_tag_v1 (s0_pre_pow_hash_64 s) nonce (s0_network_id s))
  else if s0_pow_algo_id s =? POW_ALGO_ID_PALW_REPLICA then
    Ok (blake2b_sha3_l1_tag_v1 (s0_pre_pow_hash_64 s) nonce (s0_network_id s))
  else if s0_pow_algo_id s =? POW_ALGO_ID_ARGON2ID then
    Ok (argon2id_l1_tag_v1 (s0_pre_pow_hash_64 s) nonce (s0_network_id s))
  else
    hasher ← unwrap (s0_hasher s);
    matrix ← unwrap (s0_matrix s);
    heavy_hash matrix (finalize_with_nonce hasher nonce).

Definition calculate_pow_layer0 (s : StateLayer0) (nonce : Z) : outcome PowLayer0Error (list byte) :=
  tag ← calculate_l1_tag s nonce;
  pow_finalizer_blake2b_512 (s0_network_id s) (s0_pow_algo_id s) (s0_pre_pow_hash_64 s) (s0_timestamp s) (s0_bits s)
    nonce tag.

Definition check_pow_layer0 (s : StateLayer0) (nonce : Z) : outcome PowLayer0Error (bool * list Z) :=
  digest ← calculate_pow_layer0 s nonce;
  let pow_512 := Uint.from_le_bytes 8 digest in
  Ok (Uint.ge (s0_target_512 s) pow_512, pow_512).

(** The level of a block, from the number of leading zero bits of its proof. *)
Definition calc_level_from_pow (pow : list Z) (max_block_level : Z) : Z := Z.max (max_block_level - Uint.bits 4 pow) 0.
Definition calc_level_from_pow_512 (pow_512 : list Z) (max_block_level : Z) : Z :=
  calc_level_from_pow (default (Uint.ZERO 4) (Uint.try_narrow 4 (Uint.shr 8 pow_512 256))) max_block_level.

Definition calc_block_level_check_pow_layer0 {E} (fuel : nat) (header : Header) (network_id : list byte)
    (max_block_level : Z) : outcome E (Z * bool) :=
  if cp_is_empty (hdr_parents_by_level header) then Ok (max_block_level, true)
  else
    state ← StateLayer0_new fuel header network_id;
    match check_pow_layer0 state (hdr_nonce header) with
    | Ok (passed, pow_512) => Ok (calc_level_from_pow_512 pow_512 max_block_level, passed)
    | Err _ => Ok (0, false)
    | Panic => Panic
    | OutOfFuel => OutOfFuel
    end.

(** ** The legacy 256-bit check *)

Definition BlockHash32 : Hasher := mkHasher (b_ "BlockHash") 32 [].
Definition hash_override_nonce_time {E} (header : Header) (nonce timestamp : Z) : outcome E (list byte) :=
  h ← write_header_preimage BlockHash32 header nonce timestamp; Ok (finalize h).

Record State := mkState { st_matrix : Matrix; st_target : list Z; st_hasher : list Z }.
Definition State_new {E} (fuel : nat) (header : Header) : outcome E State :=
  pre_pow_hash ← hash_override_nonce_time header 0 0;
  matrix ← Matrix_generate fuel pre_pow_hash;
  Ok (mkState matrix (from_compact_target_bits (hdr_bits header)) (PowHash_new pre_pow_hash (hdr_timestamp header))).
Definition calculate_pow {E} (s : State) (nonce : Z) : outcome E (list Z) :=
  hash ← heavy_hash (st_matrix s) (finalize_with_nonce (st_hasher s) nonce);
  Ok (Uint.from_le_bytes 4 hash).
Definition check_pow {E} (s : State) (nonce : Z) : outcome E (bool * list Z) :=
  pow ← calculate_pow s nonce; Ok (Uint.ge (st_target s) pow, pow).
Definition calc_block_level_check_pow {E} (fuel : nat) (header : Header) (max_block_level : Z) : outcome E (Z * bool) :=
  if cp_is_empty (hdr_parents_by_level header) then Ok (max_block_level, true)
  else
    state ← State_new fuel header;
    '(passed, pow) ← check_pow state (hdr_nonce header);
    Ok (calc_level_from_pow pow max_block_level, passed).
End pow.
