(* ===== verification/PowThms.v ===== *)
(** * What proof of work establishes

    The Layer-0 digest commits to the network and to the whole header, the
    verdict is the comparison with the lifted target, the block level counts
    leading zero bits, and kHeavyHash never overflows its 16-bit sums. *)

From stdpp Require Import base list gmap strings.
From Stdlib Require Import ZArith Lia.
From S2P Require Import Prelude Tx Bytes Hashing Header HeaderThms HeaderHash Uint UintThms Target Pow.

Local Open Scope Z_scope.

(** ** Integers from bytes *)

Lemma from_le_bytes_S n b : Uint.from_le_bytes (S n) b = le_val (take 8 b) :: Uint.from_le_bytes n (drop 8 b).
Proof.
  unfold Uint.from_le_bytes. cbn [seq fmap list_fmap]. f_equal. rewrite <- fmap_S_seq, <- list_fmap_compose.
  apply list_fmap_ext. intros i x _. simpl. rewrite drop_drop. do 3 f_equal. lia.
Qed.

Lemma from_le_bytes_spec n b : length b = (8 * n)%nat → Forall is_byte b →
  uint_wf n (Uint.from_le_bytes n b) ∧ uval (Uint.from_le_bytes n b) = le_val b.
Proof.
  revert b. induction n as [|n IH]; intros b Hl Hb.
  { apply nil_length_inv in Hl as ->. split; [split; [done|constructor]|done]. }
  rewrite from_le_bytes_S. destruct (IH (drop 8 b)) as [[Hw1 Hw2] Hv]; [rewrite length_drop; lia|by apply Forall_drop|].
  assert (is_limb (le_val (take 8 b))) as Ht.
  { pose proof (le_val_bound (take 8 b) ltac:(by apply Forall_take)) as Hbd. rewrite length_take, Nat.min_l in Hbd by lia.
    exact Hbd. }
  split; [split; [simpl; lia|by constructor]|]. cbn [uval]. rewrite Hv.
  rewrite <- (take_drop 8 b) at 3. rewrite le_val_app, length_take, Nat.min_l by lia. done.
Qed.

Lemma narrow_spec u : uint_wf 8 u → uval u < 2 ^ 256 →
  ∃ v, Uint.try_narrow 4 u = Some v ∧ uint_wf 4 v ∧ uval v = uval u.
Proof.
  intros [Hl Hw] Hv. unfold Uint.try_narrow.
  assert (uint_wf 4 (take 4 u)) as Hw1 by (split; [rewrite length_take; lia|by apply Forall_take]).
  assert (uint_wf 4 (drop 4 u)) as Hw2 by (split; [rewrite length_drop; lia|by apply Forall_drop]).
  assert (uval u = uval (take 4 u) + 2 ^ 256 * uval (drop 4 u)) as Heq.
  { rewrite <- (take_drop 4 u) at 1. rewrite uval_app, length_take, Nat.min_l by lia. done. }
  pose proof (uval_bound _ _ Hw1). pose proof (uval_bound _ _ Hw2).
  assert (uval (drop 4 u) = 0) as Hz by nia.
  destruct (existsb _ _) eqn:Hex; [|exists (take 4 u); split_and!; [done|done|lia]].
  exfalso. apply existsb_exists in Hex as (x & Hx & Hne). apply negb_true_iff, Z.eqb_neq in Hne.
  apply list_elem_of_In in Hx. apply Hne. clear -Hz Hx Hw2.
  destruct Hw2 as [_ Hw2]. revert Hz. induction Hw2 as [|a l Ha Hl IH]; [by apply elem_of_nil in Hx|].
  cbn [uval]. intros Hz. pose proof (uval_bound (length l) l (conj eq_refl Hl)). unfold is_limb in *. rewrite Limb_eq in *.
  apply elem_of_cons in Hx as [->|Hx]; [lia|]. apply IH; [done|lia].
Qed.

Lemma bit_length_le x k : 0 ≤ x → 0 ≤ k → bit_length x ≤ k ↔ x < 2 ^ k.
Proof.
  intros Hx Hk. unfold bit_length. destruct (Z.eqb_spec x 0) as [->|Hne].
  - split; [|done]. intros _. by apply Z.pow_pos_nonneg.
  - rewrite Z.log2_lt_pow2 by lia. lia.
Qed.

Lemma calc_level_spec pow max_level level : uint_wf 8 pow → 0 < level → level ≤ max_level →
  level ≤ calc_level_from_pow_512 pow max_level ↔ uval pow < 2 ^ (256 + max_level - level).
Proof.
  intros Hw Hl Hm. unfold calc_level_from_pow_512, calc_level_from_pow.
  destruct (shr_spec 8 pow 256) as [Hw' Hv]; [lia|done|lia|]. change (256 mod Uint.BITS 8) with 256 in Hv.
  pose proof (uval_bound _ _ Hw) as Hb. rewrite Limb_eq in Hb. change ((2 ^ 64) ^ Z.of_nat 8) with (2 ^ 512) in Hb.
  destruct (narrow_spec (Uint.shr 8 pow 256)) as (v & -> & Hwv & Hvv); [done|rewrite Hv; apply Z.div_lt_upper_bound; lia|].
  simpl default. rewrite (bits_spec 4) by done. rewrite Hvv, Hv.
  assert (level ≤ Z.max (max_level - bit_length (uval pow / 2 ^ 256)) 0 ↔ bit_length (uval pow / 2 ^ 256) ≤ max_level - level) as -> by lia.
  rewrite bit_length_le; [|apply Z.div_pos; lia|lia].
  replace (256 + max_level - level) with (256 + (max_level - level)) by lia. rewrite Z.pow_add_r by lia.
  split; [intros Hlt|intros Hlt; by apply Z.div_lt_upper_bound].
  pose proof (Z.div_mod (uval pow) (2 ^ 256)). pose proof (Z.mod_pos_bound (uval pow) (2 ^ 256)). nia.
Qed.

(** ** kHeavyHash *)

Definition is_nibble (x : Z) : Prop := 0 ≤ x < 16.
Record matrix_ok (m : Matrix) : Prop := {
  mx_rows : length m = 64%nat;
  mx_cols : Forall (λ row, length row = 64%nat ∧ Forall is_nibble row) m;
}.

Lemma land_nibble x : is_nibble (Z.land x 0x0F).
Proof. change 0x0F with (Z.ones 4). rewrite Z.land_ones by lia. apply Z.mod_pos_bound. lia. Qed.

Lemma rand_row_ok n g : length (rand_row n g).1 = (16 * n)%nat ∧ Forall is_nibble (rand_row n g).1.
Proof.
  revert g. induction n as [|n IH]; intros g; cbn [rand_row]; [done|].
  destruct (XoShiRo_u64 g) as [val g1]. specialize (IH g1). destruct (rand_row n g1) as [rest g2]. cbn [fst] in *.
  destruct IH as [Hl Hf]. split; [rewrite length_app, length_fmap, length_seq; lia|].
  apply Forall_app. split; [|done]. apply Forall_fmap, Forall_forall. intros i _. apply land_nibble.
Qed.

Lemma rand_rows_ok n g : length (rand_rows n g).1 = n ∧
  Forall (λ row, length row = 64%nat ∧ Forall is_nibble row) (rand_rows n g).1.
Proof.
  revert g. induction n as [|n IH]; intros g; cbn [rand_rows]; [done|].
  pose proof (rand_row_ok 4 g) as Hrow. destruct (rand_row 4 g) as [row g1]. specialize (IH g1).
  destruct (rand_rows n g1) as [rest g2]. cbn [fst] in *. destruct IH as [Hl Hf]. split; [simpl; lia|by constructor].
Qed.

Lemma generate_ok {E} fuel hash m : Matrix_generate (E:=E) fuel hash = Ok m → matrix_ok m.
Proof.
  unfold Matrix_generate. generalize (XoShiRo_new hash). induction fuel as [|fuel IH]; intros g; cbn [generate_loop]; [done|].
  unfold rand_matrix_no_rank_check. pose proof (rand_rows_ok 64 g) as [Hr Hc]. destruct (rand_rows 64 g) as [mat g'].
  cbn [fst] in *. destruct (_ =? _)%nat; [|apply IH]. intros [= <-]. by split.
Qed.

Lemma nibbles_ok hash : length hash = 32%nat → Forall is_byte hash →
  length (nibbles hash) = 64%nat ∧ Forall is_nibble (nibbles hash).
Proof.
  intros Hl Hb. unfold nibbles. split.
  - rewrite <- (Nat.mul_1_l 64). replace 64%nat with (2 * length hash)%nat by lia. clear.
    induction hash as [|b hash IH]; [done|]. cbn [fmap list_fmap concat app length]. lia.
  - clear Hl. induction Hb as [|b hash Hb _ IH]; [constructor|]. cbn [fmap list_fmap concat app].
    constructor; [|constructor; [apply land_nibble|done]]. rewrite Z.shiftr_div_pow2 by lia. unfold is_byte, is_nibble in *.
    change (2 ^ 4) with 16. split; [apply Z.div_pos; lia|apply Z.div_lt_upper_bound; lia].
Qed.

(** A row of 64 products of 4-bit numbers sums to less than [2^14]. *)
Lemma dot_ok {E} row vec : length row = 64%nat → Forall is_nibble row → Forall is_nibble vec →
  ∃ s, dot (E:=E) row vec = Ok s ∧ 0 ≤ s ≤ 225 * 64.
Proof.
  intros Hl Hr Hv. unfold dot.
  assert (∀ l s, Forall (λ p, is_nibble p.1 ∧ is_nibble p.2) l → 0 ≤ s → s + 225 * Z.of_nat (length l) ≤ 225 * 64 →
    ∃ s', for_each (λ sum '(a, b), p ← chk_u16 (a * b); chk_u16 (sum + p)) l s = @Ok E _ s' ∧ 0 ≤ s' ≤ 225 * 64) as Hloop.
  { induction l as [|[a b] l IH]; intros s Hf Hs Hb; cbn [for_each]; [exists s; split; [done|simpl in Hb; lia]|].
    apply Forall_cons in Hf as [[Ha Hb'] Hf]. unfold is_nibble in *. cbn [fst snd length] in *.
    assert (0 ≤ a * b ≤ 225) by nia. unfold chk_u16.
    rewrite (proj2 (Z.leb_le 0 (a * b))), (proj2 (Z.ltb_lt (a * b) (2 ^ 16))) by lia. cbn [andb mbind outcome_bind].
    rewrite (proj2 (Z.leb_le 0 (s + a * b))), (proj2 (Z.ltb_lt (s + a * b) (2 ^ 16))) by lia. cbn [andb mbind outcome_bind].
    apply IH; [done|lia|lia]. }
  apply Hloop; [|lia|rewrite length_zip_with; lia].
  apply Forall_forall. intros [a b] Hp. rewrite Forall_forall in Hr, Hv.
  split; [eapply Hr, elem_of_zip_l|eapply Hv, elem_of_zip_r]; exact Hp.
Qed.

(** Each pair of rows gives one byte. *)
Lemma products_ok {E} n m vec : length m = (2 * n)%nat →
  Forall (λ row, length row = 64%nat ∧ Forall is_nibble row) m → Forall is_nibble vec →
  ∃ l, products (E:=E) m vec = Ok l ∧ length l = n.
Proof.
  revert m. induction n as [|n IH]; intros m Hl Hm Hv; [by apply nil_length_inv in Hl as ->; exists []|].
  destruct m as [|r1 [|r2 m]]; [simpl in Hl; lia..|]. cbn [products].
  apply Forall_cons in Hm as [[Hr1 Hn1] [[Hr2 Hn2] Hm]%Forall_cons].
  destruct (dot_ok (E:=E) r1 vec Hr1 Hn1 Hv) as (s1 & -> & Hs1), (dot_ok (E:=E) r2 vec Hr2 Hn2 Hv) as (s2 & -> & Hs2).
  destruct (IH m) as (l & -> & Hln); [simpl in Hl; lia|done|done|]. cbn [mbind outcome_bind].
  eexists. split; [reflexivity|simpl; lia].
Qed.

Lemma from_le_u64_ok w : length w = 4%nat → length (from_le_u64 w) = 32%nat ∧ Forall is_byte (from_le_u64 w).
Proof.
  intros Hl. unfold from_le_u64. split.
  - destruct w as [|a [|b [|c [|d [|]]]]]; try (simpl in Hl; lia). cbn [fmap list_fmap concat].
    rewrite !length_app, !length_to_le_bytes. done.
  - clear. induction w as [|a w IH]; [constructor|]. cbn [fmap list_fmap concat]. apply Forall_app. split; [apply to_le_bytes_byte|done].
Qed.

Lemma absorb_length w s : (length w ≤ length s)%nat → length (absorb w s) = length s.
Proof. intros H. unfold absorb. rewrite length_app, length_zip_with, length_take, length_drop. lia. Qed.

Lemma to_le_u64_length hash : length (to_le_u64 hash) = 4%nat.
Proof. unfold to_le_u64. by rewrite length_fmap, length_seq. Qed.

Section verdict.
Context `{Crypto, PowPrimitives}.

Lemma squeeze_ok s : length s = 25%nat →
  length (from_le_u64 (take 4 (keccak_f1600 s))) = 32%nat ∧ Forall is_byte (from_le_u64 (take 4 (keccak_f1600 s))).
Proof. intros Hs. apply from_le_u64_ok. by rewrite length_take, keccak_length. Qed.

Lemma heavy_hash_ok {E} m hash : matrix_ok m → length hash = 32%nat → Forall is_byte hash →
  ∃ d, heavy_hash (E:=E) m hash = Ok d ∧ length d = 32%nat ∧ Forall is_byte d.
Proof.
  intros [Hr Hc] Hl Hb. unfold heavy_hash. destruct (nibbles_ok hash Hl Hb) as [_ Hn].
  destruct (products_ok (E:=E) 32 m (nibbles hash)) as (l & -> & Hl'); [done..|]. cbn [mbind outcome_bind].
  eexists. split; [reflexivity|]. apply squeeze_ok. rewrite absorb_length; [done|]. rewrite to_le_u64_length. simpl. lia.
Qed.

Lemma finalize_with_nonce_ok hash timestamp nonce :
  length (finalize_with_nonce (PowHash_new hash timestamp) nonce) = 32%nat ∧
  Forall is_byte (finalize_with_nonce (PowHash_new hash timestamp) nonce).
Proof.
  apply squeeze_ok. rewrite length_insert. unfold PowHash_new.
  rewrite length_insert, absorb_length; [done|]. rewrite to_le_u64_length. simpl. lia.
Qed.

(** The algorithm ids that the node can verify. *)
Definition algo_known (id : Z) : Prop := id = 1 ∨ id = 2 ∨ id = 3 ∨ id = 4.

Lemma tag_ok {E} fuel header net s nonce : algo_known (hdr_pow_algo_id header) →
  StateLayer0_new (E:=E) fuel header net = Ok s →
  ∃ tag, calculate_l1_tag (E:=E) s nonce = Ok tag ∧ len tag ≤ 128.
Proof.
  intros Hid Hs. unfold StateLayer0_new in Hs. apply bind_Ok in Hs as (pre & Hpre & Hs).
  destruct (Z.eqb_spec (hdr_pow_algo_id header) POW_ALGO_ID_KHEAVYHASH) as [H1|H1].
  - apply bind_Ok in Hs as ([hs m] & Hm & [= <-]). apply bind_Ok in Hm as (m' & Hgen & [= <- <-]).
    unfold calculate_l1_tag. cbn [s0_pow_algo_id s0_hasher s0_matrix]. rewrite H1. cbn [unwrap mbind outcome_bind].
    destruct (finalize_with_nonce_ok (l1_seed32_for_kheavyhash_v1 pre) (hdr_timestamp header) nonce) as [Hl Hb].
    destruct (heavy_hash_ok (E:=E) m' _ (generate_ok _ _ _ Hgen) Hl Hb) as (d & -> & Hd & _). exists d. split; [done|lia].
  - cbn [mbind outcome_bind] in Hs. injection Hs as <-. unfold calculate_l1_tag. cbn [s0_pow_algo_id s0_pre_pow_hash_64 s0_network_id].
    destruct Hid as [Hid|[Hid|[Hid|Hid]]]; [done|..]; rewrite Hid; cbn; (eexists; split; [reflexivity|]).
    1: unfold argon2id_l1_tag_v1; rewrite argon2id_length; lia.
    all: unfold blake2b_sha3_l1_tag_v1; rewrite length_app, blake2b_length, sha3_512_length; lia.
Qed.

(** For a header with a known algorithm id: when the id is not kHeavyHash
    the state of the check is built whenever the header has a pre-proof hash
    (for kHeavyHash this also needs the matrix generator, a rejection sampler,
    to find a matrix of full rank). From that state the check neither panics
    nor fails: the proof passes exactly when the digest, as a 512-bit number,
    is at most the target of the header shifted left by 256 bits, and the
    header has block level [level] exactly when the digest is below
    [2^(256 + max_level - level)]. *)
Theorem pow_verdict fuel header net max_level h : algo_known (hdr_pow_algo_id header) →
  is_uint 4 (hdr_bits header) → pre_pow_hash_64 (E:=PowLayer0Error) header = Ok h →
  (hdr_pow_algo_id header ≠ POW_ALGO_ID_KHEAVYHASH → ∃ s, StateLayer0_new (E:=PowLayer0Error) fuel header net = Ok s) ∧
  ∀ s, StateLayer0_new (E:=PowLayer0Error) fuel header net = Ok s →
  ∃ passed pow, check_pow_layer0 s (hdr_nonce header) = Ok (passed, pow) ∧ uval pow < 2 ^ 512 ∧
    (passed = true ↔ uval pow ≤ uval (from_compact_target_bits (hdr_bits header)) * 2 ^ 256) ∧
    ∀ level, 0 < level → level ≤ max_level →
      level ≤ calc_level_from_pow_512 pow max_level ↔ uval pow < 2 ^ (256 + max_level - level).
Proof.
  intros Hid Hbits Hpre. split.
  { intros Hne. unfold StateLayer0_new. rewrite Hpre. cbn [mbind outcome_bind].
    rewrite (proj2 (Z.eqb_neq _ _) Hne). by eexists. }
  intros s Hs. destruct (tag_ok fuel header net s (hdr_nonce header) Hid Hs) as (tag & Htag & Hlen).
  unfold check_pow_layer0, calculate_pow_layer0, pow_finalizer_blake2b_512. rewrite Htag. cbn [mbind outcome_bind].
  rewrite (proj2 (Z.ltb_ge _ _)) by (unfold POW_L1_TAG_MAX_BYTES; lia). cbn [mbind outcome_bind].
  set (d := blake2b 64 _ _). destruct (from_le_bytes_spec 8 d) as [Hw Hv]; [apply blake2b_length|apply blake2b_bytes|].
  eexists _, _. split; [reflexivity|]. pose proof (uval_bound _ _ Hw) as Hb. rewrite Limb_eq in Hb.
  change ((2 ^ 64) ^ Z.of_nat 8) with (2 ^ 512) in Hb. split; [lia|]. split.
  - assert (s0_target_512 s = from_compact_target_bits_512 (hdr_bits header)) as ->.
    { unfold StateLayer0_new in Hs. apply bind_Ok in Hs as (pre & _ & Hs). apply bind_Ok in Hs as ([hs m] & _ & [= <-]). done. }
    destruct (from_compact_wf (hdr_bits header)) as [Htw Htb]; [unfold is_uint in Hbits; lia|].
    destruct (widen_spec 4 8 _ Htw ltac:(lia)) as [Hww Hwv]. unfold from_compact_target_bits_512.
    destruct (shl_spec 8 _ 256 ltac:(lia) Hww ltac:(lia)) as [Hsw Hsv].
    rewrite (ge_spec 8) by done. rewrite Z.leb_le, Hsv, Hwv. change (256 mod Uint.BITS 8) with 256.
    pose proof (uval_bound _ _ Htw). change (2 ^ Uint.BITS 8) with (2 ^ 256 * 2 ^ 256). by rewrite Z.mod_small by lia.
  - intros level H1 H2. by apply calc_level_spec.
Qed.

(** ** Binding *)

(** The hasher of the finalizer after the proof of a state was written to it. *)
Definition finalizer_hasher (s : StateLayer0) (nonce : Z) (tag : list byte) : Hasher :=
  mkHasher POW_FINALIZER_DOMAIN 64
    (pow_preimage (s0_network_id s) (s0_pow_algo_id s) (s0_pre_pow_hash_64 s) (s0_timestamp s) (s0_bits s) nonce tag).

Lemma len_u16_inj n1 n2 l1 l2 : len n1 < 2 ^ 16 → len n2 < 2 ^ 16 →
  len_u16 n1 ++ n1 ++ l1 = len_u16 n2 ++ n2 ++ l2 → n1 = n2 ∧ l1 = l2.
Proof.
  intros H1 H2 Heq. unfold len_u16 in Heq. rewrite !Z.mod_small in Heq by lia.
  apply prefix_code in Heq as [Hl Heq]; [|unfold is_uint; simpl; lia..]. apply app_inj_1 in Heq; [done|lia].
Qed.

Lemma state_fields {E} fuel header net s : StateLayer0_new (E:=E) fuel header net = Ok s →
  pre_pow_hash_64 (E:=E) header = Ok (s0_pre_pow_hash_64 s) ∧ s0_network_id s = net ∧ s0_timestamp s = hdr_timestamp header ∧
  s0_bits s = hdr_bits header ∧ s0_pow_algo_id s = hdr_pow_algo_id header.
Proof.
  unfold StateLayer0_new. intros Hs. apply bind_Ok in Hs as (pre & Hpre & Hs).
  apply bind_Ok in Hs as ([hs m] & _ & [= <-]). done.
Qed.

Lemma pre_pow_uint {E} header x : pre_pow_hash_64 (E:=E) header = Ok x → is_uint 64 x.
Proof.
  unfold pre_pow_hash_64, hash_override_nonce_time_64. intros Hx. apply bind_Ok in Hx as (h & Hh & [= <-]).
  unfold is_uint, hash64_from_bytes. pose proof (le_val_bound (finalize h) (proj2 (finalize_shape h))) as Hb.
  rewrite (proj1 (finalize_shape h)) in Hb.
  unfold write_header_preimage in Hh. apply bind_Ok in Hh as (l & Hl & [= <-]).
  destruct (write_header_preimage_spec (E:=E) BlockPrePowHash64 header l 0 0 Hl) as (h' & Hh' & Hp & _).
  unfold write_header_preimage in Hh'. rewrite Hl in Hh'. cbn [mbind outcome_bind] in Hh'. injection Hh' as Hh'.
  injection Hp as _ Hp. rewrite <- Hh' in Hp. rewrite Hp in Hb. exact Hb.
Qed.

(** Equal pre-PoW hashes of headers with the same nonce and timestamp. *)
Lemma pre_pow_inj {E} h1 h2 x : header_typed h1 → header_typed h2 →
  pre_pow_hash_64 (E:=E) h1 = Ok x → pre_pow_hash_64 (E:=E) h2 = Ok x →
  hdr_nonce h1 = hdr_nonce h2 → hdr_timestamp h1 = hdr_timestamp h2 →
  visible h1 = visible h2 ∨ header_collision E BlockPrePowHash64 BlockPrePowHash64 h1 h2 0 0 0 0.
Proof.
  intros H1 H2 Hx1 Hx2 Hn Ht. unfold pre_pow_hash_64, hash_override_nonce_time_64 in *.
  destruct (preimage_total (E:=E) BlockPrePowHash64 h1 0 0 (ht_parents _ H1)) as (l1 & y1 & Hl1 & Hy1 & Hp1 & Hw1).
  destruct (preimage_total (E:=E) BlockPrePowHash64 h2 0 0 (ht_parents _ H2)) as (l2 & y2 & Hl2 & Hy2 & Hp2 & Hw2).
  rewrite Hy1 in Hx1. rewrite Hy2 in Hx2. injection Hx1 as Hx1. injection Hx2 as Hx2. rewrite <- Hx2 in Hx1.
  pose proof Hp1 as Hp1'. pose proof Hp2 as Hp2'. injection Hp1' as _ Hlen1. injection Hp2' as _ Hlen2.
  apply hash64_from_bytes_inj in Hx1; [| | |apply finalize_shape..].
  2,3: rewrite (proj1 (finalize_shape _)); done.
  apply finalize_eq in Hx1 as [Hw|]; [left|right; by exists y1, y2|congruence].
  rewrite Hw1, Hw2 in Hw. apply app_inv_head in Hw.
  destruct (enc_header_inj h1 h2 l1 l2 0 0 0 0 H1 H2 Hl1 Hl2) with (5 := Hw) as (_ & _ & Hv); [done..|]. by apply Hv.
Qed.

(** C18. Proof of work commits to the network and to every hashed field of the
    header: two headers whose Layer-0 digests agree have the same visible
    fields on the same network, or the strings hashed for their pre-PoW hashes
    or by the finalizer collide. *)
Theorem pow_binds_header fuel1 fuel2 net1 net2 h1 h2 s1 s2 d :
  header_typed h1 → header_typed h2 → len net1 < 2 ^ 16 → len net2 < 2 ^ 16 →
  StateLayer0_new (E:=PowLayer0Error) fuel1 h1 net1 = Ok s1 → StateLayer0_new (E:=PowLayer0Error) fuel2 h2 net2 = Ok s2 →
  calculate_pow_layer0 s1 (hdr_nonce h1) = Ok d → calculate_pow_layer0 s2 (hdr_nonce h2) = Ok d →
  net1 = net2 ∧ visible h1 = visible h2 ∨
  header_collision PowLayer0Error BlockPrePowHash64 BlockPrePowHash64 h1 h2 0 0 0 0 ∨
  ∃ tag1 tag2, calculate_l1_tag (E:=PowLayer0Error) s1 (hdr_nonce h1) = Ok tag1 ∧ calculate_l1_tag (E:=PowLayer0Error) s2 (hdr_nonce h2) = Ok tag2 ∧
    collides (finalizer_hasher s1 (hdr_nonce h1) tag1) (finalizer_hasher s2 (hdr_nonce h2) tag2).
Proof.
  intros H1 H2 Hn1 Hn2 Hs1 Hs2 Hd1 Hd2.
  destruct (state_fields _ _ _ _ Hs1) as (Hp1 & Ha1 & Ht1 & Hb1 & Hi1).
  destruct (state_fields _ _ _ _ Hs2) as (Hp2 & Ha2 & Ht2 & Hb2 & Hi2).
  assert (∀ s n, calculate_pow_layer0 s n = Ok d → ∃ tag, calculate_l1_tag (E:=PowLayer0Error) s n = Ok tag ∧ d = blake2b 64 POW_FINALIZER_DOMAIN
    (pow_preimage (s0_network_id s) (s0_pow_algo_id s) (s0_pre_pow_hash_64 s) (s0_timestamp s) (s0_bits s) n tag)) as Hd.
  { intros s n Hd. unfold calculate_pow_layer0, pow_finalizer_blake2b_512 in Hd. apply bind_Ok in Hd as (tag & Htag & Hd).
    destruct (_ <? _); [done|]. injection Hd as <-. by exists tag. }
  apply Hd in Hd1 as (tag1 & Htag1 & ->), Hd2 as (tag2 & Htag2 & Heq).
  destruct (finalize_eq (finalizer_hasher s1 (hdr_nonce h1) tag1) (finalizer_hasher s2 (hdr_nonce h2) tag2))
    as [Hpre|Hc]; [done|exact Heq| |right; right; by exists tag1, tag2].
  cbn [finalizer_hasher written] in Hpre. rewrite Ha1, Ht1, Hb1, Hi1, Ha2, Ht2, Hb2, Hi2 in Hpre.
  apply len_u16_inj in Hpre as [-> Hpre]; [|done|done].
  apply (prefix_code (enc := λ b, [b])) in Hpre as [_ Hpre]; [|done|done].
  apply prefix_code in Hpre as [Hpow Hpre]; [|by eapply pre_pow_uint..].
  apply prefix_code in Hpre as [Htime Hpre]; [|apply H1|apply H2].
  apply prefix_code in Hpre as [_ Hpre]; [|apply H1|apply H2].
  apply prefix_code in Hpre as [Hnonce _]; [|apply H1|apply H2].
  destruct (pre_pow_inj (E:=PowLayer0Error) h1 h2 (s0_pre_pow_hash_64 s1)) as [Hv|Hc]; [done|done|done|by rewrite Hpow|done|done| |].
  - by left.
  - by right; left.
Qed.

(** A header with an algorithm id that the node does not know makes the
    computation of its block level panic, although the check of algorithm ids
    rejects it with an error: the caller must run that check first. *)
Theorem unknown_algo_id_panics {E} fuel header net max_level :
  cp_ok (hdr_parents_by_level header) → hdr_parents_by_level header ≠ [] → ~ algo_known (hdr_pow_algo_id header) →
  (∀ active, check_algo_id (hdr_pow_algo_id header) active = Err (UnknownAlgoId (hdr_pow_algo_id header))) ∧
  calc_block_level_check_pow_layer0 (E:=E) fuel header net max_level = Panic.
Proof.
  intros Hok Hne Hid. unfold algo_known in Hid. split.
  { intros active. unfold check_algo_id, required_algo_id, POW_ALGO_ID_BLAKE2B_SHA3, POW_ALGO_ID_KHEAVYHASH.
    destruct active; (destruct (Z.eqb_spec (hdr_pow_algo_id header) 3), (Z.eqb_spec (hdr_pow_algo_id header) 1)); done || lia. }
  unfold calc_block_level_check_pow_layer0, cp_is_empty. rewrite bool_decide_eq_false_2 by done.
  unfold StateLayer0_new, pre_pow_hash_64, hash_override_nonce_time_64.
  destruct (preimage_total (E:=E) BlockPrePowHash64 header 0 0 Hok) as (l & y & _ & -> & _). cbn [mbind outcome_bind].
  rewrite (proj2 (Z.eqb_neq _ POW_ALGO_ID_KHEAVYHASH)) by (unfold POW_ALGO_ID_KHEAVYHASH; lia). cbn [mbind outcome_bind].
  unfold check_pow_layer0, calculate_pow_layer0, calculate_l1_tag. cbn [s0_pow_algo_id s0_hasher].
  unfold POW_ALGO_ID_BLAKE2B_SHA3, POW_ALGO_ID_PALW_REPLICA, POW_ALGO_ID_ARGON2ID.
  rewrite !(proj2 (Z.eqb_neq _ _)) by lia. done.
Qed.
End verdict.

(** ** Instances *)

Definition toy_primitives : PowPrimitives.
Proof.
  refine {|
    keccak_f1600 s := (λ x, x mod 2 ^ 64) <$> s;
    sha3_512 d := toy_digest 64 d;
    argon2id p s := toy_digest 32 (p ++ s);
  |}.
  - intros s Hs. by rewrite length_fmap.
  - intros s. apply Forall_fmap, Forall_forall. intros x _. pose proof (Z.mod_pos_bound x (2 ^ 64)). unfold is_u64, U64_MAX. simpl. lia.
  - intros d. apply toy_digest_length.
  - intros d. apply toy_digest_bytes.
  - intros p s. apply toy_digest_length.
  - intros p s. apply toy_digest_bytes.
Defined.

#[local] Existing Instance toy_crypto.
#[local] Existing Instance toy_primitives.

Definition sample : Header := sample_header 1 9 [(2, [5; 6]); (3, [5])].
Definition sample_state : StateLayer0 :=
  match StateLayer0_new (E:=PowLayer0Error) 1 sample (b_ "simnet") with
  | Ok s => s | _ => mkStateLayer0 None [] 0 [] 0 0 0 None end.
Lemma sample_state_eq : StateLayer0_new (E:=PowLayer0Error) 1 sample (b_ "simnet") = Ok sample_state.
Proof. vm_compute. reflexivity. Qed.

Lemma pow_verdict_witness : ∃ passed pow,
  check_pow_layer0 sample_state (hdr_nonce sample) = Ok (passed, pow) ∧
  (passed = true ↔ uval pow ≤ uval (from_compact_target_bits (hdr_bits sample)) * 2 ^ 256).
Proof.
  destruct (pre_pow_hash_64 (E:=PowLayer0Error) sample) as [h| | |] eqn:Hpre;
    [|pose proof sample_state_eq as Hc; unfold StateLayer0_new in Hc; rewrite Hpre in Hc; discriminate Hc..].
  destruct (pow_verdict 1 sample (b_ "simnet") 225 h) as (_ & Hall).
  - right; right; left. reflexivity.
  - unfold is_uint. cbn. lia.
  - exact Hpre.
  - destruct (Hall sample_state sample_state_eq) as (passed & pow & Hok & _ & Hp & _).
    exact (ex_intro _ passed (ex_intro _ pow (conj Hok Hp))).
Defined.

Lemma pow_binds_header_witness : ∃ d,
  calculate_pow_layer0 sample_state (hdr_nonce sample) = Ok d ∧
  (b_ "simnet" = b_ "simnet" ∧ visible sample = visible sample ∨
   header_collision (H:=toy_crypto) PowLayer0Error BlockPrePowHash64 BlockPrePowHash64 sample sample 0 0 0 0 ∨
   ∃ tag1 tag2, calculate_l1_tag (E:=PowLayer0Error) sample_state (hdr_nonce sample) = Ok tag1 ∧
     calculate_l1_tag (E:=PowLayer0Error) sample_state (hdr_nonce sample) = Ok tag2 ∧
     collides (H:=toy_crypto) (finalizer_hasher sample_state (hdr_nonce sample) tag1) (finalizer_hasher sample_state (hdr_nonce sample) tag2)).
Proof.
  assert (∃ d, calculate_pow_layer0 sample_state (hdr_nonce sample) = Ok d) as [d Hd].
  { eexists. vm_compute. reflexivity. }
  exists d. split; [exact Hd|].
  assert (header_typed sample) as Ht by (apply sample_header_typed; unfold is_uint; simpl; lia).
  refine (pow_binds_header 1 1 (b_ "simnet") (b_ "simnet") sample sample sample_state sample_state d
    Ht Ht _ _ sample_state_eq sample_state_eq Hd Hd); simpl; lia.
Defined.

Lemma unknown_algo_id_panics_witness :
  calc_block_level_check_pow_layer0 (E:=unit) 0
    (mkHeader 0 1 [(1, [5])] 7 8 9 1000 545259519 0 7 12 77 11 5 0 0 6 0 0 0 0 0 0 0 0 0 0 0 0 0) (b_ "simnet") 225 = Panic.
Proof.
  refine (proj2 (unknown_algo_id_panics 0
    (mkHeader 0 1 [(1, [5])] 7 8 9 1000 545259519 0 7 12 77 11 5 0 0 6 0 0 0 0 0 0 0 0 0 0 0 0 0) (b_ "simnet") 225 _ _ _)).
  - cbn. unfold U8_MAX. split; [lia|split; [discriminate|exact I]].
  - discriminate.
  - unfold algo_known. cbn. lia.
Defined.
