(* ===== verification/Window.v ===== *)
(** * Block windows, difficulty and past median time

    Models [src/consensus/src/processes/window.rs], [difficulty.rs] and
    [past_median_time.rs], and [model/stores/block_window_cache.rs]: the
    sampled windows of a block, their caches, the DAA score, the difficulty
    retarget (of the whole DAG and of one lane) and the past median time.

    A window is a [BinaryHeap<Reverse<SortableBlock>>]. Its iteration order is
    unspecified, so a window is a list in some order: [push] and [append] add
    elements, [peek] and [pop] find the least sortable block. *)

From stdpp Require Import base list gmap sorting.
From Stdlib Require Import ZArith Lia.
From S2P Require Import Prelude Tx ReachStore Reach Bytes Header Uint Ghostdag Pow.

Local Open Scope Z_scope.

(** ** Rule errors of headers

    The errors of [src/consensus/core/src/errors/block.rs] that the header
    pipeline returns. Text payloads are not kept. *)

Inductive RuleError : Type :=
| WrongBlockVersion (version expected : Z)
| UnknownPowAlgoId (id : Z)
| PalwAlgo4NotAccepted
| NonZeroEvmHeaderFieldsBeforeActivation
| NonZeroPalwHeaderFieldsBeforeActivation
| PalwComponentWorkMismatch (expected_hash_work expected_compute_work actual_hash_work actual_compute_work : Z)
| PalwComputeCapExhausted
| PalwSpamBaseStampTooWeak (required_bits actual_bits : Z)
| PalwSpamAccumulatorInvalid
| PalwSpamAccumulatorCommitmentMismatch (expected actual : Hash64)
| PalwSpamRateExceeded (prospective capacity : Z)
| PalwSpamDynamicStampTooWeak (required_bits actual_bits : Z)
| TimeTooFarIntoTheFuture (timestamp max_block_time : Z)
| NoParents
| TooManyParents (n limit : Z)
| OriginParent
| InvalidParentsRelation (a b : BlockHash)
| InvalidParent (parent : BlockHash)
| MissingParents (parents : list BlockHash)
| PruningViolation (pruning_point : BlockHash)
| UnexpectedHeaderDaaScore (expected actual : Z)
| UnexpectedHeaderBlueScore (expected actual : Z)
| UnexpectedHeaderBlueWork (expected actual : Z)
| UnexpectedDifficulty (hash : BlockHash) (actual expected : Z)
| TimeTooOld (timestamp past_median_time : Z)
| KnownInvalid
| MergeSetTooBig (size limit : Z)
| ViolatingBoundedMergeDepth
| InvalidPoW
| UnexpectedIndirectParents
| InsufficientDaaWindowSize (size : Z).

(** ** Bounded heaps *)

Abbreviation BlockWindowHeap := (list SortableBlock) (only parsing).

Definition sortable_lt (a b : SortableBlock) : bool := match sortable_cmp a b with Lt => true | _ => false end.

(** [peek] of the reversed heap: the least block. *)
Fixpoint peek (heap : BlockWindowHeap) : option SortableBlock :=
  match heap with
  | [] => None
  | b :: heap => match peek heap with None => Some b | Some m => Some (if sortable_lt m b then m else b) end
  end.
#[export] Instance sortable_eq_dec : EqDecision SortableBlock.
Proof. solve_decision. Defined.
Fixpoint remove_one (b : SortableBlock) (heap : BlockWindowHeap) : BlockWindowHeap :=
  match heap with [] => [] | x :: heap => if decide (x = b) then heap else x :: remove_one b heap end.
Definition pop (heap : BlockWindowHeap) : BlockWindowHeap :=
  match peek heap with None => heap | Some m => remove_one m heap end.

Record BoundedSizeBlockHeap := mkBounded {
  binary_heap : BlockWindowHeap;
  size_bound : nat;
}.
Definition bounded_new (bound : nat) : BoundedSizeBlockHeap := mkBounded [] bound.
Definition from_binary_heap (bound : nat) (heap : BlockWindowHeap) : BoundedSizeBlockHeap := mkBounded heap bound.
Definition reached_size_bound (h : BoundedSizeBlockHeap) : bool := (length (binary_heap h) =? size_bound h)%nat.

(** [*max >= r] on reversed blocks. *)
Definition can_push {E} (h : BoundedSizeBlockHeap) (b : SortableBlock) : outcome E bool :=
  if reached_size_bound h then m ← unwrap (peek (binary_heap h)); Ok (negb (sortable_lt b m)) else Ok true.

Definition try_push (h : BoundedSizeBlockHeap) (b : SortableBlock) : BoundedSizeBlockHeap * bool :=
  if reached_size_bound h then
    match peek (binary_heap h) with
    | Some m => if sortable_lt b m then (h, false) else (mkBounded (b :: pop (binary_heap h)) (size_bound h), true)
    | None => (mkBounded (b :: pop (binary_heap h)) (size_bound h), true)
    end
  else (mkBounded (b :: binary_heap h) (size_bound h), true).

Definition merge_ancestor_heap (h : BoundedSizeBlockHeap) (ancestor_heap : BlockWindowHeap) : BoundedSizeBlockHeap :=
  let heap := binary_heap h ++ ancestor_heap in
  mkBounded (Nat.iter (length heap - size_bound h) pop heap) (size_bound h).

(** ** The window manager *)

Inductive WindowType : Type := DifficultyWindow | MedianTimeWindow | VaryingWindow (size : nat).
Inductive SampledBlock : Type := Sampled (b : SortableBlock) | NonDaa (hash : BlockHash).

Record DaaWindow := mkDaaWindow {
  daa_window : BlockWindowHeap;
  daa_score : Z;
  mergeset_non_daa : gset BlockHash;
}.

Record SampledWindowManager (U : Type) := mkWindowManager {
  wm_gd : GhostdagManager U;
  block_window_cache_for_difficulty : gmap BlockHash BlockWindowHeap;
  block_window_cache_for_past_median_time : gmap BlockHash BlockWindowHeap;
  difficulty_window_size : nat;
  difficulty_sample_rate : Z;
  past_median_time_window_size : nat;
  past_median_time_sample_rate : Z;
  min_difficulty_window_size : nat;
  genesis_bits : Z;
  max_difficulty_target : list Z;
  target_time_per_block : Z;
}.
Arguments wm_gd {U}.
Arguments block_window_cache_for_difficulty {U}.
Arguments block_window_cache_for_past_median_time {U}.
Arguments difficulty_window_size {U}.
Arguments difficulty_sample_rate {U}.
Arguments past_median_time_window_size {U}.
Arguments past_median_time_sample_rate {U}.
Arguments min_difficulty_window_size {U}.
Arguments genesis_bits {U}.
Arguments max_difficulty_target {U}.
Arguments target_time_per_block {U}.
Arguments mkWindowManager {U}.

(** Store reads inside functions that return rule errors. *)
Definition no_err {E A} (m : outcome unit A) : outcome E A :=
  match m with Ok a => Ok a | Err _ => Panic | Panic => Panic | OutOfFuel => OutOfFuel end.

(** [u64::is_multiple_of]. *)
Definition is_multiple_of (a b : Z) : bool := if b =? 0 then a =? 0 else a mod b =? 0.

Section manager.
Context {U : Type} `{!ReachabilityService U} (wm : SampledWindowManager U).
Abbreviation gd := (wm_gd wm).

Definition get_daa_score (hash : BlockHash) : outcome unit Z := h ← get (headers_store gd) hash; mret (hdr_daa_score h).
Definition get_timestamp (hash : BlockHash) : outcome unit Z := h ← get (headers_store gd) hash; mret (hdr_timestamp h).
Definition get_blue_score (hash : BlockHash) : outcome unit Z := d ← get (ghostdag_store gd) hash; mret (blue_score d).
Definition get_blue_work (hash : BlockHash) : outcome unit Z := d ← get (ghostdag_store gd) hash; mret (blue_work d).

Definition window_size (t : WindowType) : nat :=
  match t with
  | DifficultyWindow => difficulty_window_size wm
  | MedianTimeWindow => past_median_time_window_size wm
  | VaryingWindow size => size
  end.
Definition sample_rate (t : WindowType) : Z :=
  match t with
  | DifficultyWindow => difficulty_sample_rate wm
  | MedianTimeWindow => past_median_time_sample_rate wm
  | VaryingWindow _ => 1
  end.
Definition cache_of (t : WindowType) : gmap BlockHash BlockWindowHeap :=
  match t with
  | DifficultyWindow => block_window_cache_for_difficulty wm
  | MedianTimeWindow => block_window_cache_for_past_median_time wm
  | VaryingWindow _ => ∅
  end.

Definition difficulty_full_window_size : outcome unit Z :=
  mul64 (Z.of_nat (difficulty_window_size wm)) (difficulty_sample_rate wm).
Definition lowest_daa_blue_score (d : GhostdagData) : outcome unit Z :=
  full ← difficulty_full_window_size; sub64 (Z.max (blue_score d) full) full.

(** The blocks of the merge set from the heaviest down, the selected parent
    first; [index] counts those within the DAA window. *)
Fixpoint sample_blocks (rate sp_daa_score threshold index : Z) (blocks : list SortableBlock) :
    outcome unit (list SampledBlock) :=
  match blocks with
  | [] => Ok []
  | block :: blocks =>
    score ← get_blue_score (sb_hash block);
    if score <? threshold then
      rest ← sample_blocks rate sp_daa_score threshold index blocks; Ok (NonDaa (sb_hash block) :: rest)
    else
      index ← add64 index 1;
      position ← add64 sp_daa_score index;
      rest ← sample_blocks rate sp_daa_score threshold index blocks;
      Ok (if is_multiple_of position rate then Sampled block :: rest else rest)
  end.
Definition sampled_mergeset_iterator (rate : Z) (d : GhostdagData) (selected_parent_blue_work : Z) :
    outcome unit (list SampledBlock) :=
  sp_daa_score ← get_daa_score (selected_parent d);
  threshold ← lowest_daa_blue_score d;
  merged ← descending_mergeset_without_selected_parent gd d;
  sample_blocks rate sp_daa_score threshold 0 (mkSortable (selected_parent d) selected_parent_blue_work :: merged).

(** With an inserter the whole merge set is visited; without one the loop stops
    at the first block that does not enter the heap. *)
Fixpoint push_all (heap : BoundedSizeBlockHeap) (non_daa : gset BlockHash) (blocks : list SampledBlock) :
    BoundedSizeBlockHeap * gset BlockHash :=
  match blocks with
  | [] => (heap, non_daa)
  | Sampled b :: blocks => push_all (try_push heap b).1 non_daa blocks
  | NonDaa hash :: blocks => push_all heap ({[hash]} ∪ non_daa) blocks
  end.
Fixpoint push_while (heap : BoundedSizeBlockHeap) (blocks : list SampledBlock) : BoundedSizeBlockHeap :=
  match blocks with
  | [] => heap
  | Sampled b :: blocks => let '(heap, pushed) := try_push heap b in if pushed then push_while heap blocks else heap
  | NonDaa _ :: blocks => push_while heap blocks
  end.

(** Down the selected chain until the window is complete. *)
Fixpoint window_loop (fuel : nat) (t : WindowType) (heap : BoundedSizeBlockHeap) (current : GhostdagData) :
    outcome RuleError BoundedSizeBlockHeap :=
  match fuel with
  | O => OutOfFuel
  | S fuel =>
    if bool_decide (selected_parent current = ORIGIN) then
      if reached_size_bound heap then Ok heap
      else Err (InsufficientDaaWindowSize (Z.of_nat (length (binary_heap heap))))
    else if bool_decide (selected_parent current = genesis_hash gd) then Ok heap
    else
      parent ← no_err (get (ghostdag_store gd) (selected_parent current));
      can ← can_push heap (mkSortable (selected_parent current) (blue_work parent));
      if negb can then Ok heap
      else
        blocks ← no_err (sampled_mergeset_iterator (sample_rate t) current (blue_work parent));
        let heap := push_while heap blocks in
        match cache_of t !! selected_parent current with
        | Some window => Ok (merge_ancestor_heap heap window)
        | None => window_loop fuel t heap parent
        end
  end.

Definition build_block_window (d : GhostdagData) (t : WindowType) :
    outcome RuleError (BlockWindowHeap * gset BlockHash) :=
  if (window_size t =? 0)%nat then Ok ([], ∅)
  else if bool_decide (selected_parent d = genesis_hash gd) then Ok ([], {[genesis_hash gd]})
  else if bool_decide (selected_parent d = ORIGIN) then Err (InsufficientDaaWindowSize 0)
  else
    sp_work ← no_err (get_blue_work (selected_parent d));
    match cache_of t !! selected_parent d with
    | Some window =>
      blocks ← no_err (sampled_mergeset_iterator (sample_rate t) d sp_work);
      let '(heap, non_daa) := push_all (from_binary_heap (window_size t) window) ∅ blocks in
      Ok (binary_heap heap, non_daa)
    | None =>
      blocks ← no_err (sampled_mergeset_iterator (sample_rate t) d sp_work);
      let '(heap, non_daa) := push_all (bounded_new (window_size t)) ∅ blocks in
      current ← no_err (get (ghostdag_store gd) (selected_parent d));
      heap ← window_loop (S (size (ghostdag_store gd))) t heap current;
      Ok (binary_heap heap, non_daa)
    end.
Definition block_window (d : GhostdagData) (t : WindowType) : outcome RuleError BlockWindowHeap :=
  '(window, _) ← build_block_window d t; Ok window.

(** ** DAA score *)

Definition calc_daa_score (d : GhostdagData) (non_daa : gset BlockHash) : outcome unit Z :=
  sp_daa_score ← get_daa_score (selected_parent d);
  n ← sub64 (Z.of_nat (mergeset_size d)) (Z.of_nat (size non_daa));
  add64 sp_daa_score n.
Definition calc_daa_score_and_mergeset_non_daa_blocks (d : GhostdagData) : outcome unit (Z * gset BlockHash) :=
  lowest ← lowest_daa_blue_score d;
  scores ← mapM (λ hash, s ← get_blue_score hash; mret (hash, s)) (unordered_mergeset d);
  let non_daa := list_to_set (fst <$> filter (λ p, p.2 < lowest) scores) in
  score ← calc_daa_score d non_daa;
  mret (score, non_daa).
Definition calc_daa_window (d : GhostdagData) (window : BlockWindowHeap) : outcome unit DaaWindow :=
  '(score, non_daa) ← calc_daa_score_and_mergeset_non_daa_blocks d; mret (mkDaaWindow window score non_daa).
Definition block_daa_window (d : GhostdagData) : outcome RuleError DaaWindow :=
  '(window, non_daa) ← build_block_window d DifficultyWindow;
  score ← no_err (calc_daa_score d non_daa);
  Ok (mkDaaWindow window score non_daa).

(** ** Difficulty *)

Record DifficultyBlock := mkDifficultyBlock {
  db_timestamp : Z;
  db_bits : Z;
  db_sortable_block : SortableBlock;
}.
Definition difficulty_cmp (a b : DifficultyBlock) : comparison :=
  match db_timestamp a ?= db_timestamp b with
  | Eq => sortable_cmp (db_sortable_block a) (db_sortable_block b)
  | c => c
  end.
Definition get_difficulty_blocks (window : BlockWindowHeap) : outcome unit (list DifficultyBlock) :=
  mapM (λ item, h ← get (headers_store gd) (sb_hash item); mret (mkDifficultyBlock (hdr_timestamp h) (hdr_bits h) item)) window.

(** [position_minmax] of a list that is not empty: the first of the least and
    the last of the greatest elements. *)
Fixpoint position_min_from (i : nat) (best : nat * DifficultyBlock) (l : list DifficultyBlock) : nat * DifficultyBlock :=
  match l with
  | [] => best
  | b :: l => position_min_from (S i) (match difficulty_cmp b best.2 with Lt => (i, b) | _ => best end) l
  end.
Fixpoint position_max_from (i : nat) (best : nat * DifficultyBlock) (l : list DifficultyBlock) : nat * DifficultyBlock :=
  match l with
  | [] => best
  | b :: l => position_max_from (S i) (match difficulty_cmp b best.2 with Lt => best | _ => (i, b) end) l
  end.
Definition position_minmax (l : list DifficultyBlock) : option ((nat * DifficultyBlock) * (nat * DifficultyBlock)) :=
  match l with
  | [] => None
  | b :: l => Some (position_min_from 1 (0%nat, b) l, position_max_from 1 (0%nat, b) l)
  end.

(** [Vec::swap_remove]. *)
Definition swap_remove {A} (i : nat) (l : list A) : list A :=
  match last l with
  | None => l
  | Some x => take (length l - 1) (<[i := x]> l)
  end.

Definition target_320 (bits : Z) : list Z := Uint.widen 4 5 (from_compact_target_bits bits).
Definition div_u64 (u : list Z) (x : Z) : outcome unit (list Z) := '(q, _) ← Uint.div_rem_u64 u x; mret q.
Definition uint_min (u v : list Z) : list Z := match Uint.cmp u v with Gt => v | _ => u end.

(** The retarget of a window: the average target times the measured over the
    expected duration, at most the maximum. *)
Definition retarget (targets : list (list Z)) (count measured expected : Z) (max_target : list Z) : outcome unit Z :=
  average ← div_u64 (Uint.sum 5 targets) count;
  new_target ← div_u64 (Uint.mul_u64 average measured) expected;
  target ← unwrap (Uint.try_narrow 4 (uint_min new_target max_target));
  mret (compact_target_bits target).

Definition calculate_difficulty_bits (window : BlockWindowHeap) (d : GhostdagData) : outcome unit Z :=
  blocks ← get_difficulty_blocks window;
  if (length blocks <? min_difficulty_window_size wm)%nat then
    if bool_decide (selected_parent d = genesis_hash gd) then mret (genesis_bits wm)
    else h ← get (headers_store gd) (selected_parent d); mret (hdr_bits h)
  else
    '(least, greatest) ← unwrap (position_minmax blocks);
    let blocks := swap_remove least.1 blocks in
    let count := Z.of_nat (length blocks) in
    duration ← sub64 (db_timestamp greatest.2) (db_timestamp least.2);
    let measured := Z.max duration 1 in
    average ← div_u64 (Uint.sum 5 ((λ b, target_320 (db_bits b)) <$> blocks)) count;
    e1 ← mul64 (target_time_per_block wm) (difficulty_sample_rate wm);
    expected ← mul64 e1 count;
    new_target ← div_u64 (Uint.mul_u64 average measured) expected;
    target ← unwrap (Uint.try_narrow 4 (uint_min new_target (max_difficulty_target wm)));
    mret (compact_target_bits target).

Inductive DifficultyError : Type := UnderMinWindowSizeAllowed (size limit : Z) | EmptyTimestampRange.
Definition MIN_WINDOW_SIZE : nat := 1000.
Definition minimum (l : list Z) : option Z := match l with [] => None | x :: l => Some (foldl Z.min x l) end.
Definition maximum (l : list Z) : option Z := match l with [] => None | x :: l => Some (foldl Z.max x l) end.
Definition estimate_network_hashes_per_second (window : BlockWindowHeap) : outcome DifficultyError Z :=
  if (length window <? MIN_WINDOW_SIZE)%nat
  then Err (UnderMinWindowSizeAllowed (Z.of_nat (length window)) (Z.of_nat MIN_WINDOW_SIZE))
  else
    blocks ← no_err (get_difficulty_blocks window);
    min_ts ← unwrap (minimum (db_timestamp <$> blocks));
    max_ts ← unwrap (maximum (db_timestamp <$> blocks));
    if min_ts =? max_ts then Err EmptyTimestampRange
    else
      range ← sub64 max_ts min_ts;
      let window_duration := range / 1000 in
      if window_duration =? 0 then Ok 0
      else
        min_work ← unwrap (minimum ((λ b, sb_blue_work (db_sortable_block b)) <$> blocks));
        max_work ← unwrap (maximum ((λ b, sb_blue_work (db_sortable_block b)) <$> blocks));
        Ok ((max_work - min_work) / window_duration mod 2 ^ 64).

(** ** Past median time *)

Definition AVERAGE_FRAME_SIZE : nat := 11.
#[local] Instance Zle_dec_total : RelDecision Z.le := Z_le_dec.
Definition past_median_of (timestamps : list Z) : outcome unit Z :=
  let sorted := merge_sort Z.le timestamps in
  let avg_frame_size := Nat.min (length sorted) AVERAGE_FRAME_SIZE in
  let ending_index := ((length sorted + avg_frame_size + 1) / 2)%nat in
  sum ← sum64 (take avg_frame_size (drop (ending_index - avg_frame_size) sorted)) 0;
  s ← add64 sum (Z.of_nat (avg_frame_size / 2));
  mret (s / Z.of_nat avg_frame_size).
Definition manager_past_median_time (window : BlockWindowHeap) (sp : BlockHash) : outcome unit Z :=
  match window with
  | [] => get_timestamp sp
  | _ => timestamps ← mapM (λ item, get_timestamp (sb_hash item)) window; past_median_of timestamps
  end.

Definition calc_past_median_time (d : GhostdagData) : outcome RuleError (Z * BlockWindowHeap) :=
  window ← block_window d MedianTimeWindow;
  t ← no_err (manager_past_median_time window (selected_parent d));
  Ok (t, window).
(** The window of a known block is cached; the result is the time and the
    cache. *)
Definition calc_past_median_time_for_known_hash (hash : BlockHash) :
    outcome RuleError (Z * gmap BlockHash BlockWindowHeap) :=
  let cache := block_window_cache_for_past_median_time wm in
  match cache !! hash with
  | Some window =>
    d ← no_err (get (ghostdag_store gd) hash);
    t ← no_err (manager_past_median_time window (selected_parent d));
    Ok (t, cache)
  | None =>
    d ← no_err (get (ghostdag_store gd) hash);
    '(t, window) ← calc_past_median_time d;
    Ok (t, <[hash := window]> cache)
  end.

(** ** Covers of sampled windows *)

Record Cover := mkCover { cov_cover : gset BlockHash; cov_unvisited : gset BlockHash }.
Definition cover_block (c : Cover) (merged : BlockHash) : outcome unit Cover :=
  let cover := {[merged]} ∪ cov_cover c in
  if bool_decide (merged ∈ cov_unvisited c) then
    d ← get (ghostdag_store gd) merged;
    mret (mkCover ({[selected_parent d]} ∪ cover) (cov_unvisited c ∖ {[merged]}))
  else mret (mkCover cover (cov_unvisited c)).
Fixpoint cover_loop (fuel : nat) (c : Cover) (d : GhostdagData) : outcome unit (gset BlockHash) :=
  if bool_decide (cov_unvisited c = ∅) then Ok (cov_cover c)
  else
    match fuel with
    | O => OutOfFuel
    | S fuel =>
      _ ← assert_ (negb (bool_decide (selected_parent d = ORIGIN)));
      c ← for_each cover_block (unordered_mergeset d) c;
      if bool_decide (cov_unvisited c = ∅) then Ok (cov_cover c)
      else d ← get (ghostdag_store gd) (selected_parent d); cover_loop fuel c d
    end.
Definition consecutive_cover_for_window (d : GhostdagData) (window : BlockWindowHeap) : outcome unit (gset BlockHash) :=
  cover ← cover_loop (S (size (ghostdag_store gd))) (mkCover ∅ (list_to_set (sb_hash <$> window))) d;
  mret (cover ∖ {[ORIGIN]}).
End manager.

(** ** Lanes *)

Record LaneDifficultyParams := mkLaneParams {
  hash_target_time_ms : Z;
  replica_target_time_ms : Z;
  hash_window_size : Z;
  replica_window_size : Z;
  min_samples : Z;
  lane_compute_work_scale : Z;
  max_adjust_factor : Z;
  hash_sample_rate : Z;
  replica_sample_rate : Z;
  genesis_hash_bits : Z;
  genesis_replica_bits : Z;
}.
Definition lane_genesis_bits (p : LaneDifficultyParams) (lane : WorkLane) : Z :=
  match lane with HashFloor => genesis_hash_bits p | ReplicaPalw => genesis_replica_bits p end.
Definition lane_sample_rate (p : LaneDifficultyParams) (lane : WorkLane) : Z :=
  Z.max (match lane with HashFloor => hash_sample_rate p | ReplicaPalw => replica_sample_rate p end) 1.
Definition lane_target_time_ms (p : LaneDifficultyParams) (lane : WorkLane) : Z :=
  match lane with HashFloor => hash_target_time_ms p | ReplicaPalw => replica_target_time_ms p end.

Definition lane_window_size (p : LaneDifficultyParams) (lane : WorkLane) : Z :=
  match lane with HashFloor => hash_window_size p | ReplicaPalw => replica_window_size p end.
Definition INERT : LaneDifficultyParams := mkLaneParams 500 125 2641 2641 60 1 2 1 1 0 0.
Definition is_structurally_valid (p : LaneDifficultyParams) : bool :=
  (0 <? hash_target_time_ms p) && (0 <? replica_target_time_ms p) && (0 <? hash_window_size p) &&
  (0 <? replica_window_size p) && (0 <? lane_compute_work_scale p) && (1 <=? max_adjust_factor p) &&
  (1 <=? hash_sample_rate p) && (1 <=? replica_sample_rate p).
Definition is_consistent_for_activation (p : LaneDifficultyParams) (genesis_bits : Z) : bool :=
  is_structurally_valid p && negb (genesis_hash_bits p =? 0) && negb (genesis_replica_bits p =? 0) &&
  (genesis_hash_bits p =? genesis_bits) && (min_samples p <=? hash_window_size p) &&
  (min_samples p <=? replica_window_size p) && (1 <=? min_samples p).

Inductive LaneRetargetDecision : Type := HoldLastBits | Adjust (clamped_measured_ms : Z).
(** [Ord::clamp]. *)
Definition clamp (x lo hi : Z) : Z := if x <? lo then lo else if hi <? x then hi else x.
Definition lane_retarget_decision (sample_count min_samples measured_ms target_ms max_adjust_factor : Z) :
    LaneRetargetDecision :=
  if sample_count <? min_samples then HoldLastBits
  else
    let f := Z.max max_adjust_factor 1 in
    let target := Z.max target_ms 1 in
    let lo := Z.max (target / f) 1 in
    let hi := sat_mul64 target f in
    Adjust (clamp measured_ms lo hi).

Definition lane_retarget_bits (sample_bits : list Z) (measured_ms expected_ms hold_bits min_samples max_adjust_factor : Z)
    (max_target : list Z) : outcome unit Z :=
  let count := Z.of_nat (length sample_bits) in
  match lane_retarget_decision count min_samples measured_ms expected_ms max_adjust_factor with
  | HoldLastBits => mret hold_bits
  | Adjust clamped => retarget (target_320 <$> sample_bits) count (Z.max clamped 1) (Z.max expected_ms 1) max_target
  end.

(** [min_by_key] returns the first of the least elements. *)
Fixpoint min_index_from (i : nat) (best : nat * Z) (l : list (Z * Z)) : nat * Z :=
  match l with
  | [] => best
  | (_, ts) :: l => min_index_from (S i) (if ts <? best.2 then (i, ts) else best) l
  end.
Definition delete_index {A} (i : nat) (l : list A) : list A := take i l ++ drop (S i) l.
Definition lane_expected_bits (lane_samples : list (Z * Z)) (target_time_ms rate min_samples max_adjust_factor hold_bits : Z)
    (max_target : list Z) : outcome unit Z :=
  if Z.of_nat (length lane_samples) <? min_samples then mret hold_bits
  else
    match lane_samples with
    | [] => Panic
    | (_, ts) :: rest =>
      let '(min_i, min_ts) := min_index_from 1 (0%nat, ts) rest in
      max_ts ← unwrap (maximum (snd <$> lane_samples));
      let measured_ms := Z.max (Z.max 0 (max_ts - min_ts)) 1 in
      let sample_bits := fst <$> delete_index min_i lane_samples in
      let expected_ms := sat_mul64 (sat_mul64 target_time_ms rate) (Z.of_nat (length sample_bits)) in
      lane_retarget_bits sample_bits measured_ms expected_ms hold_bits 1 max_adjust_factor max_target
    end.

Definition is_lane (lane : WorkLane) (algo_id : Z) : bool :=
  match check_live_algo_id algo_id true with Ok l => bool_decide (l = lane) | _ => false end.

(** [MAX_DIFFICULTY_TARGET] is [2^255 - 1], here widened to 320 bits. *)
Definition MAX_DIFFICULTY_TARGET : list Z := of_Z 5 (2 ^ 255 - 1).
Definition lane_bits_from_window (headers : gmap BlockHash Header) (window : BlockWindowHeap) (header_algo_id : Z)
    (p : LaneDifficultyParams) : outcome unit Z :=
  lane ← match check_live_algo_id header_algo_id true with Ok l => mret l | _ => Panic end;
  hdrs ← mapM (λ item, get headers (sb_hash item)) window;
  let lane_samples := (λ h, (hdr_bits h, hdr_timestamp h)) <$> filter (λ h, is_lane lane (hdr_pow_algo_id h)) hdrs in
  lane_expected_bits lane_samples (lane_target_time_ms p lane) (lane_sample_rate p lane) (min_samples p)
    (max_adjust_factor p) (lane_genesis_bits p lane) MAX_DIFFICULTY_TARGET.
