(* ===== verification/WindowThms.v ===== *)
(** * Theorems on block windows

    A bounded heap keeps the heaviest blocks it is offered, so that early exits
    and cached windows lose nothing and the window of a block is that of its
    selected chain. Difficulty and past median time are functions of the set of
    blocks in the window, whatever order its heap iterates in; the difficulty of
    a lane is so up to ties, and agrees with the live engine. The past median
    time withstands a minority of the window. *)

From stdpp Require Import base list gmap sorting.
From Stdlib Require Import ZArith Lia ZifyNat ZifyBool.
From S2P Require Import Prelude Tx ReachStore Reach Bytes Header Uint UintThms Target Ghostdag GhostdagOrder Pow Window.

Local Open Scope Z_scope.

(** ** Sorted windows *)

Abbreviation sorted := (merge_sort sortable_le).
(** The [k] heaviest of a list of blocks, in ascending order. *)
Definition heaviest (k : nat) (l : list SortableBlock) : list SortableBlock := drop (length l - k) (sorted l).

Lemma sorted_perm l : sorted l ≡ₚ l.
Proof. apply merge_sort_Permutation. Qed.
Lemma length_sorted l : length (sorted l) = length l.
Proof. by rewrite sorted_perm. Qed.
Lemma sorted_strongly l : StronglySorted sortable_le (sorted l).
Proof. apply StronglySorted_merge_sort; apply _. Qed.
Lemma sorted_eq l s : StronglySorted sortable_le s → s ≡ₚ l → sorted l = s.
Proof. intros Hs Hp. apply (StronglySorted_unique sortable_le); [apply sorted_strongly|done|]. by rewrite sorted_perm. Qed.
Lemma heaviest_perm k l1 l2 : l1 ≡ₚ l2 → heaviest k l1 = heaviest k l2.
Proof. intros Hp. unfold heaviest. by rewrite (merge_sort_unique l1 l2 Hp), (Permutation_length Hp). Qed.
Lemma heaviest_short k l : (length l ≤ k)%nat → heaviest k l ≡ₚ l.
Proof. intros Hl. unfold heaviest. replace (length l - k)%nat with 0%nat by lia. apply sorted_perm. Qed.
Lemma length_heaviest k l : length (heaviest k l) = Nat.min k (length l).
Proof. unfold heaviest. rewrite length_drop, length_sorted. lia. Qed.

Lemma sortable_lt_spec a b : Window.sortable_lt a b = true ↔ ¬ sortable_le b a.
Proof.
  rewrite sortable_le_iff. unfold Window.sortable_lt, GhostdagOrder.sortable_lt. destruct (sortable_cmp a b) eqn:E; naive_solver.
Qed.
Lemma sortable_lt_false a b : Window.sortable_lt a b = false ↔ sortable_le b a.
Proof. rewrite <- not_true_iff_false, sortable_lt_spec. split; [apply dec_stable|tauto]. Qed.

(** ** The heap operations *)

Lemma peek_spec l m : peek l = Some m → m ∈ l ∧ ∀ b, b ∈ l → sortable_le m b.
Proof.
  revert m. induction l as [|a l IH]; intros m; [done|]. cbn [peek]. destruct (peek l) as [x|] eqn:Hp.
  - destruct (IH x eq_refl) as [Hx Hmin]. destruct (Window.sortable_lt x a) eqn:Hlt; intros [= <-].
    + split; [by right|]. intros b [->|Hb]%elem_of_cons; [|by apply Hmin]. apply sortable_lt_spec in Hlt. destruct (total sortable_le x a); tauto.
    + apply sortable_lt_false in Hlt. split; [by left|]. intros b [->|Hb]%elem_of_cons; [done|]. etrans; [exact Hlt|by apply Hmin].
  - intros [= <-]. destruct l as [|y l]; [|cbn in Hp; by destruct (peek l)]. split; [by left|]. by intros b ->%list_elem_of_singleton.
Qed.
Lemma peek_Some l : l ≠ [] → is_Some (peek l).
Proof. destruct l as [|a l]; [done|]. intros _. cbn. by destruct (peek l). Qed.
Lemma remove_one_perm m l : m ∈ l → l ≡ₚ m :: remove_one m l.
Proof.
  induction l as [|a l IH]; [by intros ?%not_elem_of_nil|]. cbn. destruct (decide (a = m)) as [->|Hne]; [done|].
  intros [->|Hm]%elem_of_cons; [done|]. rewrite (IH Hm) at 1. apply perm_swap.
Qed.
Lemma sorted_cons m l : (∀ b, b ∈ l → sortable_le m b) → sorted (m :: l) = m :: sorted l.
Proof.
  intros Hm. apply sorted_eq; [|by rewrite sorted_perm]. constructor; [apply sorted_strongly|]. apply Forall_forall. intros b. rewrite sorted_perm. apply Hm.
Qed.
Lemma sorted_pop l m : peek l = Some m → sorted l = m :: sorted (pop l) ∧ l ≡ₚ m :: pop l.
Proof.
  intros Hp. destruct (peek_spec l m Hp) as [Hin Hmin]. unfold pop. rewrite Hp. pose proof (remove_one_perm m l Hin) as Hr. split; [|done].
  rewrite (merge_sort_unique _ _ Hr). apply sorted_cons. intros b Hb. apply Hmin. rewrite Hr. by right.
Qed.
Lemma sorted_pops n l : sorted (Nat.iter n pop l) = drop n (sorted l).
Proof.
  induction n as [|n IH]; [by rewrite drop_0|]. cbn [Nat.iter nat_rect]. change (nat_rect _ l (λ _, pop) n) with (Nat.iter n pop l).
  set (x := Nat.iter n pop l) in *. replace (S n) with (n + 1)%nat by lia. rewrite <- drop_drop, <- IH.
  destruct (decide (x = [])) as [->|Hne]; [done|]. destruct (peek_Some x Hne) as [m Hm]. destruct (sorted_pop x m Hm) as [-> _]. done.
Qed.

(** ** What a bounded heap keeps *)

Lemma sorted_split x s : StronglySorted sortable_le s → ∃ l1 l2, s = l1 ++ l2 ∧ Forall (λ b, ¬ sortable_le x b) l1 ∧ Forall (sortable_le x) l2.
Proof.
  induction 1 as [|a s Hs IH Ha]; [by exists [], []|]. destruct (decide (sortable_le x a)) as [Hx|Hx].
  - exists [], (a :: s). split; [done|]. split; [constructor|]. constructor; [done|]. eapply Forall_impl; [exact Ha|]. intros b Hb. by etrans.
  - destruct IH as (l1 & l2 & -> & H1 & H2). exists (a :: l1), l2. split; [done|]. split; [by constructor|done].
Qed.
(** A block that has [k] others at or above it is not among the [k] heaviest. *)
Lemma heaviest_absorb k x l : (k ≤ length (filter (sortable_le x) l))%nat → heaviest k (x :: l) = heaviest k l.
Proof.
  intros Hk. destruct (sorted_split x (sorted l) (sorted_strongly l)) as (l1 & l2 & Hs & H1 & H2).
  assert (length l = length l1 + length l2)%nat as Hlen by (by rewrite <- (length_sorted l), Hs, length_app).
  assert (k ≤ length l2)%nat as Hk2.
  { rewrite <- (sorted_perm l), Hs, filter_app in Hk. assert (filter (sortable_le x) l1 = []) as Hn by (clear -H1; induction H1; [done|by rewrite filter_cons_False]).
    rewrite Hn in Hk. cbn in Hk. pose proof (length_filter (sortable_le x) l2). lia. }
  assert (sorted (x :: l) = l1 ++ x :: l2) as Hx.
  { apply sorted_eq; [|rewrite <- Permutation_middle, <- Hs; by rewrite sorted_perm].
    pose proof (sorted_strongly l) as Hst. rewrite Hs, StronglySorted_app in Hst. destruct Hst as (Hc & S1 & S2). apply StronglySorted_app_2; [|done|by constructor].
    intros a b Ha [->|Hb]%elem_of_cons; [|by apply Hc]. pose proof (proj1 (Forall_forall _ _) H1 a Ha) as Hn. cbn in Hn. destruct (total sortable_le a x); tauto. }
  unfold heaviest. rewrite Hx, Hs. cbn [length]. rewrite Hlen, !drop_app_ge by lia.
  replace (S (length l1 + length l2) - k - length l1)%nat with (S (length l1 + length l2 - k - length l1)) by lia. done.
Qed.

Lemma filter_above x (l : list SortableBlock) : Forall (sortable_le x) l → filter (sortable_le x) l = l.
Proof. induction 1 as [|a l Ha Hl IH]; [done|]. by rewrite filter_cons_True, IH. Qed.
Lemma heaviest_app k a b : heaviest k (heaviest k a ++ b) = heaviest k (a ++ b).
Proof.
  set (n := (length a - k)%nat). assert (∀ i, (i ≤ n)%nat → heaviest k (drop i (sorted a) ++ b) = heaviest k (a ++ b)) as Hi; [|by apply (Hi n)].
  induction i as [|i IH]; intros Hin; [rewrite drop_0; apply heaviest_perm; by rewrite sorted_perm|].
  rewrite <- IH by lia. assert (i < length (sorted a))%nat as Hlt by (rewrite length_sorted; lia).
  destruct (lookup_lt_is_Some_2 (sorted a) i Hlt) as [x Hx]. rewrite (drop_S _ _ _ Hx). cbn [app]. symmetry. apply heaviest_absorb.
  rewrite filter_app, length_app.
  assert (filter (sortable_le x) (drop (S i) (sorted a)) = drop (S i) (sorted a)) as ->.
  { apply filter_above. pose proof (sorted_strongly a) as Hs. rewrite <- (take_drop i (sorted a)), (drop_S _ _ _ Hx) in Hs.
    apply StronglySorted_app_1_r, StronglySorted_inv in Hs as [_ Hs]. done. }
  rewrite length_drop, length_sorted. lia.
Qed.

(** A heap within its bound. *)
Definition heap_ok (h : BoundedSizeBlockHeap) : Prop := (0 < size_bound h)%nat ∧ (length (binary_heap h) ≤ size_bound h)%nat.

Lemma try_push_spec h b : heap_ok h →
  let r := try_push h b in
  heap_ok r.1 ∧ size_bound r.1 = size_bound h ∧ binary_heap r.1 ≡ₚ heaviest (size_bound h) (b :: binary_heap h) ∧
  (r.2 = false → r.1 = h ∧ length (binary_heap h) = size_bound h ∧ ∀ x, x ∈ binary_heap h → ¬ sortable_le x b).
Proof.
  destruct h as [heap k]. unfold heap_ok, try_push, reached_size_bound. cbn [binary_heap size_bound]. intros [Hk Hlen].
  destruct (Nat.eqb_spec (length heap) k) as [Hfull|Hfree].
  2:{ cbn [fst snd binary_heap size_bound length]. split; [lia|]. split; [done|]. split; [|done]. by rewrite heaviest_short by (cbn; lia). }
  assert (heap ≠ []) as Hne by (intros ->; cbn in Hfull; lia). destruct (peek_Some heap Hne) as [m Hm]. rewrite Hm.
  destruct (peek_spec heap m Hm) as [Hin Hmin]. destruct (sorted_pop heap m Hm) as [Hs Hp]. destruct (Window.sortable_lt b m) eqn:Hlt; cbn [fst snd binary_heap size_bound length].
  - apply sortable_lt_spec in Hlt. split; [lia|]. split; [done|]. split.
    + unfold heaviest. cbn [length]. replace (S (length heap) - k)%nat with 1%nat by lia. rewrite sorted_cons; [cbn [drop]; by rewrite sorted_perm|].
      intros x Hx. specialize (Hmin x Hx). destruct (total sortable_le b m); [by etrans|tauto].
    + intros _. split_and!; [done..|]. intros x Hx Hle. apply Hlt. etrans; [by apply Hmin|done].
  - apply sortable_lt_false in Hlt. apply Permutation_length in Hp as Hpl. cbn in Hpl. split; [lia|]. split; [done|]. split; [|done].
    unfold heaviest. cbn [length]. replace (S (length heap) - k)%nat with 1%nat by lia.
    rewrite (merge_sort_unique (b :: heap) (m :: b :: pop heap)) by (rewrite Hp at 1; apply perm_swap).
    rewrite sorted_cons; [cbn [drop]; by rewrite sorted_perm|]. intros x [->|Hx]%elem_of_cons; [done|]. apply Hmin. rewrite Hp. by right.
Qed.

(** The blocks among the visited ones that are within the DAA window. *)
Definition sampled_of (blocks : list SampledBlock) : list SortableBlock := omap (λ s, match s with Sampled b => Some b | NonDaa _ => None end) blocks.
Definition non_daa_of (blocks : list SampledBlock) : gset BlockHash := list_to_set (omap (λ s, match s with NonDaa h => Some h | Sampled _ => None end) blocks).

Lemma push_all_spec blocks h nd : heap_ok h →
  let r := push_all h nd blocks in
  heap_ok r.1 ∧ size_bound r.1 = size_bound h ∧ binary_heap r.1 ≡ₚ heaviest (size_bound h) (binary_heap h ++ sampled_of blocks) ∧ r.2 = nd ∪ non_daa_of blocks.
Proof.
  revert h nd. induction blocks as [|[b|hash] blocks IH]; intros h nd Hh; cbn [push_all].
  - cbn. split; [done|]. split; [done|]. split; [|set_solver]. rewrite app_nil_r. symmetry. apply heaviest_short, Hh.
  - destruct (try_push_spec h b Hh) as (H1 & H2 & H3 & _). destruct (IH (try_push h b).1 nd H1) as (G1 & G2 & G3 & G4). split; [done|]. rewrite H2 in *. split; [done|].
    split; [|exact G4]. rewrite G3. change (sampled_of (Sampled b :: blocks)) with (b :: sampled_of blocks).
    rewrite (heaviest_perm _ _ (heaviest (size_bound h) (b :: binary_heap h) ++ sampled_of blocks)) by (by rewrite H3).
    rewrite heaviest_app. apply Permutation_refl', heaviest_perm. cbn. apply Permutation_middle.
  - destruct (IH h ({[hash]} ∪ nd) Hh) as (G1 & G2 & G3 & G4). split_and!; [done..|]. rewrite G4. unfold non_daa_of. cbn. set_solver.
Qed.

Lemma heaviest_below k heap l : (k ≤ length heap)%nat → (∀ x y, x ∈ l → y ∈ heap → sortable_le x y) → heaviest k (heap ++ l) = heaviest k heap.
Proof.
  intros Hk. induction l as [|x l IH]; intros Hb; [by rewrite app_nil_r|].
  rewrite (heaviest_perm _ _ (x :: heap ++ l)) by (symmetry; apply Permutation_middle). rewrite heaviest_absorb.
  - apply IH. intros a y Ha Hy. apply Hb; [by right|done].
  - rewrite filter_app, length_app, filter_above; [lia|]. apply Forall_forall. intros y Hy. apply Hb; [by left|done].
Qed.
(** Stopping at the first block that does not enter loses nothing when the
    blocks come from the heaviest down. *)
Lemma push_while_spec blocks h : heap_ok h → StronglySorted (flip sortable_le) (sampled_of blocks) →
  heap_ok (push_while h blocks) ∧ size_bound (push_while h blocks) = size_bound h ∧
  binary_heap (push_while h blocks) ≡ₚ heaviest (size_bound h) (binary_heap h ++ sampled_of blocks).
Proof.
  revert h. induction blocks as [|[b|hash] blocks IH]; intros h Hh Hs; cbn [push_while].
  - cbn. split; [done|]. split; [done|]. rewrite app_nil_r. symmetry. apply heaviest_short, Hh.
  - change (sampled_of (Sampled b :: blocks)) with (b :: sampled_of blocks) in *. apply StronglySorted_inv in Hs as [Hs Hb].
    destruct (try_push_spec h b Hh) as (H1 & H2 & H3 & H4). destruct (try_push h b) as [h' [|]] eqn:Hp; cbn [fst snd] in *.
    + destruct (IH h' H1 Hs) as (G1 & G2 & G3). rewrite H2 in *. split; [done|]. split; [done|]. rewrite G3.
      rewrite (heaviest_perm _ _ (heaviest (size_bound h) (b :: binary_heap h) ++ sampled_of blocks)) by (by rewrite H3).
      rewrite heaviest_app. apply Permutation_refl', heaviest_perm. cbn. apply Permutation_middle.
    + destruct (H4 eq_refl) as (-> & Hfull & Hlow). split; [done|]. split; [done|]. rewrite heaviest_below; [|lia|].
      * symmetry. apply heaviest_short. lia.
      * intros x y Hx Hy. pose proof (Hlow y Hy) as Hn. assert (sortable_le b y) as Hby by (destruct (total sortable_le b y); tauto).
        apply elem_of_cons in Hx as [->|Hx]; [done|]. etrans; [exact (proj1 (Forall_forall _ _) Hb x Hx)|done].
  - by apply IH.
Qed.
Lemma merge_ancestor_spec h anc : heap_ok h →
  heap_ok (merge_ancestor_heap h anc) ∧ binary_heap (merge_ancestor_heap h anc) ≡ₚ heaviest (size_bound h) (binary_heap h ++ anc).
Proof.
  intros [Hk Hl]. unfold merge_ancestor_heap, heap_ok. cbn [binary_heap size_bound].
  assert (Nat.iter (length (binary_heap h ++ anc) - size_bound h) pop (binary_heap h ++ anc) ≡ₚ heaviest (size_bound h) (binary_heap h ++ anc)) as Hp.
  { rewrite <- (sorted_perm (Nat.iter _ pop _)), sorted_pops. done. }
  split; [|done]. split; [done|]. rewrite (Permutation_length Hp), length_heaviest. lia.
Qed.

(** ** The window of a block *)

Section chain.
Context {U : Type} `{!ReachabilityService U} (wm : SampledWindowManager U) (t : WindowType).
Abbreviation gd := (wm_gd wm).

(** The sampled blocks of a block's selected chain, down to genesis. *)
Inductive sample_chain : GhostdagData → list SortableBlock → Prop :=
| sc_genesis d : selected_parent d = genesis_hash gd → sample_chain d []
| sc_step d parent blocks rest : selected_parent d ≠ genesis_hash gd → selected_parent d ≠ ORIGIN →
    ghostdag_store gd !! selected_parent d = Some parent →
    sampled_mergeset_iterator wm (sample_rate wm t) d (blue_work parent) = Ok blocks →
    sample_chain parent rest → sample_chain d (sampled_of blocks ++ rest).

(** What GHOSTDAG maintains of the stored blocks: merge sets iterate from the
    selected parent down, and a block has more work than its selected parent. *)
Record chain_ordered : Prop := {
  co_genesis : genesis_hash gd ≠ ORIGIN;
  co_merged h d parent merged : ghostdag_store gd !! h = Some d → selected_parent d ≠ ORIGIN → ghostdag_store gd !! selected_parent d = Some parent →
    descending_mergeset_without_selected_parent gd d = Ok merged →
    StronglySorted (flip sortable_le) (mkSortable (selected_parent d) (blue_work parent) :: merged);
  co_work h d parent : ghostdag_store gd !! h = Some d → selected_parent d ≠ ORIGIN → ghostdag_store gd !! selected_parent d = Some parent →
    blue_work parent < blue_work d;
}.
(** A cached window holds what the block's chain gives. *)
Definition sound_windows (cache : gmap BlockHash BlockWindowHeap) : Prop := ∀ h w, cache !! h = Some w →
  ∃ d all, ghostdag_store gd !! h = Some d ∧ sample_chain d all ∧ w ≡ₚ heaviest (window_size wm t) all.
Definition cache_sound : Prop := sound_windows (cache_of wm t).

Lemma sample_chain_det d l1 l2 : sample_chain d l1 → sample_chain d l2 → l1 = l2.
Proof.
  intros H1. revert l2. induction H1 as [d Hd|d parent blocks rest Hg Ho Hp Hs _ IH]; intros l2 H2; inversion H2; subst; try done.
  simplify_eq. assert (blocks = blocks0) as <- by congruence. f_equal. by apply IH.
Qed.

Lemma sample_blocks_sorted rate score threshold i l blocks : sample_blocks wm rate score threshold i l = Ok blocks →
  (sampled_of blocks) `sublist_of` l.
Proof.
  revert i blocks. induction l as [|b l IH]; intros i blocks; cbn [sample_blocks]; [intros [= <-]; constructor|].
  intros (sc & _ & H)%bind_Ok. destruct (sc <? threshold).
  - apply bind_Ok in H as (r & Hr & [= <-]). cbn. apply sublist_cons, (IH _ _ Hr).
  - apply bind_Ok in H as (i' & _ & H). apply bind_Ok in H as (q & _ & H). apply bind_Ok in H as (r & Hr & [= <-]).
    destruct (is_multiple_of q rate); cbn; [apply sublist_skip|apply sublist_cons]; apply (IH _ _ Hr).
Qed.
Lemma sorted_sublist (l1 l2 : list SortableBlock) : l1 `sublist_of` l2 → StronglySorted (flip sortable_le) l2 → StronglySorted (flip sortable_le) l1.
Proof.
  induction 1 as [|x l1 l2 Hsub IH|x l1 l2 Hsub IH]; [done| |]; intros [Hs Hx]%StronglySorted_inv; [|by apply IH].
  constructor; [by apply IH|]. rewrite Forall_forall in *. intros y Hy. apply Hx. by eapply elem_of_sublist.
Qed.

Lemma iterator_sublist rate d work blocks : sampled_mergeset_iterator wm rate d work = Ok blocks →
  ∃ merged, descending_mergeset_without_selected_parent gd d = Ok merged ∧ sampled_of blocks `sublist_of` mkSortable (selected_parent d) work :: merged.
Proof.
  unfold sampled_mergeset_iterator. intros (sc & _ & H)%bind_Ok. apply bind_Ok in H as (th & _ & H). apply bind_Ok in H as (merged & Hm & H).
  exists merged. split; [done|]. by eapply sample_blocks_sorted.
Qed.

(** The samples of a stored block come from the heaviest down, and all those
    of its chain are at most as heavy as its selected parent. *)
Lemma step_sorted h d parent blocks : chain_ordered → ghostdag_store gd !! h = Some d → selected_parent d ≠ ORIGIN →
  ghostdag_store gd !! selected_parent d = Some parent → sampled_mergeset_iterator wm (sample_rate wm t) d (blue_work parent) = Ok blocks →
  StronglySorted (flip sortable_le) (sampled_of blocks) ∧ ∀ x, x ∈ sampled_of blocks → sortable_le x (mkSortable (selected_parent d) (blue_work parent)).
Proof.
  intros Hc Hd Ho Hp Hs. destruct (iterator_sublist _ _ _ _ Hs) as (merged & Hm & Hsub). pose proof (co_merged Hc _ _ _ _ Hd Ho Hp Hm) as Hsort.
  split; [by eapply sorted_sublist|]. intros x Hx. apply (sublist_subseteq _ _ Hsub), elem_of_cons in Hx as [->|Hx]; [reflexivity|].
  apply StronglySorted_inv in Hsort as [_ Hall]. rewrite Forall_forall in Hall. by apply Hall.
Qed.
Lemma chain_bound h d all parent : chain_ordered → ghostdag_store gd !! h = Some d → selected_parent d ≠ ORIGIN → ghostdag_store gd !! selected_parent d = Some parent →
  sample_chain d all → ∀ x, x ∈ all → sortable_le x (mkSortable (selected_parent d) (blue_work parent)).
Proof.
  intros Hc Hd Ho Hp Hch. revert h parent Hd Ho Hp. induction Hch as [d Hg|d parent blocks rest Hg Ho Hp Hs Hch IH]; intros h parent' Hd _ Hp' x Hx; [by apply not_elem_of_nil in Hx|].
  simplify_eq. apply elem_of_app in Hx as [Hx|Hx]; [by eapply step_sorted|].
  inversion Hch as [? Hpg|? pp ? ? Hpg Hpo Hpp]; subst; [by apply not_elem_of_nil in Hx|].
  etrans; [by eapply IH|]. apply sortable_le_spec. cbn. pose proof (co_work Hc _ _ _ Hp Hpo Hpp). lia.
Qed.

(** How many stored blocks have less work than a block. *)
Definition below (d : GhostdagData) : nat := size (filter (λ p : BlockHash * GhostdagData, blue_work p.2 < blue_work d) (ghostdag_store gd)).
Lemma below_parent h d parent : chain_ordered → ghostdag_store gd !! h = Some d → selected_parent d ≠ ORIGIN → ghostdag_store gd !! selected_parent d = Some parent →
  (below parent < below d)%nat.
Proof.
  intros Hc Hd Ho Hp. pose proof (co_work Hc _ _ _ Hd Ho Hp) as Hw. unfold below.
  rewrite <- !size_dom. apply subset_size. split.
  - apply subseteq_dom, map_subseteq_spec. intros i x [Hx Hlt]%map_lookup_filter_Some. apply map_lookup_filter_Some. split; [done|]. cbn in *. lia.
  - intros Hsub. assert (selected_parent d ∈ dom (filter (λ p : BlockHash * GhostdagData, blue_work p.2 < blue_work d) (ghostdag_store gd))) as Hin.
    { apply elem_of_dom. exists parent. by apply map_lookup_filter_Some. }
    apply Hsub, elem_of_dom in Hin as [x [Hx Hlt]%map_lookup_filter_Some]. simplify_eq. cbn in Hlt. lia.
Qed.

Lemma can_push_spec {E} heap b : heap_ok heap → ∃ can, @can_push E heap b = Ok can ∧
  (can = false → length (binary_heap heap) = size_bound heap ∧ ∀ y, y ∈ binary_heap heap → ¬ sortable_le y b).
Proof.
  intros [Hk Hl]. unfold can_push, reached_size_bound. destruct (Nat.eqb_spec (length (binary_heap heap)) (size_bound heap)) as [Hf|Hf]; [|by exists true].
  assert (binary_heap heap ≠ []) as Hne by (intros E0; rewrite E0 in Hf; cbn in Hf; lia). destruct (peek_Some _ Hne) as [m Hm]. rewrite Hm. cbn.
  eexists. split; [done|]. intros Hlt%negb_false_iff. apply sortable_lt_spec in Hlt. split; [done|].
  intros y Hy Hle. apply Hlt. etrans; [by apply (peek_spec _ _ Hm)|done].
Qed.

Lemma window_loop_spec fuel h heap current all : chain_ordered → cache_sound → sample_chain current all → ghostdag_store gd !! h = Some current →
  heap_ok heap → size_bound heap = window_size wm t → (below current < fuel)%nat →
  ∃ heap', window_loop wm fuel t heap current = Ok heap' ∧ binary_heap heap' ≡ₚ heaviest (window_size wm t) (binary_heap heap ++ all).
Proof.
  intros Hc Hcs Hch. revert fuel h heap. induction Hch as [d Hg|d parent blocks rest Hg Ho Hp Hs Hch IH]; intros fuel h heap Hd Hh Hk Hf;
    (destruct fuel as [|fuel]; [lia|]); cbn [window_loop].
  - rewrite bool_decide_eq_false_2 by (rewrite Hg; apply (co_genesis Hc)). rewrite bool_decide_eq_true_2 by done. exists heap. split; [done|].
    rewrite app_nil_r. symmetry. apply heaviest_short. rewrite <- Hk. apply Hh.
  - rewrite !bool_decide_eq_false_2 by done. unfold Ghostdag.get at 1. rewrite Hp. cbn [unwrap no_err mbind outcome_bind].
    destruct (can_push_spec (E := RuleError) heap (mkSortable (selected_parent d) (blue_work parent)) Hh) as (can & Hcan & Hstop). rewrite Hcan. cbn [mbind outcome_bind].
    destruct can; cbn [negb].
    2: { destruct (Hstop eq_refl) as [Hfull Hlow]. exists heap. split; [done|]. rewrite heaviest_below; [symmetry; apply heaviest_short; lia|lia|].
         intros x y Hx Hy. assert (sortable_le x (mkSortable (selected_parent d) (blue_work parent))) as Hxs
           by (eapply (chain_bound h d); [done..|by econstructor|done]).
         destruct (total sortable_le (mkSortable (selected_parent d) (blue_work parent)) y) as [|Hy']; [by etrans|]. by destruct (Hlow y Hy). }
    rewrite Hs. cbn [no_err mbind outcome_bind]. destruct (step_sorted h d parent blocks Hc Hd Ho Hp Hs) as [Hsort _].
    destruct (push_while_spec blocks heap Hh Hsort) as (Hh' & Hk' & Hb'). rewrite Hk in Hk', Hb'.
    assert (heaviest (window_size wm t) (binary_heap (push_while heap blocks) ++ rest) = heaviest (window_size wm t) (binary_heap heap ++ sampled_of blocks ++ rest)) as Hrest.
    { rewrite (heaviest_perm _ _ (heaviest (window_size wm t) (binary_heap heap ++ sampled_of blocks) ++ rest)) by (by rewrite Hb'). rewrite heaviest_app. by rewrite (assoc_L (++)). }
    rewrite <- Hrest. destruct (cache_of wm t !! selected_parent d) as [w|] eqn:Hw.
    + destruct (Hcs _ _ Hw) as (d' & all' & Hd' & Hch' & Hperm). simplify_eq. pose proof (sample_chain_det _ _ _ Hch Hch') as <-.
      eexists. split; [done|]. rewrite (proj2 (merge_ancestor_spec _ _ Hh')), Hk'.
      rewrite (heaviest_perm _ _ (heaviest (window_size wm t) rest ++ binary_heap (push_while heap blocks))) by (rewrite Hperm; apply Permutation_app_comm).
      rewrite heaviest_app. apply Permutation_refl', heaviest_perm, Permutation_app_comm.
    + eapply IH; [done..|]. pose proof (below_parent h d parent Hc Hd Ho Hp). lia.
Qed.

Lemma block_window_spec d all : chain_ordered → cache_sound → sample_chain d all → (0 < window_size wm t)%nat →
  ∃ w non_daa, build_block_window wm d t = Ok (w, non_daa) ∧ w ≡ₚ heaviest (window_size wm t) all ∧
    (selected_parent d = genesis_hash gd → non_daa = {[genesis_hash gd]}) ∧
    (∀ parent blocks, selected_parent d ≠ genesis_hash gd → ghostdag_store gd !! selected_parent d = Some parent →
      sampled_mergeset_iterator wm (sample_rate wm t) d (blue_work parent) = Ok blocks → non_daa = non_daa_of blocks).
Proof.
  intros Hc Hcs Hch Hk. unfold build_block_window. replace (window_size wm t =? 0)%nat with false by (symmetry; apply Nat.eqb_neq; lia).
  destruct Hch as [d Hg|d parent blocks rest Hg Ho Hp Hs Hch].
  { rewrite bool_decide_eq_true_2 by done. eexists _, _. split; [done|]. split; [symmetry; apply heaviest_short; cbn; lia|]. split; [done|]. intros ?? Hn. by destruct Hn. }
  rewrite !bool_decide_eq_false_2 by done. unfold get_blue_work, Ghostdag.get. rewrite Hp. cbn [unwrap no_err mbind outcome_bind mret outcome_ret].
  assert (∀ nd parent' blocks', selected_parent d ≠ genesis_hash gd → Some parent = Some parent' →
    sampled_mergeset_iterator wm (sample_rate wm t) d (blue_work parent') = Ok blocks' → nd = ∅ ∪ non_daa_of blocks → nd = non_daa_of blocks') as Hnd.
  { intros nd parent' blocks' _ Hp' Hs' ->. simplify_eq. assert (blocks = blocks') as <- by congruence. set_solver. }
  destruct (cache_of wm t !! selected_parent d) as [w|] eqn:Hw; rewrite Hs; cbn [no_err mbind outcome_bind].
  - destruct (Hcs _ _ Hw) as (d' & all' & Hd' & Hch' & Hperm). simplify_eq. pose proof (sample_chain_det _ _ _ Hch Hch') as <-.
    assert (heap_ok (from_binary_heap (window_size wm t) w)) as Hok by (split; cbn; [done|rewrite Hperm, length_heaviest; lia]).
    destruct (push_all_spec blocks _ ∅ Hok) as (_ & _ & Hb & Hn). destruct (push_all _ _ _) as [heap nd]. cbn [fst snd] in *.
    eexists _, _. split; [done|]. split; [|split; [done|eauto]]. rewrite Hb. cbn [from_binary_heap binary_heap size_bound].
    rewrite (heaviest_perm _ _ (heaviest (window_size wm t) rest ++ sampled_of blocks)) by (by rewrite Hperm).
    rewrite heaviest_app. apply Permutation_refl', heaviest_perm, Permutation_app_comm.
  - assert (heap_ok (bounded_new (window_size wm t))) as Hok by (split; cbn; lia).
    destruct (push_all_spec blocks _ ∅ Hok) as (Hok' & Hk' & Hb & Hn). destruct (push_all _ _ _) as [heap nd]. cbn [fst snd bounded_new binary_heap size_bound app] in *.
    destruct (window_loop_spec (S (size (ghostdag_store gd))) (selected_parent d) heap parent rest Hc Hcs Hch Hp Hok' Hk') as (heap' & Hl & Hheap).
    { unfold below. apply Nat.lt_succ_r. rewrite <- !size_dom. apply subseteq_size, subseteq_dom, map_filter_subseteq. }
    rewrite Hl. cbn [mbind outcome_bind]. eexists _, _. split; [done|]. split; [|split; [done|eauto]]. rewrite Hheap.
    rewrite (heaviest_perm _ _ (heaviest (window_size wm t) (sampled_of blocks) ++ rest)) by (by rewrite Hb). by rewrite heaviest_app.
Qed.
(** C17. The window of a block is the heaviest of the sampled blocks along its
    selected chain, as many as the window holds, whether it is built from the
    cached window of the selected parent, by walking the chain to a cached
    ancestor, or to genesis: caches, early exits and the bound on the walk
    change nothing, the walk ends, and the blocks reported outside the DAA
    window are those of the block's own merge set. It needs that work grows
    strictly along the selected chain. *)
Theorem block_window_is_heaviest d all : chain_ordered → cache_sound → sample_chain d all → (0 < window_size wm t)%nat →
  ∃ w non_daa, build_block_window wm d t = Ok (w, non_daa) ∧ w ≡ₚ heaviest (window_size wm t) all ∧
    (selected_parent d = genesis_hash gd → non_daa = {[genesis_hash gd]}) ∧
    (∀ parent blocks, selected_parent d ≠ genesis_hash gd → ghostdag_store gd !! selected_parent d = Some parent →
      sampled_mergeset_iterator wm (sample_rate wm t) d (blue_work parent) = Ok blocks → non_daa = non_daa_of blocks).
Proof. apply block_window_spec. Qed.
End chain.

(** Computing the time of a known block leaves the cache sound. *)
Lemma known_hash_keeps_cache_sound {U} `{!ReachabilityService U} (wm : SampledWindowManager U) hash d all time cache :
  chain_ordered wm → cache_sound wm MedianTimeWindow → ghostdag_store (wm_gd wm) !! hash = Some d → sample_chain wm MedianTimeWindow d all →
  (0 < window_size wm MedianTimeWindow)%nat → calc_past_median_time_for_known_hash wm hash = Ok (time, cache) →
  sound_windows wm MedianTimeWindow cache.
Proof.
  intros Hc Hcs Hd Hch Hk. unfold calc_past_median_time_for_known_hash, Ghostdag.get. rewrite Hd.
  destruct (block_window_spec wm MedianTimeWindow d all Hc Hcs Hch Hk) as (w & nd & Hw & Hp & _).
  destruct (block_window_cache_for_past_median_time wm !! hash) as [w'|] eqn:Hhit.
  - intros (d' & _ & H)%bind_Ok. apply bind_Ok in H as (x & _ & [= _ <-]). exact Hcs.
  - intros (d' & [= <-] & H)%bind_Ok. apply bind_Ok in H as ([time' w'] & Ht & [= _ <-]).
    unfold calc_past_median_time, block_window in Ht. rewrite Hw in Ht. cbn [mbind outcome_bind] in Ht. apply bind_Ok in Ht as (x & _ & [= _ <-]).
    intros h v [[<- <-]|[_ Hv]]%fin_maps.lookup_insert_Some; [by exists d, all|by apply Hcs].
Qed.

(** ** Order of iteration *)

(** *** Sums of wide integers *)

Lemma uint_foldl_add n x l : uint_wf n x → Forall (uint_wf n) l →
  uint_wf n (foldl Uint.add x l) ∧ uval (foldl Uint.add x l) = (uval x + sumZ (uval <$> l)) mod Limb ^ Z.of_nat n.
Proof.
  intros Hx Hl. revert x Hx. induction Hl as [|y l Hy Hl IH]; intros x Hx; cbn [foldl fmap list_fmap].
  - change (sumZ []) with 0. split; [done|]. rewrite Z.add_0_r, Z.mod_small; [done|by apply uval_bound].
  - assert (uint_wf n (Uint.add x y) ∧ uval (Uint.add x y) = (uval x + uval y) mod Limb ^ Z.of_nat n) as [Hr Hv].
    { pose proof (overflowing_add_spec n x y Hx Hy) as Ha. unfold Uint.add. destruct (Uint.overflowing_add x y). tauto. }
    destruct (IH _ Hr) as [G1 G2]. split; [done|]. by rewrite G2, Hv, sumZ_cons, Z.add_assoc, Zplus_mod_idemp_l.
Qed.
Lemma uint_sum_perm n l1 l2 : l1 ≡ₚ l2 → Forall (uint_wf n) l1 → Uint.sum n l1 = Uint.sum n l2.
Proof.
  intros Hp H1. assert (Forall (uint_wf n) l2) as H2 by (by rewrite <- Hp). pose proof (sumZ_perm _ _ (fmap_Permutation uval _ _ Hp)) as Hs.
  destruct l1 as [|x l1], l2 as [|y l2]; try done; [by apply Permutation_nil_l in Hp|by apply Permutation_nil_r in Hp|].
  apply Forall_cons in H1 as [Hx H1]. apply Forall_cons in H2 as [Hy H2]. cbn [Uint.sum].
  destruct (uint_foldl_add n x l1 Hx H1) as [W1 V1], (uint_foldl_add n y l2 Hy H2) as [W2 V2]. apply (uval_inj n); [done..|].
  cbn [fmap list_fmap] in Hs. rewrite !sumZ_cons in Hs. by rewrite V1, V2, Hs.
Qed.
Lemma target_320_wf bits : 0 ≤ bits → uint_wf 5 (target_320 bits).
Proof. intros Hb. apply widen_spec; [by apply from_compact_wf|lia]. Qed.

(** *** The extreme blocks *)

Definition difficulty_le (a b : DifficultyBlock) : Prop := difficulty_cmp a b ≠ Gt.
Lemma difficulty_le_spec a b : difficulty_le a b ↔
  db_timestamp a < db_timestamp b ∨ db_timestamp a = db_timestamp b ∧ sortable_le (db_sortable_block a) (db_sortable_block b).
Proof.
  unfold difficulty_le, difficulty_cmp. destruct (Z.compare_spec (db_timestamp a) (db_timestamp b)) as [Ht|Ht|Ht]; unfold sortable_le; split; intros H; try lia; try done.
  - right. split; [done|exact H].
  - destruct H as [?|[_ H]]; [lia|done].
Qed.
Lemma difficulty_le_trans a b c : difficulty_le a b → difficulty_le b c → difficulty_le a c.
Proof.
  rewrite !difficulty_le_spec. intros [H1|[H1 H1']] [H2|[H2 H2']]; [left; lia..|]. right. split; [lia|]. by etrans.
Qed.
Lemma difficulty_cmp_Lt a b : difficulty_cmp a b = Lt → difficulty_le a b.
Proof. unfold difficulty_le. by intros ->. Qed.
Lemma difficulty_cmp_not_Lt a b : difficulty_cmp a b ≠ Lt → difficulty_le b a.
Proof.
  rewrite difficulty_le_spec. unfold difficulty_cmp. destruct (Z.compare_spec (db_timestamp a) (db_timestamp b)) as [Ht|Ht|Ht]; [|done|lia].
  intros Hn. right. split; [done|]. apply sortable_le_iff. exact Hn.
Qed.
Lemma difficulty_le_refl a : difficulty_le a a.
Proof. apply difficulty_le_spec. right. split; [done|reflexivity]. Qed.

Lemma position_min_spec full l i best : full !! best.1 = Some best.2 → l = drop i full → (∀ x, x ∈ take i full → difficulty_le best.2 x) →
  let r := position_min_from i best l in full !! r.1 = Some r.2 ∧ ∀ x, x ∈ full → difficulty_le r.2 x.
Proof.
  revert i best. induction l as [|b l IH]; intros i best Hb Hl Hmin; cbn [position_min_from].
  { split; [done|]. intros x Hx. apply Hmin. rewrite <- (take_drop i full), <- Hl, app_nil_r in Hx. done. }
  assert (full !! i = Some b) as Hi by (rewrite <- (Nat.add_0_r i), <- lookup_drop, <- Hl; done). symmetry in Hl.
  apply IH; [by destruct (difficulty_cmp b best.2)|by rewrite (drop_S _ _ _ Hi) in Hl; injection Hl as ->|].
  intros x. rewrite (take_S_r _ _ _ Hi), elem_of_app, list_elem_of_singleton. destruct (difficulty_cmp b best.2) eqn:Hc; intros [Hx| ->]; cbn [snd]; auto.
  - apply difficulty_cmp_not_Lt. by rewrite Hc.
  - eapply difficulty_le_trans; [by apply difficulty_cmp_Lt|auto].
  - apply difficulty_le_refl.
  - apply difficulty_cmp_not_Lt. by rewrite Hc.
Qed.
Lemma position_max_spec full l i best : full !! best.1 = Some best.2 → l = drop i full → (∀ x, x ∈ take i full → difficulty_le x best.2) →
  let r := position_max_from i best l in full !! r.1 = Some r.2 ∧ ∀ x, x ∈ full → difficulty_le x r.2.
Proof.
  revert i best. induction l as [|b l IH]; intros i best Hb Hl Hmin; cbn [position_max_from].
  { split; [done|]. intros x Hx. apply Hmin. rewrite <- (take_drop i full), <- Hl, app_nil_r in Hx. done. }
  assert (full !! i = Some b) as Hi by (rewrite <- (Nat.add_0_r i), <- lookup_drop, <- Hl; done). symmetry in Hl.
  apply IH; [by destruct (difficulty_cmp b best.2)|by rewrite (drop_S _ _ _ Hi) in Hl; injection Hl as ->|].
  intros x. rewrite (take_S_r _ _ _ Hi), elem_of_app, list_elem_of_singleton.
  assert (difficulty_cmp b best.2 ≠ Lt → difficulty_le best.2 b) as Hle by apply difficulty_cmp_not_Lt.
  destruct (difficulty_cmp b best.2) eqn:Hc; intros [Hx| ->]; cbn [snd]; auto using difficulty_le_refl, difficulty_cmp_Lt;
    (eapply difficulty_le_trans; [by apply Hmin|by apply Hle]).
Qed.

Lemma swap_remove_perm {A} (l : list A) i x : l !! i = Some x → l ≡ₚ x :: swap_remove i l.
Proof.
  intros Hi. unfold swap_remove. destruct l as [|y l' _] using rev_ind; [done|]. rewrite last_snoc, length_app. cbn [length].
  replace (length l' + 1 - 1)%nat with (length l') by lia. apply lookup_lt_Some in Hi as Hlt. rewrite length_app in Hlt. cbn in Hlt.
  destruct (decide (i = length l')) as [->|Hne].
  - rewrite list_lookup_middle in Hi by done. injection Hi as <-. rewrite insert_app_r_alt, Nat.sub_diag by done. cbn.
    rewrite take_app_length. symmetry. apply Permutation_cons_append.
  - rewrite lookup_app_l in Hi by lia. rewrite insert_app_l by lia. rewrite take_app_length' by (by rewrite length_insert).
    rewrite <- (take_drop_middle l' i x Hi) at 1. rewrite insert_take_drop by lia.
    rewrite <- !(assoc_L (++)). cbn [app]. by rewrite <- !Permutation_middle, app_nil_r.
Qed.

(** ** Lanes *)

Lemma min_index_spec full l i best : (∃ b, full !! best.1 = Some (b, best.2)) → l = drop i full → (∀ x, x ∈ take i full → best.2 ≤ x.2) →
  let r := min_index_from i best l in (∃ b, full !! r.1 = Some (b, r.2)) ∧ ∀ x, x ∈ full → r.2 ≤ x.2.
Proof.
  revert i best. induction l as [|[b ts] l IH]; intros i best Hb Hl Hmin; cbn [min_index_from].
  { split; [done|]. intros x Hx. apply Hmin. rewrite <- (take_drop i full), <- Hl, app_nil_r in Hx. done. }
  assert (full !! i = Some (b, ts)) as Hi by (rewrite <- (Nat.add_0_r i), <- lookup_drop, <- Hl; done). symmetry in Hl.
  apply IH; [destruct (ts <? best.2); eauto|by rewrite (drop_S _ _ _ Hi) in Hl; injection Hl as ->|].
  intros x. rewrite (take_S_r _ _ _ Hi), elem_of_app, list_elem_of_singleton.
  destruct (ts <? best.2) eqn:Hc; intros [Hx| ->]; cbn [snd]; try lia; specialize (Hmin x Hx); lia.
Qed.
Lemma foldl_Zmax_spec x l : (foldl Z.max x l) ∈ x :: l ∧ ∀ y, y ∈ x :: l → y ≤ foldl Z.max x l.
Proof.
  revert x. induction l as [|z l IH]; intros x; cbn [foldl]; [split; [by left|intros y ->%list_elem_of_singleton; lia]|].
  destruct (IH (Z.max x z)) as [Hin Hle]. split.
  - destruct (Z.max_spec x z) as [[_ E]|[_ E]]; rewrite E in *; set_solver.
  - intros y Hy. pose proof (Hle (Z.max x z) ltac:(by left)). rewrite !elem_of_cons in Hy. destruct Hy as [->|[->|Hy]]; [lia..|]. apply Hle. by right.
Qed.
Lemma maximum_Some l m : m ∈ l → (∀ y, y ∈ l → y ≤ m) → maximum l = Some m.
Proof.
  destruct l as [|x l]; [by intros ?%not_elem_of_nil|]. intros Hin Hle. cbn. f_equal. destruct (foldl_Zmax_spec x l) as [I L].
  apply Z.le_antisymm; [by apply Hle|by apply L].
Qed.
Lemma maximum_perm l1 l2 : l1 ≡ₚ l2 → maximum l1 = maximum l2.
Proof.
  intros Hp. destruct l1 as [|x l1]; [by apply Permutation_nil_l in Hp as ->|]. cbn. destruct (foldl_Zmax_spec x l1) as [I L].
  symmetry. apply maximum_Some; [by rewrite <- Hp|]. intros y. rewrite <- Hp. apply L.
Qed.

(** The earliest samples of a lane, when several share the least timestamp,
    have the same bits. *)
Definition earliest_agree (s : list (Z * Z)) : Prop := ∀ a b, a ∈ s → b ∈ s →
  (∀ c, c ∈ s → a.2 ≤ c.2) → (∀ c, c ∈ s → b.2 ≤ c.2) → a.1 = b.1.

Definition lane_min (s : list (Z * Z)) : nat * Z :=
  match s with [] => (0%nat, 0) | (_, ts) :: rest => min_index_from 1 (0%nat, ts) rest end.
Lemma delete_index_sub {A} i (l : list A) : delete_index i l ⊆ l.
Proof. intros x. unfold delete_index. rewrite elem_of_app. intros [?%subseteq_take|?%subseteq_drop]; done. Qed.
Lemma lane_min_spec s : s ≠ [] → (∃ b, (b, (lane_min s).2) ∈ s ∧ s ≡ₚ (b, (lane_min s).2) :: delete_index (lane_min s).1 s) ∧ ∀ x, x ∈ s → (lane_min s).2 ≤ x.2.
Proof.
  intros Hne. destruct s as [|[b ts] rest]; [done|]. cbn [lane_min].
  destruct (min_index_spec ((b, ts) :: rest) rest 1 (0%nat, ts)) as [[b' Hb] Hle]; [by exists b|done|by intros x ->%list_elem_of_singleton|].
  split; [|done]. exists b'. split; [by eapply list_elem_of_lookup_2|]. unfold delete_index. rewrite <- delete_take_drop. by apply delete_Permutation.
Qed.
Lemma lane_delete_perm s1 s2 : s1 ≡ₚ s2 → s1 ≠ [] → earliest_agree s1 →
  (lane_min s1).2 = (lane_min s2).2 ∧ delete_index (lane_min s1).1 s1 ≡ₚ delete_index (lane_min s2).1 s2.
Proof.
  intros Hp Hne He. assert (s2 ≠ []) as Hne2 by (intros ->; by apply Permutation_nil_r in Hp).
  destruct (lane_min_spec s1 Hne) as ((b1 & I1 & P1) & L1), (lane_min_spec s2 Hne2) as ((b2 & I2 & P2) & L2).
  destruct (lane_min s1) as [i1 t1], (lane_min s2) as [i2 t2]. cbn [fst snd] in *. pose proof I2 as I2'. rewrite <- Hp in I2'.
  assert (t1 = t2) as <- by (apply Z.le_antisymm; [apply (L1 _ I2')|apply (L2 (b1, t1)); by rewrite <- Hp]).
  split; [done|]. assert (b1 = b2) as <- by (apply (He _ _ I1 I2'); done).
  apply (Permutation_cons_inv (a := (b1, t1))). by rewrite <- P1, <- P2.
Qed.
Lemma lane_expected_adjust s t r m f h mx max_ts : m ≤ Z.of_nat (length s) → s ≠ [] → maximum (snd <$> s) = Some max_ts →
  let bits := fst <$> delete_index (lane_min s).1 s in
  lane_expected_bits s t r m f h mx =
    lane_retarget_bits bits (Z.max (Z.max 0 (max_ts - (lane_min s).2)) 1) (sat_mul64 (sat_mul64 t r) (Z.of_nat (length bits))) h 1 f mx.
Proof.
  intros Hm Hne Hmax bits. unfold lane_expected_bits. replace (Z.of_nat (length s) <? m) with false by lia.
  rewrite Hmax. destruct s as [|[b ts] rest]; [done|]. subst bits. cbn [lane_min]. by destruct (min_index_from 1 (0%nat, ts) rest).
Qed.
Lemma lane_expected_perm s1 s2 t r m f h mx : s1 ≡ₚ s2 → Forall (λ x, 0 ≤ x.1) s1 → earliest_agree s1 →
  lane_expected_bits s1 t r m f h mx = lane_expected_bits s2 t r m f h mx.
Proof.
  intros Hp Hbits He. destruct (decide (s1 = [])) as [->|Hne]; [by apply Permutation_nil_l in Hp as ->|].
  destruct (lane_delete_perm s1 s2 Hp Hne He) as [Et Pd]. destruct (lane_min_spec s1 Hne) as ((b1 & _ & P1) & _).
  pose proof (maximum_perm _ _ (fmap_Permutation snd _ _ Hp)) as Hm. unfold lane_expected_bits. rewrite <- (Permutation_length Hp).
  destruct (Z.of_nat (length s1) <? m); [done|]. destruct s1 as [|[c1 ts1] r1]; [done|].
  destruct s2 as [|[c2 ts2] r2]; [by apply Permutation_nil_r in Hp|]. unfold lane_min in *. rewrite <- Hm.
  destruct (min_index_from 1 (0%nat, ts1) r1) as [i1 t1], (min_index_from 1 (0%nat, ts2) r2) as [i2 t2]. cbn [fst snd] in Et, Pd, P1. subst t2.
  pose proof (fmap_Permutation fst _ _ Pd) as Pf. rewrite <- (Permutation_length Pf). unfold lane_retarget_bits. rewrite <- (Permutation_length Pf).
  unfold retarget. rewrite (uint_sum_perm 5 _ _ (fmap_Permutation target_320 _ _ Pf)); [done|].
  rewrite P1 in Hbits. apply Forall_cons in Hbits as [_ Hbits]. apply Forall_fmap, Forall_fmap. eapply Forall_impl; [exact Hbits|]. intros x. apply target_320_wf.
Qed.

#[local] Existing Instance Window.Zle_dec_total.

Section difficulty.
Context {U : Type} `{!ReachabilityService U} (wm : SampledWindowManager U).

(** The headers of the window are stored, with their unsigned fields. *)
Definition headers_known (window : list SortableBlock) : Prop :=
  ∀ b, b ∈ window → ∃ h, headers_store (wm_gd wm) !! sb_hash b = Some h ∧ 0 ≤ hdr_bits h ∧ is_u64 (hdr_timestamp h).
Definition header_at (b : SortableBlock) (f : Header → Z) : Z := default 0 (f <$> headers_store (wm_gd wm) !! sb_hash b).
Definition dblock (b : SortableBlock) : DifficultyBlock := mkDifficultyBlock (header_at b hdr_timestamp) (header_at b hdr_bits) b.

Lemma get_difficulty_blocks_eq window : headers_known window → get_difficulty_blocks wm window = Ok (dblock <$> window).
Proof. intros Hk. apply mapM_Ok. intros b Hb. destruct (Hk b Hb) as (h & Hh & _). unfold dblock, header_at, Ghostdag.get. by rewrite Hh. Qed.
Lemma dblock_antisym a b : difficulty_le (dblock a) (dblock b) → difficulty_le (dblock b) (dblock a) → dblock a = dblock b.
Proof.
  rewrite !difficulty_le_spec. cbn. intros [H1|[H1 H1']] [H2|[H2 H2']]; try lia. by rewrite (anti_symm sortable_le a b H1' H2').
Qed.

(** The least and the greatest block, by position, of a window in any order. *)
Lemma position_minmax_spec window : window ≠ [] → ∃ least greatest, position_minmax (dblock <$> window) = Some (least, greatest) ∧
  (dblock <$> window) !! least.1 = Some least.2 ∧
  (∃ a, a ∈ window ∧ least.2 = dblock a ∧ ∀ b, b ∈ window → difficulty_le (dblock a) (dblock b)) ∧
  (∃ a, a ∈ window ∧ greatest.2 = dblock a ∧ ∀ b, b ∈ window → difficulty_le (dblock b) (dblock a)).
Proof.
  intros Hne. destruct window as [|w window]; [done|]. cbn [fmap list_fmap position_minmax]. eexists _, _. split; [done|].
  set (full := dblock w :: list_fmap _ _ dblock window). change (list_fmap _ _ dblock window) with (drop 1 full).
  destruct (position_min_spec full (drop 1 full) 1 (0%nat, dblock w)) as [L1 L2]; [done|done|intros x ->%list_elem_of_singleton; apply difficulty_le_refl|].
  destruct (position_max_spec full (drop 1 full) 1 (0%nat, dblock w)) as [G1 G2]; [done|done|intros x ->%list_elem_of_singleton; apply difficulty_le_refl|].
  split; [exact L1|]. change full with (dblock <$> w :: window) in *. split.
  - apply list_lookup_fmap_Some in L1 as (a & Ha & Hl). exists a. split; [by eapply list_elem_of_lookup_2|]. split; [done|].
    intros b Hb. rewrite <- Ha. apply L2. by apply list_elem_of_fmap_2.
  - apply list_lookup_fmap_Some in G1 as (a & Ha & Hl). exists a. split; [by eapply list_elem_of_lookup_2|]. split; [done|].
    intros b Hb. rewrite <- Ha. apply G2. by apply list_elem_of_fmap_2.
Qed.

(** The two windows agree on the blocks that delimit and on those that remain. *)
Lemma extremes_perm w1 w2 : w1 ≡ₚ w2 → w1 ≠ [] → ∃ l1 l2 g1 g2 least greatest,
  position_minmax (dblock <$> w1) = Some ((l1, least), (g1, greatest)) ∧
  position_minmax (dblock <$> w2) = Some ((l2, least), (g2, greatest)) ∧
  dblock <$> w1 ≡ₚ least :: swap_remove l1 (dblock <$> w1) ∧ swap_remove l1 (dblock <$> w1) ≡ₚ swap_remove l2 (dblock <$> w2).
Proof.
  intros Hp Hne. assert (w2 ≠ []) as Hne2 by (intros ->; by apply Permutation_nil_r in Hp).
  destruct (position_minmax_spec w1 Hne) as ([l1 x1] & [g1 y1] & E1 & L1 & (a1 & A1 & Hx1 & M1) & (b1 & B1 & Hy1 & N1)).
  destruct (position_minmax_spec w2 Hne2) as ([l2 x2] & [g2 y2] & E2 & L2 & (a2 & A2 & Hx2 & M2) & (b2 & B2 & Hy2 & N2)). cbn in *. subst.
  assert (dblock a2 = dblock a1) as Ea by (apply dblock_antisym; [apply M2; by rewrite <- Hp|apply M1; by rewrite Hp]).
  assert (dblock b2 = dblock b1) as Eb by (apply dblock_antisym; [apply N1; by rewrite Hp|apply N2; by rewrite <- Hp]).
  rewrite Ea, Eb in *. exists l1, l2, g1, g2, (dblock a1), (dblock b1). split; [done|]. split; [done|].
  pose proof (swap_remove_perm _ _ _ L1) as P1. pose proof (swap_remove_perm _ _ _ L2) as P2. split; [exact P1|].
  apply (Permutation_cons_inv (a := dblock a1)). rewrite <- P1, <- P2. by apply fmap_Permutation.
Qed.

Lemma targets_wf w : headers_known w → ∀ l, l ⊆ dblock <$> w → Forall (uint_wf 5) ((λ b, target_320 (db_bits b)) <$> l).
Proof.
  intros Hk l Hl. apply Forall_fmap, Forall_forall. intros x Hx. apply Hl, list_elem_of_fmap in Hx as (b & -> & Hb).
  apply target_320_wf. cbn. unfold header_at. destruct (Hk b Hb) as (h & -> & Hh & _). exact Hh.
Qed.

Lemma dblock_u64 w : headers_known w → ∀ b, b ∈ dblock <$> w → is_u64 (db_timestamp b).
Proof. intros Hk x (b & -> & Hb)%list_elem_of_fmap. cbn. unfold header_at. destruct (Hk b Hb) as (h & -> & _ & Hh). exact Hh. Qed.

Lemma difficulty_perm w1 w2 d : w1 ≡ₚ w2 → headers_known w1 → calculate_difficulty_bits wm w1 d = calculate_difficulty_bits wm w2 d.
Proof.
  intros Hp Hk. unfold calculate_difficulty_bits.
  rewrite !get_difficulty_blocks_eq by (try done; intros b Hb; apply Hk; by rewrite Hp). cbn [mbind outcome_bind].
  rewrite !length_fmap, <- (Permutation_length Hp). destruct (length w1 <? _)%nat; [done|].
  destruct (decide (w1 = [])) as [->|Hne]; [by apply Permutation_nil_l in Hp as ->|].
  destruct (extremes_perm w1 w2 Hp Hne) as (l1 & l2 & g1 & g2 & least & greatest & -> & -> & P1 & P). cbn [unwrap mbind outcome_bind fst snd].
  rewrite (Permutation_length P). do 2 f_equal. 
  rewrite (uint_sum_perm 5 ((λ b, target_320 (db_bits b)) <$> swap_remove l1 (dblock <$> w1)) ((λ b, target_320 (db_bits b)) <$> swap_remove l2 (dblock <$> w2)));
    [done|by apply fmap_Permutation|].
  apply (targets_wf w1 Hk). intros x Hx. rewrite P1. by right.
Qed.

Lemma past_median_perm l1 l2 : l1 ≡ₚ l2 → past_median_of l1 = past_median_of l2.
Proof.
  intros Hp. unfold past_median_of. 
  assert (merge_sort Z.le l1 = merge_sort Z.le l2) as ->; [|done].
  apply (StronglySorted_unique Z.le); [apply StronglySorted_merge_sort; apply _..|]. by rewrite !merge_sort_Permutation.
Qed.
Lemma median_time_perm w1 w2 sp : w1 ≡ₚ w2 → headers_known w1 → manager_past_median_time wm w1 sp = manager_past_median_time wm w2 sp.
Proof.
  intros Hp Hk. assert (∀ w, w ≡ₚ w1 → mapM (λ item, get_timestamp wm (sb_hash item)) w = Ok ((λ b, header_at b hdr_timestamp) <$> w)) as Hm.
  { intros w Hw. apply mapM_Ok. intros b Hb. rewrite Hw in Hb. destruct (Hk b Hb) as (h & Hh & _). unfold get_timestamp, header_at, Ghostdag.get. by rewrite Hh. }
  unfold manager_past_median_time. rewrite !Hm by done. cbn [mbind outcome_bind].
  rewrite (past_median_perm _ _ (fmap_Permutation (λ b, header_at b hdr_timestamp) _ _ Hp)).
  destruct w1, w2; try done; [by apply Permutation_nil_l in Hp|by apply Permutation_nil_r in Hp].
Qed.

(** ** The lane engine and the live engine *)

(** What the lane engine reads of a block. *)
Definition sample (b : SortableBlock) : Z * Z := (header_at b hdr_bits, header_at b hdr_timestamp).
Lemma samples_typed w : headers_known w → Forall (λ x, 0 ≤ x.1) (sample <$> w).
Proof.
  intros Hk. apply Forall_fmap, Forall_forall. intros b Hb. cbn. unfold header_at. destruct (Hk b Hb) as (h & -> & Hh & _). exact Hh.
Qed.

Definition window_headers (w : list SortableBlock) : list Header := omap (λ b, headers_store (wm_gd wm) !! sb_hash b) w.
(** The samples of a lane, in the order of the window. *)
Definition lane_samples (lane : WorkLane) (w : list SortableBlock) : list (Z * Z) :=
  (λ h, (hdr_bits h, hdr_timestamp h)) <$> filter (λ h, is_lane lane (hdr_pow_algo_id h)) (window_headers w).
Lemma window_headers_eq w : headers_known w → mapM (λ b, Ghostdag.get (headers_store (wm_gd wm)) (sb_hash b)) w = Ok (window_headers w).
Proof.
  induction w as [|b w IH]; intros Hk; [done|]. cbn [mapM]. destruct (Hk b ltac:(by left)) as (h & Hh & _).
  rewrite IH by (intros c Hc; apply Hk; by right). unfold window_headers, Ghostdag.get. cbn. by rewrite Hh.
Qed.
Lemma window_headers_typed w : headers_known w → Forall (λ h, 0 ≤ hdr_bits h) (window_headers w).
Proof.
  intros Hk. apply Forall_forall. intros h (b & Hb & Hh)%list_elem_of_omap. destruct (Hk b Hb) as (h' & Hh' & ? & _).
  rewrite Hh' in Hh. by injection Hh as <-.
Qed.
Lemma lane_bits_perm w1 w2 algo lane p : w1 ≡ₚ w2 → headers_known w1 → check_live_algo_id algo true = Ok lane → earliest_agree (lane_samples lane w1) →
  lane_bits_from_window (headers_store (wm_gd wm)) w1 algo p = lane_bits_from_window (headers_store (wm_gd wm)) w2 algo p.
Proof.
  intros Hp Hk Hl He. unfold lane_bits_from_window. rewrite Hl. cbn [mret outcome_ret mbind outcome_bind].
  rewrite !window_headers_eq by (try done; intros b Hb; apply Hk; by rewrite Hp). cbn [mbind outcome_bind].
  apply lane_expected_perm; [| |exact He].
  2: { apply Forall_fmap, Forall_forall. intros h [_ Hh]%list_elem_of_filter. pose proof (window_headers_typed w1 Hk) as Ht. rewrite Forall_forall in Ht. by apply Ht. }
  apply fmap_Permutation, filter_Permutation, omap_Permutation, Hp.
Qed.

(** The trimmed sample of the lane engine is the least block of the live one. *)
Lemma engines_trim w : w ≠ [] → earliest_agree (sample <$> w) → ∃ l g least greatest,
  position_minmax (dblock <$> w) = Some ((l, least), (g, greatest)) ∧
  least ∈ dblock <$> w ∧ greatest ∈ dblock <$> w ∧ db_timestamp least ≤ db_timestamp greatest ∧
  db_timestamp least = (lane_min (sample <$> w)).2 ∧ maximum (snd <$> (sample <$> w)) = Some (db_timestamp greatest) ∧
  (λ b, (db_bits b, db_timestamp b)) <$> swap_remove l (dblock <$> w) ≡ₚ delete_index (lane_min (sample <$> w)).1 (sample <$> w).
Proof.
  intros Hne He. destruct (position_minmax_spec w Hne) as ([l x] & [g y] & E & L & (a & Ha & Hx & M) & (b & Hb & Hy & N)). cbn in *. subst.
  destruct (lane_min_spec (sample <$> w)) as ((c & I & P) & Lm); [by destruct w|]. exists l, g, (dblock a), (dblock b). split; [done|].
  split; [by apply list_elem_of_fmap_2|]. split; [by apply list_elem_of_fmap_2|].
  split; [destruct (proj1 (difficulty_le_spec _ _) (M b Hb)) as [H|[H _]]; lia|].
  assert (sample a ∈ sample <$> w) as Ia by (by apply list_elem_of_fmap_2).
  assert (∀ z, z ∈ sample <$> w → (sample a).2 ≤ z.2) as Ma.
  { intros z (k & -> & Hk)%list_elem_of_fmap. destruct (proj1 (difficulty_le_spec _ _) (M k Hk)) as [H|[H _]]; cbn in *; lia. }
  assert ((lane_min (sample <$> w)).2 = (sample a).2) as Et by (apply Z.le_antisymm; [apply Lm, Ia|apply (Ma _ I)]).
  split; [done|]. split.
  - rewrite <- list_fmap_compose. apply maximum_Some; [apply list_elem_of_fmap; by exists b|].
    intros y (k & -> & Hk)%list_elem_of_fmap. destruct (proj1 (difficulty_le_spec _ _) (N k Hk)) as [H|[H _]]; cbn in *; lia.
  - pose proof (swap_remove_perm _ _ _ L) as Ps. apply (fmap_Permutation (λ b, (db_bits b, db_timestamp b))) in Ps.
    rewrite <- list_fmap_compose in Ps. cbn in Ps. apply (Permutation_cons_inv (a := sample a)). 
    change (sample a) with (db_bits (dblock a), db_timestamp (dblock a)) at 1. rewrite <- Ps. 
    assert (sample a = (c, (lane_min (sample <$> w)).2)) as -> by (rewrite Et; pose proof (He _ _ Ia I Ma Lm) as Hc; cbn in Hc; by rewrite <- Hc).
    by rewrite <- P.
Qed.

(** The time a window spans. *)
Definition span (w : list SortableBlock) : Z := Z.max (default 0 (maximum (snd <$> (sample <$> w))) - (lane_min (sample <$> w)).2) 1.
Definition expected_span (w : list SortableBlock) : Z := target_time_per_block wm * difficulty_sample_rate wm * (Z.of_nat (length w) - 1).
(** The bits the live engine holds below its minimum window. *)
Definition held_bits (d : GhostdagData) : option Z :=
  if bool_decide (selected_parent d = genesis_hash (wm_gd wm)) then Some (genesis_bits wm)
  else hdr_bits <$> headers_store (wm_gd wm) !! selected_parent d.

Lemma clamp_inactive m e f : 1 ≤ f → 1 ≤ e → 1 ≤ m ≤ U64_MAX → e / f ≤ m ≤ e * f →
  clamp m (Z.max (Z.max e 1 / Z.max f 1) 1) (sat_mul64 (Z.max e 1) (Z.max f 1)) = m.
Proof.
  intros Hf He Hm Hb. rewrite (Z.max_l e 1), (Z.max_l f 1) by lia. unfold clamp, sat_mul64. revert Hb. generalize (e / f) (e * f). intros lo hi Hb.
  replace (m <? Z.max lo 1) with false by lia. by replace (Z.min hi U64_MAX <? m) with false by lia.
Qed.

(** C23. The lane engine is the live engine when its lane is the whole window:
    with the live parameters, the bits the live engine holds, and a measured
    time the clamp leaves alone, both return the same bits, below the minimum
    window and above it; the earliest blocks, when they tie, must carry the
    same bits. *)
Theorem lane_engine_is_live_engine w d f hold : headers_known w → earliest_agree (sample <$> w) →
  (2 ≤ min_difficulty_window_size wm)%nat → 0 < target_time_per_block wm → 0 < difficulty_sample_rate wm →
  target_time_per_block wm * difficulty_sample_rate wm * Z.of_nat (length w) ≤ U64_MAX →
  held_bits d = Some hold → 1 ≤ f → expected_span w / f ≤ span w ≤ expected_span w * f →
  lane_expected_bits (sample <$> w) (target_time_per_block wm) (difficulty_sample_rate wm)
    (Z.of_nat (min_difficulty_window_size wm)) f hold (max_difficulty_target wm) = calculate_difficulty_bits wm w d.
Proof.
  intros Hk He Hmin Htt Hr Hfit Hhold Hf Hspan. unfold calculate_difficulty_bits. rewrite get_difficulty_blocks_eq by done.
  cbn [mbind outcome_bind]. rewrite !length_fmap. destruct (length w <? min_difficulty_window_size wm)%nat eqn:Hlt.
  { unfold lane_expected_bits. rewrite length_fmap. replace (Z.of_nat (length w) <? _) with true by lia. unfold held_bits, Ghostdag.get in *. destruct (bool_decide _); [by injection Hhold as ->|].
    destruct (_ !! selected_parent d); [|done]. cbn in *. by injection Hhold as ->. }
  assert (w ≠ []) as Hne by (intros ->; apply Nat.ltb_ge in Hlt; cbn [length] in Hlt; lia).
  destruct (engines_trim w Hne He) as (l & g & least & greatest & E & Il & Ig & Hlg & Et & Em & P). rewrite E. cbn [unwrap mbind outcome_bind fst snd].
  apply Nat.ltb_ge in Hlt. rewrite (lane_expected_adjust (sample <$> w) _ _ _ _ _ _ (db_timestamp greatest));
    [|rewrite length_fmap; lia|by destruct w|exact Em].
  set (rest := swap_remove l (dblock <$> w)) in *. set (bits := fst <$> delete_index _ _).
  assert (db_bits <$> rest ≡ₚ bits) as Pb by (unfold bits; rewrite <- P, <- list_fmap_compose; done).
  assert (Z.of_nat (length rest) = Z.of_nat (length w) - 1) as Hlen.
  { unfold rest, swap_remove. destruct (last (dblock <$> w)) eqn:Hl; [|by apply last_None in Hl; destruct w]. rewrite length_take, length_insert, length_fmap. lia. }
  assert (length bits = length rest) as Hlb by (rewrite <- (Permutation_length Pb); by rewrite length_fmap).
  assert (expected_span w = target_time_per_block wm * difficulty_sample_rate wm * Z.of_nat (length rest)) as Hexp by (unfold expected_span; by rewrite Hlen).
  assert (1 ≤ expected_span w ≤ U64_MAX) as He64 by (rewrite Hexp; nia).
  assert (0 ≤ db_timestamp least ≤ db_timestamp greatest ∧ db_timestamp greatest ≤ U64_MAX) as Hts
    by (destruct (dblock_u64 w Hk least Il), (dblock_u64 w Hk greatest Ig); lia).
  unfold span in Hspan. rewrite Em in Hspan. cbn [default from_option id] in Hspan. rewrite <- Et in Hspan |- *.
  rewrite Hlb. unfold sat_mul64 at 1 2. rewrite (Z.min_l (_ * difficulty_sample_rate wm)), Z.min_l by nia. rewrite <- Hexp.
  unfold sub64, mul64. rewrite !chk64_Ok by (unfold is_u64; nia). cbn [mbind outcome_bind]. rewrite (Z.max_r 0) by lia. set (m := Z.max (_ - _) 1) in *.
  unfold lane_retarget_bits, lane_retarget_decision, retarget. rewrite Hlb. replace (Z.of_nat (length rest) <? 1) with false by lia.
  rewrite clamp_inactive by lia. rewrite (Z.max_l m 1), (Z.max_l (expected_span w) 1) by lia.
  rewrite <- (uint_sum_perm 5 _ _ (fmap_Permutation target_320 _ _ Pb)), <- list_fmap_compose.
  - destruct (div_u64 _ _); [|done..]. cbn [mbind outcome_bind]. rewrite chk64_Ok by (unfold is_u64; nia). cbn [mbind outcome_bind]. by rewrite <- Hexp.
  - rewrite Pb. apply Forall_fmap, Forall_fmap, Forall_forall. intros x Hx%delete_index_sub. apply target_320_wf.
    pose proof (samples_typed w Hk) as Ht. rewrite Forall_forall in Ht. by apply Ht.
Qed.

(** C21. The difficulty and the past median time of a window are functions of
    the multiset of its blocks: two nodes whose heaps hold the same blocks, in
    whatever order insertions left them, compute the same bits and the same
    time, and fail alike. The bits of a lane are so when the earliest blocks of
    the lane, if they tie, carry the same bits. *)
Theorem difficulty_order_free w1 w2 d sp algo lane p : w1 ≡ₚ w2 → headers_known w1 → check_live_algo_id algo true = Ok lane →
  calculate_difficulty_bits wm w1 d = calculate_difficulty_bits wm w2 d ∧
  manager_past_median_time wm w1 sp = manager_past_median_time wm w2 sp ∧
  (earliest_agree (lane_samples lane w1) →
   lane_bits_from_window (headers_store (wm_gd wm)) w1 algo p = lane_bits_from_window (headers_store (wm_gd wm)) w2 algo p).
Proof. intros Hp Hk Hl. split; [by apply difficulty_perm|]. split; [by apply median_time_perm|]. by apply lane_bits_perm. Qed.
End difficulty.

(** ** The past median time *)

Definition frame_size (n : nat) : nat := Nat.min n AVERAGE_FRAME_SIZE.
Definition frame_end (n : nat) : nat := ((n + frame_size n + 1) / 2)%nat.

Lemma filter_length_all {A} (P : A → Prop) `{∀ x, Decision (P x)} l : Forall P l → length (filter P l) = length l.
Proof. induction 1 as [|x l Hx _ IH]; [done|]. rewrite filter_cons_True by done. cbn. by rewrite IH. Qed.

(** In a sorted list, few elements above a bound leave the first ones below
    it, and few below a bound leave the last ones above it. *)
Lemma sorted_low (s : list Z) hi e : StronglySorted Z.le s → (length (filter (λ t, (hi < t)%Z) s) ≤ length s - e)%nat →
  (e ≤ length s)%nat → ∀ x, x ∈ take e s → x ≤ hi.
Proof.
  intros Hs Hc He x Hin. apply list_elem_of_lookup_1 in Hin as (i & [Hx Hi]%lookup_take_Some).
  destruct (decide (x ≤ hi)) as [|Hgt]; [done|]. exfalso. apply lookup_lt_Some in Hx as Hlt. revert Hc.
  rewrite <- (take_drop_middle s i x Hx) at 1. rewrite <- (take_drop_middle s i x Hx) in Hs. apply StronglySorted_app in Hs as (_ & _ & Hs).
  apply StronglySorted_cons in Hs as [Hall _]. rewrite filter_app, length_app, (filter_length_all _ (x :: drop (S i) s)).
  - cbn [length]. rewrite length_drop. lia.
  - constructor; [lia|]. eapply Forall_impl; [exact Hall|]. cbn. lia.
Qed.
Lemma sorted_high (s : list Z) lo a : StronglySorted Z.le s → (length (filter (λ t, (t < lo)%Z) s) ≤ a)%nat →
  ∀ x, x ∈ drop a s → lo ≤ x.
Proof.
  intros Hs Hc x Hin. apply list_elem_of_lookup_1 in Hin as (i & Hx). rewrite lookup_drop in Hx. set (j := (a + i)%nat) in *.
  destruct (decide (lo ≤ x)) as [|Hgt]; [done|]. exfalso. apply lookup_lt_Some in Hx as Hlt. revert Hc.
  rewrite <- (take_drop_middle s j x Hx) at 1. rewrite <- (take_drop_middle s j x Hx) in Hs. apply StronglySorted_app in Hs as (Hle & _ & _).
  rewrite filter_app, filter_cons_True, length_app, (filter_length_all _ (take j s)) by first [lia | apply Forall_forall; intros y Hy; specialize (Hle y x Hy ltac:(by left)); lia].
  cbn [length]. rewrite length_take. lia.
Qed.
Lemma sumZ_between lo hi l : (∀ x, x ∈ l → lo ≤ x ≤ hi) → lo * Z.of_nat (length l) ≤ sumZ l ≤ hi * Z.of_nat (length l).
Proof.
  induction l as [|x l IH]; intros Hb; [unfold sumZ; cbn; lia|]. rewrite sumZ_cons. cbn [length]. pose proof (Hb x ltac:(by left)).
  destruct IH as [? ?]; [intros y Hy; apply Hb; by right|].
  rewrite Nat2Z.inj_succ, !Z.mul_succ_r. lia.
Qed.

Lemma frame_facts n : (0 < n)%nat → (0 < frame_size n ≤ frame_end n)%nat ∧ (frame_end n ≤ n)%nat ∧ (frame_size n ≤ 11)%nat.
Proof. intros Hn. unfold frame_end, frame_size, AVERAGE_FRAME_SIZE. lia. Qed.
Lemma rounded_average lo hi sum f : 0 < f → lo * f ≤ sum ≤ hi * f → lo ≤ (sum + f / 2) / f ≤ hi.
Proof.
  intros Hf Hs. pose proof (Z.div_lt f 2 Hf ltac:(lia)). pose proof (Z.div_pos f 2 ltac:(lia) ltac:(lia)). split.
  - apply Z.div_le_lower_bound; lia.
  - apply Z.lt_succ_r, Z.div_lt_upper_bound; lia.
Qed.

(** C22. The past median time withstands a minority: when the timestamps above
    [hi] are no more than those the averaged frame leaves behind it, and those
    below [lo] no more than those it leaves before it, the time exists and lies
    between the two, so no miner with fewer blocks than that moves it further.
    The timestamps are small enough for eleven of them to add up in 64 bits. *)
Theorem past_median_robust ts lo hi : ts ≠ [] → (∀ t, t ∈ ts → 0 ≤ t ∧ 11 * t + 5 ≤ U64_MAX) →
  (length (filter (λ t, (hi < t)%Z) ts) ≤ length ts - frame_end (length ts))%nat →
  (length (filter (λ t, (t < lo)%Z) ts) ≤ frame_end (length ts) - frame_size (length ts))%nat →
  ∃ t, past_median_of ts = Ok t ∧ lo ≤ t ≤ hi.
Proof.
  intros Hne Hb Hhi Hlo. unfold past_median_of.
  pose proof (merge_sort_Permutation Z.le ts) as Hp. pose proof (StronglySorted_merge_sort Z.le ts) as Hs.
  set (s := merge_sort Z.le ts) in *. rewrite <- Hp in Hhi, Hlo. assert (∀ t, t ∈ s → 0 ≤ t ∧ 11 * t + 5 ≤ U64_MAX) as Hbs by (intros t; rewrite Hp; apply Hb).
  assert (0 < length s)%nat as Hpos by (rewrite Hp; destruct ts; [done|cbn; lia]).
  change (Nat.min (length s) AVERAGE_FRAME_SIZE) with (frame_size (length s)). change ((length s + frame_size (length s) + 1) / 2)%nat with (frame_end (length s)).
  destruct (frame_facts (length s) Hpos) as ([Hf0 Hfe] & Hen & Hf11). set (f := frame_size (length s)) in *. set (e := frame_end (length s)) in *.
  set (fr := take f (drop (e - f) s)). assert (length fr = f) as Hlen by (unfold fr; rewrite length_take, length_drop; lia).
  assert (∀ x, x ∈ fr → lo ≤ x ≤ hi) as Hfr.
  { intros x Hx. split; [eapply sorted_high; [exact Hs|exact Hlo|]; by eapply subseteq_take|].
    eapply (sorted_low s hi e); [done..|]. unfold fr in Hx. rewrite take_drop_commute in Hx. replace (e - f + f)%nat with e in Hx by lia. by eapply subseteq_drop. }
  assert (∀ x, x ∈ fr → 0 ≤ x ≤ (U64_MAX - 5) / 11) as Hfb.
  { intros x Hx. assert (x ∈ s) as [? ?]%Hbs by (by eapply subseteq_drop, subseteq_take). split; [done|]. apply Z.div_le_lower_bound; lia. }
  assert (Forall (λ z, 0 ≤ z) fr) as Hnn by (apply Forall_forall; intros x Hx; by apply Hfb).
  apply sumZ_between in Hfr, Hfb. rewrite Hlen in Hfr, Hfb.
  pose proof (Z.mul_div_le (U64_MAX - 5) 11 ltac:(lia)). rewrite sum64_Ok by (done || nia).
  cbn [mbind outcome_bind]. rewrite Z.add_0_l. unfold add64. pose proof (sumZ_nonneg _ Hnn). rewrite chk64_Ok by (unfold is_u64; nia).
  cbn [mbind outcome_bind]. eexists. split; [reflexivity|]. rewrite Nat2Z.inj_div. apply rounded_average; lia.
Qed.

(** The layout of a binary heap with its least element at the root: no element
    is below its parent. *)
Definition heap_layout (w : list SortableBlock) : Prop := ∀ i x y, w !! i = Some x → w !! ((i - 1) / 2)%nat = Some y → sortable_le y x.

Module WindowWitness.
(** Four blocks; two of them share the least timestamp and differ in bits. *)
Definition header (hash timestamp bits : Z) : Header :=
  mkHeader hash 2 [] 0 0 0 timestamp bits 0 POW_ALGO_ID_BLAKE2B_SHA3 0 0 0 0 0 0 0 0 0 0 0 0 0 0 0 0 0 0 0 0.
Definition headers : gmap BlockHash Header := list_to_map
  [(10, header 10 2000 486604799); (11, header 11 1000 486604799); (12, header 12 1000 469827583); (13, header 13 1500 486604799)].
Definition window : list SortableBlock := [mkSortable 10 1; mkSortable 11 2; mkSortable 12 3; mkSortable 13 4].
Definition other_window : list SortableBlock := [mkSortable 10 1; mkSortable 12 3; mkSortable 11 2; mkSortable 13 4].
Definition params : LaneDifficultyParams := mkLaneParams 1000 1000 10 10 2 1 4 1 1 486604799 486604799.
Definition manager : SampledWindowManager unit :=
  mkWindowManager (mkManager 1 18 ∅ ∅ headers tt 0 0 0 None) ∅ ∅ 10 1 10 1 2 486604799 MAX_DIFFICULTY_TARGET 1000.
(** A window without the second of the tied blocks. *)
Definition untied : list SortableBlock := [mkSortable 10 1; mkSortable 11 2; mkSortable 13 4].
Definition parent : GhostdagData := GhostdagData_new 3 3 10 [] [] ∅.

Lemma in_headers hash : hash ∈ [10; 11; 12; 13] → ∃ h, headers !! hash = Some h ∧ 0 ≤ hdr_bits h ∧ is_u64 (hdr_timestamp h).
Proof. rewrite !elem_of_cons, elem_of_nil. intros [->|[->|[->|[->|[]]]]]; eexists; (split; [vm_compute; reflexivity|]); vm_compute; done. Qed.
Lemma known w : sb_hash <$> w ⊆ [10; 11; 12; 13] → headers_known manager w.
Proof. intros Hs b Hb. apply in_headers, Hs. by apply list_elem_of_fmap_2. Qed.
Lemma layouts : heap_layout window ∧ heap_layout other_window.
Proof.
  split; intros i x y Hi Hy; do 4 (destruct i as [|i]; [injection Hi as <-; injection Hy as <-; apply sortable_le_iff; vm_compute; done|]); done.
Qed.

(** C24. The bits of a lane depend on the order its heap iterates in: two
    layouts of the same blocks, both heaps, whose stored headers are the same,
    give different bits, because the block trimmed among those of the least
    timestamp is the first in iteration order. *)
Theorem lane_bits_depend_on_layout : ∃ headers w1 w2 p,
  w1 ≡ₚ w2 ∧ heap_layout w1 ∧ heap_layout w2 ∧ is_structurally_valid p = true ∧
  (∃ b1 b2, lane_bits_from_window headers w1 POW_ALGO_ID_BLAKE2B_SHA3 p = Ok b1 ∧
    lane_bits_from_window headers w2 POW_ALGO_ID_BLAKE2B_SHA3 p = Ok b2 ∧ b1 ≠ b2).
Proof.
  exists headers, window, other_window, params. destruct layouts as [L1 L2]. split; [apply perm_skip, perm_swap|]. split; [exact L1|]. split; [exact L2|].
  split; [done|]. eexists _, _. split; [vm_compute; reflexivity|]. split; [vm_compute; reflexivity|done].
Qed.

Lemma difficulty_order_free_witness :
  calculate_difficulty_bits manager window parent = calculate_difficulty_bits manager other_window parent ∧
  manager_past_median_time manager window 10 = manager_past_median_time manager other_window 10 ∧
  (earliest_agree (lane_samples manager HashFloor window) →
   lane_bits_from_window headers window POW_ALGO_ID_BLAKE2B_SHA3 params = lane_bits_from_window headers other_window POW_ALGO_ID_BLAKE2B_SHA3 params).
Proof. apply (difficulty_order_free manager); [apply perm_skip, perm_swap|by apply known|done]. Defined.

Lemma earliest_untied : earliest_agree (sample manager <$> untied).
Proof.
  assert (sample manager <$> untied = [(486604799, 2000); (486604799, 1000); (486604799, 1500)]) as -> by (vm_compute; reflexivity).
  intros a b Ha Hb _ _. rewrite !elem_of_cons, elem_of_nil in Ha, Hb. destruct Ha as [->|[->|[->|[]]]], Hb as [->|[->|[->|[]]]]; done.
Qed.
Lemma lane_engine_witness :
  lane_expected_bits (sample manager <$> untied) 1000 1 2 4 486604799 MAX_DIFFICULTY_TARGET = calculate_difficulty_bits manager untied parent.
Proof.
  apply (lane_engine_is_live_engine manager untied parent 4 486604799); [|apply earliest_untied|vm_compute; lia|done|done|vm_compute; discriminate|vm_compute; reflexivity|lia|vm_compute; split; discriminate].
  apply known. intros x. cbn. set_solver.
Defined.

(** A chain of two blocks over genesis, with the window of the first cached. *)
Definition first : GhostdagData := GhostdagData_new 1 5 1 [1] [] ∅.
Definition second : GhostdagData := GhostdagData_new 2 9 11 [11] [] ∅.
Definition tip : GhostdagData := GhostdagData_new 3 14 12 [12] [] ∅.
Definition chain_manager : SampledWindowManager unit :=
  mkWindowManager (mkManager 1 18 (list_to_map [(1, genesis_ghostdag_data); (11, first); (12, second)]) ∅ headers tt 0 0 0 None)
    (list_to_map [(11, [])]) ∅ 10 1 10 1 2 486604799 MAX_DIFFICULTY_TARGET 1000.
Lemma chain_lookup h d parent : ghostdag_store (wm_gd chain_manager) !! h = Some d → selected_parent d ≠ ORIGIN →
  ghostdag_store (wm_gd chain_manager) !! selected_parent d = Some parent →
  (d = first ∧ parent = genesis_ghostdag_data) ∨ (d = second ∧ parent = first).
Proof.
  intros Hd Ho Hp. assert (d = genesis_ghostdag_data ∨ d = first ∨ d = second) as [->|[->| ->]].
  { revert Hd. cbn. rewrite !fin_maps.lookup_insert_Some, lookup_empty. naive_solver. }
  - by destruct Ho.
  - left. by injection Hp as <-.
  - right. by injection Hp as <-.
Qed.
Lemma chain_manager_ordered : chain_ordered chain_manager.
Proof.
  split; [done| |]; intros h d parent.
  - intros merged Hd Ho Hp. destruct (chain_lookup h d parent Hd Ho Hp) as [[-> ->]|[-> ->]]; intros [= <-]; repeat constructor.
  - intros Hd Ho Hp. by destruct (chain_lookup h d parent Hd Ho Hp) as [[-> ->]|[-> ->]].
Qed.
Lemma chain_manager_cache : cache_sound chain_manager DifficultyWindow.
Proof.
  intros h w. cbn. rewrite fin_maps.lookup_insert_Some, lookup_empty. intros [[<- <-]|[_ [=]]].
  exists first, []. split; [done|]. split; [by constructor|done].
Qed.
Lemma chain_manager_samples : sample_chain chain_manager DifficultyWindow tip [mkSortable 12 9; mkSortable 11 5].
Proof.
  apply (sc_step chain_manager DifficultyWindow tip second [Sampled (mkSortable 12 9)] [mkSortable 11 5]); [done..|vm_compute; reflexivity|].
  apply (sc_step chain_manager DifficultyWindow second first [Sampled (mkSortable 11 5)] []); [done..|vm_compute; reflexivity|by constructor].
Qed.
Lemma block_window_witness : ∃ w non_daa, build_block_window chain_manager tip DifficultyWindow = Ok (w, non_daa) ∧
  w ≡ₚ heaviest 10 [mkSortable 12 9; mkSortable 11 5].
Proof.
  destruct (block_window_is_heaviest chain_manager DifficultyWindow tip _ chain_manager_ordered chain_manager_cache chain_manager_samples) as (w & nd & H1 & H2 & _);
    [cbn; lia|]. exists w, nd. split; [exact H1|exact H2].
Defined.

(** Thirteen timestamps, one of them far ahead and one far behind. *)
Definition times : list Z := [500; 501; 502; 503; 504; 505; 506; 507; 508; 509; 510; 99999; 3].
Lemma past_median_witness : ∃ t, past_median_of times = Ok t ∧ 500 ≤ t ≤ 510.
Proof.
  apply (past_median_robust times 500 510); [done| |vm_compute; lia|vm_compute; lia].
  intros t Ht. assert (Forall (λ t, 0 ≤ t ∧ 11 * t + 5 ≤ U64_MAX) times) as Hall by (unfold times, U64_MAX; repeat (constructor; [lia|]); constructor).
  rewrite Forall_forall in Hall. by apply Hall.
Defined.
End WindowWitness.
