(* ===== verification/Merkle.v ===== *)
(** * Binary hash trees over lists

    The level-by-level construction that the Merkle trees of the repository
    share, over any node function: a level is a list of digests, the next level
    pairs neighbours (an odd last one with itself), and a path folds a digest
    with its siblings, the direction at each step read from the bits of an
    index. The theorems say that the path of a leaf folds to the apex, and that
    whatever folds to the apex is the leaf at that position, unless two
    different pairs of digests that were hashed have one node. *)

From stdpp Require Import base list sets.
From Stdlib Require Import ZArith Arith Lia ZifyNat.



Section merkle.
Context {A : Type} `{EqDecision A} (node : A → A → A).

(** [chunks_exact(2)] mapped by the node function. *)
Fixpoint pair_up (level : list A) : list A :=
  match level with a :: b :: level => node a b :: pair_up level | _ => [] end.
Fixpoint pairs (level : list A) : list (A * A) :=
  match level with a :: b :: level => (a, b) :: pairs level | _ => [] end.

(** An odd level is completed with its last digest. *)
Definition even_pad (level : list A) : list A :=
  if Nat.odd (length level) then level ++ option_list (last level) else level.
Definition level_up (level : list A) : list A := pair_up (even_pad level).

(** Folding a digest with its siblings from the bottom up, and the pairs that
    are hashed on the way. *)
Definition step_pair (idx : nat) (x sibling : A) : A * A := if Nat.odd idx then (sibling, x) else (x, sibling).
Fixpoint fold_path (idx : nat) (siblings : list A) (x : A) : A :=
  match siblings with
  | [] => x
  | s :: siblings => fold_path (idx / 2) siblings (let p := step_pair idx x s in node p.1 p.2)
  end.
Fixpoint path_pairs (idx : nat) (siblings : list A) (x : A) : list (A * A) :=
  match siblings with
  | [] => []
  | s :: siblings => let p := step_pair idx x s in p :: path_pairs (idx / 2) siblings (node p.1 p.2)
  end.

(** The pairs that are hashed for [d] levels. *)
Fixpoint tree_pairs (d : nat) (level : list A) : list (A * A) :=
  match d with O => [] | S d => pairs (even_pad level) ++ tree_pairs d (level_up level) end.

(** The sibling of position [idx], and the path of a leaf; reading out of range
    is a panic of the code. *)
Definition sibling_index (idx : nat) : nat := if Nat.odd idx then idx - 1 else S idx.
Fixpoint merkle_path (d : nat) (level : list A) (idx : nat) : option (list A) :=
  match d with
  | O => Some []
  | S d =>
    s ← even_pad level !! sibling_index idx;
    rest ← merkle_path d (level_up level) (idx / 2);
    Some (s :: rest)
  end.

(** Two pairs of different digests with one node. *)
Definition pair_collision (l1 l2 : list (A * A)) : Prop :=
  ∃ p q, p ∈ l1 ∧ q ∈ l2 ∧ p ≠ q ∧ node p.1 p.2 = node q.1 q.2.

Lemma pair_collision_mono l1 l2 k1 k2 : l1 ⊆ k1 → l2 ⊆ k2 → pair_collision l1 l2 → pair_collision k1 k2.
Proof. intros H1 H2 (p & q & Hp & Hq & Hr). exists p, q. auto. Qed.

Lemma list_pair_ind (P : list A → Prop) :
  P [] → (∀ a, P [a]) → (∀ a b l, P l → P (a :: b :: l)) → ∀ l, P l.
Proof.
  intros H0 H1 H2. fix IH 1. intros [|a [|b l]]; [exact H0|apply H1|apply H2, IH].
Qed.

Lemma lookup_pairs l i : pairs l !! i =
  match l !! (2 * i), l !! S (2 * i) with Some a, Some b => Some (a, b) | _, _ => None end.
Proof.
  revert i. induction l as [|a|a b l IH] using list_pair_ind; intros i; [done| |].
  - cbn [pairs]. destruct i; [done|]. by replace (2 * S i) with (S (S (2 * i))) by lia.
  - destruct i as [|i]; [done|]. cbn [pairs]. replace (2 * S i) with (S (S (2 * i))) by lia. cbn [lookup list_lookup]. apply IH.
Qed.

Lemma pair_up_pairs l : pair_up l = (λ p, node p.1 p.2) <$> pairs l.
Proof. induction l as [|a|a b l IH] using list_pair_ind; [done..|]. cbn. by rewrite IH. Qed.

Lemma length_pairs l : length (pairs l) = length l / 2.
Proof.
  induction l as [|a|a b l IH] using list_pair_ind; [done..|]. cbn [pairs length]. rewrite IH.
  replace (S (S (length l))) with (length l + 1 * 2) by lia. rewrite Nat.div_add by lia. lia.
Qed.
Lemma length_pair_up l : length (pair_up l) = length l / 2.
Proof. by rewrite pair_up_pairs, length_fmap, length_pairs. Qed.

Lemma last_is_Some (l : list A) : l ≠ [] → is_Some (last l).
Proof. intros Hl. destruct (last l) eqn:E; [done|]. by apply last_None in E. Qed.

Lemma even_pad_even l : Nat.odd (length l) = false → even_pad l = l.
Proof. unfold even_pad. by intros ->. Qed.
Lemma length_even_pad l : length (even_pad l) = 2 * ((length l + 1) / 2).
Proof.
  unfold even_pad. destruct (Nat.odd (length l)) eqn:Ho.
  - assert (l ≠ []) as [x Hx]%last_is_Some by (by intros ->). rewrite Hx, length_app. change (length (option_list (Some x))) with 1.
    apply Nat.odd_spec in Ho as [k Hk]. rewrite Hk. lia.
  - rewrite <- Nat.negb_even in Ho. apply negb_false_iff, Nat.even_spec in Ho as [k Hk]. rewrite Hk. lia.
Qed.
Lemma elem_of_even_pad x l : x ∈ even_pad l → x ∈ l.
Proof.
  unfold even_pad. destruct (Nat.odd _); [|done]. rewrite elem_of_app. intros [?|Hx]; [done|].
  destruct (last l) as [y|] eqn:Hy; [|by apply not_elem_of_nil in Hx]. apply list_elem_of_singleton in Hx as ->.
  apply last_Some in Hy as [l' ->]. set_solver.
Qed.
Lemma even_pad_lookup l i x : l !! i = Some x → even_pad l !! i = Some x.
Proof. intros Hx. unfold even_pad. destruct (Nat.odd _); [|done]. by apply lookup_app_l_Some. Qed.

Lemma length_level_up l : length (level_up l) = (length l + 1) / 2.
Proof.
  unfold level_up. rewrite length_pair_up, length_even_pad. lia.
Qed.
Lemma lookup_level_up l i x : level_up l !! i = Some x →
  ∃ a b, even_pad l !! (2 * i) = Some a ∧ even_pad l !! S (2 * i) = Some b ∧ x = node a b ∧ (a, b) ∈ pairs (even_pad l).
Proof.
  unfold level_up. rewrite pair_up_pairs, list_lookup_fmap. intros Hx.
  destruct (pairs (even_pad l) !! i) as [[a b]|] eqn:Hp; [|done]. injection Hx as <-.
  pose proof (list_elem_of_lookup_2 _ _ _ Hp) as Hin. rewrite lookup_pairs in Hp.
  destruct (even_pad l !! (2 * i)), (even_pad l !! S (2 * i)); try done. injection Hp as <- <-. eauto 10.
Qed.
Lemma lookup_level_up_2 l i a b : even_pad l !! (2 * i) = Some a → even_pad l !! S (2 * i) = Some b →
  level_up l !! i = Some (node a b).
Proof.
  intros Ha Hb. unfold level_up. by rewrite pair_up_pairs, list_lookup_fmap, lookup_pairs, Ha, Hb.
Qed.

(** The element below a step and its sibling are the pair at half the index. *)
Lemma step_pair_lookup l idx x s a b :
  (a, b) = step_pair idx x s → even_pad l !! (2 * (idx / 2)) = Some a → even_pad l !! S (2 * (idx / 2)) = Some b →
  even_pad l !! idx = Some x ∧ even_pad l !! sibling_index idx = Some s.
Proof.
  unfold step_pair, sibling_index. pose proof (Nat.div_mod_eq idx 2) as Hd. pose proof (Nat.mod_upper_bound idx 2).
  destruct (Nat.odd idx) eqn:Ho; intros [= -> ->] Ha Hb.
  - apply Nat.odd_spec in Ho as [k Hk]. assert (idx / 2 = k) as Hk2 by (subst idx; lia).
    replace idx with (S (2 * k)) by lia. rewrite Hk2 in *. by replace (S (2 * k) - 1) with (2 * k) by lia.
  - rewrite <- Nat.negb_even in Ho. apply negb_false_iff, Nat.even_spec in Ho as [k Hk].
    assert (idx / 2 = k) as Hk2 by (subst idx; lia). replace idx with (2 * k) by lia. by rewrite Hk2 in *.
Qed.
Lemma step_pair_lookup_2 l idx x s :
  even_pad l !! idx = Some x → even_pad l !! sibling_index idx = Some s →
  level_up l !! (idx / 2) = Some (let p := step_pair idx x s in node p.1 p.2).
Proof.
  unfold step_pair, sibling_index. pose proof (Nat.div_mod_eq idx 2) as Hd. pose proof (Nat.mod_upper_bound idx 2).
  destruct (Nat.odd idx) eqn:Ho; intros Hx Hs.
  - apply Nat.odd_spec in Ho as [k Hk]. assert (idx / 2 = k) as -> by (subst idx; lia).
    apply lookup_level_up_2; [by replace (2 * k) with (idx - 1) by lia|by replace (S (2 * k)) with idx by lia].
  - rewrite <- Nat.negb_even in Ho. apply negb_false_iff, Nat.even_spec in Ho as [k Hk].
    assert (idx / 2 = k) as -> by (subst idx; lia).
    apply lookup_level_up_2; [by replace (2 * k) with idx by lia|by replace (S (2 * k)) with (S idx) by lia].
Qed.

(** ** The path of a leaf *)

Lemma iter_S {B} (f : B → B) d b : Nat.iter (S d) f b = Nat.iter d f (f b).
Proof. change (S d) with (1 + d). by rewrite Nat.add_comm, Nat.iter_add. Qed.

Lemma merkle_path_ok d l idx x : l !! idx = Some x →
  ∃ siblings, merkle_path d l idx = Some siblings ∧ length siblings = d ∧
    Nat.iter d level_up l !! (idx / 2 ^ d) = Some (fold_path idx siblings x).
Proof.
  revert l idx x. induction d as [|d IH]; intros l idx x Hx.
  { exists []. by rewrite Nat.div_1_r. }
  assert (Hx' := even_pad_lookup _ _ _ Hx).
  assert (is_Some (even_pad l !! sibling_index idx)) as [s Hs].
  { apply lookup_lt_is_Some. apply lookup_lt_Some in Hx'. revert Hx'. rewrite length_even_pad.
    pose proof (Nat.div_mod_eq idx 2). pose proof (Nat.mod_upper_bound idx 2). unfold sibling_index.
    destruct (Nat.odd idx) eqn:Ho; [lia|]. rewrite <- Nat.negb_even in Ho.
    apply negb_false_iff, Nat.even_spec in Ho as [k Hk]. lia. }
  destruct (IH (level_up l) (idx / 2) _ (step_pair_lookup_2 _ _ _ _ Hx' Hs)) as (sibs & Hp & Hl & Hf).
  exists (s :: sibs). cbn [merkle_path]. rewrite Hs, Hp. cbn [mbind option_bind]. split; [done|]. split; [cbn; by rewrite Hl|].
  rewrite iter_S, Nat.pow_succ_r', <- Nat.Div0.div_div. exact Hf.
Qed.

(** ** Whatever folds to the apex *)

Lemma length_uniform d l : length l = 2 ^ S d → even_pad l = l ∧ length (level_up l) = 2 ^ d.
Proof.
  intros Hl. rewrite Nat.pow_succ_r' in Hl. split.
  - apply even_pad_even. rewrite Hl, Nat.odd_mul. done.
  - rewrite length_level_up, Hl. lia.
Qed.

Lemma half_mod idx d : idx / 2 mod 2 ^ d = idx mod 2 ^ S d / 2.
Proof.
  rewrite Nat.pow_succ_r', Nat.Div0.mod_mul_r. pose proof (Nat.mod_upper_bound idx 2).
  rewrite (Nat.mul_comm 2), Nat.div_add by lia. by rewrite (Nat.div_small (idx mod 2) 2) by (apply Nat.mod_upper_bound; lia).
Qed.
Lemma odd_mod idx d : Nat.odd (idx mod 2 ^ S d) = Nat.odd idx.
Proof.
  rewrite Nat.pow_succ_r'. pose proof (Nat.pow_nonzero 2 d).
  pose proof (Nat.div_mod_eq idx (2 * 2 ^ d)) as Hd. rewrite Hd at 2.
  rewrite Nat.odd_add, <- Nat.mul_assoc, Nat.odd_mul. cbn. by destruct (Nat.odd _).
Qed.

(** A node of the next level is the node of a pair of this one, or another pair
    has the same node. *)
Lemma step_sound l p : node p.1 p.2 ∈ level_up l → p ∈ pairs (even_pad l) ∨ pair_collision [p] (pairs (even_pad l)).
Proof.
  unfold level_up. rewrite pair_up_pairs, list_elem_of_fmap. intros (q & Hn & Hq).
  destruct (decide (p = q)) as [->|]; [by left|]. right. exists p, q. set_solver.
Qed.
Lemma pairs_elem a b l : (a, b) ∈ pairs l → a ∈ l ∧ b ∈ l.
Proof. induction l as [|x|x y l IH] using list_pair_ind; cbn; set_solver. Qed.

(** In a tree whose levels have even length, the digest is the leaf at the
    index, and the siblings are its path. *)
Lemma fold_path_sound d l idx siblings x apex :
  length siblings = d → length l = 2 ^ d → Nat.iter d level_up l = [apex] → fold_path idx siblings x = apex →
  (l !! (idx mod 2 ^ d) = Some x ∧ merkle_path d l (idx mod 2 ^ d) = Some siblings)
  ∨ pair_collision (path_pairs idx siblings x) (tree_pairs d l).
Proof.
  revert l idx siblings x. induction d as [|d IH]; intros l idx [|s siblings] x Hl Hlen Hap Hf; try done.
  { left. cbn in Hap, Hf. subst. by rewrite Nat.mod_1_r. }
  injection Hl as Hl. cbn [fold_path path_pairs tree_pairs] in *. rewrite iter_S in Hap.
  destruct (length_uniform _ _ Hlen) as [Hev Hlen']. set (p := step_pair idx x s) in *.
  destruct (IH (level_up l) (idx / 2) siblings (node p.1 p.2) Hl Hlen' Hap Hf) as [[Hp Hm]|Hc]; cycle 1.
  { right. eapply pair_collision_mono, Hc; set_solver. }
  rewrite half_mod in Hp, Hm. set (j := idx mod 2 ^ S d) in *.
  destruct (lookup_level_up _ _ _ Hp) as (a & b & Ha & Hb & Hn & Hin).
  destruct (decide (p = (a, b))) as [Hpq|Hne].
  - left. destruct (step_pair_lookup l j x s a b) as [Hx Hs]; [|done|done|].
    { rewrite <- Hpq. unfold p, step_pair, j. by rewrite odd_mod. }
    rewrite Hev in Hx. split; [done|]. cbn [merkle_path]. by rewrite Hs, Hm.
  - right. exists p, (a, b). set_solver.
Qed.

(** In general it is one of the leaves. *)
Lemma fold_path_member d l idx siblings x apex :
  length siblings = d → Nat.iter d level_up l = [apex] → fold_path idx siblings x = apex →
  x ∈ l ∨ pair_collision (path_pairs idx siblings x) (tree_pairs d l).
Proof.
  revert l idx siblings x. induction d as [|d IH]; intros l idx [|s siblings] x Hl Hap Hf; try done.
  { left. cbn in Hap, Hf. subst. set_solver. }
  injection Hl as Hl. cbn [fold_path path_pairs tree_pairs] in *. rewrite iter_S in Hap.
  set (p := step_pair idx x s) in *.
  destruct (IH (level_up l) (idx / 2) siblings (node p.1 p.2) Hl Hap Hf) as [Hp|Hc]; cycle 1.
  { right. eapply pair_collision_mono, Hc; set_solver. }
  apply step_sound in Hp as [Hp|Hc].
  - left. destruct p as [a b] eqn:Ep. apply pairs_elem in Hp as [Ha Hb]. apply elem_of_even_pad.
    unfold p, step_pair in Ep. destruct (Nat.odd idx); by injection Ep as <- <-.
  - right. eapply pair_collision_mono, Hc; set_solver.
Qed.

(** A path in pieces. *)
Lemma fold_path_app idx s1 s2 x :
  fold_path idx (s1 ++ s2) x = fold_path (idx / 2 ^ length s1) s2 (fold_path idx s1 x).
Proof.
  revert idx x. induction s1 as [|s s1 IH]; intros idx x; [by rewrite Nat.pow_0_r, Nat.div_1_r|].
  cbn [app fold_path length]. by rewrite IH, Nat.pow_succ_r', Nat.Div0.div_div.
Qed.
Lemma path_pairs_app idx s1 s2 x :
  path_pairs idx (s1 ++ s2) x = path_pairs idx s1 x ++ path_pairs (idx / 2 ^ length s1) s2 (fold_path idx s1 x).
Proof.
  revert idx x. induction s1 as [|s s1 IH]; intros idx x; [by rewrite Nat.pow_0_r, Nat.div_1_r|].
  cbn [app fold_path path_pairs length]. by rewrite IH, Nat.pow_succ_r', Nat.Div0.div_div.
Qed.
Lemma fold_path_last idx siblings x : siblings ≠ [] →
  ∃ p, p ∈ path_pairs idx siblings x ∧ fold_path idx siblings x = node p.1 p.2.
Proof.
  revert idx x. induction siblings as [|s l IH]; intros idx x Hne; [done|]. cbn [fold_path path_pairs].
  destruct l as [|s' l]; [eexists; split; [left|done]|].
  destruct (IH (idx / 2) (let p := step_pair idx x s in node p.1 p.2)) as (p & Hp & Heq); [done|].
  exists p. split; [by right|done].
Qed.
Lemma tree_pairs_app d1 d2 l : tree_pairs (d1 + d2) l = tree_pairs d1 l ++ tree_pairs d2 (Nat.iter d1 level_up l).
Proof. revert l. induction d1 as [|d1 IH]; intros l; [done|]. rewrite iter_S. cbn. by rewrite IH, <- app_assoc. Qed.
Lemma level_node d l x : x ∈ Nat.iter (S d) level_up l → ∃ q, q ∈ tree_pairs (S d) l ∧ x = node q.1 q.2.
Proof.
  revert l. induction d as [|d IH]; intros l.
  - cbn. unfold level_up. rewrite pair_up_pairs, list_elem_of_fmap. intros (q & -> & Hq). exists q. set_solver.
  - rewrite iter_S. intros (q & Hq & ->)%IH. exists q. split; [|done]. cbn in *. set_solver.
Qed.

(** A path of any length: it ends at a leaf, or a node of the tree, or of the
    path, stands where a leaf of the other is. *)
Lemma fold_path_any d l idx siblings x apex :
  Nat.iter d level_up l = [apex] → fold_path idx siblings x = apex →
  x ∈ l ∨ pair_collision (path_pairs idx siblings x) (tree_pairs d l) ∨
  (∃ q, q ∈ tree_pairs d l ∧ x = node q.1 q.2) ∨ (∃ p, p ∈ path_pairs idx siblings x ∧ node p.1 p.2 ∈ l).
Proof.
  intros Hap Hf. destruct (Nat.lt_trichotomy (length siblings) d) as [Hlt|[Heq|Hgt]].
  - replace d with ((d - length siblings) + length siblings) in Hap by lia.
    rewrite Nat.add_comm, Nat.iter_add in Hap.
    destruct (fold_path_member (length siblings) _ idx siblings x apex eq_refl Hap Hf) as [Hx|Hc].
    + right; right; left. destruct (d - length siblings) as [|k] eqn:Hk; [lia|].
      apply level_node in Hx as (q & Hq & ->). exists q. split; [|done].
      replace d with (S k + length siblings) by lia. rewrite tree_pairs_app. set_solver.
    + right; left. eapply pair_collision_mono, Hc; [done|].
      replace d with ((d - length siblings) + length siblings) at 2 by lia. rewrite tree_pairs_app. set_solver.
  - destruct (fold_path_member d l idx siblings x apex Heq Hap Hf) as [|]; auto.
  - set (k := length siblings - d). rewrite <- (take_drop k siblings) in Hf |- *.
    rewrite fold_path_app in Hf. rewrite path_pairs_app.
    assert (length (drop k siblings) = d) as Hlen by (rewrite length_drop; unfold k; lia).
    destruct (fold_path_member d l _ (drop k siblings) _ apex Hlen Hap Hf) as [Hx|Hc].
    + do 3 right. destruct (fold_path_last idx (take k siblings) x) as (p & Hp & Heq).
      { intros E. apply (f_equal length) in E. rewrite length_take in E. cbn in E. unfold k in E. lia. }
      exists p. rewrite <- Heq. set_solver.
    + right; left. eapply pair_collision_mono, Hc; set_solver.
Qed.

(** The levels end in one digest. *)
Lemma iter_level_up_uniform d l : length l = 2 ^ d → ∃ apex, Nat.iter d level_up l = [apex].
Proof.
  revert l. induction d as [|d IH]; intros l Hl.
  - destruct l as [|a [|]]; try done. by exists a.
  - rewrite iter_S. apply IH. by apply length_uniform.
Qed.
Lemma iter_pair_up_uniform d l : length l = 2 ^ d → Nat.iter d pair_up l = Nat.iter d level_up l.
Proof.
  revert l. induction d as [|d IH]; intros l Hl; [done|]. rewrite !iter_S.
  destruct (length_uniform _ _ Hl) as [He Hl']. rewrite <- IH by done. unfold level_up. by rewrite He.
Qed.

(** What holds of the leaves, of the siblings and of every node holds of the
    digests that are hashed. *)
Lemma path_pairs_all (P : A → Prop) idx siblings x : (∀ a b, P (node a b)) → P x → Forall P siblings →
  Forall (λ p, P p.1 ∧ P p.2) (path_pairs idx siblings x).
Proof.
  intros Hn Hx Hs. revert idx x Hx. induction Hs as [|s siblings Hs Hr IH]; intros idx x Hx; cbn; constructor; [|by apply IH].
  unfold step_pair. by destruct (Nat.odd idx).
Qed.
Lemma tree_pairs_all (P : A → Prop) d l : (∀ a b, P (node a b)) → Forall P l →
  Forall (λ p, P p.1 ∧ P p.2) (tree_pairs d l).
Proof.
  intros Hn. revert l. induction d as [|d IH]; intros l Hl; cbn; [constructor|]. apply Forall_app. split.
  - apply Forall_forall. intros [a b] Hp. apply pairs_elem in Hp as [Ha Hb]. rewrite Forall_forall in Hl.
    cbn. split; apply Hl; by apply elem_of_even_pad.
  - apply IH. unfold level_up. rewrite pair_up_pairs. apply Forall_fmap, Forall_true. intros ?. apply Hn.
Qed.
Lemma fold_path_all (P : A → Prop) idx siblings x : (∀ a b, P (node a b)) → P x → P (fold_path idx siblings x).
Proof. intros Hn. revert idx x. induction siblings as [|s l IH]; intros idx x Hx; cbn; [done|]. by apply IH. Qed.
Lemma iter_level_up_all (P : A → Prop) d l : (∀ a b, P (node a b)) → Forall P l → Forall P (Nat.iter d level_up l).
Proof.
  intros Hn. revert l. induction d as [|d IH]; intros l Hl; [done|]. rewrite iter_S. apply IH.
  unfold level_up. rewrite pair_up_pairs. apply Forall_fmap, Forall_true. intros ?. apply Hn.
Qed.
End merkle.
