(* ===== verification/TxMerkle.v ===== *)
(** * Merkle roots of blocks

    Models [src/consensus/core/src/merkle.rs]: the array in which
    [merkle_root_with] lays out the leaves and then every level above them, and
    the roots built with it. The theorems show that the array always ends in
    the apex of the tree that pairs level by level, a missing right sibling
    being the zero hash, and that such a root determines the transactions of a
    block of known length unless two different inputs that were hashed
    collide. *)

From stdpp Require Import base list sets strings sorting.
From Stdlib Require Import ZArith Lia ZifyNat.
From S2P Require Import Prelude Tx Bytes Hashing Merkle.

Local Open Scope Z_scope.

Definition zero_hash64 : Hash64 := 0.
Definition MerkleBranchHash64 : Hasher := mkHasher (b_ "MerkleBranchHash64") 64 [].
Definition AcceptedIdMerkleBranchHash64 : Hasher := mkHasher (b_ "AcceptedIdMerkleBranchHash64") 64 [].

(** ** The array *)

Fixpoint next_power_of_two_from (fuel : nat) (p n : nat) : nat :=
  match fuel with O => p | S fuel => if (n <=? p)%nat then p else next_power_of_two_from fuel (2 * p) n end.
Definition next_power_of_two (n : nat) : nat := next_power_of_two_from n 1 n.

Section root.
Context {E : Type} (branch : Hash64 → Hash64 → Hash64).

(** One round of the loop: the array, and the offset that is written. *)
Definition merkle_step (st : list (option Hash64) * nat) (i : nat) : outcome E (list (option Hash64) * nat) :=
  let '(merkles, offset) := st in
  entry ← unwrap (merkles !! i);
  entry ←
    match entry with
    | None => Ok None
    | Some l => r ← unwrap (merkles !! S i); Ok (Some (branch l (default zero_hash64 r)))
    end;
  if (offset <? length merkles)%nat then Ok (<[offset := entry]> merkles, S offset) else Panic.
(** [(0..n).step_by(2)] for an even [n]. *)
Definition step_by_2 (n : nat) : list nat := (λ i, 2 * i)%nat <$> seq 0 (n / 2)%nat.
Definition merkle_root_with (leaves : list Hash64) : outcome E Hash64 :=
  match leaves with
  | [] => Ok zero_hash64
  | _ =>
    let next_pot := next_power_of_two (length leaves) in
    let vec_len := (2 * next_pot - 1)%nat in
    let merkles := (Some <$> leaves) ++ replicate (vec_len - length leaves) None in
    st ← for_each merkle_step (step_by_2 (vec_len - 1)) (merkles, next_pot);
    last ← unwrap (last st.1);
    unwrap last
  end.
End root.

Definition branch_with `{Crypto} (h : Hasher) (l r : Hash64) : Hash64 :=
  hash64_from_bytes (finalize (update (update h (hash64_bytes l)) (hash64_bytes r))).
Definition calc_hash_merkle_root `{Crypto} {E} (txs : list Transaction) : outcome E Hash64 :=
  merkle_root_with (branch_with MerkleBranchHash64) (tx_hash <$> txs).
Definition calc_hash_merkle_root_pre_crescendo `{Crypto} {E} (txs : list Transaction) : outcome E Hash64 :=
  merkle_root_with (branch_with MerkleBranchHash64) (hash_pre_crescendo <$> txs).
(** Ids are ordered by their bytes, the first one most significant. *)
Definition byte_order (h : Hash64) : Z := le_val (reverse (hash64_bytes h)).
Definition byte_le (a b : Hash64) : Prop := byte_order a ≤ byte_order b.
#[export] Instance byte_le_dec a b : Decision (byte_le a b).
Proof. apply Z_le_dec. Defined.
Definition calc_accepted_id_merkle_root_pre_crescendo `{Crypto} {E} (accepted_tx_ids : list TransactionId) : outcome E Hash64 :=
  merkle_root_with (branch_with AcceptedIdMerkleBranchHash64) (merge_sort byte_le accepted_tx_ids).

(** ** The reference tree *)

Section reference.
Context (branch : Hash64 → Hash64 → Hash64).

Fixpoint pair_level (level : list Hash64) : list Hash64 :=
  match level with
  | a :: b :: level => branch a b :: pair_level level
  | [a] => [branch a zero_hash64]
  | [] => []
  end.
Fixpoint level_inputs (level : list Hash64) : list (Hash64 * Hash64) :=
  match level with
  | a :: b :: level => (a, b) :: level_inputs level
  | [a] => [(a, zero_hash64)]
  | [] => []
  end.
Fixpoint apex (d : nat) (level : list Hash64) : option Hash64 :=
  match d with O => head level | S d => apex d (pair_level level) end.
(** The pairs hashed in [d] levels. *)
Fixpoint tree_inputs (d : nat) (level : list Hash64) : list (Hash64 * Hash64) :=
  match d with O => [] | S d => level_inputs level ++ tree_inputs d (pair_level level) end.

Lemma length_pair_level l : length (pair_level l) = ((length l + 1) / 2)%nat.
Proof.
  induction l as [|a|a b l IH] using list_pair_ind; [done..|]. cbn [pair_level length]. rewrite IH.
  replace (S (S (length l)) + 1)%nat with (length l + 1 + 1 * 2)%nat by lia. rewrite Nat.div_add by lia. lia.
Qed.

(** *** The array refines it *)

(** The loop seen as a queue: two entries are read, their parent is appended. *)
Definition parent (o1 o2 : option Hash64) : option Hash64 :=
  match o1 with None => None | Some a => Some (branch a (default zero_hash64 o2)) end.
Fixpoint parents (q : list (option Hash64)) : list (option Hash64) :=
  match q with a :: b :: q => parent a b :: parents q | _ => [] end.

Lemma parents_level l k : Nat.Even (length l + k) →
  ∃ k', parents ((Some <$> l) ++ replicate k None) = (Some <$> pair_level l) ++ replicate k' None ∧
    (2 * (length (pair_level l) + k') = length l + k)%nat.
Proof.
  revert k. induction l as [|a|a b l IH] using list_pair_ind; intros k.
  - cbn. intros [m ->]. exists m. split; [|lia]. induction m as [|m IH]; [done|].
    replace (2 * S m)%nat with (S (S (2 * m))) by lia. cbn [replicate parents parent]. by rewrite IH.
  - destruct k as [|k]; [intros [m Hm]; cbn in Hm; lia|]. intros [m Hm]. cbn in Hm. exists (k / 2)%nat.
    assert (k = 2 * (m - 1))%nat as -> by lia. rewrite Nat.mul_comm, Nat.div_mul by lia. split; [|cbn; lia].
    cbn. f_equal. generalize (m - 1)%nat as j. clear. induction j as [|j IH]; [done|]. cbn. by rewrite IH.
  - intros [m Hm]. cbn [length] in Hm. destruct (IH k) as (k' & He & Hk); [exists (m - 1)%nat; lia|]. exists k'.
    cbn [fmap list_fmap app parents pair_level parent default length]. split; [by rewrite <- He | cbn [length]; lia].
Qed.

Lemma merkle_step_queue {E} (read : list (option Hash64)) a b q k :
  @merkle_step E branch (read ++ a :: b :: q ++ replicate (S k) None, length read + S (S (length q)))%nat (length read) =
  Ok ((read ++ [a; b]) ++ q ++ parent a b :: replicate k None, S (length read + S (S (length q))))%nat.
Proof.
  unfold merkle_step. rewrite (list_lookup_middle read (b :: q ++ replicate (S k) None) a (length read)) by done. cbn [unwrap mbind outcome_bind].
  replace ((read ++ a :: b :: q ++ replicate (S k) None) !! S (length read)) with (Some b)
    by (rewrite lookup_app_r by lia; by replace (S (length read) - length read)%nat with 1%nat by lia).
  cbn [unwrap mbind outcome_bind].
  replace (match a with None => Ok None | Some l => Ok (Some (branch l (default zero_hash64 b))) end) with (@Ok E _ (parent a b)) by (by destruct a).
  cbn [mbind outcome_bind]. rewrite (proj2 (Nat.ltb_lt _ _)) by (rewrite length_app; cbn [length]; rewrite length_app, length_replicate; lia).
  f_equal. f_equal. replace (read ++ a :: b :: q ++ replicate (S k) None) with ((read ++ [a; b] ++ q) ++ replicate (S k) None) by (by rewrite <- !(assoc_L (++))).
  rewrite insert_app_r_alt by (rewrite !length_app; cbn; lia). rewrite !length_app. cbn [length].
  replace (length read + S (S (length q)) - (length read + (2 + length q)))%nat with 0%nat by lia. by rewrite <- !(assoc_L (++)).
Qed.

(** [m] rounds consume the [2 m] entries of a level and append its parents. *)
Lemma merkle_rounds {E} m (level : list (option Hash64)) : length level = (2 * m)%nat → ∀ read q k,
  for_each (@merkle_step E branch) ((λ i, length read + 2 * i)%nat <$> seq 0 m)
    (read ++ level ++ q ++ replicate (m + k) None, length read + 2 * m + length q)%nat =
  Ok ((read ++ level) ++ (q ++ parents level) ++ replicate k None, length read + 3 * m + length q)%nat.
Proof.
  revert level. induction m as [|m IH]; intros level Hl read q k.
  { destruct level; [|done]. cbn [parents app]. rewrite !app_nil_r, Nat.mul_0_r. by cbn. }
  destruct level as [|a [|b level]]; [cbn in Hl; lia..|]. cbn [seq fmap list_fmap for_each].
  replace (length read + 2 * 0)%nat with (length read) by lia. cbn [app].
  replace (length read + 2 * S m + length q)%nat with (length read + S (S (length (level ++ q))))%nat by (rewrite length_app; cbn in Hl; lia).
  change (S m + k)%nat with (S (m + k)). rewrite (assoc_L (++) level q), (merkle_step_queue read a b (level ++ q)). cbn [mbind outcome_bind].
  assert (length level = 2 * m)%nat as Hm by (cbn in Hl; lia). specialize (IH level Hm (read ++ [a; b]) (q ++ [parent a b]) k).
  rewrite <- fmap_S_seq, <- list_fmap_compose.
  replace (((λ i, length read + 2 * i) ∘ S)%nat <$> seq 0 m) with ((λ i, length (read ++ [a; b]) + 2 * i)%nat <$> seq 0 m)
    by (apply list_fmap_ext; intros; cbn; rewrite length_app; cbn; lia).
  replace ((level ++ q) ++ parent a b :: replicate (m + k) None) with (level ++ (q ++ [parent a b]) ++ replicate (m + k) None)
    by (by rewrite <- !(assoc_L (++))).
  replace (S (length read + S (S (length (level ++ q)))))%nat with (length (read ++ [a; b]) + 2 * m + length (q ++ [parent a b]))%nat
    by (rewrite !length_app; cbn; lia).
  rewrite IH. f_equal. f_equal; [cbn [parents]; by rewrite <- !(assoc_L (++)) | rewrite !length_app; cbn; lia].
Qed.

(** All rounds over a tree of [2 ^ d] leaf positions. *)
Lemma merkle_levels {E} d l k read : (length l + k = 2 ^ d)%nat → l ≠ [] → ∃ merkles off,
  for_each (@merkle_step E branch) ((λ i, length read + 2 * i)%nat <$> seq 0 (2 ^ d - 1))
    (read ++ ((Some <$> l) ++ replicate k None) ++ replicate (2 ^ d - 1) None, length read + 2 ^ d)%nat = Ok (merkles, off) ∧
  ∃ x, apex d l = Some x ∧ last merkles = Some (Some x).
Proof.
  revert l k read. induction d as [|d IH]; intros l k read Hlen Hl.
  { destruct l as [|x l]; [done|]. cbn in Hlen. assert (l = [] ∧ k = 0)%nat as [-> ->] by (split; [destruct l; [done|cbn in Hlen; lia]|lia]).
    cbn. eexists _, _. split; [done|]. exists x. split; [done|]. rewrite last_app. done. }
  destruct (parents_level l k) as (k' & Hp & Hk); [exists (2 ^ d)%nat; cbn in Hlen; lia|].
  set (level := (Some <$> l) ++ replicate k None) in *.
  assert (length level = 2 * 2 ^ d)%nat as Hlv by (unfold level; rewrite length_app, length_fmap, length_replicate; cbn in Hlen; lia).
  assert (0 < 2 ^ d)%nat by (apply Nat.neq_0_lt_0, Nat.pow_nonzero; lia).
  replace (2 ^ S d - 1)%nat with (2 ^ d + (2 ^ d - 1))%nat by (cbn; lia).
  rewrite seq_app, fmap_app, for_each_app.
  pose proof (merkle_rounds (E := E) (2 ^ d) level Hlv read [] (2 ^ d - 1)) as Hr. cbn [app length] in Hr. rewrite Nat.add_0_r in Hr.
  change (2 ^ S d)%nat with (2 * 2 ^ d)%nat. rewrite Hr. cbn [mbind outcome_bind]. rewrite Hp.
  destruct (IH (pair_level l) k' (read ++ level)) as (merkles & off & Hf & x & Hx & Hlast).
  { cbn in Hlen; lia. } { intros Hn. destruct l as [|? [|? ?]]; done. }
  exists merkles, off. split; [|by exists x]. rewrite <- Hf. f_equal.
  - rewrite Nat.add_0_l, <- (Nat.add_0_r (2 ^ d)) at 1. rewrite <- fmap_add_seq, <- list_fmap_compose.
    apply list_fmap_ext. intros; cbn. rewrite length_app. lia.
  - f_equal. rewrite length_app. lia.
Qed.
End reference.

Lemma next_power_of_two_from_eq fuel e n : (0 < n → e ≤ Nat.log2_up n ≤ e + fuel → next_power_of_two_from fuel (2 ^ e) n = 2 ^ Nat.log2_up n)%nat.
Proof.
  intros Hn. revert e. induction fuel as [|fuel IH]; intros e He; cbn [next_power_of_two_from].
  { f_equal. lia. }
  destruct (Nat.leb_spec n (2 ^ e)) as [Hle|Hgt].
  - apply Nat.log2_up_le_pow2 in Hle; [|done]. f_equal. lia.
  - rewrite <- Nat.pow_succ_r'. apply IH. split; [|lia]. destruct (decide (Nat.log2_up n ≤ e)%nat) as [Hl|]; [|lia].
    apply Nat.log2_up_le_pow2 in Hl; lia.
Qed.
Lemma next_power_of_two_eq n : (0 < n → next_power_of_two n = 2 ^ Nat.log2_up n)%nat.
Proof.
  intros Hn. apply (next_power_of_two_from_eq n 0 n Hn). split; [lia|].
  apply Nat.log2_up_le_pow2; [done|]. rewrite Nat.add_0_l. apply Nat.lt_le_incl, Nat.pow_gt_lin_r. lia.
Qed.

Lemma merkle_root_with_apex {E} branch leaves : leaves ≠ [] → ∃ root,
  @merkle_root_with E branch leaves = Ok root ∧ apex branch (Nat.log2_up (length leaves)) leaves = Some root.
Proof.
  intros Hl. set (d := Nat.log2_up (length leaves)). assert (0 < length leaves)%nat as Hpos by (destruct leaves; [done|cbn; lia]).
  assert (length leaves ≤ 2 ^ d)%nat as Hd by (by apply Nat.log2_up_le_pow2).
  destruct (merkle_levels branch (E := E) d leaves (2 ^ d - length leaves) []) as (merkles & off & Hf & x & Hx & Hlast); [lia|done|].
  exists x. split; [|done]. unfold merkle_root_with. rewrite next_power_of_two_eq by done. fold d. destruct leaves as [|a l] eqn:El; [done|]. rewrite <- El in *.
  replace (2 * 2 ^ d - 1 - length leaves)%nat with ((2 ^ d - length leaves) + (2 ^ d - 1))%nat by lia.
  rewrite replicate_add. unfold step_by_2. replace (2 * 2 ^ d - 1 - 1)%nat with ((2 ^ d - 1) * 2)%nat by lia. rewrite Nat.div_mul by lia.
  cbn [length app] in Hf. rewrite (assoc_L (++)). cbn [Nat.add] in Hf. rewrite Hf. cbn [mbind outcome_bind fst]. by rewrite Hlast.
Qed.

(** ** Binding *)

Lemma pair_level_inputs branch l : pair_level branch l = (λ p, branch p.1 p.2) <$> level_inputs l.
Proof. induction l as [|a|a b l IH] using list_pair_ind; [done..|]. cbn. by rewrite IH. Qed.
Lemma level_inputs_inj l1 l2 : length l1 = length l2 → level_inputs l1 = level_inputs l2 → l1 = l2.
Proof.
  revert l2. induction l1 as [|a|a b l IH] using list_pair_ind; intros [|x [|y l2]] Hlen; cbn in *; try done.
  - by intros [= ->].
  - intros [= -> -> Hi]. f_equal. f_equal. apply IH; [lia|done].
Qed.
(** Two lists with equal images agree or hold a pair that collides. *)
Lemma fmap_collision (node : Hash64 → Hash64 → Hash64) (l1 l2 : list (Hash64 * Hash64)) : (λ p, node p.1 p.2) <$> l1 = (λ p, node p.1 p.2) <$> l2 →
  l1 = l2 ∨ pair_collision node l1 l2.
Proof.
  revert l2. induction l1 as [|p l1 IH]; intros [|q l2] Heq; try done; [by left|]. injection Heq as Hpq Heq.
  destruct (decide (p = q)) as [->|]; [|right; exists p, q; repeat split; [left|left| |]; done].
  destruct (IH l2 Heq) as [->|Hc]; [by left|right]. eapply pair_collision_mono; [| |done]; intros ?; by right.
Qed.
Lemma apex_binds branch d l1 l2 : length l1 = length l2 → (length l1 ≤ 2 ^ d)%nat → l1 ≠ [] → apex branch d l1 = apex branch d l2 →
  l1 = l2 ∨ pair_collision branch (tree_inputs branch d l1) (tree_inputs branch d l2).
Proof.
  revert l1 l2. induction d as [|d IH]; intros l1 l2 Hlen Hd Hl Ha; cbn [apex tree_inputs] in *.
  { left. destruct l1 as [|x [|? ?]], l2 as [|y [|? ?]]; cbn in *; try done; try lia. by injection Ha as ->. }
  destruct (IH (pair_level branch l1) (pair_level branch l2)) as [Heq|Hc].
  - by rewrite !length_pair_level, Hlen.
  - rewrite length_pair_level. apply Nat.lt_succ_r, Nat.Div0.div_lt_upper_bound. cbn in Hd. lia.
  - by destruct l1 as [|? [|? ?]].
  - done.
  - rewrite !pair_level_inputs in Heq. apply fmap_collision in Heq as [Heq|Hc]; [left; by apply level_inputs_inj|right].
    eapply pair_collision_mono; [| |done]; set_solver.
  - right. eapply pair_collision_mono; [| |done]; set_solver.
Qed.

Section commit.
Context `{Crypto}.

(** What a branch writes into its hasher. *)
Definition branch_hasher (h : Hasher) (p : Hash64 * Hash64) : Hasher := update (update h (hash64_bytes p.1)) (hash64_bytes p.2).

Lemma hash64_finalize_range h : hasher_length h = 64%nat → is_uint 64 (hash64_from_bytes (finalize h)).
Proof.
  intros Hh. unfold is_uint, hash64_from_bytes, finalize.
  pose proof (le_val_bound (blake2b (hasher_length h) (hasher_key h) (written h)) (blake2b_bytes _ _ _)) as Hb.
  rewrite blake2b_length in Hb. replace (Z.of_nat 64) with (Z.of_nat (hasher_length h)) by (by rewrite Hh). exact Hb.
Qed.
Lemma branch_collides h p q : hasher_length h = 64%nat → written h = [] → is_uint 64 p.1 → is_uint 64 p.2 → is_uint 64 q.1 → is_uint 64 q.2 →
  p ≠ q → branch_with h p.1 p.2 = branch_with h q.1 q.2 → collides (branch_hasher h p) (branch_hasher h q).
Proof.
  intros Hh Hw Hp1 Hp2 Hq1 Hq2 Hne Heq. split; [done|]. split.
  - cbn. rewrite Hw. cbn [app]. intros Hb. apply Hne. destruct p as [a b], q as [c d]. cbn [fst snd] in *.
    unfold hash64_bytes in Hb. apply to_le_bytes_app_inj in Hb as [-> Hb]; [|done..].
    by rewrite <- (le_val_to_le_bytes 64 b), <- (le_val_to_le_bytes 64 d), Hb by done.
  - apply hash64_from_bytes_inj; [unfold finalize; by rewrite blake2b_length | unfold finalize; by rewrite blake2b_length | apply blake2b_bytes | apply blake2b_bytes | done].
Qed.
Lemma level_inputs_uint l : Forall (is_uint 64) l → Forall (λ p, is_uint 64 p.1 ∧ is_uint 64 p.2) (level_inputs l).
Proof.
  induction l as [|a|a b l IH] using list_pair_ind; [constructor| |]; rewrite ?Forall_cons.
  - intros [Ha _]. repeat constructor; cbn; try apply Ha; done.
  - intros (Ha & Hb & Hl). constructor; [done|]. by apply IH.
Qed.
Lemma tree_inputs_uint h d l : hasher_length h = 64%nat → Forall (is_uint 64) l →
  Forall (λ p, is_uint 64 p.1 ∧ is_uint 64 p.2) (tree_inputs (branch_with h) d l).
Proof.
  intros Hh. revert l. induction d as [|d IH]; intros l Hl; [constructor|]. cbn [tree_inputs]. apply Forall_app. split; [by apply level_inputs_uint|].
  apply IH. rewrite pair_level_inputs, Forall_fmap. apply Forall_forall. intros p _. by apply hash64_finalize_range.
Qed.

(** Transactions whose hashes agree have equal contents, or the strings hashed
    for two of them collide. *)
Lemma tx_hashes_commit txs1 txs2 : Forall tx_typed txs1 → Forall tx_typed txs2 → tx_hash <$> txs1 = tx_hash <$> txs2 →
  strip FULL <$> txs1 = strip FULL <$> txs2 ∨
  ∃ t1 t2, t1 ∈ txs1 ∧ t2 ∈ txs2 ∧ collides (write_transaction TransactionHash64 t1 FULL) (write_transaction TransactionHash64 t2 FULL).
Proof.
  intros H1. revert txs2. induction H1 as [|t1 l1 Ht1 H1 IH]; intros [|t2 l2] H2 Heq; try done; [by left|].
  apply Forall_cons in H2 as [Ht2 H2]. injection Heq as Ht Heq.
  destruct (proj2 (transaction_hash_commits t1 t2 Ht1 Ht2) Ht) as [Hs|Hc]; [|right; exists t1, t2; split_and!; [by left | by left | done]].
  destruct (IH l2 H2 Heq) as [Hl|(a & b & Ha & Hb & Hc)]; [left; cbn; by rewrite Hs, Hl|].
  right. exists a, b. split_and!; [by right | by right | done].
Qed.

(** The array of [merkle_root_with] holds a hash tree: for every list of
    leaves the routine returns, without an index out of range or a missing
    entry, the zero hash when there are none and otherwise the apex of the tree
    that hashes neighbours level by level until one digest is left, a missing
    right neighbour counting as the zero hash. *)
Theorem merkle_array_is_tree {E} h leaves : ∃ root, @merkle_root_with E (branch_with h) leaves = Ok root ∧
  match leaves with
  | [] => root = zero_hash64
  | _ => apex (branch_with h) (Nat.log2_up (length leaves)) leaves = Some root
  end.
Proof.
  destruct (decide (leaves = [])) as [->|Hl]; [by exists zero_hash64|].
  destruct (merkle_root_with_apex (E := E) (branch_with h) leaves Hl) as (root & Hr & Ha). exists root. split; [done|]. by destruct leaves.
Qed.

(** C20. The transaction root of a header commits to the body of the block: two
    lists of as many transactions with one root have equal transactions in
    every hashed field and in the same order, or two different strings that
    were hashed for them, for a transaction or for a branch of the tree, have
    one digest. *)
Theorem merkle_root_binds_transactions {E} txs1 txs2 : Forall tx_typed txs1 → Forall tx_typed txs2 → length txs1 = length txs2 →
  @calc_hash_merkle_root _ E txs1 = calc_hash_merkle_root txs2 →
  let d := Nat.log2_up (length txs1) in
  strip FULL <$> txs1 = strip FULL <$> txs2 ∨
  (∃ t1 t2, t1 ∈ txs1 ∧ t2 ∈ txs2 ∧ collides (write_transaction TransactionHash64 t1 FULL) (write_transaction TransactionHash64 t2 FULL)) ∨
  ∃ p q, p ∈ tree_inputs (branch_with MerkleBranchHash64) d (tx_hash <$> txs1) ∧ q ∈ tree_inputs (branch_with MerkleBranchHash64) d (tx_hash <$> txs2) ∧
    collides (branch_hasher MerkleBranchHash64 p) (branch_hasher MerkleBranchHash64 q).
Proof.
  intros H1 H2 Hlen Heq d. destruct (decide (txs1 = [])) as [->|Hne]; [destruct txs2; [by left|done]|].
  assert (∀ txs : list Transaction, Forall (is_uint 64) (tx_hash <$> txs)) as Hu.
  { intros txs. apply Forall_fmap, Forall_forall. intros t _. apply hash64_finalize_range. by pose proof (params_transaction TransactionHash64 t FULL) as [= _ ->]. }
  destruct (merkle_root_with_apex (E := E) (branch_with MerkleBranchHash64) (tx_hash <$> txs1)) as (r & Hr & Ha); [by destruct txs1|].
  destruct (merkle_root_with_apex (E := E) (branch_with MerkleBranchHash64) (tx_hash <$> txs2)) as (r2 & Hr2 & Ha2); [by destruct txs1, txs2|].
  unfold calc_hash_merkle_root in Heq. rewrite Hr, Hr2 in Heq. injection Heq as <-. rewrite length_fmap in Ha, Ha2. rewrite <- Hlen in Ha2. fold d in Ha, Ha2.
  destruct (apex_binds (branch_with MerkleBranchHash64) d (tx_hash <$> txs1) (tx_hash <$> txs2)) as [Hh|(p & q & Hp & Hq & Hpq & Hc)].
  - by rewrite !length_fmap.
  - rewrite length_fmap. apply Nat.log2_up_le_pow2; [destruct txs1; [done|cbn; lia]|done].
  - by destruct txs1.
  - by rewrite Ha, Ha2.
  - apply tx_hashes_commit in Hh as [?|?]; auto.
  - right. right. exists p, q. split_and!; [done..|].
    destruct (proj1 (Forall_forall _ _) (tree_inputs_uint MerkleBranchHash64 d _ eq_refl (Hu txs1)) p Hp).
    destruct (proj1 (Forall_forall _ _) (tree_inputs_uint MerkleBranchHash64 d _ eq_refl (Hu txs2)) q Hq).
    by apply branch_collides.
Qed.
End commit.
