(* ===== verification/Palw.v ===== *)
(** * PALW: hashed preimages and the ticket rule

    Models the first part of [src/consensus/core/src/palw.rs]: the domain
    separated digests of the audited-compute lane (every digest is a keyed
    BLAKE2b-512 over fixed-width or length-prefixed fields), the acceptance rule
    of a ticket header and the miner's selection of a ticket.

    The hash function is the parameter [blake2b]. A statement of the form "or
    two strings collide" names the strings: [keyed_collision key l1 l2] says that
    a string of [l1] and a different string of [l2] have one digest under
    [key]. *)

From stdpp Require Import base list gmap sorting strings.
From Stdlib Require Import ZArith Lia.
From S2P Require Import Prelude Tx Bytes Hashing Uint Target.

Local Open Scope Z_scope.

(** ** 128-bit integers *)

Definition U128_MAX : Z := 2 ^ 128 - 1.
Definition chk128 {E} (z : Z) : outcome E Z := if (0 <=? z) && (z <=? U128_MAX) then Ok z else Panic.
Definition sat_mul128 (a b : Z) : Z := Z.min (a * b) U128_MAX.
Definition sat_add128 (a b : Z) : Z := Z.min (a + b) U128_MAX.
(** [iter().sum::<u128>()]. *)
Fixpoint sum128 {E} (l : list Z) (acc : Z) : outcome E Z :=
  match l with
  | [] => Ok acc
  | a :: l => acc' ← chk128 (acc + a); sum128 l acc'
  end.

Lemma sum128_inv {E} l acc r : @sum128 E l acc = Ok r → r = acc + sumZ l.
Proof.
  revert acc. induction l as [|a l IH]; intros acc; cbn [sum128].
  { intros [= ->]. unfold sumZ. simpl. lia. }
  intros (x & Hx & Hr)%bind_Ok. unfold chk128 in Hx. destruct (_ && _); [|done]. injection Hx as <-.
  apply IH in Hr. rewrite sumZ_cons. lia.
Qed.
Lemma sum128_Ok {E} l acc : 0 ≤ acc → Forall (λ z, 0 ≤ z) l → acc + sumZ l ≤ U128_MAX → @sum128 E l acc = Ok (acc + sumZ l).
Proof.
  intros Hacc Hl. revert acc Hacc. induction Hl as [|a l Ha Hl IH]; intros acc Hacc Hb; cbn [sum128].
  { f_equal. unfold sumZ. simpl. lia. }
  rewrite sumZ_cons in Hb |- *. pose proof (sumZ_nonneg _ Hl).
  unfold chk128. replace ((0 <=? acc + a) && (acc + a <=? U128_MAX)) with true by lia. cbn.
  rewrite IH by lia. f_equal. lia.
Qed.

(** ** Preimages *)

Definition HASH64_SIZE : nat := 64.
Definition push_hash (h : Hash64) : list byte := hash64_bytes h.
Definition push_var (bytes : list byte) : list byte := to_le_bytes 8 (len bytes) ++ bytes.
Definition push_outpoint (o : TransactionOutpoint) : list byte := push_hash (transaction_id o) ++ to_le_bytes 4 (index o).
(** The first 8 bytes of a digest, little endian. *)
Definition digest_low_u64 (h : Hash64) : Z := le_val (take 8 (hash64_bytes h)).

(** The order of digests as byte strings is the order of the numbers they
    write with the first byte as the most significant one. *)
Definition hash64_order (h : Hash64) : Z := le_val (rev (hash64_bytes h)).

Section keyed.
Context `{Crypto}.

Definition blake2b_512_keyed (context data : list byte) : Hash64 := hash64_from_bytes (blake2b 64 context data).

Definition keyed_collision (context : list byte) (l1 l2 : list (list byte)) : Prop :=
  ∃ a b, a ∈ l1 ∧ b ∈ l2 ∧ a ≠ b ∧ blake2b_512_keyed context a = blake2b_512_keyed context b.

Lemma keyed_is_uint context data : is_uint 64 (blake2b_512_keyed context data).
Proof.
  unfold is_uint, blake2b_512_keyed, hash64_from_bytes.
  pose proof (le_val_bound (blake2b 64 context data) (blake2b_bytes _ _ _)) as Hb.
  by rewrite blake2b_length in Hb.
Qed.

Lemma keyed_eq context a b l1 l2 : a ∈ l1 → b ∈ l2 →
  blake2b_512_keyed context a = blake2b_512_keyed context b → a = b ∨ keyed_collision context l1 l2.
Proof. intros Ha Hb Heq. destruct (decide (a = b)); [by left|]. right. by exists a, b. Qed.
Lemma keyed_collision_mono context l1 l2 k1 k2 : l1 ⊆ k1 → l2 ⊆ k2 →
  keyed_collision context l1 l2 → keyed_collision context k1 k2.
Proof. intros H1 H2 (a & b & Ha & Hb & Hr). exists a, b. auto. Qed.
End keyed.
#[export] Hint Resolve keyed_is_uint : misaka.

(** Fixed-width fields one after the other. *)
Lemma push_hash_inj h1 h2 l1 l2 : is_uint 64 h1 → is_uint 64 h2 → push_hash h1 ++ l1 = push_hash h2 ++ l2 → h1 = h2 ∧ l1 = l2.
Proof. apply to_le_bytes_app_inj. Qed.

#[export] Instance hash_code : PrefixCode push_hash (is_uint 64).
Proof. intros ????. apply push_hash_inj. Qed.
#[export] Instance push_outpoint_code : PrefixCode push_outpoint outpoint_typed.
Proof.
  intros [t1 i1] [t2 i2] l1 l2 [H1 H1'] [H2 H2']. unfold push_outpoint. cbn. rewrite <- !app_assoc.
  intros [-> [-> ->]%prefix_code]%prefix_code; done.
Qed.

Lemma hash64_order_inj h1 h2 : is_uint 64 h1 → is_uint 64 h2 → hash64_order h1 = hash64_order h2 → h1 = h2.
Proof.
  intros H1 H2 Heq. unfold hash64_order in Heq.
  assert (rev (hash64_bytes h1) = rev (hash64_bytes h2)) as Hr.
  { rewrite <- (to_le_bytes_le_val (rev (hash64_bytes h1))), <- (to_le_bytes_le_val (rev (hash64_bytes h2)))
      by (apply Forall_rev, to_le_bytes_byte).
    unfold hash64_bytes in *. by rewrite Heq, !length_rev, !length_to_le_bytes. }
  apply (f_equal (@rev _)) in Hr. rewrite !rev_involutive in Hr. unfold hash64_bytes in Hr.
  rewrite <- (le_val_to_le_bytes 64 h1), <- (le_val_to_le_bytes 64 h2) by done. by rewrite Hr.
Qed.

(** ** Proof types *)

Inductive PalwProofType : Type := ReplicaExactV1 | TransparentArgumentV1.
Definition proof_type_as_u8 (t : PalwProofType) : Z := match t with ReplicaExactV1 => 1 | TransparentArgumentV1 => 3 end.
Definition proof_type_from_u8 (v : Z) : option PalwProofType :=
  if v =? 1 then Some ReplicaExactV1 else if v =? 3 then Some TransparentArgumentV1 else None.

Definition palw_challenge_fresh (challenge_epoch registration_epoch w : Z) : bool :=
  (challenge_epoch <=? registration_epoch) && (registration_epoch - challenge_epoch <=? w).

(** ** The ticket rule *)

Definition PALW_CHAIN_COMMIT_DOMAIN : list byte := b_ "misaka-palw-chain-commit-v1".
Definition PALW_ELIGIBILITY_DOMAIN : list byte := b_ "misaka-palw-eligibility-v1".
Definition PALW_TICKET_NULLIFIER_COMMIT_DOMAIN : list byte := b_ "misaka-palw-ticket-nf-commit-v1".

Record PalwTicketBinding := mkTicketBinding {
  tb_ticket_nullifier_commitment : Hash64;
  tb_proof_type : Z;
  tb_leaf_activation_epoch : Z;
  tb_leaf_expiry_epoch : Z;
  tb_target_daa_interval : Z;
}.
Inductive PalwTicketReject : Type :=
| NullifierMismatch | ProofTypeMismatch | LeafNotActive | CertNotActive | IntervalMismatch
| ChainCommitMismatch | LaneBitsMismatch | ComputeCapExhausted | EligibilityMiss.

Record PalwTemplateCandidate := mkTemplateCandidate {
  tc_eligibility_digest : Hash64;
  tc_nonce : Z;
  tc_ticket_nullifier : Hash64;
}.

Section ticket.
Context `{Crypto}.

Definition chain_commit (dns_finalized_checkpoint dns_finality_certificate : Hash64) (target_interval network_id : Z) : Hash64 :=
  blake2b_512_keyed PALW_CHAIN_COMMIT_DOMAIN
    (push_hash dns_finalized_checkpoint ++ push_hash dns_finality_certificate ++
     to_le_bytes 8 target_interval ++ to_le_bytes 4 network_id).

Definition eligibility_preimage (network_id : Z) (eligibility_beacon chain_commit : Hash64) (target_interval : Z)
    (batch_id : Hash64) (leaf_index : Z) (leaf_hash ticket_nullifier : Hash64) : list byte :=
  to_le_bytes 4 network_id ++ push_hash eligibility_beacon ++ push_hash chain_commit ++ to_le_bytes 8 target_interval ++
  push_hash batch_id ++ to_le_bytes 4 leaf_index ++ push_hash leaf_hash ++ push_hash ticket_nullifier.
Definition eligibility_hash (network_id : Z) (eligibility_beacon chain_commit : Hash64) (target_interval : Z)
    (batch_id : Hash64) (leaf_index : Z) (leaf_hash ticket_nullifier : Hash64) : Hash64 :=
  blake2b_512_keyed PALW_ELIGIBILITY_DOMAIN
    (eligibility_preimage network_id eligibility_beacon chain_commit target_interval batch_id leaf_index leaf_hash ticket_nullifier).

Definition ticket_nullifier_commitment (ticket_nullifier : Hash64) : Hash64 :=
  blake2b_512_keyed PALW_TICKET_NULLIFIER_COMMIT_DOMAIN (hash64_bytes ticket_nullifier).

Definition palw_eligibility_win (eligibility_digest : Hash64) (bits nonce : Z) (ticket_nullifier : Hash64) : bool :=
  let e := Uint.from_le_bytes 8 (hash64_bytes eligibility_digest) in
  let target := from_compact_target_bits_512 bits in
  Uint.ge target e && (nonce =? digest_low_u64 ticket_nullifier).

Definition verify_palw_ticket_store_facts (h_nullifier : Hash64) (h_proof_type h_daa_score : Z) (binding : PalwTicketBinding)
    (cert_active : bool) (epoch : Z) : outcome PalwTicketReject unit :=
  if negb (ticket_nullifier_commitment h_nullifier =? tb_ticket_nullifier_commitment binding) then Err NullifierMismatch
  else if negb (h_proof_type =? tb_proof_type binding) then Err ProofTypeMismatch
  else if negb ((tb_leaf_activation_epoch binding <=? epoch) && (epoch <? tb_leaf_expiry_epoch binding)) then Err LeafNotActive
  else if negb cert_active then Err CertNotActive
  else if negb (h_daa_score =? tb_target_daa_interval binding) then Err IntervalMismatch
  else Ok tt.

Definition verify_palw_ticket (h_nullifier : Hash64) (h_proof_type : Z) (h_chain_commit : Hash64) (h_bits h_nonce h_daa_score : Z)
    (eligibility_digest : Hash64) (binding : PalwTicketBinding) (cert_active : bool) (epoch : Z)
    (expected_chain_commit : Hash64) (expected_bits : Z) (compute_headroom_positive : bool) : outcome PalwTicketReject unit :=
  _ ← verify_palw_ticket_store_facts h_nullifier h_proof_type h_daa_score binding cert_active epoch;
  if negb (h_chain_commit =? expected_chain_commit) then Err ChainCommitMismatch
  else if negb (h_bits =? expected_bits) then Err LaneBitsMismatch
  else if negb compute_headroom_positive then Err ComputeCapExhausted
  else if negb (palw_eligibility_win eligibility_digest h_bits h_nonce h_nullifier) then Err EligibilityMiss
  else Ok tt.

(** [iter().position(..)]. *)
Fixpoint position {A} (P : A → bool) (l : list A) : option nat :=
  match l with [] => None | x :: l => if P x then Some 0%nat else S <$> position P l end.
Definition palw_select_template_ticket (candidates : list PalwTemplateCandidate) (bits : Z) : option nat :=
  position (λ c, palw_eligibility_win (tc_eligibility_digest c) bits (tc_nonce c) (tc_ticket_nullifier c)) candidates.
Definition palw_template_candidate (network_id : Z) (eligibility_beacon chain_commit : Hash64) (target_interval : Z)
    (batch_id : Hash64) (leaf_index : Z) (leaf_hash ticket_nullifier : Hash64) : PalwTemplateCandidate :=
  mkTemplateCandidate
    (eligibility_hash network_id eligibility_beacon chain_commit target_interval batch_id leaf_index leaf_hash ticket_nullifier)
    (digest_low_u64 ticket_nullifier) ticket_nullifier.
End ticket.

Lemma position_Some {A} (P : A → bool) l i : position P l = Some i ↔
  (∃ x, l !! i = Some x ∧ P x = true) ∧ ∀ j y, (j < i)%nat → l !! j = Some y → P y = false.
Proof.
  revert i. induction l as [|x l IH]; intros i; cbn [position].
  { split; [done|]. intros [(y & Hy & _) _]. done. }
  destruct (P x) eqn:Px.
  - split.
    + intros [= <-]. split; [by exists x|lia].
    + intros [(y & Hy & HP) Hj]. destruct i; [done|]. by rewrite (Hj 0%nat x) in Px by (lia || done).
  - destruct (position P l) as [k|] eqn:Hk; cbn.
    + split.
      * intros [= <-]. destruct (proj1 (IH k) eq_refl) as [(y & Hy & HP) Hj]. split; [by exists y|]. intros [|j] z Hlt Hz; [by injection Hz as <-|].
        apply (Hj j); [lia|done].
      * intros [(y & Hy & HP) Hj]. destruct i as [|i]; [by injection Hy as <-; rewrite HP in Px|]. do 2 f_equal.
        assert (Some k = Some i) as [= ->]; [|done]. apply IH. split; [by exists y|].
        intros j z Hlt Hz. apply (Hj (S j)); [lia|done].
    + split; [done|]. intros [(y & Hy & HP) Hj]. destruct i as [|i]; [by injection Hy as <-; rewrite HP in Px|].
      assert (@None nat = Some i) as [=]. apply IH. split; [by exists y|].
      intros j z Hlt Hz. apply (Hj (S j)); [lia|done].
Qed.
Lemma position_None {A} (P : A → bool) l : position P l = None ↔ Forall (λ x, P x = false) l.
Proof.
  induction l as [|x l IH]; cbn [position]; [done|]. rewrite Forall_cons. destruct (P x); [naive_solver|].
  rewrite <- IH. destruct (position P l); naive_solver.
Qed.

(** An instance whose digests read the whole input, for running the
    definitions. *)
Definition sum_digest (n : nat) (d : list byte) : list byte :=
  to_le_bytes n (foldl Z.add 1 d).
Lemma sum_digest_length n d : length (sum_digest n d) = n.
Proof. apply length_to_le_bytes. Qed.
Lemma sum_digest_bytes n d : Forall is_byte (sum_digest n d).
Proof. apply to_le_bytes_byte. Qed.
Definition sum_crypto : Crypto := {|
  blake2b n _ d := sum_digest n d;
  sha256 d := sum_digest 32 d;
  mldsa87_verify key _ _ signature := bool_decide (head key = head signature);
  blake2b_length n _ d := sum_digest_length n d;
  blake2b_bytes n _ d := sum_digest_bytes n d;
  sha256_bytes d := sum_digest_bytes 32 d;
|}.
