(* ===== verification/PalwLeafTree.v ===== *)
(** * PALW: the leaf tree of a batch

    Models the uniform-depth Merkle tree of [src/consensus/core/src/palw.rs]:
    the root over the ordered leaf hashes of a batch, the membership proof of a
    leaf and its verification. *)

From stdpp Require Import base list gmap sets strings.
From Stdlib Require Import ZArith Lia.
From S2P Require Import Prelude Tx Bytes Hashing Uint Merkle Palw.

Local Open Scope Z_scope.

Definition PALW_LEAF_ROOT_DOMAIN : list byte := b_ "misaka-palw-leaf-root-v1".
Definition PALW_LEAF_MERKLE_LEAF_DOMAIN : list byte := b_ "misaka-palw-leaf-merkle-leaf-v1".
Definition PALW_LEAF_MERKLE_NODE_DOMAIN : list byte := b_ "misaka-palw-leaf-merkle-node-v1".
Definition PALW_LEAF_MERKLE_EMPTY_DOMAIN : list byte := b_ "misaka-palw-leaf-merkle-empty-v1".

Record PalwLeafMembershipProofV1 := mkLeafProof { siblings : list Hash64 }.

(** The least depth whose tree holds the leaves. *)
Definition palw_leaf_merkle_depth (leaf_count : Z) : Z :=
  let n := Z.max leaf_count 1 in if n <=? 1 then 0 else 64 - leading_zeros64 (n - 1).

(** [Vec::resize]. *)
Definition resize {A} (n : nat) (x : A) (l : list A) : list A := take n l ++ replicate (n - length l) x.

(** [usize as u32]. *)
Definition as_u32 (n : nat) : Z := Z.of_nat n mod 2 ^ 32.

Section tree.
Context `{Crypto}.

Definition palw_leaf_merkle_empty : Hash64 := blake2b_512_keyed PALW_LEAF_MERKLE_EMPTY_DOMAIN [].
Definition leaf_string (leaf_index : Z) (leaf_hash : Hash64) : list byte := to_le_bytes 4 leaf_index ++ push_hash leaf_hash.
Definition palw_leaf_merkle_leaf_node (leaf_index : Z) (leaf_hash : Hash64) : Hash64 :=
  blake2b_512_keyed PALW_LEAF_MERKLE_LEAF_DOMAIN (leaf_string leaf_index leaf_hash).
Definition node_string (p : Hash64 * Hash64) : list byte := push_hash p.1 ++ push_hash p.2.
Definition palw_leaf_merkle_internal_node (left right : Hash64) : Hash64 :=
  blake2b_512_keyed PALW_LEAF_MERKLE_NODE_DOMAIN (node_string (left, right)).
Definition root_string (leaf_count : Z) (apex : Hash64) : list byte := to_le_bytes 8 leaf_count ++ push_hash apex.
Definition palw_leaf_merkle_finalize (leaf_count : Z) (apex : Hash64) : Hash64 :=
  blake2b_512_keyed PALW_LEAF_ROOT_DOMAIN (root_string leaf_count apex).

(** The bottom level: the leaf nodes, filled up to a power of two. *)
Definition bottom_level (ordered_leaf_hashes : list Hash64) : list Hash64 :=
  let n := as_u32 (length ordered_leaf_hashes) in
  let width := (2 ^ Z.to_nat (palw_leaf_merkle_depth n))%nat in
  resize width palw_leaf_merkle_empty (imap (λ i h, palw_leaf_merkle_leaf_node (as_u32 i) h) ordered_leaf_hashes).

Definition palw_leaf_merkle_root {E} (ordered_leaf_hashes : list Hash64) : outcome E Hash64 :=
  let n := as_u32 (length ordered_leaf_hashes) in
  let d := Z.to_nat (palw_leaf_merkle_depth n) in
  let level := Nat.iter d (pair_up palw_leaf_merkle_internal_node) (bottom_level ordered_leaf_hashes) in
  apex ← unwrap (head level);
  Ok (palw_leaf_merkle_finalize n apex).

Fixpoint proof_siblings (d : nat) (level : list Hash64) (idx : nat) : option (list Hash64) :=
  match d with
  | O => Some []
  | S d =>
    s ← level !! Nat.lxor idx 1;
    rest ← proof_siblings d (pair_up palw_leaf_merkle_internal_node level) (idx / 2)%nat;
    Some (s :: rest)
  end.
Definition palw_leaf_merkle_proof {E} (ordered_leaf_hashes : list Hash64) (leaf_index : Z) :
    outcome E (option PalwLeafMembershipProofV1) :=
  let n := as_u32 (length ordered_leaf_hashes) in
  if n <=? leaf_index then Ok None
  else
    s ← unwrap (proof_siblings (Z.to_nat (palw_leaf_merkle_depth n)) (bottom_level ordered_leaf_hashes) (Z.to_nat leaf_index));
    Ok (Some (mkLeafProof s)).

Fixpoint verify_fold (level : nat) (leaf_index : Z) (node : Hash64) (l : list Hash64) : Hash64 :=
  match l with
  | [] => node
  | sibling :: l =>
    verify_fold (S level) leaf_index
      (if Z.land (Z.shiftr leaf_index (Z.of_nat level)) 1 =? 0
       then palw_leaf_merkle_internal_node node sibling else palw_leaf_merkle_internal_node sibling node) l
  end.
Definition palw_verify_leaf_membership (leaf_hash : Hash64) (leaf_index leaf_count : Z) (proof : PalwLeafMembershipProofV1)
    (expected_root : Hash64) : bool :=
  if leaf_count <=? leaf_index then false
  else if negb (as_u32 (length (siblings proof)) =? palw_leaf_merkle_depth leaf_count) then false
  else
    palw_leaf_merkle_finalize leaf_count
      (verify_fold 0 leaf_index (palw_leaf_merkle_leaf_node leaf_index leaf_hash) (siblings proof)) =? expected_root.
End tree.

(** ** Shape of the tree *)

Lemma depth_spec n : 0 ≤ n < 2 ^ 32 → 0 ≤ palw_leaf_merkle_depth n ≤ 32 ∧ n ≤ 2 ^ palw_leaf_merkle_depth n.
Proof.
  intros Hn. unfold palw_leaf_merkle_depth. destruct (Z.leb_spec (Z.max n 1) 1); [split; [lia|]; change (2 ^ 0) with 1; lia|].
  replace (Z.max n 1) with n by lia. unfold leading_zeros64, bit_length. destruct (Z.eqb_spec (n - 1) 0) as [Hz|Hz]; [lia|].
  replace (64 - (64 - (Z.log2 (n - 1) + 1))) with (Z.succ (Z.log2 (n - 1))) by lia.
  pose proof (Z.log2_spec (n - 1)). pose proof (Z.log2_nonneg (n - 1)).
  assert (Z.log2 (n - 1) < 32) by (apply Z.log2_lt_pow2; lia). lia.
Qed.

Lemma as_u32_small n : Z.of_nat n < 2 ^ 32 → as_u32 n = Z.of_nat n.
Proof. intros. apply Z.mod_small. lia. Qed.

Section shape.
Context `{Crypto}.

Lemma length_bottom l : len l < 2 ^ 32 → length (bottom_level l) = (2 ^ Z.to_nat (palw_leaf_merkle_depth (len l)))%nat.
Proof.
  intros Hl. unfold bottom_level, resize. rewrite as_u32_small by done.
  destruct (depth_spec (len l)) as [Hd Hle]; [lia|].
  assert (length l ≤ 2 ^ Z.to_nat (palw_leaf_merkle_depth (len l)))%nat.
  { apply Nat2Z.inj_le. rewrite Nat2Z.inj_pow, Z2Nat.id by lia. exact Hle. }
  rewrite length_app, length_take, length_replicate, length_imap. lia.
Qed.
Lemma lookup_bottom l i h : len l < 2 ^ 32 → l !! i = Some h →
  bottom_level l !! i = Some (palw_leaf_merkle_leaf_node (Z.of_nat i) h).
Proof.
  intros Hl Hi. pose proof (lookup_lt_Some _ _ _ Hi) as Hlt. unfold bottom_level, resize.
  rewrite as_u32_small by done. destruct (depth_spec (len l)) as [Hd Hle]; [lia|].
  assert (length l ≤ 2 ^ Z.to_nat (palw_leaf_merkle_depth (len l)))%nat.
  { apply Nat2Z.inj_le. rewrite Nat2Z.inj_pow, Z2Nat.id by lia. exact Hle. }
  rewrite lookup_app_l by (rewrite length_take, length_imap; lia).
  rewrite lookup_take, decide_True by lia. rewrite list_lookup_imap, Hi. cbn [fmap option_fmap option_map]. by rewrite as_u32_small by lia.
Qed.

(** Reading the path with [idx ^ 1]. *)
Lemma lxor_1 idx : Nat.lxor idx 1 = sibling_index idx.
Proof.
  unfold sibling_index. apply Nat.bits_inj. intros k. rewrite Nat.lxor_spec.
  pose proof (Nat.div_mod_eq idx 2).
  destruct (Nat.odd idx) eqn:Ho.
  - apply Nat.odd_spec in Ho as [j ->]. replace (2 * j + 1 - 1)%nat with (2 * j)%nat by lia.
    destruct k as [|k]; [by rewrite Nat.testbit_odd_0, Nat.testbit_even_0|].
    change (Nat.testbit 1 (S k)) with (Nat.testbit 0 k). rewrite Nat.bits_0, xorb_false_r.
    by rewrite Nat.testbit_odd_succ, Nat.testbit_even_succ by lia.
  - rewrite <- Nat.negb_even in Ho. apply negb_false_iff, Nat.even_spec in Ho as [j ->].
    replace (S (2 * j)) with (2 * j + 1)%nat by lia.
    destruct k as [|k]; [by rewrite Nat.testbit_odd_0, Nat.testbit_even_0|].
    change (Nat.testbit 1 (S k)) with (Nat.testbit 0 k). rewrite Nat.bits_0, xorb_false_r.
    by rewrite Nat.testbit_odd_succ, Nat.testbit_even_succ by lia.
Qed.
Lemma proof_siblings_path d l idx : length l = (2 ^ d)%nat →
  proof_siblings d l idx = merkle_path palw_leaf_merkle_internal_node d l idx.
Proof.
  revert l idx. induction d as [|d IH]; intros l idx Hl; [done|]. cbn [proof_siblings merkle_path].
  destruct (length_uniform palw_leaf_merkle_internal_node _ _ Hl) as [He Hl']. rewrite He, lxor_1.
  unfold level_up in *. rewrite He in *. by rewrite IH.
Qed.

(** The fold with direction bits is the fold of the tree. *)
Lemma land_odd z k : 0 ≤ z → (Z.land (Z.shiftr z (Z.of_nat k)) 1 =? 0) = negb (Nat.odd (Z.to_nat z / 2 ^ k)).
Proof.
  intros Hz. change 1 with (Z.ones 1). rewrite Z.land_ones, Z.shiftr_div_pow2 by lia. change (2 ^ 1) with 2.
  rewrite <- (Z2Nat.id z) at 1 by done. change 2 with (Z.of_nat 2) at 1. rewrite <- Nat2Z.inj_pow, <- Nat2Z.inj_div.
  rewrite Nat.negb_odd. generalize (Z.to_nat z / 2 ^ k)%nat. intros m.
  destruct (Nat.even m) eqn:He.
  - apply Nat.even_spec in He as [j ->]. rewrite Nat2Z.inj_mul, Z.mul_comm, Z_mod_mult. done.
  - rewrite <- Nat.negb_odd in He. apply negb_false_iff, Nat.odd_spec in He as [j ->].
    rewrite Nat2Z.inj_add, Nat2Z.inj_mul, Z.mul_comm, Z.add_comm, Z_mod_plus_full. done.
Qed.

Lemma verify_fold_path k z x l : 0 ≤ z →
  verify_fold k z x l = fold_path palw_leaf_merkle_internal_node (Z.to_nat z / 2 ^ k) l x.
Proof.
  intros Hz. revert k x. induction l as [|s l IH]; intros k x; [done|]. cbn [verify_fold fold_path].
  rewrite IH, land_odd by done. rewrite Nat.pow_succ_r', (Nat.mul_comm 2), <- Nat.Div0.div_div. f_equal.
  unfold step_pair. by destruct (Nat.odd _).
Qed.
End shape.

(** ** Membership *)

Section membership.
Context `{Crypto}.

(** The apex of the tree and the apex that a proof computes. *)
Definition tree_depth (leaves : list Hash64) : nat := Z.to_nat (palw_leaf_merkle_depth (len leaves)).
Definition tree_apex (leaves : list Hash64) : Hash64 :=
  default 0 (head (Nat.iter (tree_depth leaves) (level_up palw_leaf_merkle_internal_node) (bottom_level leaves))).
Definition proof_apex (h : Hash64) (i : Z) (proof : PalwLeafMembershipProofV1) : Hash64 :=
  verify_fold 0 i (palw_leaf_merkle_leaf_node i h) (siblings proof).

(** Two of the strings hashed for the tree and for the proof collide. *)
Definition leaf_tree_collision (leaves : list Hash64) (h : Hash64) (i count : Z) (proof : PalwLeafMembershipProofV1) : Prop :=
  keyed_collision PALW_LEAF_ROOT_DOMAIN [root_string count (proof_apex h i proof)] [root_string (len leaves) (tree_apex leaves)] ∨
  keyed_collision PALW_LEAF_MERKLE_NODE_DOMAIN
    (node_string <$> path_pairs palw_leaf_merkle_internal_node (Z.to_nat i) (siblings proof) (palw_leaf_merkle_leaf_node i h))
    (node_string <$> tree_pairs palw_leaf_merkle_internal_node (tree_depth leaves) (bottom_level leaves)) ∨
  keyed_collision PALW_LEAF_MERKLE_LEAF_DOMAIN [leaf_string i h] (imap (λ j, leaf_string (Z.of_nat j)) leaves).

Lemma tree_apex_spec leaves : len leaves < 2 ^ 32 →
  Nat.iter (tree_depth leaves) (level_up palw_leaf_merkle_internal_node) (bottom_level leaves) = [tree_apex leaves].
Proof.
  intros Hl. destruct (iter_level_up_uniform palw_leaf_merkle_internal_node (tree_depth leaves) (bottom_level leaves)) as [a Ha].
  { by apply length_bottom. }
  unfold tree_apex. by rewrite Ha.
Qed.
Lemma merkle_root_spec {E} leaves : len leaves < 2 ^ 32 →
  palw_leaf_merkle_root (E:=E) leaves = Ok (palw_leaf_merkle_finalize (len leaves) (tree_apex leaves)).
Proof.
  intros Hl. unfold palw_leaf_merkle_root. rewrite as_u32_small by done. fold (tree_depth leaves).
  rewrite iter_pair_up_uniform by (by apply length_bottom). by rewrite tree_apex_spec.
Qed.
Lemma merkle_proof_spec {E} leaves i : len leaves < 2 ^ 32 → 0 ≤ i < len leaves →
  palw_leaf_merkle_proof (E:=E) leaves i =
  (s ← unwrap (merkle_path palw_leaf_merkle_internal_node (tree_depth leaves) (bottom_level leaves) (Z.to_nat i)); Ok (Some (mkLeafProof s))).
Proof.
  intros Hl Hi. unfold palw_leaf_merkle_proof. rewrite as_u32_small by done.
  destruct (Z.leb_spec (len leaves) i); [lia|]. fold (tree_depth leaves). by rewrite proof_siblings_path by (by apply length_bottom).
Qed.

Lemma leaf_proof_verifies {E} leaves i h : len leaves < 2 ^ 32 → leaves !! i = Some h →
  ∃ proof, palw_leaf_merkle_proof (E:=E) leaves (Z.of_nat i) = Ok (Some proof) ∧ length (siblings proof) = tree_depth leaves ∧
    palw_verify_leaf_membership h (Z.of_nat i) (len leaves) proof (palw_leaf_merkle_finalize (len leaves) (tree_apex leaves)) = true.
Proof.
  intros Hl Hi. pose proof (lookup_lt_Some _ _ _ Hi). destruct (depth_spec (len leaves)) as [Hd Hle]; [lia|].
  destruct (merkle_path_ok palw_leaf_merkle_internal_node (tree_depth leaves) (bottom_level leaves) i _ (lookup_bottom _ _ _ Hl Hi))
    as (s & Hp & Hs & Hf).
  exists (mkLeafProof s). rewrite merkle_proof_spec by lia. rewrite Nat2Z.id, Hp. split; [done|]. split; [done|].
  unfold palw_verify_leaf_membership. destruct (Z.leb_spec (len leaves) (Z.of_nat i)); [lia|]. cbn [siblings].
  rewrite Hs. unfold as_u32, tree_depth. rewrite Z2Nat.id, Z.mod_small, Z.eqb_refl by lia. cbn [negb].
  rewrite verify_fold_path, Nat.pow_0_r, Nat.div_1_r, Nat2Z.id by lia.
  rewrite tree_apex_spec in Hf by done. apply list_lookup_singleton_Some in Hf as [_ ->]. apply Z.eqb_refl.
Qed.

Lemma node_collision_strings l1 l2 :
  Forall (λ p, is_uint 64 p.1 ∧ is_uint 64 p.2) l1 → Forall (λ p, is_uint 64 p.1 ∧ is_uint 64 p.2) l2 →
  pair_collision palw_leaf_merkle_internal_node l1 l2 →
  keyed_collision PALW_LEAF_MERKLE_NODE_DOMAIN (node_string <$> l1) (node_string <$> l2).
Proof.
  rewrite !Forall_forall. intros H1 H2 ([a b] & [c d] & Hp & Hq & Hne & Heq).
  exists (node_string (a, b)), (node_string (c, d)). split; [by apply list_elem_of_fmap_2|]. split; [by apply list_elem_of_fmap_2|].
  split; [|done]. intros Hs. apply Hne. destruct (H1 _ Hp) as [Ha Hb], (H2 _ Hq) as [Hc Hd]. unfold node_string in Hs. cbn in *.
  apply prefix_code in Hs as [-> Hs]; [|done..]. apply (f_equal (λ l, l ++ [])) in Hs. by apply prefix_code in Hs as [-> _].
Qed.

Lemma bottom_typed leaves : Forall (is_uint 64) (bottom_level leaves).
Proof.
  unfold bottom_level, resize. apply Forall_app. split.
  - apply Forall_take, Forall_lookup_2. intros i x. rewrite list_lookup_imap.
    destruct (leaves !! i); [|done]. intros [= <-]. apply keyed_is_uint.
  - apply Forall_replicate, keyed_is_uint.
Qed.

Lemma leaf_membership_inv leaves h i count proof :
  len leaves < 2 ^ 32 → len (siblings proof) < 2 ^ 32 → is_uint 64 h → is_uint 4 i → is_uint 4 count →
  Forall (is_uint 64) leaves → Forall (is_uint 64) (siblings proof) →
  palw_verify_leaf_membership h i count proof (palw_leaf_merkle_finalize (len leaves) (tree_apex leaves)) = true →
  (count = len leaves ∧ leaves !! Z.to_nat i = Some h ∧
    merkle_path palw_leaf_merkle_internal_node (tree_depth leaves) (bottom_level leaves) (Z.to_nat i) = Some (siblings proof)) ∨
  leaf_tree_collision leaves h i count proof.
Proof.
  intros Hl Hls Hh Hi Hc Htl Hts. unfold palw_verify_leaf_membership. unfold is_uint in Hi, Hc.
  destruct (Z.leb_spec count i) as [|Hlt]; [done|]. rewrite as_u32_small by done.
  destruct (Z.eqb_spec (len (siblings proof)) (palw_leaf_merkle_depth count)) as [Hd|]; [|done]. cbn [negb].
  fold (proof_apex h i proof). intros Heq%Z.eqb_eq.
  apply (keyed_eq _ _ _ [root_string count (proof_apex h i proof)] [root_string (len leaves) (tree_apex leaves)]) in Heq as [Heq|];
    [|right; by left|set_solver..].
  unfold root_string in Heq. apply prefix_code in Heq as [-> Heq]; [|unfold is_uint in *; lia..].
  assert (Hta : is_uint 64 (tree_apex leaves) ∧ is_uint 64 (proof_apex h i proof)).
  { split.
    - pose proof (iter_level_up_all palw_leaf_merkle_internal_node (is_uint 64) (tree_depth leaves) _ (λ _ _, keyed_is_uint _ _) (bottom_typed leaves)) as Ha.
      rewrite tree_apex_spec in Ha by done. by inversion Ha.
    - unfold proof_apex. rewrite verify_fold_path by lia. apply fold_path_all; intros; apply keyed_is_uint. }
  apply (f_equal (λ l, l ++ [])) in Heq. apply prefix_code in Heq as [Heq _]; [|apply Hta..].
  unfold proof_apex in Heq. rewrite verify_fold_path, Nat.pow_0_r, Nat.div_1_r in Heq by lia.
  assert (Z.to_nat i < 2 ^ tree_depth leaves)%nat as Hidx.
  { destruct (depth_spec (len leaves)) as [Hd0 Hle]; [lia|]. apply Nat2Z.inj_lt. unfold tree_depth.
    rewrite Nat2Z.inj_pow, !Z2Nat.id by lia. change (Z.of_nat 2) with 2. lia. }
  apply (fold_path_sound palw_leaf_merkle_internal_node (tree_depth leaves) (bottom_level leaves)) in Heq as [[Hx Hp]|Hcol].
  - rewrite Nat.mod_small in Hx, Hp by done.
    destruct (lookup_lt_is_Some_2 leaves (Z.to_nat i)) as [h' Hh']; [lia|].
    rewrite (lookup_bottom _ _ _ Hl Hh') in Hx. injection Hx as Hx. rewrite Z2Nat.id in Hx by lia. symmetry in Hx.
    apply (keyed_eq _ _ _ [leaf_string i h] (imap (λ j, leaf_string (Z.of_nat j)) leaves)) in Hx as [Hx|]; [|by do 3 right|set_solver|].
    + left. split; [done|]. split; [|done]. unfold leaf_string in Hx. apply app_inv_head, (f_equal (λ l, l ++ [])) in Hx.
      apply prefix_code in Hx as [-> _]; [done|done|]. exact (Forall_lookup_1 _ _ _ _ Htl Hh').
    + apply list_elem_of_lookup. exists (Z.to_nat i). rewrite list_lookup_imap, Hh'. cbn [fmap option_fmap option_map]. by rewrite Z2Nat.id by lia.
  - right. right. left. apply node_collision_strings, Hcol.
    + apply path_pairs_all; [intros; apply keyed_is_uint|apply keyed_is_uint|done].
    + apply tree_pairs_all; [intros; apply keyed_is_uint|apply bottom_typed].
  - unfold tree_depth. lia.
  - by apply length_bottom.
  - by apply tree_apex_spec.
Qed.

(** C35. The membership proofs of a batch are exact. For every list of leaf
    hashes the root exists; the proof produced for a position has one sibling
    per level and verifies for the leaf at that position; and whatever proof
    verifies for a hash, a position and a leaf count is the produced one, the
    count is the number of leaves and the hash is the leaf at the position,
    unless two of the strings hashed for the root and for the proof collide. *)
Theorem leaf_membership_exact leaves :
  len leaves < 2 ^ 32 → Forall (is_uint 64) leaves →
  ∃ root, palw_leaf_merkle_root (E:=unit) leaves = Ok root ∧
  (∀ i h, leaves !! i = Some h → ∃ proof, palw_leaf_merkle_proof (E:=unit) leaves (Z.of_nat i) = Ok (Some proof) ∧
    len (siblings proof) = palw_leaf_merkle_depth (len leaves) ∧
    palw_verify_leaf_membership h (Z.of_nat i) (len leaves) proof root = true) ∧
  (∀ h i count proof, is_uint 64 h → is_uint 4 i → is_uint 4 count →
    len (siblings proof) < 2 ^ 32 → Forall (is_uint 64) (siblings proof) →
    palw_verify_leaf_membership h i count proof root = true →
    (count = len leaves ∧ leaves !! Z.to_nat i = Some h ∧ palw_leaf_merkle_proof (E:=unit) leaves i = Ok (Some proof)) ∨
    leaf_tree_collision leaves h i count proof).
Proof.
  intros Hl Ht. eexists. split; [by apply merkle_root_spec|]. split.
  - intros i h Hi. destruct (leaf_proof_verifies (E:=unit) leaves i h Hl Hi) as (proof & Hp & Hs & Hv).
    exists proof. split; [done|]. split; [|done]. destruct (depth_spec (len leaves)) as [Hd _]; [lia|].
    rewrite Hs. unfold tree_depth. lia.
  - intros h i count proof Hh Hi Hc Hs Hts Hv.
    destruct (leaf_membership_inv leaves h i count proof Hl Hs Hh Hi Hc Ht Hts Hv) as [(-> & Hx & Hp)|]; [left|by right].
    split; [done|]. split; [done|]. pose proof (lookup_lt_Some _ _ _ Hx). unfold is_uint in Hi.
    rewrite merkle_proof_spec by lia. rewrite Hp. by destruct proof.
Qed.
End membership.

Lemma leaf_membership_exact_witness :
  ∃ root proof, palw_leaf_merkle_root (H:=toy_crypto) (E:=unit) [11; 12; 13] = Ok root ∧
    palw_leaf_merkle_proof (H:=toy_crypto) (E:=unit) [11; 12; 13] 2 = Ok (Some proof) ∧
    palw_verify_leaf_membership (H:=toy_crypto) 13 2 3 proof root = true.
Proof.
  destruct (leaf_membership_exact (H:=toy_crypto) [11; 12; 13]) as (root & Hr & Hc & _).
  - reflexivity.
  - repeat constructor; unfold is_uint; simpl; lia.
  - destruct (Hc 2%nat 13 eq_refl) as (proof & Hp & _ & Hv). exact (ex_intro _ root (ex_intro _ proof (conj Hr (conj Hp Hv)))).
Defined.
