(* ===== verification/PalwDispatch.v ===== *)
(** * PALW: provider snapshots and dispatch evidence

    Models the dispatch evidence of [src/consensus/core/src/palw.rs]: the
    canonical snapshot of the bonded providers, the partition of the total bond
    into intervals, the bond-weighted draw, and the rule that accepts evidence
    that a job went to the drawn providers. *)

From stdpp Require Import base list gmap sets sorting strings.
From Stdlib Require Import ZArith Lia.
From S2P Require Import Prelude Tx Bytes Hashing Uint Merkle Palw PalwLeafTree.

Local Open Scope Z_scope.

Definition PALW_PCPB_DOMAIN : list byte := b_ "misaka-palw-pcpb-v1".
Definition PALW_SNAPSHOT_LEAF_DOMAIN : list byte := b_ "misaka-palw-pcpb-snapshot-leaf-v1".
Definition PALW_SNAPSHOT_NODE_DOMAIN : list byte := b_ "misaka-palw-pcpb-snapshot-node-v1".
Definition PALW_ASSIGNMENT_LEAF_DOMAIN : list byte := b_ "misaka-palw-pcpb-assign-leaf-v1".
Definition PALW_ASSIGNMENT_NODE_DOMAIN : list byte := b_ "misaka-palw-pcpb-assign-node-v1".
Definition PALW_ASSIGNMENT_DRAW_DOMAIN : list byte := b_ "misaka-palw-pcpb-assign-draw-v1".
Definition PALW_PROVIDER_PK_HASH_DOMAIN : list byte := b_ "misaka-palw-pcpb-provider-pk-v1".
Definition PALW_PCPB_RECEIPT_MLDSA87_CONTEXT : list byte := b_ "PALWPcpbReceiptV1".
Definition PALW_PCPB_RECEIPT_TAG : list byte := b_ "misaka-palw-pcpb-receipt-binds-a-commit-v1".

Record PalwMerkleMembership := mkMembership {
  mm_index : Z;
  mm_leaf : Hash64;
  mm_siblings : list Hash64;
}.
Record PalwProviderSnapshotEntry := mkSnapshotEntry {
  se_provider_id : Hash64;
  se_ml_dsa_pk_hash : Hash64;
  se_bond_sompi : Z;
  se_reward_script_commitment : Hash64;
}.
Record PalwAssignmentInterval := mkInterval {
  ai_provider_id : Hash64;
  ai_bond_sompi : Z;
  ai_cumulative_lo : Z;
}.
Record SlotAssignmentWitness := mkSlotWitness {
  sw_entry : PalwProviderSnapshotEntry;
  sw_snapshot_membership : PalwMerkleMembership;
  sw_interval : PalwAssignmentInterval;
  sw_assignment_membership : PalwMerkleMembership;
}.
Record BeaconAssignedProof := mkBeaconAssigned { slot_a : SlotAssignmentWitness; slot_b : SlotAssignmentWitness }.
Record SelfSerialProof := mkSelfSerial {
  ss_a_commit : Hash64;
  ss_b_entry : PalwProviderSnapshotEntry;
  ss_b_snapshot_membership : PalwMerkleMembership;
  ss_b_interval : PalwAssignmentInterval;
  ss_b_assignment_membership : PalwMerkleMembership;
  ss_b_ml_dsa_pk : list byte;
  ss_b_receipt_preimage : list byte;
  ss_b_signature : list byte;
}.
Inductive PalwDispatchEvidence : Type := BeaconAssigned (p : BeaconAssignedProof) | SelfSerial (p : SelfSerialProof).
Record PalwSnapshotCommitment := mkSnapshotCommitment {
  sc_snapshot_root : Hash64;
  sc_assignment_root : Hash64;
  sc_total_bond : Z;
  sc_provider_count : Z;
}.
Record PalwSnapshotWitnessSet := mkWitnessSet { ws_commitment : PalwSnapshotCommitment; ws_slots : list SlotAssignmentWitness }.

#[export] Instance snapshot_entry_eq_dec : EqDecision PalwProviderSnapshotEntry.
Proof. solve_decision. Defined.
#[export] Instance assignment_interval_eq_dec : EqDecision PalwAssignmentInterval.
Proof. solve_decision. Defined.

(** The low 128 bits of a digest, reduced. *)
Definition reduce_hash_to_bond (h : Hash64) (total_bond : Z) : Z := le_val (take 16 (hash64_bytes h)) mod Z.max total_bond 1.
Definition interval_contains (iv : PalwAssignmentInterval) (ticket : Z) : bool :=
  let hi := sat_add128 (ai_cumulative_lo iv) (ai_bond_sompi iv) in (ai_cumulative_lo iv <=? ticket) && (ticket <? hi).

Definition palw_pcpb_receipt_preimage (a_commit : Hash64) (tail : list byte) : list byte :=
  PALW_PCPB_RECEIPT_TAG ++ push_hash a_commit ++ tail.
Definition palw_receipt_embeds_a_commit (preimage : list byte) (a_commit : Hash64) : bool :=
  let tag := PALW_PCPB_RECEIPT_TAG in
  let need := (length tag + HASH64_SIZE)%nat in
  (need <=? length preimage)%nat && bool_decide (take (length tag) preimage = tag) &&
  bool_decide (take HASH64_SIZE (drop (length tag) preimage) = hash64_bytes a_commit).

Section dispatch.
Context `{Crypto}.

Definition keyed_node (node_domain : list byte) (left right : Hash64) : Hash64 :=
  blake2b_512_keyed node_domain (node_string (left, right)).

Definition fold_to_root (m : PalwMerkleMembership) (node_domain : list byte) : Hash64 :=
  fold_path (keyed_node node_domain) (Z.to_nat (mm_index m)) (mm_siblings m) (mm_leaf m).
Definition verifies (m : PalwMerkleMembership) (root expected_leaf : Hash64) (node_domain : list byte) : bool :=
  (mm_leaf m =? expected_leaf) && (fold_to_root m node_domain =? root).

Definition snapshot_entry_string (e : PalwProviderSnapshotEntry) : list byte :=
  push_hash (se_provider_id e) ++ push_hash (se_ml_dsa_pk_hash e) ++ to_le_bytes 8 (se_bond_sompi e) ++
  push_hash (se_reward_script_commitment e).
Definition palw_snapshot_entry_hash (e : PalwProviderSnapshotEntry) : Hash64 :=
  blake2b_512_keyed PALW_SNAPSHOT_LEAF_DOMAIN (snapshot_entry_string e).
Definition assignment_interval_string (iv : PalwAssignmentInterval) : list byte :=
  push_hash (ai_provider_id iv) ++ to_le_bytes 8 (ai_bond_sompi iv) ++ to_le_bytes 16 (ai_cumulative_lo iv).
Definition palw_assignment_interval_hash (iv : PalwAssignmentInterval) : Hash64 :=
  blake2b_512_keyed PALW_ASSIGNMENT_LEAF_DOMAIN (assignment_interval_string iv).
Definition palw_provider_pk_hash (ml_dsa_pk : list byte) : Hash64 := blake2b_512_keyed PALW_PROVIDER_PK_HASH_DOMAIN ml_dsa_pk.
Definition palw_pcpb_derive_b (post_commit_beacon a_commit : Hash64) : Hash64 :=
  blake2b_512_keyed PALW_PCPB_DOMAIN (push_hash post_commit_beacon ++ push_hash a_commit).
Definition palw_assignment_draw_seed (beacon : Hash64) (slot_index : Z) : Hash64 :=
  blake2b_512_keyed PALW_ASSIGNMENT_DRAW_DOMAIN (push_hash beacon ++ [slot_index]).

Definition slot_witness_valid (w : SlotAssignmentWitness) (snapshot_root assignment_root : Hash64) (total_bond : Z)
    (draw_seed : Hash64) : bool :=
  let ticket := reduce_hash_to_bond draw_seed total_bond in
  (se_provider_id (sw_entry w) =? ai_provider_id (sw_interval w)) &&
  (se_bond_sompi (sw_entry w) =? ai_bond_sompi (sw_interval w)) &&
  verifies (sw_snapshot_membership w) snapshot_root (palw_snapshot_entry_hash (sw_entry w)) PALW_SNAPSHOT_NODE_DOMAIN &&
  verifies (sw_assignment_membership w) assignment_root (palw_assignment_interval_hash (sw_interval w)) PALW_ASSIGNMENT_NODE_DOMAIN &&
  interval_contains (sw_interval w) ticket.

(** [verify] is the injected ML-DSA-87 check. *)
Definition palw_dispatch_evidence_valid (verify : list byte → list byte → list byte → list byte → bool)
    (ev : PalwDispatchEvidence) (resolved_snapshot_root resolved_assignment_root : Hash64) (resolved_total_bond : Z)
    (post_commit_beacon leaf_snapshot_root leaf_assignment_root leaf_a_commit : Hash64) : bool :=
  if negb (leaf_snapshot_root =? resolved_snapshot_root) || negb (leaf_assignment_root =? resolved_assignment_root) then false
  else if resolved_total_bond =? 0 then false
  else
    match ev with
    | BeaconAssigned p =>
      slot_witness_valid (slot_a p) resolved_snapshot_root resolved_assignment_root resolved_total_bond
        (palw_assignment_draw_seed post_commit_beacon 0) &&
      slot_witness_valid (slot_b p) resolved_snapshot_root resolved_assignment_root resolved_total_bond
        (palw_assignment_draw_seed post_commit_beacon 1) &&
      negb (se_provider_id (sw_entry (slot_a p)) =? se_provider_id (sw_entry (slot_b p)))
    | SelfSerial p =>
      if negb (ss_a_commit p =? leaf_a_commit) then false
      else
        let seed := palw_pcpb_derive_b post_commit_beacon (ss_a_commit p) in
        let ticket := reduce_hash_to_bond seed resolved_total_bond in
        (se_provider_id (ss_b_entry p) =? ai_provider_id (ss_b_interval p)) &&
        (se_bond_sompi (ss_b_entry p) =? ai_bond_sompi (ss_b_interval p)) &&
        verifies (ss_b_snapshot_membership p) resolved_snapshot_root (palw_snapshot_entry_hash (ss_b_entry p)) PALW_SNAPSHOT_NODE_DOMAIN &&
        verifies (ss_b_assignment_membership p) resolved_assignment_root (palw_assignment_interval_hash (ss_b_interval p)) PALW_ASSIGNMENT_NODE_DOMAIN &&
        interval_contains (ss_b_interval p) ticket &&
        (palw_provider_pk_hash (ss_b_ml_dsa_pk p) =? se_ml_dsa_pk_hash (ss_b_entry p)) &&
        palw_receipt_embeds_a_commit (ss_b_receipt_preimage p) (ss_a_commit p) &&
        verify (ss_b_ml_dsa_pk p) (ss_b_receipt_preimage p) PALW_PCPB_RECEIPT_MLDSA87_CONTEXT (ss_b_signature p)
    end.

(** ** The canonical snapshot *)

Definition select (ws : PalwSnapshotWitnessSet) (seed : Hash64) : option nat :=
  if sc_total_bond (ws_commitment ws) =? 0 then None
  else
    let ticket := reduce_hash_to_bond seed (sc_total_bond (ws_commitment ws)) in
    position (λ s, interval_contains (sw_interval s) ticket) (ws_slots ws).

(** The levels of a tree, the leaves first. *)
Fixpoint palw_pcpb_merkle_levels {E} (fuel : nat) (node_domain : list byte) (cur : list Hash64) : outcome E (list (list Hash64)) :=
  if (length cur <=? 1)%nat then Ok [cur]
  else
    match fuel with
    | O => OutOfFuel
    | S fuel => rest ← palw_pcpb_merkle_levels fuel node_domain (level_up (keyed_node node_domain) cur); Ok (cur :: rest)
    end.
Fixpoint membership_siblings {E} (levels : list (list Hash64)) (idx : nat) : outcome E (list Hash64) :=
  match levels with
  | [] => Ok []
  | level :: levels =>
    sib ← (if Nat.odd idx then unwrap (level !! (idx - 1)%nat)
           else if (idx + 1 <? length level)%nat then unwrap (level !! (idx + 1)%nat) else unwrap (level !! idx));
    rest ← membership_siblings levels (idx / 2)%nat;
    Ok (sib :: rest)
  end.
Definition palw_pcpb_merkle_membership {E} (levels : list (list Hash64)) (index : nat) : outcome E PalwMerkleMembership :=
  bottom ← unwrap (head levels);
  leaf ← unwrap (bottom !! index);
  s ← membership_siblings (take (length levels - 1) levels) index;
  Ok (mkMembership (as_u32 index) leaf s).

(** The running sum of the bonds. *)
Fixpoint assignment_intervals {E} (cum : Z) (kept : list PalwProviderSnapshotEntry) : outcome E (list PalwAssignmentInterval * Z) :=
  match kept with
  | [] => Ok ([], cum)
  | e :: kept =>
    cum' ← chk128 (cum + se_bond_sompi e);
    '(rest, total) ← assignment_intervals cum' kept;
    Ok (mkInterval (se_provider_id e) (se_bond_sompi e) cum :: rest, total)
  end.

Definition entry_le (a b : PalwProviderSnapshotEntry) : Prop := hash64_order (se_provider_id a) ≤ hash64_order (se_provider_id b).
#[export] Instance entry_le_dec : RelDecision entry_le := λ a b, Z_le_dec _ _.
Definition kept_entries (entries : list PalwProviderSnapshotEntry) : list PalwProviderSnapshotEntry :=
  merge_sort entry_le (filter (λ e, 0 < se_bond_sompi e) entries).

Fixpoint build_slots {E} (snap_levels assign_levels : list (list Hash64)) (i : nat)
    (kept : list PalwProviderSnapshotEntry) (intervals : list PalwAssignmentInterval) : outcome E (list SlotAssignmentWitness) :=
  match kept, intervals with
  | e :: kept, iv :: intervals =>
    sm ← palw_pcpb_merkle_membership snap_levels i;
    am ← palw_pcpb_merkle_membership assign_levels i;
    rest ← build_slots snap_levels assign_levels (S i) kept intervals;
    Ok (mkSlotWitness e sm iv am :: rest)
  | _, _ => Ok []
  end.

Definition palw_build_snapshot_witnesses {E} (entries : list PalwProviderSnapshotEntry) : outcome E PalwSnapshotWitnessSet :=
  let kept := kept_entries entries in
  match kept with
  | [] => Ok (mkWitnessSet (mkSnapshotCommitment 0 0 0 0) [])
  | _ =>
    '(intervals, cum) ← assignment_intervals 0 kept;
    let snap_leaves := palw_snapshot_entry_hash <$> kept in
    let assign_leaves := palw_assignment_interval_hash <$> intervals in
    snap_levels ← palw_pcpb_merkle_levels (length kept) PALW_SNAPSHOT_NODE_DOMAIN snap_leaves;
    assign_levels ← palw_pcpb_merkle_levels (length kept) PALW_ASSIGNMENT_NODE_DOMAIN assign_leaves;
    snapshot_root ← unwrap (last snap_levels ≫= head);
    assignment_root ← unwrap (last assign_levels ≫= head);
    slots ← build_slots snap_levels assign_levels 0 kept intervals;
    Ok (mkWitnessSet (mkSnapshotCommitment snapshot_root assignment_root cum (as_u32 (length kept))) slots)
  end.
End dispatch.
