(* ===== verification/PalwDispatchThms.v ===== *)
(** * PALW: the drawn providers are the only ones with evidence

    The canonical snapshot partitions the total bond, the draw always selects
    exactly one provider, its witness verifies, and whatever evidence the rule
    accepts names the drawn provider, unless two of the hashed strings
    collide. *)

From stdpp Require Import base list gmap sets sorting strings.
From Stdlib Require Import ZArith Lia ZifyNat.
From S2P Require Import Prelude Tx Bytes Hashing Uint Merkle Palw PalwLeafTree PalwDispatch.

Local Open Scope Z_scope.

(** The number of levels above the leaves. *)
Lemma log2_up_half n : (2 ≤ n)%nat → Nat.log2_up n = S (Nat.log2_up ((n + 1) / 2)).
Proof.
  intros Hn. rewrite Nat.log2_up_eqn by lia. f_equal.
  destruct (decide (n = 2%nat)) as [->|]; [done|]. rewrite Nat.log2_up_eqn by lia.
  replace (Nat.pred ((n + 1) / 2)) with (Nat.pred n / 2)%nat by lia.
  pose proof (Nat.div_mod_eq (Nat.pred n) 2) as Hd. pose proof (Nat.mod_upper_bound (Nat.pred n) 2).
  rewrite Hd at 1. destruct (Nat.pred n mod 2)%nat as [|[|]]; [rewrite Nat.add_0_r, Nat.log2_double by lia; done|rewrite Nat.log2_succ_double by lia; done|lia].
Qed.

Section levels.
Context `{Crypto} (dom : list byte).
Abbreviation node := (keyed_node dom).

Lemma merkle_levels_ok {E} fuel cur : cur ≠ [] → (length cur ≤ S fuel)%nat →
  let d := Nat.log2_up (length cur) in
  ∃ apex, palw_pcpb_merkle_levels (E:=E) fuel dom cur = Ok ((λ k, Nat.iter k (level_up node) cur) <$> seq 0 (S d)) ∧
    Nat.iter d (level_up node) cur = [apex].
Proof.
  revert cur. induction fuel as [|fuel IH]; intros cur Hne Hl; cbn [palw_pcpb_merkle_levels].
  - destruct cur as [|a [|]]; cbn in Hl; try lia; [done|]. exists a. done.
  - destruct (Nat.leb_spec (length cur) 1) as [H1|H1].
    { destruct cur as [|a [|]]; cbn in H1; try lia; [done|]. exists a. done. }
    destruct (IH (level_up node cur)) as (apex & -> & Hd).
    { intros E'. apply (f_equal length) in E'. rewrite length_level_up in E'. cbn [length] in E'. lia. }
    { rewrite length_level_up. lia. }
    rewrite (log2_up_half (length cur)) by lia. rewrite length_level_up in Hd |- *.
    set (k := Nat.log2_up ((length cur + 1) / 2)) in *. exists apex. rewrite iter_S. split; [|done]. cbn [mbind outcome_bind]. f_equal.
    rewrite <- (cons_seq (S k) 0), fmap_cons. f_equal. rewrite <- fmap_S_seq, <- list_fmap_compose.
    apply list_fmap_ext. intros i x _. unfold compose. by rewrite iter_S.
Qed.

Lemma membership_siblings_path {E} d cur idx : (idx < length cur)%nat →
  membership_siblings (E:=E) ((λ k, Nat.iter k (level_up node) cur) <$> seq 0 d) idx = unwrap (merkle_path node d cur idx).
Proof.
  revert cur idx. induction d as [|d IH]; intros cur idx Hi; [done|].
  rewrite <- (cons_seq d 0), fmap_cons. cbn [membership_siblings merkle_path].
  assert (((λ k, Nat.iter k (level_up node) cur) <$> seq 1 d) = ((λ k, Nat.iter k (level_up node) (level_up node cur)) <$> seq 0 d)) as ->.
  { rewrite <- fmap_S_seq, <- list_fmap_compose. apply list_fmap_ext. intros k x _. unfold compose. by rewrite iter_S. }
  change (Nat.iter 0 (level_up node) cur) with cur.
  assert ((if Nat.odd idx then unwrap (cur !! (idx - 1)%nat)
           else if (idx + 1 <? length cur)%nat then unwrap (cur !! (idx + 1)%nat) else unwrap (cur !! idx)) =
          unwrap (E:=E) (even_pad cur !! sibling_index idx)) as ->.
  { unfold sibling_index. destruct (Nat.odd idx) eqn:Ho.
    - destruct (lookup_lt_is_Some_2 cur (idx - 1)) as [x Hx]; [lia|]. by rewrite Hx, (even_pad_lookup _ _ _ Hx).
    - replace (idx + 1)%nat with (S idx) by lia. destruct (Nat.ltb_spec (S idx) (length cur)) as [Hs|Hs].
      + destruct (lookup_lt_is_Some_2 cur (S idx)) as [x Hx]; [lia|]. by rewrite Hx, (even_pad_lookup _ _ _ Hx).
      + assert (length cur = S idx) as Hlen by lia. unfold even_pad. rewrite Hlen, Nat.odd_succ, <- Nat.negb_odd, Ho. cbn [negb].
        destruct (last_is_Some cur) as [x Hx]; [intros ->; cbn in Hi; lia|]. rewrite Hx. cbn [option_list].
        rewrite last_lookup, Hlen in Hx. cbn [pred] in Hx.
        rewrite Hx, <- Hlen, lookup_app_r, Nat.sub_diag by lia. done. }
  rewrite IH by (rewrite length_level_up; lia).
  destruct (even_pad cur !! _) as [s|]; [|done]. cbn [unwrap mbind outcome_bind option_bind].
  by destruct (merkle_path node d _ _).
Qed.

Lemma membership_ok {E} d cur apex i x : Nat.iter d (level_up node) cur = [apex] → cur !! i = Some x → Z.of_nat i < 2 ^ 32 →
  ∃ m, palw_pcpb_merkle_membership (E:=E) ((λ k, Nat.iter k (level_up node) cur) <$> seq 0 (S d)) i = Ok m ∧
    verifies m apex x dom = true.
Proof.
  intros Hd Hx Hi. pose proof (lookup_lt_Some _ _ _ Hx) as Hlt.
  unfold palw_pcpb_merkle_membership. rewrite length_fmap, length_seq. replace (S d - 1)%nat with d by lia.
  rewrite <- fmap_take, take_seq. replace (d `min` S d)%nat with d by lia.
  rewrite membership_siblings_path by done.
  change (head _) with (Some cur). cbn [unwrap mbind outcome_bind]. rewrite Hx. cbn [unwrap mbind outcome_bind].
  destruct (merkle_path_ok node d cur i x Hx) as (s & Hp & Hs & Hf). rewrite Hp. cbn [unwrap mbind outcome_bind].
  eexists. split; [reflexivity|]. unfold verifies, fold_to_root. cbn. rewrite as_u32_small, Nat2Z.id, Z.eqb_refl by done.
  rewrite Hd in Hf. apply list_lookup_singleton_Some in Hf as [_ <-]. apply Z.eqb_refl.
Qed.
End levels.

(** ** The partition *)

Section partition.
Lemma assignment_intervals_ok {E} cum kept : 0 ≤ cum → Forall (λ e, 0 < se_bond_sompi e) kept →
  cum + sumZ (se_bond_sompi <$> kept) ≤ U128_MAX →
  ∃ ivs, assignment_intervals (E:=E) cum kept = Ok (ivs, cum + sumZ (se_bond_sompi <$> kept)) ∧ length ivs = length kept ∧
    (∀ i e, kept !! i = Some e → ∃ iv, ivs !! i = Some iv ∧ ai_provider_id iv = se_provider_id e ∧ ai_bond_sompi iv = se_bond_sompi e ∧
      ai_cumulative_lo iv = cum + sumZ (se_bond_sompi <$> take i kept)).
Proof.
  intros Hc Hk. revert cum Hc. induction Hk as [|e kept He Hk IH]; intros cum Hc Hs.
  { exists []. cbn. unfold sumZ. cbn. rewrite Z.add_0_r. split; [done|]. split; [done|]. done. }
  cbn [assignment_intervals]. rewrite fmap_cons, sumZ_cons in Hs |- *.
  assert (0 ≤ sumZ (se_bond_sompi <$> kept)).
  { apply sumZ_nonneg, Forall_fmap. eapply Forall_impl; [exact Hk|]. cbn. lia. }
  unfold chk128. rewrite (proj2 (Z.leb_le _ _)), (proj2 (Z.leb_le _ _)) by lia. cbn [andb].
  cbn [mbind outcome_bind]. destruct (IH (cum + se_bond_sompi e)) as (ivs & -> & Hl & Hiv); [lia|lia|]. cbn [mbind outcome_bind].
  eexists. split; [by rewrite <- Z.add_assoc|]. split; [cbn; by rewrite Hl|].
  intros [|i] e' Hi.
  - injection Hi as <-. eexists. split; [done|]. cbn. unfold sumZ. cbn. by rewrite Z.add_0_r.
  - destruct (Hiv i e' Hi) as (iv & Hiv' & ? & ? & Hlo). exists iv. split; [done|]. split; [done|]. split; [done|].
    rewrite Hlo. cbn [take]. rewrite fmap_cons, sumZ_cons. lia.
Qed.

Lemma sumZ_pos l : Forall (λ z, 0 < z) l → l ≠ [] → 0 < sumZ l.
Proof.
  intros [|z l' Hz Hl]; [done|]. intros _. rewrite sumZ_cons. pose proof (sumZ_nonneg l'). assert (0 ≤ sumZ l'); [|lia].
  apply sumZ_nonneg. eapply Forall_impl; [exact Hl|]. cbn. lia.
Qed.
Lemma sumZ_take_S l i e : l !! i = Some e → sumZ (take (S i) l) = sumZ (take i l) + e.
Proof. intros Hi. rewrite (take_S_r _ _ _ Hi), sumZ_app, sumZ_cons. change (sumZ []) with 0. lia. Qed.
Lemma sumZ_take_le l i j : Forall (λ z, 0 ≤ z) l → (i ≤ j)%nat → sumZ (take i l) ≤ sumZ (take j l).
Proof.
  intros Hl Hij. rewrite <- (take_drop i (take j l)), take_take, sumZ_app. replace (i `min` j)%nat with i by lia.
  assert (0 ≤ sumZ (drop i (take j l))); [|lia]. apply sumZ_nonneg. by apply Forall_drop, Forall_take.
Qed.

(** A ticket below the total lies in exactly one interval. *)
Lemma partition_find l t : Forall (λ z, 0 < z) l → 0 ≤ t < sumZ l →
  ∃ i e, l !! i = Some e ∧ sumZ (take i l) ≤ t < sumZ (take i l) + e.
Proof.
  intros Hl. revert t. induction Hl as [|z l Hz Hl IH]; intros t Ht; [unfold sumZ in Ht; cbn in Ht; lia|].
  rewrite sumZ_cons in Ht. destruct (decide (t < z)) as [|Hge].
  - exists 0%nat, z. split; [done|]. unfold sumZ. cbn. lia.
  - destruct (IH (t - z)) as (i & e & Hi & Hb); [lia|]. exists (S i), e. split; [done|]. cbn [take]. rewrite sumZ_cons. lia.
Qed.
Lemma partition_unique l t i j e f : Forall (λ z, 0 < z) l → l !! i = Some e → l !! j = Some f →
  sumZ (take i l) ≤ t < sumZ (take i l) + e → sumZ (take j l) ≤ t < sumZ (take j l) + f → i = j.
Proof.
  intros Hl Hi Hj H1 H2. assert (Hl' : Forall (λ z, 0 ≤ z) l) by (eapply Forall_impl; [exact Hl|]; cbn; lia).
  destruct (Nat.lt_trichotomy i j) as [Hlt|[->|Hlt]]; [exfalso|done|exfalso].
  - pose proof (sumZ_take_le l (S i) j Hl' Hlt). rewrite (sumZ_take_S _ _ _ Hi) in *. lia.
  - pose proof (sumZ_take_le l (S j) i Hl' Hlt). rewrite (sumZ_take_S _ _ _ Hj) in *. lia.
Qed.
End partition.

(** ** The snapshot *)

Record snapshot_entry_typed (e : PalwProviderSnapshotEntry) : Prop := {
  set_id : is_uint 64 (se_provider_id e);
  set_pk : is_uint 64 (se_ml_dsa_pk_hash e);
  set_bond : is_uint 8 (se_bond_sompi e);
  set_reward : is_uint 64 (se_reward_script_commitment e);
}.
Record interval_typed (iv : PalwAssignmentInterval) : Prop := {
  ivt_id : is_uint 64 (ai_provider_id iv);
  ivt_bond : is_uint 8 (ai_bond_sompi iv);
  ivt_lo : is_uint 16 (ai_cumulative_lo iv);
}.

Section snapshot.
Context `{Crypto}.

(** What the builder returns for the sorted entries with a bond. *)
Record snapshot_of (kept : list PalwProviderSnapshotEntry) (ivs : list PalwAssignmentInterval) (ws : PalwSnapshotWitnessSet) : Prop := {
  so_total : sc_total_bond (ws_commitment ws) = sumZ (se_bond_sompi <$> kept);
  so_ivs : length ivs = length kept;
  so_iv : ∀ i e, kept !! i = Some e → ∃ iv, ivs !! i = Some iv ∧ ai_provider_id iv = se_provider_id e ∧
    ai_bond_sompi iv = se_bond_sompi e ∧ ai_cumulative_lo iv = sumZ (se_bond_sompi <$> take i kept);
  so_snapshot : Nat.iter (Nat.log2_up (length kept)) (level_up (keyed_node PALW_SNAPSHOT_NODE_DOMAIN)) (palw_snapshot_entry_hash <$> kept) =
    [sc_snapshot_root (ws_commitment ws)];
  so_assignment : Nat.iter (Nat.log2_up (length ivs)) (level_up (keyed_node PALW_ASSIGNMENT_NODE_DOMAIN)) (palw_assignment_interval_hash <$> ivs) =
    [sc_assignment_root (ws_commitment ws)];
  so_slots : length (ws_slots ws) = length kept;
  so_slot : ∀ i e iv, kept !! i = Some e → ivs !! i = Some iv → ∃ slot, ws_slots ws !! i = Some slot ∧ sw_entry slot = e ∧ sw_interval slot = iv ∧
    verifies (sw_snapshot_membership slot) (sc_snapshot_root (ws_commitment ws)) (palw_snapshot_entry_hash e) PALW_SNAPSHOT_NODE_DOMAIN = true ∧
    verifies (sw_assignment_membership slot) (sc_assignment_root (ws_commitment ws)) (palw_assignment_interval_hash iv) PALW_ASSIGNMENT_NODE_DOMAIN = true;
}.

Lemma build_slots_ok {E} sl al sroot aroot k kept ivs : length ivs = length kept →
  (∀ i e, kept !! i = Some e → ∃ m, palw_pcpb_merkle_membership (E:=E) sl (k + i) = Ok m ∧
    verifies m sroot (palw_snapshot_entry_hash e) PALW_SNAPSHOT_NODE_DOMAIN = true) →
  (∀ i iv, ivs !! i = Some iv → ∃ m, palw_pcpb_merkle_membership (E:=E) al (k + i) = Ok m ∧
    verifies m aroot (palw_assignment_interval_hash iv) PALW_ASSIGNMENT_NODE_DOMAIN = true) →
  ∃ slots, build_slots (E:=E) sl al k kept ivs = Ok slots ∧ length slots = length kept ∧
    ∀ i e iv, kept !! i = Some e → ivs !! i = Some iv → ∃ slot, slots !! i = Some slot ∧ sw_entry slot = e ∧ sw_interval slot = iv ∧
      verifies (sw_snapshot_membership slot) sroot (palw_snapshot_entry_hash e) PALW_SNAPSHOT_NODE_DOMAIN = true ∧
      verifies (sw_assignment_membership slot) aroot (palw_assignment_interval_hash iv) PALW_ASSIGNMENT_NODE_DOMAIN = true.
Proof.
  revert k ivs. induction kept as [|e kept IH]; intros k [|iv ivs] Hl Hs Ha; try done.
  { exists []. done. }
  cbn [build_slots]. destruct (Hs 0%nat e eq_refl) as (sm & Hsm & Hsv), (Ha 0%nat iv eq_refl) as (am & Ham & Hav).
  rewrite Nat.add_0_r in Hsm, Ham. rewrite Hsm, Ham. cbn [mbind outcome_bind].
  destruct (IH (S k) ivs) as (slots & -> & Hls & Hslot); [by injection Hl|..].
  { intros i e' Hi. destruct (Hs (S i) e' Hi) as (m & Hm & ?). exists m. by rewrite <- Hm, <- Nat.add_succ_comm. }
  { intros i e' Hi. destruct (Ha (S i) e' Hi) as (m & Hm & ?). exists m. by rewrite <- Hm, <- Nat.add_succ_comm. }
  cbn [mbind outcome_bind]. eexists. split; [done|]. split; [cbn; by rewrite Hls|].
  intros [|i] e' iv' He Hiv; [injection He as <-; injection Hiv as <-; by eexists|]. by apply (Hslot i).
Qed.

Lemma head_last_levels {A} (f : nat → list A) d apex : f d = [apex] → last (f <$> seq 0 (S d)) ≫= head = Some apex.
Proof. intros Hd. rewrite seq_S, fmap_app. cbn. rewrite last_snoc. cbn. by rewrite Hd. Qed.

Lemma kept_bonds entries : Forall (λ e, 0 < se_bond_sompi e) (kept_entries entries).
Proof.
  unfold kept_entries. rewrite merge_sort_Permutation. apply Forall_forall. intros e [He _]%list_elem_of_filter. done.
Qed.
Lemma length_kept entries : (length (kept_entries entries) ≤ length entries)%nat.
Proof. unfold kept_entries. rewrite merge_sort_Permutation. apply length_filter. Qed.
Lemma kept_typed entries : Forall snapshot_entry_typed entries → Forall snapshot_entry_typed (kept_entries entries).
Proof.
  intros Ht. unfold kept_entries. rewrite merge_sort_Permutation. rewrite Forall_forall in Ht. apply Forall_forall.
  intros e [_ He]%list_elem_of_filter. by apply Ht.
Qed.
Lemma bonds_bound kept : Forall snapshot_entry_typed kept → len kept < 2 ^ 32 → sumZ (se_bond_sompi <$> kept) ≤ 2 ^ 96.
Proof.
  intros Ht Hl. assert (sumZ (se_bond_sompi <$> kept) ≤ len kept * 2 ^ 64); [|nia].
  clear Hl. induction Ht as [|e kept He Ht IH]; [done|]. rewrite fmap_cons, sumZ_cons. cbn [length].
  destruct He as [_ _ Hb _]. unfold is_uint in Hb. lia.
Qed.

Lemma build_snapshot_ok {E} entries : Forall snapshot_entry_typed entries → len entries < 2 ^ 32 → kept_entries entries ≠ [] →
  ∃ ws ivs, palw_build_snapshot_witnesses (E:=E) entries = Ok ws ∧ snapshot_of (kept_entries entries) ivs ws.
Proof.
  intros Ht Hl Hne. unfold palw_build_snapshot_witnesses.
  pose proof (kept_bonds entries) as Hb. pose proof (kept_typed entries Ht) as Hkt. pose proof (length_kept entries) as Hkl.
  destruct (kept_entries entries) as [|e0 k0] eqn:Ek; [done|]. rewrite <- Ek in *. clear Ek e0 k0. set (kept := kept_entries entries) in *.
  destruct (assignment_intervals_ok (E:=E) 0 kept ltac:(lia) Hb) as (ivs & -> & Hli & Hiv).
  { pose proof (bonds_bound kept Hkt ltac:(lia)). unfold U128_MAX. lia. }
  cbn [mbind outcome_bind].
  destruct (merkle_levels_ok PALW_SNAPSHOT_NODE_DOMAIN (E:=E) (length kept) (palw_snapshot_entry_hash <$> kept)) as (a1 & -> & Hd1).
  { intros [=]%fmap_nil_inv. by apply Hne. } { rewrite length_fmap. lia. }
  cbn [mbind outcome_bind].
  destruct (merkle_levels_ok PALW_ASSIGNMENT_NODE_DOMAIN (E:=E) (length kept) (palw_assignment_interval_hash <$> ivs)) as (a2 & -> & Hd2).
  { intros ->%fmap_nil_inv. cbn in Hli. symmetry in Hli. by apply nil_length_inv in Hli. } { rewrite length_fmap. lia. }
  rewrite length_fmap in Hd1. rewrite length_fmap in Hd2. rewrite !length_fmap.
  set (d1 := Nat.log2_up (length kept)) in *. set (d2 := Nat.log2_up (length ivs)) in *.
  cbn [mbind outcome_bind]. rewrite !(head_last_levels (λ k, Nat.iter k _ _) _ _ Hd1), !(head_last_levels (λ k, Nat.iter k _ _) _ _ Hd2).
  cbn [unwrap mbind outcome_bind].
  destruct (build_slots_ok (E:=E) ((λ k, Nat.iter k (level_up (keyed_node PALW_SNAPSHOT_NODE_DOMAIN)) (palw_snapshot_entry_hash <$> kept)) <$> seq 0 (S d1))
    ((λ k, Nat.iter k (level_up (keyed_node PALW_ASSIGNMENT_NODE_DOMAIN)) (palw_assignment_interval_hash <$> ivs)) <$> seq 0 (S d2)) a1 a2 0 kept ivs Hli)
    as (slots & -> & Hls & Hslot).
  { intros i e Hi. change (0 + i)%nat with i. apply (membership_ok PALW_SNAPSHOT_NODE_DOMAIN); [done|by rewrite list_lookup_fmap, Hi|].
    apply lookup_lt_Some in Hi. lia. }
  { intros i iv Hi. change (0 + i)%nat with i. apply (membership_ok PALW_ASSIGNMENT_NODE_DOMAIN); [done|by rewrite list_lookup_fmap, Hi|].
    apply lookup_lt_Some in Hi. lia. }
  cbn [mbind outcome_bind]. eexists _, ivs. split; [done|]. split; cbn -[sumZ Z.add]; [lia|done| |done..].
  intros i e Hi. destruct (Hiv i e Hi) as (iv & ? & ? & ? & Hlo). exists iv. by rewrite Z.add_0_l in Hlo.
Qed.
End snapshot.

(** ** The draw *)

Section draw.
Context `{Crypto}.

Lemma reduce_bound seed total : 0 < total → 0 ≤ reduce_hash_to_bond seed total < total.
Proof. intros Ht. unfold reduce_hash_to_bond. pose proof (Z.mod_pos_bound (le_val (take 16 (hash64_bytes seed))) (Z.max total 1)). lia. Qed.

Context (kept : list PalwProviderSnapshotEntry) (ivs : list PalwAssignmentInterval) (ws : PalwSnapshotWitnessSet).
Hypothesis Hws : snapshot_of kept ivs ws.
Hypothesis Hbonds : Forall (λ e, 0 < se_bond_sompi e) kept.
Hypothesis Htotal : sumZ (se_bond_sompi <$> kept) ≤ 2 ^ 96.

Lemma bonds_pos : Forall (λ z, 0 < z) (se_bond_sompi <$> kept).
Proof using Hbonds. by apply Forall_fmap. Qed.
Lemma bonds_nonneg : Forall (λ z, 0 ≤ z) (se_bond_sompi <$> kept).
Proof using Hbonds. eapply Forall_impl; [exact bonds_pos|]. cbn. lia. Qed.

Lemma total_pos : kept ≠ [] → 0 < sumZ (se_bond_sompi <$> kept).
Proof using Hbonds. intros Hne. apply sumZ_pos; [exact bonds_pos|]. by intros ?%fmap_nil_inv. Qed.

Lemma interval_contains_iff i iv t : ivs !! i = Some iv →
  interval_contains iv t = true ↔ ∃ e, kept !! i = Some e ∧
    sumZ (se_bond_sompi <$> take i kept) ≤ t < sumZ (se_bond_sompi <$> take i kept) + se_bond_sompi e.
Proof using Hws Hbonds Htotal.
  intros Hiv. destruct (lookup_lt_is_Some_2 kept i) as [e He].
  { rewrite <- (so_ivs _ _ _ Hws). by eapply lookup_lt_Some. }
  destruct (so_iv _ _ _ Hws i e He) as (iv' & Hiv' & _ & Hb & Hlo). rewrite Hiv in Hiv'. injection Hiv' as <-.
  unfold interval_contains. rewrite Hlo, Hb. unfold sat_add128.
  pose proof (sumZ_take_S (se_bond_sompi <$> kept) i (se_bond_sompi e)) as Hs. rewrite list_lookup_fmap, He in Hs. specialize (Hs eq_refl).
  pose proof (sumZ_take_le (se_bond_sompi <$> kept) (S i) (length kept) bonds_nonneg) as Hle.
  rewrite (take_ge _ (length kept)) in Hle by (by rewrite length_fmap).
  specialize (Hle ltac:(by apply lookup_lt_Some in He; lia)). rewrite Hs in Hle. rewrite <- fmap_take in Hle.
  rewrite Z.min_l by (unfold U128_MAX; lia). rewrite andb_true_iff, Z.leb_le, Z.ltb_lt.
  split; [intros; by exists e|]. intros (e' & He' & ?). rewrite He in He'. by injection He' as <-.
Qed.

Lemma interval_unique i j iv iv' t : ivs !! i = Some iv → ivs !! j = Some iv' →
  interval_contains iv t = true → interval_contains iv' t = true → i = j.
Proof using Hws Hbonds Htotal.
  intros Hi Hj (e & He & H1)%(interval_contains_iff _ _ _ Hi) (f & Hf & H2)%(interval_contains_iff _ _ _ Hj).
  rewrite fmap_take in H1, H2.
  eapply (partition_unique (se_bond_sompi <$> kept)); [exact bonds_pos|by rewrite list_lookup_fmap, He|by rewrite list_lookup_fmap, Hf|done|done].
Qed.

Lemma slot_at i s : ws_slots ws !! i = Some s → ∃ e iv, kept !! i = Some e ∧ ivs !! i = Some iv ∧ sw_entry s = e ∧ sw_interval s = iv.
Proof using Hws.
  intros Hs. pose proof (lookup_lt_Some _ _ _ Hs) as Hlt. rewrite (so_slots _ _ _ Hws) in Hlt.
  destruct (lookup_lt_is_Some_2 kept i Hlt) as [e He]. rewrite <- (so_ivs _ _ _ Hws) in Hlt.
  destruct (lookup_lt_is_Some_2 ivs i Hlt) as [iv Hiv]. destruct (so_slot _ _ _ Hws i e iv He Hiv) as (s' & Hs' & ? & ? & _).
  rewrite Hs in Hs'. injection Hs' as <-. eauto 10.
Qed.

(** The draw selects the interval that holds the ticket. *)
Lemma select_iff seed i : select ws seed = Some i ↔ kept ≠ [] ∧ ∃ iv, ivs !! i = Some iv ∧
  interval_contains iv (reduce_hash_to_bond seed (sumZ (se_bond_sompi <$> kept))) = true.
Proof using Hws Hbonds Htotal.
  unfold select. rewrite (so_total _ _ _ Hws). set (t := reduce_hash_to_bond seed _).
  destruct (decide (kept = [])) as [Ek|Ek].
  { rewrite Ek. cbn. split; [done|]. intros [? _]. done. }
  pose proof (total_pos Ek) as Hpos.
  destruct (Z.eqb_spec (sumZ (se_bond_sompi <$> kept)) 0); [lia|]. rewrite position_Some. split.
  - intros [(s & Hs & Hc) _]. split; [done|]. destruct (slot_at i s Hs) as (e & iv & _ & Hiv & _ & <-). by exists (sw_interval s).
  - intros [_ (iv & Hiv & Hc)]. split.
    + destruct (lookup_lt_is_Some_2 kept i) as [e He]; [rewrite <- (so_ivs _ _ _ Hws); by eapply lookup_lt_Some|].
      destruct (so_slot _ _ _ Hws i e iv He Hiv) as (s & Hs & _ & <- & _). by exists s.
    + intros j s Hlt Hs. destruct (slot_at j s Hs) as (e & iv' & _ & Hiv' & _ & <-).
      destruct (interval_contains (sw_interval s) t) eqn:Hc'; [|done]. pose proof (interval_unique _ _ _ _ _ Hiv Hiv' Hc Hc'). lia.
Qed.
Lemma select_total seed : kept ≠ [] → ∃ i, select ws seed = Some i.
Proof using Hws Hbonds Htotal.
  intros Hne. pose proof (total_pos Hne) as Hpos.
  destruct (partition_find _ _ bonds_pos (reduce_bound seed _ Hpos)) as (i & b & Hi & Hb).
  rewrite list_lookup_fmap in Hi. destruct (kept !! i) as [e|] eqn:He; [|done]. injection Hi as <-.
  destruct (so_iv _ _ _ Hws i e He) as (iv & Hiv & _). exists i. apply select_iff. split; [done|]. exists iv. split; [done|].
  apply (interval_contains_iff i iv _ Hiv). exists e. by rewrite fmap_take.
Qed.
End draw.

(** ** Evidence *)

Section membership_sound.
Context `{Crypto} {T : Type} (leaf_domain node_domain : list byte) (str : T → list byte) (typed : T → Prop).
Hypothesis str_inj : ∀ a b, typed a → typed b → str a = str b → a = b.

(** A hashed string of the proof collides with one of the tree, or a leaf of
    the one has the digest of a node of the other. *)
Definition membership_collision (items : list T) (w : T) (m : PalwMerkleMembership) : Prop :=
  let leaf t := blake2b_512_keyed leaf_domain (str t) in
  let path := path_pairs (keyed_node node_domain) (Z.to_nat (mm_index m)) (mm_siblings m) (leaf w) in
  let tree := tree_pairs (keyed_node node_domain) (Nat.log2_up (length items)) (leaf <$> items) in
  keyed_collision leaf_domain [str w] (str <$> items) ∨
  keyed_collision node_domain (node_string <$> path) (node_string <$> tree) ∨
  (∃ q, q ∈ tree ∧ leaf w = keyed_node node_domain q.1 q.2) ∨
  (∃ p t, p ∈ path ∧ t ∈ items ∧ keyed_node node_domain p.1 p.2 = leaf t).

Lemma pair_collision_strings l1 l2 :
  Forall (λ p, is_uint 64 p.1 ∧ is_uint 64 p.2) l1 → Forall (λ p, is_uint 64 p.1 ∧ is_uint 64 p.2) l2 →
  pair_collision (keyed_node node_domain) l1 l2 → keyed_collision node_domain (node_string <$> l1) (node_string <$> l2).
Proof using Type.
  rewrite !Forall_forall. intros H1 H2 ([a b] & [c d] & Hp & Hq & Hne & Heq).
  exists (node_string (a, b)), (node_string (c, d)). split; [by apply list_elem_of_fmap_2|]. split; [by apply list_elem_of_fmap_2|].
  split; [|done]. intros Hs. apply Hne. destruct (H1 _ Hp) as [Ha Hb], (H2 _ Hq) as [Hc Hd]. unfold node_string in Hs. cbn in *.
  apply prefix_code in Hs as [-> Hs]; [|done..]. apply (f_equal (λ l, l ++ [])) in Hs. by apply prefix_code in Hs as [-> _].
Qed.

Lemma verifies_sound items w m root :
  let leaf t := blake2b_512_keyed leaf_domain (str t) in
  Nat.iter (Nat.log2_up (length items)) (level_up (keyed_node node_domain)) (leaf <$> items) = [root] →
  verifies m root (leaf w) node_domain = true → Forall (is_uint 64) (mm_siblings m) → typed w → Forall typed items →
  w ∈ items ∨ membership_collision items w m.
Proof using str_inj.
  intros leaf Hap Hv Hs Hw Hi. unfold verifies, fold_to_root in Hv. apply andb_true_iff in Hv as [Hl%Z.eqb_eq Hf%Z.eqb_eq].
  rewrite Hl in Hf. unfold membership_collision. fold leaf.
  destruct (fold_path_any (keyed_node node_domain) _ _ _ _ _ _ Hap Hf) as [Hx|[Hc|[(q & Hq & Heq)|(p & Hp & Hin)]]].
  - apply list_elem_of_fmap in Hx as (t & Heq & Ht).
    apply (keyed_eq _ _ _ [str w] (str <$> items)) in Heq as [Heq|]; [|right; by left|set_solver|by apply list_elem_of_fmap_2].
    left. rewrite Forall_forall in Hi. by rewrite (str_inj w t Hw (Hi _ Ht) Heq).
  - right; right; left. apply pair_collision_strings, Hc.
    + apply path_pairs_all; [intros; apply keyed_is_uint|apply keyed_is_uint|done].
    + apply tree_pairs_all; [intros; apply keyed_is_uint|]. apply Forall_fmap, Forall_true. intros ?. apply keyed_is_uint.
  - right; right; right; left. by exists q.
  - right; right; right; right. apply list_elem_of_fmap in Hin as (t & Heq & Ht). by exists p, t.
Qed.
End membership_sound.

Lemma snapshot_entry_string_inj a b : snapshot_entry_typed a → snapshot_entry_typed b →
  snapshot_entry_string a = snapshot_entry_string b → a = b.
Proof.
  destruct a as [a1 a2 a3 a4], b as [b1 b2 b3 b4]. intros [] []. unfold snapshot_entry_string. cbn in *. intros Hs.
  apply prefix_code in Hs as [-> Hs]; [|done..]. apply prefix_code in Hs as [-> Hs]; [|done..].
  apply prefix_code in Hs as [-> Hs]; [|done..]. apply (f_equal (λ l, l ++ [])) in Hs. by apply prefix_code in Hs as [-> _].
Qed.
Lemma assignment_interval_string_inj a b : interval_typed a → interval_typed b →
  assignment_interval_string a = assignment_interval_string b → a = b.
Proof.
  destruct a as [a1 a2 a3], b as [b1 b2 b3]. intros [] []. unfold assignment_interval_string. cbn in *. intros Hs.
  apply prefix_code in Hs as [-> Hs]; [|done..]. apply prefix_code in Hs as [-> Hs]; [|done..].
  apply (f_equal (λ l, l ++ [])) in Hs. by apply prefix_code in Hs as [-> _].
Qed.

(** What one slot of an evidence must show. *)
Record slot_typed (w : SlotAssignmentWitness) : Prop := {
  st_entry : snapshot_entry_typed (sw_entry w);
  st_interval : interval_typed (sw_interval w);
  st_snapshot : Forall (is_uint 64) (mm_siblings (sw_snapshot_membership w));
  st_assignment : Forall (is_uint 64) (mm_siblings (sw_assignment_membership w));
}.
Definition slot_collision `{Crypto} (kept : list PalwProviderSnapshotEntry) (ivs : list PalwAssignmentInterval) (w : SlotAssignmentWitness) : Prop :=
  membership_collision PALW_SNAPSHOT_LEAF_DOMAIN PALW_SNAPSHOT_NODE_DOMAIN snapshot_entry_string kept (sw_entry w) (sw_snapshot_membership w) ∨
  membership_collision PALW_ASSIGNMENT_LEAF_DOMAIN PALW_ASSIGNMENT_NODE_DOMAIN assignment_interval_string ivs (sw_interval w) (sw_assignment_membership w).

(** The entry that a seed draws from a snapshot. *)
Definition drawn (ws : PalwSnapshotWitnessSet) (seed : Hash64) (e : PalwProviderSnapshotEntry) : Prop :=
  ∃ i s, select ws seed = Some i ∧ ws_slots ws !! i = Some s ∧ sw_entry s = e.

Section slots.
Context `{Crypto} (kept : list PalwProviderSnapshotEntry) (ivs : list PalwAssignmentInterval) (ws : PalwSnapshotWitnessSet).
Hypothesis Hws : snapshot_of kept ivs ws.
Hypothesis Hbonds : Forall (λ e, 0 < se_bond_sompi e) kept.
Hypothesis Hkt : Forall snapshot_entry_typed kept.
Hypothesis Hlen : len kept < 2 ^ 32.
Hypothesis Hids : NoDup (se_provider_id <$> kept).

Lemma ivs_typed : Forall interval_typed ivs.
Proof using Hws Hbonds Hkt Hlen.
  apply Forall_lookup_2. intros i iv Hiv. destruct (lookup_lt_is_Some_2 kept i) as [e He].
  { rewrite <- (so_ivs _ _ _ Hws). by eapply lookup_lt_Some. }
  destruct (so_iv _ _ _ Hws i e He) as (iv' & Hiv' & Hid & Hb & Hlo). rewrite Hiv in Hiv'. injection Hiv' as <-.
  destruct (Forall_lookup_1 _ _ _ _ Hkt He) as [H1 _ H3 _]. split; [by rewrite Hid|by rewrite Hb|].
  rewrite Hlo. pose proof (bonds_nonneg kept Hbonds) as Hn.
  pose proof (sumZ_take_le (se_bond_sompi <$> kept) i (length kept) Hn) as Hle.
  specialize (Hle ltac:(apply lookup_lt_Some in He; lia)). rewrite (take_ge _ (length kept)) in Hle by (by rewrite length_fmap).
  pose proof (bonds_bound kept Hkt Hlen). rewrite <- fmap_take in Hle. unfold is_uint.
  assert (0 ≤ sumZ (se_bond_sompi <$> take i kept)) by (apply sumZ_nonneg; rewrite fmap_take; by apply Forall_take).
  change (256 ^ Z.of_nat 16) with (2 ^ 128). lia.
Qed.

(** The drawn slot verifies ... *)
Lemma drawn_slot_valid seed i s : select ws seed = Some i → ws_slots ws !! i = Some s →
  slot_witness_valid s (sc_snapshot_root (ws_commitment ws)) (sc_assignment_root (ws_commitment ws)) (sc_total_bond (ws_commitment ws)) seed = true.
Proof using Hws Hbonds Hkt Hlen.
  intros Hsel Hs. pose proof (bonds_bound kept Hkt Hlen) as Htot.
  apply (select_iff kept ivs ws Hws Hbonds Htot) in Hsel as [_ (iv & Hiv & Hc)].
  destruct (slot_at kept ivs ws Hws i s Hs) as (e & iv' & He & Hiv' & He' & Hi'). rewrite Hiv in Hiv'. injection Hiv' as <-.
  destruct (so_slot _ _ _ Hws i e iv He Hiv) as (s' & Hs' & _ & _ & Hv1 & Hv2). rewrite Hs in Hs'. injection Hs' as <-.
  destruct (so_iv _ _ _ Hws i e He) as (iv' & Hiv' & Hid & Hb & _). rewrite Hiv in Hiv'. injection Hiv' as <-.
  unfold slot_witness_valid. rewrite He', Hi', Hv1, Hv2, Hid, Hb, !Z.eqb_refl, (so_total _ _ _ Hws). cbn [andb]. exact Hc.
Qed.

(** ... and no other does. *)
Lemma valid_slot_drawn seed w : slot_typed w →
  slot_witness_valid w (sc_snapshot_root (ws_commitment ws)) (sc_assignment_root (ws_commitment ws)) (sc_total_bond (ws_commitment ws)) seed = true →
  drawn ws seed (sw_entry w) ∨ slot_collision kept ivs w.
Proof using Hws Hbonds Hkt Hlen Hids.
  intros [Ht1 Ht2 Ht3 Ht4] Hv. pose proof (bonds_bound kept Hkt Hlen) as Htot.
  unfold slot_witness_valid in Hv. rewrite !andb_true_iff in Hv. destruct Hv as ((((Hid%Z.eqb_eq & Hb%Z.eqb_eq) & Hv1) & Hv2) & Hc).
  destruct (verifies_sound PALW_SNAPSHOT_LEAF_DOMAIN PALW_SNAPSHOT_NODE_DOMAIN snapshot_entry_string snapshot_entry_typed snapshot_entry_string_inj
    kept (sw_entry w) _ _ (so_snapshot _ _ _ Hws) Hv1 Ht3 Ht1 Hkt) as [He|]; [|right; by left].
  destruct (verifies_sound PALW_ASSIGNMENT_LEAF_DOMAIN PALW_ASSIGNMENT_NODE_DOMAIN assignment_interval_string interval_typed assignment_interval_string_inj
    ivs (sw_interval w) _ _ (so_assignment _ _ _ Hws) Hv2 Ht4 Ht2 ivs_typed) as [Hi|]; [|right; by right].
  left. apply list_elem_of_lookup in Hi as [i Hi]. rewrite (so_total _ _ _ Hws) in Hc.
  destruct (lookup_lt_is_Some_2 kept i) as [e' He']; [rewrite <- (so_ivs _ _ _ Hws); by eapply lookup_lt_Some|].
  destruct (so_iv _ _ _ Hws i e' He') as (iv & Hiv & Hid' & _). rewrite Hi in Hiv. injection Hiv as <-.
  assert (sw_entry w = e') as Heq.
  { apply list_elem_of_lookup in He as [j Hj]. assert (j = i) as ->; [|congruence].
    eapply (NoDup_lookup (se_provider_id <$> kept)); [done| |].
    - rewrite list_lookup_fmap, Hj. reflexivity.
    - rewrite list_lookup_fmap, He'. cbn. congruence. }
  destruct (so_slot _ _ _ Hws i e' _ He' Hi) as (s & Hs & Hse & _). exists i, s. rewrite Hse. split; [|done].
  apply (select_iff kept ivs ws Hws Hbonds Htot). split; [by intros ->|]. by exists (sw_interval w).
Qed.
End slots.

Lemma snapshot_slots `{Crypto} kept ivs ws : snapshot_of kept ivs ws → kept = sw_entry <$> ws_slots ws ∧ ivs = sw_interval <$> ws_slots ws.
Proof.
  intros Hws. split; apply list_eq; intros i; rewrite list_lookup_fmap; destruct (ws_slots ws !! i) as [s|] eqn:Hs; cbn.
  1,3: destruct (slot_at kept ivs ws Hws i s Hs) as (e & iv & He & Hiv & <- & <-); done.
  all: apply lookup_ge_None in Hs; apply lookup_ge_None; rewrite (so_slots _ _ _ Hws) in Hs; rewrite ?(so_ivs _ _ _ Hws); done.
Qed.

Definition evidence_typed (ev : PalwDispatchEvidence) : Prop :=
  match ev with
  | BeaconAssigned p => slot_typed (slot_a p) ∧ slot_typed (slot_b p)
  | SelfSerial p => slot_typed (mkSlotWitness (ss_b_entry p) (ss_b_snapshot_membership p) (ss_b_interval p) (ss_b_assignment_membership p))
  end.
Definition evidence_slots (ev : PalwDispatchEvidence) : list SlotAssignmentWitness :=
  match ev with
  | BeaconAssigned p => [slot_a p; slot_b p]
  | SelfSerial p => [mkSlotWitness (ss_b_entry p) (ss_b_snapshot_membership p) (ss_b_interval p) (ss_b_assignment_membership p)]
  end.
(** What accepted evidence says of the job. *)
Definition dispatched `{Crypto} (verify : list byte → list byte → list byte → list byte → bool) (ws : PalwSnapshotWitnessSet)
    (beacon a_commit : Hash64) (ev : PalwDispatchEvidence) : Prop :=
  match ev with
  | BeaconAssigned p =>
    drawn ws (palw_assignment_draw_seed beacon 0) (sw_entry (slot_a p)) ∧
    drawn ws (palw_assignment_draw_seed beacon 1) (sw_entry (slot_b p)) ∧
    se_provider_id (sw_entry (slot_a p)) ≠ se_provider_id (sw_entry (slot_b p))
  | SelfSerial p =>
    drawn ws (palw_pcpb_derive_b beacon a_commit) (ss_b_entry p) ∧
    palw_provider_pk_hash (ss_b_ml_dsa_pk p) = se_ml_dsa_pk_hash (ss_b_entry p) ∧
    (∃ tail, ss_b_receipt_preimage p = palw_pcpb_receipt_preimage a_commit tail) ∧
    verify (ss_b_ml_dsa_pk p) (ss_b_receipt_preimage p) PALW_PCPB_RECEIPT_MLDSA87_CONTEXT (ss_b_signature p) = true
  end.

Lemma receipt_embeds preimage a_commit : palw_receipt_embeds_a_commit preimage a_commit = true →
  ∃ tail, preimage = palw_pcpb_receipt_preimage a_commit tail.
Proof.
  unfold palw_receipt_embeds_a_commit. rewrite !andb_true_iff, !bool_decide_eq_true. intros [[_ Ht] Hc].
  exists (drop (length PALW_PCPB_RECEIPT_TAG + HASH64_SIZE) preimage). unfold palw_pcpb_receipt_preimage, push_hash.
  rewrite <- Hc, <- Ht at 1. rewrite <- (take_drop (length PALW_PCPB_RECEIPT_TAG) preimage) at 1. f_equal.
  rewrite <- drop_drop. by rewrite take_drop.
Qed.

Section evidence.
Context `{Crypto} (verify : list byte → list byte → list byte → list byte → bool).

(** C33. The dispatch evidence of a job is sound and complete for the
    bond-weighted draw. For a snapshot of bonded providers with distinct ids the
    canonical builder succeeds and every seed draws exactly one provider; the
    two slots that the beacon draws are accepted as evidence when they differ;
    and accepted evidence names the drawn providers: two different ones, or one
    whose committed key signed a receipt that embeds the requester's
    commitment, unless a string hashed for a membership proof collides with one
    hashed for the snapshot. *)
Theorem dispatch_evidence_exact entries :
  Forall snapshot_entry_typed entries → len entries < 2 ^ 32 → NoDup (se_provider_id <$> entries) →
  Exists (λ e, 0 < se_bond_sompi e) entries →
  ∃ ws, palw_build_snapshot_witnesses (E:=unit) entries = Ok ws ∧
  let c := ws_commitment ws in
  let valid ev beacon a_commit := palw_dispatch_evidence_valid verify ev (sc_snapshot_root c) (sc_assignment_root c) (sc_total_bond c)
    beacon (sc_snapshot_root c) (sc_assignment_root c) a_commit in
  (∀ seed, ∃ i s, select ws seed = Some i ∧ ws_slots ws !! i = Some s ∧ sw_entry s ∈ entries) ∧
  (∀ beacon a_commit i j a b, select ws (palw_assignment_draw_seed beacon 0) = Some i → ws_slots ws !! i = Some a →
    select ws (palw_assignment_draw_seed beacon 1) = Some j → ws_slots ws !! j = Some b → i ≠ j →
    valid (BeaconAssigned (mkBeaconAssigned a b)) beacon a_commit = true) ∧
  (∀ ev beacon a_commit, evidence_typed ev → valid ev beacon a_commit = true →
    dispatched verify ws beacon a_commit ev ∨
    Exists (slot_collision (sw_entry <$> ws_slots ws) (sw_interval <$> ws_slots ws)) (evidence_slots ev)).
Proof.
  intros Ht Hl Hnd Hex. assert (Hne : kept_entries entries ≠ []).
  { apply Exists_exists in Hex as (e & He & Hb). intros Hk. assert (e ∈ kept_entries entries) as Hin.
    { unfold kept_entries. rewrite merge_sort_Permutation. by apply list_elem_of_filter. }
    rewrite Hk in Hin. by apply not_elem_of_nil in Hin. }
  destruct (build_snapshot_ok (E:=unit) entries Ht Hl Hne) as (ws & ivs & Hb & Hws). exists ws. split; [done|]. intros c valid.
  destruct (snapshot_slots _ _ _ Hws) as [Hk Hi]. set (kept := kept_entries entries) in *.
  pose proof (kept_bonds entries) as Hbonds. pose proof (kept_typed entries Ht) as Hkt. pose proof (length_kept entries) as Hkl.
  fold kept in Hbonds, Hkt, Hkl. assert (Hlen : len kept < 2 ^ 32) by lia. pose proof (bonds_bound kept Hkt Hlen) as Htot.
  assert (Hsub : kept ⊆ entries).
  { intros e He. unfold kept, kept_entries in He. rewrite merge_sort_Permutation in He. by apply list_elem_of_filter in He as [_ He]. }
  assert (Hids : NoDup (se_provider_id <$> kept)).
  { unfold kept, kept_entries. rewrite merge_sort_Permutation. eapply sublist_NoDup; [exact Hnd|]. apply fmap_sublist, sublist_filter. }
  assert (Hpos : sc_total_bond c ≠ 0).
  { unfold c. rewrite (so_total _ _ _ Hws). pose proof (total_pos kept Hbonds Hne). lia. }
  split; [|split].
  - intros seed. destruct (select_total kept ivs ws Hws Hbonds Htot seed Hne) as [i Hsel].
    pose proof Hsel as [_ (iv & Hiv & _)]%(select_iff kept ivs ws Hws Hbonds Htot).
    destruct (lookup_lt_is_Some_2 (ws_slots ws) i) as [s Hs].
    { rewrite (so_slots _ _ _ Hws), <- (so_ivs _ _ _ Hws). by eapply lookup_lt_Some. }
    exists i, s. split; [done|]. split; [done|]. apply Hsub.
    destruct (slot_at kept ivs ws Hws i s Hs) as (e & _ & He & _ & <- & _). by eapply list_elem_of_lookup_2.
  - intros beacon a_commit i j a b Hi' Ha Hj' Hb' Hij. unfold valid, palw_dispatch_evidence_valid. rewrite !Z.eqb_refl. cbn [negb orb].
    destruct (Z.eqb_spec (sc_total_bond c) 0); [done|]. cbn [slot_a slot_b]. unfold c.
    rewrite (drawn_slot_valid kept ivs ws Hws Hbonds Hkt Hlen _ i a Hi' Ha), (drawn_slot_valid kept ivs ws Hws Hbonds Hkt Hlen _ j b Hj' Hb').
    cbn [andb]. apply negb_true_iff, Z.eqb_neq. intros Heq. apply Hij.
    eapply (NoDup_lookup (se_provider_id <$> kept)); [done|..]; rewrite Hk, !list_lookup_fmap, ?Ha, ?Hb'; cbn; by rewrite ?Heq.
  - intros ev beacon a_commit Hty. unfold valid, palw_dispatch_evidence_valid. rewrite !Z.eqb_refl. cbn [negb orb].
    destruct (Z.eqb_spec (sc_total_bond c) 0); [done|]. rewrite <- Hk, <- Hi.
    destruct ev as [p|p]; cbn [evidence_slots dispatched].
    + rewrite !andb_true_iff, negb_true_iff, Z.eqb_neq. intros [[Hva Hvb] Hne']. destruct Hty as [Hta Htb].
      destruct (valid_slot_drawn kept ivs ws Hws Hbonds Hkt Hlen Hids _ _ Hta Hva) as [Hda|]; [|right; by left].
      destruct (valid_slot_drawn kept ivs ws Hws Hbonds Hkt Hlen Hids _ _ Htb Hvb) as [Hdb|]; [by left|right; right; by left].
    + destruct (Z.eqb_spec (ss_a_commit p) a_commit) as [->|]; [|done]. cbn [negb].
      rewrite !andb_true_iff. intros [[[Hv Hpk%Z.eqb_eq] Hrec] Hsig].
      destruct (valid_slot_drawn kept ivs ws Hws Hbonds Hkt Hlen Hids (palw_pcpb_derive_b beacon a_commit) _ Hty) as [Hd|]; [|left|right; by left].
      { unfold slot_witness_valid. cbn [sw_entry sw_interval sw_snapshot_membership sw_assignment_membership].
        rewrite !andb_true_iff. unfold c in Hv. tauto. }
      split; [done|]. split; [done|]. split; [by apply receipt_embeds|done].
Qed.
End evidence.

(** Three providers, one of them without a bond. *)
Definition three_entries : list PalwProviderSnapshotEntry :=
  [mkSnapshotEntry 7 70 5 700; mkSnapshotEntry 3 30 0 300; mkSnapshotEntry 9 90 2 900].
Lemma dispatch_evidence_exact_witness :
  ∃ ws, palw_build_snapshot_witnesses (H:=toy_crypto) (E:=unit) three_entries = Ok ws ∧
    ∀ seed, ∃ i s, select ws seed = Some i ∧ ws_slots ws !! i = Some s ∧ sw_entry s ∈ three_entries.
Proof.
  destruct (dispatch_evidence_exact (H:=toy_crypto) (λ _ _ _ _, true) three_entries) as (ws & Hb & Hd & _).
  - repeat constructor; unfold is_uint; cbn; lia.
  - cbn. lia.
  - cbn. apply (bool_decide_unpack _). vm_compute. exact I.
  - left. cbn. lia.
  - exact (ex_intro _ ws (conj Hb Hd)).
Defined.
