(* ===== verification/PalwBeacon.v ===== *)
(** * PALW: the epoch beacon

    Models the beacon of [src/consensus/core/src/palw.rs]: seeds, modes,
    commitments and reveals, the state of an epoch derived from the previous
    one, the accumulator of an epoch, checkpoints and the linkage check of a
    proof bundle, and the carry-run signal that closes the lane. *)

From stdpp Require Import base list gmap sets sorting strings.
From Stdlib Require Import ZArith Lia.
From S2P Require Import Prelude Tx Bytes Hashing Uint Palw PalwLeafTree.

Local Open Scope Z_scope.

Definition PALW_BEACON_DOMAIN : list byte := b_ "misaka-palw-beacon-v1".
Definition PALW_BEACON_COMMIT_DOMAIN : list byte := b_ "misaka-palw-beacon-commit-v1".
Definition PALW_DNS_CERT_DOMAIN : list byte := b_ "misaka-palw-dns-cert-v1".
Definition PALW_BEACON_COMMIT_SIGNING_DOMAIN : list byte := b_ "misaka-palw-beacon-commit-sign-v1".
Definition PALW_BEACON_REVEAL_SIGNING_DOMAIN : list byte := b_ "misaka-palw-beacon-reveal-sign-v1".
Definition PALW_BEACON_REVEAL_ENTROPY_DOMAIN : list byte := b_ "misaka-palw-beacon-reveal-entropy-v1".
Definition PALW_BEACON_REVEALS_ROOT_DOMAIN : list byte := b_ "misaka-palw-beacon-reveals-root-v1".
Definition PALW_BEACON_MISSING_ROOT_DOMAIN : list byte := b_ "misaka-palw-beacon-missing-root-v1".
Definition PALW_BEACON_COMMIT_LEAD_EPOCHS : Z := 2.
Definition PALW_BEACON_REVEAL_LEAD_EPOCHS : Z := 1.
Definition PALW_EPOCH_PROOF_BUNDLE_VERSION_V2 : Z := 2.

(** ** Modes *)

Inductive PalwBeaconMode : Type := Healthy | DegradedGrace | Halted.
#[export] Instance beacon_mode_eq_dec : EqDecision PalwBeaconMode.
Proof. solve_decision. Defined.
Definition beacon_mode_to_u8 (m : PalwBeaconMode) : Z := match m with Healthy => 0 | DegradedGrace => 1 | Halted => 2 end.
Definition beacon_mode_from_u8 (v : Z) : option PalwBeaconMode :=
  if v =? 0 then Some Healthy else if v =? 1 then Some DegradedGrace else if v =? 2 then Some Halted else None.
Definition beacon_mode (dns_healthy quorum_reached : bool) (degraded_epochs grace_epochs : Z) : PalwBeaconMode :=
  if dns_healthy && quorum_reached then Healthy
  else if degraded_epochs <=? grace_epochs then DegradedGrace
  else Halted.
Definition effective_compute_work_scale (base_scale : Z) (mode : PalwBeaconMode) : Z :=
  match mode with Healthy => base_scale | DegradedGrace => base_scale / 2 | Halted => 0 end.

(** The run of equal seeds that ends at the newest sample; samples are oldest
    first. *)
Fixpoint oldest_equal (newest_seed : Hash64) (oldest : Z) (older : list (Z * Hash64)) : Z :=
  match older with
  | [] => oldest
  | (epoch, seed) :: older => if negb (seed =? newest_seed) then oldest else oldest_equal newest_seed epoch older
  end.
Definition palw_seed_carry_run (samples : list (Z * Hash64)) : Z :=
  match rev samples with
  | [] => 0
  | (newest_epoch, newest_seed) :: older => sat_sub64 newest_epoch (oldest_equal newest_seed newest_epoch older)
  end.
Definition palw_lagged_activation_open (samples : list (Z * Hash64)) : bool :=
  match rev samples with (_, newest) :: (_, prev) :: _ => negb (newest =? prev) | _ => false end.
Definition palw_template_lane_open (derived_mode buried_carry_run grace_epochs : Z) : bool :=
  negb (derived_mode =? beacon_mode_to_u8 Halted) && (buried_carry_run <=? grace_epochs).

(** ** Phases *)

Definition beacon_commit_target_epoch (current_epoch : Z) : option Z := checked_add64 current_epoch PALW_BEACON_COMMIT_LEAD_EPOCHS.
Definition beacon_reveal_target_epoch (current_epoch : Z) : option Z := checked_add64 current_epoch PALW_BEACON_REVEAL_LEAD_EPOCHS.
Definition beacon_commit_phase_accepts (current_epoch target_epoch : Z) : bool :=
  bool_decide (beacon_commit_target_epoch current_epoch = Some target_epoch).
Definition beacon_reveal_phase_accepts (current_epoch target_epoch : Z) : bool :=
  bool_decide (beacon_reveal_target_epoch current_epoch = Some target_epoch).

(** ** Records *)

Record PalwBeaconCommitV1 := mkBeaconCommit {
  bc_version : Z; bc_epoch : Z; bc_bond_outpoint : TransactionOutpoint; bc_commitment : Hash64; bc_signature : list byte;
}.
Record PalwBeaconRevealV1 := mkBeaconReveal {
  br_version : Z; br_epoch : Z; br_bond_outpoint : TransactionOutpoint; br_random_64 : list byte; br_signature : list byte;
}.
Definition commit_is_in_phase (c : PalwBeaconCommitV1) (current_epoch : Z) : bool := beacon_commit_phase_accepts current_epoch (bc_epoch c).
Definition reveal_is_in_phase (r : PalwBeaconRevealV1) (current_epoch : Z) : bool := beacon_reveal_phase_accepts current_epoch (br_epoch r).
Record BeaconDnsAnchor := mkDnsAnchor { an_hash : Hash64; an_blue_score : Z; an_daa_score : Z; an_overlay_root : Hash64 }.
Definition UNCONFIRMED : BeaconDnsAnchor := mkDnsAnchor 0 0 0 0.
Definition is_confirmed (a : BeaconDnsAnchor) : bool := negb (an_hash a =? 0).

Definition palw_checkpoint_params_consistent (attestation_lag_blue_score attestation_anchor_backoff_blue_score
    max_reorg_horizon_blocks finality_depth pruning_depth required_work_depth required_stake_depth : Z) : bool :=
  let burial := sat_add64 attestation_lag_blue_score attestation_anchor_backoff_blue_score in
  (max_reorg_horizon_blocks <=? burial) && (finality_depth <=? burial) && (burial <? pruning_depth) &&
  ((0 <? required_work_depth) || (0 <? required_stake_depth)).

Record PalwBeaconStateV1 := mkBeaconState {
  bs_version : Z;
  bs_epoch : Z;
  bs_seed : Hash64;
  bs_dns_anchor : Hash64;
  bs_anchor_blue_score : Z;
  bs_anchor_daa_score : Z;
  bs_anchor_overlay_root : Hash64;
  bs_valid_reveals_root : Hash64;
  bs_missing_commitments_root : Hash64;
  bs_mode : Z;
  bs_degraded_epochs : Z;
  bs_valid_reveal_count : Z;
  bs_missing_commit_count : Z;
}.
Record PalwBeaconCheckpointV1 := mkCheckpoint {
  cp_epoch : Z;
  cp_seed : Hash64;
  cp_dns_anchor : Hash64;
  cp_anchor_blue_score : Z;
  cp_anchor_daa_score : Z;
  cp_anchor_overlay_root : Hash64;
  cp_valid_reveals_root : Hash64;
  cp_missing_commitments_root : Hash64;
  cp_mode : Z;
  cp_degraded_epochs : Z;
}.
Definition checkpoint_from_state (s : PalwBeaconStateV1) : PalwBeaconCheckpointV1 :=
  mkCheckpoint (bs_epoch s) (bs_seed s) (bs_dns_anchor s) (bs_anchor_blue_score s) (bs_anchor_daa_score s)
    (bs_anchor_overlay_root s) (bs_valid_reveals_root s) (bs_missing_commitments_root s) (bs_mode s) (bs_degraded_epochs s).
Definition state_anchor (s : PalwBeaconStateV1) : BeaconDnsAnchor :=
  mkDnsAnchor (bs_dns_anchor s) (bs_anchor_blue_score s) (bs_anchor_daa_score s) (bs_anchor_overlay_root s).
Definition checkpoint_anchor (c : PalwBeaconCheckpointV1) : BeaconDnsAnchor :=
  mkDnsAnchor (cp_dns_anchor c) (cp_anchor_blue_score c) (cp_anchor_daa_score c) (cp_anchor_overlay_root c).
Definition halted_since (s : PalwBeaconStateV1) (grace_epochs : Z) : option Z :=
  if bs_mode s =? beacon_mode_to_u8 Halted
  then Some (sat_sub64 (sat_add64 (sat_add64 (bs_epoch s) grace_epochs) 1) (bs_degraded_epochs s)) else None.

Record BeaconEpochInputs := mkEpochInputs {
  ei_commits : list (TransactionOutpoint * Hash64);
  ei_valid_reveals : list (TransactionOutpoint * Hash64);
}.
Definition missing_commitments (i : BeaconEpochInputs) : list (TransactionOutpoint * Hash64) :=
  let revealed : list TransactionOutpoint := fst <$> ei_valid_reveals i in
  filter (λ p, p.1 ∉ revealed) (ei_commits i).

(** The accumulator of an epoch: the first commitment and the first reveal of a
    bond count. *)
Record PalwBeaconEpochAccumV1 := mkAccum {
  ac_version : Z;
  ac_commits : list (TransactionOutpoint * Hash64);
  ac_valid_reveals : list (TransactionOutpoint * Hash64);
}.
Definition Accum_new : PalwBeaconEpochAccumV1 := mkAccum 1 [] [].
Definition has_bond (bond : TransactionOutpoint) (l : list (TransactionOutpoint * Hash64)) : bool :=
  existsb (λ p, bool_decide (p.1 = bond)) l.
Definition record_commit (a : PalwBeaconEpochAccumV1) (bond : TransactionOutpoint) (commitment : Hash64) : PalwBeaconEpochAccumV1 :=
  if negb (has_bond bond (ac_commits a)) then mkAccum (ac_version a) (ac_commits a ++ [(bond, commitment)]) (ac_valid_reveals a) else a.
Definition commitment_of (a : PalwBeaconEpochAccumV1) (bond : TransactionOutpoint) : option Hash64 :=
  snd <$> find (λ p, bool_decide (p.1 = bond)) (ac_commits a).
Definition record_valid_reveal (a : PalwBeaconEpochAccumV1) (bond : TransactionOutpoint) (digest : Hash64) : PalwBeaconEpochAccumV1 :=
  if negb (has_bond bond (ac_valid_reveals a)) then mkAccum (ac_version a) (ac_commits a) (ac_valid_reveals a ++ [(bond, digest)]) else a.
Definition to_inputs (a : PalwBeaconEpochAccumV1) : BeaconEpochInputs := mkEpochInputs (ac_commits a) (ac_valid_reveals a).

(** Order of the entries of a set root. *)
Definition bond_le (a b : TransactionOutpoint * Hash64) : Prop :=
  hash64_order (transaction_id a.1) < hash64_order (transaction_id b.1) ∨
  hash64_order (transaction_id a.1) = hash64_order (transaction_id b.1) ∧ index a.1 ≤ index b.1.
#[export] Instance bond_le_dec : RelDecision bond_le.
Proof. intros a b. unfold bond_le. apply _. Defined.

Section beacon.
Context `{Crypto}.

Definition beacon_seed_string (prev_seed dns_finalized_anchor valid_reveals_root missing_commitments_root : Hash64) (epoch : Z) : list byte :=
  push_hash prev_seed ++ push_hash dns_finalized_anchor ++ push_hash valid_reveals_root ++ push_hash missing_commitments_root ++
  to_le_bytes 8 epoch.
Definition beacon_seed (prev_seed dns_finalized_anchor valid_reveals_root missing_commitments_root : Hash64) (epoch : Z) : Hash64 :=
  blake2b_512_keyed PALW_BEACON_DOMAIN
    (beacon_seed_string prev_seed dns_finalized_anchor valid_reveals_root missing_commitments_root epoch).
Definition beacon_fallback_seed (prev_seed finalized_anchor lagged_window_root : Hash64) (epoch : Z) : Hash64 :=
  blake2b_512_keyed PALW_BEACON_DOMAIN
    (push_hash prev_seed ++ push_hash finalized_anchor ++ push_hash lagged_window_root ++ to_le_bytes 8 epoch).

Definition beacon_commitment (epoch : Z) (random_64 : list byte) (bond : TransactionOutpoint) : Hash64 :=
  blake2b_512_keyed PALW_BEACON_COMMIT_DOMAIN (to_le_bytes 8 epoch ++ random_64 ++ push_outpoint bond).
Definition beacon_reveal_entropy_digest (epoch : Z) (random_64 : list byte) (bond : TransactionOutpoint) : Hash64 :=
  blake2b_512_keyed PALW_BEACON_REVEAL_ENTROPY_DOMAIN (to_le_bytes 8 epoch ++ random_64 ++ push_outpoint bond).
Definition commit_signing_hash (c : PalwBeaconCommitV1) (network_id : Z) : Hash64 :=
  blake2b_512_keyed PALW_BEACON_COMMIT_SIGNING_DOMAIN
    (to_le_bytes 4 network_id ++ to_le_bytes 2 (bc_version c) ++ to_le_bytes 8 (bc_epoch c) ++ push_outpoint (bc_bond_outpoint c) ++
     push_hash (bc_commitment c)).
Definition reveal_signing_hash (r : PalwBeaconRevealV1) (network_id : Z) : Hash64 :=
  blake2b_512_keyed PALW_BEACON_REVEAL_SIGNING_DOMAIN
    (to_le_bytes 4 network_id ++ to_le_bytes 2 (br_version r) ++ to_le_bytes 8 (br_epoch r) ++ push_outpoint (br_bond_outpoint r) ++
     br_random_64 r).
Definition matches_commit (r : PalwBeaconRevealV1) (commitment : Hash64) : bool :=
  beacon_commitment (br_epoch r) (br_random_64 r) (br_bond_outpoint r) =? commitment.
Definition entropy_digest (r : PalwBeaconRevealV1) : Hash64 :=
  beacon_reveal_entropy_digest (br_epoch r) (br_random_64 r) (br_bond_outpoint r).

Definition set_root_string (entries : list (TransactionOutpoint * Hash64)) : list byte :=
  let sorted := merge_sort bond_le entries in
  to_le_bytes 8 (len sorted) ++ concat ((λ p, push_outpoint p.1 ++ push_hash p.2) <$> sorted).
Definition beacon_bond_digest_set_root (domain : list byte) (entries : list (TransactionOutpoint * Hash64)) : Hash64 :=
  blake2b_512_keyed domain (set_root_string entries).
Definition beacon_valid_reveals_root (entries : list (TransactionOutpoint * Hash64)) : Hash64 :=
  beacon_bond_digest_set_root PALW_BEACON_REVEALS_ROOT_DOMAIN entries.
Definition beacon_missing_commitments_root (entries : list (TransactionOutpoint * Hash64)) : Hash64 :=
  beacon_bond_digest_set_root PALW_BEACON_MISSING_ROOT_DOMAIN entries.

Definition beacon_quorum_reached {E} (committed revealed : list TransactionOutpoint) (num den : Z)
    (stake_of : TransactionOutpoint → Z) : outcome E bool :=
  if (den =? 0) || (num =? 0) then Ok false
  else
    committed_stake ← sum128 (stake_of <$> committed) 0;
    if committed_stake =? 0 then Ok false
    else
      revealed_stake ← sum128 (stake_of <$> revealed) 0;
      Ok (sat_mul128 committed_stake num <=? sat_mul128 revealed_stake den).

Definition dns_finality_certificate_hash_v1 (anchor : BeaconDnsAnchor) : Hash64 :=
  blake2b_512_keyed PALW_DNS_CERT_DOMAIN
    (push_hash (an_hash anchor) ++ to_le_bytes 8 (an_blue_score anchor) ++ to_le_bytes 8 (an_daa_score anchor) ++
     push_hash (an_overlay_root anchor)).
Definition dns_certificate_hash (s : PalwBeaconStateV1) : option Hash64 :=
  if is_confirmed (state_anchor s) then Some (dns_finality_certificate_hash_v1 (state_anchor s)) else None.

(** The state of an epoch. *)
Definition derive_beacon_epoch_state {E} (epoch : Z) (prev_seed : Hash64) (anchor : BeaconDnsAnchor) (inputs : BeaconEpochInputs)
    (dns_healthy : bool) (prev_degraded_epochs grace_epochs quorum_num quorum_den : Z) (stake_of : TransactionOutpoint → Z) :
    outcome E PalwBeaconStateV1 :=
  let valid_reveals_root := beacon_valid_reveals_root (ei_valid_reveals inputs) in
  let missing := missing_commitments inputs in
  let missing_commitments_root := beacon_missing_commitments_root missing in
  quorum ← beacon_quorum_reached (fst <$> ei_commits inputs) (fst <$> ei_valid_reveals inputs) quorum_num quorum_den stake_of;
  let degraded_epochs := if dns_healthy && quorum then 0 else sat_add64 prev_degraded_epochs 1 in
  let mode := beacon_mode dns_healthy quorum degraded_epochs grace_epochs in
  let seed :=
    match mode with
    | Healthy => beacon_seed prev_seed (an_hash anchor) valid_reveals_root missing_commitments_root epoch
    | DegradedGrace | Halted => prev_seed
    end in
  Ok (mkBeaconState 1 epoch seed (an_hash anchor) (an_blue_score anchor) (an_daa_score anchor) (an_overlay_root anchor)
        valid_reveals_root missing_commitments_root (beacon_mode_to_u8 mode) degraded_epochs
        (as_u32 (length (ei_valid_reveals inputs))) (as_u32 (length missing))).

(** ** Checkpoint chains *)

Definition seed_follows (c : PalwBeaconCheckpointV1) (prev_seed : Hash64) : bool :=
  cp_seed c =? beacon_seed prev_seed (cp_dns_anchor c) (cp_valid_reveals_root c) (cp_missing_commitments_root c) (cp_epoch c).
(** [from_epoch + i] in the loop is checked. *)
Fixpoint chain_links {E} (from_epoch : Z) (i : nat) (prev : Hash64) (chain : list PalwBeaconCheckpointV1) : outcome E bool :=
  match chain with
  | [] => Ok true
  | cp :: chain =>
    e ← add64 from_epoch (Z.of_nat i);
    if negb (cp_epoch cp =? e) || negb (seed_follows cp prev) then Ok false
    else chain_links from_epoch (S i) (cp_seed cp) chain
  end.
(** The fields of [PalwEpochProofBundleV2] that the linkage check reads. *)
Definition beacon_chain_links {E} (version from_epoch to_epoch : Z) (beacon_chain : list PalwBeaconCheckpointV1)
    (boundary_prev_seed : Hash64) : outcome E bool :=
  if negb (version =? PALW_EPOCH_PROOF_BUNDLE_VERSION_V2) then Ok false
  else if to_epoch <? from_epoch then Ok false
  else
    n ← add64 (to_epoch - from_epoch) 1;
    if negb (len beacon_chain =? n) then Ok false
    else chain_links from_epoch 0 boundary_prev_seed beacon_chain.

(** ** Runs of epochs

    The states of consecutive epochs, each derived from the one before. *)
Record EpochFacts := mkEpochFacts { ef_anchor : BeaconDnsAnchor; ef_inputs : BeaconEpochInputs; ef_dns_healthy : bool }.
Fixpoint beacon_run {E} (grace_epochs quorum_num quorum_den : Z) (stake_of : TransactionOutpoint → Z)
    (epoch : Z) (prev_seed : Hash64) (prev_degraded : Z) (facts : list EpochFacts) : outcome E (list PalwBeaconStateV1) :=
  match facts with
  | [] => Ok []
  | f :: facts =>
    s ← derive_beacon_epoch_state epoch prev_seed (ef_anchor f) (ef_inputs f) (ef_dns_healthy f) prev_degraded grace_epochs
          quorum_num quorum_den stake_of;
    rest ← beacon_run grace_epochs quorum_num quorum_den stake_of (epoch + 1) (bs_seed s) (bs_degraded_epochs s) facts;
    Ok (s :: rest)
  end.
End beacon.
