(* ===== verification/PalwBeaconThms.v ===== *)
(** * PALW: what a run of beacon epochs certifies

    Equal seeds of two epochs certify that no healthy epoch lies between them,
    so a carry run longer than the grace period certifies a halted beacon; the
    linkage check of a proof bundle accepts exactly the runs in which every
    epoch is healthy. *)

From stdpp Require Import base list gmap sets sorting strings.
From Stdlib Require Import ZArith Lia.
From S2P Require Import Prelude Tx Bytes Hashing Uint Palw PalwLeafTree PalwBeacon.

Local Open Scope Z_scope.

Section runs.
Context `{Crypto}.

Definition state_string (prev_seed : Hash64) (s : PalwBeaconStateV1) : list byte :=
  beacon_seed_string prev_seed (bs_dns_anchor s) (bs_valid_reveals_root s) (bs_missing_commitments_root s) (bs_epoch s).
Fixpoint run_strings (prev_seed : Hash64) (states : list PalwBeaconStateV1) : list (list byte) :=
  match states with
  | [] => []
  | s :: states => state_string prev_seed s :: run_strings (bs_seed s) states
  end.

(** The relation between an epoch and the one before it. *)
Definition beacon_step (grace epoch : Z) (prev_seed : Hash64) (prev_degraded : Z) (s : PalwBeaconStateV1) : Prop :=
  bs_epoch s = epoch ∧
  (bs_mode s = 0 ∧ bs_degraded_epochs s = 0 ∧ bs_seed s = blake2b_512_keyed PALW_BEACON_DOMAIN (state_string prev_seed s) ∨
   bs_mode s ≠ 0 ∧ bs_degraded_epochs s = sat_add64 prev_degraded 1 ∧ bs_seed s = prev_seed ∧
   (grace < bs_degraded_epochs s → bs_mode s = 2)).
Fixpoint run_ok (grace epoch : Z) (prev_seed : Hash64) (prev_degraded : Z) (states : list PalwBeaconStateV1) : Prop :=
  match states with
  | [] => True
  | s :: states => beacon_step grace epoch prev_seed prev_degraded s ∧
                   run_ok grace (epoch + 1) (bs_seed s) (bs_degraded_epochs s) states
  end.

Lemma derive_step {E} grace epoch prev anchor inputs dns deg num den stake s :
  derive_beacon_epoch_state (E:=E) epoch prev anchor inputs dns deg grace num den stake = Ok s →
  beacon_step grace epoch prev deg s.
Proof.
  unfold derive_beacon_epoch_state. destruct (beacon_quorum_reached _ _ _ _ _) as [q| | |]; try discriminate.
  cbn. intros [= <-]. split; [done|]. unfold beacon_mode. cbn.
  destruct (dns && q); cbn; [left; done|right].
  destruct (Z.leb_spec (sat_add64 deg 1) grace); cbn; repeat split; try done; lia.
Qed.
Lemma beacon_run_ok {E} grace num den stake facts epoch prev deg states :
  beacon_run (E:=E) grace num den stake epoch prev deg facts = Ok states → run_ok grace epoch prev deg states.
Proof.
  revert epoch prev deg states. induction facts as [|f facts IH]; intros epoch prev deg states; cbn [beacon_run].
  - by intros [= <-].
  - destruct (derive_beacon_epoch_state _ _ _ _ _ _ _ _ _ _) as [s| | |] eqn:Hs; try discriminate. cbn.
    destruct (beacon_run _ _ _ _ _ _ _ _) as [rest| | |] eqn:Hr; try discriminate. cbn. intros [= <-].
    split; [by eapply derive_step|by eapply IH].
Qed.

Section run.
Context (grace epoch : Z) (prev : Hash64) (deg : Z) (states : list PalwBeaconStateV1).
Context (Hrun : run_ok grace epoch prev deg states).

Lemma run_step i s t : states !! i = Some s → states !! S i = Some t →
  beacon_step grace (bs_epoch s + 1) (bs_seed s) (bs_degraded_epochs s) t.
Proof using Hrun.
  clear -Hrun. revert i epoch prev deg Hrun.
  induction states as [|s0 l IH]; intros i e p d Hr Hs Ht; [done|]. destruct Hr as [[He _] Hr].
  destruct i as [|i]; cbn in Hs, Ht.
  - injection Hs as <-. destruct l as [|t0 l]; [done|]. injection Ht as <-. rewrite He. apply Hr.
  - by eapply IH.
Qed.
Lemma run_epoch i s : states !! i = Some s → bs_epoch s = epoch + Z.of_nat i.
Proof using Hrun.
  clear -Hrun. revert i epoch prev deg Hrun.
  induction states as [|s0 l IH]; intros i e p d Hr Hs; [done|]. destruct Hr as [[He _] Hr].
  destruct i as [|i]; cbn in Hs; [injection Hs as <-; lia|]. rewrite (IH i _ _ _ Hr Hs). lia.
Qed.
Lemma run_degraded_nonneg i s : 0 ≤ deg → states !! i = Some s → 0 ≤ bs_degraded_epochs s.
Proof using Hrun.
  clear -Hrun. revert i epoch prev deg Hrun.
  induction states as [|s0 l IH]; intros i e p d Hr Hd Hs; [done|]. destruct Hr as [[_ Hm] Hr].
  assert (0 ≤ bs_degraded_epochs s0) by (destruct Hm as [(_ & -> & _)|(_ & -> & _)]; unfold sat_add64, U64_MAX; lia).
  destruct i as [|i]; cbn in Hs; [by injection Hs as <-|]. by eapply IH.
Qed.
Lemma run_string_epoch i x : run_strings prev states !! i = Some x →
  ∃ y, x = y ++ to_le_bytes 8 (epoch + Z.of_nat i).
Proof using Hrun.
  clear -Hrun. revert i epoch prev deg Hrun.
  induction states as [|s0 l IH]; intros i e p d Hr Hx; [done|]. destruct Hr as [[He _] Hr].
  destruct i as [|i]; cbn in Hx.
  - injection Hx as <-. unfold state_string, beacon_seed_string. rewrite He, Z.add_0_r, !(assoc_L (++)). by eexists.
  - destruct (IH i _ _ _ Hr Hx) as [y ->]. exists y. do 2 f_equal. lia.
Qed.

(** A seed is the digest of the latest healthy epoch, or the seed the run
    starts from. *)
Lemma run_origin j s : states !! j = Some s →
  (∃ k x, (k ≤ j)%nat ∧ run_strings prev states !! k = Some x ∧ bs_seed s = blake2b_512_keyed PALW_BEACON_DOMAIN x ∧
     ∀ m u, (k < m ≤ j)%nat → states !! m = Some u → bs_mode u ≠ 0) ∨
  bs_seed s = prev ∧ ∀ m u, (m ≤ j)%nat → states !! m = Some u → bs_mode u ≠ 0.
Proof using Hrun.
  clear -Hrun. revert j epoch prev deg Hrun.
  induction states as [|s0 l IH]; intros j e p d Hr Hs; [done|]. destruct Hr as [[_ Hm] Hr].
  assert (Hz : (∀ m u, (m ≤ j)%nat → (s0 :: l) !! m = Some u → m ≠ 0%nat → bs_mode u ≠ 0) → bs_seed s = bs_seed s0 →
    (∃ k x, (k ≤ j)%nat ∧ run_strings p (s0 :: l) !! k = Some x ∧ bs_seed s = blake2b_512_keyed PALW_BEACON_DOMAIN x ∧
       ∀ m u, (k < m ≤ j)%nat → (s0 :: l) !! m = Some u → bs_mode u ≠ 0) ∨
    bs_seed s = p ∧ ∀ m u, (m ≤ j)%nat → (s0 :: l) !! m = Some u → bs_mode u ≠ 0).
  { intros Hall Heq. destruct Hm as [(_ & _ & Hsd)|(Hne & _ & Hsd & _)].
    - left. exists 0%nat, (state_string p s0). split; [lia|]. split; [done|]. split; [by rewrite Heq|].
      intros m u ? Hu. apply (Hall m u); [lia|done|lia].
    - right. split; [by rewrite Heq|]. intros [|m] u ? Hu; [by injection Hu as <-|]. by apply (Hall (S m) u). }
  destruct j as [|j]; cbn in Hs.
  - injection Hs as <-. apply Hz; [intros; lia|done].
  - destruct (IH j _ _ _ Hr Hs) as [(k & x & Hk & Hx & Hsd & Hall)|[Hsd Hall]].
    + left. exists (S k), x. split; [lia|]. split; [done|]. split; [done|].
      intros [|m] u ? Hu; [lia|]. apply (Hall m u); [lia|done].
    + apply Hz; [|done]. intros [|m] u ? Hu ?; [done|]. apply (Hall m u); [lia|done].
Qed.

Definition seed_confusion : Prop :=
  keyed_collision PALW_BEACON_DOMAIN (run_strings prev states) (run_strings prev states) ∨
  prev ∈ blake2b_512_keyed PALW_BEACON_DOMAIN <$> run_strings prev states.

Lemma run_strings_distinct i j x : 0 ≤ epoch → epoch + len (run_strings prev states) ≤ U64_MAX →
  run_strings prev states !! i = Some x → run_strings prev states !! j = Some x → i = j.
Proof using Hrun.
  intros He Hb Hi Hj. pose proof (lookup_lt_Some _ _ _ Hi). pose proof (lookup_lt_Some _ _ _ Hj).
  destruct (run_string_epoch i x Hi) as [y Hy]. destruct (run_string_epoch j x Hj) as [y' Hy'].
  rewrite Hy in Hy'. apply app_inj_2 in Hy' as [_ Heq]; [|by rewrite !length_to_le_bytes].
  apply (f_equal (λ l, l ++ [])) in Heq. unfold U64_MAX in Hb.
  apply prefix_code in Heq as [Heq _]; unfold is_uint; lia.
Qed.
Lemma equal_seeds_not_healthy i j s t : 0 ≤ epoch → epoch + len (run_strings prev states) ≤ U64_MAX →
  (i < j)%nat → states !! i = Some s → states !! j = Some t → bs_seed s = bs_seed t →
  (∀ m u, (i < m ≤ j)%nat → states !! m = Some u → bs_mode u ≠ 0) ∨ seed_confusion.
Proof using Hrun.
  intros He Hb Hij Hs Ht Heq. destruct (run_origin j t Ht) as [(k & x & Hk & Hx & Hsd & Hall)|[_ Hall]].
  2: { left. intros m u ? Hu. apply (Hall m u); [lia|done]. }
  destruct (decide (k ≤ i)%nat) as [Hki|Hki]; [left; intros m u ? Hu; apply (Hall m u); [lia|done]|right].
  destruct (run_origin i s Hs) as [(k' & x' & Hk' & Hx' & Hsd' & _)|[Hsd' _]].
  - left. exists x', x. split; [by eapply list_elem_of_lookup_2|]. split; [by eapply list_elem_of_lookup_2|]. split; [|congruence].
    intros ->. pose proof (run_strings_distinct k k' x He Hb Hx Hx'). lia.
  - right. apply list_elem_of_fmap. exists x. split; [congruence|by eapply list_elem_of_lookup_2].
Qed.
Lemma degraded_counts i j s t : 0 ≤ deg → (i ≤ j)%nat → states !! i = Some s → states !! j = Some t →
  (∀ m u, (i < m ≤ j)%nat → states !! m = Some u → bs_mode u ≠ 0) →
  Z.min (Z.of_nat (j - i)) U64_MAX ≤ bs_degraded_epochs t.
Proof using Hrun.
  intros Hd Hij Hs. revert t. induction Hij as [|j Hij IH]; intros t Ht Hall.
  - pose proof (run_degraded_nonneg _ _ Hd Ht). unfold U64_MAX. lia.
  - destruct (lookup_lt_is_Some_2 states j) as [u Hu]; [apply lookup_lt_Some in Ht; lia|].
    assert (Hm : Z.min (Z.of_nat (j - i)) U64_MAX ≤ bs_degraded_epochs u) by (apply IH; [done|intros m v ? Hv; apply (Hall m v); [lia|done]]).
    destruct (run_step _ _ _ Hu Ht) as [_ [(Hz & _)|(_ & -> & _)]]; [destruct (Hall (S j) t); [lia|done|done]|].
    unfold sat_add64, U64_MAX in *. lia.
Qed.
Lemma distinct_seeds_healthy i j s t : (i ≤ j)%nat → states !! i = Some s → states !! j = Some t → bs_seed s ≠ bs_seed t →
  ∃ m u, (i < m ≤ j)%nat ∧ states !! m = Some u ∧ bs_mode u = 0.
Proof using Hrun.
  intros Hij Hs. revert t. induction Hij as [|j Hij IH]; intros t Ht Hne; [congruence|].
  destruct (lookup_lt_is_Some_2 states j) as [v Hv]; [apply lookup_lt_Some in Ht; lia|].
  destruct (run_step _ _ _ Hv Ht) as [_ [(Hz & _)|(_ & _ & Hsd & _)]]; [exists (S j), t; split; [lia|done]|].
  destruct (IH v Hv) as (m & u & ? & ? & ?); [congruence|]. exists m, u. split; [lia|done].
Qed.
Lemma halted_of_degraded i s : states !! i = Some s → bs_mode s ≠ 0 → grace < bs_degraded_epochs s → bs_mode s = 2.
Proof using Hrun.
  clear -Hrun. revert i epoch prev deg Hrun.
  induction states as [|s0 l IH]; intros i e p d Hr Hs; [done|]. destruct Hr as [[_ Hm] Hr].
  destruct i as [|i]; cbn in Hs; [injection Hs as <-|by eapply IH].
  destruct Hm as [(Hz & _)|(_ & _ & _ & Hh)]; [done|]. intros _. exact Hh.
Qed.
End run.

Lemma length_run_strings prev states : length (run_strings prev states) = length states.
Proof. revert prev. induction states as [|s l IH]; intros prev; [done|]. cbn. by rewrite IH. Qed.

Lemma distinct_no_confusion prev states :
  NoDup (prev :: (blake2b_512_keyed PALW_BEACON_DOMAIN <$> run_strings prev states)) → ¬ seed_confusion prev states.
Proof.
  intros [Hni Hnd]%NoDup_cons [(a & b & [i Ha]%list_elem_of_lookup_1 & [j Hb]%list_elem_of_lookup_1 & Hne & Heq)|Hin]; [|done].
  apply Hne. assert (i = j) as ->; [|congruence].
  apply (NoDup_lookup _ i j (blake2b_512_keyed PALW_BEACON_DOMAIN a) Hnd); rewrite list_lookup_fmap; [by rewrite Ha|].
  rewrite Hb. cbn [fmap option_fmap option_map]. by rewrite Heq.
Qed.

(** ** The carry run *)

Definition epoch_samples (sampled : list PalwBeaconStateV1) : list (Z * Hash64) := (λ s, (bs_epoch s, bs_seed s)) <$> sampled.

Lemma oldest_equal_in seed o older : oldest_equal seed o older = o ∨ (oldest_equal seed o older, seed) ∈ older.
Proof.
  revert o. induction older as [|[e sd] older IH]; intros o; cbn [oldest_equal]; [by left|].
  destruct (Z.eqb_spec sd seed) as [->|]; cbn; [|by left]. right.
  destruct (IH e) as [->|Hin]; [apply list_elem_of_here|by apply list_elem_of_further].
Qed.
Lemma carry_run_sample sampled s : last sampled = Some s →
  palw_seed_carry_run (epoch_samples sampled) = 0 ∨
  ∃ t, t ∈ sampled ∧ bs_seed t = bs_seed s ∧ palw_seed_carry_run (epoch_samples sampled) = bs_epoch s - bs_epoch t ∧
    bs_epoch t < bs_epoch s.
Proof.
  intros [l ->]%last_Some. unfold palw_seed_carry_run, epoch_samples. rewrite fmap_app, rev_app_distr. cbn.
  set (older := rev _). destruct (oldest_equal_in (bs_seed s) (bs_epoch s) older) as [->|Hin]; [left; unfold sat_sub64; lia|].
  unfold older in Hin at 2.
  apply list_elem_of_In, in_rev, list_elem_of_In, list_elem_of_fmap in Hin as (t & [= Ht Hsd] & Hin).
  destruct (decide (bs_epoch t < bs_epoch s)) as [Hlt|Hge]; [right|left; unfold sat_sub64; lia].
  exists t. split; [apply elem_of_app; by left|]. split; [done|]. unfold sat_sub64. rewrite Ht. lia.
Qed.

(** C34. For a run of consecutive beacon epochs and any samples of it, the carry
    run [r] of the samples certifies what the code takes from it: no epoch among
    the last [r] before the newest sample was healthy, and when [r] exceeds the
    grace period the newest sampled epoch is halted, unless two of the seed
    strings of the run collide or one hashes to the seed the run started from.
    When the lagged signal opens activation, a healthy epoch lies between the
    two newest samples. *)
Theorem carry_run_certifies_halt {E} grace num den stake from prev deg facts states sampled s :
  beacon_run (E:=E) grace num den stake from prev deg facts = Ok states →
  0 ≤ from → from + len states ≤ U64_MAX → 0 ≤ deg → 0 ≤ grace →
  sampled ⊆ states → last sampled = Some s →
  let r := palw_seed_carry_run (epoch_samples sampled) in
  (((∀ t, t ∈ states → bs_epoch s - r < bs_epoch t ≤ bs_epoch s → bs_mode t ≠ beacon_mode_to_u8 Healthy) ∧
    (grace < r → bs_mode s = beacon_mode_to_u8 Halted)) ∨ seed_confusion prev states) ∧
  (palw_lagged_activation_open (epoch_samples sampled) = true →
   ∃ t u, t ∈ sampled ∧ u ∈ states ∧ bs_mode u = beacon_mode_to_u8 Healthy ∧
     Z.min (bs_epoch t) (bs_epoch s) < bs_epoch u ≤ Z.max (bs_epoch t) (bs_epoch s)).
Proof.
  intros Hrun%beacon_run_ok Hf Hb Hd Hg Hsub Hlast r.
  assert (Hs : s ∈ sampled) by (apply last_Some in Hlast as [l ->]; apply elem_of_app; right; by apply list_elem_of_singleton).
  destruct (list_elem_of_lookup_1 _ _ (Hsub _ Hs)) as [j Hj]. pose proof (run_epoch _ _ _ _ _ Hrun _ _ Hj) as Hej.
  split.
  - destruct (carry_run_sample sampled s Hlast) as [Hr|(t & Ht & Hsd & Hr & Hlt)].
    { left. fold r in Hr. rewrite Hr. split; [intros; lia|lia]. }
    destruct (list_elem_of_lookup_1 _ _ (Hsub _ Ht)) as [i Hi]. pose proof (run_epoch _ _ _ _ _ Hrun _ _ Hi) as Hei.
    destruct (equal_seeds_not_healthy _ _ _ _ _ Hrun i j t s) as [Hall|]; [done|by rewrite length_run_strings|lia|done..| |by right].
    left. fold r in Hr. split.
    + intros u [m Hm]%list_elem_of_lookup_1 He. pose proof (run_epoch _ _ _ _ _ Hrun _ _ Hm). apply (Hall m u); [lia|done].
    + intros Hgr. apply (halted_of_degraded _ _ _ _ _ Hrun j); [done|apply (Hall j s); [lia|done]|].
      pose proof (degraded_counts _ _ _ _ _ Hrun i j t s Hd ltac:(lia) Hi Hj Hall).
      apply lookup_lt_Some in Hj. lia.
  - intros Hopen. apply last_Some in Hlast as [l ->]. unfold palw_lagged_activation_open, epoch_samples in Hopen.
    rewrite fmap_app, rev_app_distr in Hopen. cbn in Hopen.
    destruct l as [|t l _] using rev_ind; [done|]. rewrite fmap_app, rev_app_distr in Hopen. cbn in Hopen.
    apply negb_true_iff, Z.eqb_neq in Hopen.
    assert (Ht : t ∈ (l ++ [t]) ++ [s]) by set_solver.
    destruct (list_elem_of_lookup_1 _ _ (Hsub _ Ht)) as [i Hi]. pose proof (run_epoch _ _ _ _ _ Hrun _ _ Hi) as Hei.
    assert (Hex : ∃ m u, (Nat.min i j < m ≤ Nat.max i j)%nat ∧ states !! m = Some u ∧ bs_mode u = 0).
    { destruct (decide (i ≤ j)%nat).
      - rewrite Nat.min_l, Nat.max_r by lia. by eapply (distinct_seeds_healthy _ _ _ _ _ Hrun).
      - rewrite Nat.min_r, Nat.max_l by lia. eapply (distinct_seeds_healthy _ _ _ _ _ Hrun); [lia|done..]. }
    destruct Hex as (m & u & Hmu & Hu & Hz). exists t, u. pose proof (run_epoch _ _ _ _ _ Hrun _ _ Hu).
    split; [done|]. split; [by eapply list_elem_of_lookup_2|]. split; [done|lia].
Qed.

(** ** The linkage check *)

Lemma chain_links_iff {E} grace from i prev deg states :
  run_ok grace (from + Z.of_nat i) prev deg states → 0 ≤ from → from + Z.of_nat i + len states ≤ U64_MAX →
  ∃ b, chain_links (E:=E) from i prev (checkpoint_from_state <$> states) = Ok b ∧
    (b = true ↔ ∀ s, s ∈ states → bs_mode s ≠ 0 → bs_seed s = blake2b_512_keyed PALW_BEACON_DOMAIN (state_string (bs_seed s) s)).
Proof.
  revert i prev deg. induction states as [|s states IH]; intros i prev deg Hr Hf Hb.
  { exists true. split; [done|]. split; [|done]. intros _ s Hs. by apply elem_of_nil in Hs. }
  destruct Hr as [[He Hm] Hr]. cbn [length] in Hb. cbn [chain_links fmap list_fmap].
  unfold add64; rewrite chk64_Ok by (unfold is_u64, U64_MAX in *; lia). cbn [mbind outcome_bind]. cbn [cp_epoch checkpoint_from_state].
  rewrite He, Z.eqb_refl. cbn [negb orb].
  destruct (IH (S i) (bs_seed s) (bs_degraded_epochs s)) as (b & Hl & Hiff).
  { by replace (from + Z.of_nat (S i)) with (from + Z.of_nat i + 1) by lia. }
  { done. }
  { lia. }
  assert (Hsf : seed_follows (checkpoint_from_state s) prev = true ↔
    (bs_mode s ≠ 0 → bs_seed s = blake2b_512_keyed PALW_BEACON_DOMAIN (state_string (bs_seed s) s))).
  { unfold seed_follows. rewrite Z.eqb_eq. change (cp_seed (checkpoint_from_state s)) with (bs_seed s).
    change (beacon_seed _ _ _ _ _) with (blake2b_512_keyed PALW_BEACON_DOMAIN (state_string prev s)).
    destruct Hm as [(Hz & _ & Hsd)|(Hz & _ & Hsd & _)]; [tauto|]. rewrite Hsd. tauto. }
  destruct (seed_follows _ _); cbn [negb].
  - exists b. split; [exact Hl|]. rewrite Hiff. split.
    + intros Hall t [->|Ht]%elem_of_cons; [by apply Hsf|by apply Hall].
    + intros Hall t Ht. apply Hall. by apply list_elem_of_further.
  - exists false. split; [done|]. split; [done|]. intros Hall. apply Hsf. apply Hall. apply list_elem_of_here.
Qed.

(** The linkage check of a proof bundle, run on the checkpoints of an
    honest run of consecutive epochs, always answers, and accepts exactly when
    every degraded or halted epoch carries a seed that is a fixpoint of its own
    seed hash: short of such a fixpoint, a run with one such epoch does not
    link, although a checkpoint carries the mode and the degraded count for
    that case. *)
Theorem bundle_links_only_healthy {E} grace num den stake from prev deg facts states :
  beacon_run (E:=E) grace num den stake from prev deg facts = Ok states →
  0 ≤ from → from + len states ≤ U64_MAX → states ≠ [] →
  ∃ b, beacon_chain_links (E:=E) PALW_EPOCH_PROOF_BUNDLE_VERSION_V2 from (from + len states - 1)
         (checkpoint_from_state <$> states) prev = Ok b ∧
    (b = true ↔ ∀ s, s ∈ states → bs_mode s ≠ beacon_mode_to_u8 Healthy →
       bs_seed s = beacon_seed (bs_seed s) (bs_dns_anchor s) (bs_valid_reveals_root s) (bs_missing_commitments_root s) (bs_epoch s)).
Proof.
  intros Hrun%beacon_run_ok Hf Hb Hne. destruct states as [|s0 l] eqn:Hst; [done|]. rewrite <- Hst in *.
  assert (1 ≤ len states) by (rewrite Hst; cbn [length]; lia).
  destruct (chain_links_iff (E:=E) grace from 0 prev deg states) as (b & Hl & Hiff); [by rewrite Z.add_0_r|done|lia|].
  exists b. split; [|exact Hiff]. unfold beacon_chain_links. rewrite Z.eqb_refl. cbn [negb].
  destruct (Z.ltb_spec (from + len states - 1) from); [lia|].
  unfold add64; rewrite chk64_Ok by (unfold is_u64, U64_MAX in *; lia). cbn [mbind outcome_bind].
  replace (from + len states - 1 - from + 1) with (len states) by lia. rewrite length_fmap, Z.eqb_refl. exact Hl.
Qed.
End runs.

(** ** Witnesses

    One healthy epoch and three without a quorum, with a grace period of one,
    run with a digest that reads its whole input. *)
Definition sample_bond : TransactionOutpoint := mkOutpoint 5 0.
Definition sample_facts : list EpochFacts :=
  mkEpochFacts UNCONFIRMED (mkEpochInputs [(sample_bond, 9)] [(sample_bond, 10)]) true ::
  replicate 3 (mkEpochFacts UNCONFIRMED (mkEpochInputs [(sample_bond, 9)] []) true).
Definition sample_run : outcome unit (list PalwBeaconStateV1) :=
  beacon_run (H:=sum_crypto) 1 2 3 (λ _, 100) 20 7 0 sample_facts.

Definition sample_states : list PalwBeaconStateV1 := match sample_run with Ok states => states | _ => [] end.
Lemma sample_run_ok : sample_run = Ok sample_states.
Proof. vm_compute. reflexivity. Qed.
Lemma sample_length : len sample_states = 4.
Proof. vm_compute. reflexivity. Qed.
Lemma sample_last : bs_epoch <$> last sample_states = Some 23.
Proof. vm_compute. reflexivity. Qed.
Lemma sample_carry : palw_seed_carry_run (epoch_samples sample_states) = 3.
Proof. vm_compute. reflexivity. Qed.
Lemma sample_not_linked :
  beacon_chain_links (H:=sum_crypto) (E:=unit) 2 20 23 (checkpoint_from_state <$> sample_states) 7 = Ok false.
Proof. vm_compute. reflexivity. Qed.
(** The strings of the sample run have distinct digests, none of them the seed
    the run starts from. *)
Lemma sample_digests_distinct :
  bool_decide (NoDup (7 :: (blake2b_512_keyed (H:=sum_crypto) PALW_BEACON_DOMAIN <$> run_strings 7 sample_states))) = true.
Proof. vm_compute. reflexivity. Qed.

Lemma carry_run_certifies_halt_witness :
  ∃ s, sample_run = Ok sample_states ∧ last sample_states = Some s ∧
    palw_seed_carry_run (epoch_samples sample_states) = 3 ∧ bs_mode s = 2.
Proof.
  destruct (last sample_states) as [s|] eqn:Hl; [|pose proof sample_last as Hc; rewrite Hl in Hc; discriminate Hc].
  destruct (carry_run_certifies_halt (H:=sum_crypto) (E:=unit) 1 2 3 (λ _, 100) 20 7 0 sample_facts sample_states sample_states s)
    as [[[_ Hh]|Hc] _].
  - exact sample_run_ok.
  - lia.
  - rewrite sample_length. unfold U64_MAX. lia.
  - lia.
  - lia.
  - exact (λ x Hx, Hx).
  - exact Hl.
  - rewrite sample_carry in Hh. exact (ex_intro _ s (conj sample_run_ok (conj eq_refl (conj sample_carry (Hh ltac:(lia)))))).
  - destruct (distinct_no_confusion (H:=sum_crypto) 7 sample_states); [|exact Hc].
    exact (proj1 (bool_decide_eq_true _) sample_digests_distinct).
Defined.

Lemma bundle_links_only_healthy_witness :
  beacon_chain_links (H:=sum_crypto) (E:=unit) 2 20 23 (checkpoint_from_state <$> sample_states) 7 = Ok false ∧
  ¬ (∀ s, s ∈ sample_states → bs_mode s ≠ 0 →
       bs_seed s = beacon_seed (H:=sum_crypto) (bs_seed s) (bs_dns_anchor s) (bs_valid_reveals_root s) (bs_missing_commitments_root s) (bs_epoch s)).
Proof.
  split; [exact sample_not_linked|].
  destruct (bundle_links_only_healthy (H:=sum_crypto) (E:=unit) 1 2 3 (λ _, 100) 20 7 0 sample_facts sample_states) as (b & Hb & Hiff).
  - exact sample_run_ok.
  - lia.
  - rewrite sample_length. unfold U64_MAX. lia.
  - intros Hn. pose proof sample_length as Hl. rewrite Hn in Hl. discriminate Hl.
  - intros Hall. apply Hiff in Hall. subst b. rewrite sample_length in Hb.
    change (20 + 4 - 1) with 23 in Hb. change PALW_EPOCH_PROOF_BUNDLE_VERSION_V2 with 2 in Hb.
    rewrite sample_not_linked in Hb. discriminate Hb.
Defined.
