(* ===== verification/PalwBatch.v ===== *)
(** * PALW: batches and their life cycle

    Models [PalwBatchManifestV1], [PalwBatchStatus], [PalwBatchLifecycleV1] and
    [PalwBatchViewV1] of [src/consensus/core/src/palw.rs], the fold of a merge
    set into the view of its selected parent
    ([commit_palw_overlay_view] of the body processor) and the batch gate of
    [check_palw_ticket]. *)

From stdpp Require Import base list gmap sets strings.
From Stdlib Require Import ZArith Lia.
From S2P Require Import Prelude Tx Bytes Hashing Uint Palw PalwLeafTree.

Local Open Scope Z_scope.

Definition PALW_BATCH_ID_DOMAIN : list byte := b_ "misaka-palw-batch-id-v1".
Definition PALW_MAX_LEAVES_PER_CHUNK : Z := 64.
Definition PALW_CHUNK_BITMAP_BITS : Z := 256.
Definition PALW_ANTISPAM_HEADER_VERSION : Z := 4.

(** ** The state machine of a batch *)

Inductive PalwBatchStatus : Type :=
  | Missing | Registering | Committed | Auditing | Certified | Active | Slashed | Expired | Revoked.
Inductive PalwBatchEvent : Type :=
  | ManifestAccepted | ChunksAndBondsComplete | AuditBeaconReached | CertificateQuorum | AuditFailed | Timeout
  | ActivationReached | ExpiryReached | FraudEvidence.
#[export] Instance batch_status_eq_dec : EqDecision PalwBatchStatus.
Proof. solve_decision. Defined.

Definition status_next (s : PalwBatchStatus) (e : PalwBatchEvent) : option PalwBatchStatus :=
  match s, e with
  | Missing, ManifestAccepted => Some Registering
  | Registering, ChunksAndBondsComplete => Some Committed
  | Registering, Timeout => Some Expired
  | Committed, AuditBeaconReached => Some Auditing
  | Auditing, CertificateQuorum => Some Certified
  | Auditing, AuditFailed => Some Slashed
  | Auditing, Timeout => Some Expired
  | Certified, ActivationReached => Some Active
  | Certified, ExpiryReached => Some Expired
  | Certified, FraudEvidence => Some Revoked
  | Active, ExpiryReached => Some Expired
  | Active, FraudEvidence => Some Revoked
  | _, _ => None
  end.
Definition is_block_eligible (s : PalwBatchStatus) : bool := bool_decide (s = Active).
Definition is_terminal (s : PalwBatchStatus) : bool := match s with Slashed | Expired | Revoked => true | _ => false end.

Definition palw_batch_referenceable (status : PalwBatchStatus) (revoked : bool)
    (registration_epoch expiry_epoch epoch registration_lead_epochs audit_window_epochs : Z) : bool :=
  if revoked || is_terminal status then false
  else
    match status with
    | Active | Certified => epoch <? expiry_epoch
    | Registering | Committed | Auditing =>
      epoch <=? sat_add64 (sat_add64 registration_epoch registration_lead_epochs) audit_window_epochs
    | Missing | Slashed | Expired | Revoked => false
    end.

(** ** Manifests *)

Record PalwBatchManifestV1 := mkManifest {
  m_version : Z;
  m_batch_id : Hash64;
  m_registration_epoch : Z;
  m_model_profile_id : Hash64;
  m_runtime_class_id : Hash64;
  m_leaf_count : Z;
  m_chunk_count : Z;
  m_leaf_root : Hash64;
  m_descriptor_root : Hash64;
  m_total_leaf_bond_sompi : Z;
  m_audit_policy_id : Hash64;
  m_activation_not_before_epoch : Z;
  m_expiry_epoch : Z;
}.
Definition with_batch_id (m : PalwBatchManifestV1) (id : Hash64) : PalwBatchManifestV1 :=
  mkManifest (m_version m) id (m_registration_epoch m) (m_model_profile_id m) (m_runtime_class_id m) (m_leaf_count m)
    (m_chunk_count m) (m_leaf_root m) (m_descriptor_root m) (m_total_leaf_bond_sompi m) (m_audit_policy_id m)
    (m_activation_not_before_epoch m) (m_expiry_epoch m).
(** The Borsh encoding: the fields in order, integers little endian. *)
Definition manifest_borsh (m : PalwBatchManifestV1) : list byte :=
  to_le_bytes 2 (m_version m) ++ push_hash (m_batch_id m) ++ to_le_bytes 8 (m_registration_epoch m) ++
  push_hash (m_model_profile_id m) ++ push_hash (m_runtime_class_id m) ++ to_le_bytes 4 (m_leaf_count m) ++
  to_le_bytes 2 (m_chunk_count m) ++ push_hash (m_leaf_root m) ++ push_hash (m_descriptor_root m) ++
  to_le_bytes 8 (m_total_leaf_bond_sompi m) ++ push_hash (m_audit_policy_id m) ++
  to_le_bytes 8 (m_activation_not_before_epoch m) ++ to_le_bytes 8 (m_expiry_epoch m).

Definition div_ceil_u32 (a b : Z) : Z := a / b + (if a mod b =? 0 then 0 else 1).

(** ** Admission parameters *)

Record PalwBatchAdmissionParams := mkAdmission {
  max_batch_leaves : Z;
  max_leaf_chunk_leaves : Z;
  registration_lead_epochs : Z;
  active_window_epochs : Z;
  audit_window_epochs : Z;
  min_leaf_bond_sompi : Z;
  supersession_window_daa : Z;
  max_view_batches : Z;
  min_provider_bond_sompi : Z;
  provider_unbond_floor_epochs : Z;
}.
Definition admission_consistent_for_activation (a : PalwBatchAdmissionParams) : bool :=
  negb (max_view_batches a =? 0) && negb (max_batch_leaves a =? 0) && negb (max_leaf_chunk_leaves a =? 0) &&
  (max_leaf_chunk_leaves a <=? PALW_MAX_LEAVES_PER_CHUNK) && negb (min_provider_bond_sompi a =? 0) &&
  negb (provider_unbond_floor_epochs a =? 0).
Definition max_batch_life_epochs (a : PalwBatchAdmissionParams) : Z :=
  sat_add64 (sat_add64 (sat_mul64 (registration_lead_epochs a) 2) (audit_window_epochs a)) (active_window_epochs a).
Definition paid_work_walk_bound_daa (a : PalwBatchAdmissionParams) (epoch_length_daa : Z) : Z :=
  sat_mul64 (sat_add64 (max_batch_life_epochs a) 1) (Z.max epoch_length_daa 1).
Definition ADMISSION_INERT : PalwBatchAdmissionParams :=
  mkAdmission 256 PALW_MAX_LEAVES_PER_CHUNK 2 6 6 0 0 1024 (10 * 100000000) 6.

(** ** Life cycle of a batch *)

Record PalwBatchLifecycleV1 := mkLifecycle {
  l_status : PalwBatchStatus;
  l_registration_epoch : Z;
  l_activation_not_before_epoch : Z;
  l_expiry_epoch : Z;
  l_leaf_count : Z;
  l_chunk_count : Z;
  l_chunks_present : list Z;
  l_leaf_root : Hash64;
  l_cert_hash : option Hash64;
  l_cert_activation_epoch : Z;
  l_cert_expiry_epoch : Z;
  l_cert_approving_stake : Z;
  l_first_cert_daa : option Z;
  l_revoked_from_daa : option Z;
}.
Definition set_status (e : PalwBatchLifecycleV1) (s : PalwBatchStatus) : PalwBatchLifecycleV1 :=
  mkLifecycle s (l_registration_epoch e) (l_activation_not_before_epoch e) (l_expiry_epoch e) (l_leaf_count e) (l_chunk_count e)
    (l_chunks_present e) (l_leaf_root e) (l_cert_hash e) (l_cert_activation_epoch e) (l_cert_expiry_epoch e)
    (l_cert_approving_stake e) (l_first_cert_daa e) (l_revoked_from_daa e).
Definition set_chunks (e : PalwBatchLifecycleV1) (c : list Z) : PalwBatchLifecycleV1 :=
  mkLifecycle (l_status e) (l_registration_epoch e) (l_activation_not_before_epoch e) (l_expiry_epoch e) (l_leaf_count e)
    (l_chunk_count e) c (l_leaf_root e) (l_cert_hash e) (l_cert_activation_epoch e) (l_cert_expiry_epoch e)
    (l_cert_approving_stake e) (l_first_cert_daa e) (l_revoked_from_daa e).
Definition set_cert (e : PalwBatchLifecycleV1) (h : option Hash64) (stake : Z) (first : option Z) : PalwBatchLifecycleV1 :=
  mkLifecycle (l_status e) (l_registration_epoch e) (l_activation_not_before_epoch e) (l_expiry_epoch e) (l_leaf_count e)
    (l_chunk_count e) (l_chunks_present e) (l_leaf_root e) h (l_cert_activation_epoch e) (l_cert_expiry_epoch e)
    stake first (l_revoked_from_daa e).
Definition set_revoked (e : PalwBatchLifecycleV1) (r : option Z) : PalwBatchLifecycleV1 :=
  mkLifecycle (l_status e) (l_registration_epoch e) (l_activation_not_before_epoch e) (l_expiry_epoch e) (l_leaf_count e)
    (l_chunk_count e) (l_chunks_present e) (l_leaf_root e) (l_cert_hash e) (l_cert_activation_epoch e) (l_cert_expiry_epoch e)
    (l_cert_approving_stake e) (l_first_cert_daa e) r.
Definition is_block_eligible_at (e : PalwBatchLifecycleV1) (epoch daa : Z) : bool :=
  match l_revoked_from_daa e with None => true | Some from => daa <? from end &&
  is_block_eligible (l_status e) && bool_decide (is_Some (l_cert_hash e)) && (epoch <? l_expiry_epoch e).

(** [u64::count_ones] and the bits of the bitmap. *)
Definition count_ones (w : Z) : Z := len (filter (λ i, Z.testbit w i = true) (seqZ 0 64)).
Definition bitmap_count (c : list Z) : Z := foldr (λ w n, count_ones w + n) 0 c.

(** ** The view of a fork *)

Record PalwBatchViewV1 := mkView { v_version : Z; batches : gmap Hash64 PalwBatchLifecycleV1 }.
Definition View_new : PalwBatchViewV1 := mkView 1 ∅.
Definition View_default : PalwBatchViewV1 := mkView 0 ∅.
Definition set_entry (v : PalwBatchViewV1) (id : Hash64) (e : PalwBatchLifecycleV1) : PalwBatchViewV1 :=
  mkView (v_version v) (<[id := e]> (batches v)).
Definition resolvable_batch (v : PalwBatchViewV1) (batch_id : Hash64) (epoch daa : Z) : option PalwBatchLifecycleV1 :=
  match batches v !! batch_id with
  | Some e => if is_block_eligible_at e epoch daa then Some e else None
  | None => None
  end.
Definition retained (epoch daa lead audit : Z) (e : PalwBatchLifecycleV1) : bool :=
  palw_batch_referenceable (l_status e) match l_revoked_from_daa e with Some from => from <=? daa | None => false end
    (l_registration_epoch e) (l_expiry_epoch e) epoch lead audit.
Definition retain (v : PalwBatchViewV1) (epoch daa lead audit : Z) : PalwBatchViewV1 :=
  mkView (v_version v) (filter (λ p, retained epoch daa lead audit p.2 = true) (batches v)).

(** Every operation returns the new view and whether it changed. *)
Definition apply_leaf_chunk {E} (v : PalwBatchViewV1) (batch_id : Hash64) (chunk_index : Z) : outcome E (PalwBatchViewV1 * bool) :=
  match batches v !! batch_id with
  | None => Ok (v, false)
  | Some e =>
    if negb (bool_decide (l_status e = Registering)) || (l_chunk_count e <=? chunk_index) then Ok (v, false)
    else
      let word := Z.to_nat (chunk_index / 64) in
      let mask := Z.shiftl 1 (chunk_index mod 64) in
      match l_chunks_present e !! word with
      | None => Panic
      | Some w =>
        if negb (Z.land w mask =? 0) then Ok (v, false)
        else
          let e := set_chunks e (<[word := Z.lor w mask]> (l_chunks_present e)) in
          let e :=
            if bitmap_count (l_chunks_present e) =? l_chunk_count e
            then match status_next (l_status e) ChunksAndBondsComplete with Some next => set_status e next | None => e end
            else e in
          Ok (set_entry v batch_id e, true)
      end
  end.
Definition get_or_insert (o : option Z) (x : Z) : option Z := match o with Some y => Some y | None => Some x end.
Definition apply_certificate (v : PalwBatchViewV1) (batch_id cert_hash : Hash64) (current_daa : Z) : PalwBatchViewV1 * bool :=
  match batches v !! batch_id with
  | None => (v, false)
  | Some e =>
    let next :=
      match l_status e with
      | Auditing => status_next (l_status e) CertificateQuorum
      | Committed => Some Certified
      | _ => None
      end in
    match next with
    | None => (v, false)
    | Some next =>
      let e := set_status e next in
      let h := match l_cert_hash e with None => Some cert_hash | Some h => Some h end in
      (set_entry v batch_id (set_cert e h (l_cert_approving_stake e) (get_or_insert (l_first_cert_daa e) current_daa)), true)
    end
  end.
Definition apply_verified_certificate (v : PalwBatchViewV1) (batch_id cert_hash : Hash64) (approving_stake current_daa : Z) :
    PalwBatchViewV1 * bool :=
  match batches v !! batch_id with
  | None => (v, false)
  | Some entry =>
    if negb (match l_status entry with Committed | Auditing | Certified | Active => true | _ => false end) then (v, false)
    else
      let replace :=
        match l_cert_hash entry with
        | None => true
        | Some existing =>
          (l_cert_approving_stake entry <? approving_stake) ||
          ((approving_stake =? l_cert_approving_stake entry) && (hash64_order cert_hash <? hash64_order existing))
        end in
      if negb replace then (v, false)
      else
        let entry := match l_status entry with Committed | Auditing => set_status entry Certified | _ => entry end in
        (set_entry v batch_id (set_cert entry (Some cert_hash) approving_stake (get_or_insert (l_first_cert_daa entry) current_daa)), true)
  end.
Definition mark_revoked (v : PalwBatchViewV1) (batch_id : Hash64) (effective_daa : Z) : PalwBatchViewV1 * bool :=
  match batches v !! batch_id with
  | None => (v, false)
  | Some e =>
    match l_revoked_from_daa e with
    | Some _ => (v, false)
    | None => (set_entry v batch_id (set_revoked e (Some effective_daa)), true)
    end
  end.

Definition advance_entry (epoch lead audit : Z) (activation_open : bool) (e : PalwBatchLifecycleV1) : PalwBatchLifecycleV1 :=
  let deadline := sat_add64 (sat_add64 (l_registration_epoch e) lead) audit in
  match l_status e with
  | Registering => if deadline <? epoch then set_status e Expired else e
  | Committed => if deadline <=? epoch then set_status e Auditing else e
  | Certified =>
    if activation_open && (l_activation_not_before_epoch e <=? epoch)
    then set_status e (if epoch <? l_expiry_epoch e then Active else Expired)
    else if l_expiry_epoch e <=? epoch then set_status e Expired else e
  | Active => if l_expiry_epoch e <=? epoch then set_status e Expired else e
  | _ => e
  end.
Definition advance_epoch_gated (v : PalwBatchViewV1) (epoch lead audit : Z) (activation_open : bool) : PalwBatchViewV1 :=
  mkView (v_version v) (advance_entry epoch lead audit activation_open <$> batches v).
Definition advance_epoch (v : PalwBatchViewV1) (epoch lead audit : Z) : PalwBatchViewV1 := advance_epoch_gated v epoch lead audit true.

Section batches.
Context `{Crypto}.

Definition content_id (m : PalwBatchManifestV1) : Hash64 :=
  blake2b_512_keyed PALW_BATCH_ID_DOMAIN (manifest_borsh (with_batch_id m 0)).
Definition batch_id_is_content_derived (m : PalwBatchManifestV1) : bool := m_batch_id m =? content_id m.
Definition admission_valid (m : PalwBatchManifestV1)
    (accept_epoch max_batch_leaves max_leaf_chunk_leaves registration_lead_epochs active_window_epochs audit_window_epochs
     min_leaf_bond_sompi : Z) : bool :=
  if negb (m_version m =? 1) || negb (batch_id_is_content_derived m) then false
  else if (m_leaf_count m =? 0) || (max_batch_leaves <? m_leaf_count m) || (max_leaf_chunk_leaves =? 0) then false
  else if PALW_CHUNK_BITMAP_BITS <? m_chunk_count m then false
  else if m_total_leaf_bond_sompi m <? sat_mul64 (m_leaf_count m) min_leaf_bond_sompi then false
  else if negb (m_chunk_count m =? div_ceil_u32 (m_leaf_count m) max_leaf_chunk_leaves) then false
  else if negb (m_registration_epoch m =? accept_epoch) then false
  else
    let min_activation := sat_add64 (sat_add64 (m_registration_epoch m) registration_lead_epochs) audit_window_epochs in
    if m_activation_not_before_epoch m <? min_activation then false
    else if sat_add64 min_activation registration_lead_epochs <? m_activation_not_before_epoch m then false
    else
      (m_activation_not_before_epoch m <? m_expiry_epoch m) &&
      (m_expiry_epoch m <=? sat_add64 (m_activation_not_before_epoch m) active_window_epochs).

Definition registered (m : PalwBatchManifestV1) : PalwBatchLifecycleV1 :=
  mkLifecycle Registering (m_registration_epoch m) (m_activation_not_before_epoch m) (m_expiry_epoch m) (m_leaf_count m)
    (m_chunk_count m) [0; 0; 0; 0] (m_leaf_root m) None 0 0 0 None None.
Definition apply_manifest (v : PalwBatchViewV1) (m : PalwBatchManifestV1)
    (accept_epoch max_batch_leaves max_leaf_chunk_leaves registration_lead_epochs active_window_epochs audit_window_epochs
     min_leaf_bond_sompi max_view_batches : Z) : PalwBatchViewV1 * bool :=
  if negb (max_view_batches =? 0) && (max_view_batches <=? Z.of_nat (size (batches v))) then (v, false)
  else if negb (admission_valid m accept_epoch max_batch_leaves max_leaf_chunk_leaves registration_lead_epochs
                  active_window_epochs audit_window_epochs min_leaf_bond_sompi) then (v, false)
  else
    match batches v !! m_batch_id m with
    | Some _ => (v, false)
    | None => (set_entry v (m_batch_id m) (registered m), true)
    end.

(** ** The fold of a merge set

    The parsed overlay effects of a transaction; other effects and payloads
    that do not parse leave the view as it is. *)
Inductive PalwOverlayEffect : Type :=
  | EffManifest (m : PalwBatchManifestV1)
  | EffLeafChunk (batch_id : Hash64) (chunk_index : Z)
  | EffCertificate (batch_id cert_hash : Hash64)
  | EffOther.
Definition apply_effect {E} (a : PalwBatchAdmissionParams) (carrier_daa epoch_len : Z) (v : PalwBatchViewV1)
    (eff : PalwOverlayEffect) : outcome E PalwBatchViewV1 :=
  match eff with
  | EffManifest m =>
    Ok (apply_manifest v m (carrier_daa / epoch_len) (max_batch_leaves a) (max_leaf_chunk_leaves a) (registration_lead_epochs a)
          (active_window_epochs a) (audit_window_epochs a) (min_leaf_bond_sompi a) (max_view_batches a)).1
  | EffLeafChunk batch_id chunk_index => r ← apply_leaf_chunk v batch_id chunk_index; Ok r.1
  | EffCertificate batch_id cert_hash => Ok (apply_certificate v batch_id cert_hash carrier_daa).1
  | EffOther => Ok v
  end.
Fixpoint fold_effects {E} (a : PalwBatchAdmissionParams) (carrier_daa epoch_len : Z) (v : PalwBatchViewV1)
    (effs : list PalwOverlayEffect) : outcome E PalwBatchViewV1 :=
  match effs with
  | [] => Ok v
  | eff :: effs => v ← apply_effect a carrier_daa epoch_len v eff; fold_effects a carrier_daa epoch_len v effs
  end.
(** The blue blocks of the merge set, each with its DAA score and effects. *)
Fixpoint fold_blues {E} (a : PalwBatchAdmissionParams) (epoch_len : Z) (v : PalwBatchViewV1)
    (blues : list (Z * list PalwOverlayEffect)) : outcome E PalwBatchViewV1 :=
  match blues with
  | [] => Ok v
  | (carrier_daa, effs) :: blues => v ← fold_effects a carrier_daa epoch_len v effs; fold_blues a epoch_len v blues
  end.
Definition could_activate (v : PalwBatchViewV1) (epoch : Z) : bool :=
  existsb (λ p, bool_decide (l_status p.2 = Certified) && (l_activation_not_before_epoch p.2 <=? epoch)) (map_to_list (batches v)).
(** The row the body processor writes for a block, if it writes one: the view
    of the selected parent is absent before activation, and the lagged signal
    is absent without an anchor. *)
Definition commit_palw_overlay_view {E} (a : PalwBatchAdmissionParams) (palw_activation_daa_score palw_epoch_length_daa : Z)
    (header_version cur_daa : Z) (is_genesis : bool) (sp_view : option PalwBatchViewV1)
    (blues : list (Z * list PalwOverlayEffect)) (lagged_open : option bool) : outcome E (option PalwBatchViewV1) :=
  if palw_activation_daa_score =? U64_MAX then Ok None
  else if cur_daa <? palw_activation_daa_score then Ok None
  else if PALW_ANTISPAM_HEADER_VERSION <=? header_version then Ok (if is_genesis then Some View_new else None)
  else
    let epoch_len := Z.max palw_epoch_length_daa 1 in
    let epoch := cur_daa / epoch_len in
    view ← fold_blues a epoch_len (default View_default sp_view) blues;
    let activation_open := could_activate view epoch && default false lagged_open in
    let view := advance_epoch_gated view epoch (registration_lead_epochs a) (audit_window_epochs a) activation_open in
    Ok (Some (retain view epoch cur_daa (registration_lead_epochs a) (audit_window_epochs a))).

(** The batch a ticket of a block resolves to, from the view of the block's
    selected parent. *)
Definition ticket_lifecycle (a : PalwBatchAdmissionParams) (palw_epoch_length_daa : Z) (sp_view : PalwBatchViewV1)
    (batch_id : Hash64) (daa_score : Z) (activation_open : bool) : option PalwBatchLifecycleV1 :=
  let epoch := daa_score / Z.max palw_epoch_length_daa 1 in
  resolvable_batch (advance_epoch_gated sp_view epoch (registration_lead_epochs a) (audit_window_epochs a) activation_open)
    batch_id epoch daa_score.
Definition palw_certificate_matches_lifecycle (header_version : Z) (lifecycle_certificate : option Hash64) (named : Hash64) : bool :=
  (header_version <? PALW_ANTISPAM_HEADER_VERSION) || bool_decide (lifecycle_certificate = Some named).
End batches.
