(* ===== verification/PalwBatchThms.v ===== *)
(** * PALW: invariants of the batch view

    The view of every block keeps each batch inside its declared windows,
    certified exactly when its status says so and complete before it can be
    certified, and its size within the cap; building it never indexes outside
    the chunk bitmap. Blocks that use one batch lie within the window the
    reward rule walks, also on different forks, and verified certificates give
    the same view in every order. *)

From stdpp Require Import base list gmap sets strings.
From Stdlib Require Import ZArith Lia.
From S2P Require Import Prelude Tx Bytes Hashing Uint Palw PalwLeafTree PalwBatch.

Local Open Scope Z_scope.

(** ** The bitmap *)

Definition chunk_bit (c : list Z) (i : Z) : bool := Z.testbit (default 0 (c !! Z.to_nat (i / 64))) (i mod 64).

Lemma count_ones_segment c k w : c !! k = Some w →
  len (filter (λ i, chunk_bit c i = true) (seqZ (64 * Z.of_nat k) 64)) = count_ones w.
Proof.
  intros Hk. unfold count_ones.
  assert (Hs : seqZ (64 * Z.of_nat k) 64 = (Z.add (64 * Z.of_nat k)) <$> seqZ 0 64) by (by rewrite fmap_add_seqZ, Z.add_0_r).
  rewrite Hs. clear Hs.
  assert (Hin : ∀ i, i ∈ seqZ 0 64 → chunk_bit c (64 * Z.of_nat k + i) = Z.testbit w i).
  { intros i [Hi1 Hi2]%elem_of_seqZ. unfold chunk_bit.
    replace ((64 * Z.of_nat k + i) / 64) with (Z.of_nat k) by (apply (Z.div_unique_pos _ 64 _ i); lia).
    replace ((64 * Z.of_nat k + i) mod 64) with i by (apply (Z.mod_unique_pos _ 64 (Z.of_nat k) i); lia).
    by rewrite Nat2Z.id, Hk. }
  induction (seqZ 0 64) as [|i l IH]; [done|]. cbn [fmap list_fmap]. rewrite !filter_cons.
  rewrite (Hin i) by set_solver. assert (IH' := IH ltac:(intros; apply Hin; set_solver)). cbn beta in IH'.
  destruct (decide (Z.testbit w i = true)); cbn [length]; lia.
Qed.
Lemma bitmap_count_spec c : length c = 4%nat → bitmap_count c = len (filter (λ i, chunk_bit c i = true) (seqZ 0 256)).
Proof.
  intros Hc. destruct c as [|w0 [|w1 [|w2 [|w3 [|]]]]]; try discriminate Hc.
  change (seqZ 0 256) with (seqZ (64 * Z.of_nat 0) 64 ++ seqZ (64 * Z.of_nat 1) 64 ++ seqZ (64 * Z.of_nat 2) 64 ++ seqZ (64 * Z.of_nat 3) 64).
  rewrite !filter_app, !length_app, !Nat2Z.inj_add.
  rewrite (count_ones_segment _ 0 w0), (count_ones_segment _ 1 w1), (count_ones_segment _ 2 w2), (count_ones_segment _ 3 w3) by done.
  cbn [bitmap_count foldr]. lia.
Qed.

(** A count that reaches the number of chunks means every chunk is present. *)
Lemma bitmap_full c n : length c = 4%nat → 0 ≤ n ≤ 256 → (∀ i, 0 ≤ i < 256 → chunk_bit c i = true → i < n) →
  bitmap_count c = n → ∀ i, 0 ≤ i < n → chunk_bit c i = true.
Proof.
  intros Hc Hn Hb Hcount i Hi. rewrite (bitmap_count_spec c Hc) in Hcount.
  assert (Hsplit : seqZ 0 256 = seqZ 0 n ++ seqZ n (256 - n)).
  { replace 256 with (n + (256 - n)) at 1 by lia. rewrite seqZ_app by lia. by rewrite Z.add_0_l. }
  rewrite Hsplit, filter_app, length_app in Hcount.
  assert (Hz : filter (λ i, chunk_bit c i = true) (seqZ n (256 - n)) = []).
  { destruct (filter _ (seqZ n (256 - n))) as [|j l] eqn:Hf; [done|].
    assert (Hj : j ∈ filter (λ i, chunk_bit c i = true) (seqZ n (256 - n))) by (rewrite Hf; apply list_elem_of_here).
    apply list_elem_of_filter in Hj as [Hbit [Hj1 Hj2]%elem_of_seqZ]. specialize (Hb j ltac:(lia) Hbit). lia. }
  rewrite Hz in Hcount. cbn [length] in Hcount.
  destruct (chunk_bit c i) eqn:Hbit; [done|]. exfalso.
  assert (Hlt : (length (filter (λ i, chunk_bit c i = true) (seqZ 0 n)) < length (seqZ 0 n))%nat).
  { apply (length_filter_lt _ _ i); [apply elem_of_seqZ; lia|congruence]. }
  rewrite length_seqZ in Hlt. lia.
Qed.
Lemma chunk_bit_set c w i j : 0 ≤ i < 256 → 0 ≤ j < 256 → c !! Z.to_nat (i / 64) = Some w →
  chunk_bit (<[Z.to_nat (i / 64) := Z.lor w (Z.shiftl 1 (i mod 64))]> c) j = (j =? i) || chunk_bit c j.
Proof.
  intros Hi Hj Hw. unfold chunk_bit. pose proof (lookup_lt_Some _ _ _ Hw) as Hlt.
  pose proof (Z.mod_pos_bound i 64 ltac:(lia)). pose proof (Z.mod_pos_bound j 64 ltac:(lia)).
  pose proof (Z.div_mod i 64 ltac:(lia)). pose proof (Z.div_mod j 64 ltac:(lia)).
  destruct (decide (Z.to_nat (j / 64) = Z.to_nat (i / 64))) as [Heq|Hne].
  - rewrite Heq, list_lookup_insert_eq by done. cbn [default from_option id]. rewrite Hw. cbn [default from_option id].
    rewrite Z.lor_spec, Z.shiftl_spec, orb_comm by lia. f_equal.
    assert (j / 64 = i / 64) by (pose proof (Z.div_pos i 64); pose proof (Z.div_pos j 64); lia).
    destruct (Z.eqb_spec j i) as [->|Hji]; [by rewrite Z.sub_diag|].
    destruct (Z.ltb_spec (j mod 64) (i mod 64)).
    + apply Z.testbit_neg_r. lia.
    + apply Z.bits_above_log2; cbn; lia.
  - rewrite list_lookup_insert_ne by done. destruct (Z.eqb_spec j i) as [->|]; done.
Qed.
Lemma land_bit w b : 0 ≤ b → (Z.land w (Z.shiftl 1 b) =? 0) = negb (Z.testbit w b).
Proof.
  intros Hb. destruct (Z.testbit w b) eqn:Hw; cbn [negb].
  - apply Z.eqb_neq. intros Hz. apply (f_equal (λ z, Z.testbit z b)) in Hz.
    rewrite Z.land_spec, Z.shiftl_spec, Z.sub_diag, Hw, Z.bits_0 in Hz by lia. discriminate Hz.
  - apply Z.eqb_eq, Z.bits_inj_0. intros n. rewrite Z.land_spec.
    destruct (decide (n = b)) as [->|]; [by rewrite Hw|]. destruct (decide (0 ≤ n)); [|by rewrite !Z.testbit_neg_r by lia].
    rewrite Z.shiftl_spec by lia. destruct (decide (n < b)); [rewrite (Z.testbit_neg_r 1) by lia; apply andb_false_r|].
    rewrite (Z.bits_above_log2 1) by (cbn; lia). apply andb_false_r.
Qed.

(** ** The invariant of an entry *)

Definition is_live (s : PalwBatchStatus) : bool :=
  match s with Registering | Committed | Auditing | Certified | Active => true | _ => false end.
Definition is_complete (s : PalwBatchStatus) : bool := match s with Committed | Auditing | Certified | Active => true | _ => false end.
Definition is_certified (s : PalwBatchStatus) : bool := match s with Certified | Active => true | _ => false end.

Record in_windows (a : PalwBatchAdmissionParams) (e : PalwBatchLifecycleV1) : Prop := {
  win_min : sat_add64 (sat_add64 (l_registration_epoch e) (registration_lead_epochs a)) (audit_window_epochs a) ≤ l_activation_not_before_epoch e;
  win_max : l_activation_not_before_epoch e ≤
    sat_add64 (sat_add64 (sat_add64 (l_registration_epoch e) (registration_lead_epochs a)) (audit_window_epochs a)) (registration_lead_epochs a);
  win_nonempty : l_activation_not_before_epoch e < l_expiry_epoch e;
  win_active : l_expiry_epoch e ≤ sat_add64 (l_activation_not_before_epoch e) (active_window_epochs a);
}.
Record bitmap_ok (e : PalwBatchLifecycleV1) : Prop := {
  bm_count : 1 ≤ l_chunk_count e ≤ 256;
  bm_words : length (l_chunks_present e) = 4%nat;
  bm_bits : ∀ i, 0 ≤ i < 256 → chunk_bit (l_chunks_present e) i = true → i < l_chunk_count e;
}.
Record entry_ok (a : PalwBatchAdmissionParams) (epoch : Z) (e : PalwBatchLifecycleV1) : Prop := {
  ok_windows : in_windows a e;
  ok_bitmap : bitmap_ok e;
  ok_registering : l_status e = Registering → bitmap_count (l_chunks_present e) ≠ l_chunk_count e;
  ok_complete : is_complete (l_status e) = true → bitmap_count (l_chunks_present e) = l_chunk_count e;
  ok_certified : is_live (l_status e) = true → bool_decide (is_Some (l_cert_hash e)) = is_certified (l_status e);
  ok_active : l_status e = Active → l_activation_not_before_epoch e ≤ epoch;
  ok_unrevoked : l_revoked_from_daa e = None;
}.
(** The fields of an entry that come from its manifest; [O] says which manifests
    they may come from. *)
Definition static (e : PalwBatchLifecycleV1) : Z * Z * Z * Z * Z * Hash64 :=
  (l_registration_epoch e, l_activation_not_before_epoch e, l_expiry_epoch e, l_leaf_count e, l_chunk_count e, l_leaf_root e).
Definition origin : Type := Hash64 → Z * Z * Z * Z * Z * Hash64 → Prop.

(** Within a merge set every batch is live; the epoch's transitions expire
    batches, which are dropped. *)
Record view_ok (a : PalwBatchAdmissionParams) (epoch : Z) (O : origin) (v : PalwBatchViewV1) : Prop := {
  ok_entries : map_Forall (λ id e, entry_ok a epoch e ∧ is_live (l_status e) = true ∧ O id (static e)) (batches v);
  ok_size : max_view_batches a ≠ 0 → Z.of_nat (size (batches v)) ≤ max_view_batches a;
}.

Lemma entry_ok_mono a ep ep' e : ep ≤ ep' → entry_ok a ep e → entry_ok a ep' e.
Proof. intros Hle []. constructor; try done. intros Hs. specialize (ok_active0 Hs). lia. Qed.
Lemma view_ok_mono a ep ep' (O O' : origin) v : ep ≤ ep' → (∀ id t, O id t → O' id t) → view_ok a ep O v → view_ok a ep' O' v.
Proof.
  intros Hle HO [He Hs]. constructor; [|done]. intros id e Hid. destruct (He id e Hid) as (Hok & Hl & Ho).
  split; [by eapply entry_ok_mono|]. split; [done|by apply HO].
Qed.
Lemma view_ok_default a ep O : 0 ≤ max_view_batches a → view_ok a ep O View_default.
Proof. intros Hm. constructor; [apply map_Forall_empty|]. intros _. cbn. rewrite map_size_empty. lia. Qed.
Lemma set_entry_ok a ep O v id e old : view_ok a ep O v → batches v !! id = Some old → static e = static old →
  entry_ok a ep e → is_live (l_status e) = true → view_ok a ep O (set_entry v id e).
Proof.
  intros [He Hs] Hold Hst Hok Hl. constructor; cbn [set_entry batches].
  - apply map_Forall_insert_2; [|exact He]. rewrite Hst. destruct (He id old Hold) as (_ & _ & Ho). done.
  - intros Hm. rewrite map_size_insert, Hold. by apply Hs.
Qed.

(** ** Every operation keeps it *)

Lemma leaf_chunk_ok {E} a ep O v id i : view_ok a ep O v → 0 ≤ i →
  ∃ r, apply_leaf_chunk (E:=E) v id i = Ok r ∧ view_ok a ep O r.1.
Proof.
  intros Hv Hi. unfold apply_leaf_chunk. destruct (batches v !! id) as [e|] eqn:He; [|by eexists].
  destruct (ok_entries _ _ _ _ Hv id e He) as (Hok & Hl & _).
  case_bool_decide as Hst; cbn [negb orb]; [|by eexists].
  destruct (Z.leb_spec (l_chunk_count e) i) as [Hge|Hlt]; [by eexists|].
  destruct (ok_bitmap _ _ _ Hok) as [Hc Hw Hb].
  destruct (lookup_lt_is_Some_2 (l_chunks_present e) (Z.to_nat (i / 64))) as [w Hword].
  { rewrite Hw. pose proof (Z.div_lt_upper_bound i 64 4). pose proof (Z.div_pos i 64). lia. }
  rewrite Hword. destruct (negb _); [by eexists|]. eexists. split; [done|]. cbn [fst].
  set (c := <[_ := _]> _). set (e1 := set_chunks e c).
  assert (Hbm : bitmap_ok e1).
  { constructor; cbn; [done|by unfold c; rewrite length_insert|]. intros j Hj. unfold c.
    rewrite (chunk_bit_set _ w) by (done || lia). intros [->%Z.eqb_eq|Hbit]%orb_true_iff; [done|by apply Hb]. }
  destruct Hok as [Hwin _ _ _ Hcert _ Hrev]. rewrite Hst in Hcert. specialize (Hcert eq_refl).
  destruct (Z.eqb_spec (bitmap_count (l_chunks_present e1)) (l_chunk_count e1)) as [Hcnt|Hcnt].
  - change (l_status e1) with (l_status e). rewrite Hst. cbn [status_next].
    eapply set_entry_ok; [done|exact He|done| |done]. constructor; cbn; try done; by destruct Hwin, Hbm.
  - eapply set_entry_ok; [done|exact He|done| |done].
    constructor; cbn; rewrite ?Hst; try done; by destruct Hwin, Hbm.
Qed.
Lemma certificate_ok a ep O v id h d : view_ok a ep O v → view_ok a ep O (apply_certificate v id h d).1.
Proof.
  intros Hv. unfold apply_certificate. destruct (batches v !! id) as [e|] eqn:He; [|done].
  destruct (ok_entries _ _ _ _ Hv id e He) as ([Hwin Hbm _ Hcomp Hcert _ Hrev] & Hl & _).
  destruct (l_status e) eqn:Hst; cbn [status_next]; try exact Hv; cbn [fst];
    (eapply set_entry_ok; [done|exact He|done| |done]; constructor; cbn;
     [by destruct Hwin|by destruct Hbm|done|by intros _; apply Hcomp|by intros _; destruct (l_cert_hash e)|done|done]).
Qed.
Lemma advance_entry_ok a ep ep' lead audit open e : ep ≤ ep' → entry_ok a ep e →
  entry_ok a ep' (advance_entry ep' lead audit open e).
Proof.
  intros Hle Hok. apply (entry_ok_mono _ _ ep' _ Hle) in Hok. pose proof Hok as [Hwin Hbm Hreg Hcomp Hcert Hact Hrev].
  unfold advance_entry. destruct (l_status e) eqn:Hst; try exact Hok; repeat case_match; try exact Hok;
    (constructor; cbn; [by destruct Hwin|by destruct Hbm| | | | |done]; try done; try (intros _; by apply Hcomp); try (intros _; by apply Hcert)).
  intros _. match goal with Hb : _ && _ = true |- _ => apply andb_true_iff in Hb as [_ Hb%Z.leb_le]; exact Hb end.
Qed.
Lemma static_advance ep lead audit open e : static (advance_entry ep lead audit open e) = static e.
Proof. unfold advance_entry. by repeat case_match. Qed.
Lemma retained_live ep daa lead audit e : retained ep daa lead audit e = true → is_live (l_status e) = true.
Proof. unfold retained, palw_batch_referenceable. destruct (l_status e); cbn; rewrite ?orb_true_r; try done; by case_match. Qed.
Lemma advance_retain_ok a ep ep' O v lead audit open daa : ep ≤ ep' → view_ok a ep O v →
  view_ok a ep' O (retain (advance_epoch_gated v ep' lead audit open) ep' daa lead audit).
Proof.
  intros Hle [He Hs]. constructor; cbn [retain advance_epoch_gated batches].
  - intros id e [Hid Hr]%map_lookup_filter_Some. cbn in Hr. apply lookup_fmap_Some in Hid as (e0 & <- & Hid).
    destruct (He id e0 Hid) as (Hok & _ & Ho). split; [by eapply advance_entry_ok|].
    split; [by eapply retained_live|by rewrite static_advance].
  - intros Hm. specialize (Hs Hm).
    assert (size (filter (λ p, retained ep' daa lead audit p.2 = true) (advance_entry ep' lead audit open <$> batches v)) ≤ size (batches v))%nat; [|lia].
    rewrite <- (map_size_fmap (advance_entry ep' lead audit open) (batches v)). apply map_size_filter.
Qed.

(** ** Views of blocks *)

Record params_typed (a : PalwBatchAdmissionParams) : Prop := {
  pt_chunk : is_uint 2 (max_leaf_chunk_leaves a);
  pt_lead : is_uint 8 (registration_lead_epochs a);
  pt_window : is_uint 8 (active_window_epochs a);
  pt_audit : is_uint 8 (audit_window_epochs a);
  pt_max : is_uint 4 (max_view_batches a);
}.
Record manifest_typed (m : PalwBatchManifestV1) : Prop := {
  mt_version : is_uint 2 (m_version m);
  mt_batch_id : is_uint 64 (m_batch_id m);
  mt_registration : is_uint 8 (m_registration_epoch m);
  mt_model : is_uint 64 (m_model_profile_id m);
  mt_runtime : is_uint 64 (m_runtime_class_id m);
  mt_leaves : is_uint 4 (m_leaf_count m);
  mt_chunks : is_uint 2 (m_chunk_count m);
  mt_root : is_uint 64 (m_leaf_root m);
  mt_descriptor : is_uint 64 (m_descriptor_root m);
  mt_bond : is_uint 8 (m_total_leaf_bond_sompi m);
  mt_policy : is_uint 64 (m_audit_policy_id m);
  mt_activation : is_uint 8 (m_activation_not_before_epoch m);
  mt_expiry : is_uint 8 (m_expiry_epoch m);
}.
Definition effect_typed (eff : PalwOverlayEffect) : Prop :=
  match eff with EffManifest m => manifest_typed m | EffLeafChunk _ i => is_uint 2 i | _ => True end.
Definition blues_typed (blues : list (Z * list PalwOverlayEffect)) : Prop := Forall (λ b, Forall effect_typed b.2) blues.
(** The manifests the blocks of a merge set carry. *)
Definition effect_manifests (effs : list PalwOverlayEffect) : list PalwBatchManifestV1 :=
  omap (λ eff, match eff with EffManifest m => Some m | _ => None end) effs.
Definition carried (blues : list (Z * list PalwOverlayEffect)) : list PalwBatchManifestV1 := concat ((λ b, effect_manifests b.2) <$> blues).

Lemma div_ceil_pos n d : 0 < n → 0 < d → 1 ≤ div_ceil_u32 n d.
Proof.
  intros Hn Hd. unfold div_ceil_u32. pose proof (Z.div_mod n d ltac:(lia)). pose proof (Z.div_pos n d ltac:(lia) Hd).
  destruct (Z.eqb_spec (n mod d) 0); [|lia]. assert (n / d ≠ 0) by (intros Hz; rewrite Hz in *; lia). lia.
Qed.

Section views.
Context `{Crypto} (a : PalwBatchAdmissionParams) (Hpt : params_typed a).

(** An entry comes from a carried manifest whose hash is its identifier. *)
Definition from_manifests (ms : list PalwBatchManifestV1) : origin := λ id t,
  ∃ m, m ∈ ms ∧ manifest_typed m ∧ id = content_id m ∧ t = static (registered m).

Lemma admission_inv m epoch : manifest_typed m →
  admission_valid m epoch (max_batch_leaves a) (max_leaf_chunk_leaves a) (registration_lead_epochs a) (active_window_epochs a)
    (audit_window_epochs a) (min_leaf_bond_sompi a) = true →
  in_windows a (registered m) ∧ 1 ≤ m_chunk_count m ≤ 256 ∧ m_batch_id m = content_id m.
Proof using Hpt.
  intros Hm. unfold admission_valid.
  destruct (negb (m_version m =? 1)); [done|]. cbn [orb].
  destruct (batch_id_is_content_derived m) eqn:Hid; [|done]. cbn [negb orb]. apply Z.eqb_eq in Hid.
  destruct (Z.eqb_spec (m_leaf_count m) 0); [done|]. destruct (max_batch_leaves a <? m_leaf_count m); [done|]. cbn [orb].
  destruct (Z.eqb_spec (max_leaf_chunk_leaves a) 0); [done|].
  destruct (Z.ltb_spec PALW_CHUNK_BITMAP_BITS (m_chunk_count m)) as [|Hc]; [done|]. unfold PALW_CHUNK_BITMAP_BITS in Hc.
  destruct (m_total_leaf_bond_sompi m <? _); [done|].
  destruct (Z.eqb_spec (m_chunk_count m) (div_ceil_u32 (m_leaf_count m) (max_leaf_chunk_leaves a))) as [Hcc|]; [|done]. cbn [negb].
  destruct (m_registration_epoch m =? epoch); [|done]. cbn [negb].
  destruct (Z.ltb_spec (m_activation_not_before_epoch m) (sat_add64 (sat_add64 (m_registration_epoch m) (registration_lead_epochs a)) (audit_window_epochs a))); [done|].
  destruct (Z.ltb_spec (sat_add64 (sat_add64 (sat_add64 (m_registration_epoch m) (registration_lead_epochs a)) (audit_window_epochs a)) (registration_lead_epochs a)) (m_activation_not_before_epoch m)); [done|].
  intros [Hlt%Z.ltb_lt Hle%Z.leb_le]%andb_true_iff. split; [by constructor|]. split; [|done].
  pose proof (mt_leaves _ Hm). pose proof (pt_chunk _ Hpt). unfold is_uint in *.
  rewrite Hcc in Hc |- *. split; [apply div_ceil_pos; lia|lia].
Qed.
Lemma registered_ok m epoch ep : manifest_typed m →
  admission_valid m epoch (max_batch_leaves a) (max_leaf_chunk_leaves a) (registration_lead_epochs a) (active_window_epochs a)
    (audit_window_epochs a) (min_leaf_bond_sompi a) = true → entry_ok a ep (registered m).
Proof using Hpt.
  intros Hm Hv. destruct (admission_inv m epoch Hm Hv) as (Hw & Hc & _).
  constructor; cbn; try done.
  - constructor; cbn; [done|done|]. intros i Hi. unfold chunk_bit.
    assert (Hz : [0; 0; 0; 0] !! Z.to_nat (i / 64) = Some 0 ∨ [0; 0; 0; 0] !! Z.to_nat (i / 64) = None)
      by (destruct (Z.to_nat (i / 64)) as [|[|[|[|]]]]; auto).
    by destruct Hz as [-> | ->]; cbn; rewrite Z.bits_0.
  - intros _. change (0 ≠ m_chunk_count m). lia.
Qed.
Lemma manifest_ok ms ep v m epoch : manifest_typed m → m ∈ ms → view_ok a ep (from_manifests ms) v →
  view_ok a ep (from_manifests ms) (apply_manifest v m epoch (max_batch_leaves a) (max_leaf_chunk_leaves a) (registration_lead_epochs a)
    (active_window_epochs a) (audit_window_epochs a) (min_leaf_bond_sompi a) (max_view_batches a)).1.
Proof using Hpt.
  intros Hm Hin Hv. unfold apply_manifest. destruct (negb _ && _) eqn:Hcap; [done|].
  destruct (admission_valid _ _ _ _ _ _ _ _) eqn:Hadm; [|done]. cbn [negb].
  destruct (batches v !! m_batch_id m) eqn:He; [done|]. cbn [fst].
  destruct (admission_inv m epoch Hm Hadm) as (_ & _ & Hid). constructor; cbn [set_entry batches].
  - apply map_Forall_insert_2; [|apply Hv]. split; [by eapply registered_ok|]. split; [done|]. by exists m.
  - intros Hmax. rewrite map_size_insert, He.
    apply andb_false_iff in Hcap as [Hc|Hc]; [apply negb_false_iff, Z.eqb_eq in Hc; lia|apply Z.leb_gt in Hc; lia].
Qed.
Lemma effects_ok {E} ms ep daa len v effs : Forall effect_typed effs → effect_manifests effs ⊆ ms → view_ok a ep (from_manifests ms) v →
  ∃ v', fold_effects (E:=E) a daa len v effs = Ok v' ∧ view_ok a ep (from_manifests ms) v'.
Proof using Hpt.
  intros Ht Hsub. revert v. induction Ht as [|eff effs Heff Ht IH]; intros v Hv; [by eexists|].
  cbn [fold_effects]. assert (Hs : effect_manifests effs ⊆ ms) by (destruct eff; cbn in Hsub; set_solver).
  assert (Hstep : ∃ v1, apply_effect (E:=E) a daa len v eff = Ok v1 ∧ view_ok a ep (from_manifests ms) v1).
  { destruct eff as [m|id i|id h|]; cbn [apply_effect].
    - eexists. split; [done|]. apply manifest_ok; [done|cbn in Hsub; set_solver|done].
    - destruct (leaf_chunk_ok (E:=E) a ep (from_manifests ms) v id i Hv) as (r & -> & Hr); [apply Heff|]. by eexists.
    - eexists. split; [done|]. by apply certificate_ok.
    - by eexists. }
  destruct Hstep as (v1 & -> & Hv1). cbn [mbind outcome_bind]. by apply IH.
Qed.
Lemma blues_ok {E} ms ep len v blues : blues_typed blues → carried blues ⊆ ms → view_ok a ep (from_manifests ms) v →
  ∃ v', fold_blues (E:=E) a len v blues = Ok v' ∧ view_ok a ep (from_manifests ms) v'.
Proof using Hpt.
  intros Ht Hsub. revert v. induction Ht as [|[daa effs] blues Heff Ht IH]; intros v Hv; [by eexists|].
  cbn [fold_blues]. cbn in Hsub. destruct (effects_ok (E:=E) ms ep daa len v effs) as (v1 & -> & Hv1); [done|set_solver|done|].
  cbn [mbind outcome_bind]. apply IH; [unfold carried; set_solver|done].
Qed.

(** The views the body processor writes along a chain of selected parents, from
    the first block after activation, with the manifests carried so far. The
    DAA score does not decrease along the chain. *)
Inductive body_view (activation epoch_length : Z) : Z → PalwBatchViewV1 → list PalwBatchManifestV1 → Prop :=
  | body_view_start d : 0 ≤ d → body_view activation epoch_length d View_default []
  | body_view_step d v ms d' version blues lagged_open v' :
      body_view activation epoch_length d v ms → d ≤ d' → blues_typed blues →
      version < PALW_ANTISPAM_HEADER_VERSION →
      commit_palw_overlay_view (E:=unit) a activation epoch_length version d' false (Some v) blues lagged_open = Ok (Some v') →
      body_view activation epoch_length d' v' (ms ++ carried blues).

Lemma commit_ok {E} activation len version d d' v ms blues lagged :
  d ≤ d' → blues_typed blues → view_ok a (d / Z.max len 1) (from_manifests ms) v →
  ∃ r, commit_palw_overlay_view (E:=E) a activation len version d' false (Some v) blues lagged = Ok r ∧
    (∀ v', r = Some v' → view_ok a (d' / Z.max len 1) (from_manifests (ms ++ carried blues)) v').
Proof using Hpt.
  intros Hle Ht Hv. unfold commit_palw_overlay_view. destruct (activation =? U64_MAX); [by eexists|].
  destruct (d' <? activation); [by eexists|]. destruct (PALW_ANTISPAM_HEADER_VERSION <=? version); [by eexists|].
  cbn [default from_option id].
  destruct (blues_ok (E:=E) (ms ++ carried blues) (d / Z.max len 1) (Z.max len 1) v blues) as (v1 & -> & Hv1); [done|set_solver| |].
  { eapply view_ok_mono; [done| |exact Hv]. intros id t (m & Hm & Hr). exists m. split; [set_solver|done]. }
  cbn [mbind outcome_bind]. eexists. split; [done|]. intros v' [= <-].
  apply (advance_retain_ok a (d / Z.max len 1)); [apply Z.div_le_mono; lia|done].
Qed.
Lemma body_view_ok activation len d v ms : body_view activation len d v ms →
  view_ok a (d / Z.max len 1) (from_manifests ms) v ∧ 0 ≤ d.
Proof using Hpt.
  induction 1 as [d Hd|d v ms d' version blues lagged v' Hb [IH Hd] Hle Ht Hver Hc].
  - split; [|done]. apply view_ok_default. pose proof (pt_max _ Hpt). unfold is_uint in *. lia.
  - split; [|lia]. destruct (commit_ok (E:=unit) activation len version d d' v ms blues lagged Hle Ht IH) as (r & Hr & Hok).
    apply Hok. rewrite Hc in Hr. by injection Hr as <-.
Qed.

(** C36. The view of every block of a chain of headers below version 4: each
    batch in it is live, comes from a manifest the chain carried whose hash is
    its identifier, expires at most a maximal batch life after its registration,
    has every chunk recorded once it is past registration, is certified exactly
    when its status says so, and is active only from its activation epoch on;
    there are at most as many batches as the cap allows. From it the view of any further block is built without a
    failure, whatever chunk indices its merge set carries. *)
Theorem batch_view_invariant activation len d v ms : body_view activation len d v ms →
  (∀ id e, batches v !! id = Some e →
     is_live (l_status e) = true ∧ from_manifests ms id (static e) ∧
     l_activation_not_before_epoch e < l_expiry_epoch e ≤ l_registration_epoch e + max_batch_life_epochs a ∧
     (is_complete (l_status e) = true → ∀ i, 0 ≤ i < l_chunk_count e → chunk_bit (l_chunks_present e) i = true) ∧
     (is_Some (l_cert_hash e) ↔ is_certified (l_status e) = true) ∧
     (l_status e = Active → l_activation_not_before_epoch e ≤ d / Z.max len 1)) ∧
  (max_view_batches a ≠ 0 → Z.of_nat (size (batches v)) ≤ max_view_batches a) ∧
  (∀ d' version blues lagged_open, d ≤ d' → blues_typed blues →
     ∃ r, commit_palw_overlay_view (E:=unit) a activation len version d' false (Some v) blues lagged_open = Ok r).
Proof using Hpt.
  intros Hb. destruct (body_view_ok _ _ _ _ _ Hb) as [Hv Hd]. split; [|split].
  - intros id e He. destruct (ok_entries _ _ _ _ Hv id e He) as ([Hw Hbm Hreg Hcomp Hcert Hact Hrev] & Hl & Ho).
    split; [done|]. split; [done|]. split.
    { destruct Hw as [W1 W2 W3 W4], Ho as (m & _ & Hm & _ & Hst). injection Hst as Hr Ha Hx _ _ _.
      pose proof (mt_registration _ Hm). pose proof (mt_expiry _ Hm). rewrite <- Hr, <- Hx in *.
      pose proof (pt_lead _ Hpt). pose proof (pt_window _ Hpt). pose proof (pt_audit _ Hpt).
      unfold is_uint, max_batch_life_epochs, sat_mul64, sat_add64, U64_MAX in *. lia. }
    split; [intros Hc; apply bitmap_full; [apply Hbm|pose proof (bm_count _ Hbm); lia|apply Hbm|by apply Hcomp]|].
    split; [|done]. specialize (Hcert Hl). rewrite <- Hcert. by rewrite bool_decide_eq_true.
  - apply Hv.
  - intros d' version blues lagged Hle Ht.
    destruct (commit_ok (E:=unit) activation len version d d' v ms blues lagged Hle Ht Hv) as (r & Hr & _). by exists r.
Qed.

(** ** Two blocks that use one batch *)

Lemma manifest_borsh_inj m1 m2 : manifest_typed m1 → manifest_typed m2 →
  manifest_borsh (with_batch_id m1 0) = manifest_borsh (with_batch_id m2 0) → static (registered m1) = static (registered m2).
Proof.
  intros [] [] Heq. unfold manifest_borsh in Heq. cbn [with_batch_id m_version m_batch_id m_registration_epoch m_model_profile_id
    m_runtime_class_id m_leaf_count m_chunk_count m_leaf_root m_descriptor_root m_total_leaf_bond_sompi m_audit_policy_id
    m_activation_not_before_epoch m_expiry_epoch] in Heq.
  assert (H0 : is_uint 64 0) by (unfold is_uint; lia).
  do 12 (apply prefix_code in Heq as [? Heq]; [|done..]).
  apply (f_equal (λ l, l ++ [])) in Heq. apply prefix_code in Heq as [? _]; [|done..].
  unfold static. cbn. congruence.
Qed.
Definition manifest_strings (ms : list PalwBatchManifestV1) : list (list byte) := (λ m, manifest_borsh (with_batch_id m 0)) <$> ms.
Lemma same_batch_static ms1 ms2 id t1 t2 : from_manifests ms1 id t1 → from_manifests ms2 id t2 →
  t1 = t2 ∨ keyed_collision PALW_BATCH_ID_DOMAIN (manifest_strings ms1) (manifest_strings ms2).
Proof.
  intros (m1 & Hi1 & Ht1 & Hid1 & ->) (m2 & Hi2 & Ht2 & Hid2 & ->). rewrite Hid1 in Hid2.
  apply (keyed_eq _ _ _ (manifest_strings ms1) (manifest_strings ms2)) in Hid2 as [Heq|];
    [left; by apply manifest_borsh_inj|by right|apply list_elem_of_fmap; by eexists..].
Qed.
(** A batch that a ticket resolves to is inside its active window. *)
Lemma ticket_in_window activation len d v ms id daa open e : body_view activation len d v ms → d ≤ daa →
  ticket_lifecycle a len v id daa open = Some e →
  from_manifests ms id (static e) ∧ in_windows a e ∧ l_activation_not_before_epoch e ≤ daa / Z.max len 1 < l_expiry_epoch e.
Proof using Hpt.
  intros Hb Hle. destruct (body_view_ok _ _ _ _ _ Hb) as [Hv Hd]. unfold ticket_lifecycle, resolvable_batch.
  cbn [advance_epoch_gated batches]. rewrite lookup_fmap. destruct (batches v !! id) as [e0|] eqn:He; [|done]. cbn.
  destruct (is_block_eligible_at _ _ _) eqn:Hel; [|done]. intros [= <-].
  destruct (ok_entries _ _ _ _ Hv id e0 He) as (Hok & _ & Ho).
  apply (advance_entry_ok _ _ (daa / Z.max len 1) (registration_lead_epochs a) (audit_window_epochs a) open) in Hok;
    [|apply Z.div_le_mono; lia].
  unfold is_block_eligible_at in Hel. apply andb_true_iff in Hel as [[[_ Hst%bool_decide_eq_true]%andb_true_iff _]%andb_true_iff Hx%Z.ltb_lt].
  split; [by rewrite static_advance|]. split; [apply Hok|]. split; [by apply Hok|done].
Qed.

(** Two blocks whose tickets use one batch, on the same fork or on different
    ones, are less than an active window apart in epochs and within the bound
    the duplicate-work walk uses in DAA score, unless two carried manifests
    collide. *)
Theorem same_batch_within_walk activation1 activation2 len d1 d2 v1 v2 ms1 ms2 id daa1 daa2 open1 open2 e1 e2 :
  body_view activation1 len d1 v1 ms1 → body_view activation2 len d2 v2 ms2 →
  d1 ≤ daa1 ≤ U64_MAX → d2 ≤ daa2 ≤ U64_MAX →
  ticket_lifecycle a len v1 id daa1 open1 = Some e1 → ticket_lifecycle a len v2 id daa2 open2 = Some e2 →
  (Z.abs (daa1 / Z.max len 1 - daa2 / Z.max len 1) < active_window_epochs a ∧
   Z.abs (daa1 - daa2) ≤ paid_work_walk_bound_daa a len) ∨
  keyed_collision PALW_BATCH_ID_DOMAIN (manifest_strings ms1) (manifest_strings ms2).
Proof using Hpt.
  intros Hb1 Hb2 Hd1 Hd2 Ht1 Ht2.
  destruct (body_view_ok _ _ _ _ _ Hb1) as [_ P1]. destruct (body_view_ok _ _ _ _ _ Hb2) as [_ P2].
  destruct (ticket_in_window _ _ _ _ _ _ _ _ _ Hb1 (proj1 Hd1) Ht1) as (Ho1 & Hw1 & Hx1).
  destruct (ticket_in_window _ _ _ _ _ _ _ _ _ Hb2 (proj1 Hd2) Ht2) as (Ho2 & Hw2 & Hx2).
  destruct (same_batch_static ms1 ms2 id _ _ Ho1 Ho2) as [Hst|]; [left|by right].
  injection Hst as _ Ha Hx _ _ _. pose proof (win_active _ _ Hw2) as Hact. rewrite Ha, Hx in *.
  set (l := Z.max len 1) in *. assert (1 ≤ l) by lia.
  assert (Hab : Z.abs (daa1 / l - daa2 / l) < active_window_epochs a) by (unfold sat_add64 in Hact; lia).
  split; [done|].
  assert (Hdaa : Z.abs (daa1 - daa2) ≤ active_window_epochs a * l).
  { pose proof (Z.div_mod daa1 l ltac:(lia)). pose proof (Z.div_mod daa2 l ltac:(lia)).
    pose proof (Z.mod_pos_bound daa1 l ltac:(lia)). pose proof (Z.mod_pos_bound daa2 l ltac:(lia)). nia. }
  unfold paid_work_walk_bound_daa. fold l. pose proof (pt_lead _ Hpt). pose proof (pt_window _ Hpt). pose proof (pt_audit _ Hpt).
  unfold is_uint in *. unfold sat_mul64 at 1. apply Z.min_glb; [|lia].
  destruct (decide (active_window_epochs a ≤ sat_add64 (max_batch_life_epochs a) 1)) as [Hle|Hgt]; [nia|].
  unfold max_batch_life_epochs, sat_add64, sat_mul64, U64_MAX in Hgt. lia.
Qed.
End views.

(** ** Verified certificates *)

(** The certificate that wins: more stake, then the smaller hash. *)
Definition better (c1 c2 : Hash64 * Z) : bool :=
  (c2.2 <? c1.2) || ((c1.2 =? c2.2) && (hash64_order c1.1 <? hash64_order c2.1)).
Definition install (daa : Z) (e : PalwBatchLifecycleV1) (c : Hash64 * Z) : PalwBatchLifecycleV1 :=
  let e := match l_status e with Committed | Auditing => set_status e Certified | _ => e end in
  set_cert e (Some c.1) c.2 (get_or_insert (l_first_cert_daa e) daa).
Definition replaces (e : PalwBatchLifecycleV1) (c : Hash64 * Z) : bool :=
  is_complete (l_status e) && match l_cert_hash e with None => true | Some h => better c (h, l_cert_approving_stake e) end.
Definition verified_step (daa : Z) (e : PalwBatchLifecycleV1) (c : Hash64 * Z) : PalwBatchLifecycleV1 :=
  if replaces e c then install daa e c else e.
Definition apply_verified (v : PalwBatchViewV1) (id : Hash64) (daa : Z) (certs : list (Hash64 * Z)) : PalwBatchViewV1 :=
  foldl (λ v c, (apply_verified_certificate v id c.1 c.2 daa).1) v certs.

Lemma set_entry_id v id e : batches v !! id = Some e → set_entry v id e = v.
Proof. intros He. unfold set_entry. rewrite insert_id by done. by destruct v. Qed.
Lemma apply_verified_entry v id daa c e : batches v !! id = Some e →
  (apply_verified_certificate v id c.1 c.2 daa).1 = set_entry v id (verified_step daa e c).
Proof.
  intros He. unfold apply_verified_certificate, verified_step, replaces. rewrite He.
  change (match l_status e with Committed | Auditing | Certified | Active => true | _ => false end) with (is_complete (l_status e)).
  destruct (is_complete (l_status e)); cbn [negb andb]; [|by rewrite set_entry_id].
  destruct (l_cert_hash e) as [h|]; cbn [negb]; [|done]. unfold better. cbn [fst snd].
  destruct (_ || _); cbn [negb]; [done|]. by rewrite set_entry_id.
Qed.
Lemma apply_verified_fold v id daa certs e : batches v !! id = Some e →
  apply_verified v id daa certs = set_entry v id (foldl (verified_step daa) e certs).
Proof.
  revert v e. induction certs as [|c certs IH]; intros v e He; cbn [foldl]; [by rewrite set_entry_id|].
  unfold apply_verified. cbn [foldl]. rewrite (apply_verified_entry v id daa c e He).
  change (apply_verified (set_entry v id (verified_step daa e c)) id daa certs = set_entry v id (foldl (verified_step daa) (verified_step daa e c) certs)).
  rewrite (IH _ (verified_step daa e c)); [|apply lookup_insert_eq]. unfold set_entry. cbn. by rewrite insert_insert_eq.
Qed.
Lemma apply_verified_none v id daa certs : batches v !! id = None → apply_verified v id daa certs = v.
Proof.
  intros He. induction certs as [|c certs IH]; [done|]. unfold apply_verified in *. cbn [foldl].
  assert ((apply_verified_certificate v id c.1 c.2 daa).1 = v) as -> by (unfold apply_verified_certificate; by rewrite He). exact IH.
Qed.
Lemma better_spec c1 c2 : better c1 c2 = true ↔ c2.2 < c1.2 ∨ (c1.2 = c2.2 ∧ hash64_order c1.1 < hash64_order c2.1).
Proof. unfold better. by rewrite orb_true_iff, andb_true_iff, !Z.ltb_lt, Z.eqb_eq. Qed.
Lemma better_tie c1 c2 : is_uint 64 c1.1 → is_uint 64 c2.1 → better c1 c2 = false → better c2 c1 = false → c1 = c2.
Proof.
  intros H1 H2 B1 B2. apply not_true_iff_false in B1, B2. rewrite better_spec in B1, B2.
  destruct c1 as [h1 s1], c2 as [h2 s2]. cbn in *. assert (s1 = s2) as -> by lia. f_equal. apply hash64_order_inj; [done..|lia].
Qed.

Lemma replaces_install daa e c d : is_complete (l_status e) = true → replaces (install daa e c) d = better d c.
Proof. intros Hs. unfold replaces, install. destruct c as [h s], (l_status e) eqn:Hst; try discriminate Hs; cbn; by rewrite ?Hst. Qed.
Lemma install_install daa e c d : is_complete (l_status e) = true → install daa (install daa e c) d = install daa e d.
Proof. intros Hs. unfold install. destruct e as [[] ? ? ? ? ? ? ? ? ? ? ? [?|] ?]; cbn in *; done. Qed.
Lemma verified_step_comm daa e c d : is_uint 64 c.1 → is_uint 64 d.1 →
  verified_step daa (verified_step daa e c) d = verified_step daa (verified_step daa e d) c.
Proof.
  intros Hc Hd. destruct (is_complete (l_status e)) eqn:Hs.
  2: { unfold verified_step, replaces. by rewrite Hs; cbn; rewrite Hs. }
  unfold verified_step. destruct (replaces e c) eqn:Rc, (replaces e d) eqn:Rd.
  - rewrite !replaces_install by done. destruct (better d c) eqn:Bdc, (better c d) eqn:Bcd; rewrite ?install_install by done; try done.
    + apply better_spec in Bdc, Bcd. lia.
    + by rewrite (better_tie c d).
  - rewrite ?Rc, replaces_install by done. destruct (better d c) eqn:B; [|done].
    exfalso. apply better_spec in B. unfold replaces in Rc, Rd. rewrite Hs in Rc, Rd. destruct (l_cert_hash e); [|done].
    cbn in Rc, Rd. apply better_spec in Rc. apply not_true_iff_false in Rd. rewrite better_spec in Rd. cbn in *. lia.
  - rewrite ?Rd, replaces_install by done. destruct (better c d) eqn:B; [|done].
    exfalso. apply better_spec in B. unfold replaces in Rc, Rd. rewrite Hs in Rc, Rd. destruct (l_cert_hash e); [|done].
    cbn in Rc, Rd. apply better_spec in Rd. apply not_true_iff_false in Rc. rewrite better_spec in Rc. cbn in *. lia.
  - by rewrite ?Rc, ?Rd.
Qed.
Lemma verified_fold_perm daa certs certs' e : certs ≡ₚ certs' → Forall (λ c, is_uint 64 c.1) certs →
  foldl (verified_step daa) e certs = foldl (verified_step daa) e certs'.
Proof.
  intros Hp. revert e. induction Hp as [|c l l' Hp IH|c d l|l1 l2 l3 H1 IH1 H2 IH2]; intros e Ht; [done| | |].
  - apply Forall_cons in Ht as [_ Ht]. cbn. by apply IH.
  - apply Forall_cons in Ht as [Hd [Hc _]%Forall_cons]. cbn. by rewrite verified_step_comm.
  - rewrite IH1 by done. apply IH2. by rewrite <- H1.
Qed.

(** The certificate an entry holds after the fold. *)
Definition holds (e : PalwBatchLifecycleV1) (c : Hash64 * Z) : Prop :=
  is_complete (l_status e) = true ∧ l_cert_hash e = Some c.1 ∧ l_cert_approving_stake e = c.2.
Lemma install_holds daa e c : is_complete (l_status e) = true → holds (install daa e c) c.
Proof. intros Hs. unfold holds, install. by destruct (l_status e) eqn:Hst; try discriminate Hs; cbn; rewrite ?Hst. Qed.
Lemma verified_fold_winner daa certs e c : holds e c →
  ∃ w, holds (foldl (verified_step daa) e certs) w ∧ w ∈ c :: certs ∧ ∀ d, d ∈ c :: certs → better d w = false.
Proof.
  revert e c. induction certs as [|d certs IH]; intros e c Hc; cbn [foldl].
  { exists c. split; [done|]. split; [apply list_elem_of_here|]. intros d ->%list_elem_of_singleton.
    apply not_true_iff_false. rewrite better_spec. lia. }
  destruct Hc as (Hs & Hh & Hst). assert (Hr : replaces e d = better d c) by (unfold replaces; rewrite Hs, Hh, Hst; by destruct c).
  unfold verified_step at 2. rewrite Hr. destruct (better d c) eqn:Hb.
  - destruct (IH (install daa e d) d) as (w & Hw & Hin & Hall); [by apply install_holds|]. exists w.
    split; [done|]. split; [set_solver|]. intros x [->|Hx]%elem_of_cons; [|by apply Hall].
    specialize (Hall d ltac:(apply list_elem_of_here)). apply not_true_iff_false. apply not_true_iff_false in Hall.
    rewrite better_spec in *. lia.
  - destruct (IH e c) as (w & Hw & Hin & Hall); [done|]. exists w. split; [done|]. split; [set_solver|].
    intros x [->|[->|Hx]%elem_of_cons]%elem_of_cons; [apply Hall; set_solver| |apply Hall; set_solver].
    specialize (Hall c ltac:(apply list_elem_of_here)). apply not_true_iff_false. apply not_true_iff_false in Hall, Hb.
    rewrite better_spec in *. lia.
Qed.

(** Verified certificates of a batch give one view whatever the order they
    are applied in, and a complete batch that had none ends up with the one of
    greatest stake, the smallest hash among equals. *)
Theorem verified_certificates_order_free v id daa certs certs' :
  certs ≡ₚ certs' → Forall (λ c, is_uint 64 c.1) certs →
  apply_verified v id daa certs = apply_verified v id daa certs' ∧
  (∀ e, batches v !! id = Some e → is_complete (l_status e) = true → l_cert_hash e = None → certs ≠ [] →
   ∃ e' h stake, batches (apply_verified v id daa certs) !! id = Some e' ∧ l_cert_hash e' = Some h ∧
     l_cert_approving_stake e' = stake ∧ (h, stake) ∈ certs ∧
     ∀ h' stake', (h', stake') ∈ certs → stake' < stake ∨ stake' = stake ∧ hash64_order h ≤ hash64_order h').
Proof.
  intros Hp Ht. split.
  - destruct (batches v !! id) as [e|] eqn:He; [|by rewrite !apply_verified_none].
    rewrite !(apply_verified_fold _ _ _ _ e He). f_equal. by apply verified_fold_perm.
  - intros e He Hs Hn Hne. destruct certs as [|c certs]; [done|]. rewrite (apply_verified_fold _ _ _ _ e He). cbn [foldl].
    assert (Hr : replaces e c = true) by (unfold replaces; by rewrite Hs, Hn).
    destruct (verified_fold_winner daa certs (install daa e c) c) as ([h s] & (_ & Hh & Hst) & Hin & Hall); [by apply install_holds|].
    exists (foldl (verified_step daa) (install daa e c) certs), h, s. unfold verified_step at 2. rewrite Hr.
    split; [apply lookup_insert_eq|]. split; [done|]. split; [done|]. split; [done|].
    intros h' s' Hin'. specialize (Hall _ Hin'). apply not_true_iff_false in Hall. rewrite better_spec in Hall. cbn in Hall. lia.
Qed.

(** ** Witnesses

    A batch of one leaf, registered, completed and certified by one block and
    used by two later ones. *)
Definition sample_manifest : PalwBatchManifestV1 :=
  with_batch_id (mkManifest 1 0 0 3 4 1 1 5 6 0 7 8 14) (content_id (H:=sum_crypto) (mkManifest 1 0 0 3 4 1 1 5 6 0 7 8 14)).
Definition sample_id : Hash64 := m_batch_id sample_manifest.
Definition sample_blues : list (Z * list PalwOverlayEffect) :=
  [(0, [EffManifest sample_manifest; EffLeafChunk sample_id 0; EffCertificate sample_id 9])].
Definition sample_commit : outcome unit (option PalwBatchViewV1) :=
  commit_palw_overlay_view (H:=sum_crypto) ADMISSION_INERT 0 100 3 10 false (Some View_default) sample_blues None.
Definition sample_view : PalwBatchViewV1 := match sample_commit with Ok (Some v) => v | _ => View_default end.
Lemma sample_commit_ok : sample_commit = Ok (Some sample_view).
Proof. vm_compute. reflexivity. Qed.
Lemma sample_entry : l_status <$> batches sample_view !! sample_id = Some Certified.
Proof. vm_compute. reflexivity. Qed.
Lemma sample_tickets :
  (l_status <$> ticket_lifecycle ADMISSION_INERT 100 sample_view sample_id 850 true) = Some Active ∧
  (l_status <$> ticket_lifecycle ADMISSION_INERT 100 sample_view sample_id 1399 true) = Some Active.
Proof. vm_compute. split; reflexivity. Qed.
Lemma sample_params_typed : params_typed ADMISSION_INERT.
Proof. constructor; split; vm_compute; (discriminate || reflexivity). Qed.
Lemma sample_manifest_typed : manifest_typed sample_manifest.
Proof. constructor; split; vm_compute; (discriminate || reflexivity). Qed.
Lemma sample_blues_typed : blues_typed sample_blues.
Proof.
  apply Forall_singleton. repeat apply Forall_cons_2; [exact sample_manifest_typed| |exact I|by apply Forall_nil].
  split; vm_compute; (discriminate || reflexivity).
Qed.
Lemma sample_reachable : body_view (H:=sum_crypto) ADMISSION_INERT 0 100 10 sample_view ([] ++ carried sample_blues).
Proof.
  eapply (body_view_step (H:=sum_crypto) _ _ _ 0 View_default [] 10 3 sample_blues None).
  - by apply body_view_start.
  - lia.
  - exact sample_blues_typed.
  - reflexivity.
  - exact sample_commit_ok.
Qed.

Lemma batch_view_invariant_witness :
  ∃ e, batches sample_view !! sample_id = Some e ∧ l_status e = Certified ∧ is_Some (l_cert_hash e) ∧
    l_expiry_epoch e ≤ l_registration_epoch e + max_batch_life_epochs ADMISSION_INERT.
Proof.
  destruct (batches sample_view !! sample_id) as [e|] eqn:He; [|pose proof sample_entry as Hc; rewrite He in Hc; discriminate Hc].
  pose proof sample_entry as Hs. rewrite He in Hs. injection Hs as Hs.
  destruct (batch_view_invariant (H:=sum_crypto) ADMISSION_INERT sample_params_typed 0 100 10 sample_view _ sample_reachable) as (Hall & _ & _).
  destruct (Hall sample_id e He) as (_ & _ & [_ Hx] & _ & Hc & _).
  exact (ex_intro _ e (conj eq_refl (conj Hs (conj (proj2 Hc ltac:(rewrite Hs; reflexivity)) Hx)))).
Defined.

Lemma same_batch_within_walk_witness :
  ∃ e1 e2, ticket_lifecycle ADMISSION_INERT 100 sample_view sample_id 850 true = Some e1 ∧
    ticket_lifecycle ADMISSION_INERT 100 sample_view sample_id 1399 true = Some e2 ∧
    ((Z.abs (850 / Z.max 100 1 - 1399 / Z.max 100 1) < active_window_epochs ADMISSION_INERT ∧
      Z.abs (850 - 1399) ≤ paid_work_walk_bound_daa ADMISSION_INERT 100) ∨
     keyed_collision (H:=sum_crypto) PALW_BATCH_ID_DOMAIN (manifest_strings ([] ++ carried sample_blues)) (manifest_strings ([] ++ carried sample_blues))).
Proof.
  destruct (ticket_lifecycle ADMISSION_INERT 100 sample_view sample_id 850 true) as [e1|] eqn:H1;
    [|pose proof (proj1 sample_tickets) as Hc; rewrite H1 in Hc; discriminate Hc].
  destruct (ticket_lifecycle ADMISSION_INERT 100 sample_view sample_id 1399 true) as [e2|] eqn:H2;
    [|pose proof (proj2 sample_tickets) as Hc; rewrite H2 in Hc; discriminate Hc].
  refine (ex_intro _ e1 (ex_intro _ e2 (conj eq_refl (conj eq_refl _)))).
  apply (same_batch_within_walk (H:=sum_crypto) ADMISSION_INERT sample_params_typed 0 0 100 10 10 sample_view sample_view _ _
    sample_id 850 1399 true true e1 e2 sample_reachable sample_reachable); [unfold U64_MAX; lia..|exact H1|exact H2].
Defined.

Definition sample_committed : PalwBatchLifecycleV1 := mkLifecycle Committed 0 8 14 1 1 [1; 0; 0; 0] 5 None 0 0 0 None None.
Definition sample_certs_view : PalwBatchViewV1 := mkView 1 (<[1 := sample_committed]> ∅).
Lemma verified_certificates_order_free_witness :
  apply_verified sample_certs_view 1 5 [(3, 60); (2, 90)] = apply_verified sample_certs_view 1 5 [(2, 90); (3, 60)] ∧
  ∃ e, batches (apply_verified sample_certs_view 1 5 [(3, 60); (2, 90)]) !! 1 = Some e ∧
    l_cert_hash e = Some 2 ∧ l_cert_approving_stake e = 90.
Proof.
  destruct (verified_certificates_order_free sample_certs_view 1 5 [(3, 60); (2, 90)] [(2, 90); (3, 60)]) as [Heq Hwin].
  - apply perm_swap.
  - apply Forall_cons_2; [|apply Forall_cons_2; [|apply Forall_nil_2]]; split; vm_compute; (discriminate || reflexivity).
  - split; [exact Heq|].
    destruct (Hwin sample_committed) as (e & h & s & He & Hh & Hs & Hin & Hall);
      [apply lookup_insert_eq|reflexivity|reflexivity|discriminate|].
    specialize (Hall 2 90 ltac:(apply list_elem_of_further, list_elem_of_here)).
    apply elem_of_cons in Hin as [[= -> ->]|[= -> ->]%list_elem_of_singleton]; [lia|].
    exact (ex_intro _ e (conj He (conj Hh Hs))).
Defined.
