(* ===== verification/Mass.v ===== *)
(** * Transaction mass

    Models [src/consensus/core/src/mass/mod.rs]: the estimated size of a
    transaction, its compute and transient masses, and the storage mass of
    KIP-0009 over the storage units ("plurality") of inputs and outputs. Checked
    operations of the code that return [None] give [None] here; unchecked ones
    that overflow, and divisions by zero, panic. *)

From stdpp Require Import base list gmap.
From Stdlib Require Import ZArith Lia.
From S2P Require Import Prelude Tx Bytes Hashing.

Local Open Scope Z_scope.

Definition TRANSIENT_BYTE_TO_MASS_FACTOR : Z := 4.
Definition HASH_SIZE : Z := 32.

(** [u64] division. *)
Definition div64 {E} (a b : Z) : outcome E Z := if b =? 0 then Panic else Ok (a / b).
Definition checked_mul64 (a b : Z) : option Z := if in_u64 (a * b) then Some (a * b) else None.

(** ** Estimated sizes *)

Definition outpoint_estimated_serialized_size : Z := 64 + 4.
Definition transaction_input_estimated_serialized_size (input : TransactionInput) : Z :=
  outpoint_estimated_serialized_size + 8 + len (signature_script input) + 8.
Definition transaction_output_estimated_serialized_size (output : TransactionOutput) : Z :=
  8 + 2 + 8 + len (spk_script (out_script_public_key output)).
Definition transaction_estimated_serialized_size {E} (tx : Transaction) : outcome E Z :=
  inputs_size ← sum64 (transaction_input_estimated_serialized_size <$> inputs tx) 0;
  size ← add64 (2 + 8) inputs_size;
  size ← add64 size 8;
  outputs_size ← sum64 (transaction_output_estimated_serialized_size <$> outputs tx) 0;
  size ← add64 size outputs_size;
  size ← add64 size (8 + Z.of_nat SUBNETWORK_ID_SIZE + 8 + HASH_SIZE + 8);
  add64 size (len (payload tx)).

(** ** Storage units *)

Definition UTXO_CONST_STORAGE : Z := 64 + 4 + 8 + 8 + 1 + 2 + 8.
Definition UTXO_UNIT_SIZE : Z := 100.
Definition utxo_plurality (spk : ScriptPublicKey) : Z :=
  let n := UTXO_CONST_STORAGE + len (spk_script spk) in
  n / UTXO_UNIT_SIZE + (if n mod UTXO_UNIT_SIZE =? 0 then 0 else 1).
Record UtxoCell := mkCell { plurality : Z; cell_amount : Z }.
Definition entry_cell (e : UtxoEntry) : UtxoCell := mkCell (utxo_plurality (script_public_key e)) (amount e).
Definition output_cell (o : TransactionOutput) : UtxoCell := mkCell (utxo_plurality (out_script_public_key o)) (value o).

(** ** Masses *)

Record NonContextualMasses := mkNonContextual { compute_mass : Z; transient_mass : Z }.
Record ContextualMasses := mkContextual { storage_mass : Z }.
Definition non_contextual_max (m : NonContextualMasses) : Z := Z.max (compute_mass m) (transient_mass m).
Definition contextual_max (c : ContextualMasses) (m : NonContextualMasses) : Z := Z.max (storage_mass c) (non_contextual_max m).
Record MassCalculator := mkMassCalculator {
  mass_per_tx_byte : Z; mass_per_script_pub_key_byte : Z; mass_per_sig_op : Z; storage_mass_parameter : Z;
}.
Definition calc_non_contextual_masses {E} (c : MassCalculator) (tx : Transaction) : outcome E NonContextualMasses :=
  if is_coinbase tx then Ok (mkNonContextual 0 0)
  else
    size ← transaction_estimated_serialized_size tx;
    compute_mass_for_size ← mul64 size (mass_per_tx_byte c);
    total_script_public_key_size ← sum64 ((λ o, 2 + len (spk_script (out_script_public_key o))) <$> outputs tx) 0;
    total_script_public_key_mass ← mul64 total_script_public_key_size (mass_per_script_pub_key_byte c);
    total_sigops ← sum64 (sig_op_count <$> inputs tx) 0;
    total_sigops_mass ← mul64 total_sigops (mass_per_sig_op c);
    compute ← add64 compute_mass_for_size total_script_public_key_mass;
    compute ← add64 compute total_sigops_mass;
    transient ← mul64 size TRANSIENT_BYTE_TO_MASS_FACTOR;
    Ok (mkNonContextual compute transient).

(** The harmonic part of the outputs: [None] when a checked operation
    overflows. *)
Fixpoint harmonic_outputs {E} (storm_param acc_plurality acc_harm : Z) (outs : list UtxoCell) : outcome E (option (Z * Z)) :=
  match outs with
  | [] => Ok (Some (acc_plurality, acc_harm))
  | c :: outs =>
    acc_plurality ← add64 acc_plurality (plurality c);
    match checked_mul64 storm_param (plurality c) with
    | None => Ok None
    | Some x =>
      match checked_mul64 x (plurality c) with
      | None => Ok None
      | Some x =>
        q ← div64 x (cell_amount c);
        match checked_add64 acc_harm q with
        | None => Ok None
        | Some acc_harm => harmonic_outputs storm_param acc_plurality acc_harm outs
        end
      end
    end
  end.
Fixpoint harmonic_inputs {E} (storm_param total : Z) (ins : list UtxoCell) : outcome E Z :=
  match ins with
  | [] => Ok total
  | c :: ins =>
    x ← mul64 storm_param (plurality c);
    x ← mul64 x (plurality c);
    q ← div64 x (cell_amount c);
    harmonic_inputs storm_param (sat_add64 total q) ins
  end.
Definition calc_storage_mass {E} (is_coinbase : bool) (ins outs : list UtxoCell) (storm_param : Z) : outcome E (option Z) :=
  if is_coinbase then Ok (Some 0)
  else
    r ← harmonic_outputs storm_param 0 0 outs;
    match r with
    | None => Ok None
    | Some (outs_plurality, harmonic_outs) =>
      relaxed ←
        (if outs_plurality =? 1 then Ok true
         else if (2 <? length ins)%nat then Ok false
         else
           ins_plurality ← sum64 (plurality <$> ins) 0;
           Ok ((ins_plurality =? 1) || ((outs_plurality =? 2) && (ins_plurality =? 2))));
      if relaxed : bool then
        harmonic_ins ← harmonic_inputs storm_param 0 ins;
        Ok (Some (sat_sub64 harmonic_outs harmonic_ins))
      else
        ins_plurality ← sum64 (plurality <$> ins) 0;
        sum_ins ← sum64 (cell_amount <$> ins) 0;
        if ins_plurality =? 0 then Ok (Some harmonic_outs)
        else
          mean_ins ← div64 sum_ins ins_plurality;
          per_unit ← div64 storm_param mean_ins;
          Ok (Some (sat_sub64 harmonic_outs (sat_mul64 ins_plurality per_unit)))
    end.
Definition calc_contextual_masses {E} (c : MassCalculator) (tx : PopulatedTransaction) : outcome E (option ContextualMasses) :=
  r ← calc_storage_mass (is_coinbase (pop_tx tx)) (entry_cell <$> entries tx) (output_cell <$> outputs (pop_tx tx)) (storage_mass_parameter c);
  Ok (option_map mkContextual r).

(** ** When the storage mass is not computed *)

(** What the callers establish: storage units and amounts are positive, and no
    total overflows. *)
Record cells_typed (storm_param : Z) (cs : list UtxoCell) : Prop := {
  ct_cell : Forall (λ c, 1 ≤ plurality c ∧ 1 ≤ cell_amount c ∧ storm_param * plurality c * plurality c ≤ U64_MAX) cs;
  ct_plurality : sumZ (plurality <$> cs) ≤ U64_MAX;
  ct_amount : sumZ (cell_amount <$> cs) ≤ U64_MAX;
}.
(** The cases in which the inputs are averaged harmonically. *)
Definition relaxed_formula (ins outs : list UtxoCell) : bool :=
  let o := sumZ (plurality <$> outs) in
  let i := sumZ (plurality <$> ins) in
  (o =? 1) || ((length ins <=? 2)%nat && ((i =? 1) || ((o =? 2) && (i =? 2)))).

Section storage.
Context (C : Z) (HC : 0 ≤ C).

Lemma cells_plurality cs : cells_typed C cs → Forall (λ x, 0 ≤ x) (plurality <$> cs).
Proof. intros [Hc _ _]. apply Forall_fmap. eapply Forall_impl; [exact Hc|]. intros c (? & _). cbn. lia. Qed.
Lemma cells_amount cs : cells_typed C cs → Forall (λ x, 0 ≤ x) (cell_amount <$> cs).
Proof. intros [Hc _ _]. apply Forall_fmap. eapply Forall_impl; [exact Hc|]. intros c (_ & ? & _). cbn. lia. Qed.
Lemma plurality_pos cs : cells_typed C cs → len cs ≤ sumZ (plurality <$> cs).
Proof. intros [Hc _ _]. induction Hc as [|c cs (Hp & _) Hc IH]; [done|]. rewrite fmap_cons, sumZ_cons. cbn [length] in *. lia. Qed.

Lemma amount_pos cs : cells_typed C cs → len cs ≤ sumZ (cell_amount <$> cs).
Proof. intros [Hc _ _]. induction Hc as [|c cs (_ & Ha & _) Hc IH]; [done|]. rewrite fmap_cons, sumZ_cons. cbn [length] in *. lia. Qed.

Lemma harmonic_outputs_ok {E} outs p h : cells_typed C outs → 0 ≤ p → 0 ≤ h → p + sumZ (plurality <$> outs) ≤ U64_MAX →
  harmonic_outputs (E:=E) C p h outs = Ok None ∨ ∃ h', harmonic_outputs (E:=E) C p h outs = Ok (Some (p + sumZ (plurality <$> outs), h')) ∧ 0 ≤ h'.
Proof.
  intros Hct. pose proof (cells_plurality outs Hct) as Hnn. destruct Hct as [Hc _ _]. revert p h.
  induction Hc as [|c outs (Hp & Ha & Hm) Hc IH]; intros p h Hp0 Hh0 Hb; cbn [harmonic_outputs].
  { right. exists h. split; [by rewrite Z.add_0_r|done]. }
  cbn [fmap list_fmap] in Hnn, Hb |- *. apply Forall_cons in Hnn as [_ Hnn]. pose proof (sumZ_nonneg _ Hnn).
  change (sumZ (plurality c :: (plurality <$> outs))) with (plurality c + sumZ (plurality <$> outs)) in *.
  unfold add64. rewrite chk64_Ok by (unfold is_u64; lia). cbn [mbind outcome_bind].
  destruct (checked_mul64 C (plurality c)) as [x|]; [|by left]. destruct (checked_mul64 x (plurality c)) as [y|]; [|by left].
  unfold div64. destruct (Z.eqb_spec (cell_amount c) 0); [lia|]. cbn [mbind outcome_bind].
  unfold checked_add64 at 1 2. destruct (in_u64 _) eqn:Hin; [|by left].
  unfold in_u64 in Hin. apply andb_true_iff in Hin as [Hin%Z.leb_le _].
  rewrite Z.add_assoc. apply IH; [done|lia|lia|lia].
Qed.
Lemma harmonic_inputs_ok {E} ins t : cells_typed C ins → ∃ h, harmonic_inputs (E:=E) C t ins = Ok h.
Proof using HC.
  intros [Hc _ _]. revert t. induction Hc as [|c ins (Hp & Ha & Hm) Hc IH]; intros t; cbn [harmonic_inputs]; [by eexists|].
  assert (C * plurality c ≤ C * plurality c * plurality c) by nia.
  unfold mul64. rewrite chk64_Ok by (unfold is_u64; nia). cbn [mbind outcome_bind].
  rewrite chk64_Ok by (unfold is_u64; nia). cbn [mbind outcome_bind].
  unfold div64. destruct (Z.eqb_spec (cell_amount c) 0); [lia|]. cbn [mbind outcome_bind]. apply IH.
Qed.

Lemma storage_mass_unfold {E} ins outs h : cells_typed C ins →
  harmonic_outputs (E:=E) C 0 0 outs = Ok (Some (0 + sumZ (plurality <$> outs), h)) →
  calc_storage_mass (E:=E) false ins outs C =
    if relaxed_formula ins outs
    then harmonic_ins ← harmonic_inputs C 0 ins; Ok (Some (sat_sub64 h harmonic_ins))
    else if sumZ (plurality <$> ins) =? 0 then Ok (Some h)
    else mean ← div64 (sumZ (cell_amount <$> ins)) (sumZ (plurality <$> ins)); per_unit ← div64 C mean;
         Ok (Some (sat_sub64 h (sat_mul64 (sumZ (plurality <$> ins)) per_unit))).
Proof.
  intros Hi Hh. unfold calc_storage_mass, relaxed_formula. rewrite Hh, Z.add_0_l. cbn [mbind outcome_bind].
  rewrite !(sum64_Ok _ 0), !Z.add_0_l by (done || by apply cells_plurality || by apply cells_amount || apply Hi). cbn [mbind outcome_bind].
  destruct (sumZ (plurality <$> outs) =? 1); [done|]. cbn [orb].
  destruct (Nat.ltb_spec 2 (length ins)) as [Hl|Hl]; cbn [mbind outcome_bind].
  - rewrite (proj2 (Nat.leb_gt _ _)) by lia. done.
  - rewrite (proj2 (Nat.leb_le _ _)) by lia. done.
Qed.

Lemma storage_mass_cases {E} ins outs :
  cells_typed C ins → cells_typed C outs → harmonic_outputs (E:=E) C 0 0 outs ≠ Ok None →
  (calc_storage_mass (E:=E) false ins outs C = Panic ↔
     relaxed_formula ins outs = false ∧ 0 < sumZ (cell_amount <$> ins) < sumZ (plurality <$> ins)) ∧
  (calc_storage_mass (E:=E) false ins outs C ≠ Panic → ∃ m, calc_storage_mass (E:=E) false ins outs C = Ok (Some m) ∧ 0 ≤ m).
Proof using HC.
  intros Hi Ho Hn.
  pose proof (cells_plurality ins Hi) as Hip. pose proof (cells_amount ins Hi) as Hia.
  pose proof (plurality_pos ins Hi) as Hpos. pose proof (amount_pos ins Hi) as Hapos.
  destruct (harmonic_outputs_ok (E:=E) outs 0 0 Ho ltac:(lia) ltac:(lia) (ct_plurality _ _ Ho)) as [|(h & Hh & Hh0)]; [done|].
  rewrite (storage_mass_unfold ins outs h Hi Hh). destruct (relaxed_formula ins outs).
  - destruct (harmonic_inputs_ok (E:=E) ins 0 Hi) as (hi & ->). cbn [mbind outcome_bind].
    split; [split; [done|by intros [? _]]|]. intros _. eexists. split; [done|]. unfold sat_sub64. lia.
  - destruct (Z.eqb_spec (sumZ (plurality <$> ins)) 0) as [Hz|Hz].
    { assert (ins = []) as -> by (destruct ins; [done|cbn [length] in Hpos; lia]).
      split; [split; [done|intros [_ Hlt]; cbn in Hlt; lia]|]. intros _. by exists h. }
    assert (0 < len ins) by (destruct ins; [done|cbn [length]; lia]).
    unfold div64. rewrite (proj2 (Z.eqb_neq _ _) Hz). cbn [mbind outcome_bind].
    destruct (Z.eqb_spec (sumZ (cell_amount <$> ins) / sumZ (plurality <$> ins)) 0) as [Hd|Hd]; cbn [mbind outcome_bind].
    + apply Z.div_small_iff in Hd; [|done]. split; [split; [intros _; split; [done|lia]|done]|done].
    + split; [split; [done|]|intros _; eexists; split; [done|unfold sat_sub64; lia]].
      intros [_ Hlt]. destruct Hd. apply Z.div_small. lia.
Qed.
(** One sompi per storage unit is enough. *)
Lemma storage_mass_safe {E} b ins outs : cells_typed C ins → cells_typed C outs →
  sumZ (plurality <$> ins) ≤ sumZ (cell_amount <$> ins) → safe (calc_storage_mass (E:=E) b ins outs C).
Proof using HC.
  intros Hi Ho Hle. destruct b; [done|].
  destruct (harmonic_outputs_ok (E:=E) outs 0 0 Ho ltac:(lia) ltac:(lia) (ct_plurality _ _ Ho)) as [Hh|(h & Hh & _)].
  { unfold calc_storage_mass. by rewrite Hh. }
  destruct (storage_mass_cases (E:=E) ins outs Hi Ho) as [Hp Hm]; [by rewrite Hh|].
  assert (Hnp : calc_storage_mass (E:=E) false ins outs C ≠ Panic) by (intros [_ Hlt]%Hp; lia).
  by destruct (Hm Hnp) as (m & -> & _).
Qed.

(** The storage mass of a transaction with positive amounts is computed,
    or reported as too large, except in one case: outside the relaxed formula,
    when the inputs hold less than one sompi per storage unit on average, the
    mean that the formula divides by is zero and the computation panics. *)
Theorem storage_mass_panics_iff ins outs :
  cells_typed C ins → cells_typed C outs → harmonic_outputs (E:=unit) C 0 0 outs ≠ Ok None →
  (calc_storage_mass (E:=unit) false ins outs C = Panic ↔
     relaxed_formula ins outs = false ∧ 0 < sumZ (cell_amount <$> ins) < sumZ (plurality <$> ins)) ∧
  (calc_storage_mass (E:=unit) false ins outs C ≠ Panic → ∃ m, calc_storage_mass (E:=unit) false ins outs C = Ok (Some m) ∧ 0 ≤ m).
Proof using HC. apply storage_mass_cases. Qed.
End storage.

(** A standard output of one sompi takes two storage units; spending it alone
    into no output is the case. *)
Lemma storage_mass_panics_iff_witness :
  calc_storage_mass (E:=unit) false [mkCell (utxo_plurality (mkScriptPublicKey 0 (replicate 69 0))) 1] [] (10 ^ 12) = Panic.
Proof.
  apply (storage_mass_panics_iff (10 ^ 12) ltac:(lia) [mkCell 2 1] []).
  - constructor; [apply Forall_singleton; cbn; unfold U64_MAX; lia|vm_compute; discriminate..].
  - constructor; [apply Forall_nil_2|vm_compute; discriminate..].
  - discriminate.
  - split; [reflexivity|split; reflexivity].
Defined.
