(* ===== verification/TxValidator.v ===== *)
(** * Transaction validation

    Models [src/consensus/src/processes/transaction_validator]: the checks in
    isolation, in the context of a header and in the context of the UTXO set,
    down to the execution of the scripts of the inputs. The stateless checks of
    the payloads of DNS and PALW overlay transactions are arguments. *)

From stdpp Require Import base list gmap.
From Stdlib Require Import ZArith Lia.
From S2P Require Import Prelude Tx Bytes Hashing ScriptNum ScriptOps ScriptEngine ScriptStd Mass.

Local Open Scope Z_scope.

Definition TX_VERSION : Z := 0.
Definition LOCK_TIME_THRESHOLD : Z := 500000000000.
Definition SOMPI_PER_KASPA : Z := 100000000.
Definition MAX_SOMPI : Z := 26013224875 * SOMPI_PER_KASPA.
Definition SEQUENCE_LOCK_TIME_MASK : Z := 0x00000000ffffffff.
Definition SEQUENCE_LOCK_TIME_DISABLED : Z := Z.shiftl 1 63.
Definition SUBNETWORK_ID_PALW_BLOCK_AUTHORIZATION : SubnetworkId := from_byte 0x38.
Definition CHECK_SCRIPTS_PARALLELISM_THRESHOLD : nat := 1.

(** The fields that the shape rule of a ticket authorization names. *)
Inductive AuthField : Type := FVersion | FInputs | FOutputs | FLockTime | FGas | FMass.
Inductive TxRuleError : Type :=
  | NoTxInputs
  | TxDuplicateInputs
  | TxHasGas
  | UnknownTxVersion (v : Z)
  | TooManyInputs (n max : Z)
  | TooManyOutputs (n max : Z)
  | TooBigSignatureScript (i : nat) (max : Z)
  | TooBigScriptPublicKey (i : nat) (max : Z)
  | NotFinalized (i : nat)
  | CoinbaseHasInputs (n : Z)
  | CoinbaseTooManyOutputs (n max : Z)
  | CoinbaseScriptPublicKeyTooLong (i : nat)
  | CoinbaseNonZeroMassCommitment
  | ImmatureCoinbaseSpend (i : nat) (o : TransactionOutpoint) (block_daa pov_daa maturity : Z)
  | InputAmountOverflow
  | InputAmountTooHigh
  | TxOutZero (i : nat)
  | TxOutTooHigh (i : nat)
  | OutputsValueOverflow
  | TotalTxOutTooHigh
  | SpendTooHigh (total_out total_in : Z)
  | SequenceLockConditionsAreNotMet
  | SignatureInvalid (e : TxScriptError)
  | SignatureEmpty (e : TxScriptError)
  | MassIncomputable
  | WrongMass (calculated committed : Z)
  | SubnetworksDisabled (s : SubnetworkId)
  | InvalidDnsOverlayPayload
  | InvalidPalwOverlayPayload
  | NonCanonicalPalwAuthorizationTx (f : AuthField)
  | FeerateTooLow
  | NonPqStandardOutputClass (i : nat)
  | NonPqStandardInputClass (i : nat)
  | EvmDepositLockNotRefundableYet (i : nat) (pov_daa timeout : Z)
  | EvmDepositLockTipExceedsValue (i : nat) (tip value : Z).

Inductive PqEnforcementMode : Type := Disabled | PolicyOnly | Consensus.
#[export] Instance pq_mode_eq_dec : EqDecision PqEnforcementMode.
Proof. solve_decision. Defined.

Record TransactionValidator := mkValidator {
  max_tx_inputs : Z;
  max_tx_outputs : Z;
  max_signature_script_len : Z;
  max_script_public_key_len : Z;
  coinbase_payload_script_public_key_max_len : Z;
  coinbase_maturity : Z;
  ghostdag_k : Z;
  mass_calculator : MassCalculator;
  pq_enforcement : PqEnforcementMode;
  pq_activation_daa_score : Z;
  palw_lane_present : bool;
}.
Definition resolved_script_policy (tv : TransactionValidator) (pov_daa_score : Z) : ScriptPolicy :=
  if bool_decide (pq_enforcement tv = Consensus) && (pq_activation_daa_score tv <=? pov_daa_score) then PQ_ONLY else LEGACY.

Abbreviation R := (outcome TxRuleError).
(** The elements in order, with their index; the first failure is reported. *)
Fixpoint check_each {A} (check : nat → A → R unit) (i : nat) (l : list A) : R unit :=
  match l with
  | [] => Ok tt
  | x :: l => _ ← check i x; check_each check (S i) l
  end.
Definition guard_ (b : bool) (e : TxRuleError) : R unit := if b then Ok tt else Err e.

(** ** In isolation *)

Definition check_palw_block_authorization_shape (tx : Transaction) : R unit :=
  if negb (bool_decide (subnetwork_id tx = SUBNETWORK_ID_PALW_BLOCK_AUTHORIZATION)) then Ok tt
  else if negb (tx_version tx =? TX_VERSION) then Err (NonCanonicalPalwAuthorizationTx FVersion)
  else if negb (bool_decide (inputs tx = [])) then Err (NonCanonicalPalwAuthorizationTx FInputs)
  else if negb (bool_decide (outputs tx = [])) then Err (NonCanonicalPalwAuthorizationTx FOutputs)
  else if negb (lock_time tx =? 0) then Err (NonCanonicalPalwAuthorizationTx FLockTime)
  else if negb (gas tx =? 0) then Err (NonCanonicalPalwAuthorizationTx FGas)
  else if negb (mass_commitment tx =? 0) then Err (NonCanonicalPalwAuthorizationTx FMass)
  else Ok tt.
Definition check_transaction_inputs_count (tv : TransactionValidator) (tx : Transaction) : R unit :=
  let is_ticket_authorization := bool_decide (subnetwork_id tx = SUBNETWORK_ID_PALW_BLOCK_AUTHORIZATION) in
  if negb (is_coinbase tx) && negb is_ticket_authorization && bool_decide (inputs tx = []) then Err NoTxInputs
  else if max_tx_inputs tv <? len (inputs tx) then Err (TooManyInputs (len (inputs tx)) (max_tx_inputs tv))
  else Ok tt.
Definition check_transaction_signature_scripts (tv : TransactionValidator) (tx : Transaction) : R unit :=
  check_each (λ i input, guard_ (len (signature_script input) <=? max_signature_script_len tv)
                           (TooBigSignatureScript i (max_signature_script_len tv))) 0 (inputs tx).
Definition check_transaction_inputs_in_isolation (tv : TransactionValidator) (tx : Transaction) : R unit :=
  _ ← check_transaction_inputs_count tv tx; check_transaction_signature_scripts tv tx.
(** The error carries the limit of the inputs. *)
Definition check_transaction_outputs_count (tv : TransactionValidator) (tx : Transaction) : R unit :=
  if is_coinbase tx then Ok tt
  else if max_tx_outputs tv <? len (outputs tx) then Err (TooManyOutputs (len (outputs tx)) (max_tx_inputs tv))
  else Ok tt.
Definition check_transaction_script_public_keys (tv : TransactionValidator) (tx : Transaction) : R unit :=
  check_each (λ i o, guard_ (len (spk_script (out_script_public_key o)) <=? max_script_public_key_len tv)
                       (TooBigScriptPublicKey i (max_script_public_key_len tv))) 0 (outputs tx).
Definition check_transaction_outputs_in_isolation (tv : TransactionValidator) (tx : Transaction) : R unit :=
  _ ← check_transaction_outputs_count tv tx; check_transaction_script_public_keys tv tx.
(** [expect] on the parsed lock. *)
Definition parsed_lock (spk : ScriptPublicKey) : R EvmDepositLockFields :=
  f ← parse_evm_deposit_lock spk; unwrap f.
Definition check_pq_output (i : nat) (o : TransactionOutput) : R unit :=
  let class := ScriptClass_from_script (out_script_public_key o) in
  if bool_decide (class = EvmDepositLock) then
    lock ← parsed_lock (out_script_public_key o);
    guard_ (claim_tip_sompi lock <=? value o) (EvmDepositLockTipExceedsValue i (claim_tip_sompi lock) (value o))
  else guard_ (is_pq_standard class) (NonPqStandardOutputClass i).
Definition check_transaction_pq_output_classes (tv : TransactionValidator) (tx : Transaction) : R unit :=
  if negb (bool_decide (pq_enforcement tv = Consensus)) then Ok tt else check_each check_pq_output 0 (outputs tx).
Definition coinbase_outputs_limit (tv : TransactionValidator) : Z :=
  let blues := ghostdag_k tv + 1 in if palw_lane_present tv then 3 * blues + 1 else blues + 1.
Definition check_coinbase_in_isolation (tv : TransactionValidator) (tx : Transaction) : R unit :=
  if negb (is_coinbase tx) then Ok tt
  else if negb (bool_decide (inputs tx = [])) then Err (CoinbaseHasInputs (len (inputs tx)))
  else if 0 <? mass_commitment tx then Err CoinbaseNonZeroMassCommitment
  else if coinbase_outputs_limit tv <? len (outputs tx)
  then Err (CoinbaseTooManyOutputs (len (outputs tx)) (coinbase_outputs_limit tv))
  else
    check_each (λ i o, guard_ (len (spk_script (out_script_public_key o)) <=? coinbase_payload_script_public_key_max_len tv)
                         (CoinbaseScriptPublicKeyTooLong i)) 0 (outputs tx).
Fixpoint output_value_ranges (i : nat) (total : Z) (outs : list TransactionOutput) : R unit :=
  match outs with
  | [] => Ok tt
  | o :: outs =>
    if value o =? 0 then Err (TxOutZero i)
    else if MAX_SOMPI <? value o then Err (TxOutTooHigh i)
    else
      match checked_add64 total (value o) with
      | None => Err OutputsValueOverflow
      | Some total => if MAX_SOMPI <? total then Err TotalTxOutTooHigh else output_value_ranges (S i) total outs
      end
  end.
Definition check_transaction_output_value_ranges (tx : Transaction) : R unit := output_value_ranges 0 0 (outputs tx).
Fixpoint duplicate_inputs (existing : list TransactionOutpoint) (ins : list TransactionInput) : R unit :=
  match ins with
  | [] => Ok tt
  | input :: ins =>
    if bool_decide (previous_outpoint input ∈ existing) then Err TxDuplicateInputs
    else duplicate_inputs (previous_outpoint input :: existing) ins
  end.
Definition check_duplicate_transaction_inputs (tx : Transaction) : R unit := duplicate_inputs [] (inputs tx).
Definition check_gas (tx : Transaction) : R unit := if 0 <? gas tx then Err TxHasGas else Ok tt.
Definition check_transaction_version (tx : Transaction) : R unit :=
  if negb (tx_version tx =? TX_VERSION) then Err (UnknownTxVersion (tx_version tx)) else Ok tt.

(** The payload checks of the overlays say whether a payload is accepted. *)
Definition check_transaction_subnetwork (dns_ok palw_ok : Transaction → bool) (tx : Transaction) : R unit :=
  if is_coinbase tx || is_native (subnetwork_id tx) then Ok tt
  else if is_dns_overlay (subnetwork_id tx) then guard_ (dns_ok tx) InvalidDnsOverlayPayload
  else if bool_decide (is_Some (palw_tx_kind (subnetwork_id tx))) then guard_ (palw_ok tx) InvalidPalwOverlayPayload
  else Err (SubnetworksDisabled (subnetwork_id tx)).
Definition validate_tx_in_isolation (tv : TransactionValidator) (dns_ok palw_ok : Transaction → bool) (tx : Transaction) : R unit :=
  _ ← check_palw_block_authorization_shape tx;
  _ ← check_transaction_inputs_in_isolation tv tx;
  _ ← check_transaction_outputs_in_isolation tv tx;
  _ ← check_transaction_pq_output_classes tv tx;
  _ ← check_coinbase_in_isolation tv tx;
  _ ← check_transaction_output_value_ranges tx;
  _ ← check_duplicate_transaction_inputs tx;
  _ ← check_gas tx;
  _ ← check_transaction_subnetwork dns_ok palw_ok tx;
  check_transaction_version tx.

(** ** In the context of a header *)

Inductive LockTimeType : Type := LFinalized | LDaaScore | LTime.
Inductive LockTimeArg : Type := AFinalized | ADaaScore (s : Z) | AMedianTime (t : Z).
Definition get_lock_time_type (tx : Transaction) : LockTimeType :=
  if lock_time tx =? 0 then LFinalized else if lock_time tx <? LOCK_TIME_THRESHOLD then LDaaScore else LTime.
Definition finalized_at (tx : Transaction) (block_time_or_daa_score : Z) : R unit :=
  if lock_time tx <? block_time_or_daa_score then Ok tt
  else check_each (λ i input, guard_ (sequence input =? U64_MAX) (NotFinalized i)) 0 (inputs tx).
Definition check_tx_is_finalized (tx : Transaction) (arg : LockTimeArg) : R unit :=
  match arg with AFinalized => Ok tt | ADaaScore s => finalized_at tx s | AMedianTime t => finalized_at tx t end.
Definition validate_tx_in_header_context (tx : Transaction) (arg : LockTimeArg) : R unit := check_tx_is_finalized tx arg.
Definition validate_tx_in_header_context_with_args (tx : Transaction) (ctx_daa_score ctx_block_time : Z) : R unit :=
  validate_tx_in_header_context tx
    match get_lock_time_type tx with
    | LFinalized => AFinalized
    | LDaaScore => ADaaScore ctx_daa_score
    | LTime => AMedianTime ctx_block_time
    end.

(** ** In the context of the UTXO set *)

Inductive TxValidationFlags : Type := Full | SkipScriptChecks | SkipMassCheck.
#[export] Instance flags_eq_dec : EqDecision TxValidationFlags.
Proof. solve_decision. Defined.

Definition populated_inputs (tx : PopulatedTransaction) : list (TransactionInput * UtxoEntry) := zip (inputs (pop_tx tx)) (entries tx).
Definition check_transaction_coinbase_maturity (tv : TransactionValidator) (tx : PopulatedTransaction) (pov_daa_score : Z) : R unit :=
  check_each (λ i '(input, entry),
      if entry_is_coinbase entry then
        mature ← add64 (block_daa_score entry) (coinbase_maturity tv);
        guard_ (mature <=? pov_daa_score)
          (ImmatureCoinbaseSpend i (previous_outpoint input) (block_daa_score entry) pov_daa_score (coinbase_maturity tv))
      else Ok tt) 0 (populated_inputs tx).
Fixpoint input_amounts (total : Z) (ins : list (TransactionInput * UtxoEntry)) : R Z :=
  match ins with
  | [] => Ok total
  | (_, entry) :: ins =>
    match checked_add64 total (amount entry) with
    | None => Err InputAmountOverflow
    | Some total => if MAX_SOMPI <? total then Err InputAmountTooHigh else input_amounts total ins
    end
  end.
Definition check_transaction_input_amounts (tx : PopulatedTransaction) : R Z := input_amounts 0 (populated_inputs tx).
Definition check_output_values_and_compute_fee (tx : PopulatedTransaction) (total_in : Z) : R Z :=
  total_out ← sum64 (value <$> outputs (pop_tx tx)) 0;
  if total_in <? total_out then Err (SpendTooHigh total_out total_in) else sub64 total_in total_out.
Definition check_mass_commitment (tv : TransactionValidator) (tx : PopulatedTransaction) : R unit :=
  r ← calc_contextual_masses (mass_calculator tv) tx;
  match r with
  | None => Err MassIncomputable
  | Some m => guard_ (mass_commitment (pop_tx tx) =? storage_mass m) (WrongMass (storage_mass m) (mass_commitment (pop_tx tx)))
  end.
(** [as i64] of a [u64], and checked [i64] arithmetic. *)
Definition as_i64 (z : Z) : Z := if z <? 2 ^ 63 then z else z - 2 ^ 64.
Definition chk_i64 (z : Z) : R Z := if (- 2 ^ 63 <=? z) && (z <? 2 ^ 63) then Ok z else Panic.
Fixpoint sequence_locks (pov : Z) (ins : list (TransactionInput * UtxoEntry)) : R unit :=
  match ins with
  | [] => Ok tt
  | (input, entry) :: ins =>
    if negb (Z.land (sequence input) SEQUENCE_LOCK_TIME_DISABLED =? SEQUENCE_LOCK_TIME_DISABLED) then
      a ← chk_i64 (as_i64 (block_daa_score entry) + Z.land (sequence input) SEQUENCE_LOCK_TIME_MASK);
      lock_daa_score ← chk_i64 (a - 1);
      if pov <=? lock_daa_score then Err SequenceLockConditionsAreNotMet else sequence_locks pov ins
    else sequence_locks pov ins
  end.
Definition check_sequence_lock (tx : PopulatedTransaction) (pov_daa_score : Z) : R unit :=
  sequence_locks (as_i64 pov_daa_score) (populated_inputs tx).
(** The threshold of the mempool: a mass and the floating-point comparison of
    the fee rate with the threshold. *)
Definition check_feerate_threshold (fee : Z) (threshold : option (Z * (Z → Z → bool))) : R unit :=
  match threshold with
  | None => Ok tt
  | Some (contextual_mass, too_low) =>
    _ ← assert_ (0 <? contextual_mass);
    guard_ (negb (too_low fee contextual_mass)) FeerateTooLow
  end.
Definition check_input_class (pov_daa_score : Z) (i : nat) (p : TransactionInput * UtxoEntry) : R unit :=
  let class := ScriptClass_from_script (script_public_key p.2) in
  if bool_decide (class = EvmDepositLock) then
    fields ← parsed_lock (script_public_key p.2);
    guard_ (timeout_daa_score fields <=? pov_daa_score) (EvmDepositLockNotRefundableYet i pov_daa_score (timeout_daa_score fields))
  else guard_ (is_pq_standard class) (NonPqStandardInputClass i).
Definition check_input_script_classes (tx : PopulatedTransaction) (pov_daa_score : Z) : R unit :=
  check_each (check_input_class pov_daa_score) 0 (populated_inputs tx).

Definition map_script_err (script_err : TxScriptError) (input : TransactionInput) : TxRuleError :=
  if bool_decide (signature_script input = []) then SignatureEmpty script_err else SignatureInvalid script_err.

Section scripts.
Context {HC : Crypto} {HR : Rng}.

(** The scripts of one input, from the signature cache that it finds; the cache
    it leaves. The sub-hashes that the inputs share never change a digest
    (SigHash), so each input starts without them. *)
Definition check_script (tx : PopulatedTransaction) (policy : ScriptPolicy) (cache : Cache) (i : nat)
    (p : TransactionInput * UtxoEntry) : Cache * R unit :=
  match from_transaction_input (E:=TxScriptError) tx p.1 i p.2 cache with
  | Ok engine =>
    let '(engine, r) := execute (with_script_policy policy engine) in
    (sig_cache engine, map_err (λ e, map_script_err e p.1) r)
  | Err e => (cache, Err (map_script_err e p.1))
  | Panic => (cache, Panic)
  | OutOfFuel => (cache, OutOfFuel)
  end.
Fixpoint check_scripts_from (tx : PopulatedTransaction) (policy : ScriptPolicy) (cache : Cache) (i : nat)
    (ins : list (TransactionInput * UtxoEntry)) : Cache * R unit :=
  match ins with
  | [] => (cache, Ok tt)
  | p :: ins =>
    let '(cache, r) := check_script tx policy cache i p in
    match r with Ok _ => check_scripts_from tx policy cache (S i) ins | _ => (cache, r) end
  end.
Definition check_scripts_sequential (cache : Cache) (tx : PopulatedTransaction) (policy : ScriptPolicy) : Cache * R unit :=
  check_scripts_from tx policy cache 0 (populated_inputs tx).
(** A parallel run, as the order in which the inputs end, each with the state
    of the shared cache it worked on: the first failure is reported. *)
Fixpoint check_scripts_par_iter (tx : PopulatedTransaction) (policy : ScriptPolicy) (schedule : list (nat * Cache)) : R unit :=
  match schedule with
  | [] => Ok tt
  | (i, cache) :: schedule =>
    p ← populated_input tx i;
    _ ← (check_script tx policy cache i p).2;
    check_scripts_par_iter tx policy schedule
  end.
Definition check_scripts (cache : Cache) (schedule : list (nat * Cache)) (tx : PopulatedTransaction) (policy : ScriptPolicy) : R unit :=
  if (CHECK_SCRIPTS_PARALLELISM_THRESHOLD <? length (inputs (pop_tx tx)))%nat then check_scripts_par_iter tx policy schedule
  else (check_scripts_sequential cache tx policy).2.

Definition validate_populated_transaction_and_get_fee (tv : TransactionValidator) (cache : Cache) (schedule : list (nat * Cache))
    (tx : PopulatedTransaction) (pov_daa_score : Z) (flags : TxValidationFlags)
    (mass_and_feerate_threshold : option (Z * (Z → Z → bool))) : R Z :=
  _ ← check_transaction_coinbase_maturity tv tx pov_daa_score;
  total_in ← check_transaction_input_amounts tx;
  fee ← check_output_values_and_compute_fee tx total_in;
  _ ← (if bool_decide (flags = SkipMassCheck) then Ok tt else check_mass_commitment tv tx);
  _ ← check_sequence_lock tx pov_daa_score;
  _ ← check_feerate_threshold fee mass_and_feerate_threshold;
  _ ← match flags with
      | Full | SkipMassCheck =>
        _ ← (if pq_only (resolved_script_policy tv pov_daa_score) then check_input_script_classes tx pov_daa_score else Ok tt);
        check_scripts cache schedule tx (resolved_script_policy tv pov_daa_score)
      | SkipScriptChecks => Ok tt
      end;
  Ok fee.
End scripts.
