(* ===== verification/TxValidatorThms.v ===== *)
(** * What a validated transaction satisfies

    A transaction that passes validation under post-quantum enforcement spends
    distinct, mature outputs for at least what it creates, and each input
    carries an ML-DSA-87 signature of it; every output it creates can only be
    spent that way. *)

From stdpp Require Import base list gmap.
From Stdlib Require Import ZArith Lia.
From S2P Require Import Prelude Tx Bytes Hashing ScriptNum ScriptOps ScriptEngine ScriptSafe ScriptSpend ScriptStd ScriptP2pkh ScriptWitness Mass TxValidator.

Local Open Scope Z_scope.

(** ** The checks *)

Lemma check_each_Ok {A} (check : nat → A → R unit) i l : check_each check i l = Ok tt →
  ∀ k x, l !! k = Some x → check (i + k)%nat x = Ok tt.
Proof.
  revert i. induction l as [|y l IH]; intros i Hc k x Hk; [done|]. cbn [check_each] in Hc.
  apply bind_Ok in Hc as ([] & Hy & Hc). destruct k as [|k]; cbn in Hk.
  - injection Hk as ->. by rewrite Nat.add_0_r.
  - rewrite Nat.add_succ_r. by apply (IH (S i) Hc k).
Qed.
Lemma guard_Ok b e : guard_ b e = Ok tt → b = true.
Proof. unfold guard_. by destruct b. Qed.

Lemma output_value_ranges_Ok i t outs : 0 ≤ t → Forall (λ o, 0 ≤ value o) outs → output_value_ranges i t outs = Ok tt → t ≤ MAX_SOMPI →
  Forall (λ o, 1 ≤ value o) outs ∧ t + sumZ (value <$> outs) ≤ MAX_SOMPI.
Proof.
  intros Ht Hnn. revert i t Ht. induction Hnn as [|o outs Ho Hnn IH]; intros i t Ht Hr Hm; cbn [output_value_ranges] in Hr.
  { split; [done|]. unfold sumZ. cbn. lia. }
  destruct (Z.eqb_spec (value o) 0); [done|]. destruct (MAX_SOMPI <? value o); [done|].
  unfold checked_add64 in Hr. destruct (in_u64 (t + value o)); [|done].
  destruct (Z.ltb_spec MAX_SOMPI (t + value o)); [done|].
  destruct (IH (S i) (t + value o)) as [Hv Hs]; [lia|done|lia|].
  split; [constructor; [lia|done]|]. rewrite fmap_cons, sumZ_cons. lia.
Qed.
Lemma input_amounts_Ok t ins r : 0 ≤ t ≤ MAX_SOMPI → Forall (λ p, 0 ≤ amount p.2) ins → input_amounts t ins = Ok r →
  r = t + sumZ (amount ∘ snd <$> ins) ∧ 0 ≤ r ≤ MAX_SOMPI.
Proof.
  intros Ht Hnn. revert t Ht. induction Hnn as [|[input entry] ins Ha Hnn IH]; intros t Ht Hr; cbn [input_amounts] in Hr.
  { injection Hr as <-. split; [unfold sumZ; cbn; lia|done]. }
  unfold checked_add64 in Hr. destruct (in_u64 (t + amount entry)); [|done].
  destruct (Z.ltb_spec MAX_SOMPI (t + amount entry)); [done|]. cbn in Ha.
  destruct (IH (t + amount entry)) as [-> Hb]; [lia|done|]. split; [|done]. rewrite fmap_cons, sumZ_cons. cbn. lia.
Qed.
Lemma duplicate_inputs_Ok seen ins : duplicate_inputs seen ins = Ok tt →
  NoDup (previous_outpoint <$> ins) ∧ ∀ o, o ∈ previous_outpoint <$> ins → o ∉ seen.
Proof.
  revert seen. induction ins as [|input ins IH]; intros seen Hd; cbn [duplicate_inputs] in Hd.
  { split; [apply NoDup_nil_2|]. intros o Ho. by apply elem_of_nil in Ho. }
  case_bool_decide as Hin; [done|]. destruct (IH _ Hd) as [Hnd Hns]. cbn [fmap list_fmap]. split.
  - apply NoDup_cons. split; [|done]. intros Hc. apply (Hns _ Hc). apply list_elem_of_here.
  - intros o [->|Ho]%elem_of_cons; [done|]. intros Hc. apply (Hns o Ho). by apply list_elem_of_further.
Qed.

Lemma pq_class_key_hash spk : is_pq_standard (ScriptClass_from_script spk) = true ∨ ScriptClass_from_script spk = EvmDepositLock →
  is_Some (key_hash spk).
Proof. unfold key_hash. destruct (ScriptClass_from_script spk); intros [|]; try done; by eexists. Qed.
Lemma parsed_lock_Ok spk : ScriptClass_from_script spk = EvmDepositLock →
  ∃ f, parsed_lock spk = Ok f ∧ timeout_daa_score f = le_val (slice 22 30 (spk_script spk)) ∧ claim_tip_sompi f = le_val (slice 30 38 (spk_script spk)).
Proof.
  intros Hc. destruct (parse_lock_slices (E:=TxRuleError) spk Hc) as (_ & _ & _ & Hp). unfold parsed_lock. rewrite Hp. by eexists.
Qed.

(** What the scripts of an output allow: the standard output, or a deposit lock
    with its fields. *)
Definition pq_locked (spk : ScriptPublicKey) : Prop :=
  ScriptClass_from_script spk = PubKeyHashMlDsa87 ∨ ScriptClass_from_script spk = EvmDepositLock.
Definition lock_timeout (spk : ScriptPublicKey) : Z := le_val (slice 22 30 (spk_script spk)).
Definition lock_tip (spk : ScriptPublicKey) : Z := le_val (slice 30 38 (spk_script spk)).

Lemma is_pq_standard_class c : is_pq_standard c = true → c = PubKeyHashMlDsa87.
Proof. by destruct c. Qed.
Lemma check_pq_output_Ok i o : check_pq_output i o = Ok tt →
  pq_locked (out_script_public_key o) ∧
  (ScriptClass_from_script (out_script_public_key o) = EvmDepositLock → lock_tip (out_script_public_key o) ≤ value o).
Proof.
  unfold check_pq_output. case_bool_decide as Hc.
  - destruct (parsed_lock_Ok _ Hc) as (f & -> & _ & Htip). cbn [mbind outcome_bind]. intros Hg%guard_Ok%Z.leb_le.
    split; [by right|]. intros _. unfold lock_tip. lia.
  - intros Hg%guard_Ok%is_pq_standard_class. split; [by left|done].
Qed.
Lemma check_input_class_Ok pov i p : check_input_class pov i p = Ok tt →
  pq_locked (script_public_key p.2) ∧
  (ScriptClass_from_script (script_public_key p.2) = EvmDepositLock → lock_timeout (script_public_key p.2) ≤ pov).
Proof.
  unfold check_input_class. case_bool_decide as Hc.
  - destruct (parsed_lock_Ok _ Hc) as (f & -> & Htime & _). cbn [mbind outcome_bind]. intros Hg%guard_Ok%Z.leb_le.
    split; [by right|]. intros _. unfold lock_timeout. lia.
  - intros Hg%guard_Ok%is_pq_standard_class. split; [by left|done].
Qed.

(** ** Scripts *)

Section scripts.
Context {HC : Crypto} {HR : Rng}.

Lemma check_script_Ok tx policy cache i p c' : cache_ok cache → check_script tx policy cache i p = (c', Ok tt) →
  cache_ok c' ∧ ∃ e, from_transaction_input (E:=TxScriptError) tx p.1 i p.2 cache = Ok e ∧ (execute (with_script_policy policy e)).2 = Ok tt.
Proof.
  intros Hc. unfold check_script. destruct (from_transaction_input tx p.1 i p.2 cache) as [e| | |] eqn:He; try discriminate.
  pose proof (kc_execute (with_script_policy policy e)) as Hk.
  destruct (execute (with_script_policy policy e)) as [e' r] eqn:Hx. intros [= <- Hr]. split.
  - apply Hk. unfold from_transaction_input in He. destruct (_ <? _)%nat; [|done]. by injection He as <-.
  - exists e. split; [done|]. rewrite Hx. cbn. destruct r as [[]| | |]; done.
Qed.
(** Every input of an accepted transaction ran with a sound cache. *)
Definition runs_ok (tx : PopulatedTransaction) (policy : ScriptPolicy) (i : nat) (p : TransactionInput * UtxoEntry) : Prop :=
  ∃ c e, cache_ok c ∧ from_transaction_input (E:=TxScriptError) tx p.1 i p.2 c = Ok e ∧ (execute (with_script_policy policy e)).2 = Ok tt.
Lemma check_scripts_from_Ok tx policy cache i ins : cache_ok cache → (check_scripts_from tx policy cache i ins).2 = Ok tt →
  ∀ k p, ins !! k = Some p → runs_ok tx policy (i + k) p.
Proof.
  revert cache i. induction ins as [|q ins IH]; intros cache i Hc Hr k p Hk; [done|]. cbn [check_scripts_from] in Hr.
  destruct (check_script tx policy cache i q) as [c' [[]| | |]] eqn:Hs; try discriminate Hr.
  destruct (check_script_Ok _ _ _ _ _ _ Hc Hs) as (Hc' & e & He & Hx). destruct k as [|k]; cbn in Hk.
  - injection Hk as ->. rewrite Nat.add_0_r. by exists cache, e.
  - rewrite Nat.add_succ_r. by apply (IH c' (S i) Hc' Hr k).
Qed.
Lemma check_scripts_par_Ok tx policy schedule : Forall (λ s, cache_ok s.2) schedule → check_scripts_par_iter tx policy schedule = Ok tt →
  ∀ i input entry, i ∈ schedule.*1 → inputs (pop_tx tx) !! i = Some input → entries tx !! i = Some entry → runs_ok tx policy i (input, entry).
Proof.
  intros Hs. induction Hs as [|[j cache] schedule Hc Hs IH]; intros Hr i input entry Hi Hin Hen; [by apply elem_of_nil in Hi|].
  cbn [check_scripts_par_iter] in Hr. apply bind_Ok in Hr as (p & Hp & Hr). apply bind_Ok in Hr as ([] & Hx & Hr).
  cbn [fmap list_fmap fst] in Hi. apply elem_of_cons in Hi as [->|Hi]; [|by apply IH].
  rewrite (populated_input_Ok _ _ _ _ Hin Hen) in Hp. injection Hp as <-.
  destruct (check_script tx policy cache j (input, entry)) as [c' r] eqn:Hcs. cbn in Hx. subst r.
  destruct (check_script_Ok _ _ _ _ _ _ Hc Hcs) as (_ & e & He & Hex). by exists cache, e.
Qed.

(** A schedule covers the inputs, each with a sound cache. *)
Definition schedule_ok (tx : PopulatedTransaction) (schedule : list (nat * Cache)) : Prop :=
  schedule.*1 ≡ₚ seq 0 (length (inputs (pop_tx tx))) ∧ Forall (λ s, cache_ok s.2) schedule.
Lemma check_scripts_Ok cache schedule tx policy : cache_ok cache → schedule_ok tx schedule → check_scripts cache schedule tx policy = Ok tt →
  ∀ i input entry, inputs (pop_tx tx) !! i = Some input → entries tx !! i = Some entry → runs_ok tx policy i (input, entry).
Proof.
  intros Hc [Hp Hs] Hr i input entry Hin Hen. unfold check_scripts in Hr. destruct (_ <? _)%nat.
  - eapply check_scripts_par_Ok; try done. rewrite Hp. apply elem_of_seq. apply lookup_lt_Some in Hin. lia.
  - apply (check_scripts_from_Ok tx policy cache 0 _ Hc Hr i). unfold populated_inputs. apply lookup_zip_with_Some. by exists input, entry.
Qed.
End scripts.

(** ** Accepted transactions *)

Record populated_typed (tx : PopulatedTransaction) : Prop := {
  pt_wf : well_populated tx;
  pt_inputs : Forall (λ input, bytes (signature_script input) ∧ 0 ≤ sig_op_count input ≤ 255) (inputs (pop_tx tx));
  pt_entries : Forall (λ e, bytes (spk_script (script_public_key e)) ∧ is_u64 (amount e)) (entries tx);
  pt_outputs : Forall (λ o, bytes (spk_script (out_script_public_key o)) ∧ is_u64 (value o)) (outputs (pop_tx tx));
}.
Lemma populated_source tx i input entry : populated_typed tx → inputs (pop_tx tx) !! i = Some input → entries tx !! i = Some entry →
  source_ok (input_source tx input i entry) ∧ 0 ≤ sig_op_count input ≤ 255.
Proof.
  intros [Hwf Hi He Ho] Hin Hen. destruct (proj1 (Forall_lookup _ _) Hi i input Hin) as [Hsig Hn].
  destruct (proj1 (Forall_lookup _ _) He i entry Hen) as [Hspk _].
  split; [|done]. split_and!; try done; (eapply Forall_impl; [eassumption|]); by intros ? [? _].
Qed.
Lemma populated_amounts tx : well_populated tx → amount ∘ snd <$> populated_inputs tx = amount <$> entries tx.
Proof.
  unfold well_populated, populated_inputs. intros Hwf. rewrite list_fmap_compose. f_equal. apply snd_zip. lia.
Qed.

Section accepted.
Context {HC : Crypto} {HR : Rng}.

(** An input that its owner signed: a key with the hash of the spent output
    and a signature of the digest of the transaction, or a pair that the
    signature cache took for one. *)
Definition signed_by_owner (tx : PopulatedTransaction) (i : nat) (entry : UtxoEntry) : Prop :=
  ∃ key sig typ t msg r,
    key_hash (script_public_key entry) = Some (blake2b_512_address_payload key) ∧
    len key = MLDSA87_PK_LEN ∧ len sig = MLDSA87_SIG_LEN ∧ SigHashType_from_u8 typ = Some t ∧
    calc_mldsa87_signature_hash (E:=TxScriptError) tx i t ReusedValues_new = Ok (msg, r) ∧
    (mldsa87_verify key msg MLDSA87_TX_CONTEXT sig = true ∨ digest_confusion key sig msg true).
Definition spendable (tv : TransactionValidator) (pov : Z) (entry : UtxoEntry) : Prop :=
  (entry_is_coinbase entry = true → block_daa_score entry + coinbase_maturity tv ≤ pov) ∧
  pq_locked (script_public_key entry) ∧
  (ScriptClass_from_script (script_public_key entry) = EvmDepositLock → lock_timeout (script_public_key entry) ≤ pov).
Definition created_output (o : TransactionOutput) : Prop :=
  1 ≤ value o ∧ pq_locked (out_script_public_key o) ∧
  (ScriptClass_from_script (out_script_public_key o) = EvmDepositLock → lock_tip (out_script_public_key o) ≤ value o).

Lemma runs_signed tx policy i input entry : populated_typed tx → inputs (pop_tx tx) !! i = Some input → entries tx !! i = Some entry →
  pq_locked (script_public_key entry) → runs_ok tx policy i (input, entry) → signed_by_owner tx i entry.
Proof.
  intros Ht Hin Hen Hl (c & e & Hc & Hfrom & Hx). destruct (populated_source _ _ _ _ Ht Hin Hen) as [Hsrc Hn].
  assert (Hk : is_Some (key_hash (script_public_key entry))).
  { apply pq_class_key_hash. destruct Hl as [->| ->]; [by left|by right]. }
  destruct Hk as [h Hh].
  destruct (p2pkh_spend_sound tx input i entry c policy e h Hsrc Hn Hc Hh Hfrom Hx) as (key & sig & typ & t & msg & r & <- & Hrest).
  by exists key, sig, typ, t, msg, r.
Qed.

Lemma isolation_Ok tv dns_ok palw_ok tx : pq_enforcement tv = Consensus → Forall (λ o, 0 ≤ value o) (outputs tx) →
  validate_tx_in_isolation tv dns_ok palw_ok tx = Ok tt →
  NoDup (previous_outpoint <$> inputs tx) ∧ sumZ (value <$> outputs tx) ≤ MAX_SOMPI ∧ ∀ o, o ∈ outputs tx → created_output o.
Proof.
  intros Hpq Hnn H. unfold validate_tx_in_isolation in H. do 3 (apply bind_Ok in H as ([] & _ & H)).
  apply bind_Ok in H as ([] & Hcls & H). apply bind_Ok in H as ([] & _ & H). apply bind_Ok in H as ([] & Hval & H).
  apply bind_Ok in H as ([] & Hdup & _). unfold check_transaction_pq_output_classes in Hcls.
  rewrite bool_decide_true in Hcls by done. cbn [negb] in Hcls.
  destruct (output_value_ranges_Ok 0 0 (outputs tx)) as [Hv Hs]; [lia|done|done|vm_compute; discriminate|].
  split_and!; [by apply duplicate_inputs_Ok in Hdup as [? _]|lia|]. intros o Ho.
  apply list_elem_of_lookup in Ho as [k Hk]. destruct (check_pq_output_Ok _ _ (check_each_Ok _ _ _ Hcls k o Hk)) as [Hl Ht].
  split_and!; [|done|done]. exact (proj1 (Forall_lookup _ _) Hv k o Hk).
Qed.

Lemma populated_values tx : populated_typed tx → Forall (λ x, 0 ≤ x) (value <$> outputs (pop_tx tx)).
Proof.
  intros [_ _ _ Ho]. apply Forall_fmap. eapply Forall_impl; [exact Ho|]. intros o [_ Hu]. unfold is_u64 in Hu. cbn. lia.
Qed.
Lemma total_values_nonneg tx : populated_typed tx → 0 ≤ sumZ (value <$> outputs (pop_tx tx)).
Proof. intros Ht. by apply sumZ_nonneg, populated_values. Qed.
Lemma populated_total tx total_in : populated_typed tx → check_transaction_input_amounts tx = Ok total_in →
  total_in = sumZ (amount <$> entries tx) ∧ 0 ≤ total_in ≤ MAX_SOMPI.
Proof.
  intros [Hwf _ He _] Hin. apply input_amounts_Ok in Hin as [-> Hb].
  - rewrite populated_amounts in * by done. by rewrite Z.add_0_l in *.
  - split; [lia|vm_compute; discriminate].
  - unfold populated_inputs. apply Forall_lookup. intros k [input entry] Hk%lookup_zip_with_Some. destruct Hk as (x & y & [= <- <-] & _ & Hy).
    destruct (proj1 (Forall_lookup _ _) He k entry Hy) as [_ Hu]. unfold is_u64 in Hu. cbn. lia.
Qed.
(** The amounts: the fee is what the inputs hold beyond the outputs. *)
Lemma populated_fee tx total_in fee : populated_typed tx → sumZ (value <$> outputs (pop_tx tx)) ≤ MAX_SOMPI →
  check_transaction_input_amounts tx = Ok total_in → check_output_values_and_compute_fee tx total_in = Ok fee →
  sumZ (amount <$> entries tx) = sumZ (value <$> outputs (pop_tx tx)) + fee ∧ 0 ≤ fee ∧ sumZ (amount <$> entries tx) ≤ MAX_SOMPI.
Proof.
  intros Ht Hout Hin Hfee. apply populated_total in Hin as [-> Hb]; [|done]. unfold check_output_values_and_compute_fee in Hfee.
  rewrite (sum64_Ok _ 0), Z.add_0_l in Hfee; [|done|by apply populated_values|etrans; [exact Hout|vm_compute; discriminate]].
  cbn [mbind outcome_bind] in Hfee. case_match; [done|]. apply chk64_inv in Hfee as [-> Hu]. unfold is_u64 in Hu. lia.
Qed.

(** C4. A transaction that passes validation in isolation and in the context
    of the UTXO set, with script checks, once post-quantum enforcement is
    active, is sound as a whole: what its inputs hold is what its outputs hold
    plus the fee, which is not negative, and no more than the supply; it spends
    distinct outpoints; every spent output is mature, in the standard class or
    a deposit lock past its timeout, and its owner signed the transaction with
    ML-DSA-87, or the signature cache confused two pairs of key and signature
    of the same digests; every output it creates holds a sompi or more and is
    in the standard class or a deposit lock that can pay its tip. The inputs
    may be checked in any order, each on its own state of the shared cache. *)
Theorem accepted_transaction_sound tv dns_ok palw_ok cache schedule tx pov flags threshold fee :
  populated_typed tx → cache_ok cache → schedule_ok tx schedule →
  pq_enforcement tv = Consensus → pq_activation_daa_score tv ≤ pov → flags ≠ SkipScriptChecks →
  validate_tx_in_isolation tv dns_ok palw_ok (pop_tx tx) = Ok tt →
  validate_populated_transaction_and_get_fee tv cache schedule tx pov flags threshold = Ok fee →
  (sumZ (amount <$> entries tx) = sumZ (value <$> outputs (pop_tx tx)) + fee ∧ 0 ≤ fee ∧ sumZ (amount <$> entries tx) ≤ MAX_SOMPI) ∧
  NoDup (previous_outpoint <$> inputs (pop_tx tx)) ∧
  (∀ i entry, entries tx !! i = Some entry → spendable tv pov entry ∧ signed_by_owner tx i entry) ∧
  (∀ o, o ∈ outputs (pop_tx tx) → created_output o).
Proof.
  intros Ht Hc Hs Hpq Hact Hfl Hiso Hval. pose proof Ht as [Hwf _ He Ho].
  destruct (isolation_Ok tv dns_ok palw_ok (pop_tx tx)) as (Hnd & Hout & Hcr); [done| |done|].
  { eapply Forall_impl; [exact Ho|]. intros o [_ Hu]. unfold is_u64 in Hu. lia. }
  apply bind_Ok in Hval as ([] & Hmat & Hval). apply bind_Ok in Hval as (total_in & Hin & Hval).
  apply bind_Ok in Hval as (fee' & Hfee & Hval). do 3 (apply bind_Ok in Hval as ([] & _ & Hval)).
  apply bind_Ok in Hval as ([] & Hscr & Hval). injection Hval as ->.
  assert (Hpol : resolved_script_policy tv pov = PQ_ONLY).
  { unfold resolved_script_policy. rewrite bool_decide_true by done. by rewrite (proj2 (Z.leb_le _ _) Hact). }
  rewrite Hpol in Hscr.
  assert (Hscr' : check_input_script_classes tx pov = Ok tt ∧ check_scripts cache schedule tx PQ_ONLY = Ok tt).
  { destruct flags; [|done|]; apply bind_Ok in Hscr as ([] & ? & ?); done. }
  destruct Hscr' as [Hcls Hrun]. split_and!; try done; [by eapply populated_fee..|].
  intros i entry Hen. destruct (lookup_lt_is_Some_2 (inputs (pop_tx tx)) i) as [input Hinp].
  { apply lookup_lt_Some in Hen. unfold well_populated in Hwf. lia. }
  assert (Hz : populated_inputs tx !! i = Some (input, entry)).
  { unfold populated_inputs. apply lookup_zip_with_Some. by exists input, entry. }
  destruct (check_input_class_Ok _ _ _ (check_each_Ok _ _ _ Hcls i _ Hz)) as [Hl Htime].
  pose proof (check_each_Ok _ _ _ Hmat i _ Hz) as Hm. cbn in Hm. split.
  - split_and!; [|done|done]. intros Hcb. rewrite Hcb in Hm. apply bind_Ok in Hm as (m & [-> _]%chk64_inv & Hg%guard_Ok%Z.leb_le). done.
  - eapply runs_signed; try done. by eapply check_scripts_Ok.
Qed.
End accepted.

(** ** Validation does not panic *)

Lemma check_each_safe {A} (check : nat → A → R unit) i l : (∀ k x, l !! k = Some x → safe (check (i + k)%nat x)) → safe (check_each check i l).
Proof.
  revert i. induction l as [|y l IH]; intros i Hc; [done|]. cbn [check_each]. apply safe_bind.
  - rewrite <- (Nat.add_0_r i). by apply (Hc 0%nat).
  - intros [] _. apply IH. intros k x Hk. rewrite Nat.add_succ_comm. by apply (Hc (S k)).
Qed.
Lemma guard_safe b e : safe (guard_ b e).
Proof. unfold guard_. by destruct b. Qed.
#[export] Hint Resolve guard_safe : misaka.

Lemma check_input_class_safe pov i p : safe (check_input_class pov i p).
Proof.
  unfold check_input_class. case_bool_decide as Hc; [|apply guard_safe].
  destruct (parsed_lock_Ok _ Hc) as (f & -> & _). cbn [mbind outcome_bind]. apply guard_safe.
Qed.
Lemma input_amounts_safe t ins : safe (input_amounts t ins).
Proof. revert t. induction ins as [|[x entry] ins IH]; intros t; cbn [input_amounts]; [done|]. repeat case_match; done. Qed.

(** The DAA scores that a chain can reach: far from the ends of [i64]. *)
Definition daa_ok (tv : TransactionValidator) (e : UtxoEntry) : Prop :=
  0 ≤ block_daa_score e < 2 ^ 62 ∧ block_daa_score e + coinbase_maturity tv ≤ U64_MAX.
Lemma sequence_locks_safe tv pov ins : 0 ≤ coinbase_maturity tv → Forall (λ p, daa_ok tv p.2) ins → safe (sequence_locks pov ins).
Proof.
  intros Hm. induction 1 as [|[input entry] ins [Hd _] Hin IH]; cbn [sequence_locks]; [done|]. cbn [snd] in Hd.
  destruct (negb _); [|done].
  assert (Hl : 0 ≤ Z.land (sequence input) SEQUENCE_LOCK_TIME_MASK < 2 ^ 32).
  { change SEQUENCE_LOCK_TIME_MASK with (Z.ones 32). rewrite Z.land_ones by lia. apply Z.mod_pos_bound. lia. }
  unfold as_i64 at 1. destruct (Z.ltb_spec (block_daa_score entry) (2 ^ 63)); [|lia].
  unfold chk_i64. destruct (andb _ _) eqn:H1; [|lia]. cbn [mbind outcome_bind].
  destruct (andb (_ <=? _ - 1) _) eqn:H2; [|lia]. cbn [mbind outcome_bind]. by case_match.
Qed.

Section safety.
Context {HC : Crypto} {HR : Rng}.

Lemma check_script_safe tx policy cache i input entry : populated_typed tx →
  inputs (pop_tx tx) !! i = Some input → entries tx !! i = Some entry → safe (check_script tx policy cache i (input, entry)).2.
Proof.
  intros Ht Hin Hen. destruct (populated_source _ _ _ _ Ht Hin Hen) as [Hsrc Hn]. unfold check_script. cbn [fst snd].
  destruct (from_transaction_input_ok (E:=TxScriptError) tx input i entry cache policy Hsrc Hn) as (e & -> & He).
  destruct (os_execute _ policy _ Hsrc _ He) as [[Hp Hf] _]. destruct (execute _) as [e' r]. cbn in *. by destruct r.
Qed.
Lemma check_scripts_safe cache schedule tx policy : populated_typed tx → Forall (λ s, s.1 < length (inputs (pop_tx tx)))%nat schedule →
  safe (check_scripts cache schedule tx policy).
Proof.
  intros Ht Hs. pose proof (pt_wf _ Ht) as Hwf. unfold well_populated in Hwf. unfold check_scripts. destruct (_ <? _)%nat.
  - induction Hs as [|[i c] schedule Hi Hs IH]; cbn [check_scripts_par_iter]; [done|]. cbn in Hi.
    destruct (lookup_lt_is_Some_2 _ _ Hi) as [input Hin]. rewrite Hwf in Hi. destruct (lookup_lt_is_Some_2 _ _ Hi) as [entry Hen].
    rewrite (populated_input_Ok _ _ _ _ Hin Hen). cbn [mbind outcome_bind]. apply safe_bind; [by apply check_script_safe|done].
  - unfold check_scripts_sequential.
    cut (∀ ins i c, (∀ k input entry, ins !! k = Some (input, entry) → inputs (pop_tx tx) !! (i + k)%nat = Some input ∧ entries tx !! (i + k)%nat = Some entry) →
      safe (check_scripts_from tx policy c i ins).2).
    { intros Hcut. apply Hcut. intros k input entry Hk%lookup_zip_with_Some. by destruct Hk as (? & ? & [= <- <-] & ? & ?). }
    induction ins as [|[input entry] ins IH]; intros i c Hl; cbn [check_scripts_from]; [done|].
    destruct (Hl 0%nat input entry eq_refl) as [Hin Hen]. rewrite Nat.add_0_r in *.
    pose proof (check_script_safe tx policy c i input entry Ht Hin Hen) as Hsafe. destruct (check_script _ _ _ _ _) as [c' r]. cbn in Hsafe.
    destruct r; [|done..]. apply IH. intros k x y Hk. rewrite Nat.add_succ_l, <- Nat.add_succ_r. by apply Hl.
Qed.

(** C39. Validation in the context of the UTXO set returns a fee or an error
    and never panics, on a transaction of any shape, with any cache and any
    order of its inputs, under any policy, when its outputs total no more than
    the supply (as validation in isolation ensures), the DAA scores of the
    spent outputs are far from overflow, its storage units fit and its inputs
    hold a sompi or more per storage unit on average. *)
Theorem validation_never_panics tv cache schedule tx pov flags threshold :
  populated_typed tx → Forall (λ s, s.1 < length (inputs (pop_tx tx)))%nat schedule →
  sumZ (value <$> outputs (pop_tx tx)) ≤ MAX_SOMPI →
  0 ≤ coinbase_maturity tv → Forall (daa_ok tv) (entries tx) →
  0 ≤ storage_mass_parameter (mass_calculator tv) →
  cells_typed (storage_mass_parameter (mass_calculator tv)) (entry_cell <$> entries tx) →
  cells_typed (storage_mass_parameter (mass_calculator tv)) (output_cell <$> outputs (pop_tx tx)) →
  sumZ (plurality <$> (entry_cell <$> entries tx)) ≤ sumZ (cell_amount <$> (entry_cell <$> entries tx)) →
  (∀ m f, threshold = Some (m, f) → 0 < m) →
  safe (validate_populated_transaction_and_get_fee tv cache schedule tx pov flags threshold).
Proof.
  intros Ht Hs Hout Hm Hd HS Hci Hco Hle Hth. pose proof Ht as [Hwf _ He Ho].
  assert (Hdz : Forall (λ p, daa_ok tv p.2) (populated_inputs tx)).
  { apply Forall_lookup. intros k p Hk%lookup_zip_with_Some. destruct Hk as (x & y & -> & _ & Hy). exact (proj1 (Forall_lookup _ _) Hd k y Hy). }
  unfold validate_populated_transaction_and_get_fee.
  apply safe_bind; [|intros [] _; apply safe_bind; [apply input_amounts_safe|intros total_in Hin; apply safe_bind]].
  - apply check_each_safe. intros k [input entry] Hk. destruct (proj1 (Forall_lookup _ _) Hdz k _ Hk) as [Hb Hu]. cbn in Hb, Hu |- *.
    destruct (entry_is_coinbase entry); [|done]. unfold add64. rewrite chk64_Ok by (unfold is_u64; lia). apply guard_safe.
  - unfold check_output_values_and_compute_fee. rewrite (sum64_Ok _ 0), Z.add_0_l.
    + cbn [mbind outcome_bind]. destruct (Z.ltb_spec total_in (sumZ (value <$> outputs (pop_tx tx)))); [done|].
      unfold sub64. pose proof (total_values_nonneg tx Ht). apply (populated_total tx total_in Ht) in Hin. rewrite chk64_Ok; [done|].
      unfold is_u64. assert (MAX_SOMPI ≤ U64_MAX) by (vm_compute; discriminate). lia.
    + done.
    + by apply populated_values.
    + etrans; [exact Hout|]. vm_compute. discriminate.
  - intros fee _. apply safe_bind; [|intros [] _; apply safe_bind; [by eapply sequence_locks_safe|intros [] _; apply safe_bind]].
    + case_bool_decide; [done|]. unfold check_mass_commitment, calc_contextual_masses. apply safe_bind.
      * apply safe_bind; [by apply storage_mass_safe|done].
      * intros [m|] _; [apply guard_safe|done].
    + unfold check_feerate_threshold. destruct threshold as [[m f]|]; [|done]. specialize (Hth m f eq_refl).
      unfold assert_. rewrite (proj2 (Z.ltb_lt _ _) Hth). cbn [mbind outcome_bind]. apply guard_safe.
    + intros [] _. apply safe_bind; [|done].
      assert (Hb : safe (_ ← (if pq_only (resolved_script_policy tv pov) then check_input_script_classes tx pov else Ok tt);
                         check_scripts cache schedule tx (resolved_script_policy tv pov))).
      { apply safe_bind; [|intros [] _; by apply check_scripts_safe]. case_match; [|done]. apply check_each_safe. intros. apply check_input_class_safe. }
      by destruct flags.
Qed.
End safety.

(** ** A transaction with two inputs that passes validation

    Two standard outputs spent into two, with the toy cryptography of the
    script witnesses; the second input is checked first. *)

Module TxValidatorWitness.
#[local] Existing Instance toy_crypto.
#[local] Existing Instance toy_rng.

Definition tv : TransactionValidator :=
  mkValidator 10 10 20000 1000 150 100 10 (mkMassCalculator 1 10 1000 100) Consensus 50 false.
Definition second : TransactionInput := mkInput (mkOutpoint 1 1) (signature_script ScriptWitness.input) 0 1.
Definition coinbase_entry : UtxoEntry := mkUtxoEntry 10 ScriptWitness.spk 5 true.
Definition spend : Transaction :=
  mkTransaction 0 [ScriptWitness.input; second] [mkOutput 5 ScriptWitness.spk; mkOutput 5 ScriptWitness.spk] 0 SUBNETWORK_ID_NATIVE 0 [] 80 3.
Definition pspend : PopulatedTransaction := mkPopulated spend [ScriptWitness.entry; coinbase_entry].
Definition schedule : list (nat * Cache) := [(1%nat, ScriptWitness.cache); (0%nat, ScriptWitness.cache)].
Definition no_overlay (_ : Transaction) : bool := false.

Lemma spend_typed : populated_typed pspend.
Proof.
  split; [reflexivity|..]; (repeat apply Forall_cons_2; try apply Forall_nil_2);
    (split; [apply ScriptWitness.all_bytes; vm_compute; reflexivity|vm_compute; split; discriminate]).
Qed.
Lemma schedule_wf : schedule_ok pspend schedule.
Proof.
  split; [apply Permutation_swap|]. repeat apply Forall_cons_2; [exact ScriptWitness.cache_wf..|apply Forall_nil_2].
Qed.
Lemma isolation_accepts : validate_tx_in_isolation tv no_overlay no_overlay spend = Ok tt.
Proof. vm_compute. reflexivity. Qed.
Lemma context_accepts : validate_populated_transaction_and_get_fee tv ScriptWitness.cache schedule pspend 105 Full None = Ok 10.
Proof. vm_compute. reflexivity. Qed.
Lemma accepted_transaction_sound_witness :
  (20 = 10 + 10 ∧ 0 ≤ 10 ∧ 20 ≤ MAX_SOMPI) ∧
  NoDup (previous_outpoint <$> inputs spend) ∧
  (∀ i entry, entries pspend !! i = Some entry → spendable tv 105 entry ∧ signed_by_owner pspend i entry) ∧
  (∀ o, o ∈ outputs spend → created_output o).
Proof.
  exact (accepted_transaction_sound tv no_overlay no_overlay ScriptWitness.cache schedule pspend 105 Full None 10
    spend_typed ScriptWitness.cache_wf schedule_wf eq_refl ltac:(vm_compute; discriminate) ltac:(discriminate)
    isolation_accepts context_accepts).
Defined.

Lemma cells_wf : cells_typed 100 (entry_cell <$> entries pspend) ∧ cells_typed 100 (output_cell <$> outputs spend).
Proof.
  split; (split; [repeat apply Forall_cons_2; try apply Forall_nil_2|..]); vm_compute; split_and?; discriminate.
Qed.
Lemma scores_wf : Forall (daa_ok tv) (entries pspend).
Proof. repeat apply Forall_cons_2; try apply Forall_nil_2; vm_compute; split_and!; done. Qed.
Lemma schedule_in_range : Forall (λ s, s.1 < length (inputs spend))%nat schedule.
Proof. repeat apply Forall_cons_2; try apply Forall_nil_2; vm_compute; lia. Qed.
Lemma validation_never_panics_witness :
  safe (validate_populated_transaction_and_get_fee tv ScriptWitness.cache schedule pspend 105 Full None).
Proof.
  apply (validation_never_panics tv ScriptWitness.cache schedule pspend 105 Full None spend_typed schedule_in_range).
  - vm_compute. discriminate.
  - vm_compute. discriminate.
  - exact scores_wf.
  - vm_compute. discriminate.
  - exact (proj1 cells_wf).
  - exact (proj2 cells_wf).
  - vm_compute. discriminate.
  - discriminate.
Defined.
End TxValidatorWitness.
