(* ===== verification/DnsBond.v ===== *)
(** * DNS finality: stake bonds and their registry

    Models the stake-bond part of [src/consensus/core/src/dns_finality.rs]
    (payloads and their stateless checks, records, statuses, registry
    mutations, the view that the virtual processor walks along the selected
    chain, dormancy) and the rules of
    [src/consensus/src/pipeline/virtual_processor/utxo_validation.rs] that
    guard the registry. Borsh decoding of the payloads is a parameter. *)

From stdpp Require Import base list gmap sorting strings.
From Stdlib Require Import ZArith Lia.
From S2P Require Import Prelude Tx Bytes Hashing ScriptNum ScriptOps ScriptEngine Palw.

Local Open Scope Z_scope.

(** ** Payloads *)

Definition STAKE_VALIDATOR_PUBKEY_LEN : Z := 2592.
Definition STAKE_ATTESTATION_SIG_LEN : Z := 4627.
Definition MAX_ATTESTATIONS_PER_SHARD : Z := 16.
Definition DNS_PAYLOAD_VERSION_V1 : Z := 1.
Definition ATTESTATION_MLDSA87_CONTEXT : list byte := b_ "kaspa-pq-v1/att/mldsa87".
Definition ATTESTATION_MESSAGE_DOMAIN : list byte := b_ "kaspa-pq-v1/stake-attestation".
Definition UNBOND_REQUEST_CONTEXT : list byte := b_ "kaspa-pq-v1/unbond/mldsa87".
Definition UNBOND_REQUEST_MESSAGE_DOMAIN : list byte := b_ "kaspa-pq-v1/unbond-request".

Inductive BondStatus : Type := Pending | Active | Unbonding | Slashed | Dormant.
#[export] Instance BondStatus_eq_dec : EqDecision BondStatus.
Proof. solve_decision. Defined.

Record StakeBondPayload := mkBondPayload {
  bp_version : Z;
  bp_owner_pubkey_hash : Hash64;
  bp_validator_pubkey_hash : Hash64;
  bp_validator_pubkey : list byte;
  bp_amount : Z;
  bp_activation_daa_score : Z;
  bp_unbonding_period_blocks : Z;
  bp_owner_reward_spk_payload : list byte;
}.
Record StakeAttestation := mkAttestation {
  att_version : Z;
  att_validator_id : Hash64;
  att_bond_outpoint : TransactionOutpoint;
  att_epoch : Z;
  att_target_hash : Hash64;
  att_target_daa_score : Z;
  att_validator_set_commitment : Hash64;
  att_signature : list byte;
}.
Record StakeAttestationShardPayload := mkShard {
  sh_version : Z;
  sh_epoch : Z;
  sh_target_hash : Hash64;
  sh_target_daa_score : Z;
  sh_validator_set_commitment : Hash64;
  sh_attestations : list StakeAttestation;
}.
Record SlashingEvidencePayload := mkEvidence {
  ev_version : Z;
  ev_bond_outpoint : TransactionOutpoint;
  ev_attestation_a : StakeAttestation;
  ev_attestation_b : StakeAttestation;
  ev_reporter_reward_spk_payload : list byte;
}.
Record StakeUnbondRequestPayload := mkUnbondRequest {
  ur_version : Z;
  ur_bond_outpoint : TransactionOutpoint;
  ur_owner_pubkey : list byte;
  ur_signature : list byte;
}.

(** [borsh::from_slice] at each payload type. *)
Class DnsDecode := {
  decode_bond : list byte → option StakeBondPayload;
  decode_shard : list byte → option StakeAttestationShardPayload;
  decode_evidence : list byte → option SlashingEvidencePayload;
  decode_unbond : list byte → option StakeUnbondRequestPayload;
}.

Inductive DnsTxKind : Type := KStakeBond | KStakeAttestationShard | KSlashingEvidence | KStakeUnbond.
#[export] Instance DnsTxKind_eq_dec : EqDecision DnsTxKind.
Proof. solve_decision. Defined.
Definition dns_tx_kind (s : SubnetworkId) : option DnsTxKind :=
  if bool_decide (s = SUBNETWORK_ID_STAKE_BOND) then Some KStakeBond
  else if bool_decide (s = SUBNETWORK_ID_STAKE_ATTESTATION_SHARD) then Some KStakeAttestationShard
  else if bool_decide (s = SUBNETWORK_ID_SLASHING_EVIDENCE) then Some KSlashingEvidence
  else if bool_decide (s = SUBNETWORK_ID_STAKE_UNBOND) then Some KStakeUnbond
  else None.

(** ** Digests *)

Section digests.
Context `{Crypto}.

Definition validator_id_from_pubkey (validator_pubkey : list byte) : Hash64 := hash64_from_bytes (blake2b 64 [] validator_pubkey).
Definition attestation_message_string (network_id : list byte) (epoch : Z) (target_hash : Hash64) (target_daa_score : Z)
    (validator_set_commitment : Hash64) (bond_outpoint : TransactionOutpoint) : list byte :=
  network_id ++ to_le_bytes 8 epoch ++ push_hash target_hash ++ to_le_bytes 8 target_daa_score ++
  push_hash validator_set_commitment ++ push_outpoint bond_outpoint.
Definition stake_attestation_message (network_id : list byte) (epoch : Z) (target_hash : Hash64) (target_daa_score : Z)
    (validator_set_commitment : Hash64) (bond_outpoint : TransactionOutpoint) : list byte :=
  blake2b 32 ATTESTATION_MESSAGE_DOMAIN
    (attestation_message_string network_id epoch target_hash target_daa_score validator_set_commitment bond_outpoint).
Definition unbond_request_message (network_id : list byte) (bond_outpoint : TransactionOutpoint) : list byte :=
  blake2b 32 UNBOND_REQUEST_MESSAGE_DOMAIN (network_id ++ push_outpoint bond_outpoint).

(** [matches!(verify_mldsa87_with_context(..), Ok(true))]. *)
Definition verifies (key digest signature context : list byte) : bool :=
  bool_decide (verify_mldsa87_with_context key digest signature context = Ok true).
End digests.

(** ** Stateless checks of the payloads *)

(** The script of the standard output, [p2pkh_mldsa87_spk]. *)
Definition p2pkh_mldsa87_spk (owner_reward_spk_payload : list byte) : ScriptPublicKey :=
  mkScriptPublicKey 0 ([0x76; 0xc4; 0x40] ++ owner_reward_spk_payload ++ [0x88; 0xa6]).

Inductive DnsTxError : Type :=
  | Decode
  | UnsupportedVersion (v : Z)
  | ZeroBondAmount
  | InvalidPubKeyLen (n : Z)
  | ValidatorPubkeyHashMismatch
  | InvalidSignatureLen (n : Z)
  | EmptyShard
  | ShardTooLarge (n : Z)
  | ShardTupleMismatch
  | NonZeroValidatorSetCommitment
  | EvidenceTripleMismatch
  | EvidenceNotIncompatible
  | MissingBondOutput
  | BondOutputValueMismatch (expected got : Z)
  | BondOutputScriptMismatch
  | SlashingEvidenceHasOutputs (n : Z).

Section stateless.
Context `{Crypto} `{DnsDecode}.

Abbreviation D := (outcome DnsTxError).

Definition check_attestation_wellformed (att : StakeAttestation) : D unit :=
  if negb (att_version att =? DNS_PAYLOAD_VERSION_V1) then Err (UnsupportedVersion (att_version att))
  else if negb (len (att_signature att) =? STAKE_ATTESTATION_SIG_LEN) then Err (InvalidSignatureLen (len (att_signature att)))
  else if negb (att_validator_set_commitment att =? 0) then Err NonZeroValidatorSetCommitment
  else Ok tt.

Definition decode_and_check_stake_bond_payload (payload : list byte) : D StakeBondPayload :=
  bond ← ok_or (decode_bond payload) Decode;
  if negb (bp_version bond =? DNS_PAYLOAD_VERSION_V1) then Err (UnsupportedVersion (bp_version bond))
  else if bp_amount bond =? 0 then Err ZeroBondAmount
  else if negb (len (bp_validator_pubkey bond) =? STAKE_VALIDATOR_PUBKEY_LEN) then Err (InvalidPubKeyLen (len (bp_validator_pubkey bond)))
  else if negb (bp_validator_pubkey_hash bond =? validator_id_from_pubkey (bp_validator_pubkey bond)) then Err ValidatorPubkeyHashMismatch
  else Ok bond.
Definition validate_stake_bond_payload (payload : list byte) : D unit := _ ← decode_and_check_stake_bond_payload payload; Ok tt.
Definition validate_stake_bond_tx (payload : list byte) (outs : list TransactionOutput) : D unit :=
  bond ← decode_and_check_stake_bond_payload payload;
  output0 ← ok_or (head outs) MissingBondOutput;
  if negb (value output0 =? bp_amount bond) then Err (BondOutputValueMismatch (bp_amount bond) (value output0))
  else if negb (bool_decide (out_script_public_key output0 = p2pkh_mldsa87_spk (bp_owner_reward_spk_payload bond)))
  then Err BondOutputScriptMismatch
  else Ok tt.

Fixpoint check_shard_attestations (shard : StakeAttestationShardPayload) (atts : list StakeAttestation) : D unit :=
  match atts with
  | [] => Ok tt
  | att :: atts =>
    _ ← check_attestation_wellformed att;
    if negb (att_epoch att =? sh_epoch shard) || negb (att_target_hash att =? sh_target_hash shard)
       || negb (att_target_daa_score att =? sh_target_daa_score shard)
       || negb (att_validator_set_commitment att =? sh_validator_set_commitment shard)
    then Err ShardTupleMismatch
    else check_shard_attestations shard atts
  end.
Definition validate_stake_attestation_shard_payload (payload : list byte) : D unit :=
  shard ← ok_or (decode_shard payload) Decode;
  if negb (sh_version shard =? DNS_PAYLOAD_VERSION_V1) then Err (UnsupportedVersion (sh_version shard))
  else if bool_decide (sh_attestations shard = []) then Err EmptyShard
  else if MAX_ATTESTATIONS_PER_SHARD <? len (sh_attestations shard) then Err (ShardTooLarge (len (sh_attestations shard)))
  else check_shard_attestations shard (sh_attestations shard).

Definition validate_slashing_evidence_payload (payload : list byte) : D unit :=
  ev ← ok_or (decode_evidence payload) Decode;
  if negb (ev_version ev =? DNS_PAYLOAD_VERSION_V1) then Err (UnsupportedVersion (ev_version ev))
  else
    _ ← check_attestation_wellformed (ev_attestation_a ev);
    _ ← check_attestation_wellformed (ev_attestation_b ev);
    let a := ev_attestation_a ev in let b := ev_attestation_b ev in
    if negb (bool_decide (att_bond_outpoint a = ev_bond_outpoint ev)) || negb (bool_decide (att_bond_outpoint b = ev_bond_outpoint ev))
       || negb (att_validator_id a =? att_validator_id b) || negb (att_epoch a =? att_epoch b)
    then Err EvidenceTripleMismatch
    else if att_target_hash a =? att_target_hash b then Err EvidenceNotIncompatible
    else Ok tt.
Definition validate_slashing_evidence_tx (payload : list byte) (outs : list TransactionOutput) : D unit :=
  _ ← validate_slashing_evidence_payload payload;
  if negb (bool_decide (outs = [])) then Err (SlashingEvidenceHasOutputs (len outs)) else Ok tt.

Definition validate_stake_unbond_payload (payload : list byte) : D unit :=
  req ← ok_or (decode_unbond payload) Decode;
  if negb (ur_version req =? DNS_PAYLOAD_VERSION_V1) then Err (UnsupportedVersion (ur_version req))
  else if negb (len (ur_owner_pubkey req) =? STAKE_VALIDATOR_PUBKEY_LEN) then Err (InvalidPubKeyLen (len (ur_owner_pubkey req)))
  else if negb (len (ur_signature req) =? STAKE_ATTESTATION_SIG_LEN) then Err (InvalidSignatureLen (len (ur_signature req)))
  else Ok tt.

(** The dispatch of [check_transaction_subnetwork] on DNS payloads. *)
Definition validate_dns_tx (kind : DnsTxKind) (tx : Transaction) : D unit :=
  match kind with
  | KStakeBond => validate_stake_bond_tx (payload tx) (outputs tx)
  | KStakeAttestationShard => validate_stake_attestation_shard_payload (payload tx)
  | KSlashingEvidence => validate_slashing_evidence_tx (payload tx) (outputs tx)
  | KStakeUnbond => validate_stake_unbond_payload (payload tx)
  end.
End stateless.

(** ** Records and statuses *)

Record StakeBondRecord := mkBondRecord {
  sb_version : Z;
  sb_bond_outpoint : TransactionOutpoint;
  sb_owner_pubkey_hash : Hash64;
  sb_validator_pubkey_hash : Hash64;
  sb_validator_pubkey : list byte;
  sb_amount : Z;
  sb_activation_daa_score : Z;
  sb_created_daa_score : Z;
  sb_unbonding_period_blocks : Z;
  sb_owner_reward_spk_payload : list byte;
  sb_unbond_request_daa_score : option Z;
  sb_slashed_at_daa_score : option Z;
  sb_status : BondStatus;
  sb_last_attested_epoch : option Z;
  sb_dormant_at_daa_score : option Z;
  sb_dormant_at_epoch : option Z;
}.
#[export] Instance StakeBondRecord_eq_dec : EqDecision StakeBondRecord.
Proof. solve_decision. Defined.

(** Field updates. *)
Definition set_slashed (s : option Z) (r : StakeBondRecord) : StakeBondRecord :=
  mkBondRecord (sb_version r) (sb_bond_outpoint r) (sb_owner_pubkey_hash r) (sb_validator_pubkey_hash r) (sb_validator_pubkey r)
    (sb_amount r) (sb_activation_daa_score r) (sb_created_daa_score r) (sb_unbonding_period_blocks r) (sb_owner_reward_spk_payload r)
    (sb_unbond_request_daa_score r) s (sb_status r) (sb_last_attested_epoch r) (sb_dormant_at_daa_score r) (sb_dormant_at_epoch r).
Definition set_unbond (u : option Z) (r : StakeBondRecord) : StakeBondRecord :=
  mkBondRecord (sb_version r) (sb_bond_outpoint r) (sb_owner_pubkey_hash r) (sb_validator_pubkey_hash r) (sb_validator_pubkey r)
    (sb_amount r) (sb_activation_daa_score r) (sb_created_daa_score r) (sb_unbonding_period_blocks r) (sb_owner_reward_spk_payload r)
    u (sb_slashed_at_daa_score r) (sb_status r) (sb_last_attested_epoch r) (sb_dormant_at_daa_score r) (sb_dormant_at_epoch r).
Definition set_status (s : BondStatus) (r : StakeBondRecord) : StakeBondRecord :=
  mkBondRecord (sb_version r) (sb_bond_outpoint r) (sb_owner_pubkey_hash r) (sb_validator_pubkey_hash r) (sb_validator_pubkey r)
    (sb_amount r) (sb_activation_daa_score r) (sb_created_daa_score r) (sb_unbonding_period_blocks r) (sb_owner_reward_spk_payload r)
    (sb_unbond_request_daa_score r) (sb_slashed_at_daa_score r) s (sb_last_attested_epoch r) (sb_dormant_at_daa_score r) (sb_dormant_at_epoch r).
Definition set_attested (e : option Z) (r : StakeBondRecord) : StakeBondRecord :=
  mkBondRecord (sb_version r) (sb_bond_outpoint r) (sb_owner_pubkey_hash r) (sb_validator_pubkey_hash r) (sb_validator_pubkey r)
    (sb_amount r) (sb_activation_daa_score r) (sb_created_daa_score r) (sb_unbonding_period_blocks r) (sb_owner_reward_spk_payload r)
    (sb_unbond_request_daa_score r) (sb_slashed_at_daa_score r) (sb_status r) e (sb_dormant_at_daa_score r) (sb_dormant_at_epoch r).
Definition set_dormant (daa epoch : option Z) (r : StakeBondRecord) : StakeBondRecord :=
  mkBondRecord (sb_version r) (sb_bond_outpoint r) (sb_owner_pubkey_hash r) (sb_validator_pubkey_hash r) (sb_validator_pubkey r)
    (sb_amount r) (sb_activation_daa_score r) (sb_created_daa_score r) (sb_unbonding_period_blocks r) (sb_owner_reward_spk_payload r)
    (sb_unbond_request_daa_score r) (sb_slashed_at_daa_score r) (sb_status r) (sb_last_attested_epoch r) daa epoch.

Definition stake_bond_record_from_payload (p : StakeBondPayload) (bond_outpoint : TransactionOutpoint) : StakeBondRecord :=
  mkBondRecord (bp_version p) bond_outpoint (bp_owner_pubkey_hash p) (bp_validator_pubkey_hash p) (bp_validator_pubkey p)
    (bp_amount p) (bp_activation_daa_score p) 0 (bp_unbonding_period_blocks p) (bp_owner_reward_spk_payload p)
    None None Pending None None None.
(** The record of a bond accepted at [accepted_daa_score]: activation is never
    in the past and the unbonding window is at least the floor. *)
Definition accepted_record (p : StakeBondPayload) (op : TransactionOutpoint) (accepted_daa_score unbonding_floor_blocks : Z) : StakeBondRecord :=
  let r := stake_bond_record_from_payload p op in
  mkBondRecord (sb_version r) (sb_bond_outpoint r) (sb_owner_pubkey_hash r) (sb_validator_pubkey_hash r) (sb_validator_pubkey r)
    (sb_amount r) (Z.max (sb_activation_daa_score r) accepted_daa_score) accepted_daa_score
    (Z.max (sb_unbonding_period_blocks r) unbonding_floor_blocks) (sb_owner_reward_spk_payload r)
    (sb_unbond_request_daa_score r) (sb_slashed_at_daa_score r) (sb_status r) (sb_last_attested_epoch r)
    (sb_dormant_at_daa_score r) (sb_dormant_at_epoch r).

Definition bond_release_daa_score (r : StakeBondRecord) : option Z :=
  (λ u, sat_add64 u (sb_unbonding_period_blocks r)) <$> sb_unbond_request_daa_score r.
(** [Option::is_some_and(|s| pov >= s)]. *)
Definition reached (stamp : option Z) (pov : Z) : bool := match stamp with Some s => s <=? pov | None => false end.
Definition effective_bond_status (r : StakeBondRecord) (pov_daa_score : Z) : BondStatus :=
  if reached (sb_slashed_at_daa_score r) pov_daa_score then Slashed
  else if reached (sb_unbond_request_daa_score r) pov_daa_score then Unbonding
  else if reached (sb_dormant_at_daa_score r) pov_daa_score then Dormant
  else if sb_activation_daa_score r <=? pov_daa_score then Active else Pending.
Definition is_bond_active_at (r : StakeBondRecord) (pov_daa_score : Z) : bool :=
  bool_decide (effective_bond_status r pov_daa_score = Active).
Definition slashable (s : BondStatus) : bool := bool_decide (s = Active ∨ s = Unbonding).

(** ** Payloads of the accepted transactions *)

Section extract.
Context `{DnsDecode}.

Definition on_kind {A} (kind : DnsTxKind) (decode : list byte → option A) (tx : Transaction) : option A :=
  if bool_decide (dns_tx_kind (subnetwork_id tx) = Some kind) then decode (payload tx) else None.
Definition decode_attestation_shard : Transaction → option StakeAttestationShardPayload := on_kind KStakeAttestationShard decode_shard.
Definition attestations_from_accepted_txs (txs : list Transaction) : list StakeAttestation :=
  concat (sh_attestations <$> omap decode_attestation_shard txs).
Definition unbond_requests_from_accepted_txs (txs : list Transaction) : list (TransactionId * StakeUnbondRequestPayload) :=
  omap (λ tx, pair (tx_id tx) <$> on_kind KStakeUnbond decode_unbond tx) txs.
Definition slashing_evidence_from_accepted_txs (txs : list Transaction) : list SlashingEvidencePayload :=
  omap (on_kind KSlashingEvidence decode_evidence) txs.

(** ** Registry mutations *)

Inductive BondMutation : Type :=
  | Insert (o : TransactionOutpoint) (r : StakeBondRecord)
  | Slash (o : TransactionOutpoint) (daa : Z)
  | Unbond (o : TransactionOutpoint) (daa : Z).

(** The loop keeps the outpoints it has already slashed and unbonded. *)
Fixpoint bond_mutations_loop (txs : list Transaction) (accepted_daa_score min_bond_amount_sompi unbonding_floor_blocks : Z)
    (seen_slashes seen_unbonds : gset TransactionOutpoint) : list BondMutation :=
  match txs with
  | [] => []
  | tx :: txs =>
    let continue := bond_mutations_loop txs accepted_daa_score min_bond_amount_sompi unbonding_floor_blocks in
    match dns_tx_kind (subnetwork_id tx) with
    | Some KStakeBond =>
      match decode_bond (payload tx) with
      | Some p =>
        if bp_amount p <? min_bond_amount_sompi then continue seen_slashes seen_unbonds
        else let outpoint := mkOutpoint (tx_id tx) 0 in
             Insert outpoint (accepted_record p outpoint accepted_daa_score unbonding_floor_blocks) :: continue seen_slashes seen_unbonds
      | None => continue seen_slashes seen_unbonds
      end
    | Some KSlashingEvidence =>
      match decode_evidence (payload tx) with
      | Some ev =>
        if bool_decide (ev_bond_outpoint ev ∈ seen_slashes) then continue seen_slashes seen_unbonds
        else Slash (ev_bond_outpoint ev) accepted_daa_score :: continue ({[ev_bond_outpoint ev]} ∪ seen_slashes) seen_unbonds
      | None => continue seen_slashes seen_unbonds
      end
    | Some KStakeUnbond =>
      match decode_unbond (payload tx) with
      | Some req =>
        if bool_decide (ur_bond_outpoint req ∈ seen_unbonds) then continue seen_slashes seen_unbonds
        else Unbond (ur_bond_outpoint req) accepted_daa_score :: continue seen_slashes ({[ur_bond_outpoint req]} ∪ seen_unbonds)
      | None => continue seen_slashes seen_unbonds
      end
    | Some KStakeAttestationShard | None => continue seen_slashes seen_unbonds
    end
  end.
Definition bond_mutations_from_accepted_txs (txs : list Transaction)
    (accepted_daa_score min_bond_amount_sompi unbonding_floor_blocks : Z) : list BondMutation :=
  bond_mutations_loop txs accepted_daa_score min_bond_amount_sompi unbonding_floor_blocks ∅ ∅.
End extract.

(** ** The view of the active bonds *)

Abbreviation ActiveBondView := (gmap TransactionOutpoint StakeBondRecord).

(** [record.status = effective_bond_status(record, daa)]. *)
Definition restamp (daa : Z) (r : StakeBondRecord) : StakeBondRecord := set_status (effective_bond_status r daa) r.

Definition apply_mutation (m : BondMutation) (v : ActiveBondView) : ActiveBondView :=
  match m with
  | Insert o r => <[o := r]> v
  | Slash o daa => alter (λ r, restamp daa (set_slashed (Some daa) r)) o v
  | Unbond o daa => alter (λ r, restamp daa (set_unbond (Some daa) r)) o v
  end.
Definition revert_mutation (m : BondMutation) (v : ActiveBondView) : ActiveBondView :=
  match m with
  | Insert o _ => delete o v
  | Slash o daa => alter (λ r, restamp daa (set_slashed None r)) o v
  | Unbond o daa => alter (λ r, restamp daa (set_unbond None r)) o v
  end.
Definition apply_bonds (ms : list BondMutation) (v : ActiveBondView) : ActiveBondView := foldl (flip apply_mutation) v ms.
Definition revert_bonds (ms : list BondMutation) (v : ActiveBondView) : ActiveBondView := foldl (flip revert_mutation) v (reverse ms).

Definition active_bond_at (v : ActiveBondView) (o : TransactionOutpoint) (pov_daa_score : Z) : option StakeBondRecord :=
  record ← v !! o; if is_bond_active_at record pov_daa_score then Some record else None.
Definition active_or_dormant_bond_at (v : ActiveBondView) (o : TransactionOutpoint) (pov_daa_score : Z) : option StakeBondRecord :=
  record ← v !! o;
  if bool_decide (effective_bond_status record pov_daa_score = Active ∨ effective_bond_status record pov_daa_score = Dormant)
  then Some record else None.
Definition bond_records (v : ActiveBondView) : list StakeBondRecord := (map_to_list v).*2.
(** Folds a saturating sum: the order of the map does not show. *)
Definition saturating_sum (l : list Z) : Z := foldl sat_add64 0 l.
Definition total_active_stake_at (v : ActiveBondView) (pov_daa_score : Z) : Z :=
  saturating_sum (sb_amount <$> filter (λ b, is_bond_active_at b pov_daa_score = true) (bond_records v)).

(** [RewardedEpochSet]. *)
Abbreviation RewardedEpochSet := (gset (TransactionOutpoint * Z)).

(** ** Dormancy *)

Record DormancyParams := mkDormancyParams {
  dormancy_window_epochs : Z;
  dormancy_evict_period_epochs : Z;
  dormancy_evict_limit_bps : Z;
}.
Record StakeBondView := mkBondView {
  bv_bond_outpoint : TransactionOutpoint;
  bv_amount : Z;
  bv_status : BondStatus;
  bv_last_attested_epoch : Z;
}.

(** The order of the pairs [(transaction_id, index)]. *)
Definition outpoint_lt (a b : TransactionOutpoint) : bool :=
  (hash64_order (transaction_id a) <? hash64_order (transaction_id b))
  || ((hash64_order (transaction_id a) =? hash64_order (transaction_id b)) && (index a <? index b)).
Definition outpoint_le (a b : TransactionOutpoint) : bool := negb (outpoint_lt b a).
Definition eviction_order (a b : StakeBondView) : Prop :=
  (bv_last_attested_epoch a <? bv_last_attested_epoch b)
  || ((bv_last_attested_epoch a =? bv_last_attested_epoch b) && outpoint_le (bv_bond_outpoint a) (bv_bond_outpoint b)) = true.
#[export] Instance eviction_order_dec : RelDecision eviction_order.
Proof. intros a b. unfold eviction_order. apply _. Defined.

Fixpoint take_evictions (candidates : list StakeBondView) (budget used : Z) (any : bool) : list TransactionOutpoint :=
  match candidates with
  | [] => []
  | b :: candidates =>
    let fits := sat_add128 used (bv_amount b) <=? budget in
    let at_least_one := negb any && (0 <? budget) in
    if fits || at_least_one
    then bv_bond_outpoint b :: take_evictions candidates budget (sat_add128 used (bv_amount b)) true
    else []
  end.
Definition is_candidate (ready_epoch window : Z) (b : StakeBondView) : bool :=
  bool_decide (bv_status b = Active) && (window <? sat_sub64 ready_epoch (bv_last_attested_epoch b)).
Definition derive_dormancy_evictions {E} (bonds : list StakeBondView) (ready_epoch : Z) (params : DormancyParams) :
    outcome E (list TransactionOutpoint) :=
  let period := Z.max (dormancy_evict_period_epochs params) 1 in
  if negb (ready_epoch mod period =? 0) then Ok []
  else
    expected ← sum128 (bv_amount <$> filter (λ b, bv_status b = Active) bonds) 0;
    let budget := sat_mul128 expected (dormancy_evict_limit_bps params) / 10000 in
    let candidates := filter (λ b, is_candidate ready_epoch (dormancy_window_epochs params) b = true) bonds in
    Ok (take_evictions (merge_sort eviction_order candidates) budget 0 false).

(** [v.iter().filter(|e| e <= r).max()]. *)
Definition latest_attested (epochs : list Z) (r : Z) : option Z :=
  foldl (λ acc e, if e <=? r then Some (match acc with Some a => Z.max a e | None => e end) else acc) None epochs.
Definition touch_attested (att_by_bond : gmap TransactionOutpoint (list Z)) (r : Z) (rec : StakeBondRecord) : StakeBondRecord :=
  match epochs ← att_by_bond !! sb_bond_outpoint rec; latest_attested epochs r with
  | Some m => if match sb_last_attested_epoch rec with Some le => le <? m | None => true end then set_attested (Some m) rec else rec
  | None => rec
  end.
Definition bond_view_of (sink_daa epoch_len_blue : Z) (b : StakeBondRecord) : StakeBondView :=
  mkBondView (sb_bond_outpoint b) (sb_amount b) (effective_bond_status b sink_daa)
    (default (sb_activation_daa_score b / epoch_len_blue) (sb_last_attested_epoch b)).
Definition apply_dormancy_round {E} (records : list StakeBondRecord) (att_by_bond : gmap TransactionOutpoint (list Z))
    (r round_anchor_daa sink_daa epoch_len_blue : Z) (params : DormancyParams) : outcome E (list StakeBondRecord) :=
  let epoch_len_blue := Z.max epoch_len_blue 1 in
  let records := touch_attested att_by_bond r <$> records in
  evicted ← derive_dormancy_evictions (bond_view_of sink_daa epoch_len_blue <$> records) r params;
  Ok ((λ rec, if bool_decide (sb_bond_outpoint rec ∈ evicted)
              then set_status Dormant (set_dormant (Some round_anchor_daa) (Some r) rec) else rec) <$> records).
Definition dormancy_revival_ready (dormant_epoch last_attested_epoch ready_epoch revival_delay_epochs : Z) : bool :=
  (dormant_epoch <? last_attested_epoch)
  && (sat_add64 last_attested_epoch (Z.max revival_delay_epochs 1) <=? ready_epoch).
