(* ===== verification/DnsReward.v ===== *)
(** * DNS finality: pools, rewards and slashing shares

    Models the reward arithmetic of [src/consensus/core/src/dns_finality.rs]:
    the proportional share every payout is built from, the splits of a block's
    subsidy and fees, the participation and quality outputs of the coinbase,
    the distribution of a slashed stake, and the per-epoch tallies that the
    deferred quality bonus pays from.

    Amounts are [u64], pools are [u128]; a cast [as u64] is [cast64] and an
    unchecked [+=] or [-=] is an operation that may panic. *)

From stdpp Require Import base list gmap sorting.
From Stdlib Require Import ZArith Lia.
From S2P Require Import Prelude Tx Bytes Hashing Palw DnsBond.

Local Open Scope Z_scope.

Definition STAKE_SCORE_SCALE : Z := 1000000000.
(** [as u64]. *)
Definition cast64 (z : Z) : Z := z mod 2 ^ 64.

(** ** Shares *)

Definition proportional_share (pool stake expected_stake : Z) : Z :=
  if expected_stake =? 0 then 0 else sat_mul128 pool (Z.min stake expected_stake) / expected_stake.
Definition worker_inclusion_bounty (pool newly_included_stake expected_stake urgency_multiplier_scaled : Z)
    (crossed_quality_floor : bool) (quality_gate_bonus : Z) : Z :=
  let base := proportional_share pool newly_included_stake expected_stake in
  let urgent := sat_mul128 base urgency_multiplier_scaled / STAKE_SCORE_SCALE in
  if crossed_quality_floor then sat_add128 urgent quality_gate_bonus else urgent.
Definition split_validator_pool (validator_pool participation_bps : Z) : Z * Z :=
  let participation := sat_mul128 validator_pool (Z.min participation_bps 10000) / 10000 in
  (participation, sat_sub64 validator_pool participation).
Definition validator_participation_reward (participation_pool included_valid_stake expected_stake : Z) : Z :=
  proportional_share participation_pool included_valid_stake expected_stake.
Definition validator_quality_bonus (quality_bonus_pool included_valid_stake expected_stake : Z) (epoch_meets_quality_floor : bool) : Z :=
  if negb epoch_meets_quality_floor then 0 else proportional_share quality_bonus_pool included_valid_stake expected_stake.

Record AttestationRewardPayout := mkPayout { total_payout_sompi : Z; refunded_sompi : Z }.
Definition compute_attestation_reward_payouts (per_attestation_reward_sompi included_attestation_count
    max_validator_inflation_per_block_sompi : Z) : AttestationRewardPayout :=
  let uncapped := sat_mul128 per_attestation_reward_sompi included_attestation_count in
  let capped := Z.min uncapped max_validator_inflation_per_block_sompi in
  mkPayout (cast64 capped) (cast64 (uncapped - capped)).

(** ** Splits of subsidy and fees *)

Record FeeSplitParams := mkFeeSplitParams {
  subsidy_worker_base_bps : Z;
  subsidy_worker_inclusion_bps : Z;
  subsidy_validator_bps : Z;
  subsidy_service_bps : Z;
  normal_fee_worker_bps : Z;
  normal_fee_validator_bps : Z;
  normal_fee_service_bps : Z;
  finality_fee_validator_bps : Z;
  finality_fee_worker_bps : Z;
  finality_fee_service_bps : Z;
}.
Definition PALW_PROVIDER_BASE_BPS : Z := 7700.
Definition PALW_INCLUSION_BPS : Z := 800.
Definition PALW_VALIDATOR_BPS : Z := 1500.
Definition palw_lane (p : FeeSplitParams) : FeeSplitParams :=
  mkFeeSplitParams PALW_PROVIDER_BASE_BPS PALW_INCLUSION_BPS PALW_VALIDATOR_BPS 0
    (normal_fee_worker_bps p) (normal_fee_validator_bps p) (normal_fee_service_bps p)
    (finality_fee_validator_bps p) (finality_fee_worker_bps p) (finality_fee_service_bps p).

Record SubsidySplit := mkSubsidySplit {
  worker_base_sompi : Z;
  worker_inclusion_sompi : Z;
  subsidy_validator_sompi : Z;
  subsidy_service_sompi : Z;
}.
Record FeeSplit := mkFeeSplit { worker_sompi : Z; validator_sompi : Z; service_sompi : Z }.

Definition bps_share (amount bps : Z) : Z := cast64 (sat_mul128 amount (Z.min bps 10000) / 10000).

Section splits.
Context {E : Type}.

Definition split_block_subsidy (subsidy_sompi : Z) (p : FeeSplitParams) : outcome E SubsidySplit :=
  let remaining := subsidy_sompi in
  let worker_inclusion := Z.min (bps_share subsidy_sompi (subsidy_worker_inclusion_bps p)) remaining in
  remaining ← sub64 remaining worker_inclusion;
  let validator := Z.min (bps_share subsidy_sompi (subsidy_validator_bps p)) remaining in
  remaining ← sub64 remaining validator;
  let service := Z.min (bps_share subsidy_sompi (subsidy_service_bps p)) remaining in
  worker_base ← sub64 remaining service;
  Ok (mkSubsidySplit worker_base worker_inclusion validator service).
Definition split_normal_tx_fees (fees_sompi : Z) (p : FeeSplitParams) : outcome E FeeSplit :=
  let remaining := fees_sompi in
  let validator := Z.min (bps_share fees_sompi (normal_fee_validator_bps p)) remaining in
  remaining ← sub64 remaining validator;
  let service := Z.min (bps_share fees_sompi (normal_fee_service_bps p)) remaining in
  worker ← sub64 remaining service;
  Ok (mkFeeSplit worker validator service).
Definition split_finality_fees (fees_sompi : Z) (p : FeeSplitParams) : outcome E FeeSplit :=
  let remaining := fees_sompi in
  let worker := Z.min (bps_share fees_sompi (finality_fee_worker_bps p)) remaining in
  remaining ← sub64 remaining worker;
  let service := Z.min (bps_share fees_sompi (finality_fee_service_bps p)) remaining in
  validator ← sub64 remaining service;
  Ok (mkFeeSplit worker validator service).
Definition split_block_reward (subsidy_sompi total_fees_sompi finality_fees_sompi : Z) (fee_split : FeeSplitParams) : outcome E FeeSplit :=
  let finality := Z.min finality_fees_sompi total_fees_sompi in
  s ← split_block_subsidy subsidy_sompi fee_split;
  normal ← sub64 total_fees_sompi finality;
  f ← split_normal_tx_fees normal fee_split;
  d ← split_finality_fees finality fee_split;
  Ok (mkFeeSplit
    (sat_add64 (sat_add64 (sat_add64 (worker_base_sompi s) (worker_inclusion_sompi s)) (worker_sompi f)) (worker_sompi d))
    (sat_add64 (sat_add64 (subsidy_validator_sompi s) (validator_sompi f)) (validator_sompi d))
    (sat_add64 (sat_add64 (subsidy_service_sompi s) (service_sompi f)) (service_sompi d))).
End splits.

(** ** Outputs *)

(** [(v > 0).then(|| TransactionOutput::new(v, p2pkh_mldsa87_spk(payload)))]. *)
Definition paid_output (v : Z) (payload : list byte) : option TransactionOutput :=
  if 0 <? v then Some (mkOutput v (p2pkh_mldsa87_spk payload)) else None.

Definition validator_participation_outputs (participation_pool : Z) (included : list (list byte * Z)) (expected_stake : Z) : list TransactionOutput :=
  omap (λ '(payload, stake),
    paid_output (Z.min (validator_participation_reward participation_pool stake expected_stake) U64_MAX) payload) included.

Definition epoch_meets_quality_floor (included_stake expected_stake phi_s_bps : Z) : bool :=
  sat_mul128 phi_s_bps expected_stake <=? sat_mul128 included_stake 10000.
Definition required_stake_for_quality_floor (expected_stake quality_floor_bps : Z) : Z :=
  Z.min (sat_add128 (sat_mul128 expected_stake quality_floor_bps) 9999 / 10000) U64_MAX.

Definition validator_quality_bonus_outputs (quality_pool : Z) (included : list (Hash64 * Z)) (expected_stake : Z) (meets_floor : bool) :
    list TransactionOutput :=
  if negb meets_floor then []
  else omap (λ '(payload, stake),
    paid_output (Z.min (validator_quality_bonus quality_pool stake expected_stake true) U64_MAX) (hash64_bytes payload)) included.

(** An included attestation: bond, epoch, payout payload, stake. *)
Abbreviation IncludedAttestation := (TransactionOutpoint * Z * list byte * Z)%type.

Fixpoint participation_loop {E : Type} (participation_pool expected_stake : Z) (already_rewarded : RewardedEpochSet)
    (attestations : list IncludedAttestation) (seen_in_block : RewardedEpochSet) (spent : Z) :
    outcome E (list TransactionOutput * list (TransactionOutpoint * Z)) :=
  match attestations with
  | [] => Ok ([], [])
  | (bond_outpoint, epoch, payload, stake) :: attestations =>
    let key := (bond_outpoint, epoch) in
    if bool_decide (key ∈ already_rewarded) || bool_decide (key ∈ seen_in_block)
    then participation_loop participation_pool expected_stake already_rewarded attestations seen_in_block spent
    else
      let seen_in_block := {[key]} ∪ seen_in_block in
      let reward := validator_participation_reward participation_pool stake expected_stake in
      if reward =? 0 then participation_loop participation_pool expected_stake already_rewarded attestations seen_in_block spent
      else if participation_pool <? sat_add128 spent reward then Ok ([], [])
      else
        spent ← chk128 (spent + reward);
        '(outputs, rewarded_keys) ← participation_loop participation_pool expected_stake already_rewarded attestations seen_in_block spent;
        Ok (mkOutput (cast64 reward) (p2pkh_mldsa87_spk payload) :: outputs, key :: rewarded_keys)
  end.
Definition validator_participation_reward_outputs {E : Type} (participation_pool expected_stake : Z) (attestations : list IncludedAttestation)
    (already_rewarded : RewardedEpochSet) : outcome E (list TransactionOutput * list (TransactionOutpoint * Z)) :=
  participation_loop participation_pool expected_stake already_rewarded attestations ∅ 0.

Definition validator_reward_outputs (per_attestation_reward_sompi max_validator_inflation_per_block_sompi : Z)
    (reward_spk_payloads : list (list byte)) : list TransactionOutput :=
  if per_attestation_reward_sompi =? 0 then []
  else
    let max_payable := Z.min (max_validator_inflation_per_block_sompi / per_attestation_reward_sompi) (len reward_spk_payloads) in
    (λ payload, mkOutput per_attestation_reward_sompi (p2pkh_mldsa87_spk payload)) <$> take (Z.to_nat max_payable) reward_spk_payloads.

(** The flat reward: [max_payable] bounds the number of outputs. *)
Fixpoint flat_reward_loop (per_attestation_reward_sompi : Z) (already_rewarded : RewardedEpochSet) (max_payable : Z)
    (attestations : list (TransactionOutpoint * Z * list byte)) (seen_in_block : RewardedEpochSet) (emitted : Z) :
    list TransactionOutput * list (TransactionOutpoint * Z) :=
  match attestations with
  | [] => ([], [])
  | (bond_outpoint, epoch, payload) :: attestations =>
    let continue := flat_reward_loop per_attestation_reward_sompi already_rewarded max_payable attestations in
    let key := (bond_outpoint, epoch) in
    if max_payable <=? emitted then ([], [])
    else if bool_decide (key ∈ already_rewarded) then continue seen_in_block emitted
    else if bool_decide (key ∈ seen_in_block) then continue seen_in_block emitted
    else
      let '(outputs, rewarded_keys) := continue ({[key]} ∪ seen_in_block) (emitted + 1) in
      (mkOutput per_attestation_reward_sompi (p2pkh_mldsa87_spk payload) :: outputs, key :: rewarded_keys)
  end.
Definition validator_reward_outputs_from_attestations (per_attestation_reward_sompi max_validator_inflation_per_block_sompi : Z)
    (attestations : list (TransactionOutpoint * Z * list byte)) (already_rewarded : RewardedEpochSet) :
    list TransactionOutput * list (TransactionOutpoint * Z) :=
  if per_attestation_reward_sompi =? 0 then ([], [])
  else flat_reward_loop per_attestation_reward_sompi already_rewarded
         (max_validator_inflation_per_block_sompi / per_attestation_reward_sompi) attestations ∅ 0.

(** ** One-block capacity of the mandatory inclusion *)

Record MandatoryAttestationMassCapacity := mkCapacity {
  mc_expected_stake : Z;
  mc_included_stake : Z;
  mc_required_stake : Z;
  mc_required_stake_delta : Z;
  mc_required_validator_count : Z;
  mc_required_shard_count : Z;
  mc_max_shard_count_by_mass : Z;
  mc_required_mass : Z;
  mc_max_block_mass : Z;
  mc_fits : bool;
}.
Fixpoint accumulate_stakes (stakes : list Z) (delta accumulated count : Z) : Z * Z :=
  match stakes with
  | [] => (accumulated, count)
  | stake :: stakes =>
    let accumulated := sat_add64 accumulated stake in
    if delta <=? accumulated then (accumulated, count + 1) else accumulate_stakes stakes delta accumulated (count + 1)
  end.
Definition mandatory_attestation_mass_capacity (remaining_stakes : list Z) (expected_stake included_stake quality_floor_bps
    max_block_mass max_attestation_shard_mass : Z) : MandatoryAttestationMassCapacity :=
  let stakes := merge_sort Z.ge (filter (λ stake, 0 < stake) remaining_stakes) in
  let required_stake := required_stake_for_quality_floor expected_stake quality_floor_bps in
  let required_stake_delta := sat_sub64 required_stake included_stake in
  let '(accumulated, required_validator_count) :=
    if 0 <? required_stake_delta then accumulate_stakes stakes required_stake_delta 0 0 else (0, 0) in
  let required_shard_count := required_validator_count in
  let required_mass := sat_mul64 required_shard_count max_attestation_shard_mass in
  let max_shard_count_by_mass := if max_attestation_shard_mass =? 0 then 0 else max_block_mass / max_attestation_shard_mass in
  let has_enough_stake := (required_stake_delta =? 0) || (required_stake_delta <=? accumulated) in
  let fits := has_enough_stake
    && ((required_shard_count =? 0)
        || ((0 <? max_attestation_shard_mass) && (required_shard_count <=? max_shard_count_by_mass) && (required_mass <=? max_block_mass))) in
  mkCapacity expected_stake included_stake required_stake required_stake_delta required_validator_count required_shard_count
    max_shard_count_by_mass required_mass max_block_mass fits.

(** ** Slashing *)

Record SlashingDistribution := mkDistribution {
  reporter_reward_sompi : Z;
  security_reserve_sompi : Z;
  victim_epoch_pool_sompi : Z;
  burned_sompi : Z;
}.
Definition compute_slashing_distribution {E : Type} (slashed_amount_sompi slashing_reporter_reward_bps security_reserve_bps
    victim_epoch_pool_bps : Z) : outcome E SlashingDistribution :=
  let bps_of bps := cast64 (sat_mul128 slashed_amount_sompi bps / 10000) in
  let reporter := Z.min (bps_of slashing_reporter_reward_bps) slashed_amount_sompi in
  left1 ← sub64 slashed_amount_sompi reporter;
  let reserve := Z.min (bps_of security_reserve_bps) left1 in
  left2 ← sub64 left1 reserve;
  let victim := Z.min (bps_of victim_epoch_pool_bps) left2 in
  burned ← sub64 left2 victim;
  Ok (mkDistribution reporter reserve victim burned).
Definition apply_unreveal_reporter_min_cap {E : Type} (d : SlashingDistribution) (floor : Z) : outcome E SlashingDistribution :=
  let capped_reporter := Z.min (reporter_reward_sompi d) floor in
  extra_burn ← sub64 (reporter_reward_sompi d) capped_reporter;
  burned ← add64 (burned_sompi d) extra_burn;
  Ok (mkDistribution capped_reporter (security_reserve_sompi d) (victim_epoch_pool_sompi d) burned).
Definition slashing_distribution_output {E : Type} (slashed_amount_sompi slashing_reporter_reward_bps security_reserve_bps
    victim_epoch_pool_bps : Z) (reporter_reward_spk_payload : list byte) (unreveal_floor : option Z) :
    outcome E (option TransactionOutput * SlashingDistribution) :=
  dist ← compute_slashing_distribution slashed_amount_sompi slashing_reporter_reward_bps security_reserve_bps victim_epoch_pool_bps;
  dist ← match unreveal_floor with Some floor => apply_unreveal_reporter_min_cap dist floor | None => Ok dist end;
  Ok (paid_output (reporter_reward_sompi dist) reporter_reward_spk_payload, dist).
Definition victim_compensation_outputs (victim_pool : Z) (honest_included : list (Hash64 * Z)) (total_honest_stake : Z) :
    list TransactionOutput :=
  omap (λ '(payload, stake),
    paid_output (Z.min (proportional_share victim_pool stake total_honest_stake) U64_MAX) (hash64_bytes payload)) honest_included.

(** ** Epoch tallies *)

Record EpochTally := mkTally {
  expected_stake : Z;
  included : list (Hash64 * Z);
  quality_pool_accrued : Z;
  finalized : bool;
}.
Record BlockEpochContribution := mkContribution {
  bc_block_daa_score : Z;
  bc_rewarded_keys : list (TransactionOutpoint * Z);
  bc_quality_subpool : Z;
}.

(** [bonds.iter().map(|b| (b.bond_outpoint, b)).collect()]. *)
Definition bond_by_outpoint (bonds : list StakeBondRecord) : gmap TransactionOutpoint StakeBondRecord :=
  foldl (λ m b, <[sb_bond_outpoint b := b]> m) ∅ bonds.
Definition tally_key (bonds : gmap TransactionOutpoint StakeBondRecord) (m : gmap Z (list (Hash64 * Z))) (key : TransactionOutpoint * Z) :
    gmap Z (list (Hash64 * Z)) :=
  match bonds !! key.1 with
  | Some bond => <[key.2 := default [] (m !! key.2) ++ [(hash64_from_bytes (sb_owner_reward_spk_payload bond), sb_amount bond)]]> m
  | None => m
  end.
Definition tally_block (epoch_len : Z) (bonds : gmap TransactionOutpoint StakeBondRecord)
    (st : gmap Z Z * gmap Z (list (Hash64 * Z))) (c : BlockEpochContribution) : gmap Z Z * gmap Z (list (Hash64 * Z)) :=
  let block_epoch := bc_block_daa_score c / epoch_len in
  (<[block_epoch := sat_add128 (default 0 (st.1 !! block_epoch)) (bc_quality_subpool c)]> st.1,
   foldl (tally_key bonds) st.2 (bc_rewarded_keys c)).
Definition active_stake_at (bonds : list StakeBondRecord) (daa : Z) : Z :=
  foldl sat_add128 0 (sb_amount <$> filter (λ b, is_bond_active_at b daa = true) bonds).
Definition recompute_epoch_tallies (sink_daa_score epoch_length_blocks finalization_depth : Z)
    (contributions : list BlockEpochContribution) (bonds : list StakeBondRecord) : list (Z * EpochTally) :=
  let epoch_len := Z.max epoch_length_blocks 1 in
  let '(quality_by_epoch, included_by_epoch) := foldl (tally_block epoch_len (bond_by_outpoint bonds)) (∅, ∅) contributions in
  let epochs := merge_sort Z.le (elements (dom quality_by_epoch ∪ dom included_by_epoch)) in
  (λ epoch, (epoch, mkTally (active_stake_at bonds (sat_mul64 epoch epoch_len))
    (default [] (included_by_epoch !! epoch))
    (default 0 (quality_by_epoch !! epoch))
    (sat_add64 (sat_mul64 (sat_add64 epoch 1) epoch_len) finalization_depth <=? sink_daa_score))) <$> epochs.

(** [None] when no threshold [(E+1)·L + depth] falls in [(parent_daa, daa_score]]. *)
Definition epochs_finalized_at {E : Type} (parent_daa daa_score epoch_length_blocks finalization_depth : Z) : outcome E (option (Z * Z)) :=
  let epoch_len := Z.max epoch_length_blocks 1 in
  match checked_sub64 daa_score finalization_depth with
  | None => Ok None
  | Some hi =>
    let m_max := hi / epoch_len in
    if m_max =? 0 then Ok None
    else
      let m_min := Z.max (match checked_sub64 parent_daa finalization_depth with
                          | None => 1
                          | Some lo => sat_add64 (lo / epoch_len) 1
                          end) 1 in
      if m_max <? m_min then Ok None
      else
        e_min ← sub64 m_min 1;
        e_max ← sub64 m_max 1;
        Ok (Some (e_min, e_max))
  end.
