(* ===== verification/DnsRules.v ===== *)
(** * DNS finality: the rules a block must pass and what it changes

    Models the stake-bond side of the virtual processor:
    - the block-validity rules of
      [src/consensus/src/pipeline/virtual_processor/utxo_validation.rs]
      (attestation eligibility, slashing evidence, bond spends, unbond
      requests), which read the body of the block and the registry as of the
      selected parent;
    - the slashing side effects on the UTXO state, which read the transactions
      accepted from the merge set;
    - the rewards of the block;
    - the walk of [processor.rs] that moves the persisted registry from one
      selected chain to another.

    [dns_params = None] is not modelled: every operation is then a no-op.
    Reads of the block stores are arguments. The multiset of the UTXO
    commitment is an interface. *)

From stdpp Require Import base list gmap sorting.
From Stdlib Require Import ZArith Lia.
From S2P Require Import Prelude Tx Utxo Bytes Hashing ScriptNum ScriptOps ScriptEngine Palw DnsBond DnsReward.

Local Open Scope Z_scope.

Record DnsParams := mkDnsParams {
  dns_activation_daa_score : Z;
  pos_v2_activation_daa_score : Z;
  bond_spend_gate_mergeset_activation_daa_score : Z;
  evidence_window_blocks : Z;
  min_bond_amount_sompi : Z;
  unbonding_period_blocks : Z;
  slashing_reporter_reward_bps : Z;
  security_reserve_bps : Z;
  victim_epoch_pool_bps : Z;
  validator_participation_bps : Z;
  stake_event_quality_floor_bps : Z;
  reserve_drip_per_epoch_cap_sompi : Z;
  epoch_length_blocks : Z;
  reward_uniqueness_window_blocks : Z;
  max_reorg_horizon_blocks : Z;
}.

Inductive DnsRuleError : Type :=
  | IneligibleAttestationInBlock (bond_tx : TransactionId) (epoch : Z)
  | UnverifiableSlashingEvidenceInBlock (bond_tx : TransactionId)
  | NonReleasableBondSpendInBlock (spending_tx : TransactionId) (bond_outpoint : TransactionOutpoint)
  | UnauthorizedUnbondRequestInBlock (tx : TransactionId) (bond_outpoint : TransactionOutpoint).

(** A list is scanned for its first failure. *)
Fixpoint check_all {E A : Type} (f : A → outcome E unit) (l : list A) : outcome E unit :=
  match l with
  | [] => Ok tt
  | a :: l => _ ← f a; check_all f l
  end.
Definition require {E : Type} (b : bool) (e : E) : outcome E unit := if b then Ok tt else Err e.

(** ** Block-validity rules *)

Section rules.
Context `{Crypto} `{DnsDecode}.

Inductive AttestationDropReason : Type := BondNotActiveAtTarget | ValidatorIdMismatch | BadSignature | MalformedPayload.
Inductive AttestationShardDecision : Type :=
  | KeepNonShard
  | KeepEligible (attestation_count : Z)
  | DropShard (reason : AttestationDropReason) (bond : TransactionOutpoint) (epoch : Z).

Definition attestation_digest (net_id : Hash64) (att : StakeAttestation) : list byte :=
  stake_attestation_message (hash64_bytes net_id) (att_epoch att) (att_target_hash att) (att_target_daa_score att)
    (att_validator_set_commitment att) (att_bond_outpoint att).

Definition classify_one_attestation (att : StakeAttestation) (bond_view : ActiveBondView) (net_id : Hash64) :
    outcome AttestationDropReason unit :=
  bond ← ok_or (active_or_dormant_bond_at bond_view (att_bond_outpoint att) (att_target_daa_score att)) BondNotActiveAtTarget;
  _ ← require (att_validator_id att =? sb_validator_pubkey_hash bond) ValidatorIdMismatch;
  require (verifies (sb_validator_pubkey bond) (attestation_digest net_id att) (att_signature att) ATTESTATION_MLDSA87_CONTEXT) BadSignature.

Fixpoint first_drop (atts : list StakeAttestation) (bond_view : ActiveBondView) (net_id : Hash64) : option AttestationShardDecision :=
  match atts with
  | [] => None
  | att :: atts =>
    match classify_one_attestation att bond_view net_id with
    | Err reason => Some (DropShard reason (att_bond_outpoint att) (att_epoch att))
    | _ => first_drop atts bond_view net_id
    end
  end.
Definition classify_attestation_shard_for_template (tx : Transaction) (bond_view : ActiveBondView) (net_id : Hash64) (activated : bool) :
    AttestationShardDecision :=
  if negb activated || negb (bool_decide (subnetwork_id tx = SUBNETWORK_ID_STAKE_ATTESTATION_SHARD)) then KeepNonShard
  else
    match decode_attestation_shard tx with
    | None => DropShard MalformedPayload (mkOutpoint (tx_id tx) 0) 0
    | Some shard => default (KeepEligible (len (sh_attestations shard))) (first_drop (sh_attestations shard) bond_view net_id)
    end.

Definition attestation_reward_eligibility (txs : list Transaction) (bond_view : ActiveBondView) (net_id : Hash64) (activated : bool) :
    outcome DnsRuleError unit :=
  if negb activated then Ok tt
  else check_all (λ att,
    match classify_one_attestation att bond_view net_id with
    | Err _ => Err (IneligibleAttestationInBlock (transaction_id (att_bond_outpoint att)) (att_epoch att))
    | _ => Ok tt
    end) (attestations_from_accepted_txs txs).

Definition attestation_genuine (bond : StakeBondRecord) (net_id : Hash64) (att : StakeAttestation) : bool :=
  (att_validator_id att =? sb_validator_pubkey_hash bond)
  && slashable (effective_bond_status bond (att_target_daa_score att))
  && verifies (sb_validator_pubkey bond) (attestation_digest net_id att) (att_signature att) ATTESTATION_MLDSA87_CONTEXT.
Definition evidence_genuine (bond_view : ActiveBondView) (net_id : Hash64) (including_daa window : Z) (ev : SlashingEvidencePayload) : bool :=
  match bond_view !! ev_bond_outpoint ev with
  | None => false
  | Some bond =>
    slashable (effective_bond_status bond including_daa)
    && (sat_sub64 including_daa (Z.max (att_target_daa_score (ev_attestation_a ev)) (att_target_daa_score (ev_attestation_b ev))) <=? window)
    && attestation_genuine bond net_id (ev_attestation_a ev)
    && attestation_genuine bond net_id (ev_attestation_b ev)
  end.
(** Every failing branch returns the same error. *)
Definition slashing_evidence_genuine (txs : list Transaction) (bond_view : ActiveBondView) (net_id : Hash64) (including_daa window : Z)
    (activated : bool) : outcome DnsRuleError unit :=
  if negb activated then Ok tt
  else check_all (λ ev,
    require (evidence_genuine bond_view net_id including_daa window ev)
      (UnverifiableSlashingEvidenceInBlock (transaction_id (ev_bond_outpoint ev)))) (slashing_evidence_from_accepted_txs txs).

Definition bond_releasable (bond : StakeBondRecord) (daa_score : Z) : bool :=
  bool_decide (effective_bond_status bond daa_score = Unbonding) && reached (bond_release_daa_score bond) daa_score.
Definition bond_spend_gate (txs : list Transaction) (bond_view : ActiveBondView) (daa_score : Z) (activated : bool) : outcome DnsRuleError unit :=
  if negb activated then Ok tt
  else check_all (λ tx, check_all (λ input,
    match bond_view !! previous_outpoint input with
    | Some bond => require (bond_releasable bond daa_score) (NonReleasableBondSpendInBlock (tx_id tx) (previous_outpoint input))
    | None => Ok tt
    end) (inputs tx)) txs.

Definition unbond_authorized (bond_view : ActiveBondView) (net_id : list byte) (daa_score : Z) (req : StakeUnbondRequestPayload) : bool :=
  match bond_view !! ur_bond_outpoint req with
  | None => false
  | Some bond =>
    bool_decide (effective_bond_status bond daa_score = Pending ∨ effective_bond_status bond daa_score = Active)
    && (validator_id_from_pubkey (ur_owner_pubkey req) =? sb_owner_pubkey_hash bond)
    && verifies (ur_owner_pubkey req) (unbond_request_message net_id (ur_bond_outpoint req)) (ur_signature req) UNBOND_REQUEST_CONTEXT
  end.
Definition unbond_request_authorized (txs : list Transaction) (bond_view : ActiveBondView) (net_id : list byte) (daa_score : Z)
    (activated : bool) : outcome DnsRuleError unit :=
  if negb activated then Ok tt
  else check_all (λ '(id, req),
    require (unbond_authorized bond_view net_id daa_score req) (UnauthorizedUnbondRequestInBlock id (ur_bond_outpoint req)))
    (unbond_requests_from_accepted_txs txs).

(** The DNS rules of [verify_expected_utxo_state], in its order, on the body
    of a block. The hard inclusion rule is fenced off on every preset. *)
Definition check_dns_rules (p : DnsParams) (net_id : Hash64) (bond_view : ActiveBondView) (daa_score : Z) (txs : list Transaction) :
    outcome DnsRuleError unit :=
  let activated := dns_activation_daa_score p <=? daa_score in
  _ ← attestation_reward_eligibility txs bond_view net_id activated;
  _ ← slashing_evidence_genuine txs bond_view net_id daa_score (evidence_window_blocks p) activated;
  _ ← (if bond_spend_gate_mergeset_activation_daa_score p <=? daa_score then Ok tt else bond_spend_gate txs bond_view daa_score activated);
  unbond_request_authorized txs bond_view (hash64_bytes net_id) daa_score activated.
End rules.

(** ** Slashing side effects *)

Record SlashingSideEffect := mkEffect {
  se_bond_outpoint : TransactionOutpoint;
  se_slashed_amount_sompi : Z;
  se_reporter_output : option TransactionOutput;
  se_burned_sompi : Z;
  se_slashing_tx_id : TransactionId;
  se_security_reserve_sompi : Z;
  se_victim_epoch_pool_sompi : Z;
  se_slashed_epoch : Z;
  se_victim_outputs : list TransactionOutput;
}.
Definition with_victim_outputs (outs : list TransactionOutput) (e : SlashingSideEffect) : SlashingSideEffect :=
  mkEffect (se_bond_outpoint e) (se_slashed_amount_sompi e) (se_reporter_output e) (se_burned_sompi e) (se_slashing_tx_id e)
    (se_security_reserve_sompi e) (se_victim_epoch_pool_sompi e) (se_slashed_epoch e) outs.

(** Evidence resolved to: bond, stake, reporter payload, transaction, epoch. *)
Abbreviation ResolvedEvidence := (TransactionOutpoint * Z * list byte * TransactionId * Z)%type.

Fixpoint slashing_effects_loop {E : Type} (evidence : list ResolvedEvidence) (reporter_bps reserve_bps victim_bps : Z) (unreveal_floor : option Z)
    (seen : gset TransactionOutpoint) : outcome E (list SlashingSideEffect) :=
  match evidence with
  | [] => Ok []
  | (bond_outpoint, slashed_amount, reporter_payload, slashing_tx_id, slashed_epoch) :: evidence =>
    if bool_decide (bond_outpoint ∈ seen) then slashing_effects_loop evidence reporter_bps reserve_bps victim_bps unreveal_floor seen
    else
      '(reporter_output, dist) ← slashing_distribution_output slashed_amount reporter_bps reserve_bps victim_bps reporter_payload unreveal_floor;
      effects ← slashing_effects_loop evidence reporter_bps reserve_bps victim_bps unreveal_floor ({[bond_outpoint]} ∪ seen);
      Ok (mkEffect bond_outpoint slashed_amount reporter_output (burned_sompi dist) slashing_tx_id
            (security_reserve_sompi dist) (victim_epoch_pool_sompi dist) slashed_epoch [] :: effects)
  end.
Definition slashing_side_effects_from_evidence {E : Type} (evidence : list ResolvedEvidence) (reporter_bps reserve_bps victim_bps : Z)
    (unreveal_floor : option Z) : outcome E (list SlashingSideEffect) :=
  slashing_effects_loop evidence reporter_bps reserve_bps victim_bps unreveal_floor ∅.

(** The multiset of the UTXO commitment. *)
Class Multiset (M : Type) := {
  ms_add_utxo : TransactionOutpoint → UtxoEntry → M → M;
  ms_remove_utxo : TransactionOutpoint → UtxoEntry → M → M;
}.

Section effects.
Context `{DnsDecode}.

Definition resolve_evidence (bond_view : ActiveBondView) (daa_score : Z) (tx : Transaction) : option ResolvedEvidence :=
  ev ← on_kind KSlashingEvidence decode_evidence tx;
  bond ← bond_view !! ev_bond_outpoint ev;
  if slashable (effective_bond_status bond daa_score)
  then Some (ev_bond_outpoint ev, sb_amount bond, ev_reporter_reward_spk_payload ev, tx_id tx, att_epoch (ev_attestation_a ev))
  else None.
Definition resolve_slashing_side_effects {E : Type} (txs : list Transaction) (bond_view : ActiveBondView) (daa_score reporter_bps reserve_bps victim_bps : Z) :
    outcome E (list SlashingSideEffect) :=
  slashing_side_effects_from_evidence (omap (resolve_evidence bond_view daa_score) txs) reporter_bps reserve_bps victim_bps None.

(** What the selected parent supplies: its DAA score and the contributions of
    the selected-chain window, oldest first. *)
Record ParentWindow := mkWindow {
  parent_daa : Z;
  contributions : list BlockEpochContribution;
}.
Definition finalization_depth (p : DnsParams) : Z := sat_add64 (reward_uniqueness_window_blocks p) (max_reorg_horizon_blocks p).

Definition slashed_epoch_victim_outputs {E : Type} (p : DnsParams) (w : ParentWindow) (bond_view : ActiveBondView) (slashed_epoch : Z)
    (slashed_payload : option (list byte)) (victim_pool : Z) : outcome E (list TransactionOutput) :=
  let epoch_len := Z.max (epoch_length_blocks p) 1 in
  let tallies := recompute_epoch_tallies (parent_daa w) epoch_len (finalization_depth p) (contributions w) (bond_records bond_view) in
  let inc := match List.find (λ et, et.1 =? slashed_epoch) tallies with Some et => included et.2 | None => [] end in
  let honest := filter (λ ps : Hash64 * Z, bool_decide (Some (hash64_bytes ps.1) = slashed_payload) = false) inc in
  total_honest_stake ← sum128 honest.*2 0;
  Ok (victim_compensation_outputs victim_pool honest total_honest_stake).

Definition fill_victims {E : Type} (p : DnsParams) (w : ParentWindow) (bond_view : ActiveBondView) (e : SlashingSideEffect) : outcome E SlashingSideEffect :=
  if se_victim_epoch_pool_sompi e =? 0 then Ok e
  else
    outs ← slashed_epoch_victim_outputs p w bond_view (se_slashed_epoch e)
             (sb_owner_reward_spk_payload <$> bond_view !! se_bond_outpoint e) (se_victim_epoch_pool_sompi e);
    Ok (with_victim_outputs outs e).
Fixpoint fill_all_victims {E : Type} (p : DnsParams) (w : ParentWindow) (bond_view : ActiveBondView) (es : list SlashingSideEffect) :
    outcome E (list SlashingSideEffect) :=
  match es with
  | [] => Ok []
  | e :: es => e' ← fill_victims p w bond_view e; es' ← fill_all_victims p w bond_view es; Ok (e' :: es')
  end.

(** [UtxoEntry::new(out.value, out.script_public_key, mint_daa_score, false)]
    minted at [(slashing_tx_id, i)]; a failing [add_utxo] is an [expect] and
    an index beyond [u32] overflows. *)
Definition mint_entry (out : TransactionOutput) (mint_daa_score : Z) : UtxoEntry :=
  mkUtxoEntry (value out) (out_script_public_key out) mint_daa_score false.
Definition expect {E E' A : Type} (m : outcome E' A) : outcome E A :=
  match m with Ok a => Ok a | OutOfFuel => OutOfFuel | _ => Panic end.
Definition mint {E M : Type} `{Multiset M} (id : TransactionId) (mint_daa_score : Z) (st : UtxoDiff * M) (io : Z * TransactionOutput) :
    outcome E (UtxoDiff * M) :=
  _ ← assert_ (io.1 <=? U32_MAX);
  let o := mkOutpoint id io.1 in
  let entry := mint_entry io.2 mint_daa_score in
  diff ← expect (add_utxo st.1 o entry);
  Ok (diff, ms_add_utxo o entry st.2).
(** The reporter at index 0, the victims from index 2 on. *)
Definition minted_outputs (e : SlashingSideEffect) : list (Z * TransactionOutput) :=
  match se_reporter_output e with Some out => [(0, out)] | None => [] end ++ imap (λ i out, (2 + Z.of_nat i mod 2 ^ 32, out)) (se_victim_outputs e).

Definition apply_slashing_effect {E M : Type} `{Multiset M} (base : UtxoCollection) (mint_daa_score : Z) (st : UtxoDiff * M) (e : SlashingSideEffect) :
    outcome E (UtxoDiff * M) :=
  match Utxo.get (compose base st.1) (se_bond_outpoint e) with
  | None => Ok st
  | Some entry =>
    diff ← expect (remove_utxo st.1 (se_bond_outpoint e) entry);
    for_each (mint (se_slashing_tx_id e) mint_daa_score) (minted_outputs e) (diff, ms_remove_utxo (se_bond_outpoint e) entry st.2)
  end.
Definition apply_slashing_effects_to_state {E M : Type} `{Multiset M} (effects : list SlashingSideEffect) (base : UtxoCollection)
    (diff : UtxoDiff) (multiset : M) (mint_daa_score : Z) : outcome E (UtxoDiff * M) :=
  for_each (apply_slashing_effect base mint_daa_score) effects (diff, multiset).

(** [apply_slashing_side_effects] of the accepted transactions: the new diff,
    the new multiset and the reserve accrual. *)
Definition apply_slashing_side_effects {E M : Type} `{Multiset M} (p : DnsParams) (w : ParentWindow) (accepted : list Transaction)
    (base : UtxoCollection) (bond_view : ActiveBondView) (pov_daa_score : Z) (st : UtxoDiff * M) : outcome E (UtxoDiff * M * Z) :=
  if pov_daa_score <? dns_activation_daa_score p then Ok (st, 0)
  else
    let '(reserve_bps, victim_bps) :=
      if pos_v2_activation_daa_score p <=? pov_daa_score then (security_reserve_bps p, victim_epoch_pool_bps p) else (0, 0) in
    effects ← resolve_slashing_side_effects accepted bond_view pov_daa_score (slashing_reporter_reward_bps p) reserve_bps victim_bps;
    effects ← fill_all_victims p w bond_view effects;
    st ← apply_slashing_effects_to_state effects base st.1 st.2 pov_daa_score;
    Ok (st, saturating_sum (se_security_reserve_sompi <$> effects)).
End effects.

(** ** Rewards of a block *)

Section rewards.
Context `{DnsDecode}.

(** The anchors of the creditable epochs: hash and DAA score. *)
Abbreviation Anchors := (gmap Z (Hash64 * Z)).

Definition creditable_attestation (p : DnsParams) (creditable : Anchors) (bond_view : ActiveBondView) (daa_score : Z) (att : StakeAttestation) :
    option IncludedAttestation :=
  if reward_uniqueness_window_blocks p <? sat_sub64 daa_score (att_target_daa_score att) then None
  else
    anchor ← creditable !! att_epoch att;
    if negb (att_target_hash att =? anchor.1) || negb (att_target_daa_score att =? anchor.2) then None
    else
      bond ← active_bond_at bond_view (att_bond_outpoint att) (att_target_daa_score att);
      Some (att_bond_outpoint att, att_epoch att, sb_owner_reward_spk_payload bond, sb_amount bond).

Fixpoint newly_included {E : Type} (already_rewarded seen_in_block : RewardedEpochSet) (attestations : list IncludedAttestation) (acc : Z) : outcome E Z :=
  match attestations with
  | [] => Ok acc
  | (bond_outpoint, epoch, _, stake) :: attestations =>
    let key := (bond_outpoint, epoch) in
    if bool_decide (key ∈ already_rewarded) || bool_decide (key ∈ seen_in_block)
    then newly_included already_rewarded seen_in_block attestations acc
    else acc ← chk128 (acc + stake); newly_included already_rewarded ({[key]} ∪ seen_in_block) attestations acc
  end.

Definition crossed_tallies (p : DnsParams) (w : ParentWindow) (bond_view : ActiveBondView) (daa_score : Z) (range : Z * Z) : list EpochTally :=
  snd <$> filter (λ et, range.1 ≤ et.1 ≤ range.2)
    (recompute_epoch_tallies daa_score (Z.max (epoch_length_blocks p) 1) (finalization_depth p) (contributions w) (bond_records bond_view)).
Fixpoint quality_outputs {E : Type} (p : DnsParams) (tallies : list EpochTally) : outcome E (list TransactionOutput) :=
  match tallies with
  | [] => Ok []
  | t :: tallies =>
    included_sum ← sum128 (included t).*2 0;
    let meets := epoch_meets_quality_floor included_sum (expected_stake t) (stake_event_quality_floor_bps p) in
    outs ← quality_outputs p tallies;
    Ok (validator_quality_bonus_outputs (quality_pool_accrued t) (included t) (expected_stake t) meets ++ outs)
  end.
Definition deferred_quality_bonus_outputs {E : Type} (p : DnsParams) (w : ParentWindow) (bond_view : ActiveBondView) (daa_score : Z) :
    outcome E (list TransactionOutput) :=
  if daa_score <? pos_v2_activation_daa_score p then Ok []
  else
    range ← epochs_finalized_at (parent_daa w) daa_score (Z.max (epoch_length_blocks p) 1) (finalization_depth p);
    match range with
    | None => Ok []
    | Some range => quality_outputs p (crossed_tallies p w bond_view daa_score range)
    end.

Fixpoint drip_loop (cap : Z) (tallies : list EpochTally) (remaining total_drip : Z) : list TransactionOutput * Z :=
  match tallies with
  | [] => ([], total_drip)
  | t :: tallies =>
    if remaining =? 0 then drip_loop cap tallies remaining total_drip
    else
      let budget := Z.min remaining cap in
      if budget =? 0 then drip_loop cap tallies remaining total_drip
      else
        let drip := validator_quality_bonus_outputs budget (included t) (expected_stake t) true in
        let minted := saturating_sum (value <$> drip) in
        let '(outs, total) := drip_loop cap tallies (sat_sub64 remaining minted) (sat_add64 total_drip minted) in
        (drip ++ outs, total)
  end.
Definition reserve_drip_outputs {E : Type} (p : DnsParams) (w : ParentWindow) (bond_view : ActiveBondView) (daa_score parent_balance : Z) :
    outcome E (list TransactionOutput * Z) :=
  let cap := reserve_drip_per_epoch_cap_sompi p in
  if (daa_score <? pos_v2_activation_daa_score p) || (parent_balance =? 0) || (cap =? 0) then Ok ([], 0)
  else
    range ← epochs_finalized_at (parent_daa w) daa_score (Z.max (epoch_length_blocks p) 1) (finalization_depth p);
    match range with
    | None => Ok ([], 0)
    | Some range => Ok (drip_loop cap (crossed_tallies p w bond_view daa_score range) parent_balance 0)
    end.

(** Outputs, rewarded keys, newly included stake, expected stake. *)
Definition validator_reward_outputs_for_block {E : Type} (p : DnsParams) (w : ParentWindow) (creditable : Anchors)
    (already_rewarded : RewardedEpochSet) (txs : list Transaction) (bond_view : ActiveBondView) (daa_score validator_pool : Z) :
    outcome E (list TransactionOutput * list (TransactionOutpoint * Z) * Z * Z) :=
  if daa_score <? dns_activation_daa_score p then Ok ([], [], 0, 0)
  else
    let attestations := omap (creditable_attestation p creditable bond_view daa_score) (attestations_from_accepted_txs txs) in
    let expected_stake := total_active_stake_at bond_view daa_score in
    let participation_bps := if pos_v2_activation_daa_score p <=? daa_score then validator_participation_bps p else 10000 in
    let participation_pool := (split_validator_pool validator_pool participation_bps).1 in
    newly_included_stake ← newly_included already_rewarded ∅ attestations 0;
    '(outputs, rewarded_keys) ← validator_participation_reward_outputs participation_pool expected_stake attestations already_rewarded;
    bonus ← deferred_quality_bonus_outputs p w bond_view daa_score;
    Ok (outputs ++ bonus, rewarded_keys, newly_included_stake, expected_stake).
End rewards.

(** ** The registry along the selected chain *)

Inductive ReconcileError : Type :=
  | RevertRowMissing (o : TransactionOutpoint)
  | RevertStampMismatch (o : TransactionOutpoint) (expected : Z) (found : option Z)
  | ApplyRowExists (o : TransactionOutpoint)
  | ApplyRowMissing (o : TransactionOutpoint)
  | ApplyAlreadyStamped (o : TransactionOutpoint) (found : option Z).

(** The registry with the rows touched so far. *)
Abbreviation Working := (ActiveBondView * gset TransactionOutpoint)%type.
Definition touch (o : TransactionOutpoint) (v : ActiveBondView) (w : Working) : Working := (v, {[o]} ∪ w.2).

Definition reconcile_revert (w : Working) (m : BondMutation) : outcome ReconcileError Working :=
  match m with
  | Insert o _ => _ ← ok_or (w.1 !! o) (RevertRowMissing o); Ok (touch o (delete o w.1) w)
  | Slash o daa =>
    r ← ok_or (w.1 !! o) (RevertRowMissing o);
    if bool_decide (sb_slashed_at_daa_score r = Some daa)
    then Ok (touch o (<[o := restamp daa (set_slashed None r)]> w.1) w)
    else Err (RevertStampMismatch o daa (sb_slashed_at_daa_score r))
  | Unbond o daa =>
    r ← ok_or (w.1 !! o) (RevertRowMissing o);
    if bool_decide (sb_unbond_request_daa_score r = Some daa)
    then Ok (touch o (<[o := restamp daa (set_unbond None r)]> w.1) w)
    else Err (RevertStampMismatch o daa (sb_unbond_request_daa_score r))
  end.
Definition reconcile_apply (w : Working) (m : BondMutation) : outcome ReconcileError Working :=
  match m with
  | Insert o r =>
    match w.1 !! o with
    | Some _ => Err (ApplyRowExists o)
    | None => Ok (touch o (<[o := r]> w.1) w)
    end
  | Slash o daa =>
    r ← ok_or (w.1 !! o) (ApplyRowMissing o);
    if bool_decide (sb_slashed_at_daa_score r = None)
    then Ok (touch o (<[o := restamp daa (set_slashed (Some daa) r)]> w.1) w)
    else Err (ApplyAlreadyStamped o (sb_slashed_at_daa_score r))
  | Unbond o daa =>
    r ← ok_or (w.1 !! o) (ApplyRowMissing o);
    if bool_decide (sb_unbond_request_daa_score r = None)
    then Ok (touch o (<[o := restamp daa (set_unbond (Some daa) r)]> w.1) w)
    else Err (ApplyAlreadyStamped o (sb_unbond_request_daa_score r))
  end.
(** [removed] is tip first; each block carries its mutations. *)
Definition reconcile_dns_bond_registry (working : ActiveBondView) (removed added : list (list BondMutation)) : outcome ReconcileError Working :=
  w ← for_each reconcile_revert (concat (reverse <$> removed)) (working, ∅);
  for_each reconcile_apply (concat added) w.

Definition canonicalize_dns_bond_statuses (working : ActiveBondView) (sink_daa_score : Z) : Working :=
  (restamp sink_daa_score <$> working,
   dom (filter (λ kr, sb_status kr.2 ≠ effective_bond_status kr.2 sink_daa_score) working)).

(** [stage_dns_bond_mutations] writes the final row of every touched outpoint
    to the store; an error of the reconciliation aborts the process. *)
Definition write_rows (touched : gset TransactionOutpoint) (working store : ActiveBondView) : ActiveBondView :=
  set_fold (λ o s, match working !! o with Some r => <[o := r]> s | None => delete o s end) store touched.
Definition stage_dns_bond_mutations {E : Type} (store : ActiveBondView) (removed added : list (list BondMutation)) (sink_daa_score : Z) :
    outcome E ActiveBondView :=
  '(working, touched) ← expect (reconcile_dns_bond_registry store removed added);
  let '(working, normalised) := canonicalize_dns_bond_statuses working sink_daa_score in
  Ok (write_rows (touched ∪ normalised) working store).

Section chain.
Context `{Crypto} `{DnsDecode}.

(** A block of the selected chain: its DAA score, its body, and the
    transactions it accepts from its merge set. *)
Record DnsBlock := mkDnsBlock { db_daa : Z; db_body : list Transaction; db_accepted : list Transaction }.

Definition block_mutations (p : DnsParams) (b : DnsBlock) : list BondMutation :=
  bond_mutations_from_accepted_txs (db_accepted b) (db_daa b) (min_bond_amount_sompi p) (unbonding_period_blocks p).

(** The forward walk of [calculate_utxo_state_relatively] over new blocks: a
    block is checked against the view of its selected parent, then the view
    takes its mutations. A failing block is disqualified and ends the chain. *)
Fixpoint walk_chain (p : DnsParams) (net_id : Hash64) (view : ActiveBondView) (chain : list DnsBlock) : outcome DnsRuleError ActiveBondView :=
  match chain with
  | [] => Ok view
  | b :: chain =>
    _ ← check_dns_rules p net_id view (db_daa b) (db_body b);
    walk_chain p net_id (apply_bonds (block_mutations p b) view) chain
  end.
End chain.

(** ** Accepted transactions *)

Record MergesetBlockAcceptanceData := mkAcceptance { ma_block_hash : BlockHash; ma_accepted : list Z }.
(** The transactions of the merge set in acceptance order; a missing block or
    index aborts. *)
Fixpoint accepted_txs_from_acceptance_data {E : Type} (block_transactions : gmap BlockHash (list Transaction))
    (acceptance_data : list MergesetBlockAcceptanceData) : outcome E (list Transaction) :=
  match acceptance_data with
  | [] => Ok []
  | mergeset :: acceptance_data =>
    block_txs ← unwrap (block_transactions !! ma_block_hash mergeset);
    txs ← unwrap (mapM (λ i, block_txs !! Z.to_nat i) (ma_accepted mergeset));
    rest ← accepted_txs_from_acceptance_data block_transactions acceptance_data;
    Ok (txs ++ rest)
  end.
