(* ===== verification/Coinbase.v ===== *)
(** * Coinbase transactions and the subsidy

    Models [src/consensus/src/processes/coinbase.rs] with the types of
    [src/consensus/core/src/coinbase.rs], the split of a replica's base in
    [palw_premium.rs], [ForkedParam] of [config/params.rs], the check of the
    coinbase payload in the body processor, the check of the coinbase
    transaction in [utxo_validation.rs] with the reward outputs it is given, and
    the retargeting of a block template to another miner in
    [src/mining/src/block_template/builder.rs]. The subsidy table is its thirty yearly
    rates, each repeated for twelve months, and the final zero. *)

From stdpp Require Import base list gmap.
From Stdlib Require Import ZArith Lia.
From S2P Require Import Prelude Tx Bytes Hashing ScriptNum ScriptOps ScriptEngine Header TxMerkle Ghostdag Palw TxValidator DnsBond DnsReward DnsRules.

Local Open Scope Z_scope.

(** ** Data *)

Inductive WorkRewardClass : Type :=
  | HashMiner
  | ReplicaPalw (batch_id : Hash64) (leaf_index : Z) (provider_a_script provider_b_script : ScriptPublicKey) (premium_pi_bps : Z)
  | ReplicaPalwHalted (batch_id : Hash64) (leaf_index : Z)
  | ReplicaPalwDuplicateWork (batch_id : Hash64) (leaf_index : Z) (job_nullifier : Hash64)
  | ReplicaPalwUnbackedCollateral (batch_id : Hash64) (leaf_index : Z) (provider_a_bond provider_b_bond : TransactionOutpoint).
Record MinerData := mkMinerData { md_script_public_key : ScriptPublicKey; md_extra_data : list byte }.
Record CoinbaseData := mkCoinbaseData { cd_blue_score : Z; cd_subsidy : Z; cd_miner_data : MinerData }.
Record BlockRewardData := mkRewardData {
  rd_subsidy : Z;
  rd_total_fees : Z;
  rd_finality_fees : Z;
  rd_script_public_key : ScriptPublicKey;
  rd_work_reward_class : WorkRewardClass;
}.
Record CoinbaseTransactionTemplate := mkTemplate {
  ct_tx : Transaction;
  ct_has_red_reward : bool;
  ct_miner_script_output_indices : list Z;
}.
Inductive CoinbaseError : Type :=
  | PayloadLenBelowMin (len min : Z)
  | PayloadLenAboveMax (len max : Z)
  | PayloadScriptPublicKeyLenAboveMax (len max : Z)
  | PayloadCantContainScriptPublicKey (len needed : Z).

(** ** The subsidy *)

Record ForkedParam := mkForked { fp_pre : Z; fp_post : Z; fp_activation : Z }.
Definition fork_is_active (activation daa_score : Z) : bool := activation <=? daa_score.
Definition before (p : ForkedParam) : Z := if fp_activation p =? 0 then fp_post p else fp_pre p.
Definition after (p : ForkedParam) : Z := if fp_activation p =? U64_MAX then fp_pre p else fp_post p.

Definition SECONDS_PER_MONTH : Z := 2629800.
Definition SUBSIDY_BY_MONTH_TABLE_SIZE : Z := 361.
Definition SUBSIDY_BY_MONTH_TABLE : list Z :=
  concat (replicate 12 <$>
  [2059725708; 2030889548; 2002457094; 1974422695; 1946780777; 1919525846; 1892652485; 1866155350; 1840029175; 1814268766;
   1788869004; 1763824838; 1739131290; 1714783452; 1690776484; 1667105613; 1643766134; 1620753408; 1598062861; 1575689981;
   1553630321; 1531879496; 1510433183; 1489287119; 1468437099; 1447878980; 1427608674; 1407622153; 1387915442; 1368484626]) ++ [0].
Definition div_ceil (a b : Z) : Z := if a mod b =? 0 then a / b else a / b + 1.

Record CoinbaseManager := mkManager {
  coinbase_payload_script_public_key_max_len : Z;
  max_coinbase_payload_len : Z;
  deflationary_phase_daa_score : Z;
  pre_deflationary_phase_base_subsidy : Z;
  bps_history : ForkedParam;
  subsidy_by_month_table_before : list Z;
  subsidy_by_month_table_after : list Z;
  crescendo_activation_daa_score : Z;
}.
(** Division by a rate of zero panics. *)
Definition CoinbaseManager_new {E : Type} (spk_max_len max_payload_len deflationary_phase base_subsidy : Z) (bps : ForkedParam) :
    outcome E CoinbaseManager :=
  if (before bps =? 0) || (after bps =? 0) then Panic
  else Ok (mkManager spk_max_len max_payload_len deflationary_phase base_subsidy bps
    ((λ s, div_ceil s (before bps)) <$> SUBSIDY_BY_MONTH_TABLE) ((λ s, div_ceil s (after bps)) <$> SUBSIDY_BY_MONTH_TABLE) (fp_activation bps)).

Definition subsidy_month {E : Type} (m : CoinbaseManager) (daa_score : Z) : outcome E Z :=
  let D := deflationary_phase_daa_score m in
  let C := crescendo_activation_daa_score m in
  seconds ←
    (if C <? D then d ← sub64 daa_score D; Ok (d / after (bps_history m))
     else if daa_score <? C then d ← sub64 daa_score D; Ok (d / before (bps_history m))
     else c ← sub64 C D; d ← sub64 daa_score C; add64 (c / before (bps_history m)) (d / after (bps_history m)));
  Ok (seconds / SECONDS_PER_MONTH).
Definition calc_block_subsidy {E : Type} (m : CoinbaseManager) (daa_score : Z) : outcome E Z :=
  if daa_score <? deflationary_phase_daa_score m then Ok (pre_deflationary_phase_base_subsidy m)
  else
    month ← subsidy_month m daa_score;
    let table := if fork_is_active (fp_activation (bps_history m)) daa_score then subsidy_by_month_table_after m
                 else subsidy_by_month_table_before m in
    unwrap (table !! Z.to_nat (Z.min month (len table - 1))).

(** ** The payload of a coinbase transaction *)

Definition LENGTH_OF_BLUE_SCORE : Z := 8.
Definition LENGTH_OF_SUBSIDY : Z := 8.
Definition LENGTH_OF_SCRIPT_PUB_KEY_VERSION : Z := 2.
Definition LENGTH_OF_SCRIPT_PUB_KEY_LENGTH : Z := 1.
Definition MIN_PAYLOAD_LENGTH : Z :=
  LENGTH_OF_BLUE_SCORE + LENGTH_OF_SUBSIDY + LENGTH_OF_SCRIPT_PUB_KEY_VERSION + LENGTH_OF_SCRIPT_PUB_KEY_LENGTH.

(** [split_at] panics beyond the end. *)
Definition parser_take {E : Type} (remaining : list byte) (n : Z) : outcome E (list byte * list byte) :=
  if len remaining <? n then Panic else Ok (take (Z.to_nat n) remaining, drop (Z.to_nat n) remaining).

(** What both writers put after blue score and subsidy. *)
Definition miner_data_bytes (d : MinerData) : list byte :=
  let spk := md_script_public_key d in
  to_le_bytes 2 (spk_version spk) ++ to_le_bytes 1 (len (spk_script spk)) ++ spk_script spk ++ md_extra_data d.
Definition serialize_coinbase_payload (m : CoinbaseManager) (data : CoinbaseData) : outcome CoinbaseError (list byte) :=
  let script_pub_key_len := len (spk_script (md_script_public_key (cd_miner_data data))) in
  if coinbase_payload_script_public_key_max_len m <? script_pub_key_len
  then Err (PayloadScriptPublicKeyLenAboveMax script_pub_key_len (coinbase_payload_script_public_key_max_len m))
  else Ok (to_le_bytes 8 (cd_blue_score data) ++ to_le_bytes 8 (cd_subsidy data) ++ miner_data_bytes (cd_miner_data data)).
Definition modify_coinbase_payload (m : CoinbaseManager) (payload : list byte) (miner_data : MinerData) : outcome CoinbaseError (list byte) :=
  let script_pub_key_len := len (spk_script (md_script_public_key miner_data)) in
  if coinbase_payload_script_public_key_max_len m <? script_pub_key_len
  then Err (PayloadScriptPublicKeyLenAboveMax script_pub_key_len (coinbase_payload_script_public_key_max_len m))
  else Ok (take (Z.to_nat (LENGTH_OF_BLUE_SCORE + LENGTH_OF_SUBSIDY)) payload ++ miner_data_bytes miner_data).
Definition deserialize_coinbase_payload (m : CoinbaseManager) (payload : list byte) : outcome CoinbaseError CoinbaseData :=
  if len payload <? MIN_PAYLOAD_LENGTH then Err (PayloadLenBelowMin (len payload) MIN_PAYLOAD_LENGTH)
  else if max_coinbase_payload_len m <? len payload then Err (PayloadLenAboveMax (len payload) (max_coinbase_payload_len m))
  else
    '(blue_score, remaining) ← parser_take payload LENGTH_OF_BLUE_SCORE;
    '(subsidy, remaining) ← parser_take remaining LENGTH_OF_SUBSIDY;
    '(version, remaining) ← parser_take remaining LENGTH_OF_SCRIPT_PUB_KEY_VERSION;
    '(length, remaining) ← parser_take remaining LENGTH_OF_SCRIPT_PUB_KEY_LENGTH;
    let script_pub_key_len := le_val length in
    if coinbase_payload_script_public_key_max_len m <? script_pub_key_len
    then Err (PayloadScriptPublicKeyLenAboveMax script_pub_key_len (coinbase_payload_script_public_key_max_len m))
    else if len remaining <? script_pub_key_len
    then Err (PayloadCantContainScriptPublicKey (len payload) (MIN_PAYLOAD_LENGTH + script_pub_key_len))
    else
      '(script, remaining) ← parser_take remaining script_pub_key_len;
      Ok (mkCoinbaseData (le_val blue_score) (le_val subsidy) (mkMinerData (mkScriptPublicKey (le_val version) script) remaining)).

(** ** The rewards of the mergeset *)

Definition PALW_PREMIUM_BPS_ONE : Z := 10000.
(** Provider A, each replica, and the remainder for the last replica. *)
Definition premium_split {E : Type} (base_sompi replica_count pi_bps : Z) : outcome E (Z * Z * Z) :=
  let m := Z.max replica_count 1 in
  let denom := PALW_PREMIUM_BPS_ONE + m * pi_bps in
  let a := cast64 (base_sompi * PALW_PREMIUM_BPS_ONE / denom) in
  b_total ← sub64 base_sompi a;
  let per_b := cast64 (b_total / m) in
  paid ← mul64 per_b m;
  remainder ← sub64 b_total paid;
  Ok (a, per_b, remainder).

Section rewards.
Context {E : Type} (mergeset_rewards : gmap BlockHash BlockRewardData) (mergeset_non_daa : gset BlockHash).

(** The worker's part of the fees. *)
Definition fee_worker (total_fees finality_fees : Z) (fs : FeeSplitParams) : outcome E (Z * Z) :=
  let finality := Z.min finality_fees total_fees in
  normal ← sub64 total_fees finality;
  f ← split_normal_tx_fees normal fs;
  d ← split_finality_fees finality fs;
  Ok (worker_sompi f, worker_sompi d).
(** The value paid to the source miner and the new inclusion pool. *)
Definition hash_miner_value (carve : option FeeSplitParams) (subsidy total_fees finality_fees worker_inclusion_pool : Z) : outcome E (Z * Z) :=
  match carve with
  | Some fs =>
    s ← split_block_subsidy subsidy fs;
    fees ← fee_worker total_fees finality_fees fs;
    Ok (sat_add64 (sat_add64 (worker_base_sompi s) fees.1) fees.2, sat_add64 worker_inclusion_pool (worker_inclusion_sompi s))
  | None => v ← add64 subsidy total_fees; Ok (v, worker_inclusion_pool)
  end.
(** An output is pushed only for a positive value. *)
Definition push_positive (v : Z) (spk : ScriptPublicKey) : list TransactionOutput := if 0 <? v then [mkOutput v spk] else [].

Definition blue_reward (carve : option FeeSplitParams) (st : list TransactionOutput * Z) (blue : BlockHash) : outcome E (list TransactionOutput * Z) :=
  reward_data ← unwrap (mergeset_rewards !! blue);
  match rd_work_reward_class reward_data with
  | HashMiner =>
    v ← hash_miner_value carve (rd_subsidy reward_data) (rd_total_fees reward_data) (rd_finality_fees reward_data) st.2;
    Ok (st.1 ++ push_positive v.1 (rd_script_public_key reward_data), v.2)
  | ReplicaPalw _ _ provider_a_script provider_b_script premium_pi_bps =>
    fs ← unwrap carve;
    let palw := palw_lane fs in
    s ← split_block_subsidy (rd_subsidy reward_data) palw;
    split ← premium_split (worker_base_sompi s) 1 premium_pi_bps;
    b ← add64 split.1.2 split.2;
    fees ← fee_worker (rd_total_fees reward_data) (rd_finality_fees reward_data) palw;
    Ok (st.1 ++ push_positive split.1.1 provider_a_script ++ push_positive b provider_b_script
          ++ push_positive (sat_add64 fees.1 fees.2) (rd_script_public_key reward_data),
        sat_add64 st.2 (worker_inclusion_sompi s))
  | ReplicaPalwHalted _ _ | ReplicaPalwDuplicateWork _ _ _ | ReplicaPalwUnbackedCollateral _ _ _ _ => Ok st
  end.
Definition eff_subsidy (red : BlockHash) (reward_data : BlockRewardData) : Z :=
  if bool_decide (red ∈ mergeset_non_daa) then 0 else rd_subsidy reward_data.
(** The red reward and the inclusion pool. *)
Definition red_reward_step (carve : option FeeSplitParams) (st : Z * Z) (red : BlockHash) : outcome E (Z * Z) :=
  reward_data ← unwrap (mergeset_rewards !! red);
  match rd_work_reward_class reward_data with
  | HashMiner =>
    v ← hash_miner_value carve (eff_subsidy red reward_data) (rd_total_fees reward_data) (rd_finality_fees reward_data) st.2;
    red_reward ← add64 st.1 v.1;
    Ok (red_reward, v.2)
  | _ => Ok st
  end.
Definition daa_blues (blues : list BlockHash) : list BlockHash := filter (λ h, h ∉ mergeset_non_daa) blues.

Definition blue_validator (fee_split : FeeSplitParams) (pool : Z) (blue : BlockHash) : outcome E Z :=
  reward_data ← unwrap (mergeset_rewards !! blue);
  validator ←
    match rd_work_reward_class reward_data with
    | HashMiner =>
      r ← split_block_reward (rd_subsidy reward_data) (rd_total_fees reward_data) (rd_finality_fees reward_data) fee_split; Ok (validator_sompi r)
    | ReplicaPalw _ _ _ _ _ =>
      r ← split_block_reward (rd_subsidy reward_data) (rd_total_fees reward_data) (rd_finality_fees reward_data) (palw_lane fee_split);
      Ok (validator_sompi r)
    | ReplicaPalwHalted _ _ | ReplicaPalwDuplicateWork _ _ _ | ReplicaPalwUnbackedCollateral _ _ _ _ => Ok 0
    end;
  Ok (sat_add64 pool validator).
Definition red_validator (fee_split : FeeSplitParams) (pool : Z) (red : BlockHash) : outcome E Z :=
  reward_data ← unwrap (mergeset_rewards !! red);
  validator ←
    match rd_work_reward_class reward_data with
    | HashMiner =>
      r ← split_block_reward (eff_subsidy red reward_data) (rd_total_fees reward_data) (rd_finality_fees reward_data) fee_split; Ok (validator_sompi r)
    | _ => Ok 0
    end;
  Ok (sat_add64 pool validator).
Definition coinbase_validator_pool (ghostdag_data : GhostdagData) (fee_split : FeeSplitParams) : outcome E Z :=
  pool ← for_each (blue_validator fee_split) (daa_blues (mergeset_blues ghostdag_data)) 0;
  for_each (red_validator fee_split) (mergeset_reds ghostdag_data) pool.
End rewards.

(** ** The coinbase transaction *)

Definition Transaction_finalize `{Crypto} (tx : Transaction) : Transaction :=
  mkTransaction (tx_version tx) (inputs tx) (outputs tx) (lock_time tx) (subnetwork_id tx) (gas tx) (payload tx) (mass_commitment tx) (tx_id_hash tx).
Definition Transaction_new `{Crypto} (version : Z) (inputs : list TransactionInput) (outputs : list TransactionOutput) (lock_time : Z)
    (subnetwork_id : SubnetworkId) (gas : Z) (payload : list byte) : Transaction :=
  Transaction_finalize (mkTransaction version inputs outputs lock_time subnetwork_id gas payload 0 0).

Section coinbase.
Context `{Crypto} (m : CoinbaseManager).

(** The bounty of the block that includes the attestations. *)
Definition inclusion_bounty (carve : option FeeSplitParams) (worker_inclusion_pool : Z) (inclusion : Z * Z) : Z :=
  match carve with
  | None => 0
  | Some _ => cast64 (Z.min (worker_inclusion_bounty worker_inclusion_pool inclusion.1 inclusion.2 STAKE_SCORE_SCALE false 0) worker_inclusion_pool)
  end.
(** An output to the miner of the block is pushed with its index. *)
Definition push_miner (v : Z) (spk : ScriptPublicKey) (st : list TransactionOutput * list Z) : list TransactionOutput * list Z :=
  if 0 <? v then (st.1 ++ [mkOutput v spk], st.2 ++ [len st.1]) else st.

Definition expected_coinbase_transaction (daa_score : Z) (miner_data : MinerData) (ghostdag_data : GhostdagData)
    (mergeset_rewards : gmap BlockHash BlockRewardData) (mergeset_non_daa : gset BlockHash) (validator_reward_outputs : list TransactionOutput)
    (carve : option FeeSplitParams) (inclusion : Z * Z) : outcome CoinbaseError CoinbaseTransactionTemplate :=
  blue ← for_each (blue_reward mergeset_rewards carve) (daa_blues mergeset_non_daa (mergeset_blues ghostdag_data)) ([], 0);
  red ← for_each (red_reward_step mergeset_rewards mergeset_non_daa carve) (mergeset_reds ghostdag_data) (0, blue.2);
  let st := push_miner red.1 (md_script_public_key miner_data) (blue.1, []) in
  let st := push_miner (inclusion_bounty carve red.2 inclusion) (md_script_public_key miner_data) (st.1 ++ validator_reward_outputs, st.2) in
  subsidy ← calc_block_subsidy m daa_score;
  payload ← serialize_coinbase_payload m (mkCoinbaseData (blue_score ghostdag_data) subsidy miner_data);
  Ok (mkTemplate (Transaction_new TX_VERSION [] st.1 0 SUBNETWORK_ID_COINBASE 0 payload) (0 <? red.1) st.2).

(** ** Checks of the block that carries it *)

Inductive CoinbaseRuleError : Type :=
  | BadCoinbasePayload (e : CoinbaseError)
  | BadCoinbasePayloadBlueScore (payload header : Z)
  | WrongSubsidy (expected actual : Z)
  | NonPqCoinbasePayloadScript
  | BadCoinbaseTransaction.

Definition check_coinbase_blue_score_and_subsidy (tv : TransactionValidator) (header_blue_score header_daa_score : Z) (transactions : list Transaction) :
    outcome CoinbaseRuleError unit :=
  coinbase ← unwrap (head transactions);
  data ← map_err BadCoinbasePayload (deserialize_coinbase_payload m (payload coinbase));
  if negb (cd_blue_score data =? header_blue_score) then Err (BadCoinbasePayloadBlueScore (cd_blue_score data) header_blue_score)
  else
    expected_subsidy ← calc_block_subsidy m header_daa_score;
    if negb (cd_subsidy data =? expected_subsidy) then Err (WrongSubsidy expected_subsidy (cd_subsidy data))
    else if pq_only (resolved_script_policy tv header_daa_score)
      && negb (is_pq_standard (ScriptClass_from_script (md_script_public_key (cd_miner_data data)))) then Err NonPqCoinbasePayloadScript
    else Ok tt.

Definition verify_coinbase_transaction (coinbase : Transaction) (daa_score : Z) (ghostdag_data : GhostdagData)
    (mergeset_rewards : gmap BlockHash BlockRewardData) (mergeset_non_daa : gset BlockHash) (validator_reward_outputs : list TransactionOutput)
    (carve : option FeeSplitParams) (inclusion : Z * Z) : outcome CoinbaseRuleError unit :=
  data ← expect (deserialize_coinbase_payload m (payload coinbase));
  expected_coinbase ← expect (expected_coinbase_transaction daa_score (cd_miner_data data) ghostdag_data mergeset_rewards mergeset_non_daa
    validator_reward_outputs carve inclusion);
  if negb (tx_hash coinbase =? tx_hash (ct_tx expected_coinbase)) then Err BadCoinbaseTransaction else Ok tt.
End coinbase.

(** ** The reward part of the validation of a chain block *)

Record RewardSplitParams := mkRewardSplit { full_reward_split_daa_score : Z; fee_split : FeeSplitParams; fee_split_bootstrap : FeeSplitParams }.
Definition reward_fee_split (p : DnsParams) (r : RewardSplitParams) (daa_score : Z) : option FeeSplitParams :=
  if daa_score <? dns_activation_daa_score p then None
  else if full_reward_split_daa_score r <=? daa_score then Some (fee_split r) else Some (fee_split_bootstrap r).

(** What the selected parent and the mergeset fix for the block. *)
Record RewardContext := mkRewardContext {
  rc_ghostdag_data : GhostdagData;
  rc_mergeset_rewards : gmap BlockHash BlockRewardData;
  rc_mergeset_non_daa : gset BlockHash;
  rc_window : ParentWindow;
  rc_bond_view : ActiveBondView;
  rc_creditable : gmap Z (Hash64 * Z);
  rc_already_rewarded : RewardedEpochSet;
  rc_parent_balance : Z;
  rc_reserve_accrual : Z;
}.
(** The rows that [commit_utxo_state] writes. *)
Record RewardEffects := mkRewardEffects {
  re_validator_rewarded_keys : list (TransactionOutpoint * Z);
  re_validator_quality_subpool : Z;
  re_reserve_balance_after : Z;
}.

Section validation.
Context `{Crypto} `{DnsDecode} (m : CoinbaseManager) (p : DnsParams) (r : RewardSplitParams).

(** Validator outputs with the reserve drip, the stake for the bounty, and the
    rows to write. *)
Definition block_validator_rewards {E : Type} (c : RewardContext) (daa_score : Z) (txs : list Transaction) :
    outcome E (list TransactionOutput * (Z * Z) * RewardEffects) :=
  validator_pool ←
    match reward_fee_split p r daa_score with
    | None => Ok 0
    | Some fs => coinbase_validator_pool (rc_mergeset_rewards c) (rc_mergeset_non_daa c) (rc_ghostdag_data c) fs
    end;
  v ← validator_reward_outputs_for_block p (rc_window c) (rc_creditable c) (rc_already_rewarded c) txs (rc_bond_view c) daa_score validator_pool;
  let '(outs, keys, newly, expected) := v in
  let subpool := if pos_v2_activation_daa_score p <=? daa_score
    then cast64 (Z.min (split_validator_pool validator_pool (validator_participation_bps p)).2 U64_MAX) else 0 in
  drip ← reserve_drip_outputs p (rc_window c) (rc_bond_view c) daa_score (rc_parent_balance c);
  Ok (outs ++ drip.1, (newly, expected),
      mkRewardEffects keys subpool (sat_sub64 (sat_add64 (rc_parent_balance c) (rc_reserve_accrual c)) drip.2)).

Definition verify_block_rewards (c : RewardContext) (daa_score : Z) (txs : list Transaction) : outcome CoinbaseRuleError RewardEffects :=
  rewards ← block_validator_rewards c daa_score txs;
  coinbase ← unwrap (head txs);
  _ ← verify_coinbase_transaction m coinbase daa_score (rc_ghostdag_data c) (rc_mergeset_rewards c) (rc_mergeset_non_daa c)
    rewards.1.1 (reward_fee_split p r daa_score) rewards.1.2;
  Ok rewards.2.
End validation.

(** ** Retargeting a template *)

(** The stale EVM claims, the dropped shards and the EVM payload, which the
    change of miner only copies, are left out. *)
Record BlockTemplate := mkBlockTemplate {
  bt_header : Header;
  bt_transactions : list Transaction;
  bt_miner_data : MinerData;
  bt_coinbase_has_red_reward : bool;
  bt_coinbase_miner_script_output_indices : list Z;
  bt_selected_parent_timestamp : Z;
  bt_selected_parent_daa_score : Z;
  bt_selected_parent_hash : BlockHash;
  bt_calculated_fees : list Z;
}.
(** The variant that this function can return. *)
Inductive BuilderError : Type := CoinbaseErr (e : CoinbaseError).

Definition set_root_and_time (header : Header) (hash_merkle_root : Hash64) (timestamp : Z) : Header :=
  mkHeader (hdr_hash header) (hdr_version header) (hdr_parents_by_level header) hash_merkle_root
    (hdr_accepted_id_merkle_root header) (hdr_utxo_commitment header) timestamp (hdr_bits header)
    (hdr_nonce header) (hdr_pow_algo_id header) (hdr_daa_score header) (hdr_blue_work header)
    (hdr_blue_score header) (hdr_pruning_point header) (hdr_evm_payload_hash header)
    (hdr_evm_commitment_root header) (hdr_overlay_commitment_root header) (hdr_blue_hash_work header)
    (hdr_blue_compute_work header) (hdr_palw_batch_id header) (hdr_palw_leaf_index header)
    (hdr_palw_ticket_nullifier header) (hdr_palw_epoch_certificate_hash header) (hdr_palw_chain_commit header)
    (hdr_palw_target_daa_interval header) (hdr_palw_authorization_hash header) (hdr_palw_proof_type header)
    (hdr_palw_beacon_seed header) (hdr_palw_spam_accumulator_commitment header) (hdr_palw_spam_nonce header).

(** The outputs at the given indices get the script. *)
Definition retarget_output {E : Type} (spk : ScriptPublicKey) (outs : list TransactionOutput) (output_index : Z) : outcome E (list TransactionOutput) :=
  out ← unwrap (outs !! Z.to_nat output_index);
  Ok (<[Z.to_nat output_index := mkOutput (value out) spk]> outs).
(** The cached id is not recomputed. *)
Definition retarget_coinbase (m : CoinbaseManager) (new_miner_data : MinerData) (indices : list Z) (coinbase_tx : Transaction) :
    outcome CoinbaseError Transaction :=
  new_payload ← modify_coinbase_payload m (payload coinbase_tx) new_miner_data;
  outs ← for_each (retarget_output (md_script_public_key new_miner_data)) indices (outputs coinbase_tx);
  Ok (mkTransaction (tx_version coinbase_tx) (inputs coinbase_tx) outs (lock_time coinbase_tx) (subnetwork_id coinbase_tx) (gas coinbase_tx)
    new_payload (mass_commitment coinbase_tx) (tx_id coinbase_tx)).
(** [unix_now] is the wall clock. *)
Definition modify_block_template `{Crypto} (m : CoinbaseManager) (unix_now : Z) (new_miner_data : MinerData) (block_template : BlockTemplate) :
    outcome BuilderError BlockTemplate :=
  coinbase_tx ← unwrap (head (bt_transactions block_template));
  coinbase_tx ← map_err CoinbaseErr
    (retarget_coinbase m new_miner_data (bt_coinbase_miner_script_output_indices block_template) coinbase_tx);
  let transactions := coinbase_tx :: tail (bt_transactions block_template) in
  let header := bt_header block_template in
  root ← calc_hash_merkle_root transactions;
  let evm_committed_template := EVM_HEADER_VERSION <=? hdr_version header in
  let timestamp := if negb evm_committed_template && (hdr_timestamp header <? unix_now) then unix_now else hdr_timestamp header in
  header ← header_finalize (set_root_and_time header root timestamp);
  Ok (mkBlockTemplate header transactions new_miner_data (bt_coinbase_has_red_reward block_template)
    (bt_coinbase_miner_script_output_indices block_template) (bt_selected_parent_timestamp block_template)
    (bt_selected_parent_daa_score block_template) (bt_selected_parent_hash block_template) (bt_calculated_fees block_template)).
