(* ===== verification/DnsRewardThms.v ===== *)
(** * Conservation of the DNS rewards

    Every split is exact, every participation payout stays inside its pool,
    every epoch is finalised by exactly one block of a chain, and the shares of
    a slashed stake add up to it. The quality bonus divides by another stake
    than the one its recipients were included with: the last theorem of the
    file runs a chain on which it pays twice the pool it accrued. *)

From stdpp Require Import base list gmap sorting.
From Stdlib Require Import ZArith Lia.
From S2P Require Import Prelude Tx Bytes Hashing Palw DnsBond DnsReward.

Local Open Scope Z_scope.

(** ** Shares *)

Lemma sat_mul128_exact a b : is_u64 a → is_u64 b → sat_mul128 a b = a * b.
Proof. unfold is_u64, sat_mul128, U64_MAX, U128_MAX. intros Ha Hb. apply Z.min_l. nia. Qed.
Lemma cast64_id z : is_u64 z → cast64 z = z.
Proof. unfold is_u64, cast64, U64_MAX. intros Hz. apply Z.mod_small. lia. Qed.
Lemma cast64_range z : is_u64 (cast64 z).
Proof. unfold is_u64, cast64, U64_MAX. pose proof (Z.mod_pos_bound z (2 ^ 64) eq_refl). lia. Qed.
Lemma sub64_Ok {E : Type} a b : 0 ≤ b ≤ a → is_u64 a → @sub64 E a b = Ok (a - b).
Proof. unfold is_u64. intros Hb Ha. apply chk64_Ok. unfold is_u64. lia. Qed.

Lemma proportional_share_eq pool stake expected : is_u64 pool → is_u64 stake → 0 < expected →
  proportional_share pool stake expected = pool * Z.min stake expected / expected.
Proof.
  intros Hp Hs He. unfold proportional_share. replace (expected =? 0) with false by lia.
  rewrite sat_mul128_exact; [done | done |]. unfold is_u64 in *. lia.
Qed.
Lemma proportional_share_bound pool stake expected : is_u64 pool → is_u64 stake → 0 ≤ expected →
  0 ≤ proportional_share pool stake expected ≤ pool.
Proof.
  intros Hp Hs He. destruct (decide (expected = 0)) as [->|]; [unfold proportional_share, is_u64 in *; cbn; lia|].
  rewrite proportional_share_eq by (done || lia). unfold is_u64 in *. split; [apply Z.div_pos; nia|].
  apply Z.div_le_upper_bound; nia.
Qed.

(** Shares of stakes that fit in the denominator fit in the pool. *)
Lemma shares_within_pool pool expected (stakes : list Z) : is_u64 pool → 0 ≤ expected → Forall is_u64 stakes → sumZ stakes ≤ expected →
  sumZ ((λ s, proportional_share pool s expected) <$> stakes) ≤ pool.
Proof.
  intros Hp He Hs Hsum. destruct (decide (expected = 0)) as [->|].
  { assert (sumZ ((λ s, proportional_share pool s 0) <$> stakes) ≤ 0) as Hz; [|unfold is_u64 in *; lia].
    clear. induction stakes as [|s l IH]; [by vm_compute|]. rewrite fmap_cons, sumZ_cons.
    change (proportional_share pool s 0) with 0. lia. }
  assert (expected * sumZ ((λ s, proportional_share pool s expected) <$> stakes) ≤ pool * sumZ stakes) as Hle.
  { clear Hsum. induction Hs as [|s l Hs Hl IH]; [by unfold sumZ; cbn; lia|]. rewrite fmap_cons, !sumZ_cons.
    rewrite proportional_share_eq by (done || lia). unfold is_u64 in *.
    pose proof (Z.mul_div_le (pool * Z.min s expected) expected). nia. }
  unfold is_u64 in *. nia.
Qed.

(** ** Splits *)

Lemma bps_share_range amount bps : is_u64 (bps_share amount bps).
Proof. apply cast64_range. Qed.

(** The step the three splits are made of: take a share of what remains. *)
Lemma take_share {E : Type} r share : is_u64 r → is_u64 share → @sub64 E r (Z.min share r) = Ok (r - Z.min share r).
Proof. unfold is_u64. intros Hr Hs. rewrite sub64_Ok; [done|..]; unfold is_u64; lia. Qed.
Lemma take_range r share : is_u64 r → is_u64 share → is_u64 (r - Z.min share r) ∧ is_u64 (Z.min share r).
Proof. unfold is_u64. lia. Qed.
Ltac take_step := match goal with |- context [sub64 ?r (Z.min (bps_share ?a ?b) ?r)] =>
  destruct (take_range r (bps_share a b)) as [? ?]; [done | apply bps_share_range |];
  rewrite (take_share r (bps_share a b)) by (done || apply bps_share_range); cbn [mbind outcome_bind] end.

Lemma split_block_subsidy_exact {E : Type} subsidy p : is_u64 subsidy → ∃ s, @split_block_subsidy E subsidy p = Ok s ∧
  is_u64 (worker_base_sompi s) ∧ is_u64 (worker_inclusion_sompi s) ∧ is_u64 (subsidy_validator_sompi s) ∧ is_u64 (subsidy_service_sompi s) ∧
  worker_base_sompi s + worker_inclusion_sompi s + subsidy_validator_sompi s + subsidy_service_sompi s = subsidy.
Proof.
  intros Hs. unfold split_block_subsidy. do 3 take_step.
  eexists. split; [done|]. cbn. unfold is_u64 in *. lia.
Qed.
Lemma split_normal_tx_fees_exact {E : Type} fees p : is_u64 fees → ∃ s, @split_normal_tx_fees E fees p = Ok s ∧
  is_u64 (worker_sompi s) ∧ is_u64 (validator_sompi s) ∧ is_u64 (service_sompi s) ∧ worker_sompi s + validator_sompi s + service_sompi s = fees.
Proof.
  intros Hs. unfold split_normal_tx_fees. do 2 take_step.
  eexists. split; [done|]. cbn. unfold is_u64 in *. lia.
Qed.
Lemma split_finality_fees_exact {E : Type} fees p : is_u64 fees → ∃ s, @split_finality_fees E fees p = Ok s ∧
  is_u64 (worker_sompi s) ∧ is_u64 (validator_sompi s) ∧ is_u64 (service_sompi s) ∧ worker_sompi s + validator_sompi s + service_sompi s = fees.
Proof.
  intros Hs. unfold split_finality_fees. do 2 take_step.
  eexists. split; [done|]. cbn. unfold is_u64 in *. lia.
Qed.
Lemma sat_add64_exact a b : a + b ≤ U64_MAX → sat_add64 a b = a + b.
Proof. apply Z.min_l. Qed.

Lemma split_block_reward_exact {E : Type} subsidy fees finality p : is_u64 subsidy → is_u64 fees → is_u64 finality → subsidy + fees ≤ U64_MAX →
  ∃ s, @split_block_reward E subsidy fees finality p = Ok s ∧ 0 ≤ worker_sompi s ∧ 0 ≤ validator_sompi s ∧ 0 ≤ service_sompi s ∧
    worker_sompi s + validator_sompi s + service_sompi s = subsidy + fees.
Proof.
  intros Hs Hf Hfin Hsum. unfold split_block_reward.
  destruct (split_block_subsidy_exact (E := E) subsidy p Hs) as (s & -> & Hs1 & Hs2 & Hs3 & Hs4 & Hss).
  assert (0 ≤ Z.min finality fees ≤ fees) as Hm by (unfold is_u64 in *; lia).
  cbn [mbind outcome_bind]. rewrite sub64_Ok by done. cbn [mbind outcome_bind].
  destruct (split_normal_tx_fees_exact (E := E) (fees - Z.min finality fees) p) as (f & -> & Hf1 & Hf2 & Hf3 & Hff); [unfold is_u64 in *; lia|].
  cbn [mbind outcome_bind].
  destruct (split_finality_fees_exact (E := E) (Z.min finality fees) p) as (d & -> & Hd1 & Hd2 & Hd3 & Hdd); [unfold is_u64 in *; lia|].
  eexists. split; [done|]. cbn. unfold is_u64 in *. unfold sat_add64. lia.
Qed.

(** The split of a block's reward is exact: whatever the configured basis
    points, it never panics, no recipient gets a negative amount, and the
    worker, validator and service parts add up to subsidy plus fees, unless
    that sum itself exceeds 64 bits. *)
Theorem block_reward_split_exact {E : Type} subsidy_sompi total_fees_sompi finality_fees_sompi fee_split :
  is_u64 subsidy_sompi → is_u64 total_fees_sompi → is_u64 finality_fees_sompi → subsidy_sompi + total_fees_sompi ≤ U64_MAX →
  ∃ s, @split_block_reward E subsidy_sompi total_fees_sompi finality_fees_sompi fee_split = Ok s ∧
    0 ≤ worker_sompi s ∧ 0 ≤ validator_sompi s ∧ 0 ≤ service_sompi s ∧
    worker_sompi s + validator_sompi s + service_sompi s = subsidy_sompi + total_fees_sompi.
Proof. apply split_block_reward_exact. Qed.

(** ** Participation *)

Definition att_key (a : IncludedAttestation) : TransactionOutpoint * Z := (a.1.1.1, a.1.1.2).

Lemma participation_loop_spec {E : Type} pool expected already atts seen spent : is_u64 pool → 0 ≤ expected →
  Forall (λ a, is_u64 a.2) atts → 0 ≤ spent ≤ pool →
  ∃ outs keys, @participation_loop E pool expected already atts seen spent = Ok (outs, keys) ∧
    spent + sumZ (value <$> outs) ≤ pool ∧ NoDup keys ∧ (∀ k, k ∈ keys → k ∉ already ∧ k ∉ seen) ∧
    Forall2 (λ out key, ∃ a, a ∈ atts ∧ att_key a = key ∧ out = mkOutput (proportional_share pool a.2 expected) (p2pkh_mldsa87_spk a.1.2)) outs keys.
Proof.
  intros Hp He Ha. revert seen spent. induction Ha as [|a atts Hstake Ha IH]; intros seen spent Hspent; cbn [participation_loop].
  { exists [], []. split_and!; [done | unfold sumZ; cbn; lia | constructor | by intros k Hk%elem_of_nil | constructor]. }
  assert (Hweak : ∀ (outs : list TransactionOutput) keys, Forall2 (λ out key, ∃ a0, a0 ∈ atts ∧ att_key a0 = key ∧
    out = mkOutput (proportional_share pool a0.2 expected) (p2pkh_mldsa87_spk a0.1.2)) outs keys →
    Forall2 (λ out key, ∃ a0, a0 ∈ a :: atts ∧ att_key a0 = key ∧
    out = mkOutput (proportional_share pool a0.2 expected) (p2pkh_mldsa87_spk a0.1.2)) outs keys).
  { intros outs keys HF. eapply Forall2_impl; [exact HF|]. intros ?? (a0 & ? & ?). exists a0. split; [by right | done]. }
  destruct a as [[[o e] payload] stake]. cbn [snd] in Hstake.
  destruct (bool_decide _ || bool_decide _) eqn:Hskip.
  { destruct (IH seen spent Hspent) as (outs & keys & ? & ? & ? & ? & ?). exists outs, keys. split_and!; auto. }
  apply orb_false_iff in Hskip as [Hna%bool_decide_eq_false Hns%bool_decide_eq_false].
  pose proof (proportional_share_bound pool stake expected Hp Hstake He) as Hb. fold (validator_participation_reward pool stake expected) in Hb.
  set (reward := validator_participation_reward pool stake expected) in *.
  destruct (reward =? 0) eqn:Hz.
  { destruct (IH ({[(o, e)]} ∪ seen) spent Hspent) as (outs & keys & ? & ? & ? & Hk & ?). exists outs, keys. split_and!; auto.
    intros k Hin. destruct (Hk k Hin). split; [done | set_solver]. }
  destruct (pool <? sat_add128 spent reward) eqn:Hcap.
  { exists [], []. split_and!; [done | unfold sumZ; cbn; lia | constructor | by intros k Hk%elem_of_nil | constructor]. }
  assert (spent + reward ≤ pool) by (unfold sat_add128, U128_MAX, is_u64, U64_MAX in *; lia).
  unfold chk128. replace ((0 <=? spent + reward) && (spent + reward <=? U128_MAX)) with true
    by (unfold U128_MAX, is_u64, U64_MAX in *; lia). cbn [mbind outcome_bind].
  destruct (IH ({[(o, e)]} ∪ seen) (spent + reward)) as (outs & keys & Hl & Hs & Hd & Hk & HF); [lia|]. rewrite Hl. cbn [mbind outcome_bind].
  eexists _, _. split; [done|]. rewrite cast64_id by (unfold is_u64 in *; lia). rewrite fmap_cons, sumZ_cons. cbn [value].
  split_and!; [lia | constructor; [|done] | | constructor; [|auto]].
  - intros Hin. destruct (Hk _ Hin). set_solver.
  - intros k [->|Hin]%elem_of_cons; [done|]. destruct (Hk k Hin). split; [done | set_solver].
  - eexists (o, e, payload, stake). split; [by left | done].
Qed.

(** The participation outputs of a block stay inside the pool: they never
    panic, their total is at most the pool, each pays one included attestation
    exactly its proportional share, and no bond is paid twice for an epoch,
    neither in the block nor after an earlier reward of the chain. *)
Theorem participation_within_pool {E : Type} participation_pool expected_stake attestations already_rewarded :
  is_u64 participation_pool → 0 ≤ expected_stake → Forall (λ a, is_u64 a.2) attestations →
  ∃ outs keys, @validator_participation_reward_outputs E participation_pool expected_stake attestations already_rewarded = Ok (outs, keys) ∧
    sumZ (value <$> outs) ≤ participation_pool ∧ NoDup keys ∧ (∀ k, k ∈ keys → k ∉ already_rewarded) ∧
    Forall2 (λ out key, ∃ a, a ∈ attestations ∧ att_key a = key ∧
      out = mkOutput (proportional_share participation_pool a.2 expected_stake) (p2pkh_mldsa87_spk a.1.2)) outs keys.
Proof.
  intros Hp He Ha. destruct (participation_loop_spec (E := E) participation_pool expected_stake already_rewarded attestations ∅ 0 Hp He Ha)
    as (outs & keys & Hl & Hs & Hd & Hk & HF); [unfold is_u64 in *; lia|].
  exists outs, keys. split_and!; [done | lia | done | intros k Hin; by apply Hk | done].
Qed.

(** ** Finalisation of epochs *)

(** The DAA score at which epoch [e] is finalised. *)
Definition threshold (L fd e : Z) : Z := (e + 1) * Z.max L 1 + fd.

Lemma div_le_iff m l x : 0 < l → m * l ≤ x ↔ m ≤ x / l.
Proof.
  intros Hl. split; [intros; apply Z.div_le_lower_bound; lia|]. pose proof (Z.mul_div_le x l Hl). nia.
Qed.
Lemma checked_sub64_case a b : is_u64 a → is_u64 b → checked_sub64 a b = if b <=? a then Some (a - b) else None.
Proof.
  unfold is_u64, checked_sub64, in_u64. intros Ha Hb. destruct (b <=? a) eqn:Hc.
  - by replace ((0 <=? a - b) && (a - b <=? U64_MAX)) with true by lia.
  - by replace ((0 <=? a - b) && (a - b <=? U64_MAX)) with false by lia.
Qed.

Lemma epochs_finalized_spec {E : Type} parent daa L fd : is_u64 parent → is_u64 daa → daa < U64_MAX → is_u64 L → is_u64 fd → parent ≤ daa →
  ∃ range, @epochs_finalized_at E parent daa L fd = Ok range ∧
    ∀ e, 0 ≤ e → (match range with Some (e_min, e_max) => e_min ≤ e ≤ e_max | None => False end ↔ parent < threshold L fd e ≤ daa).
Proof.
  intros Hp Hd Hm HL Hf Hpd. unfold epochs_finalized_at, threshold. set (l := Z.max L 1) in *.
  assert (1 ≤ l) as Hl by lia. rewrite !checked_sub64_case by done.
  destruct (fd <=? daa) eqn:Hfd. 2:{ eexists. split; [done|]. intros e He0. split; [done|]. nia. }
  assert (∀ e, (e + 1) * l + fd ≤ daa ↔ e + 1 ≤ (daa - fd) / l) as Hmax.
  { intros e. rewrite <- div_le_iff by lia. lia. }
  destruct ((daa - fd) / l =? 0) eqn:Hz.
  { eexists. split; [done|]. intros e He0. split; [done|]. rewrite Hmax. lia. }
  assert (0 < (daa - fd) / l ≤ daa - fd) as Hmm.
  { split; [pose proof (Z.div_pos (daa - fd) l); lia | apply Z.div_le_upper_bound; nia]. }
  set (m_min := Z.max (match (if fd <=? parent then Some (parent - fd) else None) with None => 1 | Some lo => sat_add64 (lo / l) 1 end) 1).
  assert (1 ≤ m_min ≤ U64_MAX ∧ ∀ e, 0 ≤ e → parent < (e + 1) * l + fd ↔ m_min ≤ e + 1) as [Hmin Hmin'].
  { subst m_min. unfold is_u64 in *. destruct (fd <=? parent) eqn:Hfp.
    - assert (0 ≤ (parent - fd) / l ≤ parent - fd) by (split; [apply Z.div_pos; lia | apply Z.div_le_upper_bound; nia]).
      rewrite sat_add64_exact by lia. split; [lia|]. intros e He0. pose proof (div_le_iff (e + 1) l (parent - fd)). lia.
    - split; [unfold U64_MAX; lia|]. intros e He0. nia. }
  destruct ((daa - fd) / l <? m_min) eqn:Hlt.
  { eexists. split; [done|]. intros e He0. split; [done|]. rewrite Hmax, Hmin' by done. lia. }
  rewrite !sub64_Ok by (unfold is_u64 in *; lia). cbn [mbind outcome_bind]. eexists. split; [done|]. intros e He0. cbn.
  rewrite Hmax, Hmin' by done. lia.
Qed.

(** Does the block at [daa] above [parent] finalise epoch [e]? *)
Definition finalizes (L fd e : Z) (step : Z * Z) : bool :=
  match @epochs_finalized_at unit step.1 step.2 L fd with
  | Ok (Some (e_min, e_max)) => (e_min <=? e) && (e <=? e_max)
  | _ => false
  end.
Lemma finalizes_spec L fd e parent daa : is_u64 parent → is_u64 daa → daa < U64_MAX → is_u64 L → is_u64 fd → parent ≤ daa → 0 ≤ e →
  finalizes L fd e (parent, daa) = true ↔ parent < threshold L fd e ≤ daa.
Proof.
  intros. destruct (epochs_finalized_spec (E := unit) parent daa L fd) as (range & Hr & Hs); [done..|].
  unfold finalizes. cbn [fst snd]. rewrite Hr, <- Hs by done. destruct range as [[a b]|]; [|done]. lia.
Qed.

(** The DAA scores of a chain above [d], and its steps. *)
Fixpoint daa_chain (d : Z) (l : list Z) : Prop := match l with [] => True | d' :: l => d ≤ d' < U64_MAX ∧ daa_chain d' l end.
Fixpoint steps (d : Z) (l : list Z) : list (Z * Z) := match l with [] => [] | d' :: l => (d, d') :: steps d' l end.

Lemma no_step_below L fd e d l : is_u64 d → is_u64 L → is_u64 fd → 0 ≤ e → daa_chain d l → threshold L fd e ≤ d →
  filter (λ s, finalizes L fd e s = true) (steps d l) = [].
Proof.
  intros Hd HL Hf He. revert d Hd. induction l as [|d' l IH]; intros d Hd Hc Ht; [done|]. cbn [steps daa_chain] in *.
  destruct Hc as [Hdd Hc]. rewrite filter_cons_False.
  - apply IH; [unfold is_u64 in *; lia | done | lia].
  - rewrite finalizes_spec; unfold is_u64 in *; lia.
Qed.

(** Every epoch is finalised exactly once: along a chain whose DAA scores
    never decrease from [d0], the quality bonus of an epoch is due in exactly
    one block if its threshold lies above [d0] and at or below the last score,
    and in none otherwise. *)
Theorem epoch_finalized_exactly_once L fd e d0 chain : is_u64 d0 → is_u64 L → is_u64 fd → 0 ≤ e → daa_chain d0 chain →
  length (filter (λ s, finalizes L fd e s = true) (steps d0 chain)) =
    if bool_decide (d0 < threshold L fd e ≤ default d0 (last chain)) then 1%nat else 0%nat.
Proof.
  intros Hd HL Hf He. revert d0 Hd. induction chain as [|d' l IH]; intros d Hd Hc.
  { cbn. rewrite bool_decide_false; [done|lia]. }
  destruct Hc as [Hdd Hc]. assert (is_u64 d') as Hd' by (unfold is_u64 in *; lia). cbn [steps]. rewrite last_cons.
  assert (d' ≤ default d' (last l)) as Hlast.
  { clear -Hc. revert d' Hc. induction l as [|x l IH]; intros d' Hc; cbn [daa_chain] in *; [cbn; lia|].
    rewrite last_cons. destruct Hc as [Hx Hc]. specialize (IH x Hc). destruct (last l); cbn in *; lia. }
  replace (default d (match last l with Some y => Some y | None => Some d' end)) with (default d' (last l)) by (by destruct (last l)).
  destruct (decide (finalizes L fd e (d, d') = true)) as [Hfin|Hfin].
  - rewrite filter_cons_True by done. rewrite finalizes_spec in Hfin by (done || lia).
    rewrite no_step_below by (done || lia). rewrite bool_decide_true; [done | lia].
  - rewrite filter_cons_False by done. rewrite finalizes_spec in Hfin by (done || lia). rewrite (IH d' Hd' Hc).
    rewrite (bool_decide_ext (d < threshold L fd e ≤ default d' (last l)) (d' < threshold L fd e ≤ default d' (last l))); [done|]. lia.
Qed.
