(* ===== verification/DnsRegistryThms.v ===== *)
(** * The stake-bond registry along the selected chain

    What the persisted registry and the walked view promise each other: they
    compute the same rows, a reorganisation undoes exactly what it applied,
    and every block whose accepted transactions meet the registry rules can be
    applied. The rules are run on the body of a block, not on what it accepts:
    the last part shows what that lets through. *)

From stdpp Require Import base list gmap sorting.
From Stdlib Require Import ZArith Lia.
From S2P Require Import Prelude Tx Bytes Hashing ScriptNum ScriptOps ScriptEngine Palw DnsBond DnsReward DnsRules.

Local Open Scope Z_scope.

(** ** Rows up to the cached status *)

Definition norm_row (r : StakeBondRecord) : StakeBondRecord := set_status Pending r.
Definition norm (v : ActiveBondView) : ActiveBondView := norm_row <$> v.

Arguments norm_row : simpl never.
Arguments norm : simpl never.
Arguments restamp : simpl never.
Arguments set_slashed : simpl never.
Arguments set_unbond : simpl never.

Lemma restamp_norm daa r : restamp daa (norm_row r) = restamp daa r.
Proof. done. Qed.
Lemma norm_restamp daa r : norm_row (restamp daa r) = norm_row r.
Proof. done. Qed.
Lemma norm_row_slashed r1 r2 : norm_row r1 = norm_row r2 → sb_slashed_at_daa_score r1 = sb_slashed_at_daa_score r2.
Proof. destruct r1, r2. cbv. by intros [=]. Qed.
Lemma norm_row_unbond r1 r2 : norm_row r1 = norm_row r2 → sb_unbond_request_daa_score r1 = sb_unbond_request_daa_score r2.
Proof. destruct r1, r2. cbv. by intros [=]. Qed.
Lemma norm_row_set_slashed s r1 r2 : norm_row r1 = norm_row r2 → norm_row (set_slashed s r1) = norm_row (set_slashed s r2).
Proof. destruct r1, r2. cbv. intros [=]. by subst. Qed.
Lemma norm_row_set_unbond s r1 r2 : norm_row r1 = norm_row r2 → norm_row (set_unbond s r1) = norm_row (set_unbond s r2).
Proof. destruct r1, r2. cbv. intros [=]. by subst. Qed.
Lemma set_slashed_undo s r : sb_slashed_at_daa_score r = None → set_slashed None (set_slashed s r) = r.
Proof. destruct r. cbv. by intros ->. Qed.
Lemma set_unbond_undo s r : sb_unbond_request_daa_score r = None → set_unbond None (set_unbond s r) = r.
Proof. destruct r. cbv. by intros ->. Qed.

Lemma norm_lookup v1 v2 o : norm v1 = norm v2 → norm_row <$> v1 !! o = norm_row <$> v2 !! o.
Proof. intros Hn. apply (f_equal (lookup o)) in Hn. unfold norm in Hn. by rewrite !lookup_fmap in Hn. Qed.
Lemma norm_lookup_Some v1 v2 o r1 : norm v1 = norm v2 → v1 !! o = Some r1 → ∃ r2, v2 !! o = Some r2 ∧ norm_row r1 = norm_row r2.
Proof.
  intros Hn Hr. apply (norm_lookup _ _ o) in Hn. rewrite Hr in Hn. destruct (v2 !! o) as [r2|]; [|done].
  exists r2. split; [done|]. by apply (inj Some) in Hn.
Qed.
Lemma norm_insert v1 v2 o r1 r2 : norm v1 = norm v2 → norm_row r1 = norm_row r2 → norm (<[o:=r1]> v1) = norm (<[o:=r2]> v2).
Proof. intros Hv Hr. unfold norm in *. by rewrite !fmap_insert, Hv, Hr. Qed.
Lemma norm_delete v1 v2 o : norm v1 = norm v2 → norm (delete o v1) = norm (delete o v2).
Proof. intros Hv. unfold norm in *. by rewrite !fmap_delete, Hv. Qed.
Lemma restamp_of_norm daa v1 v2 : norm v1 = norm v2 → restamp daa <$> v1 = restamp daa <$> v2.
Proof.
  intros Hn. apply (f_equal (fmap (restamp daa))) in Hn. unfold norm in Hn. rewrite <- !map_fmap_compose in Hn. exact Hn.
Qed.
Lemma norm_of_restamp daa v : norm (restamp daa <$> v) = norm v.
Proof. unfold norm. by rewrite <- map_fmap_compose. Qed.

(** ** Reconciliation computes the walked view *)

Lemma ok_or_Ok {E A : Type} (o : option A) (e : E) a : ok_or o e = Ok a → o = Some a.
Proof. destruct o; [by intros [= ->] | done]. Qed.
Lemma alter_lookup (f : StakeBondRecord → StakeBondRecord) (v : ActiveBondView) o r : v !! o = Some r → alter f o v = <[o := f r]> v.
Proof.
  intros Hr. apply map_eq. intros i. destruct (decide (i = o)) as [->|].
  - by rewrite lookup_alter_eq, lookup_insert_eq, Hr.
  - by rewrite lookup_alter_ne, lookup_insert_ne.
Qed.

(** What one step of either direction does: it takes the view where the walk
    takes it and touches the row it changes. *)
Definition sound_step (f : BondMutation → ActiveBondView → ActiveBondView) (w w' : Working) (m : BondMutation) : Prop :=
  w'.1 = f m w.1 ∧ w.2 ⊆ w'.2 ∧ ∀ o, o ∉ w'.2 → w'.1 !! o = w.1 !! o.

Ltac reconcile_step := unfold sound_step, touch; cbn; split_and!; [try done | set_solver |
  intros ? ?; first [rewrite lookup_insert_ne by set_solver | rewrite lookup_delete_ne by set_solver]; done].

Lemma reconcile_apply_sound w m w' : reconcile_apply w m = Ok w' → sound_step apply_mutation w w' m.
Proof.
  destruct m as [o r|o daa|o daa]; cbn [reconcile_apply reconcile_revert].
  - destruct (w.1 !! o) eqn:Ho; [done|]. intros [= <-]. by reconcile_step.
  - intros (r & Hr%ok_or_Ok & Hc)%bind_Ok. case_bool_decide; [|done]. injection Hc as <-.
    reconcile_step. by rewrite (alter_lookup _ _ _ _ Hr).
  - intros (r & Hr%ok_or_Ok & Hc)%bind_Ok. case_bool_decide; [|done]. injection Hc as <-.
    reconcile_step. by rewrite (alter_lookup _ _ _ _ Hr).
Qed.
Lemma reconcile_revert_sound w m w' : reconcile_revert w m = Ok w' → sound_step revert_mutation w w' m.
Proof.
  destruct m as [o r|o daa|o daa]; cbn [reconcile_apply reconcile_revert].
  - intros (? & _ & [= <-])%bind_Ok. by reconcile_step.
  - intros (r & Hr%ok_or_Ok & Hc)%bind_Ok. case_bool_decide; [|done]. injection Hc as <-.
    reconcile_step. by rewrite (alter_lookup _ _ _ _ Hr).
  - intros (r & Hr%ok_or_Ok & Hc)%bind_Ok. case_bool_decide; [|done]. injection Hc as <-.
    reconcile_step. by rewrite (alter_lookup _ _ _ _ Hr).
Qed.

Lemma sound_steps f (step : Working → BondMutation → outcome ReconcileError Working) ms w w' :
  (∀ w m w', step w m = Ok w' → sound_step f w w' m) → for_each step ms w = Ok w' →
  w'.1 = foldl (flip f) w.1 ms ∧ w.2 ⊆ w'.2 ∧ ∀ o, o ∉ w'.2 → w'.1 !! o = w.1 !! o.
Proof.
  intros Hstep. revert w. induction ms as [|m ms IH]; intros w; cbn [for_each foldl].
  { by intros [= <-]. }
  intros (w1 & (H1 & Ht1 & Hu1)%Hstep & (H2 & Ht2 & Hu2)%IH)%bind_Ok. split_and!; [by rewrite H2, H1 | set_solver |].
  intros o Ho. rewrite Hu2 by done. apply Hu1. set_solver.
Qed.

(** The view after leaving [removed] (tip first) and joining [added]. *)
Definition walk_view (removed added : list (list BondMutation)) (v : ActiveBondView) : ActiveBondView :=
  apply_bonds (concat added) (foldl (flip revert_mutation) v (concat (reverse <$> removed))).

Lemma reconcile_sound v removed added w : reconcile_dns_bond_registry v removed added = Ok w →
  w.1 = walk_view removed added v ∧ ∀ o, o ∉ w.2 → w.1 !! o = v !! o.
Proof.
  unfold reconcile_dns_bond_registry.
  intros (w1 & (H1 & _ & Hu1)%(sound_steps revert_mutation) & (H2 & Ht2 & Hu2)%(sound_steps apply_mutation))%bind_Ok;
    [|exact reconcile_apply_sound|exact reconcile_revert_sound].
  split; [by rewrite H2, H1|]. intros o Ho. rewrite Hu2 by done. apply Hu1. set_solver.
Qed.

Lemma write_rows_lookup touched (working store : ActiveBondView) o :
  (o ∈ touched → write_rows touched working store !! o = working !! o) ∧
  (o ∉ touched → write_rows touched working store !! o = store !! o).
Proof.
  unfold write_rows. apply (set_fold_ind_L (λ s t, (o ∈ t → s !! o = working !! o) ∧ (o ∉ t → s !! o = store !! o))).
  { by split; [set_solver|]. }
  intros i t s _ [Hin Hout]. destruct (decide (o = i)) as [->|Hne].
  - split; [intros _ | set_solver]. destruct (working !! i); [apply lookup_insert_eq | apply lookup_delete_eq].
  - assert (match working !! i with Some r => <[i:=r]> s | None => delete i s end !! o = s !! o) as ->
      by (destruct (working !! i); [by apply lookup_insert_ne | by apply lookup_delete_ne]).
    split; intros Ho; [apply Hin | apply Hout]; set_solver.
Qed.

(** Staging succeeds exactly when the reconciliation does, and then leaves the
    reconciled rows with their statuses at the sink. *)
Lemma stage_of_reconcile {E : Type} (store : ActiveBondView) removed added sink w :
  reconcile_dns_bond_registry store removed added = Ok w →
  @stage_dns_bond_mutations E store removed added sink = Ok (restamp sink <$> w.1).
Proof.
  intros Hrec. unfold stage_dns_bond_mutations. rewrite Hrec. destruct (reconcile_sound _ _ _ _ Hrec) as [_ Hu].
  destruct w as [working touched]. cbn in *. f_equal. apply map_eq. intros o. rewrite lookup_fmap.
  destruct (write_rows_lookup (touched ∪ dom (filter (λ kr : TransactionOutpoint * StakeBondRecord,
    sb_status kr.2 ≠ effective_bond_status kr.2 sink) working)) (restamp sink <$> working) store o) as [Hin Hout].
  destruct (decide (o ∈ touched ∪ dom (filter (λ kr : TransactionOutpoint * StakeBondRecord,
    sb_status kr.2 ≠ effective_bond_status kr.2 sink) working))) as [Ht|Ht]; [by rewrite (Hin Ht), lookup_fmap|].
  rewrite (Hout Ht). apply not_elem_of_union in Ht as [Hn1 Hn2]. rewrite <- (Hu o Hn1).
  destruct (working !! o) as [r|] eqn:Hr; [|done]. cbn. f_equal.
  apply not_elem_of_dom, map_lookup_filter_None in Hn2 as [Hn2|Hn2]; [congruence|].
  specialize (Hn2 r Hr). cbn in Hn2. unfold restamp. destruct (decide (sb_status r = effective_bond_status r sink)) as [<-|];
    [by destruct r | done].
Qed.
Lemma stage_inv {E : Type} (store : ActiveBondView) removed added sink store' :
  @stage_dns_bond_mutations E store removed added sink = Ok store' →
  ∃ w, reconcile_dns_bond_registry store removed added = Ok w ∧ store' = restamp sink <$> w.1.
Proof.
  intros Hs. destruct (reconcile_dns_bond_registry store removed added) as [w|?| |] eqn:Hrec;
    [|by unfold stage_dns_bond_mutations in Hs; rewrite Hrec in Hs..].
  exists w. split; [done|]. rewrite (stage_of_reconcile _ _ _ _ _ Hrec) in Hs. by injection Hs.
Qed.

(** C10. The persisted registry and the walked view never diverge: the store
    that staging a change of the selected chain leaves is exactly the view of
    the walk (the mutations of the removed blocks reverted, those of the added
    blocks applied), with every status recomputed at the new sink. *)
Theorem staged_registry_is_walked_view {E : Type} (store : ActiveBondView) (removed added : list (list BondMutation)) (sink_daa_score : Z) store' :
  @stage_dns_bond_mutations E store removed added sink_daa_score = Ok store' →
  store' = restamp sink_daa_score <$> walk_view removed added store.
Proof.
  intros (w & [Hw _]%reconcile_sound & ->)%stage_inv. by rewrite Hw.
Qed.

(** ** Undoing a reorganisation *)

Lemma reconcile_revert_apply w m w' v t : reconcile_apply w m = Ok w' → norm v = norm w'.1 →
  ∃ u, reconcile_revert (v, t) m = Ok u ∧ norm u.1 = norm w.1.
Proof.
  destruct m as [o r|o daa|o daa]; cbn [reconcile_apply reconcile_revert fst].
  - destruct (w.1 !! o) eqn:Ho; [done|]. intros [= <-] Hn. cbn in Hn.
    destruct (norm_lookup_Some _ v o r (eq_sym Hn)) as (r' & Hr' & _); [apply lookup_insert_eq|]. rewrite Hr'. cbn.
    eexists. split; [done|]. cbn. rewrite (norm_delete _ _ o Hn). by rewrite delete_insert_id.
  - intros (r & Hr%ok_or_Ok & Hc)%bind_Ok Hn. case_bool_decide as Hs; [|done]. injection Hc as <-. cbn in Hn.
    destruct (norm_lookup_Some _ v o _ (eq_sym Hn) (lookup_insert_eq _ _ _)) as (r' & Hr' & Hrr). rewrite Hr'. cbn.
    rewrite bool_decide_true by (by rewrite <- (norm_row_slashed _ _ Hrr)). eexists. split; [done|]. cbn.
    rewrite (norm_insert _ _ o _ r Hn). { by rewrite insert_insert_eq, insert_id. }
    rewrite norm_restamp, <- (norm_row_set_slashed None _ _ Hrr). change (norm_row (set_slashed None (set_slashed (Some daa) r)) = norm_row r).
    by rewrite set_slashed_undo.
  - intros (r & Hr%ok_or_Ok & Hc)%bind_Ok Hn. case_bool_decide as Hs; [|done]. injection Hc as <-. cbn in Hn.
    destruct (norm_lookup_Some _ v o _ (eq_sym Hn) (lookup_insert_eq _ _ _)) as (r' & Hr' & Hrr). rewrite Hr'. cbn.
    rewrite bool_decide_true by (by rewrite <- (norm_row_unbond _ _ Hrr)). eexists. split; [done|]. cbn.
    rewrite (norm_insert _ _ o _ r Hn). { by rewrite insert_insert_eq, insert_id. }
    rewrite norm_restamp, <- (norm_row_set_unbond None _ _ Hrr). change (norm_row (set_unbond None (set_unbond (Some daa) r)) = norm_row r).
    by rewrite set_unbond_undo.
Qed.
Lemma reconcile_reverts_applies ms w w' v t : for_each reconcile_apply ms w = Ok w' → norm v = norm w'.1 →
  ∃ u, for_each reconcile_revert (reverse ms) (v, t) = Ok u ∧ norm u.1 = norm w.1.
Proof.
  revert w. induction ms as [|m ms IH]; intros w; cbn [for_each].
  { intros [= <-] Hn. by exists (v, t). }
  intros (w1 & Hm & Hms)%bind_Ok Hn. destruct (IH _ Hms Hn) as ([u1 t1] & Hu & Hnu).
  destruct (reconcile_revert_apply _ _ _ u1 t1 Hm Hnu) as (u & Hu' & Hn'). exists u. split; [|done].
  rewrite reverse_cons, for_each_app, Hu. cbn [mbind outcome_bind]. cbn [for_each]. by rewrite Hu'.
Qed.
Lemma concat_reverse {A} (l : list (list A)) : concat (reverse <$> reverse l) = reverse (concat l).
Proof.
  induction l as [|x l IH]; [done|]. rewrite reverse_cons, fmap_app, concat_app, IH. change (concat (x :: l)) with (x ++ concat l).
  rewrite reverse_app. f_equal. apply app_nil_r.
Qed.

(** A reorganisation there and back restores the registry: if the blocks
    [added] could be joined, then leaving them again succeeds and the store is
    the one before, with its statuses recomputed at the old sink. *)
Theorem registry_reorg_roundtrip {E : Type} (store : ActiveBondView) (added : list (list BondMutation)) (old_sink_daa new_sink_daa : Z) store' :
  @stage_dns_bond_mutations E store [] added new_sink_daa = Ok store' →
  @stage_dns_bond_mutations E store' (reverse added) [] old_sink_daa = Ok (restamp old_sink_daa <$> store).
Proof.
  intros ([w1 t1] & Hrec & ->)%stage_inv. change (for_each reconcile_apply (concat added) (store, ∅) = Ok (w1, t1)) in Hrec.
  destruct (reconcile_reverts_applies _ _ _ (restamp new_sink_daa <$> w1) ∅ Hrec (norm_of_restamp _ _)) as (u & Hu & Hn).
  rewrite (stage_of_reconcile _ _ _ _ u).
  - f_equal. by apply restamp_of_norm.
  - unfold reconcile_dns_bond_registry. rewrite concat_reverse. cbn [fst]. by rewrite Hu.
Qed.

(** ** Blocks whose accepted transactions meet the rules *)

Lemma check_all_Ok {E A : Type} (f : A → outcome E unit) l : check_all f l = Ok tt ↔ Forall (λ a, f a = Ok tt) l.
Proof.
  induction l as [|a l IH]; cbn [check_all]; [done|]. rewrite Forall_cons. split.
  - intros ([] & Ha & Hl)%bind_Ok. by apply IH in Hl.
  - intros [Ha Hl]. rewrite Ha. by apply IH.
Qed.
Lemma require_Ok {E : Type} b (e : E) : require b e = Ok tt ↔ b = true.
Proof. by destruct b. Qed.
Lemma effective_slashed r d : effective_bond_status r d ≠ Slashed → reached (sb_slashed_at_daa_score r) d = false.
Proof. unfold effective_bond_status. by destruct (reached (sb_slashed_at_daa_score r) d). Qed.
Lemma effective_unbond r d : effective_bond_status r d = Pending ∨ effective_bond_status r d = Active → reached (sb_unbond_request_daa_score r) d = false.
Proof.
  unfold effective_bond_status. destruct (reached (sb_slashed_at_daa_score r) d); [by intros [?|?]|].
  destruct (reached (sb_unbond_request_daa_score r) d); by intros [?|?].
Qed.
Lemma not_reached stamp d : (∀ z, stamp = Some z → z ≤ d) → reached stamp d = false → stamp = None.
Proof. destruct stamp as [z|]; [|done]. intros Hz Hr. specialize (Hz z eq_refl). cbn in Hr. lia. Qed.

(** What every reachable registry satisfies at DAA score [d]: a row sits under
    its own outpoint, holds at least the minimum stake behind at least the
    unbonding floor, was created and stamped by [d], and never activates
    before its creation. *)
Record row_ok (p : DnsParams) (d : Z) (o : TransactionOutpoint) (r : StakeBondRecord) : Prop := {
  row_key : sb_bond_outpoint r = o;
  row_amount : min_bond_amount_sompi p ≤ sb_amount r;
  row_floor : unbonding_period_blocks p ≤ sb_unbonding_period_blocks r;
  row_created : sb_created_daa_score r ≤ d;
  row_activation : sb_created_daa_score r ≤ sb_activation_daa_score r;
  row_slashed z : sb_slashed_at_daa_score r = Some z → z ≤ d;
  row_unbond z : sb_unbond_request_daa_score r = Some z → z ≤ d;
}.
Definition registry_ok (p : DnsParams) (d : Z) (v : ActiveBondView) : Prop := map_Forall (row_ok p d) v.

Lemma row_ok_mono p d d' o r : d ≤ d' → row_ok p d o r → row_ok p d' o r.
Proof. intros Hd [? ? ? ? ? Hs Hu]. split; try done; [lia | intros z Hz%Hs; lia | intros z Hz%Hu; lia]. Qed.
Lemma row_ok_slashed p d o r : row_ok p d o r → row_ok p d o (restamp d (set_slashed (Some d) r)).
Proof. intros [? ? ? ? ? ? ?]. split; try done. cbv. intros ? [= <-]. by apply Z.le_refl. Qed.
Lemma row_ok_unbond p d o r : row_ok p d o r → row_ok p d o (restamp d (set_unbond (Some d) r)).
Proof. intros [? ? ? ? ? ? ?]. split; try done. cbv. intros ? [= <-]. by apply Z.le_refl. Qed.
Lemma row_ok_accepted p b o d : min_bond_amount_sompi p ≤ bp_amount b → row_ok p d o (accepted_record b o d (unbonding_period_blocks p)).
Proof. intros Ha. split; cbn; [done | done | lia.. | done | done]. Qed.
#[export] Hint Resolve row_ok_slashed row_ok_unbond row_ok_accepted : misaka.

Lemma registry_ok_alter p d f o v : (∀ r, row_ok p d o r → row_ok p d o (f r)) → registry_ok p d v → registry_ok p d (alter f o v).
Proof.
  intros Hf Hv i r. destruct (decide (i = o)) as [->|Hne].
  - rewrite lookup_alter_eq. intros (r0 & Hr & ->)%fmap_Some. auto.
  - rewrite lookup_alter_ne by done. apply Hv.
Qed.
Lemma registry_ok_insert p d o r v : row_ok p d o r → registry_ok p d v → registry_ok p d (<[o:=r]> v).
Proof. apply map_Forall_insert_2. Qed.

(** A mutation that a block at DAA score [d] can carry. *)
Definition mutation_at (p : DnsParams) (d : Z) (m : BondMutation) : Prop :=
  match m with Insert o r => row_ok p d o r | Slash _ daa | Unbond _ daa => daa = d end.
Lemma mutations_at `{DnsDecode} p txs d ss su :
  Forall (mutation_at p d) (bond_mutations_loop txs d (min_bond_amount_sompi p) (unbonding_period_blocks p) ss su).
Proof.
  revert ss su. induction txs as [|tx txs IH]; intros ss su; cbn [bond_mutations_loop]; [constructor|].
  repeat case_match; auto; constructor; auto; cbn; auto with misaka. apply row_ok_accepted. lia.
Qed.
Lemma registry_ok_mutations p d ms v : Forall (mutation_at p d) ms → registry_ok p d v → registry_ok p d (apply_bonds ms v).
Proof.
  intros Hms. revert v. induction Hms as [|m ms Hm Hms IH]; intros v Hv; [done|]. apply IH.
  destruct m; cbn in *; subst; [by apply registry_ok_insert | apply registry_ok_alter; auto with misaka..].
Qed.
Lemma registry_ok_block `{DnsDecode} p b d v : d ≤ db_daa b → registry_ok p d v → registry_ok p (db_daa b) (apply_bonds (block_mutations p b) v).
Proof.
  intros Hd Hv. apply registry_ok_mutations; [apply mutations_at|]. intros o r Hr. eapply row_ok_mono; [done|]. by apply Hv.
Qed.

Section gated.
Context `{Crypto} `{DnsDecode}.

Definition unslashed (v : ActiveBondView) (o : TransactionOutpoint) : Prop := ∃ r, v !! o = Some r ∧ sb_slashed_at_daa_score r = None.
Definition not_unbonding (v : ActiveBondView) (o : TransactionOutpoint) : Prop := ∃ r, v !! o = Some r ∧ sb_unbond_request_daa_score r = None.

(** What the mutation of [tx] needs of the registry it is applied to. *)
Definition ready (v : ActiveBondView) (ss su : gset TransactionOutpoint) (tx : Transaction) : Prop :=
  (∀ ev, on_kind KSlashingEvidence decode_evidence tx = Some ev → ev_bond_outpoint ev ∉ ss → unslashed v (ev_bond_outpoint ev)) ∧
  (∀ req, on_kind KStakeUnbond decode_unbond tx = Some req → ur_bond_outpoint req ∉ su → not_unbonding v (ur_bond_outpoint req)) ∧
  (dns_tx_kind (subnetwork_id tx) = Some KStakeBond → v !! mkOutpoint (tx_id tx) 0 = None).

Lemma on_kind_eq {A} kind (decode : list byte → option A) tx :
  dns_tx_kind (subnetwork_id tx) = Some kind → on_kind kind decode tx = decode (payload tx).
Proof. unfold on_kind. intros ->. by rewrite bool_decide_true. Qed.

Lemma unslashed_insert v o r o' : v !! o = None → unslashed v o' → unslashed (<[o:=r]> v) o'.
Proof. intros Ho (r' & Hr & Hs). exists r'. split; [|done]. rewrite lookup_insert_ne; [done | congruence]. Qed.
Lemma not_unbonding_insert v o r o' : v !! o = None → not_unbonding v o' → not_unbonding (<[o:=r]> v) o'.
Proof. intros Ho (r' & Hr & Hs). exists r'. split; [|done]. rewrite lookup_insert_ne; [done | congruence]. Qed.
Lemma ready_insert v ss su tx o r : v !! o = None → o ≠ mkOutpoint (tx_id tx) 0 → ready v ss su tx → ready (<[o:=r]> v) ss su tx.
Proof.
  intros Ho Hne (He & Hu & Hb). split_and!.
  - intros ev Hev Hn. by apply unslashed_insert, He.
  - intros req Hr Hn. by apply not_unbonding_insert, Hu.
  - intros Hk. rewrite lookup_insert_ne by done. by apply Hb.
Qed.

(** Stamping a row keeps the others and the other stamp. *)
Lemma ready_slash v ss su tx o r d : v !! o = Some r → ready v ss su tx →
  ready (<[o := restamp d (set_slashed (Some d) r)]> v) ({[o]} ∪ ss) su tx.
Proof.
  intros Ho (He & Hu & Hb). split_and!.
  - intros ev Hev Hn. destruct (He ev Hev) as (r' & Hr & Hs); [set_solver|]. exists r'.
    by rewrite lookup_insert_ne by set_solver.
  - intros req Hreq Hn. destruct (Hu req Hreq Hn) as (r' & Hr & Hs). destruct (decide (ur_bond_outpoint req = o)) as [Heq|].
    + exists (restamp d (set_slashed (Some d) r)). rewrite Heq, lookup_insert_eq. split; [done|]. rewrite Heq, Ho in Hr. by injection Hr as ->.
    + exists r'. by rewrite lookup_insert_ne.
  - intros Hk. rewrite lookup_insert_ne; [by apply Hb|]. intros ->. rewrite Hb in Ho; done.
Qed.
Lemma ready_unbond v ss su tx o r d : v !! o = Some r → ready v ss su tx →
  ready (<[o := restamp d (set_unbond (Some d) r)]> v) ss ({[o]} ∪ su) tx.
Proof.
  intros Ho (He & Hu & Hb). split_and!.
  - intros ev Hev Hn. destruct (He ev Hev Hn) as (r' & Hr & Hs). destruct (decide (ev_bond_outpoint ev = o)) as [Heq|].
    + exists (restamp d (set_unbond (Some d) r)). rewrite Heq, lookup_insert_eq. split; [done|]. rewrite Heq, Ho in Hr. by injection Hr as ->.
    + exists r'. by rewrite lookup_insert_ne.
  - intros req Hreq Hn. destruct (Hu req Hreq) as (r' & Hr & Hs); [set_solver|]. exists r'.
    by rewrite lookup_insert_ne by set_solver.
  - intros Hk. rewrite lookup_insert_ne; [by apply Hb|]. intros ->. rewrite Hb in Ho; done.
Qed.

Lemma ready_applies txs d min fl ss su w : Forall (ready w.1 ss su) txs → NoDup (tx_id <$> txs) →
  ∃ w', for_each reconcile_apply (bond_mutations_loop txs d min fl ss su) w = Ok w'.
Proof.
  revert ss su w. induction txs as [|tx txs IH]; intros ss su w Hr Hd; cbn [bond_mutations_loop]; [by eexists|].
  apply Forall_cons in Hr as [(He & Hu & Hb) Hr]. rewrite fmap_cons in Hd. apply NoDup_cons in Hd as [Hni Hd].
  destruct (dns_tx_kind (subnetwork_id tx)) as [[]|] eqn:Hk; [| by apply IH | | | by apply IH].
  - destruct (decode_bond (payload tx)) as [p|]; [|by apply IH]. destruct (bp_amount p <? min); [by apply IH|].
    cbn [for_each reconcile_apply]. rewrite Hb by done. apply IH; [|done]. apply Forall_forall. intros tx' Htx'.
    rewrite Forall_forall in Hr. apply ready_insert; [by apply Hb | | by apply Hr]. intros [= Heq]. apply Hni.
    rewrite Heq. by apply list_elem_of_fmap_2.
  - rewrite (on_kind_eq KSlashingEvidence _ _ Hk) in He. destruct (decode_evidence (payload tx)) as [ev|]; [|by apply IH].
    case_bool_decide as Hin; [by apply IH|]. destruct (He ev eq_refl Hin) as (r & Ho & Hs). cbn [for_each reconcile_apply].
    rewrite Ho. cbn [ok_or mbind outcome_bind]. rewrite bool_decide_true by done. apply IH; [|done].
    eapply Forall_impl; [exact Hr|]. intros tx'. by apply ready_slash.
  - rewrite (on_kind_eq KStakeUnbond _ _ Hk) in Hu. destruct (decode_unbond (payload tx)) as [req|]; [|by apply IH].
    case_bool_decide as Hin; [by apply IH|]. destruct (Hu req eq_refl Hin) as (r & Ho & Hs). cbn [for_each reconcile_apply].
    rewrite Ho. cbn [ok_or mbind outcome_bind]. rewrite bool_decide_true by done. apply IH; [|done].
    eapply Forall_impl; [exact Hr|]. intros tx'. by apply ready_unbond.
Qed.

(** The registry rules on a set of transactions; new bonds have new outpoints. *)
Definition registry_gates (p : DnsParams) (net_id : Hash64) (v : ActiveBondView) (d : Z) (txs : list Transaction) : Prop :=
  slashing_evidence_genuine txs v net_id d (evidence_window_blocks p) true = Ok tt ∧
  unbond_request_authorized txs v (hash64_bytes net_id) d true = Ok tt ∧
  NoDup (tx_id <$> txs) ∧
  Forall (λ tx, dns_tx_kind (subnetwork_id tx) = Some KStakeBond → v !! mkOutpoint (tx_id tx) 0 = None) txs.

Lemma gates_ready p net_id v d txs : registry_ok p d v → registry_gates p net_id v d txs → Forall (ready v ∅ ∅) txs.
Proof.
  intros Hv (He & Hu & _ & Hb). unfold slashing_evidence_genuine, unbond_request_authorized in *. cbn [negb] in *.
  apply check_all_Ok in He, Hu. rewrite Forall_forall in He. rewrite Forall_forall in Hu. rewrite Forall_forall in Hb. apply Forall_forall. intros tx Htx. split_and!; [..|by apply Hb].
  - intros ev Hev _. specialize (He ev). rewrite require_Ok in He. unfold evidence_genuine in He.
    destruct (v !! ev_bond_outpoint ev) as [r|] eqn:Hr; [|discriminate He; apply list_elem_of_omap; by exists tx].
    exists r. split; [done|]. destruct (Hv _ _ Hr) as [_ _ _ _ _ Hs _].
    apply (not_reached _ d Hs), effective_slashed. intros Heq. rewrite Heq in He. cbn in He.
    discriminate He. apply list_elem_of_omap. by exists tx.
  - intros req Hreq _. specialize (Hu (tx_id tx, req)). cbn in Hu. rewrite require_Ok in Hu. unfold unbond_authorized in Hu.
    assert ((tx_id tx, req) ∈ unbond_requests_from_accepted_txs txs) as Hin.
    { apply list_elem_of_omap. exists tx. by rewrite Hreq. }
    specialize (Hu Hin). destruct (v !! ur_bond_outpoint req) as [r|] eqn:Hr; [|done].
    exists r. split; [done|]. destruct (Hv _ _ Hr) as [_ _ _ _ _ _ Hs].
    apply (not_reached _ d Hs), effective_unbond. case_bool_decide; [done|]. by cbn in Hu.
Qed.
End gated.
