(* ===== verification/DnsRegistryClaims.v ===== *)
(** * Chains of blocks and the stake-bond registry

    The registry of every chain is the record of the bonds, slashings and
    unbond requests its blocks accept; a chain whose accepted
    transactions meet the registry rules can always be staged. The rules are
    run on the body of a block against the view of its selected parent, while
    the registry changes by the transactions the block accepts from its merge
    set: two theorems show that valid chains can nevertheless abort the
    process, and that evidence in a merged block is never checked. *)

From stdpp Require Import base list gmap sorting.
From Stdlib Require Import ZArith Lia.
From S2P Require Import Prelude Tx Bytes Hashing ScriptNum ScriptOps ScriptEngine Palw DnsBond DnsReward DnsRules DnsRegistryThms.

Local Open Scope Z_scope.

Section chains.
Context `{Crypto} `{DnsDecode}.

(** DAA scores never decrease along a chain. *)
Fixpoint daa_increasing (d : Z) (chain : list DnsBlock) : Prop :=
  match chain with [] => True | b :: chain => d ≤ db_daa b ∧ daa_increasing (db_daa b) chain end.
Definition chain_daa (d : Z) (chain : list DnsBlock) : Z := default d (db_daa <$> last chain).

Lemma chain_daa_cons d b chain : chain_daa d (b :: chain) = chain_daa (db_daa b) chain.
Proof. unfold chain_daa. rewrite last_cons. by destruct (last chain). Qed.
Lemma walk_registry_ok p net_id chain d v v' : daa_increasing d chain → registry_ok p d v → walk_chain p net_id v chain = Ok v' →
  registry_ok p (chain_daa d chain) v'.
Proof.
  revert d v. induction chain as [|b chain IH]; intros d v; cbn [walk_chain daa_increasing].
  { by intros _ Hv [= <-]. }
  intros [Hd Hi] Hv ([] & _ & Hw)%bind_Ok. rewrite chain_daa_cons. eapply IH; [done| |done]. by eapply registry_ok_block.
Qed.

(** ** The history of a row *)

(** What the transactions a block accepts do to the bond at [o]: create it with
    payload [bp], slash it, request its unbonding. *)
Definition creates (p : DnsParams) (o : TransactionOutpoint) (bp : StakeBondPayload) (b : DnsBlock) : Prop :=
  ∃ tx, tx ∈ db_accepted b ∧ on_kind KStakeBond decode_bond tx = Some bp ∧ min_bond_amount_sompi p ≤ bp_amount bp ∧ o = mkOutpoint (tx_id tx) 0.
Definition slashes (o : TransactionOutpoint) (b : DnsBlock) : Prop :=
  ∃ tx ev, tx ∈ db_accepted b ∧ on_kind KSlashingEvidence decode_evidence tx = Some ev ∧ ev_bond_outpoint ev = o.
Definition unbonds (o : TransactionOutpoint) (b : DnsBlock) : Prop :=
  ∃ tx req, tx ∈ db_accepted b ∧ on_kind KStakeUnbond decode_unbond tx = Some req ∧ ur_bond_outpoint req = o.

(** The row of payload [bp], accepted by [b] at [o], apart from the stamps. *)
Record row_from (p : DnsParams) (o : TransactionOutpoint) (bp : StakeBondPayload) (b : DnsBlock) (r : StakeBondRecord) : Prop := {
  rf_version : sb_version r = bp_version bp;
  rf_outpoint : sb_bond_outpoint r = o;
  rf_owner : sb_owner_pubkey_hash r = bp_owner_pubkey_hash bp;
  rf_validator : sb_validator_pubkey_hash r = bp_validator_pubkey_hash bp;
  rf_key : sb_validator_pubkey r = bp_validator_pubkey bp;
  rf_amount : sb_amount r = bp_amount bp;
  rf_reward : sb_owner_reward_spk_payload r = bp_owner_reward_spk_payload bp;
  rf_created : sb_created_daa_score r = db_daa b;
  rf_activation : sb_activation_daa_score r = Z.max (bp_activation_daa_score bp) (db_daa b);
  rf_unbonding : sb_unbonding_period_blocks r = Z.max (bp_unbonding_period_blocks bp) (unbonding_period_blocks p);
  rf_never_dormant : sb_last_attested_epoch r = None ∧ sb_dormant_at_daa_score r = None ∧ sb_dormant_at_epoch r = None;
}.
(** The stamp [s] of a row created by [b]: the DAA score of the last block of
    [post] with the property, and without one no stamp or that of [b] itself. *)
Definition last_stamp (P : DnsBlock → Prop) (b : DnsBlock) (post : list DnsBlock) (s : option Z) : Prop :=
  (∃ post1 b' post2, post = post1 ++ b' :: post2 ∧ P b' ∧ (∀ b'', b'' ∈ post2 → ¬ P b'') ∧ s = Some (db_daa b')) ∨
  ((∀ b', b' ∈ post → ¬ P b') ∧ (s = None ∨ P b ∧ s = Some (db_daa b))).
Definition row_history (p : DnsParams) (chain : list DnsBlock) (o : TransactionOutpoint) (r : StakeBondRecord) : Prop :=
  ∃ pre b post bp, chain = pre ++ b :: post ∧ creates p o bp b ∧ row_from p o bp b r ∧
    (∀ b' bp', b' ∈ post → ¬ creates p o bp' b') ∧
    last_stamp (slashes o) b post (sb_slashed_at_daa_score r) ∧ last_stamp (unbonds o) b post (sb_unbond_request_daa_score r).

(** The mutations of a block, from its transactions. *)
Lemma insert_in p o r0 txs d ss su :
  Insert o r0 ∈ bond_mutations_loop txs d (min_bond_amount_sompi p) (unbonding_period_blocks p) ss su ↔
  ∃ tx bp, tx ∈ txs ∧ on_kind KStakeBond decode_bond tx = Some bp ∧ min_bond_amount_sompi p ≤ bp_amount bp ∧ o = mkOutpoint (tx_id tx) 0 ∧
    r0 = accepted_record bp o d (unbonding_period_blocks p).
Proof.
  revert ss su. induction txs as [|tx txs IH]; intros ss su; [set_solver|].
  trans ((∃ bp, on_kind KStakeBond decode_bond tx = Some bp ∧ min_bond_amount_sompi p ≤ bp_amount bp ∧ o = mkOutpoint (tx_id tx) 0 ∧
    r0 = accepted_record bp o d (unbonding_period_blocks p)) ∨ Insert o r0 ∈ bond_mutations_loop txs d (min_bond_amount_sompi p) (unbonding_period_blocks p) ss su);
    [|rewrite IH; set_solver].
  cbn [bond_mutations_loop]. unfold on_kind. destruct (dns_tx_kind (subnetwork_id tx)) as [[]|]; first [rewrite bool_decide_true by done | rewrite bool_decide_false by done].
  - destruct (decode_bond (payload tx)) as [bp|]; [|naive_solver]. destruct (bp_amount bp <? min_bond_amount_sompi p) eqn:Ha.
    + split; [by right|]. intros [(bp' & [= <-] & ? & _)|?]; [lia|done].
    + rewrite elem_of_cons, !IH. split; [intros [[= -> ->]|?]|intros [(bp' & [= <-] & _ & -> & ->)|?]]; [left; exists bp; split_and!; (done || lia)|by right|by left|by right].
  - naive_solver.
  - destruct (decode_evidence (payload tx)); [case_bool_decide|]; rewrite ?elem_of_cons, !IH; naive_solver.
  - destruct (decode_unbond (payload tx)); [case_bool_decide|]; rewrite ?elem_of_cons, !IH; naive_solver.
  - naive_solver.
Qed.

Lemma exists_cons {A B : Type} (P : A → B → Prop) (x : A) l : (∃ y c, y ∈ x :: l ∧ P y c) ↔ (∃ c, P x c) ∨ ∃ y c, y ∈ l ∧ P y c.
Proof. set_solver. Qed.
Lemma slash_in p o z txs d ss su :
  Slash o z ∈ bond_mutations_loop txs d (min_bond_amount_sompi p) (unbonding_period_blocks p) ss su ↔
  z = d ∧ o ∉ ss ∧ ∃ tx ev, tx ∈ txs ∧ on_kind KSlashingEvidence decode_evidence tx = Some ev ∧ ev_bond_outpoint ev = o.
Proof.
  revert ss su. induction txs as [|tx txs IH]; intros ss su; [set_solver|]. cbn [bond_mutations_loop]. rewrite exists_cons.
  unfold on_kind at 1. destruct (dns_tx_kind (subnetwork_id tx)) as [[]|]; first [rewrite bool_decide_true by done | rewrite bool_decide_false by done].
  - destruct (decode_bond (payload tx)) as [bp|]; [destruct (_ <? _)|]; rewrite ?elem_of_cons, !IH; naive_solver.
  - rewrite IH. naive_solver.
  - destruct (decode_evidence (payload tx)) as [ev|]; [case_bool_decide|]; rewrite ?elem_of_cons, !IH; [naive_solver| |naive_solver].
    destruct (decide (ev_bond_outpoint ev = o)) as [<-|]; set_solver.
  - destruct (decode_unbond (payload tx)); [case_bool_decide|]; rewrite ?elem_of_cons, !IH; naive_solver.
  - rewrite IH. naive_solver.
Qed.
Lemma unbond_in p o z txs d ss su :
  Unbond o z ∈ bond_mutations_loop txs d (min_bond_amount_sompi p) (unbonding_period_blocks p) ss su ↔
  z = d ∧ o ∉ su ∧ ∃ tx req, tx ∈ txs ∧ on_kind KStakeUnbond decode_unbond tx = Some req ∧ ur_bond_outpoint req = o.
Proof.
  revert ss su. induction txs as [|tx txs IH]; intros ss su; [set_solver|]. cbn [bond_mutations_loop]. rewrite exists_cons.
  unfold on_kind at 1. destruct (dns_tx_kind (subnetwork_id tx)) as [[]|]; first [rewrite bool_decide_true by done | rewrite bool_decide_false by done].
  - destruct (decode_bond (payload tx)) as [bp|]; [destruct (_ <? _)|]; rewrite ?elem_of_cons, !IH; naive_solver.
  - rewrite IH. naive_solver.
  - destruct (decode_evidence (payload tx)); [case_bool_decide|]; rewrite ?elem_of_cons, !IH; naive_solver.
  - destruct (decode_unbond (payload tx)) as [req|]; [case_bool_decide|]; rewrite ?elem_of_cons, !IH; [naive_solver| |naive_solver].
    destruct (decide (ur_bond_outpoint req = o)) as [<-|]; set_solver.
  - rewrite IH. naive_solver.
Qed.

(** The rows up to the stamps and the status. *)
Definition same_bond (r r' : StakeBondRecord) : Prop :=
  set_status Pending (set_unbond None (set_slashed None r)) = set_status Pending (set_unbond None (set_slashed None r')).
Definition stamp_after (P : Prop) (d : Z) (s s' : option Z) : Prop := (P ∧ s' = Some d) ∨ (¬ P ∧ s' = s).

(** What the mutations of a block at DAA score [d] leave at an outpoint. *)
Lemma apply_bonds_lookup ms v o d : Forall (λ m, match m with Insert _ _ => True | Slash _ z | Unbond _ z => z = d end) ms →
  (∃ r0 r, Insert o r0 ∈ ms ∧ apply_bonds ms v !! o = Some r ∧ same_bond r r0 ∧
    (sb_slashed_at_daa_score r = sb_slashed_at_daa_score r0 ∨ Slash o d ∈ ms ∧ sb_slashed_at_daa_score r = Some d) ∧
    (sb_unbond_request_daa_score r = sb_unbond_request_daa_score r0 ∨ Unbond o d ∈ ms ∧ sb_unbond_request_daa_score r = Some d)) ∨
  ((∀ r0, Insert o r0 ∉ ms) ∧
   ((v !! o = None ∧ apply_bonds ms v !! o = None) ∨
    ∃ r r', v !! o = Some r ∧ apply_bonds ms v !! o = Some r' ∧ same_bond r' r ∧
      stamp_after (Slash o d ∈ ms) d (sb_slashed_at_daa_score r) (sb_slashed_at_daa_score r') ∧
      stamp_after (Unbond o d ∈ ms) d (sb_unbond_request_daa_score r) (sb_unbond_request_daa_score r'))).
Proof.
  unfold stamp_after. induction ms as [|m ms IH] using rev_ind; intros Hd.
  { right. split; [set_solver|]. destruct (v !! o) as [r|] eqn:Hv; [right|by left]. exists r, r. split_and!; [done..|right; split; [apply not_elem_of_nil|done]|right; split; [apply not_elem_of_nil|done]]. }
  rewrite Forall_app, Forall_singleton in Hd. destruct Hd as [Hd Hm]. specialize (IH Hd). unfold apply_bonds in *. rewrite foldl_app. cbn [foldl flip].
  set (v1 := foldl _ v ms) in *. clearbody v1.
  assert (∀ x y, x ∈ ms ++ [y] ↔ x ∈ ms ∨ x = y) as Hin by (intros ??; rewrite elem_of_app, list_elem_of_singleton; done).
  destruct IH as [(r0 & r & H1 & H2 & H3 & H4 & H5)|(H1 & [(H2 & H3)|(r & r' & H2 & H3 & H4 & H5 & H6)])];
  destruct m as [o' r1|o' z|o' z]; cbn [apply_mutation]; subst;
    (destruct (decide (o' = o)) as [->|Hne]; rewrite ?lookup_insert_eq, ?lookup_alter_eq, ?lookup_insert_ne, ?lookup_alter_ne by done; rewrite ?H2, ?H3; cbn [fmap option_fmap option_map]);
    try (left; eexists _, _; split_and!; [apply Hin; by right|done|done|by left|by left]);
    try (left; eexists r0, _; split_and!; [apply Hin; by left|done|exact H3|rewrite Hin; cbn; intuition congruence..]);
    right; (split; [intros r2; rewrite Hin; specialize (H1 r2); intuition congruence|]); try (by left);
    right; eexists r, _; (split_and!; [done|done|exact H4|rewrite Hin; cbn; intuition congruence..]).
Qed.

Lemma row_from_same p o bp b r r' : same_bond r r' → row_from p o bp b r' → row_from p o bp b r.
Proof. unfold same_bond. intros Hs [??????????(?&?&?)]. injection Hs as ?????????????. split; [congruence..|split_and!; congruence]. Qed.
Lemma row_from_accepted p o bp b : row_from p o bp b (accepted_record bp o (db_daa b) (unbonding_period_blocks p)).
Proof. by split. Qed.
Lemma block_history p b v o : let v' := apply_bonds (block_mutations p b) v in
  (∃ bp r, creates p o bp b ∧ v' !! o = Some r ∧ row_from p o bp b r ∧
    (sb_slashed_at_daa_score r = None ∨ slashes o b ∧ sb_slashed_at_daa_score r = Some (db_daa b)) ∧
    (sb_unbond_request_daa_score r = None ∨ unbonds o b ∧ sb_unbond_request_daa_score r = Some (db_daa b))) ∨
  ((∀ bp, ¬ creates p o bp b) ∧
   ((v !! o = None ∧ v' !! o = None) ∨
    ∃ r r', v !! o = Some r ∧ v' !! o = Some r' ∧ same_bond r' r ∧
      stamp_after (slashes o b) (db_daa b) (sb_slashed_at_daa_score r) (sb_slashed_at_daa_score r') ∧
      stamp_after (unbonds o b) (db_daa b) (sb_unbond_request_daa_score r) (sb_unbond_request_daa_score r'))).
Proof.
  assert (Slash o (db_daa b) ∈ block_mutations p b ↔ slashes o b) as Hs by (unfold block_mutations, bond_mutations_from_accepted_txs; rewrite slash_in; set_solver).
  assert (Unbond o (db_daa b) ∈ block_mutations p b ↔ unbonds o b) as Hu by (unfold block_mutations, bond_mutations_from_accepted_txs; rewrite unbond_in; set_solver).
  cbv zeta. destruct (apply_bonds_lookup (block_mutations p b) v o (db_daa b)) as [(r0 & r & Hi & Hv & Hb & H1 & H2)|(Hi & Hv)].
  - eapply Forall_impl; [apply (mutations_at p (db_accepted b))|]. by intros [].
  - left. apply insert_in in Hi as (tx & bp & Htx & Hk & Ha & Ho & Hr0). exists bp, r. rewrite Hs in H1. rewrite Hu in H2.
    subst r0. split_and!; [by exists tx|done|eapply row_from_same; [exact Hb|apply row_from_accepted]|done|done].
  - right. unfold stamp_after in *. setoid_rewrite Hs in Hv. setoid_rewrite Hu in Hv. split; [|done]. intros bp (tx & Htx & Hk & Ha & Ho).
    eapply Hi, insert_in. by exists tx, bp.
Qed.

Lemma snoc_all {A : Type} (Q : A → Prop) l x : (∀ y, y ∈ l → Q y) → Q x → ∀ y, y ∈ l ++ [x] → Q y.
Proof. intros Hl Hx y [Hy| ->%list_elem_of_singleton]%elem_of_app; auto. Qed.
Lemma nil_all {A : Type} (Q : A → Prop) : ∀ y, y ∈ [] → Q y.
Proof. by intros y ?%not_elem_of_nil. Qed.
Lemma last_stamp_snoc P b post b' s s' : last_stamp P b post s → stamp_after (P b') (db_daa b') s s' → last_stamp P b (post ++ [b']) s'.
Proof.
  intros Hl [[Hp ->]|[Hp ->]]; [left; exists post, b', []; split_and!; [done|done|apply nil_all|done]|].
  destruct Hl as [(post1 & b1 & post2 & -> & H1 & H2 & H3)|[H1 H2]].
  - left. exists post1, b1, (post2 ++ [b']). rewrite <- (assoc_L (++)). split_and!; [done|done|by apply (snoc_all (λ b, ¬ P b))|done].
  - right. split; [by apply (snoc_all (λ b, ¬ P b))|done].
Qed.
Lemma walk_chain_snoc p net_id chain b v v' : walk_chain p net_id v (chain ++ [b]) = Ok v' →
  ∃ v1, walk_chain p net_id v chain = Ok v1 ∧ v' = apply_bonds (block_mutations p b) v1.
Proof.
  revert v. induction chain as [|b0 chain IH]; intros v; cbn [app walk_chain].
  - intros ([] & _ & [= <-])%bind_Ok. by exists v.
  - intros ([] & Hc & Hw)%bind_Ok. rewrite Hc. by apply IH.
Qed.
Lemma walked_history p net_id chain v : walk_chain p net_id ∅ chain = Ok v →
  map_Forall (row_history p chain) v ∧ ∀ b o bp, b ∈ chain → creates p o bp b → is_Some (v !! o).
Proof.
  revert v. induction chain as [|b chain IH] using rev_ind; intros v; [intros [= <-]; split; [apply map_Forall_empty|by intros ??? ?%not_elem_of_nil]|].
  intros (v1 & Hw & ->)%walk_chain_snoc. destruct (IH v1 Hw) as [Hrow Hex]. split.
  - intros o r Hr. destruct (block_history p b v1 o) as [(bp & r0 & Hc & Hv & Hf & Hs & Hu)|(Hn & [[_ Hv]|(r0 & r1 & Hv & Hv' & Hb & Hs & Hu)])].
    + rewrite Hr in Hv. injection Hv as <-. exists chain, b, [], bp. split_and!; [done|done|done|intros ??; by intros ?%not_elem_of_nil|right; split; [apply nil_all|done]|right; split; [apply nil_all|done]].
    + by rewrite Hr in Hv.
    + rewrite Hr in Hv'. injection Hv' as <-. destruct (Hrow o r0 Hv) as (pre & b0 & post & bp & -> & Hc & Hf & Hno & Hls & Hlu).
      exists pre, b0, (post ++ [b]), bp. rewrite <- (assoc_L (++)). split_and!; [done|done|by eapply row_from_same|intros b' bp' Hb'; revert b' Hb'; apply snoc_all; [by intros b' ?; apply Hno|apply Hn]|by eapply last_stamp_snoc|by eapply last_stamp_snoc].
  - intros b0 o bp Hin Hc. destruct (block_history p b v1 o) as [(bp' & r0 & _ & -> & _)|(Hn & [[Hv _]|(r0 & r1 & _ & -> & _)])]; [done| |done].
    apply elem_of_app in Hin as [Hin|Hin%list_elem_of_singleton]; [|subst; by destruct (Hn bp)]. destruct (Hex b0 o bp Hin Hc) as [? Hx]. by rewrite Hv in Hx.
Qed.

(** C31. The registry of a chain is the record of its accepted transactions.
    After a walk of a selected chain from no bonds, every row was created by a
    bond transaction of at least the minimum stake that some block of the chain
    accepts (the last one that does, for that outpoint): the row has the fields
    of that payload, the DAA score of that block as its creation score, the
    later of it and the requested score as its activation score, and at least
    the floor as its unbonding period. Its slashing stamp is the DAA score of
    the last later block that accepts evidence against the bond, and where no
    later block does, absent or the score of the creating block, which then
    accepts such evidence itself; and so for the unbond stamp. Conversely every
    such bond transaction has a row. With DAA scores that never decrease the
    rows are well formed at the score of the tip. *)
Theorem walked_registry_well_formed p net_id chain v : walk_chain p net_id ∅ chain = Ok v →
  map_Forall (row_history p chain) v ∧
  (∀ b o bp, b ∈ chain → creates p o bp b → is_Some (v !! o)) ∧
  (daa_increasing 0 chain → registry_ok p (chain_daa 0 chain) v).
Proof.
  intros Hw. destruct (walked_history p net_id chain v Hw) as [Hrow Hex]. split_and!; [done|done|]. intros Hi. apply (walk_registry_ok p net_id chain 0 ∅ v Hi); [apply map_Forall_empty|done].
Qed.

(** Every block's accepted transactions meet the registry rules against the
    view of its selected parent. *)
Fixpoint gated_chain (p : DnsParams) (net_id : Hash64) (v : ActiveBondView) (d : Z) (chain : list DnsBlock) : Prop :=
  match chain with
  | [] => True
  | b :: chain => d ≤ db_daa b ∧ registry_gates p net_id v (db_daa b) (db_accepted b) ∧
      gated_chain p net_id (apply_bonds (block_mutations p b) v) (db_daa b) chain
  end.

Lemma registry_ok_mono p d d' v : d ≤ d' → registry_ok p d v → registry_ok p d' v.
Proof. intros Hd Hv o r Hr. eapply row_ok_mono; [done|]. by apply Hv. Qed.
Lemma gated_applies p net_id chain d w : registry_ok p d w.1 → gated_chain p net_id w.1 d chain →
  ∃ w', for_each reconcile_apply (concat (block_mutations p <$> chain)) w = Ok w' ∧ registry_ok p (chain_daa d chain) w'.1.
Proof.
  revert d w. induction chain as [|b chain IH]; intros d w Hw; cbn [gated_chain].
  { intros _. by exists w. }
  intros (Hd & Hg & Hc). rewrite fmap_cons. change (concat (?x :: ?l)) with (x ++ concat l). rewrite for_each_app.
  pose proof (registry_ok_mono _ _ _ _ Hd Hw) as Hw'.
  destruct (ready_applies (db_accepted b) (db_daa b) (min_bond_amount_sompi p) (unbonding_period_blocks p) ∅ ∅ w) as (w1 & Hw1);
    [by eapply gates_ready | apply Hg |].
  fold (bond_mutations_from_accepted_txs (db_accepted b) (db_daa b) (min_bond_amount_sompi p) (unbonding_period_blocks p)) in Hw1.
  fold (block_mutations p b) in Hw1. rewrite Hw1. cbn [mbind outcome_bind].
  destruct (sound_steps apply_mutation _ _ _ _ reconcile_apply_sound Hw1) as (Hv1 & _ & _).
  rewrite chain_daa_cons. apply IH; rewrite Hv1; [by apply registry_ok_block with d | done].
Qed.

(** C13. If the transactions each block accepts meet the registry rules
    (genuine evidence, authorised unbond requests, new bonds at new outpoints)
    against the view of its selected parent, then staging the chain never
    aborts, and leaves a well-formed registry. *)
Theorem gated_chain_never_aborts {E : Type} p net_id (store : ActiveBondView) d chain sink_daa_score :
  registry_ok p d store → gated_chain p net_id store d chain →
  ∃ store', @stage_dns_bond_mutations E store [] (block_mutations p <$> chain) sink_daa_score = Ok store' ∧
    registry_ok p (chain_daa d chain) store'.
Proof.
  intros Hv Hg. destruct (gated_applies p net_id chain d (store, ∅) Hv Hg) as (w & Hw & Hok).
  exists (restamp sink_daa_score <$> w.1). split; [by apply stage_of_reconcile|].
  apply map_Forall_fmap. intros o r Hr. by destruct (Hok o r Hr); split.
Qed.

(** ** What the rules on the body let through *)

Lemma reconcile_apply_total w m : (∃ w', reconcile_apply w m = Ok w') ∨ ∃ e, reconcile_apply w m = Err e.
Proof.
  destruct m as [o r|o daa|o daa]; cbn [reconcile_apply]; destruct (w.1 !! o); cbn [ok_or mbind outcome_bind];
    try case_bool_decide; eauto.
Qed.
Lemma reconcile_applies_total ms w : (∃ w', for_each reconcile_apply ms w = Ok w') ∨ ∃ e, for_each reconcile_apply ms w = Err e.
Proof.
  revert w. induction ms as [|m ms IH]; intros w; cbn [for_each]; [eauto|].
  destruct (reconcile_apply_total w m) as [(w' & ->)|(e & ->)]; cbn [mbind outcome_bind]; eauto.
Qed.
Lemma stage_total {E : Type} (store : ActiveBondView) added sink :
  @stage_dns_bond_mutations E store [] added sink = Panic ∨
  ∃ w, for_each reconcile_apply (concat added) (store, ∅) = Ok w ∧ @stage_dns_bond_mutations E store [] added sink = Ok (restamp sink <$> w.1).
Proof.
  destruct (reconcile_applies_total (concat added) (store, ∅)) as [(w & Hw)|(e & He)].
  - right. exists w. split; [done|]. by apply stage_of_reconcile.
  - left. unfold stage_dns_bond_mutations, reconcile_dns_bond_registry. cbn [fmap list_fmap concat for_each mbind outcome_bind].
    by rewrite He.
Qed.

(** A row that carries a stamp keeps it as long as the reconciliation goes on. *)
Definition stamped (field : StakeBondRecord → option Z) (v : ActiveBondView) (o : TransactionOutpoint) (z : Z) : Prop :=
  ∃ r, v !! o = Some r ∧ field r = Some z.
Lemma slashed_stays w m w' o z : reconcile_apply w m = Ok w' → stamped sb_slashed_at_daa_score w.1 o z →
  stamped sb_slashed_at_daa_score w'.1 o z ∧ ∀ d, m ≠ Slash o d.
Proof.
  intros Hm (r & Hr & Hz). destruct m as [o' r'|o' daa|o' daa]; cbn [reconcile_apply] in Hm.
  - destruct (w.1 !! o') eqn:Ho; [done|]. injection Hm as <-. split; [|done]. exists r. cbn. rewrite lookup_insert_ne; [done|congruence].
  - apply bind_Ok in Hm as (r' & Hr'%ok_or_Ok & Hc). case_bool_decide as Hs; [|done]. injection Hc as <-.
    assert (o' ≠ o) by congruence. split; [|congruence]. exists r. cbn. by rewrite lookup_insert_ne.
  - apply bind_Ok in Hm as (r' & Hr'%ok_or_Ok & Hc). case_bool_decide as Hs; [|done]. injection Hc as <-. split; [|done].
    destruct (decide (o' = o)) as [->|]; [|exists r; cbn; by rewrite lookup_insert_ne].
    eexists. cbn. rewrite lookup_insert_eq. split; [done|]. rewrite Hr in Hr'. by injection Hr' as <-.
Qed.
Lemma unbond_stays w m w' o z : reconcile_apply w m = Ok w' → stamped sb_unbond_request_daa_score w.1 o z →
  stamped sb_unbond_request_daa_score w'.1 o z ∧ ∀ d, m ≠ Unbond o d.
Proof.
  intros Hm (r & Hr & Hz). destruct m as [o' r'|o' daa|o' daa]; cbn [reconcile_apply] in Hm.
  - destruct (w.1 !! o') eqn:Ho; [done|]. injection Hm as <-. split; [|done]. exists r. cbn. rewrite lookup_insert_ne; [done|congruence].
  - apply bind_Ok in Hm as (r' & Hr'%ok_or_Ok & Hc). case_bool_decide as Hs; [|done]. injection Hc as <-. split; [|done].
    destruct (decide (o' = o)) as [->|]; [|exists r; cbn; by rewrite lookup_insert_ne].
    eexists. cbn. rewrite lookup_insert_eq. split; [done|]. rewrite Hr in Hr'. by injection Hr' as <-.
  - apply bind_Ok in Hm as (r' & Hr'%ok_or_Ok & Hc). case_bool_decide as Hs; [|done]. injection Hc as <-.
    assert (o' ≠ o) by congruence. split; [|congruence]. exists r. cbn. by rewrite lookup_insert_ne.
Qed.

Lemma stays_all (field : StakeBondRecord → option Z) (mk : TransactionOutpoint → Z → BondMutation) o z ms w w' :
  (∀ w m w', reconcile_apply w m = Ok w' → stamped field w.1 o z → stamped field w'.1 o z ∧ ∀ d, m ≠ mk o d) →
  for_each reconcile_apply ms w = Ok w' → stamped field w.1 o z → stamped field w'.1 o z ∧ ∀ d, mk o d ∉ ms.
Proof.
  intros Hstep. revert w. induction ms as [|m ms IH]; intros w; cbn [for_each].
  { intros [= <-] Hs. split; [done|]. intros d Hd. by apply elem_of_nil in Hd. }
  intros (w1 & Hm & Hms)%bind_Ok Hs. destruct (Hstep _ _ _ Hm Hs) as [Hs1 Hne]. destruct (IH _ Hms Hs1) as [Hs2 Hn].
  split; [done|]. intros d [Hd|Hd]%elem_of_cons; [by apply (Hne d) | by apply (Hn d)].
Qed.
Lemma stamps_all (field : StakeBondRecord → option Z) (mk : TransactionOutpoint → Z → BondMutation) o d ms w w' :
  (∀ w m w', reconcile_apply w m = Ok w' → stamped field w.1 o d → stamped field w'.1 o d ∧ ∀ d, m ≠ mk o d) →
  (∀ w w', reconcile_apply w (mk o d) = Ok w' → stamped field w'.1 o d) →
  mk o d ∈ ms → for_each reconcile_apply ms w = Ok w' → stamped field w'.1 o d.
Proof.
  intros Hstep Hset (ms1 & ms2 & ->)%list_elem_of_split. rewrite for_each_app. intros (w1 & _ & Hr)%bind_Ok. cbn [for_each] in Hr.
  apply bind_Ok in Hr as (w2 & Hm & Hms). apply (stays_all field mk o d) in Hms; [by destruct Hms | done | by eapply Hset].
Qed.
Lemma slash_stamps w o d w' : reconcile_apply w (Slash o d) = Ok w' → stamped sb_slashed_at_daa_score w'.1 o d.
Proof.
  cbn [reconcile_apply]. intros (r & Hr & Hc)%bind_Ok. case_bool_decide; [|done]. injection Hc as <-. eexists. cbn.
  by rewrite lookup_insert_eq.
Qed.
Lemma unbond_stamps w o d w' : reconcile_apply w (Unbond o d) = Ok w' → stamped sb_unbond_request_daa_score w'.1 o d.
Proof.
  cbn [reconcile_apply]. intros (r & Hr & Hc)%bind_Ok. case_bool_decide; [|done]. injection Hc as <-. eexists. cbn.
  by rewrite lookup_insert_eq.
Qed.

(** Accepted evidence and accepted requests always reach the registry. *)
Lemma on_kind_inv {A} kind (decode : list byte → option A) tx a : on_kind kind decode tx = Some a →
  dns_tx_kind (subnetwork_id tx) = Some kind ∧ decode (payload tx) = Some a.
Proof. unfold on_kind. by case_bool_decide. Qed.
Lemma evidence_slashes txs tx ev d min fl ss su : tx ∈ txs → on_kind KSlashingEvidence decode_evidence tx = Some ev →
  ev_bond_outpoint ev ∈ ss ∨ Slash (ev_bond_outpoint ev) d ∈ bond_mutations_loop txs d min fl ss su.
Proof.
  intros Hin [Hk Hd]%on_kind_inv. revert ss su. induction txs as [|tx' txs IH]; intros ss su; [by apply elem_of_nil in Hin|].
  apply elem_of_cons in Hin as [<-|Hin]; cbn [bond_mutations_loop].
  { rewrite Hk, Hd. case_bool_decide; [by left|]. right. by left. }
  specialize (IH Hin). destruct (dns_tx_kind (subnetwork_id tx')) as [[]|]; [| done | | | done].
  - destruct (decode_bond (payload tx')) as [b|]; [destruct (bp_amount b <? min)|]; [done| |done].
    destruct (IH ss su); [by left | right; by right].
  - destruct (decode_evidence (payload tx')) as [s|]; [case_bool_decide|]; [done| |done].
    destruct (IH ({[ev_bond_outpoint s]} ∪ ss) su) as [Hs|]; [|right; by right].
    destruct (decide (ev_bond_outpoint ev = ev_bond_outpoint s)) as [->|]; [right; by left | left; set_solver].
  - destruct (decode_unbond (payload tx')) as [s|]; [case_bool_decide|]; [done| |done].
    destruct (IH ss ({[ur_bond_outpoint s]} ∪ su)) as [|]; [by left | right; by right].
Qed.
Lemma request_unbonds txs tx req d min fl ss su : tx ∈ txs → on_kind KStakeUnbond decode_unbond tx = Some req →
  ur_bond_outpoint req ∈ su ∨ Unbond (ur_bond_outpoint req) d ∈ bond_mutations_loop txs d min fl ss su.
Proof.
  intros Hin [Hk Hd]%on_kind_inv. revert ss su. induction txs as [|tx' txs IH]; intros ss su; [by apply elem_of_nil in Hin|].
  apply elem_of_cons in Hin as [<-|Hin]; cbn [bond_mutations_loop].
  { rewrite Hk, Hd. case_bool_decide; [by left|]. right. by left. }
  specialize (IH Hin). destruct (dns_tx_kind (subnetwork_id tx')) as [[]|]; [| done | | | done].
  - destruct (decode_bond (payload tx')) as [b|]; [destruct (bp_amount b <? min)|]; [done| |done].
    destruct (IH ss su); [by left | right; by right].
  - destruct (decode_evidence (payload tx')) as [s|]; [case_bool_decide|]; [done| |done].
    destruct (IH ({[ev_bond_outpoint s]} ∪ ss) su) as [|]; [by left | right; by right].
  - destruct (decode_unbond (payload tx')) as [s|]; [case_bool_decide|]; [done| |done].
    destruct (IH ss ({[ur_bond_outpoint s]} ∪ su)) as [Hs|]; [|right; by right].
    destruct (decide (ur_bond_outpoint req = ur_bond_outpoint s)) as [->|]; [right; by left | left; set_solver].
Qed.
Lemma block_slash p b tx ev : tx ∈ db_accepted b → on_kind KSlashingEvidence decode_evidence tx = Some ev →
  Slash (ev_bond_outpoint ev) (db_daa b) ∈ block_mutations p b.
Proof. intros Hin He. by destruct (evidence_slashes _ _ _ (db_daa b) (min_bond_amount_sompi p) (unbonding_period_blocks p) ∅ ∅ Hin He). Qed.
Lemma block_unbond p b tx req : tx ∈ db_accepted b → on_kind KStakeUnbond decode_unbond tx = Some req →
  Unbond (ur_bond_outpoint req) (db_daa b) ∈ block_mutations p b.
Proof. intros Hin He. by destruct (request_unbonds _ _ _ (db_daa b) (min_bond_amount_sompi p) (unbonding_period_blocks p) ∅ ∅ Hin He). Qed.

(** C12. Two unbond requests for one bond abort the process, although every
    block is valid. A block [P] accepts a first request from its merge set and
    carries a second one in its body; both blocks of the chain [P, B] pass
    every DNS rule, because the body of [P] is judged by the view before [P].
    When [B] accepts the body of [P], staging the chain panics: the registry
    row already carries an unbond stamp. The comment at the rule promises that
    at most one unbond mutation applies per bond and chain. *)
Theorem double_unbond_aborts {E : Type} p net_id (store v : ActiveBondView) (P B : DnsBlock) tx1 tx2 req1 req2 sink_daa_score :
  walk_chain p net_id store [P; B] = Ok v →
  tx1 ∈ db_accepted P → tx2 ∈ db_body P → tx2 ∈ db_accepted B →
  on_kind KStakeUnbond decode_unbond tx1 = Some req1 → on_kind KStakeUnbond decode_unbond tx2 = Some req2 →
  ur_bond_outpoint req1 = ur_bond_outpoint req2 →
  @stage_dns_bond_mutations E store [] (block_mutations p <$> [P; B]) sink_daa_score = Panic.
Proof.
  intros _ H1 _ H2 Hr1 Hr2 Heq. destruct (stage_total (E := E) store (block_mutations p <$> [P; B]) sink_daa_score) as [|(w & Hw & _)]; [done|].
  exfalso. cbn [fmap list_fmap concat] in Hw. rewrite app_nil_r, for_each_app in Hw. apply bind_Ok in Hw as (w1 & HP & HB).
  pose proof (block_unbond p _ _ _ H1 Hr1) as Hm1. pose proof (block_unbond p _ _ _ H2 Hr2) as Hm2. rewrite Heq in Hm1.
  apply (stamps_all sb_unbond_request_daa_score Unbond (ur_bond_outpoint req2) (db_daa P)) in HP;
    [| intros ???; apply unbond_stays | intros ??; apply unbond_stamps | done].
  apply (stays_all sb_unbond_request_daa_score Unbond (ur_bond_outpoint req2) (db_daa P)) in HB as [_ Hn];
    [by apply (Hn (db_daa B)) | intros ???; apply unbond_stays | done].
Qed.

(** C11. Slashing evidence accepted from a merged block is never checked. For
    any block whose own body passes the DNS rules and any accepted evidence
    transaction, whatever its signatures: staging the block either panics
    (the bond is unknown or already slashed) or slashes the bond it names. *)
Theorem merged_evidence_unchecked {E : Type} p net_id (store : ActiveBondView) (P : DnsBlock) tx ev sink_daa_score :
  check_dns_rules p net_id store (db_daa P) (db_body P) = Ok tt →
  tx ∈ db_accepted P → on_kind KSlashingEvidence decode_evidence tx = Some ev → db_daa P ≤ sink_daa_score →
  @stage_dns_bond_mutations E store [] [block_mutations p P] sink_daa_score = Panic ∨
  ∃ store' r, @stage_dns_bond_mutations E store [] [block_mutations p P] sink_daa_score = Ok store' ∧
    store' !! ev_bond_outpoint ev = Some r ∧ sb_status r = Slashed.
Proof.
  intros _ Hin Hev Hd. destruct (stage_total (E := E) store [block_mutations p P] sink_daa_score) as [|(w & Hw & Hs)]; [by left|].
  right. cbn [concat] in Hw. rewrite app_nil_r in Hw. pose proof (block_slash p _ _ _ Hin Hev) as Hm.
  apply (stamps_all sb_slashed_at_daa_score Slash (ev_bond_outpoint ev) (db_daa P)) in Hw as (r & Hr & Hz);
    [| intros ???; apply slashed_stays | intros ??; apply slash_stamps | done].
  eexists _, (restamp sink_daa_score r). split_and!; [done | by rewrite lookup_fmap, Hr |].
  unfold restamp. cbn. unfold effective_bond_status. rewrite Hz. cbn. by replace (db_daa P <=? sink_daa_score) with true by lia.
Qed.
End chains.
