(* ===== verification/DnsSlashThms.v ===== *)
(** * Slashing and the supply

    The slashing side effects of a block always complete, remove the stakes of
    the bonds they name and mint at most what they removed: the supply never
    grows, and no other coin changes. *)

From stdpp Require Import base list gmap sorting.
From Stdlib Require Import ZArith Lia.
From S2P Require Import Prelude Tx Utxo Bytes Hashing ScriptNum ScriptOps ScriptEngine Palw DnsBond DnsReward DnsRules DnsRewardThms.

Local Open Scope Z_scope.

(** ** Supply *)

Definition supply (u : UtxoCollection) : Z := map_fold (λ _ e acc, amount e + acc) 0 u.
Lemma supply_insert u o e : u !! o = None → supply (<[o:=e]> u) = amount e + supply u.
Proof. intros Ho. unfold supply. rewrite map_fold_insert_L; [done | intros; lia | done]. Qed.
Lemma supply_delete u o e : u !! o = Some e → supply u = amount e + supply (delete o u).
Proof. intros Ho. apply (map_fold_delete_L (λ _ e acc, amount e + acc) 0 o e u); [intros; lia | done]. Qed.

Section mint.
Context {E M : Type} `{Multiset M}.

Lemma mint_all base id daa ios d (ms : M) : valid_on base d → NoDup ios.*1 → Forall (λ io, io.1 ≤ U32_MAX) ios →
  (∀ i, apply_diff base d !! mkOutpoint id i = None ∨ i ∉ ios.*1) → (∀ i, base !! mkOutpoint id i = None) →
  ∃ d' ms', for_each (@mint E M _ id daa) ios (d, ms) = Ok (d', ms') ∧ valid_on base d' ∧
    supply (apply_diff base d') = supply (apply_diff base d) + sumZ ((λ io, value io.2) <$> ios) ∧
    (∀ o, transaction_id o ≠ id → apply_diff base d' !! o = apply_diff base d !! o) ∧
    (∀ o e, apply_diff base d !! o = Some e → apply_diff base d' !! o = Some e).
Proof.
  intros Hv Hd Hr Hfree Hbase. revert d ms Hv Hd Hfree. induction Hr as [|[i out] ios Hi Hr IH]; intros d ms Hv Hd Hfree.
  { exists d, ms. split_and!; [done | done | unfold sumZ; cbn; lia | done | done]. }
  apply NoDup_cons in Hd as [Hni Hd]. cbn [fst] in Hi. cbn [for_each].
  assert (apply_diff base d !! mkOutpoint id i = None) as Hnone by (destruct (Hfree i) as [|Hn]; [done | set_solver]).
  destruct (add_entry_refines base d (mkOutpoint id i) (mint_entry out daa) Hv Hnone) as (d1 & Hadd & Hv1 & Hu1).
  { unfold contains_with_daa_score. by rewrite Hbase. }
  assert (@mint E M _ id daa (d, ms) (i, out) = Ok (d1, ms_add_utxo (mkOutpoint id i) (mint_entry out daa) ms)) as ->.
  { unfold mint, add_utxo. cbn [fst snd]. replace (i <=? U32_MAX) with true by lia. cbn [assert_ mbind outcome_bind]. by rewrite Hadd. }
  destruct (IH d1 (ms_add_utxo (mkOutpoint id i) (mint_entry out daa) ms) Hv1 Hd) as (d' & ms' & Hm & Hv' & Hs & Ho & Hk).
  { intros j. rewrite Hu1. destruct (decide (j = i)) as [->|]; [by right|].
    rewrite lookup_insert_ne by congruence. destruct (Hfree j); [by left | right; set_solver]. }
  exists d', ms'. split; [exact Hm|]. split_and!; [done | | |].
  - rewrite Hs, Hu1, supply_insert by done. rewrite fmap_cons, sumZ_cons. cbn. lia.
  - intros o Hne. rewrite Ho, Hu1 by done. apply lookup_insert_ne. by intros <-.
  - intros o e He. apply Hk. rewrite Hu1. rewrite lookup_insert_ne; [done | congruence].
Qed.
End mint.

(** ** Effects *)

(** An effect that mints at most the stake it removes. *)
Record effect_ok (e : SlashingSideEffect) : Prop := {
  eo_values : Forall (λ io, 0 ≤ value io.2) (minted_outputs e);
  eo_total : sumZ ((λ io, value io.2) <$> minted_outputs e) ≤ se_slashed_amount_sompi e;
  eo_victims : Z.of_nat (length (se_victim_outputs e)) < U32_MAX - 2;
}.

Lemma minted_indices e : effect_ok e → NoDup (minted_outputs e).*1 ∧ Forall (λ io, io.1 ≤ U32_MAX) (minted_outputs e).
Proof.
  intros [_ _ Hv]. unfold minted_outputs.
  assert (∀ i out, se_victim_outputs e !! i = Some out → 2 + Z.of_nat i mod 2 ^ 32 = 2 + Z.of_nat i) as Hmod.
  { intros i out Hi%lookup_lt_Some. rewrite Z.mod_small; [done|]. unfold U32_MAX in Hv. lia. }
  rewrite (imap_ext _ (λ i out, (2 + Z.of_nat i, out))) by (intros i out Hi; by rewrite (Hmod _ _ Hi)). clear Hmod.
  set (vs := se_victim_outputs e) in *. split.
  - rewrite fmap_app, fmap_imap. apply NoDup_app. split_and!.
    + destruct (se_reporter_output e); [apply NoDup_singleton | constructor].
    + intros x Hx (i & y & -> & Hy)%elem_of_lookup_imap. cbn in *. destruct (se_reporter_output e); cbn in Hx; [|by apply elem_of_nil in Hx].
      apply list_elem_of_singleton in Hx. lia.
    + apply NoDup_alt. intros i j x Hi Hj. rewrite list_lookup_imap in Hi, Hj.
      destruct (vs !! i), (vs !! j); cbn in *; simplify_eq. lia.
  - apply Forall_app. split; [destruct (se_reporter_output e); repeat constructor; done|].
    apply Forall_forall. intros x (i & y & -> & Hy)%elem_of_lookup_imap. apply lookup_lt_Some in Hy. cbn. lia.
Qed.

(** The effects of a block against the UTXO set [u] they meet. *)
Record effects_fit (base u : UtxoCollection) (es : list SlashingSideEffect) : Prop := {
  ef_ids : NoDup (se_slashing_tx_id <$> es);
  ef_ok : Forall effect_ok es;
  ef_free e i : e ∈ es → base !! mkOutpoint (se_slashing_tx_id e) i = None ∧ u !! mkOutpoint (se_slashing_tx_id e) i = None;
  ef_stake e entry : e ∈ es → u !! se_bond_outpoint e = Some entry → amount entry = se_slashed_amount_sompi e;
  ef_bonds e e' : e ∈ es → e' ∈ es → transaction_id (se_bond_outpoint e) ≠ se_slashing_tx_id e';
}.
Lemma effects_fit_tail base u u' e es : effects_fit base u (e :: es) →
  (∀ o, transaction_id o ≠ se_slashing_tx_id e → u' !! o = u !! o ∨ u' !! o = None) → effects_fit base u' es.
Proof.
  intros [Hids Hok Hfree Hstake Hbonds] Hu. apply NoDup_cons in Hids as [Hni Hids]. apply Forall_cons in Hok as [_ Hok].
  split; [done | done | | |].
  - intros e' i He'. destruct (Hfree e' i) as [Hb Hn]; [by right|]. split; [done|].
    destruct (Hu (mkOutpoint (se_slashing_tx_id e') i)) as [->|]; [|done..]. cbn. intros Heq. apply Hni. rewrite <- Heq.
    by apply list_elem_of_fmap_2.
  - intros e' entry He' Hl. eapply Hstake; [by right|]. destruct (Hu (se_bond_outpoint e')) as [<-|Hn]; [|done|congruence].
    apply Hbonds; [by right | by left].
  - intros e1 e2 H1 H2. apply Hbonds; by right.
Qed.

Section apply.
Context {E M : Type} `{Multiset M}.

Lemma apply_effect base daa d (ms : M) e es : valid_on base d → effects_fit base (apply_diff base d) (e :: es) →
  ∃ d' ms', @apply_slashing_effect E M _ base daa (d, ms) e = Ok (d', ms') ∧ valid_on base d' ∧
    supply (apply_diff base d') ≤ supply (apply_diff base d) ∧
    apply_diff base d' !! se_bond_outpoint e = None ∧
    (∀ o, transaction_id o ≠ se_slashing_tx_id e → o ≠ se_bond_outpoint e → apply_diff base d' !! o = apply_diff base d !! o).
Proof.
  intros Hv [_ Hok Hfree Hstake Hbonds]. apply Forall_cons in Hok as [Hok _]. unfold apply_slashing_effect. cbn [fst snd].
  rewrite composed_get. destruct (apply_diff base d !! se_bond_outpoint e) as [entry|] eqn:He; [|by exists d, ms].
  destruct (remove_entry_refines base d _ _ Hv He) as (d1 & Hrem & Hv1 & Hu1).
  unfold remove_utxo. rewrite Hrem. cbn [expect mbind outcome_bind].
  destruct (minted_indices e Hok) as [Hnd Hidx].
  destruct (mint_all (E := E) base (se_slashing_tx_id e) daa (minted_outputs e) d1 (ms_remove_utxo (se_bond_outpoint e) entry ms) Hv1 Hnd Hidx)
    as (d' & ms' & Hm & Hv' & Hs & Ho & Hk).
  { intros i. left. rewrite Hu1. apply lookup_delete_None. right. apply Hfree. by left. }
  { intros i. apply Hfree. by left. }
  assert (transaction_id (se_bond_outpoint e) ≠ se_slashing_tx_id e) as Hne by (apply Hbonds; by left).
  exists d', ms'. split; [exact Hm|]. split_and!; [done | | |].
  - rewrite Hs, Hu1. rewrite (supply_delete _ _ _ He). rewrite (Hstake e entry) by (by left || done). pose proof (eo_total _ Hok). lia.
  - rewrite Ho, Hu1 by done. apply lookup_delete_eq.
  - intros o Hid Hb. rewrite Ho, Hu1 by done. by apply lookup_delete_ne.
Qed.

Lemma apply_effects base daa es d (ms : M) : valid_on base d → effects_fit base (apply_diff base d) es →
  ∃ d' ms', @apply_slashing_effects_to_state E M _ es base d ms daa = Ok (d', ms') ∧ valid_on base d' ∧
    supply (apply_diff base d') ≤ supply (apply_diff base d) ∧
    (∀ e, e ∈ es → apply_diff base d' !! se_bond_outpoint e = None) ∧
    (∀ o, transaction_id o ∉ se_slashing_tx_id <$> es → o ∉ se_bond_outpoint <$> es → apply_diff base d' !! o = apply_diff base d !! o).
Proof.
  unfold apply_slashing_effects_to_state. revert d ms. induction es as [|e es IH]; intros d ms Hv Hf.
  { exists d, ms. split_and!; [done | done | lia | | done]. by intros e He%elem_of_nil. }
  destruct (apply_effect base daa d ms e es Hv Hf) as (d1 & ms1 & H1 & Hv1 & Hs1 & Hb1 & Ho1).
  assert (effects_fit base (apply_diff base d1) es) as Hf1.
  { eapply effects_fit_tail; [exact Hf|]. intros o Hid. destruct (decide (o = se_bond_outpoint e)) as [->|]; [by right | left; by apply Ho1]. }
  destruct (IH d1 ms1 Hv1 Hf1) as (d' & ms' & H2 & Hv2 & Hs2 & Hb2 & Ho2). exists d', ms'. cbn [for_each]. rewrite H1.
  split; [exact H2|]. split_and!; [done | lia | |].
  - intros e' [->|He']%elem_of_cons; [|by apply Hb2].
    destruct (decide (se_bond_outpoint e ∈ se_bond_outpoint <$> es)) as [Hin|Hin].
    + apply list_elem_of_fmap in Hin as (e'' & -> & He''). by apply Hb2.
    + rewrite Ho2; [done | | done]. intros Hid. apply list_elem_of_fmap in Hid as (e'' & Heq & He'').
      revert Heq. apply (ef_bonds _ _ _ Hf); [by left | by right].
  - rewrite !fmap_cons. intros o Hid Hb. apply not_elem_of_cons in Hid as [Hid Hid']. apply not_elem_of_cons in Hb as [Hb Hb'].
    rewrite Ho2 by done. by apply Ho1.
Qed.
End apply.

(** ** The effects of accepted evidence fit *)

Lemma compute_slashing_distribution_exact {E : Type} S b1 b2 b3 : is_u64 S → ∃ d, @compute_slashing_distribution E S b1 b2 b3 = Ok d ∧
  0 ≤ reporter_reward_sompi d ∧ 0 ≤ security_reserve_sompi d ∧ 0 ≤ victim_epoch_pool_sompi d ∧ 0 ≤ burned_sompi d ∧
  reporter_reward_sompi d + security_reserve_sompi d + victim_epoch_pool_sompi d + burned_sompi d = S.
Proof.
  intros HS. unfold compute_slashing_distribution. pose proof cast64_range as Hc.
  set (r := cast64 _). assert (is_u64 r) by apply Hc. destruct (take_range S r) as [? ?]; [done..|]. rewrite take_share by done. cbn [mbind outcome_bind].
  set (s := cast64 _). assert (is_u64 s) by apply Hc. destruct (take_range (S - Z.min r S) s) as [? ?]; [done..|].
  rewrite take_share by done. cbn [mbind outcome_bind].
  set (v := cast64 _). assert (is_u64 v) by apply Hc. destruct (take_range (S - Z.min r S - Z.min s (S - Z.min r S)) v) as [? ?]; [done..|].
  rewrite take_share by done. cbn [mbind outcome_bind]. eexists. split; [done|]. cbn. unfold is_u64 in *. lia.
Qed.

(** An effect as the resolver leaves it: no victims yet, and the reporter's
    reward and the victim pool within the stake. *)
Definition reporter_value (e : SlashingSideEffect) : Z := match se_reporter_output e with Some out => value out | None => 0 end.
Record resolved_ok (e : SlashingSideEffect) : Prop := {
  ro_none : se_victim_outputs e = [];
  ro_reporter : 0 ≤ reporter_value e;
  ro_pool : is_u64 (se_victim_epoch_pool_sompi e);
  ro_total : reporter_value e + se_victim_epoch_pool_sompi e ≤ se_slashed_amount_sompi e;
}.
Definition ev_outpoint (x : ResolvedEvidence) : TransactionOutpoint := x.1.1.1.1.
Definition ev_stake (x : ResolvedEvidence) : Z := x.1.1.1.2.
Definition ev_tx (x : ResolvedEvidence) : TransactionId := x.1.2.

Lemma slashing_effects_spec {E : Type} evidence b1 b2 b3 seen : Forall (λ x, is_u64 (ev_stake x)) evidence →
  ∃ es, @slashing_effects_loop E evidence b1 b2 b3 None seen = Ok es ∧ Forall resolved_ok es ∧
    sublist (se_slashing_tx_id <$> es) (ev_tx <$> evidence) ∧
    (∀ e, e ∈ es → ∃ x, x ∈ evidence ∧ se_bond_outpoint e = ev_outpoint x ∧ se_slashed_amount_sompi e = ev_stake x) ∧
    (∀ x, x ∈ evidence → ev_outpoint x ∈ seen ∨ ev_outpoint x ∈ se_bond_outpoint <$> es).
Proof.
  intros Hu. revert seen. induction Hu as [|x evidence Hx Hu IH]; intros seen; cbn [slashing_effects_loop].
  { exists []. split_and!; [done | constructor | constructor | by intros e He%elem_of_nil | by intros x Hx%elem_of_nil]. }
  destruct x as [[[[o S] payload] id] ep]. case_bool_decide as Hs.
  { destruct (IH seen) as (es & Hl & Hok & Hsub & Hfrom & Hall). exists es. split_and!; [done | done | by constructor | |].
    - intros e (x & Hin & Heq)%Hfrom. exists x. split; [by right | done].
    - intros x [->|Hin]%elem_of_cons; [by left | by apply Hall]. }
  destruct (compute_slashing_distribution_exact (E := E) S b1 b2 b3 Hx) as (d & Hd & H1 & H2 & H3 & H4 & Hsum).
  unfold slashing_distribution_output. rewrite Hd. cbn [mbind outcome_bind].
  destruct (IH ({[o]} ∪ seen)) as (es & Hl & Hok & Hsub & Hfrom & Hall). rewrite Hl. cbn [mbind outcome_bind].
  eexists. split; [done|]. split_and!.
  - constructor; [|done]. unfold ev_stake, is_u64 in Hx. cbn in Hx.
    split; unfold reporter_value, paid_output, is_u64; cbn; [done | | lia |]; destruct (0 <? reporter_reward_sompi d) eqn:Hr; cbn; lia.
  - by constructor.
  - intros e [->|Hin]%elem_of_cons; [by exists (o, S, payload, id, ep); split; [left|]|].
    destruct (Hfrom e Hin) as (x & Hx' & Heq). exists x. split; [by right | done].
  - rewrite fmap_cons. intros x [->|Hin]%elem_of_cons; [right; by left|]. destruct (Hall x Hin) as [Hs'|]; [|right; by right].
    destruct (decide (ev_outpoint x = o)) as [->|]; [right; by left | left; set_solver].
Qed.

(** ** Victim outputs *)

Lemma paid_outputs {A} (f : A → Z) (g : A → list byte) (l : list A) : (∀ a, a ∈ l → 0 ≤ f a) →
  let outs := omap (λ a, paid_output (Z.min (f a) U64_MAX) (g a)) l in
  sumZ (value <$> outs) ≤ sumZ (f <$> l) ∧ Forall (λ out, 0 ≤ value out) outs ∧ (length outs ≤ length l)%nat.
Proof.
  induction l as [|a l IH]; intros Hf outs; [by split_and!|].
  destruct IH as (Hs & Hp & Hl); [intros b Hb; apply Hf; by right|]. assert (0 ≤ f a) as Ha by (apply Hf; by left).
  rewrite fmap_cons, sumZ_cons. subst outs. cbn [omap list_omap].
  destruct (paid_output (Z.min (f a) U64_MAX) (g a)) as [out|] eqn:Hout; [|split_and!; [lia | done | cbn; lia]].
  unfold paid_output in Hout. destruct (0 <? Z.min (f a) U64_MAX) eqn:Hz; [|done]. injection Hout as <-.
  rewrite fmap_cons, sumZ_cons. cbn [value]. split_and!; [lia | constructor; [cbn; lia | done] | cbn; lia].
Qed.

Lemma victim_outputs_within pool (honest : list (Hash64 * Z)) : is_u64 pool → Forall (λ ps, is_u64 ps.2) honest →
  let outs := victim_compensation_outputs pool honest (sumZ honest.*2) in
  sumZ (value <$> outs) ≤ pool ∧ Forall (λ out, 0 ≤ value out) outs ∧ (length outs ≤ length honest)%nat.
Proof.
  intros Hp Hu. assert (0 ≤ sumZ honest.*2) as Hn.
  { apply sumZ_nonneg, Forall_fmap. eapply Forall_impl; [exact Hu|]. unfold is_u64. cbn. lia. }
  unfold victim_compensation_outputs.
  assert (omap (λ '(payload, stake), paid_output (Z.min (proportional_share pool stake (sumZ honest.*2)) U64_MAX) (hash64_bytes payload)) honest =
    omap (λ ps : Hash64 * Z, paid_output (Z.min (proportional_share pool ps.2 (sumZ honest.*2)) U64_MAX) (hash64_bytes ps.1)) honest) as ->.
  { generalize (sumZ honest.*2). intros T. clear. induction honest as [|[h s] l IH]; [done|]. cbn [omap list_omap fst snd]. by rewrite IH. }
  destruct (paid_outputs (λ ps : Hash64 * Z, proportional_share pool ps.2 (sumZ honest.*2)) (λ ps, hash64_bytes ps.1) honest) as (Hs & Hv & Hl).
  { intros ps Hin. apply proportional_share_bound; [done | by rewrite Forall_forall in Hu; apply Hu | done]. }
  split_and!; [|done..]. etransitivity; [exact Hs|].
  pose proof (shares_within_pool pool (sumZ honest.*2) honest.*2 Hp Hn) as Hw. rewrite <- list_fmap_compose in Hw. apply Hw; [|lia].
  by apply Forall_fmap.
Qed.

(** ** Tallies only hold stakes of known bonds *)

Definition stakes_of (n : nat) (m : gmap Z (list (Hash64 * Z))) : Prop :=
  map_Forall (λ _ l, (length l ≤ n)%nat ∧ Forall (λ ps, is_u64 ps.2) l) m.
Lemma stakes_of_key bonds n m key : map_Forall (λ _ b, is_u64 (sb_amount b)) bonds → stakes_of n m → stakes_of (S n) (tally_key bonds m key).
Proof.
  intros Hb Hm. unfold tally_key. destruct (bonds !! key.1) as [b|] eqn:Hk.
  - apply map_Forall_insert_2.
    + rewrite length_app. cbn. destruct (m !! key.2) as [l|] eqn:Hl; cbn.
      * destruct (Hm _ _ Hl) as [? ?]. split; [lia|]. apply Forall_app. split; [done|]. constructor; [by apply (Hb _ _ Hk) | done].
      * split; [lia|]. constructor; [by apply (Hb _ _ Hk) | done].
    + intros e l Hl. destruct (Hm e l Hl). split; [lia | done].
  - intros e l Hl. destruct (Hm e l Hl). split; [lia | done].
Qed.
Lemma stakes_of_keys bonds n m keys : map_Forall (λ _ b, is_u64 (sb_amount b)) bonds → stakes_of n m →
  stakes_of (n + length keys) (foldl (tally_key bonds) m keys).
Proof.
  intros Hb. revert n m. induction keys as [|k keys IH]; intros n m Hm; [by rewrite Nat.add_0_r|].
  cbn [foldl length]. rewrite <- Nat.add_succ_comm. apply IH. by apply stakes_of_key.
Qed.
Definition total_keys (cs : list BlockEpochContribution) : nat := length (concat (bc_rewarded_keys <$> cs)).
Lemma stakes_of_blocks L bonds n st cs : map_Forall (λ _ b, is_u64 (sb_amount b)) bonds → stakes_of n st.2 →
  stakes_of (n + total_keys cs) (foldl (tally_block L bonds) st cs).2.
Proof.
  intros Hb. revert n st. induction cs as [|c cs IH]; intros n st Hm; [by rewrite Nat.add_0_r|]. cbn [foldl].
  unfold total_keys. rewrite fmap_cons. change (concat (?x :: ?l)) with (x ++ concat l). rewrite length_app, Nat.add_assoc.
  apply IH. cbn. by apply stakes_of_keys.
Qed.

Lemma bond_by_outpoint_from (bonds : list StakeBondRecord) o b : bond_by_outpoint bonds !! o = Some b → b ∈ bonds.
Proof.
  assert (∀ m : ActiveBondView, foldl (λ m b, <[sb_bond_outpoint b := b]> m) m bonds !! o = Some b → b ∈ bonds ∨ m !! o = Some b) as Hgen.
  { induction bonds as [|x l IH]; intros m Hm; [by right|]. destruct (IH _ Hm) as [|Hx]; [left; by right|].
    destruct (decide (sb_bond_outpoint x = o)) as [<-|]; [rewrite lookup_insert_eq in Hx; injection Hx as ->; left; by left|].
    right. by rewrite lookup_insert_ne in Hx. }
  intros [|]%Hgen; done.
Qed.
Lemma recompute_included sink L fd cs bonds et : (∀ b, b ∈ bonds → is_u64 (sb_amount b)) → et ∈ recompute_epoch_tallies sink L fd cs bonds →
  (length (included et.2) ≤ total_keys cs)%nat ∧ Forall (λ ps, is_u64 ps.2) (included et.2).
Proof.
  intros Hb. unfold recompute_epoch_tallies.
  pose proof (stakes_of_blocks (Z.max L 1) (bond_by_outpoint bonds) 0 (∅, ∅) cs) as Hst.
  destruct (foldl _ _ _) as [q i]. intros (e & -> & _)%list_elem_of_fmap. cbn.
  destruct (i !! e) as [l|] eqn:Hl; cbn; [|split; [lia | constructor]]. apply (Hst) in Hl; [done | | apply map_Forall_empty].
  intros o b Hob%bond_by_outpoint_from. by apply Hb.
Qed.
Lemma bond_records_from (v : ActiveBondView) b : b ∈ bond_records v → ∃ o, v !! o = Some b.
Proof. unfold bond_records. intros ([o b'] & -> & Hin%elem_of_map_to_list)%list_elem_of_fmap. by exists o. Qed.

Section claim.
Context {M : Type} `{Multiset M} `{DnsDecode}.

Definition stakes_typed (v : ActiveBondView) : Prop := map_Forall (λ _ r, is_u64 (sb_amount r)) v.

Lemma victims_within {E : Type} p w v epoch payload pool : stakes_typed v → is_u64 pool →
  Z.of_nat (total_keys (contributions w)) < U32_MAX - 2 →
  ∃ outs, @slashed_epoch_victim_outputs E p w v epoch payload pool = Ok outs ∧
    sumZ (value <$> outs) ≤ pool ∧ Forall (λ out, 0 ≤ value out) outs ∧ Z.of_nat (length outs) < U32_MAX - 2.
Proof.
  intros Hv Hp Hk. unfold slashed_epoch_victim_outputs. set (L := Z.max _ 1). set (tallies := recompute_epoch_tallies _ _ _ _ _).
  set (inc := match List.find _ tallies with Some et => included et.2 | None => [] end).
  assert ((length inc ≤ total_keys (contributions w))%nat ∧ Forall (λ ps, is_u64 ps.2) inc) as [Hlen Hu].
  { subst inc. destruct (List.find _ tallies) as [et|] eqn:Hf; [|split; [cbn; lia | constructor]].
    apply find_some in Hf as [Hin%list_elem_of_In _]. eapply recompute_included; [|exact Hin].
    intros b (o & Hb)%bond_records_from. by apply (Hv o). }
  set (honest := filter _ inc).
  assert ((length honest ≤ length inc)%nat) as Hl2 by apply length_filter.
  assert (Forall (λ ps, is_u64 ps.2) honest) as Hu2.
  { apply Forall_forall. intros ps [_ Hin]%list_elem_of_filter. rewrite Forall_forall in Hu. by apply Hu. }
  assert (0 ≤ sumZ honest.*2 ≤ Z.of_nat (length honest) * U64_MAX) as Hsum.
  { clear -Hu2. induction Hu2 as [|ps l Hps Hl IH]; [unfold sumZ; cbn; lia|]. rewrite fmap_cons, sumZ_cons. unfold is_u64 in Hps. cbn [length]. lia. }
  rewrite sum128_Ok.
  - cbn [mbind outcome_bind]. rewrite Z.add_0_l. destruct (victim_outputs_within pool honest Hp Hu2) as (Hs & Hpos & Hl3).
    eexists. split; [done|]. split_and!; [done | done | lia].
  - done.
  - apply Forall_fmap. eapply Forall_impl; [exact Hu2|]. unfold is_u64. cbn. lia.
  - unfold U128_MAX, U64_MAX, U32_MAX in *. nia.
Qed.

Lemma fill_ok {E : Type} p w v e : stakes_typed v → Z.of_nat (total_keys (contributions w)) < U32_MAX - 2 → resolved_ok e →
  ∃ e', @fill_victims E p w v e = Ok e' ∧ effect_ok e' ∧ se_slashing_tx_id e' = se_slashing_tx_id e ∧
    se_bond_outpoint e' = se_bond_outpoint e ∧ se_slashed_amount_sompi e' = se_slashed_amount_sompi e.
Proof.
  intros Hv Hk [Hnone Hrep Hpool Htot]. unfold fill_victims.
  assert (Hgen : ∀ outs, sumZ (value <$> outs) ≤ se_victim_epoch_pool_sompi e → Forall (λ out, 0 ≤ value out) outs →
    Z.of_nat (length outs) < U32_MAX - 2 → effect_ok (with_victim_outputs outs e)).
  { intros outs Hs Hpos Hlen. unfold reporter_value in *.
    assert (sumZ ((λ io, value io.2) <$> imap (λ i out, (2 + Z.of_nat i mod 2 ^ 32, out)) outs) = sumZ (value <$> outs)) as Hsum.
    { rewrite fmap_imap. f_equal. rewrite <- imap_const. by apply imap_ext. }
    assert (Forall (λ io : Z * TransactionOutput, 0 ≤ value io.2) (imap (λ i out, (2 + Z.of_nat i mod 2 ^ 32, out)) outs)) as Hf.
    { apply Forall_forall. intros io (i & out & -> & Ho)%elem_of_lookup_imap. rewrite Forall_forall in Hpos. apply Hpos.
      by eapply list_elem_of_lookup_2. }
    split; unfold minted_outputs; cbn [se_reporter_output se_victim_outputs with_victim_outputs se_slashed_amount_sompi]; [| |done].
    - apply Forall_app. split; [|done]. destruct (se_reporter_output e); repeat constructor; done.
    - rewrite fmap_app, sumZ_app, Hsum. destruct (se_reporter_output e); unfold sumZ at 1; cbn; lia. }
  destruct (se_victim_epoch_pool_sompi e =? 0) eqn:Hz.
  - exists e. split_and!; [done | | done..]. destruct e. cbn in *. subst. apply (Hgen []); [unfold sumZ; cbn; lia | constructor | done].
  - destruct (victims_within (E := E) p w v (se_slashed_epoch e) (sb_owner_reward_spk_payload <$> v !! se_bond_outpoint e) _ Hv Hpool Hk)
      as (outs & -> & Hs & Hpos & Hlen). cbn [mbind outcome_bind]. eexists. split; [done|]. by split_and!; [apply Hgen|..].
Qed.
Lemma fill_all_ok {E : Type} p w v es : stakes_typed v → Z.of_nat (total_keys (contributions w)) < U32_MAX - 2 → Forall resolved_ok es →
  ∃ es', @fill_all_victims E p w v es = Ok es' ∧ Forall effect_ok es' ∧ se_slashing_tx_id <$> es' = se_slashing_tx_id <$> es ∧
    se_bond_outpoint <$> es' = se_bond_outpoint <$> es ∧ se_slashed_amount_sompi <$> es' = se_slashed_amount_sompi <$> es.
Proof.
  intros Hv Hk Hes. induction Hes as [|e es He Hes (es' & IH & Hok & Hi & Hb & Ha)]; cbn [fill_all_victims]; [by exists []|].
  destruct (fill_ok (E := E) p w v e Hv Hk He) as (e' & -> & Hok' & Hi' & Hb' & Ha'). cbn [mbind outcome_bind]. rewrite IH.
  eexists. split; [done|]. rewrite !fmap_cons, Hi, Hb, Ha, Hi', Hb', Ha'. by split_and!; [constructor|..].
Qed.

Lemma resolve_inv v daa tx x : resolve_evidence v daa tx = Some x → ∃ ev r, on_kind KSlashingEvidence decode_evidence tx = Some ev ∧
  v !! ev_bond_outpoint ev = Some r ∧ slashable (effective_bond_status r daa) = true ∧
  ev_outpoint x = ev_bond_outpoint ev ∧ ev_stake x = sb_amount r ∧ ev_tx x = tx_id tx.
Proof.
  unfold resolve_evidence. intros (ev & Hev & (r & Hr & Hs)%bind_Some)%bind_Some. destruct (slashable _) eqn:Hsl; [|done].
  injection Hs as <-. by exists ev, r.
Qed.
Lemma resolve_ids v daa txs : sublist (ev_tx <$> omap (resolve_evidence v daa) txs) (tx_id <$> txs).
Proof.
  induction txs as [|tx txs IH]; cbn [omap list_omap]; [constructor|].
  destruct (resolve_evidence v daa tx) as [x|] eqn:Hx; [|by constructor].
  rewrite fmap_cons. destruct (resolve_inv _ _ _ _ Hx) as (? & ? & _ & _ & _ & _ & _ & ->). by constructor.
Qed.

(** The transactions of accepted evidence are new: no coin and no bond sits at
    one of their outpoints (they declare no outputs). *)
Definition fresh_evidence (base u : UtxoCollection) (v : ActiveBondView) (accepted : list Transaction) : Prop :=
  NoDup (tx_id <$> accepted) ∧
  ∀ tx ev i, tx ∈ accepted → on_kind KSlashingEvidence decode_evidence tx = Some ev →
    base !! mkOutpoint (tx_id tx) i = None ∧ u !! mkOutpoint (tx_id tx) i = None ∧ v !! mkOutpoint (tx_id tx) i = None.
(** The stake-lock rule: a bond's coin holds its declared stake. *)
Definition stake_locked (u : UtxoCollection) (v : ActiveBondView) : Prop :=
  ∀ o r entry, v !! o = Some r → u !! o = Some entry → amount entry = sb_amount r.

Lemma resolved_fit {E : Type} base u v accepted daa b1 b2 b3 : stakes_typed v → stake_locked u v → fresh_evidence base u v accepted →
  ∃ es, @resolve_slashing_side_effects _ E accepted v daa b1 b2 b3 = Ok es ∧ Forall resolved_ok es ∧
    (∀ es', Forall effect_ok es' → se_slashing_tx_id <$> es' = se_slashing_tx_id <$> es → se_bond_outpoint <$> es' = se_bond_outpoint <$> es →
      se_slashed_amount_sompi <$> es' = se_slashed_amount_sompi <$> es → effects_fit base u es') ∧
    (∀ e, e ∈ es → ∃ tx ev, tx ∈ accepted ∧ on_kind KSlashingEvidence decode_evidence tx = Some ev ∧ se_bond_outpoint e = ev_bond_outpoint ev) ∧
    (∀ i, i ∈ se_slashing_tx_id <$> es → ∃ tx ev, tx ∈ accepted ∧ on_kind KSlashingEvidence decode_evidence tx = Some ev ∧ tx_id tx = i) ∧
    (∀ tx ev r, tx ∈ accepted → on_kind KSlashingEvidence decode_evidence tx = Some ev → v !! ev_bond_outpoint ev = Some r →
      slashable (effective_bond_status r daa) = true → ev_bond_outpoint ev ∈ se_bond_outpoint <$> es).
Proof.
  intros Hv Hlock [Hnd Hfresh]. unfold resolve_slashing_side_effects, slashing_side_effects_from_evidence.
  set (evs := omap (resolve_evidence v daa) accepted).
  assert (Hinv : ∀ x, x ∈ evs → ∃ tx ev r, tx ∈ accepted ∧ on_kind KSlashingEvidence decode_evidence tx = Some ev ∧
    v !! ev_bond_outpoint ev = Some r ∧ ev_outpoint x = ev_bond_outpoint ev ∧ ev_stake x = sb_amount r ∧ ev_tx x = tx_id tx).
  { intros x (tx & Htx & (ev & r & ? & ? & ? & ? & ? & ?)%resolve_inv)%list_elem_of_omap. by exists tx, ev, r. }
  destruct (slashing_effects_spec (E := E) evs b1 b2 b3 ∅) as (es & Hes & Hok & Hsub & Hfrom & Hall).
  { apply Forall_forall. intros x (tx & ev & r & _ & _ & Hr & _ & -> & _)%Hinv. by apply (Hv _ _ Hr). }
  assert (Hid : ∀ i, i ∈ se_slashing_tx_id <$> es → ∃ tx ev, tx ∈ accepted ∧ on_kind KSlashingEvidence decode_evidence tx = Some ev ∧ tx_id tx = i).
  { intros i Hi. eapply elem_of_sublist in Hi; [|exact Hsub]. apply list_elem_of_fmap in Hi as (x & -> & (tx & ev & r & ? & ? & _ & _ & _ & ->)%Hinv).
    by exists tx, ev. }
  assert (Hbond : ∀ e, e ∈ es → ∃ tx ev r, tx ∈ accepted ∧ on_kind KSlashingEvidence decode_evidence tx = Some ev ∧
    se_bond_outpoint e = ev_bond_outpoint ev ∧ v !! se_bond_outpoint e = Some r ∧ se_slashed_amount_sompi e = sb_amount r).
  { intros e (x & (tx & ev & r & ? & ? & ? & Ho & Hs & _)%Hinv & Heq & Ha)%Hfrom. exists tx, ev, r. rewrite Heq, Ha, Ho, Hs. done. }
  exists es. split_and!; [done | done | | | done |].
  - intros es' Hok' Hi Hb Ha.
    assert (Hin : ∀ e', e' ∈ es' → ∃ r, v !! se_bond_outpoint e' = Some r ∧ se_slashed_amount_sompi e' = sb_amount r).
    { intros e' (k & Hk)%list_elem_of_lookup. pose proof (f_equal (lookup k) Hb) as Hbk. pose proof (f_equal (lookup k) Ha) as Hak.
      rewrite !list_lookup_fmap, Hk in Hbk. rewrite !list_lookup_fmap, Hk in Hak. destruct (es !! k) as [e|] eqn:He; [|done]. cbn in Hbk, Hak. injection Hbk as ->. injection Hak as ->.
      apply list_elem_of_lookup_2 in He as (_ & _ & r & _ & _ & _ & ? & ?)%Hbond. by exists r. }
    assert (Hin' : ∀ e', e' ∈ es' → ∃ tx ev, tx ∈ accepted ∧ on_kind KSlashingEvidence decode_evidence tx = Some ev ∧ tx_id tx = se_slashing_tx_id e').
    { intros e' He'. apply Hid. rewrite <- Hi. by apply list_elem_of_fmap_2. }
    split; [|done|..].
    + rewrite Hi. eapply sublist_NoDup; [|exact Hsub]. eapply sublist_NoDup; [exact Hnd | apply resolve_ids].
    + intros e' i (tx & ev & Htx & Hev & <-)%Hin'. by destruct (Hfresh tx ev i Htx Hev) as (? & ? & _).
    + intros e' entry (r & Hr & ->)%Hin Hl. by eapply Hlock.
    + intros e1 e2 (r & Hr & _)%Hin (tx & ev & Htx & Hev & <-)%Hin' Heq.
      destruct (Hfresh tx ev (index (se_bond_outpoint e1)) Htx Hev) as (_ & _ & Hn). rewrite <- Heq in Hn.
      destruct (se_bond_outpoint e1). cbn in Hn. congruence.
  - intros e (tx & ev & r & ? & ? & ? & _)%Hbond. by exists tx, ev.
  - intros tx ev r Htx Hev Hr Hs. unfold evs in Hall.
    assert (resolve_evidence v daa tx = Some (ev_bond_outpoint ev, sb_amount r, ev_reporter_reward_spk_payload ev, tx_id tx, att_epoch (ev_attestation_a ev))) as Hx.
    { unfold resolve_evidence. rewrite Hev. cbn. rewrite Hr. cbn. by rewrite Hs. }
    destruct (Hall (ev_bond_outpoint ev, sb_amount r, ev_reporter_reward_spk_payload ev, tx_id tx, att_epoch (ev_attestation_a ev))) as [|]; [|set_solver|done].
    apply list_elem_of_omap. by exists tx.
Qed.

(** What slashing does to the UTXO set [u]: the supply does not grow, the coin
    of every slashable bond named by accepted evidence is gone, and coins that
    no accepted evidence names stay. *)
Definition slashed_set (v : ActiveBondView) (accepted : list Transaction) (daa : Z) (u u' : UtxoCollection) : Prop :=
  supply u' ≤ supply u ∧
  (∀ tx ev r, tx ∈ accepted → on_kind KSlashingEvidence decode_evidence tx = Some ev → v !! ev_bond_outpoint ev = Some r →
    slashable (effective_bond_status r daa) = true → u' !! ev_bond_outpoint ev = None) ∧
  (∀ o entry, u !! o = Some entry →
    (∀ tx ev, tx ∈ accepted → on_kind KSlashingEvidence decode_evidence tx = Some ev → ev_bond_outpoint ev ≠ o) → u' !! o = Some entry).

(** C9. Slashing never creates money. On a diff that fits the UTXO set, with
    every bond's coin holding its declared stake and the evidence transactions
    new, the slashing side effects of a block always complete; the supply does
    not grow; the coin of every slashable bond named by accepted evidence is
    gone; and every coin that no accepted evidence names is unchanged. *)
Theorem slashing_never_inflates {E : Type} p w accepted (base : UtxoCollection) v daa (d : UtxoDiff) (ms : M) :
  valid_on base d → stakes_typed v → stake_locked (apply_diff base d) v → fresh_evidence base (apply_diff base d) v accepted →
  Z.of_nat (total_keys (contributions w)) < U32_MAX - 2 → dns_activation_daa_score p ≤ daa →
  ∃ d' ms' accrual, @apply_slashing_side_effects _ E M _ p w accepted base v daa (d, ms) = Ok (d', ms', accrual) ∧ valid_on base d' ∧
    slashed_set v accepted daa (apply_diff base d) (apply_diff base d').
Proof.
  intros Hval Hv Hlock Hfresh Hk Hact. unfold apply_slashing_side_effects. replace (daa <? dns_activation_daa_score p) with false by lia.
  assert (Hgo : ∀ c2 c3, ∃ d' ms' accrual, (effects ← @resolve_slashing_side_effects _ E accepted v daa (slashing_reporter_reward_bps p) c2 c3;
    effects ← fill_all_victims p w v effects; st ← apply_slashing_effects_to_state effects base d ms daa;
    Ok (st, saturating_sum (se_security_reserve_sompi <$> effects))) = Ok (d', ms', accrual) ∧ valid_on base d' ∧
    slashed_set v accepted daa (apply_diff base d) (apply_diff base d')); [|destruct (pos_v2_activation_daa_score p <=? daa); apply Hgo].
  intros c2 c3. destruct (resolved_fit (E := E) base (apply_diff base d) v accepted daa (slashing_reporter_reward_bps p) c2 c3 Hv Hlock Hfresh)
    as (es & -> & Hok & Hfit & Hb & Hi & Hall). cbn [mbind outcome_bind].
  destruct (fill_all_ok (E := E) p w v es Hv Hk Hok) as (es' & -> & Hok' & Hids & Hbs & Has). cbn [mbind outcome_bind].
  destruct (apply_effects (E := E) base daa es' d ms Hval (Hfit es' Hok' Hids Hbs Has)) as (d' & ms' & -> & Hv' & Hs & Hgone & Hkeep).
  cbn [mbind outcome_bind]. eexists _, _, _. split; [done|]. unfold slashed_set. split_and!; [done | done | |].
  - intros tx ev r Htx Hev Hr Hsl. pose proof (Hall tx ev r Htx Hev Hr Hsl) as Hin. rewrite <- Hbs in Hin.
    apply list_elem_of_fmap in Hin as (e & -> & He). by apply Hgone.
  - intros o entry Ho Hne. rewrite Hkeep; [done | |].
    + rewrite Hids. intros (tx & ev & Htx & Hev & Heq)%Hi. destruct Hfresh as [_ Hf]. destruct (Hf tx ev (index o) Htx Hev) as (_ & Hn & _).
      rewrite Heq in Hn. destruct o as [t k]. change (apply_diff base d !! mkOutpoint t k = None) in Hn. congruence.
    + rewrite Hbs. intros (e & -> & (tx & ev & Htx & Hev & Heq)%Hb)%list_elem_of_fmap. by apply (Hne tx ev Htx Hev).
Qed.
End claim.

(** ** The deferred quality bonus

    The bonus of a finalised epoch is divided by the stake active at the DAA
    score [E * epoch_length], while the recipients were included because they
    were active at the anchor of the blue-score epoch [E], a later point. *)

Lemma quality_outputs_eq pool (inc : list (Hash64 * Z)) expected : validator_quality_bonus_outputs pool inc expected true =
  omap (λ ps : Hash64 * Z, paid_output (Z.min (proportional_share pool ps.2 expected) U64_MAX) (hash64_bytes ps.1)) inc.
Proof.
  unfold validator_quality_bonus_outputs, validator_quality_bonus. cbn [negb].
  induction inc as [|[h s] l IH]; [done|]. cbn [omap list_omap fst snd]. by rewrite IH.
Qed.

(** When the included stake fits in the denominator the bonus fits in the pool. *)
Lemma quality_within_pool pool inc expected meets : is_u64 pool → 0 ≤ expected → Forall (λ ps : Hash64 * Z, is_u64 ps.2) inc → sumZ inc.*2 ≤ expected →
  sumZ (value <$> validator_quality_bonus_outputs pool inc expected meets) ≤ pool.
Proof.
  intros Hp He Hu Hs. destruct meets; [|unfold is_u64 in Hp; cbn; unfold sumZ; cbn; lia]. rewrite quality_outputs_eq.
  destruct (paid_outputs (λ ps : Hash64 * Z, proportional_share pool ps.2 expected) (λ ps, hash64_bytes ps.1) inc) as (Hsum & _ & _).
  { intros ps Hin. apply proportional_share_bound; [done | by rewrite Forall_forall in Hu; apply Hu | done]. }
  etransitivity; [exact Hsum|]. pose proof (shares_within_pool pool expected inc.*2 Hp He) as Hw.
  rewrite <- list_fmap_compose in Hw. apply Hw; [by apply Forall_fmap | done].
Qed.

(** A recipient at least as large as the denominator takes the whole pool. *)
Lemma quality_whole_pool pool inc expected : is_u64 pool → 0 < expected → Forall (λ ps : Hash64 * Z, is_u64 ps.2 ∧ expected ≤ ps.2) inc →
  sumZ (value <$> validator_quality_bonus_outputs pool inc expected true) = len inc * pool.
Proof.
  intros Hp He Hu. rewrite quality_outputs_eq. induction Hu as [|[h s] l [Hs Hle] Hl IH]; [done|]. cbn [omap list_omap fst snd] in *.
  assert (proportional_share pool s expected = pool) as ->.
  { rewrite proportional_share_eq by done. replace (Z.min s expected) with expected by lia. apply Z.div_mul. lia. }
  replace (Z.min pool U64_MAX) with pool by (unfold is_u64 in Hp; lia). unfold paid_output at 1. destruct (0 <? pool) eqn:Hz.
  - rewrite fmap_cons, sumZ_cons, IH. cbn [value]. rewrite length_cons. lia.
  - rewrite IH. unfold is_u64 in Hp. rewrite length_cons. nia.
Qed.

Lemma quality_floor_met inc expected phi : 0 ≤ phi ≤ 10000 → 0 ≤ expected ≤ inc → epoch_meets_quality_floor inc expected phi = true.
Proof. intros Hphi Hi. unfold epoch_meets_quality_floor, sat_mul128. apply Z.leb_le. assert (phi * expected ≤ inc * 10000) by nia. lia. Qed.
Lemma sum_bound (l : list (Hash64 * Z)) : Forall (λ ps, is_u64 ps.2) l → 0 ≤ sumZ l.*2 ≤ len l * U64_MAX.
Proof.
  induction 1 as [|ps l Hps Hl IH]; [unfold sumZ; cbn; lia|]. rewrite fmap_cons, sumZ_cons. unfold is_u64 in Hps. cbn [length]. lia.
Qed.
Lemma sumZ_member l z : Forall (λ z, 0 ≤ z) l → z ∈ l → z ≤ sumZ l.
Proof.
  induction 1 as [|a l Ha Hl IH]; [by intros ?%elem_of_nil|]. rewrite sumZ_cons. pose proof (sumZ_nonneg _ Hl).
  intros [->|Hin]%elem_of_cons; [lia|]. specialize (IH Hin). lia.
Qed.

(** C32. The deferred quality bonus can mint several pools. When a block
    finalises an epoch whose recipients each hold at least the stake the bonus
    divides by (bonds that became active after [E * epoch_length] but before
    the anchor they attested), each recipient is paid the whole accrued pool:
    the block mints as many pools as there are recipients. The comments promise
    that the outputs sum to at most one pool. *)
Theorem quality_bonus_overmints {E : Type} p w v daa range t :
  pos_v2_activation_daa_score p ≤ daa →
  @epochs_finalized_at E (parent_daa w) daa (Z.max (epoch_length_blocks p) 1) (finalization_depth p) = Ok (Some range) →
  crossed_tallies p w v daa range = [t] →
  is_u64 (quality_pool_accrued t) → 0 < expected_stake t → 0 ≤ stake_event_quality_floor_bps p ≤ 10000 →
  included t ≠ [] → len (included t) ≤ U32_MAX → Forall (λ ps, is_u64 ps.2 ∧ expected_stake t ≤ ps.2) (included t) →
  ∃ outs, @deferred_quality_bonus_outputs E p w v daa = Ok outs ∧
    sumZ (value <$> outs) = len (included t) * quality_pool_accrued t.
Proof.
  intros Hact Hr Ht Hq He Hphi Hne Hlen Hall. unfold deferred_quality_bonus_outputs.
  replace (daa <? pos_v2_activation_daa_score p) with false by lia. rewrite Hr. cbn [mbind outcome_bind]. rewrite Ht. cbn [quality_outputs].
  assert (Forall (λ ps : Hash64 * Z, is_u64 ps.2) (included t)) as Hu by (eapply Forall_impl; [exact Hall|]; by intros ? [? ?]).
  pose proof (sum_bound _ Hu) as Hsum.
  assert (Forall (λ z, 0 ≤ z) (included t).*2) as Hnn by (apply Forall_fmap; eapply Forall_impl; [exact Hu|]; unfold is_u64; cbn; lia).
  rewrite sum128_Ok; [| done | done | unfold U128_MAX, U64_MAX, U32_MAX in *; nia]. cbn [mbind outcome_bind].
  rewrite quality_floor_met; [| done |].
  - eexists. split; [done|]. rewrite app_nil_r. by apply quality_whole_pool.
  - split; [lia|]. destruct (included t) as [|[h s] l] eqn:Hi; [done|]. apply Forall_cons in Hall as [[_ Hs] _]. cbn in Hs.
    etransitivity; [exact Hs|]. rewrite Z.add_0_l. apply sumZ_member; [done|]. by left.
Qed.
