(* ===== verification/DnsScore.v ===== *)
(** * DNS finality: anchors, StakeScore, dormancy and the reorg gate

    Models the finality side of the stake overlay:
    - the canonical lagged anchor of an epoch, the score of a window of epochs,
      health, confirmation and the reorg rule of
      [src/consensus/core/src/dns_finality.rs];
    - their use in
      [src/consensus/src/pipeline/virtual_processor/processor.rs]: the walks of
      the selected chain, the recomputation of [DnsState], the dormancy
      catch-up and the reorg gate.

    A selected chain is the list of blocks that the backward iterator yields,
    tip first, each with the data the stores hold for it; a query whether a
    block is a chain ancestor is answered on that list. Reads of these stores
    succeed. *)

From stdpp Require Import base list gmap sorting.
From Stdlib Require Import ZArith Lia.
From S2P Require Import Prelude Tx Utxo Bytes Hashing ScriptNum ScriptOps ScriptEngine Ghostdag Palw DnsBond DnsReward DnsRules.

Local Open Scope Z_scope.

(** ** Parameters *)

Inductive DnsReorgMode : Type := HardCheckpoint | TwoDimensionalDominance.
#[export] Instance DnsReorgMode_eq_dec : EqDecision DnsReorgMode.
Proof. solve_decision. Defined.
Inductive DnsRolloutStage : Type := StageLaunch | StageBootstrap | StageActive.
#[export] Instance DnsRolloutStage_eq_dec : EqDecision DnsRolloutStage.
Proof. solve_decision. Defined.
Inductive DnsHealth : Type := DisabledBeforeActivation | HealthActive | DegradedStakeQualityLow | DegradedCertificateCensored.

(** The fields of [DnsParams] that only this file reads; the others are in
    [sp_dns] and [sp_dormancy]. *)
Record ScoreParams := mkScoreParams {
  sp_dns : DnsParams;
  sp_dormancy : DormancyParams;
  min_active_stake_sompi : Z;
  min_active_validators : Z;
  required_work_depth : Z;
  required_stake_depth : Z;
  emergency_work_margin : Z;
  emergency_stake_margin : Z;
  max_attestation_shard_mass : Z;
  degraded_stake_quality_epochs : Z;
  stake_censorship_floor_bps : Z;
  reorg_mode : DnsReorgMode;
  attestation_epoch_length_blue_score : Z;
  attestation_lag_blue_score : Z;
  attestation_anchor_backoff_blue_score : Z;
  stake_score_window_blue_score : Z;
  mandatory_attestation_inclusion_daa_score : Z;
  dormancy_activation_daa_score : Z;
  dormancy_revival_delay_epochs : Z;
}.

Definition dns_v3_params_consistent (p : ScoreParams) : bool :=
  let l := attestation_epoch_length_blue_score p in
  let lag := attestation_lag_blue_score p in
  let backoff := attestation_anchor_backoff_blue_score p in
  let depth_epochs := Z.max (cast64 (required_stake_depth p / STAKE_SCORE_SCALE)) 2 in
  let needed := sat_add64 (sat_add64 (sat_mul64 depth_epochs l) lag) backoff in
  (1 <=? l) && (1 <=? lag) && (backoff <? l) && (needed <=? stake_score_window_blue_score p).
Definition dns_v4_params_consistent (p : ScoreParams) : bool :=
  let l := attestation_epoch_length_blue_score p in
  let d := sp_dormancy p in
  let i1 := sat_add64 (unbonding_period_blocks (sp_dns p)) (max_reorg_horizon_blocks (sp_dns p)) <=? sat_mul64 (dormancy_window_epochs d) l in
  let i2 := (0 <? dormancy_evict_limit_bps d) && (dormancy_evict_limit_bps d <=? 10000) && (1 <=? dormancy_evict_period_epochs d) in
  let i4 := 1 <=? dormancy_revival_delay_epochs p in
  let i5 := degraded_stake_quality_epochs p <? dormancy_window_epochs d in
  let bury_blue := Z.max (attestation_lag_blue_score p) (max_reorg_horizon_blocks (sp_dns p)) in
  let i6 := sat_add64 bury_blue l <=? stake_score_window_blue_score p in
  dns_v3_params_consistent p && i1 && i2 && i4 && i5 && i6.

(** ** Canonical lagged anchors *)

Record CanonicalLaggedEpochAnchor := mkAnchor {
  an_epoch : Z;
  an_epoch_start_blue_score : Z;
  an_epoch_end_blue_score : Z;
  an_cutoff_blue_score : Z;
  an_anchor_hash : Hash64;
  an_anchor_blue_score : Z;
  an_anchor_daa_score : Z;
  an_duplicate_of_previous_anchor : bool;
}.

(** Hash, blue score, DAA score. *)
Abbreviation Ancestor := (Hash64 * Z * Z)%type.

Definition epoch_start_blue_score (epoch epoch_len_blue_score : Z) : Z := sat_mul64 epoch (Z.max epoch_len_blue_score 1).
Definition epoch_end_blue_score (epoch epoch_len_blue_score : Z) : Z :=
  sat_sub64 (epoch_start_blue_score (sat_add64 epoch 1) epoch_len_blue_score) 1.
Definition anchor_cutoff_blue_score (epoch epoch_len_blue_score backoff_blue_score : Z) : Z :=
  sat_sub64 (epoch_end_blue_score epoch epoch_len_blue_score) backoff_blue_score.
Definition ready_epoch_from_tip_blue_score (tip_blue_score epoch_len_blue_score lag_blue_score : Z) : option Z :=
  let epoch_len := Z.max epoch_len_blue_score 1 in
  safe ← checked_sub64 tip_blue_score lag_blue_score;
  next ← checked_add64 safe 1;
  let completed := next / epoch_len in
  if completed =? 0 then None else Some (completed - 1).

(** The most recent ancestor at or below a blue score. *)
Definition at_or_below (cutoff : Z) (ancestors : list Ancestor) : option Ancestor :=
  snd <$> list_find (λ a : Ancestor, a.1.2 ≤ cutoff) ancestors.
Definition canonical_lagged_epoch_anchor (epoch epoch_len_blue_score backoff_blue_score : Z) (ancestors : list Ancestor) :
    option CanonicalLaggedEpochAnchor :=
  let epoch_len := Z.max epoch_len_blue_score 1 in
  let cutoff := anchor_cutoff_blue_score epoch epoch_len backoff_blue_score in
  '(anchor_hash, anchor_blue_score, anchor_daa_score) ← at_or_below cutoff ancestors;
  let duplicate :=
    if epoch =? 0 then false
    else bool_decide ((λ a : Ancestor, a.1.1) <$> at_or_below (anchor_cutoff_blue_score (epoch - 1) epoch_len backoff_blue_score) ancestors
                      = Some anchor_hash) in
  Some (mkAnchor epoch (epoch_start_blue_score epoch epoch_len) (epoch_end_blue_score epoch epoch_len) cutoff
    anchor_hash anchor_blue_score anchor_daa_score duplicate).

(** A block of the selected chain. *)
Record ChainBlock := mkChainBlock {
  cb_hash : Hash64;
  cb_blue_score : Z;
  cb_daa_score : Z;
  cb_blue_work : Z;
  cb_accepted : option (list Transaction);
}.
Definition ancestor_of_block (c : ChainBlock) : Ancestor := (cb_hash c, cb_blue_score c, cb_daa_score c).

(** The walks below iterate over the tip and then the backward iterator from
    the tip, which yields the tip again. *)
Fixpoint ancestors_until (stop : Z → bool) (tip_blue_score window : Z) (blocks : list ChainBlock) : list Ancestor :=
  match blocks with
  | [] => []
  | c :: blocks =>
    if window <? sat_sub64 tip_blue_score (cb_blue_score c) then []
    else ancestor_of_block c :: (if stop (cb_blue_score c) then [] else ancestors_until stop tip_blue_score window blocks)
  end.
Definition canonical_anchor_by_blue_score (p : ScoreParams) (epoch : Z) (chain : list ChainBlock) : option CanonicalLaggedEpochAnchor :=
  let epoch_len := Z.max (attestation_epoch_length_blue_score p) 1 in
  let backoff := attestation_anchor_backoff_blue_score p in
  tip ← head chain;
  let tip_blue_score := cb_blue_score tip in
  let cutoff := anchor_cutoff_blue_score epoch epoch_len backoff in
  if tip_blue_score <? cutoff then None
  else
    let needed := anchor_cutoff_blue_score (sat_sub64 epoch 1) epoch_len backoff in
    canonical_lagged_epoch_anchor epoch epoch_len backoff
      (ancestors_until (λ blue, blue <=? needed) tip_blue_score (stake_score_window_blue_score p) (tip :: chain)).

(** The loop of [canonical_anchors_in_window] from an epoch downwards. *)
Fixpoint anchors_down (epoch_len backoff oldest_blue : Z) (ancestors : list Ancestor) (epoch : nat) : gmap Z CanonicalLaggedEpochAnchor :=
  let e := Z.of_nat epoch in
  if anchor_cutoff_blue_score (sat_sub64 e 1) epoch_len backoff <? oldest_blue then ∅
  else
    let older := match epoch with O => ∅ | S epoch => anchors_down epoch_len backoff oldest_blue ancestors epoch end in
    match canonical_lagged_epoch_anchor e epoch_len backoff ancestors with
    | Some a => if an_duplicate_of_previous_anchor a then older else <[e := a]> older
    | None => older
    end.
Definition canonical_anchors_in_window (p : ScoreParams) (chain : list ChainBlock) : gmap Z CanonicalLaggedEpochAnchor :=
  let epoch_len := Z.max (attestation_epoch_length_blue_score p) 1 in
  match head chain with
  | None => ∅
  | Some tip =>
    let tip_blue := cb_blue_score tip in
    match ready_epoch_from_tip_blue_score tip_blue epoch_len (attestation_lag_blue_score p) with
    | None => ∅
    | Some latest_ready =>
      let ancestors := ancestors_until (λ _, false) tip_blue (stake_score_window_blue_score p) (tip :: chain) in
      let oldest_blue := match last ancestors with Some a => a.1.2 | None => tip_blue end in
      anchors_down epoch_len (attestation_anchor_backoff_blue_score p) oldest_blue ancestors (Z.to_nat latest_ready)
    end
  end.

(** ** StakeScore *)

Record EpochStakeTally := mkStakeTally { st_epoch : Z; st_signed_stake_sompi : Z; st_total_active_stake_sompi : Z }.

Definition epoch_stake_credit {E : Type} (included_stake expected_stake quality_floor_bps : Z) : outcome E Z :=
  if expected_stake =? 0 then Ok 0
  else
    let included := Z.min included_stake expected_stake in
    let floor := Z.min quality_floor_bps 10000 in
    if sat_mul128 included 10000 <? sat_mul128 expected_stake floor then Ok 0
    else
      let denom := 10000 - floor in
      if denom =? 0 then Ok STAKE_SCORE_SCALE
      else
        a ← chk128 (included * 10000);
        b ← chk128 (expected_stake * floor);
        numerator ← chk128 (a - b);
        Ok (sat_mul128 numerator STAKE_SCORE_SCALE / sat_mul128 expected_stake denom).
Fixpoint stake_score_loop {E : Type} (per_epoch : list EpochStakeTally) (quality_floor_bps acc : Z) : outcome E Z :=
  match per_epoch with
  | [] => Ok acc
  | e :: per_epoch =>
    credit ← epoch_stake_credit (st_signed_stake_sompi e) (st_total_active_stake_sompi e) quality_floor_bps;
    stake_score_loop per_epoch quality_floor_bps (sat_add128 acc credit)
  end.
Definition compute_stake_score {E : Type} (per_epoch : list EpochStakeTally) (quality_floor_bps : Z) : outcome E Z :=
  stake_score_loop per_epoch quality_floor_bps 0.

Definition frac_bps (e : EpochStakeTally) : Z :=
  if st_total_active_stake_sompi e =? 0 then 0
  else Z.min (st_signed_stake_sompi e) (st_total_active_stake_sompi e) * 10000 / st_total_active_stake_sompi e.
Definition derive_dns_health (per_epoch : list EpochStakeTally) (quality_floor_bps censorship_floor_bps degraded_epochs : Z)
    (overlay_active : bool) : DnsHealth :=
  if negb overlay_active then DisabledBeforeActivation
  else
    let m := Z.to_nat (Z.max degraded_epochs 1) in
    if bool_decide (length per_epoch < m)%nat then HealthActive
    else
      let window := drop (length per_epoch - m) per_epoch in
      if existsb (λ e, quality_floor_bps <=? frac_bps e) window then HealthActive
      else if forallb (λ e, frac_bps e <? censorship_floor_bps) window then DegradedCertificateCensored
      else DegradedStakeQualityLow.

Record AttestationContribution := mkAttContribution {
  ac_epoch : Z;
  ac_validator_id : Hash64;
  ac_bond_outpoint : TransactionOutpoint;
  ac_signed_stake_sompi : Z;
}.
#[export] Instance AttestationContribution_eq_dec : EqDecision AttestationContribution.
Proof. solve_decision. Defined.

Definition contribution_key (c : AttestationContribution) : TransactionOutpoint * Hash64 * Z :=
  (ac_bond_outpoint c, ac_validator_id c, ac_epoch c).
Fixpoint signed_by_epoch (contributions : list AttestationContribution) (seen : gset (TransactionOutpoint * Hash64 * Z))
    (signed : gmap Z Z) : gmap Z Z :=
  match contributions with
  | [] => signed
  | c :: contributions =>
    if bool_decide (contribution_key c ∈ seen) then signed_by_epoch contributions seen signed
    else signed_by_epoch contributions ({[contribution_key c]} ∪ seen)
           (<[ac_epoch c := sat_add64 (default 0 (signed !! ac_epoch c)) (ac_signed_stake_sompi c)]> signed)
  end.
(** The entries of a [BTreeMap] in key order. *)
Definition key_le {A : Type} (a b : Z * A) : Prop := a.1 ≤ b.1.
#[export] Instance key_le_dec {A : Type} : RelDecision (@key_le A).
Proof. intros a b. unfold key_le. apply _. Defined.
Definition by_key {A : Type} (m : gmap Z A) : list (Z * A) := merge_sort key_le (map_to_list m).
Definition aggregate_epoch_tallies (contributions : list AttestationContribution) (total_active_stake_by_epoch : gmap Z Z) :
    list EpochStakeTally :=
  let signed := signed_by_epoch contributions ∅ ∅ in
  (λ '(epoch, total), mkStakeTally epoch (default 0 (signed !! epoch)) total) <$> by_key total_active_stake_by_epoch.
Definition total_active_stake_by_epoch (bonds : list StakeBondRecord) (epoch_anchor_daa : gmap Z Z) : gmap Z Z :=
  (λ anchor_daa, saturating_sum (sb_amount <$> filter (λ b, is_bond_active_at b anchor_daa = true) bonds)) <$> epoch_anchor_daa.

(** ** The attestations of a chain *)

Section collect.
Context `{Crypto} `{DnsDecode}.

(** [find_bond] is the first record with the outpoint. *)
Definition find_bond (bonds : list StakeBondRecord) (o : TransactionOutpoint) : option StakeBondRecord :=
  snd <$> list_find (λ b, sb_bond_outpoint b = o) bonds.
(** A good attestation is credited ([inl]) or only a revival signal ([inr]). *)
Definition good_attestation (creditable : gmap Z CanonicalLaggedEpochAnchor) (bonds : list StakeBondRecord) (net_id : Hash64)
    (att : StakeAttestation) : option (AttestationContribution + TransactionOutpoint * Z) :=
  anchor ← creditable !! att_epoch att;
  if bool_decide (att_target_hash att ≠ an_anchor_hash anchor) || negb (att_target_daa_score att =? an_anchor_daa_score anchor) then None
  else
    bond ← find_bond bonds (att_bond_outpoint att);
    if bool_decide (att_validator_id att ≠ sb_validator_pubkey_hash bond) then None
    else
      let status := effective_bond_status bond (an_anchor_daa_score anchor) in
      if negb (bool_decide (status = Active ∨ status = Dormant)) then None
      else if verifies (sb_validator_pubkey bond) (attestation_digest net_id att) (att_signature att) ATTESTATION_MLDSA87_CONTEXT
      then Some (if bool_decide (status = Active)
                 then inl (mkAttContribution (att_epoch att) (att_validator_id att) (att_bond_outpoint att) (sb_amount bond))
                 else inr (att_bond_outpoint att, att_epoch att))
      else None.
Fixpoint blocks_in_window (stop_at : option Hash64) (tip_blue window : Z) (chain : list ChainBlock) : list ChainBlock :=
  match chain with
  | [] => []
  | c :: chain =>
    if bool_decide (Some (cb_hash c) = stop_at) then []
    else if window <? sat_sub64 tip_blue (cb_blue_score c) then []
    else c :: blocks_in_window stop_at tip_blue window chain
  end.
(** The blocks of the chain from [i] downwards. *)
Fixpoint chain_from (i : Hash64) (chain : list ChainBlock) : list ChainBlock :=
  match chain with
  | [] => []
  | c :: chain' => if bool_decide (cb_hash c = i) then chain else chain_from i chain'
  end.
Definition is_chain_ancestor_of (a i : Hash64) (chain : list ChainBlock) : bool := bool_decide (a ∈ (cb_hash <$> chain_from i chain)).

Definition collect_stake_contributions_v2 (p : ScoreParams) (net_id : Hash64) (chain : list ChainBlock) (stop_at : option Hash64)
    (bonds : list StakeBondRecord) : list AttestationContribution * gmap Z Z * list (TransactionOutpoint * Z) :=
  let creditable := filter (λ ea : Z * CanonicalLaggedEpochAnchor,
      match stop_at with
      | Some i => bool_decide (an_anchor_hash ea.2 ≠ i) && negb (is_chain_ancestor_of (an_anchor_hash ea.2) i chain)
      | None => true
      end = true) (canonical_anchors_in_window p chain) in
  let epoch_anchor_daa := an_anchor_daa_score <$> creditable in
  match head chain with
  | None => ([], epoch_anchor_daa, [])
  | Some tip =>
    let blocks := blocks_in_window stop_at (cb_blue_score tip) (stake_score_window_blue_score p) chain in
    let atts := b ← blocks; attestations_from_accepted_txs (default [] (cb_accepted b)) in
    let good := omap (good_attestation creditable bonds net_id) atts in
    (omap (λ g, match g with inl c => Some c | inr _ => None end) good, epoch_anchor_daa,
     omap (λ g, match g with inl _ => None | inr s => Some s end) good)
  end.

(** [stake_score_since_ancestor] ([Some]) and [stake_score_over_window] ([None]). *)
Definition stake_score_since {E : Type} (p : ScoreParams) (net_id : Hash64) (chain : list ChainBlock) (stop_at : option Hash64)
    (bonds : list StakeBondRecord) : outcome E Z :=
  let '(contributions, epoch_anchor_daa, _) := collect_stake_contributions_v2 p net_id chain stop_at bonds in
  let per_epoch := aggregate_epoch_tallies contributions (total_active_stake_by_epoch bonds epoch_anchor_daa) in
  compute_stake_score per_epoch (stake_event_quality_floor_bps (sp_dns p)).
End collect.

(** ** Confirmation *)

Record DnsState := mkDnsState {
  ds_selected_chain_anchor : Hash64;
  ds_anchor_daa_score : Z;
  ds_work_depth : Z;
  ds_stake_depth : Z;
  ds_last_dns_confirmed_anchor : Hash64;
  ds_last_dns_confirmed_anchor_daa_score : Z;
  ds_rollout_stage : DnsRolloutStage;
  ds_validator_set_commitment : Hash64;
  ds_health : DnsHealth;
  ds_last_evicted_round_epoch : Z;
}.

(** [Hash64::default()]. *)
Definition DEFAULT_HASH : Hash64 := 0.

Definition is_dns_confirmed (work_depth stake_depth required_work_depth required_stake_depth : Z) : bool :=
  (required_work_depth <=? work_depth) && (required_stake_depth <=? stake_depth).
Definition advance_dns_confirmation (prev : option DnsState) (anchor : Hash64) (anchor_daa_score : Z) (confirmable_anchor : option (Hash64 * Z))
    (work_depth stake_depth : Z) (rollout_stage : DnsRolloutStage) (validator_set_commitment : Hash64) (health : DnsHealth)
    (required_work_depth required_stake_depth last_evicted_round_epoch : Z) : DnsState :=
  let confirmed := bool_decide (is_Some confirmable_anchor)
    && is_dns_confirmed work_depth stake_depth required_work_depth required_stake_depth in
  let '(last_anchor, last_daa) :=
    match confirmed, confirmable_anchor, prev with
    | true, Some canonical, _ => canonical
    | _, _, Some s => (ds_last_dns_confirmed_anchor s, ds_last_dns_confirmed_anchor_daa_score s)
    | _, _, None => (DEFAULT_HASH, 0)
    end in
  mkDnsState anchor anchor_daa_score work_depth stake_depth last_anchor last_daa rollout_stage validator_set_commitment health
    last_evicted_round_epoch.

(** ** The reorg rule *)

Record DnsReorgInputs := mkReorgInputs {
  ri_rollout_stage : DnsRolloutStage;
  ri_mode : DnsReorgMode;
  ri_candidate_includes_confirmed_anchor : bool;
  ri_candidate_work_after : Z;
  ri_canonical_work_after : Z;
  ri_candidate_stake_after : Z;
  ri_canonical_stake_after : Z;
  ri_emergency_work_margin : Z;
  ri_emergency_stake_margin : Z;
}.
Inductive DnsReorgOutcome : Type :=
  GateInactive | IncludesConfirmedAnchor | DominanceSatisfied | HardCheckpointReject | DominanceViolation.
Definition is_accept (o : DnsReorgOutcome) : bool :=
  match o with GateInactive | IncludesConfirmedAnchor | DominanceSatisfied => true | _ => false end.

(** Saturating operations of [BlueWorkType]. *)
Definition work_sat_add (a b : Z) : Z := Z.min (a + b) WORK_MAX.
Definition work_sat_sub (a b : Z) : Z := Z.max (a - b) 0.

Definition check_dns_reorg_rule (i : DnsReorgInputs) : DnsReorgOutcome :=
  if bool_decide (ri_rollout_stage i ≠ StageActive) then GateInactive
  else if ri_candidate_includes_confirmed_anchor i then IncludesConfirmedAnchor
  else match ri_mode i with
  | HardCheckpoint => HardCheckpointReject
  | TwoDimensionalDominance =>
    let work_bound := work_sat_add (ri_canonical_work_after i) (ri_emergency_work_margin i) in
    let stake_bound := sat_add128 (ri_canonical_stake_after i) (ri_emergency_stake_margin i) in
    let work_ok := work_bound <? ri_candidate_work_after i in
    let stake_ok := stake_bound <? ri_candidate_stake_after i in
    if work_ok && stake_ok then DominanceSatisfied else DominanceViolation
  end.
Definition reorg_inputs_since_common_ancestor (rollout_stage : DnsRolloutStage) (mode : DnsReorgMode) (includes : bool)
    (candidate_blue_work canonical_blue_work common_ancestor_blue_work candidate_stake_after canonical_stake_after
     emergency_work_margin emergency_stake_margin : Z) : DnsReorgInputs :=
  mkReorgInputs rollout_stage mode includes (work_sat_sub candidate_blue_work common_ancestor_blue_work)
    (work_sat_sub canonical_blue_work common_ancestor_blue_work) candidate_stake_after canonical_stake_after
    emergency_work_margin emergency_stake_margin.

(** The first block of [walk] that is on the chain [b], with the number of
    iterations before it. *)
Fixpoint first_common (walked max_walk : Z) (walk b : list ChainBlock) : option (ChainBlock * Z) :=
  match walk with
  | [] => None
  | c :: walk =>
    if max_walk <? walked then None
    else if bool_decide (cb_hash c ∈ (cb_hash <$> b)) then Some (c, walked)
    else first_common (walked + 1) max_walk walk b
  end.
Definition selected_chain_common_ancestor (a b : list ChainBlock) (max_walk : Z) : option (ChainBlock * Z) :=
  match a with
  | [] => None
  | tip :: _ => first_common 0 max_walk (tip :: a) b
  end.

Section gate.
Context `{Crypto} `{DnsDecode}.

(** [has_reachability]: whether the reachability store still knows a block. *)
Definition dns_reorg_allows {E : Type} (p : ScoreParams) (net_id : Hash64) (state : option DnsState) (has_reachability : Hash64 → bool)
    (candidate prev_sink : list ChainBlock) (candidate_bonds canonical_bonds : list StakeBondRecord) : outcome E bool :=
  match state with
  | None => Ok true
  | Some state =>
    if bool_decide (ds_rollout_stage state ≠ StageActive) then Ok true
    else
      let confirmed := ds_last_dns_confirmed_anchor state in
      if bool_decide (confirmed = DEFAULT_HASH) then Ok true
      else
        let includes := negb (has_reachability confirmed) || bool_decide (confirmed ∈ (cb_hash <$> candidate)) in
        inputs ←
          (if bool_decide (reorg_mode p = TwoDimensionalDominance) && negb includes then
             let walk := Z.max (max_reorg_horizon_blocks (sp_dns p)) (stake_score_window_blue_score p) in
             let ancestor := fst <$> selected_chain_common_ancestor candidate prev_sink walk in
             let common_work := from_option cb_blue_work 0 ancestor in
             candidate_stake ← stake_score_since p net_id candidate (cb_hash <$> ancestor) candidate_bonds;
             canonical_stake ← stake_score_since p net_id prev_sink (cb_hash <$> ancestor) canonical_bonds;
             Ok (reorg_inputs_since_common_ancestor (ds_rollout_stage state) (reorg_mode p) includes
                   (from_option cb_blue_work 0 (head candidate)) (from_option cb_blue_work 0 (head prev_sink)) common_work
                   candidate_stake canonical_stake (emergency_work_margin p) (emergency_stake_margin p))
           else Ok (reorg_inputs_since_common_ancestor (ds_rollout_stage state) (reorg_mode p) includes 0 0 0 0 0
                      (emergency_work_margin p) (emergency_stake_margin p)));
        Ok (is_accept (check_dns_reorg_rule inputs))
  end.
End gate.

(** ** Dormancy transitions *)

Definition push_epoch (o : TransactionOutpoint) (e : Z) (m : gmap TransactionOutpoint (list Z)) : gmap TransactionOutpoint (list Z) :=
  <[o := default [] (m !! o) ++ [e]]> m.
Definition attested_by_bond (contributions : list AttestationContribution) (revival_signals : list (TransactionOutpoint * Z)) (buried_epoch : Z) :
    gmap TransactionOutpoint (list Z) :=
  foldl (λ m (s : TransactionOutpoint * Z), if s.2 <=? buried_epoch then push_epoch s.1 s.2 m else m) ∅
    (((λ c, (ac_bond_outpoint c, ac_epoch c)) <$> contributions) ++ revival_signals).

(** The catch-up over the eviction rounds [r], [r + period], ... up to the
    buried epoch, with the last round replayed. *)
Fixpoint catch_up {E : Type} (fuel : nat) (round_anchor : Z → option Z) (att_by_bond : gmap TransactionOutpoint (list Z))
    (period buried_epoch sink_daa epoch_len_blue : Z) (params : DormancyParams) (r last_evicted : Z) (work : list StakeBondRecord) :
    outcome E (list StakeBondRecord * Z) :=
  match fuel with
  | O => OutOfFuel
  | S fuel =>
    if buried_epoch <? r then Ok (work, last_evicted)
    else
      match round_anchor r with
      | None => Ok (work, last_evicted)
      | Some round_anchor_daa =>
        work ← apply_dormancy_round work att_by_bond r round_anchor_daa sink_daa epoch_len_blue params;
        r' ← add64 r period;
        catch_up fuel round_anchor att_by_bond period buried_epoch sink_daa epoch_len_blue params r' r work
      end
  end.
Definition revive (sink_daa buried_epoch revival_delay : Z) (rec : StakeBondRecord) : StakeBondRecord :=
  if bool_decide (effective_bond_status rec sink_daa ≠ Dormant) then rec
  else match sb_dormant_at_epoch rec with
  | None => rec
  | Some dormant_epoch =>
    if dormancy_revival_ready dormant_epoch (default 0 (sb_last_attested_epoch rec)) buried_epoch revival_delay
    then restamp sink_daa (set_dormant None None rec) else rec
  end.
(** The anchor of a round: in the window, or derived. *)
Definition round_anchor (p : ScoreParams) (chain : list ChainBlock) (epoch_anchor_daa : gmap Z Z) (r : Z) : option Z :=
  match epoch_anchor_daa !! r with
  | Some daa => Some daa
  | None => an_anchor_daa_score <$> canonical_anchor_by_blue_score p r chain
  end.
Definition finish_pass (att_by_bond : gmap TransactionOutpoint (list Z)) (sink_daa buried_epoch revival_delay : Z) (work : list StakeBondRecord) :
    list StakeBondRecord :=
  (λ rec, revive sink_daa buried_epoch revival_delay (touch_attested att_by_bond buried_epoch rec)) <$> work.
(** The pass at a buried epoch: the rounds since the cursor, the final touch
    and the revivals. *)
Definition dormancy_pass {E : Type} (p : ScoreParams) (anchor_of : Z → option Z) (att_by_bond : gmap TransactionOutpoint (list Z))
    (buried_epoch prev_last_evicted sink_daa : Z) (bonds : list StakeBondRecord) : outcome E (list StakeBondRecord * Z) :=
  let epoch_len_blue := Z.max (attestation_epoch_length_blue_score p) 1 in
  let period := Z.max (dormancy_evict_period_epochs (sp_dormancy p)) 1 in
  let revival_delay := Z.max (dormancy_revival_delay_epochs p) 1 in
  q ← add64 (prev_last_evicted / period) 1;
  r ← mul64 q period;
  res ← catch_up (S (Z.to_nat buried_epoch)) anchor_of att_by_bond period buried_epoch sink_daa epoch_len_blue
    (sp_dormancy p) r prev_last_evicted bonds;
  Ok (finish_pass att_by_bond sink_daa buried_epoch revival_delay res.1, res.2).
(** The working copy of the records after the pass and the new cursor. *)
Definition stage_dormancy_transitions {E : Type} (p : ScoreParams) (chain : list ChainBlock) (bonds : list StakeBondRecord)
    (contributions : list AttestationContribution) (revival_signals : list (TransactionOutpoint * Z)) (epoch_anchor_daa : gmap Z Z)
    (prev_last_evicted sink_daa sink_blue : Z) : outcome E (list StakeBondRecord * Z) :=
  if sink_daa <? dormancy_activation_daa_score p then Ok (bonds, prev_last_evicted)
  else
    let epoch_len_blue := Z.max (attestation_epoch_length_blue_score p) 1 in
    let bury_blue := Z.max (attestation_lag_blue_score p) (max_reorg_horizon_blocks (sp_dns p)) in
    match ready_epoch_from_tip_blue_score sink_blue epoch_len_blue bury_blue with
    | None => Ok (bonds, prev_last_evicted)
    | Some buried_epoch =>
      dormancy_pass p (round_anchor p chain epoch_anchor_daa) (attested_by_bond contributions revival_signals buried_epoch)
        buried_epoch prev_last_evicted sink_daa bonds
    end.

(** ** Recomputing the state at a sink *)

Section update.
Context `{Crypto} `{DnsDecode}.

(** [prev_blue]: blue score of the block the previous state was written for;
    [pruning_point_blue]: of the pruning point. [None]: nothing is written. *)
Definition update_dns_state {E : Type} (p : ScoreParams) (net_id : Hash64) (max_block_mass : Z) (chain : list ChainBlock)
    (bonds : list StakeBondRecord) (prev : option DnsState) (prev_blue : Z) (pruning_point_blue : option Z) :
    outcome E (option (DnsState * list StakeBondRecord)) :=
  match chain with
  | [] => Ok None
  | sink :: _ =>
    let sink_daa := cb_daa_score sink in
    let sink_blue := cb_blue_score sink in
    let epoch_len_blue := Z.max (attestation_epoch_length_blue_score p) 1 in
    let lag := attestation_lag_blue_score p in
    if bool_decide (cb_accepted sink = None)
       || (bool_decide (is_Some prev) && (sink_blue / epoch_len_blue =? prev_blue / epoch_len_blue)) then Ok None
    else
      let active_stakes := sb_amount <$> filter (λ b, is_bond_active_at b sink_daa = true) bonds in
      let total_active := saturating_sum active_stakes in
      let active_validators := len active_stakes mod 2 ^ 32 in
      let hard_mandatory_active := mandatory_attestation_inclusion_daa_score p <=? sink_daa in
      let phi := stake_event_quality_floor_bps (sp_dns p) in
      let capacity := mandatory_attestation_mass_capacity active_stakes total_active 0 phi max_block_mass (max_attestation_shard_mass p) in
      let rollout_stage :=
        if (dns_activation_daa_score (sp_dns p) <=? sink_daa) && (min_active_stake_sompi p <=? total_active)
           && (min_active_validators p <=? active_validators) && dns_v3_params_consistent p
           && (negb hard_mandatory_active || mc_fits capacity)
        then StageActive else StageBootstrap in
      let '(contributions, epoch_anchor_daa, revival_signals) := collect_stake_contributions_v2 p net_id chain None bonds in
      let prev_last_evicted := match prev with
        | Some s => ds_last_evicted_round_epoch s
        | None => default 0 (pp ← pruning_point_blue;
            ready_epoch_from_tip_blue_score pp epoch_len_blue (Z.max lag (max_reorg_horizon_blocks (sp_dns p))))
        end in
      '(work, new_last_evicted) ← stage_dormancy_transitions p chain bonds contributions revival_signals epoch_anchor_daa
        prev_last_evicted sink_daa sink_blue;
      let per_epoch := aggregate_epoch_tallies contributions (total_active_stake_by_epoch bonds epoch_anchor_daa) in
      stake_depth ← compute_stake_score per_epoch phi;
      let health := derive_dns_health per_epoch phi (stake_censorship_floor_bps p) (degraded_stake_quality_epochs p)
        (bool_decide (rollout_stage = StageActive)) in
      let confirmable_anchor := epoch ← ready_epoch_from_tip_blue_score sink_blue epoch_len_blue lag;
        a ← canonical_anchor_by_blue_score p epoch chain; Some (an_anchor_hash a, an_anchor_daa_score a) in
      let work_depth := match confirmable_anchor with
        | Some (h, _) => work_sat_sub (cb_blue_work sink)
            (from_option cb_blue_work 0 (snd <$> list_find (λ c, cb_hash c = h) chain))
        | None => 0
        end in
      Ok (Some (advance_dns_confirmation prev (cb_hash sink) sink_daa confirmable_anchor work_depth stake_depth rollout_stage
        DEFAULT_HASH health (required_work_depth p) (required_stake_depth p) new_last_evicted, work))
  end.
End update.
