(* ===== verification/DnsAnchorThms.v ===== *)
(** * DNS finality: theorems on anchors and the score

    The canonical anchors of a window, the credit of an epoch and the
    aggregation of attestations. *)

From stdpp Require Import base list gmap sorting.
From Stdlib Require Import ZArith Lia.
From S2P Require Import Prelude Tx Utxo Bytes Hashing ScriptNum ScriptOps ScriptEngine Ghostdag Palw DnsBond DnsReward DnsRules DnsScore.

Local Open Scope Z_scope.

(** ** Anchors *)

Lemma at_or_below_Some c anc a : at_or_below c anc = Some a ↔
  ∃ i, anc !! i = Some a ∧ a.1.2 ≤ c ∧ ∀ j b, anc !! j = Some b → (j < i)%nat → c < b.1.2.
Proof.
  unfold at_or_below. rewrite fmap_Some. split.
  - intros ([i b] & (Hi & Hb & Hj)%list_find_Some & ->). exists i. split_and!; [done | done |].
    intros j y Hy Hlt. specialize (Hj j y Hy Hlt). cbn in Hj. lia.
  - intros (i & Hi & Hb & Hj). exists (i, a). split; [|done]. apply list_find_Some. split_and!; [done | done |].
    intros j y Hy Hlt. specialize (Hj j y Hy Hlt). cbn. lia.
Qed.
(** An ancestor found for a cutoff is found for every lower cutoff it meets. *)
Lemma at_or_below_lower c c' anc a : c' ≤ c → at_or_below c anc = Some a → a.1.2 ≤ c' → at_or_below c' anc = Some a.
Proof.
  intros Hc (i & Hi & _ & Hj)%at_or_below_Some Ha. apply at_or_below_Some. exists i. split_and!; [done | done |].
  intros j b Hb Hlt. specialize (Hj j b Hb Hlt). lia.
Qed.

Lemma cutoff_mono L backoff e e' : 0 ≤ e → e ≤ e' → anchor_cutoff_blue_score e L backoff ≤ anchor_cutoff_blue_score e' L backoff.
Proof.
  intros He Hle. unfold anchor_cutoff_blue_score, epoch_end_blue_score, epoch_start_blue_score, sat_sub64, sat_mul64, sat_add64. nia.
Qed.

Lemma canonical_inv e L backoff anc a : canonical_lagged_epoch_anchor e L backoff anc = Some a →
  an_epoch a = e ∧ at_or_below (anchor_cutoff_blue_score e (Z.max L 1) backoff) anc =
    Some (an_anchor_hash a, an_anchor_blue_score a, an_anchor_daa_score a) ∧
  (an_duplicate_of_previous_anchor a = true ↔ e ≠ 0 ∧
    (λ b : Ancestor, b.1.1) <$> at_or_below (anchor_cutoff_blue_score (e - 1) (Z.max L 1) backoff) anc = Some (an_anchor_hash a)).
Proof.
  unfold canonical_lagged_epoch_anchor. intros ([[h b] d] & -> & [= <-])%bind_Some. cbn. split_and!; [done | done |].
  destruct (Z.eqb_spec e 0); [naive_solver|]. rewrite bool_decide_eq_true. naive_solver.
Qed.

(** What the loop keeps: the epochs up to [n] whose previous cutoff is in the
    window, with an anchor of their own. *)
Definition kept (L backoff oldest : Z) (anc : list Ancestor) (e : Z) (a : CanonicalLaggedEpochAnchor) : Prop :=
  oldest ≤ anchor_cutoff_blue_score (sat_sub64 e 1) L backoff ∧
  canonical_lagged_epoch_anchor e L backoff anc = Some a ∧ an_duplicate_of_previous_anchor a = false.
Lemma anchors_step L backoff oldest anc (older : gmap Z CanonicalLaggedEpochAnchor) n e a : 0 ≤ n →
  (∀ e a, older !! e = Some a ↔ 0 ≤ e < n ∧ kept L backoff oldest anc e a) →
  (if anchor_cutoff_blue_score (sat_sub64 n 1) L backoff <? oldest then ∅
   else match canonical_lagged_epoch_anchor n L backoff anc with
        | Some a => if an_duplicate_of_previous_anchor a then older else <[n := a]> older
        | None => older
        end) !! e = Some a ↔ 0 ≤ e ≤ n ∧ kept L backoff oldest anc e a.
Proof.
  intros Hn Hold. destruct (Z.ltb_spec (anchor_cutoff_blue_score (sat_sub64 n 1) L backoff) oldest) as [Hb|Hb].
  - rewrite lookup_empty. split; [done|]. intros [He [Ho _]].
    pose proof (cutoff_mono L backoff (sat_sub64 e 1) (sat_sub64 n 1)). unfold sat_sub64 in *. lia.
  - assert (Hne : e ≠ n → older !! e = Some a ↔ 0 ≤ e ≤ n ∧ kept L backoff oldest anc e a) by (intros; rewrite Hold; naive_solver lia).
    assert (Hnone : older !! n = None) by (apply eq_None_not_Some; intros [x [Hx _]%Hold]; lia).
    unfold kept in *. destruct (canonical_lagged_epoch_anchor n L backoff anc) as [b|] eqn:Hc.
    + destruct (an_duplicate_of_previous_anchor b) eqn:Hd.
      * destruct (decide (e = n)) as [->|]; [|by apply Hne]. rewrite Hnone, Hc. split; [done|]. intros (_ & _ & [= <-] & ?). congruence.
      * destruct (decide (e = n)) as [->|]; [|rewrite lookup_insert_ne by done; by apply Hne]. rewrite lookup_insert_eq, Hc.
        split; [intros [= <-]; split_and!; done || lia | naive_solver].
    + destruct (decide (e = n)) as [->|]; [|by apply Hne]. rewrite Hnone, Hc. naive_solver.
Qed.
Lemma anchors_down_spec L backoff oldest anc n e a :
  anchors_down L backoff oldest anc n !! e = Some a ↔ 0 ≤ e ≤ Z.of_nat n ∧ kept L backoff oldest anc e a.
Proof.
  revert e a. induction n as [|n IH]; intros e a; cbn [anchors_down]; (apply anchors_step; [lia|]).
  - intros e' a'. rewrite lookup_empty. split; [done|lia].
  - intros e' a'. rewrite IH. naive_solver lia.
Qed.

(** Two epochs that are kept have different anchors. *)
Lemma kept_distinct L backoff oldest anc e1 e2 a1 a2 :
  (∀ x y, x ∈ anc → y ∈ anc → x.1.1 = y.1.1 → x = y) → 0 ≤ e1 < e2 →
  kept L backoff oldest anc e1 a1 → kept L backoff oldest anc e2 a2 → an_anchor_hash a1 ≠ an_anchor_hash a2.
Proof.
  intros Hu He (_ & (_ & H1 & _)%canonical_inv & _) (_ & (_ & H2 & Hd2)%canonical_inv & Hn2) Heq.
  pose proof H1 as (i1 & Hi1%list_elem_of_lookup_2 & Hc1 & _)%at_or_below_Some.
  pose proof H2 as (i2 & Hi2%list_elem_of_lookup_2 & _)%at_or_below_Some.
  pose proof (Hu _ _ Hi1 Hi2 Heq) as [= _ Hblue Hdaa]. cbn in Hc1.
  rewrite (proj2 Hd2) in Hn2; [done|]. split; [lia|].
  rewrite (at_or_below_lower (anchor_cutoff_blue_score e2 (Z.max L 1) backoff) (anchor_cutoff_blue_score (e2 - 1) (Z.max L 1) backoff) anc _ ltac:(apply cutoff_mono; lia) H2); [done|].
  cbn. rewrite <- Hblue. etransitivity; [exact Hc1|]. apply cutoff_mono; lia.
Qed.

(** ** The walk of the chain *)

Lemma ancestors_until_prefix stop tip_blue window blocks : ∃ k,
  ancestors_until stop tip_blue window blocks = ancestor_of_block <$> take k blocks.
Proof.
  induction blocks as [|c blocks [k IH]]; cbn [ancestors_until]; [by exists O|].
  destruct (window <? _); [by exists O|]. destruct (stop _); [by exists 1%nat|]. exists (S k). cbn. by rewrite IH.
Qed.

(** [c] is the most recent block of the chain at or below [cutoff]. *)
Definition most_recent (chain : list ChainBlock) (cutoff : Z) (c : ChainBlock) : Prop :=
  ∃ k, chain !! k = Some c ∧ cb_blue_score c ≤ cutoff ∧ ∀ j b, chain !! j = Some b → (j < k)%nat → cutoff < cb_blue_score b.

Lemma walk_most_recent tip chain k cutoff a :
  at_or_below cutoff (ancestor_of_block <$> take k (tip :: tip :: chain)) = Some a →
  ∃ c, most_recent (tip :: chain) cutoff c ∧ a = ancestor_of_block c.
Proof.
  intros (i & Hi & Ha & Hj)%at_or_below_Some. apply list_lookup_fmap_Some in Hi as (c & -> & Hi). exists c. split; [|done].
  apply lookup_take_Some in Hi as [Hi Hk]. destruct i as [|i].
  - exists O. split_and!; [done | done |]. intros; lia.
  - exists i. split_and!; [done | done |]. intros j b Hb Hlt. apply (Hj (S j) (ancestor_of_block b)); [|lia].
    rewrite list_lookup_fmap, lookup_take_lt by lia. change ((tip :: tip :: chain) !! S j) with ((tip :: chain) !! j). by rewrite Hb.
Qed.

Lemma ready_epoch_spec tip L lag e : ready_epoch_from_tip_blue_score tip L lag = Some e →
  0 ≤ e ∧ (e + 1) * Z.max L 1 - 1 + lag ≤ tip.
Proof.
  unfold ready_epoch_from_tip_blue_score, checked_sub64, checked_add64.
  intros (s & Hs & (n & Hn & Hc)%bind_Some)%bind_Some. destruct (in_u64 (tip - lag)) eqn:Hu; [|done]. injection Hs as <-.
  destruct (in_u64 (tip - lag + 1)); [|done]. injection Hn as <-.
  destruct (Z.eqb_spec ((tip - lag + 1) / Z.max L 1) 0) as [|Hz]; [done|]. injection Hc as <-.
  assert (0 ≤ tip - lag) by (unfold in_u64 in Hu; lia).
  pose proof (Z.div_pos (tip - lag + 1) (Z.max L 1)). pose proof (Z.mul_div_le (tip - lag + 1) (Z.max L 1)). nia.
Qed.
Lemma cutoff_max e L backoff : anchor_cutoff_blue_score e (Z.max L 1) backoff = anchor_cutoff_blue_score e L backoff.
Proof. unfold anchor_cutoff_blue_score, epoch_end_blue_score, epoch_start_blue_score. by rewrite <- Z.max_assoc. Qed.
Lemma window_kept p tip chain : ∃ k oldest, ∀ e a, canonical_anchors_in_window p (tip :: chain) !! e = Some a →
  kept (Z.max (attestation_epoch_length_blue_score p) 1) (attestation_anchor_backoff_blue_score p) oldest
    (ancestor_of_block <$> take k (tip :: tip :: chain)) e a ∧
  ∃ n, ready_epoch_from_tip_blue_score (cb_blue_score tip) (Z.max (attestation_epoch_length_blue_score p) 1) (attestation_lag_blue_score p) = Some n ∧
    0 ≤ e ≤ n.
Proof.
  destruct (ancestors_until_prefix (λ _, false) (cb_blue_score tip) (stake_score_window_blue_score p) (tip :: tip :: chain)) as [k Hk].
  unfold canonical_anchors_in_window. cbn [head].
  destruct (ready_epoch_from_tip_blue_score _ _ _) as [n|] eqn:Hn; [|exists k, 0; intros e a; by rewrite lookup_empty].
  rewrite Hk. eexists k, _. intros e a [He Hkept]%anchors_down_spec. split; [exact Hkept|]. exists n. apply ready_epoch_spec in Hn as Hn'. split; [done|lia].
Qed.
Lemma walk_unique tip chain k x y : NoDup (cb_hash <$> tip :: chain) →
  x ∈ (ancestor_of_block <$> take k (tip :: tip :: chain)) → y ∈ (ancestor_of_block <$> take k (tip :: tip :: chain)) → x.1.1 = y.1.1 → x = y.
Proof.
  intros Hnd (c & -> & Hc)%list_elem_of_fmap (d & -> & Hd)%list_elem_of_fmap Heq. cbn in Heq. f_equal.
  assert (Hin : ∀ z, z ∈ take k (tip :: tip :: chain) → z ∈ tip :: chain).
  { intros z Hz. apply elem_of_take in Hz as (i & Hi & _). destruct i as [|i]; [injection Hi as <-; apply list_elem_of_here|].
    by apply list_elem_of_lookup_2 with i. }
  apply Hin, list_elem_of_lookup in Hc as [i Hi]. apply Hin, list_elem_of_lookup in Hd as [j Hj].
  assert (i = j) as ->; [|congruence]. eapply NoDup_lookup; [exact Hnd | by rewrite list_lookup_fmap, Hi | by rewrite list_lookup_fmap, Hj, Heq].
Qed.

(** Every creditable epoch has an anchor of its own. In the window of a
    selected chain each epoch is ready (buried by the lag), its anchor is the
    most recent block of the chain at or below the cutoff of the epoch, and two
    epochs never share an anchor, so no state of the history is credited
    under two epoch numbers. *)
Theorem canonical_anchors_distinct p tip chain : NoDup (cb_hash <$> tip :: chain) →
  (∀ e a, canonical_anchors_in_window p (tip :: chain) !! e = Some a →
    (e + 1) * Z.max (attestation_epoch_length_blue_score p) 1 - 1 + attestation_lag_blue_score p ≤ cb_blue_score tip ∧
    ∃ c, most_recent (tip :: chain)
           (anchor_cutoff_blue_score e (attestation_epoch_length_blue_score p) (attestation_anchor_backoff_blue_score p)) c ∧
      an_anchor_hash a = cb_hash c ∧ an_anchor_blue_score a = cb_blue_score c ∧ an_anchor_daa_score a = cb_daa_score c) ∧
  ∀ e1 e2 a1 a2, canonical_anchors_in_window p (tip :: chain) !! e1 = Some a1 →
    canonical_anchors_in_window p (tip :: chain) !! e2 = Some a2 → e1 ≠ e2 → an_anchor_hash a1 ≠ an_anchor_hash a2.
Proof.
  intros Hnd. destruct (window_kept p tip chain) as (k & oldest & Hw). split.
  - intros e a (Hkept & n & Hr & He)%Hw. apply ready_epoch_spec in Hr as [Hn Hr]. split; [nia|].
    destruct Hkept as (_ & (_ & Hf & _)%canonical_inv & _). rewrite !cutoff_max in Hf.
    apply walk_most_recent in Hf as (c & Hc & [= -> -> ->]). by exists c.
  - intros e1 e2 a1 a2 (Hk1 & n1 & _ & He1)%Hw (Hk2 & n2 & _ & He2)%Hw Hne.
    assert (e1 < e2 ∨ e2 < e1) as [|] by lia; [|symmetry];
      (eapply kept_distinct; [intros x y; by apply walk_unique | | eassumption | eassumption]; lia).
Qed.

(** ** Credit *)

(** At least [quality_floor_bps] of the active stake signed. *)
Definition quorum (quality_floor_bps : Z) (t : EpochStakeTally) : bool :=
  (0 <? st_total_active_stake_sompi t)
  && (st_total_active_stake_sompi t * Z.min quality_floor_bps 10000 <=? Z.min (st_signed_stake_sompi t) (st_total_active_stake_sompi t) * 10000).
Definition tally_typed (t : EpochStakeTally) : Prop := is_u64 (st_signed_stake_sompi t) ∧ is_u64 (st_total_active_stake_sompi t).

Lemma sat_mul128_small a b : a * b ≤ U128_MAX → sat_mul128 a b = a * b.
Proof. unfold sat_mul128. lia. Qed.
Lemma chk128_ok {E : Type} z : 0 ≤ z ≤ U128_MAX → @chk128 E z = Ok z.
Proof. intros Hz. unfold chk128. by replace ((0 <=? z) && (z <=? U128_MAX)) with true by lia. Qed.

Lemma epoch_credit_spec {E : Type} t phi : tally_typed t → 0 ≤ phi →
  ∃ c, @epoch_stake_credit E (st_signed_stake_sompi t) (st_total_active_stake_sompi t) phi = Ok c ∧
    0 ≤ c ≤ (if quorum phi t then STAKE_SCORE_SCALE else 0) ∧
    (0 < st_total_active_stake_sompi t ≤ st_signed_stake_sompi t → c = STAKE_SCORE_SCALE).
Proof.
  destruct t as [e i n]. unfold tally_typed, quorum, epoch_stake_credit. cbn [st_signed_stake_sompi st_total_active_stake_sompi].
  intros [Hi Hn] Hphi. unfold is_u64, U64_MAX in *. set (f := Z.min phi 10000). assert (0 ≤ f ≤ 10000) as Hf by lia. clearbody f.
  destruct (Z.eqb_spec n 0) as [->|Hn0]; [exists 0; cbn; split_and!; [done | done | done | lia]|].
  set (m := Z.min i n). assert (0 ≤ m ≤ n) as Hm by lia. assert (n ≤ i → m = n) as Hfull by lia. clearbody m.
  replace (0 <? n) with true by lia. cbn [andb].
  rewrite !(sat_mul128_small m), !(sat_mul128_small n) by (unfold U128_MAX; nia).
  destruct (Z.ltb_spec (m * 10000) (n * f)) as [Hlt|Hge].
  { exists 0. replace (n * f <=? m * 10000) with false by lia. split_and!; [done | lia | lia | nia]. }
  replace (n * f <=? m * 10000) with true by lia.
  destruct (Z.eqb_spec (10000 - f) 0); [exists STAKE_SCORE_SCALE; split_and!; done|].
  rewrite !chk128_ok by (unfold U128_MAX; nia). cbn [mbind outcome_bind]. rewrite chk128_ok by (unfold U128_MAX; nia). cbn [mbind outcome_bind].
  unfold STAKE_SCORE_SCALE. rewrite sat_mul128_small by (unfold U128_MAX; nia).
  eexists. split; [done|]. split; [split; [apply Z.div_pos; nia | apply Z.div_le_upper_bound; nia]|].
  intros [_ Hni%Hfull]. subst m. replace (n * 10000 - n * f) with (n * (10000 - f)) by ring.
  rewrite Z.mul_comm, Z.div_mul; [done|nia].
Qed.

Lemma stake_score_loop_spec {E : Type} ts phi acc : Forall tally_typed ts → 0 ≤ phi → 0 ≤ acc →
  ∃ s, @stake_score_loop E ts phi acc = Ok s ∧ 0 ≤ s ≤ acc + STAKE_SCORE_SCALE * Z.of_nat (length (filter (λ t, quorum phi t = true) ts)).
Proof.
  intros Hts Hphi. revert acc. induction Hts as [|t ts Ht Hts IH]; intros acc Hacc; cbn [stake_score_loop].
  { exists acc. split; [done|]. cbn. lia. }
  destruct (epoch_credit_spec (E := E) t phi Ht Hphi) as (c & -> & Hc & _). cbn [mbind outcome_bind].
  destruct (IH (sat_add128 acc c)) as (s & -> & Hs); [unfold sat_add128, U128_MAX; lia|]. exists s. split; [done|].
  rewrite filter_cons. unfold sat_add128 in Hs. destruct (quorum phi t); cbn [length] in *; [rewrite decide_True by done; cbn [length] | rewrite decide_False by done]; lia.
Qed.

(** ** Aggregation *)

(** The contributions that are counted: the first of every triple. *)
Fixpoint counted (l : list AttestationContribution) (seen : gset (TransactionOutpoint * Hash64 * Z)) : list AttestationContribution :=
  match l with
  | [] => []
  | c :: l => if bool_decide (contribution_key c ∈ seen) then counted l seen else c :: counted l ({[contribution_key c]} ∪ seen)
  end.
Definition stake_of_epoch (e : Z) (l : list AttestationContribution) : Z :=
  sumZ (ac_signed_stake_sompi <$> filter (λ c, ac_epoch c = e) l).

Lemma counted_elem l seen c : c ∈ counted l seen → c ∈ l ∧ contribution_key c ∉ seen.
Proof.
  revert seen. induction l as [|x l IH]; intros seen; cbn [counted]; [by intros ?%elem_of_nil|].
  case_bool_decide as Hx; [intros [? ?]%IH; split; [by right|done]|].
  intros [->|[? ?]%IH]%elem_of_cons; [split; [by left|done]|]. split; [by right|set_solver].
Qed.
Lemma counted_nodup l seen : NoDup (contribution_key <$> counted l seen).
Proof.
  revert seen. induction l as [|x l IH]; intros seen; cbn [counted]; [constructor|]. case_bool_decide; [done|].
  cbn. constructor; [|done]. intros (y & Hy & [_ Hn]%counted_elem)%list_elem_of_fmap. apply Hn. rewrite <- Hy. apply elem_of_union_l, elem_of_singleton_2. done.
Qed.
(** One stake per triple. *)
Definition one_stake (l : list AttestationContribution) : Prop :=
  ∀ c d, c ∈ l → d ∈ l → contribution_key c = contribution_key d → c = d.
Lemma counted_complete l seen c : one_stake l → c ∈ l → contribution_key c ∉ seen → c ∈ counted l seen.
Proof.
  revert seen. induction l as [|x l IH]; intros seen H1 Hc Hs; [by apply elem_of_nil in Hc|]. cbn [counted].
  assert (one_stake l) as H1' by (intros a b Ha Hb; apply H1; by right).
  apply elem_of_cons in Hc as [->|Hc]; [rewrite bool_decide_false by done; by left|].
  case_bool_decide; [by apply IH|]. destruct (decide (contribution_key c = contribution_key x)) as [Heq|Hne].
  - rewrite (H1 c x) by (done || by left || by right). by left.
  - right. apply IH; [done | done | set_solver].
Qed.
Lemma counted_perm l l' : one_stake l → (∀ c, c ∈ l ↔ c ∈ l') → counted l ∅ ≡ₚ counted l' ∅.
Proof.
  intros H1 Heq. assert (one_stake l') as H1' by (intros c d ?%Heq ?%Heq; by apply H1).
  apply NoDup_Permutation; [by eapply NoDup_fmap_1, counted_nodup | by eapply NoDup_fmap_1, counted_nodup |].
  intros c. split; intros [Hc _]%counted_elem; (apply counted_complete; [done | by apply Heq | set_solver]).
Qed.

Lemma signed_value l seen m e : Forall (λ c, 0 ≤ ac_signed_stake_sompi c) l → 0 ≤ default 0 (m !! e) ≤ U64_MAX →
  default 0 (signed_by_epoch l seen m !! e) = Z.min (default 0 (m !! e) + stake_of_epoch e (counted l seen)) U64_MAX.
Proof.
  intros Hl. revert seen m. induction Hl as [|c l Hc Hl IH]; intros seen m Hm; cbn [signed_by_epoch counted].
  { unfold stake_of_epoch, sumZ. cbn. lia. }
  case_bool_decide; [by apply IH|]. unfold stake_of_epoch. rewrite filter_cons. destruct (decide (ac_epoch c = e)) as [<-|Hne].
  - rewrite IH; rewrite lookup_insert_eq; cbn [from_option default id].
    + rewrite fmap_cons, sumZ_cons. unfold sat_add64, stake_of_epoch.
      assert (0 ≤ sumZ (ac_signed_stake_sompi <$> filter (λ c0, ac_epoch c0 = ac_epoch c) (counted l ({[contribution_key c]} ∪ seen)))); [|lia].
      apply sumZ_nonneg, Forall_fmap, Forall_forall. intros x [_ [Hx _]%counted_elem]%list_elem_of_filter. cbn. by apply (proj1 (Forall_forall _ _) Hl).
    + unfold sat_add64. lia.
  - rewrite IH; rewrite lookup_insert_ne by done; done.
Qed.

(** The tallies of an aggregation are exact. *)
Lemma aggregate_perm l l' totals : one_stake l → (∀ c, c ∈ l ↔ c ∈ l') → Forall (λ c, 0 ≤ ac_signed_stake_sompi c) l →
  aggregate_epoch_tallies l totals = aggregate_epoch_tallies l' totals.
Proof.
  intros H1 Heq Hl. assert (Forall (λ c, 0 ≤ ac_signed_stake_sompi c) l') as Hl'.
  { apply Forall_forall. intros c Hc%Heq. by apply (proj1 (Forall_forall _ _) Hl). }
  unfold aggregate_epoch_tallies. apply list_fmap_ext. intros _ [e n] _. f_equal.
  rewrite !signed_value by (done || (rewrite lookup_empty; cbn; unfold U64_MAX; lia)). unfold stake_of_epoch.
  rewrite (sumZ_perm _ (ac_signed_stake_sompi <$> filter (λ c, ac_epoch c = e) (counted l' ∅))); [done|].
  by rewrite (counted_perm l l').
Qed.
