(* ===== verification/DnsScoreThms.v ===== *)
(** * DNS finality: theorems on confirmation and the reorg gate

    What the score of a chain counts, what a confirmation requires, and what
    a chain that abandons a confirmed anchor must show. *)

From stdpp Require Import base list gmap sorting.
From Stdlib Require Import ZArith Lia.
From S2P Require Import Prelude Tx Utxo Bytes Hashing ScriptNum ScriptOps ScriptEngine Ghostdag Palw DnsBond DnsReward DnsRules DnsScore DnsAnchorThms.

Local Open Scope Z_scope.

Section score.
Context `{Crypto} `{DnsDecode}.

(** ** Votes count once *)

(** Two chains with the same headers. *)
Definition same_headers : relation (list ChainBlock) := Forall2 (λ a b, ancestor_of_block a = ancestor_of_block b).

Lemma same_ancestors stop tip_blue window c1 c2 : same_headers c1 c2 →
  ancestors_until stop tip_blue window c1 = ancestors_until stop tip_blue window c2.
Proof.
  induction 1 as [|a b c1 c2 [= Hh Hb Hd] Hc IH]; [done|]. cbn [ancestors_until]. unfold ancestor_of_block. by rewrite Hh, Hb, Hd, IH.
Qed.
Lemma same_anchors p c1 c2 : same_headers c1 c2 → canonical_anchors_in_window p c1 = canonical_anchors_in_window p c2.
Proof.
  intros Hs. pose proof Hs as Hs'. destruct Hs' as [|a b l1 l2 [= Hh Hb Hd] Hc]; [done|].
  unfold canonical_anchors_in_window. cbn [head]. rewrite Hb. rewrite (same_ancestors _ _ _ (a :: a :: l1) (b :: b :: l2)); [done|].
  constructor; [|done]. unfold ancestor_of_block. congruence.
Qed.
Lemma same_ancestor_query x i c1 c2 : same_headers c1 c2 → is_chain_ancestor_of x i c1 = is_chain_ancestor_of x i c2.
Proof.
  intros Hs. unfold is_chain_ancestor_of. assert (cb_hash <$> chain_from i c1 = cb_hash <$> chain_from i c2) as ->; [|done].
  induction Hs as [|a b c1 c2 [= Hh Hb Hd] Hc IH]; [done|]. cbn [chain_from]. rewrite Hh. case_bool_decide; [|done].
  cbn. f_equal; [done|]. clear -Hc. induction Hc as [|a b c1 c2 [= Hh _ _] Hc IH]; [done|]. cbn. congruence.
Qed.

(** The attestations the score of a chain reads. *)
Definition window_attestations (p : ScoreParams) (stop_at : option Hash64) (chain : list ChainBlock) : list StakeAttestation :=
  b ← blocks_in_window stop_at (from_option cb_blue_score 0 (head chain)) (stake_score_window_blue_score p) chain;
  attestations_from_accepted_txs (default [] (cb_accepted b)).
Definition creditable_anchors (p : ScoreParams) (stop_at : option Hash64) (chain : list ChainBlock) : gmap Z CanonicalLaggedEpochAnchor :=
  filter (λ ea : Z * CanonicalLaggedEpochAnchor,
      match stop_at with
      | Some i => bool_decide (an_anchor_hash ea.2 ≠ i) && negb (is_chain_ancestor_of (an_anchor_hash ea.2) i chain)
      | None => true
      end = true) (canonical_anchors_in_window p chain).
Definition credited (p : ScoreParams) (net_id : Hash64) (stop_at : option Hash64) (bonds : list StakeBondRecord) (chain : list ChainBlock) :
    list AttestationContribution :=
  omap (λ g, match g with inl c => Some c | inr _ => None end)
    (omap (good_attestation (creditable_anchors p stop_at chain) bonds net_id) (window_attestations p stop_at chain)).

Lemma collect_eq p net_id chain stop_at bonds : chain ≠ [] →
  (collect_stake_contributions_v2 p net_id chain stop_at bonds).1 =
    (credited p net_id stop_at bonds chain, an_anchor_daa_score <$> creditable_anchors p stop_at chain).
Proof. by destruct chain. Qed.

Lemma same_creditable p stop_at c1 c2 : same_headers c1 c2 → creditable_anchors p stop_at c1 = creditable_anchors p stop_at c2.
Proof.
  intros Hs. unfold creditable_anchors. rewrite (same_anchors p c1 c2 Hs). apply map_filter_ext. intros e a _. cbn.
  destruct stop_at; [|done]. by rewrite (same_ancestor_query _ _ c1 c2 Hs).
Qed.

Lemma good_contribution creditable bonds net_id att c : good_attestation creditable bonds net_id att = Some (inl c) →
  ∃ b, find_bond bonds (ac_bond_outpoint c) = Some b ∧ ac_signed_stake_sompi c = sb_amount b.
Proof.
  unfold good_attestation. intros (a & _ & Hg)%bind_Some. destruct (_ || _); [done|].
  apply bind_Some in Hg as (b & Hb & Hg). case_bool_decide; [done|]. destruct (negb _); [done|]. destruct (verifies _ _ _ _); [|done].
  injection Hg as Hg. case_bool_decide; [|done]. injection Hg as <-. by exists b.
Qed.
Lemma find_bond_elem bonds o b : find_bond bonds o = Some b → b ∈ bonds ∧ sb_bond_outpoint b = o.
Proof. unfold find_bond. rewrite fmap_Some. intros ([i x] & (Hi & Hx & _)%list_find_Some & ->). split; [by eapply list_elem_of_lookup_2|done]. Qed.

Lemma credited_elem p net_id stop_at bonds chain c : c ∈ credited p net_id stop_at bonds chain ↔
  ∃ att, att ∈ window_attestations p stop_at chain ∧ good_attestation (creditable_anchors p stop_at chain) bonds net_id att = Some (inl c).
Proof.
  unfold credited. rewrite list_elem_of_omap. split.
  - intros ([c'|] & (att & Ha & Hg)%list_elem_of_omap & [= ->]). eauto.
  - intros (att & Ha & Hg). exists (inl c). split; [|done]. apply list_elem_of_omap. eauto.
Qed.
Lemma credited_one_stake p net_id stop_at bonds chain : one_stake (credited p net_id stop_at bonds chain).
Proof.
  intros [e1 v1 o1 s1] [e2 v2 o2 s2] (? & _ & (b1 & Hb1 & Hs1)%good_contribution)%credited_elem (? & _ & (b2 & Hb2 & Hs2)%good_contribution)%credited_elem.
  cbn in *. intros [= -> -> ->]. congruence.
Qed.
Lemma credited_nonneg p net_id stop_at bonds chain : Forall (λ b, is_u64 (sb_amount b)) bonds →
  Forall (λ c, 0 ≤ ac_signed_stake_sompi c) (credited p net_id stop_at bonds chain).
Proof.
  intros Hb. apply Forall_forall. intros c (? & _ & (b & [Hin _]%find_bond_elem & ->)%good_contribution)%credited_elem.
  pose proof (proj1 (Forall_forall _ _) Hb b Hin) as Hu. unfold is_u64 in Hu. cbn in Hu. lia.
Qed.

(** C29. Each vote counts once. The score of a chain depends on the headers of
    the chain and on the set of attestations accepted in its window: repeating
    an attestation in several shards or blocks, or moving it to another block
    of the window, changes nothing. *)
Theorem stake_score_counts_votes_once {E : Type} p net_id stop_at bonds c1 c2 : same_headers c1 c2 → Forall (λ b, is_u64 (sb_amount b)) bonds →
  (∀ att, att ∈ window_attestations p stop_at c1 ↔ att ∈ window_attestations p stop_at c2) →
  @stake_score_since _ _ E p net_id c1 stop_at bonds = stake_score_since p net_id c2 stop_at bonds.
Proof.
  intros Hs Hb Hatt. destruct (decide (c1 = [])) as [->|Hne]; [by inversion Hs|].
  assert (c2 ≠ []) as Hne2 by (destruct Hs; done). unfold stake_score_since.
  pose proof (collect_eq p net_id c1 stop_at bonds Hne) as H1. pose proof (collect_eq p net_id c2 stop_at bonds Hne2) as H2.
  destruct (collect_stake_contributions_v2 p net_id c1 stop_at bonds) as [[l1 m1] r1], (collect_stake_contributions_v2 p net_id c2 stop_at bonds) as [[l2 m2] r2].
  cbn in H1, H2. injection H1 as -> ->. injection H2 as -> ->. rewrite (same_creditable p stop_at c1 c2 Hs).
  rewrite (aggregate_perm _ (credited p net_id stop_at bonds c2)); [done | apply credited_one_stake | | by apply credited_nonneg].
  intros c. rewrite !credited_elem, (same_creditable p stop_at c1 c2 Hs). by setoid_rewrite Hatt.
Qed.

(** ** Confirmation *)

(** The canonical anchor of the latest ready epoch. *)
Definition confirmable (p : ScoreParams) (chain : list ChainBlock) : option (Hash64 * Z) :=
  epoch ← ready_epoch_from_tip_blue_score (from_option cb_blue_score 0 (head chain)) (Z.max (attestation_epoch_length_blue_score p) 1)
    (attestation_lag_blue_score p);
  a ← canonical_anchor_by_blue_score p epoch chain; Some (an_anchor_hash a, an_anchor_daa_score a).
Definition block_work (chain : list ChainBlock) (h : Hash64) : Z := from_option cb_blue_work 0 (snd <$> list_find (λ c, cb_hash c = h) chain).

(** The tallies the score of a chain is computed from. *)
Definition chain_tallies (p : ScoreParams) (net_id : Hash64) (stop_at : option Hash64) (bonds : list StakeBondRecord) (chain : list ChainBlock) :
    list EpochStakeTally :=
  aggregate_epoch_tallies (credited p net_id stop_at bonds chain)
    (total_active_stake_by_epoch bonds (an_anchor_daa_score <$> creditable_anchors p stop_at chain)).

Lemma update_confirms {E : Type} p net_id max_block_mass tip chain bonds prev prev_blue pp st work :
  @update_dns_state _ _ E p net_id max_block_mass (tip :: chain) bonds prev prev_blue pp = Ok (Some (st, work)) →
  ds_last_dns_confirmed_anchor st ≠ from_option ds_last_dns_confirmed_anchor DEFAULT_HASH prev →
  ∃ h daa score, confirmable p (tip :: chain) = Some (h, daa) ∧ ds_last_dns_confirmed_anchor st = h ∧
    required_work_depth p ≤ work_sat_sub (cb_blue_work tip) (block_work (tip :: chain) h) ∧
    @compute_stake_score E (chain_tallies p net_id None bonds (tip :: chain)) (stake_event_quality_floor_bps (sp_dns p)) = Ok score ∧
    required_stake_depth p ≤ score.
Proof.
  unfold update_dns_state. destruct (_ || _); [done|].
  pose proof (collect_eq p net_id (tip :: chain) None bonds ltac:(done)) as Hc.
  destruct (collect_stake_contributions_v2 p net_id (tip :: chain) None bonds) as [[l m] r]. cbn in Hc. injection Hc as -> ->.
  intros ([w le] & _ & (score & Hscore & Hst)%bind_Ok)%bind_Ok Hne.
  change (epoch ← ready_epoch_from_tip_blue_score (cb_blue_score tip) _ _; _) with (confirmable p (tip :: chain)) in Hst.
  injection Hst as <- _. unfold advance_dns_confirmation in *.
  destruct (confirmable p (tip :: chain)) as [[h daa]|]; [|by destruct prev].
  exists h, daa, score. destruct (is_dns_confirmed _ _ _ _) eqn:Hd; [|by destruct prev].
  apply andb_true_iff in Hd as [Hw%Z.leb_le Hs%Z.leb_le]. by split_and!.
Qed.

(** The stake of the distinct votes for an epoch, and the active stake at its
    anchor. *)
Definition attested_stake (p : ScoreParams) (net_id : Hash64) (stop_at : option Hash64) (bonds : list StakeBondRecord) (chain : list ChainBlock)
    (e : Z) : Z :=
  stake_of_epoch e (counted (credited p net_id stop_at bonds chain) ∅).
Definition active_stake (bonds : list StakeBondRecord) (daa : Z) : Z :=
  saturating_sum (sb_amount <$> filter (λ b, is_bond_active_at b daa = true) bonds).
Definition quorum_epoch (p : ScoreParams) (net_id : Hash64) (bonds : list StakeBondRecord) (chain : list ChainBlock) (e : Z) : Prop :=
  ∃ a, canonical_anchors_in_window p chain !! e = Some a ∧ 0 < active_stake bonds (an_anchor_daa_score a) ∧
    active_stake bonds (an_anchor_daa_score a) * Z.min (stake_event_quality_floor_bps (sp_dns p)) 10000
      ≤ attested_stake p net_id None bonds chain e * 10000.

Lemma saturating_foldl_u64 l z : Forall is_u64 l → is_u64 z → is_u64 (foldl sat_add64 z l).
Proof.
  intros Hl. revert z. induction Hl as [|a l Ha Hl IH]; intros z Hz; [done|]. apply IH. unfold is_u64, sat_add64, U64_MAX in *. lia.
Qed.
Lemma active_stake_u64 bonds daa : Forall (λ b, is_u64 (sb_amount b)) bonds → is_u64 (active_stake bonds daa).
Proof.
  intros Hb. apply saturating_foldl_u64; [|done]. apply Forall_fmap, Forall_forall. intros b [_ Hin]%list_elem_of_filter.
  by apply (proj1 (Forall_forall _ _) Hb).
Qed.
Lemma by_key_elem {A : Type} (m : gmap Z A) e x : (e, x) ∈ by_key m ↔ m !! e = Some x.
Proof. unfold by_key. rewrite merge_sort_Permutation. apply elem_of_map_to_list. Qed.
Lemma by_key_nodup {A : Type} (m : gmap Z A) : NoDup (by_key m).*1.
Proof. unfold by_key. rewrite merge_sort_Permutation. apply NoDup_fst_map_to_list. Qed.
Lemma attested_stake_nonneg p net_id stop_at bonds chain e : Forall (λ b, is_u64 (sb_amount b)) bonds →
  0 ≤ attested_stake p net_id stop_at bonds chain e.
Proof.
  intros Hb. apply sumZ_nonneg, Forall_fmap, Forall_forall. intros c [_ [Hc _]%counted_elem]%list_elem_of_filter.
  by apply (proj1 (Forall_forall _ _) (credited_nonneg p net_id stop_at bonds chain Hb)).
Qed.

Lemma chain_tally p net_id stop_at bonds chain t : Forall (λ b, is_u64 (sb_amount b)) bonds → t ∈ chain_tallies p net_id stop_at bonds chain →
  ∃ a, canonical_anchors_in_window p chain !! st_epoch t = Some a ∧
    st_total_active_stake_sompi t = active_stake bonds (an_anchor_daa_score a) ∧
    st_signed_stake_sompi t = Z.min (attested_stake p net_id stop_at bonds chain (st_epoch t)) U64_MAX.
Proof.
  intros Hb ([e n] & -> & He)%list_elem_of_fmap. apply by_key_elem in He. cbn [st_epoch st_total_active_stake_sompi st_signed_stake_sompi].
  unfold total_active_stake_by_epoch in He. rewrite !lookup_fmap in He. unfold creditable_anchors in He.
  destruct (filter _ (canonical_anchors_in_window p chain) !! e) as [a|] eqn:Ha; [|done]. injection He as <-.
  apply map_lookup_filter_Some in Ha as [Ha _]. exists a. split_and!; [done | done |].
  rewrite signed_value; [rewrite lookup_empty; done | by apply credited_nonneg | rewrite lookup_empty; cbn; unfold U64_MAX; lia].
Qed.
Lemma chain_tallies_typed p net_id stop_at bonds chain : Forall (λ b, is_u64 (sb_amount b)) bonds → Forall tally_typed (chain_tallies p net_id stop_at bonds chain).
Proof.
  intros Hb. apply Forall_forall. intros t (a & _ & Ht & Hs)%chain_tally; [|done]. split; [|rewrite Ht; by apply active_stake_u64].
  pose proof (attested_stake_nonneg p net_id stop_at bonds chain (st_epoch t) Hb). rewrite Hs. unfold is_u64, U64_MAX in *. lia.
Qed.
Lemma quorum_tally p net_id bonds chain t : Forall (λ b, is_u64 (sb_amount b)) bonds → t ∈ chain_tallies p net_id None bonds chain →
  quorum (stake_event_quality_floor_bps (sp_dns p)) t = true → quorum_epoch p net_id bonds chain (st_epoch t).
Proof.
  intros Hb (a & Ha & Ht & Hs)%chain_tally Hq; [|done]. exists a. apply andb_true_iff in Hq as [H1%Z.ltb_lt H2%Z.leb_le].
  rewrite Ht, Hs in *. pose proof (active_stake_u64 bonds (an_anchor_daa_score a) Hb) as Hu. unfold is_u64 in Hu. split_and!; [done | done |].
  etransitivity; [exact H2|]. lia.
Qed.

(** The canonical anchor that may be confirmed is a block of the chain. *)
Lemma confirmable_block p tip chain h daa : confirmable p (tip :: chain) = Some (h, daa) →
  ∃ e c, ready_epoch_from_tip_blue_score (cb_blue_score tip) (Z.max (attestation_epoch_length_blue_score p) 1) (attestation_lag_blue_score p) = Some e ∧
    most_recent (tip :: chain) (anchor_cutoff_blue_score e (attestation_epoch_length_blue_score p) (attestation_anchor_backoff_blue_score p)) c ∧
    cb_hash c = h.
Proof.
  unfold confirmable. intros (e & He & (a & Ha & [= <- <-])%bind_Some)%bind_Some. exists e.
  unfold canonical_anchor_by_blue_score in Ha. cbn [head mbind option_bind] in Ha. destruct (_ <? _); [done|].
  match goal with H : canonical_lagged_epoch_anchor _ _ _ (ancestors_until ?st ?b ?w _) = _ |- _ =>
    destruct (ancestors_until_prefix st b w (tip :: tip :: chain)) as [k Hk]; rewrite Hk in H end.
  apply canonical_inv in Ha as (_ & Ha & _). rewrite !cutoff_max in Ha. apply walk_most_recent in Ha as (c & Hc & [= Hh _ _]). by exists c.
Qed.
Lemma block_work_of chain c k : NoDup (cb_hash <$> chain) → chain !! k = Some c → block_work chain (cb_hash c) = cb_blue_work c.
Proof.
  intros Hnd Hk. unfold block_work. rewrite (proj2 (list_find_Some (λ x, cb_hash x = cb_hash c) chain k c)); [done|]. split_and!; [done | done |].
  intros j y Hy Hlt Heq. assert (j = k); [|lia]. eapply NoDup_lookup; [exact Hnd | by rewrite list_lookup_fmap, Hy | by rewrite list_lookup_fmap, Hk, Heq].
Qed.

(** C5. A confirmation needs both proofs. When the recomputation at a sink
    confirms a new anchor, that anchor is the canonical anchor of the latest
    ready epoch; the blue work
    above it reaches the required depth; and there are distinct epochs, at
    least the required depth in units of a full epoch, in each of which
    distinct bonds holding the quality share of the active stake signed the
    canonical anchor of the epoch. *)
Theorem confirmation_requires_work_and_quorum {E : Type} p net_id max_block_mass tip chain bonds prev prev_blue pp st work :
  NoDup (cb_hash <$> tip :: chain) → Forall (λ b, is_u64 (sb_amount b)) bonds → 0 ≤ stake_event_quality_floor_bps (sp_dns p) →
  @update_dns_state _ _ E p net_id max_block_mass (tip :: chain) bonds prev prev_blue pp = Ok (Some (st, work)) →
  ds_last_dns_confirmed_anchor st ≠ from_option ds_last_dns_confirmed_anchor DEFAULT_HASH prev →
  (∃ e c, ready_epoch_from_tip_blue_score (cb_blue_score tip) (Z.max (attestation_epoch_length_blue_score p) 1) (attestation_lag_blue_score p) = Some e ∧
    most_recent (tip :: chain) (anchor_cutoff_blue_score e (attestation_epoch_length_blue_score p) (attestation_anchor_backoff_blue_score p)) c ∧
    ds_last_dns_confirmed_anchor st = cb_hash c ∧ required_work_depth p ≤ work_sat_sub (cb_blue_work tip) (cb_blue_work c)) ∧
  ∃ epochs, NoDup epochs ∧ Forall (quorum_epoch p net_id bonds (tip :: chain)) epochs ∧
    required_stake_depth p ≤ STAKE_SCORE_SCALE * Z.of_nat (length epochs).
Proof.
  intros Hnd Hb Hphi Hu Hne. destruct (update_confirms _ _ _ _ _ _ _ _ _ _ _ Hu Hne) as (h & daa & score & Hc & Hh & Hw & Hs & Hd). split.
  - apply confirmable_block in Hc as (e & c & He & Hm & <-). exists e, c. pose proof Hm as (k & Hk & _).
    rewrite (block_work_of _ c k) in Hw by done. by split_and!.
  - set (ts := chain_tallies p net_id None bonds (tip :: chain)) in *. set (phi := stake_event_quality_floor_bps (sp_dns p)) in *.
    destruct (stake_score_loop_spec (E := E) ts phi 0) as (s & Hs' & Hle); [by apply chain_tallies_typed | done | done |].
    unfold compute_stake_score in Hs. rewrite Hs' in Hs. injection Hs as <-.
    exists (st_epoch <$> filter (λ t, quorum phi t = true) ts). split_and!.
    + eapply sublist_NoDup; [|apply fmap_sublist, sublist_filter]. unfold ts, chain_tallies, aggregate_epoch_tallies.
      rewrite <- list_fmap_compose. erewrite list_fmap_ext; [apply by_key_nodup|]. by intros _ [] _.
    + apply Forall_fmap, Forall_forall. intros t [Hq Ht]%list_elem_of_filter. by apply quorum_tally.
    + rewrite length_fmap. lia.
Qed.

(** ** The reorg gate *)

Lemma stake_score_loop_u128 {E : Type} ts phi acc s : @stake_score_loop E ts phi acc = Ok s → acc ≤ U128_MAX → s ≤ U128_MAX.
Proof.
  revert acc. induction ts as [|t ts IH]; intros acc; cbn [stake_score_loop]; [by intros [= ->]|].
  intros (c & _ & Hs)%bind_Ok _. apply (IH _ Hs). unfold sat_add128. lia.
Qed.
Lemma stake_score_total {E : Type} p net_id chain stop_at bonds : chain ≠ [] → Forall (λ b, is_u64 (sb_amount b)) bonds →
  0 ≤ stake_event_quality_floor_bps (sp_dns p) →
  ∃ s, @stake_score_since _ _ E p net_id chain stop_at bonds = Ok s ∧ 0 ≤ s ≤ U128_MAX.
Proof.
  intros Hne Hb Hphi. unfold stake_score_since. pose proof (collect_eq p net_id chain stop_at bonds Hne) as Hc.
  destruct (collect_stake_contributions_v2 p net_id chain stop_at bonds) as [[l m] r]. cbn in Hc. injection Hc as -> ->.
  destruct (stake_score_loop_spec (E := E) (chain_tallies p net_id stop_at bonds chain) (stake_event_quality_floor_bps (sp_dns p)) 0)
    as (s & Hs & Hle); [by apply chain_tallies_typed | done | done |].
  exists s. split; [exact Hs|]. split; [lia|]. by apply (stake_score_loop_u128 _ _ _ _ Hs).
Qed.

Lemma first_common_elem walked max_walk walk b c k : first_common walked max_walk walk b = Some (c, k) →
  c ∈ walk ∧ cb_hash c ∈ (cb_hash <$> b).
Proof.
  revert walked. induction walk as [|x walk IH]; intros walked; cbn [first_common]; [done|]. destruct (_ <? _); [done|].
  case_bool_decide; [intros [= -> ->]; split; [by left|done]|]. intros [? ?]%IH. split; [by right|done].
Qed.
Lemma common_ancestor_elem a b max_walk c k : selected_chain_common_ancestor a b max_walk = Some (c, k) →
  c ∈ a ∧ cb_hash c ∈ (cb_hash <$> b).
Proof.
  destruct a as [|tip a]; [done|]. intros [[->|Hc]%elem_of_cons Hb]%first_common_elem; [split; [by left|done] | done].
Qed.

(** A chain from its tip: blue work falls towards the past. *)
Definition work_ok (tip : ChainBlock) (chain : list ChainBlock) : Prop :=
  cb_blue_work tip ≤ WORK_MAX ∧ Forall (λ c, 0 ≤ cb_blue_work c ≤ cb_blue_work tip) (tip :: chain).
(** Hashes identify blocks. *)
Definition agree (a b : list ChainBlock) : Prop := ∀ c d, c ∈ a → d ∈ b → cb_hash c = cb_hash d → c = d.

Lemma dominance_since_ancestor wc wp w margin : 0 ≤ w ≤ wc → w ≤ wp → wc ≤ WORK_MAX →
  work_sat_add (work_sat_sub wp w) margin < work_sat_sub wc w ↔ wp + margin < wc.
Proof. unfold work_sat_add, work_sat_sub. lia. Qed.

(** C6. Neither work nor stake replaces the other. In the active stage a
    candidate chain that drops the confirmed anchor is always judged without
    panic, and it is allowed exactly when the network runs the two-dimensional
    rule, the candidate has more blue work than the current sink by more than
    the work margin, and more stake score since the common ancestor by more
    than the stake margin. When the walk finds no common ancestor, comparing
    total work gives the same answer. *)
Theorem reorg_needs_work_and_stake {E : Type} p net_id st has_reachability tip chain sink canonical candidate_bonds canonical_bonds :
  let ancestor := fst <$> selected_chain_common_ancestor (tip :: chain) (sink :: canonical)
    (Z.max (max_reorg_horizon_blocks (sp_dns p)) (stake_score_window_blue_score p)) in
  ds_rollout_stage st = StageActive → ds_last_dns_confirmed_anchor st ≠ DEFAULT_HASH →
  has_reachability (ds_last_dns_confirmed_anchor st) = true → ds_last_dns_confirmed_anchor st ∉ (cb_hash <$> tip :: chain) →
  work_ok tip chain → work_ok sink canonical → agree (tip :: chain) (sink :: canonical) →
  Forall (λ b, is_u64 (sb_amount b)) candidate_bonds → Forall (λ b, is_u64 (sb_amount b)) canonical_bonds →
  0 ≤ stake_event_quality_floor_bps (sp_dns p) → 0 ≤ emergency_stake_margin p →
  ∃ verdict candidate_stake canonical_stake,
    @dns_reorg_allows _ _ E p net_id (Some st) has_reachability (tip :: chain) (sink :: canonical) candidate_bonds canonical_bonds = Ok verdict ∧
    @stake_score_since _ _ E p net_id (tip :: chain) (cb_hash <$> ancestor) candidate_bonds = Ok candidate_stake ∧
    @stake_score_since _ _ E p net_id (sink :: canonical) (cb_hash <$> ancestor) canonical_bonds = Ok canonical_stake ∧
    (verdict = true ↔ reorg_mode p = TwoDimensionalDominance ∧ cb_blue_work sink + emergency_work_margin p < cb_blue_work tip ∧
      canonical_stake + emergency_stake_margin p < candidate_stake).
Proof.
  intros ancestor Hst Hd Hr Hout [Hw1 HF1] [Hw2 HF2] Hag Hb1 Hb2 Hphi Hm.
  destruct (stake_score_total (E := E) p net_id (tip :: chain) (cb_hash <$> ancestor) candidate_bonds ltac:(done) Hb1 Hphi) as (cs & Hcs & Hcs1).
  destruct (stake_score_total (E := E) p net_id (sink :: canonical) (cb_hash <$> ancestor) canonical_bonds ltac:(done) Hb2 Hphi) as (ks & Hks & Hks1).
  assert (Hanc : 0 ≤ from_option cb_blue_work 0 ancestor ≤ cb_blue_work tip ∧ from_option cb_blue_work 0 ancestor ≤ cb_blue_work sink).
  { rewrite Forall_forall in HF1, HF2. destruct ancestor as [c|] eqn:Ha; cbn.
    - apply fmap_Some in Ha as ([c' k] & [Hc (d & Hd' & Hin)%list_elem_of_fmap]%common_ancestor_elem & ->). cbn in *.
      pose proof (Hag _ _ Hc Hin Hd') as ->. pose proof (HF1 _ Hc) as Hc1. pose proof (HF2 _ Hin) as Hd1. cbn in *. lia.
    - pose proof (HF1 tip ltac:(by left)). pose proof (HF2 sink ltac:(by left)). cbn in *. lia. }
  unfold dns_reorg_allows. rewrite Hst, Hr, bool_decide_false by (intros Hn; by apply Hn). rewrite (bool_decide_false (_ = DEFAULT_HASH)) by done.
  rewrite (bool_decide_false (_ ∈ _)) by done. cbn [negb orb]. fold ancestor. clearbody ancestor.
  destruct (reorg_mode p) eqn:Hmode; cbn [bool_decide decide_rel andb].
  - eexists _, cs, ks. split_and!; [done | done | done |]. cbn. naive_solver.
  - eexists _, cs, ks. rewrite bool_decide_true by done. cbn [andb]. rewrite Hcs. cbn [mbind outcome_bind]. rewrite Hks. cbn [mbind outcome_bind].
    split_and!; [done | done | done |]. unfold check_dns_reorg_rule, reorg_inputs_since_common_ancestor. cbn -[work_sat_add work_sat_sub].
    pose proof (dominance_since_ancestor (cb_blue_work tip) (cb_blue_work sink) (from_option cb_blue_work 0 ancestor) (emergency_work_margin p)
      ltac:(lia) ltac:(lia) Hw1) as Hdom.
    unfold sat_add128.
    destruct (Z.ltb_spec (work_sat_add (work_sat_sub (cb_blue_work sink) (from_option cb_blue_work 0 ancestor)) (emergency_work_margin p))
      (work_sat_sub (cb_blue_work tip) (from_option cb_blue_work 0 ancestor))), (Z.ltb_spec (Z.min (ks + emergency_stake_margin p) U128_MAX) cs);
      cbn; (split; [intros Hv; first [discriminate Hv | split_and!; [done | by apply Hdom | lia]] | intros (_ & ?%Hdom & ?); first [done | exfalso; lia]]).
Qed.
End score.
