(* ===== verification/DnsDormancyThms.v ===== *)
(** * DNS finality: theorems on the dormancy catch-up

    When replaying several buried rounds in one pass gives what one pass per
    round gives, and that it need not. *)

From stdpp Require Import base list gmap sorting.
From Stdlib Require Import ZArith Lia.
From S2P Require Import Prelude Tx Utxo Bytes Hashing ScriptNum ScriptOps ScriptEngine Ghostdag Palw DnsBond DnsReward DnsRules DnsScore.

Local Open Scope Z_scope.

(** ** Recency *)

Definition omax (a b : option Z) : option Z :=
  match a, b with Some x, Some y => Some (Z.max x y) | None, b => b | a, None => a end.
Lemma omax_assoc a b c : omax (omax a b) c = omax a (omax b c).
Proof. destruct a, b, c; cbn; try done. f_equal. lia. Qed.

(** The latest attested epoch of a bond as of an epoch. *)
Definition latest_of (att : gmap TransactionOutpoint (list Z)) (o : TransactionOutpoint) (r : Z) : option Z :=
  epochs ← att !! o; latest_attested epochs r.
Lemma latest_attested_snoc l e r : latest_attested (l ++ [e]) r = if e <=? r then omax (latest_attested l r) (Some e) else latest_attested l r.
Proof. unfold latest_attested. rewrite foldl_app. cbn. destruct (e <=? r); [|done]. by destruct (foldl _ _ _). Qed.
Lemma latest_attested_mono l r1 r2 : r1 ≤ r2 → omax (latest_attested l r1) (latest_attested l r2) = latest_attested l r2.
Proof.
  intros Hr. induction l as [|e l IH] using rev_ind; [done|]. rewrite !latest_attested_snoc.
  destruct (Z.leb_spec e r1), (Z.leb_spec e r2); try lia; [| |done];
    destruct (latest_attested l r1), (latest_attested l r2); cbn in *; simplify_eq; try done; f_equal; lia.
Qed.
Lemma latest_of_mono att o r1 r2 : r1 ≤ r2 → omax (latest_of att o r1) (latest_of att o r2) = latest_of att o r2.
Proof. intros Hr. unfold latest_of. destruct (att !! o); [|done]. by apply latest_attested_mono. Qed.

Lemma touch_eq att r rec : touch_attested att r rec = set_attested (omax (sb_last_attested_epoch rec) (latest_of att (sb_bond_outpoint rec) r)) rec.
Proof.
  unfold touch_attested. fold (latest_of att (sb_bond_outpoint rec) r). destruct rec as [? ? ? ? ? ? ? ? ? ? ? ? ? last ? ?]. cbn.
  destruct (latest_of _ _ _) as [m|]; [|by destruct last]. destruct last as [le|]; [|done]. cbn.
  destruct (Z.ltb_spec le m); unfold set_attested; cbn; do 2 f_equal; lia.
Qed.
Lemma touch_touch att1 att2 r1 r2 rec : r1 ≤ r2 → (∀ o, latest_of att1 o r1 = latest_of att2 o r1) →
  touch_attested att2 r2 (touch_attested att1 r1 rec) = touch_attested att2 r2 rec.
Proof.
  intros Hr Ha. rewrite !touch_eq. unfold set_attested. cbn. rewrite omax_assoc, Ha, latest_of_mono by done. done.
Qed.
Lemma touch_agree att1 att2 r rec : (∀ o, latest_of att1 o r = latest_of att2 o r) → touch_attested att1 r rec = touch_attested att2 r rec.
Proof. intros Ha. by rewrite !touch_eq, Ha. Qed.

(** ** Rounds *)

(** The stamps of a record are reached at both scores or at neither. *)
Definition stable (d1 d2 : Z) (rec : StakeBondRecord) : Prop :=
  reached (sb_slashed_at_daa_score rec) d1 = reached (sb_slashed_at_daa_score rec) d2 ∧
  reached (sb_unbond_request_daa_score rec) d1 = reached (sb_unbond_request_daa_score rec) d2 ∧
  reached (sb_dormant_at_daa_score rec) d1 = reached (sb_dormant_at_daa_score rec) d2 ∧
  (sb_activation_daa_score rec <=? d1) = (sb_activation_daa_score rec <=? d2).

Lemma stable_status d1 d2 rec : stable d1 d2 rec → effective_bond_status rec d1 = effective_bond_status rec d2.
Proof. intros (Hs & Hu & Hd & Ha). unfold effective_bond_status. by rewrite Hs, Hu, Hd, Ha. Qed.
Lemma stable_touch d1 d2 att r rec : stable d1 d2 rec → stable d1 d2 (touch_attested att r rec).
Proof. by rewrite touch_eq. Qed.

Lemma round_agree {E : Type} att1 att2 r a d1 d2 L params work : (∀ o, latest_of att1 o r = latest_of att2 o r) → Forall (stable d1 d2) work →
  a ≤ d1 → a ≤ d2 →
  @apply_dormancy_round E work att1 r a d1 L params = apply_dormancy_round work att2 r a d2 L params ∧
  ∀ work', @apply_dormancy_round E work att1 r a d1 L params = Ok work' → Forall (stable d1 d2) work'.
Proof.
  intros Hatt Hst H1 H2. unfold apply_dormancy_round.
  assert (touch_attested att1 r <$> work = touch_attested att2 r <$> work) as -> by (apply list_fmap_ext; intros; by apply touch_agree).
  assert (Forall (stable d1 d2) (touch_attested att2 r <$> work)) as Ht by (apply Forall_fmap; eapply Forall_impl; [exact Hst|]; intros; by apply stable_touch).
  assert (bond_view_of d1 (Z.max L 1) <$> (touch_attested att2 r <$> work) = bond_view_of d2 (Z.max L 1) <$> (touch_attested att2 r <$> work)) as ->.
  { apply list_fmap_ext. intros i x Hx. unfold bond_view_of. rewrite (stable_status d1 d2); [done|]. by eapply Forall_lookup_1. }
  split; [done|]. intros work' (ev & _ & [= <-])%bind_Ok. apply Forall_fmap. eapply Forall_impl; [exact Ht|]. intros rec Hr. cbn.
  case_bool_decide; [|done]. destruct Hr as (? & ? & ? & ?). split_and!; cbn; try done. by rewrite !(proj2 (Z.leb_le _ _)).
Qed.
Lemma round_touched {E : Type} att b r a d L params work : b ≤ r →
  @apply_dormancy_round E (touch_attested att b <$> work) att r a d L params = apply_dormancy_round work att r a d L params.
Proof.
  intros Hb. unfold apply_dormancy_round. rewrite <- list_fmap_compose.
  assert (touch_attested att r ∘ touch_attested att b <$> work = touch_attested att r <$> work) as ->; [|done].
  apply list_fmap_ext. intros i x _. cbn. by apply touch_touch.
Qed.

(** ** The catch-up *)

Section catch_up.
Context {E : Type} (L period : Z) (params : DormancyParams).
Hypothesis Hperiod : 1 ≤ period.
Abbreviation loop := (λ n anchor att b d r le work, @catch_up E n anchor att period b d L params r le work).

(** Enough fuel is any fuel above the rounds up to the buried epoch and the
    final test. *)
Lemma catch_up_fuel n m anchor att b d r le work : b - r + 1 < Z.of_nat n → b - r + 1 < Z.of_nat m →
  (0 < n)%nat → (0 < m)%nat → loop n anchor att b d r le work = loop m anchor att b d r le work.
Proof.
  revert m r le work. induction n as [|n IH]; intros m r le work Hn Hm Hn0 Hm0; [lia|]. destruct m as [|m]; [lia|]. cbn [catch_up].
  destruct (Z.ltb_spec b r); [done|]. destruct (anchor r); [|done]. destruct (apply_dormancy_round _ _ _ _ _ _ _) as [w| | |]; [|done..].
  cbn [mbind outcome_bind]. unfold add64, chk64. destruct (in_u64 _); [|done]. cbn [mbind outcome_bind]. apply IH; lia.
Qed.

(** Two nodes that agree up to the buried epoch run the same rounds. *)
Lemma catch_up_agree n anchor1 anchor2 att1 att2 b d1 d2 r le work :
  (∀ r, r ≤ b → anchor1 r = anchor2 r) → (∀ r a, anchor1 r = Some a → a ≤ d1 ∧ a ≤ d2) →
  (∀ o r, r ≤ b → latest_of att1 o r = latest_of att2 o r) → Forall (stable d1 d2) work →
  loop n anchor1 att1 b d1 r le work = loop n anchor2 att2 b d2 r le work.
Proof.
  intros Hanc Hle Hatt. revert r le work. induction n as [|n IH]; intros r le work Hst; [done|]. cbn [catch_up].
  destruct (Z.ltb_spec b r); [done|]. rewrite <- Hanc by done. destruct (anchor1 r) as [a|] eqn:Ha; [|done]. apply Hle in Ha as [H1 H2].
  destruct (round_agree (E := E) att1 att2 r a d1 d2 L params work) as [Heq Hpres]; [auto | done | done | done |]. rewrite <- Heq.
  destruct (apply_dormancy_round work att1 r a d1 L params) as [w| | |]; [|done..]. cbn [mbind outcome_bind].
  destruct (add64 r period); [|done..]. cbn [mbind outcome_bind]. by apply IH, Hpres.
Qed.

(** A finished catch-up can be resumed: its cursor leads to the next round. *)
Lemma catch_up_resume n anchor att b1 b2 d r le work w1 le1 m m' :
  loop n anchor att b1 d r le work = Ok (w1, le1) → b1 ≤ b2 → is_u64 r → (le / period + 1) * period = r →
  b2 - r + 1 < Z.of_nat m → b2 - r + 1 < Z.of_nat m' → (0 < m)%nat → (0 < m')%nat →
  let r1 := (le1 / period + 1) * period in
  is_u64 r1 ∧ (b1 < r1 ∨ anchor r1 = None) ∧ loop m anchor att b2 d r le work = loop m' anchor att b2 d r1 le1 w1.
Proof.
  intros Hl Hb. revert r le work m Hl. induction n as [|n IH]; intros r le work m Hl Hr Hle Hm Hm' Hm0 Hm0'; [done|]. cbn [catch_up] in Hl.
  destruct (Z.ltb_spec b1 r) as [Hlt|Hge].
  { injection Hl as <- <-. cbn zeta. rewrite Hle. split_and!; [done | by left | by apply catch_up_fuel]. }
  destruct (anchor r) as [a|] eqn:Ha.
  2:{ injection Hl as <- <-. cbn zeta. rewrite Hle. split_and!; [done | by right | by apply catch_up_fuel]. }
  apply bind_Ok in Hl as (w & Hw & (r' & Hr' & Hl)%bind_Ok). unfold add64, chk64 in Hr'.
  destruct (in_u64 (r + period)) eqn:Hu; [|done]. injection Hr' as <-.
  assert ((r / period + 1) * period = r + period) as Hnext.
  { rewrite <- Hle at 1. rewrite Z.div_mul by lia. lia. }
  destruct m as [|m]; [lia|]. cbn [catch_up]. replace (b2 <? r) with false by lia. rewrite Ha, Hw. cbn [mbind outcome_bind].
  unfold add64, chk64. rewrite Hu. cbn [mbind outcome_bind].
  assert (is_u64 (r + period)) as Hru by (unfold in_u64, is_u64 in *; lia).
  apply IH; (done || lia).
Qed.

Lemma finish_touched att b1 b2 d delay work : b1 ≤ b2 →
  finish_pass att d b2 delay (touch_attested att b1 <$> work) = finish_pass att d b2 delay work.
Proof.
  intros Hb. unfold finish_pass. rewrite <- list_fmap_compose. apply list_fmap_ext. intros i x _. cbn. by rewrite touch_touch.
Qed.
(** A touch at an earlier epoch makes no difference to what follows. *)
Lemma resume_touched n anchor att b1 b2 d delay r le work : b1 ≤ b2 → b1 < r ∨ anchor r = None →
  (res ← loop n anchor att b2 d r le (touch_attested att b1 <$> work); Ok (finish_pass att d b2 delay res.1, res.2)) =
  (res ← loop n anchor att b2 d r le work; Ok (finish_pass att d b2 delay res.1, res.2)).
Proof.
  intros Hb Hr. destruct n as [|n]; [done|]. cbn [catch_up]. destruct (b2 <? r); [cbn [mbind outcome_bind fst snd]; by rewrite finish_touched|].
  destruct (anchor r); [|cbn [mbind outcome_bind fst snd]; by rewrite finish_touched]. destruct Hr as [Hr|]; [|done]. by rewrite round_touched by lia.
Qed.
End catch_up.

(** ** Passes *)

(** The pass at [b] revives no bond. *)
Definition revives_none {E : Type} (p : ScoreParams) (anchor_of : Z → option Z) (att_by_bond : gmap TransactionOutpoint (list Z))
    (buried_epoch prev_last_evicted sink_daa : Z) (bonds : list StakeBondRecord) : Prop :=
  let period := Z.max (dormancy_evict_period_epochs (sp_dormancy p)) 1 in
  ∀ work cursor, @catch_up E (S (Z.to_nat buried_epoch)) anchor_of att_by_bond period buried_epoch sink_daa
      (Z.max (attestation_epoch_length_blue_score p) 1) (sp_dormancy p) ((prev_last_evicted / period + 1) * period) prev_last_evicted bonds = Ok (work, cursor) →
    Forall (λ rec, revive sink_daa buried_epoch (Z.max (dormancy_revival_delay_epochs p) 1) (touch_attested att_by_bond buried_epoch rec)
                   = touch_attested att_by_bond buried_epoch rec) work.

(** The catch-up is incremental as long as nothing revives. If a pass at a
    buried epoch revives no bond, then a later pass from its result gives
    exactly what one pass from the start gives: the same records and the same
    cursor. The two passes must agree on the anchors and attestations up to
    the first buried epoch, and no stamp of a bond may fall between their
    sinks. *)
Theorem dormancy_catch_up_incremental {E : Type} p anchor1 anchor2 att1 att2 b1 b2 prev d1 d2 bonds w1 cursor1 :
  0 ≤ prev → 0 ≤ b1 ≤ b2 →
  (∀ r, r ≤ b1 → anchor1 r = anchor2 r) → (∀ r a, anchor1 r = Some a → a ≤ d1 ∧ a ≤ d2) →
  (∀ o r, r ≤ b1 → latest_of att1 o r = latest_of att2 o r) → Forall (stable d1 d2) bonds →
  @dormancy_pass E p anchor1 att1 b1 prev d1 bonds = Ok (w1, cursor1) → @revives_none E p anchor1 att1 b1 prev d1 bonds →
  @dormancy_pass E p anchor2 att2 b2 cursor1 d2 w1 = dormancy_pass p anchor2 att2 b2 prev d2 bonds.
Proof.
  intros Hprev Hb Hanc Hle Hatt Hst Hpass Hrev. unfold dormancy_pass in *. unfold revives_none in Hrev.
  set (period := Z.max (dormancy_evict_period_epochs (sp_dormancy p)) 1) in *. assert (1 ≤ period) as Hp by lia. clearbody period.
  set (L := Z.max (attestation_epoch_length_blue_score p) 1) in *. clearbody L.
  apply bind_Ok in Hpass as (q & Hq & (r & Hr & ([work c] & Hc & [= <- <-])%bind_Ok)%bind_Ok).
  apply chk64_inv in Hq as [-> Hqu]. apply chk64_inv in Hr as [-> Hru]. cbn [fst snd] in *.
  specialize (Hrev _ _ Hc). rewrite (catch_up_agree L period _ _ anchor1 anchor2 att1 att2 b1 d1 d2) in Hc by auto.
  assert (finish_pass att1 d1 b1 (Z.max (dormancy_revival_delay_epochs p) 1) work = touch_attested att2 b1 <$> work) as ->.
  { unfold finish_pass. apply list_fmap_ext. intros i x Hx. rewrite (Forall_lookup_1 _ _ _ _ Hrev Hx). apply touch_agree. intros o. by apply Hatt. }
  assert (period ≤ (prev / period + 1) * period) as Hr0 by (pose proof (Z.div_pos prev period); nia).
  destruct (catch_up_resume L period (sp_dormancy p) Hp _ anchor2 att2 b1 b2 d2 _ _ _ _ _ (S (Z.to_nat b2)) (S (Z.to_nat b2)) Hc)
    as (Hru1 & Hstop & Heq); [lia | done | done | lia.. |].
  unfold add64, mul64. rewrite (chk64_Ok (prev / period + 1)) by done. cbn [mbind outcome_bind].
  rewrite (chk64_Ok ((prev / period + 1) * period)) by done. rewrite (chk64_Ok (c / period + 1)) by (unfold is_u64 in *; nia). cbn [mbind outcome_bind]. rewrite chk64_Ok by done. cbn [mbind outcome_bind].
  rewrite Heq. apply resume_touched; [lia | done].
Qed.

(** ** A pass returns *)

(** A record without the fields that dormancy owns. *)
Definition erase (rec : StakeBondRecord) : StakeBondRecord := set_status Pending (set_dormant None None (set_attested None rec)).
Definition stake_ok (rec : StakeBondRecord) : Prop := is_u64 (sb_amount rec).

Lemma erase_touch att r rec : erase (touch_attested att r rec) = erase rec.
Proof. by rewrite touch_eq. Qed.
Lemma erase_revive d b delay rec : erase (revive d b delay rec) = erase rec.
Proof. unfold revive. case_bool_decide; [done|]. destruct (sb_dormant_at_epoch rec); [|done]. by destruct (dormancy_revival_ready _ _ _ _). Qed.
Lemma erase_amount (l l' : list StakeBondRecord) : erase <$> l = erase <$> l' → sb_amount <$> l = sb_amount <$> l'.
Proof.
  intros Heq. apply (f_equal (fmap sb_amount)) in Heq. by rewrite <- !list_fmap_compose in Heq.
Qed.

Lemma sumZ_filter_le (P : StakeBondView → Prop) `{!∀ x, Decision (P x)} l : Forall (λ b, is_u64 (bv_amount b)) l →
  0 ≤ sumZ (bv_amount <$> filter P l) ≤ len l * U64_MAX.
Proof.
  induction 1 as [|b l Hb Hl IH]; [done|]. rewrite filter_cons. unfold is_u64 in Hb. cbn [length].
  case_decide; rewrite ?fmap_cons, ?sumZ_cons; unfold U64_MAX in *; lia.
Qed.
Lemma round_returns {E : Type} att r a d L params work : Forall stake_ok work → len work ≤ U32_MAX →
  ∃ work', @apply_dormancy_round E work att r a d L params = Ok work' ∧ erase <$> work' = erase <$> work.
Proof.
  intros Hw Hlen. unfold apply_dormancy_round, derive_dormancy_evictions.
  set (views := bond_view_of d (Z.max L 1) <$> (touch_attested att r <$> work)).
  assert (Forall (λ b, is_u64 (bv_amount b)) views) as Hv.
  { apply Forall_fmap, Forall_fmap. eapply Forall_impl; [exact Hw|]. intros rec Hr. cbn. rewrite touch_eq. exact Hr. }
  assert (Hfin : ∀ ev : list TransactionOutpoint, erase <$> ((λ rec, if bool_decide (sb_bond_outpoint rec ∈ ev)
      then set_status Dormant (set_dormant (Some a) (Some r) rec) else rec) <$> (touch_attested att r <$> work)) = erase <$> work).
  { intros ev. rewrite <- !list_fmap_compose. apply list_fmap_ext. intros i x _. cbn.
    case_bool_decide; [|apply erase_touch]. transitivity (erase (touch_attested att r x)); [done | apply erase_touch]. }
  destruct (negb _); [cbn [mbind outcome_bind]; eauto|].
  pose proof (sumZ_filter_le (λ b, bv_status b = Active) views Hv) as Hs.
  assert (length views = length work) as Hvl by (unfold views; by rewrite !length_fmap). rewrite Hvl in Hs.
  rewrite sum128_Ok; [cbn [mbind outcome_bind]; eauto | done | | unfold U128_MAX, U64_MAX, U32_MAX in *; lia].
  apply Forall_fmap, Forall_forall. intros b [_ Hin]%list_elem_of_filter. pose proof (proj1 (Forall_forall _ _) Hv b Hin) as Hu.
  unfold is_u64 in Hu. cbn in *. lia.
Qed.
Lemma stake_ok_erase (l l' : list StakeBondRecord) : erase <$> l' = erase <$> l → Forall stake_ok l → Forall stake_ok l' ∧ length l' = length l.
Proof.
  intros Heq Hl. split; [|by rewrite <- (length_fmap erase l'), Heq, length_fmap].
  apply erase_amount in Heq. assert (Forall is_u64 (sb_amount <$> l')) as HF by (rewrite Heq; apply Forall_fmap; exact Hl).
  rewrite Forall_fmap in HF. exact HF.
Qed.
Lemma catch_up_returns {E : Type} n anchor att period b d L params r le work : 1 ≤ period → b - r + 1 < Z.of_nat n → (0 < n)%nat →
  b + period ≤ U64_MAX → 0 ≤ r → Forall stake_ok work → len work ≤ U32_MAX →
  ∃ w c, @catch_up E n anchor att period b d L params r le work = Ok (w, c) ∧ erase <$> w = erase <$> work.
Proof.
  intros Hp. revert r le work. induction n as [|n IH]; intros r le work Hn Hn0 Hb Hr Hw Hlen; [lia|]. cbn [catch_up].
  destruct (Z.ltb_spec b r); [eauto|]. destruct (anchor r) as [a|]; [|eauto].
  destruct (round_returns (E := E) att r a d L params work Hw Hlen) as (w & -> & Heq). cbn [mbind outcome_bind].
  unfold add64. rewrite chk64_Ok by (unfold is_u64; lia). cbn [mbind outcome_bind]. destruct (stake_ok_erase work w Heq Hw) as [Hw' Hl'].
  destruct (IH (r + period) r w) as (w' & c & -> & Heq'); [lia | lia | done | lia | done | by rewrite Hl' |]. eexists _, _. split; [done|]. by rewrite Heq'.
Qed.

(** C30. A pass of the dormancy transitions always returns: the catch-up loop
    ends within its bound whatever the cursor, no arithmetic overflows, and the
    records it returns are the given ones up to status, dormancy stamps and
    latest attested epoch: no stake, owner, slash or unbond stamp changes. *)
Theorem dormancy_pass_returns {E : Type} p anchor_of att buried prev d bonds :
  let period := Z.max (dormancy_evict_period_epochs (sp_dormancy p)) 1 in
  0 ≤ prev → prev + period ≤ U64_MAX → 0 ≤ buried → buried + period ≤ U64_MAX → Forall stake_ok bonds → len bonds ≤ U32_MAX →
  ∃ work cursor, @dormancy_pass E p anchor_of att buried prev d bonds = Ok (work, cursor) ∧ erase <$> work = erase <$> bonds.
Proof.
  intros period Hprev Hp Hb Hbp Hbonds Hlen. unfold dormancy_pass. fold period. assert (1 ≤ period) as Hper by lia.
  pose proof (Z.div_pos prev period). pose proof (Z.mul_div_le prev period). unfold add64, mul64.
  rewrite (chk64_Ok (prev / period + 1)) by (unfold is_u64; nia). cbn [mbind outcome_bind].
  rewrite chk64_Ok by (unfold is_u64; nia). cbn [mbind outcome_bind].
  destruct (catch_up_returns (E := E) (S (Z.to_nat buried)) anchor_of att period buried d (Z.max (attestation_epoch_length_blue_score p) 1) (sp_dormancy p)
    ((prev / period + 1) * period) prev bonds) as (w & c & -> & Heq); [done | nia | lia | done | nia | done | done |].
  cbn [mbind outcome_bind fst snd]. eexists _, _. split; [done|]. rewrite <- Heq. unfold finish_pass. rewrite <- list_fmap_compose.
  apply list_fmap_ext. intros i x _. cbn. by rewrite erase_revive, erase_touch.
Qed.

(** ** One pass or several *)

Module CatchUp.
(** Epochs of one blue score, a horizon of one, a window of four epochs, a round
    per epoch that may evict 70% of the active stake, revival after one epoch. *)
Definition params : ScoreParams :=
  mkScoreParams (mkDnsParams 0 0 U64_MAX 10 1 1 1000 0 0 10000 6700 0 1 10 1) (mkDormancyParams 4 1 7000)
    1 1 0 1 0 0 1000 3 100 TwoDimensionalDominance 1 1 0 1000 U64_MAX 0 1.
Definition bond (id : Z) (last : option Z) (dormant : option (Z * Z)) : StakeBondRecord :=
  mkBondRecord 1 (mkOutpoint id 0) 0 0 [] 100 0 0 10 [] None None (if dormant then Dormant else Active) last (fst <$> dormant) (snd <$> dormant).
(** The first bond fell dormant at epoch 1; all three attested at epoch 3. *)
Definition bonds : list StakeBondRecord := [bond 1 (Some 0) (Some (10, 1)); bond 2 None None; bond 3 None None].
Definition contributions : list AttestationContribution := [mkAttContribution 3 0 (mkOutpoint 2 0) 100; mkAttContribution 3 0 (mkOutpoint 3 0) 100].
Definition signals : list (TransactionOutpoint * Z) := [(mkOutpoint 1 0, 3)].
Definition anchors : gmap Z Z := list_to_map [(4, 40); (5, 50); (6, 60); (7, 70); (8, 80)].
(** The pass at a sink whose blue score buries the given epoch, from a cursor. *)
Definition pass (buried cursor : Z) (bonds : list StakeBondRecord) : outcome unit (list StakeBondRecord * Z) :=
  stage_dormancy_transitions params [] bonds contributions signals anchors cursor 100 (buried + 1).
(** The bonds that are active after a pass. *)
Definition active (l : list StakeBondRecord) : list Z :=
  (λ b, transaction_id (sb_bond_outpoint b)) <$> filter (λ b, is_bond_active_at b 100 = true) l.
End CatchUp.

(** C28. The catch-up is not what one pass per epoch gives. Under consistent
    parameters, from one registry and one set of attestations: a node that
    runs a pass when epoch 7 is buried and another when epoch 8 is buried ends
    with one active bond, a node whose sink jumps to epoch 8 with two. The
    stepping node revives the first bond before round 8, which enlarges the
    eviction budget and evicts it again; the jumping node runs round 8 first.
    The comments promise the identical dormant set. *)
Theorem dormancy_catch_up_diverges :
  dns_v4_params_consistent CatchUp.params = true ∧
  ∃ work cursor stepped jumped,
    CatchUp.pass 7 3 CatchUp.bonds = Ok (work, cursor) ∧ CatchUp.pass 8 cursor work = Ok (stepped, 8) ∧
    CatchUp.pass 8 3 CatchUp.bonds = Ok (jumped, 8) ∧ CatchUp.active stepped = [3] ∧ CatchUp.active jumped = [1; 3].
Proof.
  split; [vm_compute; reflexivity|]. eexists _, _, _, _. split; [vm_compute; reflexivity|]. split; [vm_compute; reflexivity|].
  split; [vm_compute; reflexivity|]. split; vm_compute; reflexivity.
Qed.
