(* ===== verification/DnsWitness.v ===== *)
(** * Concrete DNS runs

    [DnsWitness]: registries, blocks and windows on which the theorems about
    stake bonds, rewards and slashing apply. [DnsScoreWitness]: a chain, a fork
    of it and dormancy passes for the theorems about finality. *)

From stdpp Require Import base list gmap sorting.
From Stdlib Require Import ZArith Lia.
From S2P Require Import Prelude Tx Utxo Bytes Hashing ScriptNum ScriptOps ScriptEngine Ghostdag Palw DnsBond DnsReward DnsRules DnsRewardThms DnsRegistryThms DnsRegistryClaims.
From S2P Require Import DnsSlashThms DnsScore DnsAnchorThms DnsScoreThms DnsDormancyThms.

Local Open Scope Z_scope.

(** ** Concrete DNS chains

    Small registries, blocks and windows on which the theorems about stake
    bonds apply: payloads are decoded by their first byte, and the verifier
    compares the first bytes of key and signature. *)

Module DnsWitness.

#[local] Instance crypto : Crypto := toy_crypto.

Definition net : Hash64 := 77.
Definition key : list byte := replicate 2592 5.
Definition good_sig : list byte := replicate 4627 5.
Definition bad_sig : list byte := replicate 4627 9.
Definition spk (z : Z) : list byte := to_le_bytes 64 z.

(** Bond 1 has outpoint [(1, 0)], bond 2 has outpoint [(2, 0)]. *)
Definition op (z : Z) : TransactionOutpoint := mkOutpoint z 0.
Definition attestation (target : Hash64) (signature : list byte) : StakeAttestation :=
  mkAttestation 1 (validator_id_from_pubkey key) (op 1) 1 target 180 0 signature.
Definition attestation_of (z : Z) : StakeAttestation :=
  mkAttestation 1 (validator_id_from_pubkey key) (op z) 1 900 180 0 good_sig.
Definition bond_payload (activation : Z) : StakeBondPayload :=
  mkBondPayload 1 (validator_id_from_pubkey key) (validator_id_from_pubkey key) key 1000 activation 10 (spk 3).

#[local] Instance decode : DnsDecode := {|
  decode_bond l := match l with [a] => Some (bond_payload a) | _ => None end;
  decode_shard l := match l with [1] => Some (mkShard 1 1 900 180 0 [attestation_of 1; attestation_of 2]) | _ => None end;
  decode_evidence l := match l with [1] => Some (mkEvidence 1 (op 1) (attestation 8 bad_sig) (attestation 9 bad_sig) (spk 4)) | _ => None end;
  decode_unbond l := match l with [1] => Some (mkUnbondRequest 1 (op 1) key good_sig) | _ => None end;
|}.

Definition tx (kind : SubnetworkId) (l : list byte) (id : TransactionId) : Transaction := mkTransaction 1 [] [] 0 kind 0 l 0 id.
Definition unbond_tx (id : TransactionId) : Transaction := tx SUBNETWORK_ID_STAKE_UNBOND [1] id.
Definition evidence_tx (id : TransactionId) : Transaction := tx SUBNETWORK_ID_SLASHING_EVIDENCE [1] id.
Definition bond_tx (activation : Z) (id : TransactionId) : Transaction := tx SUBNETWORK_ID_STAKE_BOND [activation] id.
Definition shard_tx (id : TransactionId) : Transaction := tx SUBNETWORK_ID_STAKE_ATTESTATION_SHARD [1] id.

Definition p : DnsParams := mkDnsParams 0 0 U64_MAX 1000 500 20 1000 1000 1000 5000 6000 100 100 300 200.
Definition bond (z activation : Z) : StakeBondRecord := accepted_record (bond_payload activation) (op z) 0 20.
Definition store : ActiveBondView := {[ op 1 := bond 1 0 ]}.

(** ** Registry *)

Definition first_block : DnsBlock := mkDnsBlock 200 [unbond_tx 31] [unbond_tx 30].
Definition second_block : DnsBlock := mkDnsBlock 201 [] [unbond_tx 31].
Definition forged_block : DnsBlock := mkDnsBlock 200 [] [evidence_tx 40].
Definition bond_block : DnsBlock := mkDnsBlock 5 [] [bond_tx 0 1].

Lemma walk_ok : match walk_chain p net store [first_block; second_block] with Ok _ => true | _ => false end = true.
Proof. vm_compute. reflexivity. Qed.

Lemma double_unbond_witness : ∃ v, walk_chain p net store [first_block; second_block] = Ok v ∧
  @stage_dns_bond_mutations unit store [] (block_mutations p <$> [first_block; second_block]) 201 = Panic.
Proof.
  destruct (walk_chain p net store [first_block; second_block]) as [v|?| |] eqn:Hw;
    [|by pose proof walk_ok as Hok; rewrite Hw in Hok..].
  exists v. split; [done|].
  by apply (double_unbond_aborts p net store v first_block second_block (unbond_tx 30) (unbond_tx 31)
    (mkUnbondRequest 1 (op 1) key good_sig) (mkUnbondRequest 1 (op 1) key good_sig) 201 Hw); [left | left | left | ..].
Defined.

(** The evidence carries signatures the verifier rejects, and the block it is
    accepted by has an empty body. *)
Lemma forged_evidence_rejected : slashing_evidence_genuine [evidence_tx 40] store net 200 1000 true = Err (UnverifiableSlashingEvidenceInBlock 1).
Proof. vm_compute. reflexivity. Qed.
Lemma forged_staging_ok : match @stage_dns_bond_mutations unit store [] [block_mutations p forged_block] 200 with Ok _ => true | _ => false end = true.
Proof. vm_compute. reflexivity. Qed.
Lemma merged_evidence_witness : slashing_evidence_genuine [evidence_tx 40] store net 200 1000 true ≠ Ok tt ∧
  ∃ store' r, @stage_dns_bond_mutations unit store [] [block_mutations p forged_block] 200 = Ok store' ∧
    store' !! op 1 = Some r ∧ sb_status r = Slashed.
Proof.
  split; [by rewrite forged_evidence_rejected|].
  destruct (merged_evidence_unchecked (E := unit) p net store forged_block (evidence_tx 40)
    (mkEvidence 1 (op 1) (attestation 8 bad_sig) (attestation 9 bad_sig) (spk 4)) 200) as [Hp|Hs];
    [reflexivity | by left | reflexivity | done | | exact Hs].
  exfalso. pose proof forged_staging_ok as Hok. by rewrite Hp in Hok.
Defined.

Lemma staged_view_witness : ∃ store', @stage_dns_bond_mutations unit store [] [block_mutations p forged_block] 200 = Ok store' ∧
  store' = restamp 200 <$> walk_view [] [block_mutations p forged_block] store.
Proof.
  destruct (@stage_dns_bond_mutations unit store [] [block_mutations p forged_block] 200) as [store'|?| |] eqn:Hs;
    [|by pose proof forged_staging_ok as Hok; rewrite Hs in Hok..].
  exists store'. split; [done|]. exact (staged_registry_is_walked_view _ _ _ _ _ Hs).
Defined.
Lemma reorg_roundtrip_witness : ∃ store', @stage_dns_bond_mutations unit store [] [block_mutations p forged_block] 200 = Ok store' ∧
  @stage_dns_bond_mutations unit store' [block_mutations p forged_block] [] 150 = Ok (restamp 150 <$> store).
Proof.
  destruct (@stage_dns_bond_mutations unit store [] [block_mutations p forged_block] 200) as [store'|?| |] eqn:Hs;
    [|by pose proof forged_staging_ok as Hok; rewrite Hs in Hok..].
  exists store'. split; [done|]. exact (registry_reorg_roundtrip store [block_mutations p forged_block] 150 200 store' Hs).
Defined.

Lemma bond_walk_ok : match walk_chain p net ∅ [bond_block; first_block] with Ok v => match v !! op 1 with Some r => sb_unbond_request_daa_score r | None => None end | _ => None end = Some 200.
Proof. vm_compute. reflexivity. Qed.
Lemma well_formed_witness : ∃ v r, walk_chain p net ∅ [bond_block; first_block] = Ok v ∧ v !! op 1 = Some r ∧ sb_unbond_request_daa_score r = Some 200 ∧
  row_history p [bond_block; first_block] (op 1) r ∧ registry_ok p 200 v.
Proof.
  pose proof bond_walk_ok as Hok. destruct (walk_chain p net ∅ [bond_block; first_block]) as [v|?| |] eqn:Hw; [|discriminate Hok..].
  destruct (v !! op 1) as [r|] eqn:Hr; [|discriminate Hok]. exists v, r.
  destruct (walked_registry_well_formed p net [bond_block; first_block] v Hw) as (Hh & _ & Hwf).
  split; [done|]. split; [done|]. split; [exact Hok|]. split; [exact (Hh _ _ Hr)|].
  exact (Hwf (conj (Zle_bool_imp_le 0 5 eq_refl) (conj (Zle_bool_imp_le 5 200 eq_refl) I))).
Defined.

Lemma store_ok : registry_ok p 100 store.
Proof.
  apply map_Forall_singleton. split; [done | vm_compute; discriminate.. | |]; intros z Hz; vm_compute in Hz; discriminate.
Qed.
Lemma gates_hold : registry_gates p net store 200 [unbond_tx 30].
Proof.
  split; [vm_compute; reflexivity|]. split; [vm_compute; reflexivity|]. split; [apply NoDup_singleton|].
  apply Forall_singleton. intros Hk. vm_compute in Hk. discriminate Hk.
Qed.
Lemma gated_chain_witness : ∃ store', @stage_dns_bond_mutations unit store [] (block_mutations p <$> [first_block]) 200 = Ok store' ∧
  registry_ok p 200 store'.
Proof.
  apply (gated_chain_never_aborts p net store 100 [first_block] 200 store_ok).
  split; [vm_compute; discriminate|]. split; [exact gates_hold | exact I].
Defined.

(** ** Rewards *)

Definition split_params : FeeSplitParams := mkFeeSplitParams 6200 800 3000 0 9000 1000 0 7500 2500 0.
Lemma split_witness : ∃ s, @split_block_reward unit 1001 77 33 split_params = Ok s ∧
  0 ≤ worker_sompi s ∧ 0 ≤ validator_sompi s ∧ 0 ≤ service_sompi s ∧ worker_sompi s + validator_sompi s + service_sompi s = 1001 + 77.
Proof. apply block_reward_split_exact; vm_compute; [split; discriminate.. | discriminate]. Defined.

Definition inc_atts : list IncludedAttestation := [(op 1, 1, spk 3, 1000); (op 2, 1, spk 3, 500); (op 1, 1, spk 3, 1000)].
Lemma participation_witness : ∃ outs keys, @validator_participation_reward_outputs unit 300 2000 inc_atts ∅ = Ok (outs, keys) ∧
  sumZ (value <$> outs) ≤ 300 ∧ NoDup keys ∧ (∀ k, k ∈ keys → k ∉ (∅ : RewardedEpochSet)) ∧
  Forall2 (λ out k, ∃ a, a ∈ inc_atts ∧ att_key a = k ∧ out = mkOutput (proportional_share 300 a.2 2000) (p2pkh_mldsa87_spk a.1.2)) outs keys.
Proof. apply participation_within_pool; [split; vm_compute; discriminate | lia | repeat constructor; vm_compute; discriminate]. Defined.

Lemma finalized_once_witness : length (filter (λ s, finalizes 100 500 1 s = true) (steps 690 [699; 700; 700; 810])) = 1%nat.
Proof.
  rewrite (epoch_finalized_exactly_once 100 500 1 690 [699; 700; 700; 810]);
    [reflexivity | split; vm_compute; discriminate.. | lia | repeat split; vm_compute; (discriminate || reflexivity)].
Defined.

(** Two bonds, the second active from DAA score 150: both attest epoch 1 at
    its anchor (DAA score 180) and are rewarded; the epoch is finalised at 700
    with a pool of 1000. *)
Definition two_bonds : ActiveBondView := {[ op 1 := bond 1 0; op 2 := bond 2 150 ]}.
Definition window : ParentWindow := mkWindow 699 [mkContribution 150 [] 1000; mkContribution 250 [(op 1, 1); (op 2, 1)] 0].
Lemma both_rewarded : match @validator_reward_outputs_for_block _ unit p (mkWindow 249 []) {[ 1 := (900, 180) ]} ∅ [shard_tx 50] two_bonds 250 5000 with
  | Ok (_, keys, _, _) => bool_decide (keys = [(op 1, 1); (op 2, 1)]) | _ => false end = true.
Proof. vm_compute. reflexivity. Qed.
Definition paid_tally : EpochTally := mkTally 1000 [(hash64_from_bytes (spk 3), 1000); (hash64_from_bytes (spk 3), 1000)] 1000 true.
Lemma overmint_witness : ∃ outs, @deferred_quality_bonus_outputs unit p window two_bonds 700 = Ok outs ∧ sumZ (value <$> outs) = 2 * 1000.
Proof.
  apply (quality_bonus_overmints p window two_bonds 700 (1, 1) paid_tally); [vm_compute; discriminate | reflexivity | vm_compute; reflexivity |
    split; vm_compute; discriminate | reflexivity | split; vm_compute; discriminate | discriminate | vm_compute; discriminate |
    repeat constructor; vm_compute; discriminate].
Defined.

(** ** Slashing *)

#[local] Instance trivial_multiset : Multiset unit := {| ms_add_utxo _ _ _ := tt; ms_remove_utxo _ _ _ := tt |}.
Definition locked : UtxoEntry := mkUtxoEntry 1000 (p2pkh_mldsa87_spk (spk 3)) 5 false.
Definition coins : UtxoCollection := {[ op 1 := locked; mkOutpoint 9 0 := locked ]}.
Definition no_diff : UtxoDiff := UtxoDiff_default.
Lemma coins_apply : apply_diff coins no_diff = coins.
Proof. vm_compute. reflexivity. Qed.
Lemma slash_witness : ∃ d' ms' accrual, @apply_slashing_side_effects _ unit unit _ p window [evidence_tx 40] coins store 200 (no_diff, tt) = Ok (d', ms', accrual) ∧
  valid_on coins d' ∧ slashed_set store [evidence_tx 40] 200 (apply_diff coins no_diff) (apply_diff coins d').
Proof.
  apply slashing_never_inflates.
  - split; apply map_Forall_empty.
  - apply map_Forall_singleton. split; vm_compute; discriminate.
  - rewrite coins_apply. intros o r entry Hr Hc. unfold store in Hr. apply lookup_singleton_Some in Hr as [<- <-]. vm_compute in Hc. injection Hc as <-. reflexivity.
  - rewrite coins_apply. split; [apply NoDup_singleton|]. intros t ev i ->%list_elem_of_singleton _. split_and!.
    1,2: apply lookup_insert_None; split; [apply lookup_singleton_ne|]; discriminate.
    apply lookup_singleton_ne. discriminate.
  - vm_compute. reflexivity.
  - vm_compute. discriminate.
Defined.
End DnsWitness.

(** ** Concrete finality runs

    A chain of nine blocks whose epochs are two blue scores long, with three
    bonds that attest to two of its anchors; a fork of it; and small dormancy
    passes. *)

Module DnsScoreWitness.

#[local] Instance crypto : Crypto := toy_crypto.

Definition net : Hash64 := 77.
Definition key : list byte := replicate 2592 5.
Definition good_sig : list byte := replicate 4627 5.
Definition validator : Hash64 := validator_id_from_pubkey key.
Definition op (z : Z) : TransactionOutpoint := mkOutpoint z 0.

(** The anchor of epoch [e] is the block of blue score [2 e + 1]. *)
Definition attestation (e z : Z) : StakeAttestation :=
  mkAttestation 1 validator (op z) e (101 + 2 * e) (10 * (2 * e + 1)) 0 good_sig.
Definition votes (e : Z) : list StakeAttestation := [attestation e 1; attestation e 2; attestation e 3].
#[local] Instance decode : DnsDecode := {|
  decode_bond _ := None;
  decode_shard l := match l with [e] => Some (mkShard 1 e (101 + 2 * e) (10 * (2 * e + 1)) 0 (votes e)) | _ => None end;
  decode_evidence _ := None;
  decode_unbond _ := None;
|}.
Definition shard_tx (e : Z) : Transaction := mkTransaction 1 [] [] 0 SUBNETWORK_ID_STAKE_ATTESTATION_SHARD 0 [e] 0 (500 + e).

Definition bond (z : Z) : StakeBondRecord :=
  mkBondRecord 1 (op z) 0 validator key 1000 0 0 10 [] None None Active None None None.
Definition bonds : list StakeBondRecord := [bond 1; bond 2; bond 3].

(** Three full epochs would be more than the required depth of two. *)
Definition params : ScoreParams :=
  mkScoreParams (mkDnsParams 0 0 U64_MAX 1000 500 20 1000 1000 1000 5000 6700 100 100 300 3) (mkDormancyParams 400 1 100)
    1000 2 5 (2 * STAKE_SCORE_SCALE) 3 7 1000 3 100 TwoDimensionalDominance 2 1 0 100 U64_MAX U64_MAX 1.

Definition block (blue : Z) (txs : list Transaction) : ChainBlock := mkChainBlock (100 + blue) blue (10 * blue) (10 * blue) (Some txs).
Definition tip : ChainBlock := block 8 [shard_tx 3].
Definition older : list ChainBlock := [block 7 []; block 6 [shard_tx 2]; block 5 []; block 4 []; block 3 []; block 2 []; block 1 []; block 0 []].
(** The same headers, the votes for epoch 2 repeated. *)
Definition repeated_older : list ChainBlock :=
  [block 7 [shard_tx 2]; block 6 [shard_tx 2]; block 5 []; block 4 []; block 3 []; block 2 []; block 1 []; block 0 []].

Lemma hashes_nodup : NoDup (cb_hash <$> tip :: older).
Proof. refine (bool_decide_eq_true_1 _ _). vm_compute. reflexivity. Qed.
Lemma bonds_typed : Forall (λ b, is_u64 (sb_amount b)) bonds.
Proof. repeat constructor; unfold U64_MAX; cbn; lia. Qed.

Lemma anchors_witness : ∃ a2 a3, canonical_anchors_in_window params (tip :: older) !! 2 = Some a2 ∧
  canonical_anchors_in_window params (tip :: older) !! 3 = Some a3 ∧ an_anchor_hash a2 ≠ an_anchor_hash a3.
Proof.
  destruct (canonical_anchors_in_window params (tip :: older) !! 2) as [a2|] eqn:H2; [|vm_compute in H2; discriminate H2].
  destruct (canonical_anchors_in_window params (tip :: older) !! 3) as [a3|] eqn:H3; [|vm_compute in H3; discriminate H3].
  exists a2, a3. split_and!; [done | done |].
  destruct (canonical_anchors_distinct params tip older hashes_nodup) as [_ Hd]. by apply (Hd 2 3).
Defined.

Lemma votes_once_witness : @stake_score_since _ _ unit params net (tip :: older) None bonds =
  stake_score_since params net (tip :: repeated_older) None bonds.
Proof.
  apply (stake_score_counts_votes_once params net None bonds (tip :: older) (tip :: repeated_older)).
  - repeat constructor.
  - exact bonds_typed.
  - intros att. change (window_attestations params None (tip :: older)) with (votes 3 ++ votes 2).
    change (window_attestations params None (tip :: repeated_older)) with (votes 3 ++ votes 2 ++ votes 2).
    rewrite !elem_of_app. tauto.
Defined.

(** The recomputation confirms the anchor of epoch 3. *)
Lemma confirms : match @update_dns_state _ _ unit params net 500000 (tip :: older) bonds None 0 None with
  | Ok (Some (st, _)) => (ds_last_dns_confirmed_anchor st =? 107) && (ds_stake_depth st =? 2 * STAKE_SCORE_SCALE)
  | _ => false end = true.
Proof. vm_compute. reflexivity. Qed.
Lemma confirmation_witness : ∃ epochs, NoDup epochs ∧ Forall (quorum_epoch params net bonds (tip :: older)) epochs ∧
  2 * STAKE_SCORE_SCALE ≤ STAKE_SCORE_SCALE * Z.of_nat (length epochs).
Proof.
  pose proof confirms as Hok. destruct (@update_dns_state _ _ unit params net 500000 (tip :: older) bonds None 0 None) as [[[st work]|]|?| |] eqn:Hu;
    [|discriminate Hok..].
  apply andb_true_iff in Hok as [Hc%Z.eqb_eq _].
  exact (proj2 (confirmation_requires_work_and_quorum (E := unit) params net 500000 tip older bonds None 0 None st work hashes_nodup bonds_typed
    ltac:(done) Hu ltac:(rewrite Hc; done))).
Defined.

(** ** A fork *)

Definition base : ChainBlock := mkChainBlock 100 0 0 0 (Some []).
Definition sink : ChainBlock := mkChainBlock 101 1 10 50 (Some []).
Definition fork_tip : ChainBlock := mkChainBlock 201 1 10 60 (Some []).
Definition confirmed_state : DnsState := mkDnsState 101 10 0 0 101 10 StageActive 0 HealthActive 0.

Lemma reorg_gate_witness : ∃ verdict, @dns_reorg_allows _ _ unit params net (Some confirmed_state) (λ _, true) [fork_tip; base] [sink; base] bonds bonds = Ok verdict.
Proof.
  destruct (reorg_needs_work_and_stake (E := unit) params net confirmed_state (λ _, true) fork_tip [base] sink [base] bonds bonds)
    as (verdict & cs & ks & Hv & _); [done | done | done | | | | | exact bonds_typed | exact bonds_typed | done | done | by exists verdict].
  - refine (bool_decide_eq_true_1 _ _). vm_compute. reflexivity.
  - split; [vm_compute; discriminate | repeat constructor; cbn; lia].
  - split; [vm_compute; discriminate | repeat constructor; cbn; lia].
  - intros c d. rewrite !elem_of_cons, !elem_of_nil. intros [->|[->|[]]] [->|[->|[]]]; done.
Defined.

(** ** Passes *)

(** The second bond never attests and is evicted in round 5; the first attests
    again after the first pass. *)
Definition anchor_of (r : Z) : option Z := if (0 <=? r) && (r <=? 8) then Some (10 * r) else None.
Definition early : gmap TransactionOutpoint (list Z) := {[ op 1 := [3] ]}.
Definition late : gmap TransactionOutpoint (list Z) := {[ op 1 := [3; 6] ]}.
Definition pair : list StakeBondRecord := [bond 1; bond 2].

Lemma anchors_buried r a : anchor_of r = Some a → a ≤ 100 ∧ a ≤ 120.
Proof. unfold anchor_of. destruct ((0 <=? r) && (r <=? 8)) eqn:Hr; [|done]. intros [= <-]. lia. Qed.
Lemma attested_agree o r : r ≤ 5 → latest_of early o r = latest_of late o r.
Proof.
  intros Hr. unfold latest_of, early, late. destruct (decide (o = op 1)) as [->|Hne];
    [rewrite !lookup_singleton_eq | by rewrite !lookup_singleton_ne by done].
  cbn [mbind option_bind latest_attested foldl]. by replace (6 <=? r) with false by lia.
Qed.
Lemma pair_stable : Forall (stable 100 120) pair.
Proof. repeat constructor. Qed.
Lemma pair_typed : Forall stake_ok pair.
Proof. repeat constructor; unfold U64_MAX; cbn; lia. Qed.

Definition rounds_to_5 : outcome unit (list StakeBondRecord * Z) :=
  catch_up 6 anchor_of early 1 5 100 1 (sp_dormancy CatchUp.params) 4 3 pair.
Lemma rounds_revive_none : match rounds_to_5 with
  | Ok (work, _) => forallb (λ rec, bool_decide (revive 100 5 1 (touch_attested early 5 rec) = touch_attested early 5 rec)) work
  | _ => false end = true.
Proof. vm_compute. reflexivity. Qed.
Lemma pair_revives_none : @revives_none unit CatchUp.params anchor_of early 5 3 100 pair.
Proof.
  intros work cursor Hc. change (rounds_to_5 = Ok (work, cursor)) in Hc. pose proof rounds_revive_none as Hok. rewrite Hc in Hok.
  apply Forall_forall. intros rec Hin. apply (bool_decide_eq_true_1 _). rewrite forallb_forall in Hok. by apply Hok, list_elem_of_In.
Qed.

Lemma pass_returns_witness : ∃ work cursor, @dormancy_pass unit CatchUp.params anchor_of early 5 3 100 pair = Ok (work, cursor) ∧
  erase <$> work = erase <$> pair.
Proof.
  apply (dormancy_pass_returns (E := unit) CatchUp.params anchor_of early 5 3 100 pair); [done | vm_compute; discriminate | done
    | vm_compute; discriminate | exact pair_typed | vm_compute; discriminate].
Defined.

Lemma first_pass_ok : match @dormancy_pass unit CatchUp.params anchor_of early 5 3 100 pair with Ok _ => true | _ => false end = true.
Proof. vm_compute. reflexivity. Qed.
Lemma incremental_witness : ∃ work cursor, @dormancy_pass unit CatchUp.params anchor_of early 5 3 100 pair = Ok (work, cursor) ∧
  @dormancy_pass unit CatchUp.params anchor_of late 7 cursor 120 work = dormancy_pass CatchUp.params anchor_of late 7 3 120 pair.
Proof.
  pose proof first_pass_ok as Hok. destruct (@dormancy_pass unit CatchUp.params anchor_of early 5 3 100 pair) as [[work cursor]|?| |] eqn:Hp; [|discriminate Hok..].
  exists work, cursor. split; [done|].
  apply (dormancy_catch_up_incremental (E := unit) CatchUp.params anchor_of anchor_of early late 5 7 3 100 120 pair work cursor);
    [done | done | done | exact anchors_buried | exact attested_agree | exact pair_stable | exact Hp | exact pair_revives_none].
Defined.
End DnsScoreWitness.
