(* ===== verification/CoinbaseThms.v ===== *)
(** * Theorems on coinbase transactions

    The payload round trip, the emission schedule, the conservation of the
    merged rewards by the coinbase transaction a block must carry, what the
    check of that transaction accepts, and the equivalence of a retargeted
    template with one built for the new miner. *)

From stdpp Require Import base list gmap sorting.
From Stdlib Require Import ZArith Lia ZifyBool.
From S2P Require Import Prelude Tx Bytes Hashing ScriptNum ScriptOps ScriptEngine Header TxMerkle Ghostdag Palw TxValidator DnsBond DnsReward DnsRules Coinbase DnsRewardThms DnsSlashThms DnsScoreThms DnsWitness ScriptWitness.

Local Open Scope Z_scope.

(** ** The payload *)

Lemma parser_take_app {E : Type} (u w : list byte) n : len u = n → @parser_take E (u ++ w) n = Ok (u, w).
Proof.
  intros <-. unfold parser_take. rewrite length_app. replace (_ <? _) with false by lia. rewrite Nat2Z.id. by rewrite take_app_length, drop_app_length.
Qed.
Lemma parser_take_Ok {E : Type} (l : list byte) n : 0 ≤ n ≤ len l → ∃ u w, @parser_take E l n = Ok (u, w) ∧ l = u ++ w ∧ len u = n.
Proof.
  intros Hn. exists (take (Z.to_nat n) l), (drop (Z.to_nat n) l). unfold parser_take. replace (_ <? _) with false by lia.
  split; [done|]. split; [by rewrite take_drop|]. rewrite length_take. lia.
Qed.
Lemma le_val_1 (u : list byte) : Forall is_byte u → len u = 1 → 0 ≤ le_val u ≤ 255.
Proof. intros Hu Hl. pose proof (le_val_bound u Hu) as Hb. rewrite Hl in Hb. lia. Qed.

(** What the types of the fields guarantee. *)
Definition miner_data_typed (d : MinerData) : Prop := is_uint 2 (spk_version (md_script_public_key d)).
Definition manager_typed (m : CoinbaseManager) : Prop := 0 ≤ coinbase_payload_script_public_key_max_len m ≤ 255.

Lemma deserialize_serialized m bs sub d : manager_typed m → is_u64 bs → is_u64 sub → miner_data_typed d →
  len (spk_script (md_script_public_key d)) ≤ coinbase_payload_script_public_key_max_len m →
  MIN_PAYLOAD_LENGTH + len (spk_script (md_script_public_key d)) + len (md_extra_data d) ≤ max_coinbase_payload_len m →
  deserialize_coinbase_payload m (to_le_bytes 8 bs ++ to_le_bytes 8 sub ++ miner_data_bytes d) = Ok (mkCoinbaseData bs sub d).
Proof.
  unfold manager_typed, miner_data_typed. intros Hm Hbs Hsub Hv Hscript Hmax. destruct d as [[v script] extra]. cbn [md_script_public_key spk_script spk_version md_extra_data] in *.
  unfold deserialize_coinbase_payload, miner_data_bytes. cbn [md_script_public_key spk_script spk_version md_extra_data].
  rewrite !length_app, !length_to_le_bytes. change MIN_PAYLOAD_LENGTH with 19 in *.
  replace (_ <? 19) with false by lia. replace (max_coinbase_payload_len m <? _) with false by lia.
  unfold LENGTH_OF_BLUE_SCORE, LENGTH_OF_SUBSIDY, LENGTH_OF_SCRIPT_PUB_KEY_VERSION, LENGTH_OF_SCRIPT_PUB_KEY_LENGTH.
  do 4 (rewrite parser_take_app by (by rewrite length_to_le_bytes); cbn [mbind outcome_bind]).
  rewrite (le_val_to_le_bytes 1) by (change (256 ^ Z.of_nat 1) with 256; lia).
  replace (coinbase_payload_script_public_key_max_len m <? _) with false by lia. rewrite length_app. replace (_ <? len script) with false by lia.
  rewrite parser_take_app by done. cbn [mbind outcome_bind].
  rewrite !le_val_to_le_bytes; [done|exact Hv|unfold is_u64, U64_MAX in *; change (256 ^ Z.of_nat 8) with (2 ^ 64); lia..].
Qed.

Lemma deserialize_accepts m bytes : Forall is_byte bytes → match deserialize_coinbase_payload m bytes with
  | Ok data => serialize_coinbase_payload m data = Ok bytes | Err _ => True | Panic | OutOfFuel => False end.
Proof.
  intros Hb. unfold deserialize_coinbase_payload. destruct (_ <? MIN_PAYLOAD_LENGTH) eqn:H1; [done|]. destruct (_ <? len bytes) eqn:H2; [done|].
  change MIN_PAYLOAD_LENGTH with 19 in *.
  unfold LENGTH_OF_BLUE_SCORE, LENGTH_OF_SUBSIDY, LENGTH_OF_SCRIPT_PUB_KEY_VERSION, LENGTH_OF_SCRIPT_PUB_KEY_LENGTH.
  destruct (parser_take_Ok (E := CoinbaseError) bytes 8) as (u1 & w1 & -> & -> & L1); [lia|]. cbn [mbind outcome_bind]. rewrite length_app in *.
  destruct (parser_take_Ok (E := CoinbaseError) w1 8) as (u2 & w2 & -> & -> & L2); [lia|]. cbn [mbind outcome_bind]. rewrite length_app in *.
  destruct (parser_take_Ok (E := CoinbaseError) w2 2) as (u3 & w3 & -> & -> & L3); [lia|]. cbn [mbind outcome_bind]. rewrite length_app in *.
  destruct (parser_take_Ok (E := CoinbaseError) w3 1) as (u4 & w4 & -> & -> & L4); [lia|]. cbn [mbind outcome_bind]. rewrite length_app in *.
  rewrite !Forall_app in Hb. destruct Hb as (B1 & B2 & B3 & B4 & B5). pose proof (le_val_1 u4 B4 L4) as Hl.
  destruct (_ <? le_val u4) eqn:H3; [done|]. destruct (len w4 <? le_val u4) eqn:H4; [done|].
  destruct (parser_take_Ok (E := CoinbaseError) w4 (le_val u4)) as (u5 & w5 & -> & -> & L5); [lia|]. cbn [mbind outcome_bind].
  unfold serialize_coinbase_payload, miner_data_bytes. cbn [cd_miner_data cd_blue_score cd_subsidy md_script_public_key spk_script spk_version md_extra_data].
  rewrite L5, H3. f_equal.
  replace 8%nat with (length u1) at 1 by lia. rewrite to_le_bytes_le_val by done. f_equal.
  replace 8%nat with (length u2) by lia. rewrite to_le_bytes_le_val by done. f_equal.
  replace 2%nat with (length u3) by lia. rewrite to_le_bytes_le_val by done. f_equal.
  replace 1%nat with (length u4) by lia. by rewrite to_le_bytes_le_val by done.
Qed.
Lemma modify_serialized m bs sub d1 d2 bytes : serialize_coinbase_payload m (mkCoinbaseData bs sub d1) = Ok bytes →
  modify_coinbase_payload m bytes d2 = serialize_coinbase_payload m (mkCoinbaseData bs sub d2).
Proof.
  unfold serialize_coinbase_payload, modify_coinbase_payload. cbn [cd_miner_data cd_blue_score cd_subsidy].
  destruct (_ <? len (spk_script (md_script_public_key d1))); [done|]. intros [= <-]. destruct (_ <? _); [done|]. f_equal.
Qed.

(** C27. The coinbase payload round-trips: what is serialized for data within
    the limits of the network reads back as that data; reading never panics,
    and whatever it accepts is exactly the serialization of what it returns;
    and changing the miner of a serialized payload gives the serialization with
    the new miner. *)
Theorem coinbase_payload_roundtrip m : manager_typed m →
  (∀ data bytes, is_u64 (cd_blue_score data) → is_u64 (cd_subsidy data) → miner_data_typed (cd_miner_data data) →
    serialize_coinbase_payload m data = Ok bytes → len bytes ≤ max_coinbase_payload_len m → deserialize_coinbase_payload m bytes = Ok data) ∧
  (∀ bytes, Forall is_byte bytes → match deserialize_coinbase_payload m bytes with
    | Ok data => serialize_coinbase_payload m data = Ok bytes | Err _ => True | Panic | OutOfFuel => False end) ∧
  (∀ bs sub d1 d2 bytes, serialize_coinbase_payload m (mkCoinbaseData bs sub d1) = Ok bytes →
    modify_coinbase_payload m bytes d2 = serialize_coinbase_payload m (mkCoinbaseData bs sub d2)).
Proof.
  intros Hm. split_and!; [|by apply deserialize_accepts|by apply modify_serialized].
  intros [bs sub d] bytes. cbn. unfold serialize_coinbase_payload. cbn [cd_miner_data cd_blue_score cd_subsidy]. intros Hbs Hsub Hd.
  destruct (_ <? _) eqn:Hlt; [done|]. intros [= <-] Hmax. apply deserialize_serialized; try done; [lia|].
  unfold miner_data_bytes in Hmax. rewrite !length_app, !length_to_le_bytes in Hmax. change MIN_PAYLOAD_LENGTH with 19. lia.
Qed.

(** ** Conservation *)

Definition reward_typed (rd : BlockRewardData) : Prop := is_u64 (rd_subsidy rd) ∧ is_u64 (rd_total_fees rd) ∧ is_u64 (rd_finality_fees rd) ∧
  match rd_work_reward_class rd with ReplicaPalw _ _ _ _ premium_pi_bps => 0 ≤ premium_pi_bps ≤ U32_MAX | _ => True end.

Lemma premium_split_exact {E : Type} base pi : is_u64 base → 0 ≤ pi → ∃ a b,
  @premium_split E base 1 pi = Ok (a, b, 0) ∧ is_u64 a ∧ is_u64 b ∧ a + b = base.
Proof.
  intros Hb Hpi. unfold premium_split, PALW_PREMIUM_BPS_ONE. change (Z.max 1 1) with 1.
  assert (0 ≤ base * 10000 / (10000 + 1 * pi) ≤ base) as Ha.
  { unfold is_u64 in Hb. split; [apply Z.div_pos; lia|apply Z.div_le_upper_bound; nia]. }
  set (a := base * 10000 / (10000 + 1 * pi)) in *. clearbody a. rewrite (cast64_id a) by (unfold is_u64 in *; lia).
  rewrite sub64_Ok by (unfold is_u64 in *; lia). cbn [mbind outcome_bind]. rewrite Z.div_1_r, (cast64_id (base - a)) by (unfold is_u64 in *; lia).
  unfold mul64. rewrite chk64_Ok by (unfold is_u64 in *; lia). cbn [mbind outcome_bind]. rewrite Z.mul_1_r, sub64_Ok by (unfold is_u64 in *; lia).
  cbn [mbind outcome_bind]. exists a, (base - a). rewrite Z.sub_diag. unfold is_u64 in *. repeat split; lia.
Qed.

Lemma sat_add64_3 a b c : 0 ≤ c → a + b + c ≤ U64_MAX → sat_add64 (sat_add64 a b) c = a + b + c.
Proof. intros. rewrite !sat_add64_exact by (rewrite ?sat_add64_exact; lia). lia. Qed.

(** The shares of one source, as both loops compute them. *)
Lemma source_split {E : Type} subsidy fees finality fs : is_u64 subsidy → is_u64 fees → is_u64 finality → subsidy + fees ≤ U64_MAX →
  ∃ s w r, @split_block_subsidy E subsidy fs = Ok s ∧ @fee_worker E fees finality fs = Ok w ∧ @split_block_reward E subsidy fees finality fs = Ok r ∧
    0 ≤ worker_base_sompi s ∧ 0 ≤ worker_inclusion_sompi s ∧ 0 ≤ w.1 ∧ 0 ≤ w.2 ∧ 0 ≤ validator_sompi r ∧
    worker_base_sompi s + worker_inclusion_sompi s + w.1 + w.2 + validator_sompi r ≤ subsidy + fees.
Proof.
  intros Hs Hf Hfin Hsum. destruct (split_block_subsidy_exact (E := E) subsidy fs Hs) as (s & Hss & S1 & S2 & S3 & S4 & Hst).
  assert (0 ≤ Z.min finality fees ≤ fees) as Hm by (unfold is_u64 in *; lia).
  destruct (split_normal_tx_fees_exact (E := E) (fees - Z.min finality fees) fs) as (f & Hff & F1 & F2 & F3 & Hft); [unfold is_u64 in *; lia|].
  destruct (split_finality_fees_exact (E := E) (Z.min finality fees) fs) as (d & Hdd & D1 & D2 & D3 & Hdt); [unfold is_u64 in *; lia|].
  exists s, (worker_sompi f, worker_sompi d). unfold fee_worker, split_block_reward. rewrite Hss, sub64_Ok by (done || lia). cbn [mbind outcome_bind].
  rewrite Hff. cbn [mbind outcome_bind]. rewrite Hdd. cbn [mbind outcome_bind]. eexists. split; [done|]. split; [done|]. split; [done|].
  cbn [validator_sompi fst snd]. unfold is_u64 in *. rewrite sat_add64_3 by lia. lia.
Qed.

Lemma sum_values_app (a b : list TransactionOutput) : sumZ (value <$> a ++ b) = sumZ (value <$> a) + sumZ (value <$> b).
Proof. by rewrite fmap_app, sumZ_app. Qed.
Lemma sum_push_positive v spk : 0 ≤ v → sumZ (value <$> push_positive v spk) = v.
Proof. unfold push_positive. intros Hv. destruct (0 <? v) eqn:H0; cbn [fmap list_fmap]; rewrite ?sumZ_cons; change (sumZ []) with 0; cbn [value]; lia. Qed.

Section sources.
Context {E : Type} (mergeset_rewards : gmap BlockHash BlockRewardData) (mergeset_non_daa : gset BlockHash) (fs : FeeSplitParams).

(** Subsidy and fees of a merged source. *)
Definition blue_total (h : BlockHash) : Z :=
  match mergeset_rewards !! h with Some rd => rd_subsidy rd + rd_total_fees rd | None => 0 end.
Definition red_total (h : BlockHash) : Z :=
  match mergeset_rewards !! h with Some rd => eff_subsidy mergeset_non_daa h rd + rd_total_fees rd | None => 0 end.
Definition rewards_known (l : list BlockHash) : Prop := Forall (λ h, ∃ rd, mergeset_rewards !! h = Some rd ∧ reward_typed rd) l.

Lemma hash_miner_value_split subsidy fees finality incl : is_u64 subsidy → is_u64 fees → is_u64 finality → subsidy + fees ≤ U64_MAX →
  0 ≤ incl → incl + subsidy + fees ≤ U64_MAX →
  ∃ v incl' r, @hash_miner_value E (Some fs) subsidy fees finality incl = Ok (v, incl') ∧ @split_block_reward E subsidy fees finality fs = Ok r ∧
    0 ≤ v ∧ incl ≤ incl' ∧ 0 ≤ validator_sompi r ∧ v + (incl' - incl) + validator_sompi r ≤ subsidy + fees.
Proof.
  intros Hs Hf Hfin Hsum Hi Hic. destruct (source_split (E := E) subsidy fees finality fs) as (s & w & r & Hss & Hw & Hr & H1 & H2 & H3 & H4 & H5 & Ht); [done..|].
  unfold hash_miner_value. rewrite Hss. cbn [mbind outcome_bind]. rewrite Hw. cbn [mbind outcome_bind]. eexists _, _, r. split; [done|]. split; [done|].
  rewrite sat_add64_3, sat_add64_exact by lia. lia.
Qed.

(** One blue source: what is paid, kept for the inclusion bounty and passed to
    the validators stays within its subsidy and fees. *)
Lemma blue_source (h : BlockHash) rd outs incl pool : mergeset_rewards !! h = Some rd → reward_typed rd → 0 ≤ sumZ (value <$> outs) → 0 ≤ incl → 0 ≤ pool →
  sumZ (value <$> outs) + incl + pool + blue_total h ≤ U64_MAX → ∃ outs' incl' pool',
    @blue_reward E mergeset_rewards (Some fs) (outs, incl) h = Ok (outs', incl') ∧ @blue_validator E mergeset_rewards fs pool h = Ok pool' ∧
    0 ≤ sumZ (value <$> outs') ∧ 0 ≤ incl' ∧ 0 ≤ pool' ∧
    sumZ (value <$> outs') + incl' + pool' ≤ sumZ (value <$> outs) + incl + pool + blue_total h.
Proof.
  intros Hrd (Hs & Hf & Hfin & Hpi) Ho Hi Hp. unfold blue_total, blue_reward, blue_validator. rewrite Hrd. cbn [unwrap mbind outcome_bind fst snd]. intros Hmax.
  destruct (rd_work_reward_class rd) eqn:Hclass.
  3-5: (cbn [mbind outcome_bind]; eexists _, _, _; split; [done|]; split; [done|]; rewrite sat_add64_exact; unfold is_u64 in *; lia).
  - destruct (hash_miner_value_split (rd_subsidy rd) (rd_total_fees rd) (rd_finality_fees rd) incl) as (v & incl' & r & Hv & Hr & H1 & H2 & H3 & Ht);
      [done..|unfold is_u64 in *; lia|done|lia|].
    rewrite Hv, Hr. cbn [mbind outcome_bind fst snd]. eexists _, _, _. split; [done|]. split; [done|].
    rewrite sum_values_app, sum_push_positive, sat_add64_exact by lia. lia.
  - destruct (source_split (E := E) (rd_subsidy rd) (rd_total_fees rd) (rd_finality_fees rd) (palw_lane fs)) as (s & w & r & Hss & Hw & Hr & H1 & H2 & H3 & H4 & H5 & Ht);
      [done..|unfold is_u64 in *; lia|].
    destruct (premium_split_exact (E := E) (worker_base_sompi s) premium_pi_bps) as (a & b & Hps & Ha & Hb & Hab); [unfold is_u64 in *; lia|lia|].
    rewrite Hss. cbn [mbind outcome_bind]. rewrite Hps. cbn [mbind outcome_bind fst snd]. unfold add64 at 1. rewrite Z.add_0_r, chk64_Ok by done. cbn [mbind outcome_bind].
    rewrite Hw, Hr. cbn [mbind outcome_bind]. eexists _, _, _. split; [done|]. split; [done|]. unfold is_u64 in *.
    rewrite !sum_values_app, !sum_push_positive, !sat_add64_exact by (rewrite ?sat_add64_exact by lia; lia). lia.
Qed.

(** One red source: the same for the reward of the merging block. *)
Lemma red_source (h : BlockHash) rd reward incl pool : mergeset_rewards !! h = Some rd → reward_typed rd → 0 ≤ reward → 0 ≤ incl → 0 ≤ pool →
  reward + incl + pool + red_total h ≤ U64_MAX → ∃ reward' incl' pool',
    @red_reward_step E mergeset_rewards mergeset_non_daa (Some fs) (reward, incl) h = Ok (reward', incl') ∧
    @red_validator E mergeset_rewards mergeset_non_daa fs pool h = Ok pool' ∧
    0 ≤ reward' ∧ 0 ≤ incl' ∧ 0 ≤ pool' ∧ reward' + incl' + pool' ≤ reward + incl + pool + red_total h.
Proof.
  intros Hrd (Hs & Hf & Hfin & Hpi) Ho Hi Hp. unfold red_total, red_reward_step, red_validator. rewrite Hrd. cbn [unwrap mbind outcome_bind fst snd]. intros Hmax.
  assert (is_u64 (eff_subsidy mergeset_non_daa h rd)) as He by (unfold eff_subsidy; destruct (bool_decide _); [unfold is_u64, U64_MAX; lia|done]).
  set (es := eff_subsidy mergeset_non_daa h rd) in *. clearbody es. destruct (rd_work_reward_class rd).
  2-5: (cbn [mbind outcome_bind]; eexists _, _, _; split; [done|]; split; [done|]; rewrite sat_add64_exact; unfold is_u64 in *; lia).
  destruct (hash_miner_value_split es (rd_total_fees rd) (rd_finality_fees rd) incl) as (v & incl' & r & Hv & Hr & H1 & H2 & H3 & Ht);
    [done..|unfold is_u64 in *; lia|done|lia|].
  rewrite Hv, Hr. cbn [mbind outcome_bind fst snd]. unfold add64. rewrite chk64_Ok by (unfold is_u64; lia). cbn [mbind outcome_bind].
  eexists _, _, _. split; [done|]. split; [done|]. rewrite sat_add64_exact by lia. lia.
Qed.

Lemma red_total_nonneg (l : list BlockHash) : rewards_known l → 0 ≤ sumZ (red_total <$> l).
Proof.
  intros Hl. apply sumZ_nonneg, Forall_fmap. eapply Forall_impl; [exact Hl|]. cbn. intros h (rd & Hrd & Hs & Hf & _).
  unfold red_total, eff_subsidy. rewrite Hrd. unfold is_u64 in *. destruct (bool_decide _); lia.
Qed.
Lemma blue_total_nonneg (l : list BlockHash) : rewards_known l → 0 ≤ sumZ (blue_total <$> l).
Proof.
  intros Hl. apply sumZ_nonneg, Forall_fmap. eapply Forall_impl; [exact Hl|]. cbn. intros h (rd & Hrd & Hs & Hf & _).
  unfold blue_total. rewrite Hrd. unfold is_u64 in *. lia.
Qed.

Lemma blue_sources (l : list BlockHash) : rewards_known l → ∀ outs incl pool, 0 ≤ sumZ (value <$> outs) → 0 ≤ incl → 0 ≤ pool →
  sumZ (value <$> outs) + incl + pool + sumZ (blue_total <$> l) ≤ U64_MAX → ∃ outs' incl' pool',
    for_each (@blue_reward E mergeset_rewards (Some fs)) l (outs, incl) = Ok (outs', incl') ∧ for_each (@blue_validator E mergeset_rewards fs) l pool = Ok pool' ∧
    0 ≤ sumZ (value <$> outs') ∧ 0 ≤ incl' ∧ 0 ≤ pool' ∧
    sumZ (value <$> outs') + incl' + pool' ≤ sumZ (value <$> outs) + incl + pool + sumZ (blue_total <$> l).
Proof.
  induction 1 as [|h l (rd & Hrd & Ht) Hl IH]; intros outs incl pool Ho Hi Hp Hmax.
  { exists outs, incl, pool. change (sumZ (blue_total <$> [])) with 0. repeat split; try done; lia. }
  rewrite fmap_cons, sumZ_cons in *. pose proof (blue_total_nonneg l Hl).
  destruct (blue_source h rd outs incl pool) as (outs' & incl' & pool' & Hr & Hv & H1 & H2 & H3 & Hle); [done..|lia|].
  cbn [for_each]. rewrite Hr, Hv. cbn [mbind outcome_bind].
  destruct (IH outs' incl' pool') as (outs2 & incl2 & pool2 & -> & -> & G1 & G2 & G3 & Gle); [done..|lia|].
  exists outs2, incl2, pool2. repeat split; try done; lia.
Qed.
Lemma red_sources (l : list BlockHash) : rewards_known l → ∀ reward incl pool, 0 ≤ reward → 0 ≤ incl → 0 ≤ pool →
  reward + incl + pool + sumZ (red_total <$> l) ≤ U64_MAX → ∃ reward' incl' pool',
    for_each (@red_reward_step E mergeset_rewards mergeset_non_daa (Some fs)) l (reward, incl) = Ok (reward', incl') ∧
    for_each (@red_validator E mergeset_rewards mergeset_non_daa fs) l pool = Ok pool' ∧
    0 ≤ reward' ∧ 0 ≤ incl' ∧ 0 ≤ pool' ∧ reward' + incl' + pool' ≤ reward + incl + pool + sumZ (red_total <$> l).
Proof.
  induction 1 as [|h l (rd & Hrd & Ht) Hl IH]; intros reward incl pool Ho Hi Hp Hmax.
  { exists reward, incl, pool. change (sumZ (red_total <$> [])) with 0. repeat split; try done; lia. }
  rewrite fmap_cons, sumZ_cons in *. pose proof (red_total_nonneg l Hl).
  destruct (red_source h rd reward incl pool) as (reward' & incl' & pool' & Hr & Hv & H1 & H2 & H3 & Hle); [done..|lia|].
  cbn [for_each]. rewrite Hr, Hv. cbn [mbind outcome_bind].
  destruct (IH reward' incl' pool') as (reward2 & incl2 & pool2 & -> & -> & G1 & G2 & G3 & Gle); [done..|lia|].
  exists reward2, incl2, pool2. repeat split; try done; lia.
Qed.
End sources.

(** ** Emission *)

Fixpoint nonincreasing (l : list Z) : bool :=
  match l with a :: ((b :: _) as t) => (b <=? a) && nonincreasing t | _ => true end.
Lemma nonincreasing_head a (l : list Z) j y : nonincreasing (a :: l) = true → (a :: l) !! j = Some y → y ≤ a.
Proof.
  revert a j. induction l as [|b l IH]; intros a j Hs Hj.
  - destruct j; [by injection Hj as ->|done].
  - cbn [nonincreasing] in Hs. apply andb_true_iff in Hs as [Hb Hs]. destruct j as [|j]; [by injection Hj as ->|].
    apply (IH b j Hs) in Hj. lia.
Qed.
Lemma nonincreasing_lookup (l : list Z) i j x y : nonincreasing l = true → (i ≤ j)%nat → l !! i = Some x → l !! j = Some y → y ≤ x.
Proof.
  revert i j. induction l as [|a l IH]; intros i j Hs Hij Hi Hj; [done|]. destruct i as [|i].
  - injection Hi as <-. by eapply nonincreasing_head.
  - destruct j as [|j]; [lia|]. apply (IH i j); [|lia|done..]. destruct l; [done|]. cbn in Hs. by apply andb_true_iff in Hs as [_ ?].
Qed.

Lemma subsidy_table_shape : length SUBSIDY_BY_MONTH_TABLE = 361%nat ∧ nonincreasing SUBSIDY_BY_MONTH_TABLE = true ∧ SUBSIDY_BY_MONTH_TABLE !! 360%nat = Some 0.
Proof. by vm_compute. Qed.
#[local] Opaque SUBSIDY_BY_MONTH_TABLE.

Lemma div_ceil_spec a b : 0 < b → b * (div_ceil a b - 1) < a ≤ b * div_ceil a b.
Proof.
  intros Hb. unfold div_ceil. pose proof (Z.div_mod a b ltac:(lia)). pose proof (Z.mod_pos_bound a b Hb). destruct (a mod b =? 0) eqn:Hz; nia.
Qed.
Lemma div_ceil_mono a a' b b' : a ≤ a' → 0 < b' ≤ b → 0 ≤ a' → div_ceil a b ≤ div_ceil a' b'.
Proof.
  intros Ha Hb Hp. pose proof (div_ceil_spec a b ltac:(lia)). pose proof (div_ceil_spec a' b' ltac:(lia)).
  set (x := div_ceil a b) in *. set (y := div_ceil a' b') in *. assert (0 ≤ y) by nia. assert (b' * y ≤ b * y) by nia.
  assert (b * (x - 1) < b * y) as Hxy by lia. apply Z.mul_lt_mono_pos_l in Hxy; lia.
Qed.

(** The rate of a block and the seconds since the start of the schedule. *)
Definition rate_at (bps : ForkedParam) (daa : Z) : Z := if fork_is_active (fp_activation bps) daa then after bps else before bps.
Definition elapsed (D : Z) (bps : ForkedParam) (daa : Z) : Z :=
  let C := fp_activation bps in
  if C <? D then (daa - D) / after bps else if daa <? C then (daa - D) / before bps else (C - D) / before bps + (daa - C) / after bps.
Definition month_rate (month : Z) : Z := default 0 (SUBSIDY_BY_MONTH_TABLE !! Z.to_nat (Z.min month 360)).

Lemma elapsed_range D bps daa : 0 < before bps → 0 < after bps → 0 ≤ D ≤ daa → 0 ≤ elapsed D bps daa ≤ daa - D.
Proof.
  intros Hb Ha HD. unfold elapsed. assert (∀ x b, 0 ≤ x → 0 < b → 0 ≤ x / b ≤ x) as Hd.
  { intros x b Hx Hb'. split; [by apply Z.div_pos|apply Z.div_le_upper_bound; nia]. }
  destruct (_ <? D) eqn:H1; [apply Hd; lia|]. destruct (daa <? _) eqn:H2; [apply Hd; lia|].
  pose proof (Hd (fp_activation bps - D) (before bps)). pose proof (Hd (daa - fp_activation bps) (after bps)). lia.
Qed.
Lemma elapsed_mono D bps d1 d2 : 0 < before bps → 0 < after bps → D ≤ d1 ≤ d2 → elapsed D bps d1 ≤ elapsed D bps d2.
Proof.
  intros Hb Ha Hd. unfold elapsed. destruct (_ <? D) eqn:H1; [apply Z.div_le_mono; lia|].
  destruct (d1 <? _) eqn:H2, (d2 <? _) eqn:H3; [apply Z.div_le_mono; lia| |lia|].
  - pose proof (Z.div_le_mono (d1 - D) (fp_activation bps - D) (before bps)). pose proof (Z.div_pos (d2 - fp_activation bps) (after bps)). lia.
  - pose proof (Z.div_le_mono (d1 - fp_activation bps) (d2 - fp_activation bps) (after bps)). lia.
Qed.

Lemma subsidy_month_eq {E : Type} m daa : crescendo_activation_daa_score m = fp_activation (bps_history m) → is_u64 daa →
  0 < before (bps_history m) → 0 < after (bps_history m) → 0 ≤ deflationary_phase_daa_score m ≤ daa →
  @subsidy_month E m daa = Ok (elapsed (deflationary_phase_daa_score m) (bps_history m) daa / SECONDS_PER_MONTH).
Proof.
  intros HC Hdaa Hb Ha HD. pose proof (elapsed_range _ _ daa Hb Ha HD) as Hr. unfold subsidy_month, elapsed in *. rewrite HC. unfold is_u64 in *.
  destruct (_ <? deflationary_phase_daa_score m) eqn:H1; [by rewrite sub64_Ok by (unfold is_u64; lia)|].
  destruct (daa <? _) eqn:H2; [by rewrite sub64_Ok by (unfold is_u64; lia)|].
  rewrite !sub64_Ok by (unfold is_u64; lia). cbn [mbind outcome_bind]. unfold add64. by rewrite chk64_Ok by (unfold is_u64; lia).
Qed.

(** The subsidy is the rate of the month divided by the rate of blocks, rounded
    up. *)
Lemma calc_block_subsidy_eq {E : Type} spk_max pay_max D base bps m daa : @CoinbaseManager_new E spk_max pay_max D base bps = Ok m →
  0 < before bps → 0 < after bps → 0 ≤ D → is_u64 daa →
  @calc_block_subsidy E m daa = Ok (if daa <? D then base else div_ceil (month_rate (elapsed D bps daa / SECONDS_PER_MONTH)) (rate_at bps daa)).
Proof.
  intros Hm Hb Ha HD Hdaa. unfold CoinbaseManager_new in Hm. destruct (_ || _); [done|]. injection Hm as <-.
  unfold calc_block_subsidy. cbn [deflationary_phase_daa_score pre_deflationary_phase_base_subsidy]. destruct (daa <? D) eqn:Hlt; [done|].
  pose proof (elapsed_range D bps daa Hb Ha ltac:(lia)) as Hr. rewrite subsidy_month_eq by (done || (cbn; lia)).
  cbn [mbind outcome_bind bps_history deflationary_phase_daa_score subsidy_by_month_table_after subsidy_by_month_table_before]. destruct subsidy_table_shape as (Hlen & _ & _).
  assert (0 ≤ elapsed D bps daa / SECONDS_PER_MONTH) as He by (apply Z.div_pos; [lia|done]).
  unfold rate_at, month_rate. destruct (fork_is_active _ _); rewrite length_fmap, Hlen, list_lookup_fmap; change (Z.of_nat 361 - 1) with 360;
    (destruct (lookup_lt_is_Some_2 SUBSIDY_BY_MONTH_TABLE (Z.to_nat (Z.min (elapsed D bps daa / SECONDS_PER_MONTH) 360))) as [x Hx]; [lia|by rewrite Hx]).
Qed.

Lemma month_rate_mono a b : 0 ≤ a ≤ b → 0 ≤ month_rate b ≤ month_rate a.
Proof.
  intros Hab. destruct subsidy_table_shape as (Hlen & Hs & Hlast). unfold month_rate.
  destruct (lookup_lt_is_Some_2 SUBSIDY_BY_MONTH_TABLE (Z.to_nat (Z.min a 360))) as [x Hx]; [lia|].
  destruct (lookup_lt_is_Some_2 SUBSIDY_BY_MONTH_TABLE (Z.to_nat (Z.min b 360))) as [y Hy]; [lia|]. rewrite Hx, Hy. cbn.
  split; [apply (nonincreasing_lookup SUBSIDY_BY_MONTH_TABLE (Z.to_nat (Z.min b 360)) 360)|
    apply (nonincreasing_lookup SUBSIDY_BY_MONTH_TABLE (Z.to_nat (Z.min a 360)) (Z.to_nat (Z.min b 360)))]; (done || lia).
Qed.
Lemma month_rate_end a : 360 ≤ a → month_rate a = 0.
Proof. intros Ha. unfold month_rate. rewrite Z.min_r by done. destruct subsidy_table_shape as (_ & _ & Hl). change (Z.to_nat 360) with 360%nat. by rewrite Hl. Qed.
Lemma rate_at_mono bps d1 d2 : before bps ≤ after bps → d1 ≤ d2 → rate_at bps d1 ≤ rate_at bps d2.
Proof. intros Hb Hd. unfold rate_at, fork_is_active. destruct (_ <=? d1) eqn:H1, (_ <=? d2) eqn:H2; lia. Qed.

(** *** Sums over consecutive blocks *)

Fixpoint sum_upto (f : Z → Z) (n : nat) : Z := match n with O => 0 | S n => sum_upto f n + f (Z.of_nat n) end.

Lemma sum_upto_S f n : sum_upto f (S n) = sum_upto f n + f (Z.of_nat n).
Proof. done. Qed.
Lemma sum_upto_ext f g n : (∀ i, 0 ≤ i < Z.of_nat n → f i = g i) → sum_upto f n = sum_upto g n.
Proof. induction n as [|n IH]; intros Hfg; [done|]. cbn [sum_upto]. rewrite IH, Hfg; [done|lia|intros; apply Hfg; lia]. Qed.
Lemma sum_upto_mono f n n' : (∀ i, 0 ≤ i → 0 ≤ f i) → (n ≤ n')%nat → sum_upto f n ≤ sum_upto f n'.
Proof. intros Hf. induction 1 as [|n' _ IH]; [done|]. cbn [sum_upto]. specialize (Hf (Z.of_nat n')). lia. Qed.
Lemma sum_upto_zero f n n' : (∀ i, Z.of_nat n ≤ i → f i = 0) → (n ≤ n')%nat → sum_upto f n' = sum_upto f n.
Proof. intros Hf. induction 1 as [|n' Hn IH]; [done|]. cbn [sum_upto]. rewrite Hf, IH; lia. Qed.
Lemma sum_upto_div f q n : 0 < q →
  sum_upto (λ i, f (i / q)) n = q * sum_upto f (Z.to_nat (Z.of_nat n / q)) + (Z.of_nat n mod q) * f (Z.of_nat n / q).
Proof.
  intros Hq. induction n as [|n IH].
  { change (Z.of_nat 0) with 0. rewrite Zdiv_0_l, Zmod_0_l. change (Z.to_nat 0) with O. cbn [sum_upto]. lia. }
  cbn [sum_upto]. rewrite IH.
  rewrite Nat2Z.inj_succ, <- Z.add_1_r. pose proof (Z.div_mod (Z.of_nat n) q ltac:(lia)) as Hd. pose proof (Z.mod_pos_bound (Z.of_nat n) q Hq) as Hb.
  set (k := Z.of_nat n / q) in *. set (r := Z.of_nat n mod q) in *. assert (0 ≤ k) by (apply Z.div_pos; lia). destruct (decide (r = q - 1)) as [Hr|Hr].
  - assert ((Z.of_nat n + 1) / q = k + 1) as -> by (symmetry; apply (Z.div_unique _ _ _ 0); lia).
    assert ((Z.of_nat n + 1) mod q = 0) as -> by (symmetry; apply (Z.mod_unique _ _ (k + 1)); lia).
    rewrite Z2Nat.inj_add, Nat.add_1_r by lia. cbn [sum_upto]. rewrite Z2Nat.id by lia. rewrite Hr. lia.
  - assert ((Z.of_nat n + 1) / q = k) as -> by (symmetry; apply (Z.div_unique _ _ _ (r + 1)); lia).
    assert ((Z.of_nat n + 1) mod q = r + 1) as -> by (symmetry; apply (Z.mod_unique _ _ k); lia). lia.
Qed.
Lemma sum_upto_list (f : Z → Z) (l : list Z) : sum_upto (λ k, f (default 0 (l !! Z.to_nat k))) (length l) = sumZ (f <$> l).
Proof.
  induction l as [|x l IH] using rev_ind; [done|]. rewrite length_app, Nat.add_1_r. cbn [sum_upto length].
  rewrite fmap_app, sumZ_app, <- IH. f_equal.
  - apply sum_upto_ext. intros i Hi. by rewrite lookup_app_l by lia.
  - rewrite Nat2Z.id, lookup_app_r, Nat.sub_diag by done. cbn [lookup list_lookup default fmap list_fmap]. rewrite sumZ_cons. change (sumZ []) with 0. cbn. lia.
Qed.

(** What one block per DAA score emits from the start of the schedule on. *)
Definition emitted {E : Type} (m : CoinbaseManager) (D : Z) (n : nat) : Z :=
  sum_upto (λ i, match @calc_block_subsidy E m (D + i) with Ok s => s | _ => 0 end) n.
Definition emission_budget (b : Z) : Z := SECONDS_PER_MONTH * b * sumZ ((λ s, div_ceil s b) <$> SUBSIDY_BY_MONTH_TABLE).

Lemma elapsed_constant D bps b i : before bps = b → after bps = b → 0 < b → fp_activation bps < D ∨ (fp_activation bps - D) mod b = 0 → 0 ≤ i →
  elapsed D bps (D + i) = i / b.
Proof.
  intros Hb Ha Hpos Hc Hi. unfold elapsed. rewrite Hb, Ha. replace (D + i - D) with i by lia. destruct (_ <? D) eqn:H1; [done|]. destruct (D + i <? _) eqn:H2; [done|].
  destruct Hc as [?|Hc]; [lia|]. apply Z.mod_divide in Hc as [k Hk]; [|lia]. rewrite Hk, Z.div_mul by lia.
  replace i with (D + i - fp_activation bps + k * b) at 2 by lia. rewrite Z.div_add by lia. lia.
Qed.
Lemma emitted_months {E : Type} spk_max pay_max D base bps m b n : @CoinbaseManager_new E spk_max pay_max D base bps = Ok m →
  before bps = b → after bps = b → 0 < b → 0 ≤ D → fp_activation bps < D ∨ (fp_activation bps - D) mod b = 0 → D + Z.of_nat n ≤ U64_MAX →
  @emitted E m D n = sum_upto (λ i, div_ceil (month_rate (i / (b * SECONDS_PER_MONTH))) b) n.
Proof.
  intros Hm Hb Ha Hpos HD Hc Hn. apply sum_upto_ext. intros i Hi.
  rewrite (calc_block_subsidy_eq _ _ _ _ _ _ _ Hm) by (unfold is_u64; lia). replace (D + i <? D) with false by lia.
  rewrite (elapsed_constant D bps b) by (done || lia). rewrite Z.div_div by (done || lia). unfold rate_at. destruct (fork_is_active _ _); by rewrite ?Ha, ?Hb.
Qed.
Lemma div_ceil_0 b : 0 < b → div_ceil 0 b = 0.
Proof. intros Hb. pose proof (div_ceil_spec 0 b Hb). nia. Qed.
Lemma budget_months b : 0 < b → sum_upto (λ k, div_ceil (month_rate k) b) 360 = sumZ ((λ s, div_ceil s b) <$> SUBSIDY_BY_MONTH_TABLE).
Proof.
  intros Hb. destruct subsidy_table_shape as (Hlen & _ & Hl). rewrite <- sum_upto_list, Hlen, (sum_upto_S _ 360).
  rewrite Nat2Z.id, Hl. cbn [default]. rewrite div_ceil_0, Z.add_0_r by done. apply sum_upto_ext. intros i Hi. unfold month_rate. by rewrite Z.min_l by lia.
Qed.
Lemma emission_within_budget b n : 0 < b → let f := λ i, div_ceil (month_rate (i / (b * SECONDS_PER_MONTH))) b in
  sum_upto f n ≤ emission_budget b ∧ (360 * SECONDS_PER_MONTH * b ≤ Z.of_nat n → sum_upto f n = emission_budget b).
Proof.
  intros Hb f. set (q := b * SECONDS_PER_MONTH). assert (0 < q) as Hq by (unfold q, SECONDS_PER_MONTH; lia).
  assert (∀ k, 0 ≤ k → 0 ≤ div_ceil (month_rate k) b) as Hf.
  { intros k Hk. pose proof (month_rate_mono k k ltac:(lia)). pose proof (div_ceil_spec (month_rate k) b Hb). nia. }
  assert (∀ n, 360 * q ≤ Z.of_nat n → sum_upto f n = emission_budget b) as Hend.
  { intros k Hk. unfold f. fold q. rewrite (sum_upto_div (λ k, div_ceil (month_rate k) b) q k Hq).
    assert (360 ≤ Z.of_nat k / q) as H360 by (apply Z.div_le_lower_bound; lia). rewrite (month_rate_end _ H360), div_ceil_0, Z.mul_0_r, Z.add_0_r by done.
    rewrite (sum_upto_zero _ 360), budget_months; [unfold emission_budget, q; lia|done| |lia].
    intros i Hi. by rewrite month_rate_end, div_ceil_0 by lia. }
  split; [|intros Hn; apply Hend; unfold q; lia].
  rewrite <- (Hend (n + Z.to_nat (360 * q))%nat) by lia. apply sum_upto_mono; [|lia]. intros i Hi. apply Hf, Z.div_pos; lia.
Qed.
Lemma mainnet_budget : emission_budget 10 = 1601322491839824000.
Proof. by vm_compute. Qed.

(** C26. The emission schedule: the subsidy of every block is defined, is the
    fixed base before the schedule starts, and never increases along it, also
    across a rise of the block rate; and at one rate (whose change, if it lies
    on the schedule, falls on a whole second) the subsidies of any number of
    consecutive DAA scores total at most the rates of the 360 months, each
    divided by the block rate and rounded up, and exactly that once 360 months
    have passed: at ten blocks per second 16,013,224,918.39824 coins. *)
Theorem emission_schedule {E : Type} spk_max pay_max D base bps m : @CoinbaseManager_new E spk_max pay_max D base bps = Ok m →
  0 < before bps ≤ after bps → 0 ≤ D →
  (∀ daa, is_u64 daa → ∃ s, @calc_block_subsidy E m daa = Ok s ∧ (daa < D → s = base)) ∧
  (∀ d1 d2 s1 s2, D ≤ d1 ≤ d2 → is_u64 d2 → @calc_block_subsidy E m d1 = Ok s1 → @calc_block_subsidy E m d2 = Ok s2 → 0 ≤ s2 ≤ s1) ∧
  (∀ n, before bps = after bps → fp_activation bps < D ∨ (fp_activation bps - D) mod after bps = 0 → D + Z.of_nat n ≤ U64_MAX →
    @emitted E m D n ≤ emission_budget (after bps) ∧
    (360 * SECONDS_PER_MONTH * after bps ≤ Z.of_nat n → @emitted E m D n = emission_budget (after bps))) ∧
  emission_budget 10 = 1601322491839824000.
Proof.
  intros Hm Hb HD. split_and!; [| | |exact mainnet_budget].
  - intros daa Hdaa. eexists. split; [apply (calc_block_subsidy_eq _ _ _ _ _ _ _ Hm); lia || done|]. intros Hlt. by replace (daa <? D) with true by lia.
  - intros d1 d2 s1 s2 Hd Hu. rewrite !(calc_block_subsidy_eq _ _ _ _ _ _ _ Hm) by (unfold is_u64 in *; lia).
    replace (d1 <? D) with false by lia. replace (d2 <? D) with false by lia. intros [= <-] [= <-].
    pose proof (elapsed_range D bps d1 ltac:(lia) ltac:(lia) ltac:(lia)). pose proof (elapsed_mono D bps d1 d2 ltac:(lia) ltac:(lia) ltac:(lia)).
    destruct (month_rate_mono (elapsed D bps d1 / SECONDS_PER_MONTH) (elapsed D bps d2 / SECONDS_PER_MONTH)) as [M1 M2].
    { split; [apply Z.div_pos; [lia|done]|apply Z.div_le_mono; [done|lia]]. }
    pose proof (rate_at_mono bps d1 d2 ltac:(lia) ltac:(lia)). assert (0 < rate_at bps d1) by (unfold rate_at; destruct (fork_is_active _ _); lia).
    split; [rewrite <- (div_ceil_0 (rate_at bps d2)) by lia|]; apply div_ceil_mono; lia.
  - intros n Hr Hc Hn. rewrite (emitted_months _ _ _ _ _ _ (after bps) n Hm) by (done || lia). apply emission_within_budget. lia.
Qed.

(** ** The coinbase transaction *)

Section coinbase.
Context `{Crypto}.

(** Subsidies and fees of everything the block merges and rewards. *)
Definition merged_total (mergeset_rewards : gmap BlockHash BlockRewardData) (mergeset_non_daa : gset BlockHash) (gd : GhostdagData) : Z :=
  sumZ (blue_total mergeset_rewards <$> daa_blues mergeset_non_daa (mergeset_blues gd)) + sumZ (red_total mergeset_rewards mergeset_non_daa <$> mergeset_reds gd).
Record merge_ok (mergeset_rewards : gmap BlockHash BlockRewardData) (mergeset_non_daa : gset BlockHash) (gd : GhostdagData) : Prop := {
  mo_blues : rewards_known mergeset_rewards (daa_blues mergeset_non_daa (mergeset_blues gd));
  mo_reds : rewards_known mergeset_rewards (mergeset_reds gd);
  mo_total : merged_total mergeset_rewards mergeset_non_daa gd ≤ U64_MAX;
}.

(** The validator pool does not depend on the error type it is computed in. *)
Lemma sub64_any {E E' : Type} a b x : @sub64 E a b = Ok x → @sub64 E' a b = Ok x.
Proof. unfold sub64, chk64. by destruct (in_u64 _); [intros [= ->]|]. Qed.
Ltac run_any := cbv beta zeta; intros Hrun;
  repeat match type of Hrun with (_ ≫= _) = Ok _ => let y := fresh "y" in let Hy := fresh "Hy" in apply bind_Ok in Hrun as (y & Hy & Hrun) end;
  repeat match goal with Hy : sub64 _ _ = Ok _ |- _ => rewrite (sub64_any _ _ _ Hy); cbn [mbind outcome_bind]; clear Hy end.
Lemma split_block_subsidy_any {E E' : Type} subsidy fs s : @split_block_subsidy E subsidy fs = Ok s → @split_block_subsidy E' subsidy fs = Ok s.
Proof. unfold split_block_subsidy. run_any. by injection Hrun as ->. Qed.
Lemma split_normal_any {E E' : Type} fees fs s : @split_normal_tx_fees E fees fs = Ok s → @split_normal_tx_fees E' fees fs = Ok s.
Proof. unfold split_normal_tx_fees. run_any. by injection Hrun as ->. Qed.
Lemma split_finality_any {E E' : Type} fees fs s : @split_finality_fees E fees fs = Ok s → @split_finality_fees E' fees fs = Ok s.
Proof. unfold split_finality_fees. run_any. by injection Hrun as ->. Qed.
Lemma split_block_reward_any {E E' : Type} subsidy fees finality fs r : @split_block_reward E subsidy fees finality fs = Ok r →
  @split_block_reward E' subsidy fees finality fs = Ok r.
Proof.
  unfold split_block_reward. intros (s & Hs & (n & Hn & (f & Hf & (d & Hd & [= <-])%bind_Ok)%bind_Ok)%bind_Ok)%bind_Ok.
  rewrite (split_block_subsidy_any _ _ _ Hs). cbn [mbind outcome_bind]. rewrite (sub64_any _ _ _ Hn). cbn [mbind outcome_bind].
  rewrite (split_normal_any _ _ _ Hf). cbn [mbind outcome_bind]. by rewrite (split_finality_any _ _ _ Hd).
Qed.
Lemma for_each_any {E E' A St : Type} (f : St → A → outcome E St) (g : St → A → outcome E' St) l st st' :
  (∀ st a st', f st a = Ok st' → g st a = Ok st') → for_each f l st = Ok st' → for_each g l st = Ok st'.
Proof.
  intros Hfg. revert st. induction l as [|a l IH]; intros st; cbn [for_each]; [by intros [= ->]|]. intros (st1 & Hf & Hl)%bind_Ok.
  rewrite (Hfg _ _ _ Hf). cbn [mbind outcome_bind]. by apply IH.
Qed.
Lemma coinbase_validator_pool_any {E E' : Type} mr nd gd fs pool : @coinbase_validator_pool E mr nd gd fs = Ok pool → @coinbase_validator_pool E' mr nd gd fs = Ok pool.
Proof.
  unfold coinbase_validator_pool. intros (p1 & Hb & Hr)%bind_Ok. erewrite for_each_any; [|clear|exact Hb].
  - cbn [mbind outcome_bind]. eapply for_each_any; [|exact Hr]. intros st a st'. unfold red_validator. destruct (mr !! a) as [rd|]; [|done]. cbn [unwrap mbind outcome_bind].
    destruct (rd_work_reward_class rd); [|by intros [= <-]..]. intros (v & (r & Hs & [= <-])%bind_Ok & [= <-])%bind_Ok. by rewrite (split_block_reward_any _ _ _ _ _ Hs).
  - intros st a st'. unfold blue_validator. destruct (mr !! a) as [rd|]; [|done]. cbn [unwrap mbind outcome_bind].
    destruct (rd_work_reward_class rd); [| |by intros [= <-]..]; intros (v & (r & Hs & [= <-])%bind_Ok & [= <-])%bind_Ok; by rewrite (split_block_reward_any _ _ _ _ _ Hs).
Qed.

Lemma inclusion_bounty_bound fs pool newly expected : 0 ≤ newly → 0 ≤ expected → is_u64 pool → 0 ≤ inclusion_bounty (Some fs) pool (newly, expected) ≤ pool.
Proof.
  intros Hn He Hp. unfold inclusion_bounty. cbn [fst snd]. assert (0 ≤ worker_inclusion_bounty pool newly expected STAKE_SCORE_SCALE false 0) as Hw.
  { unfold worker_inclusion_bounty, proportional_share, sat_mul128, STAKE_SCORE_SCALE, U128_MAX, is_u64 in *. apply Z.div_pos; [|done].
    apply Z.min_glb; [|done]. apply Z.mul_nonneg_nonneg; [|done]. destruct (_ =? 0) eqn:Hz; [done|]. apply Z.div_pos; [|lia]. apply Z.min_glb; [nia|done]. }
  unfold is_u64 in *. rewrite cast64_id by (unfold is_u64; lia). lia.
Qed.
Lemma push_miner_sum v spk outs ix : 0 ≤ v → sumZ (value <$> (push_miner v spk (outs, ix)).1) = sumZ (value <$> outs) + v.
Proof.
  intros Hv. unfold push_miner. cbn [fst snd]. destruct (0 <? v) eqn:Hp; cbn [fst]; [|lia]. rewrite sum_values_app. cbn [fmap list_fmap].
  rewrite sumZ_cons. change (sumZ []) with 0. cbn [value]. lia.
Qed.

Lemma expected_coinbase_total m fs mr nd gd daa md vro newly expected subsidy bytes : merge_ok mr nd gd → 0 ≤ newly → 0 ≤ expected →
  @calc_block_subsidy CoinbaseError m daa = Ok subsidy → serialize_coinbase_payload m (mkCoinbaseData (blue_score gd) subsidy md) = Ok bytes →
  ∃ t pool, expected_coinbase_transaction m daa md gd mr nd vro (Some fs) (newly, expected) = Ok t ∧
    payload (ct_tx t) = bytes ∧
    (∀ E, @coinbase_validator_pool E mr nd gd fs = Ok pool) ∧ is_u64 pool ∧
    sumZ (value <$> outputs (ct_tx t)) + pool ≤ merged_total mr nd gd + sumZ (value <$> vro).
Proof.
  intros [Hb Hr Ht] Hn He Hsub Hser. unfold merged_total in *. pose proof (blue_total_nonneg mr _ Hb). pose proof (red_total_nonneg mr nd _ Hr).
  destruct (blue_sources (E := CoinbaseError) mr fs _ Hb [] 0 0) as (outs & incl & pool & Hbl & Hbv & B1 & B2 & B3 & Ble); [done..|change (sumZ (value <$> [])) with 0; lia|].
  change (sumZ (value <$> [])) with 0 in Ble.
  destruct (red_sources (E := CoinbaseError) mr nd fs _ Hr 0 incl pool) as (reward & incl2 & pool2 & Hrd & Hrv & R1 & R2 & R3 & Rle); [done..|lia|].
  pose proof (inclusion_bounty_bound fs incl2 newly expected Hn He ltac:(unfold is_u64; lia)) as Hbounty.
  unfold expected_coinbase_transaction. rewrite Hbl. cbn [mbind outcome_bind fst snd]. rewrite Hrd. cbn [mbind outcome_bind fst snd]. rewrite Hsub. cbn [mbind outcome_bind].
  rewrite Hser. cbn [mbind outcome_bind]. eexists _, pool2. split; [done|]. split; [done|]. split.
  - intros E. apply (coinbase_validator_pool_any (E := CoinbaseError)). unfold coinbase_validator_pool. rewrite Hbv. cbn [mbind outcome_bind]. exact Hrv.
  - split; [unfold is_u64; lia|]. cbn [ct_tx outputs Transaction_new Transaction_finalize]. rewrite push_miner_sum by lia.
    rewrite sum_values_app, push_miner_sum by lia. lia.
Qed.

Lemma serialize_Ok m data : len (spk_script (md_script_public_key (cd_miner_data data))) ≤ coinbase_payload_script_public_key_max_len m →
  ∃ bytes, serialize_coinbase_payload m data = Ok bytes.
Proof. intros Hl. unfold serialize_coinbase_payload. replace (_ <? _) with false by lia. eauto. Qed.

(** C8. The coinbase transaction conserves the merged rewards: for a mergeset
    whose subsidies and fees are known and fit in 64 bits, with the carve in
    force and a miner script within the limit, the routine returns a
    transaction, never an overflow or a missing entry, and its outputs with the
    pool set aside for the validators total at most the subsidies and fees of
    the merged blocks (no subsidy for red blocks outside the DAA window, nothing
    for blue ones) plus the validator outputs that were passed in. *)
Theorem coinbase_conserves_rewards m spk_max pay_max D base bps fs mr nd gd daa md vro newly expected :
  @CoinbaseManager_new CoinbaseError spk_max pay_max D base bps = Ok m → 0 < before bps → 0 < after bps → 0 ≤ D → is_u64 daa →
  len (spk_script (md_script_public_key md)) ≤ spk_max → merge_ok mr nd gd → 0 ≤ newly → 0 ≤ expected →
  ∃ t pool, expected_coinbase_transaction m daa md gd mr nd vro (Some fs) (newly, expected) = Ok t ∧
    @coinbase_validator_pool CoinbaseError mr nd gd fs = Ok pool ∧ 0 ≤ pool ∧
    sumZ (value <$> outputs (ct_tx t)) + pool ≤ merged_total mr nd gd + sumZ (value <$> vro).
Proof.
  intros Hm Hb Ha HD Hdaa Hl Hok Hn He.
  assert (coinbase_payload_script_public_key_max_len m = spk_max) as Hs by (unfold CoinbaseManager_new in Hm; destruct (_ || _); [done|by injection Hm as <-]).
  edestruct serialize_Ok as [bytes Hbytes]; [|edestruct (expected_coinbase_total m fs mr nd gd daa md vro newly expected) as (t & pool & H1 & _ & H2 & H3 & H4);
    [done..|by apply (calc_block_subsidy_eq _ _ _ _ _ _ _ Hm)|exact Hbytes|]].
  - cbn [cd_miner_data]. by rewrite Hs.
  - exists t, pool. split; [done|]. split; [apply H2|]. split; [unfold is_u64 in H3; lia|done].
Qed.
End coinbase.

(** ** The types of the expected coinbase transaction *)

Definition scripts_typed (rd : BlockRewardData) : Prop := spk_typed (rd_script_public_key rd) ∧
  match rd_work_reward_class rd with ReplicaPalw _ _ provider_a_script provider_b_script _ => spk_typed provider_a_script ∧ spk_typed provider_b_script | _ => True end.

Lemma is_uint_u64 z : is_uint 8 z ↔ is_u64 z.
Proof. unfold is_uint, is_u64. change (256 ^ Z.of_nat 8) with (U64_MAX + 1). lia. Qed.
Lemma cast64_u64 z : is_u64 (cast64 z).
Proof. unfold cast64. pose proof (Z.mod_pos_bound z (2 ^ 64) eq_refl). unfold is_u64. change U64_MAX with (2 ^ 64 - 1). lia. Qed.
Lemma positive_output v spk : 0 < v ≤ U64_MAX → spk_typed spk → output_typed (mkOutput v spk).
Proof. intros Hv Hs. split; [|done]. apply is_uint_u64. unfold is_u64. cbn. lia. Qed.
Lemma push_positive_typed v spk : v ≤ U64_MAX → spk_typed spk → Forall output_typed (push_positive v spk) ∧ (length (push_positive v spk) ≤ 1)%nat.
Proof. intros Hv Hs. unfold push_positive. destruct (0 <? v) eqn:Hp; cbn; [|by auto]. split; [|lia]. constructor; [apply positive_output; [lia|done]|done]. Qed.
Lemma push_miner_typed v spk outs ix : v ≤ U64_MAX → spk_typed spk → Forall output_typed outs →
  Forall output_typed (push_miner v spk (outs, ix)).1 ∧ (length (push_miner v spk (outs, ix)).1 ≤ length outs + 1)%nat.
Proof.
  intros Hv Hs Ho. unfold push_miner. destruct (0 <? v) eqn:Hp; cbn; [|split; [done|lia]]. rewrite length_app. split; [|cbn; lia].
  apply Forall_app. split; [done|]. apply Forall_singleton, positive_output; [lia|done].
Qed.
Lemma hash_miner_value_max {E : Type} carve subsidy fees finality incl v : @hash_miner_value E carve subsidy fees finality incl = Ok v → v.1 ≤ U64_MAX.
Proof.
  unfold hash_miner_value. destruct carve as [fs|].
  - intros (s & _ & (f & _ & [= <-])%bind_Ok)%bind_Ok. cbn. unfold sat_add64. lia.
  - intros (x & [-> Hx]%chk64_inv & [= <-])%bind_Ok. unfold is_u64 in Hx. cbn. lia.
Qed.
Lemma blue_reward_typed {E : Type} mr carve st h st' : map_Forall (λ _, scripts_typed) mr → @blue_reward E mr carve st h = Ok st' →
  Forall output_typed st.1 → Forall output_typed st'.1 ∧ (length st'.1 ≤ length st.1 + 3)%nat.
Proof.
  intros Hmr. unfold blue_reward. destruct (mr !! h) as [rd|] eqn:Hrd; [|done]. cbn [unwrap mbind outcome_bind]. destruct (Hmr h rd Hrd) as [Hs Hp].
  destruct (rd_work_reward_class rd) as [|? ? a b pi|?|?|?]; [| |intros [= <-]; split; [done|lia]..].
  - intros (v & Hv%hash_miner_value_max & [= <-])%bind_Ok Ho. destruct (push_positive_typed v.1 _ Hv Hs) as [Ht Hl]. cbn [fst].
    rewrite length_app. split; [by apply Forall_app|lia].
  - destruct Hp as [Ha Hb]. intros (fs & _ & (s & _ & (split & Hsp & (bv & [-> Hbv]%chk64_inv & (fees & _ & [= <-])%bind_Ok)%bind_Ok)%bind_Ok)%bind_Ok)%bind_Ok Ho.
    assert (split.1.1 ≤ U64_MAX) as Hmax.
    { unfold premium_split in Hsp. apply bind_Ok in Hsp as (? & _ & (? & _ & (? & _ & [= <-])%bind_Ok)%bind_Ok). cbn [fst]. apply cast64_u64. }
    destruct (push_positive_typed _ _ Hmax Ha) as [T1 L1]. destruct (push_positive_typed _ b (proj2 Hbv) Hb) as [T2 L2].
    destruct (push_positive_typed (sat_add64 fees.1 fees.2) _ ltac:(unfold sat_add64; lia) Hs) as [T3 L3].
    cbn [fst]. rewrite !length_app, !Forall_app. split; [done|lia].
Qed.
Lemma blue_rewards_typed {E : Type} mr carve l st st' : map_Forall (λ _, scripts_typed) mr → for_each (@blue_reward E mr carve) l st = Ok st' →
  Forall output_typed st.1 → Forall output_typed st'.1 ∧ (length st'.1 ≤ length st.1 + 3 * length l)%nat.
Proof.
  intros Hmr. revert st. induction l as [|h l IH]; intros st; cbn [for_each length]; [intros [= <-]; split; [done|lia]|].
  intros (st1 & H1 & H2)%bind_Ok Ho. destruct (blue_reward_typed mr carve st h st1 Hmr H1 Ho) as [T1 L1].
  destruct (IH st1 H2 T1) as [T2 L2]. split; [done|lia].
Qed.
Lemma red_rewards_max {E : Type} mr nd carve l st st' : for_each (@red_reward_step E mr nd carve) l st = Ok st' → st.1 ≤ U64_MAX → st'.1 ≤ U64_MAX.
Proof.
  revert st. induction l as [|h l IH]; intros st; cbn [for_each]; [by intros [= <-]|]. intros (st1 & H1 & H2)%bind_Ok Hst. apply (IH st1 H2).
  unfold red_reward_step in H1. destruct (mr !! h) as [rd|]; [|done]. cbn [unwrap mbind outcome_bind] in H1.
  destruct (rd_work_reward_class rd); [|by injection H1 as <-..]. apply bind_Ok in H1 as (v & _ & (x & [-> Hx]%chk64_inv & [= <-])%bind_Ok). apply Hx.
Qed.

Section typed.
Context `{Crypto}.

Lemma deserialized_typed m bytes data : Forall is_byte bytes → short bytes → deserialize_coinbase_payload m bytes = Ok data →
  spk_typed (md_script_public_key (cd_miner_data data)) ∧
  19 + len (spk_script (md_script_public_key (cd_miner_data data))) + len (md_extra_data (cd_miner_data data)) = len bytes.
Proof.
  intros Hb Hs Hd. pose proof (deserialize_accepts m bytes Hb) as Hser. rewrite Hd in Hser. unfold serialize_coinbase_payload in Hser.
  destruct (_ <? _); [done|]. injection Hser as Hser. apply (f_equal length) in Hser. unfold miner_data_bytes in Hser.
  rewrite !length_app, !length_to_le_bytes in Hser. split; [|lia]. split; [|unfold short, is_uint in *; lia].
  unfold deserialize_coinbase_payload in Hd. destruct (_ <? MIN_PAYLOAD_LENGTH) eqn:H1; [done|]. destruct (_ <? len bytes); [done|].
  change MIN_PAYLOAD_LENGTH with 19 in H1. unfold LENGTH_OF_BLUE_SCORE, LENGTH_OF_SUBSIDY, LENGTH_OF_SCRIPT_PUB_KEY_VERSION, LENGTH_OF_SCRIPT_PUB_KEY_LENGTH in Hd.
  destruct (parser_take_Ok (E := CoinbaseError) bytes 8) as (u1 & w1 & E1 & -> & L1); [lia|]. rewrite E1 in Hd. cbn [mbind outcome_bind] in Hd. rewrite length_app in *.
  destruct (parser_take_Ok (E := CoinbaseError) w1 8) as (u2 & w2 & E2 & -> & L2); [lia|]. rewrite E2 in Hd. cbn [mbind outcome_bind] in Hd. rewrite length_app in *.
  destruct (parser_take_Ok (E := CoinbaseError) w2 2) as (u3 & w3 & E3 & -> & L3); [lia|]. rewrite E3 in Hd. cbn [mbind outcome_bind] in Hd.
  apply bind_Ok in Hd as ([u4 w4] & _ & Hd). destruct (_ <? le_val u4); [done|]. destruct (len w4 <? _); [done|]. apply bind_Ok in Hd as ([u5 w5] & _ & [= <-]).
  cbn. rewrite !Forall_app in Hb. destruct Hb as (_ & _ & B3 & _). pose proof (le_val_bound u3 B3) as Hv. rewrite L3 in Hv. exact Hv.
Qed.

(** The transaction built from typed scripts and outputs is typed. *)
Lemma expected_coinbase_typed m daa md gd mr nd vro carve incl t : expected_coinbase_transaction m daa md gd mr nd vro carve incl = Ok t →
  map_Forall (λ _, scripts_typed) mr → spk_typed (md_script_public_key md) → Forall output_typed vro →
  is_u64 (19 + len (spk_script (md_script_public_key md)) + len (md_extra_data md)) →
  is_u64 (3 * len (mergeset_blues gd) + len vro + 2) → tx_typed (ct_tx t).
Proof.
  unfold expected_coinbase_transaction. intros ([outs pool] & Hb & (red & Hr & (sub & _ & (bytes & Hser & [= <-])%bind_Ok)%bind_Ok)%bind_Ok)%bind_Ok Hmr Hmd Hvro Hp Hl.
  cbn [fst snd] in *. destruct (blue_rewards_typed _ _ _ _ _ Hmr Hb) as [T1 L1]; [done|]. cbn [fst length] in T1, L1.
  apply red_rewards_max in Hr; [|done].
  destruct (push_miner_typed red.1 _ outs [] Hr Hmd T1) as [T2 L2]. set (st := push_miner red.1 _ _) in *.
  destruct (push_miner_typed (inclusion_bounty carve red.2 incl) (md_script_public_key md) (st.1 ++ vro) st.2) as [T3 L3];
    [unfold inclusion_bounty; destruct carve; [apply cast64_u64|done]|done|by apply Forall_app|].
  assert (length (daa_blues nd (mergeset_blues gd)) ≤ length (mergeset_blues gd))%nat as Ld by apply length_filter.
  rewrite length_app in L3. unfold is_u64 in *.
  split; cbn [ct_tx Transaction_new Transaction_finalize tx_version inputs outputs lock_time subnetwork_id gas payload mass_commitment]; try done.
  - split; [|done]. apply is_uint_u64. unfold is_u64. lia.
  - unfold serialize_coinbase_payload in Hser. destruct (_ <? _); [done|]. injection Hser as <-. apply is_uint_u64. unfold is_u64, miner_data_bytes.
    rewrite !length_app, !length_to_le_bytes. cbn [cd_miner_data]. lia.
Qed.
End typed.

(** ** The types of the validator outputs *)

Definition payouts_typed (v : ActiveBondView) : Prop := map_Forall (λ _ r, length (sb_owner_reward_spk_payload r) = 64%nat) v.
(** The recipients of all the tallies together. *)
Definition recipients (tallies : list EpochTally) : nat := length (concat (included <$> tallies)).

Lemma concat_cons_length {A : Type} (x : list A) l : length (concat (x :: l)) = (length x + length (concat l))%nat.
Proof. apply length_app. Qed.
Lemma concat_filter_length {A B : Type} (P : A → Prop) `{∀ x, Decision (P x)} (f : A → list B) l :
  (length (concat (f <$> filter P l)) ≤ length (concat (f <$> l)))%nat.
Proof.
  induction l as [|x l IH]; [done|]. rewrite fmap_cons, concat_cons_length. destruct (decide (P x)).
  - rewrite filter_cons_True, fmap_cons, concat_cons_length by done. lia.
  - rewrite filter_cons_False by done. lia.
Qed.
Definition at_epochs (m : gmap Z (list (Hash64 * Z))) (es : list Z) : nat := length (concat ((λ e, default [] (m !! e)) <$> es)).
Lemma at_epochs_key bonds m key es : NoDup es → (at_epochs (tally_key bonds m key) es ≤ S (at_epochs m es))%nat.
Proof.
  unfold tally_key. destruct (bonds !! key.1) as [b|]; [|lia]. set (x := (_, _)).
  assert (∀ es, key.2 ∉ es → at_epochs (<[key.2 := default [] (m !! key.2) ++ [x]]> m) es = at_epochs m es) as Hne.
  { intros l Hl. unfold at_epochs. do 2 f_equal. apply list_fmap_ext. intros i e He%list_elem_of_lookup_2. rewrite lookup_insert_ne; [done|congruence]. }
  induction 1 as [|e es He Hn IH]; [unfold at_epochs; cbn; lia|]. unfold at_epochs in *. rewrite !fmap_cons, !concat_cons_length.
  destruct (decide (key.2 = e)) as [<-|].
  - rewrite lookup_insert_eq, Hne by done. cbn [from_option]. unfold id at 1. rewrite length_app. cbn. lia.
  - rewrite lookup_insert_ne by done. lia.
Qed.
Lemma at_epochs_blocks L bonds st cs es : NoDup es → (at_epochs (foldl (tally_block L bonds) st cs).2 es ≤ at_epochs st.2 es + total_keys cs)%nat.
Proof.
  intros Hn. revert st. induction cs as [|c cs IH]; intros st; cbn [foldl]; [lia|]. etransitivity; [apply IH|].
  unfold total_keys. rewrite fmap_cons, concat_cons_length. cbn [tally_block snd]. enough (∀ keys m, at_epochs (foldl (tally_key bonds) m keys) es ≤ at_epochs m es + length keys)%nat as Hk.
  { specialize (Hk (bc_rewarded_keys c) st.2). lia. }
  induction keys as [|k keys IHk]; intros m; cbn [foldl length]; [lia|]. pose proof (IHk (tally_key bonds m k)). pose proof (at_epochs_key bonds m k es Hn). lia.
Qed.
Lemma crossed_recipients p w v daa range : (recipients (crossed_tallies p w v daa range) ≤ total_keys (contributions w))%nat.
Proof.
  unfold recipients, crossed_tallies. rewrite <- list_fmap_compose. etransitivity; [apply concat_filter_length|]. unfold recompute_epoch_tallies.
  set (L := Z.max _ 1). pose proof (at_epochs_blocks L (bond_by_outpoint (bond_records v)) (∅, ∅) (contributions w)) as Hb.
  destruct (foldl _ _ _) as [q i]. rewrite <- list_fmap_compose. cbn in *.
  specialize (Hb (merge_sort Z.le (elements (dom q ∪ dom i)))). etransitivity; [apply Hb|].
  - rewrite merge_sort_Permutation. apply NoDup_elements.
  - enough (∀ es, at_epochs ∅ es = 0%nat) as -> by lia. intros es. unfold at_epochs. induction es as [|e es IHe]; [done|]. rewrite fmap_cons, concat_cons_length. rewrite IHe. done.
Qed.

Lemma payout_script payload : length payload = 64%nat → spk_typed (p2pkh_mldsa87_spk payload).
Proof. intros Hl. split; [done|]. unfold short. cbn [p2pkh_mldsa87_spk spk_script]. rewrite !length_app, Hl. done. Qed.
Lemma bonus_typed pool inc expected meets : Forall output_typed (validator_quality_bonus_outputs pool inc expected meets) ∧
  (length (validator_quality_bonus_outputs pool inc expected meets) ≤ length inc)%nat.
Proof.
  unfold validator_quality_bonus_outputs. destruct meets; cbn [negb]; [|split; [done|cbn; lia]].
  induction inc as [|[payload stake] inc [IH1 IH2]]; [by split|]. cbn [omap list_omap].
  destruct (paid_output _ (hash64_bytes payload)) as [o|] eqn:Ho; [|split; [done|cbn [length]; lia]]. split; [constructor; [|done]|cbn [length]; lia].
  unfold paid_output in Ho. destruct (0 <? _) eqn:Hp; [|done]. injection Ho as <-.
  apply positive_output; [lia|]. apply payout_script. unfold hash64_bytes. apply length_to_le_bytes.
Qed.
Lemma quality_outputs_typed {E : Type} p ts outs : @quality_outputs E p ts = Ok outs → Forall output_typed outs ∧ (length outs ≤ recipients ts)%nat.
Proof.
  revert outs. induction ts as [|t ts IH]; intros outs; cbn [quality_outputs]; [by intros [= <-]|].
  intros (s & _ & (o & Ho & [= <-])%bind_Ok)%bind_Ok. destruct (IH o Ho) as [T1 L1].
  destruct (bonus_typed (quality_pool_accrued t) (included t) (expected_stake t) (epoch_meets_quality_floor s (expected_stake t) (stake_event_quality_floor_bps p))) as [T2 L2].
  unfold recipients in *. rewrite fmap_cons, concat_cons_length, length_app, Forall_app. split; [done|lia].
Qed.
Lemma drip_loop_typed cap ts remaining total : Forall output_typed (drip_loop cap ts remaining total).1 ∧ (length (drip_loop cap ts remaining total).1 ≤ recipients ts)%nat.
Proof.
  revert remaining total. induction ts as [|t ts IH]; intros remaining total; cbn [drip_loop]; [by split|].
  unfold recipients in *. rewrite fmap_cons, concat_cons_length.
  destruct (remaining =? 0); [destruct (IH remaining total); split; [done|lia]|]. destruct (_ =? 0); [destruct (IH remaining total); split; [done|lia]|].
  set (d := validator_quality_bonus_outputs _ _ _ _). destruct (bonus_typed (Z.min remaining cap) (included t) (expected_stake t) true) as [T2 L2]. fold d in T2, L2.
  set (rem' := sat_sub64 _ _). set (tot' := sat_add64 _ _). specialize (IH rem' tot'). destruct (drip_loop cap ts rem' tot') as [o x]. cbn in *.
  destruct IH as [T1 L1]. rewrite Forall_app, length_app. split; [done|lia].
Qed.
Lemma drip_typed {E : Type} p w v daa bal drip : @reserve_drip_outputs E p w v daa bal = Ok drip →
  Forall output_typed drip.1 ∧ (length drip.1 ≤ total_keys (contributions w))%nat.
Proof.
  unfold reserve_drip_outputs. destruct (_ || _); [intros [= <-]; split; [done|cbn; lia]|]. intros ([range|] & _ & Hd)%bind_Ok; injection Hd as <-; [|split; [done|cbn; lia]].
  pose proof (crossed_recipients p w v daa range). destruct (drip_loop_typed (reserve_drip_per_epoch_cap_sompi p) (crossed_tallies p w v daa range) bal 0). split; [done|lia].
Qed.
Lemma quality_bonus_typed {E : Type} p w v daa bonus : @deferred_quality_bonus_outputs E p w v daa = Ok bonus →
  Forall output_typed bonus ∧ (length bonus ≤ total_keys (contributions w))%nat.
Proof.
  unfold deferred_quality_bonus_outputs. destruct (_ <? _); [intros [= <-]; split; [done|cbn; lia]|]. intros ([range|] & _ & Hd)%bind_Ok; [|injection Hd as <-; split; [done|cbn; lia]].
  pose proof (crossed_recipients p w v daa range). apply quality_outputs_typed in Hd as [T L]. split; [done|lia].
Qed.

(** ** Acceptance *)

Section acceptance.
Context `{Crypto} `{DnsDecode}.

Lemma expect_Ok {E E' A : Type} (x : outcome E' A) a : @expect E E' A x = Ok a → x = Ok a.
Proof. by destruct x; [intros [= ->]|..]. Qed.
Lemma newly_included_nonneg {E : Type} already seen atts acc r : 0 ≤ acc → @newly_included E already seen atts acc = Ok r → 0 ≤ r.
Proof.
  revert seen acc. induction atts as [|[[[o e] pl] st] atts IH]; intros seen acc Hacc; cbn [newly_included]; [by intros [= <-]|].
  destruct (_ || _); [by apply IH|]. intros (acc' & Hc & Hr)%bind_Ok. refine (IH _ acc' _ Hr). unfold chk128 in Hc. destruct (_ && _) eqn:Hb; [|done].
  injection Hc as <-. lia.
Qed.
Lemma creditable_typed p creditable v daa atts : stakes_typed v → Forall (λ a : IncludedAttestation, is_u64 a.2) (omap (creditable_attestation p creditable v daa) atts).
Proof.
  intros Hv. apply Forall_forall. intros a (att & _ & Ha)%list_elem_of_omap. unfold creditable_attestation in Ha. destruct (_ <? _); [done|].
  destruct (creditable !! _) as [anchor|]; [|done]. cbn in Ha. destruct (_ || _); [done|]. unfold active_bond_at in Ha.
  destruct (v !! _) as [b|] eqn:Hb; [|done]. cbn in Ha. destruct (is_bond_active_at _ _); [|done]. injection Ha as <-. cbn. by apply (Hv _ _ Hb).
Qed.
Lemma split_validator_pool_bound pool bps : is_u64 pool → 0 ≤ bps → 0 ≤ (split_validator_pool pool bps).1 ≤ pool.
Proof.
  intros Hp Hb. unfold split_validator_pool. cbn [fst]. rewrite sat_mul128_exact by (unfold is_u64, U64_MAX in *; lia). unfold is_u64 in *.
  split; [apply Z.div_pos; nia|apply Z.div_le_upper_bound; nia].
Qed.
Lemma total_active_stake_nonneg v daa : stakes_typed v → 0 ≤ total_active_stake_at v daa.
Proof.
  intros Hv. apply (active_stake_u64 (bond_records v) daa). apply Forall_forall. intros b (o & Hb)%bond_records_from. by apply (Hv o).
Qed.

Lemma validator_outputs_bound {E : Type} p w creditable already txs v daa pool outs keys newly expected : dns_activation_daa_score p ≤ daa → stakes_typed v →
  is_u64 pool → 0 ≤ validator_participation_bps p →
  @validator_reward_outputs_for_block _ E p w creditable already txs v daa pool = Ok (outs, keys, newly, expected) →
  0 ≤ newly ∧ 0 ≤ expected ∧ ∃ bonus, @deferred_quality_bonus_outputs E p w v daa = Ok bonus ∧ sumZ (value <$> outs) ≤ pool + sumZ (value <$> bonus).
Proof.
  intros Hact Hv Hpool Hbps. unfold validator_reward_outputs_for_block. replace (_ <? _) with false by lia.
  set (part := (split_validator_pool pool _).1). assert (0 ≤ part ≤ pool) as Hpart by (apply split_validator_pool_bound; [done|destruct (_ <=? _); lia]).
  intros (ni & Hni & ([o k] & Hpo & (bonus & Hbonus & [= <- <- <- <-])%bind_Ok)%bind_Ok)%bind_Ok.
  split; [by eapply (newly_included_nonneg _ _ _ 0)|]. split; [by apply total_active_stake_nonneg|]. exists bonus. split; [done|].
  destruct (participation_loop_spec (E := E) part (total_active_stake_at v daa) already (omap (creditable_attestation p creditable v daa) (attestations_from_accepted_txs txs))
    ∅ 0) as (o' & k' & Hl & Hs & _); [unfold is_u64 in *; lia|by apply total_active_stake_nonneg|by apply creditable_typed|lia|].
  unfold validator_participation_reward_outputs in Hpo. rewrite Hl in Hpo. injection Hpo as <- <-. rewrite sum_values_app. lia.
Qed.

(** A run that returns determines the subsidy and the payload. *)
Lemma expected_coinbase_inv m daa md gd mr nd vro carve incl t : expected_coinbase_transaction m daa md gd mr nd vro carve incl = Ok t →
  ∃ subsidy bytes, @calc_block_subsidy CoinbaseError m daa = Ok subsidy ∧ serialize_coinbase_payload m (mkCoinbaseData (blue_score gd) subsidy md) = Ok bytes.
Proof.
  unfold expected_coinbase_transaction. intros (blue & _ & (red & _ & (sub & Hs & (bytes & Hb & _)%bind_Ok)%bind_Ok)%bind_Ok)%bind_Ok. eauto.
Qed.

Lemma length_omap_le {A B : Type} (f : A → option B) l : (length (omap f l) ≤ length l)%nat.
Proof. induction l as [|x l IH]; [done|]. cbn [omap list_omap]. destruct (f x); cbn [length]; lia. Qed.
Lemma creditable_payload p creditable v daa (atts : list StakeAttestation) (a : IncludedAttestation) : payouts_typed v → a ∈ omap (creditable_attestation p creditable v daa) atts → length a.1.2 = 64%nat.
Proof.
  intros Hv (att & _ & Ha)%list_elem_of_omap. unfold creditable_attestation in Ha. destruct (_ <? _); [done|].
  destruct (creditable !! _) as [anchor|]; [|done]. cbn in Ha. destruct (_ || _); [done|]. unfold active_bond_at in Ha.
  destruct (v !! _) as [b|] eqn:Hb; [|done]. cbn in Ha. destruct (is_bond_active_at _ _); [|done]. injection Ha as <-. cbn. by apply (Hv _ _ Hb).
Qed.
Lemma validator_outputs_typed {E : Type} p w creditable already txs v daa pool outs keys newly expected : dns_activation_daa_score p ≤ daa →
  stakes_typed v → payouts_typed v → is_u64 pool → 0 ≤ validator_participation_bps p →
  @validator_reward_outputs_for_block _ E p w creditable already txs v daa pool = Ok (outs, keys, newly, expected) →
  Forall output_typed outs ∧ (length outs ≤ length (attestations_from_accepted_txs txs) + total_keys (contributions w))%nat.
Proof.
  intros Hact Hv Hpay Hpool Hbps. unfold validator_reward_outputs_for_block. replace (_ <? _) with false by lia.
  set (part := (split_validator_pool pool _).1). assert (is_u64 part) as Hpart.
  { pose proof (split_validator_pool_bound pool (if pos_v2_activation_daa_score p <=? daa then validator_participation_bps p else 10000) Hpool ltac:(destruct (_ <=? _); lia)).
    unfold part, is_u64 in *. lia. }
  intros (ni & _ & ([o k] & Hpo & (bonus & Hbonus & [= <- _ _ _])%bind_Ok)%bind_Ok)%bind_Ok. destruct (quality_bonus_typed _ _ _ _ _ Hbonus) as [Tb Lb].
  set (atts := omap _ _) in *. pose proof (total_active_stake_nonneg v daa Hv) as Hexp.
  destruct (participation_loop_spec (E := E) part (total_active_stake_at v daa) already atts ∅ 0) as (o' & k' & Hl & _ & Hnd & _ & HF);
    [done|done|by apply creditable_typed|unfold is_u64 in *; lia|].
  unfold validator_participation_reward_outputs in Hpo. rewrite Hl in Hpo. injection Hpo as <- <-.
  assert (length o' ≤ length atts)%nat as Lo.
  { rewrite (Forall2_length _ _ _ HF), <- (length_fmap att_key atts). apply submseteq_length, NoDup_submseteq; [done|].
    intros key (i & Hi)%list_elem_of_lookup_1. destruct (Forall2_lookup_r _ _ _ _ _ HF Hi) as (x & _ & a & Ha & <- & _). by apply list_elem_of_fmap_2. }
  assert (length atts ≤ length (attestations_from_accepted_txs txs))%nat as La by apply length_omap_le.
  rewrite length_app, Forall_app. split; [split; [|done]|lia]. apply Forall_forall. intros x (i & Hi)%list_elem_of_lookup_1.
  destruct (Forall2_lookup_l _ _ _ _ _ HF Hi) as (key & _ & a & Ha & _ & ->).
  pose proof (creditable_typed p creditable v daa (attestations_from_accepted_txs txs) Hv) as Hst. rewrite Forall_forall in Hst. specialize (Hst a Ha).
  split; cbn [value out_script_public_key].
  - apply is_uint_u64. pose proof (proportional_share_bound part a.2 _ Hpart Hst Hexp). unfold is_u64 in *. lia.
  - apply payout_script. by eapply creditable_payload.
Qed.

(** The outputs of the expected transaction over the validator rewards of the
    block. *)
Lemma validator_rewards_bound {E : Type} m p r c daa txs vro newly expected e md t : @block_validator_rewards _ p r E c daa txs = Ok (vro, (newly, expected), e) →
  expected_coinbase_transaction m daa md (rc_ghostdag_data c) (rc_mergeset_rewards c) (rc_mergeset_non_daa c) vro (reward_fee_split p r daa) (newly, expected) = Ok t →
  dns_activation_daa_score p ≤ daa → 0 ≤ validator_participation_bps p → stakes_typed (rc_bond_view c) → payouts_typed (rc_bond_view c) →
  merge_ok (rc_mergeset_rewards c) (rc_mergeset_non_daa c) (rc_ghostdag_data c) →
  ∃ bonus drip, @deferred_quality_bonus_outputs E p (rc_window c) (rc_bond_view c) daa = Ok bonus ∧
    @reserve_drip_outputs E p (rc_window c) (rc_bond_view c) daa (rc_parent_balance c) = Ok drip ∧
    sumZ (value <$> outputs (ct_tx t)) ≤ merged_total (rc_mergeset_rewards c) (rc_mergeset_non_daa c) (rc_ghostdag_data c) + sumZ (value <$> bonus) + sumZ (value <$> drip.1) ∧
    Forall output_typed vro ∧ len vro ≤ len (attestations_from_accepted_txs txs) + 2 * Z.of_nat (total_keys (contributions (rc_window c))).
Proof.
  intros Hr Ht Hact Hbps Hst Hpay Hok. unfold block_validator_rewards in Hr.
  assert (∃ fs, reward_fee_split p r daa = Some fs) as [fs Hfs].
  { unfold reward_fee_split. replace (_ <? _) with false by lia. destruct (full_reward_split_daa_score r <=? daa); by eexists. }
  rewrite Hfs in *. apply bind_Ok in Hr as (pool & Hpool & ([[[outs keys] newly'] expected'] & Hvr & (drip & Hdrip & [= <- <- <- _])%bind_Ok)%bind_Ok).
  destruct (expected_coinbase_inv _ _ _ _ _ _ _ _ _ _ Ht) as (sub & bytes & Hsub & Hser).
  assert (is_u64 pool) as Hu.
  { destruct (expected_coinbase_total m fs _ _ _ daa md [] 0 0 sub bytes Hok ltac:(done) ltac:(done) Hsub Hser) as (? & pl & _ & _ & Hp & Hpl & _).
    rewrite (Hp E) in Hpool. by injection Hpool as <-. }
  destruct (validator_outputs_bound _ _ _ _ _ _ _ _ _ _ _ _ Hact Hst Hu Hbps Hvr) as (Hn & He & bonus & Hbonus & Hle).
  destruct (validator_outputs_typed _ _ _ _ _ _ _ _ _ _ _ _ Hact Hst Hpay Hu Hbps Hvr) as [To Lo]. destruct (drip_typed _ _ _ _ _ _ Hdrip) as [Td Ld].
  destruct (expected_coinbase_total m fs _ _ _ daa md (outs ++ drip.1) newly' expected' sub bytes Hok Hn He Hsub Hser) as (t' & pl & Ht' & _ & Hp & _ & Htot).
  rewrite Ht in Ht'. injection Ht' as <-. rewrite (Hp E) in Hpool. injection Hpool as <-. rewrite sum_values_app in Htot.
  exists bonus, drip. split_and!; [done|done|lia|by apply Forall_app|]. rewrite length_app. lia.
Qed.

(** What the types of the context guarantee: amounts of 64 bits, payout
    addresses of 64 bytes, scripts of the merged blocks that fit their fields,
    and fewer outputs than a 64-bit length counts. *)
Record context_typed (c : RewardContext) (txs : list Transaction) : Prop := {
  cx_stakes : stakes_typed (rc_bond_view c);
  cx_payouts : payouts_typed (rc_bond_view c);
  cx_scripts : map_Forall (λ _, scripts_typed) (rc_mergeset_rewards c);
  cx_sizes : 3 * len (mergeset_blues (rc_ghostdag_data c)) + len (attestations_from_accepted_txs txs)
    + 2 * Z.of_nat (total_keys (contributions (rc_window c))) + 2 ≤ U64_MAX;
}.

(** C7. No accepted block mints beyond what it merges: when the rewards of a
    block verify, take the miner data its coinbase payload decodes to and the
    validator outputs of its context; the coinbase transaction expected for
    them exists, and the block's own coinbase transaction is that transaction
    in every hashed field and its outputs total at most the subsidies and fees
    of the merged blocks plus the quality bonus of the epochs the block
    finalizes and the drip of the reserve, or the strings hashed for the two
    transactions differ and collide. *)
Theorem accepted_coinbase_bounded m p r c daa coinbase txs eff :
  verify_block_rewards m p r c daa (coinbase :: txs) = Ok eff → dns_activation_daa_score p ≤ daa → 0 ≤ validator_participation_bps p →
  merge_ok (rc_mergeset_rewards c) (rc_mergeset_non_daa c) (rc_ghostdag_data c) → context_typed c (coinbase :: txs) →
  tx_typed coinbase → Forall is_byte (payload coinbase) →
  ∃ outs inclusion data t bonus drip,
    @block_validator_rewards _ p r CoinbaseRuleError c daa (coinbase :: txs) = Ok (outs, inclusion, eff) ∧
    deserialize_coinbase_payload m (payload coinbase) = Ok data ∧
    expected_coinbase_transaction m daa (cd_miner_data data) (rc_ghostdag_data c) (rc_mergeset_rewards c) (rc_mergeset_non_daa c)
      outs (reward_fee_split p r daa) inclusion = Ok t ∧
    @deferred_quality_bonus_outputs CoinbaseRuleError p (rc_window c) (rc_bond_view c) daa = Ok bonus ∧
    @reserve_drip_outputs CoinbaseRuleError p (rc_window c) (rc_bond_view c) daa (rc_parent_balance c) = Ok drip ∧
    (strip FULL coinbase = strip FULL (ct_tx t) ∧
     sumZ (value <$> outputs coinbase) ≤ merged_total (rc_mergeset_rewards c) (rc_mergeset_non_daa c) (rc_ghostdag_data c) + sumZ (value <$> bonus) + sumZ (value <$> drip.1) ∨
     collides (write_transaction TransactionHash64 coinbase FULL) (write_transaction TransactionHash64 (ct_tx t) FULL)).
Proof.
  unfold verify_block_rewards. intros ([[vro [newly expected]] e] & Hr & (cb & [= <-] & ([] & Hv & [= <-])%bind_Ok)%bind_Ok)%bind_Ok Hact Hbps Hok [Hst Hpay Hscr Hsz] Hty Hbytes.
  unfold verify_coinbase_transaction in Hv. cbn [fst snd] in *. apply bind_Ok in Hv as (data & Hdata%expect_Ok & (t & Ht%expect_Ok & Hv)%bind_Ok).
  destruct (tx_hash coinbase =? tx_hash (ct_tx t)) eqn:Hh; [apply Z.eqb_eq in Hh|done].
  destruct (validator_rewards_bound m p r c daa (coinbase :: txs) vro newly expected e (cd_miner_data data) t Hr Ht Hact Hbps Hst Hpay Hok) as (bonus & drip & Hbonus & Hdrip & Hle & Htv & Hlv).
  exists vro, (newly, expected), data, t, bonus, drip. split_and!; [done..|].
  destruct (deserialized_typed m _ _ Hbytes (tt_payload _ Hty) Hdata) as [Hspk Hlen]. pose proof (proj1 (is_uint_u64 _) (tt_payload _ Hty)) as Hpl.
  destruct (proj2 (transaction_hash_commits coinbase (ct_tx t) Hty (expected_coinbase_typed _ _ _ _ _ _ _ _ _ _ Ht Hscr Hspk Htv ltac:(by rewrite Hlen) ltac:(unfold is_u64; lia))) Hh) as [Hs|Hc]; [left|by right].
  split; [done|]. assert (outputs coinbase = outputs (ct_tx t)) as -> by (by injection Hs). done.
Qed.
End acceptance.

(** ** Retargeting *)

Section retarget.
Context `{Crypto}.

(** Outputs and miner indices of a coinbase transaction, by the miner script. *)
Definition miner_outputs (blue vro : list TransactionOutput) (red bounty : Z) (spk : ScriptPublicKey) : list TransactionOutput * list Z :=
  let st := push_miner red spk (blue, []) in push_miner bounty spk (st.1 ++ vro, st.2).

Lemma retarget_middle {E : Type} spk spk' l1 v l2 i : i = len l1 → @retarget_output E spk' (l1 ++ mkOutput v spk :: l2) i = Ok (l1 ++ mkOutput v spk' :: l2).
Proof.
  intros ->. unfold retarget_output. rewrite Nat2Z.id, list_lookup_middle by done. cbn [unwrap mbind outcome_bind value].
  rewrite insert_app_r_alt, Nat.sub_diag by done. done.
Qed.
Lemma retarget_miner_outputs {E : Type} blue vro red bounty spk spk' :
  for_each (@retarget_output E spk') (miner_outputs blue vro red bounty spk).2 (miner_outputs blue vro red bounty spk).1 = Ok (miner_outputs blue vro red bounty spk').1 ∧
  (miner_outputs blue vro red bounty spk).2 = (miner_outputs blue vro red bounty spk').2.
Proof.
  unfold miner_outputs, push_miner. cbn [fst snd].
  destruct (0 <? red), (0 <? bounty); cbn [fst snd app for_each]; (split; [|rewrite ?length_app; done]).
  - rewrite <- !(assoc_L (++)). cbn [app]. rewrite retarget_middle by done. cbn [mbind outcome_bind].
    replace (blue ++ mkOutput red spk' :: vro ++ [mkOutput bounty spk]) with ((blue ++ mkOutput red spk' :: vro) ++ [mkOutput bounty spk]) by (by rewrite <- (assoc_L (++))).
    rewrite retarget_middle by (rewrite !length_app; cbn; lia). cbn [mbind outcome_bind]. by rewrite <- (assoc_L (++)).
  - rewrite <- !(assoc_L (++)). cbn [app]. by rewrite retarget_middle.
  - by rewrite retarget_middle.
  - done.
Qed.

(** The template of another miner over the same rewards. *)
Lemma expected_retarget m daa md md' gd mr nd vro carve incl t subsidy : expected_coinbase_transaction m daa md gd mr nd vro carve incl = Ok t →
  @calc_block_subsidy CoinbaseError m daa = Ok subsidy → len (spk_script (md_script_public_key md')) ≤ coinbase_payload_script_public_key_max_len m →
  ∃ t' cb, expected_coinbase_transaction m daa md' gd mr nd vro carve incl = Ok t' ∧
    retarget_coinbase m md' (ct_miner_script_output_indices t) (ct_tx t) = Ok cb ∧
    payload cb = to_le_bytes 8 (blue_score gd) ++ to_le_bytes 8 subsidy ++ miner_data_bytes md' ∧
    outputs cb = outputs (ct_tx t') ∧ payload cb = payload (ct_tx t') ∧ tx_id cb = tx_id (ct_tx t) ∧ tx_hash cb = tx_hash (ct_tx t').
Proof.
  intros Ht Hsub Hl. unfold expected_coinbase_transaction in *. apply bind_Ok in Ht as (blue & Hb & (red & Hr & (s & Hs & (old & Hold & Ht)%bind_Ok)%bind_Ok)%bind_Ok).
  rewrite Hsub in Hs. injection Hs as <-. rewrite Hb. cbn [mbind outcome_bind]. rewrite Hr. cbn [mbind outcome_bind]. rewrite Hsub. cbn [mbind outcome_bind].
  pose proof (modify_serialized m (blue_score gd) subsidy md md' old Hold) as Hmod.
  assert (serialize_coinbase_payload m (mkCoinbaseData (blue_score gd) subsidy md') = Ok (to_le_bytes 8 (blue_score gd) ++ to_le_bytes 8 subsidy ++ miner_data_bytes md')) as Hser.
  { unfold serialize_coinbase_payload. cbn [cd_miner_data cd_blue_score cd_subsidy]. by replace (_ <? _) with false by lia. }
  rewrite Hser in *. cbn [mbind outcome_bind].
  destruct (retarget_miner_outputs (E := CoinbaseError) blue.1 vro red.1 (inclusion_bounty carve red.2 incl) (md_script_public_key md) (md_script_public_key md')) as [Hrun _].
  injection Ht as <-. cbn [ct_miner_script_output_indices ct_tx]. eexists _, _. split; [done|].
  unfold retarget_coinbase. cbn [payload Transaction_new Transaction_finalize outputs]. rewrite Hmod. cbn [mbind outcome_bind].
  unfold miner_outputs in Hrun. rewrite Hrun. cbn [mbind outcome_bind]. split; [done|]. by repeat split.
Qed.

(** C25. Retargeting a template is building it for the new miner: when the
    coinbase transaction of a template was built for one miner and is given to
    another, whose payload is within the limits, the changed transaction has
    the outputs and the payload of the transaction that would have been built
    for that miner over the same rewards, keeps the cached id of the old one,
    and passes the check of the block; the template carries it with the other
    transactions, the root of that list in the header and, on a header with an
    EVM commitment, the old timestamp. *)
Theorem retargeted_template_verifies m now md md' daa gd mr nd vro carve incl t subsidy bt txs :
  expected_coinbase_transaction m daa md gd mr nd vro carve incl = Ok t → @calc_block_subsidy CoinbaseError m daa = Ok subsidy →
  bt_transactions bt = ct_tx t :: txs → bt_coinbase_miner_script_output_indices bt = ct_miner_script_output_indices t →
  manager_typed m → miner_data_typed md' → is_u64 (blue_score gd) → is_u64 subsidy →
  len (spk_script (md_script_public_key md')) ≤ coinbase_payload_script_public_key_max_len m →
  MIN_PAYLOAD_LENGTH + len (spk_script (md_script_public_key md')) + len (md_extra_data md') ≤ max_coinbase_payload_len m →
  ∃ t' cb root timestamp, expected_coinbase_transaction m daa md' gd mr nd vro carve incl = Ok t' ∧
    outputs cb = outputs (ct_tx t') ∧ payload cb = payload (ct_tx t') ∧ tx_id cb = tx_id (ct_tx t) ∧
    verify_coinbase_transaction m cb daa gd mr nd vro carve incl = Ok tt ∧
    @calc_hash_merkle_root _ BuilderError (cb :: txs) = Ok root ∧
    (EVM_HEADER_VERSION ≤ hdr_version (bt_header bt) → timestamp = hdr_timestamp (bt_header bt)) ∧
    modify_block_template m now md' bt =
      (header ← header_finalize (set_root_and_time (bt_header bt) root timestamp);
       Ok (mkBlockTemplate header (cb :: txs) md' (bt_coinbase_has_red_reward bt) (bt_coinbase_miner_script_output_indices bt)
         (bt_selected_parent_timestamp bt) (bt_selected_parent_daa_score bt) (bt_selected_parent_hash bt) (bt_calculated_fees bt))).
Proof.
  intros Ht Hsub Htx Hix Hm Hmd Hbs Hu Hl Hmax.
  destruct (expected_retarget m daa md md' gd mr nd vro carve incl t subsidy Ht Hsub Hl) as (t' & cb & Ht' & Hrun & Hbytes & Ho & Hp & Hid & Hh).
  destruct (merkle_root_with_apex (E := BuilderError) (branch_with MerkleBranchHash64) (tx_hash <$> cb :: txs)) as (root & Hroot & _); [done|].
  exists t', cb, root, (if negb (EVM_HEADER_VERSION <=? hdr_version (bt_header bt)) && (hdr_timestamp (bt_header bt) <? now) then now else hdr_timestamp (bt_header bt)).
  split_and!; [done..| |done| |].
  - unfold verify_coinbase_transaction. rewrite Hbytes, deserialize_serialized by done. cbn [expect mbind outcome_bind cd_miner_data]. rewrite Ht'.
    cbn [expect mbind outcome_bind]. by rewrite Hh, Z.eqb_refl.
  - intros Hev. by replace (_ <=? _) with true by lia.
  - unfold modify_block_template. rewrite Htx, Hix. cbn [head unwrap mbind outcome_bind tail]. rewrite Hrun. cbn [map_err mbind outcome_bind].
    unfold calc_hash_merkle_root. by rewrite Hroot.
Qed.
End retarget.

(** ** A concrete block *)

Module CoinbaseWitness.
#[local] Instance crypto : Crypto := toy_crypto.
#[local] Existing Instance DnsWitness.DnsWitness.decode.

Definition bps : ForkedParam := mkForked 10 10 50.
Definition manager : CoinbaseManager :=
  match @CoinbaseManager_new unit 150 204 0 500 bps with Ok m => m | _ => mkManager 0 0 0 0 bps [] [] 0 end.
Definition spk (z : Z) : ScriptPublicKey := mkScriptPublicKey 0 [z; z + 1].
Definition miner (z : Z) : MinerData := mkMinerData (spk z) [7; 7; 7].
Definition split : FeeSplitParams := mkFeeSplitParams 6200 800 3000 0 9000 1000 0 9000 1000 0.
Definition rewards : gmap BlockHash BlockRewardData :=
  {[ 11 := mkRewardData 100000 500 100 (spk 1) HashMiner;
     12 := mkRewardData 90000 70 0 (spk 2) (ReplicaPalw 3 0 (spk 4) (spk 5) 17500);
     13 := mkRewardData 80000 900 0 (spk 6) HashMiner;
     14 := mkRewardData 80000 30 30 (spk 6) HashMiner ]}.
Definition non_daa : gset BlockHash := {[ 14 ]}.
Definition gd : GhostdagData := GhostdagData_new 40 40 11 [11; 12] [13; 14] ∅.

Lemma manager_new {E : Type} : @CoinbaseManager_new E 150 204 0 500 bps = Ok manager.
Proof. reflexivity. Qed.
Lemma merge_typed : merge_ok rewards non_daa gd.
Proof.
  split; [..|by vm_compute]; unfold rewards_known.
  - change (daa_blues non_daa (mergeset_blues gd)) with [11; 12]. repeat constructor; (eexists; split; [reflexivity|by vm_compute]).
  - change (mergeset_reds gd) with [13; 14]. repeat constructor; (eexists; split; [reflexivity|by vm_compute]).
Qed.
Lemma subsidy_eq : @calc_block_subsidy CoinbaseError manager 250 = Ok 205972571.
Proof. by vm_compute. Qed.

Lemma payload_witness : manager_typed manager ∧ ∃ bytes,
  serialize_coinbase_payload manager (mkCoinbaseData 40 205972571 (miner 8)) = Ok bytes ∧
  deserialize_coinbase_payload manager bytes = Ok (mkCoinbaseData 40 205972571 (miner 8)).
Proof.
  assert (manager_typed manager) as Hm by (by vm_compute). split; [done|].
  destruct (coinbase_payload_roundtrip manager Hm) as (Hser & _ & _). eexists. split; [vm_compute; reflexivity|].
  apply Hser; by vm_compute.
Defined.

Lemma emission_witness : (∃ s, @calc_block_subsidy unit manager 7 = Ok s) ∧
  @emitted unit manager 0 1000 ≤ emission_budget 10 ∧ emission_budget 10 = 1601322491839824000.
Proof.
  split; [|split].
  - destruct (proj1 (emission_schedule (E := unit) 150 204 0 500 bps manager manager_new ltac:(done) ltac:(done)) 7 ltac:(by vm_compute)) as (s & Hs & _). by exists s.
  - exact (proj1 (proj1 (proj2 (proj2 (emission_schedule (E := unit) 150 204 0 500 bps manager manager_new ltac:(done) ltac:(done))))
      1000%nat eq_refl (or_intror eq_refl) ltac:(by vm_compute))).
  - exact (proj2 (proj2 (proj2 (emission_schedule (E := unit) 150 204 0 500 bps manager manager_new ltac:(done) ltac:(done))))).
Defined.

Definition vro : list TransactionOutput := [mkOutput 1000 (spk 20)].
Lemma conservation_witness : ∃ t pool, expected_coinbase_transaction manager 250 (miner 8) gd rewards non_daa vro (Some split) (3, 4) = Ok t ∧
  @coinbase_validator_pool CoinbaseError rewards non_daa gd split = Ok pool ∧ 0 ≤ pool ∧
  sumZ (value <$> outputs (ct_tx t)) + pool ≤ merged_total rewards non_daa gd + sumZ (value <$> vro).
Proof.
  apply (coinbase_conserves_rewards manager 150 204 0 500 bps split rewards non_daa gd 250 (miner 8) vro 3 4 manager_new); try done. exact merge_typed.
Defined.

Definition ctx : RewardContext :=
  mkRewardContext gd rewards non_daa (mkWindow 249 []) DnsWitness.DnsWitness.two_bonds {[ 1 := (900, 180) ]} ∅ 500 20.
Definition schedule : RewardSplitParams := mkRewardSplit 0 split split.
(** The coinbase transaction the block must carry. *)
Definition block_rewards : list TransactionOutput * (Z * Z) :=
  match block_validator_rewards (E := unit) DnsWitness.DnsWitness.p schedule ctx 250 [DnsWitness.DnsWitness.shard_tx 50] with Ok r => r.1 | _ => ([], (0, 0)) end.
Definition coinbase : Transaction :=
  match expected_coinbase_transaction manager 250 (miner 8) gd rewards non_daa block_rewards.1 (Some split) block_rewards.2 with
  | Ok t => ct_tx t | _ => mkTransaction 0 [] [] 0 SUBNETWORK_ID_COINBASE 0 [] 0 0 end.
Definition small_output (o : TransactionOutput) : bool :=
  (0 <=? value o) && (value o <? 2 ^ 64) && (spk_version (out_script_public_key o) =? 0) && (length (spk_script (out_script_public_key o)) <? 100)%nat.
Lemma small_outputs : forallb small_output (outputs coinbase) = true.
Proof. by vm_compute. Qed.
Lemma small_typed o : small_output o = true → output_typed o.
Proof.
  unfold small_output. rewrite !andb_true_iff. intros [[[H1 H2] H3] H4]. apply Nat.ltb_lt in H4. apply Z.eqb_eq in H3.
  split; [unfold is_uint; change (256 ^ Z.of_nat 8) with (2 ^ 64); lia|]. split; [by rewrite H3|]. unfold short, is_uint. change (256 ^ Z.of_nat 8) with (2 ^ 64). lia.
Qed.
Lemma coinbase_wf : tx_typed coinbase.
Proof.
  split; try (by vm_compute); (split; [by vm_compute|]). apply Forall_forall. intros o Hin%list_elem_of_In.
  apply small_typed. exact (proj1 (forallb_forall _ _) small_outputs o Hin).
Qed.
Lemma block_verifies : match verify_block_rewards manager DnsWitness.DnsWitness.p schedule ctx 250 [coinbase; DnsWitness.DnsWitness.shard_tx 50] with Ok _ => true | _ => false end = true.
Proof. by vm_compute. Qed.
Lemma ctx_stakes_typed : stakes_typed (rc_bond_view ctx).
Proof. refine (bool_decide_eq_true_1 _ _). by vm_compute. Qed.

Definition small_spk (s : ScriptPublicKey) : bool := (spk_version s =? 0) && (length (spk_script s) <? 100)%nat.
Lemma small_spk_typed s : small_spk s = true → spk_typed s.
Proof.
  unfold small_spk. rewrite andb_true_iff. intros [H1%Z.eqb_eq H2%Nat.ltb_lt]. split; [by rewrite H1|].
  unfold short, is_uint. change (256 ^ Z.of_nat 8) with (2 ^ 64). lia.
Qed.
Lemma rewards_scripts : map_Forall (λ _, scripts_typed) rewards.
Proof.
  unfold rewards. repeat apply map_Forall_insert_2; [..|apply map_Forall_empty]; split; cbn [rd_script_public_key rd_work_reward_class]; try done;
    repeat split; try apply small_spk_typed; by vm_compute.
Qed.
Lemma ctx_typed : context_typed ctx [coinbase; DnsWitness.DnsWitness.shard_tx 50].
Proof.
  split; [exact ctx_stakes_typed|refine (bool_decide_eq_true_1 _ _); by vm_compute|exact rewards_scripts|apply Z.leb_le; by vm_compute].
Qed.
Lemma coinbase_bytes : Forall is_byte (payload coinbase).
Proof. refine (bool_decide_eq_true_1 _ _). by vm_compute. Qed.

Lemma ctx_rewards : match @block_validator_rewards _ DnsWitness.DnsWitness.p schedule CoinbaseRuleError ctx 250 [coinbase; DnsWitness.DnsWitness.shard_tx 50] with
  Ok r => r.1 = block_rewards | _ => False end.
Proof. vm_compute. reflexivity. Qed.
Lemma coinbase_data : deserialize_coinbase_payload manager (payload coinbase) = Ok (mkCoinbaseData 40 205972571 (miner 8)).
Proof. vm_compute. reflexivity. Qed.
Lemma coinbase_expected : match expected_coinbase_transaction manager 250 (miner 8) gd rewards non_daa block_rewards.1 (reward_fee_split DnsWitness.DnsWitness.p schedule 250) block_rewards.2 with
  Ok t => ct_tx t = coinbase | _ => False end.
Proof. vm_compute. reflexivity. Qed.

(** The block carries the expected transaction, so the bound holds of it. *)
Lemma acceptance_witness : ∃ bonus drip,
  @deferred_quality_bonus_outputs CoinbaseRuleError DnsWitness.DnsWitness.p (rc_window ctx) (rc_bond_view ctx) 250 = Ok bonus ∧
  @reserve_drip_outputs CoinbaseRuleError DnsWitness.DnsWitness.p (rc_window ctx) (rc_bond_view ctx) 250 500 = Ok drip ∧
  sumZ (value <$> outputs coinbase) ≤ merged_total rewards non_daa gd + sumZ (value <$> bonus) + sumZ (value <$> drip.1).
Proof.
  destruct (verify_block_rewards manager DnsWitness.DnsWitness.p schedule ctx 250 [coinbase; DnsWitness.DnsWitness.shard_tx 50]) as [eff|?| |] eqn:Hv;
    [|by pose proof block_verifies as Hok; rewrite Hv in Hok..].
  destruct (accepted_coinbase_bounded manager DnsWitness.DnsWitness.p schedule ctx 250 coinbase [DnsWitness.DnsWitness.shard_tx 50] eff Hv)
    as (outs & incl & data & t & bonus & drip & Hr & Hd & Ht & H1 & H2 & H3);
    [by vm_compute|by vm_compute|exact merge_typed|exact ctx_typed|exact coinbase_wf|exact coinbase_bytes|].
  exists bonus, drip. split; [exact H1|]. split; [exact H2|]. destruct H3 as [[_ H3]|[_ [H3 _]]]; [exact H3|]. exfalso. apply H3.
  pose proof ctx_rewards as Hc. rewrite Hr in Hc. cbn [fst] in Hc. rewrite coinbase_data in Hd. injection Hd as <-.
  pose proof coinbase_expected as He. rewrite <- Hc in He. cbn [fst snd] in He. cbn [cd_miner_data] in Ht.
  change (rc_ghostdag_data ctx) with gd in Ht. change (rc_mergeset_rewards ctx) with rewards in Ht. change (rc_mergeset_non_daa ctx) with non_daa in Ht.
  rewrite Ht in He. rewrite He. reflexivity.
Defined.

Definition header : Header := mkHeader 0 2 [] 0 0 0 77 0 0 3 250 0 40 0 0 0 0 0 0 0 0 0 0 0 0 0 0 0 0 0.
Lemma retarget_limits : manager_typed manager ∧ miner_data_typed (miner 9) ∧ is_u64 (blue_score gd) ∧ is_u64 205972571 ∧
  len (spk_script (md_script_public_key (miner 9))) ≤ coinbase_payload_script_public_key_max_len manager ∧
  MIN_PAYLOAD_LENGTH + len (spk_script (md_script_public_key (miner 9))) + len (md_extra_data (miner 9)) ≤ max_coinbase_payload_len manager.
Proof. by vm_compute. Qed.
Lemma retarget_witness : ∃ t t' cb root, expected_coinbase_transaction manager 250 (miner 8) gd rewards non_daa vro (Some split) (3, 4) = Ok t ∧
  expected_coinbase_transaction manager 250 (miner 9) gd rewards non_daa vro (Some split) (3, 4) = Ok t' ∧ outputs cb = outputs (ct_tx t') ∧
  verify_coinbase_transaction manager cb 250 gd rewards non_daa vro (Some split) (3, 4) = Ok tt ∧
  @calc_hash_merkle_root _ BuilderError [cb; ScriptWitness.tx] = Ok root.
Proof.
  destruct retarget_limits as (L1 & L2 & L3 & L4 & L5 & L6).
  destruct (expected_coinbase_total manager split rewards non_daa gd 250 (miner 8) vro 3 4 205972571
    (to_le_bytes 8 40 ++ to_le_bytes 8 205972571 ++ miner_data_bytes (miner 8)) merge_typed ltac:(done) ltac:(done) subsidy_eq ltac:(by vm_compute)) as (t & _ & Ht & _).
  destruct (retargeted_template_verifies manager 99 (miner 8) (miner 9) 250 gd rewards non_daa vro (Some split) (3, 4) t 205972571
    (mkBlockTemplate header [ct_tx t; ScriptWitness.tx] (miner 8) true (ct_miner_script_output_indices t) 0 0 0 []) [ScriptWitness.tx] Ht subsidy_eq eq_refl eq_refl L1 L2 L3 L4 L5 L6) as (t' & cb & root & ts & H1 & H2 & _ & _ & H3 & H4 & _).
  exists t, t', cb, root. split; [exact Ht|]. split; [exact H1|]. split; [exact H2|]. split; [exact H3|exact H4].
Defined.

Definition body : list Transaction := [coinbase; ScriptWitness.tx; ScriptWitness.tx].
Lemma body_wf : Forall tx_typed body.
Proof. exact (Forall_cons_2 _ _ _ coinbase_wf (Forall_cons_2 _ _ _ ScriptWitness.tx_wf (Forall_cons_2 _ _ _ ScriptWitness.tx_wf (Forall_nil_2 _)))). Qed.
Lemma merkle_witness : strip FULL <$> body = strip FULL <$> body ∨
  (∃ t1 t2, t1 ∈ body ∧ t2 ∈ body ∧ collides (write_transaction TransactionHash64 t1 FULL) (write_transaction TransactionHash64 t2 FULL)) ∨
  ∃ p q, p ∈ tree_inputs (branch_with MerkleBranchHash64) (Nat.log2_up (length body)) (tx_hash <$> body) ∧ q ∈ tree_inputs (branch_with MerkleBranchHash64) (Nat.log2_up (length body)) (tx_hash <$> body) ∧
    collides (branch_hasher MerkleBranchHash64 p) (branch_hasher MerkleBranchHash64 q).
Proof.
  exact (merkle_root_binds_transactions (E := unit) body body body_wf body_wf eq_refl eq_refl).
Defined.
End CoinbaseWitness.
